(* ===== verification/_CoqProject ===== *)
-Q . S2P
Prelude.v
Primality.v
Field.v
FixedPoint.v
Circuit.v
CircuitLogic.v
RangeCheck.v
Eltwise.v
EltwiseProofs.v
Shape.v
Reduce.v
Div.v
DotProduct.v
Lookup.v
EmbedLookup.v
Softmax.v
Norm.v
NormProofs.v
Honest.v
ChipTheorems.v
TableTheorems.v
Ordering.v
Bytes.v
Text.v
Resource.v
State.v
Identity.v
Estimate.v
Monitor.v
RunDb.v
RunDbProofs.v
RunDbSteps.v
RunDbSafety.v
RunDbMethods.v
Scheduler.v
Worker.v
WorkerProofs.v
Program.v
Dag.v
DagProofs.v
Linker.v
Partition.v
PartitionProofs.v
PoseidonBoundary.v
PoseidonProofs.v
Decode.v
Store.v
StoreFs.v
StoreLogic.v
StoreReads.v
StorePublish.v
Queue.v
QueueProofs.v
StoreStage.v
Backend.v
Onnx.v
GraphCompiler.v
GraphCompilerProofs.v
GraphTheorems.v
Assembler.v
Evaluate.v
Binding.v
BindingProofs.v
AssemblerProofs.v
AssemblerShape.v
AssemblerHonest.v
ProgramCircuit.v
ProgramCircuitProofs.v
ProgramHonest.v
ShapeBytes.v
Concrete.v
BoundaryTheorems.v
ProgramTheorems.v
WitnessCpu.v
WitnessRun.v
WitnessArtifact.v
BackendProofs.v
Statement.v
WitnessTheorems.v
StoreTheorems.v
