(* ===== verification/Prelude.v ===== *)
(** * zkIE: a verification library

    zkIE proves neural-network inference in shards.  A compiled program is cut
    into shards, the shards form a DAG, each shard becomes jobs (witness, key
    preparation, leaf proof, verification, aggregation), and a resumable runtime
    schedules the jobs on one machine, keeps their state in a database, and lets
    nothing through that has not been verified.  A proof is one of a Halo2 circuit
    whose chips compute with fixed-point numbers: an assembler lays the instructions
    of a shard out with them, and a witness back end runs the same instructions on
    the host.  This library models the chips, the assembler and the circuits it
    makes, the witness back end, the statements and the contracts of the provers,
    the compiler of graphs, its planning side and the runtime, from the sources under
    src/crates/, and proves what makes them correct.

    ** Files

    Shared vocabulary.  [Prelude] has Rust's [Result] with its monad notation
    ([let?]), machine integers as ranges of [Z], and generic list and map lemmas.
    [Ordering] has three-way comparisons ([then_with], [sort_by], [min_by],
    [max_by]) with the class [TotalCompare].  [Bytes] has byte buffers,
    little-endian writers and the class [PrefixFree] of encoders that can be read
    back off a buffer; every hash preimage is proved injective with it.  [Decode]
    has readers of a buffer and the class [Codec] of those that read exactly what a
    writer wrote.  [Text] has the parts of [str] that line-oriented messages use.

    zkie-core.  [Primality] shows that the order of the BN254 scalar field is
    prime.  [Field] (field_convert.rs) and [FixedPoint] (fixed_point.rs) are the
    numbers.  [Circuit] is what the chips use of the proving library, and what an
    accepted proof guarantees; [CircuitLogic] reasons about it, and [Shape] about
    two runs of one circuit.  The chips, under chips/: [RangeCheck]
    (range_check.rs, lookup_range_check.rs), [Eltwise] (eltwise.rs, and the row
    functions of layer_norm.rs), [Reduce] (reduce.rs), [Div] (div.rs),
    [DotProduct] (dot_general.rs), [Lookup] (lookup.rs, gelu.rs), [EmbedLookup]
    (embed_lookup.rs), [Softmax] (softmax.rs), [Norm] (rms_norm.rs,
    layer_norm.rs), each with its lemmas or with a file of them named
    [...Proofs].  [Honest] has the grid of an honest prover, [ChipTheorems] and
    [TableTheorems] the properties, each at a concrete circuit too.

    [PoseidonBoundary] (poseidon_boundary.rs) has descriptors of boundary tensors,
    their encodings, the commitment on the host and the chip that recomputes it;
    [PoseidonProofs] its lemmas.  [Assembler] (assembler.rs) lays a program out
    over the chips; [Evaluate] is the reference semantics of programs.
    [AssemblerProofs] shows soundness, [AssemblerShape] that the calls do not
    depend on witnesses, [AssemblerHonest] what an honest run does and that it
    returns.  [ProgramCircuit] (program_circuit.rs) is the circuit of a program
    and its shape bytes; [ProgramCircuitProofs], [ProgramHonest] and [ShapeBytes]
    have its lemmas.  [Concrete] decides concrete circuits and has some, and
    [BoundaryTheorems] and [ProgramTheorems] the properties.

    zkie-types.  [Identity] (identity.rs): digests, their text, identifiers, the
    run identity and its canonical preimage.  [Resource] (resource.rs): requests,
    capacities, validation, reservation.

    zkie-runtime.  [State] (state.rs): events and the transition function of a
    job.  [Estimate] (estimate.rs): calibrated reservations.  [Monitor]
    (monitor.rs): memory admission, termination of an attempt, the process-tree
    sum.  [RunDb] (db.rs and db/): the tables and every method that writes them.
    [RunDbProofs] inverts the statements, [RunDbSteps] decomposes each method
    into small steps, [RunDbSafety] has the invariants of every reachable
    database, [RunDbMethods] the exact effect of the four methods with loops.
    [Scheduler] (scheduler.rs) is written and proved against the class
    [ReadinessDb], which [RunDb] implements.  [Worker] (worker.rs) has the text
    protocol between scheduler and worker, [WorkerProofs] its round trips.
    [Queue] (queue.rs) composes database, scheduler, monitor and workers into the
    run loop over a class [QueueHost]; [QueueProofs] carries the database
    invariants through whole sessions.

    The content stores (store.rs).  [Store] has metadata, identities, attestations
    and names, with their encodings.  [StoreFs] has the methods, each a
    tree of file-system calls.  [StoreLogic] says what the calls promise, runs
    methods among other processes, has weakest preconditions for such runs, and a
    file system in memory that keeps the promises; [StoreReads], [StorePublish] and
    [StoreStage] prove the methods, the last with the module [Commit] of [Queue],
    which is what the queue does with a store.  [StoreTheorems] has the properties,
    at a run in memory too.

    zkie-compiler.  [Program] (isa.rs, tensor.rs, data types of
    graph_compiler.rs): instructions, registers, programs.  [Dag] and [DagProofs]
    (dag/model.rs): def-use analysis across shards.  [Linker] (dag/prover.rs,
    dag/linker.rs): commitments, mock proofs, the link check.  [Partition] and
    [PartitionProofs] (dag/partition.rs): the greedy planner and the plan digest.
    [Onnx] (onnx_parser.rs): the messages of an ONNX model, its weights and shapes,
    a weight as a fixed-point number.  [GraphCompiler] has one node's mapping
    (op_mapper.rs, [OpMapper]), the recognition of RMS norms (rms_norm_fusion.rs,
    [Fusion]) and the compilation of a graph (graph_compiler.rs, [GraphCompiler]);
    [GraphCompilerProofs] has the topological order, [GraphTheorems] the meaning of
    graphs and programs and the properties, at a concrete graph too.  [Binding]
    turns a compiled program, or one shard of a plan, into a program of the
    assembler (circuit_binding.rs, shard_binding.rs); [BindingProofs] has its
    properties, at a program in two shards too.

    zkie-prover.  [Backend] (backend.rs): the messages between coordinator and
    back end, their constructors, verification and receipts; a back end is the
    record [ProofBackend].  [BackendProofs] has their properties.  [Statement]
    (statement.rs): the leaf statement, its bytes and its public instances.
    [WitnessCpu] (witness_cpu.rs): the CPU witness back end, over the class [Host]
    for files and JSON text.  [WitnessRun] has rules for its outcomes and the
    instructions, the invariants of a constructed back end and one step of an
    execution, [WitnessArtifact] limits, whole executions, the wire form of
    artifacts and the lowering to the assembler's programs; [WitnessTheorems] has
    the properties.

    ** How code is represented

    A fallible function returns [Result]; one that may panic returns [Outcome],
    an option of a [Result], and a theorem excludes [None].  A database method is
    a transaction [Tx]: a function from the tables to a result and new tables, so
    a failed method leaves no trace, as the immediate transactions of the code do.
    The schema's keys, checks and foreign keys are guards.  A queue step is a
    function on the database, the host, and a list of accepted attempts, which the
    code does not read and the theorems speak of.  A [u32], [u64] or [i64] is a [Z]
    whose range is a hypothesis or a proved fact, and checked arithmetic is
    written out; an index is a [nat].  Strings are their UTF-8 bytes.

    A chip's [configure] is a function on a constraint system, its [assign] a
    function from the log of layouter calls to a value and more calls ([Meta] and
    [Lay]).  A gate is the function from advice queries to field elements that its
    closure builds; a grid satisfies a circuit when every gate vanishes on every
    row, every looked-up tuple is a row of its loaded table and copied cells are
    equal ([satisfied]).  The floor planner and the layouter's refusals are
    parameters.  A theorem speaks of any system that extends the one a chip's
    [configure] returned, and of any log that contains the calls of its [assign],
    so it applies to a chip inside a larger circuit.  Binary64 arithmetic is the
    Standard Library's executable IEEE 754; [f64::exp] is a parameter.

    BLAKE3, SQLite's storage, the operating system, the workers, the verifier and
    the cost model are not defined: the hash and the clock are parameters, the
    others are classes or records of operations.  No property assumes more of the
    hash than the length of a digest; where a hash matters the conclusion exhibits
    the collision.  A method of a store is a [Prog], whose nodes are calls of the
    operating system; [effect] relates the visible files before and after a call
    as its documentation does, and [rely] says what other processes leave alone:
    descriptors and private files of this process, and objects once stored.

    ** What is proved

    Chips.  Soundness: in every satisfied circuit, whatever the prover assigned,
    the cells of additions, products, sums, means, quotients, dot products,
    lookups and RMS norms hold the exact fixed-point results, with no wrap-around
    in the field.  Completeness: an honest run satisfies every call it makes.
    Equivalence: runs that differ only in witnesses, and norms that differ in
    epsilon, are satisfied by the same grids.

    Programs, without RMS norms.  An accepted proof of a program circuit is its
    computation: the public outputs are those of the reference semantics on the
    public inputs and weights, whatever the witnesses; with boundary commitments,
    the public values are commitments to such inputs and outputs.  A program that
    evaluates is assigned without error or panic and accepted, where sums are exact
    and the layouter has room.  Circuits with equal parameters have one key, in either
    mode, with their witnesses or without.  A commitment binds tensor and descriptor
    up to a collision or, for different lengths, a preimage of the constant that
    marks the protocol; shape bytes bind the parameters.

    Witnesses.  Executing a shard never panics; its result is determined, and its
    errors are limits and instructions only.  Decoding accepts exactly what an
    execution returned, and every result can be written and read back.  What is
    executed lowers to a program that evaluates to the same registers and whose
    circuit an honest prover satisfies.

    Provers.  [verify_proof] returns exactly the submitted proof, only when every
    identity agrees and the back end's receipt is for exactly this request; a
    verified proof is of its job; a receipt cannot be replayed for another request.
    Statements decode exactly from their canonical encodings.

    Run database.  For every sequence of method calls the tables stay consistent,
    the event log replays to the current state, no job leaves pending for work before
    its predecessors are verified, but for edges added to it later, and a verified
    job stays verified.  Refreshing
    readiness, handling a failed attempt, blocking descendants and recovering
    after a restart have exact specifications, row by row.

    Queue.  Through any number of sessions, finished or aborted, with any
    behaviour of the host, a verified job has an attempt that the independent
    verifier accepted, and so has each predecessor of a job that was started; a
    session never panics.

    Content stores.  At every moment of a publication, among other processes and
    after a crash, every object of the store is whole and named by its digest; a
    publication always answers, and when it succeeds its name holds exactly the
    validated object.  What the queue commits is an object in the store that holds
    the bytes a job has staged, attested as the proof of this job and attempt.
    Opening by digest returns that object.  Metadata decode exactly from their
    encodings, and an attestation determines the identity, the metadata and the
    payload.

    Scheduler and resources.  A decision is best fit with aging, never
    oversubscribes a resource, the memory of a device included, leaves nothing out
    that fits unless it keeps a place for an aged job, and its u128 score cannot
    wrap.  A batch is accepted exactly when it fits, in any order, and reserving it is
    exact.

    Planner, DAG, linker.  A plan covers the program within budget, ends each
    shard only for a reason, exists whenever one can, and has the fewest shards
    when costs are monotone and there are no hints.  The DAG has exactly the
    cross-shard uses as edges.  Linking succeeds exactly on consistent proofs, and
    binds the values that shards exchange.

    Graphs.  The numbers are a parameter ([Scalars], [ScalarLaws]); on tensors of
    them ONNX's operators ([onnx]: broadcasting, products, rows, gathering) and the
    instructions ([sem], on flat lists) are defined.  A compiled graph computes the
    values that satisfy all its nodes, epsilons rounded to thousandths, also where
    seven nodes became one RMS norm; [Faithful] has the conditions, which the
    compiler does not check.  A graph compiles when it is acyclic, in
    single-assignment form and well-formed, its nodes are supported, and no output is
    hidden inside a recognized norm ([Compilable]); the topological order is found
    exactly when there is one; the only panic is an overflowing product of dimensions.

    Bindings.  A bound program evaluates as the compiled one.  Shards bound one
    after the other, each with values of earlier ones, compute together the values
    of the whole program; the two sides of an edge describe one boundary; binding
    never panics.

    Text and bytes.  Digests, persisted enumerations, worker specs and results
    read back what was written; run and plan preimages determine what they hash.

    Limits.  Some theorems exhibit behaviour that a document or a comment rules
    out: the epsilon of a norm and the index of an embedding are not bound by the
    proof, a softmax can panic, an enabled lookup row accepts the padding pair; an
    ambiguous job field, a lost trailing space, dependencies lost by a session
    that fails while planning, an edge added to a job that is ready already, and a
    rejected output that is run again; a concatenation compiled to its first tensor
    and a transposition to its input, exponents other than two and means over any
    axis in an RMS norm, a softmax that loses its axis, a column that is added in
    turn, and a NaN weight with which no plan matches its program.

    ** Fuel

    [RunDb.block_loop] takes one step per job and one for the failed job;
    [Scheduler.select_loop] takes one per candidate; [Monitor.sum_tree] one per
    process and root; [Partition.extend] and [Partition.plan_ranges] one per
    instruction; [Queue.rounds_loop] takes the rounds the caller allows, as the
    code does; [GraphCompiler.drain] takes one step per node.  Each bound is proved enough: the specifications give a result, not
    only the correctness of one.  [StoreFs.read_payload], [StoreFs.copy_loop] and
    [Queue.Commit.write_all] take one step per byte, which is proved enough as well;
    [StoreFs.stage_loop], [StoreFs.quarantine_loop] and [StoreFs.recover_loop] are
    given a number of names and entries to try, where the code has no bound.

    ** Not modelled

    Opening and migrating the database, more than one run in it, and the clock
    reading of a call that fails; the removal of an object by another process whose
    publication failed, which [rely] excludes; descriptors that are closed, permissions
    and the durability of fsync in the stores, whose recovery and opening are
    modelled but have no theorems; the command line; reading an ONNX file and
    decoding its protobuf message; patch embedding; the Halo2 prover and
    aggregation (halo2_cpu.rs, aggregation.rs), which are file formats and calls of
    third-party provers; the TimesFM engine and the EVM verifier.
    Of the proving library only the guarantee of an accepted proof is used:
    commitments, challenges and blinding rows are not modelled.  Soundness is not
    shown for softmax and layer norm; the theorems about whole programs leave out
    RMS norms, which are treated as chips and in the witness back end. *)

From Stdlib Require Export ZArith Lia.
From stdpp Require Export base tactics option gmap strings sorting numbers pretty.
From stdpp Require Export list.

#[global] Set Default Proof Using "Type".

(** ** Rust's [Result] *)

(** [Result<T, E>] as the code uses it: a value or a typed error. *)
Inductive Result (T E : Type) : Type :=
| Ok (value : T)
| Err (error : E).
Arguments Ok {T E} value.
Arguments Err {T E} error.

Declare Scope zkie_scope.
Delimit Scope zkie_scope with zkie.

Definition result_bind {A B E} (c : Result A E) (k : A → Result B E) : Result B E :=
  match c with Ok x => k x | Err e => Err e end.

Definition map_err {A E F} (f : E → F) (c : Result A E) : Result A F :=
  match c with Ok x => Ok x | Err e => Err (f e) end.

Definition ok_or {A E} (o : option A) (e : E) : Result A E :=
  match o with Some x => Ok x | None => Err e end.

Notation "'let?' x := c 'in' k" := (result_bind c (λ x, k))
  (at level 10, x name, c at level 100, k at level 200) : zkie_scope.
Notation "'let?' ' p := c 'in' k" := (result_bind c (λ p, k))
  (at level 10, p strict pattern, c at level 100, k at level 200) : zkie_scope.
Notation "'ensure' b 'else' e ';;' k" := (if b then k else Err e)
  (at level 10, b at level 100, e at level 100, k at level 200) : zkie_scope.
#[global] Open Scope zkie_scope.

Definition is_ok {A E} (r : Result A E) : bool :=
  match r with Ok _ => true | Err _ => false end.

Lemma result_bind_Ok {A B E} (c : Result A E) (k : A → Result B E) b :
  result_bind c k = Ok b ↔ ∃ a, c = Ok a ∧ k a = Ok b.
Proof. destruct c; simpl; naive_solver. Qed.

Lemma result_bind_Err {A B E} (c : Result A E) (k : A → Result B E) e :
  result_bind c k = Err e ↔ c = Err e ∨ ∃ a, c = Ok a ∧ k a = Err e.
Proof. destruct c; simpl; naive_solver. Qed.

Lemma map_err_Ok {A E F} (f : E → F) (c : Result A E) a : map_err f c = Ok a ↔ c = Ok a.
Proof. destruct c; simpl; split; intros [= ->]; done. Qed.

Lemma ok_or_Ok {A E} (o : option A) (e : E) x : ok_or o e = Ok x ↔ o = Some x.
Proof. destruct o; simpl; naive_solver. Qed.

(** [iter().try_for_each] and [collect::<Result<Vec<_>, _>>]. *)
Fixpoint result_mapM {A B E} (f : A → Result B E) (l : list A) : Result (list B) E :=
  match l with
  | [] => Ok []
  | x :: l => let? y := f x in let? ys := result_mapM f l in Ok (y :: ys)
  end.

Lemma result_mapM_Ok {A B E} (f : A → Result B E) l ys :
  result_mapM f l = Ok ys ↔ Forall2 (λ x y, f x = Ok y) l ys.
Proof.
  revert ys. induction l as [|x l IH]; intros ys; simpl.
  - split; [intros [= <-]; constructor | inversion 1; done].
  - rewrite result_bind_Ok. setoid_rewrite result_bind_Ok. split.
    + intros (y & Hy & ys' & Hys & [= <-]). constructor; [done|by apply IH].
    + inversion 1 as [|? y ? ys' Hy Hys]; subst. exists y; split; [done|].
      exists ys'; split; [by apply IH|done].
Qed.

(** The outcome of a routine that may panic. *)
Definition Outcome (A E : Type) : Type := option (Result A E).
Definition outcome_bind {A B E} (m : Outcome A E) (k : A → Outcome B E) : Outcome B E :=
  match m with
  | Some (Ok a) => k a
  | Some (Err e) => Some (Err e)
  | None => None
  end.
Definition or_panic {A B E} (m : option A) (k : A → Outcome B E) : Outcome B E :=
  match m with Some a => k a | None => None end.
Lemma outcome_bind_Ok {A B E} (m : Outcome A E) (k : A → Outcome B E) b :
  outcome_bind m k = Some (Ok b) ↔ ∃ a, m = Some (Ok a) ∧ k a = Some (Ok b).
Proof. destruct m as [[]|]; simpl; naive_solver. Qed.

Fixpoint result_fold {A S E} (f : S → A → Result S E) (s : S) (l : list A) : Result S E :=
  match l with
  | [] => Ok s
  | x :: l => let? s' := f s x in result_fold f s' l
  end.

Lemma result_fold_app {A S E} (f : S → A → Result S E) s l1 l2 :
  result_fold f s (l1 ++ l2) = (let? s' := result_fold f s l1 in result_fold f s' l2).
Proof. revert s. induction l1 as [|x l1 IH]; intros s; simpl; [done|]. by destruct (f s x); simpl. Qed.

(** ** Machine integers

    Rust's fixed-width integers are [Z] with their range; arithmetic that the
    code checks returns an option, and arithmetic that cannot overflow carries
    a lemma that says so. *)

Definition u32_max : Z := 2 ^ 32 - 1.
Definition u64_max : Z := 2 ^ 64 - 1.
Definition i64_min : Z := - 2 ^ 63.
Definition i64_max : Z := 2 ^ 63 - 1.
Definition i128_min : Z := - 2 ^ 127.
Definition i128_max : Z := 2 ^ 127 - 1.
Definition u128_max : Z := 2 ^ 128 - 1.

Definition in_u32 (z : Z) : Prop := (0 ≤ z ≤ u32_max)%Z.
Definition in_u64 (z : Z) : Prop := (0 ≤ z ≤ u64_max)%Z.
Definition in_i64 (z : Z) : Prop := (i64_min ≤ z ≤ i64_max)%Z.
Definition in_i128 (z : Z) : Prop := (i128_min ≤ z ≤ i128_max)%Z.
Definition in_u128 (z : Z) : Prop := (0 ≤ z ≤ u128_max)%Z.

#[export] Instance in_u32_dec z : Decision (in_u32 z) := _.
#[export] Instance in_u64_dec z : Decision (in_u64 z) := _.
#[export] Instance in_i64_dec z : Decision (in_i64 z) := _.
#[export] Instance in_i128_dec z : Decision (in_i128 z) := _.

(** [u64::try_from(x)] / [checked_*] on [u64]. *)
Definition try_u64 (z : Z) : option Z :=
  if bool_decide (in_u64 z) then Some z else None.
Definition try_u32 (z : Z) : option Z :=
  if bool_decide (in_u32 z) then Some z else None.
Definition try_i64 (z : Z) : option Z :=
  if bool_decide (in_i64 z) then Some z else None.

Lemma try_u64_Some z w : try_u64 z = Some w ↔ z = w ∧ in_u64 z.
Proof. unfold try_u64. case_bool_decide; naive_solver. Qed.
Lemma try_u32_Some z w : try_u32 z = Some w ↔ z = w ∧ in_u32 z.
Proof. unfold try_u32. case_bool_decide; naive_solver. Qed.
Lemma try_i64_Some z w : try_i64 z = Some w ↔ z = w ∧ in_i64 z.
Proof. unfold try_i64. case_bool_decide; naive_solver. Qed.

(** [u64::saturating_add] and [i64::saturating_sub]. *)
Definition saturating_add_u64 (a b : Z) : Z := Z.min u64_max (a + b).
Definition saturating_sub_i64 (a b : Z) : Z := Z.max i64_min (Z.min i64_max (a - b)).

Ltac unfold_ints :=
  unfold in_u32, in_u64, in_i64, in_i128, in_u128, u32_max, u64_max, i64_min, i64_max,
    i128_min, i128_max, u128_max in *.

(** Linear arithmetic after opening the integer ranges. *)
Ltac zlia := unfold_ints; lia.

(** ** Decision by enumeration *)

(** A boolean statement about the integers below [n], decided by running it. *)
Lemma forallb_range (P : Z → bool) n :
  forallb (λ k, P (Z.of_nat k)) (seq 0 n) = true → ∀ z, (0 ≤ z < Z.of_nat n)%Z → P z = true.
Proof.
  intros H z Hz. rewrite forallb_forall in H.
  rewrite <-(Z2Nat.id z) by lia. apply H, in_seq. lia.
Qed.

(** ** Maps *)

Lemma alter_as_insert {A} (f : A → A) (m : gmap string A) i x :
  m !! i = Some x → alter f i m = <[i := f x]> m.
Proof.
  intros H. apply map_eq. intros j. destruct (decide (i = j)) as [<-|Hne].
  - by rewrite lookup_alter_eq, lookup_insert_eq, H.
  - by rewrite lookup_alter_ne, lookup_insert_ne.
Qed.

Lemma filter_nil_iff {A} (P : A → Prop) `{∀ x, Decision (P x)} (l : list A) :
  filter P l = [] ↔ ∀ x, x ∈ l → ¬ P x.
Proof.
  split.
  - intros E x Hx HP. by apply (filter_nil_not_elem_of P l x).
  - intros Hl. destruct (filter P l) as [|x k] eqn:E; [done|].
    assert (x ∈ filter P l) as [HP Hx]%list_elem_of_filter by (rewrite E; by left).
    by destruct (Hl x Hx).
Qed.

Lemma filter_all {A} (P : A → Prop) `{∀ x, Decision (P x)} (l : list A) :
  Forall P l → filter P l = l.
Proof. induction 1 as [|x l Hx _ IH]; [done|]. by rewrite filter_cons_True, IH. Qed.

(** ** Sums and enumerations *)

Definition zsum (l : list Z) : Z := foldr Z.add 0%Z l.

Lemma zsum_cons x l : zsum (x :: l) = (x + zsum l)%Z.
Proof. done. Qed.

Lemma zsum_take_cons {A} (f : A → Z) n x l : zsum (take (S n) (f <$> x :: l)) = (f x + zsum (take n (f <$> l)))%Z.
Proof. done. Qed.

Lemma zsum_app l l' : zsum (l ++ l') = (zsum l + zsum l')%Z.
Proof. induction l as [|x l IH]; simpl; [lia|]. unfold zsum in *. lia. Qed.

Lemma zsum_take_S l i x : l !! i = Some x → zsum (take (S i) l) = (zsum (take i l) + x)%Z.
Proof. intros Hi. rewrite (take_S_r _ _ _ Hi), zsum_app. unfold zsum at 2. simpl. lia. Qed.

Lemma zsum_bound b l : Forall (λ x, - b ≤ x ≤ b)%Z l → (- b * Z.of_nat (length l) ≤ zsum l ≤ b * Z.of_nat (length l))%Z.
Proof. induction 1 as [|x l Hx Hl IH]; cbn [length zsum foldr]; [lia|]. fold (zsum l). lia. Qed.

(** [iter().enumerate()]. *)
Definition enumerate {A} (l : list A) : list (nat * A) := zip (seq 0 (length l)) l.

Lemma length_enumerate {A} (l : list A) : length (enumerate l) = length l.
Proof. unfold enumerate. rewrite length_zip_with, length_seq. lia. Qed.

Lemma lookup_enumerate {A} (l : list A) i : enumerate l !! i = pair i <$> l !! i.
Proof.
  unfold enumerate. rewrite lookup_zip_with. destruct (l !! i) as [x|] eqn:E; simpl.
  - rewrite (proj2 (lookup_seq 0 (length l) i i)); [done|]. split; [done|]. by eapply lookup_lt_Some.
  - by destruct (seq _ _ !! i).
Qed.

Lemma elem_of_enumerate {A} (l : list A) i x : (i, x) ∈ enumerate l ↔ l !! i = Some x.
Proof.
  rewrite list_elem_of_lookup. setoid_rewrite lookup_enumerate. split.
  - intros [j E]. apply fmap_Some in E as (y & Hy & [= -> ->]). done.
  - intros E. exists i. by rewrite E.
Qed.

Lemma Forall2_enumerate {A B} (Q : nat * A → B → Prop) (g : nat → B) (l : list A) ys :
  Forall2 (λ p y, y = g p.1 ∧ Q p y) (enumerate l) ys →
  ys = g <$> seq 0 (length l) ∧ ∀ i x, l !! i = Some x → Q (i, x) (g i).
Proof.
  intros H. assert (∀ i x, l !! i = Some x → ys !! i = Some (g i) ∧ Q (i, x) (g i)) as Hl.
  { intros i x Hx. destruct (Forall2_lookup_l _ _ _ i (i, x) H) as (y & Hy & -> & HQ); [|done].
    by rewrite lookup_enumerate, Hx. }
  split; [|intros i x Hx; by apply (Hl i x)].
  apply list_eq. intros i. destruct (l !! i) as [x|] eqn:E.
  - rewrite (proj1 (Hl i x E)), list_lookup_fmap.
    rewrite (proj2 (lookup_seq 0 (length l) i i)); [done|]. split; [done|]. by eapply lookup_lt_Some.
  - apply lookup_ge_None in E. rewrite !lookup_ge_None_2; [done| |].
    + by rewrite length_fmap, length_seq.
    + by rewrite <-(Forall2_length _ _ _ H), length_enumerate.
Qed.

(** A list of witnesses. *)
Lemma list_of_exists {A} (P : nat → A → Prop) n :
  (∀ i, i < n → ∃ x, P i x) → ∃ xs, length xs = n ∧ ∀ i x, xs !! i = Some x → P i x.
Proof.
  induction n as [|n IH]; intros Hex.
  - exists []. split; [done|]. intros i x. by rewrite lookup_nil.
  - destruct IH as (xs & Hlen & Hxs); [intros; apply Hex; lia|]. destruct (Hex n) as [x Hx]; [lia|].
    exists (xs ++ [x]). rewrite length_app, Hlen. split; [simpl; lia|].
    intros i y [Hy|(Hi & Hy)]%lookup_app_Some; [by apply Hxs|].
    apply list_lookup_singleton_Some in Hy as [Hi0 <-]. assert (i = n) as -> by lia. done.
Qed.
