(* ===== verification/Primality.v ===== *)
(** * Primality certificates

    Pocklington's criterion, and the primality of the order of the BN254 scalar
    field, over which every circuit of the program is defined. *)
From Stdlib Require Import ZArith Lia Znumtheory Zpow_facts List Zmod.
Import ListNotations.
Open Scope Z_scope.

(** A prime divisor no larger than the square root of a composite number. *)
Lemma least_divisor_prime n : 1 < n -> ~ Z.prime n -> exists q, Z.prime q /\ (q | n) /\ q * q <= n.
Proof.
  intros Hn Hnp.
  assert (Hind : forall m, 0 <= m -> forall d, d <= m -> 1 < d -> (d | n) -> d < n -> d * d <= n ->
    exists q, Z.prime q /\ (q | n) /\ q * q <= n).
  { intros m Hm. pattern m. apply natlike_ind; [|clear m Hm|exact Hm].
    - intros d H0 H1. lia.
    - intros m Hm IH d Hdm Hd Hdn Hlt Hsq. destruct (prime_dec d) as [Hp|Hp].
      { exists d. now rewrite prime_alt. }
      rewrite <-prime_alt in Hp. destruct (not_prime_divide d) as (e & He & Hed); [lia|now rewrite <-prime_alt|].
      apply (IH e); [lia|lia|now apply Z.divide_trans with d|lia|nia]. }
  destruct (not_prime_divide n) as (d & Hd & Hdn); [lia|now rewrite <-prime_alt|].
  destruct Hdn as (e & He).
  destruct (Z_le_gt_dec (d * d) n) as [Hle|Hgt].
  - apply (Hind d ltac:(lia) d); [lia|lia|now exists e|lia|lia].
  - apply (Hind e ltac:(nia) e); [lia|nia|exists d; lia|nia|nia].
Qed.


(** ** Pocklington's criterion *)

Section Pocklington.
Variables (n p a : Z).
Hypothesis p_prime : Z.prime p.
Hypothesis n_big : 1 < n.
Hypothesis p_divides : (p | n - 1).
Hypothesis a_order : a ^ (n - 1) mod n = 1.
Hypothesis a_proper : Z.gcd (a ^ ((n - 1) / p) - 1) n = 1.

Lemma one_of_divisor q m : (q | n) -> 1 < q -> 0 <= m -> a ^ m mod n = 1 -> (Zmod.of_Z q a ^ m)%Zmod = Zmod.one.
Proof using All.
  intros [k Hk] Hq Hm E. rewrite <-Zmod.of_Z_pow, <-Zmod.of_Z_1 by lia. apply Zmod.of_Z_inj.
  pose proof (Z.div_mod (a ^ m) n ltac:(lia)) as D. rewrite E, Hk in D. rewrite D.
  replace (k * q * (a ^ m / (k * q)) + 1) with (1 + k * (a ^ m / (k * q)) * q) by ring.
  now rewrite Z.mod_add by lia.
Qed.

(** An exponent below [n - 1] without the factor [p] divides [(n - 1) / p]. *)
Lemma divides_cofactor d : (d | n - 1) -> ~ (p | d) -> (d | (n - 1) / p).
Proof using All.
  intros [k Hk] Hd. pose proof (Z.prime_ge_2 p p_prime).
  destruct (proj1 (Z.divide_prime_mul k d p p_prime)) as [[k' ->]|Hpk]; [now rewrite <-Hk| |easy].
  exists k'. rewrite Hk. replace (k' * p * d) with (k' * d * p) by ring. apply Z.div_mul. lia.
Qed.

Lemma pocklington_divides q : Z.prime q -> (q | n) -> (p | q - 1).
Proof using All.
  intros Hq Hqn. pose proof (Z.prime_ge_2 q Hq). pose proof (Z.prime_ge_2 p p_prime).
  destruct (Zdivide_dec p (q - 1)) as [|Hnd]; [assumption|exfalso].
  set (x := Zmod.of_Z q a).
  assert (Hx : (x ^ (n - 1))%Zmod = Zmod.one) by (apply one_of_divisor; [assumption|lia|lia|assumption]).
  assert (Hnz : x <> Zmod.zero).
  { intros E. rewrite E, Zmod.pow_0_l in Hx by lia. symmetry in Hx. revert Hx. apply Zmod.one_neq_zero. lia. }
  assert (Hc : Z.gcd (Zmod.unsigned x) q = 1).
  { rewrite Z.gcd_comm. apply Z.coprime_prime_small; [assumption|].
    pose proof (Zmod.unsigned_pos_bound x ltac:(lia)). pose proof (Zmod.unsigned_nz x Hnz). lia. }
  pose proof (Zmod.fermat_nz x Hnz Hq) as Hf. replace (Z.pred q) with (q - 1) in Hf by lia.
  destruct (Z.gcd_bezout (n - 1) (q - 1) _ eq_refl) as (u & v & Huv).
  set (d := Z.gcd (n - 1) (q - 1)) in *.
  assert (Hd : (x ^ d)%Zmod = Zmod.one).
  { rewrite <-Huv, Zmod.pow_add_r_coprime, (Z.mul_comm u), (Z.mul_comm v), !Zmod.pow_mul_r_coprime by assumption.
    rewrite Hx, Hf, !Zmod.pow_1_l. apply Zmod.mul_1_l. }
  destruct (divides_cofactor d) as (k & Hk).
  { apply Z.gcd_divide_l. }
  { intros Hpd. apply Hnd. apply Z.divide_trans with d; [assumption|apply Z.gcd_divide_r]. }
  assert (E : (x ^ ((n - 1) / p))%Zmod = Zmod.one)
    by (rewrite Hk, (Z.mul_comm k), Zmod.pow_mul_r_coprime, Hd, Zmod.pow_1_l by assumption; reflexivity).
  assert (0 <= (n - 1) / p) by (apply Z.div_pos; lia).
  unfold x in E. rewrite <-Zmod.of_Z_pow, <-Zmod.of_Z_1 in E by assumption.
  apply Zmod.of_Z_inj in E. apply Z.cong_iff_0, Z.mod_divide in E; [|lia].
  assert (Hq1 : (q | 1)) by (rewrite <-a_proper; now apply Z.gcd_greatest).
  apply Z.divide_1_r_nonneg in Hq1; lia.
Qed.
End Pocklington.

(** The condition on a prime factor of [n - 1], with its base. *)
Definition factor_ok (n : Z) (f : Z * Z) : bool :=
  let '(p, a) := f in
  let b := Zpow_mod a ((n - 1) / p) n in
  (1 <? n) && (0 <? p) && ((n - 1) mod p =? 0) && (Zpow_mod b p n =? 1) && (Z.gcd (b - 1) n =? 1).

Lemma factor_ok_divides n f q : factor_ok n f = true -> Z.prime (fst f) ->
  Z.prime q -> (q | n) -> (fst f | q - 1).
Proof.
  destruct f as [p a]. simpl. intros Hok Hp Hq Hqn.
  rewrite !Bool.andb_true_iff in Hok. destruct Hok as [[[[Hn Hp0] Hdiv] Ha] Hg].
  apply Z.ltb_lt in Hp0, Hn. apply Z.eqb_eq in Hdiv, Ha, Hg.
  rewrite !Zpow_mod_correct in Ha by lia. rewrite Zpow_mod_correct in Hg by lia.
  assert (0 <= (n - 1) / p) by (apply Z.div_pos; lia).
  apply Z.mod_divide in Hdiv; [|lia]. destruct Hdiv as [k Hk].
  assert (Hkp : (n - 1) / p = k) by (rewrite Hk; apply Z.div_mul; lia). rewrite Hkp in *.
  apply (pocklington_divides n p a); try assumption.
  - now exists k.
  - rewrite Hk, Z.pow_mul_r, Zpower_mod by lia. exact Ha.
  - rewrite Hkp. rewrite Z.gcd_comm, <-Z.gcd_mod, Zminus_mod_idemp_l, Z.gcd_mod, Z.gcd_comm in Hg by lia. exact Hg.
Qed.

(** ** Certificates *)

(** Distinct prime factors of [n - 1], each with its base; their product is at
    least the square root of [n]. *)
Definition Certificate : Type := list (Z * Z).

Definition factored (l : Certificate) : Z := fold_right (fun f acc => fst f * acc) 1 l.

Fixpoint coprime_factors (l : Certificate) : bool :=
  match l with
  | [] => true
  | f :: l => (Z.gcd (fst f) (factored l) =? 1) && coprime_factors l
  end.

Definition certifies (n : Z) (l : Certificate) : bool :=
  (1 <? n) && forallb (factor_ok n) l && coprime_factors l && (n <=? factored l * factored l).

Lemma factored_divides l q : coprime_factors l = true -> Forall (fun f => 0 < fst f /\ (fst f | q - 1)) l ->
  (factored l | q - 1) /\ 0 < factored l.
Proof.
  induction l as [|f l IH]; simpl; intros Hc Hl; [split; [apply Z.divide_1_l|lia]|].
  rewrite Bool.andb_true_iff in Hc. destruct Hc as [Hg Hc]. apply Z.eqb_eq in Hg.
  inversion Hl as [|? ? [Hpos [k Hk]] Hl']; subst. destruct (IH Hc Hl') as [H1 H2].
  assert (Hfk : (factored l | k)).
  { apply Z.gauss with (fst f); [rewrite Z.mul_comm, <-Hk; assumption|now rewrite Z.gcd_comm]. }
  destruct Hfk as [j ->]. split; [|nia]. exists j. lia.
Qed.

Lemma pocklington n l : Forall (fun f => Z.prime (fst f)) l -> certifies n l = true -> Z.prime n.
Proof.
  intros Hl Hc. unfold certifies in Hc. rewrite !Bool.andb_true_iff in Hc.
  destruct Hc as [[[Hn Hok] Hcop] Hbig]. apply Z.ltb_lt in Hn. apply Z.leb_le in Hbig.
  destruct (prime_dec n) as [Hp|Hp]; [now apply prime_alt|exfalso]. rewrite <-prime_alt in Hp.
  destruct (least_divisor_prime n Hn Hp) as (q & Hq & Hqn & Hsq). pose proof (Z.prime_ge_2 q Hq).
  destruct (factored_divides l q Hcop) as [Hdiv Hpos].
  { rewrite forallb_forall in Hok. rewrite Forall_forall in *. intros f Hf. split.
    - pose proof (Z.prime_ge_2 _ (Hl f Hf)). lia.
    - now apply (factor_ok_divides n); auto. }
  apply Z.divide_pos_le in Hdiv; nia.
Qed.

(** One prime factor above the cube root of [n] is enough when the two divisors
    it would leave are not the roots of an integral quadratic equation; [s] is
    the integral square root of its discriminant. *)
Definition certifies_cube (n p a s : Z) : bool :=
  let r := (n - 1) / p in
  let d := (r mod p) * (r mod p) - 4 * (r / p) in
  factor_ok n (p, a) && (n <? p * p * (p - 1)) && (0 <=? s) && (s * s <? d) && (d <? (s + 1) * (s + 1)).

Lemma pocklington_cube n p a s : Z.prime p -> certifies_cube n p a s = true -> Z.prime n.
Proof.
  intros Hp Hc. unfold certifies_cube in Hc. rewrite !Bool.andb_true_iff in Hc.
  destruct Hc as [[[[Hok Hbig] Hs] Hlo] Hhi]. apply Z.ltb_lt in Hbig, Hlo, Hhi. apply Z.leb_le in Hs.
  pose proof Hok as Hok'. unfold factor_ok in Hok'. rewrite !Bool.andb_true_iff in Hok'.
  destruct Hok' as [[[[Hn _] Hdiv] _] _]. apply Z.ltb_lt in Hn. apply Z.eqb_eq in Hdiv.
  pose proof (Z.prime_ge_2 p Hp). apply Z.mod_divide in Hdiv; [|lia]. destruct Hdiv as [r Hr].
  assert (Hrp : (n - 1) / p = r) by (rewrite Hr; apply Z.div_mul; lia). rewrite Hrp in *.
  destruct (prime_dec n) as [Hpn|Hpn]; [now apply prime_alt|exfalso]. rewrite <-prime_alt in Hpn.
  destruct (least_divisor_prime n Hn Hpn) as (q & Hq & [m Hm] & Hsq). pose proof (Z.prime_ge_2 q Hq).
  destruct (factor_ok_divides n (p, a) q Hok Hp Hq ltac:(now exists m)) as [x Hx]. simpl in Hx.
  assert (Hym : (p | m - 1)).
  { exists (r - m * x). rewrite Z.mul_sub_distr_r, <-Hr, Hm. replace q with (x * p + 1) by lia. ring. }
  destruct Hym as [y Hy]. assert (0 < x) by nia.
  assert (Em : m = y * p + 1) by lia. assert (Eq : q = x * p + 1) by lia. clear Hx Hy Hsq.
  assert (0 < y).
  { assert (1 < m) by (destruct (Z_le_gt_dec m 1); [|lia]; exfalso; apply Hpn; replace m with 1 in Hm by nia;
      rewrite Hm, Z.mul_1_l; exact Hq). nia. }
  assert (Er : r = (x * y) * p + (x + y)).
  { apply (Z.mul_cancel_r _ _ p); [lia|]. rewrite <-Hr, Hm, Em, Eq. ring. }
  assert (x * y < p - 1).
  { apply (Z.mul_lt_mono_pos_l (p * p)); [nia|]. rewrite Hm, Em, Eq in Hbig. nia. }
  assert (x + y < p) by nia. clear Hbig Hm.
  assert (Emod : r mod p = x + y) by (symmetry; apply Z.mod_unique_pos with (x * y); lia).
  assert (Ediv : r / p = x * y) by (symmetry; apply Z.div_unique_pos with (x + y); lia).
  rewrite Emod, Ediv in *. clear - Hlo Hhi Hs.
  replace ((x + y) * (x + y) - 4 * (x * y)) with (Z.abs (x - y) * Z.abs (x - y)) in *
    by (destruct (Z.abs_eq_or_opp (x - y)) as [->| ->]; ring).
  pose proof (Z.abs_nonneg (x - y)).
  apply Z.square_lt_simpl_nonneg in Hlo, Hhi; lia.
Qed.

(** Trial division, for the small primes of the certificates. *)
Definition trial (n : Z) : bool :=
  (1 <? n) && (n <? 100000) && forallb (fun d => negb (n mod Z.of_nat d =? 0)) (seq 2 315).

Lemma trial_prime n : trial n = true -> 316 < n -> Z.prime n.
Proof.
  unfold trial. rewrite !Bool.andb_true_iff. intros [[H1 H2] Hf] Hn. apply Z.ltb_lt in H1, H2.
  destruct (prime_dec n) as [Hp|Hp]; [now apply prime_alt|exfalso]. rewrite <-prime_alt in Hp.
  destruct (least_divisor_prime n H1 Hp) as (q & Hq & Hqn & Hsq). pose proof (Z.prime_ge_2 q Hq).
  rewrite forallb_forall in Hf. specialize (Hf (Z.to_nat q)). rewrite in_seq, Z2Nat.id in Hf by lia.
  apply Z.mod_divide in Hqn; [|lia]. rewrite Hqn in Hf. specialize (Hf ltac:(nia)). discriminate.
Qed.

(** ** The order of the BN254 scalar field *)

Definition bn254_order : Z :=
  21888242871839275222246405745257275088548364400416034343698204186575808495617.

Ltac certify l :=
  apply pocklington with l;
  [repeat apply Forall_cons; try apply Forall_nil; cbn [fst]; auto with primes nocore|vm_compute; reflexivity].
Ltac trial := apply trial_prime; [vm_compute; reflexivity|lia].

Create HintDb primes.
Lemma prime_853 : Z.prime 853. Proof. trial. Qed.
Lemma prime_1637 : Z.prime 1637. Proof. trial. Qed.
#[export] Hint Resolve prime_853 prime_1637 : primes.
Lemma prime_639533339 : Z.prime 639533339. Proof. certify [(853, 2); (1637, 2)]. Qed.
#[export] Hint Resolve prime_639533339 : primes.
Lemma prime_65865678001877903 : Z.prime 65865678001877903. Proof. certify [(639533339, 2)]. Qed.
#[export] Hint Resolve prime_65865678001877903 : primes.
Lemma prime_13818364434197438864469338081 : Z.prime 13818364434197438864469338081.
Proof. certify [(65865678001877903, 2)]. Qed.

Lemma bn254_order_prime : Z.prime bn254_order.
Proof.
  apply (pocklington_cube bn254_order 13818364434197438864469338081 2 5442477491434024228909666045).
  - exact prime_13818364434197438864469338081.
  - vm_compute. reflexivity.
Qed.
