(* ===== verification/Field.v ===== *)
(** * The scalar field of the circuits

    zkie-core/src/field_convert.rs: signed machine integers as elements of the
    BN254 scalar field, and the facts about the field that every chip's proof
    uses: integers smaller than the order are told apart, and a product is zero
    only if a factor is. *)
From Stdlib Require Export Zmod.
From Stdlib Require Import Znumtheory.
From S2P Require Import Prelude Primality.

Open Scope Z_scope.

(** [halo2curves::bn256::Fr]. *)
Notation Fr := (Zmod bn254_order).

(** [Fr::from(u64)] and [Fr::from_u128]. *)
Definition fr (z : Z) : Fr := Zmod.of_Z bn254_order z.

Definition i64_to_fr (v : Z) : Fr := if 0 <=? v then fr v else Zmod.opp (fr (- v)).
Definition i128_to_fr (v : Z) : Fr := if 0 <=? v then fr v else Zmod.opp (fr (- v)).

Definition SIGNED_SHIFT : Z := Z.shiftl 1 63.

(** [Value<T>]: [None] is [Value::unknown]. *)
Definition Value (A : Type) : Type := option A.

Definition shifted_i64_witness (v : Z) : Value Fr * Value Z :=
  let shifted := v + SIGNED_SHIFT in (Some (i128_to_fr shifted), Some shifted).

(** ** Facts *)

Lemma bn254_order_large : 2 ^ 253 < bn254_order.
Proof. reflexivity. Qed.

#[global] Opaque bn254_order.

Lemma fr_0 : fr 0 = Zmod.zero. Proof. apply Zmod.of_Z_0. Qed.
Lemma fr_1 : fr 1 = Zmod.one. Proof. apply Zmod.of_Z_1. Qed.
Lemma fr_add x y : Zmod.add (fr x) (fr y) = fr (x + y). Proof. symmetry. apply Zmod.of_Z_add. Qed.
Lemma fr_sub x y : Zmod.sub (fr x) (fr y) = fr (x - y). Proof. symmetry. apply Zmod.of_Z_sub. Qed.
Lemma fr_mul x y : Zmod.mul (fr x) (fr y) = fr (x * y). Proof. symmetry. apply Zmod.of_Z_mul. Qed.
Lemma fr_opp x : Zmod.opp (fr x) = fr (- x). Proof. symmetry. apply Zmod.of_Z_opp. Qed.

Lemma i64_to_fr_eq v : i64_to_fr v = fr v.
Proof. unfold i64_to_fr. destruct (0 <=? v); [done|]. rewrite fr_opp. f_equal. lia. Qed.
Lemma i128_to_fr_eq v : i128_to_fr v = fr v.
Proof. unfold i128_to_fr. destruct (0 <=? v); [done|]. rewrite fr_opp. f_equal. lia. Qed.

Lemma SIGNED_SHIFT_eq : SIGNED_SHIFT = 2 ^ 63. Proof. done. Qed.

(** Two integers closer than the order are equal when their elements are. *)
Lemma fr_inj x y : fr x = fr y → Z.abs (x - y) < bn254_order → x = y.
Proof.
  intros E%Zmod.of_Z_inj Hb. apply Z.cong_iff_0 in E.
  apply Z.mod_divide in E; [|pose proof bn254_order_large; lia].
  destruct (decide (x - y = 0)) as [|Hne]; [lia|].
  apply Z.divide_abs_r, Z.divide_pos_le in E; lia.
Qed.

Lemma fr_inj_0 x : fr x = Zmod.zero → Z.abs x < bn254_order → x = 0.
Proof. rewrite <-fr_0. intros E Hb. apply (fr_inj x 0 E). by rewrite Z.sub_0_r. Qed.

Lemma fr_integral (x y : Fr) : Zmod.mul x y = Zmod.zero → x = Zmod.zero ∨ y = Zmod.zero.
Proof. apply Zmod.mul_0_iff_prime, bn254_order_prime. Qed.

Lemma fr_sub_0 (x y : Fr) : Zmod.sub x y = Zmod.zero → x = y.
Proof. apply Zmod.sub_eq_0_iff. Qed.

Lemma fr_one_mul_0 (x : Fr) : Zmod.mul Zmod.one x = Zmod.zero ↔ x = Zmod.zero.
Proof. by rewrite Zmod.mul_1_l. Qed.

Lemma fr_zero_mul (x : Fr) : Zmod.mul Zmod.zero x = Zmod.zero.
Proof. apply Zmod.mul_0_l. Qed.

#[export] Instance Fr_eq_dec : EqDecision Fr.
Proof.
  intros x y. destruct (Zmod.eqb x y) eqn:E; [left; by apply Zmod.eqb_eq|right].
  intros ->. by rewrite Zmod.eqb_refl in E.
Defined.

Create HintDb fr.
#[export] Hint Rewrite i64_to_fr_eq i128_to_fr_eq fr_add fr_sub fr_mul fr_opp : fr.
#[export] Hint Rewrite <- fr_0 fr_1 : fr.

(** Turns an equation between field elements that are integers into one between
    integers; the bound is left to the caller. *)
Ltac fr_to_Z H :=
  autorewrite with fr in H;
  first [apply fr_inj in H | apply fr_inj_0 in H].

Add Ring Fr_ring : (Zmod.ring_theory bn254_order).
