(* ===== verification/FixedPoint.v ===== *)
(** * Fixed-point arithmetic

    zkie-core/src/fixed_point.rs: an [I18] is an [i64] counting units of 1e-18;
    products are requantized by Euclidean division by the scale.  [f64] is
    IEEE binary64, from the Standard Library's executable specification. *)
From Stdlib Require Import SpecFloat.
From S2P Require Import Prelude.

Open Scope Z_scope.

Definition SCALE_18 : Z := 1000000000000000000.

Record I18 := I18_ { I18_raw : Z }.

Definition from_raw (raw : Z) : I18 := I18_ raw.
Definition raw (self : I18) : Z := I18_raw self.

#[export] Instance I18_eq_dec : EqDecision I18.
Proof. solve_decision. Defined.

Definition in_I18 (x : I18) : Prop := in_i64 (raw x).

(** [FixedPointError(String)]; the text is not modelled. *)
Inductive FixedPointError := NotFinite | OutOfRange | QuotientOverflow | ProductOverflow | AccumulationOverflow.

(** ** Requantization *)

(** [div_euclid] and [rem_euclid] by the positive scale. *)
Definition requantize_raw (raw_value : Z) : Result (I18 * Z) FixedPointError :=
  let quotient := raw_value / SCALE_18 in
  let remainder := raw_value mod SCALE_18 in
  if (quotient <? i64_min) || (i64_max <? quotient) then Err QuotientOverflow
  else Ok (I18_ quotient, remainder).

Definition requantize_mul (a b : I18) : Result (I18 * Z) FixedPointError :=
  let raw_product := raw a * raw b in
  map_err (λ _, ProductOverflow) (requantize_raw raw_product).

Lemma requantize_raw_Ok v q r :
  requantize_raw v = Ok (q, r) ↔ in_I18 q ∧ v = raw q * SCALE_18 + r ∧ 0 ≤ r < SCALE_18.
Proof.
  unfold requantize_raw, in_I18, raw. pose proof (Z.div_mod v SCALE_18 ltac:(done)) as D.
  pose proof (Z.mod_pos_bound v SCALE_18 ltac:(done)) as B. split.
  - destruct (Z.ltb_spec (v / SCALE_18) i64_min); simpl; [done|].
    destruct (Z.ltb_spec i64_max (v / SCALE_18)); [done|]. intros [= <- <-]. simpl. unfold in_i64. lia.
  - intros (Hq & E & Hr). destruct q as [q]. simpl in *.
    assert (v / SCALE_18 = q) as -> by (symmetry; apply Z.div_unique_pos with r; lia).
    assert (v mod SCALE_18 = r) as -> by (symmetry; apply Z.mod_unique_pos with q; lia).
    unfold in_i64 in Hq. destruct (Z.ltb_spec q i64_min); [lia|]. by destruct (Z.ltb_spec i64_max q); [lia|].
Qed.

Lemma requantize_mul_Ok a b q r :
  requantize_mul a b = Ok (q, r) ↔ in_I18 q ∧ raw a * raw b = raw q * SCALE_18 + r ∧ 0 ≤ r < SCALE_18.
Proof.
  rewrite <-requantize_raw_Ok. unfold requantize_mul. by destruct (requantize_raw _) as [[]|].
Qed.

(** ** Conversion from and to [f64] *)

Definition f64 : Type := spec_float.
Definition f64_mul : f64 → f64 → f64 := SFmul 53 1024.
Definition f64_div : f64 → f64 → f64 := SFdiv 53 1024.
(** [x as f64]: the nearest representable number. *)
Definition f64_of_Z (z : Z) : f64 := binary_normalize 53 1024 z 0 false.

Definition f64_is_finite (x : f64) : bool :=
  match x with S754_zero _ | S754_finite _ _ _ => true | _ => false end.

(** [f64::round], half away from zero, as an integer; 0 where there is none. *)
Definition f64_round (x : f64) : Z :=
  match x with
  | S754_finite s m e =>
      let magnitude := if 0 <=? e then Z.pos m * 2 ^ e else (2 * Z.pos m + 2 ^ - e) / (2 * 2 ^ - e) in
      if s then - magnitude else magnitude
  | _ => 0
  end.

(** [rounded as i64] saturates. *)
Definition saturate_i64 (z : Z) : Z := Z.max i64_min (Z.min i64_max z).

(** The comparisons are made in [f64], where [i64::MAX] is 2^63. *)
Definition from_f64 (value : f64) : Result I18 FixedPointError :=
  let scaled := f64_mul value (f64_of_Z SCALE_18) in
  if negb (f64_is_finite scaled) then Err NotFinite
  else
    let rounded := f64_round scaled in
    if (rounded <? f64_round (f64_of_Z i64_min)) || (f64_round (f64_of_Z i64_max) <? rounded)
    then Err OutOfRange
    else Ok (I18_ (saturate_i64 rounded)).

Definition to_f64 (self : I18) : f64 := f64_div (f64_of_Z (I18_raw self)) (f64_of_Z SCALE_18).

Lemma from_f64_in_I18 value x : from_f64 value = Ok x → in_I18 x.
Proof.
  unfold from_f64. destruct (negb _); [done|]. destruct (_ || _); [done|]. intros [= <-].
  unfold in_I18, raw, saturate_i64, in_i64. simpl. pose proof (eq_refl : i64_min <=? i64_max = true). lia.
Qed.

(** 2^63 units are accepted, and saturate. *)
Example from_f64_saturates :
  from_f64 (f64_div (f64_of_Z (2 ^ 63)) (f64_of_Z SCALE_18)) = Ok (I18_ i64_max) ∧
  f64_round (f64_mul (f64_div (f64_of_Z (2 ^ 63)) (f64_of_Z SCALE_18)) (f64_of_Z SCALE_18)) = i64_max + 1.
Proof. by vm_compute. Qed.

(** The constants the chips take from [f64]: [1 / k] and [milli / 1000]. *)
Definition f64_reciprocal (k : nat) : f64 := f64_div (f64_of_Z 1) (f64_of_Z (Z.of_nat k)).
Definition f64_milli (milli : Z) : f64 := f64_div (f64_of_Z milli) (f64_of_Z 1000).
