(* ===== verification/Circuit.v ===== *)
(** * Circuits

    The parts of the proving library's API that the chips of zkie-core use: a
    chip's [configure] makes columns, selectors, gates and lookups, its [assign]
    makes calls on a layouter.  A chip is what it asks for: [configure] is a
    function on the constraint system, [assign] appends to a log of calls.  The
    library itself is not modelled.  A layouter may refuse any call ([refuse]);
    where it puts the regions is a parameter ([planner]); and what a proof that
    verifies guarantees is [satisfied]: every gate vanishes on every row, every
    looked-up tuple is a row of its table, copied cells are equal, public cells
    hold the verifier's values, and fixed cells hold the key's.  Region and
    namespace labels are left out. *)
From S2P Require Import Prelude Field.

Open Scope nat_scope.

(** ** What a chip can refer to *)

Definition Column : Type := nat.
Definition Selector : Type := nat.
Definition TableColumn : Type := nat.

Record Cell := mkCell { cell_region : nat; cell_offset : nat; cell_column : Column }.

#[export] Instance Cell_eq_dec : EqDecision Cell.
Proof. solve_decision. Defined.

(** The advice cells a gate can query: a column at a rotation. *)
Definition Advice : Type := Column → Z → Fr.
Definition cur : Z := 0.
Definition prev : Z := -1.
Definition next : Z := 1.

(** A gate's closure: from the value of its selector and the advice queries to
    the polynomials that must vanish. *)
Record Gate := mkGate {
  gate_name : string;
  gate_selector : Selector;
  gate_polys : Fr → Advice → list Fr
}.

Record Lookup := mkLookup {
  lookup_name : string;
  lookup_selector : Selector;
  lookup_inputs : Fr → Advice → list (Fr * TableColumn)
}.

Record ConstraintSystem := mkCS {
  cs_selectors : nat;
  cs_columns : nat;
  cs_tables : nat;
  cs_gates : list Gate;
  cs_lookups : list Lookup;
  cs_equality : list Column
}.

Definition empty_cs : ConstraintSystem := mkCS 0 0 0 [] [] [].

(** ** Configuring *)

(** [None] is a failed [assert!] or [expect]. *)
Definition Meta (A : Type) : Type := ConstraintSystem → option (A * ConstraintSystem).
Definition meta_ret {A} (a : A) : Meta A := λ cs, Some (a, cs).
Definition meta_bind {A B} (m : Meta A) (k : A → Meta B) : Meta B := λ cs,
  match m cs with Some (a, cs) => k a cs | None => None end.
Definition meta_panic {A} : Meta A := λ _, None.

Declare Scope circuit_scope.
Delimit Scope circuit_scope with circuit.
Notation "'let&' x := m 'in' k" := (meta_bind m (λ x, k))
  (at level 10, x name, m at level 100, k at level 200) : circuit_scope.
Notation "'let&' ' p := m 'in' k" := (meta_bind m (λ p, k))
  (at level 10, p strict pattern, m at level 100, k at level 200) : circuit_scope.
Notation "'assert&' b 'in' k" := (if b then k else meta_panic)
  (at level 10, b at level 100, k at level 200) : circuit_scope.
#[global] Open Scope circuit_scope.

Definition selector : Meta Selector := λ cs,
  Some (cs_selectors cs, mkCS (S (cs_selectors cs)) (cs_columns cs) (cs_tables cs) (cs_gates cs)
    (cs_lookups cs) (cs_equality cs)).
Definition complex_selector : Meta Selector := selector.
Definition advice_column : Meta Column := λ cs,
  Some (cs_columns cs, mkCS (cs_selectors cs) (S (cs_columns cs)) (cs_tables cs) (cs_gates cs)
    (cs_lookups cs) (cs_equality cs)).
Definition lookup_table_column : Meta TableColumn := λ cs,
  Some (cs_tables cs, mkCS (cs_selectors cs) (cs_columns cs) (S (cs_tables cs)) (cs_gates cs)
    (cs_lookups cs) (cs_equality cs)).
(** An instance column: the verifier gives its values, and its rows are absolute. *)
Definition instance_column : Meta Column := advice_column.
(** A fixed column: the keys hold its values. *)
Definition fixed_column : Meta Column := advice_column.
Definition enable_equality (c : Column) : Meta unit := λ cs,
  Some (tt, mkCS (cs_selectors cs) (cs_columns cs) (cs_tables cs) (cs_gates cs) (cs_lookups cs)
    (cs_equality cs ++ [c])).
(** The column is the one that constants are kept in. *)
Definition enable_constant (c : Column) : Meta unit := enable_equality c.
Definition create_gate (g : Gate) : Meta unit := λ cs,
  Some (tt, mkCS (cs_selectors cs) (cs_columns cs) (cs_tables cs) (cs_gates cs ++ [g])
    (cs_lookups cs) (cs_equality cs)).
Definition lookup_argument (l : Lookup) : Meta unit := λ cs,
  Some (tt, mkCS (cs_selectors cs) (cs_columns cs) (cs_tables cs) (cs_gates cs)
    (cs_lookups cs ++ [l]) (cs_equality cs)).

Fixpoint meta_map {A B} (f : A → Meta B) (l : list A) : Meta (list B) :=
  match l with
  | [] => meta_ret []
  | x :: l => let& y := f x in let& ys := meta_map f l in meta_ret (y :: ys)
  end.

(** ** Assigning *)

Inductive Call :=
| Enable (s : Selector) (region offset : nat)
| Assign (cell : Cell) (value : Value Fr)
| Equal (left right : Cell)
| Table (t : TableColumn) (offset : nat) (value : Fr)
| Public (cell : Cell) (instance : Column) (row : nat)
| Fixed (cell : Cell) (value : Fr).

(** The layouter's state: the regions opened and the calls made so far. *)
Record Log := mkLog { lg_regions : nat; lg_calls : list Call }.

Definition empty_log : Log := mkLog 0 [].

(** The layouter's verdict on a call: the library's error, if it refuses. *)
Class Layouter := {
  ErrorFront : Type;
  refuse : list Call → Call → option ErrorFront
}.

(** [impl From<E> for F], which the [?] operator applies. *)
Class From (E F : Type) := from : E → F.
#[export] Instance From_refl E : From E E := id.

(** A step of [assign]: its value, the regions opened after it, and the calls it
    has made. *)
Record Done (A : Type) := mkDone { dn_value : A; dn_regions : nat; dn_calls : list Call }.
Arguments mkDone {A} _ _ _.
Arguments dn_value {A} _.
Arguments dn_regions {A} _.
Arguments dn_calls {A} _.

Definition Lay (E A : Type) : Type := Log → Outcome (Done A) E.

Definition lay_ret {E A} (a : A) : Lay E A := λ lg, Some (Ok (mkDone a (lg_regions lg) [])).
Definition lay_err {E A} (e : E) : Lay E A := λ _, Some (Err e).
Definition lay_panic {E A} : Lay E A := λ _, None.
Definition lay_bind {E A B} (m : Lay E A) (k : A → Lay E B) : Lay E B := λ lg,
  match m lg with
  | Some (Ok (mkDone a regions calls)) =>
      match k a (mkLog regions (lg_calls lg ++ calls)) with
      | Some (Ok (mkDone b regions' calls')) => Some (Ok (mkDone b regions' (calls ++ calls')))
      | r => r
      end
  | Some (Err e) => Some (Err e)
  | None => None
  end.

Notation "'let$' x := m 'in' k" := (lay_bind m (λ x, k))
  (at level 10, x name, m at level 100, k at level 200) : circuit_scope.
Notation "'let$' ' p := m 'in' k" := (lay_bind m (λ p, k))
  (at level 10, p strict pattern, m at level 100, k at level 200) : circuit_scope.

(** A host-side [Result]; one under [expect]; an [Option] under [expect]. *)
Definition lay_lift {E A} (r : Result A E) : Lay E A :=
  match r with Ok a => lay_ret a | Err e => lay_err e end.
Definition lay_expect {E F A} (r : Result A F) : Lay E A :=
  match r with Ok a => lay_ret a | Err _ => lay_panic end.
Definition lay_unwrap {E A} (o : option A) : Lay E A :=
  match o with Some a => lay_ret a | None => lay_panic end.
Definition lay_map_err {E F A} (f : E → F) (m : Lay E A) : Lay F A := λ lg,
  match m lg with
  | Some (Ok r) => Some (Ok r)
  | Some (Err e) => Some (Err (f e))
  | None => None
  end.
(** [m?] where the caller's error type differs. *)
Definition lay_try {E F A} `{From E F} (m : Lay E A) : Lay F A := lay_map_err from m.

Fixpoint lay_map {E A B} (f : A → Lay E B) (l : list A) : Lay E (list B) :=
  match l with
  | [] => lay_ret []
  | x :: l => let$ y := f x in let$ ys := lay_map f l in lay_ret (y :: ys)
  end.
Fixpoint lay_iter {E A} (f : A → Lay E unit) (l : list A) : Lay E unit :=
  match l with
  | [] => lay_ret tt
  | x :: l => let$ _ := f x in lay_iter f l
  end.

Section Layouting.
Context `{Layouter}.

Definition emit (c : Call) : Lay ErrorFront unit := λ lg,
  match refuse (lg_calls lg) c with
  | Some e => Some (Err e)
  | None => Some (Ok (mkDone tt (lg_regions lg) [c]))
  end.

Definition enable (s : Selector) (region offset : nat) : Lay ErrorFront unit := emit (Enable s region offset).
Definition assign_advice (c : Column) (region offset : nat) (v : Value Fr) : Lay ErrorFront Cell :=
  let cell := mkCell region offset c in
  let$ _ := emit (Assign cell v) in lay_ret cell.
Definition constrain_equal (left right : Cell) : Lay ErrorFront unit := emit (Equal left right).
Definition assign_cell (t : TableColumn) (offset : nat) (v : Fr) : Lay ErrorFront unit := emit (Table t offset v).
Definition constrain_instance (cell : Cell) (instance : Column) (row : nat) : Lay ErrorFront unit :=
  emit (Public cell instance row).
Definition assign_fixed (c : Column) (region offset : nat) (v : Fr) : Lay ErrorFront unit := emit (Fixed (mkCell region offset c) v).
(** The cell is copied from the column of constants. *)
Definition constrain_constant (cell : Cell) (v : Fr) : Lay ErrorFront unit := emit (Fixed cell v).

(** [layouter.assign_region]: the body gets the new region's index. *)
Definition assign_region {E A} (body : nat → Lay E A) : Lay E A := λ lg,
  body (lg_regions lg) (mkLog (S (lg_regions lg)) (lg_calls lg)).
End Layouting.

(** ** What an accepted proof guarantees *)

Section Semantics.
Context (planner : nat → Z) (grid : Column → Z → Fr).

Definition cell_value (c : Cell) : Fr := grid (cell_column c) (planner (cell_region c) + Z.of_nat (cell_offset c)).
Definition advice_at (row : Z) : Advice := λ column rotation, grid column (row + rotation)%Z.

Definition enabled (calls : list Call) (s : Selector) (row : Z) : bool :=
  existsb (λ c, match c with
    | Enable s' region offset => (s =? s') && (row =? planner region + Z.of_nat offset)%Z
    | _ => false end) calls.
Definition selector_value (calls : list Call) (s : Selector) (row : Z) : Fr :=
  if enabled calls s row then Zmod.one else Zmod.zero.

(** The tuple is a row of the loaded table. *)
Definition in_table (calls : list Call) (tuple : list (Fr * TableColumn)) : Prop :=
  ∃ i, Forall (λ vt, Table vt.2 i vt.1 ∈ calls) tuple.

Definition vanish (polys : list Fr) : Prop := Forall (λ p, p = Zmod.zero) polys.

Record satisfied (cs : ConstraintSystem) (calls : list Call) : Prop := {
  sat_gates g row : g ∈ cs_gates cs →
    vanish (gate_polys g (selector_value calls (gate_selector g) row) (advice_at row));
  sat_lookups l row : l ∈ cs_lookups cs →
    in_table calls (lookup_inputs l (selector_value calls (lookup_selector l) row) (advice_at row));
  sat_copies a b : Equal a b ∈ calls → cell_value a = cell_value b;
  sat_public c instance row : Public c instance row ∈ calls → cell_value c = grid instance (Z.of_nat row);
  sat_fixed c v : Fixed c v ∈ calls → cell_value c = v
}.

(** The prover's grid holds what the chips assigned. *)
Definition agrees (calls : list Call) : Prop :=
  ∀ c v, Assign c (Some v) ∈ calls → cell_value c = v.
End Semantics.
