(* ===== verification/CircuitLogic.v ===== *)
(** * Reasoning about circuits

    A logic for the layouter.  [wp log P m R] says that when [m] succeeds and
    its calls are in [log], its result satisfies [R] and all its calls satisfy
    [P].  With the facts a satisfied log gives it proves soundness, with
    [call_ok] for [P] it proves that honest assignments satisfy the circuit.
    [returns] says that [m] succeeds.  A configuration step keeps a constraint
    system well formed ([cs_ok]): each selector guards one gate or lookup, which
    asks for nothing where the selector is off. *)
From S2P Require Import Prelude Field Circuit.

Open Scope nat_scope.

(** ** Weakest preconditions *)

Lemma lay_bind_assoc {E A B C} (m : Lay E A) (k : A → Lay E B) (h : B → Lay E C) lg :
  lay_bind (lay_bind m k) h lg = lay_bind m (λ a, lay_bind (k a) h) lg.
Proof.
  unfold lay_bind. destruct (m lg) as [[[a n1 c1]|]|]; [|done..]. simpl.
  destruct (k a _) as [[[b n2 c2]|]|]; [|done..]. simpl.
  rewrite app_assoc. destruct (h b _) as [[[? ? ?]|]|]; [|done..]. by rewrite app_assoc.
Qed.

Section Wp.
Context `{Layouter} (log : list Call) (P : Call → Prop).

Definition wp {E A} (m : Lay E A) (R : A → Prop) : Prop :=
  ∀ lg a n new, m lg = Some (Ok (mkDone a n new)) → new ⊆ log → R a ∧ Forall P new.

Lemma wp_ret {E A} (a : A) (R : A → Prop) : R a → wp (lay_ret (E := E) a) R.
Proof. intros HR lg b n new [= <- <- <-] _. by split. Qed.

Lemma wp_err {E A} (e : E) (R : A → Prop) : wp (lay_err e) R.
Proof. by intros lg a n new. Qed.

Lemma wp_panic {E A} (R : A → Prop) : wp (lay_panic (E := E)) R.
Proof. by intros lg a n new. Qed.

Lemma wp_bind {E A B} (m : Lay E A) (k : A → Lay E B) R T :
  wp m R → (∀ a, R a → wp (k a) T) → wp (lay_bind m k) T.
Proof.
  intros Hm Hk lg b n new Hrun Hin. unfold lay_bind in Hrun.
  destruct (m lg) as [[[a n1 c1]|]|] eqn:E1; [|done..].
  destruct (k a _) as [[[b' n2 c2]|]|] eqn:E2; [|done..]. injection Hrun as <- <- <-.
  destruct (Hm _ _ _ _ E1) as [HR HP1]; [set_solver|].
  destruct (Hk a HR _ _ _ _ E2) as [HT HP2]; [set_solver|]. split; [done|]. by apply Forall_app.
Qed.

Lemma wp_conseq {E A} (m : Lay E A) (R R' : A → Prop) : wp m R' → (∀ a, R' a → R a) → wp m R.
Proof. intros Hm HR lg a n new Hrun Hin. destruct (Hm _ _ _ _ Hrun Hin). auto. Qed.

Lemma wp_map_err {E F A} (f : E → F) (m : Lay E A) R : wp m R → wp (lay_map_err f m) R.
Proof.
  intros Hm lg a n new Hrun. unfold lay_map_err in Hrun. destruct (m lg) as [[d|]|] eqn:E1; [|done..].
  injection Hrun as ->. by apply (Hm _ _ _ _ E1).
Qed.

Lemma wp_try {E F A} `{From E F} (m : Lay E A) R : wp m R → wp (lay_try (F := F) m) R.
Proof. apply wp_map_err. Qed.

Lemma wp_lift {E A} (r : Result A E) (R : A → Prop) : (∀ a, r = Ok a → R a) → wp (lay_lift r) R.
Proof. intros HR. destruct r; [apply wp_ret; auto|apply wp_err]. Qed.
Lemma wp_expect {E F A} (r : Result A F) (R : A → Prop) : (∀ a, r = Ok a → R a) → wp (lay_expect (E := E) r) R.
Proof. intros HR. destruct r; [apply wp_ret; auto|apply wp_panic]. Qed.
Lemma wp_unwrap {E A} (o : option A) (R : A → Prop) : (∀ a, o = Some a → R a) → wp (lay_unwrap (E := E) o) R.
Proof. intros HR. destruct o; [apply wp_ret; auto|apply wp_panic]. Qed.
Lemma wp_if {E A} (b : bool) (m1 m2 : Lay E A) R :
  (b = true → wp m1 R) → (b = false → wp m2 R) → wp (if b then m1 else m2) R.
Proof. destruct b; auto. Qed.

Lemma wp_region {E A} (body : nat → Lay E A) R : (∀ region, wp (body region) R) → wp (assign_region body) R.
Proof. intros Hb lg a n new Hrun. by apply (Hb _ _ _ _ _ Hrun). Qed.

Lemma wp_emit c (R : unit → Prop) : P c → (c ∈ log → R tt) → wp (emit c) R.
Proof.
  intros Hc HR lg [] n new Hrun Hin. unfold emit in Hrun. destruct (refuse _ _); [done|].
  injection Hrun as <- <-. split; [apply HR, Hin; by left|by constructor].
Qed.

Lemma wp_enable s region o (R : unit → Prop) :
  P (Enable s region o) → (Enable s region o ∈ log → R tt) → wp (enable s region o) R.
Proof. apply wp_emit. Qed.
Lemma wp_equal a b (R : unit → Prop) : P (Equal a b) → (Equal a b ∈ log → R tt) → wp (constrain_equal a b) R.
Proof. apply wp_emit. Qed.
Lemma wp_cell t o v (R : unit → Prop) : P (Table t o v) → (Table t o v ∈ log → R tt) → wp (assign_cell t o v) R.
Proof. apply wp_emit. Qed.
Lemma wp_advice c region o v (R : Cell → Prop) :
  P (Assign (mkCell region o c) v) → (Assign (mkCell region o c) v ∈ log → R (mkCell region o c)) →
  wp (assign_advice c region o v) R.
Proof. intros HP HR. eapply wp_bind; [by apply (wp_emit _ (λ _, R (mkCell region o c)))|]. intros [] HR'. by apply wp_ret. Qed.

(** The continuation as the assertion. *)
Lemma wp_nest {E A B} (m : Lay E A) (k : A → Lay E B) T : wp m (λ a, wp (k a) T) → wp (lay_bind m k) T.
Proof. intros Hm. by eapply wp_bind. Qed.

Lemma wp_assoc {E A B C} (m : Lay E A) (k : A → Lay E B) (h : B → Lay E C) T :
  wp (lay_bind m (λ a, lay_bind (k a) h)) T → wp (lay_bind (lay_bind m k) h) T.
Proof.
  intros Hm lg c n new Hrun. rewrite lay_bind_assoc in Hrun. by apply (Hm _ _ _ _ Hrun).
Qed.
Lemma wp_ret_then {E A B} (a : A) (k : A → Lay E B) T : wp (k a) T → wp (lay_bind (lay_ret a) k) T.
Proof. intros Hk. by apply wp_nest, wp_ret. Qed.

(** What a call asks for can be shown at the end. *)
Lemma wp_emit_late {B} c (k : unit → Lay ErrorFront B) T :
  (c ∈ log → wp (k tt) (λ a, T a ∧ P c)) → wp (lay_bind (emit c) k) T.
Proof.
  intros Hk lg b n new Hrun Hin. unfold lay_bind, emit in Hrun. destruct (refuse _ _); [done|].
  destruct (k tt _) as [[[b' n2 c2]|]|] eqn:E2; [|done..]. injection Hrun as <- <- <-.
  destruct (Hk (Hin _ (list_elem_of_here _ _)) _ _ _ _ E2) as [[HT Hc] HP2]; [set_solver|].
  split; [done|]. by constructor.
Qed.
Lemma wp_enable_late {B} s region o (k : unit → Lay ErrorFront B) T :
  (Enable s region o ∈ log → wp (k tt) (λ a, T a ∧ P (Enable s region o))) → wp (lay_bind (enable s region o) k) T.
Proof. apply wp_emit_late. Qed.

(** The calls in sequence, with the error conversion of [?] or without. *)
Lemma wp_enable_then {B} s region o (k : unit → Lay ErrorFront B) T :
  P (Enable s region o) → (Enable s region o ∈ log → wp (k tt) T) → wp (lay_bind (enable s region o) k) T.
Proof.
  intros HP Hk. eapply (wp_bind _ _ (λ _, Enable s region o ∈ log)); [by apply wp_enable|]. by intros [].
Qed.
Lemma wp_equal_then {B} a b (k : unit → Lay ErrorFront B) T :
  P (Equal a b) → (Equal a b ∈ log → wp (k tt) T) → wp (lay_bind (constrain_equal a b) k) T.
Proof. intros HP Hk. eapply (wp_bind _ _ (λ _, Equal a b ∈ log)); [by apply wp_equal|]. by intros []. Qed.
Lemma wp_cell_then {B} t o v (k : unit → Lay ErrorFront B) T :
  P (Table t o v) → (Table t o v ∈ log → wp (k tt) T) → wp (lay_bind (assign_cell t o v) k) T.
Proof. intros HP Hk. eapply (wp_bind _ _ (λ _, Table t o v ∈ log)); [by apply wp_cell|]. by intros []. Qed.
Lemma wp_advice_then {B} c region o v (k : Cell → Lay ErrorFront B) T :
  P (Assign (mkCell region o c) v) → (Assign (mkCell region o c) v ∈ log → wp (k (mkCell region o c)) T) →
  wp (lay_bind (assign_advice c region o v) k) T.
Proof.
  intros HP Hk. eapply (wp_bind _ _ (λ x, x = mkCell region o c ∧ Assign (mkCell region o c) v ∈ log)).
  - by apply wp_advice.
  - intros x [-> Hin]. by apply Hk.
Qed.

Lemma wp_map {E A B} (f : A → Lay E B) (Q : A → B → Prop) l (R : list B → Prop) :
  (∀ x, x ∈ l → wp (f x) (Q x)) → (∀ ys, Forall2 Q l ys → R ys) → wp (lay_map f l) R.
Proof.
  intros Hf HR. apply wp_conseq with (Forall2 Q l); [|done]. clear R HR.
  induction l as [|x l IH]; simpl; [by apply wp_ret; constructor|].
  eapply wp_bind; [apply Hf; by left|]. intros y Hy.
  eapply wp_bind; [apply IH; intros x' Hx'; apply Hf; by right|]. intros ys Hys. apply wp_ret. by constructor.
Qed.

(** A loop over the rows of a region, whose results are known by their index. *)
Lemma wp_rows {E A B} (f : nat * A → Lay E B) (g : nat → B) (Q : nat → A → Prop) l (R : list B → Prop) :
  (∀ i x, l !! i = Some x → wp (f (i, x)) (λ y, y = g i ∧ Q i x)) →
  ((∀ i x, l !! i = Some x → Q i x) → R (g <$> seq 0 (length l))) → wp (lay_map f (enumerate l)) R.
Proof.
  intros Hf HR. apply (wp_map _ (λ p y, y = g p.1 ∧ Q p.1 p.2)).
  - intros [i x] Hin%elem_of_enumerate. by apply Hf.
  - intros ys Hys. destruct (Forall2_enumerate (λ p _, Q p.1 p.2) g l ys Hys) as [-> HQ]. by apply HR.
Qed.

Lemma wp_iter {E A} (f : A → Lay E unit) (Q : A → Prop) l (R : unit → Prop) :
  (∀ x, x ∈ l → wp (f x) (λ _, Q x)) → (Forall Q l → R tt) → wp (lay_iter f l) R.
Proof.
  intros Hf HR. apply wp_conseq with (λ _, Forall Q l); [|by intros []]. clear R HR.
  induction l as [|x l IH]; simpl; [by apply wp_ret; constructor|].
  eapply (wp_bind _ _ (λ _, Q x)); [apply Hf; by left|]. intros _ Hx.
  eapply wp_conseq; [apply IH; intros x' Hx'; apply Hf; by right|]. intros u Hl. by constructor.
Qed.
Lemma wp_iter_then {E A B} (f : A → Lay E unit) (Q : A → Prop) l (k : unit → Lay E B) T :
  (∀ x, x ∈ l → wp (f x) (λ _, Q x)) → (Forall Q l → wp (k tt) T) → wp (lay_bind (lay_iter f l) k) T.
Proof.
  intros Hf Hk. eapply (wp_bind _ _ (λ _, Forall Q l)); [by apply wp_iter with Q|]. by intros [].
Qed.
End Wp.

(** From a given log: the regions that will be opened are known. *)
Definition wp_from `{Layouter} log (P : Call → Prop) lg {E A} (m : Lay E A) (R : A → Prop) : Prop :=
  ∀ a n new, m lg = Some (Ok (mkDone a n new)) → new ⊆ log → R a ∧ Forall P new.

Lemma wp_from_wp `{Layouter} log P lg {E A} (m : Lay E A) R : wp log P m R → wp_from log P lg m R.
Proof. intros Hm a n new. apply Hm. Qed.

Lemma wp_from_host `{Layouter} log P lg {E A B} (r : Result A E) (k : A → Lay E B) R :
  (∀ a, r = Ok a → wp_from log P lg (k a) R) → wp_from log P lg (lay_bind (lay_lift r) k) R.
Proof.
  intros Hk b n new. destruct r as [a|]; [|done]. unfold lay_bind. cbn [lay_lift lay_ret].
  rewrite app_nil_r. destruct lg as [regions calls]. cbn [lg_regions lg_calls].
  destruct (k a _) as [[[]|]|] eqn:E1; [|done..]. intros [= <- <- <-]. exact (Hk a eq_refl _ _ _ E1).
Qed.

Lemma wp_from_region `{Layouter} log P lg {E F A B} (f : E → F) (body : nat → Lay E A) (k : A → Lay F B) R :
  wp log P (body (lg_regions lg)) (λ a, wp log P (k a) R) →
  wp_from log P lg (lay_bind (lay_map_err f (assign_region body)) k) R.
Proof.
  intros Hb. intros b n new Hrun Hin. unfold lay_bind, lay_map_err, assign_region in Hrun.
  destruct (body _ _) as [[[a n1 c1]|]|] eqn:E1; [|done..].
  destruct (k a _) as [[[b' n2 c2]|]|] eqn:E2; [|done..]. injection Hrun as <- <- <-.
  destruct (Hb _ _ _ _ E1) as [HR HP1]; [set_solver|].
  destruct (HR _ _ _ _ E2) as [HT HP2]; [set_solver|]. split; [done|]. by apply Forall_app.
Qed.

(** What is known at the end may be needed for the calls made on the way. *)
Lemma wp_defer `{Layouter} log (P P' : Call → Prop) {E A} (m : Lay E A) R :
  wp log P' m R → (∀ a c, R a → P' c → P c) → wp log P m R.
Proof.
  intros Hm HP lg a n new Hrun Hin. destruct (Hm _ _ _ _ Hrun Hin) as [HR HP'].
  split; [done|]. eapply Forall_impl; [exact HP'|]. eauto.
Qed.

Lemma wp_true `{Layouter} log {E A} (m : Lay E A) : wp log (λ _, True) m (λ _, True).
Proof. intros lg a n new _ _. split; [done|]. by apply Forall_true. Qed.

(** Two assertions about one run. *)
Lemma wp_and `{Layouter} log (P P' : Call → Prop) {E A} (m : Lay E A) R R' :
  wp log P m R → wp log P' m R' → wp log (λ c, P c ∧ P' c) m (λ a, R a ∧ R' a).
Proof.
  intros H1 H2 lg a n new Hrun Hin. destruct (H1 _ _ _ _ Hrun Hin), (H2 _ _ _ _ Hrun Hin).
  split; [done|]. by apply Forall_and.
Qed.

Lemma wp_also `{Layouter} log (P : Call → Prop) {E A} (m : Lay E A) R R' :
  wp log P m R → wp log (λ _, True) m R' → wp log P m (λ a, R a ∧ R' a).
Proof.
  intros H1 H2 lg a n new Hrun Hin. destruct (H1 _ _ _ _ Hrun Hin) as [HR HP], (H2 _ _ _ _ Hrun Hin). done.
Qed.

(** ** Running to the end *)

Definition returns `{Layouter} {E A} (m : Lay E A) (R : A → Prop) : Prop :=
  ∀ lg, ∃ a n calls, m lg = Some (Ok (mkDone a n calls)) ∧ R a.

(** A layouter with enough room: no call is refused. *)
Class Roomy (L : Layouter) : Prop := roomy : ∀ calls c, refuse calls c = None.

Section Returns.
Context `{L : Layouter}.

Lemma returns_ret {E A} (a : A) (R : A → Prop) : R a → returns (lay_ret (E := E) a) R.
Proof. intros HR lg. by exists a, (lg_regions lg), []. Qed.

Lemma returns_bind {E A B} (m : Lay E A) (k : A → Lay E B) R T :
  returns m R → (∀ a, R a → returns (k a) T) → returns (lay_bind m k) T.
Proof.
  intros Hm Hk lg. destruct (Hm lg) as (a & n & c & E1 & HR). unfold lay_bind. rewrite E1.
  destruct (Hk a HR (mkLog n (lg_calls lg ++ c))) as (b & n' & c' & E2 & HT). rewrite E2. eauto.
Qed.

Lemma returns_conseq {E A} (m : Lay E A) (R R' : A → Prop) : returns m R' → (∀ a, R' a → R a) → returns m R.
Proof. intros Hm HR lg. destruct (Hm lg) as (a & n & c & E1 & Ha). eauto 6. Qed.

Lemma returns_map_err {E F A} (f : E → F) (m : Lay E A) R : returns m R → returns (lay_map_err f m) R.
Proof.
  intros Hm lg. destruct (Hm lg) as (a & n & c & E1 & Ha). exists a, n, c.
  unfold lay_map_err. by rewrite E1.
Qed.
Lemma returns_try {E F A} `{From E F} (m : Lay E A) R : returns m R → returns (lay_try (F := F) m) R.
Proof.
  intros Hm lg. destruct (Hm lg) as (a & n & c & E1 & Ha). exists a, n, c.
  unfold lay_try, lay_map_err. by rewrite E1.
Qed.

Lemma returns_lift {E A} (r : Result A E) a (R : A → Prop) : r = Ok a → R a → returns (lay_lift r) R.
Proof. intros -> HR. by apply returns_ret. Qed.
Lemma returns_expect {E F A} (r : Result A F) a (R : A → Prop) : r = Ok a → R a → returns (lay_expect (E := E) r) R.
Proof. intros -> HR. by apply returns_ret. Qed.
Lemma returns_unwrap {E A} (o : option A) a (R : A → Prop) : o = Some a → R a → returns (lay_unwrap (E := E) o) R.
Proof. intros -> HR. by apply returns_ret. Qed.

Lemma returns_region {E A} (body : nat → Lay E A) R : (∀ region, returns (body region) R) → returns (assign_region body) R.
Proof. intros Hb lg. apply Hb. Qed.

Lemma returns_nest {E A B} (m : Lay E A) (k : A → Lay E B) T :
  returns m (λ a, returns (k a) T) → returns (lay_bind m k) T.
Proof. intros Hm. by eapply returns_bind. Qed.

Context `{!Roomy L}.

Lemma returns_emit c : returns (emit c) (λ _, True).
Proof using All. intros lg. unfold emit. rewrite roomy. eauto. Qed.
Lemma returns_enable s region o : returns (enable s region o) (λ _, True).
Proof using All. apply returns_emit. Qed.
Lemma returns_equal a b : returns (constrain_equal a b) (λ _, True).
Proof using All. apply returns_emit. Qed.
Lemma returns_cell t o v : returns (assign_cell t o v) (λ _, True).
Proof using All. apply returns_emit. Qed.
Lemma returns_advice c region o v : returns (assign_advice c region o v) (λ _, True).
Proof using All. eapply returns_bind; [apply returns_emit|]. intros _ _. by apply returns_ret. Qed.

Lemma returns_enable_then {B} s region o (k : unit → Lay ErrorFront B) T :
  returns (k tt) T → returns (lay_bind (enable s region o) k) T.
Proof using All. intros Hk. eapply returns_bind; [apply returns_enable|]. by intros []. Qed.
Lemma returns_equal_then {B} a b (k : unit → Lay ErrorFront B) T :
  returns (k tt) T → returns (lay_bind (constrain_equal a b) k) T.
Proof using All. intros Hk. eapply returns_bind; [apply returns_equal|]. by intros []. Qed.
Lemma returns_advice_then {B} c region o v (k : Cell → Lay ErrorFront B) T :
  (∀ cell, returns (k cell) T) → returns (lay_bind (assign_advice c region o v) k) T.
Proof using All. intros Hk. eapply returns_bind; [apply returns_advice|]. intros a _. apply Hk. Qed.

Lemma returns_map {E A B} (f : A → Lay E B) (Q : A → B → Prop) l :
  (∀ x, x ∈ l → returns (f x) (Q x)) → returns (lay_map f l) (Forall2 Q l).
Proof.
  induction l as [|x l IH]; intros Hf; simpl; [by apply returns_ret|].
  eapply returns_bind; [apply Hf; by left|]. intros y Hy.
  eapply returns_bind; [apply IH; intros x' Hx'; apply Hf; by right|]. intros ys Hys. apply returns_ret. by constructor.
Qed.
Lemma returns_iter {E A} (f : A → Lay E unit) l :
  (∀ x, x ∈ l → returns (f x) (λ _, True)) → returns (lay_iter f l) (λ _, True).
Proof.
  induction l as [|x l IH]; intros Hf; simpl; [by apply returns_ret|].
  eapply returns_bind; [apply Hf; by left|]. intros _ _. apply IH. intros x' Hx'. apply Hf. by right.
Qed.
End Returns.

(** One step of a run that succeeds. *)
Ltac returns_step :=
  lazymatch goal with
  | |- returns (lay_ret _) _ => apply returns_ret
  | |- returns (lay_bind (enable _ _ _) _) _ => apply returns_enable_then
  | |- returns (lay_bind (constrain_equal _ _) _) _ => apply returns_equal_then
  | |- returns (lay_bind (assign_advice _ _ _ _) _) _ => apply returns_advice_then; intros ?
  | |- returns (assign_region _) _ => apply returns_region; intros ?
  | |- returns (lay_bind (assign_region _) _) _ => apply returns_nest, returns_region; intros ?
  | |- returns (lay_bind (lay_bind _ _) _) _ => apply returns_nest
  | |- returns (match ?p with pair _ _ => _ end) _ => is_var p; destruct p
  | |- returns (assign_advice _ _ _ _) _ => eapply returns_conseq; [apply returns_advice|intros ? _]
  | |- returns (enable _ _ _) _ => eapply returns_conseq; [apply returns_enable|intros ? _]
  | |- returns (constrain_equal _ _) _ => eapply returns_conseq; [apply returns_equal|intros ? _]
  end; cbn beta iota.

(** ** Calls a grid satisfies *)

(** The selectors of a constraint system are each used once, and were allocated. *)
Definition cs_used (cs : ConstraintSystem) : list Selector :=
  (gate_selector <$> cs_gates cs) ++ (lookup_selector <$> cs_lookups cs).

(** Where its selector is off a gate vanishes, and a lookup's tuple is fixed. *)
Definition gate_idle (g : Gate) : Prop := ∀ row, vanish (gate_polys g Zmod.zero row).
Definition off_tuple (l : Lookup) : list (Fr * TableColumn) := lookup_inputs l Zmod.zero (λ _ _, Zmod.zero).
Definition lookup_idle (l : Lookup) : Prop := ∀ row, lookup_inputs l Zmod.zero row = off_tuple l.

Record cs_ok (cs : ConstraintSystem) : Prop := {
  ok_nodup : NoDup (cs_used cs);
  ok_fresh : Forall (λ s, s < cs_selectors cs) (cs_used cs);
  ok_gates : Forall gate_idle (cs_gates cs);
  ok_lookups : Forall lookup_idle (cs_lookups cs)
}.

Lemma vanish_1 p : vanish [p] ↔ p = Zmod.zero.
Proof. split; [by inversion 1|by intros ->; repeat constructor]. Qed.
Lemma vanish_2 p q : vanish [p; q] ↔ p = Zmod.zero ∧ q = Zmod.zero.
Proof. split; [intros H; by inversion H as [|? ? ? H2]; inversion H2|by intros [-> ->]; repeat constructor]. Qed.

Lemma mul_0_l_l (a b : Fr) : (Zmod.zero * a * b)%Zmod = Zmod.zero.
Proof. by rewrite !Zmod.mul_0_l. Qed.

Ltac idle_poly := first [apply Zmod.mul_0_l | apply mul_0_l_l].
Ltac idle_gate :=
  intros row; first [apply (proj2 (vanish_1 _)); idle_poly | apply (proj2 (vanish_2 _ _)); split; idle_poly].

Section CallOk.
Context (planner : nat → Z) (grid : Column → Z → Fr) (cs : ConstraintSystem) (log : list Call).

Definition call_ok (c : Call) : Prop :=
  match c with
  | Enable s region o =>
      let row := advice_at grid (planner region + Z.of_nat o) in
      (∀ g, g ∈ cs_gates cs → gate_selector g = s → vanish (gate_polys g Zmod.one row)) ∧
      (∀ l, l ∈ cs_lookups cs → lookup_selector l = s → in_table log (lookup_inputs l Zmod.one row))
  | Equal a b => cell_value planner grid a = cell_value planner grid b
  | Public c instance row => cell_value planner grid c = grid instance (Z.of_nat row)
  | Fixed c v => cell_value planner grid c = v
  | _ => True
  end.

Lemma enabled_spec calls s row :
  enabled planner calls s row = true ↔
  ∃ region o, Enable s region o ∈ calls ∧ row = (planner region + Z.of_nat o)%Z.
Proof.
  unfold enabled. rewrite existsb_exists. split.
  - intros ([s' region o| | | | |] & Hin & Hc); try done. apply andb_true_iff in Hc as [Hs Hrow].
    apply Nat.eqb_eq in Hs as <-. apply Z.eqb_eq in Hrow. apply list_elem_of_In in Hin. eauto.
  - intros (region & o & Hin & ->). exists (Enable s region o). split; [by apply list_elem_of_In|].
    by rewrite Nat.eqb_refl, Z.eqb_refl.
Qed.

(** A satisfied log satisfies each of its calls. *)
Lemma satisfied_call c : satisfied planner grid cs log → c ∈ log → call_ok c.
Proof.
  intros [Hg Hl He Hp Hf] Hin. destruct c as [s region o| |a b| | |]; simpl; try done; [|by apply He|by apply Hp|by apply Hf].
  assert (Hen : enabled planner log s (planner region + Z.of_nat o) = true) by (apply enabled_spec; eauto).
  split.
  - intros g Hgin <-. specialize (Hg g (planner region + Z.of_nat o)%Z Hgin).
    unfold selector_value in Hg. by rewrite Hen in Hg.
  - intros l Hlin <-. specialize (Hl l (planner region + Z.of_nat o)%Z Hlin).
    unfold selector_value in Hl. by rewrite Hen in Hl.
Qed.

(** The tables hold the tuples that lookups ask for where they are off. *)
Definition padded : Prop := ∀ l, l ∈ cs_lookups cs → in_table log (off_tuple l).

Lemma satisfied_intro : cs_ok cs → padded → Forall call_ok log → satisfied planner grid cs log.
Proof.
  intros [_ _ Hg Hi] Hl Hok. rewrite Forall_forall in Hg. rewrite Forall_forall in Hi. rewrite Forall_forall in Hok. split.
  - intros g row Hin. unfold selector_value. destruct (enabled _ _ _ _) eqn:E; [|by apply Hg].
    apply enabled_spec in E as (region & o & Hcall & ->). apply Hok in Hcall. by apply Hcall.
  - intros l row Hin. unfold selector_value. destruct (enabled _ _ _ _) eqn:E; [|by rewrite (Hi l Hin); apply Hl].
    apply enabled_spec in E as (region & o & Hcall & ->). apply Hok in Hcall. by apply Hcall.
  - intros a b Hin. by apply Hok in Hin.
  - intros c instance row Hin. by apply Hok in Hin.
  - intros c v Hin. by apply Hok in Hin.
Qed.

Lemma NoDup_fmap_inj {A} (f : A → nat) l x y : NoDup (f <$> l) → x ∈ l → y ∈ l → f x = f y → x = y.
Proof.
  intros Hnd Hx Hy E. apply list_elem_of_lookup in Hx as [i Hi], Hy as [j Hj].
  assert (i = j) as -> by (apply (NoDup_lookup _ i j (f x) Hnd); rewrite list_lookup_fmap; [by rewrite Hi|rewrite Hj, E; done]).
  congruence.
Qed.

(** Enabling a gate's selector asks for that gate only. *)
Lemma enable_gate_ok g region o :
  cs_ok cs → g ∈ cs_gates cs →
  vanish (gate_polys g Zmod.one (advice_at grid (planner region + Z.of_nat o))) →
  call_ok (Enable (gate_selector g) region o).
Proof.
  intros [Hnd _ _ _] Hin Hv. unfold cs_used in Hnd. apply NoDup_app in Hnd as (Hng & Hdis & _). split.
  - intros g' Hin' E. by rewrite (NoDup_fmap_inj gate_selector (cs_gates cs) g' g).
  - intros l Hl E. destruct (Hdis (gate_selector g)); [by apply list_elem_of_fmap_2|].
    rewrite <-E. by apply list_elem_of_fmap_2.
Qed.

Lemma enable_lookup_ok l region o :
  cs_ok cs → l ∈ cs_lookups cs →
  in_table log (lookup_inputs l Zmod.one (advice_at grid (planner region + Z.of_nat o))) →
  call_ok (Enable (lookup_selector l) region o).
Proof.
  intros [Hnd _ _ _] Hin Hv. unfold cs_used in Hnd. apply NoDup_app in Hnd as (_ & Hdis & Hnl). split.
  - intros g Hg E. destruct (Hdis (gate_selector g)); [by apply list_elem_of_fmap_2|].
    rewrite E. by apply list_elem_of_fmap_2.
  - intros l' Hin' E. by rewrite (NoDup_fmap_inj lookup_selector (cs_lookups cs) l' l).
Qed.
End CallOk.

(** ** Configuring *)

Record extends (cs cs' : ConstraintSystem) : Prop := {
  ext_gates : cs_gates cs ⊆ cs_gates cs';
  ext_lookups : cs_lookups cs ⊆ cs_lookups cs'
}.

#[export] Instance extends_preorder : PreOrder extends.
Proof. split; [by split|]. intros x y z [] []. split; set_solver. Qed.

Section Mwp.
Context (final : ConstraintSystem).

(** A configuration step keeps the system well formed and only adds to it; what
    it added is in the final system. *)
Definition mwp {A} (m : Meta A) (R : A → Prop) : Prop :=
  ∀ cs a cs', m cs = Some (a, cs') →
    (cs_ok cs → cs_ok cs') ∧ extends cs cs' ∧ (extends cs' final → R a).

Lemma mwp_ret {A} (a : A) (R : A → Prop) : R a → mwp (meta_ret a) R.
Proof. intros HR cs b cs' [= <- <-]. by split_and!. Qed.

Lemma mwp_bind {A B} (m : Meta A) (k : A → Meta B) R T :
  mwp m R → (∀ a, mwp (k a) (λ b, R a → T b)) → mwp (meta_bind m k) T.
Proof.
  intros Hm Hk cs b cs' Hrun. unfold meta_bind in Hrun. destruct (m cs) as [[a cs1]|] eqn:E1; [|done].
  destruct (Hm _ _ _ E1) as (Hok1 & Hex1 & HR). destruct (Hk a _ _ _ Hrun) as (Hok2 & Hex2 & HT).
  split_and!; [auto|by etrans|]. intros Hf. apply HT; [done|]. apply HR. by etrans.
Qed.

Lemma mwp_conseq {A} (m : Meta A) (R R' : A → Prop) : mwp m R' → (∀ a, R' a → R a) → mwp m R.
Proof. intros Hm HR cs a cs' Hrun. destruct (Hm _ _ _ Hrun) as (? & ? & ?). split_and!; auto. Qed.

Lemma mwp_assert {A} (b : bool) (m : Meta A) R :
  (b = true → mwp m R) → mwp (if b then m else meta_panic) R.
Proof. destruct b; [auto|]. by intros _ cs a cs'. Qed.

Lemma mwp_equality c (R : unit → Prop) : R tt → mwp (enable_equality c) R.
Proof. intros HR cs [] cs' [= <-]. split_and!; [by intros []|by split|done]. Qed.
Lemma mwp_advice_column (R : Column → Prop) : (∀ c, R c) → mwp advice_column R.
Proof. intros HR cs c cs' [= <- <-]. split_and!; [by intros []|by split|done]. Qed.
Lemma mwp_table_column (R : TableColumn → Prop) : (∀ c, R c) → mwp lookup_table_column R.
Proof. intros HR cs c cs' [= <- <-]. split_and!; [by intros []|by split|done]. Qed.

Lemma cs_ok_add (cs cs' : ConstraintSystem) :
  cs_used cs' ≡ₚ cs_selectors cs :: cs_used cs → cs_selectors cs' = S (cs_selectors cs) →
  (∀ g, g ∈ cs_gates cs' → g ∈ cs_gates cs ∨ gate_idle g) →
  (∀ l, l ∈ cs_lookups cs' → l ∈ cs_lookups cs ∨ lookup_idle l) →
  cs_ok cs → cs_ok cs'.
Proof.
  intros Hu Hs Hg Hl [Hnd Hf Hig Hil]. rewrite Forall_forall in Hf. rewrite Forall_forall in Hig. rewrite Forall_forall in Hil.
  split; [rewrite Hu; constructor| |apply Forall_forall..].
  - intros Hin%Hf. lia.
  - done.
  - rewrite Hu. constructor; [lia|]. apply Forall_forall. intros s Hin%Hf. lia.
  - intros g [Hin|Hi]%Hg; auto.
  - intros l [Hin|Hi]%Hl; auto.
Qed.

(** A selector and the gate it guards. *)
Lemma mwp_gate {B} (g : Selector → Gate) (k : Selector → Meta B) T :
  (∀ s, gate_selector (g s) = s ∧ gate_idle (g s)) → (∀ s, mwp (k s) (λ b, g s ∈ cs_gates final → T b)) →
  mwp (meta_bind selector (λ s, meta_bind (create_gate (g s)) (λ _, k s))) T.
Proof.
  intros Hg Hk cs b cs' Hrun. unfold meta_bind, selector, create_gate in Hrun. cbn -[In] in Hrun.
  destruct (Hk _ _ _ _ Hrun) as (Hok & [Hex1 Hex2] & HT). simpl in *. split_and!.
  - intros Hcs. apply Hok. apply (cs_ok_add cs); [|done|..|by left|done].
    + unfold cs_used. simpl. rewrite fmap_app. simpl. rewrite (proj1 (Hg _)). solve_Permutation.
    + intros h [Hin| ->%list_elem_of_singleton]%elem_of_app; [by left|right; by apply Hg].
  - split; set_solver.
  - intros [Hf1 Hf2]. apply HT; [by split|]. set_solver.
Qed.

(** A selector, the columns of a table, and the lookup it guards. *)
Lemma mwp_lookup1 {B} (l : Selector → TableColumn → Lookup) (k : Selector → TableColumn → Meta B) T :
  (∀ s t, lookup_selector (l s t) = s ∧ lookup_idle (l s t)) → (∀ s t, mwp (k s t) (λ b, l s t ∈ cs_lookups final → T b)) →
  mwp (meta_bind complex_selector (λ s, meta_bind lookup_table_column (λ t,
    meta_bind (lookup_argument (l s t)) (λ _, k s t)))) T.
Proof.
  intros Hg Hk cs b cs' Hrun. unfold meta_bind, complex_selector, selector, lookup_table_column, lookup_argument in Hrun.
  cbn in Hrun. destruct (Hk _ _ _ _ _ Hrun) as (Hok & [Hex1 Hex2] & HT). simpl in *. split_and!.
  - intros Hcs. apply Hok. apply (cs_ok_add cs); [|done|by left|..|done].
    + unfold cs_used. simpl. rewrite fmap_app. simpl. rewrite (proj1 (Hg _ _)). solve_Permutation.
    + intros h [Hin| ->%list_elem_of_singleton]%elem_of_app; [by left|right; by apply Hg].
  - split; set_solver.
  - intros [Hf1 Hf2]. apply HT; [by split|]. set_solver.
Qed.

Lemma mwp_lookup2 {B} (l : Selector → TableColumn → TableColumn → Lookup) (k : Selector → TableColumn → TableColumn → Meta B) T :
  (∀ s t u, lookup_selector (l s t u) = s ∧ lookup_idle (l s t u)) → (∀ s t u, mwp (k s t u) (λ b, l s t u ∈ cs_lookups final → T b)) →
  mwp (meta_bind complex_selector (λ s, meta_bind lookup_table_column (λ t, meta_bind lookup_table_column (λ u,
    meta_bind (lookup_argument (l s t u)) (λ _, k s t u))))) T.
Proof.
  intros Hg Hk cs b cs' Hrun. unfold meta_bind, complex_selector, selector, lookup_table_column, lookup_argument in Hrun.
  cbn in Hrun. destruct (Hk _ _ _ _ _ _ Hrun) as (Hok & [Hex1 Hex2] & HT). simpl in *. split_and!.
  - intros Hcs. apply Hok. apply (cs_ok_add cs); [|done|by left|..|done].
    + unfold cs_used. simpl. rewrite fmap_app. simpl. rewrite (proj1 (Hg _ _ _)). solve_Permutation.
    + intros h [Hin| ->%list_elem_of_singleton]%elem_of_app; [by left|right; by apply Hg].
  - split; set_solver.
  - intros [Hf1 Hf2]. apply HT; [by split|]. set_solver.
Qed.

Lemma mwp_map {A B} (f : A → Meta B) (Q : A → B → Prop) l :
  (∀ x, mwp (f x) (Q x)) → mwp (meta_map f l) (λ ys, Forall2 Q l ys).
Proof.
  intros Hf. induction l as [|x l IH]; simpl; [by apply mwp_ret; constructor|].
  eapply mwp_bind; [apply Hf|]. intros y. eapply mwp_bind; [exact IH|]. intros ys. apply mwp_ret. by constructor.
Qed.
End Mwp.

Lemma empty_cs_ok : cs_ok empty_cs.
Proof. split; [apply NoDup_nil_2|apply Forall_nil_2..]. Qed.

(** ** Cells of a region *)

Section Cells.
Context (planner : nat → Z) (grid : Column → Z → Fr).

Lemma advice_cell region o c rotation o' :
  (Z.of_nat o + rotation = Z.of_nat o')%Z →
  advice_at grid (planner region + Z.of_nat o) c rotation = cell_value planner grid (mkCell region o' c).
Proof. intros E. unfold advice_at, cell_value. simpl. f_equal. lia. Qed.

Lemma advice_cur region o c :
  advice_at grid (planner region + Z.of_nat o) c cur = cell_value planner grid (mkCell region o c).
Proof. apply advice_cell. unfold cur. lia. Qed.

Lemma advice_prev region o c :
  advice_at grid (planner region + Z.of_nat (S o)) c prev = cell_value planner grid (mkCell region o c).
Proof. apply advice_cell. unfold prev. lia. Qed.
End Cells.

(** A selector's guard, at a use of [mwp_gate] or [mwp_lookup1]. *)
Ltac gate_off := intros; split; [done|idle_gate].
Ltac lookup_off := intros; split; [done|]; intros row; unfold off_tuple; cbn [lookup_inputs]; rewrite ?Zmod.mul_0_l; done.

(** One step of a straight-line assignment. *)
Ltac wp_step :=
  lazymatch goal with
  | |- wp _ _ (lay_bind (enable _ _ _) _) _ => apply wp_enable_then; [|intros ?]
  | |- wp _ _ (lay_bind (constrain_equal _ _) _) _ => apply wp_equal_then; [|intros ?]
  | |- wp _ _ (lay_bind (assign_cell _ _ _) _) _ => apply wp_cell_then; [|intros ?]
  | |- wp _ _ (lay_bind (assign_advice _ _ _ _) _) _ => apply wp_advice_then; [|intros ?]
  | |- wp _ _ (lay_ret _) _ => apply wp_ret
  | |- wp _ _ (assign_advice _ _ _ _) _ => apply wp_advice; [|intros ?]
  | |- wp _ _ (enable _ _ _) _ => apply wp_enable; [|intros ?]
  | |- wp _ _ (constrain_equal _ _) _ => apply wp_equal; [|intros ?]
  | |- wp _ _ (assign_region _) _ => apply wp_region; intros ?
  | |- wp _ _ (lay_bind (assign_region _) _) _ => apply wp_nest, wp_region; intros ?
  | |- wp _ _ (lay_bind (lay_expect _) _) _ => apply wp_nest, wp_expect; intros ? ?
  | |- wp _ _ (lay_bind (lay_unwrap _) _) _ => apply wp_nest, wp_unwrap; intros ? ?
  | |- wp _ _ (lay_bind (lay_lift _) _) _ => apply wp_nest, wp_lift; intros ? ?
  | |- wp _ _ (lay_bind (lay_bind _ _) _) _ => apply wp_nest
  | |- wp _ _ (match ?p with pair _ _ => _ end) _ => is_var p; destruct p
  end; cbn beta iota.

(** The steps of a sound assignment, where calls ask for nothing. *)
Ltac wp_sound := repeat (wp_step; try exact I).
(** The steps of an honest assignment: selectors are accounted for at the end. *)
Ltac wp_honest :=
  repeat (lazymatch goal with
    | |- wp _ _ (lay_bind (enable _ _ _) _) _ => apply wp_enable_late; intros ?; cbn beta iota
    | |- wp _ _ (lay_bind (assign_advice _ _ _ _) _) _ => wp_step; [exact I|]
    | |- wp _ _ (assign_advice _ _ _ _) _ => wp_step; [exact I|]
    | |- wp _ _ (lay_bind (lay_bind _ _) _) _ => apply wp_assoc; cbn beta iota
    | |- wp _ _ (lay_bind (lay_ret _) _) _ => apply wp_ret_then; cbn beta iota
    | _ => wp_step
    end).

Section LogOk.
Context (planner : nat → Z) (grid : Column → Z → Fr) (cs : ConstraintSystem) (log : list Call).

(** The grid satisfies every call of the log. *)
Definition log_ok : Prop := ∀ c, c ∈ log → call_ok planner grid cs log c.

Lemma satisfied_log_ok : satisfied planner grid cs log → log_ok.
Proof. intros Hs c. by apply satisfied_call. Qed.

Lemma gate_on g region o :
  log_ok → g ∈ cs_gates cs → Enable (gate_selector g) region o ∈ log →
  vanish (gate_polys g Zmod.one (advice_at grid (planner region + Z.of_nat o))).
Proof. intros Hok Hg [Hgates _]%Hok. by apply Hgates. Qed.

Lemma lookup_on l region o :
  log_ok → l ∈ cs_lookups cs → Enable (lookup_selector l) region o ∈ log →
  in_table log (lookup_inputs l Zmod.one (advice_at grid (planner region + Z.of_nat o))).
Proof. intros Hok Hl [_ Hlookups]%Hok. by apply Hlookups. Qed.

Lemma equal_on a b : log_ok → Equal a b ∈ log → cell_value planner grid a = cell_value planner grid b.
Proof. intros Hok Hin. by apply Hok in Hin. Qed.
End LogOk.
