(* ===== verification/RangeCheck.v ===== *)
(** * Range checks

    zkie-core/src/chips/range_check.rs and lookup_range_check.rs: a value is
    bounded by recomposing it from bits, each constrained to be boolean, or from
    bytes, each looked up in a table. *)
From S2P Require Import Prelude Field Circuit CircuitLogic.

Open Scope nat_scope.

(** The loop of both sum gates: cell [i] of [n] sits at rotation [-(n - 1 - i)],
    and [next] steps the coefficient. *)
Definition recompose (next : Fr → Fr) (n : nat) (cell : Z → Fr) : Fr :=
  fst (foldl (λ '(sum, coeff) i,
    let rotation := (- Z.of_nat (n - 1 - i))%Z in
    ((sum + cell rotation * coeff)%Zmod, next coeff)) (Zmod.zero, Zmod.one) (seq 0 n)).

(** ** Bit decomposition *)

Module RangeCheck.

Record RangeCheckConfig := mkRangeCheckConfig {
  value : Column;
  bits : Column;
  s_bit : Selector;
  s_sum : Selector;
  n_bits : nat
}.

Definition bit_gate (bits : Column) (s_bit : Selector) : Gate :=
  mkGate "bit is boolean" s_bit (λ s_bit query,
    let bit := query bits cur in
    let one := fr 1 in
    [s_bit * bit * (one - bit)]%Zmod).

Definition sum_gate (value bits : Column) (n_bits : nat) (s_sum : Selector) : Gate :=
  mkGate "running sum equals value" s_sum (λ s_sum query,
    let value := query value cur in
    let sum := recompose (λ coeff, coeff + coeff)%Zmod n_bits (query bits) in
    [s_sum * (sum - value)]%Zmod).

Definition configure (value bits : Column) (n_bits : nat) : Meta RangeCheckConfig :=
  let& _ := enable_equality bits in
  let& s_bit := selector in
  let& _ := create_gate (bit_gate bits s_bit) in
  let& s_sum := selector in
  let& _ := create_gate (sum_gate value bits n_bits s_sum) in
  meta_ret (mkRangeCheckConfig value bits s_bit s_sum n_bits).

(** Bit [i] of an [i128]. *)
Definition bit_at (v : Z) (i : nat) : Z := Z.land (Z.shiftr v (Z.of_nat i)) 1.

Definition assign `{Layouter} (config : RangeCheckConfig) (v : Value Fr) (raw_value : Value Z) : Lay ErrorFront Cell :=
  let n := n_bits config in
  assign_region (λ region,
    let$ _ := lay_iter (λ i,
      let$ _ := enable (s_bit config) region i in
      let bit_value := (λ v, bit_at v i) <$> raw_value in
      let$ _ := assign_advice (bits config) region i (fr <$> bit_value) in
      lay_ret tt) (seq 0 n) in
    if n =? 0 then lay_panic else
    let$ _ := enable (s_sum config) region (n - 1) in
    assign_advice (value config) region (n - 1) v).

(** The gates of a configured chip are part of the system. *)
Definition installed (cs : ConstraintSystem) (config : RangeCheckConfig) : Prop :=
  bit_gate (bits config) (s_bit config) ∈ cs_gates cs ∧
  sum_gate (value config) (bits config) (n_bits config) (s_sum config) ∈ cs_gates cs.

End RangeCheck.

(** ** Byte lookups *)

Module LookupRangeCheck.

Definition LIMB_BITS : nat := 8.
Definition LIMB_VALUES : Z := Z.shiftl 1 (Z.of_nat LIMB_BITS).

Record LookupRangeCheckConfig := mkLookupRangeCheckConfig {
  value : Column;
  limbs : Column;
  s_limb : Selector;
  s_sum : Selector;
  table : TableColumn;
  n_bits : nat
}.

Definition limb_lookup (limbs : Column) (s_limb : Selector) (table : TableColumn) : Lookup :=
  mkLookup "limb is in the byte table" s_limb (λ s query,
    let limb := query limbs cur in
    [(s * limb, table)]%Zmod).

Definition sum_gate (value limbs : Column) (n_limbs : nat) (s_sum : Selector) : Gate :=
  mkGate "limbs recompose to value" s_sum (λ s_sum query,
    let value := query value cur in
    let base := fr LIMB_VALUES in
    let sum := recompose (λ coeff, coeff * base)%Zmod n_limbs (query limbs) in
    [s_sum * (sum - value)]%Zmod).

Definition configure (value limbs : Column) (n_bits : nat) : Meta LookupRangeCheckConfig :=
  assert& (0 <? n_bits) && (n_bits mod LIMB_BITS =? 0) in
  let& _ := enable_equality limbs in
  let& s_limb := complex_selector in
  let& table := lookup_table_column in
  let& _ := lookup_argument (limb_lookup limbs s_limb table) in
  let n_limbs := n_bits / LIMB_BITS in
  let& s_sum := selector in
  let& _ := create_gate (sum_gate value limbs n_limbs s_sum) in
  meta_ret (mkLookupRangeCheckConfig value limbs s_limb s_sum table n_bits).

Definition load_table `{Layouter} (config : LookupRangeCheckConfig) : Lay ErrorFront unit :=
  lay_iter (λ i, assign_cell (table config) i (fr (Z.of_nat i))) (seq 0 (Z.to_nat LIMB_VALUES)).

(** Limb [i] of an [i128], through [u64]. *)
Definition limb_at (v : Z) (i : nat) : Z :=
  Z.land (Z.shiftr v (Z.of_nat (LIMB_BITS * i)) mod 2 ^ 64) (LIMB_VALUES - 1).

Definition assign `{Layouter} (config : LookupRangeCheckConfig) (v : Value Fr) (raw_value : Value Z) : Lay ErrorFront Cell :=
  let n_limbs := n_bits config / LIMB_BITS in
  assign_region (λ region,
    let$ _ := lay_iter (λ i,
      let$ _ := enable (s_limb config) region i in
      let limb := (λ v, limb_at v i) <$> raw_value in
      let$ _ := assign_advice (limbs config) region i (fr <$> limb) in
      lay_ret tt) (seq 0 n_limbs) in
    if n_limbs =? 0 then lay_panic else
    let$ _ := enable (s_sum config) region (n_limbs - 1) in
    assign_advice (value config) region (n_limbs - 1) v).

Definition installed (cs : ConstraintSystem) (config : LookupRangeCheckConfig) : Prop :=
  limb_lookup (limbs config) (s_limb config) (table config) ∈ cs_lookups cs ∧
  sum_gate (value config) (limbs config) (n_bits config / LIMB_BITS) (s_sum config) ∈ cs_gates cs.

(** The table holds bytes only, or exactly the bytes. *)
Definition table_bytes (log : list Call) (config : LookupRangeCheckConfig) : Prop :=
  ∀ i v, Table (table config) i v ∈ log → v = fr (Z.of_nat i) ∧ i < 256.
Definition table_loaded (log : list Call) (config : LookupRangeCheckConfig) : Prop :=
  ∀ i, i < 256 → Table (table config) i (fr (Z.of_nat i)) ∈ log.

End LookupRangeCheck.

(** ** Range checks: soundness and completeness

    Both chips bound a value exactly: a grid that satisfies the calls of an
    [assign] holds, in the returned cell, an integer of [n_bits] bits, and an
    honest assignment of such an integer satisfies them. *)

Open Scope nat_scope.

(** ** Positional notation *)

Fixpoint digits_value (base : Z) (d : nat → Z) (n : nat) : Z :=
  match n with
  | O => 0%Z
  | S n => (digits_value base d n + d n * base ^ Z.of_nat n)%Z
  end.

Lemma digits_value_bound base d n :
  (0 < base)%Z → (∀ i, i < n → (0 ≤ d i < base)%Z) → (0 ≤ digits_value base d n < base ^ Z.of_nat n)%Z.
Proof.
  intros Hb. induction n as [|n IH]; intros Hd; cbn [digits_value]; [lia|].
  assert (0 ≤ digits_value base d n < base ^ Z.of_nat n)%Z by (apply IH; intros; apply Hd; lia).
  pose proof (Hd n ltac:(lia)). rewrite Nat2Z.inj_succ, Z.pow_succ_r by lia. nia.
Qed.

Lemma digits_value_ext base d d' n : (∀ i, i < n → d i = d' i) → digits_value base d n = digits_value base d' n.
Proof.
  induction n as [|n IH]; intros Hd; cbn [digits_value]; [done|].
  rewrite IH by (intros; apply Hd; lia). by rewrite Hd by lia.
Qed.

(** The digits of an integer. *)
Lemma digits_value_div base z n :
  (0 < base)%Z → digits_value base (λ i, (z / base ^ Z.of_nat i) mod base)%Z n = (z mod base ^ Z.of_nat n)%Z.
Proof.
  intros Hb. induction n as [|n IH]; cbn [digits_value]; [by rewrite Z.mod_1_r|].
  rewrite IH, Nat2Z.inj_succ, Z.pow_succ_r, (Z.mul_comm base), Z.rem_mul_r by lia. lia.
Qed.

Lemma digits_value_small base z n : (0 < base)%Z → (0 ≤ z < base ^ Z.of_nat n)%Z →
  digits_value base (λ i, (z / base ^ Z.of_nat i) mod base)%Z n = z.
Proof. intros Hb Hz. rewrite digits_value_div by done. by apply Z.mod_small. Qed.

Lemma recompose_spec next n cell base d :
  (∀ c, next (fr c) = fr (c * base)) →
  (∀ i, i < n → cell (- Z.of_nat (n - 1 - i))%Z = fr (d i)) →
  recompose next n cell = fr (digits_value base d n).
Proof.
  intros Hnext Hcell. unfold recompose. rewrite <-fr_0, <-fr_1.
  match goal with |- fst (foldl ?f _ _) = _ => set (step := f) end.
  assert (∀ m, m ≤ n → foldl step (fr 0, fr 1) (seq 0 m) =
    (fr (digits_value base d m), fr (base ^ Z.of_nat m))) as E; [|by rewrite E].
  intros m. induction m as [|m IH]; intros Hm; [done|].
  rewrite seq_S, foldl_app, IH by lia. cbn [foldl]. unfold step at 1. cbn [digits_value].
  rewrite Hcell, fr_mul, fr_add, Hnext by lia. f_equal. f_equal. rewrite Nat2Z.inj_succ, Z.pow_succ_r by lia. lia.
Qed.

(** ** Bit decomposition *)

Section Bits.
Context `{L : Layouter} (planner : nat → Z) (grid : Column → Z → Fr) (cs : ConstraintSystem) (log : list Call).
Context (config : RangeCheck.RangeCheckConfig) (Hinst : RangeCheck.installed cs config).
Import RangeCheck.

Notation val := (cell_value planner grid).

Lemma bit_at_spec z i : bit_at z i = ((z / 2 ^ Z.of_nat i) mod 2)%Z.
Proof. unfold bit_at. rewrite Z.shiftr_div_pow2 by lia. by rewrite (Z.land_ones _ 1). Qed.

Lemma boolean_bit (x : Fr) : Zmod.mul x (Zmod.sub (fr 1) x) = Zmod.zero → x = fr 0 ∨ x = fr 1.
Proof.
  intros [E|E]%fr_integral; [left; by rewrite fr_0|right]. by apply fr_sub_0 in E.
Qed.

Lemma range_assign_sound v raw_value :
  log_ok planner grid cs log →
  wp log (λ _, True) (assign config v raw_value)
    (λ cell, ∃ z, (0 ≤ z < 2 ^ Z.of_nat (n_bits config))%Z ∧ val cell = fr z).
Proof using All.
  intros Hok. destruct Hinst as [Hbit Hsum]. unfold assign. apply wp_region. intros region.
  apply (wp_iter_then _ _ _ (λ i,
    val (mkCell region i (bits config)) = fr 0 ∨ val (mkCell region i (bits config)) = fr 1)).
  { intros i _. wp_step; [done|]. rename H into Hen. wp_step; [done|]. wp_step.
      pose proof (gate_on _ _ _ _ _ _ _ Hok Hbit Hen) as Hv. simpl in Hv.
      rewrite vanish_1, advice_cur, Zmod.mul_1_l in Hv. by apply boolean_bit. }
  intros Hbits. apply wp_if; [intros _; apply wp_panic|]. intros Hn.
  wp_step; [done|]. rename H into Hen. wp_step; [done|]. apply Nat.eqb_neq in Hn.
  pose proof (gate_on _ _ _ _ _ _ _ Hok Hsum Hen) as Hv. simpl in Hv.
  rewrite vanish_1, advice_cur, Zmod.mul_1_l in Hv. apply fr_sub_0 in Hv. rewrite <-Hv.
  set (d := λ i, if decide (val (mkCell region i (bits config)) = fr 1) then 1%Z else 0%Z).
  exists (digits_value 2 d (n_bits config)). split.
  { apply digits_value_bound; [lia|]. intros i _. unfold d. case_decide; lia. }
  apply recompose_spec.
  { intros c. rewrite fr_add. f_equal. lia. }
  intros i Hi. rewrite (advice_cell _ _ _ _ _ _ i) by lia. unfold d. case_decide as Hd; [done|].
  rewrite Forall_forall in Hbits. destruct (Hbits i) as [E|E]; [apply elem_of_seq; lia|done..].
Qed.

Definition range_row (region : nat) (c : Call) : Prop :=
  match c with
  | Enable s r o => r = region ∧ ((s = s_bit config ∧ o < n_bits config) ∨ (s = s_sum config ∧ o = n_bits config - 1))
  | Assign _ _ => True
  | _ => False
  end.

Lemma range_assign_complete z :
  cs_ok cs → agrees planner grid log → (0 ≤ z < 2 ^ Z.of_nat (n_bits config))%Z →
  wp log (call_ok planner grid cs log) (assign config (Some (fr z)) (Some z)) (λ cell, val cell = fr z).
Proof using All.
  intros Hcs Hag Hz. destruct Hinst as [Hbit Hsum]. unfold assign. apply wp_region. intros region.
  apply wp_conseq with (λ cell, cell = mkCell region (n_bits config - 1) (value config) ∧ val cell = fr z ∧
    n_bits config ≠ 0 ∧
    ∀ i, i < n_bits config → val (mkCell region i (bits config)) = fr (bit_at z i)); [|naive_solver].
  apply wp_defer with (range_row region).
  - apply (wp_iter_then _ _ _ (λ i, val (mkCell region i (bits config)) = fr (bit_at z i))).
    { intros i [_ Hi]%elem_of_seq. wp_step; [simpl; auto with lia|]. wp_step; [done|]. wp_step. by apply Hag. }
    intros Hbits. apply wp_if; [intros _; apply wp_panic|]. intros Hn. apply Nat.eqb_neq in Hn.
    wp_step; [simpl; auto|]. wp_step; [done|]. split_and!; [done|by apply Hag|done|].
    intros i Hi. rewrite Forall_forall in Hbits. apply Hbits, elem_of_seq. lia.
  - intros cell [s r o| | | | |] (-> & Hval & Hn & Hbits) Hrow; try done.
    destruct Hrow as [-> [[-> Ho]|[-> ->]]].
    + apply (enable_gate_ok _ _ _ _ (bit_gate (bits config) (s_bit config))); [done..|].
      simpl. rewrite vanish_1, advice_cur, Hbits, Zmod.mul_1_l, fr_sub, fr_mul, <-fr_0 by done.
      rewrite bit_at_spec. f_equal. pose proof (Z.mod_pos_bound (z / 2 ^ Z.of_nat o) 2 ltac:(lia)). nia.
    + apply (enable_gate_ok _ _ _ _ (sum_gate (value config) (bits config) (n_bits config) (s_sum config))); [done..|].
      simpl. rewrite vanish_1, advice_cur, Hval, Zmod.mul_1_l.
      rewrite (recompose_spec _ _ _ 2 (bit_at z)).
      * erewrite digits_value_ext; [|intros i _; apply bit_at_spec]. rewrite digits_value_small by lia.
        by rewrite fr_sub, Z.sub_diag, fr_0.
      * intros c. rewrite fr_add. f_equal. lia.
      * intros i Hi. rewrite (advice_cell _ _ _ _ _ _ i) by lia. by apply Hbits.
Qed.

Lemma range_assign_returns `{!Roomy L} v raw_value :
  0 < n_bits config → returns (assign config v raw_value) (λ _, True).
Proof.
  intros Hn. unfold assign. apply returns_region. intros region.
  eapply returns_bind; [apply returns_iter|].
  { intros i _. eapply returns_bind; [apply returns_enable|]. intros _ _.
    eapply returns_bind; [apply returns_advice|]. intros _ _. by apply returns_ret. }
  intros _ _. destruct (Nat.eqb_spec (n_bits config) 0); [lia|].
  eapply returns_bind; [apply returns_enable|]. intros _ _. apply returns_advice.
Qed.
End Bits.

(** ** Byte lookups *)

Section Limbs.
Context `{L : Layouter} (planner : nat → Z) (grid : Column → Z → Fr) (cs : ConstraintSystem) (log : list Call).
Import LookupRangeCheck.
#[local] Arguments Nat.div : simpl never.
Context (config : LookupRangeCheckConfig) (Hinst : installed cs config).

Notation val := (cell_value planner grid).
Notation n_limbs := (n_bits config / LIMB_BITS).

Lemma limb_at_spec z i : limb_at z i = ((z / 256 ^ Z.of_nat i) mod 256)%Z.
Proof.
  unfold limb_at, LIMB_VALUES, LIMB_BITS. rewrite Z.shiftr_div_pow2 by lia.
  change (Z.shiftl 1 (Z.of_nat 8) - 1)%Z with (Z.ones 8). rewrite Z.land_ones by lia.
  change (2 ^ 8)%Z with 256%Z. rewrite Nat2Z.inj_mul, Z.pow_mul_r by lia. change (2 ^ Z.of_nat 8)%Z with 256%Z.
  rewrite <-Znumtheory.Zmod_div_mod; [done|lia|lia|]. by exists (2 ^ 56)%Z.
Qed.

Lemma lookup_assign_sound v raw_value :
  table_bytes log config → log_ok planner grid cs log →
  wp log (λ _, True) (assign config v raw_value)
    (λ cell, ∃ z, (0 ≤ z < 256 ^ Z.of_nat n_limbs)%Z ∧ val cell = fr z).
Proof using All.
  intros Htab Hok. destruct Hinst as [Hlimb Hsum]. unfold assign. apply wp_region. intros region.
  apply (wp_iter_then _ _ _ (λ i, ∃ d, (0 ≤ d < 256)%Z ∧ val (mkCell region i (limbs config)) = fr d)).
  { intros i _. wp_step; [done|]. rename H into Hen. wp_step; [done|]. wp_step.
    destruct (lookup_on _ _ _ _ _ _ _ Hok Hlimb Hen) as (j & [Hj _]%Forall_cons). simpl in Hj.
    apply Htab in Hj as [Hj Hlt]. rewrite advice_cur, Zmod.mul_1_l in Hj. exists (Z.of_nat j). split; [lia|done]. }
  intros Hlimbs. apply wp_if; [intros _; apply wp_panic|]. intros Hn.
  wp_step; [done|]. rename H into Hen. wp_step; [done|]. apply Nat.eqb_neq in Hn.
  pose proof (gate_on _ _ _ _ _ _ _ Hok Hsum Hen) as Hv. simpl in Hv.
  rewrite vanish_1, advice_cur, Zmod.mul_1_l in Hv. apply fr_sub_0 in Hv. rewrite <-Hv.
  assert (∃ d : nat → Z, ∀ i, i < n_limbs → (0 ≤ d i < 256)%Z ∧ val (mkCell region i (limbs config)) = fr (d i)) as (d & Hd).
  { rewrite Forall_forall in Hlimbs. clear -Hlimbs. set (n := n_limbs) in *. clearbody n.
    induction n as [|n IH]; [exists (λ _, 0%Z); lia|].
    destruct IH as (d & Hd). { intros i Hi. apply Hlimbs. apply elem_of_seq in Hi. apply elem_of_seq. lia. }
    destruct (Hlimbs n) as (e & He); [apply elem_of_seq; lia|].
    exists (λ i, if decide (i = n) then e else d i). intros i Hi. case_decide as Hin; [by subst|]. apply Hd. lia. }
  exists (digits_value 256 d n_limbs). split; [apply digits_value_bound; [lia|]; by intros i [? _]%Hd|].
  apply recompose_spec; [intros c; by rewrite fr_mul|].
  intros i Hi. rewrite (advice_cell _ _ _ _ _ _ i) by lia. by apply Hd.
Qed.

Definition limb_row (region : nat) (c : Call) : Prop :=
  match c with
  | Enable s r o => r = region ∧ ((s = s_limb config ∧ o < n_limbs) ∨ (s = s_sum config ∧ o = n_limbs - 1))
  | Assign _ _ => True
  | _ => False
  end.

Lemma lookup_assign_complete z :
  table_loaded log config → cs_ok cs → agrees planner grid log → (0 ≤ z < 256 ^ Z.of_nat n_limbs)%Z →
  wp log (call_ok planner grid cs log) (assign config (Some (fr z)) (Some z)) (λ cell, val cell = fr z).
Proof using All.
  intros Htab Hcs Hag Hz. destruct Hinst as [Hlimb Hsum]. unfold assign. apply wp_region. intros region.
  apply wp_conseq with (λ cell, cell = mkCell region (n_limbs - 1) (value config) ∧ val cell = fr z ∧
    n_limbs ≠ 0 ∧
    ∀ i, i < n_limbs → val (mkCell region i (limbs config)) = fr (limb_at z i)); [|naive_solver].
  apply wp_defer with (limb_row region).
  - apply (wp_iter_then _ _ _ (λ i, val (mkCell region i (limbs config)) = fr (limb_at z i))).
    { intros i [_ Hi]%elem_of_seq. wp_step; [simpl; auto with lia|]. wp_step; [done|]. wp_step. by apply Hag. }
    intros Hlimbs. apply wp_if; [intros _; apply wp_panic|]. intros Hn. apply Nat.eqb_neq in Hn.
    wp_step; [simpl; auto|]. wp_step; [done|]. split_and!; [done|by apply Hag|done|].
    intros i Hi. rewrite Forall_forall in Hlimbs. apply Hlimbs, elem_of_seq. lia.
  - intros cell [s r o| | | | |] (-> & Hval & Hn & Hlimbs) Hrow; try done.
    destruct Hrow as [-> [[-> Ho]|[-> ->]]].
    + apply (enable_lookup_ok _ _ _ _ (limb_lookup (limbs config) (s_limb config) (table config))); [done..|].
      exists (Z.to_nat (limb_at z o)). apply Forall_cons. split; [|constructor]. simpl.
      rewrite advice_cur, Hlimbs, Zmod.mul_1_l, limb_at_spec by done.
      pose proof (Z.mod_pos_bound (z / 256 ^ Z.of_nat o) 256 ltac:(lia)).
      rewrite <-(Z2Nat.id ((z / 256 ^ Z.of_nat o) mod 256)) at 2 by lia. apply Htab. lia.
    + apply (enable_gate_ok _ _ _ _ (sum_gate (value config) (limbs config) n_limbs (s_sum config))); [done..|].
      simpl. rewrite vanish_1, advice_cur, Hval, Zmod.mul_1_l.
      rewrite (recompose_spec _ _ _ 256 (limb_at z)).
      * erewrite digits_value_ext; [|intros i _; apply limb_at_spec]. rewrite digits_value_small by lia.
        by rewrite fr_sub, Z.sub_diag, fr_0.
      * intros c. by rewrite fr_mul.
      * intros i Hi. rewrite (advice_cell _ _ _ _ _ _ i) by lia. by apply Hlimbs.
Qed.

Lemma lookup_assign_returns `{!Roomy L} v raw_value :
  0 < n_limbs → returns (assign config v raw_value) (λ _, True).
Proof.
  intros Hn. unfold assign. apply returns_region. intros region.
  eapply returns_bind; [apply returns_iter|].
  { intros i _. eapply returns_bind; [apply returns_enable|]. intros _ _.
    eapply returns_bind; [apply returns_advice|]. intros _ _. by apply returns_ret. }
  intros _ _. destruct (Nat.eqb_spec n_limbs 0); [lia|].
  eapply returns_bind; [apply returns_enable|]. intros _ _. apply returns_advice.
Qed.

(** Loading makes the table and nothing else. *)
Lemma load_table_loaded : wp log (λ c, ∃ i, i < 256 ∧ c = Table (table config) i (fr (Z.of_nat i)))
  (load_table config) (λ _, table_loaded log config).
Proof.
  unfold load_table. apply (wp_iter _ _ _ (λ i, Table (table config) i (fr (Z.of_nat i)) ∈ log)).
  - intros i [_ Hi]%elem_of_seq. apply wp_cell; [|done]. exists i. split; [|done].
    change (Z.to_nat LIMB_VALUES) with 256 in Hi. lia.
  - intros Hall i Hi. rewrite Forall_forall in Hall. apply Hall, elem_of_seq.
    change (Z.to_nat LIMB_VALUES) with 256. lia.
Qed.
End Limbs.

(** ** Configuring *)

Lemma range_configure_ok final value bits n_bits :
  mwp final (RangeCheck.configure value bits n_bits) (λ config, RangeCheck.installed final config ∧
    RangeCheck.value config = value ∧ RangeCheck.n_bits config = n_bits).
Proof.
  unfold RangeCheck.configure. eapply mwp_bind; [by apply (mwp_equality _ _ (λ _, True))|]. intros [].
  apply (mwp_gate _ (RangeCheck.bit_gate bits)); [gate_off|]. intros s_bit.
  apply (mwp_gate _ (RangeCheck.sum_gate value bits n_bits)); [gate_off|]. intros s_sum.
  apply mwp_ret. intros Hs Hb _. split; [by split|done].
Qed.

Lemma lookup_configure_ok final value limbs n_bits :
  mwp final (LookupRangeCheck.configure value limbs n_bits) (λ config,
    LookupRangeCheck.installed final config ∧
    LookupRangeCheck.value config = value ∧ LookupRangeCheck.n_bits config = n_bits).
Proof.
  unfold LookupRangeCheck.configure. apply mwp_assert. intros _.
  eapply mwp_bind; [by apply (mwp_equality _ _ (λ _, True))|]. intros [].
  apply (mwp_lookup1 _ (LookupRangeCheck.limb_lookup limbs)); [lookup_off|]. intros s_limb table.
  apply (mwp_gate _ (LookupRangeCheck.sum_gate value limbs (n_bits / LookupRangeCheck.LIMB_BITS))); [gate_off|].
  intros s_sum. apply mwp_ret. intros Hs Hb _. split; [by split|done].
Qed.
