(* ===== verification/Eltwise.v ===== *)
(** * Element-wise addition and multiplication

    zkie-core/src/chips/eltwise.rs, with the operand-exposing rows of
    chips/layer_norm.rs that the composed chips use.  An addition works on
    representations shifted by 2^63, so that its cells can be range-checked; a
    multiplication works on plain operands, whose shifted copies are checked,
    and returns a shifted quotient. *)
From S2P Require Import Prelude Field FixedPoint Circuit RangeCheck.

Open Scope nat_scope.

Definition REMAINDER_BITS : nat := 60.

(** [witness_value], [value_or_unknown]. *)
Definition witness_value {A} (known : bool) (v : Value A) : Value A := if known then v else None.

(** ** Addition *)

Record EltwiseAddConfig := mkEltwiseAddConfig {
  add_a : Column;
  add_b : Column;
  add_c : Column;
  s_add : Selector;
  add_range_a : RangeCheck.RangeCheckConfig;
  add_range_b : RangeCheck.RangeCheckConfig;
  add_range_c : RangeCheck.RangeCheckConfig
}.

Definition add_gate (a b c : Column) (s_add : Selector) : Gate :=
  mkGate "add (shifted)" s_add (λ s_add query,
    let a := query a cur in
    let b := query b cur in
    let c := query c cur in
    let shift := i128_to_fr SIGNED_SHIFT in
    [s_add * (a + b - c - shift)]%Zmod).

Definition add_configure (a b c bits : Column) : Meta EltwiseAddConfig :=
  let& _ := enable_equality a in
  let& _ := enable_equality b in
  let& _ := enable_equality c in
  let& s_add := selector in
  let& _ := create_gate (add_gate a b c s_add) in
  let& range_a := RangeCheck.configure a bits 64 in
  let& range_b := RangeCheck.configure b bits 64 in
  let& range_c := RangeCheck.configure c bits 64 in
  meta_ret (mkEltwiseAddConfig a b c s_add range_a range_b range_c).

Section Add.
Context `{Layouter} (config : EltwiseAddConfig).

Definition add_assign (a b : I18) : Lay ErrorFront Cell :=
  let$ c_raw := lay_unwrap (try_i64 (raw a + raw b)) in
  let '(a_shift_fr, a_shift_raw) := shifted_i64_witness (raw a) in
  let '(b_shift_fr, b_shift_raw) := shifted_i64_witness (raw b) in
  let '(c_shift_fr, c_shift_raw) := shifted_i64_witness c_raw in
  let$ '(a_cell, b_cell, c_cell) := assign_region (λ region,
    let$ _ := enable (s_add config) region 0 in
    let$ a_cell := assign_advice (add_a config) region 0 a_shift_fr in
    let$ b_cell := assign_advice (add_b config) region 0 b_shift_fr in
    let$ c_cell := assign_advice (add_c config) region 0 c_shift_fr in
    lay_ret (a_cell, b_cell, c_cell)) in
  let$ a_range_cell := RangeCheck.assign (add_range_a config) a_shift_fr a_shift_raw in
  let$ b_range_cell := RangeCheck.assign (add_range_b config) b_shift_fr b_shift_raw in
  let$ c_range_cell := RangeCheck.assign (add_range_c config) c_shift_fr c_shift_raw in
  let$ _ := assign_region (λ _,
    let$ _ := constrain_equal a_cell a_range_cell in
    let$ _ := constrain_equal b_cell b_range_cell in
    let$ _ := constrain_equal c_cell c_range_cell in
    lay_ret tt) in
  lay_ret c_cell.

Definition assign_add_row_with_witnesses (a_raw b_raw : Z) (witnesses_known : bool)
    : Lay ErrorFront (Cell * Cell * Cell) :=
  let$ c_raw := lay_unwrap (try_i64 (a_raw + b_raw)) in
  let '(a_shift_fr, a_shift_raw) := shifted_i64_witness a_raw in
  let '(b_shift_fr, b_shift_raw) := shifted_i64_witness b_raw in
  let '(c_shift_fr, c_shift_raw) := shifted_i64_witness c_raw in
  let$ '(a_cell, b_cell, c_cell) := assign_region (λ region,
    let$ _ := enable (s_add config) region 0 in
    let$ a_cell := assign_advice (add_a config) region 0 (witness_value witnesses_known a_shift_fr) in
    let$ b_cell := assign_advice (add_b config) region 0 (witness_value witnesses_known b_shift_fr) in
    let$ c_cell := assign_advice (add_c config) region 0 (witness_value witnesses_known c_shift_fr) in
    lay_ret (a_cell, b_cell, c_cell)) in
  let$ a_range_cell := RangeCheck.assign (add_range_a config)
    (witness_value witnesses_known a_shift_fr) (witness_value witnesses_known a_shift_raw) in
  let$ b_range_cell := RangeCheck.assign (add_range_b config)
    (witness_value witnesses_known b_shift_fr) (witness_value witnesses_known b_shift_raw) in
  let$ c_range_cell := RangeCheck.assign (add_range_c config)
    (witness_value witnesses_known c_shift_fr) (witness_value witnesses_known c_shift_raw) in
  let$ _ := assign_region (λ _,
    let$ _ := constrain_equal a_cell a_range_cell in
    let$ _ := constrain_equal b_cell b_range_cell in
    let$ _ := constrain_equal c_cell c_range_cell in
    lay_ret tt) in
  lay_ret (a_cell, b_cell, c_cell).

Definition assign_add_row (a_raw b_raw : Z) : Lay ErrorFront (Cell * Cell * Cell) :=
  assign_add_row_with_witnesses a_raw b_raw true.
End Add.

(** ** Multiplication *)

Record EltwiseMulConfig := mkEltwiseMulConfig {
  mul_a : Column;
  mul_b : Column;
  mul_q : Column;
  mul_r : Column;
  mul_slack : Column;
  s_mul : Selector;
  s_slack : Selector;
  mul_range_q : RangeCheck.RangeCheckConfig;
  mul_range_r : RangeCheck.RangeCheckConfig;
  mul_range_r_slack : RangeCheck.RangeCheckConfig;
  a_shift : Column;
  b_shift : Column;
  s_shift : Selector;
  mul_range_a : LookupRangeCheck.LookupRangeCheckConfig;
  mul_range_b : LookupRangeCheck.LookupRangeCheckConfig
}.

Definition mul_gate (a b q r : Column) (s_mul : Selector) : Gate :=
  mkGate "mul rescale (shifted q)" s_mul (λ s_mul query,
    let a := query a cur in
    let b := query b cur in
    let q_shift := query q cur in
    let r := query r cur in
    let scale := i128_to_fr SCALE_18 in
    let shift_scaled := i128_to_fr (SIGNED_SHIFT * SCALE_18) in
    [s_mul * (a * b - (q_shift * scale - shift_scaled) - r)]%Zmod).

Definition slack_gate (name : string) (r slack : Column) (s_slack : Selector) : Gate :=
  mkGate name s_slack (λ s_slack query,
    let r := query r cur in
    let slack := query slack cur in
    let bound_minus_one := i128_to_fr (SCALE_18 - 1) in
    [s_slack * (slack + r - bound_minus_one)]%Zmod).

Definition shift_gate (name : string) (a b a_shift b_shift : Column) (s_shift : Selector) : Gate :=
  mkGate name s_shift (λ s_shift query,
    let a := query a cur in
    let b := query b cur in
    let a_shift := query a_shift cur in
    let b_shift := query b_shift cur in
    let shift := i128_to_fr SIGNED_SHIFT in
    [s_shift * (a_shift - a - shift); s_shift * (b_shift - b - shift)]%Zmod).

Definition mul_configure (a b q r slack bits : Column) : Meta EltwiseMulConfig :=
  let& _ := enable_equality a in
  let& _ := enable_equality b in
  let& _ := enable_equality q in
  let& _ := enable_equality r in
  let& _ := enable_equality slack in
  let& s_mul := selector in
  let& _ := create_gate (mul_gate a b q r s_mul) in
  let& s_slack := selector in
  let& _ := create_gate (slack_gate "slack equals bound minus remainder" r slack s_slack) in
  let& a_shift := advice_column in
  let& b_shift := advice_column in
  let& _ := enable_equality a_shift in
  let& _ := enable_equality b_shift in
  let& s_shift := selector in
  let& _ := create_gate (shift_gate "mul operand shift" a b a_shift b_shift s_shift) in
  let& range_a := LookupRangeCheck.configure a_shift bits 64 in
  let& range_b := LookupRangeCheck.configure b_shift bits 64 in
  let& range_q := RangeCheck.configure q bits 64 in
  let& range_r := RangeCheck.configure r bits REMAINDER_BITS in
  let& range_r_slack := RangeCheck.configure slack bits REMAINDER_BITS in
  meta_ret (mkEltwiseMulConfig a b q r slack s_mul s_slack range_q range_r range_r_slack
    a_shift b_shift s_shift range_a range_b).

Section Mul.
Context `{Layouter} (mul : EltwiseMulConfig).

Definition load_mul_operand_range_table : Lay ErrorFront unit :=
  let$ _ := LookupRangeCheck.load_table (mul_range_a mul) in
  LookupRangeCheck.load_table (mul_range_b mul).

Definition assign_mul_operand_shifts_with_witness_mode (region offset : nat) (a_val b_val : I18)
    (witnesses_known : bool) : Lay ErrorFront (Cell * Cell) :=
  let$ _ := enable (s_shift mul) region offset in
  let '(a_shift_fr, _) := shifted_i64_witness (raw a_val) in
  let '(b_shift_fr, _) := shifted_i64_witness (raw b_val) in
  let$ a_cell := assign_advice (a_shift mul) region offset (witness_value witnesses_known a_shift_fr) in
  let$ b_cell := assign_advice (b_shift mul) region offset (witness_value witnesses_known b_shift_fr) in
  lay_ret (a_cell, b_cell).

Definition assign_mul_operand_shifts (region offset : nat) (a_val b_val : I18) : Lay ErrorFront (Cell * Cell) :=
  assign_mul_operand_shifts_with_witness_mode region offset a_val b_val true.

Definition link_mul_operand_ranges_with_witness_mode (a_val b_val : I18) (a_shift_cell b_shift_cell : Cell)
    (witnesses_known : bool) : Lay ErrorFront unit :=
  let '(a_fr, a_raw) := shifted_i64_witness (raw a_val) in
  let$ a_range_cell := LookupRangeCheck.assign (mul_range_a mul)
    (witness_value witnesses_known a_fr) (witness_value witnesses_known a_raw) in
  let '(b_fr, b_raw) := shifted_i64_witness (raw b_val) in
  let$ b_range_cell := LookupRangeCheck.assign (mul_range_b mul)
    (witness_value witnesses_known b_fr) (witness_value witnesses_known b_raw) in
  assign_region (λ _,
    let$ _ := constrain_equal a_shift_cell a_range_cell in
    let$ _ := constrain_equal b_shift_cell b_range_cell in
    lay_ret tt).

Definition link_mul_operand_ranges (a_val b_val : I18) (a_shift_cell b_shift_cell : Cell) : Lay ErrorFront unit :=
  link_mul_operand_ranges_with_witness_mode a_val b_val a_shift_cell b_shift_cell true.

Definition mul_assign (a b : I18) : Lay ErrorFront Cell :=
  let$ '(q, r) := lay_expect (requantize_mul a b) in
  let slack := (SCALE_18 - 1 - r)%Z in
  let '(q_shift_fr, q_shift_raw) := shifted_i64_witness (raw q) in
  let$ '(q_cell, r_cell, slack_cell, a_shift_cell, b_shift_cell) := assign_region (λ region,
    let$ _ := enable (s_mul mul) region 0 in
    let$ _ := enable (s_slack mul) region 0 in
    let$ _ := assign_advice (mul_a mul) region 0 (Some (i64_to_fr (raw a))) in
    let$ _ := assign_advice (mul_b mul) region 0 (Some (i64_to_fr (raw b))) in
    let$ '(a_shift_cell, b_shift_cell) := assign_mul_operand_shifts region 0 a b in
    let$ q_cell := assign_advice (mul_q mul) region 0 q_shift_fr in
    let$ r_cell := assign_advice (mul_r mul) region 0 (Some (i128_to_fr r)) in
    let$ slack_cell := assign_advice (mul_slack mul) region 0 (Some (i128_to_fr slack)) in
    lay_ret (q_cell, r_cell, slack_cell, a_shift_cell, b_shift_cell)) in
  let$ _ := link_mul_operand_ranges a b a_shift_cell b_shift_cell in
  let$ q_range_cell := RangeCheck.assign (mul_range_q mul) q_shift_fr q_shift_raw in
  let$ r_range_cell := RangeCheck.assign (mul_range_r mul) (Some (i128_to_fr r)) (Some r) in
  let$ slack_range_cell := RangeCheck.assign (mul_range_r_slack mul) (Some (i128_to_fr slack)) (Some slack) in
  let$ _ := assign_region (λ _,
    let$ _ := constrain_equal q_cell q_range_cell in
    let$ _ := constrain_equal r_cell r_range_cell in
    let$ _ := constrain_equal slack_cell slack_range_cell in
    lay_ret tt) in
  lay_ret q_cell.

Definition assign_mul_row_with_witnesses (a_val b_val : I18) (witnesses_known : bool)
    : Lay ErrorFront (Cell * Cell * Cell) :=
  let$ '(q, r) := lay_expect (requantize_mul a_val b_val) in
  let slack := (SCALE_18 - 1 - r)%Z in
  let '(q_shift_fr, q_shift_raw) := shifted_i64_witness (raw q) in
  let value_or_unknown {A} (v : Value A) := witness_value witnesses_known v in
  let$ '(a_cell, b_cell, q_cell, r_cell, slack_cell, a_shift_cell, b_shift_cell) := assign_region (λ region,
    let$ _ := enable (s_mul mul) region 0 in
    let$ _ := enable (s_slack mul) region 0 in
    let$ a_cell := assign_advice (mul_a mul) region 0 (value_or_unknown (Some (i64_to_fr (raw a_val)))) in
    let$ b_cell := assign_advice (mul_b mul) region 0 (value_or_unknown (Some (i64_to_fr (raw b_val)))) in
    let$ q_cell := assign_advice (mul_q mul) region 0 (value_or_unknown q_shift_fr) in
    let$ r_cell := assign_advice (mul_r mul) region 0 (value_or_unknown (Some (i128_to_fr r))) in
    let$ slack_cell := assign_advice (mul_slack mul) region 0 (value_or_unknown (Some (i128_to_fr slack))) in
    let$ '(a_shift_cell, b_shift_cell) :=
      assign_mul_operand_shifts_with_witness_mode region 0 a_val b_val witnesses_known in
    lay_ret (a_cell, b_cell, q_cell, r_cell, slack_cell, a_shift_cell, b_shift_cell)) in
  let$ _ := link_mul_operand_ranges_with_witness_mode a_val b_val a_shift_cell b_shift_cell witnesses_known in
  let$ q_range_cell := RangeCheck.assign (mul_range_q mul) (value_or_unknown q_shift_fr) (value_or_unknown q_shift_raw) in
  let$ r_range_cell := RangeCheck.assign (mul_range_r mul) (value_or_unknown (Some (i128_to_fr r))) (value_or_unknown (Some r)) in
  let$ slack_range_cell := RangeCheck.assign (mul_range_r_slack mul)
    (value_or_unknown (Some (i128_to_fr slack))) (value_or_unknown (Some slack)) in
  let$ _ := assign_region (λ _,
    let$ _ := constrain_equal q_cell q_range_cell in
    let$ _ := constrain_equal r_cell r_range_cell in
    let$ _ := constrain_equal slack_cell slack_range_cell in
    lay_ret tt) in
  lay_ret (a_cell, b_cell, q_cell).

Definition assign_mul_row (a_val b_val : I18) : Lay ErrorFront (Cell * Cell * Cell) :=
  assign_mul_row_with_witnesses a_val b_val true.
End Mul.
