(* ===== verification/EltwiseProofs.v ===== *)
(** * Element-wise rows: soundness and completeness

    A satisfied row holds 64-bit integers and their exact fixed-point sum or
    product; an honest row satisfies its circuit whenever the code does not
    panic. *)
From S2P Require Import Prelude Field FixedPoint Circuit CircuitLogic RangeCheck Eltwise.

Open Scope Z_scope.

(** ** Cells that hold machine integers *)

Section Holds.
Context (planner : nat → Z) (grid : Column → Z → Fr).

(** The cell holds an [i64], plain or shifted by 2^63. *)
Definition plain (cell : Cell) (z : Z) : Prop := in_i64 z ∧ cell_value planner grid cell = fr z.
Definition shifted (cell : Cell) (z : Z) : Prop :=
  in_i64 z ∧ cell_value planner grid cell = fr (z + SIGNED_SHIFT).

Lemma plain_inj cell x y : plain cell x → plain cell y → x = y.
Proof.
  intros [Hx Ex] [Hy Ey]. rewrite Ex in Ey. apply fr_inj in Ey; [done|].
  pose proof bn254_order_large. zlia.
Qed.

Lemma shifted_inj cell x y : shifted cell x → shifted cell y → x = y.
Proof.
  intros [Hx Ex] [Hy Ey]. rewrite Ex in Ey. apply fr_inj in Ey; [lia|].
  pose proof bn254_order_large. zlia.
Qed.

Lemma shifted_of_range cell u :
  0 ≤ u < 2 ^ 64 → cell_value planner grid cell = fr u → shifted cell (u - 2 ^ 63).
Proof. intros Hu E. split; [zlia|]. rewrite E. f_equal. unfold SIGNED_SHIFT. change (Z.shiftl 1 63) with (2 ^ 63). lia. Qed.

Lemma shifted_eq a b z : shifted a z → shifted b z → cell_value planner grid a = cell_value planner grid b.
Proof. by intros [_ ->] [_ ->]. Qed.
Lemma plain_eq a b z : plain a z → plain b z → cell_value planner grid a = cell_value planner grid b.
Proof. by intros [_ ->] [_ ->]. Qed.

(** Cells assigned by the code. *)
Lemma plain_assigned log c z : agrees planner grid log → Assign c (Some (i64_to_fr z)) ∈ log → in_i64 z → plain c z.
Proof. intros Hag Hin Hz. split; [done|]. by rewrite (Hag _ _ Hin), i64_to_fr_eq. Qed.
Lemma shifted_assigned log c z :
  agrees planner grid log → Assign c (Some (i128_to_fr (z + SIGNED_SHIFT))) ∈ log → in_i64 z → shifted c z.
Proof. intros Hag Hin Hz. split; [done|]. by rewrite (Hag _ _ Hin), i128_to_fr_eq. Qed.

Lemma assigned_i128 log c z : agrees planner grid log → Assign c (Some (i128_to_fr z)) ∈ log → cell_value planner grid c = fr z.
Proof. intros Hag Hin. by rewrite (Hag _ _ Hin), i128_to_fr_eq. Qed.

(** Cells tied by a copy constraint. *)
Lemma plain_copy a b z : cell_value planner grid a = cell_value planner grid b → plain b z → plain a z.
Proof. intros E [Hz Eb]. split; [done|]. by rewrite E. Qed.
Lemma plain_copied a b z : cell_value planner grid a = cell_value planner grid b → plain a z → plain b z.
Proof. intros E [Hz Ea]. split; [done|]. by rewrite <-E. Qed.
Lemma shifted_copy a b z : cell_value planner grid a = cell_value planner grid b → shifted b z → shifted a z.
Proof. intros E [Hz Eb]. split; [done|]. by rewrite E. Qed.

(** A shift gate between two cells. *)
Lemma plain_of_shifted a b z :
  cell_value planner grid b = fr (z + SIGNED_SHIFT) → in_i64 z →
  (cell_value planner grid b - cell_value planner grid a - i128_to_fr SIGNED_SHIFT)%Zmod = Zmod.zero → plain a z.
Proof.
  intros Eb Hz E. split; [done|]. rewrite Eb, i128_to_fr_eq in E.
  apply fr_sub_0 in E. apply (f_equal (λ x, Zmod.sub (fr (z + SIGNED_SHIFT)) x)) in E.
  transitivity (fr (z + SIGNED_SHIFT) - fr SIGNED_SHIFT)%Zmod; [rewrite <-E; ring|].
  rewrite fr_sub. f_equal. lia.
Qed.
End Holds.

(** ** Range checks of machine integers *)

Section Ranges.
Context `{L : Layouter} (planner : nat → Z) (grid : Column → Z → Fr) (cs : ConstraintSystem) (log : list Call).

Notation val := (cell_value planner grid).
Notation shifted := (shifted planner grid).
Notation log_ok := (log_ok planner grid cs log).
Notation call_ok := (call_ok planner grid cs log).

Lemma range64_sound config v raw_value :
  RangeCheck.installed cs config → RangeCheck.n_bits config = 64%nat → log_ok →
  wp log (λ _, True) (RangeCheck.assign config v raw_value) (λ cell, ∃ z, shifted cell z).
Proof.
  intros Hi Hn Hok. eapply wp_conseq; [by apply (range_assign_sound planner grid cs)|].
  intros cell (z & Hz & E). rewrite Hn in Hz. exists (z - 2 ^ 63). by apply shifted_of_range.
Qed.

Lemma range60_sound config v raw_value :
  RangeCheck.installed cs config → RangeCheck.n_bits config = REMAINDER_BITS → log_ok →
  wp log (λ _, True) (RangeCheck.assign config v raw_value) (λ cell, ∃ z, 0 ≤ z < 2 ^ 60 ∧ val cell = fr z).
Proof.
  intros Hi Hn Hok. eapply wp_conseq; [by apply (range_assign_sound planner grid cs)|].
  intros cell (z & Hz & E). rewrite Hn in Hz. by exists z.
Qed.

Lemma lookup64_sound config v raw_value :
  LookupRangeCheck.installed cs config → LookupRangeCheck.n_bits config = 64%nat →
  LookupRangeCheck.table_bytes log config → log_ok →
  wp log (λ _, True) (LookupRangeCheck.assign config v raw_value) (λ cell, ∃ z, shifted cell z).
Proof.
  intros Hi Hn Ht Hok. eapply wp_conseq; [by apply (lookup_assign_sound planner grid cs)|].
  intros cell (z & Hz & E). rewrite Hn in Hz. exists (z - 2 ^ 63). by apply shifted_of_range.
Qed.

Lemma shifted_range z : in_i64 z → 0 ≤ z + SIGNED_SHIFT < 2 ^ 64.
Proof. pose proof SIGNED_SHIFT_eq. zlia. Qed.

Lemma range64_complete config z :
  RangeCheck.installed cs config → RangeCheck.n_bits config = 64%nat → cs_ok cs → agrees planner grid log →
  in_i64 z →
  wp log call_ok (RangeCheck.assign config (Some (i128_to_fr (z + SIGNED_SHIFT))) (Some (z + SIGNED_SHIFT)))
    (λ cell, shifted cell z).
Proof.
  intros Hi Hn Hcs Hag Hz. rewrite i128_to_fr_eq. eapply wp_conseq.
  - apply range_assign_complete; try done. rewrite Hn. by apply shifted_range.
  - intros cell E. by split.
Qed.

Lemma range60_complete config z :
  RangeCheck.installed cs config → RangeCheck.n_bits config = REMAINDER_BITS → cs_ok cs → agrees planner grid log →
  0 ≤ z < 2 ^ 60 →
  wp log call_ok (RangeCheck.assign config (Some (i128_to_fr z)) (Some z)) (λ cell, val cell = fr z).
Proof.
  intros Hi Hn Hcs Hag Hz. rewrite i128_to_fr_eq. apply range_assign_complete; try done. by rewrite Hn.
Qed.

Lemma lookup64_complete config z :
  LookupRangeCheck.installed cs config → LookupRangeCheck.n_bits config = 64%nat →
  LookupRangeCheck.table_loaded log config → cs_ok cs → agrees planner grid log → in_i64 z →
  wp log call_ok (LookupRangeCheck.assign config (Some (i128_to_fr (z + SIGNED_SHIFT))) (Some (z + SIGNED_SHIFT)))
    (λ cell, shifted cell z).
Proof.
  intros Hi Hn Ht Hcs Hag Hz. rewrite i128_to_fr_eq. eapply wp_conseq.
  - apply lookup_assign_complete; try done. rewrite Hn. by apply shifted_range.
  - intros cell E. by split.
Qed.
End Ranges.

(** Reads the copy constraints made, and a gate enabled, off a satisfied log. *)
Ltac read_copies Hok :=
  repeat match goal with
    | H : Equal _ _ ∈ _ |- _ => apply (equal_on _ _ _ _ _ _ Hok) in H
    end.
Ltac read_gate Hok Hg :=
  let Hv := fresh "Hv" in
  lazymatch type of Hg with
  | ?g ∈ _ =>
      match goal with
      | H : Enable (gate_selector g) _ _ ∈ _ |- _ => pose proof (gate_on _ _ _ _ g _ _ Hok Hg H) as Hv
      | H : Enable _ _ _ ∈ _ |- _ => pose proof (gate_on _ _ _ _ g _ _ Hok Hg H) as Hv
      end
  end.

(** ** Addition *)

Record add_installed (cs : ConstraintSystem) (config : EltwiseAddConfig) : Prop := {
  ai_gate : add_gate (add_a config) (add_b config) (add_c config) (s_add config) ∈ cs_gates cs;
  ai_range_a : RangeCheck.installed cs (add_range_a config);
  ai_range_b : RangeCheck.installed cs (add_range_b config);
  ai_range_c : RangeCheck.installed cs (add_range_c config);
  ai_bits_a : RangeCheck.n_bits (add_range_a config) = 64%nat;
  ai_bits_b : RangeCheck.n_bits (add_range_b config) = 64%nat;
  ai_bits_c : RangeCheck.n_bits (add_range_c config) = 64%nat
}.

Lemma add_configure_ok final a b c bits :
  mwp final (add_configure a b c bits) (λ config, add_installed final config).
Proof.
  unfold add_configure. do 3 (eapply mwp_bind; [by apply (mwp_equality _ _ (λ _, True))|intros []]).
  apply (mwp_gate _ (add_gate a b c)); [gate_off|]. intros s.
  do 3 (eapply mwp_bind; [apply range_configure_ok|intros ?]).
  apply mwp_ret. intros (? & _ & ?) (? & _ & ?) (? & _ & ?) Hg _ _ _. by split.
Qed.

Section AddProofs.
Context `{L : Layouter} (planner : nat → Z) (grid : Column → Z → Fr) (cs : ConstraintSystem) (log : list Call).
Context (config : EltwiseAddConfig) (Hinst : add_installed cs config).

Notation val := (cell_value planner grid).
Notation shifted := (shifted planner grid).

(** Three shifted cells of a row the gate accepts. *)
Lemma add_gate_sound region x y z :
  vanish (gate_polys (add_gate (add_a config) (add_b config) (add_c config) (s_add config)) Zmod.one
    (advice_at grid (planner region + Z.of_nat 0))) →
  shifted (mkCell region 0 (add_a config)) x → shifted (mkCell region 0 (add_b config)) y →
  shifted (mkCell region 0 (add_c config)) z → z = x + y.
Proof.
  simpl gate_polys. cbv zeta. rewrite vanish_1, !advice_cur. intros Hv [Hx Ex] [Hy Ey] [Hz Ez].
  rewrite Ex, Ey, Ez, Zmod.mul_1_l in Hv. fr_to_Z Hv; [lia|].
  pose proof bn254_order_large. pose proof SIGNED_SHIFT_eq. zlia.
Qed.

(** Both entry points make the same rows. *)
Ltac add_sound Hok :=
  wp_sound;
  eapply wp_bind; [apply (range64_sound planner grid cs); [apply Hinst..|done]|]; intros ra (x & Hx);
  eapply wp_bind; [apply (range64_sound planner grid cs); [apply Hinst..|done]|]; intros rb (y & Hy);
  eapply wp_bind; [apply (range64_sound planner grid cs); [apply Hinst..|done]|]; intros rc (z & Hz);
  wp_sound; read_copies Hok; read_gate Hok (ai_gate _ _ Hinst);
  match goal with Hv : vanish (gate_polys _ _ (advice_at _ (planner ?region + _))) |- _ =>
    assert (Hxa : shifted (mkCell region 0 (add_a config)) x) by (by eapply shifted_copy);
    assert (Hyb : shifted (mkCell region 0 (add_b config)) y) by (by eapply shifted_copy);
    assert (Hzc : shifted (mkCell region 0 (add_c config)) z) by (by eapply shifted_copy);
    pose proof (add_gate_sound _ _ _ _ Hv Hxa Hyb Hzc) as E
  end; subst z.

Lemma add_row_sound a_raw b_raw known :
  log_ok planner grid cs log →
  wp log (λ _, True) (assign_add_row_with_witnesses config a_raw b_raw known)
    (λ '(a, b, c), ∃ x y, shifted a x ∧ shifted b y ∧ shifted c (x + y)).
Proof using All.
  intros Hok. unfold assign_add_row_with_witnesses, shifted_i64_witness. add_sound Hok. by exists x, y.
Qed.

(** The operands of [EltwiseAddChip::assign] are in the row of its result. *)
Lemma add_assign_sound a b :
  log_ok planner grid cs log →
  wp log (λ _, True) (add_assign config a b)
    (λ c, ∃ x y, shifted (mkCell (cell_region c) 0 (add_a config)) x ∧
      shifted (mkCell (cell_region c) 0 (add_b config)) y ∧ shifted c (x + y)).
Proof using All.
  intros Hok. unfold add_assign, shifted_i64_witness. add_sound Hok. by exists x, y.
Qed.

Lemma add_gate_complete region x y :
  cs_ok cs → shifted (mkCell region 0 (add_a config)) x → shifted (mkCell region 0 (add_b config)) y →
  shifted (mkCell region 0 (add_c config)) (x + y) → call_ok planner grid cs log (Enable (s_add config) region 0).
Proof using Hinst.
  intros Hcs [_ Ea] [_ Eb] [_ Ec].
  apply (enable_gate_ok _ _ _ _ (add_gate (add_a config) (add_b config) (add_c config) (s_add config))); [done|apply Hinst|].
  simpl gate_polys. cbv zeta. rewrite vanish_1, !advice_cur, Zmod.mul_1_l, Ea, Eb, Ec.
  autorewrite with fr. f_equal. lia.
Qed.

Ltac add_complete Hag :=
  unfold shifted_i64_witness, witness_value; wp_honest;
  match goal with H : try_i64 _ = Some _ |- _ => apply try_i64_Some in H as [<- ?] end;
  match goal with Hin : Assign (mkCell ?region 0 (add_a config)) (Some (i128_to_fr (?x + _))) ∈ _,
      Hin' : Assign (mkCell ?region 0 (add_b config)) (Some (i128_to_fr (?y + _))) ∈ _ |- _ =>
    assert (Hca : shifted (mkCell region 0 (add_a config)) x) by (by eapply shifted_assigned);
    assert (Hcb : shifted (mkCell region 0 (add_b config)) y) by (by eapply shifted_assigned);
    assert (Hcc : shifted (mkCell region 0 (add_c config)) (x + y)) by (by eapply shifted_assigned)
  end;
  split; [|by eapply add_gate_complete];
  do 3 (eapply wp_bind; [apply range64_complete; [apply Hinst..|done|done|eassumption]|]; intros ? ?);
  cbn beta in *; wp_honest; [by eapply shifted_eq..|].

Lemma add_row_complete a_raw b_raw :
  cs_ok cs → agrees planner grid log → in_i64 a_raw → in_i64 b_raw →
  wp log (call_ok planner grid cs log) (assign_add_row config a_raw b_raw)
    (λ '(a, b, c), shifted a a_raw ∧ shifted b b_raw ∧ shifted c (a_raw + b_raw)).
Proof using All.
  intros Hcs Hag Ha Hb. unfold assign_add_row, assign_add_row_with_witnesses. by add_complete Hag.
Qed.

Lemma add_assign_complete a b :
  cs_ok cs → agrees planner grid log → in_I18 a → in_I18 b →
  wp log (call_ok planner grid cs log) (add_assign config a b) (λ c, shifted c (raw a + raw b)).
Proof using All. intros Hcs Hag Ha Hb. unfold add_assign, in_I18 in *. by add_complete Hag. Qed.

Lemma add_row_returns `{!Roomy L} a_raw b_raw known :
  in_i64 (a_raw + b_raw) → returns (assign_add_row_with_witnesses config a_raw b_raw known) (λ _, True).
Proof using Hinst.
  intros Hc. unfold assign_add_row_with_witnesses, shifted_i64_witness, lay_unwrap.
  rewrite (proj2 (try_i64_Some _ _) (conj eq_refl Hc)). eapply returns_bind; [by apply (returns_ret _ (λ c, c = a_raw + b_raw))|].
  intros _ ->. repeat returns_step.
  do 3 (eapply returns_bind; [apply range_assign_returns; [exact _|];
    rewrite ?(ai_bits_a _ _ Hinst), ?(ai_bits_b _ _ Hinst), ?(ai_bits_c _ _ Hinst); lia|intros ? _]).
  by repeat returns_step.
Qed.
End AddProofs.

(** ** The rescale gadget *)

Section Rescale.
Context (planner : nat → Z) (grid : Column → Z → Fr).

Notation val := (cell_value planner grid).

Lemma i64_product x y : in_i64 x → in_i64 y → - 2 ^ 126 ≤ x * y ≤ 2 ^ 126.
Proof. intros Hx Hy. assert (Z.abs x ≤ 2 ^ 63) by zlia. assert (Z.abs y ≤ 2 ^ 63) by zlia. nia. Qed.

(** A remainder and its slack in 60 bits pin the remainder below the scale. *)
Lemma slack_sound name r_col slack_col s region o (r slack : Z) :
  vanish (gate_polys (slack_gate name r_col slack_col s) Zmod.one (advice_at grid (planner region + Z.of_nat o))) →
  0 ≤ r < 2 ^ 60 → val (mkCell region o r_col) = fr r →
  0 ≤ slack < 2 ^ 60 → val (mkCell region o slack_col) = fr slack → 0 ≤ r < SCALE_18.
Proof.
  simpl gate_polys. cbv zeta. rewrite vanish_1, !advice_cur, Zmod.mul_1_l. intros Hv Hr Er Hs Es.
  rewrite Er, Es in Hv. fr_to_Z Hv; pose proof bn254_order_large; unfold SCALE_18 in *; lia.
Qed.

Lemma slack_complete name r_col slack_col s region o r :
  val (mkCell region o r_col) = fr r → val (mkCell region o slack_col) = fr (SCALE_18 - 1 - r) →
  vanish (gate_polys (slack_gate name r_col slack_col s) Zmod.one (advice_at grid (planner region + Z.of_nat o))).
Proof.
  intros Er Es. simpl gate_polys. cbv zeta. rewrite vanish_1, !advice_cur, Zmod.mul_1_l, Er, Es.
  autorewrite with fr. f_equal. lia.
Qed.

(** An equation [n = q * SCALE + r] in the field, between bounded integers. *)
Lemma rescale_sound n q r :
  - 2 ^ 190 ≤ n ≤ 2 ^ 190 → in_i64 q → 0 ≤ r < SCALE_18 →
  fr (n - ((q + SIGNED_SHIFT) * SCALE_18 - SIGNED_SHIFT * SCALE_18) - r) = Zmod.zero →
  requantize_raw n = Ok (I18_ q, r).
Proof.
  intros Hn Hq Hr E. apply requantize_raw_Ok. split_and!; [done| |lia|lia]. simpl.
  apply fr_inj_0 in E; pose proof bn254_order_large; unfold SCALE_18 in *; zlia.
Qed.
End Rescale.

(** ** Multiplication *)

Record mul_installed (cs : ConstraintSystem) (mul : EltwiseMulConfig) : Prop := {
  mi_gate : mul_gate (mul_a mul) (mul_b mul) (mul_q mul) (mul_r mul) (s_mul mul) ∈ cs_gates cs;
  mi_slack : slack_gate "slack equals bound minus remainder" (mul_r mul) (mul_slack mul) (s_slack mul) ∈ cs_gates cs;
  mi_shift : shift_gate "mul operand shift" (mul_a mul) (mul_b mul) (a_shift mul) (b_shift mul) (s_shift mul) ∈ cs_gates cs;
  mi_range_a : LookupRangeCheck.installed cs (mul_range_a mul);
  mi_range_b : LookupRangeCheck.installed cs (mul_range_b mul);
  mi_range_q : RangeCheck.installed cs (mul_range_q mul);
  mi_range_r : RangeCheck.installed cs (mul_range_r mul);
  mi_range_slack : RangeCheck.installed cs (mul_range_r_slack mul);
  mi_bits_a : LookupRangeCheck.n_bits (mul_range_a mul) = 64%nat;
  mi_bits_b : LookupRangeCheck.n_bits (mul_range_b mul) = 64%nat;
  mi_bits_q : RangeCheck.n_bits (mul_range_q mul) = 64%nat;
  mi_bits_r : RangeCheck.n_bits (mul_range_r mul) = REMAINDER_BITS;
  mi_bits_slack : RangeCheck.n_bits (mul_range_r_slack mul) = REMAINDER_BITS
}.

Lemma mul_configure_ok final a b q r slack bits :
  mwp final (mul_configure a b q r slack bits) (λ config, mul_installed final config).
Proof.
  unfold mul_configure. do 5 (eapply mwp_bind; [by apply (mwp_equality _ _ (λ _, True))|intros []]).
  apply (mwp_gate _ (mul_gate a b q r)); [gate_off|]. intros s_mul.
  apply (mwp_gate _ (slack_gate _ r slack)); [gate_off|]. intros s_slack.
  do 2 (eapply mwp_bind; [by apply (mwp_advice_column _ (λ _, True))|intros ?]).
  do 2 (eapply mwp_bind; [by apply (mwp_equality _ _ (λ _, True))|intros []]).
  apply (mwp_gate _ (shift_gate _ a b _ _)); [gate_off|]. intros s_shift.
  do 2 (eapply mwp_bind; [apply lookup_configure_ok|intros ?]).
  do 3 (eapply mwp_bind; [apply range_configure_ok|intros ?]).
  apply mwp_ret. intros (? & _ & ?) (? & _ & ?) (? & _ & ?) (? & _ & ?) (? & _ & ?) ? _ _ _ _ ? ? _ _ _ _ _. by split.
Qed.

(** The byte tables of the operand checks. *)
Definition mul_table_bytes (log : list Call) (mul : EltwiseMulConfig) : Prop :=
  LookupRangeCheck.table_bytes log (mul_range_a mul) ∧ LookupRangeCheck.table_bytes log (mul_range_b mul).
Definition mul_table_loaded (log : list Call) (mul : EltwiseMulConfig) : Prop :=
  LookupRangeCheck.table_loaded log (mul_range_a mul) ∧ LookupRangeCheck.table_loaded log (mul_range_b mul).

Lemma load_mul_tables `{L : Layouter} log (P : Call → Prop) mul :
  (∀ t i v, P (Table t i v)) → wp log P (load_mul_operand_range_table mul) (λ _, mul_table_loaded log mul).
Proof.
  intros HP. unfold load_mul_operand_range_table.
  eapply wp_bind; [eapply (wp_defer _ _ _ _ (λ _, LookupRangeCheck.table_loaded log (mul_range_a mul)));
    [apply load_table_loaded|by intros _ c _ (i & _ & ->)]|]. intros [] Ha.
  eapply wp_conseq; [eapply (wp_defer _ _ _ _ (λ _, LookupRangeCheck.table_loaded log (mul_range_b mul)));
    [apply load_table_loaded|by intros _ c _ (i & _ & ->)]|]. intros [] Hb. by split.
Qed.

Section MulProofs.
Context `{L : Layouter} (planner : nat → Z) (grid : Column → Z → Fr) (cs : ConstraintSystem) (log : list Call).
Context (mul : EltwiseMulConfig) (Hinst : mul_installed cs mul).

Notation val := (cell_value planner grid).
Notation shifted := (shifted planner grid).
Notation plain := (plain planner grid).

Lemma shift_gate_sound region x y :
  vanish (gate_polys (shift_gate "mul operand shift" (mul_a mul) (mul_b mul) (a_shift mul) (b_shift mul) (s_shift mul))
    Zmod.one (advice_at grid (planner region + Z.of_nat 0))) →
  shifted (mkCell region 0 (a_shift mul)) x → shifted (mkCell region 0 (b_shift mul)) y →
  plain (mkCell region 0 (mul_a mul)) x ∧ plain (mkCell region 0 (mul_b mul)) y.
Proof.
  simpl gate_polys. cbv zeta. rewrite vanish_2, !advice_cur, !Zmod.mul_1_l. intros [Ha Hb] [Hx Ex] [Hy Ey].
  split; by eapply plain_of_shifted.
Qed.

Lemma mul_gate_sound region x y q r :
  vanish (gate_polys (mul_gate (mul_a mul) (mul_b mul) (mul_q mul) (mul_r mul) (s_mul mul)) Zmod.one
    (advice_at grid (planner region + Z.of_nat 0))) →
  plain (mkCell region 0 (mul_a mul)) x → plain (mkCell region 0 (mul_b mul)) y →
  shifted (mkCell region 0 (mul_q mul)) q → val (mkCell region 0 (mul_r mul)) = fr r → 0 ≤ r < SCALE_18 →
  requantize_mul (I18_ x) (I18_ y) = Ok (I18_ q, r).
Proof.
  simpl gate_polys. cbv zeta. rewrite vanish_1, !advice_cur, Zmod.mul_1_l.
  intros Hv [Hx Ex] [Hy Ey] [Hq Eq] Er Hr. rewrite Ex, Ey, Eq, Er in Hv. autorewrite with fr in Hv.
  unfold requantize_mul. cbn [raw I18_raw]. rewrite (rescale_sound (x * y) q r); [done| |done..].
  pose proof (i64_product x y Hx Hy). lia.
Qed.

Lemma link_ranges_sound a_val b_val ca cb known :
  mul_table_bytes log mul → log_ok planner grid cs log →
  wp log (λ _, True) (link_mul_operand_ranges_with_witness_mode mul a_val b_val ca cb known)
    (λ _, (∃ x, shifted ca x) ∧ ∃ y, shifted cb y).
Proof using All.
  intros [Ht1 Ht2] Hok. unfold link_mul_operand_ranges_with_witness_mode, shifted_i64_witness.
  eapply wp_bind; [apply (lookup64_sound planner grid cs); [apply Hinst..|done|done]|]. intros ra (x & Hx).
  eapply wp_bind; [apply (lookup64_sound planner grid cs); [apply Hinst..|done|done]|]. intros rb (y & Hy).
  wp_sound. read_copies Hok. split; eexists; by eapply shifted_copy.
Qed.

Ltac mul_sound Hok Ht :=
  wp_sound;
  eapply (wp_bind _ _ (link_mul_operand_ranges_with_witness_mode _ _ _ _ _ _)); [by apply link_ranges_sound|];
  intros _ [[x Hx] [y Hy]];
  eapply wp_bind; [apply (range64_sound planner grid cs); [apply Hinst..|done]|]; intros rq (q & Hq);
  eapply wp_bind; [apply (range60_sound planner grid cs); [apply Hinst..|done]|]; intros rr (r & Hr & Er);
  eapply wp_bind; [apply (range60_sound planner grid cs); [apply Hinst..|done]|]; intros rs (slack & Hs & Es);
  wp_sound; read_copies Hok;
  match goal with H1 : Enable (s_mul mul) ?region 0 ∈ log, H2 : Enable (s_slack mul) ?region 0 ∈ log,
      H3 : Enable (s_shift mul) ?region 0 ∈ log |- _ =>
    pose proof (gate_on _ _ _ _ (mul_gate _ _ _ _ _) _ _ Hok (mi_gate _ _ Hinst) H1) as Hmul;
    pose proof (gate_on _ _ _ _ (slack_gate _ _ _ _) _ _ Hok (mi_slack _ _ Hinst) H2) as Hslack;
    pose proof (gate_on _ _ _ _ (shift_gate _ _ _ _ _ _) _ _ Hok (mi_shift _ _ Hinst) H3) as Hshift;
    destruct (shift_gate_sound region x y Hshift Hx Hy) as [Hpa Hpb];
    assert (Hqc : shifted (mkCell region 0 (mul_q mul)) q) by (by eapply shifted_copy);
    assert (Hrc : val (mkCell region 0 (mul_r mul)) = fr r) by (by etrans);
    assert (Hsc : val (mkCell region 0 (mul_slack mul)) = fr slack) by (by etrans);
    pose proof (slack_sound planner grid _ _ _ _ region 0 r slack Hslack Hr Hrc Hs Hsc) as Hrs;
    pose proof (mul_gate_sound region x y q r Hmul Hpa Hpb Hqc Hrc Hrs) as Emul
  end.

(** The operands and the product of a multiplication row. *)
Definition is_product (a b c : Cell) : Prop :=
  ∃ x y q r, plain a x ∧ plain b y ∧ shifted c q ∧ requantize_mul (I18_ x) (I18_ y) = Ok (I18_ q, r).

Lemma mul_row_sound a_val b_val known :
  mul_table_bytes log mul → log_ok planner grid cs log →
  wp log (λ _, True) (assign_mul_row_with_witnesses mul a_val b_val known) (λ '(a, b, c), is_product a b c).
Proof using All.
  intros Ht Hok. unfold assign_mul_row_with_witnesses, assign_mul_operand_shifts_with_witness_mode, shifted_i64_witness.
  mul_sound Hok Ht. by exists x, y, q, r.
Qed.

Lemma mul_assign_sound a b :
  mul_table_bytes log mul → log_ok planner grid cs log →
  wp log (λ _, True) (mul_assign mul a b) (λ c,
    is_product (mkCell (cell_region c) 0 (mul_a mul)) (mkCell (cell_region c) 0 (mul_b mul)) c).
Proof using All.
  intros Ht Hok. unfold mul_assign, assign_mul_operand_shifts, link_mul_operand_ranges,
    assign_mul_operand_shifts_with_witness_mode, shifted_i64_witness.
  mul_sound Hok Ht. by exists x, y, q, r.
Qed.

Lemma mul_gates_complete region x y q r :
  cs_ok cs → plain (mkCell region 0 (mul_a mul)) x → plain (mkCell region 0 (mul_b mul)) y →
  shifted (mkCell region 0 (mul_q mul)) q → val (mkCell region 0 (mul_r mul)) = fr r →
  val (mkCell region 0 (mul_slack mul)) = fr (SCALE_18 - 1 - r) →
  shifted (mkCell region 0 (a_shift mul)) x → shifted (mkCell region 0 (b_shift mul)) y →
  x * y = q * SCALE_18 + r →
  call_ok planner grid cs log (Enable (s_mul mul) region 0) ∧
  call_ok planner grid cs log (Enable (s_slack mul) region 0) ∧
  call_ok planner grid cs log (Enable (s_shift mul) region 0).
Proof using Hinst.
  intros Hcs [_ Ea] [_ Eb] [_ Eq] Er Es [_ Exs] [_ Eys] E. split_and!.
  - apply (enable_gate_ok _ _ _ _ _ _ _ Hcs (mi_gate _ _ Hinst)).
    simpl gate_polys. cbv zeta. rewrite vanish_1, !advice_cur, Zmod.mul_1_l, Ea, Eb, Eq, Er.
    autorewrite with fr. f_equal. lia.
  - apply (enable_gate_ok _ _ _ _ _ _ _ Hcs (mi_slack _ _ Hinst)). by eapply slack_complete.
  - apply (enable_gate_ok _ _ _ _ _ _ _ Hcs (mi_shift _ _ Hinst)).
    simpl gate_polys. cbv zeta. rewrite vanish_2, !advice_cur, !Zmod.mul_1_l, Ea, Eb, Exs, Eys.
    split; autorewrite with fr; f_equal; lia.
Qed.

Lemma link_ranges_complete a_val b_val ca cb :
  cs_ok cs → agrees planner grid log → mul_table_loaded log mul → in_I18 a_val → in_I18 b_val →
  shifted ca (raw a_val) → shifted cb (raw b_val) →
  wp log (call_ok planner grid cs log) (link_mul_operand_ranges_with_witness_mode mul a_val b_val ca cb true)
    (λ _, True).
Proof using All.
  intros Hcs Hag [Ht1 Ht2] Ha Hb Hsa Hsb. unfold link_mul_operand_ranges_with_witness_mode, shifted_i64_witness, witness_value.
  eapply wp_bind; [apply lookup64_complete; [apply Hinst..|done|done|done|done]|]. intros ra Hra.
  eapply wp_bind; [apply lookup64_complete; [apply Hinst..|done|done|done|done]|]. intros rb Hrb.
  cbn beta in *. wp_honest; [by eapply shifted_eq..|done].
Qed.

Ltac mul_complete Hag :=
  unfold shifted_i64_witness, witness_value; wp_honest;
  lazymatch goal with H : requantize_mul ?x ?y = Ok (?q, ?r), Hin : Assign (mkCell ?region 0 (mul_r mul)) _ ∈ _ |- _ =>
    pose proof H as Hok; apply requantize_mul_Ok in H as (Hq & Hxy & Hr);
    assert (Hca : plain (mkCell region 0 (mul_a mul)) (raw x)) by (by eapply plain_assigned);
    assert (Hcb : plain (mkCell region 0 (mul_b mul)) (raw y)) by (by eapply plain_assigned);
    assert (Hcq : shifted (mkCell region 0 (mul_q mul)) (raw q)) by (by eapply shifted_assigned);
    assert (Hcr : val (mkCell region 0 (mul_r mul)) = fr r) by (by eapply assigned_i128);
    assert (Hcl : val (mkCell region 0 (mul_slack mul)) = fr (SCALE_18 - 1 - r)) by (by eapply assigned_i128);
    assert (Hsa : shifted (mkCell region 0 (a_shift mul)) (raw x)) by (by eapply shifted_assigned);
    assert (Hsb : shifted (mkCell region 0 (b_shift mul)) (raw y)) by (by eapply shifted_assigned);
    destruct (mul_gates_complete region (raw x) (raw y) (raw q) r) as (Hmul & Hslack & Hshift); [done..|]
  end;
  split_and?; [|done..];
  eapply (wp_bind _ _ _ _ (λ _, True)); [by apply link_ranges_complete|]; intros [] _;
  eapply wp_bind; [apply range64_complete; [apply Hinst..|done|done|done]|]; intros ? ?;
  do 2 (eapply wp_bind; [apply range60_complete; [apply Hinst..|done|done|unfold SCALE_18 in *; lia]|]; intros ? ?);
  cbn beta in *; wp_honest; [by eapply shifted_eq|by etrans..|].

Lemma mul_row_complete a_val b_val :
  cs_ok cs → agrees planner grid log → mul_table_loaded log mul → in_I18 a_val → in_I18 b_val →
  wp log (call_ok planner grid cs log) (assign_mul_row mul a_val b_val)
    (λ '(a, b, c), plain a (raw a_val) ∧ plain b (raw b_val) ∧
      ∃ q r, requantize_mul a_val b_val = Ok (q, r) ∧ shifted c (raw q)).
Proof using All.
  intros Hcs Hag Ht Ha Hb. unfold assign_mul_row, assign_mul_row_with_witnesses,
    assign_mul_operand_shifts_with_witness_mode.
  mul_complete Hag. eauto 6.
Qed.

Lemma mul_assign_complete a b :
  cs_ok cs → agrees planner grid log → mul_table_loaded log mul → in_I18 a → in_I18 b →
  wp log (call_ok planner grid cs log) (mul_assign mul a b)
    (λ c, ∃ q r, requantize_mul a b = Ok (q, r) ∧ shifted c (raw q)).
Proof using All.
  intros Hcs Hag Ht Ha Hb. unfold mul_assign, assign_mul_operand_shifts, link_mul_operand_ranges,
    assign_mul_operand_shifts_with_witness_mode.
  mul_complete Hag. eauto.
Qed.
End MulProofs.
