(* ===== verification/Shape.v ===== *)
(** * The shape of a circuit

    The calls a run makes, without the values it assigns.  Keys are made from
    the shape alone, so two runs of one shape prove against one key: the grids
    that satisfy one satisfy the other.  [alike] says that two runs have one
    shape whenever both succeed. *)
From S2P Require Import Prelude Field FixedPoint Circuit CircuitLogic RangeCheck Eltwise.

Open Scope nat_scope.

(** One call up to the value assigned. *)
Definition same_call (c c' : Call) : Prop :=
  match c, c' with
  | Assign cell _, Assign cell' _ => cell = cell'
  | _, _ => c = c'
  end.
Definition same_calls : relation (list Call) := Forall2 same_call.

#[export] Instance same_call_equiv : Equivalence same_call.
Proof.
  split.
  - by intros [].
  - by intros [] [] H; simpl in *; subst.
  - intros [] [] [] H H'; simpl in *; by simplify_eq.
Qed.
#[export] Instance same_calls_equiv : Equivalence same_calls.
Proof. unfold same_calls. apply _. Qed.

(** A grid satisfies the calls by their shape. *)
Section SameCalls.
Context (planner : nat → Z) (grid : Column → Z → Fr).

Lemma same_calls_in calls calls' c :
  same_calls calls calls' → c ∈ calls → ∃ c', c' ∈ calls' ∧ same_call c c'.
Proof.
  intros Hs Hin. apply list_elem_of_lookup in Hin as [i Hi].
  destruct (Forall2_lookup_l _ _ _ _ _ Hs Hi) as (c' & Hi' & E). exists c'. split; [by eapply list_elem_of_lookup_2|done].
Qed.

Lemma same_calls_keep calls calls' c :
  same_calls calls calls' → (∀ cell v, c ≠ Assign cell v) → c ∈ calls → c ∈ calls'.
Proof.
  intros Hs Hc Hin. destruct (same_calls_in _ _ _ Hs Hin) as (c' & Hin' & E).
  destruct c; [by simpl in E; destruct c'; simplify_eq| |by simpl in E; destruct c'; simplify_eq..].
  by edestruct Hc.
Qed.

Lemma same_calls_enabled calls calls' s row :
  same_calls calls calls' → enabled planner calls s row = enabled planner calls' s row.
Proof.
  intros Hs. apply Bool.eq_iff_eq_true. rewrite !enabled_spec.
  split; intros (region & o & Hin & E); exists region, o; split; try done.
  - by eapply same_calls_keep.
  - eapply same_calls_keep; [by symmetry| |exact Hin]. done.
Qed.

Lemma same_calls_satisfied_1 cs calls calls' :
  same_calls calls calls' → satisfied planner grid cs calls → satisfied planner grid cs calls'.
Proof.
  intros Hs [Hg Hl He Hp Hf]. split.
  - intros g row Hin. unfold selector_value. rewrite <-(same_calls_enabled _ _ _ _ Hs). by apply Hg.
  - intros l row Hin. unfold selector_value. rewrite <-(same_calls_enabled _ _ _ _ Hs).
    destruct (Hl l row Hin) as [i Hi]. exists i. eapply Forall_impl; [exact Hi|]. intros vt Ht.
    by eapply same_calls_keep.
  - intros a b Hin. apply He. eapply same_calls_keep; [by symmetry| |exact Hin]. done.
  - intros c i row Hin. apply Hp. eapply same_calls_keep; [by symmetry| |exact Hin]. done.
  - intros c v Hin. apply Hf. eapply same_calls_keep; [by symmetry| |exact Hin]. done.
Qed.
End SameCalls.

#[export] Instance satisfied_proper planner grid cs : Proper (same_calls ==> iff) (satisfied planner grid cs).
Proof. intros calls calls' Hs. split; apply same_calls_satisfied_1; [done|by symmetry]. Qed.

(** Nor does the order of the calls matter. *)
#[export] Instance satisfied_Permutation planner grid cs : Proper (Permutation ==> iff) (satisfied planner grid cs).
Proof.
  assert (∀ calls calls', calls ≡ₚ calls' → satisfied planner grid cs calls → satisfied planner grid cs calls') as Himp.
  { intros calls calls' Hp [Hg Hl He Hi Hf].
    assert (∀ s row, enabled planner calls s row = enabled planner calls' s row) as Hen.
    { intros s row. apply Bool.eq_iff_eq_true. rewrite !enabled_spec. by setoid_rewrite Hp. }
    split.
    - intros g row Hin. unfold selector_value. rewrite <-Hen. by apply Hg.
    - intros l row Hin. unfold selector_value. rewrite <-Hen. destruct (Hl l row Hin) as [i Hx]. exists i.
      by setoid_rewrite <-Hp.
    - intros a b Hin. apply He. by rewrite Hp.
    - intros c i row Hin. apply Hi. by rewrite Hp.
    - intros c v Hin. apply Hf. by rewrite Hp. }
  intros calls calls' Hp. split; apply Himp; [done|by symmetry].
Qed.

Lemma same_calls_app pre calls calls' : same_calls calls calls' → same_calls (pre ++ calls) (pre ++ calls').
Proof. intros Hc. by apply Forall2_app. Qed.

(** ** Runs of one shape *)

Section Alike.
Context `{L : Layouter}.

Definition alike {E A B} (R : A → B → Prop) (m : Lay E A) (m' : Lay E B) : Prop :=
  ∀ lg lg' d d', lg_regions lg = lg_regions lg' → m lg = Some (Ok d) → m' lg' = Some (Ok d') →
    R (dn_value d) (dn_value d') ∧ dn_regions d = dn_regions d' ∧ same_calls (dn_calls d) (dn_calls d').

Lemma alike_ret {E A B} (R : A → B → Prop) a b : R a b → alike (E := E) R (lay_ret a) (lay_ret b).
Proof. intros HR lg lg' d d' Hlg [= <-] [= <-]. simpl. split_and!; [done..|constructor]. Qed.

Lemma alike_bind {E A A' B B'} (R : A → A' → Prop) (T : B → B' → Prop) (m : Lay E A) m' k k' :
  alike R m m' → (∀ a a', R a a' → alike T (k a) (k' a')) → alike T (lay_bind m k) (lay_bind m' k').
Proof.
  intros Hm Hk lg lg' d d' Hlg E1 E2. unfold lay_bind in E1, E2.
  destruct (m lg) as [[[a n c]|]|] eqn:Em; [|done..]. destruct (m' lg') as [[[a' n' c']|]|] eqn:Em'; [|done..].
  destruct (Hm _ _ _ _ Hlg Em Em') as (HR & Hn & Hc). simpl in *. subst n'.
  destruct (k a _) as [[[b n1 c1]|]|] eqn:Ek; [|done..]. destruct (k' a' _) as [[[b' n1' c1']|]|] eqn:Ek'; [|done..].
  destruct (Hk a a' HR (mkLog n (lg_calls lg ++ c)) (mkLog n (lg_calls lg' ++ c')) _ _ eq_refl Ek Ek') as (HT & Hn1 & Hc1). injection E1 as <-. injection E2 as <-.
  simpl in *. split_and!; [done..|]. by apply Forall2_app.
Qed.

Lemma alike_assoc {E A A' B B' C C'} (T : C → C' → Prop) (m : Lay E A) (k : A → Lay E B) (h : B → Lay E C)
    (m' : Lay E A') (k' : A' → Lay E B') (h' : B' → Lay E C') :
  alike T (lay_bind m (λ a, lay_bind (k a) h)) (lay_bind m' (λ a, lay_bind (k' a) h')) →
  alike T (lay_bind (lay_bind m k) h) (lay_bind (lay_bind m' k') h').
Proof. intros Hm lg lg' d d'. rewrite !lay_bind_assoc. apply Hm. Qed.
Lemma alike_ret_then {E A A' B B'} (T : B → B' → Prop) (a : A) (a' : A') (k : A → Lay E B) (k' : A' → Lay E B') :
  alike T (k a) (k' a') → alike T (lay_bind (lay_ret a) k) (lay_bind (lay_ret a') k').
Proof. intros Hk. eapply (alike_bind (λ x x', x = a ∧ x' = a')); [by apply alike_ret|]. by intros ? ? [-> ->]. Qed.

Lemma alike_conseq {E A B} (R R' : A → B → Prop) (m : Lay E A) m' :
  alike R' m m' → (∀ a b, R' a b → R a b) → alike R m m'.
Proof. intros Hm HR lg lg' d d' Hlg E1 E2. destruct (Hm _ _ _ _ Hlg E1 E2) as (? & ? & ?). split_and!; auto. Qed.

Lemma alike_emit c c' : same_call c c' → alike (λ _ _, True) (emit c) (emit c').
Proof.
  intros Hc lg lg' d d' Hlg E1 E2. unfold emit in E1, E2.
  destruct (refuse _ c); [done|]. destruct (refuse _ c'); [done|]. injection E1 as <-. injection E2 as <-.
  simpl. split_and!; [done..|]. by constructor.
Qed.

Lemma alike_enable s region o : alike (λ _ _, True) (enable s region o) (enable s region o).
Proof. by apply alike_emit. Qed.
Lemma alike_equal a b : alike (λ _ _, True) (constrain_equal a b) (constrain_equal a b).
Proof. by apply alike_emit. Qed.
Lemma alike_cell t o v : alike (λ _ _, True) (assign_cell t o v) (assign_cell t o v).
Proof. by apply alike_emit. Qed.
Lemma alike_advice c region o v v' : alike eq (assign_advice c region o v) (assign_advice c region o v').
Proof. eapply alike_bind; [by apply alike_emit|]. intros _ _ _. by apply alike_ret. Qed.

Lemma alike_region {E A B} (R : A → B → Prop) (body : nat → Lay E A) body' :
  (∀ region, alike R (body region) (body' region)) → alike R (assign_region body) (assign_region body').
Proof.
  intros Hb lg lg' d d' Hlg E1 E2. unfold assign_region in *. rewrite <-Hlg in E2.
  refine (Hb _ _ _ _ _ _ E1 E2). done.
Qed.

(** Host computations: nothing is asked of their results. *)
Lemma alike_lift {E A} (R : A → A → Prop) (r r' : Result A E) :
  (∀ a a', r = Ok a → r' = Ok a' → R a a') → alike R (lay_lift r) (lay_lift r').
Proof. intros HR. destruct r, r'; try (by intros ? ? ? ?). by apply alike_ret, HR. Qed.
Lemma alike_expect {E F A} (R : A → A → Prop) (r r' : Result A F) :
  (∀ a a', r = Ok a → r' = Ok a' → R a a') → alike (E := E) R (lay_expect r) (lay_expect r').
Proof. intros HR. destruct r, r'; try (by intros ? ? ? ?). by apply alike_ret, HR. Qed.
Lemma alike_unwrap {E A} (R : A → A → Prop) (o o' : option A) :
  (∀ a a', o = Some a → o' = Some a' → R a a') → alike (E := E) R (lay_unwrap o) (lay_unwrap o').
Proof. intros HR. destruct o, o'; try (by intros ? ? ? ?). by apply alike_ret, HR. Qed.
Lemma alike_err {E A B} (R : A → B → Prop) (e e' : E) : alike R (lay_err e) (lay_err e').
Proof. by intros lg lg' d d'. Qed.
Lemma alike_panic {E A B} (R : A → B → Prop) : alike R (lay_panic (E := E)) lay_panic.
Proof. by intros lg lg' d d'. Qed.
Lemma alike_map_err {E F A B} (f : E → F) (R : A → B → Prop) m m' :
  alike R m m' → alike R (lay_map_err f m) (lay_map_err f m').
Proof.
  intros Hm lg lg' d d' Hlg E1 E2. unfold lay_map_err in *.
  destruct (m lg) as [[]|] eqn:Em; [|done..]. destruct (m' lg') as [[]|] eqn:Em'; [|done..]. simplify_eq.
  by eapply Hm.
Qed.
Lemma alike_try {E F A B} `{From E F} (R : A → B → Prop) m m' :
  alike R m m' → alike R (lay_try (F := F) m) (lay_try m').
Proof. apply alike_map_err. Qed.

Lemma alike_map {E A A' B B'} (P : A → A' → Prop) (R : B → B' → Prop) (f : A → Lay E B) f' l l' :
  Forall2 P l l' → (∀ x x', P x x' → alike R (f x) (f' x')) → alike (Forall2 R) (lay_map f l) (lay_map f' l').
Proof.
  intros Hl Hf. induction Hl as [|x x' l l' Hx Hl IH]; simpl; [by apply alike_ret|].
  eapply alike_bind; [by apply Hf|]. intros y y' Hy. eapply alike_bind; [exact IH|].
  intros ys ys' Hys. apply alike_ret. by constructor.
Qed.
Lemma alike_iter {E A A'} (P : A → A' → Prop) (f : A → Lay E unit) f' l l' :
  Forall2 P l l' → (∀ x x', P x x' → alike (λ _ _, True) (f x) (f' x')) →
  alike (λ _ _, True) (lay_iter f l) (lay_iter f' l').
Proof.
  intros Hl Hf. induction Hl as [|x x' l l' Hx Hl IH]; simpl; [by apply alike_ret|].
  eapply alike_bind; [by apply Hf|]. by intros _ _ _.
Qed.

Lemma alike_rows {E A A' B} (f : nat * A → Lay E B) (f' : nat * A' → Lay E B) l l' :
  length l = length l' → (∀ i x x', alike eq (f (i, x)) (f' (i, x'))) →
  alike eq (lay_map f (enumerate l)) (lay_map f' (enumerate l')).
Proof.
  intros Hlen Hf. eapply alike_conseq; [apply (alike_map (λ p p', p.1 = p'.1) eq)|].
  - apply Forall2_same_length_lookup_2; [by rewrite !length_enumerate|].
    intros i p p'. rewrite !lookup_enumerate. intros (x & _ & ->)%fmap_Some (x' & _ & ->)%fmap_Some. done.
  - intros [i x] [i' x'] E0. simpl in E0. subst i'. apply Hf.
  - intros ys ys' Hys. by apply list_eq_Forall2.
Qed.
Lemma alike_if {E A B} (R : A → B → Prop) (b b' : bool) (m1 m2 : Lay E A) m1' m2' :
  (b = false → b' = false → alike R m2 m2') → (b = true → alike R m1 (if b' then m1' else m2')) →
  (b' = true → alike R (if b then m1 else m2) m1') →
  alike R (if b then m1 else m2) (if b' then m1' else m2').
Proof. destruct b, b'; auto. Qed.
Lemma alike_host_l {E A B B'} (R : B → B' → Prop) (r : Result A E) (k : A → Lay E B) (m' : Lay E B') :
  (∀ a, r = Ok a → alike R (k a) m') → alike R (lay_bind (lay_lift r) k) m'.
Proof.
  intros Hk lg lg' d d' Hlg E1 E2. destruct r as [a|]; [|done]. unfold lay_bind in E1. cbn [lay_lift lay_ret] in E1.
  rewrite app_nil_r in E1. destruct (k a _) as [[[b n c]|]|] eqn:Ek; [|done..]. injection E1 as <-.
  refine (Hk a eq_refl _ _ _ _ _ Ek E2). done.
Qed.
Lemma alike_err_l {E A B} (R : A → B → Prop) (e : E) m' : alike R (lay_err e) m'.
Proof. by intros lg lg' d d'. Qed.
Lemma alike_panic_l {E A B} (R : A → B → Prop) m' : alike R (lay_panic (E := E)) m'.
Proof. by intros lg lg' d d'. Qed.
Lemma alike_panic_r {E A B} (R : A → B → Prop) m : alike R m (lay_panic (E := E)).
Proof. by intros lg lg' d d' _ _. Qed.
End Alike.

(** One step of two runs in lockstep. *)
Ltac alike_step :=
  lazymatch goal with
  | |- alike _ (match ?p with pair _ _ => _ end) _ => is_var p; destruct p
  | |- alike _ _ (match ?p with pair _ _ => _ end) => is_var p; destruct p
  | |- alike _ (lay_ret _) _ => apply alike_ret
  | |- alike _ (lay_bind (enable _ _ _) _) _ => eapply alike_bind; [apply alike_enable|intros _ _ _]
  | |- alike _ (lay_bind (constrain_equal _ _) _) _ => eapply alike_bind; [apply alike_equal|intros _ _ _]
  | |- alike _ (lay_bind (assign_cell _ _ _) _) _ => eapply alike_bind; [apply alike_cell|intros _ _ _]
  | |- alike _ (lay_bind (assign_advice _ _ _ _) _) _ => eapply alike_bind; [apply alike_advice|intros ? ? <-]
  | |- alike _ (lay_bind (lay_expect _) _) _ =>
      eapply alike_bind; [by apply (alike_expect (λ _ _, True))|intros ? ? _]
  | |- alike _ (lay_bind (lay_unwrap _) _) _ =>
      eapply alike_bind; [by apply (alike_unwrap (λ _ _, True))|intros ? ? _]
  | |- alike _ (lay_bind (lay_lift _) _) _ =>
      eapply alike_bind; [by apply (alike_lift (λ _ _, True))|intros ? ? _]
  | |- alike _ (lay_bind (lay_bind _ _) _) _ => apply alike_assoc
  | |- alike _ (lay_bind (lay_ret _) _) _ => apply alike_ret_then
  | |- alike _ (assign_advice _ _ _ _) _ => eapply alike_conseq; [apply alike_advice|intros ? ? <-]
  | |- alike _ (enable _ _ _) _ => eapply alike_conseq; [apply alike_enable|intros [] [] _]
  | |- alike _ (constrain_equal _ _) _ => eapply alike_conseq; [apply alike_equal|intros [] [] _]
  | |- alike _ (assign_region _) _ => apply alike_region; intros ?
  end; cbn beta iota.

(** ** Range checks and element-wise rows *)

Section Chips.
Context `{L : Layouter}.

Lemma alike_iter_refl {E A} (f f' : A → Lay E unit) l :
  (∀ x, alike (λ _ _, True) (f x) (f' x)) → alike (λ _ _, True) (lay_iter f l) (lay_iter f' l).
Proof. intros Hf. eapply (alike_iter eq); [by apply list_eq_Forall2|]. by intros x x' <-. Qed.

Lemma range_assign_alike config v w v' w' :
  alike eq (RangeCheck.assign config v w) (RangeCheck.assign config v' w').
Proof.
  unfold RangeCheck.assign. alike_step. eapply alike_bind.
  - apply alike_iter_refl. intros i. by repeat alike_step.
  - intros _ _ _. destruct (_ =? 0); [apply alike_panic|]. by repeat alike_step.
Qed.

Lemma lookup_assign_alike config v w v' w' :
  alike eq (LookupRangeCheck.assign config v w) (LookupRangeCheck.assign config v' w').
Proof.
  unfold LookupRangeCheck.assign. alike_step. eapply alike_bind.
  - apply alike_iter_refl. intros i. by repeat alike_step.
  - intros _ _ _. destruct (_ =? 0); [apply alike_panic|]. by repeat alike_step.
Qed.
End Chips.

Ltac alike_range :=
  first [ eapply alike_bind; [apply range_assign_alike|intros ? ? <-]
        | eapply alike_bind; [apply lookup_assign_alike|intros ? ? <-] ].
(** Splits a region's result off, when it is a tuple of cells. *)
Ltac alike_cells := eapply (alike_bind eq); [by repeat alike_step|intros ? ? <-]; repeat alike_step.

Section Rows.
Context `{L : Layouter}.

Lemma add_row_alike config a b known a' b' known' :
  alike eq (assign_add_row_with_witnesses config a b known) (assign_add_row_with_witnesses config a' b' known').
Proof.
  unfold assign_add_row_with_witnesses, shifted_i64_witness. alike_step. alike_cells.
  do 3 alike_range. by alike_cells.
Qed.

Lemma link_ranges_alike mul a b ca cb known a' b' known' :
  alike eq (link_mul_operand_ranges_with_witness_mode mul a b ca cb known)
    (link_mul_operand_ranges_with_witness_mode mul a' b' ca cb known').
Proof.
  unfold link_mul_operand_ranges_with_witness_mode, shifted_i64_witness.
  do 2 alike_range. by repeat alike_step.
Qed.

Lemma mul_row_alike mul a b known a' b' known' :
  alike eq (assign_mul_row_with_witnesses mul a b known) (assign_mul_row_with_witnesses mul a' b' known').
Proof.
  unfold assign_mul_row_with_witnesses, assign_mul_operand_shifts_with_witness_mode, shifted_i64_witness.
  repeat alike_step. alike_cells.
  eapply (alike_bind eq); [apply link_ranges_alike|intros _ _ _].
  do 3 alike_range. by alike_cells.
Qed.
End Rows.
