(* ===== verification/Reduce.v ===== *)
(** * Sums and means

    zkie-core/src/chips/reduce.rs.  A sum over a fixed number of inputs is a
    running total down a column, of which the last is range-checked; a mean
    rescales it by the fixed-point constant [1 / k]. *)
From S2P Require Import Prelude Field FixedPoint Circuit CircuitLogic RangeCheck Eltwise EltwiseProofs Shape.

Open Scope nat_scope.

(** The running totals, with the first input as it is; [None] is the failed
    [checked_add]. *)
Fixpoint partial_sums_from (total : Z) (inputs : list I18) : option (list Z) :=
  match inputs with
  | [] => Some []
  | v :: inputs => next ← try_i64 (total + raw v); rest ← partial_sums_from next inputs; Some (next :: rest)
  end.
Definition partial_sums (inputs : list I18) : option (list Z) :=
  match inputs with
  | [] => Some []
  | v :: inputs => rest ← partial_sums_from (raw v) inputs; Some (raw v :: rest)
  end.

(** ** Sum *)

Module ReduceSum.

Record ReduceSumConfig := mkReduceSumConfig {
  values : Column;
  sum : Column;
  sum_shift : Column;
  s_first : Selector;
  s_running : Selector;
  s_shift : Selector;
  range_sum : RangeCheck.RangeCheckConfig;
  k : nat
}.

Definition first_gate (values sum : Column) (s_first : Selector) : Gate :=
  mkGate "reduce sum base case" s_first (λ s_first query,
    let value := query values cur in
    let sum := query sum cur in
    [s_first * (sum - value)]%Zmod).

Definition running_gate (values sum : Column) (s_running : Selector) : Gate :=
  mkGate "reduce sum running total" s_running (λ s_running query,
    let value := query values cur in
    let sum_prev := query sum prev in
    let sum_cur := query sum cur in
    [s_running * (sum_prev + value - sum_cur)]%Zmod).

Definition shift_gate (sum sum_shift : Column) (s_shift : Selector) : Gate :=
  mkGate "reduce sum shift for range check" s_shift (λ s_shift query,
    let sum := query sum cur in
    let sum_shift := query sum_shift cur in
    let shift := i128_to_fr SIGNED_SHIFT in
    [s_shift * (sum_shift - sum - shift)]%Zmod).

Definition configure (values sum sum_shift bits : Column) (k : nat) : Meta ReduceSumConfig :=
  assert& 1 <=? k in
  let& _ := enable_equality values in
  let& _ := enable_equality sum in
  let& _ := enable_equality sum_shift in
  let& s_first := selector in
  let& _ := create_gate (first_gate values sum s_first) in
  let& s_running := selector in
  let& _ := create_gate (running_gate values sum s_running) in
  let& s_shift := selector in
  let& _ := create_gate (shift_gate sum sum_shift s_shift) in
  let& range_sum := RangeCheck.configure sum_shift bits 64 in
  meta_ret (mkReduceSumConfig values sum sum_shift s_first s_running s_shift range_sum k).

Section Assign.
Context `{Layouter} (config : ReduceSumConfig).

Definition assign_with_witness_mode (inputs : list I18) (witnesses_known : bool)
    : Lay ErrorFront (I18 * Cell * list Cell) :=
  if negb (length inputs =? k config) then lay_panic else
  let$ partial := lay_unwrap (partial_sums inputs) in
  let$ sum_raw := lay_unwrap (last partial) in
  let '(sum_shift_fr, sum_shift_raw) := shifted_i64_witness sum_raw in
  let$ '(sum_cell, sum_shift_cell, value_cells) := assign_region (λ region,
    let$ rows := lay_map (λ '(i, (v, s)),
      let$ value_cell := assign_advice (values config) region i (witness_value witnesses_known (Some (i64_to_fr (raw v)))) in
      let$ _ := if i =? 0 then enable (s_first config) region 0 else enable (s_running config) region i in
      let$ cell := assign_advice (sum config) region i (witness_value witnesses_known (Some (i64_to_fr s))) in
      lay_ret (value_cell, cell)) (enumerate (zip inputs partial)) in
    let last_row := length inputs - 1 in
    let$ _ := enable (s_shift config) region last_row in
    let$ sum_shift_cell := assign_advice (sum_shift config) region last_row (witness_value witnesses_known sum_shift_fr) in
    let$ last_sum_cell := lay_unwrap (last rows.*2) in
    lay_ret (last_sum_cell, sum_shift_cell, rows.*1)) in
  let$ range_cell := RangeCheck.assign (range_sum config)
    (witness_value witnesses_known sum_shift_fr) (witness_value witnesses_known sum_shift_raw) in
  let$ _ := assign_region (λ _, constrain_equal sum_shift_cell range_cell) in
  lay_ret (from_raw sum_raw, sum_cell, value_cells).

Definition assign (inputs : list I18) : Lay ErrorFront (I18 * Cell * list Cell) :=
  assign_with_witness_mode inputs true.
End Assign.

End ReduceSum.

(** ** Mean *)

Module ReduceMean.

Record ReduceMeanConfig := mkReduceMeanConfig {
  sum : ReduceSum.ReduceSumConfig;
  q : Column;
  r : Column;
  slack : Column;
  s_rescale : Selector;
  s_slack : Selector;
  range_q : RangeCheck.RangeCheckConfig;
  range_r : RangeCheck.RangeCheckConfig;
  range_r_slack : RangeCheck.RangeCheckConfig;
  reciprocal : I18
}.

Definition rescale_gate (sum q r : Column) (reciprocal_fr : Fr) (s_rescale : Selector) : Gate :=
  mkGate "mean rescale (shifted q)" s_rescale (λ s_rescale query,
    let sum := query sum cur in
    let q_shift := query q cur in
    let r := query r cur in
    let scale := i128_to_fr SCALE_18 in
    let shift_scaled := i128_to_fr (SIGNED_SHIFT * SCALE_18) in
    [s_rescale * (sum * reciprocal_fr - (q_shift * scale - shift_scaled) - r)]%Zmod).

Definition configure (values sum sum_shift q r slack bits : Column) (k : nat) : Meta ReduceMeanConfig :=
  let& sum_config := ReduceSum.configure values sum sum_shift bits k in
  let& _ := enable_equality q in
  let& _ := enable_equality r in
  let& _ := enable_equality slack in
  match from_f64 (f64_reciprocal k) with
  | Err _ => meta_panic
  | Ok reciprocal =>
      let reciprocal_fr := i64_to_fr (raw reciprocal) in
      let& s_rescale := selector in
      let& _ := create_gate (rescale_gate sum q r reciprocal_fr s_rescale) in
      let& s_slack := selector in
      let& _ := create_gate (slack_gate "mean slack equals bound minus remainder" r slack s_slack) in
      let& range_q := RangeCheck.configure q bits 64 in
      let& range_r := RangeCheck.configure r bits REMAINDER_BITS in
      let& range_r_slack := RangeCheck.configure slack bits REMAINDER_BITS in
      meta_ret (mkReduceMeanConfig sum_config q r slack s_rescale s_slack range_q range_r range_r_slack reciprocal)
  end.

Section Assign.
Context `{Layouter} (config : ReduceMeanConfig).

Definition assign_with_witness_mode (inputs : list I18) (witnesses_known : bool)
    : Lay ErrorFront (I18 * Cell * list Cell) :=
  let$ '(sum_value, sum_cell, value_cells) :=
    ReduceSum.assign_with_witness_mode (sum config) inputs witnesses_known in
  let$ '(mean, rem) := lay_expect (requantize_mul sum_value (reciprocal config)) in
  let slack_value := (SCALE_18 - 1 - rem)%Z in
  let '(q_shift_fr, q_shift_raw) := shifted_i64_witness (raw mean) in
  let$ '(sum_link_cell, q_cell, r_cell, slack_cell) := assign_region (λ region,
    let$ _ := enable (s_rescale config) region 0 in
    let$ _ := enable (s_slack config) region 0 in
    let$ sum_link_cell := assign_advice (ReduceSum.sum (sum config)) region 0
      (witness_value witnesses_known (Some (i64_to_fr (raw sum_value)))) in
    let$ q_cell := assign_advice (q config) region 0 (witness_value witnesses_known q_shift_fr) in
    let$ r_cell := assign_advice (r config) region 0 (witness_value witnesses_known (Some (i128_to_fr rem))) in
    let$ slack_cell := assign_advice (slack config) region 0
      (witness_value witnesses_known (Some (i128_to_fr slack_value))) in
    lay_ret (sum_link_cell, q_cell, r_cell, slack_cell)) in
  let$ q_range_cell := RangeCheck.assign (range_q config)
    (witness_value witnesses_known q_shift_fr) (witness_value witnesses_known q_shift_raw) in
  let$ r_range_cell := RangeCheck.assign (range_r config)
    (witness_value witnesses_known (Some (i128_to_fr rem))) (witness_value witnesses_known (Some rem)) in
  let$ slack_range_cell := RangeCheck.assign (range_r_slack config)
    (witness_value witnesses_known (Some (i128_to_fr slack_value))) (witness_value witnesses_known (Some slack_value)) in
  let$ _ := assign_region (λ _,
    let$ _ := constrain_equal sum_link_cell sum_cell in
    let$ _ := constrain_equal q_cell q_range_cell in
    let$ _ := constrain_equal r_cell r_range_cell in
    let$ _ := constrain_equal slack_cell slack_range_cell in
    lay_ret tt) in
  lay_ret (mean, q_cell, value_cells).

Definition assign (inputs : list I18) : Lay ErrorFront (I18 * Cell * list Cell) :=
  assign_with_witness_mode inputs true.
End Assign.

End ReduceMean.

(** ** Sums and means: soundness and completeness

    The cell of an accepted sum holds the exact sum of the input cells; the cell
    of an accepted mean holds their rescaled sum. *)

Open Scope Z_scope.

(** ** Running totals *)

(** A column whose rows add the next term holds the partial sums. *)
Lemma running_total (s t : nat → Fr) (xs : list Z) :
  (∀ i x, xs !! i = Some x → t i = fr x) →
  ((0 < length xs)%nat → s 0%nat = t 0%nat) →
  (∀ i, (S i < length xs)%nat → s (S i) = (s i + t (S i))%Zmod) →
  ∀ i, (i < length xs)%nat → s i = fr (zsum (take (S i) xs)).
Proof.
  intros Ht H0 HS i. induction i as [|i IH]; intros Hi; destruct (lookup_lt_is_Some_2 xs _ Hi) as [x Hx];
    rewrite (zsum_take_S xs _ _ Hx).
  - rewrite H0 by done. by rewrite (Ht _ _ Hx).
  - rewrite HS by done. rewrite IH by lia. by rewrite (Ht _ _ Hx), fr_add.
Qed.

Lemma partial_sums_from_lookup total inputs partial :
  partial_sums_from total inputs = Some partial →
  length partial = length inputs ∧
  ∀ i s, partial !! i = Some s → in_i64 s ∧ s = total + zsum (take (S i) (raw <$> inputs)).
Proof.
  revert total partial. induction inputs as [|v inputs IH]; cbn [partial_sums_from]; intros total partial H.
  - injection H as <-. split; [done|]. intros i s. by rewrite lookup_nil.
  - apply bind_Some in H as (next & Hn & H). apply bind_Some in H as (rest & Hr & [= <-]).
    apply try_i64_Some in Hn as [<- Hin]. destruct (IH _ _ Hr) as [Hlen Hl]. split; [simpl; by rewrite Hlen|].
    intros [|i] s; cbn [lookup list_lookup]; intros E.
    + injection E as <-. split; [done|]. rewrite zsum_take_cons. unfold zsum. simpl. lia.
    + apply Hl in E as [Hi ->]. split; [done|]. rewrite zsum_take_cons. lia.
Qed.

Lemma partial_sums_lookup inputs partial :
  partial_sums inputs = Some partial → Forall in_I18 inputs →
  length partial = length inputs ∧
  ∀ i s, partial !! i = Some s → in_i64 s ∧ s = zsum (take (S i) (raw <$> inputs)).
Proof.
  destruct inputs as [|v inputs]; cbn [partial_sums]; intros H Hin.
  - injection H as <-. split; [done|]. intros i s. by rewrite lookup_nil.
  - apply bind_Some in H as (rest & Hr & [= <-]). apply Forall_cons in Hin as [Hv _].
    destruct (partial_sums_from_lookup _ _ _ Hr) as [Hlen Hl]. split; [simpl; by rewrite Hlen|].
    intros [|i] s; cbn [lookup list_lookup]; intros E.
    + injection E as <-. split; [done|]. rewrite zsum_take_cons. unfold zsum. simpl. lia.
    + apply Hl in E as [Hi ->]. split; [done|]. rewrite zsum_take_cons. lia.
Qed.

Lemma partial_sums_length inputs partial : partial_sums inputs = Some partial → length partial = length inputs.
Proof.
  destruct inputs as [|v inputs]; cbn [partial_sums]; intros H; [by injection H as <-|].
  apply bind_Some in H as (rest & Hr & [= <-]). simpl. f_equal. by apply partial_sums_from_lookup in Hr as [].
Qed.

(** The code panics exactly where a running total leaves [i64]. *)
Lemma partial_sums_from_Some total inputs :
  (∀ i, (i < length inputs)%nat → in_i64 (total + zsum (take (S i) (raw <$> inputs)))) →
  is_Some (partial_sums_from total inputs).
Proof.
  revert total. induction inputs as [|v inputs IH]; cbn [partial_sums_from]; intros total H; [done|].
  assert (in_i64 (total + raw v)) as Hn.
  { specialize (H 0%nat ltac:(simpl; lia)). rewrite zsum_take_cons in H. unfold zsum in H. simpl in H. by rewrite Z.add_0_r in H. }
  rewrite (proj2 (try_i64_Some _ _) (conj eq_refl Hn)). simpl.
  destruct (IH (total + raw v)) as [rest ->]; [|done].
  intros i Hi. specialize (H (S i) ltac:(simpl; lia)). by rewrite zsum_take_cons, Z.add_assoc in H.
Qed.

Lemma partial_sums_from_overflow total inputs i :
  i64_max < total + zsum (take i (raw <$> inputs)) → total ≤ i64_max → partial_sums_from total inputs = None.
Proof.
  revert total i. induction inputs as [|v l IH]; intros total i Hi Ht.
  - simpl in Hi. rewrite take_nil in Hi. unfold zsum in Hi. simpl in Hi. lia.
  - cbn [partial_sums_from]. destruct (try_i64 (total + raw v)) as [n|] eqn:E; [|done]. apply try_i64_Some in E as [<- Hn].
    destruct i as [|i]; [simpl in Hi; unfold zsum in Hi; simpl in Hi; lia|]. rewrite zsum_take_cons in Hi.
    cbn [mbind option_bind]. rewrite (IH _ i); [done|lia|]. unfold in_i64 in Hn. lia.
Qed.

Lemma partial_sums_overflow inputs i :
  Forall in_I18 inputs → i64_max < zsum (take i (raw <$> inputs)) → partial_sums inputs = None.
Proof.
  intros Hin Hi. destruct inputs as [|v l]; [by destruct i|].
  apply Forall_cons in Hin as [[_ Hv] _]. destruct i as [|i]; [done|].
  rewrite zsum_take_cons in Hi. simpl. by rewrite (partial_sums_from_overflow _ l i).
Qed.

Lemma plain_sum_bound planner grid cells xs :
  Forall2 (plain planner grid) cells xs → - 2 ^ 63 * Z.of_nat (length xs) ≤ zsum xs ≤ 2 ^ 63 * Z.of_nat (length xs).
Proof.
  intros Hxs. apply zsum_bound. apply Forall_forall. intros x Hx.
  apply list_elem_of_lookup in Hx as [i Hi]. destruct (Forall2_lookup_r _ _ _ _ _ Hxs Hi) as (c & _ & Hx & _). zlia.
Qed.

(** ** Sum *)

Section Sum.
Import ReduceSum.

Record sum_installed (cs : ConstraintSystem) (config : ReduceSumConfig) : Prop := {
  si_first : first_gate (values config) (sum config) (s_first config) ∈ cs_gates cs;
  si_running : running_gate (values config) (sum config) (s_running config) ∈ cs_gates cs;
  si_shift : shift_gate (sum config) (sum_shift config) (s_shift config) ∈ cs_gates cs;
  si_range : RangeCheck.installed cs (range_sum config);
  si_bits : RangeCheck.n_bits (range_sum config) = 64%nat
}.

Lemma sum_configure_ok final v s sh bits k0 :
  mwp final (configure v s sh bits k0) (λ config,
    sum_installed final config ∧ sum config = s ∧ k config = k0 ∧ (1 ≤ k0)%nat).
Proof.
  unfold configure. apply mwp_assert. intros Hk%Nat.leb_le.
  do 3 (eapply mwp_bind; [by apply (mwp_equality _ _ (λ _, True))|intros []]).
  apply (mwp_gate _ (first_gate v s)); [gate_off|]. intros s1.
  apply (mwp_gate _ (running_gate v s)); [gate_off|]. intros s2.
  apply (mwp_gate _ (shift_gate s sh)); [gate_off|]. intros s3.
  eapply mwp_bind; [apply range_configure_ok|intros ?].
  apply mwp_ret. intros (? & _ & ?) ? ? ? _ _ _. by split_and!.
Qed.

Context `{L : Layouter} (planner : nat → Z) (grid : Column → Z → Fr) (cs : ConstraintSystem) (log : list Call).
Context (config : ReduceSumConfig) (Hinst : sum_installed cs config).

Notation val := (cell_value planner grid).
Notation shifted := (shifted planner grid).
Notation plain := (plain planner grid).

Definition value_at (region i : nat) : Cell := mkCell region i (values config).
Definition sum_at (region i : nat) : Cell := mkCell region i (sum config).

(** What the gate of row [i] says. *)
Definition sum_row (region i : nat) : Prop :=
  match i with
  | O => val (sum_at region O) = val (value_at region O)
  | S j => val (sum_at region i) = (val (sum_at region j) + val (value_at region i))%Zmod
  end.

Lemma sum_row_sound region i :
  log_ok planner grid cs log →
  Enable (if (i =? 0)%nat then s_first config else s_running config) region i ∈ log → sum_row region i.
Proof using Hinst.
  intros Hok Hin. destruct i as [|i]; simpl in Hin.
  - pose proof (gate_on _ _ _ _ _ _ _ Hok (si_first _ _ Hinst) Hin) as Hv. simpl gate_polys in Hv. cbv zeta in Hv.
    rewrite vanish_1, !advice_cur, Zmod.mul_1_l in Hv. by apply fr_sub_0.
  - pose proof (gate_on _ _ _ _ _ _ _ Hok (si_running _ _ Hinst) Hin) as Hv. simpl gate_polys in Hv. cbv zeta in Hv.
    rewrite vanish_1, !advice_cur, advice_prev, Zmod.mul_1_l in Hv. symmetry. by apply fr_sub_0.
Qed.

Lemma fmap_pair_1 {A B C} (f : A → B) (g : A → C) l : ((λ i, (f i, g i)) <$> l).*1 = f <$> l.
Proof. induction l; simpl; by f_equal. Qed.
Lemma fmap_pair_2 {A B C} (f : A → B) (g : A → C) l : ((λ i, (f i, g i)) <$> l).*2 = g <$> l.
Proof. induction l; simpl; by f_equal. Qed.

Lemma last_rows (f : nat → Cell) n c : last (f <$> seq 0 n) = Some c → c = f (n - 1)%nat ∧ (0 < n)%nat.
Proof.
  destruct n as [|n]; [done|]. rewrite seq_S, fmap_app, list_fmap_singleton, last_snoc. intros [= <-]. split; [f_equal; lia|lia].
Qed.

Lemma sum_rows_sound region n xs :
  (∀ i, (i < n)%nat → sum_row region i) → Forall2 plain (value_at region <$> seq 0 n) xs → (0 < n)%nat →
  val (sum_at region (n - 1)) = fr (zsum xs).
Proof.
  intros Hrow Hxs Hn. pose proof (Forall2_length _ _ _ Hxs) as Hlen. rewrite length_fmap, length_seq in Hlen.
  rewrite (running_total (λ i, val (sum_at region i)) (λ i, val (value_at region i)) xs); [|..|lia].
  - f_equal. f_equal. apply take_ge. lia.
  - intros i x Hx. destruct (Forall2_lookup_r _ _ _ i x Hxs Hx) as (c & Hc & [_ Hv]).
    apply list_lookup_fmap_Some in Hc as (j & -> & [-> Hj]%lookup_seq). exact Hv.
  - intros _. by apply (Hrow 0%nat).
  - intros i Hi. apply (Hrow (S i)). lia.
Qed.

Lemma sum_sound inputs known :
  Z.of_nat (k config) ≤ 2 ^ 64 → log_ok planner grid cs log →
  wp log (λ _, True) (assign_with_witness_mode config inputs known)
    (λ '(_, c, cells), length cells = k config ∧ ∃ z, plain c z ∧ ∀ xs, Forall2 plain cells xs → z = zsum xs).
Proof using All.
  intros Hk Hok. unfold assign_with_witness_mode, shifted_i64_witness.
  apply wp_if; [intros _; apply wp_panic|]. intros Hlen%negb_false_iff%Nat.eqb_eq.
  wp_step. rename a into partial. apply wp_nest, wp_unwrap. intros sum_raw _.
  apply wp_nest, wp_region. intros region. apply wp_nest.
  apply (wp_rows _ _ _ (λ i, (value_at region i, sum_at region i)) (λ i _, sum_row region i)).
  { intros i [v s] _. destruct i as [|i]; cbn [Nat.eqb]; wp_sound.
    - split; [done|]. by apply sum_row_sound.
    - split; [done|]. by apply sum_row_sound. }
  assert (length (zip inputs partial) = k config) as Hzip.
  { rewrite length_zip_with, (partial_sums_length _ _ H). lia. }
  intros Hrows. rewrite Hzip. wp_sound. rename a into sum_cell.
  match goal with H : last _ = _ |- _ => rewrite fmap_pair_2 in H; apply last_rows in H as [-> Hpos] end.
  rewrite fmap_pair_1. match goal with H : Enable _ _ _ ∈ _ |- _ =>
    pose proof (gate_on _ _ _ _ _ _ _ Hok (si_shift _ _ Hinst) H) as Hshift end.
  simpl gate_polys in Hshift. cbv zeta in Hshift. rewrite vanish_1, !advice_cur, Zmod.mul_1_l, Hlen in Hshift.
  eapply wp_bind; [apply (range64_sound planner grid cs); [apply Hinst..|done]|]. intros ra (z & Hz).
  wp_sound. read_copies Hok. rewrite Hlen in *.
  assert (plain (sum_at region (k config - 1)) z) as Hplain.
  { destruct Hz as [Hzi Hzv]. eapply plain_of_shifted; [|done|exact Hshift]. by etrans. }
  rewrite length_fmap, length_seq. split; [done|]. exists z. split; [done|]. intros xs Hxs.
  destruct Hplain as [Hzi Hzv]. rewrite (sum_rows_sound region _ xs) in Hzv; [|..|done|done].
  - symmetry. apply fr_inj; [done|]. pose proof (Forall2_length _ _ _ Hxs) as Hn. rewrite length_fmap, length_seq in Hn.
    apply plain_sum_bound in Hxs. rewrite <-Hn in Hxs. pose proof bn254_order_large. unfold in_i64, i64_min, i64_max in *. nia.
  - intros i Hi. destruct (lookup_lt_is_Some_2 (zip inputs partial) i) as [p Hp]; [lia|]. by apply (Hrows i p).
Qed.

(** An honest region satisfies the gates. *)
Lemma sum_row_complete region i :
  cs_ok cs → sum_row region i →
  call_ok planner grid cs log (Enable (if (i =? 0)%nat then s_first config else s_running config) region i).
Proof using Hinst.
  intros Hcs Hrow. destruct i as [|i]; cbn [Nat.eqb].
  - apply (enable_gate_ok _ _ _ _ _ _ _ Hcs (si_first _ _ Hinst)). simpl gate_polys. cbv zeta.
    rewrite vanish_1, !advice_cur, Zmod.mul_1_l. unfold sum_row, sum_at, value_at in Hrow. rewrite Hrow. ring.
  - apply (enable_gate_ok _ _ _ _ _ _ _ Hcs (si_running _ _ Hinst)). simpl gate_polys. cbv zeta.
    rewrite vanish_1, !advice_cur, advice_prev, Zmod.mul_1_l. unfold sum_row, sum_at, value_at in Hrow. rewrite Hrow. ring.
Qed.

Lemma shift_complete region i z :
  cs_ok cs → plain (sum_at region i) z → shifted (mkCell region i (sum_shift config)) z →
  call_ok planner grid cs log (Enable (s_shift config) region i).
Proof using Hinst.
  intros Hcs [_ Ez] [_ Es]. apply (enable_gate_ok _ _ _ _ _ _ _ Hcs (si_shift _ _ Hinst)). simpl gate_polys. cbv zeta.
  unfold sum_at in Ez. rewrite vanish_1, !advice_cur, Zmod.mul_1_l, Ez, Es. autorewrite with fr. f_equal. lia.
Qed.

(** The rows of an honest sum. *)
Definition sum_call (region n : nat) (c : Call) : Prop :=
  match c with
  | Enable s r o => r = region ∧ ((o < n)%nat ∧ s = (if (o =? 0)%nat then s_first config else s_running config))
  | Assign _ _ => True
  | _ => False
  end.

Lemma sum_row_honest region inputs partial i :
  partial_sums inputs = Some partial → Forall in_I18 inputs →
  (∀ i x s, inputs !! i = Some x → partial !! i = Some s →
    plain (value_at region i) (raw x) ∧ plain (sum_at region i) s) →
  (i < length inputs)%nat → sum_row region i.
Proof using Type.
  intros Hp Hin Hcells Hi. destruct (partial_sums_lookup _ _ Hp Hin) as [Hlen Hpart].
  destruct (lookup_lt_is_Some_2 inputs i Hi) as [x Hx]. destruct (lookup_lt_is_Some_2 partial i) as [s Hs]; [lia|].
  destruct (Hcells _ _ _ Hx Hs) as [[_ Ex] [_ Es]]. destruct (Hpart _ _ Hs) as [_ Esum].
  assert ((raw <$> inputs) !! i = Some (raw x)) as Hraw by (by rewrite list_lookup_fmap, Hx).
  rewrite (zsum_take_S _ _ _ Hraw) in Esum. destruct i as [|i]; cbn [sum_row].
  - by rewrite Ex, Es, Esum.
  - destruct (lookup_lt_is_Some_2 inputs i) as [x' Hx']; [lia|]. destruct (lookup_lt_is_Some_2 partial i) as [s' Hs']; [lia|].
    destruct (Hcells _ _ _ Hx' Hs') as [_ [_ Es']]. destruct (Hpart _ _ Hs') as [_ Esum'].
    by rewrite Ex, Es, Es', Esum, Esum', fr_add.
Qed.

(** The loop over the inputs. *)
Lemma sum_rows_complete region inputs partial :
  cs_ok cs → agrees planner grid log → Forall in_I18 inputs → partial_sums inputs = Some partial →
  wp log (call_ok planner grid cs log) (lay_map (λ '(i, (v, s)),
      let$ value_cell := assign_advice (values config) region i (Some (i64_to_fr (raw v))) in
      let$ _ := if (i =? 0)%nat then enable (s_first config) region 0 else enable (s_running config) region i in
      let$ cell := assign_advice (sum config) region i (Some (i64_to_fr s)) in
      lay_ret (value_cell, cell)) (enumerate (zip inputs partial)))
    (λ rows, rows = (λ i, (value_at region i, sum_at region i)) <$> seq 0 (length inputs) ∧
      ∀ i x s, inputs !! i = Some x → partial !! i = Some s →
        plain (value_at region i) (raw x) ∧ plain (sum_at region i) s).
Proof using All.
  intros Hcs Hag Hin Hp. destruct (partial_sums_lookup _ _ Hp Hin) as [Hlen Hpart].
  apply (wp_defer _ _ (sum_call region (length inputs))).
  - apply (wp_rows _ _ _ (λ i, (value_at region i, sum_at region i)) (λ i '(x, s), plain (value_at region i) (raw x) ∧ plain (sum_at region i) s)).
    + intros i [x s] (x' & s' & [= <- <-] & Hx & Hs)%lookup_zip_with_Some.
      pose proof (lookup_lt_Some _ _ _ Hx). destruct (Hpart _ _ Hs) as [Hsi _]. rewrite Forall_lookup in Hin.
      wp_step; [done|]. apply wp_nest.
      apply (wp_conseq _ _ _ _ (λ _, True)); [by destruct i; apply wp_enable; simpl; auto with lia|].
      intros _ _. wp_step; [done|]. wp_step.
      split; [done|]. split; eapply plain_assigned; eauto. by apply Hin in Hx.
    + intros Hrows. rewrite length_zip_with, Hlen, Nat.min_id. split; [done|]. intros i x s Hx Hs.
      apply (Hrows i (x, s)). by rewrite lookup_zip_with, Hx; simpl; rewrite Hs.
  - intros rows [s r o| | | | |] [_ Hcells] Hc; try done. destruct Hc as (-> & Ho & ->).
    by apply sum_row_complete, (sum_row_honest _ inputs partial).
Qed.

Lemma sum_complete inputs :
  cs_ok cs → agrees planner grid log → Forall in_I18 inputs →
  wp log (call_ok planner grid cs log) (assign config inputs) (λ '(v, c, cells),
    raw v = zsum (raw <$> inputs) ∧ plain c (raw v) ∧ Forall2 plain cells (raw <$> inputs)).
Proof using All.
  intros Hcs Hag Hin. unfold assign, assign_with_witness_mode, shifted_i64_witness, witness_value.
  apply wp_if; [intros _; apply wp_panic|]. intros Hlen%negb_false_iff%Nat.eqb_eq.
  wp_step. rename a into partial. apply wp_nest, wp_unwrap. intros sum_raw Hlast.
  destruct (partial_sums_lookup _ _ H Hin) as [Hpl Hpart].
  apply wp_nest, wp_region. intros region. eapply wp_bind; [by apply sum_rows_complete|].
  intros rows [-> Hcells]. wp_honest. rename H1 into Hsh.
  match goal with H : last _ = Some _ |- _ => rewrite fmap_pair_2 in H; apply last_rows in H as [-> Hpos] end.
  rewrite fmap_pair_1. rewrite last_lookup, Hpl in Hlast. 
  destruct (Hpart _ _ Hlast) as [Hsi Hsum]. rewrite take_ge in Hsum by (rewrite length_fmap; lia).
  destruct (lookup_lt_is_Some_2 inputs (pred (length inputs))) as [x Hx]; [lia|].
  destruct (Hcells _ _ _ Hx Hlast) as [_ Hc].
  assert (shifted (mkCell region (length inputs - 1) (sum_shift config)) sum_raw) as Hs by (by eapply shifted_assigned).
  rewrite <-Nat.sub_1_r in Hc. split; [|by eapply shift_complete].
  eapply wp_bind; [apply range64_complete; [apply Hinst..|done|done|done]|]. intros ra Hra. cbn beta in Hra.
  wp_honest; [by eapply shifted_eq|]. split_and!; [done..|].
  apply Forall2_same_length_lookup_2; [by rewrite !length_fmap, length_seq|].
  intros i c z Hi Hz. apply list_lookup_fmap_Some in Hi as (j & -> & [-> Hj]%lookup_seq).
  apply list_lookup_fmap_Some in Hz as (y & -> & Hy).
  destruct (lookup_lt_is_Some_2 partial (0 + i)) as [s Hs']; [lia|]. by destruct (Hcells _ _ _ Hy Hs').
Qed.

Lemma sum_alike inputs known inputs' known' :
  alike (λ p p', p.1.2 = p'.1.2 ∧ p.2 = p'.2) (assign_with_witness_mode config inputs known)
    (assign_with_witness_mode config inputs' known').
Proof using Type.
  unfold assign_with_witness_mode, shifted_i64_witness.
  apply alike_if; [|intros _; apply alike_panic_l|intros _; apply alike_panic_r].
  intros Hl%negb_false_iff%Nat.eqb_eq Hl'%negb_false_iff%Nat.eqb_eq.
  eapply alike_bind.
  { apply (alike_unwrap (λ p p', length p = length inputs ∧ length p' = length inputs')).
    intros p p' Hp Hp'. split; by apply partial_sums_length. }
  intros p p' [Hp Hp']. cbn beta. alike_step. eapply (alike_bind eq).
  - alike_step. eapply alike_bind.
    { apply alike_rows; [rewrite !length_zip_with; lia|]. intros i [x s] [x' s'].
      alike_step. eapply alike_bind; [destruct (i =? 0)%nat; apply alike_enable|]. intros _ _ _. by repeat alike_step. }
    intros rows rows' <-. rewrite Hl, Hl'. alike_step. alike_step.
    eapply alike_bind; [apply (alike_unwrap eq); congruence|]. intros c c' <-. by alike_step.
  - intros ? ? <-. repeat alike_step. alike_range. by alike_cells.
Qed.

Lemma sum_returns `{!Roomy L} inputs known :
  length inputs = k config → (0 < k config)%nat → is_Some (partial_sums inputs) →
  returns (assign_with_witness_mode config inputs known) (λ _, True).
Proof using Hinst.
  intros Hlen Hk [partial Hp]. unfold assign_with_witness_mode, shifted_i64_witness.
  rewrite Hlen, Nat.eqb_refl. cbn [negb]. rewrite Hp. pose proof (partial_sums_length _ _ Hp) as Hpl.
  eapply returns_bind; [by apply (returns_ret _ (λ p, p = partial))|]. intros _ ->.
  destruct (last partial) as [s|] eqn:E; [|apply last_None in E; subst partial; simpl in Hpl; lia].
  eapply returns_bind; [by apply (returns_ret _ (λ p, p = s))|]. intros _ ->. cbn beta iota.
  eapply returns_bind.
  - apply returns_region. intros region. eapply returns_bind.
    { apply (returns_map _ (λ _ _, True)). intros [i [x s']] _. returns_step.
      eapply (returns_bind _ _ (λ _, True)); [destruct (i =? 0)%nat; apply returns_enable|].
      intros _ _. by repeat returns_step. }
    intros rows Hrows%Forall2_length. rewrite length_enumerate, length_zip_with in Hrows. returns_step. returns_step.
    destruct (last rows.*2) as [c|] eqn:E'.
    + eapply returns_bind; [by apply (returns_ret _ (λ p, p = c))|]. intros _ ->. by apply (returns_ret _ (λ _, True)).
    + apply last_None in E'. destruct rows; [|done]. simpl in Hrows. lia.
  - intros [[] ] _. cbn beta iota. eapply returns_bind.
    { apply range_assign_returns; [exact _|]. rewrite (si_bits _ _ Hinst). lia. }
    intros ? _. by repeat returns_step.
Qed.
End Sum.

(** ** Mean *)

Section Mean.
Import ReduceMean.

Record mean_installed (cs : ConstraintSystem) (config : ReduceMeanConfig) : Prop := {
  me_sum : sum_installed cs (sum config);
  me_rescale : rescale_gate (ReduceSum.sum (sum config)) (q config) (r config) (i64_to_fr (raw (reciprocal config)))
    (s_rescale config) ∈ cs_gates cs;
  me_slack : slack_gate "mean slack equals bound minus remainder" (r config) (slack config) (s_slack config) ∈ cs_gates cs;
  me_range_q : RangeCheck.installed cs (range_q config);
  me_range_r : RangeCheck.installed cs (range_r config);
  me_range_slack : RangeCheck.installed cs (range_r_slack config);
  me_bits_q : RangeCheck.n_bits (range_q config) = 64%nat;
  me_bits_r : RangeCheck.n_bits (range_r config) = REMAINDER_BITS;
  me_bits_slack : RangeCheck.n_bits (range_r_slack config) = REMAINDER_BITS;
  me_reciprocal : in_I18 (reciprocal config);
  me_k : (1 ≤ ReduceSum.k (sum config))%nat
}.

Lemma mean_configure_ok final v s sh q0 r0 sl bits k :
  mwp final (configure v s sh q0 r0 sl bits k) (λ config,
    mean_installed final config ∧ ReduceSum.k (sum config) = k ∧ Ok (reciprocal config) = from_f64 (f64_reciprocal k)).
Proof.
  unfold configure. eapply mwp_bind; [apply sum_configure_ok|]. intros sum_config.
  do 3 (eapply mwp_bind; [by apply (mwp_equality _ _ (λ _, True))|intros []]).
  destruct (from_f64 (f64_reciprocal k)) as [recip|] eqn:E; [|by intros cs a cs'].
  apply (mwp_gate _ (rescale_gate s q0 r0 (i64_to_fr (raw recip)))); [gate_off|]. intros s1.
  apply (mwp_gate _ (slack_gate _ r0 sl)); [gate_off|]. intros s2.
  do 3 (eapply mwp_bind; [apply range_configure_ok|intros ?]).
  apply mwp_ret. intros (? & _ & ?) (? & _ & ?) (? & _ & ?) ? ? _ _ _ (? & <- & <- & ?).
  split_and!; [|done..]. split; try done. by apply from_f64_in_I18 in E.
Qed.

Context `{L : Layouter} (planner : nat → Z) (grid : Column → Z → Fr) (cs : ConstraintSystem) (log : list Call).
Context (config : ReduceMeanConfig) (Hinst : mean_installed cs config).

Notation val := (cell_value planner grid).
Notation shifted := (shifted planner grid).
Notation plain := (plain planner grid).

Lemma rescale_gate_sound region z q0 r0 :
  vanish (gate_polys (rescale_gate (ReduceSum.sum (sum config)) (q config) (r config)
    (i64_to_fr (raw (reciprocal config))) (s_rescale config)) Zmod.one (advice_at grid (planner region + Z.of_nat 0))) →
  plain (mkCell region 0 (ReduceSum.sum (sum config))) z → shifted (mkCell region 0 (q config)) q0 →
  val (mkCell region 0 (r config)) = fr r0 → 0 ≤ r0 < SCALE_18 →
  requantize_mul (I18_ z) (reciprocal config) = Ok (I18_ q0, r0).
Proof using Hinst.
  simpl gate_polys. cbv zeta. rewrite vanish_1, !advice_cur, Zmod.mul_1_l.
  intros Hv [Hz Ez] [Hq Eq] Er Hr. rewrite Ez, Eq, Er in Hv. autorewrite with fr in Hv.
  unfold requantize_mul. cbn [raw I18_raw]. rewrite (rescale_sound _ q0 r0); [done| |done..].
  pose proof (i64_product _ _ Hz (me_reciprocal _ _ Hinst)). lia.
Qed.

(** The mean of the sum [z]. *)
Definition is_mean (z : Z) (c : Cell) : Prop :=
  ∃ q0 r0, requantize_mul (I18_ z) (reciprocal config) = Ok (q0, r0) ∧ shifted c (raw q0).

Lemma mean_sound inputs known :
  Z.of_nat (ReduceSum.k (sum config)) ≤ 2 ^ 64 → log_ok planner grid cs log →
  wp log (λ _, True) (assign_with_witness_mode config inputs known) (λ '(_, c, cells),
    length cells = ReduceSum.k (sum config) ∧
    ∃ z, (∀ xs, Forall2 plain cells xs → z = zsum xs) ∧ in_i64 z ∧ is_mean z c).
Proof using All.
  intros Hk Hok. unfold assign_with_witness_mode, shifted_i64_witness.
  eapply wp_bind; [apply (sum_sound planner grid cs _ _ (me_sum _ _ Hinst)); [done|done]|].
  intros [[sum_value sum_cell] cells] (Hcells & z & Hz & Hxs). cbn beta iota. wp_sound.
  eapply wp_bind; [apply (range64_sound planner grid cs); [apply Hinst..|done]|]. intros rq (q0 & Hq).
  eapply wp_bind; [apply (range60_sound planner grid cs); [apply Hinst..|done]|]. intros rr (r0 & Hr & Er).
  eapply wp_bind; [apply (range60_sound planner grid cs); [apply Hinst..|done]|]. intros rs (slack0 & Hs & Es).
  wp_sound. read_copies Hok.
  match goal with H1 : Enable (s_rescale config) ?region 0 ∈ log, H2 : Enable (s_slack config) _ _ ∈ log |- _ =>
    pose proof (gate_on _ _ _ _ _ _ _ Hok (me_rescale _ _ Hinst) H1) as Hmul;
    pose proof (gate_on _ _ _ _ _ _ _ Hok (me_slack _ _ Hinst) H2) as Hslack;
    assert (Hzc : plain (mkCell region 0 (ReduceSum.sum (sum config))) z) by (by eapply plain_copy);
    assert (Hqc : shifted (mkCell region 0 (q config)) q0) by (by eapply shifted_copy);
    assert (Hrc : val (mkCell region 0 (r config)) = fr r0) by (by etrans);
    assert (Hsc : val (mkCell region 0 (slack config)) = fr slack0) by (by etrans);
    pose proof (slack_sound planner grid _ _ _ _ region 0 r0 slack0 Hslack Hr Hrc Hs Hsc) as Hrs;
    pose proof (rescale_gate_sound region z q0 r0 Hmul Hzc Hqc Hrc Hrs) as Emul
  end.
  split; [done|]. exists z. split_and!; [done|by apply Hz|]. by exists (I18_ q0), r0.
Qed.

Lemma mean_gates_complete region z q0 r0 :
  cs_ok cs → plain (mkCell region 0 (ReduceSum.sum (sum config))) z → shifted (mkCell region 0 (q config)) q0 →
  val (mkCell region 0 (r config)) = fr r0 → val (mkCell region 0 (slack config)) = fr (SCALE_18 - 1 - r0) →
  z * raw (reciprocal config) = q0 * SCALE_18 + r0 →
  call_ok planner grid cs log (Enable (s_rescale config) region 0) ∧
  call_ok planner grid cs log (Enable (s_slack config) region 0).
Proof using Hinst.
  intros Hcs [_ Ez] [_ Eq] Er Es E. split.
  - apply (enable_gate_ok _ _ _ _ _ _ _ Hcs (me_rescale _ _ Hinst)).
    simpl gate_polys. cbv zeta. rewrite vanish_1, !advice_cur, Zmod.mul_1_l, Ez, Eq, Er.
    autorewrite with fr. f_equal. lia.
  - apply (enable_gate_ok _ _ _ _ _ _ _ Hcs (me_slack _ _ Hinst)). by eapply slack_complete.
Qed.

Lemma mean_complete inputs :
  cs_ok cs → agrees planner grid log → Forall in_I18 inputs →
  wp log (call_ok planner grid cs log) (assign config inputs) (λ '(v, c, cells),
    shifted c (raw v) ∧ Forall2 plain cells (raw <$> inputs) ∧
    ∃ r0, requantize_mul (I18_ (zsum (raw <$> inputs))) (reciprocal config) = Ok (v, r0)).
Proof using All.
  intros Hcs Hag Hin. unfold assign, assign_with_witness_mode, shifted_i64_witness, witness_value.
  eapply wp_bind; [apply (sum_complete planner grid cs _ _ (me_sum _ _ Hinst)); done|].
  intros [[[sum_raw] sum_cell] cells] (Hsum & Hz & Hcells). cbn beta iota in *. cbn [raw I18_raw] in *. wp_honest.
  rewrite <-Hsum in *.
  lazymatch goal with H : requantize_mul ?x ?y = Ok (?q0, ?r0), Hin : Assign (mkCell ?region 0 (r config)) _ ∈ _ |- _ =>
    pose proof H as Hok; apply requantize_mul_Ok in H as (Hq & Hxy & Hr);
    assert (Hcz : plain (mkCell region 0 (ReduceSum.sum (sum config))) sum_raw) by (eapply plain_assigned; [done|done|by apply Hz]);
    assert (Hcq : shifted (mkCell region 0 (q config)) (raw q0)) by (by eapply shifted_assigned);
    assert (Hcr : val (mkCell region 0 (r config)) = fr r0) by (by eapply assigned_i128);
    assert (Hcl : val (mkCell region 0 (slack config)) = fr (SCALE_18 - 1 - r0)) by (by eapply assigned_i128);
    destruct (mean_gates_complete region sum_raw (raw q0) r0) as [Hmul Hslack]; [done..|]
  end.
  split_and?; [|done..].
  eapply wp_bind; [apply range64_complete; [apply Hinst..|done|done|done]|]. intros ? ?.
  do 2 (eapply wp_bind; [apply range60_complete; [apply Hinst..|done|done|unfold SCALE_18 in *; lia]|]; intros ? ?).
  cbn beta in *. wp_honest; [by eapply plain_eq|by eapply shifted_eq|by etrans..|]. split_and!; [done..|]. eauto.
Qed.

Lemma mean_alike inputs known inputs' known' :
  alike (λ p p', p.1.2 = p'.1.2 ∧ p.2 = p'.2) (assign_with_witness_mode config inputs known)
    (assign_with_witness_mode config inputs' known').
Proof using Type.
  unfold assign_with_witness_mode, shifted_i64_witness.
  eapply alike_bind; [apply sum_alike|]. intros [[v c] cells] [[v' c'] cells'] [Hc Hcells]. simpl in Hc, Hcells. subst c' cells'.
  cbn beta iota. repeat alike_step. alike_cells. do 3 alike_range. by alike_cells.
Qed.
End Mean.
