(* ===== verification/Div.v ===== *)
(** * Fixed-point division

    zkie-core/src/chips/div.rs: [numerator / divisor] with both operands
    witnessed and the divisor strictly positive.  The remainder is bounded by
    the witnessed divisor. *)
From S2P Require Import Prelude Field FixedPoint Circuit CircuitLogic RangeCheck Eltwise EltwiseProofs Shape.

Open Scope Z_scope.

Module Div.

Definition REMAINDER_BITS : nat := 64.
Definition DIVISOR_MINUS_ONE_BITS : nat := 63.

Inductive DivError {E : Type} :=
| NonPositiveDivisor (divisor : Z)
| DivQuotientOverflow (e : FixedPointError)
| DivCircuit (e : E).
Arguments DivError : clear implicits.

#[export] Instance From_DivError {E} : From E (DivError E) := DivCircuit.

Definition div_quotient_remainder {E} (numerator divisor : I18) : Result (I18 * Z) (DivError E) :=
  let d_raw := raw divisor in
  if d_raw <=? 0 then Err (NonPositiveDivisor d_raw) else
  let n_i128 := raw numerator * SCALE_18 in
  let q_i128 := n_i128 / d_raw in
  let r_i128 := n_i128 mod d_raw in
  if (q_i128 <? i64_min) || (i64_max <? q_i128) then Err (DivQuotientOverflow QuotientOverflow)
  else Ok (from_raw q_i128, r_i128).

Record DivConfig := mkDivConfig {
  numerator : Column;
  divisor : Column;
  q_shift : Column;
  r : Column;
  slack : Column;
  dm1 : Column;
  s_div : Selector;
  s_slack : Selector;
  s_dm1 : Selector;
  range_q : RangeCheck.RangeCheckConfig;
  range_r : RangeCheck.RangeCheckConfig;
  range_slack : RangeCheck.RangeCheckConfig;
  range_dm1 : RangeCheck.RangeCheckConfig
}.

Definition div_gate (numerator divisor q_shift r : Column) (s_div : Selector) : Gate :=
  mkGate "div rescale" s_div (λ s_div query,
    let n := query numerator cur in
    let d := query divisor cur in
    let q_shift_expr := query q_shift cur in
    let r_expr := query r cur in
    let scale := i128_to_fr SCALE_18 in
    let shift := i128_to_fr SIGNED_SHIFT in
    let q_actual := (q_shift_expr - shift)%Zmod in
    [s_div * (n * scale - q_actual * d - r_expr)]%Zmod).

Definition div_slack_gate (divisor r slack : Column) (s_slack : Selector) : Gate :=
  mkGate "div slack equals divisor minus one minus remainder" s_slack (λ s_slack query,
    let d := query divisor cur in
    let r_expr := query r cur in
    let slack_expr := query slack cur in
    let one := Zmod.one in
    [s_slack * (slack_expr + r_expr - d + one)]%Zmod).

Definition dm1_gate (divisor dm1 : Column) (s_dm1 : Selector) : Gate :=
  mkGate "divisor_minus_one equals divisor minus one" s_dm1 (λ s_dm1 query,
    let d := query divisor cur in
    let dm1_expr := query dm1 cur in
    let one := Zmod.one in
    [s_dm1 * (dm1_expr - d + one)]%Zmod).

Definition configure (numerator divisor q_shift r slack dm1 bits : Column) : Meta DivConfig :=
  let& _ := enable_equality numerator in
  let& _ := enable_equality divisor in
  let& _ := enable_equality q_shift in
  let& _ := enable_equality r in
  let& _ := enable_equality slack in
  let& _ := enable_equality dm1 in
  let& s_div := selector in
  let& _ := create_gate (div_gate numerator divisor q_shift r s_div) in
  let& s_slack := selector in
  let& _ := create_gate (div_slack_gate divisor r slack s_slack) in
  let& s_dm1 := selector in
  let& _ := create_gate (dm1_gate divisor dm1 s_dm1) in
  let& range_q := RangeCheck.configure q_shift bits 64 in
  let& range_r := RangeCheck.configure r bits REMAINDER_BITS in
  let& range_slack := RangeCheck.configure slack bits REMAINDER_BITS in
  let& range_dm1 := RangeCheck.configure dm1 bits DIVISOR_MINUS_ONE_BITS in
  meta_ret (mkDivConfig numerator divisor q_shift r slack dm1 s_div s_slack s_dm1 range_q range_r range_slack range_dm1).

Definition assign `{Layouter} (config : DivConfig) (numer denom : I18) : Lay (DivError ErrorFront) (I18 * Cell * Cell) :=
  let$ '(quotient, r_i128) := lay_lift (div_quotient_remainder numer denom) in
  let d_i128 := raw denom in
  let slack_value := d_i128 - 1 - r_i128 in
  let dm1_value := d_i128 - 1 in
  let '(q_shift_fr, q_shift_raw) := shifted_i64_witness (raw quotient) in
  let$ '(numerator_cell, divisor_cell, q_shift_cell, r_cell, slack_cell, dm1_cell) := lay_try (assign_region (λ region,
    let$ _ := enable (s_div config) region 0 in
    let$ _ := enable (s_slack config) region 0 in
    let$ _ := enable (s_dm1 config) region 0 in
    let$ numerator_cell := assign_advice (numerator config) region 0 (Some (i64_to_fr (raw numer))) in
    let$ divisor_cell := assign_advice (divisor config) region 0 (Some (i64_to_fr (raw denom))) in
    let$ q_shift_cell := assign_advice (q_shift config) region 0 q_shift_fr in
    let$ r_cell := assign_advice (r config) region 0 (Some (i128_to_fr r_i128)) in
    let$ slack_cell := assign_advice (slack config) region 0 (Some (i128_to_fr slack_value)) in
    let$ dm1_cell := assign_advice (dm1 config) region 0 (Some (i128_to_fr dm1_value)) in
    lay_ret (numerator_cell, divisor_cell, q_shift_cell, r_cell, slack_cell, dm1_cell))) in
  let$ q_shift_range_cell := lay_try (RangeCheck.assign (range_q config) q_shift_fr q_shift_raw) in
  let$ r_range_cell := lay_try (RangeCheck.assign (range_r config) (Some (i128_to_fr r_i128)) (Some r_i128)) in
  let$ slack_range_cell := lay_try (RangeCheck.assign (range_slack config) (Some (i128_to_fr slack_value)) (Some slack_value)) in
  let$ dm1_range_cell := lay_try (RangeCheck.assign (range_dm1 config) (Some (i128_to_fr dm1_value)) (Some dm1_value)) in
  let$ _ := lay_try (assign_region (λ _,
    let$ _ := constrain_equal q_shift_cell q_shift_range_cell in
    let$ _ := constrain_equal r_cell r_range_cell in
    let$ _ := constrain_equal slack_cell slack_range_cell in
    let$ _ := constrain_equal dm1_cell dm1_range_cell in
    lay_ret tt)) in
  lay_ret (quotient, numerator_cell, divisor_cell).

(** ** Facts *)

Lemma div_quotient_remainder_Ok {E} n d q r0 :
  div_quotient_remainder (E := E) n d = Ok (q, r0) ↔
  0 < raw d ∧ in_I18 q ∧ raw n * SCALE_18 = raw q * raw d + r0 ∧ 0 ≤ r0 < raw d.
Proof.
  unfold div_quotient_remainder. destruct (Z.leb_spec (raw d) 0) as [Hd|Hd]; [split; [done|lia]|].
  pose proof (Z.div_mod (raw n * SCALE_18) (raw d) ltac:(lia)) as D.
  pose proof (Z.mod_pos_bound (raw n * SCALE_18) (raw d) Hd) as B. cbv zeta. split.
  - destruct (Z.ltb_spec (raw n * SCALE_18 / raw d) i64_min); simpl; [done|].
    destruct (Z.ltb_spec i64_max (raw n * SCALE_18 / raw d)); [done|]. intros [= <- <-].
    unfold in_I18, in_i64, from_raw. cbn [raw I18_raw]. lia.
  - intros (_ & Hq & E0 & Hr). destruct q as [q]. unfold in_I18, in_i64 in Hq. cbn [raw I18_raw] in *.
    assert (raw n * SCALE_18 / raw d = q) as -> by (symmetry; apply Z.div_unique_pos with r0; lia).
    assert ((raw n * SCALE_18) mod raw d = r0) as -> by (symmetry; apply Z.mod_unique_pos with q; lia).
    destruct (Z.ltb_spec q i64_min); [lia|]. by destruct (Z.ltb_spec i64_max q); [lia|].
Qed.

Record installed (cs : ConstraintSystem) (config : DivConfig) : Prop := {
  di_div : div_gate (numerator config) (divisor config) (q_shift config) (r config) (s_div config) ∈ cs_gates cs;
  di_slack : div_slack_gate (divisor config) (r config) (slack config) (s_slack config) ∈ cs_gates cs;
  di_dm1 : dm1_gate (divisor config) (dm1 config) (s_dm1 config) ∈ cs_gates cs;
  di_range_q : RangeCheck.installed cs (range_q config);
  di_range_r : RangeCheck.installed cs (range_r config);
  di_range_slack : RangeCheck.installed cs (range_slack config);
  di_range_dm1 : RangeCheck.installed cs (range_dm1 config);
  di_bits_q : RangeCheck.n_bits (range_q config) = 64%nat;
  di_bits_r : RangeCheck.n_bits (range_r config) = 64%nat;
  di_bits_slack : RangeCheck.n_bits (range_slack config) = 64%nat;
  di_bits_dm1 : RangeCheck.n_bits (range_dm1 config) = 63%nat
}.

Lemma div_configure_ok final n d q r0 sl dm bits :
  mwp final (configure n d q r0 sl dm bits) (λ config, installed final config).
Proof.
  unfold configure. do 6 (eapply mwp_bind; [by apply (mwp_equality _ _ (λ _, True))|intros []]).
  apply (mwp_gate _ (div_gate n d q r0)); [gate_off|]. intros s1.
  apply (mwp_gate _ (div_slack_gate d r0 sl)); [gate_off|]. intros s2.
  apply (mwp_gate _ (dm1_gate d dm)); [gate_off|]. intros s3.
  do 4 (eapply mwp_bind; [apply range_configure_ok|intros ?]).
  apply mwp_ret. intros (? & _ & ?) (? & _ & ?) (? & _ & ?) (? & _ & ?). intros. by split.
Qed.

Section Proofs.
Context `{L : Layouter} (planner : nat → Z) (grid : Column → Z → Fr) (cs : ConstraintSystem) (log : list Call).
Context (config : DivConfig) (Hinst : installed cs config).

Notation val := (cell_value planner grid).
Notation shifted := (shifted planner grid).
Notation plain := (plain planner grid).

Lemma range_unsigned_sound rc n v w :
  RangeCheck.installed cs rc → RangeCheck.n_bits rc = n → log_ok planner grid cs log →
  wp log (λ _, True) (RangeCheck.assign rc v w) (λ cell, ∃ z, 0 ≤ z < 2 ^ Z.of_nat n ∧ val cell = fr z).
Proof using Type. intros Hi <- Hok. by apply (range_assign_sound planner grid cs). Qed.

Lemma range_unsigned_complete rc n z :
  RangeCheck.installed cs rc → RangeCheck.n_bits rc = n → cs_ok cs → agrees planner grid log →
  0 ≤ z < 2 ^ Z.of_nat n →
  wp log (call_ok planner grid cs log) (RangeCheck.assign rc (Some (i128_to_fr z)) (Some z)) (λ cell, val cell = fr z).
Proof using Type. intros Hi <- Hcs Hag Hz. rewrite i128_to_fr_eq. by apply range_assign_complete. Qed.

Lemma div_gate_sound region n d q r0 :
  vanish (gate_polys (div_gate (numerator config) (divisor config) (q_shift config) (r config) (s_div config)) Zmod.one
    (advice_at grid (planner region + Z.of_nat 0))) →
  plain (mkCell region 0 (numerator config)) n → plain (mkCell region 0 (divisor config)) d →
  shifted (mkCell region 0 (q_shift config)) q →
  val (mkCell region 0 (r config)) = fr r0 → 0 ≤ r0 < 2 ^ 64 → n * SCALE_18 = q * d + r0.
Proof using Type.
  simpl gate_polys. cbv zeta. rewrite vanish_1, !advice_cur, Zmod.mul_1_l.
  intros Hv [Hn En] [Hd Ed] [Hq Eq] Er Hr. rewrite En, Ed, Eq, Er in Hv. autorewrite with fr in Hv.
  pose proof (i64_product _ _ Hq Hd). pose proof bn254_order_large. rewrite SIGNED_SHIFT_eq in *.
  apply fr_inj_0 in Hv; unfold SCALE_18, in_i64, i64_min, i64_max in *; nia.
Qed.

Lemma div_slack_gate_sound region d r0 slack0 :
  vanish (gate_polys (div_slack_gate (divisor config) (r config) (slack config) (s_slack config)) Zmod.one
    (advice_at grid (planner region + Z.of_nat 0))) →
  plain (mkCell region 0 (divisor config)) d →
  val (mkCell region 0 (r config)) = fr r0 → 0 ≤ r0 < 2 ^ 64 →
  val (mkCell region 0 (slack config)) = fr slack0 → 0 ≤ slack0 < 2 ^ 64 → r0 < d.
Proof using Type.
  simpl gate_polys. cbv zeta. rewrite vanish_1, !advice_cur, Zmod.mul_1_l.
  intros Hv [Hd Ed] Er Hr Es Hs. rewrite Ed, Er, Es, <-fr_1 in Hv. autorewrite with fr in Hv.
  pose proof bn254_order_large. apply fr_inj_0 in Hv; unfold in_i64, i64_min, i64_max in *; lia.
Qed.

Lemma div_sound n d :
  log_ok planner grid cs log →
  wp log (λ _, True) (assign config n d) (λ '(_, nc, dc), ∀ x y, plain nc x → plain dc y →
    ∃ q r0, div_quotient_remainder (E := ErrorFront) (I18_ x) (I18_ y) = Ok (I18_ q, r0) ∧
      shifted (mkCell (cell_region nc) 0 (q_shift config)) q).
Proof using All.
  intros Hok. unfold assign, shifted_i64_witness. wp_sound. apply wp_nest, wp_try. wp_sound.
  eapply wp_bind; [apply wp_try, (range64_sound planner grid cs); [apply Hinst..|done]|]. intros rq (q & Hq).
  eapply wp_bind; [apply wp_try, (range_unsigned_sound _ 64); [apply Hinst..|done]|]. intros rr (r0 & Hr & Er).
  eapply wp_bind; [apply wp_try, (range_unsigned_sound _ 64); [apply Hinst..|done]|]. intros rs (slack0 & Hs & Es).
  eapply wp_bind; [apply wp_try, (range_unsigned_sound _ 63); [apply Hinst..|done]|]. intros rd (dm0 & Hdm & Ed).
  apply wp_nest, wp_try. wp_sound. read_copies Hok. intros x y Hx Hy. cbn [cell_region].
  match goal with H1 : Enable (s_div config) ?region 0 ∈ log, H2 : Enable (s_slack config) _ _ ∈ log |- _ =>
    pose proof (gate_on _ _ _ _ _ _ _ Hok (di_div _ _ Hinst) H1) as Hdiv;
    pose proof (gate_on _ _ _ _ _ _ _ Hok (di_slack _ _ Hinst) H2) as Hslack;
    assert (Hqc : shifted (mkCell region 0 (q_shift config)) q) by (by eapply shifted_copy);
    assert (Hrc : val (mkCell region 0 (r config)) = fr r0) by (by etrans);
    assert (Hsc : val (mkCell region 0 (slack config)) = fr slack0) by (by etrans);
    pose proof (div_gate_sound region x y q r0 Hdiv Hx Hy Hqc Hrc Hr) as Emul;
    pose proof (div_slack_gate_sound region y r0 slack0 Hslack Hy Hrc Hr Hsc Hs) as Hlt
  end.
  exists q, r0. split; [|done]. apply div_quotient_remainder_Ok. cbn [raw I18_raw]. destruct Hqc as [Hqi _].
  split_and!; [lia|done|done|lia|lia].
Qed.

(** Without its [dm1] gate the chip would still bound the divisor through the
    slack; with it the divisor is positive whatever the operands are. *)
Lemma assign_positive n d :
  log_ok planner grid cs log →
  wp log (λ _, True) (assign config n d) (λ '(_, nc, dc), ∃ y, 1 ≤ y ≤ 2 ^ 63 ∧ val dc = fr y).
Proof using All.
  intros Hok. unfold assign, shifted_i64_witness. wp_sound. apply wp_nest, wp_try. wp_sound.
  do 3 (eapply wp_bind; [apply wp_true|intros ? _]).
  eapply wp_bind; [apply wp_try, (range_unsigned_sound _ 63); [apply Hinst..|done]|]. intros rd (dm0 & Hdm & Ed).
  apply wp_nest, wp_try. wp_sound. read_copies Hok.
  match goal with H1 : Enable (s_dm1 config) ?region 0 ∈ log |- _ =>
    pose proof (gate_on _ _ _ _ _ _ _ Hok (di_dm1 _ _ Hinst) H1) as Hv;
    assert (Hdc : val (mkCell region 0 (dm1 config)) = fr dm0) by (by etrans)
  end.
  simpl gate_polys in Hv. cbv zeta in Hv. rewrite vanish_1, !advice_cur, Zmod.mul_1_l, Hdc, <-fr_1 in Hv.
  exists (dm0 + 1). split; [lia|]. rewrite <-fr_add.
  transitivity (fr dm0 + fr 1 - (fr dm0 - val (mkCell region 0 (divisor config)) + fr 1))%Zmod; [ring|].
  rewrite Hv. ring.
Qed.

Lemma gates_complete region n d q r0 :
  cs_ok cs → plain (mkCell region 0 (numerator config)) n → plain (mkCell region 0 (divisor config)) d →
  shifted (mkCell region 0 (q_shift config)) q → val (mkCell region 0 (r config)) = fr r0 →
  val (mkCell region 0 (slack config)) = fr (d - 1 - r0) → val (mkCell region 0 (dm1 config)) = fr (d - 1) →
  n * SCALE_18 = q * d + r0 →
  call_ok planner grid cs log (Enable (s_div config) region 0) ∧
  call_ok planner grid cs log (Enable (s_slack config) region 0) ∧
  call_ok planner grid cs log (Enable (s_dm1 config) region 0).
Proof using Hinst.
  intros Hcs [_ En] [_ Ed] [_ Eq] Er Es Edm E. split_and!.
  - apply (enable_gate_ok _ _ _ _ _ _ _ Hcs (di_div _ _ Hinst)). simpl gate_polys. cbv zeta.
    rewrite vanish_1, !advice_cur, Zmod.mul_1_l, En, Ed, Eq, Er. autorewrite with fr. f_equal. lia.
  - apply (enable_gate_ok _ _ _ _ _ _ _ Hcs (di_slack _ _ Hinst)). simpl gate_polys. cbv zeta.
    rewrite vanish_1, !advice_cur, Zmod.mul_1_l, Ed, Er, Es, <-fr_1. autorewrite with fr. f_equal. lia.
  - apply (enable_gate_ok _ _ _ _ _ _ _ Hcs (di_dm1 _ _ Hinst)). simpl gate_polys. cbv zeta.
    rewrite vanish_1, !advice_cur, Zmod.mul_1_l, Ed, Edm, <-fr_1. autorewrite with fr. f_equal. lia.
Qed.

Lemma div_complete n d :
  cs_ok cs → agrees planner grid log → in_I18 n → in_I18 d →
  wp log (call_ok planner grid cs log) (assign config n d) (λ '(v, nc, dc),
    plain nc (raw n) ∧ plain dc (raw d) ∧ shifted (mkCell (cell_region nc) 0 (q_shift config)) (raw v) ∧
    ∃ r0, div_quotient_remainder (E := ErrorFront) n d = Ok (v, r0)).
Proof using All.
  intros Hcs Hag Hn Hd. unfold assign, shifted_i64_witness. wp_honest. apply wp_nest, wp_try. wp_honest.
  lazymatch goal with H : div_quotient_remainder n d = Ok (?q0, ?r1), Hin : Assign (mkCell ?region 0 (r config)) _ ∈ _ |- _ =>
    pose proof H as Hok; apply div_quotient_remainder_Ok in H as (Hdp & Hq & Hxy & Hr);
    assert (Hcn : plain (mkCell region 0 (numerator config)) (raw n)) by (by eapply plain_assigned);
    assert (Hcd : plain (mkCell region 0 (divisor config)) (raw d)) by (by eapply plain_assigned);
    assert (Hcq : shifted (mkCell region 0 (q_shift config)) (raw q0)) by (by eapply shifted_assigned);
    assert (Hcr : val (mkCell region 0 (r config)) = fr r1) by (by eapply assigned_i128);
    assert (Hcl : val (mkCell region 0 (slack config)) = fr (raw d - 1 - r1)) by (by eapply assigned_i128);
    assert (Hcm : val (mkCell region 0 (dm1 config)) = fr (raw d - 1)) by (by eapply assigned_i128);
    destruct (gates_complete region (raw n) (raw d) (raw q0) r1) as (Hdiv & Hslack & Hdm1); [done..|]
  end.
  assert (raw d < 2 ^ 63) by (unfold in_I18, in_i64, i64_max in Hd; lia).
  split_and?; [|done..].
  eapply wp_bind; [apply wp_try, range64_complete; [apply Hinst..|done|done|done]|]. intros ? ?.
  eapply wp_bind; [apply wp_try, (range_unsigned_complete _ 64); [apply Hinst..|done|done|lia]|]; intros ? ?.
  eapply wp_bind; [apply wp_try, (range_unsigned_complete _ 64); [apply Hinst..|done|done|lia]|]; intros ? ?.
  eapply wp_bind; [apply wp_try, (range_unsigned_complete _ 63); [apply Hinst..|done|done|lia]|]; intros ? ?.
  cbn beta in *. apply wp_nest, wp_try. wp_honest; [by eapply shifted_eq|by etrans..|]. split_and!; [done..|]. eauto.
Qed.

Lemma div_alike n d n' d' :
  alike (λ p p', p.1.2 = p'.1.2 ∧ p.2 = p'.2) (assign config n d) (assign config n' d').
Proof using Type.
  unfold assign, shifted_i64_witness. repeat alike_step.
  eapply (alike_bind eq); [apply alike_try; by repeat alike_step|intros ? ? <-]. repeat alike_step.
  do 4 (eapply alike_bind; [apply alike_try, range_assign_alike|intros ? ? <-]).
  eapply (alike_bind eq); [apply alike_try; by repeat alike_step|intros ? ? <-]. by repeat alike_step.
Qed.

Lemma div_returns `{!Roomy L} n d q r0 :
  div_quotient_remainder (E := ErrorFront) n d = Ok (q, r0) →
  returns (assign config n d) (λ '(v, _, _), v = q).
Proof using Hinst.
  intros Hd. unfold assign, shifted_i64_witness. rewrite Hd.
  eapply returns_bind; [by apply (returns_ret _ (λ p, p = (q, r0)))|]. intros _ ->. cbn beta iota.
  eapply (returns_bind _ _ (λ _, True)); [apply returns_try; by repeat returns_step|]. intros [[[[[] ] ] ] ] _. cbn beta iota.
  do 4 (eapply returns_bind; [apply returns_try, range_assign_returns; [exact _|];
    rewrite ?(di_bits_q _ _ Hinst), ?(di_bits_r _ _ Hinst), ?(di_bits_slack _ _ Hinst), ?(di_bits_dm1 _ _ Hinst); lia|
    intros ? _]).
  eapply (returns_bind _ _ (λ _, True)); [apply returns_try; by repeat returns_step|]. intros _ _. by repeat returns_step.
Qed.
End Proofs.

End Div.
