(* ===== verification/DotProduct.v ===== *)
(** * Dot products

    zkie-core/src/chips/dot_general.rs: the sum of K products of fixed-point
    numbers, accumulated at full width down a column and rescaled once.  The
    operands are bounded through their shifted copies. *)
From S2P Require Import Prelude Field FixedPoint Circuit CircuitLogic RangeCheck Eltwise EltwiseProofs Shape Reduce.

Open Scope Z_scope.

Module DotProduct.

Inductive DotProductError {E : Type} :=
| LengthMismatch (expected got_a got_b : nat)
| Overflow (e : FixedPointError)
| Circuit (e : E).
Arguments DotProductError : clear implicits.

#[export] Instance From_DotProductError {E} : From E (DotProductError E) := Circuit.

Record DotProductConfig := mkDotProductConfig {
  a : Column;
  b : Column;
  accumulator : Column;
  q : Column;
  r : Column;
  slack : Column;
  s_acc_start : Selector;
  s_acc_step : Selector;
  s_final : Selector;
  s_slack : Selector;
  range_q : RangeCheck.RangeCheckConfig;
  range_r : RangeCheck.RangeCheckConfig;
  range_r_slack : RangeCheck.RangeCheckConfig;
  a_shift : Column;
  b_shift : Column;
  s_shift : Selector;
  range_a : LookupRangeCheck.LookupRangeCheckConfig;
  range_b : LookupRangeCheck.LookupRangeCheckConfig;
  k : nat
}.

Definition start_gate (a b accumulator : Column) (s_acc_start : Selector) : Gate :=
  mkGate "dot product accumulation start" s_acc_start (λ s_acc_start query,
    let a := query a cur in
    let b := query b cur in
    let acc := query accumulator cur in
    [s_acc_start * (acc - a * b)]%Zmod).

Definition step_gate (a b accumulator : Column) (s_acc_step : Selector) : Gate :=
  mkGate "dot product accumulation step" s_acc_step (λ s_acc_step query,
    let a := query a cur in
    let b := query b cur in
    let acc_cur := query accumulator cur in
    let acc_prev := query accumulator prev in
    [s_acc_step * (acc_cur - acc_prev - a * b)]%Zmod).

Definition final_gate (accumulator q r : Column) (s_final : Selector) : Gate :=
  mkGate "dot product final rescale (shifted q)" s_final (λ s_final query,
    let acc := query accumulator cur in
    let q_shift := query q cur in
    let r := query r cur in
    let scale := i128_to_fr SCALE_18 in
    let shift_scaled := i128_to_fr (SIGNED_SHIFT * SCALE_18) in
    [s_final * (acc - (q_shift * scale - shift_scaled) - r)]%Zmod).

Definition configure (a b accumulator q r slack bits : Column) (k : nat) : Meta DotProductConfig :=
  assert& (0 <? k)%nat in
  let& _ := enable_equality a in
  let& _ := enable_equality b in
  let& _ := enable_equality accumulator in
  let& _ := enable_equality q in
  let& _ := enable_equality r in
  let& _ := enable_equality slack in
  let& s_acc_start := selector in
  let& _ := create_gate (start_gate a b accumulator s_acc_start) in
  let& s_acc_step := selector in
  let& _ := create_gate (step_gate a b accumulator s_acc_step) in
  let& s_final := selector in
  let& _ := create_gate (final_gate accumulator q r s_final) in
  let& s_slack := selector in
  let& _ := create_gate (slack_gate "dot product slack equals bound minus remainder" r slack s_slack) in
  let& a_shift := advice_column in
  let& b_shift := advice_column in
  let& _ := enable_equality a_shift in
  let& _ := enable_equality b_shift in
  let& s_shift := selector in
  let& _ := create_gate (shift_gate "dot product operand shift" a b a_shift b_shift s_shift) in
  let& range_a := LookupRangeCheck.configure a_shift bits 64 in
  let& range_b := LookupRangeCheck.configure b_shift bits 64 in
  let& range_q := RangeCheck.configure q bits 64 in
  let& range_r := RangeCheck.configure r bits REMAINDER_BITS in
  let& range_r_slack := RangeCheck.configure slack bits REMAINDER_BITS in
  meta_ret (mkDotProductConfig a b accumulator q r slack s_acc_start s_acc_step s_final s_slack
    range_q range_r range_r_slack a_shift b_shift s_shift range_a range_b k).

Section Assign.
Context `{Layouter} (config : DotProductConfig).

Definition load_range_table : Lay ErrorFront unit :=
  let$ _ := LookupRangeCheck.load_table (range_a config) in
  LookupRangeCheck.load_table (range_b config).

(** The running sums of the raw products, with [checked_add] on [i128]. *)
Fixpoint partial_sums (raw_sum : Z) (terms : list (I18 * I18)) : Result (list Z) (DotProductError ErrorFront) :=
  match terms with
  | [] => Ok []
  | (x, y) :: terms =>
      let term := raw x * raw y in
      let next := raw_sum + term in
      if bool_decide (in_i128 next) then
        let? rest := partial_sums next terms in Ok (next :: rest)
      else Err (Overflow AccumulationOverflow)
  end.

Definition assign (a_vals b_vals : list I18) : Lay (DotProductError ErrorFront) I18 :=
  let k := k config in
  if negb ((length a_vals =? k) && (length b_vals =? k))%nat
  then lay_err (LengthMismatch k (length a_vals) (length b_vals)) else
  let$ sums := lay_lift (partial_sums 0 (zip a_vals b_vals)) in
  let raw_sum := default 0 (last sums) in
  let$ '(quot, rem) := lay_lift (map_err Overflow (requantize_raw raw_sum)) in
  let slack_value := SCALE_18 - 1 - rem in
  let '(q_shift_fr, q_shift_raw) := shifted_i64_witness (raw quot) in
  let$ '(q_cell, r_cell, slack_cell, a_shift_cells, b_shift_cells) := lay_try (assign_region (λ region,
    let$ rows := lay_map (λ '(i, (x, y, acc)),
      let$ _ := assign_advice (a config) region i (Some (i64_to_fr (raw x))) in
      let$ _ := assign_advice (b config) region i (Some (i64_to_fr (raw y))) in
      let$ _ := enable (s_shift config) region i in
      let '(a_shift_fr, _) := shifted_i64_witness (raw x) in
      let '(b_shift_fr, _) := shifted_i64_witness (raw y) in
      let$ a_cell := assign_advice (a_shift config) region i a_shift_fr in
      let$ b_cell := assign_advice (b_shift config) region i b_shift_fr in
      let$ _ := assign_advice (accumulator config) region i (Some (i128_to_fr acc)) in
      let$ _ := if (i =? 0)%nat then enable (s_acc_start config) region i else enable (s_acc_step config) region i in
      lay_ret (a_cell, b_cell)) (enumerate (zip (zip a_vals b_vals) sums)) in
    if (k =? 0)%nat then lay_panic else
    let last := (k - 1)%nat in
    let$ _ := enable (s_final config) region last in
    let$ _ := enable (s_slack config) region last in
    let$ q_cell := assign_advice (q config) region last q_shift_fr in
    let$ r_cell := assign_advice (r config) region last (Some (i128_to_fr rem)) in
    let$ slack_cell := assign_advice (slack config) region last (Some (i128_to_fr slack_value)) in
    lay_ret (q_cell, r_cell, slack_cell, rows.*1, rows.*2))) in
  let$ operand_links := lay_map (λ '(x, y, (a_cell, b_cell)),
    let '(a_shift_fr, a_shift_raw) := shifted_i64_witness (raw x) in
    let$ cell_a := lay_try (LookupRangeCheck.assign (range_a config) a_shift_fr a_shift_raw) in
    let '(b_shift_fr, b_shift_raw) := shifted_i64_witness (raw y) in
    let$ cell_b := lay_try (LookupRangeCheck.assign (range_b config) b_shift_fr b_shift_raw) in
    lay_ret [(a_cell, cell_a); (b_cell, cell_b)]) (zip (zip a_vals b_vals) (zip a_shift_cells b_shift_cells)) in
  let$ q_range_cell := lay_try (RangeCheck.assign (range_q config) q_shift_fr q_shift_raw) in
  let$ r_range_cell := lay_try (RangeCheck.assign (range_r config) (Some (i128_to_fr rem)) (Some rem)) in
  let$ slack_range_cell :=
    lay_try (RangeCheck.assign (range_r_slack config) (Some (i128_to_fr slack_value)) (Some slack_value)) in
  let$ _ := lay_try (assign_region (λ _,
    let$ _ := constrain_equal q_cell q_range_cell in
    let$ _ := constrain_equal r_cell r_range_cell in
    let$ _ := constrain_equal slack_cell slack_range_cell in
    lay_iter (λ '(lhs, rhs), constrain_equal lhs rhs) (concat operand_links))) in
  lay_ret quot.
End Assign.

(** ** Facts *)

Record installed (cs : ConstraintSystem) (config : DotProductConfig) : Prop := {
  dp_start : start_gate (a config) (b config) (accumulator config) (s_acc_start config) ∈ cs_gates cs;
  dp_step : step_gate (a config) (b config) (accumulator config) (s_acc_step config) ∈ cs_gates cs;
  dp_final : final_gate (accumulator config) (q config) (r config) (s_final config) ∈ cs_gates cs;
  dp_slack : slack_gate "dot product slack equals bound minus remainder" (r config) (slack config) (s_slack config)
    ∈ cs_gates cs;
  dp_shift : shift_gate "dot product operand shift" (a config) (b config) (a_shift config) (b_shift config)
    (s_shift config) ∈ cs_gates cs;
  dp_range_a : LookupRangeCheck.installed cs (range_a config);
  dp_range_b : LookupRangeCheck.installed cs (range_b config);
  dp_range_q : RangeCheck.installed cs (range_q config);
  dp_range_r : RangeCheck.installed cs (range_r config);
  dp_range_slack : RangeCheck.installed cs (range_r_slack config);
  dp_bits_a : LookupRangeCheck.n_bits (range_a config) = 64%nat;
  dp_bits_b : LookupRangeCheck.n_bits (range_b config) = 64%nat;
  dp_bits_q : RangeCheck.n_bits (range_q config) = 64%nat;
  dp_bits_r : RangeCheck.n_bits (range_r config) = REMAINDER_BITS;
  dp_bits_slack : RangeCheck.n_bits (range_r_slack config) = REMAINDER_BITS
}.

Lemma dot_configure_ok final a0 b0 acc q0 r0 sl bits k0 :
  mwp final (configure a0 b0 acc q0 r0 sl bits k0) (λ config, installed final config ∧ k config = k0 ∧ (0 < k0)%nat).
Proof.
  unfold configure. apply mwp_assert. intros Hk%Nat.ltb_lt.
  do 6 (eapply mwp_bind; [by apply (mwp_equality _ _ (λ _, True))|intros []]).
  apply (mwp_gate _ (start_gate a0 b0 acc)); [gate_off|]. intros s1.
  apply (mwp_gate _ (step_gate a0 b0 acc)); [gate_off|]. intros s2.
  apply (mwp_gate _ (final_gate acc q0 r0)); [gate_off|]. intros s3.
  apply (mwp_gate _ (slack_gate _ r0 sl)); [gate_off|]. intros s4.
  do 2 (eapply mwp_bind; [by apply (mwp_advice_column _ (λ _, True))|intros ?]).
  do 2 (eapply mwp_bind; [by apply (mwp_equality _ _ (λ _, True))|intros []]).
  apply (mwp_gate _ (shift_gate _ a0 b0 _ _)); [gate_off|]. intros s5.
  do 2 (eapply mwp_bind; [apply lookup_configure_ok|intros ?]).
  do 3 (eapply mwp_bind; [apply range_configure_ok|intros ?]).
  apply mwp_ret. intros (? & _ & ?) (? & _ & ?) (? & _ & ?) (? & _ & ?) (? & _ & ?). intros. by split_and!; [split|..].
Qed.

(** The running sums are the exact ones. *)
Definition products (xs ys : list Z) : list Z := zip_with Z.mul xs ys.

Lemma partial_sums_Ok `{Layouter} raw_sum terms sums :
  partial_sums raw_sum terms = Ok sums →
  length sums = length terms ∧
  ∀ i s, sums !! i = Some s → s = raw_sum + zsum (take (S i) ((λ p, raw p.1 * raw p.2) <$> terms)).
Proof.
  revert raw_sum sums. induction terms as [|[x y] terms IH]; cbn [partial_sums]; intros raw_sum sums E.
  - injection E as <-. split; [done|]. intros i s. by rewrite lookup_nil.
  - cbv zeta in E. case_bool_decide; [|done]. apply result_bind_Ok in E as (rest & Hr & [= <-]).
    destruct (IH _ _ Hr) as [Hlen Hl]. split; [simpl; by rewrite Hlen|].
    intros [|i] s; cbn [lookup list_lookup]; intros E.
    + injection E as <-. rewrite zsum_take_cons. unfold zsum. simpl. lia.
    + apply Hl in E as ->. rewrite zsum_take_cons. cbn [fst snd]. lia.
Qed.

Lemma products_raw (a b : list I18) : products (raw <$> a) (raw <$> b) = (λ p, raw p.1 * raw p.2) <$> zip a b.
Proof. revert b. induction a as [|x a IH]; intros [|y b]; simpl; f_equal; auto. Qed.

Lemma total_sum `{Layouter} a b sums :
  partial_sums 0 (zip a b) = Ok sums → default 0 (last sums) = zsum (products (raw <$> a) (raw <$> b)).
Proof.
  intros [Hlen Hs]%partial_sums_Ok. rewrite products_raw, last_lookup, Hlen.
  destruct (zip a b) as [|p terms] eqn:E; [by rewrite (nil_length_inv _ Hlen)|]. simpl pred.
  destruct (lookup_lt_is_Some_2 sums (length terms)) as [s Es]; [simpl in Hlen; lia|].
  rewrite Es. simpl default. by rewrite (Hs _ _ Es), Z.add_0_l, take_ge by (simpl; rewrite length_fmap; lia).
Qed.

Lemma typed_terms (a b : list I18) :
  Forall in_I18 a → Forall in_I18 b → Forall (λ p, in_I18 p.1 ∧ in_I18 p.2) (zip a b).
Proof.
  rewrite !Forall_lookup. intros Ha Hb i p (x & y & -> & Hx & Hy)%lookup_zip_with_Some. split; eauto.
Qed.

Section Proofs.
Context `{L : Layouter} (planner : nat → Z) (grid : Column → Z → Fr) (cs : ConstraintSystem) (log : list Call).
Context (config : DotProductConfig) (Hinst : installed cs config).

Notation val := (cell_value planner grid).
Notation shifted := (shifted planner grid).
Notation plain := (plain planner grid).

Definition table_bytes : Prop :=
  LookupRangeCheck.table_bytes log (range_a config) ∧ LookupRangeCheck.table_bytes log (range_b config).
Definition table_loaded : Prop :=
  LookupRangeCheck.table_loaded log (range_a config) ∧ LookupRangeCheck.table_loaded log (range_b config).

Lemma load_tables P : (∀ t i v, P (Table t i v)) → wp log P (load_range_table config) (λ _, table_loaded).
Proof using Type.
  intros HP. unfold load_range_table.
  eapply wp_bind; [eapply (wp_defer _ _ _ _ (λ _, LookupRangeCheck.table_loaded log (range_a config)));
    [apply load_table_loaded|by intros _ c _ (i & _ & ->)]|]. intros [] Ha.
  eapply wp_conseq; [eapply (wp_defer _ _ _ _ (λ _, LookupRangeCheck.table_loaded log (range_b config)));
    [apply load_table_loaded|by intros _ c _ (i & _ & ->)]|]. intros [] Hb. by split.
Qed.

(** What the accumulation gate of row [i] says. *)
Definition acc_row (region i : nat) : Prop :=
  let term := (val (mkCell region i (a config)) * val (mkCell region i (b config)))%Zmod in
  match i with
  | O => val (mkCell region i (accumulator config)) = term
  | S j => val (mkCell region i (accumulator config)) = (val (mkCell region j (accumulator config)) + term)%Zmod
  end.

Lemma acc_row_sound region i :
  log_ok planner grid cs log →
  Enable (if (i =? 0)%nat then s_acc_start config else s_acc_step config) region i ∈ log → acc_row region i.
Proof using Hinst.
  intros Hok Hin. unfold acc_row. destruct i as [|i]; cbn [Nat.eqb] in Hin.
  - pose proof (gate_on _ _ _ _ _ _ _ Hok (dp_start _ _ Hinst) Hin) as Hv. simpl gate_polys in Hv. cbv zeta in Hv.
    rewrite vanish_1, !advice_cur, Zmod.mul_1_l in Hv. by apply fr_sub_0.
  - pose proof (gate_on _ _ _ _ _ _ _ Hok (dp_step _ _ Hinst) Hin) as Hv. simpl gate_polys in Hv. cbv zeta in Hv.
    rewrite vanish_1, !advice_cur, advice_prev, Zmod.mul_1_l in Hv. apply fr_sub_0. rewrite <-Hv. ring.
Qed.

Lemma acc_row_complete region i :
  cs_ok cs → acc_row region i →
  call_ok planner grid cs log (Enable (if (i =? 0)%nat then s_acc_start config else s_acc_step config) region i).
Proof using Hinst.
  intros Hcs Hrow. unfold acc_row in Hrow. destruct i as [|i]; cbn [Nat.eqb].
  - apply (enable_gate_ok _ _ _ _ _ _ _ Hcs (dp_start _ _ Hinst)). simpl gate_polys. cbv zeta.
    rewrite vanish_1, !advice_cur, Zmod.mul_1_l, Hrow. ring.
  - apply (enable_gate_ok _ _ _ _ _ _ _ Hcs (dp_step _ _ Hinst)). simpl gate_polys. cbv zeta.
    rewrite vanish_1, !advice_cur, advice_prev, Zmod.mul_1_l, Hrow. ring.
Qed.

Lemma operand_shift_sound region i x y :
  log_ok planner grid cs log → Enable (s_shift config) region i ∈ log →
  shifted (mkCell region i (a_shift config)) x → shifted (mkCell region i (b_shift config)) y →
  plain (mkCell region i (a config)) x ∧ plain (mkCell region i (b config)) y.
Proof using Hinst.
  intros Hok Hin [Hx Ex] [Hy Ey].
  pose proof (gate_on _ _ _ _ _ _ _ Hok (dp_shift _ _ Hinst) Hin) as Hv. simpl gate_polys in Hv. cbv zeta in Hv.
  rewrite vanish_2, !advice_cur, !Zmod.mul_1_l in Hv. destruct Hv. split; by eapply plain_of_shifted.
Qed.

(** The operands and the result of an accepted region. *)
Definition is_dot_product (region : nat) : Prop :=
  ∃ xs ys, length xs = k config ∧ length ys = k config ∧
    (∀ i x, xs !! i = Some x → plain (mkCell region i (a config)) x) ∧
    (∀ i y, ys !! i = Some y → plain (mkCell region i (b config)) y) ∧
    ∃ q0 r0, requantize_raw (zsum (products xs ys)) = Ok (I18_ q0, r0) ∧
      shifted (mkCell region (k config - 1) (q config)) q0.

Lemma products_bound xs ys :
  length xs = length ys → Forall in_i64 xs → Forall in_i64 ys → Forall (λ z, - 2 ^ 126 ≤ z ≤ 2 ^ 126) (products xs ys).
Proof using Type.
  intros Hlen Hxs Hys. unfold products. apply Forall_forall. intros z Hz.
  apply list_elem_of_lookup in Hz as (i & (x & y & -> & Hx & Hy)%lookup_zip_with_Some).
  rewrite Forall_lookup in Hxs, Hys. by apply i64_product; eauto.
Qed.

(** The rows and the last row's gates give the product. *)
Lemma region_sound region xs ys q0 r0 :
  Z.of_nat (k config) ≤ 2 ^ 64 → (0 < k config)%nat → length xs = k config → length ys = k config →
  (∀ i x, xs !! i = Some x → plain (mkCell region i (a config)) x) →
  (∀ i y, ys !! i = Some y → plain (mkCell region i (b config)) y) →
  (∀ i, (i < k config)%nat → acc_row region i) →
  vanish (gate_polys (final_gate (accumulator config) (q config) (r config) (s_final config)) Zmod.one
    (advice_at grid (planner region + Z.of_nat (k config - 1)))) →
  shifted (mkCell region (k config - 1) (q config)) q0 → val (mkCell region (k config - 1) (r config)) = fr r0 →
  0 ≤ r0 < SCALE_18 → requantize_raw (zsum (products xs ys)) = Ok (I18_ q0, r0).
Proof using Type.
  intros Hk Hpos Hlx Hly Hxs Hys Hrow Hv [Hq Eq] Er Hr.
  assert (length (products xs ys) = k config) as Hlp by (unfold products; rewrite length_zip_with; lia).
  assert (val (mkCell region (k config - 1) (accumulator config)) = fr (zsum (products xs ys))) as Eacc.
  { rewrite (running_total (λ i, val (mkCell region i (accumulator config)))
      (λ i, val (mkCell region i (a config)) * val (mkCell region i (b config)))%Zmod (products xs ys)); [|..|lia].
    - rewrite take_ge by lia. done.
    - intros i z (x & y & -> & Hx & Hy)%lookup_zip_with_Some.
      destruct (Hxs _ _ Hx) as [_ ->], (Hys _ _ Hy) as [_ ->]. by rewrite fr_mul.
    - intros _. by apply (Hrow 0%nat).
    - intros i Hi. apply (Hrow (S i)). lia. }
  simpl gate_polys in Hv. cbv zeta in Hv. rewrite vanish_1, !advice_cur, Zmod.mul_1_l, Eacc, Eq, Er in Hv.
  autorewrite with fr in Hv. apply rescale_sound; [|done..].
  assert (Forall (λ z, - 2 ^ 126 ≤ z ≤ 2 ^ 126) (products xs ys)) as Hb.
  { apply products_bound; [lia| |]; apply Forall_lookup; intros i z Hz; [by apply (Hxs i z)|by apply (Hys i z)]. }
  apply zsum_bound in Hb. rewrite Hlp in Hb. nia.
Qed.

(** The operand checks: two links for each row. *)
Definition links (row : (I18 * I18) * (Cell * Cell)) (l : list (Cell * Cell)) : Prop :=
  ∃ ca cb x y, l = [(row.2.1, ca); (row.2.2, cb)] ∧ shifted ca x ∧ shifted cb y.

Lemma operand_ranges_sound rows :
  table_bytes → log_ok planner grid cs log →
  wp log (λ _, True) (lay_map (λ '(x, y, (a_cell, b_cell)),
    let '(a_shift_fr, a_shift_raw) := shifted_i64_witness (raw x) in
    let$ cell_a := lay_try (F := DotProductError ErrorFront) (LookupRangeCheck.assign (range_a config) a_shift_fr a_shift_raw) in
    let '(b_shift_fr, b_shift_raw) := shifted_i64_witness (raw y) in
    let$ cell_b := lay_try (LookupRangeCheck.assign (range_b config) b_shift_fr b_shift_raw) in
    lay_ret [(a_cell, cell_a); (b_cell, cell_b)]) rows) (Forall2 links rows).
Proof using All.
  intros [Ht1 Ht2] Hok. apply (wp_map _ _ _ links); [|done]. intros [[x y] [ac bc]] _. unfold shifted_i64_witness.
  eapply wp_bind; [apply wp_try, (lookup64_sound planner grid cs); [apply Hinst..|done|done]|]. intros ca (xv & Hx).
  eapply wp_bind; [apply wp_try, (lookup64_sound planner grid cs); [apply Hinst..|done|done]|]. intros cb (yv & Hy).
  apply wp_ret. by exists ca, cb, xv, yv.
Qed.

Lemma links_sound region terms ls i :
  log_ok planner grid cs log → length terms = k config →
  Forall2 links (zip terms (zip ((λ i, mkCell region i (a_shift config)) <$> seq 0 (k config))
    ((λ i, mkCell region i (b_shift config)) <$> seq 0 (k config)))) ls →
  Forall (λ p, Equal p.1 p.2 ∈ log) (concat ls) → (i < k config)%nat →
  ∃ x y, shifted (mkCell region i (a_shift config)) x ∧ shifted (mkCell region i (b_shift config)) y.
Proof using All.
  intros Hok Hlen Hls Heq Hi. destruct (lookup_lt_is_Some_2 terms i) as [t Ht]; [lia|].
  edestruct (Forall2_lookup_l _ _ _ i (t, (mkCell region i (a_shift config), mkCell region i (b_shift config))) Hls)
    as (l & Hl & ca & cb & x & y & -> & Hx & Hy).
  { rewrite !lookup_zip_with, !list_lookup_fmap, Ht. rewrite (proj2 (lookup_seq 0 (k config) i i)); [done|lia]. }
  rewrite Forall_forall in Heq. apply list_elem_of_lookup_2 in Hl.
  assert (∀ p, p ∈ [(mkCell region i (a_shift config), ca); (mkCell region i (b_shift config), cb)] →
    val p.1 = val p.2) as Hp.
  { intros p Hp. apply (equal_on _ _ _ _ _ _ Hok), Heq. rewrite list_elem_of_In, in_concat.
    eexists. by rewrite <-!list_elem_of_In. }
  exists x, y. split; (eapply shifted_copy; [|done]); [apply (Hp (_, ca))|apply (Hp (_, cb))]; set_solver.
Qed.

(** The accepted calls of a region, whose results were range-checked, make a dot
    product. *)
Lemma rows_sound region terms ls q0 r0 slack0 :
  Z.of_nat (k config) ≤ 2 ^ 64 → (0 < k config)%nat → log_ok planner grid cs log → length terms = k config →
  (∀ i, (i < k config)%nat → Enable (s_shift config) region i ∈ log ∧ acc_row region i) →
  Forall2 links (zip terms (zip ((λ i, mkCell region i (a_shift config)) <$> seq 0 (k config))
    ((λ i, mkCell region i (b_shift config)) <$> seq 0 (k config)))) ls →
  Forall (λ p, Equal p.1 p.2 ∈ log) (concat ls) →
  Enable (s_final config) region (k config - 1) ∈ log → Enable (s_slack config) region (k config - 1) ∈ log →
  shifted (mkCell region (k config - 1) (q config)) q0 →
  0 ≤ r0 < 2 ^ 60 → val (mkCell region (k config - 1) (r config)) = fr r0 →
  0 ≤ slack0 < 2 ^ 60 → val (mkCell region (k config - 1) (slack config)) = fr slack0 →
  is_dot_product region.
Proof using All.
  intros Hk Hpos Hok Hlen Hrow Hls Heq Hf Hs Hq Hr Er Hsl Es.
  assert (∀ i, (i < k config)%nat → ∃ x y, plain (mkCell region i (a config)) x ∧ plain (mkCell region i (b config)) y) as Hops.
  { intros i Hi. destruct (links_sound region terms ls i) as (x & y & Hx & Hy); [done..|].
    exists x, y. destruct (Hrow i Hi). by apply operand_shift_sound. }
  destruct (list_of_exists (λ i x, plain (mkCell region i (a config)) x) (k config)) as (xs & Hlx & Hxs).
  { intros i Hi. destruct (Hops i Hi) as (x & y & Hx & _). eauto. }
  destruct (list_of_exists (λ i y, plain (mkCell region i (b config)) y) (k config)) as (ys & Hly & Hys).
  { intros i Hi. destruct (Hops i Hi) as (x & y & _ & Hy). eauto. }
  pose proof (gate_on _ _ _ _ _ _ _ Hok (dp_final _ _ Hinst) Hf) as Hfin.
  pose proof (gate_on _ _ _ _ _ _ _ Hok (dp_slack _ _ Hinst) Hs) as Hslack.
  pose proof (slack_sound planner grid _ _ _ _ region _ r0 slack0 Hslack Hr Er Hsl Es) as Hrs.
  exists xs, ys. split_and!; [done..|]. exists q0, r0. split; [|done].
  eapply region_sound; try done. intros i Hi. by apply Hrow.
Qed.

Lemma dot_sound a_vals b_vals lg :
  Z.of_nat (k config) ≤ 2 ^ 64 → table_bytes → log_ok planner grid cs log →
  wp_from log (λ _, True) lg (assign config a_vals b_vals) (λ _, is_dot_product (lg_regions lg)).
Proof using All.
  intros Hk Ht Hok. unfold assign. destruct (negb _) eqn:Hlen; [by intros ? ? ?|].
  apply negb_false_iff, andb_true_iff in Hlen as [Hla%Nat.eqb_eq Hlb%Nat.eqb_eq].
  apply wp_from_host. intros sums [Hsums _]%partial_sums_Ok. rewrite length_zip_with in Hsums.
  apply wp_from_host. intros [quot rem] _. unfold shifted_i64_witness. apply wp_from_region.
  set (region := lg_regions lg). apply wp_nest.
  apply (wp_rows _ _ _ (λ i, (mkCell region i (a_shift config), mkCell region i (b_shift config)))
    (λ i _, Enable (s_shift config) region i ∈ log ∧ acc_row region i)).
  { intros i [[x y] acc] _. wp_sound. apply wp_nest.
    apply (wp_conseq _ _ _ _ (λ _, acc_row region i)).
    { by destruct i as [|i]; cbn [Nat.eqb]; wp_sound; apply acc_row_sound. }
    intros [] Hrow. wp_sound. by split. }
  intros Hrows. rewrite !length_zip_with in *. 
  assert (min (min (length a_vals) (length b_vals)) (length sums) = k config) as -> by lia.
  apply wp_if; [intros _; apply wp_panic|]. intros Hpos%Nat.eqb_neq. wp_sound. rewrite fmap_pair_1, fmap_pair_2.
  eapply wp_bind; [by apply operand_ranges_sound|]. intros ls Hls.
  eapply wp_bind; [apply wp_try, (range64_sound planner grid cs); [apply Hinst..|done]|]. intros rq (q0 & Hq).
  eapply wp_bind; [apply wp_try, (range60_sound planner grid cs); [apply Hinst..|done]|]. intros rr (r0 & Hr & Er).
  eapply wp_bind; [apply wp_try, (range60_sound planner grid cs); [apply Hinst..|done]|]. intros rs (slack0 & Hs & Es).
  apply wp_nest, wp_try. wp_sound. 
  apply (wp_iter _ _ _ (λ p, Equal p.1 p.2 ∈ log)); [intros [lhs rhs] _; by apply wp_equal|]. intros Heq. wp_sound.
  read_copies Hok. eapply (rows_sound region (zip a_vals b_vals) ls q0 r0 slack0); try done; try lia.
  - rewrite length_zip_with. lia.
  - intros i Hi. destruct (lookup_lt_is_Some_2 (zip (zip a_vals b_vals) sums) i) as [p Hp];
      [rewrite !length_zip_with; lia|]. by apply (Hrows i p).
  - by eapply shifted_copy.
  - by etrans.
  - by etrans.
Qed.

(** An honest region. *)
Definition dot_call (region n : nat) (c : Call) : Prop :=
  match c with
  | Enable s rg o => rg = region ∧ (o < n)%nat ∧
      (s = s_shift config ∨ s = if (o =? 0)%nat then s_acc_start config else s_acc_step config)
  | Assign _ _ => True
  | _ => False
  end.

(** The cells of row [i]. *)
Definition dot_row (region i : nat) (x y : I18) (acc : Z) : Prop :=
  plain (mkCell region i (a config)) (raw x) ∧ plain (mkCell region i (b config)) (raw y) ∧
  shifted (mkCell region i (a_shift config)) (raw x) ∧ shifted (mkCell region i (b_shift config)) (raw y) ∧
  val (mkCell region i (accumulator config)) = fr acc.

Lemma acc_row_honest region terms sums i :
  partial_sums (H := L) 0 terms = Ok sums →
  (∀ i x y acc, terms !! i = Some (x, y) → sums !! i = Some acc → dot_row region i x y acc) →
  (i < length terms)%nat → acc_row region i.
Proof using Type.
  intros Hp Hcells Hi. destruct (partial_sums_Ok _ _ _ Hp) as [Hlen Hpart].
  destruct (lookup_lt_is_Some_2 terms i Hi) as [[x y] Hx]. destruct (lookup_lt_is_Some_2 sums i) as [s Hs]; [lia|].
  destruct (Hcells _ _ _ _ Hx Hs) as ([_ Ex] & [_ Ey] & _ & _ & Es). pose proof (Hpart _ _ Hs) as Esum.
  assert (((λ p, raw p.1 * raw p.2) <$> terms) !! i = Some (raw x * raw y)) as Hraw by (by rewrite list_lookup_fmap, Hx).
  rewrite (zsum_take_S _ _ _ Hraw) in Esum. unfold acc_row. destruct i as [|i].
  - by rewrite Ex, Ey, Es, Esum, fr_mul.
  - destruct (lookup_lt_is_Some_2 terms i) as [[x' y'] Hx']; [lia|]. destruct (lookup_lt_is_Some_2 sums i) as [s' Hs']; [lia|].
    destruct (Hcells _ _ _ _ Hx' Hs') as (_ & _ & _ & _ & Es'). pose proof (Hpart _ _ Hs') as Esum'.
    by rewrite Ex, Ey, Es, Es', Esum, Esum', fr_mul, fr_add.
Qed.

Lemma dot_shift_complete region i x y acc :
  cs_ok cs → dot_row region i x y acc → call_ok planner grid cs log (Enable (s_shift config) region i).
Proof using Hinst.
  intros Hcs ([_ Ex] & [_ Ey] & [_ Exs] & [_ Eys] & _).
  apply (enable_gate_ok _ _ _ _ _ _ _ Hcs (dp_shift _ _ Hinst)). simpl gate_polys. cbv zeta.
  rewrite vanish_2, !advice_cur, !Zmod.mul_1_l, Ex, Ey, Exs, Eys. split; autorewrite with fr; f_equal; lia.
Qed.

Lemma last_gates_complete region o acc q0 r0 :
  cs_ok cs → val (mkCell region o (accumulator config)) = fr acc → shifted (mkCell region o (q config)) q0 →
  val (mkCell region o (r config)) = fr r0 → val (mkCell region o (slack config)) = fr (SCALE_18 - 1 - r0) →
  acc = q0 * SCALE_18 + r0 →
  call_ok planner grid cs log (Enable (s_final config) region o) ∧
  call_ok planner grid cs log (Enable (s_slack config) region o).
Proof using Hinst.
  intros Hcs Ea [_ Eq] Er Es E. split.
  - apply (enable_gate_ok _ _ _ _ _ _ _ Hcs (dp_final _ _ Hinst)). simpl gate_polys. cbv zeta.
    rewrite vanish_1, !advice_cur, Zmod.mul_1_l, Ea, Eq, Er. autorewrite with fr. f_equal. lia.
  - apply (enable_gate_ok _ _ _ _ _ _ _ Hcs (dp_slack _ _ Hinst)). by eapply slack_complete.
Qed.

Lemma rows_complete {B} (ret : Cell → Cell → Cell → Cell → B) region terms sums :
  cs_ok cs → agrees planner grid log → Forall (λ p, in_I18 p.1 ∧ in_I18 p.2) terms →
  partial_sums (H := L) 0 terms = Ok sums →
  wp log (call_ok planner grid cs log) (lay_map (λ '(i, (x, y, acc)),
      let$ a_val := assign_advice (a config) region i (Some (i64_to_fr (raw x))) in
      let$ b_val := assign_advice (b config) region i (Some (i64_to_fr (raw y))) in
      let$ _ := enable (s_shift config) region i in
      let '(a_shift_fr, _) := shifted_i64_witness (raw x) in
      let '(b_shift_fr, _) := shifted_i64_witness (raw y) in
      let$ a_cell := assign_advice (a_shift config) region i a_shift_fr in
      let$ b_cell := assign_advice (b_shift config) region i b_shift_fr in
      let$ _ := assign_advice (accumulator config) region i (Some (i128_to_fr acc)) in
      let$ _ := if (i =? 0)%nat then enable (s_acc_start config) region i else enable (s_acc_step config) region i in
      lay_ret (ret a_val b_val a_cell b_cell)) (enumerate (zip terms sums)))
    (λ rows, rows = (λ i, ret (mkCell region i (a config)) (mkCell region i (b config))
        (mkCell region i (a_shift config)) (mkCell region i (b_shift config))) <$> seq 0 (length terms) ∧
      ∀ i x y acc, terms !! i = Some (x, y) → sums !! i = Some acc → dot_row region i x y acc).
Proof using All.
  intros Hcs Hag Hin Hp. destruct (partial_sums_Ok _ _ _ Hp) as [Hlen _].
  apply (wp_defer _ _ (dot_call region (length terms))).
  - eapply (wp_rows _ _ _ _ (λ i '((x, y), acc), dot_row region i x y acc)).
    + intros i [[x y] acc] ([x' y'] & s' & [= <- <- <-] & Hx & Hs)%lookup_zip_with_Some.
      pose proof (lookup_lt_Some _ _ _ Hx). rewrite Forall_lookup in Hin. destruct (Hin _ _ Hx) as [Hxi Hyi].
      unfold shifted_i64_witness. do 2 (wp_step; [done|]). wp_step; [simpl; auto|]. do 3 (wp_step; [done|]). apply wp_nest.
      apply (wp_conseq _ _ _ _ (λ _, True)); [by destruct i; apply wp_enable; simpl; auto with lia|].
      intros _ _. wp_step. split; [done|].
      split_and!; [by eapply plain_assigned..|by eapply shifted_assigned|by eapply shifted_assigned|by eapply assigned_i128].
    + intros Hrows. rewrite length_zip_with, Hlen, Nat.min_id. split; [done|]. intros i x y acc Hx Hs.
      apply (Hrows i ((x, y), acc)). by rewrite lookup_zip_with, Hx; simpl; rewrite Hs.
  - intros rows [s rg o| | | | |] [_ Hcells] Hc; try done. destruct Hc as (-> & Ho & [->| ->]).
    + destruct (lookup_lt_is_Some_2 terms o Ho) as [[x y] Hx].
      destruct (lookup_lt_is_Some_2 sums o) as [acc Hs]; [lia|]. by eapply dot_shift_complete, Hcells.
    + by apply acc_row_complete, (acc_row_honest _ terms sums).
Qed.

(** The last row of an honest region. *)
Lemma last_row_complete region terms sums quot rem :
  cs_ok cs → agrees planner grid log → length sums = length terms → length terms = k config → (0 < k config)%nat →
  (∀ i x y acc, terms !! i = Some (x, y) → sums !! i = Some acc → dot_row region i x y acc) →
  requantize_raw (default 0 (last sums)) = Ok (quot, rem) →
  Assign (mkCell region (k config - 1) (q config)) (Some (i128_to_fr (raw quot + SIGNED_SHIFT))) ∈ log →
  Assign (mkCell region (k config - 1) (r config)) (Some (i128_to_fr rem)) ∈ log →
  Assign (mkCell region (k config - 1) (slack config)) (Some (i128_to_fr (SCALE_18 - 1 - rem))) ∈ log →
  shifted (mkCell region (k config - 1) (q config)) (raw quot) ∧
  val (mkCell region (k config - 1) (r config)) = fr rem ∧
  val (mkCell region (k config - 1) (slack config)) = fr (SCALE_18 - 1 - rem) ∧
  call_ok planner grid cs log (Enable (s_final config) region (k config - 1)) ∧
  call_ok planner grid cs log (Enable (s_slack config) region (k config - 1)).
Proof using Hinst.
  intros Hcs Hag Hls Hlen Hpos Hcells (Hqi & Esum & Hr)%requantize_raw_Ok Hq Hrem Hsl.
  destruct (lookup_lt_is_Some_2 terms (k config - 1)) as [[x y] Hlast]; [lia|].
  destruct (lookup_lt_is_Some_2 sums (k config - 1)) as [acc Hacc]; [lia|].
  destruct (Hcells _ _ _ _ Hlast Hacc) as (_ & _ & _ & _ & Hav).
  assert (default 0 (last sums) = acc) as Elast.
  { rewrite last_lookup. replace (pred (length sums)) with (k config - 1)%nat by lia. by rewrite Hacc. }
  rewrite Elast in Esum.
  assert (shifted (mkCell region (k config - 1) (q config)) (raw quot)) as Hqc by (by eapply shifted_assigned).
  assert (val (mkCell region (k config - 1) (r config)) = fr rem) as Hrc by (by eapply assigned_i128).
  assert (val (mkCell region (k config - 1) (slack config)) = fr (SCALE_18 - 1 - rem)) as Hsc by (by eapply assigned_i128).
  split_and!; [done..| |]; by apply (last_gates_complete region (k config - 1) acc (raw quot) rem).
Qed.

Definition honest_links (row : (I18 * I18) * (Cell * Cell)) (l : list (Cell * Cell)) : Prop :=
  ∃ ca cb, l = [(row.2.1, ca); (row.2.2, cb)] ∧ shifted ca (raw row.1.1) ∧ shifted cb (raw row.1.2).

Lemma operand_ranges_complete rows :
  table_loaded → cs_ok cs → agrees planner grid log → Forall (λ p, in_I18 p.1.1 ∧ in_I18 p.1.2) rows →
  wp log (call_ok planner grid cs log) (lay_map (λ '(x, y, (a_cell, b_cell)),
    let '(a_shift_fr, a_shift_raw) := shifted_i64_witness (raw x) in
    let$ cell_a := lay_try (F := DotProductError ErrorFront) (LookupRangeCheck.assign (range_a config) a_shift_fr a_shift_raw) in
    let '(b_shift_fr, b_shift_raw) := shifted_i64_witness (raw y) in
    let$ cell_b := lay_try (LookupRangeCheck.assign (range_b config) b_shift_fr b_shift_raw) in
    lay_ret [(a_cell, cell_a); (b_cell, cell_b)]) rows)
    (Forall2 honest_links rows).
Proof using All.
  intros [Ht1 Ht2] Hcs Hag Hin.
  apply (wp_map _ _ _ honest_links); [|done]. intros [[x y] [ac bc]] Hrow.
  rewrite Forall_forall in Hin. destruct (Hin _ Hrow) as [Hx Hy]. unfold shifted_i64_witness. cbn [fst snd] in *.
  eapply wp_bind; [apply wp_try, lookup64_complete; [apply Hinst..|done|done|done|done]|]. intros ca Hca.
  eapply wp_bind; [apply wp_try, lookup64_complete; [apply Hinst..|done|done|done|done]|]. intros cb Hcb.
  apply wp_ret. by exists ca, cb.
Qed.

(** The links of an honest region. *)
Lemma links_complete region terms sums ls :
  length sums = length terms →
  (∀ i x y acc, terms !! i = Some (x, y) → sums !! i = Some acc → dot_row region i x y acc) →
  Forall2 honest_links
    (zip terms (zip ((λ i, mkCell region i (a_shift config)) <$> seq 0 (length terms))
      ((λ i, mkCell region i (b_shift config)) <$> seq 0 (length terms)))) ls →
  Forall (λ p, val p.1 = val p.2) (concat ls).
Proof using Type.
  intros Hlen Hcells Hls. apply Forall_forall. intros p Hp. rewrite list_elem_of_In in Hp.
  apply in_concat in Hp as (l & Hl & Hp). apply list_elem_of_In in Hl.
  apply list_elem_of_lookup in Hl as [i Hi]. destruct (Forall2_lookup_r _ _ _ _ _ Hls Hi) as ([[x y] [ac bc]] & Hrow & Hq).
  destruct Hq as (ca & cb & -> & Hca & Hcb). cbn [fst snd] in *.
  apply lookup_zip_with_Some in Hrow as (? & ? & [= <- <-] & Hx & Hrow).
  apply lookup_zip_with_Some in Hrow as (? & ? & [= <- <-] & Hac & Hbc).
  apply list_lookup_fmap_Some in Hac as (j & -> & [-> Hj]%lookup_seq).
  apply list_lookup_fmap_Some in Hbc as (j & -> & [-> _]%lookup_seq). cbn [Nat.add] in *.
  destruct (lookup_lt_is_Some_2 sums i) as [acc Hs]; [lia|].
  destruct (Hcells _ _ _ _ Hx Hs) as (_ & _ & Hxs & Hys & _).
  destruct Hp as [<-|[<-|[]]]; by eapply shifted_eq.
Qed.

Lemma dot_complete a_vals b_vals :
  table_loaded → cs_ok cs → agrees planner grid log → Forall in_I18 a_vals → Forall in_I18 b_vals →
  wp log (call_ok planner grid cs log) (assign config a_vals b_vals)
    (λ v, ∃ r0, requantize_raw (zsum (products (raw <$> a_vals) (raw <$> b_vals))) = Ok (v, r0)).
Proof using All.
  intros Ht Hcs Hag Ha Hb. unfold assign. apply wp_if; [intros _; apply wp_err|].
  intros [Hla%Nat.eqb_eq Hlb%Nat.eqb_eq]%negb_false_iff%andb_true_iff.
  set (terms := zip a_vals b_vals). assert (length terms = k config) as Hlen by (unfold terms; rewrite length_zip_with; lia).
  assert (Forall (λ p, in_I18 p.1 ∧ in_I18 p.2) terms) as Hin by (by apply typed_terms).
  wp_step. rename a0 into sums. destruct (partial_sums_Ok _ _ _ H) as [Hls _].
  apply wp_nest, wp_lift. intros [quot rem] Hq. apply map_err_Ok in Hq. unfold shifted_i64_witness.
  pose proof Hq as (Hqi & _ & Hr)%requantize_raw_Ok.
  apply wp_nest, wp_try, wp_region. intros region.
  eapply wp_bind; [by apply (rows_complete (λ _ _ a_cell b_cell, (a_cell, b_cell)))|]. intros rows [-> Hcells].
  apply wp_if; [intros _; apply wp_panic|]. intros Hpos%Nat.eqb_neq. rewrite fmap_pair_1, fmap_pair_2. wp_honest.
  edestruct (last_row_complete region terms sums quot rem) as (Hqc & Hrc & Hsc & Hfin & Hslack); try done; [lia|].
  split_and?; [|done..]. eapply wp_bind.
  { apply operand_ranges_complete; [done..|]. apply Forall_lookup. intros i [p c] (? & ? & [= <- <-] & Hx & _)%lookup_zip_with_Some.
    rewrite Forall_lookup in Hin. by apply (Hin i). }
  intros ls Hlinks. apply (links_complete region terms sums) in Hlinks; [|lia|done].
  eapply wp_bind; [apply wp_try, range64_complete; [apply Hinst..|done|done|done]|]. intros ? ?.
  do 2 (eapply wp_bind; [apply wp_try, range60_complete; [apply Hinst..|done|done|unfold SCALE_18 in *; lia]|]; intros ? ?).
  cbn beta in *. apply wp_nest, wp_try. wp_honest; [by eapply shifted_eq|by etrans..|].
  apply (wp_iter _ _ _ (λ _, True)).
  { intros [c1 c2] Hc. rewrite Forall_forall in Hlinks. apply wp_equal; [|done]. by apply (Hlinks (c1, c2)). }
  intros _. wp_step. exists rem. by rewrite <-(total_sum _ _ _ H).
Qed.

Lemma dot_alike a_vals b_vals a_vals' b_vals' :
  alike (λ _ _, True) (assign config a_vals b_vals) (assign config a_vals' b_vals').
Proof using Type.
  unfold assign. apply alike_if; [|intros _ ? ? ? ? _ [=]|intros _ ? ? ? ? _ _ [=]].
  intros [Hla%Nat.eqb_eq Hlb%Nat.eqb_eq]%negb_false_iff%andb_true_iff.
  intros [Hla'%Nat.eqb_eq Hlb'%Nat.eqb_eq]%negb_false_iff%andb_true_iff.
  eapply alike_bind.
  { apply (alike_lift (λ p p', length p = k config ∧ length p' = k config)).
    intros p p' [Hp _]%partial_sums_Ok [Hp' _]%partial_sums_Ok. rewrite length_zip_with in *. lia. }
  intros p p' [Hp Hp']. cbn beta. unfold shifted_i64_witness. repeat alike_step. eapply (alike_bind eq).
  - apply alike_try. alike_step. eapply alike_bind.
    { apply alike_rows; [rewrite !length_zip_with; lia|]. intros j [[x y] s] [[x' y'] s']. repeat alike_step.
      eapply alike_bind; [destruct (j =? 0)%nat; apply alike_enable|]. intros _ _ _. by repeat alike_step. }
    intros rows rows' <-. destruct (_ =? 0)%nat; [apply alike_panic|]. by repeat alike_step.
  - intros [[[[c1 c2] c3] l1] l2] _ <-. cbn beta iota. eapply (alike_bind eq).
    { eapply alike_conseq; [apply (alike_map (λ p p', p.2 = p'.2) eq)|].
      - apply Forall2_same_length_lookup_2; [rewrite !length_zip_with; lia|].
        intros j [t c] [t' c'] (? & ? & [= <- <-] & _ & Hc)%lookup_zip_with_Some (? & ? & [= <- <-] & _ & Hc')%lookup_zip_with_Some.
        simpl. congruence.
      - intros [[x y] [c c']] [[x' y'] [d d']] E0. cbn [fst snd] in E0. injection E0 as <- <-.
        do 2 (eapply alike_bind; [apply alike_try, lookup_assign_alike|intros ? ? <-]). by alike_step.
      - intros ys ys' Hys. by apply list_eq_Forall2. }
    intros ls _ <-. do 3 (eapply alike_bind; [apply alike_try, range_assign_alike|intros ? ? <-]).
    eapply alike_bind; [apply alike_try; repeat alike_step|intros _ _ _; by alike_step].
    apply alike_iter_refl. intros [? ?]. apply alike_equal.
Qed.
End Proofs.

End DotProduct.
