(* ===== verification/Lookup.v ===== *)
(** * Function tables

    zkie-core/src/chips/lookup.rs and gelu.rs: an input and an output that are a
    row of a table of a quantized function.  Rows where the chip is off look up
    a reserved padding row. *)
From Stdlib Require Import SpecFloat.
From S2P Require Import Prelude Field FixedPoint Circuit CircuitLogic Eltwise EltwiseProofs Shape.

Open Scope Z_scope.

Module Lookup.

Definition PAD_INPUT_RAW : Z := i64_min.
Definition PAD_OUTPUT_RAW : Z := 0.

Inductive LookupError {E : Type} :=
| InputNotInDomain (input : I18)
| LookupSynthesis (e : E).
Arguments LookupError : clear implicits.

#[export] Instance From_LookupError {E} : From E (LookupError E) := LookupSynthesis.

Record LookupConfig := mkLookupConfig {
  input : Column;
  output : Column;
  lookup_sel : Selector;
  table_input : TableColumn;
  table_output : TableColumn
}.

Record LookupChip := mkLookupChip { lookup_config : LookupConfig; domain : list (I18 * I18) }.

Definition function_lookup (input output : Column) (s : Selector) (table_input table_output : TableColumn) : Lookup :=
  mkLookup "input/output is a row of the function table" s (λ s query,
    let one := fr 1 in
    let input_expr := query input cur in
    let output_expr := query output cur in
    let pad_input := i64_to_fr PAD_INPUT_RAW in
    let pad_output := i64_to_fr PAD_OUTPUT_RAW in
    [(s * input_expr + (one - s) * pad_input, table_input);
     (s * output_expr + (one - s) * pad_output, table_output)]%Zmod).

Definition configure (input output : Column) : Meta LookupConfig :=
  let& _ := enable_equality input in
  let& _ := enable_equality output in
  let& selector := complex_selector in
  let& table_input := lookup_table_column in
  let& table_output := lookup_table_column in
  let& _ := lookup_argument (function_lookup input output selector table_input table_output) in
  meta_ret (mkLookupConfig input output selector table_input table_output).

(** [None] is the failed [assert_eq!]. *)
Definition construct (config : LookupConfig) (domain values : list I18) : option LookupChip :=
  if (length domain =? length values)%nat then Some (mkLookupChip config (zip domain values)) else None.

(** The first pair of the domain with this input. *)
Definition find_output (chip : LookupChip) (x : I18) : option I18 :=
  snd <$> find (λ p, raw p.1 =? raw x) (domain chip).

Section Assign.
Context `{Layouter} (chip : LookupChip).
Let config := lookup_config chip.

Definition load_table : Lay ErrorFront unit :=
  let$ _ := lay_iter (λ '(i, (x, y)),
    let$ _ := assign_cell (table_input config) i (i64_to_fr (raw x)) in
    assign_cell (table_output config) i (i64_to_fr (raw y))) (enumerate (domain chip)) in
  let pad_row := length (domain chip) in
  let$ _ := assign_cell (table_input config) pad_row (i64_to_fr PAD_INPUT_RAW) in
  assign_cell (table_output config) pad_row (i64_to_fr PAD_OUTPUT_RAW).

Definition assign_with_witness_mode (x : I18) (witnesses_known : bool) : Lay (LookupError ErrorFront) (I18 * Cell) :=
  let$ y := lay_lift (ok_or (find_output chip x) (InputNotInDomain x)) in
  let$ output_cell := lay_try (assign_region (λ region,
    let$ _ := enable (lookup_sel config) region 0 in
    let$ _ := assign_advice (input config) region 0 (witness_value witnesses_known (Some (i64_to_fr (raw x)))) in
    assign_advice (output config) region 0 (witness_value witnesses_known (Some (i64_to_fr (raw y)))))) in
  lay_ret (y, output_cell).

Definition assign (x : I18) : Lay (LookupError ErrorFront) (I18 * Cell) := assign_with_witness_mode x true.
End Assign.

(** ** Domains *)

Definition f64_add : f64 → f64 → f64 := SFadd 53 1024.
Definition f64_sub : f64 → f64 → f64 := SFsub 53 1024.

(** [None] is a failed [expect]. *)
Definition expect {A E} (r : Result A E) : option A := match r with Ok a => Some a | Err _ => None end.

Definition build_domain_from_raw (f : f64 → f64) (raw_points : list Z) : option (list I18 * list I18) :=
  let domain := from_raw <$> raw_points in
  values ← mapM (λ d, expect (from_f64 (f (to_f64 d)))) domain;
  Some (domain, values).

Definition build_domain (f : f64 → f64) (min max : f64) (n : nat) : option (list I18 * list I18) :=
  if (n =? 0)%nat then None else
  points ← mapM (λ i,
    let t := if (n =? 1)%nat then f64_of_Z 0 else f64_div (f64_of_Z (Z.of_nat i)) (f64_of_Z (Z.of_nat (n - 1))) in
    let x := f64_add min (f64_mul t (f64_sub max min)) in
    let y := f x in
    dx ← expect (from_f64 x); dy ← expect (from_f64 y); Some (dx, dy)) (seq 0 n);
  Some (points.*1, points.*2).

End Lookup.

(** ** GELU

    [exp] is the platform's [f64::exp]. *)

Module Gelu.
Import Lookup.

(** A decimal literal: [n / 10^d], correctly rounded. *)
Definition literal (n : Z) (d : nat) : f64 := f64_div (f64_of_Z n) (f64_of_Z (10 ^ Z.of_nat d)).
Definition P : f64 := literal 3275911 7.
Definition A1 : f64 := literal 254829592 9.
Definition A2 : f64 := literal (-284496736) 9.
Definition A3 : f64 := literal 1421413741 9.
Definition A4 : f64 := literal (-1453152027) 9.
Definition A5 : f64 := literal 1061405429 9.
(** [std::f64::consts::SQRT_2]. *)
Definition SQRT_2 : f64 := S754_finite false 6369051672525773 (-52).

Section Erf.
Context (exp : f64 → f64).

Definition erf_approx (x : f64) : f64 :=
  let sign := if SFltb x (f64_of_Z 0) then f64_of_Z (-1) else f64_of_Z 1 in
  let x := SFabs x in
  let one := f64_of_Z 1 in
  let t := f64_div one (f64_add one (f64_mul P x)) in
  let poly := f64_mul (f64_add (f64_mul (f64_add (f64_mul (f64_add (f64_mul (f64_add (f64_mul A5 t) A4) t) A3) t) A2) t) A1) t in
  let y := f64_sub one (f64_mul poly (exp (f64_mul (SFopp x) x))) in
  f64_mul sign y.

Definition gelu_f64 (x : f64) : f64 :=
  f64_mul (f64_mul (f64_div (f64_of_Z 1) (f64_of_Z 2)) x) (f64_add (f64_of_Z 1) (erf_approx (f64_div x SQRT_2))).

Record GeluConfig := mkGeluConfig { gelu_lookup : LookupConfig; gelu_input : Column; gelu_output : Column }.

Definition configure (input output : Column) : Meta GeluConfig :=
  let& lookup := configure input output in
  meta_ret (mkGeluConfig lookup input output).

Definition construct (config : GeluConfig) (domain_min domain_max : f64) (n : nat) : option LookupChip :=
  '(domain, values) ← build_domain gelu_f64 domain_min domain_max n;
  construct (gelu_lookup config) domain values.

Definition load_table `{Layouter} (inner : LookupChip) : Lay ErrorFront unit := load_table inner.

Definition assign `{Layouter} (inner : LookupChip) (x : I18) : Lay (LookupError ErrorFront) I18 :=
  let$ '(value, _) := assign inner x in lay_ret value.
End Erf.

End Gelu.

(** ** Function tables: soundness and completeness

    An accepted pair is a row of the table: a point of the domain with its
    value, or the padding row. *)
Import Lookup.

Open Scope Z_scope.

(** The rows of the table: the domain, then the padding. *)
Definition table_rows (chip : LookupChip) : list (I18 * I18) :=
  domain chip ++ [(I18_ PAD_INPUT_RAW, I18_ PAD_OUTPUT_RAW)].

Definition in_domain (chip : LookupChip) : Prop := Forall (λ p, in_I18 p.1 ∧ in_I18 p.2) (domain chip).

(** The table holds these rows only, or all of them. *)
Definition table_sound (log : list Call) (chip : LookupChip) : Prop :=
  ∀ i v w, Table (table_input (lookup_config chip)) i v ∈ log → Table (table_output (lookup_config chip)) i w ∈ log →
    ∃ p, p ∈ table_rows chip ∧ v = fr (raw p.1) ∧ w = fr (raw p.2).
Definition table_complete (log : list Call) (chip : LookupChip) : Prop :=
  ∀ i p, table_rows chip !! i = Some p →
    Table (table_input (lookup_config chip)) i (fr (raw p.1)) ∈ log ∧
    Table (table_output (lookup_config chip)) i (fr (raw p.2)) ∈ log.

Definition fn_installed (cs : ConstraintSystem) (config : LookupConfig) : Prop :=
  function_lookup (input config) (output config) (lookup_sel config) (table_input config) (table_output config)
    ∈ cs_lookups cs.

Lemma fn_configure_ok final i o : mwp final (configure i o) (λ config,
  fn_installed final config ∧ input config = i ∧ output config = o).
Proof.
  unfold configure. do 2 (eapply mwp_bind; [by apply (mwp_equality _ _ (λ _, True))|intros []]).
  apply (mwp_lookup2 _ (function_lookup i o)); [lookup_off|]. intros s t u. by apply mwp_ret.
Qed.

Lemma find_output_Some chip x y :
  find_output chip x = Some y → (x, y) ∈ domain chip.
Proof.
  unfold find_output. intros ([x' y'] & Hf & [= ->])%fmap_Some. apply find_some in Hf as [Hin E].
  apply Z.eqb_eq in E. simpl in E. destruct x as [x], x' as [x'']. unfold raw in E. simpl in E. subst x''.
  by apply list_elem_of_In.
Qed.

(** On a domain without repeated points the table is the function. *)
Lemma find_output_unique chip x y :
  NoDup (domain chip).*1 → (x, y) ∈ domain chip → find_output chip x = Some y.
Proof.
  unfold find_output. intros Hnd Hin. induction (domain chip) as [|[x' y'] l IH]; [by apply not_elem_of_nil in Hin|].
  simpl in *. apply NoDup_cons in Hnd as [Hx Hnd]. destruct (Z.eqb_spec (raw x') (raw x)) as [E|Hne].
  - destruct x as [x], x' as [x'']. unfold raw in E. simpl in E. subst x''. simpl. f_equal.
    apply elem_of_cons in Hin as [[= <-]|Hin]; [done|]. destruct Hx. apply list_elem_of_fmap. by exists (I18_ x, y).
  - apply elem_of_cons in Hin as [[= -> ->]|Hin]; [done|]. by apply IH.
Qed.

Lemma construct_Some config xs ys chip :
  construct config xs ys = Some chip → lookup_config chip = config ∧ domain chip = zip xs ys.
Proof. unfold construct. destruct (_ =? _)%nat; [|done]. by intros [= <-]. Qed.

Lemma construct_in_domain config xs ys chip :
  construct config xs ys = Some chip → Forall in_I18 xs → Forall in_I18 ys → in_domain chip.
Proof.
  intros [_ E]%construct_Some Hx Hy. unfold in_domain. rewrite E. apply Forall_lookup.
  intros i p (x & y & -> & Hi & Hj)%lookup_zip_with_Some. rewrite Forall_lookup in Hx, Hy. split; [by eapply Hx|by eapply Hy].
Qed.

Lemma expect_in_range x d : expect (from_f64 x) = Some d → in_I18 d.
Proof. destruct (from_f64 x) eqn:E; [|done]. intros [= <-]. by eapply from_f64_in_I18. Qed.

(** The domains the code builds hold [i64] numbers. *)
Lemma build_domain_in_range f lo hi n xs ys :
  build_domain f lo hi n = Some (xs, ys) → Forall in_I18 xs ∧ Forall in_I18 ys.
Proof.
  unfold build_domain. destruct (n =? 0)%nat; [done|]. intros (points & Hp & [= <- <-])%bind_Some. apply mapM_Some in Hp.
  split; apply Forall_fmap, Forall_lookup; intros i p Hi; destruct (Forall2_lookup_r _ _ _ _ _ Hp Hi) as (j & _ & Hj);
    apply bind_Some in Hj as (dx & Hx & (dy & Hy & [= <-])%bind_Some); by eapply expect_in_range.
Qed.

Lemma build_from_raw_in_range f raws xs ys :
  build_domain_from_raw f raws = Some (xs, ys) → Forall in_i64 raws → Forall in_I18 xs ∧ Forall in_I18 ys.
Proof.
  unfold build_domain_from_raw. intros (values & Hv & [= <- <-])%bind_Some Hin. apply mapM_Some in Hv. split.
  - apply Forall_fmap. exact Hin.
  - apply Forall_lookup. intros i y Hi. destruct (Forall2_lookup_r _ _ _ _ _ Hv Hi) as (x & _ & Hx). by eapply expect_in_range.
Qed.

Section Proofs.
Context `{L : Layouter} (planner : nat → Z) (grid : Column → Z → Fr) (cs : ConstraintSystem) (log : list Call).
Context (chip : LookupChip) (Hinst : fn_installed cs (lookup_config chip)) (Hdom : in_domain chip).

Notation val := (cell_value planner grid).
Notation plain := (plain planner grid).
Notation config := (lookup_config chip).

Lemma fn_load_table_complete P : (∀ t i v, P (Table t i v)) → wp log P (load_table chip) (λ _, table_complete log chip).
Proof using Type.
  intros HP. unfold load_table.
  apply (wp_iter_then _ _ _ (λ '(i, (x, y)), Table (table_input config) i (fr (raw x)) ∈ log ∧
    Table (table_output config) i (fr (raw y)) ∈ log)).
  { intros [i [x y]] _. wp_step; [apply HP|]. apply wp_cell; [apply HP|]. rewrite !i64_to_fr_eq in *. by split. }
  intros Hrows. wp_step; [apply HP|]. apply wp_cell; [apply HP|]. rewrite !i64_to_fr_eq in *. intros Hout i p.
  unfold table_rows. intros [Hp|[Hi Hp]]%lookup_app_Some.
  - rewrite Forall_forall in Hrows. destruct p as [x y]. apply (Hrows (i, (x, y))). by apply elem_of_enumerate.
  - apply list_lookup_singleton_Some in Hp as [Hi0 <-]. replace i with (length (domain chip)) by lia. done.
Qed.

(** Every table call of a load is a row of the table. *)
Definition table_call (c : Call) : Prop :=
  ∀ t i v, c = Table t i v → ∃ p, table_rows chip !! i = Some p ∧
    ((t = table_input config ∧ v = fr (raw p.1)) ∨ (t = table_output config ∧ v = fr (raw p.2))).

Lemma fn_load_table_calls : wp log table_call (load_table chip) (λ _, True).
Proof using Type.
  unfold load_table. apply (wp_iter_then _ _ _ (λ _, True)).
  - intros [i [x y]] Hx%elem_of_enumerate.
    assert (table_rows chip !! i = Some (x, y)) as Hr by (by apply lookup_app_l_Some).
    wp_step; [|apply wp_cell; [|done]]; intros t j v [= <- <- <-]; rewrite i64_to_fr_eq; eauto 6.
  - intros _.
    assert (table_rows chip !! length (domain chip) = Some (I18_ PAD_INPUT_RAW, I18_ PAD_OUTPUT_RAW)) as Hr.
    { unfold table_rows. by rewrite lookup_app_r, Nat.sub_diag. }
    wp_step; [|apply wp_cell; [|done]]; intros t j v [= <- <- <-]; rewrite i64_to_fr_eq; eauto 6.
Qed.

Lemma table_calls_sound :
  table_input config ≠ table_output config → Forall table_call log → table_sound log chip.
Proof using Type.
  intros Hne Hall i v w Hv Hw. rewrite Forall_forall in Hall.
  destruct (Hall _ Hv _ _ _ eq_refl) as (p & Hp & [[_ ->]|[? _]]); [|done].
  destruct (Hall _ Hw _ _ _ eq_refl) as (p' & Hp' & [[? _]|[_ ->]]); [by destruct Hne|].
  rewrite Hp in Hp'. injection Hp' as <-. exists p. split; [by eapply list_elem_of_lookup_2|done].
Qed.

(** A looked-up pair: a point of the domain and its value, or the padding. *)
Definition is_row (ci co : Cell) : Prop :=
  ∃ p, p ∈ table_rows chip ∧ plain ci (raw p.1) ∧ plain co (raw p.2).

Lemma table_rows_in_range p : p ∈ table_rows chip → in_I18 p.1 ∧ in_I18 p.2.
Proof using Hdom.
  unfold table_rows. rewrite elem_of_app, list_elem_of_singleton. unfold in_domain in Hdom. rewrite Forall_forall in Hdom.
  intros [Hp| ->]; [by apply Hdom|]. done.
Qed.

Lemma fn_row_sound region :
  log_ok planner grid cs log → table_sound log chip → Enable (lookup_sel config) region 0 ∈ log →
  is_row (mkCell region 0 (input config)) (mkCell region 0 (output config)).
Proof using All.
  intros Hok Ht Hin. pose proof (lookup_on _ _ _ _ _ _ _ Hok Hinst Hin) as [i Hi].
  simpl lookup_inputs in Hi. cbv zeta in Hi. rewrite !advice_cur, fr_1 in Hi.
  apply Forall_cons in Hi as [Hx Hi]. apply Forall_cons in Hi as [Hy _]. cbn [fst snd] in *.
  destruct (Ht _ _ _ Hx Hy) as (p & Hp & Ex & Ey). destruct (table_rows_in_range p Hp) as [Hpx Hpy].
  exists p. split; [done|]. split; (split; [done|]).
  - rewrite <-Ex. ring.
  - rewrite <-Ey. ring.
Qed.

Lemma fn_assign_sound x known :
  log_ok planner grid cs log → table_sound log chip →
  wp log (λ _, True) (assign_with_witness_mode chip x known)
    (λ '(_, c), is_row (mkCell (cell_region c) 0 (input config)) c).
Proof using All.
  intros Hok Ht. unfold assign_with_witness_mode. wp_sound. apply wp_nest, wp_try. wp_sound. cbn [cell_region].
  by apply fn_row_sound.
Qed.

Lemma fn_row_complete region x y :
  cs_ok cs → table_complete log chip → Lookup.find_output chip x = Some y →
  plain (mkCell region 0 (input config)) (raw x) → plain (mkCell region 0 (output config)) (raw y) →
  call_ok planner grid cs log (Enable (lookup_sel config) region 0).
Proof using Hinst.
  intros Hcs Ht Hf [_ Ex] [_ Ey]. apply (enable_lookup_ok _ _ _ _ _ _ _ Hcs Hinst).
  apply find_output_Some, list_elem_of_lookup in Hf as [i Hi].
  destruct (Ht i (x, y)) as [Hti Hto]; [by apply lookup_app_l_Some|]. cbn [fst snd] in *.
  exists i. simpl lookup_inputs. cbv zeta. rewrite !advice_cur, fr_1, Ex, Ey. repeat constructor; cbn [fst snd].
  - by replace (Zmod.one * fr (raw x) + (Zmod.one - Zmod.one) * i64_to_fr PAD_INPUT_RAW)%Zmod with (fr (raw x)) by ring.
  - by replace (Zmod.one * fr (raw y) + (Zmod.one - Zmod.one) * i64_to_fr PAD_OUTPUT_RAW)%Zmod with (fr (raw y)) by ring.
Qed.

(** An enabled row takes the padding pair too, whatever the function. *)
Lemma padding_accepted region :
  table_complete log chip → plain (mkCell region 0 (input config)) PAD_INPUT_RAW →
  plain (mkCell region 0 (output config)) PAD_OUTPUT_RAW →
  in_table log (lookup_inputs (function_lookup (input config) (output config) (lookup_sel config) (table_input config)
    (table_output config)) Zmod.one (advice_at grid (planner region + Z.of_nat 0))).
Proof using Type.
  intros Ht [_ Ex] [_ Ey]. exists (length (domain chip)).
  destruct (Ht (length (domain chip)) (I18_ PAD_INPUT_RAW, I18_ PAD_OUTPUT_RAW)) as [Hi Ho].
  { unfold table_rows. by rewrite lookup_app_r, Nat.sub_diag. }
  simpl lookup_inputs. cbv zeta. rewrite !advice_cur, fr_1, Ex, Ey. repeat constructor; cbn [fst snd raw I18_raw] in *.
  - by replace (Zmod.one * fr PAD_INPUT_RAW + (Zmod.one - Zmod.one) * i64_to_fr PAD_INPUT_RAW)%Zmod with (fr PAD_INPUT_RAW) by ring.
  - by replace (Zmod.one * fr PAD_OUTPUT_RAW + (Zmod.one - Zmod.one) * i64_to_fr PAD_OUTPUT_RAW)%Zmod with (fr PAD_OUTPUT_RAW) by ring.
Qed.

Lemma fn_assign_complete x :
  cs_ok cs → agrees planner grid log → table_complete log chip → in_I18 x →
  wp log (call_ok planner grid cs log) (assign chip x)
    (λ '(y, c), find_output chip x = Some y ∧ plain (mkCell (cell_region c) 0 (input config)) (raw x) ∧ plain c (raw y)).
Proof using All.
  intros Hcs Hag Ht Hx. unfold assign, assign_with_witness_mode, witness_value. wp_honest.
  apply ok_or_Ok in H. pose proof (find_output_Some _ _ _ H) as Hin.
  unfold in_domain in Hdom. rewrite Forall_forall in Hdom. destruct (Hdom _ Hin) as [_ Hy]. cbn [fst snd] in Hy.
  apply wp_nest, wp_try. wp_honest. cbn [cell_region].
  match goal with H1 : Assign (mkCell ?region 0 (input config)) _ ∈ _ |- _ =>
    assert (Hcx : plain (mkCell region 0 (input config)) (raw x)) by (by eapply plain_assigned);
    assert (Hcy : plain (mkCell region 0 (output config)) (raw a)) by (by eapply plain_assigned)
  end.
  split; [by wp_step|]. by eapply fn_row_complete.
Qed.

Lemma fn_assign_alike x known x' known' :
  alike (λ p p', p.2 = p'.2) (assign_with_witness_mode chip x known) (assign_with_witness_mode chip x' known').
Proof using Type.
  unfold assign_with_witness_mode. repeat alike_step.
  eapply (alike_bind eq); [apply alike_try; by repeat alike_step|intros ? ? <-]. by repeat alike_step.
Qed.

Lemma fn_assign_returns `{!Roomy L} x y known :
  find_output chip x = Some y → returns (assign_with_witness_mode chip x known) (λ '(v, _), v = y).
Proof using Type.
  intros Hf. unfold assign_with_witness_mode. rewrite Hf.
  eapply returns_bind; [by apply (returns_ret _ (λ p, p = y))|]. intros _ ->.
  eapply (returns_bind _ _ (λ _, True)); [apply returns_try; by repeat returns_step|]. intros c _. by repeat returns_step.
Qed.
End Proofs.
