(* ===== verification/EmbedLookup.v ===== *)
(** * Embedding lookup

    zkie-core/src/chips/embed_lookup.rs: one function table per output
    dimension, all queried with the same index.  Each dimension witnesses the
    index in a region of its own. *)
From S2P Require Import Prelude Field FixedPoint Circuit CircuitLogic Eltwise EltwiseProofs Shape Lookup.

Open Scope nat_scope.

Module EmbedLookup.

Inductive EmbedLookupError {E : Type} :=
| TableRowCountMismatch (expected got : nat)
| TableRowLengthMismatch (row expected got : nat)
| IndexOutOfRange (index table_size : nat)
| DimLookup (dim : nat) (source : Lookup.LookupError E)
| DimSynthesis (dim : nat) (source : E).
Arguments EmbedLookupError : clear implicits.

Record EmbedLookupConfig := mkEmbedLookupConfig {
  lookups : list Lookup.LookupConfig;
  table_size : nat;
  embed_dim : nat
}.

Definition configure (index : Column) (output_cols : list Column) (table_size embed_dim : nat) : Meta EmbedLookupConfig :=
  assert& 0 <? table_size in
  assert& 0 <? embed_dim in
  assert& length output_cols =? embed_dim in
  let& lookups := meta_map (λ output, Lookup.configure index output) output_cols in
  meta_ret (mkEmbedLookupConfig lookups table_size embed_dim).

Section Assign.
Context `{Layouter} (config : EmbedLookupConfig).

(** The first row of another length than [embed_dim]. *)
Definition validate_table_shape (embedding_table : list (list I18)) : Result unit (EmbedLookupError ErrorFront) :=
  if negb (length embedding_table =? table_size config)
  then Err (TableRowCountMismatch (table_size config) (length embedding_table))
  else match find (λ '(row, values), negb (length values =? embed_dim config)) (enumerate embedding_table) with
  | Some (row, values) => Err (TableRowLengthMismatch row (embed_dim config) (length values))
  | None => Ok tt
  end.

(** [None] is an index out of bounds or a failed assertion. *)
Definition lookup_chip_for_dim (dim : nat) (embedding_table : list (list I18)) : option Lookup.LookupChip :=
  let domain := (λ i, from_raw (Z.of_nat i)) <$> seq 0 (table_size config) in
  values ← mapM (λ row, row !! dim) embedding_table;
  lookup ← lookups config !! dim;
  Lookup.construct lookup domain values.

Definition load_table (embedding_table : list (list I18)) : Lay (EmbedLookupError ErrorFront) unit :=
  let$ _ := lay_lift (validate_table_shape embedding_table) in
  lay_iter (λ dim,
    let$ chip := lay_unwrap (lookup_chip_for_dim dim embedding_table) in
    lay_map_err (DimSynthesis dim) (Lookup.load_table chip)) (seq 0 (embed_dim config)).

Definition assign (index : nat) (embedding_table : list (list I18)) : Lay (EmbedLookupError ErrorFront) (list I18) :=
  let$ _ := lay_lift (validate_table_shape embedding_table) in
  if table_size config <=? index then lay_err (IndexOutOfRange index (table_size config)) else
  let index_i18 := from_raw (Z.of_nat index) in
  lay_map (λ dim,
    let$ chip := lay_unwrap (lookup_chip_for_dim dim embedding_table) in
    let$ '(out, _) := lay_map_err (DimLookup dim) (Lookup.assign chip index_i18) in
    lay_ret out) (seq 0 (embed_dim config)).
End Assign.

(** ** Facts *)

Lemma embed_configure_ok final index output_cols size dim :
  mwp final (configure index output_cols size dim) (λ config,
    Forall (fn_installed final) (lookups config) ∧ table_size config = size ∧ embed_dim config = dim ∧
    length (lookups config) = embed_dim config).
Proof.
  unfold configure. do 2 (apply mwp_assert; intros _). apply mwp_assert. intros Hlen%Nat.eqb_eq.
  eapply mwp_bind.
  { apply (mwp_map _ _ (λ _ c, fn_installed final c)). intros o. eapply mwp_conseq; [apply fn_configure_ok|]. by intros c []. }
  intros ls. apply mwp_ret. intros Hls. simpl. split_and!; [|done|done|].
  - apply Forall_lookup. intros i c Hi. by destruct (Forall2_lookup_r _ _ _ _ _ Hls Hi) as (? & _ & ?).
  - by rewrite <-(Forall2_length _ _ _ Hls).
Qed.

Section Facts.
Context `{L : Layouter} (config : EmbedLookupConfig) (table : list (list I18)).

Lemma validate_Ok u :
  validate_table_shape config table = Ok u ↔
  length table = table_size config ∧ Forall (λ row, length row = embed_dim config) table.
Proof.
  unfold validate_table_shape. destruct (Nat.eqb_spec (length table) (table_size config)) as [E|Hne]; simpl;
    [|by split; [|intros [? _]]].
  destruct (find _ _) as [[row values]|] eqn:F.
  - split; [done|]. intros [_ Hall]. apply find_some in F as [Hin Hb]. apply list_elem_of_In, elem_of_enumerate in Hin.
    rewrite Forall_lookup in Hall. rewrite (Hall _ _ Hin), Nat.eqb_refl in Hb. done.
  - split; [|by destruct u]. intros _. split; [done|]. apply Forall_lookup. intros i row Hrow.
    eapply find_none in F; [|by apply list_elem_of_In, elem_of_enumerate]. simpl in F.
    by apply negb_false_iff, Nat.eqb_eq in F.
Qed.

Context (Hrows : length table = table_size config) (Hdim : Forall (λ row, length row = embed_dim config) table).
Context (Hlookups : length (lookups config) = embed_dim config).

(** The table of one dimension is a column of the embedding table. *)
Lemma chip_for_dim dim :
  dim < embed_dim config → ∃ chip lookup, lookup_chip_for_dim config dim table = Some chip ∧
    lookups config !! dim = Some lookup ∧ Lookup.lookup_config chip = lookup ∧
    length (Lookup.domain chip) = table_size config ∧
    ∀ i p, Lookup.domain chip !! i = Some p ↔ ∃ row y, table !! i = Some row ∧ row !! dim = Some y ∧ p = (I18_ (Z.of_nat i), y).
Proof using Hdim Hlookups Hrows.
  intros Hd. unfold lookup_chip_for_dim.
  destruct (lookup_lt_is_Some_2 (lookups config) dim) as [lookup El]; [lia|]. rewrite El.
  assert (is_Some (mapM (λ row : list I18, row !! dim) table)) as [values Ev].
  { apply mapM_is_Some_2. eapply Forall_impl; [exact Hdim|]. cbn beta. intros row Hlen. apply lookup_lt_is_Some_2. lia. }
  rewrite Ev. simpl. pose proof (length_mapM _ _ _ Ev) as Hlen. apply mapM_Some in Ev.
  unfold Lookup.construct. rewrite length_fmap, length_seq.
  rewrite (proj2 (Nat.eqb_eq _ _)) by lia. eexists _, _. split_and!; [done..| |].
  - simpl. rewrite length_zip_with, length_fmap, length_seq. lia.
  - intros i p. simpl. split.
    + intros (x & y & -> & Hx & Hy)%lookup_zip_with_Some. apply list_lookup_fmap_Some in Hx as (j & -> & [-> Hj]%lookup_seq).
      destruct (Forall2_lookup_r _ _ _ _ _ Ev Hy) as (row & Hrow & Hy'). eauto.
    + intros (row & y & Hrow & Hy & ->). destruct (Forall2_lookup_l _ _ _ _ _ Ev Hrow) as (y' & Hv & E).
      rewrite Hy in E. injection E as <-. apply lookup_zip_with_Some. eexists _, _. split_and!; [done| |done].
      apply list_lookup_fmap_Some. exists i. split; [done|]. apply lookup_seq. split; [done|].
      apply lookup_lt_Some in Hrow. lia.
Qed.

(** The value the code finds is the entry of the table. *)
Lemma find_entry dim chip index row y :
  lookup_chip_for_dim config dim table = Some chip → dim < embed_dim config →
  table !! index = Some row → row !! dim = Some y →
  Lookup.find_output chip (from_raw (Z.of_nat index)) = Some y.
Proof using Hdim Hlookups Hrows.
  intros Hc Hd Hrow Hy. destruct (chip_for_dim dim Hd) as (chip' & lookup & Hc' & _ & _ & Hlen & Hdom).
  rewrite Hc in Hc'. injection Hc' as <-. apply find_output_unique.
  - apply NoDup_alt. intros i j x. rewrite !list_lookup_fmap.
    intros ((x1 & y1) & Hi & ->)%fmap_Some ((x2 & y2) & Hj & E)%fmap_Some.
    apply Hdom in Hi as (? & ? & _ & _ & [= -> _]). apply Hdom in Hj as (? & ? & _ & _ & [= -> _]).
    simpl in E. injection E as E. lia.
  - apply list_elem_of_lookup. exists index. apply Hdom. eauto.
Qed.

(** An in-range index returns its row. *)
Lemma embed_returns `{!Roomy L} index row :
  table !! index = Some row → returns (assign config index table) (λ out, out = row).
Proof using Hdim Hlookups Hrows.
  intros Hrow. unfold assign. destruct (validate_table_shape config table) as [[]|e] eqn:Ev.
  2:{ pose proof (proj2 (validate_Ok tt) (conj Hrows Hdim)). congruence. }
  eapply (returns_bind _ _ (λ _, True)); [by apply returns_ret|]. intros _ _.
  pose proof (lookup_lt_Some _ _ _ Hrow) as Hi. rewrite Hrows in Hi.
  rewrite (proj2 (Nat.leb_gt _ _) Hi). eapply returns_conseq.
  - apply (returns_map _ (λ dim out, row !! dim = Some out)). intros dim [_ Hd]%elem_of_seq.
    destruct (chip_for_dim dim) as (chip & lookup & Hc & _ & _ & _ & _); [lia|]. rewrite Hc.
    eapply returns_bind; [by apply (returns_ret _ (λ c, c = chip))|]. intros _ ->.
    assert (is_Some (row !! dim)) as [y Hy].
    { rewrite Forall_lookup in Hdim. apply lookup_lt_is_Some_2. rewrite (Hdim _ _ Hrow). lia. }
    eapply returns_bind; [apply (returns_map_err _ _ _ (fn_assign_returns chip _ y true (find_entry _ _ _ _ _ Hc ltac:(lia) Hrow Hy)))|].
    intros [v c] ->. by apply returns_ret.
  - intros out Hout. apply list_eq. intros i. destruct (row !! i) as [y|] eqn:E.
    + assert (i < embed_dim config) by (rewrite Forall_lookup in Hdim; rewrite <-(Hdim _ _ Hrow); by eapply lookup_lt_Some).
      destruct (Forall2_lookup_l _ _ _ i i Hout) as (y' & Ho & Hy'); [by apply lookup_seq|]. congruence.
    + apply lookup_ge_None in E. apply lookup_ge_None. rewrite <-(Forall2_length _ _ _ Hout), length_seq.
      rewrite Forall_lookup in Hdim. rewrite <-(Hdim _ _ Hrow). done.
Qed.

(** The same rows with an index of each dimension's own. *)
Definition assign_each (indices : list nat) : Lay (EmbedLookupError ErrorFront) (list I18) :=
  lay_map (λ '(dim, index),
    let$ chip := lay_unwrap (lookup_chip_for_dim config dim table) in
    let$ '(out, _) := lay_map_err (DimLookup dim) (Lookup.assign chip (from_raw (Z.of_nat index))) in
    lay_ret out) (enumerate indices).

Lemma assign_each_alike index indices :
  length indices = embed_dim config → alike (λ _ _, True) (assign config index table) (assign_each indices).
Proof using Type.
  intros Hlen. unfold assign. apply alike_host_l. intros [] _. destruct (_ <=? _); [apply alike_err_l|].
  eapply alike_conseq; [apply (alike_map (λ dim p, p.1 = dim) (λ _ _, True))|done].
  - apply Forall2_same_length_lookup_2; [by rewrite length_seq, length_enumerate|].
    intros i dim p [-> _]%lookup_seq. rewrite lookup_enumerate. by intros (x & _ & ->)%fmap_Some.
  - intros dim [? x] <-. cbn [fst]. eapply (alike_bind eq).
    { apply alike_unwrap. congruence. }
    intros chip _ <-. eapply alike_bind; [apply alike_map_err, fn_assign_alike|]. intros [] [] _. by repeat alike_step.
Qed.
End Facts.

(** ** Soundness *)

Section Proofs.
Context `{L : Layouter} (planner : nat → Z) (grid : Column → Z → Fr) (cs : ConstraintSystem) (log : list Call).
Context (config : EmbedLookupConfig) (table : list (list I18)).
Context (Hrows : length table = table_size config) (Hdim : Forall (λ row, length row = embed_dim config) table).
Context (Hlookups : length (lookups config) = embed_dim config).
Context (Hinst : Forall (fn_installed cs) (lookups config)).
Context (Hrange : Forall (Forall in_I18) table) (Hsize : (Z.of_nat (table_size config) ≤ 2 ^ 63)%Z).

Notation plain := (plain planner grid).

Lemma chip_in_domain dim chip :
  lookup_chip_for_dim config dim table = Some chip → dim < embed_dim config →
  in_domain chip ∧ fn_installed cs (Lookup.lookup_config chip).
Proof using Hdim Hinst Hlookups Hrange Hrows Hsize.
  intros Hc Hd. destruct (chip_for_dim config table Hrows Hdim Hlookups dim Hd) as (chip' & lookup & Hc' & El & Ecfg & _ & Hdom).
  rewrite Hc in Hc'. injection Hc' as <-. split.
  - apply Forall_lookup. intros i p Hp. apply Hdom in Hp as (row & y & Hrow & Hy & ->). cbn [fst snd].
    pose proof (lookup_lt_Some _ _ _ Hrow). rewrite Forall_lookup in Hrange. specialize (Hrange _ _ Hrow).
    rewrite Forall_lookup in Hrange. split; [|by eapply Hrange].
    unfold in_I18, in_i64, i64_min, i64_max. cbn [raw I18_raw]. lia.
  - rewrite Ecfg. rewrite Forall_lookup in Hinst. by eapply Hinst.
Qed.

(** A grid with other indices in other dimensions satisfies the same circuit. *)
Lemma assign_each_complete indices :
  cs_ok cs → agrees planner grid log → length indices = embed_dim config →
  Forall (λ index, index < table_size config) indices →
  (∀ dim chip, lookup_chip_for_dim config dim table = Some chip → table_complete log chip) →
  wp log (call_ok planner grid cs log) (assign_each config table indices) (λ _, True).
Proof using All.
  intros Hcs Hag Hlen Hin Ht. unfold assign_each. apply (wp_map _ _ _ (λ _ _, True)); [|done].
  intros [dim index] Hx%elem_of_enumerate. pose proof (lookup_lt_Some _ _ _ Hx) as Hd. rewrite Hlen in Hd.
  rewrite Forall_lookup in Hin. pose proof (Hin _ _ Hx) as Hi. cbn beta in Hi.
  apply wp_nest, wp_unwrap. intros chip Hc. destruct (chip_in_domain _ _ Hc Hd) as [Hdom Hi0].
  eapply wp_bind.
  { apply wp_map_err, (fn_assign_complete planner grid cs); [done|done|done|done|by eapply Ht|].
    unfold in_I18, in_i64, i64_min, i64_max, from_raw. cbn [raw I18_raw]. lia. }
  intros [v c] _. by apply wp_ret.
Qed.
End Proofs.

End EmbedLookup.
