(* ===== verification/Softmax.v ===== *)
(** * Softmax

    zkie-core/src/chips/softmax.rs: exponentials looked up, summed and divided,
    with every value copied between the three chips. *)
From S2P Require Import Prelude Field FixedPoint Circuit CircuitLogic RangeCheck Eltwise EltwiseProofs Shape Reduce Div Lookup.

Open Scope Z_scope.

Module Softmax.

Inductive SoftmaxError {E : Type} :=
| InputCountMismatch (expected got : nat)
| SoftmaxLookup (e : Lookup.LookupError E)
| SoftmaxDiv (e : Div.DivError E)
| SoftmaxCircuit (e : E).
Arguments SoftmaxError : clear implicits.

#[export] Instance From_Lookup {E} : From (Lookup.LookupError E) (SoftmaxError E) := SoftmaxLookup.
#[export] Instance From_Div {E} : From (Div.DivError E) (SoftmaxError E) := SoftmaxDiv.
#[export] Instance From_Circuit {E} : From E (SoftmaxError E) := SoftmaxCircuit.

Record SoftmaxConfig := mkSoftmaxConfig {
  lookup : Lookup.LookupConfig;
  sum : ReduceSum.ReduceSumConfig;
  div : Div.DivConfig;
  k : nat
}.

Record SoftmaxChip := mkSoftmaxChip { config : SoftmaxConfig; exp_lookup : Lookup.LookupChip }.

Definition configure (exp_input exp_output sum_values sum sum_shift div_numerator div_divisor div_q_shift div_r
    div_slack div_dm1 bits : Column) (k : nat) : Meta SoftmaxConfig :=
  assert& (1 <=? k)%nat in
  let& lookup := Lookup.configure exp_input exp_output in
  let& sum_config := ReduceSum.configure sum_values sum sum_shift bits k in
  let& div := Div.configure div_numerator div_divisor div_q_shift div_r div_slack div_dm1 bits in
  meta_ret (mkSoftmaxConfig lookup sum_config div k).

(** [exp] is the platform's [f64::exp]. *)
Definition construct (exp : f64 → f64) (config : SoftmaxConfig) (domain_min domain_max : f64) (n : nat) : option SoftmaxChip :=
  '(domain, values) ← Lookup.build_domain exp domain_min domain_max n;
  exp_lookup ← Lookup.construct (lookup config) domain values;
  Some (mkSoftmaxChip config exp_lookup).

Definition load_table `{Layouter} (chip : SoftmaxChip) : Lay ErrorFront unit := Lookup.load_table (exp_lookup chip).

Definition assign `{Layouter} (chip : SoftmaxChip) (inputs : list I18) : Lay (SoftmaxError ErrorFront) (list I18) :=
  let k := k (config chip) in
  if negb (length inputs =? k)%nat then lay_err (InputCountMismatch k (length inputs)) else
  let$ exps := lay_map (λ x, lay_try (Lookup.assign (exp_lookup chip) x)) inputs in
  let$ '(sum_value, sum_cell, value_cells) := lay_try (ReduceSum.assign (sum (config chip)) exps.*1) in
  let$ _ := lay_try (assign_region (λ _,
    lay_iter (λ '(exp_cell, value_cell), constrain_equal exp_cell value_cell) (zip exps.*2 value_cells))) in
  lay_map (λ '(e, exp_cell),
    let$ '(quotient, numerator_cell, divisor_cell) := lay_try (Div.assign (div (config chip)) e sum_value) in
    let$ _ := lay_try (assign_region (λ _,
      let$ _ := constrain_equal numerator_cell exp_cell in
      let$ _ := constrain_equal divisor_cell sum_cell in
      lay_ret tt)) in
    lay_ret quotient) exps.

(** ** Facts *)

Record installed (cs : ConstraintSystem) (config : SoftmaxConfig) : Prop := {
  so_lookup : fn_installed cs (lookup config);
  so_sum : sum_installed cs (sum config);
  so_div : Div.installed cs (div config);
  so_k : ReduceSum.k (sum config) = k config;
  so_pos : (1 ≤ k config)%nat
}.

Lemma softmax_configure_ok final c1 c2 c3 c4 c5 c6 c7 c8 c9 c10 c11 c12 k0 :
  mwp final (configure c1 c2 c3 c4 c5 c6 c7 c8 c9 c10 c11 c12 k0) (λ config, installed final config ∧ k config = k0).
Proof.
  unfold configure. apply mwp_assert. intros Hk%Nat.leb_le.
  eapply mwp_bind; [apply fn_configure_ok|intros lookup].
  eapply mwp_bind; [apply sum_configure_ok|intros sum_config].
  eapply mwp_bind; [apply Div.div_configure_ok|intros div].
  apply mwp_ret. intros ? (? & _ & <- & ?) (? & _ & _). by split.
Qed.

Lemma construct_chip exp c lo hi n chip :
  construct exp c lo hi n = Some chip →
  config chip = c ∧ Lookup.lookup_config (exp_lookup chip) = lookup c ∧ in_domain (exp_lookup chip).
Proof.
  unfold construct. intros ([xs ys] & Hb & (l & Hl & [= <-])%bind_Some)%bind_Some.
  apply build_domain_in_range in Hb as [Hx Hy]. split_and!; [done|by apply construct_Some in Hl as []|].
  by eapply construct_in_domain.
Qed.

Section Proofs.
Context `{L : Layouter} (planner : nat → Z) (grid : Column → Z → Fr) (cs : ConstraintSystem) (log : list Call).
Context (chip : SoftmaxChip) (Hinst : installed cs (config chip)) (Hlookup : Lookup.lookup_config (exp_lookup chip) = lookup (config chip)).

Notation plain := (plain planner grid).

Lemma exps_in_range inputs es :
  in_domain (exp_lookup chip) → mapM (Lookup.find_output (exp_lookup chip)) inputs = Some es → Forall in_I18 es.
Proof using Type.
  intros Hdom Hes%mapM_Some. apply Forall_lookup. intros i e Hi. destruct (Forall2_lookup_r _ _ _ _ _ Hes Hi) as (x & _ & Hf).
  apply find_output_Some in Hf. unfold in_domain in Hdom. rewrite Forall_forall in Hdom. by destruct (Hdom _ Hf).
Qed.

(** The values the code looks up. *)
Definition exps_of (inputs : list I18) : option (list I18) := mapM (Lookup.find_output (exp_lookup chip)) inputs.

Lemma lookups_return `{!Roomy L} inputs es :
  exps_of inputs = Some es →
  returns (lay_map (λ x, lay_try (F := SoftmaxError ErrorFront) (Lookup.assign (exp_lookup chip) x)) inputs)
    (λ exps, exps.*1 = es).
Proof using Type.
  intros Hes%mapM_Some. eapply returns_conseq.
  - apply (returns_map _ (λ x p, Lookup.find_output (exp_lookup chip) x = Some p.1)). intros x Hx.
    apply list_elem_of_lookup in Hx as [i Hi]. destruct (Forall2_lookup_l _ _ _ _ _ Hes Hi) as (e & _ & He).
    apply returns_try. eapply returns_conseq; [by apply (fn_assign_returns _ x e)|]. by intros [v c] ->.
  - intros exps Hexps. clear -Hes Hexps. revert es Hes. induction Hexps as [|x p l l' Hp _ IH]; intros es Hes.
    + by apply Forall2_nil_inv_l in Hes as ->.
    + apply Forall2_cons_inv_l in Hes as (e & es' & He & Hes & ->). simpl. f_equal; [congruence|by apply IH].
Qed.

(** Every run is in range or stops: too large a sum of exponentials panics. *)
Lemma sum_panics `{!Roomy L} inputs es lg :
  length inputs = k (config chip) → exps_of inputs = Some es → partial_sums es = None →
  assign chip inputs lg = None.
Proof using Hinst.
  intros Hlen Hes Hp. unfold assign. rewrite Hlen, Nat.eqb_refl. cbn [negb].
  destruct (lookups_return inputs es Hes lg) as (exps & n & calls & E1 & Hexps). unfold lay_bind at 1. rewrite E1.
  unfold lay_try, ReduceSum.assign, ReduceSum.assign_with_witness_mode at 1. rewrite Hexps.
  apply mapM_Some, Forall2_length in Hes. rewrite <-Hes, Hlen, (so_k _ _ Hinst), Nat.eqb_refl. cbn [negb].
  rewrite Hp. done.
Qed.

Lemma softmax_assign_complete inputs :
  cs_ok cs → agrees planner grid log → table_complete log (exp_lookup chip) → in_domain (exp_lookup chip) →
  Forall in_I18 inputs →
  wp log (call_ok planner grid cs log) (assign chip inputs) (λ outs, ∃ es s,
    exps_of inputs = Some es ∧ raw s = zsum (raw <$> es) ∧
    Forall2 (λ e out, ∃ r0, Div.div_quotient_remainder (E := ErrorFront) e s = Ok (out, r0)) es outs).
Proof using Hinst Hlookup.
  intros Hcs Hag Ht Hdom Hin. unfold assign. apply wp_if; [intros _; apply wp_err|].
  intros Hlen%negb_false_iff%Nat.eqb_eq.
  eapply (wp_bind _ _ _ _ (Forall2 (λ x p, Lookup.find_output (exp_lookup chip) x = Some p.1 ∧ plain p.2 (raw p.1)) inputs)).
  { apply (wp_map _ _ _ (λ x p, Lookup.find_output (exp_lookup chip) x = Some p.1 ∧ plain p.2 (raw p.1))); [|done].
    intros x Hx. rewrite Forall_forall in Hin. apply wp_try. eapply wp_conseq.
    - apply (fn_assign_complete planner grid cs); try done; [rewrite Hlookup; apply Hinst|by apply Hin].
    - intros [y c] (Hf & _ & Hc). done. }
  intros exps Hexps.
  assert (exps_of inputs = Some exps.*1 ∧ Forall in_I18 exps.*1) as [Hes Hesin].
  { split.
    - apply mapM_Some. apply Forall2_fmap_r. eapply Forall2_impl; [exact Hexps|]. by intros x p [].
    - apply Forall_fmap, Forall_lookup. intros i p Hp. destruct (Forall2_lookup_r _ _ _ _ _ Hexps Hp) as (x & _ & _ & Hv & _).
      done. }
  eapply wp_bind.
  { apply wp_try, (sum_complete planner grid cs); [apply Hinst|done|done|done]. }
  intros [[s sum_cell] value_cells] (Hs & Hsc & Hvc). cbn beta iota.
  assert (Forall (λ p, cell_value planner grid p.1 = cell_value planner grid p.2) (zip exps.*2 value_cells)) as Hlinks.
  { apply Forall_lookup. intros i p (ec & vc & -> & Hec & Hv)%lookup_zip_with_Some.
    apply list_lookup_fmap_Some in Hec as (p & -> & Hp).
    destruct (Forall2_lookup_r _ _ _ _ _ Hexps Hp) as (x & _ & _ & Hpc).
    destruct (Forall2_lookup_l _ _ _ _ _ Hvc Hv) as (z & Hz & Hvz).
    rewrite !list_lookup_fmap, Hp in Hz. injection Hz as <-. by eapply plain_eq. }
  eapply (wp_bind _ _ _ _ (λ _, True)).
  { apply wp_try. wp_honest. apply (wp_iter _ _ _ (λ _, True)); [|done]. intros [ec vc] Hc.
    rewrite Forall_forall in Hlinks. apply wp_equal; [|done]. by apply (Hlinks (ec, vc)). }
  intros _ _. eapply wp_conseq.
  - apply (wp_map _ _ _ (λ p out, ∃ r0, Div.div_quotient_remainder (E := ErrorFront) p.1 s = Ok (out, r0))); [|by intros ys Hys; exact Hys].
    intros [e ec] Hp. apply list_elem_of_lookup in Hp as [i Hi]. destruct (Forall2_lookup_r _ _ _ _ _ Hexps Hi) as (x & _ & _ & Hec).
    cbn [fst snd] in *. eapply wp_bind.
    { apply wp_try, (Div.div_complete planner grid cs); [apply Hinst|done|done| |].
      - by destruct Hec.
      - by destruct Hsc. }
    intros [[out nc] dc] (Hnc & Hdc & _ & Hr). cbn beta iota. apply wp_nest, wp_try. wp_honest.
    + by eapply plain_eq.
    + by eapply plain_eq.
    + done.
  - intros outs Houts. exists exps.*1, s. split_and!; [done|done|]. by apply Forall2_fmap_l.
Qed.
End Proofs.

End Softmax.
