(* ===== verification/Norm.v ===== *)
(** * Normalization

    zkie-core/src/chips/rms_norm.rs and layer_norm.rs: the two normalizations,
    composed of element-wise rows, means and a table of inverse square roots.
    Each block of [assign] is a definition of its own.  A value that moves from
    a shifted column to a plain one crosses an unshift bridge. *)
From Stdlib Require Import SpecFloat.
From S2P Require Import Prelude Field FixedPoint Circuit RangeCheck Eltwise Reduce Lookup.

Open Scope Z_scope.

(** ** Inverse square roots *)

Module Rsqrt.

Definition rsqrt_f64 (x : f64) : f64 := f64_div (f64_of_Z 1) (SFsqrt 53 1024 x).

Record RsqrtConfig := mkRsqrtConfig { rsqrt_lookup : Lookup.LookupConfig; rsqrt_input : Column; rsqrt_output : Column }.

Inductive RsqrtDomain :=
| Range (min max : f64) (n : nat)
| RawAnchors (raw_points : list Z).

Definition configure (input output : Column) : Meta RsqrtConfig :=
  let& lookup := Lookup.configure input output in
  meta_ret (mkRsqrtConfig lookup input output).

(** [assert!(min > 0.0)]. *)
Definition construct (config : RsqrtConfig) (domain_min domain_max : f64) (n : nat) : option Lookup.LookupChip :=
  if SFltb (f64_of_Z 0) domain_min then
    '(points, values) ← Lookup.build_domain rsqrt_f64 domain_min domain_max n;
    Lookup.construct (rsqrt_lookup config) points values
  else None.

Definition construct_with_domain (config : RsqrtConfig) (domain : RsqrtDomain) : option Lookup.LookupChip :=
  match domain with
  | Range min max n => construct config min max n
  | RawAnchors raw_points =>
      '(points, values) ← Lookup.build_domain_from_raw rsqrt_f64 raw_points;
      Lookup.construct (rsqrt_lookup config) points values
  end.

Definition assign_with_witness_mode `{Layouter} (inner : Lookup.LookupChip) (x : I18) (witnesses_known : bool)
    : Lay (Lookup.LookupError ErrorFront) I18 :=
  let$ '(value, _) := Lookup.assign_with_witness_mode inner x witnesses_known in lay_ret value.

End Rsqrt.

(** ** The unshift bridge *)

Definition unshift_gate (name : string) (unshift_in unshift_out : Column) (s_unshift : Selector) : Gate :=
  mkGate name s_unshift (λ s_unshift query,
    let shifted_expr := query unshift_in cur in
    let unshifted_expr := query unshift_out cur in
    let shift := i128_to_fr SIGNED_SHIFT in
    [s_unshift * (unshifted_expr + shift - shifted_expr)]%Zmod).

Definition unshift_row `{Layouter} (unshift_in unshift_out : Column) (s_unshift : Selector) (shifted_cell : Cell)
    (raw_value : Z) (witnesses_known : bool) : Lay ErrorFront Cell :=
  let '(shifted_fr, _) := shifted_i64_witness raw_value in
  let unshifted_fr := witness_value witnesses_known (Some (i64_to_fr raw_value)) in
  let$ '(shifted_copy_cell, unshifted_cell) := assign_region (λ region,
    let$ _ := enable s_unshift region 0 in
    let$ shifted_copy_cell := assign_advice unshift_in region 0 (witness_value witnesses_known shifted_fr) in
    let$ unshifted_cell := assign_advice unshift_out region 0 unshifted_fr in
    lay_ret (shifted_copy_cell, unshifted_cell)) in
  let$ _ := assign_region (λ _, constrain_equal shifted_copy_cell shifted_cell) in
  lay_ret unshifted_cell.

(** [epsilon_milli as f64 / 1000.0]. *)
Definition epsilon_of (epsilon_milli : Z) : option I18 := Lookup.expect (from_f64 (f64_milli epsilon_milli)).

(** ** RMS norm *)

Module RmsNorm.

Inductive RmsNormError {E : Type} :=
| InputCountMismatch (expected got : nat)
| RmsSynthesis (e : E)
| RmsRsqrt (e : Lookup.LookupError E).
Arguments RmsNormError : clear implicits.

#[export] Instance From_RmsNormError {E} : From E (RmsNormError E) := RmsSynthesis.

Record RmsNormConfig := mkRmsNormConfig {
  reduce_mean : ReduceMean.ReduceMeanConfig;
  add : EltwiseAddConfig;
  mul : EltwiseMulConfig;
  rsqrt : Rsqrt.RsqrtConfig;
  k : nat;
  epsilon : I18;
  rsqrt_domain : Rsqrt.RsqrtDomain;
  x_anchor : Column;
  weight_anchor : Column;
  unshift_in : Column;
  unshift_out : Column;
  s_unshift : Selector
}.

Record RmsNormChip := mkRmsNormChip { config : RmsNormConfig; rsqrt_chip : Lookup.LookupChip }.

Record RmsNormOutput := mkRmsNormOutput {
  outputs : list I18;
  output_cells : list Cell;
  input_cells : list Cell;
  weight_cells : list Cell
}.

Definition configure (values sum sum_shift mean_q mean_r mean_slack add_a add_b add_c mul_a mul_b mul_q mul_r mul_slack
    bits rsqrt_input rsqrt_output x_anchor weight_anchor unshift_in unshift_out : Column)
    (k : nat) (epsilon_milli : Z) (rsqrt_domain : Rsqrt.RsqrtDomain) : Meta RmsNormConfig :=
  assert& (1 <=? k)%nat in
  let& reduce_mean := ReduceMean.configure values sum sum_shift mean_q mean_r mean_slack bits k in
  let& add := add_configure add_a add_b add_c bits in
  let& mul := mul_configure mul_a mul_b mul_q mul_r mul_slack bits in
  let& rsqrt := Rsqrt.configure rsqrt_input rsqrt_output in
  match epsilon_of epsilon_milli with
  | None => meta_panic
  | Some epsilon =>
      let& _ := enable_equality x_anchor in
      let& _ := enable_equality weight_anchor in
      let& _ := enable_equality unshift_in in
      let& _ := enable_equality unshift_out in
      let& s_unshift := selector in
      let& _ := create_gate (unshift_gate "rms norm unshift bridge" unshift_in unshift_out s_unshift) in
      meta_ret (mkRmsNormConfig reduce_mean add mul rsqrt k epsilon rsqrt_domain x_anchor weight_anchor
        unshift_in unshift_out s_unshift)
  end.

Definition construct (config : RmsNormConfig) : option RmsNormChip :=
  rsqrt_chip ← Rsqrt.construct_with_domain (rsqrt config) (rsqrt_domain config);
  Some (mkRmsNormChip config rsqrt_chip).

Section Assign.
Context `{Layouter} (chip : RmsNormChip) (witnesses_known : bool).
Let config := config chip.

Definition load_table : Lay ErrorFront unit :=
  let$ _ := Lookup.load_table (rsqrt_chip chip) in
  load_mul_operand_range_table (mul config).

Definition unshift (shifted_cell : Cell) (raw_value : Z) : Lay ErrorFront Cell :=
  unshift_row (unshift_in config) (unshift_out config) (s_unshift config) shifted_cell raw_value witnesses_known.

Definition anchors (inputs weight : list I18) : Lay ErrorFront (list (Cell * Cell)) :=
  lay_map (λ '(x, w), assign_region (λ region,
    let$ xc := assign_advice (x_anchor config) region 0 (witness_value witnesses_known (Some (i64_to_fr (raw x)))) in
    let$ wc := assign_advice (weight_anchor config) region 0 (witness_value witnesses_known (Some (i64_to_fr (raw w)))) in
    lay_ret (xc, wc))) (zip inputs weight).

(** Step 1. *)
Definition square_rows (inputs : list I18) (x_anchor_cells : list Cell) : Lay ErrorFront (list (I18 * Cell)) :=
  lay_map (λ '(x, x_cell),
    let$ '(a_cell, b_cell, sq_cell) := assign_mul_row_with_witnesses (mul config) x x witnesses_known in
    let$ _ := assign_region (λ _,
      let$ _ := constrain_equal a_cell x_cell in
      let$ _ := constrain_equal b_cell x_cell in
      lay_ret tt) in
    let$ '(sq, _) := lay_expect (requantize_mul x x) in
    lay_ret (sq, sq_cell)) (zip inputs x_anchor_cells).

(** Step 2. *)
Definition mean_row (squares : list (I18 * Cell)) : Lay ErrorFront (I18 * Cell) :=
  let$ '(mean_sq, mean_sq_cell, sq_input_cells) :=
    ReduceMean.assign_with_witness_mode (reduce_mean config) squares.*1 witnesses_known in
  let$ _ := lay_iter (λ '((sq, sq_cell), sq_input_cell),
    let$ sq_unshifted_cell := unshift sq_cell (raw sq) in
    assign_region (λ _, constrain_equal sq_unshifted_cell sq_input_cell)) (zip squares sq_input_cells) in
  lay_ret (mean_sq, mean_sq_cell).

(** Step 3. *)
Definition epsilon_row (mean_sq : I18) (mean_sq_cell : Cell) : Lay ErrorFront (I18 * Cell) :=
  let$ '(vpe_a_cell, _, vpe_cell) :=
    assign_add_row_with_witnesses (add config) (raw mean_sq) (raw (epsilon config)) witnesses_known in
  let$ _ := assign_region (λ _, constrain_equal vpe_a_cell mean_sq_cell) in
  let$ vpe_raw := lay_unwrap (try_i64 (raw mean_sq + raw (epsilon config))) in
  lay_ret (from_raw vpe_raw, vpe_cell).

(** Step 4, after the host's lookup. *)
Definition rsqrt_row (vpe rsqrt_value : I18) (vpe_cell : Cell) : Lay ErrorFront Cell :=
  let$ vpe_unshifted_cell := unshift vpe_cell (raw vpe) in
  let$ '(rsqrt_input_cell, rsqrt_output_cell) := assign_region (λ region,
    let$ _ := enable (Lookup.lookup_sel (Rsqrt.rsqrt_lookup (rsqrt config))) region 0 in
    let$ input_cell := assign_advice (Rsqrt.rsqrt_input (rsqrt config)) region 0
      (witness_value witnesses_known (Some (i64_to_fr (raw vpe)))) in
    let$ output_cell := assign_advice (Rsqrt.rsqrt_output (rsqrt config)) region 0
      (witness_value witnesses_known (Some (i64_to_fr (raw rsqrt_value)))) in
    lay_ret (input_cell, output_cell)) in
  let$ _ := assign_region (λ _, constrain_equal rsqrt_input_cell vpe_unshifted_cell) in
  lay_ret rsqrt_output_cell.

(** Step 5. *)
Definition scale_rows (inputs : list I18) (x_anchor_cells : list Cell) (rsqrt_value : I18) (rsqrt_output_cell : Cell)
    : Lay ErrorFront (list (I18 * Cell)) :=
  lay_map (λ '(x, x_cell),
    let$ '(a_cell, b_cell, normed_cell) := assign_mul_row_with_witnesses (mul config) x rsqrt_value witnesses_known in
    let$ _ := assign_region (λ _,
      let$ _ := constrain_equal a_cell x_cell in
      let$ _ := constrain_equal b_cell rsqrt_output_cell in
      lay_ret tt) in
    let$ '(n, _) := lay_expect (requantize_mul x rsqrt_value) in
    lay_ret (n, normed_cell)) (zip inputs x_anchor_cells).

(** Step 6. *)
Definition weight_rows (normed : list (I18 * Cell)) (weight : list I18) (weight_anchor_cells : list Cell)
    : Lay ErrorFront (list (I18 * Cell)) :=
  lay_map (λ '((n, normed_cell), (w, weight_cell)),
    let$ normed_unshifted_cell := unshift normed_cell (raw n) in
    let$ '(a_cell, b_cell, out_cell) := assign_mul_row_with_witnesses (mul config) n w witnesses_known in
    let$ _ := assign_region (λ _,
      let$ _ := constrain_equal a_cell normed_unshifted_cell in
      let$ _ := constrain_equal b_cell weight_cell in
      lay_ret tt) in
    let$ '(out, _) := lay_expect (requantize_mul n w) in
    lay_ret (out, out_cell)) (zip normed (zip weight weight_anchor_cells)).

Definition assign_with_witnesses (inputs weight : list I18) : Lay (RmsNormError ErrorFront) RmsNormOutput :=
  let k := k config in
  if negb (length inputs =? k)%nat then lay_err (InputCountMismatch k (length inputs)) else
  if negb (length weight =? k)%nat then lay_err (InputCountMismatch k (length weight)) else
  let$ cells := lay_try (anchors inputs weight) in
  let$ squares := lay_try (square_rows inputs cells.*1) in
  let$ '(mean_sq, mean_sq_cell) := lay_try (mean_row squares) in
  let$ '(vpe, vpe_cell) := lay_try (epsilon_row mean_sq mean_sq_cell) in
  let$ rsqrt_value := lay_map_err RmsRsqrt (Rsqrt.assign_with_witness_mode (rsqrt_chip chip) vpe witnesses_known) in
  let$ rsqrt_output_cell := lay_try (rsqrt_row vpe rsqrt_value vpe_cell) in
  let$ normed := lay_try (scale_rows inputs cells.*1 rsqrt_value rsqrt_output_cell) in
  let$ out := lay_try (weight_rows normed weight cells.*2) in
  lay_ret (mkRmsNormOutput out.*1 out.*2 cells.*1 cells.*2).
End Assign.

Definition assign `{Layouter} (chip : RmsNormChip) (inputs weight : list I18) : Lay (RmsNormError ErrorFront) RmsNormOutput :=
  assign_with_witnesses chip true inputs weight.

End RmsNorm.

(** ** Layer norm *)

Module LayerNorm.

Inductive LayerNormError {E : Type} :=
| InputCountMismatch (expected got : nat)
| LayerSynthesis (e : E)
| LayerRsqrt (e : Lookup.LookupError E).
Arguments LayerNormError : clear implicits.

#[export] Instance From_LayerNormError {E} : From E (LayerNormError E) := LayerSynthesis.

Record LayerNormConfig := mkLayerNormConfig {
  reduce_mean : ReduceMean.ReduceMeanConfig;
  add : EltwiseAddConfig;
  mul : EltwiseMulConfig;
  rsqrt : Rsqrt.RsqrtConfig;
  k : nat;
  epsilon : I18;
  rsqrt_domain_min : f64;
  rsqrt_domain_max : f64;
  rsqrt_domain_n : nat;
  mean_link : Column;
  neg_mean : Column;
  s_neg_mean : Selector;
  unshift_in : Column;
  unshift_out : Column;
  s_unshift : Selector
}.

Record LayerNormChip := mkLayerNormChip { config : LayerNormConfig; rsqrt_chip : Lookup.LookupChip }.

Definition neg_mean_gate (mean_link neg_mean : Column) (s_neg_mean : Selector) : Gate :=
  mkGate "layer norm mean negation bridge" s_neg_mean (λ s_neg_mean query,
    let mean_link_expr := query mean_link cur in
    let neg_mean_expr := query neg_mean cur in
    let two_shift := i128_to_fr (2 * SIGNED_SHIFT) in
    [s_neg_mean * (mean_link_expr + neg_mean_expr - two_shift)]%Zmod).

Definition configure (values sum sum_shift mean_q mean_r mean_slack add_a add_b add_c mul_a mul_b mul_q mul_r mul_slack
    bits rsqrt_input rsqrt_output mean_link neg_mean unshift_in unshift_out : Column)
    (k : nat) (epsilon_milli : Z) (rsqrt_domain_min rsqrt_domain_max : f64) (rsqrt_domain_n : nat) : Meta LayerNormConfig :=
  assert& (1 <=? k)%nat in
  let& reduce_mean := ReduceMean.configure values sum sum_shift mean_q mean_r mean_slack bits k in
  let& add := add_configure add_a add_b add_c bits in
  let& mul := mul_configure mul_a mul_b mul_q mul_r mul_slack bits in
  let& rsqrt := Rsqrt.configure rsqrt_input rsqrt_output in
  match epsilon_of epsilon_milli with
  | None => meta_panic
  | Some epsilon =>
      let& _ := enable_equality mean_link in
      let& _ := enable_equality neg_mean in
      let& _ := enable_equality unshift_in in
      let& _ := enable_equality unshift_out in
      let& s_neg_mean := selector in
      let& _ := create_gate (neg_mean_gate mean_link neg_mean s_neg_mean) in
      let& s_unshift := selector in
      let& _ := create_gate (unshift_gate "layer norm unshift bridge" unshift_in unshift_out s_unshift) in
      meta_ret (mkLayerNormConfig reduce_mean add mul rsqrt k epsilon rsqrt_domain_min rsqrt_domain_max rsqrt_domain_n
        mean_link neg_mean s_neg_mean unshift_in unshift_out s_unshift)
  end.

Definition construct (config : LayerNormConfig) : option LayerNormChip :=
  rsqrt_chip ← Rsqrt.construct (rsqrt config) (rsqrt_domain_min config) (rsqrt_domain_max config) (rsqrt_domain_n config);
  Some (mkLayerNormChip config rsqrt_chip).

Section Assign.
Context `{Layouter} (chip : LayerNormChip).
Let config := config chip.

Definition load_table : Lay ErrorFront unit :=
  let$ _ := Lookup.load_table (rsqrt_chip chip) in
  load_mul_operand_range_table (mul config).

Definition assign_unshift (shifted_cell : Cell) (raw_value : Z) : Lay ErrorFront Cell :=
  unshift_row (unshift_in config) (unshift_out config) (s_unshift config) shifted_cell raw_value true.

(** The negation bridge. *)
Definition neg_mean_row (mean neg_mean_value : I18) (mean_cell : Cell) : Lay ErrorFront Cell :=
  let '(mean_shift_fr, _) := shifted_i64_witness (raw mean) in
  let '(neg_mean_shift_fr, _) := shifted_i64_witness (raw neg_mean_value) in
  let$ '(mean_link_cell, neg_mean_cell) := assign_region (λ region,
    let$ _ := enable (s_neg_mean config) region 0 in
    let$ mean_link_cell := assign_advice (mean_link config) region 0 mean_shift_fr in
    let$ neg_mean_cell := assign_advice (neg_mean config) region 0 neg_mean_shift_fr in
    lay_ret (mean_link_cell, neg_mean_cell)) in
  let$ _ := assign_region (λ _, constrain_equal mean_link_cell mean_cell) in
  lay_ret neg_mean_cell.

(** Step 2. *)
Definition diff_rows (inputs : list I18) (mean_input_cells : list Cell) (neg_mean_value : I18) (neg_mean_cell : Cell)
    : Lay ErrorFront (list (I18 * Cell)) :=
  lay_map (λ '(x, mean_input_cell),
    let$ '(a_cell, b_cell, c_cell) := assign_add_row (add config) (raw x) (raw neg_mean_value) in
    let$ x_unshifted_cell := assign_unshift a_cell (raw x) in
    let$ _ := assign_region (λ _,
      let$ _ := constrain_equal x_unshifted_cell mean_input_cell in
      let$ _ := constrain_equal b_cell neg_mean_cell in
      lay_ret tt) in
    let$ diff_raw := lay_unwrap (try_i64 (raw x + raw neg_mean_value)) in
    lay_ret (from_raw diff_raw, c_cell)) (zip inputs mean_input_cells).

(** Step 3: the square, its cell and the plain copy of the difference. *)
Definition square_rows (diffs : list (I18 * Cell)) : Lay ErrorFront (list (I18 * Cell * Cell)) :=
  lay_map (λ '(diff, diff_cell),
    let$ diff_unshifted_cell := assign_unshift diff_cell (raw diff) in
    let$ '(mul_a_cell, mul_b_cell, sq_cell) := assign_mul_row (mul config) diff diff in
    let$ _ := assign_region (λ _,
      let$ _ := constrain_equal mul_a_cell diff_unshifted_cell in
      let$ _ := constrain_equal mul_b_cell diff_unshifted_cell in
      lay_ret tt) in
    let$ '(sq, _) := lay_expect (requantize_mul diff diff) in
    lay_ret (sq, sq_cell, diff_unshifted_cell)) diffs.

(** Step 4. *)
Definition variance_row (squares : list (I18 * Cell)) : Lay ErrorFront (I18 * Cell) :=
  let$ '(variance, variance_cell, sq_input_cells) := ReduceMean.assign (reduce_mean config) squares.*1 in
  let$ _ := lay_iter (λ '((sq, sq_cell), sq_input_cell),
    let$ sq_unshifted_cell := assign_unshift sq_cell (raw sq) in
    assign_region (λ _, constrain_equal sq_unshifted_cell sq_input_cell)) (zip squares sq_input_cells) in
  lay_ret (variance, variance_cell).

(** Step 5. *)
Definition epsilon_row (variance : I18) (variance_cell : Cell) : Lay ErrorFront (I18 * Cell) :=
  let$ '(vpe_a_cell, _, vpe_cell) := assign_add_row (add config) (raw variance) (raw (epsilon config)) in
  let$ _ := assign_region (λ _, constrain_equal vpe_a_cell variance_cell) in
  let$ vpe_raw := lay_unwrap (try_i64 (raw variance + raw (epsilon config))) in
  lay_ret (from_raw vpe_raw, vpe_cell).

(** Step 6, after the host's lookup. *)
Definition rsqrt_row (vpe rsqrt_value : I18) (vpe_cell : Cell) : Lay ErrorFront Cell :=
  let$ vpe_unshifted_cell := assign_unshift vpe_cell (raw vpe) in
  let$ '(rsqrt_input_cell, rsqrt_output_cell) := assign_region (λ region,
    let$ _ := enable (Lookup.lookup_sel (Rsqrt.rsqrt_lookup (rsqrt config))) region 0 in
    let$ input_cell := assign_advice (Rsqrt.rsqrt_input (rsqrt config)) region 0 (Some (i64_to_fr (raw vpe))) in
    let$ output_cell := assign_advice (Rsqrt.rsqrt_output (rsqrt config)) region 0 (Some (i64_to_fr (raw rsqrt_value))) in
    lay_ret (input_cell, output_cell)) in
  let$ _ := assign_region (λ _, constrain_equal rsqrt_input_cell vpe_unshifted_cell) in
  lay_ret rsqrt_output_cell.

(** Step 7. *)
Definition output_rows (diffs : list I18) (diff_unshifted_cells : list Cell) (rsqrt_value : I18) (rsqrt_output_cell : Cell)
    : Lay ErrorFront (list I18) :=
  lay_map (λ '(diff, diff_unshifted_cell),
    let$ '(out_a_cell, out_b_cell, _) := assign_mul_row (mul config) diff rsqrt_value in
    let$ _ := assign_region (λ _,
      let$ _ := constrain_equal out_a_cell diff_unshifted_cell in
      let$ _ := constrain_equal out_b_cell rsqrt_output_cell in
      lay_ret tt) in
    let$ '(out, _) := lay_expect (requantize_mul diff rsqrt_value) in
    lay_ret out) (zip diffs diff_unshifted_cells).

Definition assign (inputs : list I18) : Lay (LayerNormError ErrorFront) (list I18) :=
  let k := k config in
  if negb (length inputs =? k)%nat then lay_err (InputCountMismatch k (length inputs)) else
  let$ '(mean, mean_cell, mean_input_cells) := lay_try (ReduceMean.assign (reduce_mean config) inputs) in
  let$ neg_mean_raw := lay_unwrap (try_i64 (- raw mean)) in
  let neg_mean_value := from_raw neg_mean_raw in
  let$ neg_mean_cell := lay_try (neg_mean_row mean neg_mean_value mean_cell) in
  let$ diffs := lay_try (diff_rows inputs mean_input_cells neg_mean_value neg_mean_cell) in
  let$ squares := lay_try (square_rows diffs) in
  let$ '(variance, variance_cell) := lay_try (variance_row squares.*1) in
  let$ '(variance_plus_eps, vpe_cell) := lay_try (epsilon_row variance variance_cell) in
  let$ rsqrt_value :=
    lay_map_err LayerRsqrt (Rsqrt.assign_with_witness_mode (rsqrt_chip chip) variance_plus_eps true) in
  let$ rsqrt_output_cell := lay_try (rsqrt_row variance_plus_eps rsqrt_value vpe_cell) in
  lay_try (output_rows diffs.*1 squares.*2 rsqrt_value rsqrt_output_cell).
End Assign.

End LayerNorm.
