(* ===== verification/NormProofs.v ===== *)
(** * Normalization: soundness, completeness and shape

    An accepted RMS norm computed every step exactly, from the input cells to
    the output cells, except that nothing ties the added epsilon to the
    configured one: circuits that differ in epsilon have one shape. *)
From S2P Require Import Prelude Field FixedPoint Circuit CircuitLogic RangeCheck Eltwise EltwiseProofs Shape Reduce Lookup Norm.

Open Scope Z_scope.

(** ** The unshift bridge *)

Section Unshift.
Context `{L : Layouter} (planner : nat → Z) (grid : Column → Z → Fr) (cs : ConstraintSystem) (log : list Call).
Context (name : string) (i o : Column) (s : Selector) (Hinst : unshift_gate name i o s ∈ cs_gates cs).

Notation val := (cell_value planner grid).
Notation shifted := (shifted planner grid).
Notation plain := (plain planner grid).

Lemma unshift_sound c v known z :
  log_ok planner grid cs log → shifted c z →
  wp log (λ _, True) (unshift_row i o s c v known) (λ u, plain u z).
Proof using Hinst.
  intros Hok [Hz Ez]. unfold unshift_row, shifted_i64_witness. wp_sound. read_copies Hok.
  match goal with H : Enable _ _ _ ∈ _ |- _ => pose proof (gate_on _ _ _ _ _ _ _ Hok Hinst H) as Hv end.
  simpl gate_polys in Hv. cbv zeta in Hv. rewrite vanish_1, !advice_cur, Zmod.mul_1_l in Hv.
  match goal with E : cell_value _ _ ?b = cell_value _ _ c |- _ => eapply (plain_of_shifted _ _ _ b); [by rewrite E|done|] end.
  match type of Hv with ?e = _ => transitivity (Zmod.opp e); [ring|by rewrite Hv] end.
Qed.

Lemma unshift_complete c z :
  cs_ok cs → agrees planner grid log → shifted c z →
  wp log (call_ok planner grid cs log) (unshift_row i o s c z true) (λ u, plain u z).
Proof using Hinst.
  intros Hcs Hag Hc. unfold unshift_row, shifted_i64_witness, witness_value. wp_honest.
  match goal with H : Assign (mkCell ?region 0 i) _ ∈ _ |- _ =>
    assert (Hi : shifted (mkCell region 0 i) z) by (by destruct Hc; eapply shifted_assigned);
    assert (Ho : plain (mkCell region 0 o) z) by (by destruct Hc; eapply plain_assigned);
    assert (Hen : call_ok planner grid cs log (Enable s region 0))
  end.
  { apply (enable_gate_ok _ _ _ _ _ _ _ Hcs Hinst). simpl gate_polys. cbv zeta.
    rewrite vanish_1, !advice_cur, Zmod.mul_1_l. destruct Hi as [_ ->], Ho as [_ ->].
    autorewrite with fr. f_equal. lia. }
  split; [|done]. wp_honest; [by eapply shifted_eq|done].
Qed.

Lemma unshift_alike c v known v' known' :
  alike eq (unshift_row i o s c v known) (unshift_row i o s c v' known').
Proof using Type. unfold unshift_row, shifted_i64_witness. alike_cells. by alike_cells. Qed.
End Unshift.

(** One computation, read twice. *)
Ltac same_result :=
  match goal with H1 : ?t = Ok _, H2 : ?t = Ok _ |- _ => rewrite H1 in H2; injection H2 as <- <- end.

(** ** RMS norm *)

Section Rms.
Import RmsNorm.

Record rms_installed (cs : ConstraintSystem) (config : RmsNormConfig) : Prop := {
  rm_mean : mean_installed cs (reduce_mean config);
  rm_add : add_installed cs (add config);
  rm_mul : mul_installed cs (mul config);
  rm_rsqrt : fn_installed cs (Rsqrt.rsqrt_lookup (rsqrt config));
  rm_input : Lookup.input (Rsqrt.rsqrt_lookup (rsqrt config)) = Rsqrt.rsqrt_input (rsqrt config);
  rm_output : Lookup.output (Rsqrt.rsqrt_lookup (rsqrt config)) = Rsqrt.rsqrt_output (rsqrt config);
  rm_unshift : unshift_gate "rms norm unshift bridge" (unshift_in config) (unshift_out config) (s_unshift config)
    ∈ cs_gates cs;
  rm_k : ReduceSum.k (ReduceMean.sum (reduce_mean config)) = k config;
  rm_epsilon : in_I18 (epsilon config)
}.

Lemma rms_configure_ok final c1 c2 c3 c4 c5 c6 c7 c8 c9 c10 c11 c12 c13 c14 c15 c16 c17 c18 c19 c20 c21 k0 em d :
  mwp final (configure c1 c2 c3 c4 c5 c6 c7 c8 c9 c10 c11 c12 c13 c14 c15 c16 c17 c18 c19 c20 c21 k0 em d) (λ config,
    rms_installed final config ∧ k config = k0 ∧ Some (epsilon config) = epsilon_of em ∧ rsqrt_domain config = d).
Proof.
  unfold configure, Rsqrt.configure. apply mwp_assert. intros Hk%Nat.leb_le.
  eapply mwp_bind; [apply mean_configure_ok|intros mean]. eapply mwp_bind; [apply add_configure_ok|intros add].
  eapply mwp_bind; [apply mul_configure_ok|intros mul].
  eapply mwp_bind.
  { eapply mwp_bind; [apply fn_configure_ok|intros lookup]. apply (mwp_ret _ _ (λ r,
      fn_installed final lookup ∧ Lookup.input lookup = c16 ∧ Lookup.output lookup = c17 →
      fn_installed final (Rsqrt.rsqrt_lookup r) ∧ Lookup.input (Rsqrt.rsqrt_lookup r) = Rsqrt.rsqrt_input r ∧
      Lookup.output (Rsqrt.rsqrt_lookup r) = Rsqrt.rsqrt_output r)). intros (? & ? & ?). by split_and!. }
  intros rsqrt. destruct (epsilon_of em) as [eps|] eqn:E; [|by intros cs a cs'].
  do 4 (eapply mwp_bind; [by apply (mwp_equality _ _ (λ _, True))|intros []]).
  apply (mwp_gate _ (unshift_gate _ c20 c21)); [gate_off|]. intros s.
  apply mwp_ret. intros ? _ _ _ _ (? & ? & ?) ? ? (? & ? & _). split_and!; [|done..].
  split; try done. unfold epsilon_of, Lookup.expect in E. destruct (from_f64 _) eqn:E'; [|done]. simplify_eq/=.
  by apply from_f64_in_I18 in E'.
Qed.

(** The points a table of inverse square roots may be built from. *)
Definition domain_typed (d : Rsqrt.RsqrtDomain) : Prop :=
  match d with Rsqrt.Range _ _ _ => True | Rsqrt.RawAnchors raws => Forall in_i64 raws end.

Lemma rsqrt_construct c d chip :
  Rsqrt.construct_with_domain c d = Some chip → domain_typed d →
  Lookup.lookup_config chip = Rsqrt.rsqrt_lookup c ∧ in_domain chip.
Proof.
  intros Hc Hd. assert (∃ xs ys, Lookup.construct (Rsqrt.rsqrt_lookup c) xs ys = Some chip ∧ Forall in_I18 xs ∧ Forall in_I18 ys)
    as (xs & ys & Hch & Hx & Hy).
  { destruct d as [lo hi n|raws]; simpl in Hc.
    - unfold Rsqrt.construct in Hc. destruct (SpecFloat.SFltb _ _); [|done]. apply bind_Some in Hc as ([xs ys] & Hb & Hch).
      exists xs, ys. split; [done|]. by eapply build_domain_in_range.
    - apply bind_Some in Hc as ([xs ys] & Hb & Hch). exists xs, ys. split; [done|]. by eapply build_from_raw_in_range. }
  split; [by apply construct_Some in Hch as []|by eapply construct_in_domain].
Qed.

Lemma rms_construct c chip :
  construct c = Some chip → domain_typed (rsqrt_domain c) →
  config chip = c ∧ Lookup.lookup_config (rsqrt_chip chip) = Rsqrt.rsqrt_lookup (rsqrt c) ∧ in_domain (rsqrt_chip chip).
Proof. intros (r & Hr & [= <-])%bind_Some Hd. split; [done|]. by apply rsqrt_construct in Hr. Qed.

(** The specification: the steps of the norm on integers, with the table's rows
    and the added epsilon. *)
Definition scaled (x y z : Z) : Prop := ∃ r, requantize_mul (I18_ x) (I18_ y) = Ok (I18_ z, r).

(** What the norm computes, for the epsilon that was added. *)
Definition rms_spec (reciprocal : I18) (rows : list (I18 * I18)) (eps : Z) (xs ws outs : list Z) : Prop :=
  ∃ sqs mean rsqrt_value ns,
    Forall2 (λ x sq, scaled x x sq) xs sqs ∧
    scaled (zsum sqs) (raw reciprocal) mean ∧
    (I18_ (mean + eps), I18_ rsqrt_value) ∈ rows ∧
    Forall2 (λ x n, scaled x rsqrt_value n) xs ns ∧
    Forall3 scaled ns ws outs.

Lemma Forall2_zip_r {A B C} (Q : B → C → Prop) (l : list A) l' ys :
  length l = length l' → Forall2 (λ p y, Q p.2 y) (zip l l') ys → Forall2 Q l' ys.
Proof.
  revert l' ys. induction l as [|x l IH]; intros [|y l'] ys Hlen H; simplify_eq/=.
  - apply Forall2_nil_inv_l in H as ->. constructor.
  - apply Forall2_cons_inv_l in H as (z & ys' & Hz & H & ->). constructor; [done|]. by apply IH.
Qed.

Lemma Forall2_choose {A B} (P : A → Z → Prop) (Q : B → Z → Prop) (R : Z → Z → Prop) l l' :
  Forall2 (λ c p, ∃ x y, P c x ∧ Q p y ∧ R x y) l l' →
  ∃ xs ys, Forall2 P l xs ∧ Forall2 Q l' ys ∧ Forall2 R xs ys.
Proof.
  induction 1 as [|c p l l' (x & y & Hx & Hy & HR) _ (xs & ys & H1 & H2 & H3)]; [by exists [], []|].
  exists (x :: xs), (y :: ys). split_and!; by constructor.
Qed.

Context `{L : Layouter} (planner : nat → Z) (grid : Column → Z → Fr) (cs : ConstraintSystem) (log : list Call).
Context (chip : RmsNormChip) (Hinst : rms_installed cs (config chip)) (Hdom : in_domain (rsqrt_chip chip))
  (Hchip : Lookup.lookup_config (rsqrt_chip chip) = Rsqrt.rsqrt_lookup (rsqrt (config chip))).

Notation val := (cell_value planner grid).
Notation shifted := (shifted planner grid).
Notation plain := (plain planner grid).
Notation config := (config chip).

Lemma plains_inj l xs ys : Forall2 plain l xs → Forall2 plain l ys → xs = ys.
Proof using Type.
  intros H. revert ys. induction H as [|c x l xs Hx _ IH]; intros ys H; [by apply Forall2_nil_inv_l in H as ->|].
  apply Forall2_cons_inv_l in H as (y & ys' & Hy & H & ->). f_equal; [by eapply plain_inj|by apply IH].
Qed.

(** A product of the row [a], [b], [c]. *)
Lemma product_scaled a b c x y :
  is_product planner grid a b c → plain a x → plain b y → ∃ z, shifted c z ∧ scaled x y z.
Proof using Type.
  intros (x' & y' & q & r & Hx' & Hy' & Hq & E) Hx Hy.
  rewrite (plain_inj _ _ _ _ _ Hx' Hx), (plain_inj _ _ _ _ _ Hy' Hy) in E. exists q. split; [done|]. by exists r.
Qed.

Lemma anchors_length known inputs weight :
  length inputs = length weight → wp log (λ _, True) (anchors chip known inputs weight) (λ cells, length cells = length inputs).
Proof using Type.
  intros Hlen. eapply (wp_map _ _ _ (λ _ _, True)); [intros; apply wp_true|].
  intros ys Hys%Forall2_length. rewrite length_zip_with in Hys. lia.
Qed.

Section Sound.
Context (known : bool) (Hok : log_ok planner grid cs log) (Htable : mul_table_bytes log (mul config)).

Lemma square_rows_sound inputs cells :
  length inputs = length cells →
  wp log (λ _, True) (square_rows chip known inputs cells)
    (Forall2 (λ c p, ∃ x sq, plain c x ∧ shifted p.2 sq ∧ scaled x x sq) cells).
Proof using Hinst Hok Htable.
  intros Hlen. eapply (wp_map _ _ _ (λ t p, ∃ x sq, plain t.2 x ∧ shifted p.2 sq ∧ scaled x x sq)).
  - intros [x c] _. eapply wp_bind; [apply (mul_row_sound planner grid cs); [apply Hinst|done..]|].
    intros [[a b] sq_cell] (xv & yv & q & r & Hx & Hy & Hq & E). wp_sound. read_copies Hok. cbn [fst snd].
    assert (plain c xv) as Hc by (eapply plain_copied; [|exact Hx]; done).
    assert (plain b xv) as Hb by (by eapply plain_copy).
    rewrite (plain_inj _ _ _ _ _ Hy Hb) in E. exists xv, q. split_and!; [done..|]. by exists r.
  - intros ys Hys. by apply (Forall2_zip_r (λ c p, ∃ x sq, plain c x ∧ shifted p.2 sq ∧ scaled x x sq) inputs).
Qed.

Lemma links_plain squares sqs cells :
  Forall2 (λ p z, shifted p.2 z) squares sqs → length squares = length cells →
  wp log (λ _, True) (lay_iter (λ '((sq, sq_cell), sq_input_cell),
    let$ sq_unshifted_cell := unshift chip known sq_cell (raw sq) in
    assign_region (λ _, constrain_equal sq_unshifted_cell sq_input_cell)) (zip squares cells))
    (λ _, Forall2 plain cells sqs).
Proof using Hinst Hok.
  intros Hsq Hlen. apply (wp_iter _ _ _ (λ t, ∃ z, shifted t.1.2 z ∧ plain t.2 z)).
  - intros [[sq sq_cell] c] Hin. apply list_elem_of_lookup in Hin as (i & (p & c' & [= <- <-] & Hp & Hc)%lookup_zip_with_Some).
    destruct (Forall2_lookup_l _ _ _ _ _ Hsq Hp) as (z & _ & Hz). cbn [fst snd] in *.
    eapply wp_bind; [eapply (unshift_sound planner grid cs); [apply (rm_unshift _ _ Hinst)|done|exact Hz]|]. intros u Hu.
    apply wp_region. intros region. apply wp_equal; [done|]. intros Heq. read_copies Hok.
    exists z. split; [done|]. eapply plain_copied; [|exact Hu]; done.
  - intros Hall. apply Forall2_same_length_lookup_2; [by rewrite <-(Forall2_length _ _ _ Hsq)|].
    intros i c z Hc Hz. destruct (Forall2_lookup_r _ _ _ _ _ Hsq Hz) as (p & Hp & Hpz).
    rewrite Forall_lookup in Hall. destruct (Hall i (p, c)) as (z' & Hz' & Hpl).
    { rewrite lookup_zip_with, Hp. simpl. by rewrite Hc. }
    cbn [fst snd] in *. by rewrite (shifted_inj _ _ _ _ _ Hpz Hz').
Qed.

Lemma mean_row_sound squares sqs :
  Z.of_nat (k config) ≤ 2 ^ 64 → Forall2 (λ p z, shifted p.2 z) squares sqs → length squares = k config →
  wp log (λ _, True) (mean_row chip known squares)
    (λ '(_, c), ∃ m, shifted c m ∧ scaled (zsum sqs) (raw (ReduceMean.reciprocal (reduce_mean config))) m).
Proof using Hinst Hok.
  intros Hk Hsq Hlen. unfold mean_row.
  eapply wp_bind; [apply (mean_sound planner grid cs); [apply Hinst|by rewrite (rm_k _ _ Hinst)|done]|].
  intros [[mean_sq mean_cell] cells] (Hcells & z & Hz & Hzi & q0 & r0 & E & Hq). cbn beta iota.
  rewrite (rm_k _ _ Hinst) in Hcells.
  eapply wp_bind; [apply links_plain; [done|congruence]|]. intros [] Hpl. cbn beta in Hpl. wp_step.
  exists (raw q0). split; [done|]. rewrite <-(Hz _ Hpl). exists r0. by destruct q0, (ReduceMean.reciprocal _).
Qed.

Lemma epsilon_row_sound mean_sq c m :
  shifted c m →
  wp log (λ _, True) (epsilon_row chip known mean_sq c) (λ '(_, v), ∃ e, in_i64 e ∧ shifted v (m + e)).
Proof using Hinst Hok.
  intros Hm. unfold epsilon_row. eapply wp_bind; [apply (add_row_sound planner grid cs); [apply Hinst|done]|].
  intros [[a b] v] (x & y & Hx & Hy & Hv). wp_sound. read_copies Hok.
  assert (shifted a m) as Ha by (by eapply shifted_copy). rewrite (shifted_inj _ _ _ _ _ Hx Ha) in Hv.
  exists y. split; [by destruct Hy|done].
Qed.

Lemma rsqrt_row_sound vpe rv c v :
  table_sound log (rsqrt_chip chip) → shifted c v →
  wp log (λ _, True) (rsqrt_row chip known vpe rv c)
    (λ o, ∃ s, (I18_ v, I18_ s) ∈ table_rows (rsqrt_chip chip) ∧ plain o s).
Proof using Hchip Hdom Hinst Hok.
  intros Ht Hv. unfold rsqrt_row. eapply wp_bind; [eapply (unshift_sound planner grid cs); [apply (rm_unshift _ _ Hinst)|done|exact Hv]|].
  intros u Hu. wp_sound. read_copies Hok.
  match goal with H : Enable _ ?region 0 ∈ _ |- _ =>
    destruct (fn_row_sound planner grid cs log (rsqrt_chip chip)) with region as ([x y] & Hp & Hx & Hy) end.
  { rewrite Hchip. apply Hinst. } { done. } { done. } { done. } { by rewrite Hchip. }
  rewrite Hchip, (rm_input _ _ Hinst), (rm_output _ _ Hinst) in *. cbn [fst snd] in *.
  match goal with E : val _ = val u |- _ => pose proof (plain_copy _ _ _ _ _ E Hu) as Hin end.
  rewrite (plain_inj _ _ _ _ _ Hin Hx) in *. exists (raw y). split; [by destruct x, y|done].
Qed.

Lemma scale_rows_sound inputs cells rv o s :
  length inputs = length cells → plain o s →
  wp log (λ _, True) (scale_rows chip known inputs cells rv o)
    (Forall2 (λ c p, ∃ x n, plain c x ∧ shifted p.2 n ∧ scaled x s n) cells).
Proof using Hinst Hok Htable.
  intros Hlen Ho. eapply (wp_map _ _ _ (λ t p, ∃ x n, plain t.2 x ∧ shifted p.2 n ∧ scaled x s n)).
  - intros [x c] _. eapply wp_bind; [apply (mul_row_sound planner grid cs); [apply Hinst|done..]|].
    intros [[a b] n_cell] Hp. wp_sound. read_copies Hok. cbn [fst snd].
    pose proof Hp as (xv & _ & _ & _ & Hx & _). assert (plain c xv) as Hc by (eapply plain_copied; [|exact Hx]; done).
    assert (plain b s) as Hb by (by eapply plain_copy).
    destruct (product_scaled _ _ _ _ _ Hp Hx Hb) as (n & Hn & E). eauto 6.
  - intros ys Hys. by apply (Forall2_zip_r (λ c p, ∃ x n, plain c x ∧ shifted p.2 n ∧ scaled x s n) inputs).
Qed.

(** Rows of the weights, over the cells of the normed values and the weights. *)
Lemma weight_rows_sound normed ns weight cells :
  Forall2 (λ p n, shifted p.2 n) normed ns → length weight = length cells → length normed = length cells →
  wp log (λ _, True) (weight_rows chip known normed weight cells)
    (λ out, ∃ ws os, Forall2 plain cells ws ∧ Forall2 (λ p o, shifted p.2 o) out os ∧ Forall3 scaled ns ws os).
Proof using Hinst Hok Htable.
  intros Hns Hlw Hln.
  eapply (wp_map _ _ _ (λ t p, ∃ n w o, shifted t.1.2 n ∧ plain t.2.2 w ∧ shifted p.2 o ∧ scaled n w o)).
  - intros [[n n_cell] [w c]] Hin. apply list_elem_of_lookup in Hin as (i & (p & t & [= <- <-] & Hp & _)%lookup_zip_with_Some).
    destruct (Forall2_lookup_l _ _ _ _ _ Hns Hp) as (nv & _ & Hn). cbn [fst snd] in *.
    eapply wp_bind; [eapply (unshift_sound planner grid cs); [apply (rm_unshift _ _ Hinst)|done|exact Hn]|]. intros u Hu.
    eapply wp_bind; [apply (mul_row_sound planner grid cs); [apply Hinst|done..]|].
    intros [[a b] o_cell] Hprod. wp_sound. read_copies Hok. cbn [fst snd].
    pose proof Hprod as (_ & wv & _ & _ & _ & Hw & _). assert (plain c wv) as Hc by (eapply plain_copied; [|exact Hw]; done).
    assert (plain a nv) as Ha by (by eapply plain_copy).
    destruct (product_scaled _ _ _ _ _ Hprod Ha Hw) as (o & Ho & E). eauto 9.
  - intros out. clear -Hns Hlw Hln. revert weight cells out Hlw Hln.
    induction Hns as [|p n normed ns Hn _ IH]; intros [|w weight] [|c cells] out Hlw Hln Hout; simplify_eq/=.
    + apply Forall2_nil_inv_l in Hout as ->. exists [], []. by repeat constructor.
    + apply Forall2_cons_inv_l in Hout as (po & out' & (n' & wv & o & Hn' & Hw & Ho & E) & Hout & ->). cbn [fst snd] in *.
      destruct (IH weight cells out') as (ws & os & H1 & H2 & H3); [lia|lia|done|].
      rewrite (shifted_inj _ _ _ _ _ Hn' Hn) in E. exists (wv :: ws), (o :: os). split_and!; by constructor.
Qed.

Lemma rms_sound inputs weight :
  Z.of_nat (k config) ≤ 2 ^ 64 → table_sound log (rsqrt_chip chip) →
  wp log (λ _, True) (assign_with_witnesses chip known inputs weight) (λ out,
    ∃ xs ws outs eps, Forall2 plain (input_cells out) xs ∧ Forall2 plain (weight_cells out) ws ∧
      Forall2 shifted (output_cells out) outs ∧ length xs = k config ∧ in_i64 eps ∧
      rms_spec (ReduceMean.reciprocal (reduce_mean config)) (table_rows (rsqrt_chip chip)) eps xs ws outs).
Proof using All.
  intros Hk Ht. unfold assign_with_witnesses.
  apply wp_if; [intros _; apply wp_err|]. intros Hli%negb_false_iff%Nat.eqb_eq.
  apply wp_if; [intros _; apply wp_err|]. intros Hlw%negb_false_iff%Nat.eqb_eq.
  eapply wp_bind; [apply wp_try, anchors_length; congruence|]. intros cells Hcells. cbn beta in Hcells.
  eapply wp_bind; [apply wp_try, square_rows_sound; by rewrite length_fmap|]. intros squares Hsquares.
  apply Forall2_choose in Hsquares as (xs & sqs & Hxs & Hsqs & Hsq).
  pose proof (Forall2_length _ _ _ Hxs) as Hlx. rewrite length_fmap in Hlx.
  pose proof (Forall2_length _ _ _ Hsqs) as Hls. pose proof (Forall2_length _ _ _ Hsq) as Hlq.
  eapply wp_bind; [apply wp_try, (mean_row_sound _ sqs); [done|done|lia]|]. intros [mean_sq mc] (m & Hm & Em). cbn beta iota.
  eapply wp_bind; [by apply wp_try, epsilon_row_sound|]. intros [vpe vc] (e & He & Hv). cbn beta iota.
  eapply wp_bind; [apply wp_map_err, wp_true|]. intros rv _.
  eapply wp_bind; [by apply wp_try, rsqrt_row_sound|]. intros o (s & Hs & Ho).
  eapply wp_bind; [apply wp_try, scale_rows_sound; [by rewrite length_fmap|done]|]. intros normed Hnormed.
  apply Forall2_choose in Hnormed as (xs' & ns & Hxs' & Hns & Hscale).
  rewrite (plains_inj _ _ _ Hxs' Hxs) in Hscale.
  pose proof (Forall2_length _ _ _ Hns) as Hln. pose proof (Forall2_length _ _ _ Hscale) as Hlsc.
  eapply wp_bind; [apply wp_try, (weight_rows_sound _ ns); [done|rewrite length_fmap; congruence|rewrite length_fmap; lia]|].
  intros out (ws & os & Hws & Hos & Hout). apply wp_ret. cbn [input_cells weight_cells output_cells].
  exists xs, ws, os, e. split_and!; [done|done|by apply Forall2_fmap_l|lia|done|].
  by exists sqs, m, s, ns.
Qed.
End Sound.

(** *** Completeness *)

Section Complete.
Context (Hcs : cs_ok cs) (Hag : agrees planner grid log) (Htable : mul_table_loaded log (mul config)).

Lemma anchors_complete inputs weight :
  length inputs = length weight → Forall in_I18 inputs → Forall in_I18 weight →
  wp log (call_ok planner grid cs log) (anchors chip true inputs weight)
    (λ cells, Forall2 plain cells.*1 (raw <$> inputs) ∧ Forall2 plain cells.*2 (raw <$> weight)).
Proof using Hag.
  intros Hlen Hi Hw.
  eapply (wp_map _ _ _ (λ t p, plain p.1 (raw t.1) ∧ plain p.2 (raw t.2))).
  - intros [x w] Hin. apply list_elem_of_lookup in Hin as (i & (? & ? & [= <- <-] & Hx & Hwx)%lookup_zip_with_Some).
    rewrite Forall_lookup in Hi, Hw. unfold witness_value. wp_honest. cbn [fst snd].
    split; (eapply plain_assigned; [done|done|]); [by apply (Hi i)|by apply (Hw i)].
  - intros ys Hys. clear -Hys Hlen. revert weight ys Hlen Hys.
    induction inputs as [|x inputs IH]; intros [|w weight] ys Hlen Hys; simplify_eq/=.
    + apply Forall2_nil_inv_l in Hys as ->. by split; constructor.
    + apply Forall2_cons_inv_l in Hys as (p & ys' & [H1 H2] & Hys & ->).
      destruct (IH weight ys' Hlen Hys) as [H3 H4]. split; by constructor.
Qed.

Lemma held_plains l xs : Forall2 plain l (raw <$> xs) → Forall2 (λ x c, plain c (raw x)) xs l.
Proof using Type.
  revert l. induction xs as [|x xs IH]; intros l H; simpl in H.
  - apply Forall2_nil_inv_r in H as ->. constructor.
  - apply Forall2_cons_inv_r in H as (c & l' & Hc & H & ->). constructor; [done|by apply IH].
Qed.

(** A value and its shifted cell. *)
Definition held (p : I18 * Cell) : Prop := shifted p.2 (raw p.1).
Definition held_plain (x : I18) (c : Cell) : Prop := plain c (raw x).

Lemma square_rows_complete inputs cells :
  Forall2 held_plain inputs cells →
  wp log (call_ok planner grid cs log) (square_rows chip true inputs cells)
    (λ squares, Forall held squares ∧ Forall2 (λ x p, ∃ r, requantize_mul x x = Ok (p.1, r)) inputs squares).
Proof using Hag Hcs Hinst Htable.
  intros Hcells. pose proof (Forall2_length _ _ _ Hcells) as Hlen.
  eapply (wp_map _ _ _ (λ t p, held p ∧ ∃ r, requantize_mul t.1 t.1 = Ok (p.1, r))).
  - intros [x c] Hin. apply list_elem_of_lookup in Hin as (i & (? & ? & [= <- <-] & Hx & Hc)%lookup_zip_with_Some).
    pose proof (Forall2_lookup_lr _ _ _ _ _ _ Hcells Hx Hc) as Hh. unfold held_plain in Hh.
    eapply wp_bind; [apply (mul_row_complete planner grid cs); [apply Hinst|done..|by destruct Hh|by destruct Hh]|].
    intros [[a b] q_cell] (Ha & Hb & q & r & E & Hq). wp_honest; [by eapply plain_eq..|].
    same_result. split; [done|]. eauto.
  - intros ys Hys. split.
    + apply Forall_lookup. intros i p Hp. by destruct (Forall2_lookup_r _ _ _ _ _ Hys Hp) as (? & _ & ? & _).
    + clear -Hys Hlen. revert cells ys Hlen Hys. induction inputs as [|x l IH]; intros [|c cells] ys Hlen Hys; simplify_eq/=.
      * by apply Forall2_nil_inv_l in Hys as ->.
      * apply Forall2_cons_inv_l in Hys as (p & ys' & [_ Hp] & Hys & ->). constructor; [done|]. by eapply IH.
Qed.

Lemma mean_row_complete squares :
  Forall held squares →
  wp log (call_ok planner grid cs log) (mean_row chip true squares)
    (λ p, held p ∧ ∃ r, requantize_mul (I18_ (zsum (raw <$> squares.*1))) (ReduceMean.reciprocal (reduce_mean config)) = Ok (p.1, r)).
Proof using Hag Hcs Hinst.
  intros Hsq. unfold mean_row. eapply wp_bind.
  { apply (mean_complete planner grid cs); [apply Hinst|done|done|]. apply Forall_fmap. eapply Forall_impl; [exact Hsq|].
    by intros p [? _]. }
  intros [[m c] cells] (Hc & Hcells & Em). cbn beta iota.
  eapply (wp_bind _ _ _ _ (λ _, True)); [|intros [] _; apply wp_ret; by split].
  apply (wp_iter _ _ _ (λ _, True)); [|done]. intros [[sq sq_cell] sc] Hin.
  apply list_elem_of_lookup in Hin as (i & (? & ? & [= <- <-] & Hp & Hs)%lookup_zip_with_Some).
  rewrite Forall_lookup in Hsq. pose proof (Hsq _ _ Hp) as Hh. unfold held in Hh. cbn [fst snd] in Hh.
  eapply wp_bind; [eapply (unshift_complete planner grid cs); [apply (rm_unshift _ _ Hinst)|done|done|exact Hh]|].
  intros u Hu. wp_honest; [|done].
  destruct (Forall2_lookup_l _ _ _ _ _ Hcells Hs) as (z & Hz & Hsc).
  rewrite !list_lookup_fmap, Hp in Hz. injection Hz as <-. eapply plain_eq; [exact Hu|exact Hsc].
Qed.

Lemma epsilon_row_complete m c :
  held (m, c) →
  wp log (call_ok planner grid cs log) (epsilon_row chip true m c)
    (λ p, held p ∧ raw p.1 = raw m + raw (epsilon config)).
Proof using Hag Hcs Hinst.
  intros Hm. unfold held in Hm. cbn [fst snd] in Hm. unfold epsilon_row.
  eapply wp_bind; [apply (add_row_complete planner grid cs); [apply Hinst|done|done|by destruct Hm|apply (rm_epsilon _ _ Hinst)]|].
  intros [[a b] v] (Ha & Hb & Hv). wp_honest; [by eapply shifted_eq|].
  match goal with H : try_i64 _ = Some _ |- _ => apply try_i64_Some in H as [<- _] end. done.
Qed.

Lemma rsqrt_row_complete vpe rv c :
  table_complete log (rsqrt_chip chip) → held (vpe, c) → Lookup.find_output (rsqrt_chip chip) vpe = Some rv →
  wp log (call_ok planner grid cs log) (rsqrt_row chip true vpe rv c) (held_plain rv).
Proof using Hag Hchip Hcs Hdom Hinst.
  intros Ht Hc Hf. unfold held in Hc. cbn [fst snd] in Hc. unfold rsqrt_row.
  eapply wp_bind; [eapply (unshift_complete planner grid cs); [apply (rm_unshift _ _ Hinst)|done|done|exact Hc]|].
  intros u Hu. unfold witness_value. wp_honest.
  pose proof (find_output_Some _ _ _ Hf) as Hin. unfold in_domain in Hdom. rewrite Forall_forall in Hdom.
  destruct (Hdom _ Hin) as [_ Hrv]. cbn [fst snd] in Hrv.
  match goal with H : Enable _ ?region 0 ∈ _ |- _ =>
    assert (Hi : plain (mkCell region 0 (Rsqrt.rsqrt_input (rsqrt config))) (raw vpe)) by (by destruct Hc; eapply plain_assigned);
    assert (Ho : plain (mkCell region 0 (Rsqrt.rsqrt_output (rsqrt config))) (raw rv)) by (by eapply plain_assigned);
    pose proof (fn_row_complete planner grid cs log (rsqrt_chip chip)) as Hrow
  end.
  rewrite Hchip, (rm_input _ _ Hinst), (rm_output _ _ Hinst) in Hrow.
  split; [|by eapply Hrow; [apply Hinst|..]].
  wp_honest; [by eapply plain_eq|done].
Qed.

Lemma scale_rows_complete inputs cells rv o :
  Forall2 held_plain inputs cells → held_plain rv o →
  wp log (call_ok planner grid cs log) (scale_rows chip true inputs cells rv o)
    (λ normed, Forall held normed ∧ Forall2 (λ x p, ∃ r, requantize_mul x rv = Ok (p.1, r)) inputs normed).
Proof using Hag Hcs Hinst Htable.
  intros Hcells Ho. pose proof (Forall2_length _ _ _ Hcells) as Hlen.
  eapply (wp_map _ _ _ (λ t p, held p ∧ ∃ r, requantize_mul t.1 rv = Ok (p.1, r))).
  - intros [x c] Hin. apply list_elem_of_lookup in Hin as (i & (? & ? & [= <- <-] & Hx & Hc)%lookup_zip_with_Some).
    pose proof (Forall2_lookup_lr _ _ _ _ _ _ Hcells Hx Hc) as Hh. unfold held_plain in *.
    eapply wp_bind; [apply (mul_row_complete planner grid cs); [apply Hinst|done..|by destruct Hh|by destruct Ho]|].
    intros [[a b] q_cell] (Ha & Hb & q & r & E & Hq). wp_honest; [by eapply plain_eq..|].
    same_result. split; [done|]. eauto.
  - intros ys Hys. split.
    + apply Forall_lookup. intros i p Hp. by destruct (Forall2_lookup_r _ _ _ _ _ Hys Hp) as (? & _ & ? & _).
    + clear -Hys Hlen. revert cells ys Hlen Hys. induction inputs as [|x l IH]; intros [|c cells] ys Hlen Hys; simplify_eq/=.
      * by apply Forall2_nil_inv_l in Hys as ->.
      * apply Forall2_cons_inv_l in Hys as (p & ys' & [_ Hp] & Hys & ->). constructor; [done|]. by eapply IH.
Qed.

Lemma weight_rows_complete normed weight cells :
  Forall held normed → Forall2 held_plain weight cells → length normed = length weight →
  wp log (call_ok planner grid cs log) (weight_rows chip true normed weight cells)
    (λ out, Forall held out ∧ Forall3 (λ n w p, ∃ r, requantize_mul n w = Ok (p.1, r)) normed.*1 weight out).
Proof using Hag Hcs Hinst Htable.
  intros Hn Hw Hlen.
  eapply (wp_map _ _ _ (λ t p, held p ∧ ∃ r, requantize_mul t.1.1 t.2.1 = Ok (p.1, r))).
  - intros [[n n_cell] [w c]] Hin. apply list_elem_of_lookup in Hin as (i & (p & t & [= <- <-] & Hp & Ht)%lookup_zip_with_Some).
    apply lookup_zip_with_Some in Ht as (? & ? & [= <- <-] & Hwi & Hci).
    rewrite Forall_lookup in Hn. pose proof (Hn _ _ Hp) as Hh. unfold held in Hh. cbn [fst snd] in *.
    pose proof (Forall2_lookup_lr _ _ _ _ _ _ Hw Hwi Hci) as Hwp. unfold held_plain in Hwp.
    eapply wp_bind; [eapply (unshift_complete planner grid cs); [apply (rm_unshift _ _ Hinst)|done|done|exact Hh]|].
    intros u Hu.
    eapply wp_bind; [apply (mul_row_complete planner grid cs); [apply Hinst|done..|by destruct Hh|by destruct Hwp]|].
    intros [[a b] q_cell] (Ha & Hb & q & r & E & Hq). wp_honest; [by eapply plain_eq..|].
    same_result. split; [done|]. eauto.
  - intros out Hout. split.
    + apply Forall_lookup. intros i p Hp. by destruct (Forall2_lookup_r _ _ _ _ _ Hout Hp) as (? & _ & ? & _).
    + apply Forall2_length in Hw. clear -Hout Hlen Hw. revert weight cells out Hlen Hw Hout.
      induction normed as [|p l IH]; intros [|w weight] [|c cells] out Hlen Hw Hout; simplify_eq/=.
      * apply Forall2_nil_inv_l in Hout as ->. constructor.
      * apply Forall2_cons_inv_l in Hout as (q & out' & [_ Hq] & Hout & ->). constructor; [done|]. by eapply IH.
Qed.

Lemma scaled_raw x y (p : I18 * Cell) : (∃ r, requantize_mul x y = Ok (p.1, r)) → scaled (raw x) (raw y) (raw p.1).
Proof using Type. intros [r E]. exists r. destruct x, y, p as [[z] c]. exact E. Qed.

Lemma rms_complete inputs weight :
  table_complete log (rsqrt_chip chip) → Forall in_I18 inputs → Forall in_I18 weight →
  wp log (call_ok planner grid cs log) (assign chip inputs weight) (λ out,
    Forall2 plain (input_cells out) (raw <$> inputs) ∧ Forall2 plain (weight_cells out) (raw <$> weight) ∧
    Forall2 shifted (output_cells out) (raw <$> outputs out) ∧
    rms_spec (ReduceMean.reciprocal (reduce_mean config)) (table_rows (rsqrt_chip chip)) (raw (epsilon config))
      (raw <$> inputs) (raw <$> weight) (raw <$> outputs out)).
Proof using All.
  intros Ht Hi Hw. unfold assign, assign_with_witnesses.
  apply wp_if; [intros _; apply wp_err|]. intros Hli%negb_false_iff%Nat.eqb_eq.
  apply wp_if; [intros _; apply wp_err|]. intros Hlw%negb_false_iff%Nat.eqb_eq.
  eapply wp_bind; [apply wp_try, anchors_complete; [congruence|done|done]|]. intros cells [Hxs Hws].
  assert (Forall2 held_plain inputs cells.*1) as Hxs' by (by apply held_plains).
  assert (Forall2 held_plain weight cells.*2) as Hws' by (by apply held_plains).
  eapply wp_bind; [by apply wp_try, square_rows_complete|]. intros squares [Hsq Esq].
  eapply wp_bind; [by apply wp_try, mean_row_complete|]. intros [m mc] (Hm & r & Em). cbn beta iota.
  eapply wp_bind; [by apply wp_try, epsilon_row_complete|]. intros [vpe vc] (Hv & Ev). cbn beta iota. cbn [fst snd] in *.
  eapply (wp_bind _ _ _ _ (λ rv, Lookup.find_output (rsqrt_chip chip) vpe = Some rv)).
  { apply wp_map_err. unfold Rsqrt.assign_with_witness_mode. eapply wp_bind.
    - apply (fn_assign_complete planner grid cs); [by rewrite Hchip; apply Hinst|done..|by destruct Hv].
    - intros [rv c] (Hf & _). by apply wp_ret. }
  intros rv Hf. eapply wp_bind; [by apply wp_try, rsqrt_row_complete|]. intros o Ho.
  eapply wp_bind; [by apply wp_try, scale_rows_complete|]. intros normed [Hn En].
  eapply wp_bind.
  { apply wp_try, weight_rows_complete; [done|done|]. rewrite <-(Forall2_length _ _ _ En). congruence. }
  intros out [Hout Eout]. apply wp_ret. cbn [input_cells weight_cells output_cells outputs].
  split_and!; [done|done| |].
  { apply Forall2_fmap. clear -Hout. induction Hout; by constructor. }
  exists (raw <$> squares.*1), (raw m), (raw rv), (raw <$> normed.*1). split_and!.
  - rewrite <-list_fmap_compose. apply Forall2_fmap. eapply Forall2_impl; [exact Esq|]. intros x p Hp. by apply scaled_raw.
  - by apply (scaled_raw (I18_ _) _ (m, mc)); exists r.
  - apply find_output_Some in Hf. unfold table_rows. rewrite elem_of_app. left. destruct vpe as [v], rv as [w], m as [mv].
    cbn [raw I18_raw] in *. by subst v.
  - rewrite <-list_fmap_compose. apply Forall2_fmap. eapply Forall2_impl; [exact En|]. intros x p Hp. by apply scaled_raw.
  - clear -Eout. revert weight out Eout. generalize (normed.*1) as ns. intros ns weight out.
    induction 1 as [|n w p ns weight out Hp _ IH]; constructor; [by apply scaled_raw|done].
Qed.
End Complete.
End Rms.

(** *** Shape *)

Section RmsShape.
Import RmsNorm.
Context `{L : Layouter} (chip : RmsNormChip).

(** The same chip with another epsilon. *)
Definition with_epsilon (e : I18) : RmsNormChip :=
  let c := config chip in
  mkRmsNormChip (mkRmsNormConfig (reduce_mean c) (add c) (mul c) (rsqrt c) (k c) e (rsqrt_domain c) (x_anchor c)
    (weight_anchor c) (unshift_in c) (unshift_out c) (s_unshift c)) (rsqrt_chip chip).

Lemma Forall2_snd {A A' B} (l : list (A * B)) (l' : list (A' * B)) : Forall2 (λ p p', p.2 = p'.2) l l' → l.*2 = l'.*2.
Proof. induction 1; simpl; by f_equal. Qed.

Lemma zip_same_snd {A A' B} (l : list A) (l' : list A') (cells : list B) :
  length l = length l' → Forall2 (λ p p', p.2 = p'.2) (zip l cells) (zip l' cells).
Proof.
  revert l' cells. induction l as [|x l IH]; intros [|x' l'] [|c cells] Hlen; simplify_eq/=; constructor; auto.
Qed.

(** Loops over values paired with cells. *)
Lemma alike_zip {A A' B B' C} (f : A * C → Lay ErrorFront (B * Cell)) (f' : A' * C → Lay ErrorFront (B' * Cell)) l l' cells :
  length l = length l' → (∀ x x' c, alike (λ p p', p.2 = p'.2) (f (x, c)) (f' (x', c))) →
  alike (λ p p', p.*2 = p'.*2 ∧ length p = length p') (lay_map f (zip l cells)) (lay_map f' (zip l' cells)).
Proof using Type.
  intros Hlen Hf. eapply alike_conseq; [apply (alike_map (λ p p', p.2 = p'.2) (λ p p', p.2 = p'.2)); [by apply zip_same_snd|]|].
  - intros [x c] [x' c'] E. cbn [snd] in E. subst c'. apply Hf.
  - intros p p' Hp. split; [by apply Forall2_snd|by eapply Forall2_length].
Qed.

Lemma zip_snd {A B C} (l : list (A * B)) (l' : list C) :
  Forall2 (λ t p, t = (p.1.2, p.2)) (zip l.*2 l') (zip l l').
Proof. revert l'. induction l as [|[x y] l IH]; intros [|z l']; simpl; constructor; auto. Qed.

Lemma mean_row_alike known known' squares squares' e :
  squares.*2 = squares'.*2 → length squares = length squares' →
  alike (λ p p', p.2 = p'.2) (mean_row chip known squares) (mean_row (with_epsilon e) known' squares').
Proof using Type.
  intros Hs Hlen. unfold mean_row. eapply alike_bind; [apply mean_alike|].
  intros [[m c] cells] [[m' c'] cells'] [Hc Hcells]. cbn [fst snd] in Hc, Hcells. subst c' cells'. cbn beta iota.
  eapply (alike_bind (λ _ _, True)); [|intros _ _ _; by apply alike_ret].
  apply (alike_iter (λ t t', t.1.2 = t'.1.2 ∧ t.2 = t'.2)).
  - clear -Hs Hlen. revert squares' cells Hs Hlen.
    induction squares as [|[x y] l IH]; intros [|[x' y'] l'] [|c cells] Hs Hlen; simplify_eq/=; constructor; auto.
  - intros [[v sc] c0] [[v' sc'] c0'] [E1 E2]. cbn [fst snd] in E1, E2. subst sc' c0'.
    eapply alike_bind; [apply unshift_alike|]. intros u _ <-. alike_step. eapply alike_conseq; [apply alike_equal|done].
Qed.

Lemma rms_alike e known known' inputs weight inputs' weight' :
  alike (λ p p', output_cells p = output_cells p' ∧ input_cells p = input_cells p' ∧ weight_cells p = weight_cells p')
    (assign_with_witnesses chip known inputs weight) (assign_with_witnesses (with_epsilon e) known' inputs' weight').
Proof using Type.
  unfold assign_with_witnesses. cbn [config with_epsilon k].
  apply alike_if; [|intros _; apply alike_err_l|intros _ ? ? ? ? _ _ [=]]. intros Hi%negb_false_iff%Nat.eqb_eq Hi'%negb_false_iff%Nat.eqb_eq.
  apply alike_if; [|intros _; apply alike_err_l|intros _ ? ? ? ? _ _ [=]]. intros Hw%negb_false_iff%Nat.eqb_eq Hw'%negb_false_iff%Nat.eqb_eq.
  eapply (alike_bind (λ p p', p = p')).
  { apply alike_try. eapply alike_conseq; [apply (alike_map (λ _ _, True) eq)|].
    - apply Forall2_same_length_lookup_2; [rewrite !length_zip_with; lia|done].
    - intros [x w] [x' w'] _. by repeat alike_step.
    - intros ys ys' Hys. by apply list_eq_Forall2. }
  intros cells _ <-. eapply alike_bind.
  { apply alike_try, alike_zip; [congruence|]. intros x x' c.
    eapply alike_bind; [apply mul_row_alike|]. intros [[a b] q] _ <-. cbn beta iota. by alike_cells. }
  intros sq sq' [Hsq Hlsq]. eapply alike_bind; [apply alike_try, mean_row_alike; done|].
  intros [m c] [m' c'] E. cbn [fst snd] in E. subst c'. cbn beta iota. eapply (alike_bind (λ p p', p.2 = p'.2)).
  { apply alike_try. unfold epsilon_row. eapply alike_bind; [apply add_row_alike|]. intros [[a b] v] _ <-. cbn beta iota.
    by alike_cells. }
  intros [vpe vc] [vpe' vc'] E. cbn [fst snd] in E. subst vc'. cbn beta iota.
  eapply (alike_bind (λ _ _, True)).
  { apply alike_map_err. unfold Rsqrt.assign_with_witness_mode. eapply alike_bind; [apply fn_assign_alike|].
    intros [] [] _. by repeat alike_step. }
  intros rv rv' _. eapply (alike_bind eq).
  { apply alike_try. unfold rsqrt_row. eapply alike_bind; [apply unshift_alike|]. intros u _ <-. alike_cells. by alike_cells. }
  intros o _ <-. eapply alike_bind.
  { apply alike_try, alike_zip; [congruence|]. intros x x' c0.
    eapply alike_bind; [apply mul_row_alike|]. intros [[a b] q] _ <-. cbn beta iota. by alike_cells. }
  intros n n' [Hn Hln]. eapply (alike_bind (λ p p', p.*2 = p'.*2)).
  { apply alike_try. eapply alike_conseq; [apply (alike_map (λ t t', t.1.2 = t'.1.2 ∧ t.2.2 = t'.2.2) (λ p p', p.2 = p'.2))|].
    - assert (length weight = length weight') as Hww by congruence. clear -Hn Hln Hww. generalize (cells.*2) as cs.
      revert n' weight weight' Hn Hln Hww. induction n as [|[x y] l IH]; intros [|[x' y'] l'] [|w ws] [|w' ws'] Hn Hln Hww [|c cs];
        simplify_eq/=; constructor; auto.
    - intros [[x xc] [w wc]] [[x' xc'] [w' wc']] [E1 E2]. cbn [fst snd] in E1, E2. subst xc' wc'.
      eapply alike_bind; [apply unshift_alike|]. intros u _ <-.
      eapply alike_bind; [apply mul_row_alike|]. intros [[a b] q] _ <-. cbn beta iota. by alike_cells.
    - intros ys ys' Hys. by apply Forall2_snd. }
  intros out out' Hout. by apply alike_ret.
Qed.
End RmsShape.

(** ** Layer norm *)

Section LayerShape.
Import LayerNorm.
Context `{L : Layouter} (chip : LayerNormChip).

Definition layer_with_epsilon (e : I18) : LayerNormChip :=
  let c := config chip in
  mkLayerNormChip (mkLayerNormConfig (reduce_mean c) (add c) (mul c) (rsqrt c) (k c) e (rsqrt_domain_min c)
    (rsqrt_domain_max c) (rsqrt_domain_n c) (mean_link c) (neg_mean c) (s_neg_mean c) (unshift_in c) (unshift_out c)
    (s_unshift c)) (rsqrt_chip chip).

Lemma variance_row_alike squares squares' e :
  squares.*2 = squares'.*2 → length squares = length squares' →
  alike (λ p p', p.2 = p'.2) (variance_row chip squares) (variance_row (layer_with_epsilon e) squares').
Proof using Type.
  intros Hs Hlen. unfold variance_row. eapply alike_bind; [apply mean_alike|].
  intros [[m c] cells] [[m' c'] cells'] [Hc Hcells]. cbn [fst snd] in Hc, Hcells. subst c' cells'. cbn beta iota.
  eapply (alike_bind (λ _ _, True)); [|intros _ _ _; by apply alike_ret].
  apply (alike_iter (λ t t', t.1.2 = t'.1.2 ∧ t.2 = t'.2)).
  - clear -Hs Hlen. revert squares' cells Hs Hlen.
    induction squares as [|[x y] l IH]; intros [|[x' y'] l'] [|c cells] Hs Hlen; simplify_eq/=; constructor; auto.
  - intros [[v sc] c0] [[v' sc'] c0'] [E1 E2]. cbn [fst snd] in E1, E2. subst sc' c0'.
    eapply alike_bind; [apply unshift_alike|]. intros u _ <-. alike_step. eapply alike_conseq; [apply alike_equal|done].
Qed.

Lemma square_rows_alike diffs diffs' e :
  diffs.*2 = diffs'.*2 → length diffs = length diffs' →
  alike (λ p p', p.*2 = p'.*2 ∧ p.*1.*2 = p'.*1.*2 ∧ length p = length p')
    (square_rows chip diffs) (square_rows (layer_with_epsilon e) diffs').
Proof using Type.
  intros Hd Hlen. eapply alike_conseq;
    [apply (alike_map (λ t t', t.2 = t'.2) (λ p p', p.2 = p'.2 ∧ p.1.2 = p'.1.2))|].
  - clear -Hd Hlen. revert diffs' Hd Hlen. induction diffs as [|[x y] l IH]; intros [|[x' y'] l'] Hd Hlen; simplify_eq/=;
      constructor; auto.
  - intros [v c] [v' c'] E. cbn [snd] in E. subst c'.
    eapply alike_bind; [apply unshift_alike|]. intros u _ <-.
    eapply alike_bind; [apply mul_row_alike|]. intros [[a b] q] _ <-. cbn beta iota. by alike_cells.
  - intros ys ys' Hys. split_and!.
    + apply Forall2_snd. eapply Forall2_impl; [exact Hys|]. by intros ? ? [].
    + clear -Hys. induction Hys as [|p p' l l' [_ Hp] _ IH]; [done|]. simpl. by f_equal.
    + by eapply Forall2_length.
Qed.

Lemma layer_alike e inputs inputs' :
  alike (λ _ _, True) (assign chip inputs) (assign (layer_with_epsilon e) inputs').
Proof using Type.
  unfold assign. cbn [config layer_with_epsilon k].
  apply alike_if; [|intros _; apply alike_err_l|intros _ ? ? ? ? _ _ [=]]. intros Hi%negb_false_iff%Nat.eqb_eq Hi'%negb_false_iff%Nat.eqb_eq.
  eapply alike_bind; [apply alike_try, mean_alike|].
  intros [[m c] cells] [[m' c'] cells'] [Hc Hcells]. cbn [fst snd] in Hc, Hcells. subst c' cells'. cbn beta iota.
  alike_step. eapply (alike_bind eq).
  { apply alike_try. unfold neg_mean_row, shifted_i64_witness. alike_cells. by alike_cells. }
  intros nc _ <-. eapply alike_bind.
  { apply alike_try, alike_zip; [congruence|]. intros x x' c0. eapply alike_bind; [apply add_row_alike|].
    intros [[p q] v] _ <-. cbn beta iota. eapply alike_bind; [apply unshift_alike|]. intros u _ <-. by alike_cells. }
  intros ds ds' [Hd Hld]. eapply alike_bind; [by apply alike_try, square_rows_alike|].
  intros sq sq' (Hs1 & Hs2 & Hls). eapply alike_bind.
  { apply alike_try, variance_row_alike; [done|]. by rewrite !length_fmap. }
  intros [v vc] [v' vc'] E. cbn [snd] in E. subst vc'. cbn beta iota. eapply (alike_bind (λ p p', p.2 = p'.2)).
  { apply alike_try. unfold epsilon_row. eapply alike_bind; [apply add_row_alike|]. intros [[p q] w] _ <-. cbn beta iota.
    by alike_cells. }
  intros [vpe ec] [vpe' ec'] E. cbn [snd] in E. subst ec'. cbn beta iota. eapply (alike_bind (λ _ _, True)).
  { apply alike_map_err. unfold Rsqrt.assign_with_witness_mode. eapply alike_bind; [apply fn_assign_alike|].
    intros [] [] _. by repeat alike_step. }
  intros rv rv' _. eapply (alike_bind eq).
  { apply alike_try. unfold rsqrt_row. eapply alike_bind; [apply unshift_alike|]. intros u _ <-. alike_cells. by alike_cells. }
  intros o _ <-. apply alike_try. rewrite Hs1. eapply alike_conseq; [apply (alike_map (λ t t', t.2 = t'.2) (λ _ _, True))|done].
  - apply zip_same_snd. by rewrite !length_fmap.
  - intros [x c0] [x' c0'] E. cbn [snd] in E. subst c0'. eapply alike_bind; [apply mul_row_alike|].
    intros [[p q] w] _ <-. cbn beta iota. eapply (alike_bind eq); [by repeat alike_step|intros _ _ _].
    eapply alike_bind; [by apply (alike_expect (λ _ _, True))|]. intros [] [] _. by alike_step.
Qed.
End LayerShape.
