(* ===== verification/Honest.v ===== *)
(** * Honest provers

    The grid an honest prover fills in from the calls of a run, and how a run of
    a complete chip yields a satisfied circuit.  Used to show on concrete
    circuits that the hypotheses of the soundness theorems can hold. *)
From S2P Require Import Prelude Field FixedPoint Circuit CircuitLogic RangeCheck Eltwise EltwiseProofs Lookup.

Open Scope nat_scope.

(** A layouter that refuses nothing, and a planner that keeps regions apart. *)
#[export] Instance free_layouter : Layouter := {| ErrorFront := unit; refuse _ _ := None |}.
#[export] Instance free_roomy : Roomy free_layouter.
Proof. by intros calls c. Qed.
Definition spread (region : nat) : Z := 100 * Z.of_nat region.

(** The known cells, by position. *)
Definition position (planner : nat → Z) (c : Cell) : Column * Z :=
  (cell_column c, planner (cell_region c) + Z.of_nat (cell_offset c))%Z.
Definition known_cells (planner : nat → Z) (calls : list Call) : list ((Column * Z) * Fr) :=
  omap (λ c, match c with
    | Assign cell (Some v) | Fixed cell v => Some (position planner cell, v)
    | _ => None end) calls.

Definition same_position (p p' : Column * Z) : bool := (p.1 =? p'.1) && (p.2 =? p'.2)%Z.

Definition grid_of (planner : nat → Z) (calls : list Call) : Column → Z → Fr := λ column row,
  match find (λ kv, same_position kv.1 (column, row)) (known_cells planner calls) with
  | Some kv => kv.2
  | None => Zmod.zero
  end.

(** No position is given two values. *)
Fixpoint apart (l : list ((Column * Z) * Fr)) : bool :=
  match l with
  | [] => true
  | pv :: l => forallb (λ pv', if same_position pv.1 pv'.1 then Zmod.eqb pv.2 pv'.2 else true) l && apart l
  end.

Lemma same_position_eq p p' : same_position p p' = true ↔ p = p'.
Proof.
  destruct p, p'. unfold same_position. rewrite andb_true_iff, Nat.eqb_eq, Z.eqb_eq. simpl.
  split; [by intros [-> ->]|by intros [= -> ->]].
Qed.

(** The grid holds what the keys fix. *)
Definition agrees_fixed (planner : nat → Z) (grid : Column → Z → Fr) (calls : list Call) : Prop :=
  ∀ c v, Fixed c v ∈ calls → cell_value planner grid c = v.

Lemma grid_of_known planner calls c v :
  apart (known_cells planner calls) = true → (position planner c, v) ∈ known_cells planner calls →
  cell_value planner (grid_of planner calls) c = v.
Proof.
  unfold cell_value, grid_of. fold (position planner c).
  generalize (known_cells planner calls) as l. intros l.
  change (cell_column c, (planner (cell_region c) + Z.of_nat (cell_offset c))%Z) with (position planner c).
  induction l as [|[p w] l IH]; [by intros _ ?%not_elem_of_nil|]. simpl. intros [Hp Hap]%andb_true_iff Hk.
  destruct (same_position p (position planner c)) eqn:E.
  - apply elem_of_cons in Hk as [[= _ ->]|Hk]; [done|]. rewrite forallb_forall in Hp.
    specialize (Hp _ (proj1 (list_elem_of_In _ _) Hk)). simpl in Hp. rewrite E in Hp. by apply Zmod.eqb_eq in Hp.
  - apply elem_of_cons in Hk as [[= <- _]|Hk]; [|by apply IH].
    rewrite (proj2 (same_position_eq _ _) eq_refl) in E. done.
Qed.

Lemma grid_of_agrees planner calls :
  apart (known_cells planner calls) = true → agrees planner (grid_of planner calls) calls.
Proof. intros Hap c v Hin. apply grid_of_known; [done|]. apply list_elem_of_omap. eexists. by split; [exact Hin|]. Qed.
Lemma grid_of_fixed planner calls :
  apart (known_cells planner calls) = true → agrees_fixed planner (grid_of planner calls) calls.
Proof. intros Hap c v Hin. apply grid_of_known; [done|]. apply list_elem_of_omap. eexists. by split; [exact Hin|]. Qed.

(** What a run returned. *)
Definition run {E A} (m : Lay E A) : option (Done A) :=
  match m empty_log with Some (Ok d) => Some d | _ => None end.

(** ** Reaching a circuit *)

(** The configuration came from [m], and the final system extends what [m] made. *)
Definition configured {A} (m : Meta A) (cs : ConstraintSystem) (config : A) : Prop :=
  ∃ cs0 cs1, m cs0 = Some (config, cs1) ∧ extends cs1 cs.

(** [m], started on [lg], returned [a]; its calls are among those of the circuit. *)
Definition returned `{Layouter} {E A} (m : Lay E A) (lg : Log) (log : list Call) (a : A) : Prop :=
  ∃ n calls, m lg = Some (Ok (mkDone a n calls)) ∧ calls ⊆ log.

Lemma configured_mwp {A} (m : Meta A) cs config R : configured m cs config → mwp cs m R → R config.
Proof. intros (cs0 & cs1 & E & Hex) Hm. destruct (Hm _ _ _ E) as (_ & _ & HR). auto. Qed.

Lemma returned_wp `{Layouter} {E A} (m : Lay E A) lg log P a R : returned m lg log a → wp log P m R → R a.
Proof. intros (n & calls & E1 & Hin) Hm. by destruct (Hm _ _ _ _ E1 Hin). Qed.
Lemma returned_wp_from `{Layouter} {E A} (m : Lay E A) lg log P a R : returned m lg log a → wp_from log P lg m R → R a.
Proof. intros (n & calls & E1 & Hin) Hm. by destruct (Hm _ _ _ E1 Hin). Qed.

Lemma returned_bind `{Layouter} {E A B} (m : Lay E A) (k : A → Lay E B) lg log b :
  returned (lay_bind m k) lg log b → ∃ a lg', returned m lg log a ∧ returned (k a) lg' log b.
Proof.
  intros (n & calls & E1 & Hin). unfold lay_bind in E1. destruct (m lg) as [[[a n1 c1]|]|] eqn:Em; [|done..].
  destruct (k a _) as [[[b' n2 c2]|]|] eqn:Ek; [|done..]. injection E1 as <- <- <-.
  exists a, (mkLog n1 (lg_calls lg ++ c1)). split; [exists n1, c1|exists n2, c2]; (split; [done|set_solver]).
Qed.

Lemma run_returned `{Layouter} {E A} (m : Lay E A) d : run m = Some d → returned m empty_log (dn_calls d) (dn_value d).
Proof.
  unfold run. destruct (m empty_log) as [[d'|]|] eqn:E1; [|done..]. intros [= ->]. destruct d as [a n calls].
  by exists n, calls.
Qed.

(** An honest run of a complete program satisfies the circuit. *)
Lemma run_complete `{Layouter} {E A} planner cs (m : Lay E A) d R :
  run m = Some d → apart (known_cells planner (dn_calls d)) = true →
  (agrees planner (grid_of planner (dn_calls d)) (dn_calls d) → agrees_fixed planner (grid_of planner (dn_calls d)) (dn_calls d) →
    wp (dn_calls d) (call_ok planner (grid_of planner (dn_calls d)) cs (dn_calls d)) m R) →
  cs_ok cs → padded cs (dn_calls d) →
  satisfied planner (grid_of planner (dn_calls d)) cs (dn_calls d) ∧ R (dn_value d).
Proof.
  intros Hrun Hap Hwp Hcs Hpad. unfold run in Hrun. destruct (m empty_log) as [[d'|]|] eqn:E1; [|done..].
  injection Hrun as ->. destruct d as [a n calls]. simpl in *.
  destruct (Hwp (grid_of_agrees _ _ Hap) (grid_of_fixed _ _ Hap) _ _ _ _ E1) as [HR Hok]; [done|]. split; [|done].
  by apply satisfied_intro.
Qed.

(** ** Concrete circuits *)

(** A chip configured in a system that has its columns. *)
Definition with_columns (n : nat) : ConstraintSystem := mkCS 0 n 0 [] [] [].

Lemma with_columns_ok n : cs_ok (with_columns n).
Proof. split; [apply NoDup_nil_2|apply Forall_nil_2..]. Qed.

(** The chip built from a configuration. *)
Definition chip_of {C X} (m : Meta C) (construct : C → option X) : Meta (C * X) :=
  let& c := m in match construct c with Some x => meta_ret (c, x) | None => meta_panic end.

Lemma chip_of_mwp {C X} final (m : Meta C) (construct : C → option X) R :
  mwp final m R → mwp final (chip_of m construct) (λ p, R p.1 ∧ construct p.1 = Some p.2).
Proof.
  intros Hm. eapply mwp_bind; [exact Hm|]. intros c. destruct (construct c) eqn:E; [by apply mwp_ret|].
  by intros cs p cs'.
Qed.
Lemma chip_of_configured {C X} (m : Meta C) (construct : C → option X) cs p :
  configured (chip_of m construct) cs p → configured m cs p.1.
Proof.
  intros (cs0 & cs1 & E & Hex). unfold chip_of, meta_bind in E. destruct (m cs0) as [[c cs']|] eqn:Em; [|done].
  destruct (construct c); [|done]. injection E as <- <-. by exists cs0, cs'.
Qed.

Lemma chip_of_built {C X} (m : Meta C) (construct : C → option X) cs p :
  configured (chip_of m construct) cs p → construct p.1 = Some p.2.
Proof.
  intros (cs0 & cs1 & E & _). unfold chip_of, meta_bind in E. destruct (m cs0) as [[c cs']|]; [|done].
  destruct (construct c) eqn:Ec; [|done]. by injection E as <- <-.
Qed.

Definition holds_entry (calls : list Call) (i : nat) (vt : Fr * TableColumn) : bool :=
  existsb (λ c, match c with
    | Table t i' v => if t =? vt.2 then (if i' =? i then Zmod.eqb v vt.1 else false) else false
    | _ => false end) calls.
Definition holds_row (calls : list Call) (tuple : list (Fr * TableColumn)) (i : nat) : bool :=
  forallb (holds_entry calls i) tuple.
Definition padded_check (cs : ConstraintSystem) (calls : list Call) : bool :=
  forallb (λ l, existsb (λ c, match c with
    | Table _ i _ => holds_row calls (off_tuple l) i | _ => false end) calls) (cs_lookups cs).

Lemma holds_entry_sound calls i v t : holds_entry calls i (v, t) = true → Table t i v ∈ calls.
Proof.
  intros (c & Hin & Hc)%existsb_exists. destruct c as [| | |t2 i2 v2| |]; try done. cbn [fst snd] in Hc.
  destruct (Nat.eqb_spec t2 t) as [->|]; [|done]. destruct (Nat.eqb_spec i2 i) as [->|]; [|done].
  apply Zmod.eqb_eq in Hc as ->. by apply list_elem_of_In.
Qed.

Lemma padded_check_sound cs calls : padded_check cs calls = true → padded cs calls.
Proof.
  unfold padded_check. rewrite forallb_forall. intros H l Hl%list_elem_of_In%H.
  apply existsb_exists in Hl as (c & _ & Hc). destruct c as [| | |t i v| |]; try done. exists i.
  unfold holds_row in Hc. rewrite forallb_forall in Hc. apply Forall_forall. intros [v' t'] Hin%list_elem_of_In%Hc.
  by apply holds_entry_sound.
Qed.

(** The configuration succeeds, [load] and then [main] run, no position of the
    grid is given two values, the tables are padded, and [also] holds of the calls. *)
Definition stage `{Layouter} {A E B} (m : Meta A) (n : nat) (load : A → Lay E unit) (main : A → Lay E B)
  (also : A → list Call → bool) : bool :=
  match m (with_columns n) with
  | Some (config, cs) =>
      match run (lay_bind (load config) (λ _, main config)) with
      | Some d => apart (known_cells spread (dn_calls d)) && padded_check cs (dn_calls d) && also config (dn_calls d)
      | None => false
      end
  | None => false
  end.

Lemma stage_set_fixed `{Layouter} {A E B} (m : Meta A) n (load : A → Lay E unit) (main : A → Lay E B) also
    (I : ConstraintSystem → A → Prop) (T : A → list Call → Prop) (R : A → list Call → (Column → Z → Fr) → B → Prop) :
  stage m n load main also = true →
  (∀ final, mwp final m (I final)) →
  (∀ config P log, (∀ t i v, P (Table t i v)) → wp log P (load config) (λ _, T config log)) →
  (∀ config cs log grid, I cs config → cs_ok cs → agrees spread grid log → agrees_fixed spread grid log → T config log →
    wp log (call_ok spread grid cs log) (main config) (R config log grid)) →
  ∃ config cs log grid lg b, configured m cs config ∧ cs_ok cs ∧ satisfied spread grid cs log ∧
    agrees spread grid log ∧ returned (main config) lg log b ∧ also config log = true ∧ R config log grid b.
Proof.
  unfold stage. intros Hst Hm Hload Hmain. destruct (m (with_columns n)) as [[config cs]|] eqn:Em; [|done].
  destruct (run _) as [d|] eqn:Hrun; [|done].
  apply andb_true_iff in Hst as [[Hap Hpad%padded_check_sound]%andb_true_iff Halso].
  destruct (Hm cs _ _ _ Em) as (Hok & _ & HI). specialize (HI (reflexivity _)).
  assert (Hcs : cs_ok cs) by apply Hok, with_columns_ok.
  destruct (run_complete spread cs _ d (R config (dn_calls d) (grid_of spread (dn_calls d))) Hrun Hap) as [Hsat HR]; [|done..|].
  { intros Hag Hfix. eapply (wp_bind _ _ _ _ (λ _, T config (dn_calls d))); [by apply Hload|]. intros _ HT. by apply Hmain. }
  apply run_returned, returned_bind in Hrun as (? & lg & _ & Hret).
  exists config, cs, (dn_calls d), (grid_of spread (dn_calls d)), lg, (dn_value d).
  split_and!; [by eexists _, _|done|done|by apply grid_of_agrees|done..].
Qed.

Lemma stage_set `{Layouter} {A E B} (m : Meta A) n (load : A → Lay E unit) (main : A → Lay E B) also
    (I : ConstraintSystem → A → Prop) (T : A → list Call → Prop) (R : A → list Call → (Column → Z → Fr) → B → Prop) :
  stage m n load main also = true →
  (∀ final, mwp final m (I final)) →
  (∀ config P log, (∀ t i v, P (Table t i v)) → wp log P (load config) (λ _, T config log)) →
  (∀ config cs log grid, I cs config → cs_ok cs → agrees spread grid log → T config log →
    wp log (call_ok spread grid cs log) (main config) (R config log grid)) →
  ∃ config cs log grid lg b, configured m cs config ∧ cs_ok cs ∧ satisfied spread grid cs log ∧
    agrees spread grid log ∧ returned (main config) lg log b ∧ also config log = true ∧ R config log grid b.
Proof. intros Hst Hm Hload Hmain. eapply stage_set_fixed; [done..|]. intros. by apply Hmain. Qed.

(** Two programs of one circuit. *)
Definition ran `{Layouter} {E A} (m : Lay E A) : bool := match run m with Some _ => true | None => false end.
Definition both `{Layouter} {A E B E' B'} (m : Meta A) (n : nat) (f : A → Lay E B) (f' : A → Lay E' B') : bool :=
  match m (with_columns n) with Some (a, _) => ran (f a) && ran (f' a) | None => false end.

Lemma ran_run `{Layouter} {E A} (m : Lay E A) : ran m = true → ∃ d, m empty_log = Some (Ok d).
Proof. unfold ran, run. destruct (m empty_log) as [[d|]|]; [by exists d|done..]. Qed.

Lemma both_ran `{Layouter} {A E B E' B'} (m : Meta A) n (f : A → Lay E B) (f' : A → Lay E' B') :
  both m n f f' = true →
  ∃ a cs d d', configured m cs a ∧ f a empty_log = Some (Ok d) ∧ f' a empty_log = Some (Ok d').
Proof.
  unfold both. destruct (m (with_columns n)) as [[a cs]|] eqn:E1; [|done].
  intros [(d & Hd)%ran_run (d' & Hd')%ran_run]%andb_true_iff. exists a, cs, d, d'. split_and!; [by eexists _, _|done..].
Qed.

(** ** Checks of the tables of a concrete log *)

Definition bytes_only (t : TableColumn) (calls : list Call) : bool :=
  forallb (λ c, match c with
    | Table t' i v => negb (t' =? t) || (Zmod.eqb v (fr (Z.of_nat i)) && (i <? 256))
    | _ => true end) calls.

Lemma bytes_only_sound config calls :
  bytes_only (LookupRangeCheck.table config) calls = true → LookupRangeCheck.table_bytes calls config.
Proof.
  intros H i v Hin. unfold bytes_only in H. rewrite forallb_forall in H.
  apply list_elem_of_In in Hin. specialize (H _ Hin). simpl in H. rewrite Nat.eqb_refl in H. simpl in H.
  apply andb_true_iff in H as [Hv Hi]. apply Zmod.eqb_eq in Hv. apply Nat.ltb_lt in Hi. done.
Qed.

Definition mul_bytes (mul : EltwiseMulConfig) (log : list Call) : bool :=
  bytes_only (LookupRangeCheck.table (mul_range_a mul)) log && bytes_only (LookupRangeCheck.table (mul_range_b mul)) log.

Lemma mul_bytes_sound mul log : mul_bytes mul log = true → mul_table_bytes log mul.
Proof. unfold mul_bytes, mul_table_bytes. rewrite andb_true_iff. intros []. split; by apply bytes_only_sound. Qed.

Definition rows_only (chip : Lookup.LookupChip) (calls : list Call) : bool :=
  let entry i (f : I18 * I18 → I18) v := match table_rows chip !! i with Some p => Zmod.eqb v (fr (raw (f p))) | None => false end in
  forallb (λ c, match c with
    | Table t i v =>
        (negb (t =? Lookup.table_input (Lookup.lookup_config chip)) || entry i fst v) &&
        (negb (t =? Lookup.table_output (Lookup.lookup_config chip)) || entry i snd v)
    | _ => true end) calls.

Lemma rows_only_sound chip calls : rows_only chip calls = true → table_sound calls chip.
Proof.
  intros H i v w Hv Hw. unfold rows_only in H. rewrite forallb_forall in H.
  apply list_elem_of_In in Hv, Hw. apply H in Hv, Hw. simpl in Hv, Hw.
  apply andb_true_iff in Hv as [Hv _], Hw as [_ Hw]. rewrite Nat.eqb_refl in Hv, Hw. simpl in Hv, Hw.
  destruct (table_rows chip !! i) as [p|] eqn:E; [|done]. apply Zmod.eqb_eq in Hv, Hw. exists p.
  split; [by eapply list_elem_of_lookup_2|done].
Qed.

(** Lists of numbers in range. *)
Ltac raws := repeat (apply Forall_cons; split; [done|]); apply Forall_nil_2.
