(* ===== verification/ChipTheorems.v ===== *)
(** * What the arithmetic chips prove

    Soundness: whatever grid satisfies the circuit, the cells of an [assign]
    hold the exact fixed-point results.  Each theorem is instantiated at a
    concrete circuit with the grid of an honest prover. *)
From S2P Require Import Prelude Field FixedPoint Circuit CircuitLogic RangeCheck Eltwise EltwiseProofs Reduce Div DotProduct Honest.

Open Scope Z_scope.

(** ** Multiplication *)

Section Theorems.
Context `{L : Layouter} (planner : nat → Z) (grid : Column → Z → Fr) (cs : ConstraintSystem) (log : list Call) (lg : Log).

(** C18. A multiplication row in a satisfied circuit is exact: its operand cells
    hold two [i64] fixed-point numbers, its output cell their product rounded
    down by the scale, shifted by 2^63, and the product did not overflow. *)
Theorem multiplication_exact a b q r slack bits mul a_val b_val known cells :
  configured (mul_configure a b q r slack bits) cs mul →
  mul_table_bytes log mul →
  satisfied planner grid cs log →
  returned (assign_mul_row_with_witnesses mul a_val b_val known) lg log cells →
  ∃ x y z rem, plain planner grid cells.1.1 x ∧ plain planner grid cells.1.2 y ∧ shifted planner grid cells.2 z ∧
    requantize_mul (I18_ x) (I18_ y) = Ok (I18_ z, rem).
Proof.
  intros Hcfg Ht Hsat Hret. pose proof (configured_mwp _ _ _ _ Hcfg (mul_configure_ok _ _ _ _ _ _ _)) as Hinst.
  apply satisfied_log_ok in Hsat.
  pose proof (returned_wp _ _ _ _ _ _ Hret (mul_row_sound planner grid cs log mul Hinst a_val b_val known Ht Hsat)) as H.
  by destruct cells as [[? ?] ?].
Qed.

(** An addition row in a satisfied circuit is exact and does not overflow. *)
Theorem addition_exact a b c bits config a_raw b_raw known cells :
  configured (add_configure a b c bits) cs config →
  satisfied planner grid cs log →
  returned (assign_add_row_with_witnesses config a_raw b_raw known) lg log cells →
  ∃ x y, shifted planner grid cells.1.1 x ∧ shifted planner grid cells.1.2 y ∧
    shifted planner grid cells.2 (x + y) ∧ in_i64 (x + y).
Proof.
  intros Hcfg Hsat%satisfied_log_ok Hret. pose proof (configured_mwp _ _ _ _ Hcfg (add_configure_ok _ _ _ _ _)) as Hinst.
  pose proof (returned_wp _ _ _ _ _ _ Hret (add_row_sound planner grid cs log config Hinst a_raw b_raw known Hsat)) as H.
  destruct cells as [[? ?] ?]. destruct H as (x & y & Hx & Hy & Hz). exists x, y. split_and!; [done..|by destruct Hz].
Qed.

(** A mean in a satisfied circuit is the sum of the input cells times the
    reciprocal of their number, rounded down, and the sum is an [i64]. *)
Theorem mean_exact v s sh q r sl bits k config inputs known value c cells :
  configured (ReduceMean.configure v s sh q r sl bits k) cs config →
  Z.of_nat k ≤ 2 ^ 64 →
  satisfied planner grid cs log →
  returned (ReduceMean.assign_with_witness_mode config inputs known) lg log (value, c, cells) →
  length cells = k ∧ Ok (ReduceMean.reciprocal config) = from_f64 (f64_reciprocal k) ∧
  ∀ xs, Forall2 (plain planner grid) cells xs → in_i64 (zsum xs) ∧
    ∃ m rem, requantize_mul (I18_ (zsum xs)) (ReduceMean.reciprocal config) = Ok (m, rem) ∧ shifted planner grid c (raw m).
Proof.
  intros Hcfg Hk Hsat%satisfied_log_ok Hret.
  destruct (configured_mwp _ _ _ _ Hcfg (mean_configure_ok _ _ _ _ _ _ _ _ _)) as (Hinst & Ek & Hrec).
  rewrite <-Ek in Hk. destruct (returned_wp _ _ _ _ _ _ Hret (mean_sound planner grid cs log config Hinst inputs known Hk Hsat))
    as (Hlen & z & Hz & Hin & q0 & r0 & Hq & Hc).
  split_and!; [congruence|done|]. intros xs Hxs. rewrite <-(Hz xs Hxs). eauto.
Qed.

(** A division row in a satisfied circuit is exact: where the operand cells
    hold [x] and [y], [y] is positive and the quotient cell holds [x / y] rounded
    down, in range. *)
Theorem division_exact n d q r sl dm bits config numer denom value nc dc x y :
  configured (Div.configure n d q r sl dm bits) cs config →
  satisfied planner grid cs log →
  returned (Div.assign config numer denom) lg log (value, nc, dc) →
  plain planner grid nc x → plain planner grid dc y →
  ∃ quotient rem, Div.div_quotient_remainder (E := ErrorFront) (I18_ x) (I18_ y) = Ok (I18_ quotient, rem) ∧
    shifted planner grid (mkCell (cell_region nc) 0 (Div.q_shift config)) quotient.
Proof.
  intros Hcfg Hsat%satisfied_log_ok Hret Hx Hy. pose proof (configured_mwp _ _ _ _ Hcfg (Div.div_configure_ok _ _ _ _ _ _ _ _)) as Hinst.
  exact (returned_wp _ _ _ _ _ _ Hret (Div.div_sound planner grid cs log config Hinst numer denom Hsat) x y Hx Hy).
Qed.

(** C19. The region of a dot product in a satisfied circuit holds two vectors of
    [k] numbers and the sum of their products, accumulated without wrap-around
    and rescaled once. *)
Theorem dot_product_exact a b acc q r sl bits k config a_vals b_vals value :
  configured (DotProduct.configure a b acc q r sl bits k) cs config →
  Z.of_nat k ≤ 2 ^ 64 →
  DotProduct.table_bytes log config →
  satisfied planner grid cs log →
  returned (DotProduct.assign config a_vals b_vals) lg log value →
  ∃ xs ys quotient rem, length xs = k ∧ length ys = k ∧
    (∀ i x, xs !! i = Some x → plain planner grid (mkCell (lg_regions lg) i (DotProduct.a config)) x) ∧
    (∀ i y, ys !! i = Some y → plain planner grid (mkCell (lg_regions lg) i (DotProduct.b config)) y) ∧
    requantize_raw (zsum (DotProduct.products xs ys)) = Ok (I18_ quotient, rem) ∧
    shifted planner grid (mkCell (lg_regions lg) (k - 1) (DotProduct.q config)) quotient.
Proof.
  intros Hcfg Hk Ht Hsat%satisfied_log_ok Hret.
  destruct (configured_mwp _ _ _ _ Hcfg (DotProduct.dot_configure_ok _ _ _ _ _ _ _ _ _)) as (Hinst & Ek & _). rewrite <-Ek in Hk.
  destruct (returned_wp_from _ _ _ _ _ _ Hret (DotProduct.dot_sound planner grid cs log config Hinst a_vals b_vals lg Hk Ht Hsat))
    as (xs & ys & Hx & Hy & Hxs & Hys & q0 & r0 & Hq & Hc). rewrite Ek in *.
  exists xs, ys, q0, r0. by split_and!.
Qed.
End Theorems.

(** ** The theorems at concrete circuits *)

(** 1.5 times -0.25. *)
Lemma mul_stage :
  stage (mul_configure 0 1 2 3 4 5)%nat 6 load_mul_operand_range_table
    (λ mul, assign_mul_row mul (I18_ 1500000000000000000) (I18_ (-250000000000000000))) mul_bytes = true.
Proof. vm_cast_no_check (eq_refl true). Qed.

Example multiplication_exact_witness :
  ∃ grid cells x y z rem, plain spread grid cells.1.1 x ∧ plain spread grid cells.1.2 y ∧ shifted spread grid cells.2 z ∧
    requantize_mul (I18_ x) (I18_ y) = Ok (I18_ z, rem).
Proof.
  destruct (stage_set _ _ _ _ _ (λ cs mul, mul_installed cs mul) (λ mul log, mul_table_loaded log mul) (λ _ _ _ _, True) mul_stage)
    as (mul & cs & log & grid & lg & cells & Hcfg & _ & Hsat & _ & Hret & Ht%mul_bytes_sound & _).
  - intros final. apply mul_configure_ok.
  - intros mul P log. apply load_mul_tables.
  - intros mul cs log grid Hinst Hcs Hag Ht. eapply wp_conseq; [by apply mul_row_complete|done].
  - exists grid, cells. exact (multiplication_exact spread grid cs log lg _ _ _ _ _ _ _ _ _ _ _ Hcfg Ht Hsat Hret).
Defined.

(** 2.5 - 4. *)
Lemma add_stage :
  stage (add_configure 0 1 2 3)%nat 4 (λ _, lay_ret tt)
    (λ config, assign_add_row config 2500000000000000000 (-4000000000000000000)) (λ _ _, true) = true.
Proof. vm_cast_no_check (eq_refl true). Qed.

Example addition_exact_witness :
  ∃ grid cells x y, shifted spread grid cells.1.1 x ∧ shifted spread grid cells.1.2 y ∧
    shifted spread grid cells.2 (x + y) ∧ in_i64 (x + y).
Proof.
  destruct (stage_set _ _ _ _ _ (λ cs config, add_installed cs config) (λ _ _, True) (λ _ _ _ _, True) add_stage)
    as (config & cs & log & grid & lg & cells & Hcfg & _ & Hsat & _ & Hret & _).
  - intros final. apply add_configure_ok.
  - intros config P log _. by apply wp_ret.
  - intros config cs log grid Hinst Hcs Hag _. eapply wp_conseq; [by apply add_row_complete|done].
  - exists grid, cells. exact (addition_exact spread grid cs log lg _ _ _ _ _ _ _ _ _ Hcfg Hsat Hret).
Defined.

(** The mean of 1, 2 and -6. *)
Lemma mean_stage :
  stage (ReduceMean.configure 0 1 2 3 4 5 6 3)%nat 7 (λ _, lay_ret tt)
    (λ config, ReduceMean.assign config (I18_ <$> [1000000000000000000; 2000000000000000000; -6000000000000000000]))
    (λ _ _, true) = true.
Proof. vm_cast_no_check (eq_refl true). Qed.

Example mean_exact_witness :
  ∃ config grid c cells, length cells = 3%nat ∧ Ok (ReduceMean.reciprocal config) = from_f64 (f64_reciprocal 3) ∧
    ∀ xs, Forall2 (plain spread grid) cells xs → in_i64 (zsum xs) ∧
      ∃ m rem, requantize_mul (I18_ (zsum xs)) (ReduceMean.reciprocal config) = Ok (m, rem) ∧ shifted spread grid c (raw m).
Proof.
  destruct (stage_set _ _ _ _ _ (λ cs config, mean_installed cs config) (λ _ _, True) (λ _ _ _ _, True) mean_stage)
    as (config & cs & log & grid & lg & [[value c] cells] & Hcfg & _ & Hsat & _ & Hret & _).
  - intros final. eapply mwp_conseq; [apply mean_configure_ok|by intros ? []].
  - intros config P log _. by apply wp_ret.
  - intros config cs log grid Hinst Hcs Hag _. eapply wp_conseq; [by apply mean_complete; [..|raws]|done].
  - exists config, grid, c, cells. refine (mean_exact spread grid cs log lg _ _ _ _ _ _ _ _ _ _ _ _ _ _ Hcfg _ Hsat Hret). done.
Defined.

(** -7.5 / 2. *)
Lemma div_stage :
  stage (Div.configure 0 1 2 3 4 5 6)%nat 7 (λ _, lay_ret tt)
    (λ config, Div.assign config (I18_ (-7500000000000000000)) (I18_ 2000000000000000000)) (λ _ _, true) = true.
Proof. vm_cast_no_check (eq_refl true). Qed.

Example division_exact_witness :
  ∃ config grid nc quotient rem,
    Div.div_quotient_remainder (E := ErrorFront) (I18_ (-7500000000000000000)) (I18_ 2000000000000000000) =
      Ok (I18_ quotient, rem) ∧
    shifted spread grid (mkCell (cell_region nc) 0 (Div.q_shift config)) quotient.
Proof.
  destruct (stage_set _ _ _ _ _ (λ cs config, Div.installed cs config) (λ _ _, True)
    (λ _ _ grid p, plain spread grid p.1.2 (-7500000000000000000) ∧ plain spread grid p.2 2000000000000000000) div_stage)
    as (config & cs & log & grid & lg & [[value nc] dc] & Hcfg & _ & Hsat & _ & Hret & _ & Hn & Hd).
  - intros final. apply Div.div_configure_ok.
  - intros config P log _. by apply wp_ret.
  - intros config cs log grid Hinst Hcs Hag _. eapply wp_conseq; [by apply Div.div_complete|].
    intros [[value nc] dc] (Hn & Hd & _). by split.
  - exists config, grid, nc. exact (division_exact spread grid cs log lg _ _ _ _ _ _ _ _ _ _ _ _ _ _ _ Hcfg Hsat Hret Hn Hd).
Defined.

(** (1.5, 2) . (-3, 0.25). *)
Definition dot_bytes (config : DotProduct.DotProductConfig) (log : list Call) : bool :=
  bytes_only (LookupRangeCheck.table (DotProduct.range_a config)) log &&
  bytes_only (LookupRangeCheck.table (DotProduct.range_b config)) log.

Lemma dot_stage :
  stage (DotProduct.configure 0 1 2 3 4 5 6 2)%nat 7 (λ config, lay_map_err DotProduct.Circuit (DotProduct.load_range_table config))
    (λ config, DotProduct.assign config [I18_ 1500000000000000000; I18_ 2000000000000000000]
      [I18_ (-3000000000000000000); I18_ 250000000000000000]) dot_bytes = true.
Proof. vm_cast_no_check (eq_refl true). Qed.

Example dot_product_exact_witness :
  ∃ config grid region xs ys quotient rem, length xs = 2%nat ∧ length ys = 2%nat ∧
    (∀ i x, xs !! i = Some x → plain spread grid (mkCell region i (DotProduct.a config)) x) ∧
    (∀ i y, ys !! i = Some y → plain spread grid (mkCell region i (DotProduct.b config)) y) ∧
    requantize_raw (zsum (DotProduct.products xs ys)) = Ok (I18_ quotient, rem) ∧
    shifted spread grid (mkCell region 1 (DotProduct.q config)) quotient.
Proof.
  destruct (stage_set _ _ _ _ _ (λ cs config, DotProduct.installed cs config) (λ config log, DotProduct.table_loaded log config)
    (λ _ _ _ _, True) dot_stage)
    as (config & cs & log & grid & lg & value & Hcfg & _ & Hsat & _ & Hret & Ht & _).
  - intros final. eapply mwp_conseq; [apply DotProduct.dot_configure_ok|by intros ? []].
  - intros config P log HP. by apply wp_map_err, DotProduct.load_tables.
  - intros config cs log grid Hinst Hcs Hag Ht. eapply wp_conseq; [by apply DotProduct.dot_complete; [..|raws|raws]|done].
  - exists config, grid, (lg_regions lg). apply andb_true_iff in Ht as [Ha%bytes_only_sound Hb%bytes_only_sound].
    refine (dot_product_exact spread grid cs log lg _ _ _ _ _ _ _ _ _ _ _ _ Hcfg _ (conj Ha Hb) Hsat Hret). done.
Defined.
