(* ===== verification/TableTheorems.v ===== *)
(** * What the table chips and the norms prove

    Lookups, embeddings, softmax and RMS norm: what their cells hold in a
    satisfied circuit, that honest runs satisfy it, and where two different
    runs are one and the same circuit. *)
From S2P Require Import Prelude Field FixedPoint Circuit CircuitLogic RangeCheck Eltwise EltwiseProofs Shape Reduce Div Lookup EmbedLookup Softmax Norm NormProofs Honest.

Open Scope Z_scope.

Section Theorems.
Context `{L : Layouter} (planner : nat → Z) (grid : Column → Z → Fr) (cs : ConstraintSystem) (log : list Call) (lg : Log).

(** A looked-up pair of cells in a satisfied circuit is a point of the
    table's function, or the padding pair. *)
Theorem table_lookup_exact i o config xs ys chip x known value c :
  configured (Lookup.configure i o) cs config →
  Lookup.construct config xs ys = Some chip → Forall in_I18 xs → Forall in_I18 ys →
  table_sound log chip →
  satisfied planner grid cs log →
  returned (Lookup.assign_with_witness_mode chip x known) lg log (value, c) →
  ∃ x' y', plain planner grid (mkCell (cell_region c) 0 i) x' ∧ plain planner grid c y' ∧
    ((I18_ x', I18_ y') ∈ zip xs ys ∨ x' = i64_min ∧ y' = 0).
Proof.
  intros Hcfg Hch Hx Hy Ht Hsat%satisfied_log_ok Hret. pose proof (construct_in_domain _ _ _ _ Hch Hx Hy) as Hdom.
  destruct (construct_Some _ _ _ _ Hch) as [Ec Ed].
  destruct (configured_mwp _ _ _ _ Hcfg (fn_configure_ok _ _ _)) as (Hinst & Ei & Eo). rewrite <-Ec in *.
  destruct (returned_wp _ _ _ _ _ _ Hret (fn_assign_sound planner grid cs log chip Hinst Hdom x known Hsat Ht))
    as ([[x'] [y']] & Hp & Hcx & Hcy). exists x', y'. rewrite Ei in Hcx. rewrite <-Ed. split_and!; [done..|].
  apply elem_of_app in Hp as [Hp|[= -> ->]%list_elem_of_singleton]; [by left|by right].
Qed.

(** C17. RMS norm in a satisfied circuit: the output cells hold the squares'
    mean, an epsilon, the tabulated inverse square root and the weights combined
    as [rms_spec] says, every product exact and rounded down.  The epsilon is
    any [i64]. *)
Theorem rms_norm_exact c1 c2 c3 c4 c5 c6 c7 c8 c9 c10 c11 c12 c13 c14 c15 c16 c17 c18 c19 c20 c21 k em d config chip
    known inputs weight out :
  configured (RmsNorm.configure c1 c2 c3 c4 c5 c6 c7 c8 c9 c10 c11 c12 c13 c14 c15 c16 c17 c18 c19 c20 c21 k em d) cs config →
  RmsNorm.construct config = Some chip → domain_typed d → Z.of_nat k ≤ 2 ^ 64 →
  table_sound log (RmsNorm.rsqrt_chip chip) → mul_table_bytes log (RmsNorm.mul config) →
  satisfied planner grid cs log →
  returned (RmsNorm.assign_with_witnesses chip known inputs weight) lg log out →
  ∃ xs ws outs eps, Forall2 (plain planner grid) (RmsNorm.input_cells out) xs ∧
    Forall2 (plain planner grid) (RmsNorm.weight_cells out) ws ∧
    Forall2 (shifted planner grid) (RmsNorm.output_cells out) outs ∧ length xs = k ∧ in_i64 eps ∧
    rms_spec (ReduceMean.reciprocal (RmsNorm.reduce_mean config)) (table_rows (RmsNorm.rsqrt_chip chip)) eps xs ws outs.
Proof.
  intros Hcfg Hch Hd Hk Ht Hb Hsat%satisfied_log_ok Hret.
  destruct (configured_mwp _ _ _ _ Hcfg (rms_configure_ok _ _ _ _ _ _ _ _ _ _ _ _ _ _ _ _ _ _ _ _ _ _ _ _ _))
    as (Hinst & Ek & _ & Ed). rewrite <-Ek in *. rewrite <-Ed in Hd.
  destruct (rms_construct _ _ Hch Hd) as (<- & Hlk & Hdom).
  exact (returned_wp _ _ _ _ _ _ Hret (rms_sound planner grid cs log chip Hinst Hdom Hlk known Hsat Hb inputs weight Hk Ht)).
Qed.

(** An honest RMS norm satisfies every call it makes, and its output cells
    hold the norm for the configured epsilon. *)
Theorem rms_norm_complete c1 c2 c3 c4 c5 c6 c7 c8 c9 c10 c11 c12 c13 c14 c15 c16 c17 c18 c19 c20 c21 k em d config chip
    inputs weight out n calls :
  configured (RmsNorm.configure c1 c2 c3 c4 c5 c6 c7 c8 c9 c10 c11 c12 c13 c14 c15 c16 c17 c18 c19 c20 c21 k em d) cs config →
  RmsNorm.construct config = Some chip → domain_typed d →
  table_complete log (RmsNorm.rsqrt_chip chip) → mul_table_loaded log (RmsNorm.mul config) →
  cs_ok cs → agrees planner grid log → Forall in_I18 inputs → Forall in_I18 weight →
  RmsNorm.assign chip inputs weight lg = Some (Ok (mkDone out n calls)) → calls ⊆ log →
  Forall (call_ok planner grid cs log) calls ∧
  Forall2 (shifted planner grid) (RmsNorm.output_cells out) (raw <$> RmsNorm.outputs out) ∧
  ∃ eps, epsilon_of em = Some eps ∧
    rms_spec (ReduceMean.reciprocal (RmsNorm.reduce_mean config)) (table_rows (RmsNorm.rsqrt_chip chip)) (raw eps)
      (raw <$> inputs) (raw <$> weight) (raw <$> RmsNorm.outputs out).
Proof.
  intros Hcfg Hch Hd Ht Hb Hcs Hag Hin Hw Hrun Hsub. destruct (configured_mwp _ _ _ _ Hcfg (rms_configure_ok _ _ _ _ _ _ _ _ _ _ _ _ _ _ _ _ _ _ _ _ _ _ _ _ _))
    as (Hinst & Ek & He & Ed). rewrite <-Ed in Hd. destruct (rms_construct _ _ Hch Hd) as (<- & Hlk & Hdom).
  destruct (rms_complete planner grid cs log chip Hinst Hdom Hlk Hcs Hag Hb inputs weight Ht Hin Hw _ _ _ _ Hrun Hsub)
    as ((_ & _ & Ho & Hspec) & Hok). split_and!; eauto.
Qed.

(** C22. The epsilon is not part of the circuit: RMS norms of two epsilons, over
    any values, are satisfied by the same grids, and have the same output cells. *)
Theorem rms_norm_epsilon_free chip e known known' inputs weight inputs' weight' d d' :
  RmsNorm.assign_with_witnesses chip known inputs weight lg = Some (Ok d) →
  RmsNorm.assign_with_witnesses (with_epsilon chip e) known' inputs' weight' lg = Some (Ok d') →
  RmsNorm.output_cells (dn_value d) = RmsNorm.output_cells (dn_value d') ∧
  (satisfied planner grid cs (lg_calls lg ++ dn_calls d) ↔ satisfied planner grid cs (lg_calls lg ++ dn_calls d')).
Proof.
  intros E1 E2. destruct (rms_alike chip e known known' inputs weight inputs' weight' lg lg d d' eq_refl E1 E2)
    as ((Ho & _) & _ & Hc). split; [done|]. by rewrite (same_calls_app _ _ _ Hc).
Qed.

(** Nor is the epsilon of a layer norm. *)
Theorem layer_norm_epsilon_free chip e inputs inputs' d d' :
  LayerNorm.assign chip inputs lg = Some (Ok d) →
  LayerNorm.assign (layer_with_epsilon chip e) inputs' lg = Some (Ok d') →
  satisfied planner grid cs (lg_calls lg ++ dn_calls d) ↔ satisfied planner grid cs (lg_calls lg ++ dn_calls d').
Proof.
  intros E1 E2. destruct (layer_alike chip e inputs inputs' lg lg d d' eq_refl E1 E2) as (_ & _ & Hc).
  by rewrite (same_calls_app _ _ _ Hc).
Qed.

(** An embedding of an index in range returns the table's row. *)
Theorem embedding_row `{!Roomy L} index_col output_cols table_size embed_dim config table index row :
  configured (EmbedLookup.configure index_col output_cols table_size embed_dim) cs config →
  length table = table_size → Forall (λ r, length r = embed_dim) table →
  table !! index = Some row →
  ∃ n calls, EmbedLookup.assign config index table lg = Some (Ok (mkDone row n calls)).
Proof.
  intros Hcfg <- Hdim Hrow. destruct (configured_mwp _ _ _ _ Hcfg (EmbedLookup.embed_configure_ok _ _ _ _ _)) as (_ & Hs & <- & Hl).
  destruct (EmbedLookup.embed_returns config table (eq_sym Hs) Hdim Hl index row Hrow lg) as (out & n & calls & E & ->).
  eauto.
Qed.

(** The dimensions' indices are not tied together: a grid satisfies the
    embedding of one index exactly when it satisfies the rows of other indices,
    one of each dimension's own. *)
Theorem embedding_index_unlinked config table index indices d d' :
  length indices = EmbedLookup.embed_dim config →
  EmbedLookup.assign config index table lg = Some (Ok d) →
  EmbedLookup.assign_each config table indices lg = Some (Ok d') →
  satisfied planner grid cs (lg_calls lg ++ dn_calls d) ↔ satisfied planner grid cs (lg_calls lg ++ dn_calls d').
Proof.
  intros Hlen E1 E2. destruct (EmbedLookup.assign_each_alike config table index indices Hlen lg lg d d' eq_refl E1 E2) as (_ & _ & Hc).
  by rewrite (same_calls_app _ _ _ Hc).
Qed.

(** An honest softmax satisfies every call it makes; its outputs are the
    tabulated exponentials over their sum, rounded down. *)
Theorem softmax_complete c1 c2 c3 c4 c5 c6 c7 c8 c9 c10 c11 c12 k exp lo hi size config chip inputs outs n calls :
  configured (Softmax.configure c1 c2 c3 c4 c5 c6 c7 c8 c9 c10 c11 c12 k) cs config →
  Softmax.construct exp config lo hi size = Some chip →
  table_complete log (Softmax.exp_lookup chip) →
  cs_ok cs → agrees planner grid log → Forall in_I18 inputs →
  Softmax.assign chip inputs lg = Some (Ok (mkDone outs n calls)) → calls ⊆ log →
  Forall (call_ok planner grid cs log) calls ∧
  ∃ es s, mapM (Lookup.find_output (Softmax.exp_lookup chip)) inputs = Some es ∧ raw s = zsum (raw <$> es) ∧
    Forall2 (λ e out, ∃ rem, Div.div_quotient_remainder (E := ErrorFront) e s = Ok (out, rem)) es outs.
Proof.
  intros Hcfg Hch Ht Hcs Hag Hin Hrun Hsub. destruct (Softmax.construct_chip _ _ _ _ _ _ Hch) as (<- & Hlk & Hdom).
  destruct (configured_mwp _ _ _ _ Hcfg (Softmax.softmax_configure_ok _ _ _ _ _ _ _ _ _ _ _ _ _ _)) as (Hinst & _).
  destruct (Softmax.softmax_assign_complete planner grid cs log chip Hinst Hlk inputs Hcs Hag Ht Hdom Hin _ _ _ _ Hrun Hsub) as (HR & Hok).
  by split.
Qed.

(** A softmax whose exponentials add up to more than an [i64] panics. *)
Theorem softmax_overflow_panics `{!Roomy L} c1 c2 c3 c4 c5 c6 c7 c8 c9 c10 c11 c12 k exp lo hi size config chip inputs es :
  configured (Softmax.configure c1 c2 c3 c4 c5 c6 c7 c8 c9 c10 c11 c12 k) cs config →
  Softmax.construct exp config lo hi size = Some chip →
  length inputs = k → mapM (Lookup.find_output (Softmax.exp_lookup chip)) inputs = Some es →
  (∃ i, i64_max < zsum (take i (raw <$> es))) →
  Softmax.assign chip inputs lg = None.
Proof.
  intros Hcfg Hch Hlen Hes [i Hi]. destruct (Softmax.construct_chip _ _ _ _ _ _ Hch) as (<- & Hlk & Hdom).
  destruct (configured_mwp _ _ _ _ Hcfg (Softmax.softmax_configure_ok _ _ _ _ _ _ _ _ _ _ _ _ _ _)) as (Hinst & Ek).
  apply (Softmax.sum_panics cs chip Hinst inputs es); [congruence|done|].
  apply (partial_sums_overflow es i); [|done]. by eapply Softmax.exps_in_range.
Qed.
End Theorems.

(** ** The theorems at concrete circuits *)

(** The squares of 1, 2 and 3. *)
Definition squares (config : Lookup.LookupConfig) : option Lookup.LookupChip :=
  Lookup.construct config (I18_ <$> [1; 2; 3]) (I18_ <$> [1; 4; 9]).

Lemma lookup_stage :
  stage (chip_of (Lookup.configure 0 1)%nat squares) 2 (λ p, lay_map_err Lookup.LookupSynthesis (Lookup.load_table p.2))
    (λ p, Lookup.assign p.2 (I18_ 2)) (λ p, rows_only p.2) = true.
Proof. vm_cast_no_check (eq_refl true). Qed.

Example table_lookup_exact_witness :
  ∃ grid c x y, plain spread grid (mkCell (cell_region c) 0 0%nat) x ∧ plain spread grid c y ∧
    ((I18_ x, I18_ y) ∈ zip (I18_ <$> [1; 2; 3]) (I18_ <$> [1; 4; 9]) ∨ x = i64_min ∧ y = 0).
Proof.
  destruct (stage_set _ _ _ _ _ (λ cs p, fn_installed cs (Lookup.lookup_config p.2) ∧ squares p.1 = Some p.2)
    (λ p log, table_complete log p.2) (λ _ _ _ _, True) lookup_stage)
    as ([config chip] & cs & log & grid & lg & [value c] & Hcfg & _ & Hsat & _ & Hret & Ht%rows_only_sound & _).
  - intros final. eapply mwp_conseq; [apply chip_of_mwp, fn_configure_ok|].
    intros [config chip] [(Hi & _) Hc]. by destruct (construct_Some _ _ _ _ Hc) as [-> _].
  - intros p P log HP. apply wp_map_err. by apply fn_load_table_complete.
  - intros [config chip] cs log grid [Hinst Hch] Hcs Hag Ht. eapply wp_conseq; [|done].
    apply (fn_assign_complete spread grid cs log chip Hinst); [|done..]. eapply construct_in_domain; [exact Hch|raws..].
  - exists grid, c. assert (squares config = Some chip) as Hch by (by apply chip_of_built in Hcfg).
    apply chip_of_configured in Hcfg.
    refine (table_lookup_exact spread grid cs log lg _ _ _ _ _ _ _ _ _ _ Hcfg Hch _ _ Ht Hsat Hret); raws.
Defined.

(** RMS norm of (1) with weight (2), epsilon 0.001 or 0.005, on a table of two points. *)
Definition two_anchors : Rsqrt.RsqrtDomain := Rsqrt.RawAnchors [1001000000000000000; 1005000000000000000].
Notation rms_circuit :=
  (chip_of (RmsNorm.configure 0 1 2 3 4 5 6 7 8 9 10 11 12 13 14 15 16 17 18 19 20 1 1 two_anchors)%nat RmsNorm.construct)
  (only parsing).
Definition one : list I18 := [I18_ 1000000000000000000].
Definition two : list I18 := [I18_ 2000000000000000000].

Lemma rms_stage :
  stage rms_circuit 21 (λ p, lay_map_err RmsNorm.RmsSynthesis (RmsNorm.load_table p.2))
    (λ p, RmsNorm.assign p.2 one two)
    (λ p log, rows_only (RmsNorm.rsqrt_chip p.2) log && mul_bytes (RmsNorm.mul p.1) log) = true.
Proof. vm_cast_no_check (eq_refl true). Qed.

Lemma rms_scene : ∃ config chip cs log grid lg out,
  configured (RmsNorm.configure 0 1 2 3 4 5 6 7 8 9 10 11 12 13 14 15 16 17 18 19 20 1 1 two_anchors)%nat cs config ∧
  RmsNorm.construct config = Some chip ∧ cs_ok cs ∧ satisfied spread grid cs log ∧ agrees spread grid log ∧
  returned (RmsNorm.assign chip one two) lg log out ∧
  table_sound log (RmsNorm.rsqrt_chip chip) ∧ mul_table_bytes log (RmsNorm.mul config) ∧
  table_complete log (RmsNorm.rsqrt_chip chip) ∧ mul_table_loaded log (RmsNorm.mul config).
Proof.
  destruct (stage_set _ _ _ _ _ (λ cs p, (rms_installed cs p.1 ∧ RmsNorm.rsqrt_domain p.1 = two_anchors) ∧ RmsNorm.construct p.1 = Some p.2)
    (λ p log, table_complete log (RmsNorm.rsqrt_chip p.2) ∧ mul_table_loaded log (RmsNorm.mul (RmsNorm.config p.2)))
    (λ p log _ _, table_complete log (RmsNorm.rsqrt_chip p.2) ∧ mul_table_loaded log (RmsNorm.mul p.1)) rms_stage)
    as ([config chip] & cs & log & grid & lg & out & Hcfg & Hcs & Hsat & Hag & Hret & Halso & Ht & Hb).
  - intros final. apply (chip_of_mwp final _ _ (λ c, rms_installed final c ∧ RmsNorm.rsqrt_domain c = two_anchors)).
    eapply mwp_conseq; [apply rms_configure_ok|]. by intros config (? & _ & _ & ?).
  - intros p P log HP. apply wp_map_err. unfold RmsNorm.load_table. eapply wp_bind; [by apply fn_load_table_complete|].
    intros [] Ht. eapply wp_conseq; [by apply load_mul_tables|]. by intros [] Hb.
  - intros [config chip] cs log grid [[Hinst Ed] Hch] Hcs Hag [Ht Hb]. cbn [fst snd] in *.
    assert (domain_typed (RmsNorm.rsqrt_domain config)) as Hd by (rewrite Ed; unfold two_anchors; simpl; raws).
    destruct (rms_construct _ _ Hch Hd) as (<- & Hlk & Hdom). eapply wp_conseq; [|by intros ? _].
    apply (rms_complete spread grid cs log chip Hinst Hdom Hlk Hcs Hag Hb); [done|raws..].
  - apply andb_true_iff in Halso as [Hr%rows_only_sound Hm%mul_bytes_sound].
    exists config, chip, cs, log, grid, lg, out. pose proof (chip_of_built _ _ _ _ Hcfg).
    apply chip_of_configured in Hcfg. by split_and!.
Qed.

Example rms_norm_exact_witness :
  ∃ config chip grid out xs ws outs eps, Forall2 (plain spread grid) (RmsNorm.input_cells out) xs ∧
    Forall2 (plain spread grid) (RmsNorm.weight_cells out) ws ∧
    Forall2 (shifted spread grid) (RmsNorm.output_cells out) outs ∧ length xs = 1%nat ∧ in_i64 eps ∧
    rms_spec (ReduceMean.reciprocal (RmsNorm.reduce_mean config)) (table_rows (RmsNorm.rsqrt_chip chip)) eps xs ws outs.
Proof.
  destruct rms_scene as (config & chip & cs & log & grid & lg & out & Hcfg & Hch & _ & Hsat & _ & Hret & Hr & Hm & _).
  exists config, chip, grid, out.
  refine (rms_norm_exact spread grid cs log lg _ _ _ _ _ _ _ _ _ _ _ _ _ _ _ _ _ _ _ _ _ _ _ _ _ _ _ _ _ _
    Hcfg Hch _ _ Hr Hm Hsat Hret); [unfold two_anchors; simpl; raws|done].
Defined.

Example rms_norm_complete_witness :
  ∃ config chip cs log grid out calls, Forall (call_ok spread grid cs log) calls ∧
    Forall2 (shifted spread grid) (RmsNorm.output_cells out) (raw <$> RmsNorm.outputs out) ∧
    ∃ eps, epsilon_of 1 = Some eps ∧
      rms_spec (ReduceMean.reciprocal (RmsNorm.reduce_mean config)) (table_rows (RmsNorm.rsqrt_chip chip)) (raw eps)
        (raw <$> one) (raw <$> two) (raw <$> RmsNorm.outputs out).
Proof.
  destruct rms_scene as (config & chip & cs & log & grid & lg & out & Hcfg & Hch & Hcs & _ & Hag & Hret & _ & _ & Ht & Hb).
  destruct Hret as (n & calls & Hrun & Hsub). exists config, chip, cs, log, grid, out, calls.
  refine (rms_norm_complete spread grid cs log lg _ _ _ _ _ _ _ _ _ _ _ _ _ _ _ _ _ _ _ _ _ _ _ _ _ _ _ _ _ _ _
    Hcfg Hch _ Ht Hb Hcs Hag _ _ Hrun Hsub); [unfold two_anchors; simpl; raws|raws|raws].
Defined.

Lemma rms_both :
  both rms_circuit 21 (λ p, RmsNorm.assign_with_witnesses p.2 true one two)
    (λ p, RmsNorm.assign_with_witnesses (with_epsilon p.2 (I18_ 5000000000000000)) true one two) = true.
Proof. vm_cast_no_check (eq_refl true). Qed.

Example rms_norm_epsilon_free_witness :
  ∃ (chip : RmsNorm.RmsNormChip) (d d' : Done RmsNorm.RmsNormOutput),
    RmsNorm.output_cells (dn_value d) = RmsNorm.output_cells (dn_value d') ∧
    (satisfied spread (λ _ _, Zmod.zero) empty_cs (dn_calls d) ↔ satisfied spread (λ _ _, Zmod.zero) empty_cs (dn_calls d')).
Proof.
  destruct (both_ran _ _ _ _ rms_both) as ([config chip] & cs & d & d' & _ & E1 & E2). exists chip, d, d'.
  exact (rms_norm_epsilon_free spread _ empty_cs empty_log chip _ _ _ _ _ _ _ _ _ E1 E2).
Defined.

(** Layer norm of (1, 3), whose variance is 1, with epsilon 0 or 1. *)
Notation layer_circuit :=
  (chip_of (LayerNorm.configure 0 1 2 3 4 5 6 7 8 9 10 11 12 13 14 15 16 17 18 19 20 2 0 (f64_of_Z 1) (f64_of_Z 2) 2)%nat
    LayerNorm.construct) (only parsing).
Definition one_three : list I18 := [I18_ 1000000000000000000; I18_ 3000000000000000000].

Lemma layer_both :
  both layer_circuit 21 (λ p, LayerNorm.assign p.2 one_three)
    (λ p, LayerNorm.assign (layer_with_epsilon p.2 (I18_ 1000000000000000000)) one_three) = true.
Proof. vm_cast_no_check (eq_refl true). Qed.

Example layer_norm_epsilon_free_witness :
  ∃ (d d' : Done (list I18)),
    satisfied spread (λ _ _, Zmod.zero) empty_cs (dn_calls d) ↔ satisfied spread (λ _ _, Zmod.zero) empty_cs (dn_calls d').
Proof.
  destruct (both_ran _ _ _ _ layer_both) as ([config chip] & cs & d & d' & _ & E1 & E2). exists d, d'.
  exact (layer_norm_epsilon_free spread _ empty_cs empty_log chip _ _ _ _ _ E1 E2).
Defined.

(** A table of two rows of two numbers. *)
Definition embeddings : list (list I18) := [[I18_ 10; I18_ 20]; [I18_ 30; I18_ 40]].

Lemma embed_both :
  both (EmbedLookup.configure 0 [1; 2] 2 2)%nat 3 (λ config, EmbedLookup.assign config 0 embeddings)
    (λ config, EmbedLookup.assign_each config embeddings [0; 1]%nat) = true.
Proof. vm_cast_no_check (eq_refl true). Qed.

Example embedding_row_witness :
  ∃ (config : EmbedLookup.EmbedLookupConfig) n calls,
    EmbedLookup.assign config 1 embeddings empty_log = Some (Ok (mkDone [I18_ 30; I18_ 40] n calls)).
Proof.
  destruct (both_ran _ _ _ _ embed_both) as (config & cs & _ & _ & Hcfg & _). exists config.
  refine (embedding_row cs empty_log _ _ _ _ _ embeddings 1 [I18_ 30; I18_ 40] Hcfg _ _ _); [done|raws|done].
Defined.

Example embedding_index_unlinked_witness :
  ∃ (d d' : Done (list I18)),
    satisfied spread (λ _ _, Zmod.zero) empty_cs (dn_calls d) ↔ satisfied spread (λ _ _, Zmod.zero) empty_cs (dn_calls d').
Proof.
  destruct (both_ran _ _ _ _ embed_both) as (config & cs & d & d' & Hcfg & E1 & E2). exists d, d'.
  refine (embedding_index_unlinked spread _ empty_cs empty_log config embeddings 0 [0; 1]%nat d d' _ E1 E2).
  by destruct (configured_mwp _ _ _ _ Hcfg (EmbedLookup.embed_configure_ok _ _ _ _ _)) as (_ & _ & -> & _).
Defined.

(** Softmax of (0, 1) with a table of constant exponentials: of 2, and of 9. *)
Notation softmax_circuit y :=
  (chip_of (Softmax.configure 0 1 2 3 4 5 6 7 8 9 10 11 2)%nat
    (λ config, Softmax.construct (λ _, f64_of_Z y) config (f64_of_Z 0) (f64_of_Z 1) 2)) (only parsing).
Definition zero_one : list I18 := [I18_ 0; I18_ 1000000000000000000].

Lemma zero_one_in_range : Forall in_I18 zero_one.
Proof. unfold zero_one. raws. Qed.

Lemma softmax_stage :
  stage (softmax_circuit 2) 12 (λ p, lay_map_err Softmax.SoftmaxCircuit (Softmax.load_table p.2))
    (λ p, Softmax.assign p.2 zero_one) (λ _ _, true) = true.
Proof. vm_cast_no_check (eq_refl true). Qed.

Example softmax_complete_witness :
  ∃ cs log grid calls outs es s, Forall (call_ok spread grid cs log) calls ∧ raw s = zsum (raw <$> es) ∧
    Forall2 (λ e out, ∃ rem, Div.div_quotient_remainder (E := ErrorFront) e s = Ok (out, rem)) es outs.
Proof.
  destruct (stage_set _ _ _ _ _ (λ cs p, (Softmax.installed cs p.1 ∧ Softmax.k p.1 = 2%nat) ∧
      Softmax.construct (λ _, f64_of_Z 2) p.1 (f64_of_Z 0) (f64_of_Z 1) 2 = Some p.2)
    (λ p log, table_complete log (Softmax.exp_lookup p.2)) (λ p log _ _, table_complete log (Softmax.exp_lookup p.2)) softmax_stage)
    as ([config chip] & cs & log & grid & lg & outs & Hcfg & Hcs & _ & Hag & (n & calls & Hrun & Hsub) & _ & Ht).
  - intros final. apply (chip_of_mwp final _ (λ config, Softmax.construct (λ _, f64_of_Z 2) config (f64_of_Z 0) (f64_of_Z 1) 2)
      (λ c, Softmax.installed final c ∧ Softmax.k c = 2%nat)), Softmax.softmax_configure_ok.
  - intros p P log HP. by apply wp_map_err, fn_load_table_complete.
  - intros [config chip] cs log grid [[Hinst _] Hch] Hcs Hag Ht. cbn [fst snd] in *.
    destruct (Softmax.construct_chip _ _ _ _ _ _ Hch) as (<- & Hlk & Hdom). eapply wp_conseq; [|by intros ? _].
    apply (Softmax.softmax_assign_complete spread grid cs log chip Hinst Hlk zero_one Hcs Hag Ht Hdom zero_one_in_range).
  - exists cs, log, grid, calls, outs. pose proof (chip_of_built _ _ _ _ Hcfg) as Hch. apply chip_of_configured in Hcfg.
    destruct (softmax_complete spread grid cs log lg _ _ _ _ _ _ _ _ _ _ _ _ _ _ _ _ _ _ _ _ _ _ _ Hcfg Hch Ht Hcs Hag zero_one_in_range Hrun Hsub)
      as (Hok & es & s & _ & Hs & Ho). exists es, s. exact (conj Hok (conj Hs Ho)).
Defined.

Lemma softmax_big :
  both (softmax_circuit 9) 12 (λ p, lay_ret (E := unit) tt) (λ p, lay_unwrap (E := unit)
    (mapM (Lookup.find_output (Softmax.exp_lookup p.2)) zero_one ≫= λ es,
      if i64_max <? zsum (raw <$> es) then Some es else None)) = true.
Proof. vm_cast_no_check (eq_refl true). Qed.

Example softmax_overflow_panics_witness :
  ∃ chip : Softmax.SoftmaxChip, Softmax.assign chip zero_one empty_log = None.
Proof.
  destruct (both_ran _ _ _ _ softmax_big) as ([config chip] & cs & d & d' & Hcfg & _ & Hes). exists chip.
  destruct (mapM _ zero_one) as [es|] eqn:Em in Hes; [|done]. simpl in Hes.
  destruct (Z.ltb_spec i64_max (zsum (raw <$> es))) as [Hbig|]; [|done].
  pose proof (chip_of_built _ _ _ _ Hcfg) as Hch. apply chip_of_configured in Hcfg.
  refine (softmax_overflow_panics cs empty_log _ _ _ _ _ _ _ _ _ _ _ _ _ _ _ _ _ _ chip zero_one es Hcfg Hch _ Em _); [done|].
  exists (length es). by rewrite take_ge by (rewrite length_fmap; lia).
Defined.
