(* ===== verification/Ordering.v ===== *)
(** * Rust's [Ordering]

    Three-way comparisons composed with [then_with], as the schedulers and the
    planner use them, with [sort_by], [min_by] and [max_by]. *)
From S2P Require Import Prelude.

Open Scope list_scope.

(** [Ordering::then_with]. *)
Definition then_with (first second : comparison) : comparison :=
  match first with Eq => second | c => c end.

(** A comparison that is a total preorder. *)
Class TotalCompare {A} (cmp : A → A → comparison) : Prop := {
  cmp_antisym x y : cmp y x = CompOpp (cmp x y);
  cmp_trans x y z : cmp x y ≠ Gt → cmp y z ≠ Gt → cmp x z ≠ Gt
}.

#[export] Instance Z_compare_total : TotalCompare Z.compare.
Proof.
  split; [intros x y; apply Z.compare_antisym|].
  intros x y z. change (x ≤ y → y ≤ z → x ≤ z)%Z. lia.
Qed.

Lemma string_compare_le a b : String.compare a b ≠ Gt ↔ String.le a b.
Proof.
  unfold String.le, String.leb. split.
  - destruct (String.compare a b); simpl; done.
  - by destruct (String.compare a b).
Qed.

#[export] Instance string_compare_total : TotalCompare String.compare.
Proof.
  split; [intros x y; apply String.compare_antisym|].
  intros x y z. rewrite !string_compare_le. by intros; etrans.
Qed.

#[export] Instance key_compare_total {A B} (f : A → B) (cmp : B → B → comparison)
    `{!TotalCompare cmp} : TotalCompare (λ x y, cmp (f x) (f y)).
Proof. split; [intros; apply cmp_antisym|]. intros ???. apply cmp_trans. Qed.

Lemma cmp_lt_le {A} (cmp : A → A → comparison) `{!TotalCompare cmp} x y z :
  cmp x y = Lt → cmp y z ≠ Gt → cmp x z = Lt.
Proof.
  intros Hxy Hyz. destruct (cmp x z) eqn:E; [|done|].
  - assert (cmp y x ≠ Gt) as H.
    { apply (cmp_trans y z x); [done|]. rewrite cmp_antisym, E. done. }
    rewrite cmp_antisym, Hxy in H. done.
  - destruct (cmp_trans x y z); [by rewrite Hxy|done|done].
Qed.

Lemma cmp_le_lt {A} (cmp : A → A → comparison) `{!TotalCompare cmp} x y z :
  cmp x y ≠ Gt → cmp y z = Lt → cmp x z = Lt.
Proof.
  intros Hxy Hyz. destruct (cmp x z) eqn:E; [|done|].
  - assert (cmp z y ≠ Gt) as H.
    { apply (cmp_trans z x y); [|done]. rewrite cmp_antisym, E. done. }
    rewrite cmp_antisym, Hyz in H. done.
  - destruct (cmp_trans x y z); [done|by rewrite Hyz|done].
Qed.

Lemma cmp_eq_trans {A} (cmp : A → A → comparison) `{!TotalCompare cmp} x y z :
  cmp x y = Eq → cmp y z = Eq → cmp x z = Eq.
Proof.
  intros Hxy Hyz. pose proof (cmp_trans x y z) as H1. pose proof (cmp_trans z y x) as H2.
  rewrite (cmp_antisym (cmp := cmp) y z), Hyz, (cmp_antisym (cmp := cmp) x y), Hxy,
    (cmp_antisym (cmp := cmp) x z) in H2.
  rewrite Hxy, Hyz in H1. simpl in *. destruct (cmp x z); [done| |]; naive_solver.
Qed.

#[export] Instance then_with_total {A} (c1 c2 : A → A → comparison)
    `{!TotalCompare c1, !TotalCompare c2} : TotalCompare (λ x y, then_with (c1 x y) (c2 x y)).
Proof.
  split.
  - intros x y. rewrite (cmp_antisym (cmp := c1) x y), (cmp_antisym (cmp := c2) x y).
    by destruct (c1 x y).
  - intros x y z. destruct (c1 x y) eqn:E1; simpl; [| |done].
    + destruct (c1 y z) eqn:E2; simpl; [| |done].
      * rewrite (cmp_eq_trans c1 x y z) by done. simpl. apply cmp_trans.
      * rewrite (cmp_le_lt c1 x y z) by (done || by rewrite E1). done.
    + intros _ H. rewrite (cmp_lt_le c1 x y z); [done|done|]. by destruct (c1 y z).
Qed.

(** ** Extrema *)

(** [Iterator::max_by]: the last of the greatest elements. *)
Definition max_by {A} (cmp : A → A → comparison) (l : list A) : option A :=
  match l with
  | [] => None
  | x :: l => Some (fold_left (λ best y, match cmp best y with Gt => best | _ => y end) l x)
  end.

(** [Iterator::min_by]: the first of the least elements. *)
Definition min_by {A} (cmp : A → A → comparison) (l : list A) : option A :=
  match l with
  | [] => None
  | x :: l => Some (fold_left (λ best y, match cmp best y with Gt => y | _ => best end) l x)
  end.

Section Extrema.
Context {A : Type} (cmp : A → A → comparison) `{!TotalCompare cmp}.

Lemma cmp_refl x : cmp x x = Eq.
Proof using All. pose proof (cmp_antisym x x) as H. by destruct (cmp x x). Qed.

Lemma max_by_Some l x : max_by cmp l = Some x → x ∈ l ∧ ∀ y, y ∈ l → cmp y x ≠ Gt.
Proof using All.
  destruct l as [|a l]; [done|]. simpl. intros [= <-]. revert a.
  induction l as [|b l IH]; intros a; simpl.
  { split; [by left|]. intros y ->%list_elem_of_singleton. by rewrite cmp_refl. }
  destruct (cmp a b) eqn:E.
  1,2: destruct (IH b) as [Hin Hmax]; split; [by right|];
    intros y [->|Hy]%elem_of_cons; [|by apply Hmax];
    eapply cmp_trans; [|apply Hmax; by left]; by rewrite E.
  destruct (IH a) as [Hin Hmax]. split.
  { apply elem_of_cons in Hin as [->|Hin]; [by left|]. by do 2 right. }
  intros y [->|[->|Hy]%elem_of_cons]%elem_of_cons; [apply Hmax; by left| |apply Hmax; by right].
  eapply cmp_trans; [|apply Hmax; by left]. by rewrite cmp_antisym, E.
Qed.

Lemma min_by_Some l x : min_by cmp l = Some x → x ∈ l ∧ ∀ y, y ∈ l → cmp x y ≠ Gt.
Proof using All.
  destruct l as [|a l]; [done|]. simpl. intros [= <-]. revert a.
  induction l as [|b l IH]; intros a; simpl.
  { split; [by left|]. intros y ->%list_elem_of_singleton. by rewrite cmp_refl. }
  destruct (cmp a b) eqn:E.
  3: { destruct (IH b) as [Hin Hmin]. split; [by right|].
    intros y [->|Hy]%elem_of_cons; [|by apply Hmin].
    eapply cmp_trans; [apply Hmin; by left|]. by rewrite cmp_antisym, E. }
  1,2: destruct (IH a) as [Hin Hmin]; split;
    [apply elem_of_cons in Hin as [->|Hin]; [by left|by do 2 right]|];
    intros y [->|[->|Hy]%elem_of_cons]%elem_of_cons; [apply Hmin; by left| |apply Hmin; by right];
    eapply cmp_trans; [apply Hmin; by left|]; by rewrite E.
Qed.

Lemma min_by_None l : min_by cmp l = None ↔ l = [].
Proof. by destruct l. Qed.

End Extrema.

(** ** Sorting *)

(** [slice::sort_by]: a stable sort. *)
Definition cmp_le {A} (cmp : A → A → comparison) (x y : A) : Prop := cmp x y ≠ Gt.
#[export] Instance cmp_le_dec {A} (cmp : A → A → comparison) : RelDecision (cmp_le cmp).
Proof. intros x y. unfold cmp_le. apply _. Defined.
Definition sort_by {A} (cmp : A → A → comparison) (l : list A) : list A := merge_sort (cmp_le cmp) l.

Lemma sort_by_Permutation {A} (cmp : A → A → comparison) l : sort_by cmp l ≡ₚ l.
Proof. apply merge_sort_Permutation. Qed.

Lemma sort_by_sorted {A} (cmp : A → A → comparison) `{!TotalCompare cmp} l :
  StronglySorted (cmp_le cmp) (sort_by cmp l).
Proof.
  assert (Transitive (cmp_le cmp)) by (intros x y z; apply cmp_trans).
  assert (Total (cmp_le cmp)).
  { intros x y. unfold cmp_le. rewrite (cmp_antisym (cmp := cmp) x y).
    destruct (cmp x y); simpl; naive_solver. }
  apply (StronglySorted_merge_sort (cmp_le cmp)).
Qed.
