(* ===== verification/Bytes.v ===== *)
(** * Byte strings and prefix-free encodings

    The code hashes records by appending fields to a byte buffer.  This file
    has the buffers ([list ascii], one character per byte), the little-endian
    writers, and the class of prefix-free encoders: an encoding that can be
    told apart from whatever follows it.  Prefix-free encoders compose, which
    is how the hash preimages of the other files are proved injective. *)
From S2P Require Import Prelude.

Open Scope Z_scope.

Notation bytes := (list Ascii.ascii).

(** [str::as_bytes]: a Rust string is modelled by its UTF-8 bytes. *)
Definition as_bytes (s : string) : bytes := String.list_ascii_of_string s.

Lemma as_bytes_inj s t : as_bytes s = as_bytes t → s = t.
Proof.
  unfold as_bytes. intros H. rewrite <-(String.string_of_list_ascii_of_string s), H.
  apply String.string_of_list_ascii_of_string.
Qed.

Lemma length_as_bytes s : length (as_bytes s) = String.length s.
Proof. unfold as_bytes. induction s; simpl; congruence. Qed.

Definition byte_of_Z (z : Z) : Ascii.ascii := Ascii.ascii_of_N (Z.to_N (z mod 256)).
Definition Z_of_byte (b : Ascii.ascii) : Z := Z.of_N (Ascii.N_of_ascii b).

Lemma Z_of_byte_of_Z z : Z_of_byte (byte_of_Z z) = z mod 256.
Proof.
  unfold Z_of_byte, byte_of_Z. pose proof (Z.mod_pos_bound z 256).
  rewrite Ascii.N_ascii_embedding; lia.
Qed.

Lemma byte_of_Z_of_byte b : byte_of_Z (Z_of_byte b) = b.
Proof.
  unfold Z_of_byte, byte_of_Z. pose proof (Ascii.N_ascii_bounded b).
  rewrite Z.mod_small by lia. rewrite N2Z.id. apply Ascii.ascii_N_embedding.
Qed.

Lemma Z_of_byte_range b : 0 ≤ Z_of_byte b < 256.
Proof. unfold Z_of_byte. pose proof (Ascii.N_ascii_bounded b). lia. Qed.

(** [to_le_bytes] of an [n]-byte integer. *)
Fixpoint to_le_bytes (n : nat) (z : Z) : bytes :=
  match n with
  | O => []
  | S n => byte_of_Z z :: to_le_bytes n (z / 256)
  end.

Lemma length_to_le_bytes n z : length (to_le_bytes n z) = n.
Proof. revert z. induction n; intros z; simpl; auto. Qed.

Lemma to_le_bytes_inj n z w :
  0 ≤ z < 256 ^ Z.of_nat n → 0 ≤ w < 256 ^ Z.of_nat n →
  to_le_bytes n z = to_le_bytes n w → z = w.
Proof.
  revert z w. induction n as [|n IH]; intros z w Hz Hw; simpl; [lia|].
  intros [= Hb Ht]. apply (f_equal Z_of_byte) in Hb. rewrite !Z_of_byte_of_Z in Hb.
  rewrite Nat2Z.inj_succ, Z.pow_succ_r in Hz, Hw by lia.
  apply IH in Ht; [|split; [apply Z.div_pos|apply Z.div_lt_upper_bound]; lia..].
  rewrite (Z.div_mod z 256), (Z.div_mod w 256) by lia. congruence.
Qed.

(** ** Prefix-free encoders *)

(** [enc] is prefix-free on [P]: reading a value off the front of a buffer is
    unambiguous. *)
Class PrefixFree {A} (P : A → Prop) (enc : A → bytes) : Prop :=
  prefix_free : ∀ a b r s, P a → P b → enc a ++ r = enc b ++ s → a = b ∧ r = s.

Lemma prefix_free_inj {A} (P : A → Prop) (enc : A → bytes) `{!PrefixFree P enc} a b :
  P a → P b → enc a = enc b → a = b.
Proof.
  intros Ha Hb He. destruct (prefix_free a b [] [] Ha Hb) as [? _]; [|done].
  by rewrite !app_nil_r.
Qed.

Lemma prefix_free_fixed {A} (P : A → Prop) (enc : A → bytes) n :
  (∀ a, P a → length (enc a) = n) → (∀ a b, P a → P b → enc a = enc b → a = b) →
  PrefixFree P enc.
Proof.
  intros Hlen Hinj a b r s Ha Hb He.
  apply app_inj_1 in He as [He ->]; [|by rewrite !Hlen]. split; [by apply Hinj|done].
Qed.

Definition encode_u64 (z : Z) : bytes := to_le_bytes 8 z.
Definition encode_u32 (z : Z) : bytes := to_le_bytes 4 z.

#[export] Instance encode_u64_prefix_free : PrefixFree in_u64 encode_u64.
Proof.
  apply (prefix_free_fixed _ _ 8); [intros; apply length_to_le_bytes|].
  intros a b Ha Hb. apply (to_le_bytes_inj 8); zlia.
Qed.

#[export] Instance encode_u32_prefix_free : PrefixFree in_u32 encode_u32.
Proof.
  apply (prefix_free_fixed _ _ 4); [intros; apply length_to_le_bytes|].
  intros a b Ha Hb. apply (to_le_bytes_inj 4); zlia.
Qed.

(** [i64::to_le_bytes]: two's complement. *)
Definition encode_i64 (z : Z) : bytes := to_le_bytes 8 z.

#[global] Typeclasses Opaque encode_u64 encode_u32 encode_i64.

Lemma to_le_bytes_mod n z w :
  to_le_bytes n z = to_le_bytes n w → z mod 256 ^ Z.of_nat n = w mod 256 ^ Z.of_nat n.
Proof.
  revert z w. induction n as [|n IH]; intros z w; simpl; [by rewrite !Z.mod_1_r|].
  intros [= Hb Ht]. apply (f_equal Z_of_byte) in Hb. rewrite !Z_of_byte_of_Z in Hb.
  apply IH in Ht. rewrite Nat2Z.inj_succ, Z.pow_succ_r by lia.
  pose proof (Z.pow_pos_nonneg 256 (Z.of_nat n) ltac:(lia) ltac:(lia)).
  rewrite !Z.rem_mul_r by lia. congruence.
Qed.

#[export] Instance encode_i64_prefix_free : PrefixFree in_i64 encode_i64.
Proof.
  apply (prefix_free_fixed _ _ 8); [intros; apply length_to_le_bytes|].
  intros a b Ha Hb H%to_le_bytes_mod. change (256 ^ Z.of_nat 8) with (2 ^ 64) in H.
  pose proof (Z.div_mod a (2 ^ 64) ltac:(lia)). pose proof (Z.div_mod b (2 ^ 64) ltac:(lia)).
  pose proof (Z.mod_pos_bound b (2 ^ 64) ltac:(lia)). zlia.
Qed.

(** A string behind its length. *)
Definition encode_text (value : string) : bytes :=
  encode_u64 (Z.of_nat (String.length value)) ++ as_bytes value.

Definition text_ok (s : string) : Prop := in_u64 (Z.of_nat (String.length s)).

#[export] Instance encode_text_prefix_free : PrefixFree text_ok encode_text.
Proof.
  intros a b r s Ha Hb. unfold encode_text. rewrite <-!app_assoc. intros He.
  apply (prefix_free (enc := encode_u64)) in He as [Hl He]; [|done..].
  apply app_inj_1 in He as [He ->]; [|rewrite !length_as_bytes; lia].
  split; [by apply as_bytes_inj|done].
Qed.

(** A fixed-size digest. *)
Definition digest_ok (d : bytes) : Prop := length d = 32%nat.

#[export] Instance digest_prefix_free : PrefixFree digest_ok id.
Proof. by apply (prefix_free_fixed _ _ 32). Qed.

(** Lists: the count first, then the elements. *)
Definition encode_seq {A} (enc : A → bytes) (l : list A) : bytes :=
  encode_u64 (Z.of_nat (length l)) ++ mjoin (enc <$> l).

Definition seq_ok {A} (P : A → Prop) (l : list A) : Prop :=
  in_u64 (Z.of_nat (length l)) ∧ Forall P l.

Lemma mjoin_prefix_free {A} (P : A → Prop) (enc : A → bytes) `{!PrefixFree P enc} l k r s :
  length l = length k → Forall P l → Forall P k →
  mjoin (enc <$> l) ++ r = mjoin (enc <$> k) ++ s → l = k ∧ r = s.
Proof.
  revert k. induction l as [|x l IH]; intros [|y k] Hlen Hl Hk He; simplify_eq/=; [done|].
  apply Forall_cons in Hl as [Hx Hl]. apply Forall_cons in Hk as [Hy Hk].
  rewrite <-!app_assoc in He. apply prefix_free in He as [-> He]; [|done..].
  by apply IH in He as [-> ->].
Qed.

#[export] Instance encode_seq_prefix_free {A} (P : A → Prop) (enc : A → bytes)
  `{!PrefixFree P enc} : PrefixFree (seq_ok P) (encode_seq enc).
Proof.
  intros l k r s [Hl Hfl] [Hk Hfk]. unfold encode_seq. rewrite <-!app_assoc. intros He.
  apply (prefix_free (enc := encode_u64)) in He as [Hlen He]; [|done..].
  apply (mjoin_prefix_free P enc) in He; [|lia|done..]. done.
Qed.

(** An optional field behind a presence byte. *)
Definition encode_option {A} (enc : A → bytes) (o : option A) : bytes :=
  match o with
  | Some x => byte_of_Z 1 :: enc x
  | None => [byte_of_Z 0]
  end.

Definition option_ok {A} (P : A → Prop) (o : option A) : Prop :=
  match o with Some x => P x | None => True end.

#[export] Instance encode_option_prefix_free {A} (P : A → Prop) (enc : A → bytes)
  `{!PrefixFree P enc} : PrefixFree (option_ok P) (encode_option enc).
Proof.
  intros [a|] [b|] r s Ha Hb He; simpl in *; try discriminate He.
  - injection He as He. by apply prefix_free in He as [-> ->].
  - by injection He as ->.
Qed.

(** Consecutive fields: [peel] reads them off one by one. *)
Ltac peel H :=
  match type of H with
  | ?enc ?a ++ _ = ?enc ?b ++ _ =>
      apply (prefix_free (enc := enc)) in H as [? H]; [|first [done | apply _ | idtac]..]
  end.

#[global] Arguments to_le_bytes : simpl never.
#[global] Arguments encode_u64 : simpl never.
#[global] Arguments encode_u32 : simpl never.
#[global] Arguments encode_text : simpl never.
#[global] Arguments as_bytes : simpl never.
