(* ===== verification/Text.v ===== *)
(** * Text

    The pieces of Rust's [str] the worker protocol uses, on byte strings:
    [lines], [split_once], [trim_end], [strip_suffix] and the unsigned
    [FromStr], with the facts that make a line-oriented format readable back. *)
From S2P Require Import Prelude Bytes.

Open Scope Z_scope.
Open Scope list_scope.

Definition newline : Ascii.ascii := Ascii.ascii_of_nat 10.
Definition carriage_return : Ascii.ascii := Ascii.ascii_of_nat 13.
Definition space : Ascii.ascii := Ascii.ascii_of_nat 32.

(** ** Lines *)

Fixpoint split_inclusive (c : Ascii.ascii) (l : bytes) : list bytes :=
  match l with
  | [] => []
  | x :: l =>
      if bool_decide (x = c) then [x] :: split_inclusive c l
      else match split_inclusive c l with
           | [] => [[x]]
           | first :: rest => (x :: first) :: rest
           end
  end.

Definition strip_suffix (c : Ascii.ascii) (l : bytes) : option bytes :=
  match last l with
  | Some x => if bool_decide (x = c) then Some (removelast l) else None
  | None => None
  end.

(** [str::lines]: a line loses its newline, and then a carriage return. *)
Definition strip_line_end (line : bytes) : bytes :=
  match strip_suffix newline line with
  | None => line
  | Some line => default line (strip_suffix carriage_return line)
  end.

Definition lines (text : bytes) : list bytes := strip_line_end <$> split_inclusive newline text.

Lemma strip_suffix_app c l : strip_suffix c (l ++ [c]) = Some l.
Proof. unfold strip_suffix. rewrite last_snoc, bool_decide_eq_true_2 by done. by rewrite removelast_last. Qed.

Lemma strip_suffix_other c l : last l ≠ Some c → strip_suffix c l = None.
Proof. unfold strip_suffix. destruct (last l) as [x|]; [|done]. intros H. case_bool_decide; [congruence|done]. Qed.

Lemma split_inclusive_app c l rest :
  c ∉ l → split_inclusive c (l ++ c :: rest) = (l ++ [c]) :: split_inclusive c rest.
Proof.
  induction l as [|x l IH]; simpl; intros Hc.
  - by rewrite bool_decide_eq_true_2.
  - apply not_elem_of_cons in Hc as [Hx Hl]. rewrite bool_decide_eq_false_2 by done. by rewrite (IH Hl).
Qed.

(** A line that can be written on its own line. *)
Definition line_ok (l : bytes) : Prop := newline ∉ l ∧ last l ≠ Some carriage_return.

Lemma lines_cons l rest : line_ok l → lines (l ++ newline :: rest) = l :: lines rest.
Proof.
  intros [Hn Hr]. unfold lines. rewrite split_inclusive_app by done. simpl. f_equal.
  unfold strip_line_end. by rewrite strip_suffix_app, strip_suffix_other.
Qed.

Lemma lines_mjoin (ls : list bytes) :
  Forall line_ok ls → lines (mjoin ((λ l, l ++ [newline]) <$> ls)) = ls.
Proof.
  induction 1 as [|l ls Hl _ IH]; [done|].
  change (lines ((l ++ [newline]) ++ mjoin ((λ l, l ++ [newline]) <$> ls)) = l :: ls).
  rewrite <-app_assoc. change ([newline] ++ ?r) with (newline :: r). by rewrite lines_cons, IH.
Qed.

(** ** Pairs *)

Fixpoint split_once (c : Ascii.ascii) (l : bytes) : option (bytes * bytes) :=
  match l with
  | [] => None
  | x :: l =>
      if bool_decide (x = c) then Some ([], l)
      else '(a, b) ← split_once c l; Some (x :: a, b)
  end.

Lemma split_once_app c k v : c ∉ k → split_once c (k ++ c :: v) = Some (k, v).
Proof.
  induction k as [|x k IH]; simpl; intros Hc.
  - by rewrite bool_decide_eq_true_2.
  - apply not_elem_of_cons in Hc as [Hx Hk]. rewrite bool_decide_eq_false_2 by done. by rewrite (IH Hk).
Qed.

Lemma split_once_Some c l k v : split_once c l = Some (k, v) → l = k ++ c :: v.
Proof.
  revert k v. induction l as [|x l IH]; simpl; intros k v; [done|].
  case_bool_decide as Hx; [intros [= <- <-]; by subst|].
  destruct (split_once c l) as [[a b]|]; [|done]. simpl. intros [= <- <-].
  by rewrite (IH a b).
Qed.

(** ** Trailing white space *)

(** The white space characters of Unicode by the bytes of their UTF-8 form,
    which [trim_end] reads from the end. *)
Definition white1 (b : Z) : bool := ((9 <=? b) && (b <=? 13)) || (b =? 32).
Definition white2 (b1 b2 : Z) : bool := (b1 =? 194) && ((b2 =? 133) || (b2 =? 160)).
Definition white3 (b1 b2 b3 : Z) : bool :=
  ((b1 =? 225) && (b2 =? 154) && (b3 =? 128))
  || ((b1 =? 226) && (b2 =? 128)
      && (((128 <=? b3) && (b3 <=? 138)) || (b3 =? 168) || (b3 =? 169) || (b3 =? 175)))
  || ((b1 =? 226) && (b2 =? 129) && (b3 =? 159))
  || ((b1 =? 227) && (b2 =? 128) && (b3 =? 128)).

Fixpoint trim_reversed (l : bytes) : bytes :=
  match l with
  | [] => []
  | c :: rest1 =>
      if white1 (Z_of_byte c) then trim_reversed rest1
      else
        match rest1 with
        | [] => l
        | b :: rest2 =>
            if white2 (Z_of_byte b) (Z_of_byte c) then trim_reversed rest2
            else
              match rest2 with
              | [] => l
              | a :: rest3 =>
                  if white3 (Z_of_byte a) (Z_of_byte b) (Z_of_byte c) then trim_reversed rest3 else l
              end
        end
  end.

Definition trim_end (l : bytes) : bytes := reverse (trim_reversed (reverse l)).

(** Text that ends in an ASCII byte other than white space is left alone. *)
Definition solid (c : Ascii.ascii) : bool := negb (white1 (Z_of_byte c)) && (Z_of_byte c <? 128).

Lemma trim_end_solid l c : last l = Some c → solid c = true → trim_end l = l.
Proof.
  intros Hl [Hw Hc]%andb_true_iff. apply last_Some in Hl as [k ->].
  unfold trim_end. rewrite reverse_snoc. simpl. apply negb_true_iff in Hw as ->.
  destruct (reverse k) as [|b r] eqn:E; [by apply (f_equal reverse) in E; rewrite reverse_involutive in E; subst|].
  assert (white2 (Z_of_byte b) (Z_of_byte c) = false) as ->.
  { unfold white2. apply andb_false_iff. right. lia. }
  rewrite <-(reverse_involutive k), E. destruct r as [|a r]; [done|].
  assert (white3 (Z_of_byte a) (Z_of_byte b) (Z_of_byte c) = false) as ->; [unfold white3; lia|].
  by rewrite <-(reverse_cons (b :: a :: r)).
Qed.

Lemma trim_end_nil : trim_end [] = [].
Proof. reflexivity. Qed.

(** ** Unsigned integers *)

Definition digit_value (c : Ascii.ascii) : option Z :=
  let v := Z_of_byte c in if (48 <=? v) && (v <=? 57) then Some (v - 48) else None.

Fixpoint parse_digits (max acc : Z) (l : bytes) : option Z :=
  match l with
  | [] => Some acc
  | c :: l =>
      d ← digit_value c;
      if max <? acc * 10 + d then None else parse_digits max (acc * 10 + d) l
  end.

(** [str::parse] at an unsigned type: an optional plus sign, then digits. *)
Definition parse_unsigned (max : Z) (l : bytes) : option Z :=
  let digits := match l with
                | c :: ((_ :: _) as rest) => if bool_decide (c = Ascii.ascii_of_nat 43) then rest else l
                | _ => l
                end in
  match digits with [] => None | _ => parse_digits max 0 digits end.

(** [Display] of an unsigned integer. *)
Definition show_unsigned (z : Z) : bytes := as_bytes (pretty z).

Lemma pretty_char_digit n : (n < 10)%N → digit_value (pretty_N_char n) = Some (Z.of_N n).
Proof.
  intros H. assert (n = 0 ∨ n = 1 ∨ n = 2 ∨ n = 3 ∨ n = 4 ∨ n = 5 ∨ n = 6 ∨ n = 7 ∨ n = 8 ∨ n = 9)%N
    as Hn by lia. by repeat destruct Hn as [->|Hn]; [..|subst].
Qed.

Lemma as_bytes_cons c s : as_bytes (String c s) = c :: as_bytes s.
Proof. reflexivity. Qed.

(** The digits [pretty_N_go] writes before [s] are those of its argument. *)
Lemma parse_pretty_go max n s :
  Z.of_N n ≤ max → parse_digits max 0 (as_bytes (pretty_N_go n s)) = parse_digits max (Z.of_N n) (as_bytes s).
Proof.
  revert s. induction (N.lt_wf_0 n) as [n _ IH]; intros s Hmax.
  assert (n = 0 ∨ 0 < n)%N as [->|Hn] by lia; [by rewrite pretty_N_go_0|].
  rewrite pretty_N_go_step by done.
  rewrite IH; [|by apply N.div_lt|rewrite N2Z.inj_div; apply Z.div_le_upper_bound; lia].
  rewrite as_bytes_cons. simpl. rewrite pretty_char_digit by (apply N.mod_lt; done). simpl.
  assert (Z.of_N (n / 10) * 10 + Z.of_N (n mod 10) = Z.of_N n) as ->.
  { rewrite (N.div_mod n 10) at 3 by done. lia. }
  destruct (Z.ltb_spec max (Z.of_N n)); [lia|done].
Qed.

Lemma show_unsigned_digits z :
  0 ≤ z → ∃ n, z = Z.of_N n ∧ show_unsigned z = as_bytes (pretty n).
Proof. intros Hz. exists (Z.to_N z). split; [lia|]. by destruct z. Qed.

Lemma pretty_go_digits n s :
  Forall (λ c, is_Some (digit_value c)) (as_bytes s) →
  Forall (λ c, is_Some (digit_value c)) (as_bytes (pretty_N_go n s)).
Proof.
  revert s. induction (N.lt_wf_0 n) as [n _ IH]; intros s Hs.
  assert (n = 0 ∨ 0 < n)%N as [->|Hn] by lia; [by rewrite pretty_N_go_0|].
  rewrite pretty_N_go_step by done. apply IH; [by apply N.div_lt|].
  rewrite as_bytes_cons. constructor; [|done]. rewrite pretty_char_digit; [done|by apply N.mod_lt].
Qed.

Lemma show_unsigned_all_digits z :
  0 ≤ z → Forall (λ c, is_Some (digit_value c)) (show_unsigned z) ∧ show_unsigned z ≠ [].
Proof.
  intros Hz. destruct (show_unsigned_digits z Hz) as (n & _ & ->). unfold pretty, pretty_N.
  case_decide as Hn; [split; [by repeat constructor|done]|].
  split; [by apply pretty_go_digits|]. rewrite pretty_N_go_step by lia.
  assert (∀ m s, as_bytes s ≠ [] → as_bytes (pretty_N_go m s) ≠ []) as Hne.
  { intros m. induction (N.lt_wf_0 m) as [m _ IH]; intros s Hs.
    assert (m = 0 ∨ 0 < m)%N as [->|Hm] by lia; [by rewrite pretty_N_go_0|].
    rewrite pretty_N_go_step by done. apply IH; [by apply N.div_lt|done]. }
  by apply Hne.
Qed.

(** [parse] reads back what [Display] writes. *)
Lemma parse_show_unsigned max z : 0 ≤ z ≤ max → parse_unsigned max (show_unsigned z) = Some z.
Proof.
  intros Hz. destruct (show_unsigned_all_digits z) as [Hd Hne]; [lia|].
  assert (parse_unsigned max (show_unsigned z) = parse_digits max 0 (show_unsigned z)) as ->.
  { unfold parse_unsigned. destruct (show_unsigned z) as [|c [|c' l]]; [done|done|].
    rewrite bool_decide_eq_false_2; [done|]. intros ->. apply Forall_cons in Hd as [[x Hx] _]. done. }
  destruct (show_unsigned_digits z) as (n & -> & ->); [lia|]. unfold pretty, pretty_N.
  case_decide as Hn.
  { subst. change (as_bytes "0") with [pretty_N_char 0]. cbn [parse_digits].
    rewrite pretty_char_digit by done. simpl. destruct (Z.ltb_spec max (0 * 10 + 0)); [lia|done]. }
  rewrite parse_pretty_go by lia. done.
Qed.
