(* ===== verification/Resource.v ===== *)
(** * Resource requests and capacities

    crates/zkie-types/src/resource.rs: what a job asks for, what a machine
    offers, the validation both constructors share, and the reservation
    arithmetic the scheduler runs on.  [u32] and [u64] fields are [Z]; a record
    built by the code satisfies the range part of [request_valid] or
    [capacity_valid], since the Rust types enforce it. *)
From S2P Require Import Prelude.

Open Scope Z_scope.

(** ** Data *)

Inductive ResourceValidationError :=
| ZeroCpuCores
| InconsistentGpuResources
| ArithmeticOverflow.

Record ResourceRequest := mkRequest {
  rq_cpu_cores : Z;
  rq_ram_bytes : Z;
  rq_gpu_count : Z;
  rq_gpu_vram_bytes_per_device : Z
}.

Record ResourceCapacity := mkCapacity {
  cap_cpu_cores : Z;
  cap_ram_bytes : Z;
  cap_gpu_count : Z;
  cap_gpu_vram_bytes_per_device : Z
}.

(** The wire record both [Deserialize] implementations read. *)
Record ResourceWire := mkWire {
  wire_cpu_cores : Z;
  wire_ram_bytes : Z;
  wire_gpu_count : Z;
  wire_gpu_vram_bytes_per_device : Z
}.

#[export] Instance ResourceRequest_eq_dec : EqDecision ResourceRequest.
Proof. solve_decision. Defined.
#[export] Instance ResourceCapacity_eq_dec : EqDecision ResourceCapacity.
Proof. solve_decision. Defined.
#[export] Instance ResourceValidationError_eq_dec : EqDecision ResourceValidationError.
Proof. solve_decision. Defined.

(** ** Validation *)

Definition validate_gpu_resources (gpu_count vram : Z) : Result unit ResourceValidationError :=
  if negb (Bool.eqb (gpu_count =? 0) (vram =? 0)) then Err InconsistentGpuResources
  else let? _ := ok_or (try_u64 (gpu_count * vram)) ArithmeticOverflow in Ok tt.

Definition validate_request (cpu_cores gpu_count vram : Z) : Result unit ResourceValidationError :=
  if cpu_cores =? 0 then Err ZeroCpuCores
  else validate_gpu_resources gpu_count vram.

Definition request_new (cpu_cores ram_bytes gpu_count vram : Z)
    : Result ResourceRequest ResourceValidationError :=
  let? _ := validate_request cpu_cores gpu_count vram in
  Ok (mkRequest cpu_cores ram_bytes gpu_count vram).

Definition capacity_new (cpu_cores ram_bytes gpu_count vram : Z)
    : Result ResourceCapacity ResourceValidationError :=
  let? _ := validate_gpu_resources gpu_count vram in
  Ok (mkCapacity cpu_cores ram_bytes gpu_count vram).

(** [Deserialize]: the wire values go through the validating constructor. *)
Definition request_deserialize (wire : ResourceWire) : Result ResourceRequest ResourceValidationError :=
  request_new (wire_cpu_cores wire) (wire_ram_bytes wire) (wire_gpu_count wire)
    (wire_gpu_vram_bytes_per_device wire).

Definition capacity_deserialize (wire : ResourceWire) : Result ResourceCapacity ResourceValidationError :=
  capacity_new (wire_cpu_cores wire) (wire_ram_bytes wire) (wire_gpu_count wire)
    (wire_gpu_vram_bytes_per_device wire).

(** ** Reservation *)

Definition fits (self : ResourceCapacity) (request : ResourceRequest) : bool :=
  (rq_cpu_cores request <=? cap_cpu_cores self)
  && (rq_ram_bytes request <=? cap_ram_bytes self)
  && (rq_gpu_count request <=? cap_gpu_count self)
  && (rq_gpu_vram_bytes_per_device request <=? cap_gpu_vram_bytes_per_device self).

Definition checked_reserve (self : ResourceCapacity) (request : ResourceRequest)
    : option ResourceCapacity :=
  if fits self request then
    let gpu_count := cap_gpu_count self - rq_gpu_count request in
    Some (mkCapacity
            (cap_cpu_cores self - rq_cpu_cores request)
            (cap_ram_bytes self - rq_ram_bytes request)
            gpu_count
            (if negb (gpu_count =? 0) then cap_gpu_vram_bytes_per_device self else 0))
  else None.

(** Reserving a batch one request after the other, as the scheduler does. *)
Fixpoint reserve_all (self : ResourceCapacity) (requests : list ResourceRequest)
    : option ResourceCapacity :=
  match requests with
  | [] => Some self
  | r :: rest => match checked_reserve self r with
                 | Some self' => reserve_all self' rest
                 | None => None
                 end
  end.

(** ** Well-formedness *)

Definition gpu_consistent (gpu_count vram : Z) : Prop :=
  (gpu_count = 0 ↔ vram = 0) ∧ in_u64 (gpu_count * vram).

Definition request_valid (r : ResourceRequest) : Prop :=
  in_u32 (rq_cpu_cores r) ∧ in_u64 (rq_ram_bytes r) ∧
  in_u32 (rq_gpu_count r) ∧ in_u64 (rq_gpu_vram_bytes_per_device r) ∧
  0 < rq_cpu_cores r ∧
  gpu_consistent (rq_gpu_count r) (rq_gpu_vram_bytes_per_device r).

Definition capacity_valid (c : ResourceCapacity) : Prop :=
  in_u32 (cap_cpu_cores c) ∧ in_u64 (cap_ram_bytes c) ∧
  in_u32 (cap_gpu_count c) ∧ in_u64 (cap_gpu_vram_bytes_per_device c) ∧
  gpu_consistent (cap_gpu_count c) (cap_gpu_vram_bytes_per_device c).

Definition wire_in_range (w : ResourceWire) : Prop :=
  in_u32 (wire_cpu_cores w) ∧ in_u64 (wire_ram_bytes w) ∧
  in_u32 (wire_gpu_count w) ∧ in_u64 (wire_gpu_vram_bytes_per_device w).

(** The totals of a batch. *)
Definition total (f : ResourceRequest → Z) (requests : list ResourceRequest) : Z :=
  foldr (λ r acc, f r + acc) 0 requests.

Ltac unfold_resource :=
  unfold request_valid, capacity_valid, wire_in_range, gpu_consistent in *.

(** ** Lemmas on validation *)

Lemma validate_gpu_resources_Ok g v :
  validate_gpu_resources g v = Ok tt ↔ gpu_consistent g v.
Proof.
  unfold validate_gpu_resources, gpu_consistent, ok_or.
  destruct (Z.eqb_spec g 0), (Z.eqb_spec v 0); simpl;
    destruct (try_u64 (g * v)) as [w|] eqn:E; simpl;
    try apply try_u64_Some in E as [_ ?]; try naive_solver;
    unfold try_u64 in E; case_bool_decide; naive_solver.
Qed.

Lemma validate_request_Ok c g v :
  validate_request c g v = Ok tt ↔ c ≠ 0 ∧ gpu_consistent g v.
Proof.
  unfold validate_request. rewrite <-validate_gpu_resources_Ok.
  destruct (Z.eqb_spec c 0); naive_solver.
Qed.

Lemma request_new_Ok c ram g v r :
  request_new c ram g v = Ok r ↔ r = mkRequest c ram g v ∧ c ≠ 0 ∧ gpu_consistent g v.
Proof.
  unfold request_new. rewrite result_bind_Ok, <-validate_request_Ok.
  split; [intros ([] & -> & [= <-]); done|intros [-> ->]; by exists tt].
Qed.

Lemma capacity_new_Ok c ram g v r :
  capacity_new c ram g v = Ok r ↔ r = mkCapacity c ram g v ∧ gpu_consistent g v.
Proof.
  unfold capacity_new. rewrite result_bind_Ok, <-validate_gpu_resources_Ok.
  split; [intros ([] & -> & [= <-]); done|intros [-> ->]; by exists tt].
Qed.

(** ** Lemmas on reservation *)

Lemma fits_spec c r :
  fits c r = true ↔
  rq_cpu_cores r ≤ cap_cpu_cores c ∧ rq_ram_bytes r ≤ cap_ram_bytes c ∧
  rq_gpu_count r ≤ cap_gpu_count c ∧
  rq_gpu_vram_bytes_per_device r ≤ cap_gpu_vram_bytes_per_device c.
Proof. unfold fits. rewrite !andb_true_iff, !Z.leb_le. tauto. Qed.

(** What it means for a request to fit, dimension by dimension. *)
Definition room_for (c : ResourceCapacity) (r : ResourceRequest) : Prop :=
  rq_cpu_cores r ≤ cap_cpu_cores c ∧ rq_ram_bytes r ≤ cap_ram_bytes c ∧
  rq_gpu_count r ≤ cap_gpu_count c ∧
  rq_gpu_vram_bytes_per_device r ≤ cap_gpu_vram_bytes_per_device c.

Lemma fits_room c r : fits c r = true ↔ room_for c r.
Proof. apply fits_spec. Qed.

Lemma checked_reserve_is_Some c r : is_Some (checked_reserve c r) ↔ fits c r = true.
Proof. unfold checked_reserve. destruct (fits c r); split; naive_solver. Qed.

Lemma checked_reserve_Some c r c' :
  checked_reserve c r = Some c' ↔
  fits c r = true ∧
  cap_cpu_cores c' = cap_cpu_cores c - rq_cpu_cores r ∧
  cap_ram_bytes c' = cap_ram_bytes c - rq_ram_bytes r ∧
  cap_gpu_count c' = cap_gpu_count c - rq_gpu_count r ∧
  cap_gpu_vram_bytes_per_device c' =
    (if decide (cap_gpu_count c = rq_gpu_count r) then 0 else cap_gpu_vram_bytes_per_device c).
Proof.
  unfold checked_reserve. destruct (fits c r); [|naive_solver].
  destruct c' as [a b g v]; simpl.
  destruct (Z.eqb_spec (cap_gpu_count c - rq_gpu_count r) 0); simpl; case_decide;
    try lia; (split; [intros [= <- <- <- <-]; done|]);
    intros (_&?&?&?&?); do 2 f_equal; lia.
Qed.

Lemma checked_reserve_valid c r c' :
  capacity_valid c → request_valid r → checked_reserve c r = Some c' → capacity_valid c'.
Proof.
  rewrite checked_reserve_Some, fits_spec. unfold_resource.
  intros (?&?&?&?&[? ?]) (?&?&?&?&?&[? ?]) ((?&?&?&?)&E1&E2&E3&E4).
  rewrite E1, E2, E3, E4. case_decide; unfold_ints; repeat split; try lia; nia.
Qed.

Lemma reserve_all_Some c rs c' :
  capacity_valid c → Forall request_valid rs → reserve_all c rs = Some c' →
  capacity_valid c' ∧
  cap_cpu_cores c' = cap_cpu_cores c - total rq_cpu_cores rs ∧
  cap_ram_bytes c' = cap_ram_bytes c - total rq_ram_bytes rs ∧
  cap_gpu_count c' = cap_gpu_count c - total rq_gpu_count rs.
Proof.
  revert c. induction rs as [|r rs IH]; simpl; intros c Hc Hrs.
  { intros [= <-]. split; [done|lia]. }
  apply Forall_cons in Hrs as [Hr Hrs].
  destruct (checked_reserve c r) as [c1|] eqn:E; [|done]. intros H.
  pose proof (checked_reserve_valid _ _ _ Hc Hr E) as Hc1.
  destruct (IH c1 Hc1 Hrs H) as (?&?&?&?).
  apply checked_reserve_Some in E as (?&?&?&?&?). split; [done|lia].
Qed.

Lemma total_cons f r rs : total f (r :: rs) = f r + total f rs.
Proof. done. Qed.

Lemma total_nonneg f rs : Forall (λ r, 0 ≤ f r) rs → 0 ≤ total f rs.
Proof. induction 1; rewrite ?total_cons; [done|lia]. Qed.

Lemma valid_totals rs :
  Forall request_valid rs →
  0 ≤ total rq_cpu_cores rs ∧ 0 ≤ total rq_ram_bytes rs ∧ 0 ≤ total rq_gpu_count rs.
Proof.
  intros H. repeat split; apply total_nonneg; (eapply Forall_impl; [exact H|]);
    intros r ?; unfold_resource; unfold_ints; lia.
Qed.

(** Requests that ask for no GPU between them ask for no GPU memory. *)
Lemma no_gpu_no_vram rs :
  Forall request_valid rs → total rq_gpu_count rs ≤ 0 →
  Forall (λ r, rq_gpu_vram_bytes_per_device r ≤ 0) rs.
Proof.
  induction 1 as [|r rs Hr Hrs IH]; [done|]. rewrite total_cons. intros H.
  pose proof (valid_totals _ Hrs). unfold_resource; unfold_ints.
  assert (rq_gpu_count r = 0) by lia. constructor; [lia|apply IH; lia].
Qed.

(** The requests of a batch fit one after the other exactly when their totals
    fit and every device is large enough for each of them: the memory per device
    a reservation leaves drops to 0 only when no GPU is left. *)
Definition batch_fits (c : ResourceCapacity) (rs : list ResourceRequest) : Prop :=
  total rq_cpu_cores rs ≤ cap_cpu_cores c ∧ total rq_ram_bytes rs ≤ cap_ram_bytes c ∧
  total rq_gpu_count rs ≤ cap_gpu_count c ∧
  Forall (λ r, rq_gpu_vram_bytes_per_device r ≤ cap_gpu_vram_bytes_per_device c) rs.

Lemma batch_fits_cons c r rs c' :
  capacity_valid c → request_valid r → Forall request_valid rs →
  checked_reserve c r = Some c' → batch_fits c (r :: rs) ↔ batch_fits c' rs.
Proof.
  intros Hc Hr Hrs (Hf&E1&E2&E3&E4)%checked_reserve_Some. apply fits_spec in Hf.
  unfold batch_fits. rewrite !total_cons, Forall_cons, E1, E2, E3, E4.
  pose proof (no_gpu_no_vram _ Hrs) as Hno. pose proof (valid_totals _ Hrs).
  case_decide as Hd; [|intuition lia].
  split; [intros (?&?&?&_&_)|intros (?&?&?&_)]; (split_and!; try lia).
  - apply Hno. lia.
  - eapply Forall_impl; [apply Hno; lia|]. simpl. intros. unfold_resource; unfold_ints; lia.
Qed.

Lemma reserve_all_accepts c rs :
  capacity_valid c → Forall request_valid rs →
  is_Some (reserve_all c rs) ↔ batch_fits c rs.
Proof.
  revert c. induction rs as [|r rs IH]; simpl; intros c Hc Hrs.
  { unfold batch_fits. unfold_resource; unfold_ints. simpl. split; [|eauto]. intros _.
    repeat split; try lia. constructor. }
  apply Forall_cons in Hrs as [Hr Hrs]. destruct (checked_reserve c r) as [c1|] eqn:E.
  - rewrite (batch_fits_cons _ _ _ _ Hc Hr Hrs E).
    apply IH; [by eapply checked_reserve_valid|done].
  - split; [by intros []|]. intros (?&?&?&[? _]%Forall_cons). exfalso.
    pose proof (valid_totals _ Hrs). rewrite !total_cons in *.
    assert (Hf : fits c r = true) by (apply fits_spec; lia).
    by apply checked_reserve_is_Some in Hf as [? ?]; congruence.
Qed.

(** What an accepted batch leaves of the memory per device. *)
Lemma reserve_all_vram c rs c' :
  capacity_valid c → Forall request_valid rs → reserve_all c rs = Some c' →
  cap_gpu_vram_bytes_per_device c' =
    if decide (cap_gpu_count c' = 0) then 0 else cap_gpu_vram_bytes_per_device c.
Proof.
  revert c. induction rs as [|r rs IH]; simpl; intros c Hc Hrs.
  { intros [= <-]. case_decide; [|done]. unfold_resource; intuition. }
  apply Forall_cons in Hrs as [Hr Hrs].
  destruct (checked_reserve c r) as [c1|] eqn:E; [|done]. intros H.
  pose proof (checked_reserve_valid _ _ _ Hc Hr E) as Hc1.
  rewrite (IH c1 Hc1 Hrs H). case_decide; [done|].
  destruct (reserve_all_Some _ _ _ Hc1 Hrs H) as (_&_&_&?).
  pose proof (reserve_all_Some _ _ _ Hc1 Hrs H) as ((?&?&?&?&?)&_).
  apply checked_reserve_Some in E as (_&_&_&?&->). pose proof (valid_totals _ Hrs).
  case_decide; [|done]. unfold_ints; lia.
Qed.

Lemma reserve_all_app c l1 l2 :
  reserve_all c (l1 ++ l2) = match reserve_all c l1 with Some c' => reserve_all c' l2 | None => None end.
Proof.
  revert c. induction l1 as [|r l1 IH]; intros c; simpl; [done|].
  by destruct (checked_reserve c r).
Qed.

(** Two reservations commute: the order of admission never matters. *)
Lemma checked_reserve_swap c r1 r2 :
  capacity_valid c → request_valid r1 → request_valid r2 →
  (match checked_reserve c r1 with Some c' => checked_reserve c' r2 | None => None end) =
  (match checked_reserve c r2 with Some c' => checked_reserve c' r1 | None => None end).
Proof.
  intros (_&_&_&_&[Hc _]) (?&?&?&?&?&[Hgv1 _]) (?&?&?&?&?&[Hgv2 _]).
  unfold checked_reserve, fits, in_u32, in_u64 in *.
  destruct c as [cc cr cg cv], r1 as [c1 m1 g1 v1], r2 as [c2 m2 g2 v2]; simpl in *.
  repeat match goal with
         | |- context [?a <=? ?b] => destruct (Z.leb_spec a b); simpl; try lia
         | |- context [?a =? ?b] => destruct (Z.eqb_spec a b); simpl; try lia
         | H : context [?a =? ?b] |- _ => destruct (Z.eqb_spec a b); simpl in H; try lia
         end; try done; cbn [negb] in *; first [do 2 f_equal; lia | exfalso; lia].
Qed.

Lemma reserve_two c r1 r2 rs :
  reserve_all c (r1 :: r2 :: rs) =
  match (match checked_reserve c r1 with Some c' => checked_reserve c' r2 | None => None end) with
  | Some c' => reserve_all c' rs
  | None => None
  end.
Proof. simpl. by destruct (checked_reserve c r1). Qed.

Lemma Forall_request_swap r1 r2 rs :
  Forall request_valid (r1 :: r2 :: rs) → request_valid r1 ∧ request_valid r2.
Proof. rewrite !Forall_cons. tauto. Qed.

(** ** Properties *)

(** Deserialising a wire record accepts exactly the valid requests: the
    accepted value repeats the wire fields, has at least one core, has GPUs iff
    it has GPU memory, and its GPU total fits a [u64]. *)
Theorem request_deserialize_validates (w : ResourceWire) (Hw : wire_in_range w) (r : ResourceRequest) :
  request_deserialize w = Ok r ↔
  r = mkRequest (wire_cpu_cores w) (wire_ram_bytes w) (wire_gpu_count w)
        (wire_gpu_vram_bytes_per_device w) ∧
  request_valid r.
Proof.
  unfold request_deserialize. rewrite request_new_Ok. unfold_resource.
  split; [intros (-> & ? & ?)|intros (-> & ?)]; simpl in *; unfold_ints; intuition lia.
Qed.

Lemma request_deserialize_validates_witness :
  wire_in_range (mkWire 4 1024 1 8) ∧
  (request_deserialize (mkWire 4 1024 1 8) = Ok (mkRequest 4 1024 1 8) ↔
   mkRequest 4 1024 1 8 = mkRequest 4 1024 1 8 ∧ request_valid (mkRequest 4 1024 1 8)).
Proof.
  assert (H : wire_in_range (mkWire 4 1024 1 8)) by (unfold_resource; unfold_ints; simpl; lia).
  split; [exact H|]. exact (request_deserialize_validates _ H _).
Defined.

(** C40. Reserving a batch of valid requests on a valid capacity is accepted
    exactly when the total cores, memory and GPUs are within the capacity and
    every request's memory per device is within the capacity's; an accepted batch
    keeps the capacity valid, subtracts exactly the totals and leaves the memory
    per device as it was, or 0 when no GPU is left; and the outcome is the same in
    whatever order the batch is admitted. *)
Theorem reserve_all_sound (c : ResourceCapacity) (rs rs' : list ResourceRequest)
    (Hc : capacity_valid c) (Hrs : Forall request_valid rs) (Hperm : rs ≡ₚ rs') :
  reserve_all c rs = reserve_all c rs' ∧
  (is_Some (reserve_all c rs) ↔
   total rq_cpu_cores rs ≤ cap_cpu_cores c ∧ total rq_ram_bytes rs ≤ cap_ram_bytes c ∧
   total rq_gpu_count rs ≤ cap_gpu_count c ∧
   Forall (λ r, rq_gpu_vram_bytes_per_device r ≤ cap_gpu_vram_bytes_per_device c) rs) ∧
  ∀ c', reserve_all c rs = Some c' →
    capacity_valid c' ∧
    cap_cpu_cores c' + total rq_cpu_cores rs = cap_cpu_cores c ∧
    cap_ram_bytes c' + total rq_ram_bytes rs = cap_ram_bytes c ∧
    cap_gpu_count c' + total rq_gpu_count rs = cap_gpu_count c ∧
    cap_gpu_vram_bytes_per_device c' =
      (if decide (cap_gpu_count c' = 0) then 0 else cap_gpu_vram_bytes_per_device c).
Proof.
  split; [|split; [by apply reserve_all_accepts|intros c' H;
    destruct (reserve_all_Some _ _ _ Hc Hrs H) as (?&?&?&?);
    split; [done|split_and!; try lia; by eapply reserve_all_vram]]].
  revert c Hc. induction Hperm as [|r l l' ? IH|r1 r2 l|l1 l2 l3 H12 IH12 H23 IH23]; intros c Hc.
  - done.
  - apply Forall_cons in Hrs as [Hr Hl]. simpl.
    destruct (checked_reserve c r) as [c1|] eqn:E; [|done].
    apply IH; [done|]. by eapply checked_reserve_valid.
  - destruct (Forall_request_swap _ _ _ Hrs) as [Hv2 Hv1].
    rewrite !reserve_two, checked_reserve_swap by done. done.
  - rewrite IH12 by done. apply IH23; [|done]. by rewrite <-H12.
Qed.

Lemma reserve_all_sound_witness :
  reserve_all (mkCapacity 8 100 2 16) [mkRequest 2 10 2 8; mkRequest 4 20 0 0] =
  reserve_all (mkCapacity 8 100 2 16) [mkRequest 4 20 0 0; mkRequest 2 10 2 8] ∧
  reserve_all (mkCapacity 8 100 2 16) [mkRequest 2 10 2 8; mkRequest 4 20 0 0] =
  Some (mkCapacity 2 70 0 0) ∧
  reserve_all (mkCapacity 8 100 2 16) [mkRequest 2 10 2 32] = None.
Proof.
  split; [|split; reflexivity].
  refine (proj1 (reserve_all_sound (mkCapacity 8 100 2 16)
    [mkRequest 2 10 2 8; mkRequest 4 20 0 0] [mkRequest 4 20 0 0; mkRequest 2 10 2 8] _ _ _)).
  - unfold_resource; simpl; unfold_ints; lia.
  - repeat constructor; unfold_resource; simpl; unfold_ints; lia.
  - apply perm_swap.
Defined.
