(* ===== verification/State.v ===== *)
(** * Job states, events and the transition function

    crates/zkie-runtime/src/state.rs: identifiers, the persisted enumerations
    with their text encodings, failure records, and [JobState::transition], the
    state machine every job of a run goes through. *)
From S2P Require Import Prelude.

Open Scope string_scope.
Open Scope list_scope.

(** ** Identifiers *)

Definition MAX_ID_BYTES : nat := 256.

Inductive StateError := InvalidIdentifier.

#[export] Instance StateError_eq_dec : EqDecision StateError.
Proof. solve_decision. Defined.

Definition ascii_byte (c : Ascii.ascii) : bool := Nat.ltb (Ascii.nat_of_ascii c) 128.

(** [char::is_control] on the ASCII range, the only one the test reaches. *)
Definition is_control (c : Ascii.ascii) : bool :=
  let n := Ascii.nat_of_ascii c in Nat.ltb n 32 || Nat.eqb n 127.

Fixpoint string_forallb (p : Ascii.ascii → bool) (s : string) : bool :=
  match s with
  | "" => true
  | String c s => p c && string_forallb p s
  end.

Definition is_ascii (s : string) : bool := string_forallb ascii_byte s.

Notation JobId := string (only parsing).
Notation AttemptId := string (only parsing).
Notation VerificationRecordId := string (only parsing).

(** The constructor the [identifier!] macro gives [JobId], [AttemptId] and
    [VerificationRecordId]. *)
Definition identifier_new (value : string) : Result string StateError :=
  if String.eqb value "" || Nat.ltb MAX_ID_BYTES (String.length value)
     || negb (is_ascii value) || negb (string_forallb (λ c, negb (is_control c)) value)
  then Err InvalidIdentifier
  else Ok value.

Definition valid_id (s : string) : Prop := identifier_new s = Ok s.

(** ** Enumerations and their persisted text *)

Inductive JobKind :=
| Witness | Prepare | LeafProof | LeafVerification | NativeAggregate.

Inductive JobState :=
| Pending | Ready | Witnessing | WitnessReady | Preparing | Prepared | Proving | Proved
| Verifying | Verified | ExecutionFailed | VerificationFailed | ResourceExceeded
| Interrupted | Requeued | Blocked.

Inductive FailureKind :=
| FkExecution | FkVerification | FkResourceExceeded | FkDependency | FkInterrupted.

Inductive FailureStage :=
| FsWitness | FsPrepare | FsProve | FsVerify | FsAggregate | FsScheduler.

Inductive FailureCode :=
| WorkerExit | InvalidResult | ResourceLimit | PredecessorFailed | SchedulerRestart.

Inductive UnknownEnumValue := UnknownEnum (value : string).

#[export] Instance JobKind_eq_dec : EqDecision JobKind.
Proof. solve_decision. Defined.
#[export] Instance JobState_eq_dec : EqDecision JobState.
Proof. solve_decision. Defined.
#[export] Instance FailureKind_eq_dec : EqDecision FailureKind.
Proof. solve_decision. Defined.
#[export] Instance FailureStage_eq_dec : EqDecision FailureStage.
Proof. solve_decision. Defined.
#[export] Instance FailureCode_eq_dec : EqDecision FailureCode.
Proof. solve_decision. Defined.

(** A persisted enumeration: its [as_str] and its [TryFrom<&str>], with the law
    the database relies on when it writes one and reads the other. *)
Class Persisted (A : Type) := {
  as_str : A → string;
  try_from : string → Result A UnknownEnumValue;
  try_from_as_str : ∀ a, try_from (as_str a) = Ok a;
  try_from_sound : ∀ s a, try_from s = Ok a → as_str a = s
}.

Definition kind_as_str (k : JobKind) : string :=
  match k with
  | Witness => "witness"
  | Prepare => "prepare"
  | LeafProof => "leaf-proof"
  | LeafVerification => "leaf-verification"
  | NativeAggregate => "native-aggregate"
  end.

Definition kind_try_from (value : string) : Result JobKind UnknownEnumValue :=
  if value =? "witness" then Ok Witness
  else if value =? "prepare" then Ok Prepare
  else if value =? "leaf-proof" then Ok LeafProof
  else if value =? "leaf-verification" then Ok LeafVerification
  else if value =? "native-aggregate" then Ok NativeAggregate
  else Err (UnknownEnum value).

Definition state_as_str (s : JobState) : string :=
  match s with
  | Pending => "pending"
  | Ready => "ready"
  | Witnessing => "witnessing"
  | WitnessReady => "witness-ready"
  | Preparing => "preparing"
  | Prepared => "prepared"
  | Proving => "proving"
  | Proved => "proved"
  | Verifying => "verifying"
  | Verified => "verified"
  | ExecutionFailed => "execution-failed"
  | VerificationFailed => "verification-failed"
  | ResourceExceeded => "resource-exceeded"
  | Interrupted => "interrupted"
  | Requeued => "requeued"
  | Blocked => "blocked"
  end.

Definition state_try_from (value : string) : Result JobState UnknownEnumValue :=
  if value =? "pending" then Ok Pending
  else if value =? "ready" then Ok Ready
  else if value =? "witnessing" then Ok Witnessing
  else if value =? "witness-ready" then Ok WitnessReady
  else if value =? "preparing" then Ok Preparing
  else if value =? "prepared" then Ok Prepared
  else if value =? "proving" then Ok Proving
  else if value =? "proved" then Ok Proved
  else if value =? "verifying" then Ok Verifying
  else if value =? "verified" then Ok Verified
  else if value =? "execution-failed" then Ok ExecutionFailed
  else if value =? "verification-failed" then Ok VerificationFailed
  else if value =? "resource-exceeded" then Ok ResourceExceeded
  else if value =? "interrupted" then Ok Interrupted
  else if value =? "requeued" then Ok Requeued
  else if value =? "blocked" then Ok Blocked
  else Err (UnknownEnum value).

Definition failure_kind_as_str (k : FailureKind) : string :=
  match k with
  | FkExecution => "execution"
  | FkVerification => "verification"
  | FkResourceExceeded => "resource-exceeded"
  | FkDependency => "dependency"
  | FkInterrupted => "interrupted"
  end.

Definition failure_kind_summary (k : FailureKind) : string :=
  match k with
  | FkExecution => "execution failed"
  | FkVerification => "verification failed"
  | FkResourceExceeded => "resource limit exceeded"
  | FkDependency => "dependency failed"
  | FkInterrupted => "interrupted"
  end.

Definition failure_kind_try_from (value : string) : Result FailureKind UnknownEnumValue :=
  if value =? "execution" then Ok FkExecution
  else if value =? "verification" then Ok FkVerification
  else if value =? "resource-exceeded" then Ok FkResourceExceeded
  else if value =? "dependency" then Ok FkDependency
  else if value =? "interrupted" then Ok FkInterrupted
  else Err (UnknownEnum value).

Definition failure_stage_as_str (s : FailureStage) : string :=
  match s with
  | FsWitness => "witness"
  | FsPrepare => "prepare"
  | FsProve => "prove"
  | FsVerify => "verify"
  | FsAggregate => "aggregate"
  | FsScheduler => "scheduler"
  end.

Definition failure_stage_try_from (value : string) : Result FailureStage UnknownEnumValue :=
  if value =? "witness" then Ok FsWitness
  else if value =? "prepare" then Ok FsPrepare
  else if value =? "prove" then Ok FsProve
  else if value =? "verify" then Ok FsVerify
  else if value =? "aggregate" then Ok FsAggregate
  else if value =? "scheduler" then Ok FsScheduler
  else Err (UnknownEnum value).

Definition failure_code_as_str (c : FailureCode) : string :=
  match c with
  | WorkerExit => "worker_exit"
  | InvalidResult => "invalid_result"
  | ResourceLimit => "resource_limit"
  | PredecessorFailed => "predecessor_failed"
  | SchedulerRestart => "scheduler_restart"
  end.

Definition failure_code_try_from (value : string) : Result FailureCode UnknownEnumValue :=
  if value =? "worker_exit" then Ok WorkerExit
  else if value =? "invalid_result" then Ok InvalidResult
  else if value =? "resource_limit" then Ok ResourceLimit
  else if value =? "predecessor_failed" then Ok PredecessorFailed
  else if value =? "scheduler_restart" then Ok SchedulerRestart
  else Err (UnknownEnum value).

(** Decoding compares the text against each encoding in turn; both laws are a
    walk through those comparisons. *)
Ltac solve_persisted :=
  match goal with
  | |- ∀ a, _ = Ok a => intros []; reflexivity
  | |- ∀ s a, _ = Ok a → _ => intros s a H; unfold
      kind_try_from, state_try_from, failure_kind_try_from, failure_stage_try_from,
      failure_code_try_from in H;
      repeat (match type of H with
              | context [?x =? ?y] => destruct (String.eqb_spec x y); [simplify_eq/=; reflexivity|]
              end); discriminate H
  end.

#[export] Program Instance JobKind_persisted : Persisted JobKind :=
  {| as_str := kind_as_str; try_from := kind_try_from |}.
Solve All Obligations with solve_persisted.
#[export] Program Instance JobState_persisted : Persisted JobState :=
  {| as_str := state_as_str; try_from := state_try_from |}.
Solve All Obligations with solve_persisted.
#[export] Program Instance FailureKind_persisted : Persisted FailureKind :=
  {| as_str := failure_kind_as_str; try_from := failure_kind_try_from |}.
Solve All Obligations with solve_persisted.
#[export] Program Instance FailureStage_persisted : Persisted FailureStage :=
  {| as_str := failure_stage_as_str; try_from := failure_stage_try_from |}.
Solve All Obligations with solve_persisted.
#[export] Program Instance FailureCode_persisted : Persisted FailureCode :=
  {| as_str := failure_code_as_str; try_from := failure_code_try_from |}.
Solve All Obligations with solve_persisted.

(** ** Failure records *)

Record FailureRecord := mkFailure {
  fr_kind : FailureKind;
  fr_stage : FailureStage;
  fr_code : FailureCode;
  fr_summary : string
}.

#[export] Instance FailureRecord_eq_dec : EqDecision FailureRecord.
Proof. solve_decision. Defined.

Definition failure_new (kind : FailureKind) (stage : FailureStage) (code : FailureCode) : FailureRecord :=
  mkFailure kind stage code (failure_kind_summary kind).

(** The message of an untrusted worker is dropped, never stored. *)
Definition failure_from_untrusted_message (kind : FailureKind) (stage : FailureStage)
    (code : FailureCode) (_message : string) : FailureRecord :=
  mkFailure kind stage code "[REDACTED]".

(** ** Events *)

Inductive JobEvent :=
| DependenciesSatisfied
| DependencyBlocked (predecessor : JobId)
| StartWitnessing
| WitnessCompleted
| StartPreparing
| PreparationCompleted
| StartProving
| ProofProduced
| StartVerification
| VerificationSucceeded (verification_record : option VerificationRecordId)
| EvExecutionFailed (failure : FailureRecord)
| EvVerificationFailed (failure : FailureRecord)
| EvResourceExceeded (failure : FailureRecord)
| EvInterrupted (failure : FailureRecord)
| RetryExecution
| RetryResourceExceeded
| RecoveryRequeue.

#[export] Instance JobEvent_eq_dec : EqDecision JobEvent.
Proof. solve_decision. Defined.

Definition event_name (e : JobEvent) : string :=
  match e with
  | DependenciesSatisfied => "dependencies-satisfied"
  | DependencyBlocked _ => "dependency-blocked"
  | StartWitnessing => "start-witnessing"
  | WitnessCompleted => "witness-completed"
  | StartPreparing => "start-preparing"
  | PreparationCompleted => "preparation-completed"
  | StartProving => "start-proving"
  | ProofProduced => "proof-produced"
  | StartVerification => "start-verification"
  | VerificationSucceeded _ => "verification-succeeded"
  | EvExecutionFailed _ => "execution-failed"
  | EvVerificationFailed _ => "verification-failed"
  | EvResourceExceeded _ => "resource-exceeded"
  | EvInterrupted _ => "interrupted"
  | RetryExecution => "retry-execution"
  | RetryResourceExceeded => "retry-resource-exceeded"
  | RecoveryRequeue => "recovery-requeue"
  end.

Definition event_failure (e : JobEvent) : option FailureRecord :=
  match e with
  | EvExecutionFailed f | EvVerificationFailed f | EvResourceExceeded f | EvInterrupted f => Some f
  | _ => None
  end.

Definition event_blocking_predecessor (e : JobEvent) : option JobId :=
  match e with
  | DependencyBlocked predecessor => Some predecessor
  | _ => None
  end.

Definition event_verification_record (e : JobEvent) : option VerificationRecordId :=
  match e with
  | VerificationSucceeded r => r
  | _ => None
  end.

Definition starts_attempt (e : JobEvent) : bool :=
  match e with
  | StartWitnessing | StartPreparing | StartProving | StartVerification => true
  | _ => false
  end.

(** ** The transition function *)

Record TransitionError := mkTransitionError { te_from : JobState; te_event : string }.

#[export] Instance TransitionError_eq_dec : EqDecision TransitionError.
Proof. solve_decision. Defined.

Definition kind_is (f : FailureRecord) (k : FailureKind) : bool := bool_decide (fr_kind f = k).

Definition transition (self : JobState) (event : JobEvent) : Result JobState TransitionError :=
  let reject := Err (mkTransitionError self (event_name event)) in
  match self, event with
  | (Pending | Requeued), DependenciesSatisfied => Ok Ready
  | (Pending | Requeued), DependencyBlocked _ => Ok Blocked
  | Ready, StartWitnessing => Ok Witnessing
  | Witnessing, WitnessCompleted => Ok WitnessReady
  | (Ready | WitnessReady), StartPreparing => Ok Preparing
  | Preparing, PreparationCompleted => Ok Prepared
  | (Ready | Preparing), StartProving => Ok Proving
  | Proving, ProofProduced => Ok Proved
  | (Ready | WitnessReady | Preparing | Proved), StartVerification => Ok Verifying
  | (WitnessReady | Prepared | Proved | Verifying), VerificationSucceeded (Some _) => Ok Verified
  | (Witnessing | Preparing | Proving | Verifying), EvExecutionFailed failure =>
      if kind_is failure FkExecution then Ok ExecutionFailed else reject
  | (WitnessReady | Prepared | Proved | Verifying), EvVerificationFailed failure =>
      if kind_is failure FkVerification then Ok VerificationFailed else reject
  | (Witnessing | Preparing | Proving | Verifying), EvResourceExceeded failure =>
      if kind_is failure FkResourceExceeded then Ok ResourceExceeded else reject
  | (Witnessing | Preparing | Proving | Verifying), EvInterrupted failure =>
      if kind_is failure FkInterrupted then Ok Interrupted else reject
  | ExecutionFailed, RetryExecution => Ok Requeued
  | ResourceExceeded, RetryResourceExceeded => Ok Requeued
  | Interrupted, RecoveryRequeue => Ok Requeued
  | _, _ => reject
  end.

Definition is_permanent_failure (s : JobState) : bool :=
  match s with VerificationFailed | Blocked => true | _ => false end.

Definition is_active (s : JobState) : bool :=
  match s with Witnessing | Preparing | Proving | Verifying => true | _ => false end.

(** A history of events applied from a state. *)
Definition run (s : JobState) (events : list JobEvent) : Result JobState TransitionError :=
  result_fold transition s events.

(** ** Lemmas on transitions *)

(** Splits a successful transition into its source state and event. *)
Ltac inv_transition H :=
  match type of H with
  | transition ?s ?e = Ok _ =>
      unfold transition in H; destruct s, e; simpl in H;
      repeat match type of H with
             | context [match ?o with Some _ => _ | None => _ end] => destruct o; simpl in H
             | context [if kind_is ?f ?k then _ else _] =>
                 let E := fresh "Ekind" in destruct (kind_is f k) eqn:E; simpl in H
             end;
      try discriminate H; try (injection H as H); subst
  end.

Lemma transition_error s e err :
  transition s e = Err err → err = mkTransitionError s (event_name e).
Proof.
  intros H. unfold transition in H. destruct s, e; simpl in H;
    repeat (case_match; simpl in * ); naive_solver.
Qed.

Lemma transition_to_active s e s' :
  transition s e = Ok s' → is_active s' = starts_attempt e.
Proof. intros H. by inv_transition H. Qed.

Lemma transition_blocked_source s p s' :
  transition s (DependencyBlocked p) = Ok s' ↔ (s = Pending ∨ s = Requeued) ∧ s' = Blocked.
Proof. unfold transition. destruct s; naive_solver. Qed.

Lemma transition_satisfied_source s s' :
  transition s DependenciesSatisfied = Ok s' ↔ (s = Pending ∨ s = Requeued) ∧ s' = Ready.
Proof. unfold transition. destruct s; naive_solver. Qed.

Lemma transition_verified s e :
  transition s e = Ok Verified → ∃ r, e = VerificationSucceeded (Some r).
Proof. intros H. inv_transition H; eauto. Qed.

Lemma run_snoc s es e s' :
  run s (es ++ [e]) = Ok s' ↔ ∃ s1, run s es = Ok s1 ∧ transition s1 e = Ok s'.
Proof.
  unfold run. rewrite result_fold_app, result_bind_Ok. simpl.
  split; intros (s1 & ? & H); exists s1; (split; [done|]); destruct (transition s1 e); naive_solver.
Qed.

(** The events that move a job forward inside one attempt chain. *)
Definition is_progress (e : JobEvent) : bool :=
  match e with
  | WitnessCompleted | StartPreparing | PreparationCompleted | StartProving | ProofProduced
  | StartVerification => true
  | _ => false
  end.

Definition in_progress (s : JobState) : bool :=
  match s with
  | Witnessing | WitnessReady | Preparing | Prepared | Proving | Proved | Verifying => true
  | _ => false
  end.

(** What the tail of a history looks like, by the state it ends in. *)
Definition history_shape (es : list JobEvent) (s : JobState) : Prop :=
  (s = Ready → ∃ pre, es = pre ++ [DependenciesSatisfied]) ∧
  (in_progress s = true → ∃ pre start mid,
     es = pre ++ DependenciesSatisfied :: start :: mid ∧
     starts_attempt start = true ∧ Forall (λ e, is_progress e = true) mid).

Lemma history_shape_run es s : run Pending es = Ok s → history_shape es s.
Proof.
  revert s. induction es as [|e es IH] using rev_ind; intros s.
  { intros [= <-]. split; discriminate. }
  intros (s1 & H1 & Ht)%run_snoc. specialize (IH _ H1) as [IHr IHp].
  inv_transition Ht; split; try discriminate; intros _;
    first [ by exists es
          | destruct (IHr eq_refl) as [pre ->]; eexists pre, _, [];
            rewrite <-app_assoc; split; [reflexivity|by repeat constructor]
          | destruct (IHp eq_refl) as (pre & start & mid & -> & Hs & Hm);
            eexists pre, start, (mid ++ [_]);
            rewrite <-app_assoc; split; [reflexivity|]; split; [done|];
            apply Forall_app; split; [done|by constructor] ].
Qed.

(** ** Properties *)

(** Every persisted enumeration decodes what it encodes and decodes nothing
    else: the text columns of the run database lose and invent no state. *)
Theorem persisted_codecs_roundtrip :
  (∀ k v, kind_try_from v = Ok k ↔ v = kind_as_str k) ∧
  (∀ s v, state_try_from v = Ok s ↔ v = state_as_str s) ∧
  (∀ f v, failure_kind_try_from v = Ok f ↔ v = failure_kind_as_str f) ∧
  (∀ f v, failure_stage_try_from v = Ok f ↔ v = failure_stage_as_str f) ∧
  (∀ f v, failure_code_try_from v = Ok f ↔ v = failure_code_as_str f).
Proof.
  split_and!; intros x v; pose proof (try_from_sound v x) as Hs;
    pose proof (try_from_as_str x) as Ha; cbn in Hs, Ha;
    (split; [intros H; exact (eq_sym (Hs H))|intros ->; exact Ha]).
Qed.

(** Every history that takes a job from [Pending] to [Verified] ends in a
    success event that carries a verification record, and before it the job's
    dependencies were satisfied and an attempt started, with nothing but
    progress events in between: no path skips the dependency check or the
    verification. *)
Theorem verified_history (es : list JobEvent) (H : run Pending es = Ok Verified) :
  ∃ pre start mid record,
    es = pre ++ DependenciesSatisfied :: start :: mid ++ [VerificationSucceeded (Some record)] ∧
    starts_attempt start = true ∧ Forall (λ e, is_progress e = true) mid.
Proof.
  destruct es as [|e es _] using rev_ind; [done|].
  apply run_snoc in H as (s1 & H1 & Ht).
  destruct (transition_verified _ _ Ht) as [record ->].
  destruct (history_shape_run _ _ H1) as [_ Hp].
  destruct Hp as (pre & start & mid & -> & Hs & Hm); [by inv_transition Ht|].
  exists pre, start, mid, record. rewrite <-app_assoc. by repeat split.
Qed.

Lemma verified_history_witness :
  run Pending [DependenciesSatisfied; StartProving; ProofProduced;
    VerificationSucceeded (Some "r:proof:verification:1")] = Ok Verified ∧
  ∃ pre start mid record,
    [DependenciesSatisfied; StartProving; ProofProduced;
     VerificationSucceeded (Some "r:proof:verification:1")] =
      pre ++ DependenciesSatisfied :: start :: mid ++ [VerificationSucceeded (Some record)] ∧
    starts_attempt start = true ∧ Forall (λ e, is_progress e = true) mid.
Proof. split; [reflexivity|]. apply verified_history. reflexivity. Defined.

(** [Verified], [VerificationFailed] and [Blocked] are absorbing: once a history
    reaches one of them no further event is accepted, and every rejected event
    names the state it was rejected in. *)
Theorem terminal_states_absorbing (s : JobState) (e : JobEvent) (es : list JobEvent) :
  s = Verified ∨ is_permanent_failure s = true →
  run s (e :: es) = Err (mkTransitionError s (event_name e)).
Proof. intros [->|Hs]; [by destruct e|]. by destruct s, e. Qed.

Lemma terminal_states_absorbing_witness :
  (Verified = Verified ∨ is_permanent_failure Verified = true) ∧
  run Verified [RetryExecution; StartProving] = Err (mkTransitionError Verified "retry-execution").
Proof. split; [by left|]. apply (terminal_states_absorbing Verified RetryExecution). by left. Defined.
