(* ===== verification/Identity.v ===== *)
(** * Run identities

    crates/zkie-types/src/identity.rs: the 32-byte digest with its lowercase
    hexadecimal text form, the ASCII identifiers, and [RunIdentity] with the
    byte string its digest is computed from.  BLAKE3 is a third-party hash: a
    parameter [blake3] of the section that uses it. *)
From S2P Require Import Prelude Bytes State.

Open Scope Z_scope.

(** ** Digests *)

(** [Digest32([u8; 32])]; the length is the type's, stated by [digest_ok]. *)
Notation Digest32 := bytes (only parsing).

Inductive DigestParseError := InvalidLength | InvalidHex.

#[export] Instance DigestParseError_eq_dec : EqDecision DigestParseError.
Proof. solve_decision. Defined.

(** One digit of ["{byte:02x}"]. *)
Definition hex_digit (n : Z) : Ascii.ascii :=
  if n <? 10 then byte_of_Z (48 + n) else byte_of_Z (97 + (n - 10)).

Definition hex_of_byte (b : Ascii.ascii) : bytes :=
  [hex_digit (Z_of_byte b / 16); hex_digit (Z_of_byte b mod 16)].

(** [Display for Digest32]. *)
Definition digest_display (d : Digest32) : bytes := mjoin (hex_of_byte <$> d).

Definition hex_nibble (value : Ascii.ascii) : option Z :=
  let v := Z_of_byte value in
  if (48 <=? v) && (v <=? 57) then Some (v - 48)
  else if (97 <=? v) && (v <=? 102) then Some (v - 97 + 10)
  else None.

(** [(hi << 4) | lo] on bytes. *)
Definition hex_byte (hi lo : Ascii.ascii) : option Ascii.ascii :=
  h ← hex_nibble hi; l ← hex_nibble lo; Some (byte_of_Z (Z.lor (Z.shiftl h 4) l)).

(** The [chunks_exact(2)] loop of [from_str]. *)
Fixpoint parse_hex_pairs (value : bytes) : option bytes :=
  match value with
  | hi :: lo :: rest => b ← hex_byte hi lo; bs ← parse_hex_pairs rest; Some (b :: bs)
  | _ => Some []
  end.

Definition digest_from_str (value : bytes) : Result Digest32 DigestParseError :=
  if negb (Nat.eqb (length value) 64) then Err InvalidLength
  else ok_or (parse_hex_pairs value) InvalidHex.

(** ** ASCII identifiers *)

Inductive IdentifierError := Empty | NonAscii.

#[export] Instance IdentifierError_eq_dec : EqDecision IdentifierError.
Proof. solve_decision. Defined.

Notation ProofFlavorId := string (only parsing).
Notation ExecutionBackendId := string (only parsing).

(** [parse] of the [ascii_identifier!] macro; [FromStr] and [Deserialize] go
    through it. *)
Definition ascii_identifier_parse (value : string) : Result string IdentifierError :=
  if String.eqb value "" then Err Empty
  else if negb (is_ascii value) then Err NonAscii
  else Ok value.

(** ** Run identity *)

Inductive ModelVisibility := PublicModel | PrivateModel.

#[export] Instance ModelVisibility_eq_dec : EqDecision ModelVisibility.
Proof. solve_decision. Defined.

Record RunIdentity := mkRunIdentity {
  ri_model_graph_digest : Digest32;
  ri_weights_digest : Digest32;
  ri_compiler_digest : Digest32;
  ri_isa_digest : Digest32;
  ri_quantization_digest : Digest32;
  ri_partition_plan_digest : Digest32;
  ri_aggregation_plan_digest : Digest32;
  ri_proof_flavor : ProofFlavorId;
  ri_model_visibility : ModelVisibility;
  ri_aggregation_fan_in : Z;
  ri_public_input_schema_version : Z
}.

Definition visibility_byte (v : ModelVisibility) : Z :=
  match v with PublicModel => 0 | PrivateModel => 1 end.

Definition encode_visibility (v : ModelVisibility) : bytes := [byte_of_Z (visibility_byte v)].

(** The bytes [canonical_digest] feeds to the hasher, in order. *)
Definition run_identity_preimage (r : RunIdentity) : bytes :=
  as_bytes "zkie.run-identity.v1" ++
  id (ri_model_graph_digest r) ++ id (ri_weights_digest r) ++
  id (ri_compiler_digest r) ++ id (ri_isa_digest r) ++
  id (ri_quantization_digest r) ++ id (ri_partition_plan_digest r) ++
  id (ri_aggregation_plan_digest r) ++
  encode_text (ri_proof_flavor r) ++
  encode_visibility (ri_model_visibility r) ++
  encode_u32 (ri_aggregation_fan_in r) ++
  encode_u32 (ri_public_input_schema_version r).

Definition canonical_digest (blake3 : bytes → Digest32) (r : RunIdentity) : Digest32 :=
  blake3 (run_identity_preimage r).

(** What the field types guarantee. *)
Definition run_identity_ok (r : RunIdentity) : Prop :=
  digest_ok (ri_model_graph_digest r) ∧ digest_ok (ri_weights_digest r) ∧
  digest_ok (ri_compiler_digest r) ∧ digest_ok (ri_isa_digest r) ∧
  digest_ok (ri_quantization_digest r) ∧ digest_ok (ri_partition_plan_digest r) ∧
  digest_ok (ri_aggregation_plan_digest r) ∧ text_ok (ri_proof_flavor r) ∧
  in_u32 (ri_aggregation_fan_in r) ∧ in_u32 (ri_public_input_schema_version r).

(** ** Lemmas *)

(** All 256 bytes, for statements decided by enumeration. *)
Definition all_bytes : list Ascii.ascii := Ascii.ascii_of_nat <$> seq 0 256.

Lemma elem_of_all_bytes b : b ∈ all_bytes.
Proof.
  unfold all_bytes. apply list_elem_of_fmap. exists (Ascii.nat_of_ascii b). split.
  - symmetry. apply Ascii.ascii_nat_embedding.
  - apply elem_of_seq. pose proof (Ascii.nat_ascii_bounded b). lia.
Qed.

Lemma by_enumeration (P : Ascii.ascii → bool) : forallb P all_bytes = true → ∀ b, P b = true.
Proof. intros H b. rewrite forallb_forall in H. apply H, list_elem_of_In, elem_of_all_bytes. Qed.

Lemma hex_byte_of_byte b :
  hex_byte (hex_digit (Z_of_byte b / 16)) (hex_digit (Z_of_byte b mod 16)) = Some b.
Proof.
  pose proof (by_enumeration (λ b, bool_decide (hex_byte (hex_digit (Z_of_byte b / 16))
    (hex_digit (Z_of_byte b mod 16)) = Some b)) eq_refl b) as H.
  by apply bool_decide_eq_true in H.
Qed.

(** A nibble is the digit it prints as. *)
Definition nibble_ok (c : Ascii.ascii) : bool :=
  match hex_nibble c with
  | Some n => (0 <=? n) && (n <? 16) && bool_decide (hex_digit n = c)
  | None => true
  end.

Lemma hex_nibble_digit c n : hex_nibble c = Some n → 0 ≤ n < 16 ∧ hex_digit n = c.
Proof.
  intros H. pose proof (by_enumeration nibble_ok eq_refl c) as Hc.
  unfold nibble_ok in Hc. rewrite H in Hc.
  rewrite !andb_true_iff, bool_decide_eq_true in Hc. destruct Hc as [[? ?] ?]. split; [lia|done].
Qed.

Lemma nibbles_join h l :
  0 ≤ h < 16 → 0 ≤ l < 16 → Z_of_byte (byte_of_Z (Z.lor (Z.shiftl h 4) l)) = 16 * h + l.
Proof.
  intros Hh Hl. apply Z.eqb_eq.
  refine (forallb_range (λ l, Z_of_byte (byte_of_Z (Z.lor (Z.shiftl h 4) l)) =? 16 * h + l) 16 _ l Hl).
  refine (forallb_range (λ h, forallb (λ k, Z_of_byte (byte_of_Z (Z.lor (Z.shiftl h 4) (Z.of_nat k)))
    =? 16 * h + Z.of_nat k) (seq 0 16)) 16 _ h Hh).
  vm_compute. reflexivity.
Qed.

Lemma hex_byte_sound hi lo b : hex_byte hi lo = Some b → hex_of_byte b = [hi; lo].
Proof.
  unfold hex_byte, hex_of_byte. destruct (hex_nibble hi) as [h|] eqn:Eh; [|done].
  destruct (hex_nibble lo) as [l|] eqn:El; [|done]. simpl. intros [= <-].
  apply hex_nibble_digit in Eh as [Hh <-]. apply hex_nibble_digit in El as [Hl <-].
  rewrite nibbles_join by done. do 2 f_equal.
  - f_equal. symmetry. apply (Z.div_unique _ _ _ l); lia.
  - f_equal. symmetry. apply (Z.mod_unique _ _ h); lia.
Qed.

Lemma digest_display_cons b d : digest_display (b :: d) = hex_of_byte b ++ digest_display d.
Proof. reflexivity. Qed.

Lemma length_digest_display d : length (digest_display d) = (2 * length d)%nat.
Proof.
  induction d as [|b d IH]; [done|].
  rewrite digest_display_cons, length_app, IH. simpl. lia.
Qed.

Lemma parse_digest_display d : parse_hex_pairs (digest_display d) = Some d.
Proof.
  induction d as [|b d IH]; [done|]. rewrite digest_display_cons. cbn [app parse_hex_pairs hex_of_byte].
  rewrite hex_byte_of_byte. simpl. by rewrite IH.
Qed.

Lemma parse_hex_pairs_sound n value bs :
  length value = (2 * n)%nat → parse_hex_pairs value = Some bs →
  digest_display bs = value ∧ length bs = n.
Proof.
  revert value bs. induction n as [|n IH]; intros [|hi [|lo value]] bs Hlen; simpl in *; try lia.
  { by intros [= <-]. }
  destruct (hex_byte hi lo) as [b|] eqn:Eb; [|done].
  destruct (parse_hex_pairs value) as [bs'|] eqn:Ebs; [|done]. simpl. intros [= <-].
  destruct (IH value bs' ltac:(lia) Ebs) as [<- <-].
  rewrite digest_display_cons. by apply hex_byte_sound in Eb as ->.
Qed.

#[export] Instance encode_visibility_prefix_free : PrefixFree (λ _, True) encode_visibility.
Proof. apply (prefix_free_fixed _ _ 1); [done|]. by intros [] []. Qed.

(** ** Properties *)

(** The text form of a digest is canonical: printing gives 64 lowercase hex
    characters that parse back to the same digest, and the only text that parses
    to a digest is the one it prints as. *)
Theorem digest_text_roundtrip (d : Digest32) (v : bytes) :
  digest_from_str v = Ok d ↔ v = digest_display d ∧ digest_ok d.
Proof.
  unfold digest_from_str, digest_ok. split.
  - destruct (Nat.eqb_spec (length v) 64) as [Hl|]; simpl; [|done].
    destruct (parse_hex_pairs v) as [bs|] eqn:E; simpl; [|done]. intros [= <-].
    by destruct (parse_hex_pairs_sound 32 v bs Hl E) as [<- ?].
  - intros [-> Hd]. rewrite length_digest_display, Hd. simpl. by rewrite parse_digest_display.
Qed.

(** The byte string behind [canonical_digest] determines every field of the
    run identity: two runs share a preimage only if they are the same run. *)
Theorem run_identity_preimage_injective (a b : RunIdentity)
    (Ha : run_identity_ok a) (Hb : run_identity_ok b)
    (H : run_identity_preimage a = run_identity_preimage b) : a = b.
Proof.
  unfold run_identity_ok, run_identity_preimage in *. destruct_and!.
  apply app_inv_head in H. do 8 peel H.
  do 2 peel H.
  apply (prefix_free_inj in_u32) in H; [|first [done | apply _]..].
  destruct a, b; simpl in *. by subst.
Qed.

Definition example_digest (k : Z) : Digest32 := replicate 32 (byte_of_Z k).

Definition example_identity : RunIdentity :=
  mkRunIdentity (example_digest 1) (example_digest 2) (example_digest 3) (example_digest 4)
    (example_digest 5) (example_digest 6) (example_digest 7) "halo2-kzg-shplonk" PublicModel 4 1.

Lemma example_identity_ok : run_identity_ok example_identity.
Proof. unfold run_identity_ok, digest_ok, text_ok; simpl; unfold_ints; lia. Qed.

Lemma run_identity_preimage_injective_witness :
  run_identity_preimage example_identity = run_identity_preimage example_identity ∧
  example_identity = example_identity.
Proof.
  split; [reflexivity|].
  exact (run_identity_preimage_injective _ _ example_identity_ok example_identity_ok eq_refl).
Defined.
