(* ===== verification/Estimate.v ===== *)
(** * Calibrated reservations

    crates/zkie-runtime/src/estimate.rs: the identity a memory peak is recorded
    under, and the reservation derived from the static request and the largest
    observed peak. *)
From S2P Require Import Prelude Bytes Identity Resource.

Open Scope Z_scope.

Record ReservationKey := mkReservationKey {
  rk_circuit_digest : Digest32;
  rk_k : Z;
  rk_proof_flavor : ProofFlavorId;
  rk_execution_backend : ExecutionBackendId;
  rk_hardware_profile : Digest32
}.

#[export] Instance ReservationKey_eq_dec : EqDecision ReservationKey.
Proof. solve_decision. Defined.

#[export] Instance ReservationKey_countable : Countable ReservationKey.
Proof.
  apply (inj_countable'
    (λ r, ((rk_circuit_digest r : list Ascii.ascii), rk_k r, (rk_proof_flavor r : string),
           (rk_execution_backend r : string), (rk_hardware_profile r : list Ascii.ascii)))
    (λ '(c, k, f, b, h), mkReservationKey c k f b h)).
  by intros [].
Defined.

Inductive EstimateError := Overflow.

#[export] Instance EstimateError_eq_dec : EqDecision EstimateError.
Proof. solve_decision. Defined.

(** [u128::div_ceil]. *)
Definition div_ceil (a b : Z) : Z := if a mod b =? 0 then a / b else a / b + 1.

#[global] Arguments div_ceil : simpl never.

Definition calibrated_reservation (static_request : ResourceRequest)
    (max_observed_peak_bytes : option Z) : Result ResourceRequest EstimateError :=
  match max_observed_peak_bytes with
  | None => Ok static_request
  | Some peak =>
      let? calibrated_ram := ok_or (try_u64 (div_ceil (peak * 115) 100)) Overflow in
      Ok (mkRequest (rq_cpu_cores static_request)
            (Z.max (rq_ram_bytes static_request) calibrated_ram)
            (rq_gpu_count static_request) (rq_gpu_vram_bytes_per_device static_request))
  end.

Lemma div_ceil_spec a b : 0 < b → b * (div_ceil a b - 1) < a ≤ b * div_ceil a b.
Proof.
  intros Hb. unfold div_ceil. pose proof (Z.div_mod a b ltac:(lia)).
  pose proof (Z.mod_pos_bound a b Hb). destruct (Z.eqb_spec (a mod b) 0); lia.
Qed.

Lemma div_ceil_le a b n : 0 < b → div_ceil a b ≤ n ↔ a ≤ b * n.
Proof. intros Hb. pose proof (div_ceil_spec a b Hb). nia. Qed.

(** The reservation for an observed peak keeps the request valid, changes no
    resource but memory, covers both the static request and 115% of the peak
    with nothing to spare above that, and fails exactly when 115% of the peak
    does not fit a [u64]; the [u128] product itself never overflows. *)
Theorem calibrated_reservation_spec (static : ResourceRequest) (peak : Z)
    (Hs : request_valid static) (Hp : in_u64 peak) :
  in_u128 (peak * 115) ∧
  match calibrated_reservation static (Some peak) with
  | Err Overflow => 100 * u64_max < peak * 115
  | Ok r =>
      request_valid r ∧
      rq_cpu_cores r = rq_cpu_cores static ∧ rq_gpu_count r = rq_gpu_count static ∧
      rq_gpu_vram_bytes_per_device r = rq_gpu_vram_bytes_per_device static ∧
      ∀ ram, rq_ram_bytes r ≤ ram ↔ rq_ram_bytes static ≤ ram ∧ peak * 115 ≤ 100 * ram
  end.
Proof.
  split; [zlia|]. unfold calibrated_reservation, ok_or.
  pose proof (λ n, div_ceil_le (peak * 115) 100 n ltac:(lia)) as Hle.
  assert (0 ≤ div_ceil (peak * 115) 100).
  { pose proof (div_ceil_spec (peak * 115) 100). zlia. }
  destruct (try_u64 _) as [ram|] eqn:E; simpl.
  - apply try_u64_Some in E as [<- Hr]. unfold_resource. simpl.
    split; [unfold_ints; intuition lia|]. split_and!; [done..|].
    intros n. rewrite Z.max_lub_iff, Hle. done.
  - unfold try_u64 in E. case_bool_decide as Hn; [done|].
    destruct (Z.le_gt_cases (peak * 115) (100 * u64_max)) as [Hc|]; [|lia].
    apply Hle in Hc. destruct Hn. split; lia.
Qed.

Lemma calibrated_reservation_spec_witness :
  calibrated_reservation (mkRequest 4 1000 0 0) (Some 1000) = Ok (mkRequest 4 1150 0 0) ∧
  in_u128 (1000 * 115).
Proof.
  split; [reflexivity|].
  refine (proj1 (calibrated_reservation_spec (mkRequest 4 1000 0 0) 1000 _ _)).
  - unfold_resource; simpl; unfold_ints; lia.
  - unfold_ints; lia.
Defined.
