(* ===== verification/Monitor.v ===== *)
(** * Memory admission, termination and process-tree sampling

    crates/zkie-runtime/src/monitor.rs: the limits, the admission policy, the
    choice and controlled termination of the newest attempt, and the portable
    process-tree monitor.  The operating system is behind the two traits of the
    code ([ProcessControl], [ProcessTable]), which are type classes here; the
    cgroup and /proc readers are not modelled. *)
From S2P Require Import Prelude Ordering State.

Open Scope string_scope.
Open Scope Z_scope.
Open Scope list_scope.

Definition HARD_BREACH_SAMPLES : Z := 3.
Definition TERMINATION_GRACE_POLLS : Z := 10.

Inductive MonitorError :=
| NoDelegatedCgroup
| InvalidLimits
| MonitorIo (message : string)
| Sampling (message : string)
| MissingProcess (attempt : AttemptId).

(** ** Limits and the admission policy *)

(** Which mechanism enforces the hard limit. *)
Inductive MemoryEnforcement := CgroupV2 | BestEffort.

Definition enforcement_as_str (self : MemoryEnforcement) : string :=
  match self with CgroupV2 => "cgroup-v2" | BestEffort => "best-effort" end.

Record MemoryLimits := mkLimits {
  admission_bytes : Z;
  hard_limit_bytes : Z
}.

Definition GIB : Z := 1073741824.

Definition limits_new (admission hard : Z) : Result MemoryLimits MonitorError :=
  if (admission =? 0) || (hard <=? admission) then Err InvalidLimits
  else Ok (mkLimits admission hard).

Definition limits_gib (admission_gib hard_limit_gib : Z) : Result MemoryLimits MonitorError :=
  let? admission := ok_or (try_u64 (admission_gib * GIB)) InvalidLimits in
  let? hard := ok_or (try_u64 (hard_limit_gib * GIB)) InvalidLimits in
  limits_new admission hard.

Inductive MemoryAction := Admit | FreezeAdmission | TerminateNewest.

#[export] Instance MemoryAction_eq_dec : EqDecision MemoryAction.
Proof. solve_decision. Defined.

Record AdmissionPolicy := mkPolicy {
  ap_limits : MemoryLimits;
  consecutive_hard_breaches : Z
}.

Definition policy_new (limits : MemoryLimits) : AdmissionPolicy := mkPolicy limits 0.

Definition observe (self : AdmissionPolicy) (resident_bytes : Z) : MemoryAction * AdmissionPolicy :=
  if hard_limit_bytes (ap_limits self) <? resident_bytes then
    let breaches := consecutive_hard_breaches self + 1 in
    if HARD_BREACH_SAMPLES <=? breaches
    then (TerminateNewest, mkPolicy (ap_limits self) 0)
    else (FreezeAdmission, mkPolicy (ap_limits self) breaches)
  else
    let self := mkPolicy (ap_limits self) 0 in
    if admission_bytes (ap_limits self) <? resident_bytes
    then (FreezeAdmission, self) else (Admit, self).

(** The policy after a history of samples. *)
Definition observe_all (limits : MemoryLimits) (samples : list Z) : AdmissionPolicy :=
  fold_left (λ p s, (observe p s).2) samples (policy_new limits).

(** The samples above the hard limit at the end of the history. *)
Fixpoint trailing_breaches (hard : Z) (newest_first : list Z) : Z :=
  match newest_first with
  | s :: rest => if hard <? s then trailing_breaches hard rest + 1 else 0
  | [] => 0
  end.

(** What a history of samples and one more should lead to: every third
    consecutive sample above the hard limit terminates. *)
Definition expected_action (limits : MemoryLimits) (samples : list Z) (s : Z) : MemoryAction :=
  if hard_limit_bytes limits <? s then
    if trailing_breaches (hard_limit_bytes limits) (s :: rev samples) mod 3 =? 0
    then TerminateNewest else FreezeAdmission
  else if admission_bytes limits <? s then FreezeAdmission else Admit.

(** ** Running attempts *)

Record RunningAttempt := mkRunning {
  ra_attempt : AttemptId;
  ra_pid : Z;
  ra_started_at_unix_ms : Z
}.

(** The order of [max_by]: start time, then attempt id. *)
Definition attempt_compare (l r : RunningAttempt) : comparison :=
  then_with (Z.compare (ra_started_at_unix_ms l) (ra_started_at_unix_ms r))
    (String.compare (ra_attempt l) (ra_attempt r)).

Definition newest_attempt (attempts : list RunningAttempt) : option RunningAttempt :=
  max_by attempt_compare attempts.

(** ** Termination *)

Inductive TerminationSignal := Terminate | Kill.
Inductive TerminationOutcome := ExitedAfterTerminate | ForcedKill | DidNotExit.

Record TerminationReport := mkReport {
  tr_attempt : AttemptId;
  tr_pid : Z;
  tr_observed_peak_bytes : Z;
  tr_outcome : TerminationOutcome
}.

(** The trait, with the implementing object's state passed through. *)
Class ProcessControl (S : Type) := {
  signal : S → Z → TerminationSignal → Result unit MonitorError * S;
  is_alive : S → Z → bool * S
}.

Section Termination.
Context {S : Type} `{ProcessControl S}.

Fixpoint poll_exit (control : S) (pid : Z) (polls : nat) : bool * S :=
  match polls with
  | O => (false, control)
  | Datatypes.S polls =>
      let '(alive, control) := is_alive control pid in
      if negb alive then (true, control) else poll_exit control pid polls
  end.

Definition wait_for_exit (control : S) (pid : Z) (polls : nat) : bool * S :=
  let '(alive, control) := is_alive control pid in
  if negb alive then (true, control) else poll_exit control pid polls.

Definition report (target : RunningAttempt) (peak : Z) (outcome : TerminationOutcome) : TerminationReport :=
  mkReport (ra_attempt target) (ra_pid target) peak outcome.

Definition terminate_attempt (control : S) (target : RunningAttempt) (observed_peak_bytes : Z)
    (grace_polls : nat) : Result TerminationReport MonitorError * S :=
  match signal control (ra_pid target) Terminate with
  | (Err e, control) => (Err e, control)
  | (Ok _, control) =>
      let '(exited, control) := wait_for_exit control (ra_pid target) grace_polls in
      if exited then (Ok (report target observed_peak_bytes ExitedAfterTerminate), control)
      else
        match signal control (ra_pid target) Kill with
        | (Err e, control) => (Err e, control)
        | (Ok _, control) =>
            let '(exited, control) := wait_for_exit control (ra_pid target) grace_polls in
            (Ok (report target observed_peak_bytes (if exited then ForcedKill else DidNotExit)), control)
        end
  end.

End Termination.

(** ** Process tables *)

Record ProcessEntry := mkEntry {
  pe_pid : Z;
  pe_parent_pid : Z;
  pe_resident_bytes : Z
}.

(** The [by_parent] map: indices of the children, in table order. *)
Definition by_parent (entries : list ProcessEntry) : gmap Z (list nat) :=
  fold_left (λ m '(i, e), <[pe_parent_pid e := default [] (m !! pe_parent_pid e) ++ [i]]> m)
    (imap (λ i e, (i, e)) entries) ∅.

(** The pids pushed for a pid; [entries[*index]] is in range for every index
    of [by_parent] (shown by [child_pids_filter]). *)
Definition child_pids (entries : list ProcessEntry) (table : gmap Z (list nat)) (pid : Z) : list Z :=
  match table !! pid with
  | Some children => omap (λ i, pe_pid <$> entries !! i) children
  | None => []
  end.

(** The [while let Some(pid) = stack.pop()] loop; the head of the list is the
    top of the stack. *)
Fixpoint sum_tree (entries : list ProcessEntry) (table : gmap Z (list nat)) (fuel : nat)
    (seen : gset Z) (stack : list Z) (total : Z) : list Z * Z :=
  match fuel, stack with
  | S fuel, pid :: stack =>
      if decide (pid ∈ seen) then sum_tree entries table fuel seen stack total
      else
        let total := match list_find (λ e, pe_pid e = pid) entries with
                     | Some (_, e) => saturating_add_u64 total (pe_resident_bytes e)
                     | None => total
                     end in
        sum_tree entries table fuel ({[pid]} ∪ seen)
          (rev (child_pids entries table pid) ++ stack) total
  | _, _ => (stack, total)
  end.

(** Every iteration pops one pid, and an entry is pushed at most once: when
    its parent is first visited. *)
Definition descendant_resident_bytes (entries : list ProcessEntry) (roots : list Z) : Z :=
  if bool_decide (roots = []) then 0
  else (sum_tree entries (by_parent entries) (length roots + length entries) ∅ (rev roots) 0).2.

(** ** The portable monitor *)

Class ProcessTable (T : Type) := {
  snapshot : T → Result (list ProcessEntry) MonitorError * T
}.

Record ProcessTreeMonitor (T : Type) := mkMonitor {
  pm_table : T;
  pm_policy : AdmissionPolicy;
  pm_warning_taken : bool
}.
Arguments mkMonitor {T} _ _ _.
Arguments pm_table {T} _.
Arguments pm_policy {T} _.
Arguments pm_warning_taken {T} _.

Record MemorySample := mkSample { ms_resident_bytes : Z; ms_action : MemoryAction }.

Definition monitor_new {T} (table : T) (limits : MemoryLimits) : ProcessTreeMonitor T :=
  mkMonitor table (policy_new limits) false.

Definition enforcement {T} (self : ProcessTreeMonitor T) : MemoryEnforcement := BestEffort.

(** A JSON string literal. *)
Definition json_string (s : string) : string :=
  let quote := String (Ascii.ascii_of_nat 34) EmptyString in quote +:+ s +:+ quote.

Definition take_startup_warning {T} (self : ProcessTreeMonitor T) : option string * ProcessTreeMonitor T :=
  if pm_warning_taken self then (None, self)
  else
    let limits := ap_limits (pm_policy self) in
    (Some ("{" +:+ json_string "event" +:+ ":" +:+ json_string "memory_enforcement" +:+ ","
           +:+ json_string "mode" +:+ ":" +:+ json_string (enforcement_as_str BestEffort) +:+ ","
           +:+ json_string "admission_bytes" +:+ ":" +:+ pretty (admission_bytes limits) +:+ ","
           +:+ json_string "hard_limit_bytes" +:+ ":" +:+ pretty (hard_limit_bytes limits) +:+ "}"),
     mkMonitor (pm_table self) (pm_policy self) true).

Definition sample {T} `{ProcessTable T} (self : ProcessTreeMonitor T) (running : list RunningAttempt)
    : Result MemorySample MonitorError * ProcessTreeMonitor T :=
  match snapshot (pm_table self) with
  | (Err e, table) => (Err e, mkMonitor table (pm_policy self) (pm_warning_taken self))
  | (Ok entries, table) =>
      let resident := descendant_resident_bytes entries (ra_pid <$> running) in
      let '(action, policy) := observe (pm_policy self) resident in
      (Ok (mkSample resident action), mkMonitor table policy (pm_warning_taken self))
  end.

(** ** The admission policy *)

Lemma trailing_breaches_nonneg hard l : 0 ≤ trailing_breaches hard l.
Proof. induction l as [|s l IH]; simpl; [lia|]. destruct (hard <? s); lia. Qed.

Lemma observe_all_snoc limits samples s :
  observe_all limits (samples ++ [s]) = (observe (observe_all limits samples) s).2.
Proof. unfold observe_all. by rewrite fold_left_app. Qed.

Lemma observe_all_state limits samples :
  observe_all limits samples =
  mkPolicy limits (trailing_breaches (hard_limit_bytes limits) (rev samples) mod 3).
Proof.
  induction samples as [|s samples IH] using rev_ind; [done|].
  rewrite observe_all_snoc, IH, rev_app_distr. unfold observe, HARD_BREACH_SAMPLES. simpl.
  pose proof (trailing_breaches_nonneg (hard_limit_bytes limits) (rev samples)) as Hn.
  set (t := trailing_breaches _ (rev samples)) in *.
  destruct (hard_limit_bytes limits <? s); simpl.
  - pose proof (Z.mod_pos_bound t 3 ltac:(lia)). pose proof (Z.div_mod t 3 ltac:(lia)).
    destruct (Z.leb_spec 3 (t mod 3 + 1)); simpl; f_equal; symmetry.
    + replace (t + 1) with ((t / 3 + 1) * 3) by lia. apply Z_mod_mult.
    + rewrite <-(Z.mod_small (t mod 3 + 1) 3) by lia. by rewrite Zplus_mod_idemp_l.
  - by destruct (admission_bytes limits <? s).
Qed.

(** The admission policy is exact: whatever samples came before, a sample
    is admitted up to the admission budget, freezes admission above it, and
    terminates the newest attempt precisely on every third consecutive sample
    above the hard limit; the breach counter is always 0, 1 or 2, so its u32
    increment cannot overflow. *)
Theorem observe_exact (limits : MemoryLimits) (samples : list Z) (s : Z) :
  (observe (observe_all limits samples) s).1 = expected_action limits samples s ∧
  0 ≤ consecutive_hard_breaches (observe_all limits samples) < HARD_BREACH_SAMPLES.
Proof.
  rewrite observe_all_state. unfold observe, expected_action, HARD_BREACH_SAMPLES. simpl.
  pose proof (trailing_breaches_nonneg (hard_limit_bytes limits) (rev samples)) as Hn.
  set (t := trailing_breaches _ (rev samples)) in *.
  pose proof (Z.mod_pos_bound t 3 ltac:(lia)) as Hb. pose proof (Z.div_mod t 3 ltac:(lia)).
  split; [|lia]. destruct (hard_limit_bytes limits <? s); [|by destruct (admission_bytes limits <? s)].
  rewrite <-Zplus_mod_idemp_l.
  destruct (Z.leb_spec 3 (t mod 3 + 1)); simpl.
  - by replace (t mod 3) with 2 by lia.
  - rewrite Z.mod_small by lia. destruct (Z.eqb_spec (t mod 3 + 1) 0); [lia|done].
Qed.

(** ** The newest attempt *)

#[export] Instance attempt_compare_total : TotalCompare attempt_compare.
Proof. unfold attempt_compare. apply _. Qed.

(** ** Termination against an arbitrary process *)

(** A process whose liveness answers and signal results are given in advance,
    call by call, and which records the signals it is sent. *)
Record Script := mkScript {
  sc_alive : nat → bool;
  sc_polls : nat;
  sc_signal_result : TerminationSignal → Result unit MonitorError;
  sc_signals : list TerminationSignal
}.

#[export] Instance script_control : ProcessControl Script := {
  signal c _ s := (sc_signal_result c s,
    mkScript (sc_alive c) (sc_polls c) (sc_signal_result c) (sc_signals c ++ [s]));
  is_alive c _ := (sc_alive c (sc_polls c),
    mkScript (sc_alive c) (S (sc_polls c)) (sc_signal_result c) (sc_signals c))
}.

Definition script_after (c : Script) (polls : nat) : Script :=
  mkScript (sc_alive c) (sc_polls c + polls) (sc_signal_result c) (sc_signals c).

(** One of the next answers says the process is gone. *)
Fixpoint exits_within (alive : nat → bool) (from polls : nat) : bool :=
  match polls with
  | O => false
  | S polls => negb (alive from) || exits_within alive (S from) polls
  end.

Lemma poll_exit_script c pid polls :
  ∃ k, (k ≤ polls)%nat ∧
    poll_exit c pid polls = (exits_within (sc_alive c) (sc_polls c) polls, script_after c k) ∧
    (exits_within (sc_alive c) (sc_polls c) polls = false → k = polls).
Proof.
  revert c. induction polls as [|polls IH]; intros c; simpl.
  { exists 0%nat. unfold script_after. rewrite Nat.add_0_r. by destruct c. }
  destruct (sc_alive c (sc_polls c)) eqn:E; simpl.
  - destruct (IH (mkScript (sc_alive c) (S (sc_polls c)) (sc_signal_result c) (sc_signals c)))
      as (k & Hk & Hrun & Hall). exists (S k). simpl in *. rewrite Hrun. unfold script_after. simpl.
    split_and!; [lia| |intros H; f_equal; auto]. do 2 f_equal. lia.
  - exists 1%nat. unfold script_after. rewrite Nat.add_1_r. split_and!; [lia|done|done].
Qed.

Lemma wait_for_exit_script c pid polls :
  ∃ k, (k ≤ S polls)%nat ∧
    wait_for_exit c pid polls = (exits_within (sc_alive c) (sc_polls c) (S polls), script_after c k) ∧
    (exits_within (sc_alive c) (sc_polls c) (S polls) = false → k = S polls).
Proof. exact (poll_exit_script c pid (S polls)). Qed.

(** Terminating an attempt follows the documented protocol for every
    process: one SIGTERM; a kill only if none of the [grace_polls + 1] liveness
    checks saw the process gone; a report whose outcome says which of the two
    ended it, or that neither did; an error exactly when a signal fails; and
    never more than [2 * (grace_polls + 1)] checks, so the call always returns. *)
Theorem terminate_attempt_protocol (c : Script) (target : RunningAttempt) (peak : Z) (grace : nat) :
  let '(result, c') := terminate_attempt c target peak grace in
  let gone1 := exits_within (sc_alive c) (sc_polls c) (S grace) in
  let gone2 := exits_within (sc_alive c) (sc_polls c + S grace) (S grace) in
  (sc_polls c' ≤ sc_polls c + 2 * S grace)%nat ∧
  match sc_signal_result c Terminate with
  | Err e => result = Err e ∧ sc_signals c' = sc_signals c ++ [Terminate]
  | Ok _ =>
      if gone1 then
        result = Ok (mkReport (ra_attempt target) (ra_pid target) peak ExitedAfterTerminate) ∧
        sc_signals c' = sc_signals c ++ [Terminate]
      else
        sc_signals c' = sc_signals c ++ [Terminate; Kill] ∧
        match sc_signal_result c Kill with
        | Err e => result = Err e
        | Ok _ => result = Ok (mkReport (ra_attempt target) (ra_pid target) peak
                    (if gone2 then ForcedKill else DidNotExit))
        end
  end.
Proof.
  unfold terminate_attempt. simpl signal. destruct (sc_signal_result c Terminate) as [[]|e] eqn:ET;
    [|simpl; split; [lia|done]].
  set (c1 := mkScript _ _ _ (_ ++ [Terminate])).
  destruct (wait_for_exit_script c1 (ra_pid target) grace) as (k & Hk & -> & Hall).
  change (exits_within (sc_alive c1) (sc_polls c1) (S grace))
    with (exits_within (sc_alive c) (sc_polls c) (S grace)) in *.
  destruct (exits_within (sc_alive c) (sc_polls c) (S grace)) eqn:E1.
  { unfold script_after, report. simpl sc_polls. split; [lia|done]. }
  rewrite (Hall eq_refl). simpl signal. simpl sc_signal_result.
  destruct (sc_signal_result c Kill) as [[]|e] eqn:EK.
  - set (c2 := mkScript _ _ _ (_ ++ [Kill])).
    destruct (wait_for_exit_script c2 (ra_pid target) grace) as (k2 & Hk2 & -> & _).
    simpl sc_polls. simpl sc_signals. rewrite <-app_assoc. split_and!; [lia|done|done].
  - simpl. rewrite <-app_assoc. split_and!; [lia|done|done].
Qed.

(** ** The process tree *)

(** [c] is listed as a child of [p]. *)
Definition child_of (entries : list ProcessEntry) (p c : Z) : Prop :=
  ∃ e, e ∈ entries ∧ pe_parent_pid e = p ∧ pe_pid e = c.

Definition in_tree (entries : list ProcessEntry) (roots : list Z) (pid : Z) : Prop :=
  ∃ root, root ∈ roots ∧ rtc (child_of entries) root pid.

(** The resident bytes the table gives for a pid: its first row, or nothing. *)
Definition resident_of (entries : list ProcessEntry) (pid : Z) : Z :=
  match list_find (λ e, pe_pid e = pid) entries with
  | Some (_, e) => pe_resident_bytes e
  | None => 0
  end.

Definition tree_sum (entries : list ProcessEntry) (pids : list Z) : Z :=
  foldr (λ p acc, resident_of entries p + acc) 0 pids.

Lemma fold_by_parent (entries : list ProcessEntry) k (m : gmap Z (list nat)) p :
  default [] (fold_left
    (λ m '(i, e), <[pe_parent_pid e := default [] (m !! pe_parent_pid e) ++ [i]]> m)
    (imap (λ i e, ((k + i)%nat, e)) entries) m !! p) =
  default [] (m !! p) ++ (fst <$> filter (λ ie, pe_parent_pid (snd ie) = p)
    (imap (λ i e, ((k + i)%nat, e)) entries)).
Proof.
  revert k m. induction entries as [|e entries IH]; intros k m; simpl; [by rewrite app_nil_r|].
  assert (E : imap ((λ i e0, ((k + i)%nat, e0)) ∘ S) entries = imap (λ i e0, ((S k + i)%nat, e0)) entries).
  { apply imap_ext. intros i x _. simpl. f_equal. lia. }
  rewrite E, (IH (S k)), filter_cons. simpl. rewrite Nat.add_0_r.
  rewrite lookup_insert. case_decide as H.
  - subst. simpl. by rewrite <-app_assoc.
  - done.
Qed.

Lemma omap_indices (entries pre : list ProcessEntry) (P : ProcessEntry → Prop) `{∀ e, Decision (P e)} :
  omap (λ i, pe_pid <$> (pre ++ entries) !! i)
    (fst <$> filter (λ ie, P (snd ie)) (imap (λ i e, ((length pre + i)%nat, e)) entries)) =
  pe_pid <$> filter P entries.
Proof.
  revert pre. induction entries as [|e entries IH]; intros pre; simpl; [done|].
  assert (E : imap ((λ i e0, ((length pre + i)%nat, e0)) ∘ S) entries =
              imap (λ i e0, ((length (pre ++ [e]) + i)%nat, e0)) entries).
  { apply imap_ext. intros i x _. simpl. rewrite length_app. simpl. f_equal. lia. }
  rewrite E, !filter_cons. simpl. specialize (IH (pre ++ [e])). rewrite <-app_assoc in IH. simpl in IH.
  case_decide; simpl; [|by apply IH].
  rewrite Nat.add_0_r, (lookup_app_r pre) by lia. rewrite Nat.sub_diag. simpl. f_equal. exact IH.
Qed.

(** The loop pushes the pids of the rows whose parent is the visited pid. *)
Lemma child_pids_filter entries pid :
  child_pids entries (by_parent entries) pid =
  pe_pid <$> filter (λ e, pe_parent_pid e = pid) entries.
Proof.
  rewrite <-(omap_indices entries [] (λ e, pe_parent_pid e = pid)). simpl.
  pose proof (fold_by_parent entries 0 ∅ pid) as H. rewrite lookup_empty in H. simpl in H.
  fold (by_parent entries) in H. unfold child_pids.
  destruct (by_parent entries !! pid); simpl in H; by rewrite <-H.
Qed.

Lemma elem_of_child_pids entries p c :
  c ∈ child_pids entries (by_parent entries) p ↔ child_of entries p c.
Proof.
  rewrite child_pids_filter, list_elem_of_fmap. unfold child_of.
  setoid_rewrite list_elem_of_filter. naive_solver.
Qed.

Lemma elem_of_rev {A} (x : A) l : x ∈ rev l ↔ x ∈ l.
Proof. by rewrite !list_elem_of_In, <-in_rev. Qed.

(** The loop, from a set of visited pids and a stack. *)
Record summing (entries : list ProcessEntry) (roots : list Z) (seen : gset Z) (stack : list Z)
    (visited : list Z) (total : Z) : Prop := {
  sm_nodup : NoDup visited;
  sm_seen : ∀ p, p ∈ seen ↔ p ∈ visited;
  sm_tree : ∀ p, p ∈ visited ∨ p ∈ stack → in_tree entries roots p;
  sm_roots : ∀ p, p ∈ roots → p ∈ visited ∨ p ∈ stack;
  sm_closed : ∀ p c, p ∈ visited → child_of entries p c → c ∈ visited ∨ c ∈ stack;
  sm_total : total = Z.min u64_max (tree_sum entries visited)
}.

Lemma resident_of_nonneg entries p :
  Forall (λ e, 0 ≤ pe_resident_bytes e) entries → 0 ≤ resident_of entries p.
Proof.
  intros H. unfold resident_of. destruct (list_find _ _) as [[i e]|] eqn:E; [|lia].
  apply list_find_Some in E as (Hi & _). by eapply (Forall_lookup_1 _ _ _ _ H).
Qed.

Lemma tree_sum_nonneg entries l : Forall (λ e, 0 ≤ pe_resident_bytes e) entries → 0 ≤ tree_sum entries l.
Proof.
  intros H. induction l as [|p l IH]; simpl; [lia|]. pose proof (resident_of_nonneg entries p H). lia.
Qed.

Lemma visit_total entries p total visited :
  Forall (λ e, 0 ≤ pe_resident_bytes e) entries →
  total = Z.min u64_max (tree_sum entries visited) →
  match list_find (λ e, pe_pid e = p) entries with
  | Some (_, e) => saturating_add_u64 total (pe_resident_bytes e)
  | None => total
  end = Z.min u64_max (tree_sum entries (p :: visited)).
Proof.
  intros Hpos ->. pose proof (tree_sum_nonneg entries visited Hpos). simpl.
  pose proof (resident_of_nonneg entries p Hpos) as Hp. unfold resident_of in *.
  destruct (list_find _ _) as [[i e]|]; [|f_equal; lia]. unfold saturating_add_u64. zlia.
Qed.

(** Rows whose parent has not been visited: the pushes still to come. *)
Definition pending_rows (entries : list ProcessEntry) (seen : gset Z) : nat :=
  length (filter (λ e, pe_parent_pid e ∉ seen) entries).

Lemma pending_rows_visit entries seen p :
  p ∉ seen → (pending_rows entries seen =
    pending_rows entries ({[p]} ∪ seen) + length (child_pids entries (by_parent entries) p))%nat.
Proof.
  intros Hp. rewrite child_pids_filter, length_fmap. unfold pending_rows.
  induction entries as [|e entries IH]; [done|]. rewrite !filter_cons.
  destruct (decide (pe_parent_pid e = p)) as [->|Hne].
  - rewrite decide_True by done. rewrite decide_False by set_solver. simpl. lia.
  - destruct (decide (pe_parent_pid e ∈ seen)).
    + rewrite decide_False by set_solver. rewrite decide_False by set_solver. done.
    + rewrite decide_True by set_solver. rewrite decide_True by set_solver. simpl. lia.
Qed.

Lemma sum_tree_total entries roots fuel seen stack visited total :
  Forall (λ e, 0 ≤ pe_resident_bytes e) entries →
  summing entries roots seen stack visited total →
  (length stack + pending_rows entries seen ≤ fuel)%nat →
  ∃ visited' seen' total', sum_tree entries (by_parent entries) fuel seen stack total = ([], total') ∧
    summing entries roots seen' [] visited' total'.
Proof.
  intros Hpos. revert seen stack visited total.
  induction fuel as [|fuel IH]; intros seen stack visited total Hs Hf.
  { destruct stack; [|simpl in Hf; lia]. simpl. eauto 6. }
  destruct stack as [|p stack]; simpl; [eauto 6|]. simpl in Hf. case_decide as Hp.
  - eapply IH; [|lia]. destruct Hs as [S1 S2 S3 S4 S5 S6]. split; try done.
    + intros q Hq. apply S3. rewrite elem_of_cons. tauto.
    + intros q Hq. apply S2 in Hp. destruct (S4 q Hq) as [|[->|]%elem_of_cons]; auto.
    + intros q c Hq Hc. apply S2 in Hp. destruct (S5 q c Hq Hc) as [|[->|]%elem_of_cons]; auto.
  - eapply (IH _ _ (p :: visited)).
    + destruct Hs as [S1 S2 S3 S4 S5 S6]. split.
      * apply NoDup_cons. split; [by rewrite <-S2|done].
      * intros q. rewrite elem_of_union, elem_of_singleton, elem_of_cons, S2. done.
      * intros q. rewrite elem_of_cons, elem_of_app, elem_of_rev, elem_of_child_pids.
        intros [[->|Hq]|[Hq|Hq]]; try (apply S3; rewrite elem_of_cons; tauto).
        destruct (S3 p) as (root & Hr & Hpath); [right; by left|].
        exists root. split; [done|]. by eapply rtc_r.
      * intros q Hq. rewrite elem_of_cons, elem_of_app.
        destruct (S4 q Hq) as [|[->|]%elem_of_cons]; auto.
      * intros q c. rewrite !elem_of_cons, elem_of_app, elem_of_rev, elem_of_child_pids.
        intros [->|Hq] Hc; [auto|]. destruct (S5 q c Hq Hc) as [|[->|]%elem_of_cons]; auto.
      * by apply visit_total.
    + rewrite (pending_rows_visit entries seen p Hp) in Hf. rewrite length_app, length_rev. lia.
Qed.

Lemma tree_closed entries roots visited seen total p :
  summing entries roots seen [] visited total → in_tree entries roots p → p ∈ visited.
Proof.
  intros Hs (root & Hr & Hpath).
  assert (root ∈ visited) as Hv.
  { destruct (sm_roots _ _ _ _ _ _ Hs root Hr) as [|[]%not_elem_of_nil]. done. }
  clear Hr. induction Hpath as [|x y z Hxy _ IH]; [done|]. apply IH.
  by destruct (sm_closed _ _ _ _ _ _ Hs x y Hv Hxy) as [|[]%not_elem_of_nil].
Qed.

(** The sampled memory of a set of workers is exact: the walk over the
    process table finishes, visits the roots and every transitive descendant,
    even in a table with cycles or repeated pids, and returns the sum of their
    resident bytes with each pid counted once, saturating at the u64 maximum. *)
Theorem descendant_resident_bytes_exact (entries : list ProcessEntry) (roots : list Z)
    (Hpos : Forall (λ e, 0 ≤ pe_resident_bytes e) entries) :
  ∃ visited, NoDup visited ∧ (∀ p, p ∈ visited ↔ in_tree entries roots p) ∧
    descendant_resident_bytes entries roots = Z.min u64_max (tree_sum entries visited).
Proof.
  unfold descendant_resident_bytes. case_bool_decide as Hroots.
  { exists []. subst. split_and!; [constructor| |done]. intros p.
    split; [intros []%not_elem_of_nil|intros (? & []%not_elem_of_nil & _)]. }
  destruct (sum_tree_total entries roots (length roots + length entries) ∅ (rev roots) [] 0)
    as (visited & seen & total & -> & Hs); [done| | |].
  - split; [constructor|set_solver| | |by intros p c []%not_elem_of_nil|done].
    + intros p [[]%not_elem_of_nil|Hp]. rewrite elem_of_rev in Hp. exists p. split; [done|apply rtc_refl].
    + intros p Hp. right. by apply elem_of_rev.
  - rewrite length_rev. apply Nat.add_le_mono_l, length_filter.
  - exists visited. split_and!; [apply Hs| |apply Hs]. intros p. split.
    + intros Hp. apply (sm_tree _ _ _ _ _ _ Hs). by left.
    + by apply tree_closed with seen total.
Qed.

Lemma descendant_resident_bytes_exact_witness :
  descendant_resident_bytes [mkEntry 1 0 5; mkEntry 2 1 7; mkEntry 1 2 9; mkEntry 3 8 1] [1] = 12 ∧
  ∃ visited, NoDup visited ∧
    (∀ p, p ∈ visited ↔ in_tree [mkEntry 1 0 5; mkEntry 2 1 7; mkEntry 1 2 9; mkEntry 3 8 1] [1] p) ∧
    descendant_resident_bytes [mkEntry 1 0 5; mkEntry 2 1 7; mkEntry 1 2 9; mkEntry 3 8 1] [1] =
      Z.min u64_max (tree_sum [mkEntry 1 0 5; mkEntry 2 1 7; mkEntry 1 2 9; mkEntry 3 8 1] visited).
Proof.
  split; [by vm_compute|]. apply descendant_resident_bytes_exact. repeat constructor; simpl; lia.
Defined.
