(* ===== verification/RunDb.v ===== *)
(** * The run database: tables, statements and transactions

    crates/zkie-runtime/src/db.rs, db/core.rs, db/engine.rs, db/artifacts.rs.
    One [RunDb] value holds the rows of the run the handle is bound to; every
    statement of the code filters by that run id, and rows of other runs are
    never read or written.  SQLite itself is third-party: each statement is the
    list or map operation it documents, with the PRIMARY KEY, UNIQUE, CHECK and
    FOREIGN KEY constraints of the schema as explicit guards that fail with
    [Sql].  Text columns hold the typed value: the codecs of State.v lose nothing.

    A method runs in one immediate transaction, so a failed method leaves the
    database as it was: a method is a function [RunDb → Result (A * RunDb) DbError]. *)
From S2P Require Import Prelude Bytes State Identity Resource Estimate.

Open Scope string_scope.
Open Scope Z_scope.
Open Scope list_scope.

(** ** Errors *)

Inductive DbError :=
| Sql (constraint : string)
| DbState (error : StateError)
| DbTransition (error : TransitionError)
| JobNotFound (job : JobId)
| AttemptNotFound (attempt : AttemptId)
| NotAttemptStart
| AttemptStartRequiresBegin
| AttemptEventRequiresAttempt
| ControlledEventRequired
| AttemptNotOpenForJob (attempt : AttemptId) (job : JobId)
| OpenAttemptConflict (job : JobId)
| AttemptCountExhausted (job : JobId)
| InvalidVerificationSource (attempt : AttemptId) (job : JobId)
| WrongStartForJobKind (kind : JobKind) (event : string)
| InvalidSystemTime
| ArtifactPublicationRequired
| StoreFailed (error : string)
| VerifiedArtifactRunMismatch
| VerifiedIdentityJobKindMismatch
| ResourcePeakOutOfRange
| InvalidFailureObservation
| DbUnknownEnum (column : string) (value : Z).

(** ** Rows *)

(** A row of [jobs]; the key is the map's. *)
Record JobRow := mkJobRow {
  jr_logical_job_id : string;
  jr_kind : JobKind;
  jr_state : JobState;
  jr_failure_kind : option FailureKind;
  jr_failure_stage : option FailureStage;
  jr_failure_code : option FailureCode;
  jr_failure_summary : option string;
  jr_attempt_count : Z;
  jr_execution_retries : Z;
  jr_resource_requeues : Z;
  jr_terminal_failure : bool;
  jr_blocking_predecessor_id : option JobId
}.

(** A row of [attempts], in [rowid] order in the table. *)
Record AttemptRow := mkAttemptRow {
  at_id : AttemptId;
  at_job : JobId;
  at_state : JobState;
  at_started_at_unix_ms : Z;
  at_finished_at_unix_ms : option Z
}.

Record StateEventRow := mkStateEventRow {
  se_job : JobId;
  se_attempt : option AttemptId;
  se_from_state : JobState;
  se_to_state : JobState;
  se_event_type : string;
  se_failure : option FailureRecord;
  se_blocking_predecessor_id : option JobId;
  se_verification_record_id : option VerificationRecordId;
  se_created_at_unix_ms : Z
}.

Record VerificationRow := mkVerificationRow {
  vr_id : VerificationRecordId;
  vr_job : JobId;
  vr_attempt : AttemptId;
  vr_verifier : string;
  vr_created_at_unix_ms : Z
}.

(** A row of [artifacts] or [key_artifacts]: the columns its constraints and
    the recovery queries use. *)
Record ArtifactRow := mkArtifactRow {
  ar_artifact_id : string;
  ar_job : JobId;
  ar_logical_job_id : string;
  ar_attempt : AttemptId;
  ar_object_digest : Digest32;
  ar_content_digest : Digest32;
  ar_identity_digest : Digest32;
  ar_attestation_digest : Digest32;
  ar_job_kind : JobKind;
  ar_created_at_unix_ms : Z
}.

Record RunDb := mkRunDb {
  db_run_id : string;
  db_jobs : gmap string JobRow;
  db_dependencies : list (JobId * JobId);
  db_attempts : list AttemptRow;
  db_events : list StateEventRow;
  db_verifications : list VerificationRow;
  db_artifacts : list ArtifactRow;
  db_key_artifacts : list ArtifactRow;
  db_resource_history : gmap ReservationKey Z;
  db_clock_reads : nat
}.

Definition empty_db (run_id : string) : RunDb :=
  mkRunDb run_id ∅ [] [] [] [] [] [] ∅ 0.

Definition set_jobs (f : gmap string JobRow → gmap string JobRow) (db : RunDb) : RunDb :=
  mkRunDb (db_run_id db) (f (db_jobs db)) (db_dependencies db) (db_attempts db) (db_events db)
    (db_verifications db) (db_artifacts db) (db_key_artifacts db) (db_resource_history db)
    (db_clock_reads db).
Definition set_dependencies (f : list (JobId * JobId) → list (JobId * JobId)) (db : RunDb) : RunDb :=
  mkRunDb (db_run_id db) (db_jobs db) (f (db_dependencies db)) (db_attempts db) (db_events db)
    (db_verifications db) (db_artifacts db) (db_key_artifacts db) (db_resource_history db)
    (db_clock_reads db).
Definition set_attempts (f : list AttemptRow → list AttemptRow) (db : RunDb) : RunDb :=
  mkRunDb (db_run_id db) (db_jobs db) (db_dependencies db) (f (db_attempts db)) (db_events db)
    (db_verifications db) (db_artifacts db) (db_key_artifacts db) (db_resource_history db)
    (db_clock_reads db).
Definition set_events (f : list StateEventRow → list StateEventRow) (db : RunDb) : RunDb :=
  mkRunDb (db_run_id db) (db_jobs db) (db_dependencies db) (db_attempts db) (f (db_events db))
    (db_verifications db) (db_artifacts db) (db_key_artifacts db) (db_resource_history db)
    (db_clock_reads db).
Definition set_verifications (f : list VerificationRow → list VerificationRow) (db : RunDb) : RunDb :=
  mkRunDb (db_run_id db) (db_jobs db) (db_dependencies db) (db_attempts db) (db_events db)
    (f (db_verifications db)) (db_artifacts db) (db_key_artifacts db) (db_resource_history db)
    (db_clock_reads db).
Definition set_artifacts (f : list ArtifactRow → list ArtifactRow) (db : RunDb) : RunDb :=
  mkRunDb (db_run_id db) (db_jobs db) (db_dependencies db) (db_attempts db) (db_events db)
    (db_verifications db) (f (db_artifacts db)) (db_key_artifacts db) (db_resource_history db)
    (db_clock_reads db).
Definition set_key_artifacts (f : list ArtifactRow → list ArtifactRow) (db : RunDb) : RunDb :=
  mkRunDb (db_run_id db) (db_jobs db) (db_dependencies db) (db_attempts db) (db_events db)
    (db_verifications db) (db_artifacts db) (f (db_key_artifacts db)) (db_resource_history db)
    (db_clock_reads db).
Definition set_resource_history (f : gmap ReservationKey Z → gmap ReservationKey Z) (db : RunDb) : RunDb :=
  mkRunDb (db_run_id db) (db_jobs db) (db_dependencies db) (db_attempts db) (db_events db)
    (db_verifications db) (db_artifacts db) (db_key_artifacts db) (f (db_resource_history db))
    (db_clock_reads db).
Definition bump_clock (db : RunDb) : RunDb :=
  mkRunDb (db_run_id db) (db_jobs db) (db_dependencies db) (db_attempts db) (db_events db)
    (db_verifications db) (db_artifacts db) (db_key_artifacts db) (db_resource_history db)
    (S (db_clock_reads db)).

(** ** The transaction monad *)

Definition Tx (A : Type) : Type := RunDb → Result (A * RunDb) DbError.

Definition tx_ret {A} (a : A) : Tx A := λ db, Ok (a, db).
Definition tx_err {A} (e : DbError) : Tx A := λ _, Err e.
Definition tx_bind {A B} (m : Tx A) (k : A → Tx B) : Tx B :=
  λ db, match m db with Ok (a, db') => k a db' | Err e => Err e end.
Definition tx_get {A} (f : RunDb → A) : Tx A := λ db, Ok (f db, db).
Definition tx_update (f : RunDb → RunDb) : Tx unit := λ db, Ok (tt, f db).
Definition tx_lift {A E} (f : E → DbError) (r : Result A E) : Tx A :=
  λ db, match r with Ok a => Ok (a, db) | Err e => Err (f e) end.
(** A schema constraint: the statement fails unless [b] holds of the tables. *)
Definition tx_constraint (name : string) (b : RunDb → bool) : Tx unit :=
  λ db, if b db then Ok (tt, db) else Err (Sql name).

Notation "'let!' x := m 'in' k" := (tx_bind m (λ x, k))
  (at level 10, x name, m at level 100, k at level 200) : zkie_scope.
Notation "'let!' ' p := m 'in' k" := (tx_bind m (λ p, k))
  (at level 10, p strict pattern, m at level 100, k at level 200) : zkie_scope.

Fixpoint tx_fold {A S} (f : S → A → Tx S) (s : S) (l : list A) : Tx S :=
  match l with
  | [] => tx_ret s
  | x :: l => let! s' := f s x in tx_fold f s' l
  end.

(** ** Row updates *)

Definition row_update (r : JobRow) (state : JobState)
    (fk : option FailureKind) (fs : option FailureStage) (fc : option FailureCode)
    (fsum : option string) (blocker : option JobId) (attempt_count : option Z) : JobRow :=
  mkJobRow (jr_logical_job_id r) (jr_kind r) state fk fs fc fsum
    (default (jr_attempt_count r) attempt_count)
    (jr_execution_retries r) (jr_resource_requeues r) (jr_terminal_failure r) blocker.

Definition row_set_terminal (r : JobRow) : JobRow :=
  mkJobRow (jr_logical_job_id r) (jr_kind r) (jr_state r) (jr_failure_kind r) (jr_failure_stage r)
    (jr_failure_code r) (jr_failure_summary r) (jr_attempt_count r) (jr_execution_retries r)
    (jr_resource_requeues r) true (jr_blocking_predecessor_id r).

Definition row_bump_retries (r : JobRow) : JobRow :=
  mkJobRow (jr_logical_job_id r) (jr_kind r) (jr_state r) (jr_failure_kind r) (jr_failure_stage r)
    (jr_failure_code r) (jr_failure_summary r) (jr_attempt_count r) (jr_execution_retries r + 1)
    (jr_resource_requeues r) (jr_terminal_failure r) (jr_blocking_predecessor_id r).

Definition row_bump_requeues (r : JobRow) : JobRow :=
  mkJobRow (jr_logical_job_id r) (jr_kind r) (jr_state r) (jr_failure_kind r) (jr_failure_stage r)
    (jr_failure_code r) (jr_failure_summary r) (jr_attempt_count r) (jr_execution_retries r)
    (jr_resource_requeues r + 1) (jr_terminal_failure r) (jr_blocking_predecessor_id r).

Definition attempt_close (state : JobState) (now : Z) (a : AttemptRow) : AttemptRow :=
  mkAttemptRow (at_id a) (at_job a) state (at_started_at_unix_ms a) (Some now).

Definition attempt_set_state (state : JobState) (a : AttemptRow) : AttemptRow :=
  mkAttemptRow (at_id a) (at_job a) state (at_started_at_unix_ms a) (at_finished_at_unix_ms a).

(** [attempt_id = ?1 AND finished_at_unix_ms IS NULL] and the like. *)
Definition is_open (a : AttemptRow) : bool := bool_decide (at_finished_at_unix_ms a = None).
Definition open_for (job : JobId) (a : AttemptRow) : bool :=
  is_open a && String.eqb (at_job a) job.

(** [UPDATE ... WHERE]: rows that match are rewritten in place. *)
Definition update_where {A} (p : A → bool) (f : A → A) (l : list A) : list A :=
  (λ a, if p a then f a else a) <$> l.

(** [ORDER BY] on a text column: bytewise, as SQLite's BINARY collation. *)
Definition string_le (a b : string) : Prop := String.leb a b = true.
#[export] Instance string_le_dec a b : Decision (string_le a b).
Proof. unfold string_le. apply _. Defined.
Definition sort_ids (l : list string) : list string := merge_sort string_le l.

Section RunDb.

(** The system clock: what the n-th reading returns, in milliseconds since the
    epoch, or [None] when the clock precedes the epoch or does not fit [i64]. *)
Context (clock : nat → option Z).

Definition unix_ms : Tx Z := λ db,
  match clock (db_clock_reads db) with
  | Some now => Ok (now, bump_clock db)
  | None => Err InvalidSystemTime
  end.

Definition tx_identifier (raw : string) : Tx string := tx_lift DbState (identifier_new raw).

Definition validate_text_id (value : string) : Tx unit :=
  let! _ := tx_identifier value in tx_ret tt.

(** ** Job table statements *)

Definition insert_job (logical_job_id : string) (kind : JobKind) : Tx JobId :=
  let! _ := validate_text_id logical_job_id in
  let! run_id := tx_get db_run_id in
  let! id := tx_identifier (run_id +:+ ":" +:+ logical_job_id) in
  let! now := unix_ms in
  let! _ := tx_constraint "jobs.job_id" (λ db, bool_decide (db_jobs db !! id = None)) in
  let! _ := tx_constraint "jobs.logical_job_id"
    (λ db, bool_decide (map_Forall (λ _ r, jr_logical_job_id r ≠ logical_job_id) (db_jobs db))) in
  let! _ := tx_update (set_jobs (insert id
    (mkJobRow logical_job_id kind Pending None None None None 0 0 0 false None))) in
  tx_ret id.

Definition require_job_in_run (job : JobId) : Tx unit :=
  let! row := tx_get (λ db, db_jobs db !! job) in
  match row with Some _ => tx_ret tt | None => tx_err (JobNotFound job) end.

Definition add_dependency (predecessor successor : JobId) : Tx unit :=
  let! _ := require_job_in_run predecessor in
  let! _ := require_job_in_run successor in
  let! _ := tx_constraint "dependencies.check" (λ _, negb (String.eqb predecessor successor)) in
  let! _ := tx_constraint "dependencies.primary_key"
    (λ db, bool_decide ((predecessor, successor) ∉ db_dependencies db)) in
  tx_update (set_dependencies (λ l, l ++ [(predecessor, successor)])).

Definition job (id : JobId) : Tx JobRow :=
  let! row := tx_get (λ db, db_jobs db !! id) in
  match row with Some r => tx_ret r | None => tx_err (JobNotFound id) end.

Definition attempt (id : AttemptId) : Tx AttemptRow :=
  let! row := tx_get (λ db, list_find (λ a, at_id a = id) (db_attempts db)) in
  match row with Some (_, r) => tx_ret r | None => tx_err (AttemptNotFound id) end.

Definition current_state (id : JobId) : Tx JobState :=
  let! r := job id in tx_ret (jr_state r).

(** Every job of the run, ordered by logical id. *)
Definition jobs (db : RunDb) : list (JobId * JobRow) :=
  merge_sort (λ a b, string_le (jr_logical_job_id (snd a)) (jr_logical_job_id (snd b)))
    (map_to_list (db_jobs db)).

(** ** Attempt statements *)

Definition open_attempt_ids (job : JobId) (db : RunDb) : list AttemptId :=
  sort_ids (at_id <$> filter (λ a, open_for job a = true) (db_attempts db)).

Definition require_unique_open_attempt (job : JobId) (attempt : AttemptId) : Tx unit :=
  let! open := tx_get (open_attempt_ids job) in
  match open with
  | [a] => if String.eqb a attempt then tx_ret tt else tx_err (AttemptNotOpenForJob attempt job)
  | _ => tx_err (AttemptNotOpenForJob attempt job)
  end.

Definition latest_attempt (job : JobId) (db : RunDb) : option AttemptRow :=
  last (filter (λ a, at_job a = job) (db_attempts db)).

(** The states whose attempt may be the source of a verification decision. *)
Definition verifies_open_attempt (kind : JobKind) (state : JobState) : bool :=
  match kind, state with
  | (LeafVerification | NativeAggregate), Verifying => true
  | _, _ => false
  end.

Definition verifies_latest_attempt (kind : JobKind) (state : JobState) : bool :=
  match kind, state with
  | Witness, WitnessReady | Prepare, Prepared | LeafProof, Proved => true
  | _, _ => false
  end.

Definition require_verification_source (id : JobId) (attempt : AttemptId) : Tx unit :=
  let! r := job id in
  if verifies_open_attempt (jr_kind r) (jr_state r) then require_unique_open_attempt id attempt
  else if verifies_latest_attempt (jr_kind r) (jr_state r) then
    let! latest := tx_get (latest_attempt id) in
    match latest with
    | Some a =>
        if negb (is_open a) && String.eqb (at_id a) attempt && bool_decide (at_state a = jr_state r)
        then tx_ret tt else tx_err (InvalidVerificationSource attempt id)
    | None => tx_err (InvalidVerificationSource attempt id)
    end
  else tx_err (InvalidVerificationSource attempt id).

(** ** Applying an event *)

(** The foreign keys of [state_events]; a NULL column is not checked. *)
Definition state_event_references (job : JobId) (attempt : option AttemptId) (event : JobEvent)
    (db : RunDb) : bool :=
  bool_decide (is_Some (db_jobs db !! job)) &&
  match attempt with
  | Some a => bool_decide (Exists (λ r, at_id r = a ∧ at_job r = job) (db_attempts db))
  | None => true
  end &&
  match event_blocking_predecessor event with
  | Some p => bool_decide (is_Some (db_jobs db !! p))
  | None => true
  end &&
  match event_verification_record event with
  | Some v => bool_decide (Exists (λ r, vr_id r = v ∧ vr_job r = job) (db_verifications db))
  | None => true
  end.

(** The job row after the [UPDATE jobs] of [apply_event_tx]. *)
Definition job_after_event (r : JobRow) (next : JobState) (event : JobEvent)
    (attempt_count : option Z) : JobRow :=
  match event_failure event, event_blocking_predecessor event with
  | Some f, blocker =>
      row_update r next (Some (fr_kind f)) (Some (fr_stage f)) (Some (fr_code f))
        (Some (fr_summary f)) blocker attempt_count
  | None, Some blocker =>
      row_update r next (Some FkDependency) (Some FsScheduler) (Some PredecessorFailed)
        (Some (failure_kind_summary FkDependency)) (Some blocker) attempt_count
  | None, None =>
      if bool_decide (event = DependenciesSatisfied)
      then row_update r next None None None None None attempt_count
      else row_update r next (jr_failure_kind r) (jr_failure_stage r) (jr_failure_code r)
             (jr_failure_summary r) (jr_blocking_predecessor_id r) attempt_count
  end.

(** The attempt table after the [UPDATE attempts] of [apply_event_tx]. *)
Definition attempts_after_event (job : JobId) (attempt : option AttemptId) (next : JobState)
    (now : Z) (attempts : list AttemptRow) : list AttemptRow :=
  if negb (is_active next) then update_where (open_for job) (attempt_close next now) attempts
  else match attempt with
       | Some a => update_where (λ r, String.eqb (at_id r) a) (attempt_set_state next) attempts
       | None => attempts
       end.

Definition apply_event_tx (id : JobId) (attempt : option AttemptId) (event : JobEvent)
    (attempt_count : option Z) : Tx JobState :=
  let! current := current_state id in
  let! next := tx_lift DbTransition (transition current event) in
  let! now := unix_ms in
  let! _ := tx_constraint "state_events.foreign_key" (state_event_references id attempt event) in
  let! _ := tx_update (set_events (λ l, l ++
    [mkStateEventRow id attempt current next (event_name event) (event_failure event)
       (event_blocking_predecessor event) (event_verification_record event) now])) in
  let! _ := tx_update (set_jobs (alter (λ r, job_after_event r next event attempt_count) id)) in
  let! _ := tx_update (set_attempts (attempts_after_event id attempt next now)) in
  tx_ret next.

Definition set_terminal_failure (id : JobId) : Tx unit :=
  tx_update (set_jobs (alter row_set_terminal id)).

(** ** Predecessors *)

(** [NOT EXISTS (... p.state <> 'verified')]. *)
Definition required_predecessors_verified (id : JobId) : Tx bool :=
  let! _ := job id in
  tx_get (λ db, forallb (λ '(p, s), negb (String.eqb s id) ||
    match db_jobs db !! p with Some r => bool_decide (jr_state r = Verified) | None => true end)
    (db_dependencies db)).

Definition predecessor_ids (successor : JobId) (db : RunDb) : list JobId :=
  sort_ids (fst <$> filter (λ d, d.2 = successor) (db_dependencies db)).

Definition predecessor_states (successor : JobId) : Tx (list (JobId * JobState * bool)) :=
  tx_get (λ db, omap (λ p, r ← db_jobs db !! p; Some (p, jr_state r, jr_terminal_failure r))
    (predecessor_ids successor db)).

Definition successor_ids (predecessor : JobId) (db : RunDb) : list JobId :=
  sort_ids (snd <$> filter (λ d, d.1 = predecessor) (db_dependencies db)).

(** ** Resource history *)

Definition exact_peak_to_sql (peak_bytes : Z) : Result Z DbError :=
  ok_or (try_i64 peak_bytes) ResourcePeakOutOfRange.
Definition exact_peak_from_sql (peak_bytes : Z) : Result Z DbError :=
  ok_or (try_u64 peak_bytes) ResourcePeakOutOfRange.

Definition record_resource_peak_tx (key : ReservationKey) (peak_bytes : Z) : Tx unit :=
  let! peak := tx_lift id (exact_peak_to_sql peak_bytes) in
  let! _ := unix_ms in
  tx_update (set_resource_history (λ h,
    <[key := match h !! key with Some old => Z.max old peak | None => peak end]> h)).

Definition record_resource_peak (key : ReservationKey) (peak_bytes : Z) : Tx unit :=
  record_resource_peak_tx key peak_bytes.

Definition max_observed_peak_bytes (key : ReservationKey) : Tx (option Z) :=
  let! raw := tx_get (λ db, db_resource_history db !! key) in
  match raw with
  | Some peak => let! p := tx_lift id (exact_peak_from_sql peak) in tx_ret (Some p)
  | None => tx_ret None
  end.

(** ** Blocking the descendants of a failed job *)

Definition blockable (s : JobState) : bool :=
  match s with Pending | Requeued => true | _ => false end.

(** The body of the inner [for]: block one successor and push it. *)
Definition block_successor (predecessor : JobId) (frontier : list JobId) (raw_successor : string)
    : Tx (list JobId) :=
  let! successor := tx_identifier raw_successor in
  let! state := current_state successor in
  if bool_decide (state = Blocked) then tx_ret frontier
  else if negb (blockable state) then tx_ret frontier
  else
    let! _ := apply_event_tx successor None (DependencyBlocked predecessor) None in
    let! _ := set_terminal_failure successor in
    tx_ret (successor :: frontier).

(** The [while let Some(predecessor) = frontier.pop()] loop; the head of the
    list is the end of the vector.  Returns the frontier left when the fuel is
    spent, which [RunDbProofs.block_loop_drains_aux] shows to be empty. *)
Fixpoint block_loop (fuel : nat) (frontier : list JobId) : Tx (list JobId) :=
  match fuel, frontier with
  | S fuel, predecessor :: rest =>
      let! successors := tx_get (successor_ids predecessor) in
      let! frontier' := tx_fold (block_successor predecessor) rest successors in
      block_loop fuel frontier'
  | _, _ => tx_ret frontier
  end.

(** Every iteration pops one id and pushes only jobs it has just blocked, so
    one iteration per job and one for the failed job suffice. *)
Definition block_descendants_tx (failed : JobId) : Tx unit :=
  let! fuel := tx_get (λ db, S (size (db_jobs db))) in
  let! _ := block_loop fuel [failed] in
  tx_ret tt.

(** ** Attempts *)

Definition start_matches_kind (kind : JobKind) (event : JobEvent) : bool :=
  match kind, event with
  | Witness, StartWitnessing => true
  | Prepare, StartPreparing => true
  | LeafProof, StartProving => true
  | (LeafVerification | NativeAggregate), StartVerification => true
  | _, _ => false
  end.

Definition attempt_id_text (job : JobId) (count : Z) : string :=
  job +:+ ":attempt:" +:+ pretty count.

Definition begin_attempt (id : JobId) (event : JobEvent) : Tx AttemptId :=
  if negb (starts_attempt event) then tx_err NotAttemptStart
  else
    let! r := job id in
    if negb (start_matches_kind (jr_kind r) event)
    then tx_err (WrongStartForJobKind (jr_kind r) (event_name event))
    else
      let! open := tx_get (open_attempt_ids id) in
      if negb (bool_decide (open = [])) then tx_err (OpenAttemptConflict id)
      else
        let! count := tx_lift Datatypes.id
          (ok_or (try_u32 (jr_attempt_count r)) (DbUnknownEnum "attempt_count" (jr_attempt_count r))) in
        let! next_count := tx_lift Datatypes.id
          (ok_or (try_u32 (count + 1)) (AttemptCountExhausted id)) in
        let! attempt := tx_identifier (attempt_id_text id next_count) in
        let! current := current_state id in
        let! next := tx_lift DbTransition (transition current event) in
        let! now := unix_ms in
        let! _ := tx_constraint "attempts.attempt_id"
          (λ db, bool_decide (Forall (λ a, at_id a ≠ attempt) (db_attempts db))) in
        let! _ := tx_constraint "one_open_attempt_per_job"
          (λ db, bool_decide (open_attempt_ids id db = [])) in
        let! _ := tx_update (set_attempts (λ l, l ++ [mkAttemptRow attempt id next now None])) in
        let! _ := apply_event_tx id (Some attempt) event (Some next_count) in
        tx_ret attempt.

(** [apply_event] applies nothing: every event has a dedicated entry point. *)
Definition apply_event (_job : JobId) (event : JobEvent) : Tx JobState :=
  match event with
  | StartWitnessing | StartPreparing | StartProving | StartVerification =>
      tx_err AttemptStartRequiresBegin
  | WitnessCompleted | PreparationCompleted | ProofProduced | EvExecutionFailed _
  | EvResourceExceeded _ | EvInterrupted _ => tx_err AttemptEventRequiresAttempt
  | DependenciesSatisfied | DependencyBlocked _ | VerificationSucceeded _ | EvVerificationFailed _
  | RetryExecution | RetryResourceExceeded | RecoveryRequeue => tx_err ControlledEventRequired
  end.

Definition is_attempt_event (event : JobEvent) : bool :=
  match event with
  | WitnessCompleted | PreparationCompleted | ProofProduced | EvInterrupted _ => true
  | _ => false
  end.

Definition apply_attempt_event (id : JobId) (attempt : AttemptId) (event : JobEvent) : Tx JobState :=
  if negb (is_attempt_event event) then tx_err ControlledEventRequired
  else
    let! _ := require_unique_open_attempt id attempt in
    apply_event_tx id (Some attempt) event None.

(** ** Failures *)

Definition fail_verification (id : JobId) (source_attempt : AttemptId) (failure : FailureRecord)
    : Tx JobState :=
  let! _ := require_verification_source id source_attempt in
  let! state := apply_event_tx id (Some source_attempt) (EvVerificationFailed failure) None in
  let! _ := set_terminal_failure id in
  let! _ := block_descendants_tx id in
  tx_ret state.

Inductive RetryDecision := DecisionRequeued | DecisionTerminal.

Definition retry_limit (is_resource : bool) : Z := if is_resource then 3 else 2.

Definition retry_counter (is_resource : bool) (r : JobRow) : Z :=
  if is_resource then jr_resource_requeues r else jr_execution_retries r.

(** [UPDATE jobs SET counter=counter+1], with the schema's CHECK. *)
Definition bump_counter (is_resource : bool) (id : JobId) : Tx unit :=
  let! _ := tx_constraint "jobs.retry_check" (λ db,
    match db_jobs db !! id with
    | Some r => bool_decide (0 ≤ retry_counter is_resource r + 1 ≤ retry_limit is_resource)
    | None => true
    end) in
  tx_update (set_jobs (alter (if is_resource then row_bump_requeues else row_bump_retries) id)).

Definition handle_attempt_failure (id : JobId) (attempt : AttemptId) (failure : FailureRecord)
    (resource_observation : option (ReservationKey * Z)) : Tx RetryDecision :=
  let is_resource := bool_decide (fr_kind failure = FkResourceExceeded) in
  if negb (Bool.eqb is_resource (bool_decide (is_Some resource_observation)))
     || negb (bool_decide (fr_kind failure = FkExecution) || is_resource)
  then tx_err InvalidFailureObservation
  else
    let! _ := require_unique_open_attempt id attempt in
    let! _ := match resource_observation with
              | Some (key, peak) => record_resource_peak_tx key peak
              | None => tx_ret tt
              end in
    let failure_event := if is_resource then EvResourceExceeded failure else EvExecutionFailed failure in
    let! _ := apply_event_tx id (Some attempt) failure_event None in
    let! r := job id in
    if retry_counter is_resource r <? retry_limit is_resource then
      let! _ := bump_counter is_resource id in
      let retry_event := if is_resource then RetryResourceExceeded else RetryExecution in
      let! _ := apply_event_tx id (Some attempt) retry_event None in
      tx_ret DecisionRequeued
    else
      let! _ := set_terminal_failure id in
      let! _ := block_descendants_tx id in
      tx_ret DecisionTerminal.

(** ** Readiness *)

Definition readiness_candidates (db : RunDb) : list JobId :=
  sort_ids (fst <$> filter (λ kr, blockable (jr_state kr.2) = true) (map_to_list (db_jobs db))).

(** The body of the [for] of [refresh_readiness]; the state is the number of
    jobs made ready so far. *)
Definition refresh_one (ready : nat) (raw_id : string) : Tx nat :=
  let! id := tx_identifier raw_id in
  let! predecessors := predecessor_states id in
  if forallb (λ '(_, state, _), bool_decide (state = Verified)) predecessors then
    let! _ := apply_event_tx id None DependenciesSatisfied None in
    tx_ret (S ready)
  else
    match list_find (λ '(_, state, terminal), terminal = true ∨ is_permanent_failure state = true)
            predecessors with
    | Some (_, (predecessor, _, _)) =>
        let! _ := apply_event_tx id None (DependencyBlocked predecessor) None in
        tx_ret ready
    | None => tx_ret ready
    end.

Definition refresh_readiness : Tx nat :=
  let! candidates := tx_get readiness_candidates in
  tx_fold refresh_one O candidates.

(** ** Recovery *)

(** The open attempts with their jobs' states, ordered by attempt id. *)
Definition open_attempts (db : RunDb) : list (AttemptId * JobId * JobState) :=
  omap (λ a, r ← db_jobs db !! at_job a; Some (at_id a, at_job a, jr_state r))
    (merge_sort (λ a b, string_le (at_id a) (at_id b))
       (filter (λ a, is_open a = true) (db_attempts db))).

Definition interruption : FailureRecord := failure_new FkInterrupted FsScheduler SchedulerRestart.

Definition recover_one (recovered : nat) (row : AttemptId * JobId * JobState) : Tx nat :=
  let '(attempt_raw, job_raw, state) := row in
  if negb (is_active state) then tx_ret recovered
  else
    let! attempt := tx_identifier attempt_raw in
    let! id := tx_identifier job_raw in
    let! _ := apply_event_tx id (Some attempt) (EvInterrupted interruption) None in
    let! _ := apply_event_tx id (Some attempt) RecoveryRequeue None in
    let! now := unix_ms in
    let! _ := tx_update (set_attempts (update_where
      (λ a, String.eqb (at_id a) attempt && is_open a) (attempt_close Interrupted now))) in
    tx_ret (S recovered).

Definition recover_interrupted : Tx nat :=
  let! active := tx_get open_attempts in
  tx_fold recover_one O active.

(** ** Verification records *)

Definition verification_id_text (job : JobId) (db : RunDb) : string :=
  job +:+ ":verification:" +:+
  pretty (Z.of_nat (length (filter (λ v, vr_job v = job) (db_verifications db))) + 1).

(** [INSERT INTO verification_records], and the id it was given. *)
Definition insert_verification (id : JobId) (attempt : AttemptId) (verifier : string)
    : Tx (VerificationRecordId * Z) :=
  let! text := tx_get (verification_id_text id) in
  let! verification := tx_identifier text in
  let! now := unix_ms in
  let! _ := tx_constraint "verification_records.primary_key"
    (λ db, bool_decide (Forall (λ v, vr_id v ≠ verification) (db_verifications db))) in
  let! _ := tx_constraint "verification_records.foreign_key"
    (λ db, bool_decide (Exists (λ a, at_id a = attempt ∧ at_job a = id) (db_attempts db))) in
  let! _ := tx_update (set_verifications (λ l, l ++
    [mkVerificationRow verification id attempt verifier now])) in
  tx_ret (verification, now).

Definition complete_verification (id : JobId) (attempt : AttemptId) (verifier : string) : Tx JobState :=
  let! _ := validate_text_id verifier in
  let! r := job id in
  if negb (bool_decide (jr_kind r = LeafVerification)) then tx_err ControlledEventRequired
  else
    let! _ := require_verification_source id attempt in
    let! '(verification, _) := insert_verification id attempt verifier in
    apply_event_tx id (Some attempt) (VerificationSucceeded (Some verification)) None.
(** ** Committing a published object *)

(** The checks a [PublishedObject] runs against the file system; the store is
    outside this file, so each call's outcome is an input. *)
Record ObjectChecks := mkObjectChecks {
  oc_ensure_verified : Result unit string;
  oc_ensure_current_locator : Result unit string;
  oc_ensure_current_locator_in_tx : Result unit string;
  oc_ensure_pinned_file_identity : Result unit string
}.

(** What [VerifiedArtifact] and [VerifiedKey] expose of the attested object. *)
Record VerifiedObject := mkVerifiedObject {
  vo_run_id : string;
  vo_job : JobId;
  vo_attempt : AttemptId;
  vo_verifier : string;
  vo_artifact_id : option string;
  vo_job_kind : JobKind;
  vo_object_digest : Digest32;
  vo_content_digest : Digest32;
  vo_content_size : Z;
  vo_identity_digest : Digest32;
  vo_attestation_digest : Digest32;
  vo_checks : ObjectChecks
}.

Definition tx_store (r : Result unit string) : Tx unit := tx_lift StoreFailed r.

(** [PRIMARY KEY], [UNIQUE(run_id, logical_job_id)] and
    [UNIQUE(run_id, object_digest)] of an artifact table. *)
Definition artifact_unique (row : ArtifactRow) (table : list ArtifactRow) : bool :=
  bool_decide (Forall (λ r, ar_artifact_id r ≠ ar_artifact_id row ∧
    ar_logical_job_id r ≠ ar_logical_job_id row ∧
    ar_object_digest r ≠ ar_object_digest row) table).

Definition artifact_row (v : VerifiedObject) (artifact_id logical_job_id : string) (now : Z) : ArtifactRow :=
  mkArtifactRow artifact_id (vo_job v) logical_job_id (vo_attempt v) (vo_object_digest v)
    (vo_content_digest v) (vo_identity_digest v) (vo_attestation_digest v) (vo_job_kind v) now.

Definition commit_verified_artifact (verified : VerifiedObject) : Tx JobState :=
  let! run_id := tx_get db_run_id in
  if negb (String.eqb (vo_run_id verified) run_id) then tx_err VerifiedArtifactRunMismatch
  else
    let! artifact_id := tx_lift id (ok_or (vo_artifact_id verified) ArtifactPublicationRequired) in
    let! _ := tx_store (oc_ensure_verified (vo_checks verified)) in
    let! _ := tx_store (oc_ensure_current_locator (vo_checks verified)) in
    let! _ := tx_store (oc_ensure_current_locator_in_tx (vo_checks verified)) in
    let! _ := tx_store (oc_ensure_pinned_file_identity (vo_checks verified)) in
    let! _ := require_verification_source (vo_job verified) (vo_attempt verified) in
    let! r := job (vo_job verified) in
    if negb (bool_decide (jr_kind r = vo_job_kind verified)) then tx_err VerifiedIdentityJobKindMismatch
    else
      let! '(verification, now) :=
        insert_verification (vo_job verified) (vo_attempt verified) (vo_verifier verified) in
      let row := artifact_row verified artifact_id (jr_logical_job_id r) now in
      let! _ := tx_constraint "artifacts.unique" (λ db, artifact_unique row (db_artifacts db)) in
      let! _ := tx_update (set_artifacts (λ l, l ++ [row])) in
      apply_event_tx (vo_job verified) (Some (vo_attempt verified))
        (VerificationSucceeded (Some verification)) None.

Definition commit_verified_key (verified : VerifiedObject) : Tx JobState :=
  let! run_id := tx_get db_run_id in
  if negb (String.eqb (vo_run_id verified) run_id) then tx_err VerifiedArtifactRunMismatch
  else
    let! _ := tx_store (oc_ensure_verified (vo_checks verified)) in
    let! _ := tx_store (oc_ensure_current_locator (vo_checks verified)) in
    let! _ := tx_store (oc_ensure_current_locator_in_tx (vo_checks verified)) in
    let! _ := tx_store (oc_ensure_pinned_file_identity (vo_checks verified)) in
    let! _ := require_verification_source (vo_job verified) (vo_attempt verified) in
    let! r := job (vo_job verified) in
    if negb (bool_decide (jr_kind r = vo_job_kind verified)) then tx_err VerifiedIdentityJobKindMismatch
    else
      let! '(verification, now) :=
        insert_verification (vo_job verified) (vo_attempt verified) (vo_verifier verified) in
      let! _ := tx_lift StoreFailed (ok_or (try_i64 (vo_content_size verified)) "invalid metadata") in
      let row := artifact_row verified
        (String.string_of_list_ascii (digest_display (vo_identity_digest verified)))
        (jr_logical_job_id r) now in
      let! _ := tx_constraint "key_artifacts.unique" (λ db, artifact_unique row (db_key_artifacts db)) in
      let! _ := tx_update (set_key_artifacts (λ l, l ++ [row])) in
      apply_event_tx (vo_job verified) (Some (vo_attempt verified))
        (VerificationSucceeded (Some verification)) None.

End RunDb.
