(* ===== verification/RunDbProofs.v ===== *)
(** * The run database: effects of the statements

    Inversion lemmas for the transaction monad and for each statement of
    [RunDb.v], and the invariant every public method keeps. *)
From S2P Require Import Prelude Bytes State Identity Resource Estimate RunDb.

Open Scope string_scope.
Open Scope Z_scope.
Open Scope list_scope.

(** ** Inverting transactions *)

Lemma tx_bind_Ok {A B} (m : Tx A) (k : A → Tx B) db r :
  tx_bind m k db = Ok r ↔ ∃ a db1, m db = Ok (a, db1) ∧ k a db1 = Ok r.
Proof. unfold tx_bind. destruct (m db) as [[a db1]|e]; naive_solver. Qed.

Lemma tx_ret_Ok {A} (a : A) db r : tx_ret a db = Ok r ↔ r = (a, db).
Proof. unfold tx_ret. naive_solver. Qed.

Lemma tx_get_Ok {A} (f : RunDb → A) db r : tx_get f db = Ok r ↔ r = (f db, db).
Proof. unfold tx_get. naive_solver. Qed.

Lemma tx_update_Ok f db r : tx_update f db = Ok r ↔ r = (tt, f db).
Proof. unfold tx_update. naive_solver. Qed.

Lemma tx_err_Ok {A} e db (r : A * RunDb) : tx_err e db = Ok r ↔ False.
Proof. unfold tx_err. naive_solver. Qed.

Lemma tx_lift_Ok {A E} (f : E → DbError) (c : Result A E) db r :
  tx_lift f c db = Ok r ↔ ∃ a, c = Ok a ∧ r = (a, db).
Proof. unfold tx_lift. destruct c; naive_solver. Qed.

Lemma tx_constraint_Ok name b db r :
  tx_constraint name b db = Ok r ↔ b db = true ∧ r = (tt, db).
Proof. unfold tx_constraint. destruct (b db); naive_solver. Qed.

Lemma unix_ms_Ok clock db r :
  unix_ms clock db = Ok r ↔ ∃ now, clock (db_clock_reads db) = Some now ∧ r = (now, bump_clock db).
Proof. unfold unix_ms. destruct (clock _); naive_solver. Qed.

Lemma tx_identifier_Ok raw db r :
  tx_identifier raw db = Ok r ↔ valid_id raw ∧ r = (raw, db).
Proof.
  unfold tx_identifier, valid_id. rewrite tx_lift_Ok. unfold identifier_new.
  destruct (_ || _); naive_solver.
Qed.

(** Splits [(a, d) = (v, db)], naming the new database by the old one. *)
Ltac tx_pair H :=
  let Ea := fresh "Ea" in let Ed := fresh "Ed" in
  apply pair_equal_spec in H as [Ea Ed];
  first [ match type of Ed with ?d = _ => is_var d; subst d end
        | match type of Ed with _ = ?d => is_var d; subst d end | idtac ];
  first [ match type of Ea with ?a = _ => is_var a; subst a end
        | match type of Ea with _ = ?a => is_var a; subst a end | simplify_eq | idtac ].

(** One inversion step on a hypothesis that says a transaction succeeded. *)
Ltac tx_step :=
  match goal with
  | H : tx_bind _ _ _ = Ok _ |- _ =>
      let a := fresh "a" in let d := fresh "d" in let Hm := fresh "Hm" in
      apply tx_bind_Ok in H as (a & d & Hm & H)
  | H : tx_ret _ _ = Ok _ |- _ => apply tx_ret_Ok in H; tx_pair H
  | H : tx_get _ _ = Ok _ |- _ => apply tx_get_Ok in H; tx_pair H
  | H : tx_update _ _ = Ok _ |- _ => apply tx_update_Ok in H; tx_pair H
  | H : tx_err _ _ = Ok _ |- _ => by apply tx_err_Ok in H
  | H : tx_constraint _ _ _ = Ok _ |- _ =>
      let Hc := fresh "Hc" in apply tx_constraint_Ok in H as [Hc H]; tx_pair H
  | H : unix_ms _ _ = Ok _ |- _ =>
      let now := fresh "now" in let Hnow := fresh "Hnow" in
      apply unix_ms_Ok in H as (now & Hnow & H); tx_pair H
  | H : tx_identifier _ _ = Ok _ |- _ =>
      let Hid := fresh "Hid" in apply tx_identifier_Ok in H as [Hid H]; tx_pair H
  | H : tx_lift _ _ _ = Ok _ |- _ =>
      let v := fresh "v" in let Hv := fresh "Hv" in
      apply tx_lift_Ok in H as (v & Hv & H); tx_pair H
  end.
Ltac tx_inv := repeat tx_step.

Lemma tx_fold_inv {A S} (P : RunDb → Prop) (f : S → A → Tx S) l s db s' db' :
  (∀ s x d s1 d1, x ∈ l → P d → f s x d = Ok (s1, d1) → P d1) →
  P db → tx_fold f s l db = Ok (s', db') → P db'.
Proof.
  revert s db. induction l as [|x l IH]; simpl; intros s db Hf HP H; tx_inv; [done|].
  eapply IH; [|by eapply Hf; [left|..]|done]. intros. eapply Hf; [by right|done..].
Qed.

Lemma job_Ok id db r db' : job id db = Ok (r, db') ↔ db_jobs db !! id = Some r ∧ db' = db.
Proof.
  unfold job. rewrite tx_bind_Ok. setoid_rewrite tx_get_Ok. split.
  - intros (a & d & [= -> ->] & H). destruct (db_jobs db !! id); tx_inv; done.
  - intros [H ->]. eexists _, _. split; [done|]. by rewrite H.
Qed.

Lemma current_state_Ok id db s db' :
  current_state id db = Ok (s, db') ↔ ∃ r, db_jobs db !! id = Some r ∧ s = jr_state r ∧ db' = db.
Proof.
  unfold current_state. rewrite tx_bind_Ok. setoid_rewrite job_Ok. setoid_rewrite tx_ret_Ok.
  naive_solver.
Qed.

(** ** What [apply_event_tx] does *)

Definition event_row (id : JobId) (attempt : option AttemptId) (event : JobEvent)
    (current next : JobState) (now : Z) : StateEventRow :=
  mkStateEventRow id attempt current next (event_name event) (event_failure event)
    (event_blocking_predecessor event) (event_verification_record event) now.

(** The database after an event, as one expression. *)
Definition db_after_event (id : JobId) (attempt : option AttemptId) (event : JobEvent)
    (count : option Z) (r : JobRow) (next : JobState) (now : Z) (db : RunDb) : RunDb :=
  set_attempts (attempts_after_event id attempt next now)
    (set_jobs (insert id (job_after_event r next event count))
      (set_events (λ l, l ++ [event_row id attempt event (jr_state r) next now])
        (bump_clock db))).

Lemma apply_event_tx_Ok clock id attempt event count db next db' :
  apply_event_tx clock id attempt event count db = Ok (next, db') ↔
  ∃ r now, db_jobs db !! id = Some r ∧ transition (jr_state r) event = Ok next ∧
    clock (db_clock_reads db) = Some now ∧
    state_event_references id attempt event db = true ∧
    db' = db_after_event id attempt event count r next now db.
Proof.
  unfold apply_event_tx. split.
  - intros H. tx_inv.
    match goal with H : current_state _ _ = Ok _ |- _ =>
      apply current_state_Ok in H as (r & Hr & -> & ->) end.
    tx_inv. eexists r, _. split_and!; try done.
    unfold db_after_event, set_jobs. simpl. f_equal. by rewrite (alter_as_insert _ _ _ r).
  - intros (r & now & Hr & Ht & Hnow & Hc & ->).
    unfold tx_bind, tx_lift, unix_ms, tx_constraint, tx_update, tx_ret.
    replace (current_state id db) with (Ok (E := DbError) (jr_state r, db))
      by (symmetry; apply current_state_Ok; eauto).
    rewrite Ht, Hnow. simpl.
    replace (state_event_references id attempt event (bump_clock db)) with true by (by rewrite <-Hc).
    unfold db_after_event, set_jobs. simpl. by rewrite (alter_as_insert _ _ _ r).
Qed.

Lemma job_after_event_fields r next event count :
  let r' := job_after_event r next event count in
  jr_logical_job_id r' = jr_logical_job_id r ∧ jr_kind r' = jr_kind r ∧ jr_state r' = next ∧
  jr_attempt_count r' = default (jr_attempt_count r) count ∧
  jr_execution_retries r' = jr_execution_retries r ∧
  jr_resource_requeues r' = jr_resource_requeues r ∧
  jr_terminal_failure r' = jr_terminal_failure r.
Proof.
  unfold job_after_event. destruct (event_failure event), (event_blocking_predecessor event);
    try case_bool_decide; done.
Qed.

Lemma job_after_event_state r next event count :
  jr_state (job_after_event r next event count) = next.
Proof. apply job_after_event_fields. Qed.

(** ** The attempt table *)

Definition open_states (id : JobId) (attempts : list AttemptRow) : list JobState :=
  at_state <$> filter (λ a, open_for id a = true) attempts.

Lemma open_states_app id l1 l2 : open_states id (l1 ++ l2) = open_states id l1 ++ open_states id l2.
Proof. unfold open_states. by rewrite filter_app, fmap_app. Qed.

Lemma open_states_cons id a l :
  open_states id (a :: l) = (if open_for id a then [at_state a] else []) ++ open_states id l.
Proof. unfold open_states. rewrite filter_cons. destruct (open_for id a); by simpl. Qed.

Lemma open_for_true id a : open_for id a = true ↔ at_finished_at_unix_ms a = None ∧ at_job a = id.
Proof.
  unfold open_for, is_open. by rewrite andb_true_iff, bool_decide_eq_true, String.eqb_eq.
Qed.

Lemma elem_of_open_states id s l :
  s ∈ open_states id l ↔ ∃ a, a ∈ l ∧ open_for id a = true ∧ at_state a = s.
Proof.
  unfold open_states. rewrite list_elem_of_fmap. setoid_rewrite list_elem_of_filter. naive_solver.
Qed.

Lemma open_states_nil id l : (∀ a, a ∈ l → at_job a ≠ id) → open_states id l = [].
Proof.
  intros H. destruct (open_states id l) as [|s k] eqn:E; [done|].
  assert (s ∈ open_states id l) as (a & Ha & [_ Ho]%open_for_true & _)%elem_of_open_states
    by (rewrite E; by left).
  by destruct (H a Ha).
Qed.

Lemma open_for_close id id' state now a :
  open_for id a = true → open_for id' (attempt_close state now a) = false.
Proof. unfold open_for, is_open. simpl. done. Qed.

Lemma open_states_close id id' state now l :
  open_states id' (update_where (open_for id) (attempt_close state now) l) =
  if decide (id = id') then [] else open_states id' l.
Proof.
  induction l as [|a l IH]; simpl.
  { by case_decide. }
  rewrite open_states_cons, IH. destruct (open_for id a) eqn:E.
  - rewrite open_for_close with (id := id) by done. case_decide as Hd; [done|].
    rewrite open_states_cons.
    assert (open_for id' a = false) as ->; [|done].
    unfold open_for in *. apply andb_true_iff in E as [-> E%String.eqb_eq].
    simpl. apply String.eqb_neq. congruence.
  - case_decide as Hd; [subst; by rewrite E|]. by rewrite open_states_cons.
Qed.

Lemma update_where_map_same {A B} (g : A → B) (p : A → bool) f (l : list A) :
  (∀ a, g (f a) = g a) → g <$> update_where p f l = g <$> l.
Proof.
  intros Hg. unfold update_where. rewrite <-list_fmap_compose. apply list_fmap_ext.
  intros i a _. simpl. destruct (p a); [apply Hg|done].
Qed.

Lemma update_where_none {A} (p : A → bool) f (l : list A) :
  Forall (λ a, p a = false) l → update_where p f l = l.
Proof. induction 1 as [|a l Ha _ IH]; simpl; [done|]. by rewrite Ha, IH. Qed.

Lemma attempts_after_event_ids id attempt next now l :
  at_id <$> attempts_after_event id attempt next now l = at_id <$> l.
Proof.
  unfold attempts_after_event. destruct (negb _); [by apply update_where_map_same|].
  destruct attempt; [by apply update_where_map_same|done].
Qed.

Lemma attempts_after_event_elem id attempt next now l a :
  a ∈ attempts_after_event id attempt next now l →
  ∃ b, b ∈ l ∧ at_id a = at_id b ∧ at_job a = at_job b.
Proof.
  assert (Hu : ∀ (p : AttemptRow → bool) f, (∀ b, at_id (f b) = at_id b ∧ at_job (f b) = at_job b) →
    a ∈ update_where p f l → ∃ b, b ∈ l ∧ at_id a = at_id b ∧ at_job a = at_job b).
  { intros p f Hf (b & -> & Hb)%list_elem_of_fmap. exists b. split; [done|].
    destruct (p b); [apply Hf|done]. }
  unfold attempts_after_event. destruct (negb _); [by apply Hu|].
  destruct attempt; [by apply Hu|eauto].
Qed.

(** ** The invariant *)

(** The states a job of each kind passes through. *)
Definition kind_allows (kind : JobKind) (state : JobState) : bool :=
  match state with
  | Witnessing | WitnessReady => bool_decide (kind = Witness)
  | Preparing | Prepared => bool_decide (kind = Prepare)
  | Proving | Proved => bool_decide (kind = LeafProof)
  | Verifying => bool_decide (kind = LeafVerification ∨ kind = NativeAggregate)
  | _ => true
  end.

(** The states in which a job may be marked terminal. *)
Definition settled_failure (state : JobState) : bool :=
  match state with
  | ExecutionFailed | ResourceExceeded | VerificationFailed | Blocked => true
  | _ => false
  end.

Definition is_retry (event : JobEvent) : bool :=
  match event with
  | RetryExecution | RetryResourceExceeded => true
  | _ => false
  end.

Record row_inv (run_id id : string) (attempts : list AttemptRow)
    (verifications : list VerificationRow) (r : JobRow) : Prop := {
  inv_key : valid_id id ∧ id = run_id +:+ ":" +:+ jr_logical_job_id r;
  inv_open : open_states id attempts = (if is_active (jr_state r) then [jr_state r] else []);
  inv_kind : kind_allows (jr_kind r) (jr_state r) = true;
  inv_counters : 0 ≤ jr_execution_retries r ≤ 2 ∧ 0 ≤ jr_resource_requeues r ≤ 3 ∧
    in_u32 (jr_attempt_count r);
  inv_verified : jr_state r = Verified → Exists (λ v, vr_job v = id) verifications;
  inv_terminal : jr_terminal_failure r = true → settled_failure (jr_state r) = true
}.

Definition attempt_inv (jobs : gmap string JobRow) (a : AttemptRow) : Prop :=
  ∃ r n, jobs !! at_job a = Some r ∧ 1 ≤ n ≤ jr_attempt_count r ∧
    at_id a = attempt_id_text (at_job a) n ∧ valid_id (at_id a).

Record db_inv (db : RunDb) : Prop := {
  inv_rows : ∀ id r, db_jobs db !! id = Some r →
    row_inv (db_run_id db) id (db_attempts db) (db_verifications db) r;
  inv_attempts : ∀ a, a ∈ db_attempts db → attempt_inv (db_jobs db) a;
  inv_attempt_ids : NoDup (at_id <$> db_attempts db);
  inv_dependencies : ∀ p s, (p, s) ∈ db_dependencies db →
    is_Some (db_jobs db !! p) ∧ is_Some (db_jobs db !! s) ∧ p ≠ s
}.

Lemma empty_db_inv run_id : db_inv (empty_db run_id).
Proof. split; simpl; try (intros * H; by apply not_elem_of_nil in H); [done|constructor]. Qed.

Lemma kind_allows_transition kind s event next :
  transition s event = Ok next → starts_attempt event = false →
  kind_allows kind s = true → kind_allows kind next = true.
Proof. intros H Hs Hk. inv_transition H; try done. Qed.

(** A non-start event that succeeds keeps the invariant; a retry must not find
    the job marked terminal. *)
Lemma apply_event_inv clock id attempt event db next db' :
  db_inv db → starts_attempt event = false →
  (∀ r, db_jobs db !! id = Some r → is_retry event = true → jr_terminal_failure r = false) →
  apply_event_tx clock id attempt event None db = Ok (next, db') → db_inv db'.
Proof.
  intros Hinv Hstart Hretry (r & now & Hr & Ht & _ & Hrefs & ->)%apply_event_tx_Ok.
  pose proof (transition_to_active _ _ _ Ht) as Hact. rewrite Hstart in Hact.
  destruct (job_after_event_fields r next event None) as (Fl & Fk & Fs & Fa & Fe & Fq & Ft).
  destruct Hinv as [Hrows Hatt Hids Hdeps].
  unfold db_after_event. split; simpl.
  - intros id' r' Hr'. unfold attempts_after_event. rewrite Hact. simpl.
    destruct (decide (id = id')) as [<-|Hne].
    + rewrite lookup_insert_eq in Hr'. simplify_eq. destruct (Hrows _ _ Hr) as [R1 R2 R3 R4 R5 R6].
      split; rewrite ?Fl, ?Fk, ?Fs, ?Fa, ?Fe, ?Fq, ?Ft; try done.
      * by rewrite open_states_close, decide_True, Hact.
      * by eapply kind_allows_transition.
      * intros ->. destruct (transition_verified _ _ Ht) as [v ->].
        unfold state_event_references in Hrefs. simpl in Hrefs.
        rewrite !andb_true_iff, !bool_decide_eq_true in Hrefs. destruct Hrefs as [_ Hv].
        eapply Exists_impl; [exact Hv|naive_solver].
      * intros Hterm. specialize (Hretry _ Hr). specialize (R6 Hterm).
        clear -R6 Hretry Ht Hterm. inv_transition Ht; simpl in *; try done;
          rewrite Hterm in Hretry; by specialize (Hretry eq_refl).
    + rewrite lookup_insert_ne in Hr' by done. destruct (Hrows _ _ Hr') as [R1 R2 R3 R4 R5 R6].
      split; try done. by rewrite open_states_close, decide_False.
  - intros a (b & Hb & Eid & Ejob)%attempts_after_event_elem.
    destruct (Hatt b Hb) as (rb & n & Hrb & Hn & Hid & Hv).
    unfold attempt_inv. rewrite Eid, Ejob. destruct (decide (id = at_job b)) as [->|Hne].
    + exists (job_after_event r next event None), n. rewrite lookup_insert_eq, Fa; simpl.
      assert (rb = r) as -> by congruence. simpl in *. split_and!; try done; lia.
    + exists rb, n. by rewrite lookup_insert_ne.
  - by rewrite attempts_after_event_ids.
  - intros p s (Hp & Hs & Hne)%Hdeps. split_and!; [..|done].
    all: apply lookup_insert_is_Some'; by right.
Qed.

(** The invariant reads five tables. *)
Lemma db_inv_ext db db' :
  db_run_id db' = db_run_id db → db_jobs db' = db_jobs db → db_attempts db' = db_attempts db →
  db_verifications db' = db_verifications db → db_dependencies db' = db_dependencies db →
  db_inv db → db_inv db'.
Proof. intros E1 E2 E3 E4 E5 [H1 H2 H3 H4]. split; rewrite ?E1, ?E2, ?E3, ?E4, ?E5; done. Qed.

Ltac db_ext := eapply db_inv_ext; [..|eassumption]; reflexivity.

Lemma update_row_inv db id r r' :
  db_inv db → db_jobs db !! id = Some r →
  row_inv (db_run_id db) id (db_attempts db) (db_verifications db) r' →
  jr_attempt_count r ≤ jr_attempt_count r' →
  db_inv (set_jobs (insert id r') db).
Proof.
  intros [H1 H2 H3 H4] Hr Hr' Hle. split; simpl; [| |done|].
  - intros i ri Hi. destruct (decide (id = i)) as [<-|Hne].
    + rewrite lookup_insert_eq in Hi. by simplify_eq.
    + rewrite lookup_insert_ne in Hi by done. by apply H1.
  - intros a Ha. destruct (H2 a Ha) as (ra & n & Hra & Hn & Hid & Hv).
    destruct (decide (id = at_job a)) as [->|Hne].
    + exists r', n. rewrite lookup_insert_eq. assert (ra = r) as -> by congruence.
      split_and!; try done; lia.
    + exists ra, n. by rewrite lookup_insert_ne.
  - intros p s (Hp & Hs & Hne)%H4. split_and!; [..|done];
      apply lookup_insert_is_Some'; by right.
Qed.

Lemma set_terminal_inv id db u db' r :
  db_inv db → db_jobs db !! id = Some r → settled_failure (jr_state r) = true →
  set_terminal_failure id db = Ok (u, db') → db_inv db'.
Proof.
  intros Hinv Hr Hs H. unfold set_terminal_failure in H. tx_inv.
  unfold set_jobs at 1. rewrite (alter_as_insert _ _ _ r) by done.
  apply (update_row_inv db id r); [done..| |simpl; lia].
  destruct (inv_rows _ Hinv _ _ Hr) as [R1 R2 R3 R4 R5 R6]. by split.
Qed.

Lemma bump_counter_inv is_resource id db u db' :
  db_inv db → bump_counter is_resource id db = Ok (u, db') → db_inv db'.
Proof.
  intros Hinv H. unfold bump_counter in H. tx_inv.
  destruct (db_jobs db !! id) as [r|] eqn:Hr.
  - apply bool_decide_eq_true in Hc. unfold set_jobs at 1. rewrite (alter_as_insert _ _ _ r) by done.
    destruct (inv_rows _ Hinv _ _ Hr) as [R1 R2 R3 R4 R5 R6].
    apply (update_row_inv db id r); [done..| |destruct is_resource; simpl; lia].
    split; destruct is_resource; simpl in *; try done; intuition lia.
  - eapply db_inv_ext; [..|exact Hinv]; try done. simpl. apply map_eq. intros j.
    rewrite lookup_alter. by case_decide; subst; rewrite ?Hr.
Qed.

Lemma record_resource_peak_tx_inv clock key peak db u db' :
  db_inv db → record_resource_peak_tx clock key peak db = Ok (u, db') → db_inv db'.
Proof. intros Hinv H. unfold record_resource_peak_tx in H. tx_inv. db_ext. Qed.

Lemma insert_job_inv clock logical kind db id db' :
  db_inv db → insert_job clock logical kind db = Ok (id, db') → db_inv db'.
Proof.
  intros [H1 H2 H3 H4] H. unfold insert_job, validate_text_id in H. tx_inv.
  rewrite bool_decide_eq_true in Hc, Hc0. split; simpl in *; [| |done|].
  - intros i r Hi. destruct (decide (i = db_run_id db +:+ ":" +:+ logical)) as [->|Hne].
    + rewrite lookup_insert_eq in Hi. simplify_eq. split; simpl; try done.
      apply open_states_nil. intros a Ha. destruct (H2 a Ha) as (ra & n & Hra & _). congruence.
    + rewrite lookup_insert_ne in Hi by done. by apply H1.
  - intros a Ha. destruct (H2 a Ha) as (ra & n & Hra & Hn). exists ra, n.
    rewrite lookup_insert_ne; [done|congruence].
  - intros p s (Hp & Hs & Hne)%H4. split_and!; [..|done];
      apply lookup_insert_is_Some'; by right.
Qed.

Lemma require_job_Ok id db u db' :
  require_job_in_run id db = Ok (u, db') → is_Some (db_jobs db !! id) ∧ db' = db.
Proof.
  unfold require_job_in_run. intros H. tx_inv.
  destruct (db_jobs db !! id) eqn:E; tx_inv. eauto.
Qed.

Lemma add_dependency_Ok p s db u db' :
  add_dependency p s db = Ok (u, db') →
  is_Some (db_jobs db !! p) ∧ is_Some (db_jobs db !! s) ∧ p ≠ s ∧
  (p, s) ∉ db_dependencies db ∧ db' = set_dependencies (λ l, l ++ [(p, s)]) db.
Proof.
  unfold add_dependency. intros H. tx_inv.
  repeat match goal with H : require_job_in_run _ _ = Ok _ |- _ =>
    apply require_job_Ok in H as [? ->] end.
  rewrite bool_decide_eq_true in *. rewrite negb_true_iff, String.eqb_neq in *. done.
Qed.

Lemma add_dependency_inv p s db u db' :
  db_inv db → add_dependency p s db = Ok (u, db') → db_inv db'.
Proof.
  intros [H1 H2 H3 H4] (Hp & Hs & Hne & _ & ->)%add_dependency_Ok. split; simpl; try done.
  intros p' s' [Hin|Hin]%elem_of_app; [by apply H4|].
  apply list_elem_of_singleton in Hin. by simplify_eq.
Qed.

Lemma insert_verification_inv clock id attempt verifier db r db' :
  db_inv db → insert_verification clock id attempt verifier db = Ok (r, db') → db_inv db'.
Proof.
  intros [H1 H2 H3 H4] H. unfold insert_verification in H. tx_inv. split; simpl; try done.
  intros i ri Hi. destruct (H1 _ _ Hi) as [R1 R2 R3 R4 R5 R6]. split; try done.
  intros Hv. apply Exists_app. left. by apply R5.
Qed.

(** ** Starting an attempt *)

Definition new_attempt (a id : string) (next : JobState) (now : Z) : AttemptRow :=
  mkAttemptRow a id next now None.

Record begin_effect (id : JobId) (event : JobEvent) (a : AttemptId) (r : JobRow) (next : JobState)
    (db db' : RunDb) : Prop := {
  be_row : db_jobs db !! id = Some r;
  be_start : starts_attempt event = true;
  be_kind : start_matches_kind (jr_kind r) event = true;
  be_next : transition (jr_state r) event = Ok next;
  be_no_open : open_attempt_ids id db = [];
  be_id : a = attempt_id_text id (jr_attempt_count r + 1) ∧ valid_id a;
  be_fresh : Forall (λ x, at_id x ≠ a) (db_attempts db);
  be_count : in_u32 (jr_attempt_count r + 1);
  be_run : db_run_id db' = db_run_id db;
  be_jobs : db_jobs db' =
    <[id := job_after_event r next event (Some (jr_attempt_count r + 1))]> (db_jobs db);
  be_attempts : ∃ now, db_attempts db' = db_attempts db ++ [new_attempt a id next now];
  be_events : ∃ now, db_events db' =
    db_events db ++ [event_row id (Some a) event (jr_state r) next now];
  be_deps : db_dependencies db' = db_dependencies db;
  be_verifications : db_verifications db' = db_verifications db
}.

Lemma attempts_after_start a id next now t l :
  Forall (λ x, at_id x ≠ a) l → is_active next = true →
  attempts_after_event id (Some a) next now (l ++ [new_attempt a id next t]) =
  l ++ [new_attempt a id next t].
Proof.
  intros Hl Hact. unfold attempts_after_event. rewrite Hact. simpl.
  unfold update_where. rewrite fmap_app. simpl. rewrite String.eqb_refl. f_equal.
  apply update_where_none. eapply Forall_impl; [exact Hl|].
  intros x Hx. by apply String.eqb_neq.
Qed.

Lemma begin_attempt_Ok clock id event db a db' :
  begin_attempt clock id event db = Ok (a, db') →
  ∃ r next, begin_effect id event a r next db db'.
Proof.
  unfold begin_attempt. intros H.
  destruct (starts_attempt event) eqn:Hstart; simpl in H; tx_inv.
  match goal with H : job _ _ = Ok _ |- _ => apply job_Ok in H as [Hr ->] end.
  destruct (start_matches_kind _ _) eqn:Hkind; simpl in H; tx_inv.
  case_bool_decide as Hopen; simpl in H; tx_inv.
  repeat match goal with
  | H : ok_or _ _ = Ok _ |- _ => apply ok_or_Ok in H
  | H : try_u32 _ = Some _ |- _ => apply try_u32_Some in H as [<- ?]
  | H : current_state _ _ = Ok _ |- _ => apply current_state_Ok in H as (? & ? & -> & ->)
  | H : apply_event_tx _ _ _ _ _ _ = Ok _ |- _ =>
      apply apply_event_tx_Ok in H as (? & ? & Hr' & Ht' & _ & _ & ->)
  | H : bool_decide _ = true |- _ => rewrite bool_decide_eq_true in H
  end.
  simpl in *. simplify_eq.
  match goal with
  | H1 : transition (jr_state ?r) event = Ok ?n, H2 : transition (jr_state ?r) event = Ok ?m |- _ =>
      rewrite H1 in H2; injection H2 as <-; exists r, n; pose proof (transition_to_active _ _ _ H1) as Hact
  end.
  rewrite Hstart in Hact.
  split; try done.
  - eexists. unfold db_after_event. simpl. by apply attempts_after_start.
  - eexists. done.
Qed.

Lemma start_kind_allows kind s event next :
  transition s event = Ok next → start_matches_kind kind event = true →
  kind_allows kind next = true.
Proof. intros H Hk. inv_transition H; by destruct kind. Qed.

Lemma begin_attempt_inv clock id event db a db' :
  db_inv db → begin_attempt clock id event db = Ok (a, db') → db_inv db'.
Proof.
  intros [H1 H2 H3 H4] (r & next & B)%begin_attempt_Ok.
  destruct (be_attempts _ _ _ _ _ _ _ B) as [now Eatt].
  pose proof (be_row _ _ _ _ _ _ _ B) as Hr. destruct (be_id _ _ _ _ _ _ _ B) as [Ha Hva].
  pose proof (be_count _ _ _ _ _ _ _ B) as Hc.
  pose proof (transition_to_active _ _ _ (be_next _ _ _ _ _ _ _ B)) as Hact.
  rewrite (be_start _ _ _ _ _ _ _ B) in Hact.
  destruct (job_after_event_fields r next event (Some (jr_attempt_count r + 1)))
    as (Fl & Fk & Fs & Fa & Fe & Fq & Ft). simpl in Fa.
  destruct (H1 _ _ Hr) as [R1 R2 R3 R4 R5 R6].
  assert (Hpass : is_active (jr_state r) = false ∧ settled_failure (jr_state r) = false).
  { pose proof (be_no_open _ _ _ _ _ _ _ B) as Ho. destruct (be_next _ _ _ _ _ _ _ B).
    split.
    - destruct (is_active (jr_state r)) eqn:E; [|done].
      assert (jr_state r ∈ open_states id (db_attempts db)) as (x & Hx & Hop & _)%elem_of_open_states
        by (rewrite R2; by left).
      assert (at_id x ∈ open_attempt_ids id db) as Hin; [|rewrite Ho in Hin; by apply not_elem_of_nil in Hin].
      unfold open_attempt_ids, sort_ids. rewrite merge_sort_Permutation.
      apply list_elem_of_fmap. exists x. split; [done|]. by apply list_elem_of_filter.
    - pose proof (be_next _ _ _ _ _ _ _ B) as Hn. pose proof (be_start _ _ _ _ _ _ _ B) as Hs.
      by inv_transition Hn. }
  destruct B. split; rewrite ?be_run0, ?be_jobs0, ?Eatt, ?be_deps0, ?be_verifications0.
  - intros i ri Hi. destruct (decide (id = i)) as [<-|Hne].
    + rewrite lookup_insert_eq in Hi. simplify_eq.
      split; rewrite ?Fl, ?Fk, ?Fs, ?Fa, ?Fe, ?Fq, ?Ft; try done.
      * rewrite open_states_app, R2, (proj1 Hpass), Hact, open_states_cons.
        by replace (open_for id (new_attempt _ id next now)) with true
          by (symmetry; by apply open_for_true).
      * by eapply start_kind_allows.
      * intuition.
      * intros ->. done.
      * intros Hterm. specialize (R6 Hterm). by rewrite (proj2 Hpass) in R6.
    + rewrite lookup_insert_ne in Hi by done. destruct (H1 _ _ Hi) as [S1 S2 S3 S4 S5 S6].
      split; try done. rewrite open_states_app, (open_states_nil i [_]), app_nil_r; [done|].
      intros x ->%list_elem_of_singleton. done.
  - intros x [Hx| ->%list_elem_of_singleton]%elem_of_app.
    + destruct (H2 x Hx) as (rx & n & Hrx & Hn & Hidx & Hvx).
      destruct (decide (id = at_job x)) as [->|Hne].
      * eexists _, n. rewrite lookup_insert_eq, Fa. assert (rx = r) as -> by congruence.
        split_and!; try done; lia.
      * exists rx, n. by rewrite lookup_insert_ne.
    + eexists _, (jr_attempt_count r + 1). simpl. rewrite lookup_insert_eq, Fa.
      split_and!; try done; zlia.
  - rewrite fmap_app. simpl. apply NoDup_app. split_and!; [done| |apply NoDup_singleton].
    intros x (y & -> & Hy)%list_elem_of_fmap Hin%list_elem_of_singleton.
    rewrite Forall_forall in be_fresh0. by apply (be_fresh0 y).
  - intros p s (Hp & Hs & Hne)%H4. split_and!; [..|done];
      apply lookup_insert_is_Some'; by right.
Qed.

(** ** Blocking descendants *)

Lemma tx_fold_ind {A S} (P : list A → S → RunDb → Prop) (f : S → A → Tx S) l s db s' db' :
  P l s db →
  (∀ x l s d s1 d1, P (x :: l) s d → f s x d = Ok (s1, d1) → P l s1 d1) →
  tx_fold f s l db = Ok (s', db') → P [] s' db'.
Proof.
  intros HP Hf. revert s db HP. induction l as [|x l IH]; simpl; intros s db HP H; tx_inv; [done|].
  by eapply IH; [eapply Hf|].
Qed.

(** The row [block_successor] leaves behind for a job it blocks. *)
Definition blocked_row (p : JobId) (r : JobRow) : JobRow :=
  row_set_terminal (job_after_event r Blocked (DependencyBlocked p) None).

Lemma block_successor_Ok clock p fr s db fr' db' :
  block_successor clock p fr s db = Ok (fr', db') →
  ∃ r, db_jobs db !! s = Some r ∧
    ((blockable (jr_state r) = false ∧ fr' = fr ∧ db' = db) ∨
     (blockable (jr_state r) = true ∧ fr' = s :: fr ∧ ∃ now,
       db' = set_jobs (alter row_set_terminal s)
               (db_after_event s None (DependencyBlocked p) None r Blocked now db) ∧
       db_jobs db' = <[s := blocked_row p r]> (db_jobs db))).
Proof.
  unfold block_successor. intros H. tx_inv.
  match goal with H : current_state _ _ = Ok _ |- _ =>
    apply current_state_Ok in H as (r & Hr & -> & ->) end.
  exists r. split; [done|].
  case_bool_decide as Hb; [|destruct (blockable (jr_state r)) eqn:Eb; simpl in H]; tx_inv;
    [left; by rewrite Hb| |by left].
  right. match goal with H : apply_event_tx _ _ _ _ _ _ = Ok _ |- _ =>
    apply apply_event_tx_Ok in H as (r' & now & Hr' & Ht & _ & _ & ->) end.
  assert (r' = r) as -> by congruence.
  apply transition_blocked_source in Ht as [_ ->].
  match goal with H : set_terminal_failure _ _ = Ok _ |- _ =>
    unfold set_terminal_failure in H; tx_inv end.
  split_and!; [done..|]. exists now. split; [done|]. simpl.
  rewrite (alter_as_insert _ _ _ (job_after_event r Blocked (DependencyBlocked p) None))
    by apply lookup_insert_eq.
  by rewrite insert_insert_eq.
Qed.

Lemma block_successor_inv clock p fr s db fr' db' :
  db_inv db → block_successor clock p fr s db = Ok (fr', db') → db_inv db'.
Proof.
  unfold block_successor. intros Hinv H. tx_inv.
  match goal with H : current_state _ _ = Ok _ |- _ =>
    apply current_state_Ok in H as (r & Hr & -> & ->) end.
  case_bool_decide; [by tx_inv|]. destruct (blockable _) eqn:Eb; simpl in H; tx_inv; [|done].
  match goal with H : apply_event_tx _ _ _ _ _ _ = Ok _ |- _ => rename H into Hev end.
  assert (db_inv d) as Hinv' by (eapply (apply_event_inv _ _ _ (DependencyBlocked p)); [..|exact Hev]; done).
  apply apply_event_tx_Ok in Hev as (r' & now & Hr' & Ht & _ & _ & ->).
  apply transition_blocked_source in Ht as [_ ->].
  eapply set_terminal_inv; [exact Hinv'| | |done]; [apply lookup_insert_eq|].
  by rewrite job_after_event_state.
Qed.

Lemma block_loop_inv clock fuel fr db fr' db' :
  db_inv db → block_loop clock fuel fr db = Ok (fr', db') → db_inv db'.
Proof.
  revert fr db. induction fuel as [|fuel IH]; simpl; intros fr db Hinv H.
  { destruct fr; by tx_inv. }
  destruct fr as [|p rest]; [by tx_inv|]. tx_inv.
  eapply IH; [|done]. eapply tx_fold_inv; [|exact Hinv|done].
  intros. by eapply block_successor_inv.
Qed.

Lemma block_descendants_inv clock failed db u db' :
  db_inv db → block_descendants_tx clock failed db = Ok (u, db') → db_inv db'.
Proof. unfold block_descendants_tx. intros Hinv H. tx_inv. by eapply block_loop_inv. Qed.

(** The jobs still waiting for their dependencies. *)
Definition blockable_jobs (db : RunDb) : gmap string JobRow :=
  filter (λ kr, blockable (jr_state kr.2) = true) (db_jobs db).

Lemma block_successor_measure clock p fr s db fr' db' :
  block_successor clock p fr s db = Ok (fr', db') →
  (length fr' + size (blockable_jobs db') = length fr + size (blockable_jobs db))%nat.
Proof.
  intros (r & Hr & [(Hb & -> & ->)|(Hb & -> & now & _ & Ej)])%block_successor_Ok; [done|].
  unfold blockable_jobs. rewrite Ej.
  rewrite map_filter_insert_False by done.
  rewrite map_filter_delete.
  rewrite map_size_delete_Some; [|by exists r; apply map_lookup_filter_Some].
  assert (size (filter (λ kr : string * JobRow, blockable (jr_state kr.2) = true) (db_jobs db)) ≠ 0%nat).
  { apply map_size_non_empty_iff. intros E.
    assert (filter (λ kr : string * JobRow, blockable (jr_state kr.2) = true) (db_jobs db) !! s = Some r)
      as Hs by (by apply map_lookup_filter_Some). by rewrite E, lookup_empty in Hs. }
  simpl. lia.
Qed.

Lemma block_loop_drains_aux clock fuel fr db fr' db' :
  (length fr + size (blockable_jobs db) ≤ fuel)%nat →
  block_loop clock fuel fr db = Ok (fr', db') → fr' = [].
Proof.
  revert fr db. induction fuel as [|fuel IH]; simpl; intros fr db Hle H.
  { destruct fr; [by tx_inv|simpl in Hle; lia]. }
  destruct fr as [|p rest]; [by tx_inv|]. tx_inv.
  match goal with H : tx_fold _ rest _ db = Ok (?f1, ?d1) |- _ =>
    assert (length f1 + size (blockable_jobs d1) = length rest + size (blockable_jobs db))%nat as Hm end.
  { match goal with H : tx_fold _ rest _ db = Ok _ |- _ =>
      apply (tx_fold_ind (λ _ f d, length f + size (blockable_jobs d) =
        length rest + size (blockable_jobs db))%nat) in H end; [done|done|].
    intros x l s d s1 d1 HP Hb%block_successor_measure. lia. }
  eapply IH; [|done]. simpl in Hle. lia.
Qed.

Lemma size_blockable_jobs db : (size (blockable_jobs db) ≤ size (db_jobs db))%nat.
Proof. apply map_size_filter. Qed.
