(* ===== verification/RunDbSteps.v ===== *)
(** * The run database: methods as sequences of small steps

    Every public method of [RunDb] is a sequence of the [micro] steps below
    (one event, one retry, one attempt start, one new row...).  An invariant
    is proved once per kind of step; [exec_micro] carries it to the methods. *)
From S2P Require Import Prelude Bytes State Identity Resource Estimate RunDb RunDbProofs.

Open Scope string_scope.
Open Scope Z_scope.
Open Scope list_scope.

(** Every predecessor of [id] is verified. *)
Definition all_verified (id : JobId) (db : RunDb) : Prop :=
  ∀ p, (p, id) ∈ db_dependencies db →
    ∃ r, db_jobs db !! p = Some r ∧ jr_state r = Verified.

Definition retry_event (is_resource : bool) : JobEvent :=
  if is_resource then RetryResourceExceeded else RetryExecution.

(** A call of a public method that changes the database. *)
Inductive Op :=
| OpInsertJob (logical_job_id : string) (kind : JobKind)
| OpAddDependency (predecessor successor : JobId)
| OpBeginAttempt (job : JobId) (event : JobEvent)
| OpApplyAttemptEvent (job : JobId) (attempt : AttemptId) (event : JobEvent)
| OpFailVerification (job : JobId) (attempt : AttemptId) (failure : FailureRecord)
| OpHandleAttemptFailure (job : JobId) (attempt : AttemptId) (failure : FailureRecord)
    (observation : option (ReservationKey * Z))
| OpRefreshReadiness
| OpRecoverInterrupted
| OpRecordResourcePeak (key : ReservationKey) (peak_bytes : Z)
| OpCompleteVerification (job : JobId) (attempt : AttemptId) (verifier : string)
| OpCommitArtifact (verified : VerifiedObject)
| OpCommitKey (verified : VerifiedObject).

Section Steps.

Context (clock : nat → option Z).

(** The call, with its result dropped. *)
Definition exec (op : Op) : Tx unit :=
  match op with
  | OpInsertJob logical kind => let! _ := insert_job clock logical kind in tx_ret tt
  | OpAddDependency p s => add_dependency p s
  | OpBeginAttempt job event => let! _ := begin_attempt clock job event in tx_ret tt
  | OpApplyAttemptEvent job attempt event =>
      let! _ := apply_attempt_event clock job attempt event in tx_ret tt
  | OpFailVerification job attempt failure =>
      let! _ := fail_verification clock job attempt failure in tx_ret tt
  | OpHandleAttemptFailure job attempt failure observation =>
      let! _ := handle_attempt_failure clock job attempt failure observation in tx_ret tt
  | OpRefreshReadiness => let! _ := refresh_readiness clock in tx_ret tt
  | OpRecoverInterrupted => let! _ := recover_interrupted clock in tx_ret tt
  | OpRecordResourcePeak key peak => record_resource_peak clock key peak
  | OpCompleteVerification job attempt verifier =>
      let! _ := complete_verification clock job attempt verifier in tx_ret tt
  | OpCommitArtifact v => let! _ := commit_verified_artifact clock v in tx_ret tt
  | OpCommitKey v => let! _ := commit_verified_key clock v in tx_ret tt
  end.

(** A failed call rolls its transaction back. *)
Definition apply_op (db : RunDb) (op : Op) : RunDb :=
  match exec op db with Ok (_, db') => db' | Err _ => db end.

(** The database of a run after a sequence of calls. *)
Definition run_ops (run_id : string) (ops : list Op) : RunDb :=
  fold_left apply_op ops (empty_db run_id).

(** The dependency calls of a planner: edges are added to jobs that have not
    left [Pending]. *)
Definition planned_op (db : RunDb) (op : Op) : bool :=
  match op with
  | OpAddDependency _ s =>
      match db_jobs db !! s with Some r => bool_decide (jr_state r = Pending) | None => true end
  | _ => true
  end.

Fixpoint planned_ops (db : RunDb) (ops : list Op) : bool :=
  match ops with
  | [] => true
  | op :: ops => planned_op db op && planned_ops (apply_op db op) ops
  end.

(** ** Small steps *)

(** [late] allows an edge to a job that has already left [Pending]. *)
Inductive micro (late : bool) : RunDb → RunDb → Prop :=
| micro_event id attempt event next db db' :
    is_retry event = false → starts_attempt event = false → event ≠ DependenciesSatisfied →
    apply_event_tx clock id attempt event None db = Ok (next, db') → micro late db db'
| micro_ready id next db db' :
    all_verified id db →
    apply_event_tx clock id None DependenciesSatisfied None db = Ok (next, db') → micro late db db'
| micro_retry is_resource id attempt r next db db1 db2 :
    db_jobs db !! id = Some r → jr_terminal_failure r = false →
    bump_counter is_resource id db = Ok (tt, db1) →
    apply_event_tx clock id attempt (retry_event is_resource) None db1 = Ok (next, db2) →
    micro late db db2
| micro_begin id event a db db' :
    begin_attempt clock id event db = Ok (a, db') → micro late db db'
| micro_terminal id r db :
    db_jobs db !! id = Some r → settled_failure (jr_state r) = true →
    micro late db (set_jobs (alter row_set_terminal id) db)
| micro_insert logical kind id db db' :
    insert_job clock logical kind db = Ok (id, db') → micro late db db'
| micro_dependency p s u db db' :
    (late = false → ∃ r, db_jobs db !! s = Some r ∧ jr_state r = Pending) →
    add_dependency p s db = Ok (u, db') → micro late db db'
| micro_records db db' :
    db_run_id db' = db_run_id db → db_jobs db' = db_jobs db →
    db_dependencies db' = db_dependencies db → db_attempts db' = db_attempts db →
    db_events db' = db_events db → db_verifications db `prefix_of` db_verifications db' →
    micro late db db'.

Lemma micro_inv late db db' : db_inv db → micro late db db' → db_inv db'.
Proof.
  intros Hinv Hm. destruct Hm as [id att ev next db db' Hr Hs _ H|id next db db' _ H
    |b id att r next db db1 db2 Hr Ht Hb H|id ev a db db' H|id r db Hr Hs|lg kd id db db' H
    |p s u db db' _ H|db db' E1 E2 E3 E4 E5 Hv].
  - eapply apply_event_inv; [exact Hinv|done| |exact H]. by rewrite Hr.
  - by eapply apply_event_inv; [exact Hinv|..|exact H].
  - eapply apply_event_inv; [eapply bump_counter_inv; [exact Hinv|exact Hb]| | |exact H];
      [by destruct b|].
    intros r' Hr' _. unfold bump_counter in Hb. tx_inv. simpl in Hr'.
    rewrite lookup_alter_eq, Hr in Hr'. simpl in Hr'. by destruct b; simplify_eq.
  - by eapply begin_attempt_inv.
  - by eapply (set_terminal_inv id db tt).
  - by eapply insert_job_inv.
  - by eapply add_dependency_inv.
  - destruct Hinv as [H1 H2 H3 H4]. split; rewrite ?E1, ?E2, ?E3, ?E4; try done.
    intros i r Hi. destruct (H1 _ _ Hi) as [R1 R2 R3 R4 R5 R6]. split; try done.
    intros HV. destruct Hv as [l ->]. apply Exists_app. left. by apply R5.
Qed.

Lemma micro_rtc_inv late db db' : db_inv db → rtc (micro late) db db' → db_inv db'.
Proof. intros Hinv H. induction H; [done|]. eauto using micro_inv. Qed.

(** A step that only touches the clock, the resource history, the artifact
    tables or the verification records. *)
Lemma micro_records_app late db db' l :
  db_run_id db' = db_run_id db → db_jobs db' = db_jobs db →
  db_dependencies db' = db_dependencies db → db_attempts db' = db_attempts db →
  db_events db' = db_events db → db_verifications db' = db_verifications db ++ l →
  micro late db db'.
Proof. intros. apply micro_records; try done. by exists l. Qed.

(** ** Methods as small steps *)

Context (late : bool).
Notation micros := (rtc (micro late)).

Ltac records := apply rtc_once; apply (micro_records_app late _ _ []);
  [..|symmetry; apply app_nil_r]; reflexivity.

(** The unique open attempt of a job is that of an active job. *)
Lemma require_open_Ok id a db u db' :
  require_unique_open_attempt id a db = Ok (u, db') → db' = db ∧ open_attempt_ids id db = [a].
Proof.
  unfold require_unique_open_attempt. intros H. tx_inv.
  destruct (open_attempt_ids id db) as [|x [|]] eqn:E; tx_inv.
  destruct (String.eqb_spec x a); tx_inv. by subst.
Qed.

Lemma open_attempt_elem id a db :
  a ∈ open_attempt_ids id db ↔ ∃ x, x ∈ db_attempts db ∧ open_for id x = true ∧ at_id x = a.
Proof.
  unfold open_attempt_ids, sort_ids. rewrite merge_sort_Permutation, list_elem_of_fmap.
  setoid_rewrite list_elem_of_filter. naive_solver.
Qed.

Lemma open_attempt_active id a db :
  db_inv db → a ∈ open_attempt_ids id db →
  ∃ r, db_jobs db !! id = Some r ∧ is_active (jr_state r) = true ∧ jr_terminal_failure r = false.
Proof.
  intros Hinv (x & Hx & Ho & _)%open_attempt_elem.
  pose proof (inv_attempts _ Hinv x Hx) as (r & n & Hr & _).
  pose proof Ho as [_ E]%open_for_true. rewrite E in Hr.
  exists r. split; [done|].
  destruct (inv_rows _ Hinv _ _ Hr) as [_ R2 _ _ _ R6].
  assert (at_state x ∈ open_states id (db_attempts db)) as Hin by (apply elem_of_open_states; eauto).
  rewrite R2 in Hin. destruct (is_active (jr_state r)) eqn:Eact; [|by apply not_elem_of_nil in Hin].
  split; [done|]. destruct (jr_terminal_failure r); [|done].
  specialize (R6 eq_refl). by destruct (jr_state r).
Qed.

Lemma block_successor_micro p fr s db fr' db' :
  block_successor clock p fr s db = Ok (fr', db') → micros db db'.
Proof.
  unfold block_successor. intros H. tx_inv.
  match goal with H : current_state _ _ = Ok _ |- _ =>
    apply current_state_Ok in H as (r & Hr & -> & ->) end.
  case_bool_decide; [by tx_inv|]. destruct (blockable _) eqn:Eb; simpl in H; tx_inv; [|done].
  match goal with H : apply_event_tx _ _ _ _ _ _ = Ok _ |- _ => rename H into Hev end.
  pose proof Hev as (r' & now & Hr' & Ht & _ & _ & ->)%apply_event_tx_Ok.
  apply transition_blocked_source in Ht as [_ ->].
  eapply rtc_l; [by eapply (micro_event _ _ _ (DependencyBlocked p))|].
  match goal with H : set_terminal_failure _ _ = Ok _ |- _ =>
    unfold set_terminal_failure in H; tx_inv end.
  apply rtc_once. eapply micro_terminal; [apply lookup_insert_eq|by rewrite job_after_event_state].
Qed.

Lemma tx_fold_micro {A S} (f : S → A → Tx S) l s db s' db' :
  (∀ s x d s1 d1, f s x d = Ok (s1, d1) → micros d d1) →
  tx_fold f s l db = Ok (s', db') → micros db db'.
Proof.
  intros Hf H. apply (tx_fold_inv (micros db)) in H; [done| |done].
  intros. etrans; [done|]. by eapply Hf.
Qed.

Lemma block_descendants_micro failed u db db' :
  block_descendants_tx clock failed db = Ok (u, db') → micros db db'.
Proof.
  unfold block_descendants_tx. intros H. tx_inv.
  match goal with H : block_loop _ ?n ?fr db = Ok _ |- _ => revert H; generalize fr; generalize n end.
  intros n. revert db. induction n as [|n IH]; simpl; intros db fr H.
  { destruct fr; by tx_inv. }
  destruct fr as [|p rest]; [by tx_inv|]. tx_inv.
  etrans; [eapply tx_fold_micro; [|done]; intros; by eapply block_successor_micro|by eapply IH].
Qed.

Lemma record_peak_micro key peak u db db' :
  record_resource_peak_tx clock key peak db = Ok (u, db') → micros db db'.
Proof. unfold record_resource_peak_tx. intros H. tx_inv. records. Qed.

Lemma insert_verification_micro id a verifier r db db' :
  insert_verification clock id a verifier db = Ok (r, db') → micros db db'.
Proof.
  unfold insert_verification. intros H. tx_inv.
  apply rtc_once. by eapply micro_records_app.
Qed.

Lemma require_source_Ok id a db u db' :
  require_verification_source id a db = Ok (u, db') →
  db' = db ∧ ∃ r, db_jobs db !! id = Some r ∧
    (verifies_open_attempt (jr_kind r) (jr_state r) = true ∧ open_attempt_ids id db = [a] ∨
     verifies_latest_attempt (jr_kind r) (jr_state r) = true ∧
       ∃ x, latest_attempt id db = Some x ∧ at_finished_at_unix_ms x ≠ None ∧
         at_id x = a ∧ at_state x = jr_state r).
Proof.
  unfold require_verification_source. intros H. tx_inv.
  match goal with H : job _ _ = Ok _ |- _ => apply job_Ok in H as [Hr ->] end.
  destruct (verifies_open_attempt _ _) eqn:E1; [apply require_open_Ok in H as [-> ?]; eauto 10|].
  destruct (verifies_latest_attempt _ _) eqn:E2; tx_inv.
  destruct (latest_attempt id db) as [x|] eqn:Ex; tx_inv.
  destruct (_ && _) eqn:Ec in H; tx_inv.
  apply andb_true_iff in Ec as [[Ho E3%String.eqb_eq]%andb_true_iff E4%bool_decide_eq_true].
  unfold is_open in Ho. apply negb_true_iff, bool_decide_eq_false in Ho. eauto 12.
Qed.

(** An event that is neither a retry, nor a start, nor [DependenciesSatisfied]. *)
Definition plain_event (event : JobEvent) : bool :=
  negb (is_retry event) && negb (starts_attempt event) &&
  match event with DependenciesSatisfied => false | _ => true end.

Lemma plain_event_micro id a event db next db' :
  plain_event event = true → apply_event_tx clock id a event None db = Ok (next, db') →
  micros db db'.
Proof. intros Hp H. apply rtc_once. eapply micro_event; [..|exact H]; by destruct event. Qed.

Lemma apply_attempt_event_micro id a event db next db' :
  apply_attempt_event clock id a event db = Ok (next, db') → micros db db'.
Proof.
  unfold apply_attempt_event. intros H. destruct (is_attempt_event event) eqn:E; simpl in H; tx_inv.
  match goal with H : require_unique_open_attempt _ _ _ = Ok _ |- _ =>
    apply require_open_Ok in H as [-> _] end.
  eapply plain_event_micro; [|exact H]. by destruct event.
Qed.

Lemma terminal_micro id u r db db' :
  db_jobs db !! id = Some r → settled_failure (jr_state r) = true →
  set_terminal_failure id db = Ok (u, db') → micros db db'.
Proof.
  unfold set_terminal_failure. intros Hr Hs H. tx_inv. apply rtc_once. by eapply micro_terminal.
Qed.

Lemma fail_verification_micro id a failure db next db' :
  fail_verification clock id a failure db = Ok (next, db') → micros db db'.
Proof.
  unfold fail_verification. intros H. tx_inv.
  repeat match goal with
  | H : require_verification_source _ _ _ = Ok _ |- _ => apply require_source_Ok in H as [-> _]
  | H : apply_event_tx _ _ _ _ _ _ = Ok _ |- _ => rename H into Hev
  end.
  pose proof Hev as (r & now & Hr & Ht & _ & _ & E)%apply_event_tx_Ok.
  etrans; [by eapply (plain_event_micro _ _ (EvVerificationFailed failure))|].
  etrans; [|by eapply block_descendants_micro].
  eapply terminal_micro; [by rewrite E; apply lookup_insert_eq| |done].
  rewrite job_after_event_state. by inv_transition Ht.
Qed.

Lemma observation_micro (obs : option (ReservationKey * Z)) u db db' :
  (match obs with
   | Some (key, peak) => record_resource_peak_tx clock key peak
   | None => tx_ret tt
   end) db = Ok (u, db') → micros db db' ∧ db_jobs db' = db_jobs db.
Proof.
  destruct obs as [[key peak]|]; intros H; [|by tx_inv].
  split; [by eapply record_peak_micro|]. unfold record_resource_peak_tx in H. by tx_inv.
Qed.

Lemma handle_attempt_failure_micro id a failure obs db d db' :
  db_inv db → handle_attempt_failure clock id a failure obs db = Ok (d, db') → micros db db'.
Proof.
  unfold handle_attempt_failure. intros Hinv H.
  set (is_res := bool_decide (fr_kind failure = FkResourceExceeded)) in *.
  destruct (_ || _) in H; tx_inv.
  match goal with H : require_unique_open_attempt _ _ _ = Ok _ |- _ =>
    apply require_open_Ok in H as [-> Ho] end.
  destruct (open_attempt_active id a db Hinv) as (r & Hr & Hact & Hterm); [by rewrite Ho; left|].
  match goal with H : _ db = Ok (_, ?d) |- _ => apply observation_micro in H as [Hobs Hj1] end.
  etrans; [exact Hobs|].
  match goal with H : apply_event_tx _ _ _ _ _ _ = Ok _ |- _ => rename H into Hev end.
  pose proof Hev as (r1 & now & Hr1 & Ht & _ & _ & E)%apply_event_tx_Ok.
  assert (r1 = r) as -> by congruence.
  etrans; [eapply plain_event_micro; [|exact Hev]; by destruct is_res|].
  match goal with H : job _ _ = Ok (?x, _) |- _ => rename x into r'; apply job_Ok in H as [Hr' ->] end.
  assert (jr_terminal_failure r' = false ∧ settled_failure (jr_state r') = true) as [Ht' Hs'].
  { rewrite E in Hr'. simpl in Hr'. rewrite lookup_insert_eq in Hr'. injection Hr' as <-.
    rewrite job_after_event_state, (proj2 (proj2 (proj2 (proj2 (proj2 (proj2
      (job_after_event_fields _ _ _ None))))))).
    split; [done|]. destruct is_res; by inv_transition Ht. }
  destruct (_ <? _) in H; tx_inv.
  - apply rtc_once. eapply (micro_retry _ is_res id (Some a) r'); [done..| |destruct is_res; eassumption].
    by match goal with H : bump_counter _ _ _ = Ok (?u, _) |- _ => destruct u end.
  - etrans; [by eapply terminal_micro|by eapply block_descendants_micro].
Qed.

(** ** Readiness and recovery *)

Lemma elem_of_predecessor_ids p id db :
  p ∈ predecessor_ids id db ↔ (p, id) ∈ db_dependencies db.
Proof.
  unfold predecessor_ids, sort_ids. rewrite merge_sort_Permutation, list_elem_of_fmap.
  setoid_rewrite list_elem_of_filter. split; [by intros ([??]&->&<-&?)|]. by exists (p, id).
Qed.

Lemma elem_of_successor_ids s id db :
  s ∈ successor_ids id db ↔ (id, s) ∈ db_dependencies db.
Proof.
  unfold successor_ids, sort_ids. rewrite merge_sort_Permutation, list_elem_of_fmap.
  setoid_rewrite list_elem_of_filter. split; [by intros ([??]&->&<-&?)|]. by exists (id, s).
Qed.

(** What [predecessor_states] returns. *)
Definition predecessor_rows (id : JobId) (db : RunDb) : list (JobId * JobState * bool) :=
  omap (λ p, r ← db_jobs db !! p; Some (p, jr_state r, jr_terminal_failure r)) (predecessor_ids id db).

Lemma elem_of_predecessor_rows p st t id db :
  (p, st, t) ∈ predecessor_rows id db ↔
  (p, id) ∈ db_dependencies db ∧
    ∃ r, db_jobs db !! p = Some r ∧ jr_state r = st ∧ jr_terminal_failure r = t.
Proof.
  unfold predecessor_rows. rewrite list_elem_of_omap. setoid_rewrite elem_of_predecessor_ids.
  split.
  - intros (q & Hq & E). destruct (db_jobs db !! q) eqn:Hr; naive_solver.
  - intros (Hd & r & Hr & <- & <-). exists p. by rewrite Hr.
Qed.

Lemma predecessors_verified id db :
  db_inv db →
  forallb (λ '(_, state, _), bool_decide (state = Verified)) (predecessor_rows id db) = true ↔
  all_verified id db.
Proof.
  intros Hinv. rewrite forallb_forall. split.
  - intros H p Hp. destruct (inv_dependencies _ Hinv _ _ Hp) as ([r Hr] & _).
    exists r. split; [done|].
    assert ((p, jr_state r, jr_terminal_failure r) ∈ predecessor_rows id db) as Hin
      by (apply elem_of_predecessor_rows; eauto).
    apply list_elem_of_In, H, bool_decide_eq_true in Hin. done.
  - intros H [[p st] t] Hin%list_elem_of_In. apply bool_decide_eq_true.
    apply elem_of_predecessor_rows in Hin as (Hd & r & Hr & <- & _).
    destruct (H _ Hd) as (r' & Hr' & Hv). congruence.
Qed.

Lemma refresh_one_micro n id db m db' :
  db_inv db → refresh_one clock n id db = Ok (m, db') → micros db db'.
Proof.
  unfold refresh_one, predecessor_states. intros Hinv H. tx_inv.
  change (omap _ (predecessor_ids id db)) with (predecessor_rows id db) in H.
  destruct (forallb _ _) eqn:Hv; tx_inv.
  - apply rtc_once. eapply micro_ready; [by apply predecessors_verified|done].
  - destruct (list_find _ _) as [[? [[p ?] ?]]|]; tx_inv; [|done].
    by eapply (plain_event_micro id None (DependencyBlocked p)).
Qed.

Lemma tx_fold_inv_micro {A S} (f : S → A → Tx S) l s db s' db' :
  (∀ s x d s1 d1, x ∈ l → db_inv d → f s x d = Ok (s1, d1) → micros d d1) →
  db_inv db → tx_fold f s l db = Ok (s', db') → micros db db'.
Proof.
  intros Hf Hinv H.
  apply (tx_fold_inv (λ d, db_inv d ∧ micros db d)) in H; [by destruct H| |done].
  intros s0 x d s1 d1 Hx [Hd Hm] Hs. apply Hf in Hs as Hs'; [|done..].
  split; [by eapply micro_rtc_inv|by etrans].
Qed.

Lemma refresh_readiness_micro n db db' :
  db_inv db → refresh_readiness clock db = Ok (n, db') → micros db db'.
Proof.
  unfold refresh_readiness. intros Hinv H. tx_inv.
  eapply tx_fold_inv_micro; [|done..]. eauto using refresh_one_micro.
Qed.

(** After an event whose target is not active, no attempt of the job is open. *)
Lemma attempts_closed clock' id a event count db next db' x :
  db_inv db → is_active next = false →
  apply_event_tx clock' id (Some a) event count db = Ok (next, db') →
  x ∈ db_attempts db' → at_id x = a → is_open x = false.
Proof.
  intros Hinv Hact (r & now & Hr & Ht & _ & Href & ->)%apply_event_tx_Ok Hx Hid.
  unfold state_event_references in Href. rewrite !andb_true_iff, !bool_decide_eq_true in Href.
  destruct Href as [[[_ Hex] _] _]. apply Exists_exists in Hex as (y & Hy & Eid & Ejob).
  destruct (is_open x) eqn:Eo; [|done]. exfalso. simpl in Hx.
  assert (Hopen : at_state x ∈ open_states id (attempts_after_event id (Some a) next now (db_attempts db))).
  { apply elem_of_open_states. exists x. split_and!; [done| |done].
    unfold open_for. rewrite Eo. simpl. apply String.eqb_eq.
    apply attempts_after_event_elem in Hx as (b & Hb & Eb & ->).
    pose proof (inv_attempt_ids _ Hinv) as Hnd.
    apply list_elem_of_lookup in Hb as [i Hi]. apply list_elem_of_lookup in Hy as [j Hj].
    assert (i = j) as ->; [|congruence].
    eapply (NoDup_lookup _ _ _ (at_id y) Hnd); rewrite list_lookup_fmap, ?Hi, ?Hj; simpl; congruence. }
  unfold attempts_after_event in Hopen. rewrite Hact in Hopen. simpl in Hopen.
  rewrite open_states_close, decide_True in Hopen by done. by apply not_elem_of_nil in Hopen.
Qed.

Lemma recover_one_Ok n a id st db m db' :
  db_inv db → recover_one clock n (a, id, st) db = Ok (m, db') →
  (is_active st = false ∧ m = n ∧ db' = db) ∨
  (is_active st = true ∧ m = S n ∧ ∃ next1 db1 next2 db2,
    apply_event_tx clock id (Some a) (EvInterrupted interruption) None db = Ok (next1, db1) ∧
    apply_event_tx clock id (Some a) RecoveryRequeue None db1 = Ok (next2, db2) ∧
    db' = bump_clock db2).
Proof.
  unfold recover_one. intros Hinv H. destruct (is_active st); simpl in H; tx_inv; [right|by left].
  match goal with H1 : apply_event_tx _ _ _ (EvInterrupted _) _ _ = Ok _,
    H2 : apply_event_tx _ _ _ RecoveryRequeue _ _ = Ok _ |- _ => rename H1 into Hev, H2 into Hev0 end.
  split_and!; [done..|]. eexists _, _, _, _. split_and!; [eassumption..|].
  unfold set_attempts, bump_clock. simpl. f_equal.
  apply update_where_none, Forall_forall. intros x Hx.
  destruct (String.eqb_spec (at_id x) a) as [E|]; [|done]. simpl.
  pose proof Hev0 as (r & now' & _ & Ht & _)%apply_event_tx_Ok.
  apply transition_to_active in Ht. simpl in Ht, Hx.
  refine (attempts_closed _ _ _ _ _ _ _ _ _ _ Ht Hev0 Hx E).
  eapply (apply_event_inv _ _ _ (EvInterrupted interruption)); [exact Hinv|..|exact Hev]; done.
Qed.

Lemma recover_one_micro n row db m db' :
  db_inv db → recover_one clock n row db = Ok (m, db') → micros db db'.
Proof.
  destruct row as [[a id] st].
  intros Hinv [(_ & _ & ->)|(_ & _ & n1 & d1 & n2 & d2 & H1 & H2 & ->)]%recover_one_Ok; [done| |done].
  etrans; [by eapply (plain_event_micro id _ (EvInterrupted interruption))|].
  etrans; [by eapply (plain_event_micro id _ RecoveryRequeue)|]. records.
Qed.

Lemma recover_interrupted_micro n db db' :
  db_inv db → recover_interrupted clock db = Ok (n, db') → micros db db'.
Proof.
  unfold recover_interrupted. intros Hinv H. tx_inv.
  eapply tx_fold_inv_micro; [|done..]. eauto using recover_one_micro.
Qed.

(** ** Verification *)

Lemma verification_event_micro id a verifier vn db d next db' :
  insert_verification clock id a verifier db = Ok (vn, d) →
  apply_event_tx clock id (Some a) (VerificationSucceeded (Some vn.1)) None d = Ok (next, db') →
  micros db db'.
Proof.
  intros H1 H2. etrans; [by eapply insert_verification_micro|].
  by eapply (plain_event_micro id _ (VerificationSucceeded (Some vn.1))).
Qed.

Lemma complete_verification_micro id a verifier db next db' :
  complete_verification clock id a verifier db = Ok (next, db') → micros db db'.
Proof.
  unfold complete_verification, validate_text_id. intros H. tx_inv.
  match goal with H : job _ _ = Ok _ |- _ => apply job_Ok in H as [Hr ->] end.
  destruct (bool_decide _) in H; simpl in H; tx_inv.
  match goal with H : require_verification_source _ _ _ = Ok _ |- _ =>
    apply require_source_Ok in H as [-> _] end.
  match goal with a : _ * _ |- _ => destruct a as [v now] end.
  by eapply (verification_event_micro _ _ _ (v, now)).
Qed.

(** The part of the database a commit leaves to [insert_verification] and the event. *)
Lemma artifact_event_micro id a verifier vn db d d' next db' :
  insert_verification clock id a verifier db = Ok (vn, d) →
  db_run_id d' = db_run_id d → db_jobs d' = db_jobs d → db_dependencies d' = db_dependencies d →
  db_attempts d' = db_attempts d → db_events d' = db_events d →
  db_verifications d' = db_verifications d →
  apply_event_tx clock id (Some a) (VerificationSucceeded (Some vn.1)) None d' = Ok (next, db') →
  micros db db'.
Proof.
  intros H1 E1 E2 E3 E4 E5 E6 H2. etrans; [by eapply insert_verification_micro|].
  etrans; [apply rtc_once; eapply (micro_records_app _ _ d' []); rewrite ?app_nil_r; done|].
  by eapply (plain_event_micro id _ (VerificationSucceeded (Some vn.1))).
Qed.

Ltac commit_inv :=
  repeat match goal with
  | H : tx_store _ _ = Ok _ |- _ => unfold tx_store in H; tx_inv
  | H : job _ _ = Ok _ |- _ => apply job_Ok in H as [? ->]
  | H : require_verification_source _ _ _ = Ok _ |- _ => apply require_source_Ok in H as [-> _]
  | H : (if ?b then _ else _) _ = Ok _ |- _ => destruct b eqn:?; simpl in H; tx_inv
  end.

Lemma commit_verified_artifact_micro v db next db' :
  commit_verified_artifact clock v db = Ok (next, db') → micros db db'.
Proof.
  unfold commit_verified_artifact. intros H. tx_inv. commit_inv.
  match goal with a : _ * _ |- _ => destruct a as [vn now] end. tx_inv.
  eapply (artifact_event_micro _ _ _ (vn, now)); [eassumption| | | | | | |exact H]; done.
Qed.

Lemma commit_verified_key_micro v db next db' :
  commit_verified_key clock v db = Ok (next, db') → micros db db'.
Proof.
  unfold commit_verified_key. intros H. tx_inv. commit_inv.
  match goal with a : _ * _ |- _ => destruct a as [vn now] end. tx_inv.
  eapply (artifact_event_micro _ _ _ (vn, now)); [eassumption| | | | | | |exact H]; done.
Qed.

(** ** Every method *)

Lemma exec_micro op db u db' :
  db_inv db → (late = false → planned_op db op = true) →
  exec op db = Ok (u, db') → micros db db'.
Proof.
  intros Hinv Hplan H. destruct op; simpl in H; tx_inv.
  - apply rtc_once. by eapply micro_insert.
  - pose proof H as (_ & [r Hr] & _)%add_dependency_Ok.
    apply rtc_once. eapply micro_dependency; [|exact H]. intros Hl. exists r. split; [done|].
    specialize (Hplan Hl). simpl in Hplan. rewrite Hr in Hplan. by apply bool_decide_eq_true in Hplan.
  - apply rtc_once. by eapply micro_begin.
  - by eapply apply_attempt_event_micro.
  - by eapply fail_verification_micro.
  - by eapply handle_attempt_failure_micro.
  - by eapply refresh_readiness_micro.
  - by eapply recover_interrupted_micro.
  - by eapply record_peak_micro.
  - by eapply complete_verification_micro.
  - by eapply commit_verified_artifact_micro.
  - by eapply commit_verified_key_micro.
Qed.

Lemma apply_op_micro op db :
  db_inv db → (late = false → planned_op db op = true) → micros db (apply_op db op).
Proof.
  intros Hinv Hplan. unfold apply_op. destruct (exec op db) as [[u db']|] eqn:E; [|done].
  by eapply exec_micro.
Qed.

Lemma fold_ops_micro ops db :
  db_inv db → (late = false → planned_ops db ops = true) →
  micros db (fold_left (apply_op) ops db).
Proof.
  revert db. induction ops as [|op ops IH]; simpl; intros db Hinv Hplan; [done|].
  assert (Hop : late = false → planned_op db op = true ∧ planned_ops (apply_op db op) ops = true)
    by (intros Hl; apply andb_true_iff; auto).
  assert (micros db (apply_op db op)) as Hm by (apply apply_op_micro; [done|apply Hop]).
  etrans; [exact Hm|]. apply IH; [by eapply micro_rtc_inv|apply Hop].
Qed.

End Steps.

Lemma run_ops_micro clock run_id ops :
  rtc (micro clock true) (empty_db run_id) (run_ops clock run_id ops).
Proof. unfold run_ops. apply fold_ops_micro; [apply empty_db_inv|done]. Qed.

(** ** A concrete run *)

Definition demo_clock (n : nat) : option Z := Some (Z.of_nat n).

Definition demo_digest : Digest32 := replicate 32 (byte_of_Z 7).

Definition demo_artifact : VerifiedObject :=
  mkVerifiedObject "r" "r:w" "r:w:attempt:1" "native" (Some "artifact-1") Witness demo_digest
    demo_digest 10 demo_digest demo_digest (mkObjectChecks (Ok tt) (Ok tt) (Ok tt) (Ok tt)).

(** Two jobs and an edge; the first is attempted, verified and committed, and
    the second becomes ready. *)
Definition demo_ops : list Op :=
  [ OpInsertJob "w" Witness; OpInsertJob "v" LeafVerification; OpAddDependency "r:w" "r:v";
    OpRefreshReadiness; OpBeginAttempt "r:w" StartWitnessing;
    OpApplyAttemptEvent "r:w" "r:w:attempt:1" WitnessCompleted;
    OpCommitArtifact demo_artifact; OpRefreshReadiness ].

Definition demo_db : RunDb := run_ops demo_clock "r" demo_ops.

Example demo_states :
  (jr_state <$> db_jobs demo_db !! "r:w", jr_state <$> db_jobs demo_db !! "r:v",
   length (db_events demo_db)) = (Some Verified, Some Ready, 5%nat).
Proof. vm_compute. reflexivity. Qed.

Lemma demo_inv ops : db_inv (run_ops demo_clock "r" ops).
Proof. eapply micro_rtc_inv; [apply empty_db_inv|apply run_ops_micro]. Qed.
