(* ===== verification/RunDbSafety.v ===== *)
(** * The run database: what every reachable database satisfies

    The table invariant, the event log as a complete history of each job, and
    the safety of the dependency gate, for every sequence of method calls. *)
From S2P Require Import Prelude Bytes State Identity Resource Estimate RunDb RunDbProofs RunDbSteps.

Open Scope string_scope.
Open Scope Z_scope.
Open Scope list_scope.

(** ** The event log *)

Definition events_of (id : JobId) (events : list StateEventRow) : list StateEventRow :=
  filter (λ e, se_job e = id) events.

Definition attempts_of (id : JobId) (attempts : list AttemptRow) : list AttemptRow :=
  filter (λ a, at_job a = id) attempts.

(** The rows lead from one state to another, each starting where the last ended. *)
Fixpoint chain (from : JobState) (events : list StateEventRow) (to : JobState) : Prop :=
  match events with
  | [] => from = to
  | e :: events => se_from_state e = from ∧ chain (se_to_state e) events to
  end.

Definition count_type (name : string) (events : list StateEventRow) : Z :=
  Z.of_nat (length (filter (λ e, se_event_type e = name) events)).

(** A row of [state_events] records a transition of the state machine. *)
Definition logged (e : StateEventRow) : Prop :=
  ∃ event, transition (se_from_state e) event = Ok (se_to_state e) ∧
    se_event_type e = event_name event ∧ se_failure e = event_failure event ∧
    se_blocking_predecessor_id e = event_blocking_predecessor event ∧
    se_verification_record_id e = event_verification_record event.

Record row_log (id : JobId) (r : JobRow) (events : list StateEventRow)
    (attempts : list AttemptRow) : Prop := {
  rl_chain : chain Pending (events_of id events) (jr_state r);
  rl_retries : count_type "retry-execution" (events_of id events) = jr_execution_retries r;
  rl_requeues : count_type "retry-resource-exceeded" (events_of id events) = jr_resource_requeues r;
  rl_attempts : Z.of_nat (length (attempts_of id attempts)) = jr_attempt_count r
}.

Record log_inv (db : RunDb) : Prop := {
  li_events : ∀ e, e ∈ db_events db → is_Some (db_jobs db !! se_job e) ∧ logged e;
  li_attempts : ∀ a, a ∈ db_attempts db → is_Some (db_jobs db !! at_job a);
  li_rows : ∀ id r, db_jobs db !! id = Some r → row_log id r (db_events db) (db_attempts db)
}.

Lemma chain_app s l1 l2 t : chain s (l1 ++ l2) t ↔ ∃ m, chain s l1 m ∧ chain m l2 t.
Proof. revert s. induction l1 as [|e l IH]; simpl; intros s; [naive_solver|]. rewrite IH. naive_solver. Qed.

Lemma count_type_app name l1 l2 : count_type name (l1 ++ l2) = count_type name l1 + count_type name l2.
Proof. unfold count_type. rewrite filter_app, length_app. lia. Qed.

Lemma events_of_app id l1 l2 : events_of id (l1 ++ l2) = events_of id l1 ++ events_of id l2.
Proof. apply filter_app. Qed.

Lemma attempts_of_length id f l :
  at_job <$> f = at_job <$> l → length (attempts_of id f) = length (attempts_of id l).
Proof.
  assert (E : ∀ k, length (attempts_of id k) = length (filter (λ j, j = id) (at_job <$> k))).
  { intros k. induction k as [|a k IH]; [done|]. unfold attempts_of in *. simpl.
    rewrite !filter_cons. simpl. case_decide; simpl; by rewrite IH. }
  rewrite !E. by intros ->.
Qed.

Lemma attempts_after_event_jobs id a next now l :
  at_job <$> attempts_after_event id a next now l = at_job <$> l.
Proof.
  unfold attempts_after_event. destruct (negb _); [by apply update_where_map_same|].
  destruct a; [by apply update_where_map_same|done].
Qed.

Definition b2z (b : bool) : Z := if b then 1 else 0.

(** One event of one job extends the log by one row. *)
Lemma log_inv_event db db' id r r' a event next now :
  log_inv db → db_jobs db !! id = Some r → transition (jr_state r) event = Ok next →
  db_jobs db' = <[id := r']> (db_jobs db) →
  db_events db' = db_events db ++ [event_row id a event (jr_state r) next now] →
  jr_state r' = next →
  jr_execution_retries r' = jr_execution_retries r + b2z (bool_decide (event = RetryExecution)) →
  jr_resource_requeues r' = jr_resource_requeues r + b2z (bool_decide (event = RetryResourceExceeded)) →
  (∀ x, x ∈ db_attempts db' → is_Some (db_jobs db' !! at_job x)) →
  (∀ j, Z.of_nat (length (attempts_of j (db_attempts db'))) =
    Z.of_nat (length (attempts_of j (db_attempts db))) +
      if decide (j = id) then jr_attempt_count r' - jr_attempt_count r else 0) →
  log_inv db'.
Proof.
  intros [HE HA HR] Hr Ht Ej Ee Es Ex Eq Hatt Hlen.
  pose proof (HR _ _ Hr) as [C1 C2 C3 C4]. split; [|done|].
  - intros e. rewrite Ee, elem_of_app, list_elem_of_singleton, Ej, lookup_insert_is_Some'.
    intros [He| ->]; [destruct (HE e He); auto|]. split; [by left|]. by exists event.
  - intros i ri Hi. rewrite Ee. rewrite Ej in Hi. specialize (Hlen i).
    destruct (decide (i = id)) as [->|Hne].
    + rewrite lookup_insert_eq in Hi. injection Hi as <-.
      assert (En : events_of id [event_row id a event (jr_state r) next now] =
                   [event_row id a event (jr_state r) next now])
        by (unfold events_of; rewrite filter_cons_True; done).
      split; rewrite ?events_of_app, ?En, ?count_type_app.
      * apply chain_app. eexists. by split.
      * rewrite C2, Ex. f_equal. destruct event; reflexivity.
      * rewrite C3, Eq. f_equal. destruct event; reflexivity.
      * lia.
    + rewrite lookup_insert_ne in Hi by done. destruct (HR _ _ Hi) as [D1 D2 D3 D4].
      assert (En : events_of i [event_row id a event (jr_state r) next now] = [])
        by (unfold events_of; rewrite filter_cons_False; [done|by intros E; apply Hne; rewrite <-E]).
      split; rewrite ?events_of_app, ?En, ?app_nil_r; try done. lia.
Qed.

(** The event of [apply_event_tx], the row having been changed from [r0] to
    [r] just before (a retry counter). *)
Lemma log_inv_apply clock id a event db0 r0 r db next db' :
  log_inv db0 → starts_attempt event = false →
  db_jobs db0 !! id = Some r0 → jr_state r = jr_state r0 → jr_attempt_count r = jr_attempt_count r0 →
  jr_execution_retries r =
    jr_execution_retries r0 + b2z (bool_decide (event = RetryExecution)) →
  jr_resource_requeues r =
    jr_resource_requeues r0 + b2z (bool_decide (event = RetryResourceExceeded)) →
  db_jobs db = <[id := r]> (db_jobs db0) → db_events db = db_events db0 →
  db_attempts db = db_attempts db0 →
  apply_event_tx clock id a event None db = Ok (next, db') → log_inv db'.
Proof.
  intros Hinv Hs Hr Es Ec Ex Eq Ej Ee Ea (r1 & now & Hr1 & Ht & _ & _ & ->)%apply_event_tx_Ok.
  rewrite Ej, lookup_insert_eq in Hr1. injection Hr1 as <-. rewrite Es in Ht.
  destruct (job_after_event_fields r next event None) as (_ & _ & Fs & Fa & Fe & Fq & _). simpl in Fa.
  eapply (log_inv_event db0 _ id r0 (job_after_event r next event None) a event next now); try done.
  - simpl. by rewrite Ej, insert_insert_eq.
  - simpl. by rewrite Ee, Es.
  - congruence.
  - congruence.
  - simpl. rewrite Ea. intros x (b & Hb & _ & ->)%attempts_after_event_elem.
    rewrite Ej, insert_insert_eq. apply lookup_insert_is_Some'. right. by apply (li_attempts _ Hinv).
  - intros j. rewrite Fa. simpl. rewrite Ea, (attempts_of_length j _ _ (attempts_after_event_jobs _ _ _ _ _)).
    destruct (decide (j = id)); lia.
Qed.

Lemma log_inv_ext db db' :
  db_jobs db' = db_jobs db → db_events db' = db_events db → db_attempts db' = db_attempts db →
  log_inv db → log_inv db'.
Proof. intros E1 E2 E3 [HE HA HR]. by split; rewrite ?E1, ?E2, ?E3. Qed.

Lemma log_inv_begin clock id event a db db' :
  log_inv db → begin_attempt clock id event db = Ok (a, db') → log_inv db'.
Proof.
  intros Hinv (r & next & [])%begin_attempt_Ok.
  destruct be_events as [now Ee], be_attempts as [t Ea].
  destruct (job_after_event_fields r next event (Some (jr_attempt_count r + 1)))
    as (_ & _ & Fs & Fa & Fe & Fq & _). simpl in Fa.
  eapply (log_inv_event db _ id r _ (Some a) event next now); try done.
  - rewrite Fe. by destruct event; simpl; rewrite ?Z.add_0_r.
  - rewrite Fq. by destruct event; simpl; rewrite ?Z.add_0_r.
  - intros x. rewrite Ea, be_jobs, elem_of_app, list_elem_of_singleton, lookup_insert_is_Some'.
    intros [Hx| ->]; [right; by apply (li_attempts _ Hinv)|by left].
  - intros j. rewrite Ea, Fa. unfold attempts_of. rewrite filter_app, length_app.
    case_decide as Hj; [subst; rewrite filter_cons_True by done; simpl; lia|].
    rewrite filter_cons_False by (simpl; congruence). simpl. lia.
Qed.

Lemma log_inv_insert clock logical kind id db db' :
  log_inv db → insert_job clock logical kind db = Ok (id, db') → log_inv db'.
Proof.
  intros [HE HA HR] H. unfold insert_job, validate_text_id in H. tx_inv.
  rewrite bool_decide_eq_true in Hc, Hc0. change (db_jobs (bump_clock db)) with (db_jobs db) in Hc0.
  split; simpl.
  - intros e He. rewrite lookup_insert_is_Some'. destruct (HE e He). auto.
  - intros x Hx. rewrite lookup_insert_is_Some'. auto.
  - intros i r Hi. destruct (decide (i = db_run_id db +:+ ":" +:+ logical)) as [->|Hne].
    + rewrite lookup_insert_eq in Hi. injection Hi as <-. set (id := db_run_id db +:+ _) in *.
      assert (E1 : events_of id (db_events db) = []).
      { apply filter_nil_iff. intros e He Ej. destruct (HE e He) as [Hs _].
        cbv beta in Ej. rewrite Ej, Hc0 in Hs. by destruct Hs. }
      assert (E2 : attempts_of id (db_attempts db) = []).
      { apply filter_nil_iff. intros x Hx Ej. specialize (HA x Hx). cbv beta in Ej. rewrite Ej, Hc0 in HA. by destruct HA. }
      split; simpl; by rewrite ?E1, ?E2.
    + rewrite lookup_insert_ne in Hi by done. by apply HR.
Qed.

Lemma micro_log clock late db db' : log_inv db → micro clock late db db' → log_inv db'.
Proof.
  intros Hinv Hm. destruct Hm as [id att ev next db db' Hr Hs _ H|id next db db' _ H
    |b id att r next db db1 db2 Hr Ht Hb H|id ev a db db' H|id r db Hr Hs|lg kd id db db' H
    |p s u db db' _ H|db db' E1 E2 E3 E4 E5 Hv].
  - pose proof H as (r & _ & Hr0 & _)%apply_event_tx_Ok.
    eapply (log_inv_apply clock id att ev db r r db); try done; try by rewrite insert_id.
    all: destruct ev; simpl in *; try done; lia.
  - pose proof H as (r & _ & Hr0 & _)%apply_event_tx_Ok.
    eapply (log_inv_apply clock id None DependenciesSatisfied db r r db); try done;
      try by rewrite insert_id. all: simpl; lia.
  - unfold bump_counter in Hb. tx_inv.
    eapply (log_inv_apply clock id att (retry_event b) db r
      ((if b then row_bump_requeues else row_bump_retries) r)); try exact H; try done.
    all: try (simpl; by apply alter_as_insert). all: destruct b; simpl; try done; lia.
  - by eapply log_inv_begin.
  - destruct Hinv as [HE HA HR]. unfold set_jobs. rewrite (alter_as_insert _ _ _ r) by done.
    split; simpl.
    + intros e He. rewrite lookup_insert_is_Some'. destruct (HE e He). auto.
    + intros x Hx. rewrite lookup_insert_is_Some'. auto.
    + intros i ri Hi. destruct (decide (id = i)) as [<-|Hne].
      * rewrite lookup_insert_eq in Hi. injection Hi as <-. by destruct (HR _ _ Hr).
      * rewrite lookup_insert_ne in Hi by done. by apply HR.
  - by eapply log_inv_insert.
  - apply add_dependency_Ok in H as (_ & _ & _ & _ & ->). by eapply log_inv_ext; [..|exact Hinv].
  - by eapply log_inv_ext; [..|exact Hinv].
Qed.

(** ** The dependency gate *)

(** A job past the gate: it left pending, and was not blocked. *)
Definition past_gate (id : JobId) (db : RunDb) : Prop :=
  ∃ r, db_jobs db !! id = Some r ∧ jr_state r ≠ Pending ∧ jr_state r ≠ Blocked.

Lemma transition_from_verified e s : transition Verified e ≠ Ok s.
Proof. intros H. inv_transition H. Qed.

Lemma transition_from_gate s e next :
  transition s e = Ok next → s = Pending ∨ s = Blocked → next ≠ Blocked →
  e = DependenciesSatisfied.
Proof. intros H Hs Hn. inv_transition H; naive_solver. Qed.

Section Gate.

(** The edges the gate does not vouch for. *)
Context (late : JobId → JobId → Prop).

Definition dep_inv (db : RunDb) : Prop :=
  ∀ id p, past_gate id db → (p, id) ∈ db_dependencies db →
    late p id ∨ ∃ rp, db_jobs db !! p = Some rp ∧ jr_state rp = Verified.

(** One event of one job keeps the gate closed, if [DependenciesSatisfied] is
    applied only when every predecessor is verified. *)
Lemma dep_inv_event db db' id r r' event :
  dep_inv db → db_jobs db !! id = Some r → transition (jr_state r) event = Ok (jr_state r') →
  (event = DependenciesSatisfied → all_verified id db) →
  db_jobs db' = <[id := r']> (db_jobs db) → db_dependencies db' = db_dependencies db →
  dep_inv db'.
Proof.
  intros Hdep Hr Ht Hsat Ej Ed i p (ri & Hi & Hp & Hb) Hps. rewrite Ed in Hps. rewrite Ej in Hi |- *.
  assert (late p i ∨ ∃ rp, db_jobs db !! p = Some rp ∧ jr_state rp = Verified) as [?|(rp & Hrp & Hv)];
    [|by left|].
  { destruct (decide (id = i)) as [<-|Hne].
    - rewrite lookup_insert_eq in Hi. injection Hi as <-.
      destruct (decide (jr_state r = Pending ∨ jr_state r = Blocked)) as [Hs|Hs].
      + right. apply (Hsat (transition_from_gate _ _ _ Ht Hs Hb)), Hps.
      + apply (Hdep id); [|done]. exists r. naive_solver.
    - rewrite lookup_insert_ne in Hi by done. apply (Hdep i); [|done]. by exists ri. }
  right. exists rp. split; [|done]. rewrite lookup_insert_ne; [done|]. intros ->.
  assert (rp = r) as -> by congruence. rewrite Hv in Ht. by apply transition_from_verified in Ht.
Qed.

(** The rows' states and the edges are all the gate reads. *)
Lemma dep_inv_states db db' :
  (∀ id r', db_jobs db' !! id = Some r' → jr_state r' ≠ Pending →
    ∃ r, db_jobs db !! id = Some r ∧ jr_state r = jr_state r') →
  (∀ id r, db_jobs db !! id = Some r → ∃ r', db_jobs db' !! id = Some r' ∧ jr_state r' = jr_state r) →
  db_dependencies db' = db_dependencies db → dep_inv db → dep_inv db'.
Proof.
  intros Hb Hf Ed Hdep id p (r' & Hr' & Hp & Hbl) Hps. rewrite Ed in Hps.
  destruct (Hb _ _ Hr' Hp) as (r & Hr & E). rewrite <-E in *.
  destruct (Hdep id p (ex_intro _ r (conj Hr (conj Hp Hbl))) Hps) as [?|(rp & Hrp & Hv)]; [by left|].
  right. destruct (Hf _ _ Hrp) as (rp' & Hrp' & E'). exists rp'. by rewrite E'.
Qed.

Lemma dep_inv_same_states db db' f id :
  (∀ r, jr_state (f r) = jr_state r) → db_jobs db' = alter f id (db_jobs db) →
  db_dependencies db' = db_dependencies db → dep_inv db → dep_inv db'.
Proof.
  intros Hf Ej. apply dep_inv_states; rewrite Ej; intros i r Hi.
  - intros _. rewrite lookup_alter in Hi. case_decide; [|eauto]. subst.
    destruct (db_jobs db !! i) as [r0|]; [|done]. simplify_eq/=. eauto.
  - rewrite lookup_alter. case_decide; [|eauto]. subst. rewrite Hi. simpl. eauto.
Qed.

Lemma micro_dep clock db db' : dep_inv db → micro clock false db db' → dep_inv db'.
Proof.
  intros Hinv Hm. destruct Hm as [id att ev next db db' Hr Hs Hne H|id next db db' Hv H
    |b id att r next db db1 db2 Hr Ht Hb H|id ev a db db' H|id r db Hr Hs|lg kd id db db' H
    |p s u db db' Hpend H|db db' E1 E2 E3 E4 E5 Hv].
  - apply apply_event_tx_Ok in H as (r & now & Hr0 & Ht & _ & _ & ->).
    eapply (dep_inv_event db _ id r); [done..| |done|done|done]. by rewrite job_after_event_state.
  - apply apply_event_tx_Ok in H as (r & now & Hr0 & Ht & _ & _ & ->).
    eapply (dep_inv_event db _ id r _ DependenciesSatisfied); [done..| |done|done|done].
    by rewrite job_after_event_state.
  - assert (dep_inv db1) as Hinv1.
    { unfold bump_counter in Hb. tx_inv. eapply dep_inv_same_states; [|reflexivity|done..].
      by destruct b. }
    apply apply_event_tx_Ok in H as (r1 & now & Hr1 & Ht1 & _ & _ & ->).
    eapply (dep_inv_event db1 _ id r1); [done..| | |done|done]; [by rewrite job_after_event_state|].
    by destruct b.
  - apply begin_attempt_Ok in H as (r & next & []).
    eapply (dep_inv_event db _ id r _ ev); [done..| | |done|done].
    + by rewrite job_after_event_state.
    + by intros ->.
  - by eapply dep_inv_same_states; [|reflexivity|done..].
  - unfold insert_job, validate_text_id in H. tx_inv. rewrite bool_decide_eq_true in *.
    eapply dep_inv_states; [..|exact Hinv]; simpl; [| |done].
    + intros i r. rewrite lookup_insert. case_decide; [by intros [= <-]|eauto].
    + intros i r Hi. exists r. rewrite lookup_insert_ne; [done|]. intros <-.
      match goal with H : db_jobs (bump_clock db) !! _ = None |- _ => simpl in H end. congruence.
  - destruct (Hpend eq_refl) as (rs & Hrs & Hst).
    apply add_dependency_Ok in H as (_ & _ & _ & _ & ->).
    intros i q (r & Hi & Hp & Hb) Hq. simpl in *. apply elem_of_app in Hq as [Hq|Hq].
    + apply (Hinv i); [|done]. by exists r.
    + apply list_elem_of_singleton in Hq. simplify_eq.
  - eapply dep_inv_states; [..|exact Hinv]; rewrite ?E2; eauto.
Qed.

Lemma micros_dep clock db db' : dep_inv db → rtc (micro clock false) db db' → dep_inv db'.
Proof. intros Hd H. induction H; [done|]. eauto using micro_dep. Qed.

(** One call: an edge added to a job past the gate must be one the gate does
    not vouch for. *)
Lemma apply_op_dep clock op db :
  db_inv db → dep_inv db → (∀ p s, op = OpAddDependency p s → past_gate s db → late p s) →
  dep_inv (apply_op clock db op).
Proof.
  intros Hinv Hd Hlate. destruct (planned_op db op) eqn:Hp.
  { eapply micros_dep; [exact Hd|]. by apply apply_op_micro. }
  destruct op as [|p s| | | | | | | | | |]; try discriminate. unfold apply_op, exec.
  destruct (add_dependency p s db) as [[u db']|] eqn:E; [|done].
  apply add_dependency_Ok in E as (_ & _ & _ & _ & ->).
  intros i q Hg Hq. simpl in *. apply elem_of_app in Hq as [Hq|Hq]; [by apply (Hd i)|].
  apply list_elem_of_singleton in Hq. simplify_eq. left. by apply Hlate.
Qed.

Lemma empty_dep_inv run_id : dep_inv (empty_db run_id).
Proof. intros id p (r & Hr & _). simpl in Hr. by rewrite lookup_empty in Hr. Qed.

End Gate.

Lemma dep_inv_weaken (late late' : JobId → JobId → Prop) db :
  (∀ p s, late p s → late' p s) → dep_inv late db → dep_inv late' db.
Proof. intros H Hd id p Hg Hp. destruct (Hd id p Hg Hp); eauto. Qed.

(** A verified job stays verified. *)
Lemma micro_verified clock late db db' id r :
  micro clock late db db' → db_jobs db !! id = Some r → jr_state r = Verified →
  ∃ r', db_jobs db' !! id = Some r' ∧ jr_state r' = Verified.
Proof.
  assert (Hev : ∀ j a e n d d', apply_event_tx clock j a e n d = Ok d' →
    ∀ i ri, db_jobs d !! i = Some ri → jr_state ri = Verified → db_jobs d'.2 !! i = Some ri).
  { intros j a e n d [nx d'] (rj & now & Hj & Ht & _ & _ & ->)%apply_event_tx_Ok i ri Hi Hv. simpl.
    rewrite lookup_insert_ne; [done|]. intros ->. assert (rj = ri) as -> by congruence.
    rewrite Hv in Ht. by apply transition_from_verified in Ht. }
  intros Hm Hr Hv. destruct Hm as [j att ev next db db' _ _ _ H|j next db db' _ H
    |b j att rj next db db1 db2 Hrj Ht Hb H|j ev a db db' H|j rj db Hrj Hs|lg kd j db db' H
    |p s u db db' _ H|db db' E1 E2 E3 E4 E5 _].
  - exists r. split; [|done]. by eapply (Hev _ _ _ _ _ _ H).
  - exists r. split; [|done]. by eapply (Hev _ _ _ _ _ _ H).
  - unfold bump_counter in Hb. tx_inv. simpl in *.
    set (r1 := if decide (j = id) then (if b then row_bump_requeues else row_bump_retries) r else r).
    assert (jr_state r1 = Verified) as Hv1 by (unfold r1; case_decide; by destruct b).
    exists r1. split; [|done]. apply (Hev _ _ _ _ _ _ H id r1); [|done]. simpl.
    rewrite lookup_alter. unfold r1. case_decide; [subst|]; by rewrite Hr.
  - apply begin_attempt_Ok in H as (rj & next & []). exists r. split; [|done].
    rewrite be_jobs, lookup_insert_ne; [done|]. intros ->. assert (rj = r) as -> by congruence.
    rewrite Hv in be_next. by apply transition_from_verified in be_next.
  - simpl. rewrite lookup_alter. case_decide; [|eauto]. subst. rewrite Hr. simpl. eauto.
  - unfold insert_job, validate_text_id in H. tx_inv. rewrite bool_decide_eq_true in *.
    exists r. split; [|done]. simpl. rewrite lookup_insert_ne; [done|]. intros <-.
    match goal with H : db_jobs (bump_clock db) !! _ = None |- _ => simpl in H end. congruence.
  - apply add_dependency_Ok in H as (_ & _ & _ & _ & ->). eauto.
  - rewrite E2. eauto.
Qed.

(** ** Every reachable database *)

Section Reachable.

Context (clock : nat → option Z).

(** The edge was added by a call made when its successor was past the gate. *)
Definition added_late (run_id : string) (ops : list Op) (p s : JobId) : Prop :=
  ∃ before after, ops = before ++ OpAddDependency p s :: after ∧
    past_gate s (run_ops clock run_id before).

Lemma run_ops_gate run_id ops : dep_inv (added_late run_id ops) (run_ops clock run_id ops).
Proof.
  induction ops as [|op ops IH] using rev_ind.
  { apply empty_dep_inv. }
  unfold run_ops. rewrite fold_left_app. simpl. apply apply_op_dep.
  - eapply micro_rtc_inv; [apply empty_db_inv|apply run_ops_micro].
  - eapply dep_inv_weaken; [|exact IH]. intros p s (before & after & -> & Hg).
    exists before, (after ++ [op]). by rewrite <-app_assoc.
  - intros p s -> Hg. by exists ops, [].
Qed.

Lemma micros_log late db db' : log_inv db → rtc (micro clock late) db db' → log_inv db'.
Proof. intros Hd H. induction H; [done|]. eauto using micro_log. Qed.

Lemma micros_verified late db db' id r :
  rtc (micro clock late) db db' → db_jobs db !! id = Some r → jr_state r = Verified →
  ∃ r', db_jobs db' !! id = Some r' ∧ jr_state r' = Verified.
Proof.
  intros H. revert r. induction H as [|d d1 d2 Hm _ IH]; [eauto|]. intros r Hr Hv.
  destruct (micro_verified _ _ _ _ _ _ Hm Hr Hv) as (r1 & Hr1 & Hv1). by eapply IH.
Qed.

Lemma empty_log_inv run_id : log_inv (empty_db run_id).
Proof. split; simpl; try done; intros ? H; by apply not_elem_of_nil in H. Qed.

(** C1. Whatever methods are called, in whatever order and with whatever
    arguments, failing calls included, the tables stay consistent: job ids are
    valid and namespaced by the run; a job has exactly one open attempt, in the
    job's own state, while it is active and none otherwise; its state is one
    its kind passes through; the retry counters stay within 2 and 3 and the
    attempt counter within u32; a verified job has a verification record; a
    terminal job is in a failed or blocked state; attempt ids are unique and
    number their job's attempts; dependencies join two distinct jobs of the run. *)
Theorem run_database_invariant (run_id : string) (ops : list Op) :
  db_inv (run_ops clock run_id ops).
Proof. eapply micro_rtc_inv; [apply empty_db_inv|apply run_ops_micro]. Qed.

(** C32. The event log is a complete and exact history: every row is a
    transition of the state machine, the rows of one job form a chain from
    pending to its current state, the retry counters are the numbers of retry
    events logged, and the attempt counter is the number of attempts. *)
Theorem event_log_replays (run_id : string) (ops : list Op) :
  log_inv (run_ops clock run_id ops).
Proof. eapply micros_log; [apply empty_log_inv|apply run_ops_micro]. Qed.

(** C2. The dependency gate: in every database the methods can reach, every
    predecessor of a job that has left pending without being blocked is verified,
    but for the edges that were themselves added to the job after it had left:
    [add_dependency] does not look at the state of the successor, nor
    [begin_attempt] at the edges of the job. *)
Theorem dependencies_verified_first (run_id : string) (ops : list Op) (id p : JobId) (r : JobRow)
    (Hjob : db_jobs (run_ops clock run_id ops) !! id = Some r)
    (Hleft : jr_state r ≠ Pending ∧ jr_state r ≠ Blocked)
    (Hedge : (p, id) ∈ db_dependencies (run_ops clock run_id ops)) :
  (∃ rp, db_jobs (run_ops clock run_id ops) !! p = Some rp ∧ jr_state rp = Verified) ∨
  (∃ before after r0, ops = before ++ OpAddDependency p id :: after ∧
     db_jobs (run_ops clock run_id before) !! id = Some r0 ∧
     jr_state r0 ≠ Pending ∧ jr_state r0 ≠ Blocked).
Proof.
  destruct (run_ops_gate run_id ops id p) as [(before & after & E & (r0 & H0 & H))|Hv]; [by exists r|done| |by left].
  right. by exists before, after, r0.
Qed.

(** A plan that adds its edges only to pending jobs has no late edge. *)
Theorem planned_dependencies_verified (run_id : string) (ops : list Op) (id p : JobId)
    (Hplan : planned_ops clock (empty_db run_id) ops = true)
    (Hleft : past_gate id (run_ops clock run_id ops))
    (Hedge : (p, id) ∈ db_dependencies (run_ops clock run_id ops)) :
  ∃ rp, db_jobs (run_ops clock run_id ops) !! p = Some rp ∧ jr_state rp = Verified.
Proof.
  assert (dep_inv (λ _ _, False) (run_ops clock run_id ops)) as Hd.
  { eapply (micros_dep _ clock (empty_db run_id)).
    - apply empty_dep_inv.
    - unfold run_ops. apply fold_ops_micro; [apply empty_db_inv|done]. }
  by destruct (Hd id p Hleft Hedge) as [[]|].
Qed.

(** Verification is final: no sequence of calls, whether they succeed or
    fail, moves a verified job to another state. *)
Theorem verified_is_final (db : RunDb) (ops : list Op) (id : JobId) (r : JobRow)
    (Hinv : db_inv db) (Hjob : db_jobs db !! id = Some r) (Hv : jr_state r = Verified) :
  ∃ r', db_jobs (fold_left (apply_op clock) ops db) !! id = Some r' ∧ jr_state r' = Verified.
Proof. eapply (micros_verified true); [by apply fold_ops_micro|done..]. Qed.

End Reachable.

(** ** Witnesses *)

(** An edge added to a job that is already ready: its predecessor is pending. *)
Definition late_edge_ops : list Op :=
  [ OpInsertJob "p" Witness; OpInsertJob "s" LeafVerification; OpRefreshReadiness;
    OpInsertJob "q" Witness; OpAddDependency "r:q" "r:s" ].

Example late_edge_unverified :
  let db := run_ops demo_clock "r" late_edge_ops in
  (jr_state <$> db_jobs db !! "r:s", jr_state <$> db_jobs db !! "r:q", db_dependencies db) =
  (Some Ready, Some Pending, [("r:q", "r:s")]).
Proof. vm_compute. reflexivity. Qed.

Lemma dependencies_verified_first_witness :
  ∃ rp, db_jobs demo_db !! "r:w" = Some rp ∧ jr_state rp = Verified.
Proof.
  destruct (db_jobs demo_db !! "r:v") as [r|] eqn:Hr; [|by vm_compute in Hr].
  destruct (dependencies_verified_first demo_clock "r" demo_ops "r:v" "r:w" r)
    as [Hv|(before & after & r0 & E & H0 & Hp & Hb)].
  - exact Hr.
  - assert (jr_state <$> Some r = Some Ready) as E by (rewrite <-Hr; by vm_compute).
    injection E as E. rewrite E. split; discriminate.
  - replace (db_dependencies _) with [("r:w", "r:v")] by (by vm_compute). by left.
  - exact Hv.
  - exfalso. unfold demo_ops in E.
    destruct before as [|o1 [|o2 [|o3 before]]]; cbn [app] in E; try discriminate E.
    + injection E as <- <- _. vm_compute in H0. injection H0 as <-. by apply Hp.
    + clear H0. injection E as _ _ _ E.
      do 5 (destruct before as [|? before]; cbn [app] in E; [discriminate E|injection E as _ E]).
      destruct before; discriminate E.
Defined.

Lemma verified_is_final_witness :
  ∃ r', db_jobs (fold_left (apply_op demo_clock) [OpRecoverInterrupted; OpRefreshReadiness] demo_db)
    !! "r:w" = Some r' ∧ jr_state r' = Verified.
Proof.
  destruct (db_jobs demo_db !! "r:w") as [r|] eqn:Hr; [|by vm_compute in Hr].
  apply (verified_is_final demo_clock demo_db [OpRecoverInterrupted; OpRefreshReadiness] "r:w" r).
  - eapply micro_rtc_inv; [apply (empty_db_inv "r")|apply run_ops_micro].
  - exact Hr.
  - assert (jr_state <$> Some r = Some Verified) as E by (rewrite <-Hr; by vm_compute).
    injection E as E. exact E.
Defined.
