(* ===== verification/RunDbMethods.v ===== *)
(** * The run database: exact effects of the scheduler's methods

    What [refresh_readiness], [block_descendants_tx], [recover_interrupted] and
    [handle_attempt_failure] do to every row, with their loops shown to finish. *)
From S2P Require Import Prelude Bytes State Identity Resource Estimate RunDb RunDbProofs RunDbSteps.

Open Scope string_scope.
Open Scope Z_scope.
Open Scope list_scope.

(** A fold whose body always succeeds under an invariant on the work left. *)
Lemma tx_fold_total {A S} (P : list A → S → RunDb → Prop) (f : S → A → Tx S) l s db :
  (∀ x l s d, P (x :: l) s d → ∃ s1 d1, f s x d = Ok (s1, d1) ∧ P l s1 d1) →
  P l s db → ∃ s' db', tx_fold f s l db = Ok (s', db') ∧ P [] s' db'.
Proof.
  intros Hf. revert s db. induction l as [|x l IH]; intros s db HP; simpl; [eauto|].
  destruct (Hf _ _ _ _ HP) as (s1 & d1 & E & HP1). unfold tx_bind. rewrite E. by apply IH.
Qed.

Lemma tx_identifier_valid raw db : valid_id raw → tx_identifier raw db = Ok (raw, db).
Proof. intros H. by apply tx_identifier_Ok. Qed.

Lemma NoDup_cons_elem {A} (x : A) l y : NoDup (x :: l) → y ∈ l → y ≠ x.
Proof. intros [Hx _]%NoDup_cons Hy ->. done. Qed.

(** A job whose readiness [refresh_readiness] must decide as failed. *)
Definition failed_job (p : JobId) (db : RunDb) : Prop :=
  ∃ r, db_jobs db !! p = Some r ∧
    (jr_terminal_failure r = true ∨ is_permanent_failure (jr_state r) = true).

Section Methods.

Context (clock : nat → option Z) (clock_ok : ∀ n, is_Some (clock n)).

(** An event goes through whenever the state machine allows it and its
    references exist. *)
Lemma apply_event_total id attempt event db r next :
  db_jobs db !! id = Some r → transition (jr_state r) event = Ok next →
  state_event_references id attempt event db = true →
  ∃ now, apply_event_tx clock id attempt event None db =
    Ok (next, db_after_event id attempt event None r next now db).
Proof using clock_ok.
  intros Hr Ht Href. destruct (clock_ok (db_clock_reads db)) as [now Hnow].
  exists now. apply apply_event_tx_Ok. eauto 10.
Qed.

(** ** refresh_readiness *)

(** What the call makes of one row; [db] is the database before it and [d] a
    database in which [p] can be seen to have failed. *)
Definition refresh_outcome (db d : RunDb) (id : JobId) (r r' : JobRow) : Prop :=
  if blockable (jr_state r) then
    (all_verified id db ∧ r' = job_after_event r Ready DependenciesSatisfied None) ∨
    (¬ all_verified id db ∧ ∃ p, (p, id) ∈ db_dependencies db ∧ failed_job p d ∧
       r' = job_after_event r Blocked (DependencyBlocked p) None) ∨
    (¬ all_verified id db ∧ (∀ p, (p, id) ∈ db_dependencies db → ¬ failed_job p db) ∧ r' = r)
  else r' = r.

Lemma refresh_outcome_cases db d id r r' :
  refresh_outcome db d id r r' →
  jr_terminal_failure r' = jr_terminal_failure r ∧
  (jr_state r' = jr_state r ∨ blockable (jr_state r) = true ∧ (jr_state r' = Ready ∨ jr_state r' = Blocked)).
Proof.
  unfold refresh_outcome. destruct (blockable _) eqn:E.
  - intros [[_ ->]|[(_ & p & _ & _ & ->)|(_ & _ & ->)]]; [..|auto];
      rewrite job_after_event_state; split; auto; apply job_after_event_fields.
  - intros ->. auto.
Qed.

(** The databases the loop passes through: [l] is the work left. *)
Record refreshing (db : RunDb) (l : list JobId) (d : RunDb) : Prop := {
  rf_nodup : NoDup l;
  rf_inv : db_inv d;
  rf_deps : db_dependencies d = db_dependencies db;
  rf_left : ∀ id, id ∈ l → ∃ r, db_jobs db !! id = Some r ∧ db_jobs d !! id = Some r ∧
    blockable (jr_state r) = true;
  rf_rows : ∀ id, id ∉ l → option_relation (refresh_outcome db d id) (λ _, False) (λ _, False)
    (db_jobs db !! id) (db_jobs d !! id)
}.

Lemma refreshing_row db l d id r :
  refreshing db l d → db_jobs db !! id = Some r →
  ∃ r', db_jobs d !! id = Some r' ∧ jr_terminal_failure r' = jr_terminal_failure r ∧
   (jr_state r' = jr_state r ∨
      blockable (jr_state r) = true ∧ (jr_state r' = Ready ∨ jr_state r' = Blocked)).
Proof.
  intros Hd Hr. destruct (decide (id ∈ l)) as [Hin|Hin].
  - destruct (rf_left _ _ _ Hd id Hin) as (r0 & Hr0 & Hd0 & _). exists r0.
    assert (r0 = r) as -> by congruence. auto.
  - pose proof (rf_rows _ _ _ Hd id Hin) as Ho. rewrite Hr in Ho.
    destruct (db_jobs d !! id) as [r'|]; simpl in Ho; [|done]. exists r'.
    split; [done|]. by eapply refresh_outcome_cases.
Qed.

Lemma refreshing_job db l d id r' :
  refreshing db l d → db_jobs d !! id = Some r' → ∃ r, db_jobs db !! id = Some r.
Proof.
  intros Hd Hr. destruct (decide (id ∈ l)) as [Hin|Hin].
  - destruct (rf_left _ _ _ Hd id Hin) as (r0 & Hr0 & _). eauto.
  - pose proof (rf_rows _ _ _ Hd id Hin) as Ho. rewrite Hr in Ho.
    destruct (db_jobs db !! id); simpl in Ho; [eauto|done].
Qed.

(** No job becomes or ceases to be verified, and no failure is forgotten. *)
Lemma refreshing_verified db l d id :
  refreshing db l d → all_verified id d ↔ all_verified id db.
Proof.
  intros Hd. unfold all_verified. rewrite (rf_deps _ _ _ Hd).
  split; intros H p Hp; destruct (H p Hp) as (r & Hr & Hv).
  - destruct (refreshing_job _ _ _ _ _ Hd Hr) as [r0 Hr0]. exists r0. split; [done|].
    destruct (refreshing_row _ _ _ _ _ Hd Hr0) as (r' & Hr' & _ & [E|(_ & [E|E])]); congruence.
  - destruct (refreshing_row _ _ _ _ _ Hd Hr) as (r' & Hr' & _ & [E|(Hb & _)]).
    + exists r'. split; congruence.
    + by rewrite Hv in Hb.
Qed.

Lemma refreshing_failed db l d p : refreshing db l d → failed_job p db → failed_job p d.
Proof.
  intros Hd (r & Hr & Hf). destruct (refreshing_row _ _ _ _ _ Hd Hr) as (r' & Hr' & Et & Es).
  exists r'. split; [done|]. destruct Hf as [Hf|Hf]; [left; congruence|right].
  destruct Es as [->|(_ & [E| ->])]; [done| |done]. exfalso.
  destruct (refreshing_row _ _ _ _ _ Hd Hr) as (r2 & Hr2 & _ & [E2|(Hb & _)]).
  - assert (r2 = r') as -> by congruence. rewrite <-E2, E in Hf. done.
  - by destruct (jr_state r).
Qed.

(** One event on the next job of the work list. *)
Lemma refreshing_event db id l d event next r :
  refreshing db (id :: l) d → db_jobs d !! id = Some r →
  transition (jr_state r) event = Ok next → state_event_references id None event d = true →
  starts_attempt event = false → is_retry event = false →
  (∀ d', (∀ p, failed_job p d → failed_job p d') →
     refresh_outcome db d' id r (job_after_event r next event None)) →
  ∃ d', apply_event_tx clock id None event None d = Ok (next, d') ∧ refreshing db l d'.
Proof using clock_ok.
  intros Hd Hr Ht Href Hs Hretry Hout.
  destruct (apply_event_total id None event d r next Hr Ht Href) as [now E]. eexists. split; [exact E|].
  pose proof (rf_nodup _ _ _ Hd) as [Hnin Hnd]%NoDup_cons.
  assert (Hmono : ∀ p, failed_job p d → failed_job p (db_after_event id None event None r next now d)).
  { intros p (rp & Hrp & Hf). unfold failed_job. simpl. destruct (decide (id = p)) as [<-|Hne].
    - rewrite lookup_insert_eq. eexists. split; [done|].
      assert (rp = r) as -> by congruence. rewrite job_after_event_state.
      destruct (job_after_event_fields r next event None) as (_ & _ & _ & _ & _ & _ & ->).
      destruct Hf as [Hf|Hf]; [by left|]. exfalso.
      destruct (rf_left _ _ _ Hd id) as (r0 & _ & Hr0 & Hb); [by left|].
      assert (r0 = r) as -> by congruence. by destruct (jr_state r).
    - rewrite lookup_insert_ne by done. eauto. }
  split; [done| | | |].
  - eapply apply_event_inv; [exact (rf_inv _ _ _ Hd)|exact Hs| |exact E]. by rewrite Hretry.
  - apply (rf_deps _ _ _ Hd).
  - intros j Hj. simpl. rewrite lookup_insert_ne by (intros ->; done).
    apply (rf_left _ _ _ Hd). by right.
  - intros j Hj. simpl. destruct (decide (id = j)) as [<-|Hne].
    + rewrite lookup_insert_eq.
      destruct (rf_left _ _ _ Hd id) as (r0 & Hr0 & Hr1 & _); [by left|].
      assert (r0 = r) as -> by congruence. rewrite Hr0. simpl. by apply Hout.
    + rewrite lookup_insert_ne by done.
      assert (j ∉ id :: l) as Hj' by (by apply not_elem_of_cons).
      pose proof (rf_rows _ _ _ Hd j Hj') as Ho.
      destruct (db_jobs db !! j) as [rj|], (db_jobs d !! j) as [rj'|]; simpl in *; try done.
      revert Ho. unfold refresh_outcome. destruct (blockable _); [|done]. naive_solver.
Qed.

Lemma refreshing_skip db id l d r :
  refreshing db (id :: l) d → db_jobs d !! id = Some r →
  ¬ all_verified id db → (∀ p, (p, id) ∈ db_dependencies db → ¬ failed_job p db) →
  refreshing db l d.
Proof.
  intros Hd Hr Hv Hf. pose proof (rf_nodup _ _ _ Hd) as [Hnin Hnd]%NoDup_cons.
  destruct (rf_left _ _ _ Hd id) as (r0 & Hr0 & Hr1 & Hb); [by left|].
  split; [done|apply Hd|apply Hd| |].
  - intros j Hj. apply (rf_left _ _ _ Hd). by right.
  - intros j Hj. destruct (decide (j = id)) as [->|Hne].
    + rewrite Hr0, Hr1. simpl. unfold refresh_outcome. rewrite Hb. auto.
    + apply (rf_rows _ _ _ Hd). by apply not_elem_of_cons.
Qed.

Lemma find_failed_Some id d i p st t :
  list_find (λ '(_, state, terminal), terminal = true ∨ is_permanent_failure state = true)
    (predecessor_rows id d) = Some (i, (p, st, t)) →
  (p, id) ∈ db_dependencies d ∧ failed_job p d.
Proof.
  intros (Hin & Hf & _)%list_find_Some. apply list_elem_of_lookup_2 in Hin.
  apply elem_of_predecessor_rows in Hin as (Hp & r & Hr & <- & <-). split; [done|].
  exists r. split; [done|]. destruct Hf; auto.
Qed.

Lemma find_failed_None id d :
  list_find (λ '(_, state, terminal), terminal = true ∨ is_permanent_failure state = true)
    (predecessor_rows id d) = None →
  ∀ p, (p, id) ∈ db_dependencies d → ¬ failed_job p d.
Proof.
  intros Hn%list_find_None p Hp (r & Hr & Hf). rewrite Forall_forall in Hn.
  apply (Hn (p, jr_state r, jr_terminal_failure r)); [|done].
  apply elem_of_predecessor_rows. eauto.
Qed.

(** The candidates the call makes ready. *)
Definition promotable (db : RunDb) (l : list JobId) : list JobId :=
  filter (λ id, forallb (λ '(_, state, _), bool_decide (state = Verified)) (predecessor_rows id db) = true) l.

Lemma refresh_one_total db n id l d :
  db_inv db → refreshing db (id :: l) d →
  ∃ m d', refresh_one clock n id d = Ok (m, d') ∧ refreshing db l d' ∧
    (m + length (promotable db l) = n + length (promotable db (id :: l)))%nat.
Proof using clock_ok.
  intros Hinv Hd. pose proof (rf_inv _ _ _ Hd) as Hinvd.
  destruct (rf_left _ _ _ Hd id) as (r & Hr0 & Hr & Hb); [by left|].
  destruct (inv_rows _ Hinvd _ _ Hr) as [[Hvalid _] _ _ _ _ _].
  assert (Hst : jr_state r = Pending ∨ jr_state r = Requeued) by (destruct (jr_state r); naive_solver).
  unfold refresh_one, predecessor_states, promotable, tx_bind, tx_get.
  rewrite tx_identifier_valid by done.
  change (omap _ (predecessor_ids id d)) with (predecessor_rows id d).
  rewrite filter_cons.
  destruct (forallb _ (predecessor_rows id d)) eqn:Ev.
  - apply predecessors_verified in Ev; [|done]. rewrite (refreshing_verified _ _ _ _ Hd) in Ev.
    destruct (refreshing_event db id l d DependenciesSatisfied Ready r) as (d' & E & Hd'); try done.
    { by apply transition_satisfied_source. }
    { unfold state_event_references. rewrite Hr. done. }
    { intros d' _. unfold refresh_outcome. rewrite Hb. auto. }
    rewrite E. eexists _, _. split_and!; [done..|].
    rewrite decide_True by (by apply predecessors_verified). simpl. lia.
  - assert (¬ all_verified id db) as Hnv.
    { intros Hv. rewrite <-(refreshing_verified _ _ _ _ Hd), <-predecessors_verified in Hv by done.
      congruence. }
    rewrite decide_False by (rewrite predecessors_verified; done).
    destruct (list_find _ _) as [[i [[p st] t]]|] eqn:Ef.
    + apply find_failed_Some in Ef as [Hp Hf]. pose proof Hp as Hp'. rewrite (rf_deps _ _ _ Hd) in Hp'.
      destruct (refreshing_event db id l d (DependencyBlocked p) Blocked r) as (d' & E & Hd'); try done.
      { by apply transition_blocked_source. }
      { unfold state_event_references. rewrite Hr. simpl.
        destruct (inv_dependencies _ Hinvd _ _ Hp) as (Hsp & _). by rewrite (bool_decide_eq_true_2 _ Hsp). }
      { intros d' Hmono. unfold refresh_outcome. rewrite Hb. right; left. split; [done|]. exists p. auto. }
      rewrite E. eexists _, _. split_and!; done.
    + eexists _, _. split_and!; [done| |done]. eapply refreshing_skip; try done.
      intros p Hp Hf. rewrite <-(rf_deps _ _ _ Hd) in Hp.
      by eapply find_failed_None; [..|eapply refreshing_failed].
Qed.

Lemma elem_of_candidates id db :
  id ∈ readiness_candidates db ↔
  ∃ r, db_jobs db !! id = Some r ∧ blockable (jr_state r) = true.
Proof.
  unfold readiness_candidates, sort_ids. rewrite merge_sort_Permutation, list_elem_of_fmap.
  setoid_rewrite list_elem_of_filter. split.
  - intros ([k r] & -> & Hb & Hin%elem_of_map_to_list). eauto.
  - intros (r & Hr & Hb). exists (id, r). rewrite elem_of_map_to_list. auto.
Qed.

Lemma NoDup_candidates db : NoDup (readiness_candidates db).
Proof.
  unfold readiness_candidates, sort_ids. rewrite merge_sort_Permutation.
  eapply sublist_NoDup; [apply (NoDup_fst_map_to_list (db_jobs db))|].
  apply fmap_sublist, sublist_filter.
Qed.

Lemma refreshing_start db : db_inv db → refreshing db (readiness_candidates db) db.
Proof.
  intros Hinv. split; [apply NoDup_candidates|done|done| |].
  - intros id (r & Hr & Hb)%elem_of_candidates. eauto.
  - intros id Hid. destruct (db_jobs db !! id) as [r|] eqn:Hr; simpl; [|done].
    unfold refresh_outcome. destruct (blockable _) eqn:Hb; [|done].
    destruct Hid. apply elem_of_candidates. eauto.
Qed.

(** Refreshing readiness succeeds on every consistent database and decides
    every job from the state of its predecessors: a pending or requeued job
    becomes ready exactly when all of them are verified (with no predecessor
    included), is blocked by a predecessor that has failed terminally, or waits
    when none has; every other job keeps its row, no edge changes,
    and the count returned is the number of jobs made ready. *)
Theorem refresh_readiness_spec (db : RunDb) (Hinv : db_inv db) :
  ∃ n db', refresh_readiness clock db = Ok (n, db') ∧
    n = length (promotable db (readiness_candidates db)) ∧
    db_dependencies db' = db_dependencies db ∧
    ∀ id, option_relation (refresh_outcome db db' id) (λ _, False) (λ _, False)
      (db_jobs db !! id) (db_jobs db' !! id).
Proof using clock_ok.
  unfold refresh_readiness, tx_bind, tx_get.
  destruct (tx_fold_total (λ l s d, refreshing db l d ∧
    (s + length (promotable db l) = length (promotable db (readiness_candidates db)))%nat)
    (refresh_one clock) (readiness_candidates db) 0%nat db) as (n & db' & E & Hd & Hn).
  - intros id l n d [Hd Hn]. destruct (refresh_one_total db n id l d Hinv Hd) as (m & d' & E & Hd' & Hm).
    exists m, d'. split_and!; [done..|]. lia.
  - split; [by apply refreshing_start|done].
  - exists n, db'. split_and!; [done|simpl in Hn; lia|apply Hd|].
    intros id. apply (rf_rows _ _ _ Hd). apply not_elem_of_nil.
Qed.

(** ** block_descendants_tx *)

(** The jobs a failure blocks: those reached from the failed job through jobs
    that are still waiting. *)
Inductive blocked_by (db : RunDb) (failed : JobId) : JobId → Prop :=
| blocked_direct id r :
    (failed, id) ∈ db_dependencies db → db_jobs db !! id = Some r →
    blockable (jr_state r) = true → blocked_by db failed id
| blocked_through x id r :
    blocked_by db failed x → (x, id) ∈ db_dependencies db → db_jobs db !! id = Some r →
    blockable (jr_state r) = true → blocked_by db failed id.

(** The row of [id] after the call, given the jobs blocked so far. *)
Definition block_outcome (db : RunDb) (failed id : JobId) (r r' : JobRow) : Prop :=
  r' = r ∨
  (blocked_by db failed id ∧ ∃ p, (p, id) ∈ db_dependencies db ∧
     (p = failed ∨ blocked_by db failed p) ∧ r' = blocked_row p r).

Definition newly_blocked (db d : RunDb) (id : JobId) : Prop :=
  ∃ r r', db_jobs db !! id = Some r ∧ db_jobs d !! id = Some r' ∧ r' ≠ r.

Definition waiting (d : RunDb) (id : JobId) : Prop :=
  ∃ r, db_jobs d !! id = Some r ∧ blockable (jr_state r) = true.

(** The databases the loop passes through: [fr] is the frontier, and [todo]
    the successors of [p] not yet looked at. *)
Record blocking (db : RunDb) (failed : JobId) (fr : list JobId) (p : JobId) (todo : list JobId)
    (d : RunDb) : Prop := {
  bk_inv : db_inv d;
  bk_deps : db_dependencies d = db_dependencies db;
  bk_events : ∃ l, db_events d = db_events db ++ l;
  bk_rows : ∀ id, option_relation (block_outcome db failed id) (λ _, False) (λ _, False)
    (db_jobs db !! id) (db_jobs d !! id);
  bk_frontier : ∀ x, x ∈ fr → x = failed ∨ blocked_by db failed x;
  bk_closed : ∀ x s, x = failed ∨ newly_blocked db d x → (x, s) ∈ db_dependencies db → waiting d s →
    x ∈ fr ∨ (x = p ∧ s ∈ todo)
}.

Lemma blocked_row_state p r : jr_state (blocked_row p r) = Blocked.
Proof. unfold blocked_row. simpl. by rewrite ?job_after_event_state. Qed.

Lemma blocked_row_changed p r : blockable (jr_state r) = true → blocked_row p r ≠ r.
Proof. intros Hb E. rewrite <-E, blocked_row_state in Hb. done. Qed.

Lemma blocking_row db failed fr p todo d id r' :
  blocking db failed fr p todo d → db_jobs d !! id = Some r' →
  ∃ r, db_jobs db !! id = Some r ∧ block_outcome db failed id r r'.
Proof.
  intros Hd Hr'. pose proof (bk_rows _ _ _ _ _ _ Hd id) as Ho. rewrite Hr' in Ho.
  destruct (db_jobs db !! id); [|done]. eauto.
Qed.

(** A row the call has left alone so far is the one it started with. *)
Lemma blocking_waiting db failed fr p todo d id r :
  blocking db failed fr p todo d → db_jobs d !! id = Some r → blockable (jr_state r) = true →
  db_jobs db !! id = Some r.
Proof.
  intros Hd Hr Hb. destruct (blocking_row _ _ _ _ _ _ _ _ Hd Hr) as (r0 & Hr0 & [->|(_ & q & _ & _ & ->)]).
  - done.
  - by rewrite blocked_row_state in Hb.
Qed.

Lemma block_successor_total db failed fr p s todo d :
  p = failed ∨ blocked_by db failed p → (p, s) ∈ db_dependencies db →
  blocking db failed fr p (s :: todo) d →
  ∃ fr' d', block_successor clock p fr s d = Ok (fr', d') ∧ blocking db failed fr' p todo d'.
Proof using clock_ok.
  intros Hp Hps Hd. pose proof (bk_inv _ _ _ _ _ _ Hd) as Hinv.
  destruct (inv_dependencies _ Hinv p s) as ([rp Hrp] & [r Hr] & Hne); [by rewrite (bk_deps _ _ _ _ _ _ Hd)|].
  destruct (inv_rows _ Hinv _ _ Hr) as [[Hvalid _] _ _ _ _ _].
  assert (Hrun : ∃ fr' d', block_successor clock p fr s d = Ok (fr', d') ∧
    ∃ l, db_events d' = db_events d ++ l ∧ db_dependencies d' = db_dependencies d).
  { unfold block_successor, tx_bind. rewrite tx_identifier_valid by done.
    replace (current_state s d) with (Ok (E := DbError) (jr_state r, d))
      by (symmetry; apply current_state_Ok; eauto).
    case_bool_decide; [eexists _, _; split; [done|]; exists []; by rewrite app_nil_r|].
    destruct (blockable (jr_state r)) eqn:Hb; simpl;
      [|eexists _, _; split; [done|]; exists []; by rewrite app_nil_r].
    destruct (apply_event_total s None (DependencyBlocked p) d r Blocked Hr) as [now E].
    { apply transition_blocked_source. split; [|done]. destruct (jr_state r); naive_solver. }
    { unfold state_event_references. simpl. by rewrite Hr, Hrp. }
    rewrite E. unfold set_terminal_failure, tx_update. eexists _, _. split; [done|]. eexists. done. }
  destruct Hrun as (fr' & d' & E & l & Ee & Ed). exists fr', d'. split; [done|].
  pose proof (block_successor_inv _ _ _ _ _ _ _ Hinv E) as Hinv'.
  apply block_successor_Ok in E as (r0 & Hr0 & Hcase). assert (r0 = r) as -> by congruence.
  destruct Hcase as [(Hb & -> & ->)|(Hb & -> & now & _ & Ej)].
  - split; try apply Hd. intros x t Hx Hxt Hw.
    destruct (bk_closed _ _ _ _ _ _ Hd x t Hx Hxt Hw) as [|[-> [->|Ht]%elem_of_cons]]; [auto| |auto].
    destruct Hw as (rw & Hrw & Hbw). congruence.
  - pose proof (blocking_waiting _ _ _ _ _ _ _ _ Hd Hr Hb) as Hrs.
    assert (Hbs : blocked_by db failed s).
    { destruct Hp as [->|Hp]; [by eapply blocked_direct|by eapply blocked_through]. }
    split; [done| | | | |].
    + rewrite Ed. apply (bk_deps _ _ _ _ _ _ Hd).
    + destruct (bk_events _ _ _ _ _ _ Hd) as [l0 E0]. exists (l0 ++ l). by rewrite Ee, E0, app_assoc.
    + intros id. rewrite Ej. destruct (decide (s = id)) as [<-|Hsid].
      * rewrite Hrs, lookup_insert_eq. simpl. right. eauto 6.
      * rewrite lookup_insert_ne by done. apply (bk_rows _ _ _ _ _ _ Hd).
    + intros x [->|Hx]%elem_of_cons; [by right|]. by apply (bk_frontier _ _ _ _ _ _ Hd).
    + intros x t Hx Hxt (rt & Hrt & Hbt). rewrite Ej in Hrt.
      destruct (decide (s = t)) as [->|Hst].
      { rewrite lookup_insert_eq in Hrt. injection Hrt as <-. by rewrite blocked_row_state in Hbt. }
      rewrite lookup_insert_ne in Hrt by done.
      destruct (decide (x = s)) as [->|Hxs]; [left; by left|].
      assert (Hx' : x = failed ∨ newly_blocked db d x).
      { destruct Hx as [|(rx & rx' & H1 & H2 & H3)]; [by left|right].
        rewrite Ej, lookup_insert_ne in H2 by done. by exists rx, rx'. }
      destruct (bk_closed _ _ _ _ _ _ Hd x t Hx' Hxt) as [Hin|[-> Hin]]; [by exists rt|left; by right|].
      apply elem_of_cons in Hin as [->|Hin]; [done|auto].
Qed.

Lemma block_loop_total db failed fuel fr q d :
  blocking db failed fr q [] d →
  ∃ fr' d' q', block_loop clock fuel fr d = Ok (fr', d') ∧ blocking db failed fr' q' [] d'.
Proof using clock_ok.
  revert fr q d. induction fuel as [|fuel IH]; intros fr q d Hd; [destruct fr; simpl; eauto 6|].
  destruct fr as [|p rest]; simpl; [eauto 6|]. unfold tx_bind, tx_get.
  destruct (tx_fold_total (λ l f d1, (∀ s, s ∈ l → (p, s) ∈ db_dependencies db) ∧ blocking db failed f p l d1)
    (block_successor clock p) (successor_ids p d) rest d) as (fr1 & d1 & E & _ & Hd1).
  - intros s l f d1 [Hl Hd1].
    destruct (block_successor_total db failed f p s l d1) as (f2 & d2 & E & Hd2); [| |done|].
    { apply (bk_frontier _ _ _ _ _ _ Hd). by left. }
    { apply Hl. by left. }
    exists f2, d2. split_and!; [done| |done]. intros t Ht. apply Hl. by right.
  - split; [intros s; by rewrite elem_of_successor_ids, (bk_deps _ _ _ _ _ _ Hd)|].
    destruct Hd. split; try done; [intros x Hx; apply bk_frontier0; by right|].
    intros x s Hx Hxs Hw. destruct (bk_closed0 x s Hx Hxs Hw) as [[->|]%elem_of_cons|[_ []%not_elem_of_nil]];
      [right|by left]. split; [done|]. by rewrite elem_of_successor_ids, bk_deps0.
  - rewrite E. by eapply IH.
Qed.

Lemma blocking_start db failed : db_inv db → blocking db failed [failed] failed [] db.
Proof.
  intros Hinv. split; [done|done|exists []; by rewrite app_nil_r| | |].
  - intros id. destruct (db_jobs db !! id); [by left|done].
  - intros x ->%list_elem_of_singleton. by left.
  - intros x s [->|(r & r' & H1 & H2 & H3)] _ _; [left; by left|]. congruence.
Qed.

(** When the frontier is empty, every job the failure reaches has been blocked. *)
Lemma blocking_done db failed q d id :
  blocking db failed [] q [] d → blocked_by db failed id → newly_blocked db d id.
Proof.
  intros Hd. assert (Hstep : ∀ x id r, x = failed ∨ newly_blocked db d x →
    (x, id) ∈ db_dependencies db → db_jobs db !! id = Some r → blockable (jr_state r) = true →
    newly_blocked db d id).
  { intros x j r Hx Hxj Hr Hb. pose proof (bk_rows _ _ _ _ _ _ Hd j) as Ho. rewrite Hr in Ho.
    destruct (db_jobs d !! j) as [r'|] eqn:Hr'; [|done]. simpl in Ho.
    destruct Ho as [->|(_ & p & _ & _ & ->)].
    - destruct (bk_closed _ _ _ _ _ _ Hd x j Hx Hxj) as [[]%not_elem_of_nil|[_ []%not_elem_of_nil]].
      by exists r.
    - exists r, (blocked_row p r). split_and!; [done..|]. by apply blocked_row_changed. }
  induction 1 as [id r Hedge Hr Hb|x id r _ IH Hedge Hr Hb].
  - eapply (Hstep failed); eauto.
  - eapply (Hstep x); eauto.
Qed.

(** What [block_descendants_tx] makes of one row. *)
Definition blocked_outcome (db : RunDb) (failed id : JobId) (r r' : JobRow) : Prop :=
  (blocked_by db failed id ∧ ∃ p, (p, id) ∈ db_dependencies db ∧
     (p = failed ∨ blocked_by db failed p) ∧ r' = blocked_row p r) ∨
  (¬ blocked_by db failed id ∧ r' = r).

Lemma block_descendants_total failed db :
  db_inv db → ∃ db', block_descendants_tx clock failed db = Ok (tt, db') ∧
    db_dependencies db' = db_dependencies db ∧
    ∀ id, option_relation (blocked_outcome db failed id) (λ _, False) (λ _, False)
      (db_jobs db !! id) (db_jobs db' !! id).
Proof using clock_ok.
  intros Hinv. unfold block_descendants_tx, tx_bind, tx_get.
  destruct (block_loop_total db failed (S (size (db_jobs db))) [failed] failed db)
    as (fr' & d' & q' & E & Hd); [by apply blocking_start|].
  rewrite E. exists d'. split; [done|].
  apply block_loop_drains_aux in E as ->; [|simpl; pose proof (size_blockable_jobs db); lia].
  split; [apply Hd|]. intros id. pose proof (bk_rows _ _ _ _ _ _ Hd id) as Ho.
  destruct (db_jobs db !! id) as [r|] eqn:Hr, (db_jobs d' !! id) as [r'|] eqn:Hr'; simpl in *; try done.
  destruct Ho as [->|Ho]; [right|by left]. split; [|done].
  intros (r1 & r2 & H1 & H2 & H3)%(blocking_done _ _ _ _ _ Hd). congruence.
Qed.

(** C35. Blocking the descendants of a failed job always finishes on a
    consistent database, and blocks, terminally and naming a predecessor that
    is the failed job or was itself blocked, exactly the jobs reached from it
    through jobs still pending or requeued; every other row is untouched. *)
Theorem block_descendants_spec (failed : JobId) (db : RunDb) (Hinv : db_inv db) :
  ∃ db', block_descendants_tx clock failed db = Ok (tt, db') ∧
    ∀ id, option_relation (blocked_outcome db failed id) (λ _, False) (λ _, False)
      (db_jobs db !! id) (db_jobs db' !! id).
Proof using clock_ok.
  destruct (block_descendants_total failed db Hinv) as (db' & E & _ & H). eauto.
Qed.

(** ** recover_interrupted *)

Definition row_job (row : AttemptId * JobId * JobState) : JobId := row.1.2.

(** The row of a job after a restart. *)
Definition recovered_row (r : JobRow) : JobRow :=
  if is_active (jr_state r) then
    job_after_event (job_after_event r Interrupted (EvInterrupted interruption) None)
      Requeued RecoveryRequeue None
  else r.

Lemma recovered_row_fields r :
  is_active (jr_state (recovered_row r)) = false ∧
  jr_execution_retries (recovered_row r) = jr_execution_retries r ∧
  jr_resource_requeues (recovered_row r) = jr_resource_requeues r ∧
  jr_attempt_count (recovered_row r) = jr_attempt_count r ∧
  (recovered_row r = r ∨ is_active (jr_state r) = true ∧ jr_state (recovered_row r) = Requeued).
Proof. unfold recovered_row. destruct (is_active (jr_state r)) eqn:E; simpl; auto 10. Qed.

Lemma elem_of_open_attempts a id st db :
  (a, id, st) ∈ open_attempts db ↔
  ∃ x r, x ∈ db_attempts db ∧ is_open x = true ∧ at_id x = a ∧ at_job x = id ∧
    db_jobs db !! id = Some r ∧ jr_state r = st.
Proof.
  unfold open_attempts. rewrite list_elem_of_omap.
  setoid_rewrite merge_sort_Permutation. setoid_rewrite list_elem_of_filter. split.
  - intros (x & [Ho Hx] & E). destruct (db_jobs db !! at_job x) as [r|] eqn:Hr; [|done].
    simpl in E. simplify_eq. eauto 10.
  - intros (x & r & Hx & Ho & <- & <- & Hr & <-). exists x. rewrite Hr. eauto.
Qed.

(** At most one open attempt per job. *)
Lemma NoDup_jobs_by_states (L : list AttemptRow) :
  (∀ id, length (filter (λ a, at_job a = id) L) ≤ 1)%nat → NoDup (at_job <$> L).
Proof.
  induction L as [|a L IH]; intros H; simpl; [constructor|]. apply NoDup_cons. split.
  - intros (b & E & Hb)%list_elem_of_fmap. specialize (H (at_job a)).
    rewrite filter_cons_True in H by done. simpl in H.
    assert (b ∈ filter (λ x, at_job x = at_job a) L) as Hin by (by apply list_elem_of_filter).
    destruct (filter _ L); [by apply not_elem_of_nil in Hin|simpl in H; lia].
  - apply IH. intros id. specialize (H id). rewrite filter_cons in H. case_decide; simpl in H; lia.
Qed.

Lemma filter_open_states id l :
  length (filter (λ a, at_job a = id) (filter (λ a, is_open a = true) l)) = length (open_states id l).
Proof.
  induction l as [|a l IH]; [done|]. rewrite open_states_cons, length_app, <-IH, filter_cons.
  unfold open_for. destruct (is_open a); simpl; [|done]. rewrite filter_cons.
  destruct (String.eqb_spec (at_job a) id); [by rewrite decide_True|by rewrite decide_False].
Qed.

Lemma open_states_le1 id db : db_inv db → (length (open_states id (db_attempts db)) ≤ 1)%nat.
Proof.
  intros Hinv. destruct (db_jobs db !! id) as [r|] eqn:Hr.
  - destruct (inv_rows _ Hinv _ _ Hr) as [_ -> _ _ _ _]. destruct (is_active _); simpl; lia.
  - rewrite open_states_nil; [simpl; lia|]. intros a Ha E.
    destruct (inv_attempts _ Hinv a Ha) as (r & n & Hr' & _). congruence.
Qed.

Lemma NoDup_open_attempts db : db_inv db → NoDup (row_job <$> open_attempts db).
Proof.
  intros Hinv.
  assert (NoDup (at_job <$> filter (λ a, is_open a = true) (db_attempts db))) as Hnd.
  { apply NoDup_jobs_by_states. intros id. rewrite filter_open_states. by apply open_states_le1. }
  unfold open_attempts.
  rewrite <-(merge_sort_Permutation (λ a b, string_le (at_id a) (at_id b))) in Hnd.
  induction (merge_sort _ _) as [|a l IH]; simpl; [constructor|].
  simpl in Hnd. apply NoDup_cons in Hnd as [Hnin Hnd].
  destruct (db_jobs db !! at_job a) as [r|]; simpl; [|by apply IH].
  apply NoDup_cons. split; [|by apply IH].
  intros ([[a' id'] st'] & E & Hin)%list_elem_of_fmap. unfold row_job in E. simpl in E. subst id'.
  apply Hnin. apply list_elem_of_omap in Hin as (x & Hx & Ex).
  destruct (db_jobs db !! at_job x); [|done]. injection Ex as _ E _.
  rewrite <-E. by apply list_elem_of_fmap_2.
Qed.

(** The databases the loop passes through: [l] is the work left. *)
Record recovering (db : RunDb) (l : list (AttemptId * JobId * JobState)) (d : RunDb) : Prop := {
  rc_nodup : NoDup (row_job <$> l);
  rc_inv : db_inv d;
  rc_left : ∀ a id st, (a, id, st) ∈ l → ∃ x r, x ∈ db_attempts d ∧ at_id x = a ∧ at_job x = id ∧
    db_jobs db !! id = Some r ∧ db_jobs d !! id = Some r ∧ jr_state r = st ∧ is_active st = true;
  rc_rows : ∀ id, id ∉ row_job <$> l → db_jobs d !! id = recovered_row <$> db_jobs db !! id;
  rc_verifications : db_verifications d = db_verifications db
}.

Lemma references_attempt id a event db r x :
  db_jobs db !! id = Some r → x ∈ db_attempts db → at_id x = a → at_job x = id →
  event_blocking_predecessor event = None → event_verification_record event = None →
  state_event_references id (Some a) event db = true.
Proof.
  intros Hr Hx Ea Ej E1 E2. unfold state_event_references. rewrite Hr, E1, E2. simpl.
  rewrite bool_decide_eq_true_2; [done|]. apply Exists_exists. eauto.
Qed.

(** The attempts keep their ids and jobs through an event. *)
Lemma attempt_survives id a event count r next now d x :
  x ∈ db_attempts d → ∃ y, y ∈ db_attempts (db_after_event id a event count r next now d) ∧
    at_id y = at_id x ∧ at_job y = at_job x.
Proof.
  simpl. intros Hx.
  assert (Hu : ∀ (p : AttemptRow → bool) f, (∀ b, at_id (f b) = at_id b ∧ at_job (f b) = at_job b) →
    ∃ y, y ∈ update_where p f (db_attempts d) ∧ at_id y = at_id x ∧ at_job y = at_job x).
  { intros p f Hf. exists (if p x then f x else x).
    split; [by apply (list_elem_of_fmap_2 (λ a, if p a then f a else a))|].
    destruct (p x); [apply Hf|done]. }
  unfold attempts_after_event. destruct (negb _); [by apply Hu|]. destruct a; [by apply Hu|eauto].
Qed.

Lemma recover_one_total db n row l d :
  recovering db (row :: l) d →
  ∃ d', recover_one clock n row d = Ok (S n, d') ∧ recovering db l d'.
Proof using clock_ok.
  destruct row as [[a id] st]. intros Hd. pose proof (rc_inv _ _ _ Hd) as Hinv.
  destruct (rc_left _ _ _ Hd a id st) as (x & r & Hx & Ea & Ejob & Hr0 & Hr & Est & Hact); [by left|].
  destruct (inv_rows _ Hinv _ _ Hr) as [[Hvalid _] _ _ _ _ _].
  destruct (inv_attempts _ Hinv x Hx) as (_ & _ & _ & _ & _ & Hva). rewrite Ea in Hva.
  destruct (apply_event_total id (Some a) (EvInterrupted interruption) d r Interrupted Hr) as [t1 E1].
  { rewrite Est. by destruct st. }
  { by eapply references_attempt. }
  set (d1 := db_after_event _ _ _ _ _ _ _ _) in E1.
  destruct (attempt_survives id (Some a) (EvInterrupted interruption) None r Interrupted t1 d x Hx)
    as (y & Hy & Ey & Ey'). rewrite Ea in Ey. rewrite Ejob in Ey'.
  set (r1 := job_after_event r Interrupted (EvInterrupted interruption) None).
  assert (Hr1 : db_jobs d1 !! id = Some r1) by apply lookup_insert_eq.
  destruct (apply_event_total id (Some a) RecoveryRequeue d1 r1 Requeued Hr1) as [t2 E2].
  { unfold r1. by rewrite job_after_event_state. }
  { by eapply references_attempt. }
  set (d2 := db_after_event _ _ _ _ _ _ _ _) in E2.
  destruct (clock_ok (db_clock_reads d2)) as [t3 E3].
  assert (∃ d', recover_one clock n (a, id, st) d = Ok (S n, d')) as [d' E].
  { unfold recover_one, tx_bind. rewrite Hact. simpl. rewrite !tx_identifier_valid by done.
    rewrite E1, E2. unfold unix_ms. rewrite E3. by eexists. }
  exists d'. split; [done|].
  apply recover_one_Ok in E as [(? & _)|(_ & _ & n1 & d1' & n2 & d2' & F1 & F2 & ->)]; [congruence| |done].
  rewrite E1 in F1. injection F1 as <- <-. rewrite E2 in F2. injection F2 as <- <-.
  pose proof (rc_nodup _ _ _ Hd) as [Hnin Hnd]%NoDup_cons.
  assert (Hjobs : db_jobs d2 = <[id := recovered_row r]> (db_jobs d)).
  { unfold d2, d1. simpl. rewrite insert_insert_eq. unfold recovered_row. by rewrite Est, Hact. }
  split.
  - done.
  - eapply (db_inv_ext d2); [done..|]. eapply (apply_event_inv _ _ _ RecoveryRequeue); [|done|done|exact E2].
    by eapply (apply_event_inv _ _ _ (EvInterrupted interruption)); [exact Hinv|..|exact E1].
  - intros a' id' st' Hin. assert (id' ≠ id) as Hne.
    { intros ->. apply Hnin. by apply (list_elem_of_fmap_2 row_job _ (a', id, st')). }
    destruct (rc_left _ _ _ Hd a' id' st') as (x' & r' & Hx' & Ea' & Ej' & Hrest); [by right|].
    destruct (attempt_survives id (Some a) (EvInterrupted interruption) None r Interrupted t1 d x' Hx')
      as (y1 & Hy1 & F1 & F1').
    destruct (attempt_survives id (Some a) RecoveryRequeue None r1 Requeued t2 d1 y1 Hy1)
      as (y2 & Hy2 & F2 & F2').
    exists y2, r'. change (db_jobs (bump_clock d2)) with (db_jobs d2).
    rewrite Hjobs, lookup_insert_ne by done.
    split_and!; [exact Hy2|congruence|congruence|apply Hrest..].
  - intros j Hj. change (db_jobs (bump_clock d2)) with (db_jobs d2).
    rewrite Hjobs. destruct (decide (id = j)) as [<-|Hne].
    + by rewrite lookup_insert_eq, Hr0.
    + rewrite lookup_insert_ne by done. apply (rc_rows _ _ _ Hd). simpl.
      apply not_elem_of_cons. split; [by apply not_eq_sym|done].
  - apply (rc_verifications _ _ _ Hd).
Qed.

Lemma open_states_active id db s :
  db_inv db → s ∈ open_states id (db_attempts db) →
  ∃ r, db_jobs db !! id = Some r ∧ is_active (jr_state r) = true.
Proof.
  intros Hinv (x & Hx & Ho & _)%elem_of_open_states.
  destruct (open_attempt_active id (at_id x) db Hinv) as (r & Hr & Hact & _); [|eauto].
  apply open_attempt_elem. eauto.
Qed.

Lemma recovering_start db : db_inv db → recovering db (open_attempts db) db.
Proof.
  intros Hinv. split; [by apply NoDup_open_attempts|done| | |done].
  - intros a id st (x & r & Hx & Ho & Ea & Ej & Hr & Est)%elem_of_open_attempts.
    exists x, r. split_and!; try done.
    destruct (open_attempt_active id a db Hinv) as (r' & Hr' & Hact & _).
    { apply open_attempt_elem. exists x. split_and!; [done| |done].
      unfold open_for. rewrite Ho. simpl. by apply String.eqb_eq. }
    congruence.
  - intros id Hid. destruct (db_jobs db !! id) as [r|] eqn:Hr; simpl; [|done]. f_equal.
    unfold recovered_row. destruct (is_active (jr_state r)) eqn:Hact; [|done]. destruct Hid.
    destruct (inv_rows _ Hinv _ _ Hr) as [_ Ho _ _ _ _]. rewrite Hact in Ho.
    assert (jr_state r ∈ open_states id (db_attempts db)) as (x & Hx & Hox & _)%elem_of_open_states
      by (rewrite Ho; by left).
    apply (list_elem_of_fmap_2 row_job _ (at_id x, id, jr_state r)).
    apply elem_of_open_attempts. exists x, r. unfold open_for in Hox.
    apply andb_true_iff in Hox as [? ?%String.eqb_eq]. done.
Qed.

(** After a restart every interrupted attempt is closed and its job
    requeued: recovery succeeds on every consistent database, returns the number
    of open attempts it found, leaves no attempt open and no job active, keeps
    both retry counters and the attempt counter, and touches no other row. *)
Theorem recover_interrupted_spec (db : RunDb) (Hinv : db_inv db) :
  ∃ db', recover_interrupted clock db = Ok (length (open_attempts db), db') ∧
    Forall (λ a, is_open a = false) (db_attempts db') ∧
    (∀ id, db_jobs db' !! id = recovered_row <$> db_jobs db !! id) ∧
    ∀ id r', db_jobs db' !! id = Some r' → is_active (jr_state r') = false ∧
      ∃ r, db_jobs db !! id = Some r ∧
        jr_execution_retries r' = jr_execution_retries r ∧
        jr_resource_requeues r' = jr_resource_requeues r ∧
        jr_attempt_count r' = jr_attempt_count r ∧
        (r' = r ∨ is_active (jr_state r) = true ∧ jr_state r' = Requeued).
Proof using clock_ok.
  unfold recover_interrupted, tx_bind, tx_get.
  destruct (tx_fold_total (λ l s d, recovering db l d ∧ (s + length l = length (open_attempts db))%nat)
    (recover_one clock) (open_attempts db) 0%nat db) as (n & db' & E & Hd & Hn).
  - intros row l n d [Hd Hn]. destruct (recover_one_total db n row l d Hd) as (d' & E & Hd').
    exists (S n), d'. split_and!; [done..|]. simpl in Hn. lia.
  - split; [by apply recovering_start|done].
  - exists db'. simpl in Hn. replace (length (open_attempts db)) with n by lia.
    assert (Hrows : ∀ id, db_jobs db' !! id = recovered_row <$> db_jobs db !! id)
      by (intros id; apply (rc_rows _ _ _ Hd), not_elem_of_nil).
    split_and!; [done| |done|].
    + apply Forall_forall. intros x Hx. destruct (is_open x) eqn:Ho; [|done].
      destruct (open_states_active (at_job x) db' (at_state x)) as (r & Hr & Hact); [apply Hd| |].
      { apply elem_of_open_states. exists x. split_and!; [done| |done].
        unfold open_for. rewrite Ho. simpl. by apply String.eqb_eq. }
      rewrite Hrows in Hr. destruct (db_jobs db !! at_job x) as [r0|]; [|done]. simpl in Hr.
      injection Hr as <-. by rewrite (proj1 (recovered_row_fields r0)) in Hact.
    + intros id r' Hr'. rewrite Hrows in Hr'. destruct (db_jobs db !! id) as [r|]; [|done].
      simpl in Hr'. injection Hr' as <-. destruct (recovered_row_fields r) as [H1 H2].
      split; [done|]. by exists r.
Qed.

(** ** handle_attempt_failure *)

(** The failed job is not waiting, so its own row does not matter. *)
Lemma blocked_by_ext db db' failed id :
  db_dependencies db' = db_dependencies db →
  (∀ j r, db_jobs db !! j = Some r → blockable (jr_state r) = true → db_jobs db' !! j = Some r) →
  blocked_by db failed id → blocked_by db' failed id.
Proof.
  intros Ed Hj. induction 1 as [id r He Hr Hb|x id r _ IH He Hr Hb].
  - eapply blocked_direct; [by rewrite Ed|by apply Hj|done].
  - eapply blocked_through; [done|by rewrite Ed|by apply Hj|done].
Qed.

Lemma blocked_by_insert db db' failed r r' id :
  db_dependencies db' = db_dependencies db → db_jobs db !! failed = Some r →
  db_jobs db' = <[failed := r']> (db_jobs db) → blockable (jr_state r) = false →
  blockable (jr_state r') = false → blocked_by db' failed id ↔ blocked_by db failed id.
Proof.
  intros Ed Hr Ej Hb Hb'. split; apply blocked_by_ext; try done; intros m rm Hm Hbm.
  - rewrite Ej, lookup_insert in Hm. case_decide; [|done]. injection Hm as <-. congruence.
  - rewrite Ej, lookup_insert_ne; [done|]. intros <-. congruence.
Qed.

Lemma blocked_outcome_insert db db' failed r r' id rj rj' :
  db_dependencies db' = db_dependencies db → db_jobs db !! failed = Some r →
  db_jobs db' = <[failed := r']> (db_jobs db) → blockable (jr_state r) = false →
  blockable (jr_state r') = false →
  blocked_outcome db' failed id rj rj' → blocked_outcome db failed id rj rj'.
Proof.
  intros Ed Hr Ej Hb Hb'.
  pose proof (λ k, blocked_by_insert db db' failed r r' k Ed Hr Ej Hb Hb') as Hiff.
  intros [(Hbl & p & Hp & Hpb & ->)|(Hbl & ->)]; [left|right].
  - rewrite <-Hiff. split; [done|]. exists p. rewrite <-Hiff, <-Ed. auto.
  - by rewrite <-Hiff.
Qed.

(** The event a failed attempt is reported with, and where it leads. *)
Definition failure_event (failure : FailureRecord) : JobEvent :=
  if bool_decide (fr_kind failure = FkResourceExceeded)
  then EvResourceExceeded failure else EvExecutionFailed failure.

Definition failure_state (failure : FailureRecord) : JobState :=
  if bool_decide (fr_kind failure = FkResourceExceeded) then ResourceExceeded else ExecutionFailed.

(** The arguments [handle_attempt_failure] accepts. *)
Definition accepted_observation (failure : FailureRecord) (obs : option (ReservationKey * Z)) : Prop :=
  match obs with
  | Some (_, peak) => fr_kind failure = FkResourceExceeded ∧ in_u64 peak ∧ in_i64 peak
  | None => fr_kind failure = FkExecution
  end.

Lemma observation_total failure obs db :
  accepted_observation failure obs →
  ∃ d, (match obs with
        | Some (key, peak) => record_resource_peak_tx clock key peak
        | None => tx_ret tt
        end) db = Ok (tt, d) ∧ db_jobs d = db_jobs db ∧ db_attempts d = db_attempts db ∧
        db_dependencies d = db_dependencies db ∧ db_run_id d = db_run_id db ∧
        db_verifications d = db_verifications db.
Proof using clock_ok.
  intros H. destruct obs as [[key peak]|]; [|by eexists].
  destruct H as (_ & H0 & H1). unfold record_resource_peak_tx, exact_peak_to_sql, tx_bind, tx_lift.
  destruct (clock_ok (db_clock_reads db)) as [now Hnow].
  assert (try_i64 peak = Some peak) as -> by (by apply try_i64_Some).
  simpl. unfold unix_ms. rewrite Hnow. by eexists.
Qed.

Lemma failure_transition s failure obs :
  is_active s = true → accepted_observation failure obs →
  transition s (failure_event failure) = Ok (failure_state failure).
Proof.
  intros Hs H. unfold failure_event, failure_state.
  assert (fr_kind failure = FkResourceExceeded ∨ fr_kind failure = FkExecution) as [E|E]
    by (destruct obs as [[??]|]; simpl in H; intuition).
  - rewrite bool_decide_eq_true_2 by done.
    destruct s; try done; simpl; unfold kind_is; by rewrite bool_decide_eq_true_2.
  - rewrite bool_decide_eq_false_2 by (by rewrite E).
    destruct s; try done; simpl; unfold kind_is; by rewrite bool_decide_eq_true_2.
Qed.

(** A counter below its limit is bumped, and the job goes back to the queue. *)
Lemma retry_total (b : bool) id a d r x :
  db_inv d → db_jobs d !! id = Some r → x ∈ db_attempts d → at_id x = a → at_job x = id →
  jr_state r = (if b then ResourceExceeded else ExecutionFailed) →
  retry_counter b r < retry_limit b →
  ∃ d1 d2, bump_counter b id d = Ok (tt, d1) ∧
    apply_event_tx clock id (Some a) (if b then RetryResourceExceeded else RetryExecution) None d1 =
      Ok (Requeued, d2) ∧
    db_jobs d2 = <[id := job_after_event ((if b then row_bump_requeues else row_bump_retries) r)
      Requeued (retry_event b) None]> (db_jobs d).
Proof using clock_ok.
  intros Hinv Hr Hx Ea Ej Hst Hlt.
  destruct (inv_rows _ Hinv _ _ Hr) as [_ _ _ (C1 & C2 & _) _ _].
  unfold bump_counter, tx_bind, tx_constraint, tx_update. rewrite Hr.
  rewrite bool_decide_eq_true_2 by (destruct b; unfold retry_counter, retry_limit in *; lia).
  set (r1 := (if b then row_bump_requeues else row_bump_retries) r).
  set (d1 := set_jobs _ d).
  assert (Hj1 : db_jobs d1 = <[id := r1]> (db_jobs d)) by (by apply alter_as_insert).
  destruct (apply_event_total id (Some a) (if b then RetryResourceExceeded else RetryExecution)
    d1 r1 Requeued) as [now E].
  - rewrite Hj1. apply lookup_insert_eq.
  - unfold r1. destruct b; simpl; by rewrite Hst.
  - eapply (references_attempt id a _ d1 r1 x); try done; [|by destruct b..].
    rewrite Hj1. apply lookup_insert_eq.
  - eexists d1, _. split_and!; [done|exact E|].
    unfold db_after_event. simpl. unfold d1. simpl. rewrite (alter_as_insert _ _ _ r) by done.
    rewrite insert_insert_eq. by destruct b.
Qed.

(** A counter at its limit settles the job and blocks what depends on it. *)
Lemma settle_total id d r :
  db_inv d → db_jobs d !! id = Some r → settled_failure (jr_state r) = true →
  blockable (jr_state r) = false →
  ∃ d1 d2, set_terminal_failure id d = Ok (tt, d1) ∧ block_descendants_tx clock id d1 = Ok (tt, d2) ∧
    db_jobs d2 !! id = Some (row_set_terminal r) ∧
    ∀ j, j ≠ id → option_relation (blocked_outcome d id j) (λ _, False) (λ _, False)
      (db_jobs d !! j) (db_jobs d2 !! j).
Proof using clock_ok.
  intros Hinv Hr Hs Hb. unfold set_terminal_failure, tx_update. set (d1 := set_jobs _ d).
  assert (Hj1 : db_jobs d1 = <[id := row_set_terminal r]> (db_jobs d)) by (by apply alter_as_insert).
  assert (Hinv1 : db_inv d1) by (by eapply set_terminal_inv).
  destruct (block_descendants_total id d1 Hinv1) as (d2 & E & _ & Ho).
  exists d1, d2. split_and!; [done..| |].
  - specialize (Ho id). rewrite Hj1, lookup_insert_eq in Ho.
    destruct (db_jobs d2 !! id) as [r2|]; [|done]. simpl in Ho.
    destruct Ho as [(Hbl & _)|(_ & ->)]; [|done].
    exfalso. assert (waiting d1 id) as (rj & Hrj & Hbj) by (destruct Hbl; by eexists).
    rewrite Hj1, lookup_insert_eq in Hrj. injection Hrj as <-. simpl in Hbj. congruence.
  - intros j Hne. specialize (Ho j). rewrite Hj1, lookup_insert_ne in Ho by done.
    destruct (db_jobs d !! j) as [rj|], (db_jobs d2 !! j) as [rj'|]; simpl in *; try done.
    by eapply blocked_outcome_insert; [..|exact Ho].
Qed.

(** The row of a job whose attempt has just failed. *)
Definition failed_row (failure : FailureRecord) (r : JobRow) : JobRow :=
  job_after_event r (failure_state failure) (failure_event failure) None.

Lemma accepted_guard failure obs :
  accepted_observation failure obs →
  negb (Bool.eqb (bool_decide (fr_kind failure = FkResourceExceeded)) (bool_decide (is_Some obs)))
    || negb (bool_decide (fr_kind failure = FkExecution)
             || bool_decide (fr_kind failure = FkResourceExceeded)) = false.
Proof. intros H. destruct obs as [[??]|]; simpl in H; [destruct H as [-> _]|rewrite H]; done. Qed.

Lemma require_open_total id a db :
  open_attempt_ids id db = [a] → require_unique_open_attempt id a db = Ok (tt, db).
Proof.
  intros H. unfold require_unique_open_attempt, tx_bind, tx_get. by rewrite H, String.eqb_refl.
Qed.

(** Up to the retry decision: the failure is logged and the attempt closed. *)
Lemma failure_reported id a failure obs db r :
  let b := bool_decide (fr_kind failure = FkResourceExceeded) in
  db_inv db → db_jobs db !! id = Some r → open_attempt_ids id db = [a] →
  accepted_observation failure obs →
  ∃ d1 y, handle_attempt_failure clock id a failure obs db =
    (if retry_counter b (failed_row failure r) <? retry_limit b then
      let! _ := bump_counter b id in
      let! _ := apply_event_tx clock id (Some a) (if b then RetryResourceExceeded else RetryExecution) None in
      tx_ret DecisionRequeued
    else
      let! _ := set_terminal_failure id in
      let! _ := block_descendants_tx clock id in
      tx_ret DecisionTerminal) d1 ∧
    db_inv d1 ∧ db_jobs d1 = <[id := failed_row failure r]> (db_jobs db) ∧
    db_dependencies d1 = db_dependencies db ∧ is_active (jr_state r) = true ∧
    y ∈ db_attempts d1 ∧ at_id y = a ∧ at_job y = id.
Proof using clock_ok.
  intros b Hinv Hrow Hopen Hobs.
  destruct (open_attempt_active id a db Hinv) as (r0 & Hr0 & Hact & _); [by rewrite Hopen; left|].
  assert (r0 = r) as -> by congruence.
  assert (a ∈ open_attempt_ids id db) as (x & Hx & Hox & Ex)%open_attempt_elem by (rewrite Hopen; by left).
  apply open_for_true in Hox as [_ Exj].
  destruct (observation_total failure obs db Hobs) as (d0 & E0 & Ej0 & Ea0 & Ed0 & Er0 & Ev0).
  destruct (apply_event_total id (Some a) (failure_event failure) d0 r (failure_state failure)) as [now E1].
  { by rewrite Ej0. }
  { by eapply failure_transition. }
  { rewrite <-Ej0 in Hrow. rewrite <-Ea0 in Hx.
    eapply references_attempt; try done; unfold failure_event; by case_bool_decide. }
  destruct (attempt_survives id (Some a) (failure_event failure) None r (failure_state failure) now d0 x)
    as (y & Hy & Ey & Eyj); [by rewrite Ea0|].
  set (d1 := db_after_event _ _ _ _ _ _ _ _) in *.
  assert (Hj1 : db_jobs d1 = <[id := failed_row failure r]> (db_jobs db)) by (unfold d1; simpl; by rewrite Ej0).
  exists d1, y. split_and!; [|..|done|done|done|congruence|congruence].
  - unfold handle_attempt_failure. fold b. pose proof (accepted_guard _ _ Hobs) as Hg. fold b in Hg.
    rewrite Hg. unfold tx_bind at 1. rewrite (require_open_total id a db Hopen).
    unfold tx_bind at 1. rewrite E0. unfold tx_bind at 1.
    change (if b then EvResourceExceeded failure else EvExecutionFailed failure) with (failure_event failure).
    rewrite E1. unfold tx_bind at 1.
    rewrite (proj2 (job_Ok id d1 (failed_row failure r) d1)); [done|].
    split; [rewrite Hj1; apply lookup_insert_eq|done].
  - eapply apply_event_inv; [by eapply (db_inv_ext db)|..|exact E1];
      unfold failure_event; by case_bool_decide.
  - done.
Qed.

(** A reported attempt failure is always decided: with the job's own open
    attempt and an accepted observation the call succeeds, requeues the job and
    counts the retry while fewer than two execution retries (three resource
    requeues) have been spent, leaving every other job alone, and otherwise
    marks the job terminally failed, keeps its counters, and blocks exactly the
    jobs the failure reaches. *)
Theorem handle_attempt_failure_spec (id : JobId) (a : AttemptId) (failure : FailureRecord)
    (obs : option (ReservationKey * Z)) (db : RunDb) (r : JobRow)
    (Hinv : db_inv db) (Hrow : db_jobs db !! id = Some r) (Hopen : open_attempt_ids id db = [a])
    (Hobs : accepted_observation failure obs) :
  let is_resource := bool_decide (fr_kind failure = FkResourceExceeded) in
  ∃ decision db', handle_attempt_failure clock id a failure obs db = Ok (decision, db') ∧
    if retry_counter is_resource r <? retry_limit is_resource then
      decision = DecisionRequeued ∧
      (∀ j, j ≠ id → db_jobs db' !! j = db_jobs db !! j) ∧
      ∃ r', db_jobs db' !! id = Some r' ∧ jr_state r' = Requeued ∧
        retry_counter is_resource r' = retry_counter is_resource r + 1 ∧
        retry_counter (negb is_resource) r' = retry_counter (negb is_resource) r
    else
      decision = DecisionTerminal ∧
      db_jobs db' !! id = Some (row_set_terminal (failed_row failure r)) ∧
      ∀ j, j ≠ id → option_relation (blocked_outcome db id j) (λ _, False) (λ _, False)
        (db_jobs db !! j) (db_jobs db' !! j).
Proof using clock_ok.
  intros b.
  destruct (failure_reported id a failure obs db r Hinv Hrow Hopen Hobs)
    as (d1 & y & Hrun & Hinv1 & Hj1 & Hd1 & Hact & Hy & Ey & Eyj). fold b in Hrun.
  assert (Hr1 : db_jobs d1 !! id = Some (failed_row failure r)) by (rewrite Hj1; apply lookup_insert_eq).
  assert (Hs1 : jr_state (failed_row failure r) = if b then ResourceExceeded else ExecutionFailed)
    by (unfold failed_row; by rewrite job_after_event_state).
  destruct (job_after_event_fields r (failure_state failure) (failure_event failure) None)
    as (_ & _ & _ & _ & Fe & Fq & _). fold (failed_row failure r) in Fe, Fq.
  assert (Hcount : ∀ c, retry_counter c (failed_row failure r) = retry_counter c r)
    by (intros []; unfold retry_counter; done).
  rewrite Hrun, Hcount. destruct (retry_counter b r <? retry_limit b) eqn:Hlt.
  - apply Z.ltb_lt in Hlt.
    destruct (retry_total b id a d1 _ y Hinv1 Hr1 Hy) as (d2 & d3 & E2 & E3 & Hj3);
      [congruence|congruence|done|by rewrite Hcount|].
    unfold tx_bind. rewrite E2, E3. eexists _, _. split_and!; [done..| |].
    + intros j Hj. by rewrite Hj3, Hj1, !lookup_insert_ne by done.
    + eexists. rewrite Hj3, lookup_insert_eq. split; [done|]. rewrite job_after_event_state.
      split; [done|]. destruct b; unfold retry_counter; simpl; by rewrite ?Fe, ?Fq.
  - destruct (settle_total id d1 _ Hinv1 Hr1) as (d2 & d3 & E2 & E3 & Hr3 & Ho);
      [rewrite Hs1; by destruct b..|].
    unfold tx_bind. rewrite E2, E3. eexists _, _. split_and!; [done..|].
    intros j Hj. specialize (Ho j Hj). rewrite Hj1, lookup_insert_ne in Ho by done.
    destruct (db_jobs db !! j) as [rj|], (db_jobs d3 !! j) as [rj'|]; simpl in *; try done.
    eapply (blocked_outcome_insert db d1); [done..| | |exact Ho]; [by destruct (jr_state r)|].
    rewrite Hs1. by destruct b.
Qed.

End Methods.

(** ** Witnesses *)

Lemma demo_clock_ok n : is_Some (demo_clock n).
Proof. by eexists. Qed.

Lemma refresh_readiness_spec_witness :
  let db := run_ops demo_clock "r" (take 3 demo_ops) in
  ∃ n db', refresh_readiness demo_clock db = Ok (n, db') ∧
    n = length (promotable db (readiness_candidates db)) ∧
    db_dependencies db' = db_dependencies db ∧
    ∀ id, option_relation (refresh_outcome db db' id) (λ _, False) (λ _, False)
      (db_jobs db !! id) (db_jobs db' !! id).
Proof. intros db. exact (refresh_readiness_spec demo_clock demo_clock_ok db (demo_inv _)). Defined.

Lemma block_descendants_spec_witness :
  let db := run_ops demo_clock "r" (take 3 demo_ops) in
  ∃ db', block_descendants_tx demo_clock "r:w" db = Ok (tt, db') ∧
    ∀ id, option_relation (blocked_outcome db "r:w" id) (λ _, False) (λ _, False)
      (db_jobs db !! id) (db_jobs db' !! id).
Proof. intros db. exact (block_descendants_spec demo_clock demo_clock_ok "r:w" db (demo_inv _)). Defined.

(** The database of a run stopped in the middle of its first attempt. *)
Definition demo_running : RunDb := run_ops demo_clock "r" (take 5 demo_ops).

Lemma recover_interrupted_spec_witness :
  ∃ db', recover_interrupted demo_clock demo_running = Ok (length (open_attempts demo_running), db') ∧
    length (open_attempts demo_running) = 1%nat ∧
    Forall (λ a, is_open a = false) (db_attempts db').
Proof.
  destruct (recover_interrupted_spec demo_clock demo_clock_ok demo_running (demo_inv _))
    as (db' & E & Hopen & _).
  exists db'. split; [exact E|]. split; [by vm_compute|exact Hopen].
Defined.

Definition demo_failure : FailureRecord := failure_new FkExecution FsWitness WorkerExit.

Lemma handle_attempt_failure_spec_witness :
  ∃ db', handle_attempt_failure demo_clock "r:w" "r:w:attempt:1" demo_failure None demo_running =
    Ok (DecisionRequeued, db').
Proof.
  destruct (db_jobs demo_running !! "r:w") as [r|] eqn:Hr; [|by vm_compute in Hr].
  destruct (handle_attempt_failure_spec demo_clock demo_clock_ok "r:w" "r:w:attempt:1" demo_failure None
    demo_running r (demo_inv _) Hr ltac:(by vm_compute) ltac:(by vm_compute)) as (d & db' & E & H).
  exists db'. rewrite E. f_equal. f_equal.
  assert (jr_execution_retries <$> Some r = Some 0) as Hc by (rewrite <-Hr; by vm_compute).
  injection Hc as Hc.
  assert (retry_counter (bool_decide (fr_kind demo_failure = FkResourceExceeded)) r <?
    retry_limit (bool_decide (fr_kind demo_failure = FkResourceExceeded)) = true) as Hlt
    by (change (jr_execution_retries r <? 2 = true); by rewrite Hc).
  rewrite Hlt in H. exact (proj1 H).
Defined.
