(* ===== verification/Scheduler.v ===== *)
(** * The scheduler

    crates/zkie-runtime/src/scheduler.rs.  The scheduler reads the run database
    through the three calls of [ReadinessDb]; it is modelled and proved against
    that interface, and [RunDb] implements it.  A panic of [expect] is the
    outcome [None], which the theorems exclude. *)
From S2P Require Import Prelude Ordering Bytes Resource State Identity Estimate Monitor.
From S2P Require Import RunDb RunDbProofs RunDbSteps RunDbMethods.

Open Scope string_scope.
Open Scope Z_scope.
Open Scope list_scope.

Definition DEFAULT_AGING_SECONDS : Z := 600.

(** What the scheduler needs of the run database. *)
Class ReadinessDb (DB E : Type) := {
  rd_refresh_readiness : DB → Result (nat * DB) E;
  rd_job_state : JobId → DB → Result JobState E;
  rd_required_predecessors_verified : JobId → DB → Result bool E
}.

Record SchedulerConfig := mkConfig {
  cfg_capacity : ResourceCapacity;
  cfg_aging_seconds : Z
}.

Definition config_new (capacity : ResourceCapacity) : SchedulerConfig :=
  mkConfig capacity DEFAULT_AGING_SECONDS.

Record SchedulableJob := mkCandidate {
  sj_job_id : JobId;
  sj_request : ResourceRequest;
  sj_ready_since_unix_seconds : Z
}.

Record SchedulerDecision := mkDecision {
  sd_selected : list JobId;
  sd_remaining : ResourceCapacity;
  sd_reserved_for : option JobId
}.

Inductive SchedulerError (E : Type) :=
| SchedulerDatabase (error : E)
| DuplicateCandidate (job : JobId).
Arguments SchedulerDatabase {E} _.
Arguments DuplicateCandidate {E} _.

(** ** Scoring *)

Definition normalized_leftover (leftover capacity scale : Z) : Z :=
  if capacity =? 0 then 0 else leftover * scale / capacity.

Definition SCALE : Z := 1000000000000.

Definition fit_score (request : ResourceRequest) (available : ResourceCapacity) : Z :=
  let score :=
    normalized_leftover (cap_ram_bytes available - rq_ram_bytes request) (cap_ram_bytes available) SCALE
    + normalized_leftover (cap_cpu_cores available - rq_cpu_cores request) (cap_cpu_cores available) SCALE in
  if negb (cap_gpu_count available =? 0) then
    let score := score
      + normalized_leftover (cap_gpu_count available - rq_gpu_count request) (cap_gpu_count available) SCALE in
    if negb (rq_gpu_count request =? 0) then
      score + normalized_leftover
        (cap_gpu_vram_bytes_per_device available - rq_gpu_vram_bytes_per_device request)
        (cap_gpu_vram_bytes_per_device available) SCALE
    else score
  else score.

Definition compare_fit (available : ResourceCapacity) (left right : SchedulableJob) : comparison :=
  then_with
    (then_with
      (Z.compare (fit_score (sj_request left) available) (fit_score (sj_request right) available))
      (Z.compare (sj_ready_since_unix_seconds left) (sj_ready_since_unix_seconds right)))
    (String.compare (sj_job_id left) (sj_job_id right)).

(** The order [eligible] is sorted in: oldest first. *)
Definition compare_age (left right : SchedulableJob) : comparison :=
  then_with (Z.compare (sj_ready_since_unix_seconds left) (sj_ready_since_unix_seconds right))
    (String.compare (sj_job_id left) (sj_job_id right)).

(** ** Selection *)

(** The index of the best candidate that fits. *)
Definition best_index (remaining : ResourceCapacity) (eligible : list SchedulableJob) : option nat :=
  fst <$> min_by (λ l r, compare_fit remaining (snd l) (snd r))
    (filter (λ ic, fits remaining (sj_request (snd ic)) = true) (enumerate eligible)).

(** The selection loop: every iteration removes a candidate, so as many
    iterations as candidates suffice; running out of fuel is a panic. *)
Fixpoint select_loop (fuel : nat) (remaining : ResourceCapacity) (eligible : list SchedulableJob)
    (selected : list JobId) : option (list JobId * ResourceCapacity) :=
  match best_index remaining eligible with
  | None => Some (selected, remaining)
  | Some i =>
      match fuel with
      | O => None
      | S fuel =>
          best ← eligible !! i;
          remaining ← checked_reserve remaining (sj_request best);
          select_loop fuel remaining (delete i eligible) (selected ++ [sj_job_id best])
      end
  end.

(** [available] bounded by the configured capacity. *)
Definition bounded (config : SchedulerConfig) (available : ResourceCapacity) : ResourceCapacity :=
  let capacity := cfg_capacity config in
  let gpu_count := Z.min (cap_gpu_count available) (cap_gpu_count capacity) in
  mkCapacity (Z.min (cap_cpu_cores available) (cap_cpu_cores capacity))
    (Z.min (cap_ram_bytes available) (cap_ram_bytes capacity)) gpu_count
    (if gpu_count =? 0 then 0
     else Z.min (cap_gpu_vram_bytes_per_device available) (cap_gpu_vram_bytes_per_device capacity)).

Definition is_aged (config : SchedulerConfig) (now : Z) (candidate : SchedulableJob) : bool :=
  fits (cfg_capacity config) (sj_request candidate) &&
  (cfg_aging_seconds config <=? saturating_sub_i64 now (sj_ready_since_unix_seconds candidate)).

(** From the sort of the eligible candidates to the decision. *)
Definition plan_selection (config : SchedulerConfig) (now : Z) (eligible : list SchedulableJob)
    (available : ResourceCapacity) : option SchedulerDecision :=
  let eligible := sort_by compare_age eligible in
  let aged := snd <$> list_find (λ c, is_aged config now c = true) eligible in
  match aged with
  | Some aged =>
      if negb (fits available (sj_request aged)) then
        Some (mkDecision [] available (Some (sj_job_id aged)))
      else
        remaining ← checked_reserve available (sj_request aged);
        let eligible := filter (λ c, sj_job_id c ≠ sj_job_id aged) eligible in
        '(selected, remaining) ← select_loop (length eligible) remaining eligible [sj_job_id aged];
        Some (mkDecision selected remaining None)
  | None =>
      '(selected, remaining) ← select_loop (length eligible) available eligible [];
      Some (mkDecision selected remaining None)
  end.

(** The [BTreeSet] loop: the first candidate whose id was already seen. *)
Fixpoint duplicate_candidate (seen : gset JobId) (candidates : list SchedulableJob) : option JobId :=
  match candidates with
  | [] => None
  | c :: rest =>
      if decide (sj_job_id c ∈ seen) then Some (sj_job_id c)
      else duplicate_candidate ({[sj_job_id c]} ∪ seen) rest
  end.

Section Decide.
Context {DB E : Type} `{ReadinessDb DB E}.

Fixpoint collect_eligible (db : DB) (candidates : list SchedulableJob) : Result (list SchedulableJob) E :=
  match candidates with
  | [] => Ok []
  | c :: rest =>
      let? state := rd_job_state (sj_job_id c) db in
      let? verified := (if bool_decide (state = Ready)
                        then rd_required_predecessors_verified (sj_job_id c) db else Ok false) in
      let? eligible := collect_eligible db rest in
      Ok (if verified then c :: eligible else eligible)
  end.

(** [Scheduler::decide]: the outcome ([None] is a panic) and the database, which keeps
    the refreshed readiness even when a later read fails. *)
Definition scheduler_decide (config : SchedulerConfig) (now : Z) (db : DB) (candidates : list SchedulableJob)
    (available : ResourceCapacity) : option (Result SchedulerDecision (SchedulerError E)) * DB :=
  match duplicate_candidate ∅ candidates with
  | Some job => (Some (Err (DuplicateCandidate job)), db)
  | None =>
      match rd_refresh_readiness db with
      | Err e => (Some (Err (SchedulerDatabase e)), db)
      | Ok (_, db) =>
          match collect_eligible db candidates with
          | Err e => (Some (Err (SchedulerDatabase e)), db)
          | Ok eligible => (Ok <$> plan_selection config now eligible (bounded config available), db)
          end
      end
  end.

Definition decide_with_memory (config : SchedulerConfig) (now : Z) (db : DB)
    (candidates : list SchedulableJob) (available : ResourceCapacity) (memory : MemoryAction)
    : option (Result SchedulerDecision (SchedulerError E)) * DB :=
  if negb (bool_decide (memory = Admit)) then (Some (Ok (mkDecision [] available None)), db)
  else scheduler_decide config now db candidates available.

End Decide.

(** ** Best fit as a specification *)

(** A run of the selection rule: while something fits, take a candidate that
    fits and that no fitting candidate precedes in [compare_fit]. *)
Inductive best_fit_run : ResourceCapacity → list SchedulableJob → list SchedulableJob →
    ResourceCapacity → Prop :=
| best_fit_stop remaining eligible :
    (∀ c, c ∈ eligible → fits remaining (sj_request c) = false) →
    best_fit_run remaining eligible [] remaining
| best_fit_pick remaining remaining' final c eligible eligible' chosen :
    eligible ≡ₚ c :: eligible' →
    (∀ c', c' ∈ eligible → fits remaining (sj_request c') = true → compare_fit remaining c c' ≠ Gt) →
    checked_reserve remaining (sj_request c) = Some remaining' →
    best_fit_run remaining' eligible' chosen final →
    best_fit_run remaining eligible (c :: chosen) final.

#[export] Instance compare_fit_total available : TotalCompare (compare_fit available).
Proof. unfold compare_fit. apply _. Qed.
#[export] Instance compare_age_total : TotalCompare compare_age.
Proof. unfold compare_age. apply _. Qed.

Lemma best_index_Some remaining eligible i :
  best_index remaining eligible = Some i →
  ∃ c, eligible !! i = Some c ∧ fits remaining (sj_request c) = true ∧
    ∀ c', c' ∈ eligible → fits remaining (sj_request c') = true → compare_fit remaining c c' ≠ Gt.
Proof.
  unfold best_index. intros ([j c] & Hm & E)%fmap_Some. simpl in E. subst j.
  apply (min_by_Some (λ l r, compare_fit remaining (snd l) (snd r))) in Hm as [Hin Hmin].
  apply list_elem_of_filter in Hin as [Hfit Hin%elem_of_enumerate]. exists c. split_and!; [done..|].
  intros c' (k & Hk)%list_elem_of_lookup Hfit'. apply (Hmin (k, c')).
  apply list_elem_of_filter. by rewrite elem_of_enumerate.
Qed.

Lemma best_index_None remaining eligible :
  best_index remaining eligible = None →
  ∀ c, c ∈ eligible → fits remaining (sj_request c) = false.
Proof.
  unfold best_index. intros Hn%fmap_None c (k & Hk)%list_elem_of_lookup.
  apply min_by_None in Hn. destruct (fits _ _) eqn:E; [|done].
  rewrite filter_nil_iff in Hn. destruct (Hn (k, c)); [by apply elem_of_enumerate|done].
Qed.

(** The loop is a run of the rule, and never panics. *)
Lemma select_loop_best_fit fuel remaining eligible selected :
  (length eligible ≤ fuel)%nat →
  ∃ chosen final, select_loop fuel remaining eligible selected =
      Some (selected ++ (sj_job_id <$> chosen), final) ∧
    best_fit_run remaining eligible chosen final.
Proof.
  revert remaining eligible selected.
  induction fuel as [|fuel IH]; intros remaining eligible selected Hlen; simpl.
  - destruct eligible; [|simpl in Hlen; lia]. exists [], remaining. rewrite app_nil_r.
    split; [done|]. constructor. by intros c []%not_elem_of_nil.
  - destruct (best_index remaining eligible) as [i|] eqn:Eb.
    + apply best_index_Some in Eb as (c & Hi & Hfit & Hmin). rewrite Hi. simpl.
      destruct (checked_reserve remaining (sj_request c)) as [remaining'|] eqn:Er.
      2: { apply checked_reserve_is_Some in Hfit as [? ?]. congruence. }
      simpl. destruct (IH remaining' (delete i eligible) (selected ++ [sj_job_id c]))
        as (chosen & final & -> & Hrun).
      { rewrite length_delete by eauto. lia. }
      exists (c :: chosen), final. rewrite <-app_assoc. split; [done|].
      eapply best_fit_pick; [by apply delete_Permutation|done|done|done].
    + exists [], remaining. rewrite app_nil_r. split; [done|]. constructor. by apply best_index_None.
Qed.

(** What every run of the rule guarantees. *)
Lemma best_fit_run_sound remaining eligible chosen final :
  best_fit_run remaining eligible chosen final →
  reserve_all remaining (sj_request <$> chosen) = Some final ∧
  ∃ left, eligible ≡ₚ chosen ++ left ∧ ∀ c, c ∈ left → fits final (sj_request c) = false.
Proof.
  induction 1 as [remaining eligible Hno|remaining remaining' final c eligible eligible' chosen Hp Hmin Hr _ IH];
    simpl.
  - split; [done|]. by exists eligible.
  - rewrite Hr. destruct IH as (Hres & left & Hperm & Hleft). split; [done|].
    exists left. by rewrite Hp, Hperm.
Qed.

(** ** The decision *)

(** The specification of a decision over the eligible candidates. *)
Definition decision_spec (config : SchedulerConfig) (now : Z) (eligible : list SchedulableJob)
    (available : ResourceCapacity) (d : SchedulerDecision) : Prop :=
  (* an aged candidate, the oldest such, goes first or has the machine reserved for it *)
  (∃ a, a ∈ eligible ∧ is_aged config now a = true ∧
     (∀ c, c ∈ eligible → is_aged config now c = true → compare_age a c ≠ Gt) ∧
     ((fits available (sj_request a) = false ∧ d = mkDecision [] available (Some (sj_job_id a))) ∨
      (∃ remaining rest chosen, checked_reserve available (sj_request a) = Some remaining ∧
         eligible ≡ₚ a :: rest ∧ best_fit_run remaining rest chosen (sd_remaining d) ∧
         sd_selected d = sj_job_id <$> (a :: chosen) ∧ sd_reserved_for d = None))) ∨
  (* otherwise the candidates are taken best fit first *)
  ((∀ c, c ∈ eligible → is_aged config now c = false) ∧
   ∃ chosen, best_fit_run available eligible chosen (sd_remaining d) ∧
     sd_selected d = sj_job_id <$> chosen ∧ sd_reserved_for d = None).

Lemma best_fit_run_perm remaining l l' chosen final :
  l ≡ₚ l' → best_fit_run remaining l chosen final → best_fit_run remaining l' chosen final.
Proof.
  intros Hp Hr. destruct Hr as [remaining l Hno|remaining r' final c l l0 chosen Hl Hmin Hres Hrun].
  - constructor. intros c. rewrite <-Hp. apply Hno.
  - eapply best_fit_pick; [by rewrite <-Hp| |done|done]. intros c'. rewrite <-Hp. apply Hmin.
Qed.

Lemma filter_other_ids (l : list SchedulableJob) a :
  NoDup (sj_job_id <$> l) → a ∈ l → l ≡ₚ a :: filter (λ c, sj_job_id c ≠ sj_job_id a) l.
Proof.
  intros Hnd Ha. apply list_elem_of_split in Ha as (l1 & l2 & ->).
  rewrite fmap_app in Hnd. simpl in Hnd. apply NoDup_app in Hnd as (_ & Hd & [Hn _]%NoDup_cons).
  rewrite filter_app, filter_cons_False by tauto.
  assert (Hkeep : ∀ l : list SchedulableJob, (∀ c, c ∈ l → sj_job_id c ≠ sj_job_id a) →
    filter (λ c, sj_job_id c ≠ sj_job_id a) l = l).
  { intros l Hl. induction l as [|c l IH]; [done|]. rewrite filter_cons_True by (apply Hl; by left).
    f_equal. apply IH. intros c' Hc'. apply Hl. by right. }
  rewrite !Hkeep; [by rewrite Permutation_middle| |].
  - intros c Hc E. apply Hn. rewrite <-E. by apply list_elem_of_fmap_2.
  - intros c Hc E. eapply (Hd (sj_job_id c)); [by apply list_elem_of_fmap_2|]. rewrite E. by left.
Qed.

(** The first element of a sorted list that satisfies a predicate is the least. *)
Lemma sorted_find_least {A} (R : A → A → Prop) (P : A → Prop) `{∀ x, Decision (P x)} l i a :
  (∀ x, R x x) → StronglySorted R l → list_find P l = Some (i, a) → ∀ c, c ∈ l → P c → R a c.
Proof.
  intros Hrefl Hs. revert i. induction Hs as [|x l Hs IH Hx]; simpl; intros i Hf c Hc HP; [done|].
  case_decide as Hd.
  - injection Hf as _ <-. apply elem_of_cons in Hc as [->|Hc]; [apply Hrefl|].
    rewrite Forall_forall in Hx. by apply Hx.
  - apply elem_of_cons in Hc as [->|Hc]; [done|].
    destruct (list_find P l) as [[j b]|] eqn:E; [|done]. simpl in Hf. injection Hf as _ <-.
    by eapply IH.
Qed.

Lemma plan_selection_spec config now eligible available :
  NoDup (sj_job_id <$> eligible) →
  ∃ d, plan_selection config now eligible available = Some d ∧ decision_spec config now eligible available d.
Proof.
  intros Hnd. unfold plan_selection. set (sorted := sort_by compare_age eligible).
  assert (Hp : sorted ≡ₚ eligible) by apply sort_by_Permutation.
  assert (Hnd' : NoDup (sj_job_id <$> sorted)) by (by rewrite Hp).
  destruct (list_find _ sorted) as [[i a]|] eqn:Ef; simpl.
  - pose proof Ef as (Hi & Haged & _)%list_find_Some. apply list_elem_of_lookup_2 in Hi.
    assert (Hleast : ∀ c, c ∈ eligible → is_aged config now c = true → compare_age a c ≠ Gt).
    { intros c Hc. rewrite <-Hp in Hc. revert c Hc. 
      refine (sorted_find_least (cmp_le compare_age) (λ c, is_aged config now c = true) sorted i a _ _ Ef).
      - intros x. unfold cmp_le. by rewrite (cmp_refl compare_age).
      - apply sort_by_sorted, _. }
    destruct (fits available (sj_request a)) eqn:Hfit; simpl.
    + destruct (checked_reserve available (sj_request a)) as [remaining|] eqn:Er.
      2: { apply checked_reserve_is_Some in Hfit as [? ?]. congruence. }
      simpl. set (rest := filter _ sorted).
      destruct (select_loop_best_fit (length rest) remaining rest [sj_job_id a])
        as (chosen & final & -> & Hrun); [done|]. simpl.
      eexists. split; [done|]. left. exists a. split_and!; [by rewrite <-Hp|done|done|right].
      exists remaining, rest, chosen. split_and!; try done.
      rewrite <-Hp. by apply filter_other_ids.
    + eexists. split; [done|]. left. exists a. split_and!; [by rewrite <-Hp|done|done|by left].
  - destruct (select_loop_best_fit (length sorted) available sorted []) as (chosen & final & -> & Hrun);
      [done|]. simpl. eexists. split; [done|]. right. split.
    + intros c Hc. rewrite <-Hp in Hc. apply list_find_None in Ef. rewrite Forall_forall in Ef.
      specialize (Ef c Hc). by destruct (is_aged config now c).
    + exists chosen. split_and!; try done. by eapply best_fit_run_perm.
Qed.

Lemma duplicate_candidate_None seen l :
  duplicate_candidate seen l = None ↔
  NoDup (sj_job_id <$> l) ∧ ∀ c, c ∈ l → sj_job_id c ∉ seen.
Proof.
  revert seen. induction l as [|c l IH]; intros seen; simpl.
  { split; [|done]. intros _. split; [constructor|]. by intros c []%not_elem_of_nil. }
  case_decide as Hc.
  - split; [done|]. intros [_ H]. destruct (H c); [by left|done].
  - rewrite IH, NoDup_cons. split.
    + intros [Hnd Hl]. split_and!; [|done|].
      * intros (d & E & Hd)%list_elem_of_fmap. apply (Hl d Hd). rewrite E. set_solver.
      * intros d [->|Hd]%elem_of_cons; [done|]. specialize (Hl d Hd). set_solver.
    + intros [[Hn Hnd] Hl]. split; [done|]. intros d Hd. apply not_elem_of_union. split.
      * rewrite not_elem_of_singleton. intros E. apply Hn. rewrite <-E. by apply list_elem_of_fmap_2.
      * apply Hl. by right.
Qed.

Section DecideProofs.
Context {DB E : Type} `{ReadinessDb DB E}.

(** A candidate that may be scheduled on a database. *)
Definition schedulable (db : DB) (c : SchedulableJob) : Prop :=
  rd_job_state (sj_job_id c) db = Ok Ready ∧
  rd_required_predecessors_verified (sj_job_id c) db = Ok true.

Lemma collect_eligible_Ok db candidates eligible :
  collect_eligible db candidates = Ok eligible →
  eligible `sublist_of` candidates ∧ ∀ c, c ∈ eligible ↔ c ∈ candidates ∧ schedulable db c.
Proof.
  revert eligible. induction candidates as [|c l IH]; intros eligible; simpl.
  { intros [= <-]. split; [done|]. intros c. split; [by intros []%not_elem_of_nil|].
    by intros [[]%not_elem_of_nil _]. }
  rewrite result_bind_Ok. intros (state & Hs & (verified & Hv & (rest & Hrest & [= <-])%result_bind_Ok)%result_bind_Ok).
  destruct (IH _ Hrest) as [Hsub Hiff]. assert (Hc : schedulable db c ↔ verified = true).
  { unfold schedulable. rewrite Hs. case_bool_decide as Hr; [subst; rewrite Hv; naive_solver|].
    split; [intros [[= ->] _]; done|]. injection Hv as <-. done. }
  destruct verified.
  - split; [by constructor|]. intros d. rewrite !elem_of_cons, Hiff. naive_solver.
  - split; [by constructor|]. intros d. rewrite elem_of_cons, Hiff. naive_solver.
Qed.

Lemma eligible_decision config now db candidates available eligible :
  NoDup (sj_job_id <$> candidates) → collect_eligible db candidates = Ok eligible →
  NoDup (sj_job_id <$> eligible) ∧ (∀ c, c ∈ eligible ↔ c ∈ candidates ∧ schedulable db c) ∧
  ∃ d, plan_selection config now eligible available = Some d ∧ decision_spec config now eligible available d.
Proof.
  intros Hnd [Hsub Hiff]%collect_eligible_Ok.
  assert (Hnd' : NoDup (sj_job_id <$> eligible))
    by (eapply sublist_NoDup; [exact Hnd|by apply fmap_sublist]).
  split_and!; [done|done|]. by apply plan_selection_spec.
Qed.

Lemma decide_outcome (config : SchedulerConfig) (now : Z) (db db' : DB)
    (candidates : list SchedulableJob) (available : ResourceCapacity)
    (out : option (Result SchedulerDecision (SchedulerError E)))
    (Hrun : scheduler_decide config now db candidates available = (out, db')) :
  ∃ result, out = Some result ∧
    match result with
    | Err (DuplicateCandidate job) => ¬ NoDup (sj_job_id <$> candidates) ∧ db' = db
    | Err (SchedulerDatabase e) =>
        NoDup (sj_job_id <$> candidates) ∧
        (rd_refresh_readiness db = Err e ∧ db' = db ∨
         ∃ n, rd_refresh_readiness db = Ok (n, db') ∧ collect_eligible db' candidates = Err e)
    | Ok d =>
        NoDup (sj_job_id <$> candidates) ∧
        ∃ n eligible, rd_refresh_readiness db = Ok (n, db') ∧ NoDup (sj_job_id <$> eligible) ∧
          (∀ c, c ∈ eligible ↔ c ∈ candidates ∧ schedulable db' c) ∧
          decision_spec config now eligible (bounded config available) d
    end.
Proof.
  unfold scheduler_decide in Hrun. destruct (duplicate_candidate ∅ candidates) as [job|] eqn:Ed.
  - injection Hrun as <- <-. eexists. split; [done|]. split; [|done]. intros Hnd.
    rewrite (proj2 (duplicate_candidate_None ∅ candidates)) in Ed; [done|]. split; [done|set_solver].
  - apply duplicate_candidate_None in Ed as [Hnd _].
    destruct (rd_refresh_readiness db) as [[n db1]|e] eqn:Er;
      [|injection Hrun as <- <-; eexists; split; [done|]; split; [done|]; by left].
    destruct (collect_eligible db1 candidates) as [eligible|e] eqn:Ec;
      [|injection Hrun as <- <-; eexists; split; [done|]; split; [done|]; right; by exists n].
    destruct (eligible_decision config now db1 candidates (bounded config available) eligible Hnd Ec)
      as (Hnd' & Hiff & d & Hplan & Hd).
    rewrite Hplan in Hrun. injection Hrun as <- <-. eexists. split; [done|].
    split; [done|]. by exists n, eligible.
Qed.

(** C34. The scheduler never panics and implements best fit with aging: a
    duplicate candidate is rejected before the database is touched; otherwise
    readiness is refreshed, the candidates considered are exactly those the
    refreshed database reports ready with verified predecessors, and the
    decision is either the oldest aged one followed by a best-fit selection of
    the rest, or, when that one does not fit, an empty selection reserved for
    it, or, when none is aged, a best-fit selection. *)
Theorem scheduler_decide_spec (config : SchedulerConfig) (now : Z) (db db' : DB)
    (candidates : list SchedulableJob) (available : ResourceCapacity)
    (out : option (Result SchedulerDecision (SchedulerError E)))
    (Hrun : scheduler_decide config now db candidates available = (out, db')) :
  ∃ result, out = Some result ∧
    match result with
    | Err (DuplicateCandidate job) => ¬ NoDup (sj_job_id <$> candidates) ∧ db' = db
    | Err (SchedulerDatabase e) =>
        NoDup (sj_job_id <$> candidates) ∧
        (rd_refresh_readiness db = Err e ∧ db' = db ∨
         ∃ n, rd_refresh_readiness db = Ok (n, db') ∧ collect_eligible db' candidates = Err e)
    | Ok d =>
        NoDup (sj_job_id <$> candidates) ∧
        ∃ n eligible, rd_refresh_readiness db = Ok (n, db') ∧ NoDup (sj_job_id <$> eligible) ∧
          (∀ c, c ∈ eligible ↔ c ∈ candidates ∧ schedulable db' c) ∧
          decision_spec config now eligible (bounded config available) d
    end.
Proof. exact (decide_outcome config now db db' candidates available out Hrun). Qed.

End DecideProofs.

(** ** Resources *)

Lemma bounded_valid config available :
  capacity_valid (cfg_capacity config) → capacity_valid available →
  capacity_valid (bounded config available).
Proof.
  unfold bounded, capacity_valid, gpu_consistent. simpl.
  intros (?&?&?&?&[? ?]) (?&?&?&?&[? ?]). unfold_ints.
  destruct (Z.eqb_spec (Z.min (cap_gpu_count available) (cap_gpu_count (cfg_capacity config))) 0) as [Hz|Hz].
  - rewrite Hz. repeat split; try lia.
  - repeat split; try lia.
    etrans; [apply Z.mul_le_mono_nonneg; [lia|apply Z.le_min_l|lia|apply Z.le_min_l]|]. lia.
Qed.

(** The jobs a decision takes, in the order they are reserved. *)
Definition chosen_jobs (eligible chosen : list SchedulableJob) (d : SchedulerDecision) : Prop :=
  sd_selected d = sj_job_id <$> chosen ∧ ∃ left, eligible ≡ₚ chosen ++ left ∧
    (sd_reserved_for d = None → ∀ c, c ∈ left → fits (sd_remaining d) (sj_request c) = false).

Lemma decision_chosen config now eligible available d :
  decision_spec config now eligible available d →
  ∃ chosen, chosen_jobs eligible chosen d ∧
    reserve_all available (sj_request <$> chosen) = Some (sd_remaining d).
Proof.
  intros [(a & Ha & Haged & Hold & [(Hfit & ->)|(remaining & rest & chosen & Hres & Hp & Hrun & Hsel & Hnone)])
         |(_ & chosen & Hrun & Hsel & Hnone)].
  - exists []. split; [|done]. split; [done|]. exists eligible. split; [done|]. done.
  - apply best_fit_run_sound in Hrun as (Hall & left & Hleft & Hno). exists (a :: chosen). split.
    + split; [done|]. exists left. rewrite Hp, Hleft. auto.
    + simpl. by rewrite Hres.
  - apply best_fit_run_sound in Hrun as (Hall & left & Hleft & Hno). exists chosen. split; [|done].
    split; [done|]. exists left. auto.
Qed.

(** A place is reserved only for an aged candidate that does not fit now. *)
Lemma decision_reserved config now eligible available d job :
  decision_spec config now eligible available d → sd_reserved_for d = Some job →
  sd_selected d = [] ∧ ∃ a, a ∈ eligible ∧ sj_job_id a = job ∧
    fits (cfg_capacity config) (sj_request a) = true ∧
    cfg_aging_seconds config ≤ saturating_sub_i64 now (sj_ready_since_unix_seconds a) ∧
    fits (sd_remaining d) (sj_request a) = false.
Proof.
  intros [(a & Ha & Haged & _ & [(Hfit & ->)|(?&?&?&?&?&?&?& Hnone)])|(_ & ? & ? & ? & Hnone)] Hjob;
    [|congruence..].
  injection Hjob as <-. split; [done|]. exists a.
  apply andb_true_iff in Haged as [? ?%Z.leb_le]. done.
Qed.

Lemma bounded_vram config available :
  capacity_valid (cfg_capacity config) → capacity_valid available →
  cap_gpu_vram_bytes_per_device (bounded config available) ≤
    Z.min (cap_gpu_vram_bytes_per_device available) (cap_gpu_vram_bytes_per_device (cfg_capacity config)).
Proof.
  unfold bounded, capacity_valid. simpl. unfold_ints. case_match; lia.
Qed.

(** ** The run database implements the interface *)

Definition tx_value {A} (r : Result (A * RunDb) DbError) : Result A DbError :=
  match r with Ok (a, _) => Ok a | Err e => Err e end.

#[export] Instance run_db_readiness (clock : nat → option Z) : ReadinessDb RunDb DbError := {
  rd_refresh_readiness := refresh_readiness clock;
  rd_job_state id db := tx_value (current_state id db);
  rd_required_predecessors_verified id db := tx_value (required_predecessors_verified id db)
}.

Lemma schedulable_run_db clock db c :
  db_inv db → schedulable (H := run_db_readiness clock) db c →
  (∃ r, db_jobs db !! sj_job_id c = Some r ∧ jr_state r = Ready) ∧ all_verified (sj_job_id c) db.
Proof.
  intros Hinv [Hs Hv]. simpl in *. split.
  - destruct (current_state (sj_job_id c) db) as [[s d]|] eqn:E; [|done]. injection Hs as ->.
    apply current_state_Ok in E as (r & Hr & E & _). eauto.
  - destruct (required_predecessors_verified _ _) as [[b d]|] eqn:E; [|done]. injection Hv as ->.
    unfold required_predecessors_verified in E. tx_inv.
    match goal with H : job _ _ = Ok _ |- _ => apply job_Ok in H as [_ ->] end.
    intros p Hp. destruct (inv_dependencies _ Hinv _ _ Hp) as ([rp Hrp] & _).
    exists rp. split; [done|].
    match goal with H : true = forallb _ _ |- _ => symmetry in H; rename H into Hall end.
    rewrite forallb_forall in Hall. specialize (Hall (p, sj_job_id c)). simpl in Hall.
    rewrite String.eqb_refl, Hrp in Hall. simpl in Hall.
    apply list_elem_of_In, Hall in Hp. by apply bool_decide_eq_true in Hp.
Qed.

(** A successful decision keeps the database consistent and is one on the
    schedulable candidates. *)
Lemma decided_run_db clock config now db db' candidates available d :
  db_inv db →
  scheduler_decide (H := run_db_readiness clock) config now db candidates available = (Some (Ok d), db') →
  db_inv db' ∧ ∃ eligible, NoDup (sj_job_id <$> eligible) ∧
    (∀ c, c ∈ eligible ↔ c ∈ candidates ∧ schedulable (H := run_db_readiness clock) db' c) ∧
    decision_spec config now eligible (bounded config available) d.
Proof.
  intros Hinv Hrun. unfold scheduler_decide in Hrun.
  destruct (duplicate_candidate _ _) eqn:Ed; [done|]. apply duplicate_candidate_None in Ed as [Hnd _].
  simpl in Hrun. destruct (refresh_readiness clock db) as [[n d1]|] eqn:Er; [|done].
  destruct (collect_eligible d1 candidates) as [eligible|] eqn:Ec; [|done].
  destruct (eligible_decision config now d1 candidates (bounded config available) eligible Hnd Ec)
    as (Hnd' & Hiff & d' & Hplan & Hd).
  rewrite Hplan in Hrun. injection Hrun as -> ->. split; [|by exists eligible].
  eapply micro_rtc_inv; [exact Hinv|]. by eapply (refresh_readiness_micro clock true).
Qed.

(** C33. Scheduling is safe on the run database: on a consistent database and
    with valid resource values, the jobs selected are distinct, ready, and have
    every predecessor verified; the cores, memory and GPUs they reserve together
    and what remains add up to what the machine has available bounded by the
    configured capacity; each of them needs no more memory per device than both
    the machine and the configuration offer, and that memory is what remains as
    long as a GPU remains.  When the decision reserves no place, no ready
    candidate left out would still fit; when it reserves one, nothing is
    selected, and the place is for a ready candidate that fits the configured
    capacity, has waited for the aging period and does not fit now. *)
Theorem scheduler_decide_safe (clock : nat → option Z) (config : SchedulerConfig) (now : Z)
    (db db' : RunDb) (candidates : list SchedulableJob) (available : ResourceCapacity)
    (d : SchedulerDecision)
    (Hclock : ∀ n, is_Some (clock n)) (Hinv : db_inv db)
    (Hcap : capacity_valid (cfg_capacity config)) (Hav : capacity_valid available)
    (Hreq : Forall (λ c, request_valid (sj_request c)) candidates)
    (Hrun : scheduler_decide (H := run_db_readiness clock) config now db candidates available =
      (Some (Ok d), db')) :
  let total f chosen := Resource.total f (sj_request <$> chosen) in
  NoDup (sd_selected d) ∧ capacity_valid (sd_remaining d) ∧
  ∃ chosen, sd_selected d = sj_job_id <$> chosen ∧ chosen ⊆ candidates ∧
    (∀ c, c ∈ chosen → (∃ r, db_jobs db' !! sj_job_id c = Some r ∧ jr_state r = Ready) ∧
      all_verified (sj_job_id c) db') ∧
    cap_cpu_cores (sd_remaining d) =
      Z.min (cap_cpu_cores available) (cap_cpu_cores (cfg_capacity config)) - total rq_cpu_cores chosen ∧
    cap_ram_bytes (sd_remaining d) =
      Z.min (cap_ram_bytes available) (cap_ram_bytes (cfg_capacity config)) - total rq_ram_bytes chosen ∧
    cap_gpu_count (sd_remaining d) =
      Z.min (cap_gpu_count available) (cap_gpu_count (cfg_capacity config)) - total rq_gpu_count chosen ∧
    cap_gpu_vram_bytes_per_device (sd_remaining d) =
      (if decide (cap_gpu_count (sd_remaining d) = 0) then 0
       else Z.min (cap_gpu_vram_bytes_per_device available)
              (cap_gpu_vram_bytes_per_device (cfg_capacity config))) ∧
    (∀ c, c ∈ chosen →
      rq_gpu_vram_bytes_per_device (sj_request c) ≤
        Z.min (cap_gpu_vram_bytes_per_device available)
          (cap_gpu_vram_bytes_per_device (cfg_capacity config))) ∧
    (sd_reserved_for d = None → ∀ c, c ∈ candidates → schedulable (H := run_db_readiness clock) db' c →
      sj_job_id c ∉ sd_selected d → ¬ room_for (sd_remaining d) (sj_request c)) ∧
    (∀ job, sd_reserved_for d = Some job → sd_selected d = [] ∧
      ∃ a, a ∈ candidates ∧ sj_job_id a = job ∧ schedulable (H := run_db_readiness clock) db' a ∧
        room_for (cfg_capacity config) (sj_request a) ∧ ¬ room_for (sd_remaining d) (sj_request a) ∧
        cfg_aging_seconds config ≤ saturating_sub_i64 now (sj_ready_since_unix_seconds a)).
Proof.
  intros total.
  destruct (decided_run_db clock config now db db' candidates available d Hinv Hrun)
    as (Hinv' & eligible & Hnd & Hiff & Hdec).
  destruct (decision_chosen _ _ _ _ _ Hdec) as (chosen & (Hsel & left & Hperm & Hleft) & Hres).
  assert (Hsub : ∀ c, c ∈ chosen → c ∈ eligible) by (intros c Hc; rewrite Hperm; apply elem_of_app; by left).
  assert (Hvalid : Forall request_valid (sj_request <$> chosen)).
  { apply Forall_fmap, Forall_forall. intros c Hc. rewrite Forall_forall in Hreq.
    apply Hreq. by apply Hiff, Hsub. }
  pose proof (bounded_valid config _ Hcap Hav) as Hbound.
  destruct (reserve_all_Some _ _ _ Hbound Hvalid Hres) as (V & T1 & T2 & T3).
  pose proof (reserve_all_vram _ _ _ Hbound Hvalid Hres) as T4.
  destruct (proj1 (reserve_all_accepts _ _ Hbound Hvalid) (mk_is_Some _ _ Hres)) as (_ & _ & _ & T5).
  split_and!; [|exact V|].
  - rewrite Hsel. rewrite Hperm, fmap_app in Hnd. by apply NoDup_app in Hnd as [? _].
  - exists chosen. split_and!; [done| | |done|done|done| | | |].
    + intros c Hc. by apply Hiff, Hsub.
    + intros c Hc. apply schedulable_run_db with clock; [done|]. by apply Hiff, Hsub.
    + rewrite T4. case_decide; [done|]. simpl. case_match eqn:Eg; [|done].
      apply Z.eqb_eq in Eg. simpl in *. pose proof (valid_totals _ Hvalid).
      destruct V as (_ & _ & [? _] & _). simpl in *. lia.
    + intros c Hc. etrans; [|by apply bounded_vram].
      rewrite Forall_fmap, Forall_forall in T5. by apply (T5 c).
    + intros Hnone c Hc Hs Hnot. rewrite <-fits_room, not_true_iff_false. apply Hleft; [done|].
      assert (c ∈ eligible) as He by (by apply Hiff). rewrite Hperm in He.
      apply elem_of_app in He as [He|He]; [|done]. destruct Hnot. rewrite Hsel.
      by apply list_elem_of_fmap_2.
    + intros job Hjob. destruct (decision_reserved _ _ _ _ _ _ Hdec Hjob)
        as (Hnil & a & Ha & <- & Hfit & Hage & Hno). split; [done|].
      exists a. apply Hiff in Ha as [Ha Hs]. rewrite <-!fits_room, not_true_iff_false. by split_and!.
Qed.

(** ** Machine arithmetic of the score *)

Lemma normalized_leftover_bounds leftover capacity :
  0 ≤ leftover ≤ capacity → 0 ≤ normalized_leftover leftover capacity SCALE ≤ SCALE.
Proof.
  intros H. unfold normalized_leftover, SCALE. destruct (Z.eqb_spec capacity 0); [lia|].
  split; [apply Z.div_pos; nia|]. apply Z.div_le_upper_bound; nia.
Qed.

(** Scoring a candidate that fits cannot wrap: every subtraction stays
    within the unsigned type it is done in, every product within u128, and the
    score is at most four scales. *)
Theorem fit_score_no_overflow (request : ResourceRequest) (available : ResourceCapacity)
    (Hav : capacity_valid available) (Hreq : request_valid request)
    (Hfit : fits available request = true) :
  in_u64 (cap_ram_bytes available - rq_ram_bytes request) ∧
  in_u32 (cap_cpu_cores available - rq_cpu_cores request) ∧
  in_u32 (cap_gpu_count available - rq_gpu_count request) ∧
  in_u64 (cap_gpu_vram_bytes_per_device available - rq_gpu_vram_bytes_per_device request) ∧
  in_u128 ((cap_ram_bytes available - rq_ram_bytes request) * SCALE) ∧
  in_u128 ((cap_gpu_vram_bytes_per_device available - rq_gpu_vram_bytes_per_device request) * SCALE) ∧
  0 ≤ fit_score request available ≤ 4 * SCALE.
Proof.
  apply fits_spec in Hfit as (F1 & F2 & F3 & F4).
  destruct Hav as (A1 & A2 & A3 & A4 & _), Hreq as (R1 & R2 & R3 & R4 & _).
  split_and!; unfold SCALE; unfold_ints; try lia.
  all: unfold fit_score.
  all: pose proof (normalized_leftover_bounds (cap_ram_bytes available - rq_ram_bytes request)
    (cap_ram_bytes available) ltac:(lia)).
  all: pose proof (normalized_leftover_bounds (cap_cpu_cores available - rq_cpu_cores request)
    (cap_cpu_cores available) ltac:(lia)).
  all: pose proof (normalized_leftover_bounds (cap_gpu_count available - rq_gpu_count request)
    (cap_gpu_count available) ltac:(lia)).
  all: pose proof (normalized_leftover_bounds
    (cap_gpu_vram_bytes_per_device available - rq_gpu_vram_bytes_per_device request)
    (cap_gpu_vram_bytes_per_device available) ltac:(lia)).
  all: unfold SCALE in *; destruct (negb (cap_gpu_count available =? 0)), (negb (rq_gpu_count request =? 0)); lia.
Qed.

(** ** Witnesses *)

Definition demo_config : SchedulerConfig := config_new (mkCapacity 8 100 0 0).
Definition demo_candidate : SchedulableJob := mkCandidate "r:v" (mkRequest 2 10 0 0) 1000.

Lemma demo_decision :
  (scheduler_decide (H := run_db_readiness demo_clock) demo_config 1010 demo_db [demo_candidate]
    (mkCapacity 4 50 0 0)).1 = Some (Ok (mkDecision ["r:v"] (mkCapacity 2 40 0 0) None)).
Proof. vm_compute. reflexivity. Qed.

Lemma scheduler_decide_spec_witness :
  ¬ NoDup (sj_job_id <$> [demo_candidate; demo_candidate]).
Proof.
  destruct (scheduler_decide_spec (H := run_db_readiness demo_clock) demo_config 1010 demo_db demo_db
    [demo_candidate; demo_candidate] (mkCapacity 4 50 0 0)
    (Some (Err (DuplicateCandidate "r:v"))) ltac:(reflexivity)) as (result & E & Hresult).
  injection E as <-. exact (proj1 Hresult).
Defined.

Lemma scheduler_decide_safe_witness :
  ∃ d, sd_selected d = ["r:v"] ∧ NoDup (sd_selected d) ∧ capacity_valid (sd_remaining d).
Proof.
  destruct (scheduler_decide (H := run_db_readiness demo_clock) demo_config 1010 demo_db [demo_candidate]
    (mkCapacity 4 50 0 0)) as [out db'] eqn:Hrun.
  assert (out = Some (Ok (mkDecision ["r:v"] (mkCapacity 2 40 0 0) None))) as ->
    by (rewrite <-demo_decision, Hrun; reflexivity).
  exists (mkDecision ["r:v"] (mkCapacity 2 40 0 0) None). split; [reflexivity|].
  destruct (scheduler_decide_safe demo_clock demo_config 1010 demo_db db' [demo_candidate]
    (mkCapacity 4 50 0 0) _ demo_clock_ok (demo_inv _)
    ltac:(unfold capacity_valid, gpu_consistent; simpl; repeat split; zlia)
    ltac:(unfold capacity_valid, gpu_consistent; simpl; repeat split; zlia)
    ltac:(repeat constructor; simpl; zlia) Hrun) as (H1 & H2 & _).
  split; [exact H1|exact H2].
Defined.

Lemma fit_score_no_overflow_witness :
  0 ≤ fit_score (mkRequest 2 10 1 8) (mkCapacity 8 100 2 16) ≤ 4 * SCALE.
Proof.
  apply (fit_score_no_overflow (mkRequest 2 10 1 8) (mkCapacity 8 100 2 16)); [| |reflexivity];
    unfold capacity_valid, request_valid, gpu_consistent; simpl; repeat split; zlia.
Defined.
