(* ===== verification/Worker.v ===== *)
(** * The worker protocol

    crates/zkie-runtime/src/worker.rs: the messages the scheduler and an attempt
    process exchange, as text.  A [WorkerSpec] says what to run, a
    [WorkerResult] what came of it; both are written as lines of a key, a space
    and a value, and read back strictly.  A path is its UTF-8 text. *)
From S2P Require Import Prelude Ordering Bytes Text State Identity Resource.

Open Scope string_scope.
Open Scope Z_scope.
Open Scope list_scope.

Definition WORKER_SCHEMA_VERSION : Z := 1.
Definition SPEC_MAGIC : string := "zkie-worker-spec".
Definition RESULT_MAGIC : string := "zkie-worker-result".
Definition MAX_FIELD_BYTES : nat := 4096.
Definition MAX_FIELDS : nat := 64.

Notation Path := string (only parsing).

Inductive ProtocolError :=
| UnsupportedSchemaVersion (version : Z)
| Malformed (message : string)
| RelativeOutputDir (path : Path)
| ZeroThreads
| DuplicateCudaDevice (device : Z)
| AttemptMismatch (expected actual : AttemptId)
| JobMismatch (expected actual : JobId)
| RunDigestMismatch
| Launch (message : string)
| ProtocolIo (message : string)
| Identifier (error : StateError).

Inductive WorkerJobKind := WkWitness | WkPrepare | WkLeafProof | WkLeafVerification | WkNativeAggregate.

#[export] Instance WorkerJobKind_eq_dec : EqDecision WorkerJobKind.
Proof. solve_decision. Defined.

Definition worker_kinds : list WorkerJobKind :=
  [WkWitness; WkPrepare; WkLeafProof; WkLeafVerification; WkNativeAggregate].

Definition worker_kind_as_str (self : WorkerJobKind) : string :=
  match self with
  | WkWitness => "witness"
  | WkPrepare => "prepare"
  | WkLeafProof => "leaf-proof"
  | WkLeafVerification => "leaf-verification"
  | WkNativeAggregate => "native-aggregate"
  end.

Definition worker_kind_parse (value : string) : option WorkerJobKind :=
  snd <$> list_find (λ kind, worker_kind_as_str kind = value) worker_kinds.

(** ** Tokens and values *)

Definition validate_token (value : string) : Result unit ProtocolError :=
  if String.eqb value "" || Nat.ltb 64 (String.length value) || negb (is_ascii value)
     || negb (string_forallb (λ c, negb (is_control c || bool_decide (c = space))) value)
  then Err (Malformed "invalid job field name") else Ok tt.

Definition validate_value (value : string) : Result unit ProtocolError :=
  if Nat.ltb MAX_FIELD_BYTES (String.length value) || negb (is_ascii value)
     || negb (string_forallb (λ c, negb (is_control c)) value)
     || match value with String c _ => bool_decide (c = space) | EmptyString => false end
  then Err (Malformed "invalid job field value") else Ok tt.

(** [char::is_ascii_alphanumeric] or one of [-_.]. *)
Definition code_char (c : Ascii.ascii) : bool :=
  let v := Z_of_byte c in
  ((48 <=? v) && (v <=? 57)) || ((65 <=? v) && (v <=? 90)) || ((97 <=? v) && (v <=? 122))
  || (v =? 45) || (v =? 95) || (v =? 46).

Definition sanitize_code (code : bytes) : bytes :=
  match take 64 (filter (λ c, code_char c = true) code) with
  | [] => as_bytes "unknown"
  | token => token
  end.

Definition parse_u32 (value : bytes) : Result Z ProtocolError :=
  ok_or (parse_unsigned u32_max value) (Malformed "invalid integer").
Definition parse_u64 (value : bytes) : Result Z ProtocolError :=
  ok_or (parse_unsigned u64_max value) (Malformed "invalid integer").
Definition parse_digest (value : bytes) : Result Digest32 ProtocolError :=
  map_err (λ _, Malformed "invalid digest") (digest_from_str value).

Definition as_string (b : bytes) : string := String.string_of_list_ascii b.

Definition parse_id (value : bytes) : Result string ProtocolError :=
  map_err Identifier (identifier_new (as_string value)).

Definition split_pair (line : bytes) : Result (string * bytes) ProtocolError :=
  let? '(key, value) := ok_or (split_once space line) (Malformed "expected a key/value line") in
  match key with
  | [] => Err (Malformed "empty message key")
  | _ => Ok (as_string key, trim_end value)
  end.

Definition malformed : ProtocolError := Malformed "missing required field".

(** ** Jobs *)

Record WorkerJob := mkWorkerJob { wj_kind : WorkerJobKind; wj_fields : gmap string string }.

Definition insert_field (canonical : gmap string string) (kv : string * string)
    : Result (gmap string string) ProtocolError :=
  let? _ := validate_token kv.1 in
  let? _ := validate_value kv.2 in
  Ok (<[kv.1 := kv.2]> canonical).

Definition worker_job_new (kind : WorkerJobKind) (fields : list (string * string))
    : Result WorkerJob ProtocolError :=
  let? canonical := result_fold insert_field ∅ fields in
  if Nat.ltb MAX_FIELDS (size canonical) then Err (Malformed "too many job fields")
  else Ok (mkWorkerJob kind canonical).

Definition job_field (self : WorkerJob) (key : string) : option string := wj_fields self !! key.

(** [fields()]: in the order of the keys. *)
Definition job_fields (self : WorkerJob) : list (string * string) :=
  sort_by (λ l r, String.compare l.1 r.1) (map_to_list (wj_fields self)).

(** ** Specs *)

Record WorkerSpec := mkWorkerSpec {
  ws_schema_version : Z;
  ws_run_digest : Digest32;
  ws_job_id : JobId;
  ws_attempt_id : AttemptId;
  ws_job : WorkerJob;
  ws_staged_output_dir : Path;
  ws_rayon_threads : Z;
  ws_cuda_devices : list Z
}.

Definition is_absolute (path : Path) : bool :=
  match path with String c _ => bool_decide (c = Ascii.ascii_of_nat 47) | EmptyString => false end.

Fixpoint duplicate_device (seen devices : list Z) : option Z :=
  match devices with
  | [] => None
  | d :: rest => if bool_decide (d ∈ seen) then Some d else duplicate_device (seen ++ [d]) rest
  end.

Definition spec_validate (self : WorkerSpec) : Result unit ProtocolError :=
  if negb (ws_schema_version self =? WORKER_SCHEMA_VERSION)
  then Err (UnsupportedSchemaVersion (ws_schema_version self))
  else if negb (is_absolute (ws_staged_output_dir self))
  then Err (RelativeOutputDir (ws_staged_output_dir self))
  else if ws_rayon_threads self =? 0 then Err ZeroThreads
  else match duplicate_device [] (ws_cuda_devices self) with
       | Some d => Err (DuplicateCudaDevice d)
       | None => Ok tt
       end.

(** One line without its newline. *)
Definition line (key : string) (value : bytes) : bytes := as_bytes key ++ space :: value.

Definition unlines (ls : list bytes) : bytes := mjoin ((λ l, l ++ [newline]) <$> ls).

Definition equals_sign : Ascii.ascii := Ascii.ascii_of_nat 61.

Definition spec_lines (self : WorkerSpec) : list bytes :=
  [line SPEC_MAGIC (show_unsigned (ws_schema_version self));
   line "run_digest" (digest_display (ws_run_digest self));
   line "job_id" (as_bytes (ws_job_id self));
   line "attempt_id" (as_bytes (ws_attempt_id self));
   line "job_kind" (as_bytes (worker_kind_as_str (wj_kind (ws_job self))))] ++
  ((λ kv, line "job_field" (as_bytes kv.1 ++ equals_sign :: as_bytes kv.2)) <$> job_fields (ws_job self)) ++
  [line "output_dir" (as_bytes (ws_staged_output_dir self));
   line "rayon_threads" (show_unsigned (ws_rayon_threads self))] ++
  ((λ d, line "cuda_device" (show_unsigned d)) <$> ws_cuda_devices self).

Definition spec_encode (self : WorkerSpec) : Result bytes ProtocolError :=
  let? _ := spec_validate self in Ok (unlines (spec_lines self)).

(** The variables of [WorkerSpec::decode]. *)
Record SpecDraft := mkSpecDraft {
  sd_run_digest : option Digest32;
  sd_job_id : option JobId;
  sd_attempt_id : option AttemptId;
  sd_kind : option WorkerJobKind;
  sd_fields : list (string * string);
  sd_output_dir : option Path;
  sd_rayon_threads : option Z;
  sd_cuda_devices : list Z
}.

Definition empty_spec_draft : SpecDraft := mkSpecDraft None None None None [] None None [].

(** One iteration of its loop. *)
Definition read_spec_line (d : SpecDraft) (l : bytes) : Result SpecDraft ProtocolError :=
  let '(mkSpecDraft digest job attempt kind fields dir threads devices) := d in
  let? '(key, value) := split_pair l in
  if String.eqb key "run_digest" then
    let? x := parse_digest value in Ok (mkSpecDraft (Some x) job attempt kind fields dir threads devices)
  else if String.eqb key "job_id" then
    let? x := parse_id value in Ok (mkSpecDraft digest (Some x) attempt kind fields dir threads devices)
  else if String.eqb key "attempt_id" then
    let? x := parse_id value in Ok (mkSpecDraft digest job (Some x) kind fields dir threads devices)
  else if String.eqb key "job_kind" then
    let? x := ok_or (worker_kind_parse (as_string value)) (Malformed "unknown job kind") in
    Ok (mkSpecDraft digest job attempt (Some x) fields dir threads devices)
  else if String.eqb key "job_field" then
    let? '(name, raw) := ok_or (split_once equals_sign value) (Malformed "malformed job field") in
    Ok (mkSpecDraft digest job attempt kind (fields ++ [(as_string name, as_string raw)]) dir threads devices)
  else if String.eqb key "output_dir" then
    Ok (mkSpecDraft digest job attempt kind fields (Some (as_string value)) threads devices)
  else if String.eqb key "rayon_threads" then
    let? x := parse_u32 value in Ok (mkSpecDraft digest job attempt kind fields dir (Some x) devices)
  else if String.eqb key "cuda_device" then
    let? x := parse_u32 value in Ok (mkSpecDraft digest job attempt kind fields dir threads (devices ++ [x]))
  else Err (Malformed "unknown spec key").

(** The first line of a message: its magic word and the schema version. *)
Definition read_magic (magic_word : string) (first : option bytes) : Result Z ProtocolError :=
  let? l := ok_or first malformed in
  let? '(magic, version) := split_pair l in
  if negb (String.eqb magic magic_word) then Err (Malformed "unexpected message magic")
  else
    let? schema_version := parse_u32 version in
    if negb (schema_version =? WORKER_SCHEMA_VERSION) then Err (UnsupportedSchemaVersion schema_version)
    else Ok schema_version.

Definition spec_decode (text : bytes) : Result WorkerSpec ProtocolError :=
  let? schema_version := read_magic SPEC_MAGIC (head (lines text)) in
  let? d := result_fold read_spec_line empty_spec_draft (tail (lines text)) in
  let? digest := ok_or (sd_run_digest d) malformed in
  let? job := ok_or (sd_job_id d) malformed in
  let? attempt := ok_or (sd_attempt_id d) malformed in
  let? kind := ok_or (sd_kind d) malformed in
  let? worker_job := worker_job_new kind (sd_fields d) in
  let? dir := ok_or (sd_output_dir d) malformed in
  let? threads := ok_or (sd_rayon_threads d) malformed in
  let spec := mkWorkerSpec schema_version digest job attempt worker_job dir threads (sd_cuda_devices d) in
  let? _ := spec_validate spec in
  Ok spec.

(** ** Results *)

(** A failure code is bytes of the sanitised alphabet. *)
Inductive WorkerOutcome := Succeeded | Failed (code : bytes).

Record WorkerMeasurements := mkMeasurements { wm_peak_resident_bytes : Z; wm_wall_millis : Z }.

Record WorkerResult := mkWorkerResult {
  wr_schema_version : Z;
  wr_run_digest : Digest32;
  wr_job_id : JobId;
  wr_attempt_id : AttemptId;
  wr_outcome : WorkerOutcome;
  wr_measurements : WorkerMeasurements
}.

Definition for_spec (spec : WorkerSpec) (outcome : WorkerOutcome) (m : WorkerMeasurements) : WorkerResult :=
  mkWorkerResult (ws_schema_version spec) (ws_run_digest spec) (ws_job_id spec) (ws_attempt_id spec) outcome m.

Definition result_succeeded (spec : WorkerSpec) (m : WorkerMeasurements) : WorkerResult :=
  for_spec spec Succeeded m.
Definition result_failed (spec : WorkerSpec) (code : bytes) (m : WorkerMeasurements) : WorkerResult :=
  for_spec spec (Failed (sanitize_code code)) m.

Definition result_lines (self : WorkerResult) : list bytes :=
  let '(status, code) := match wr_outcome self with
                         | Succeeded => ("succeeded", [])
                         | Failed code => ("failed", sanitize_code code)
                         end in
  [line RESULT_MAGIC (show_unsigned (wr_schema_version self));
   line "run_digest" (digest_display (wr_run_digest self));
   line "job_id" (as_bytes (wr_job_id self));
   line "attempt_id" (as_bytes (wr_attempt_id self));
   line "status" (as_bytes status);
   line "code" code;
   line "peak_resident_bytes" (show_unsigned (wm_peak_resident_bytes (wr_measurements self)));
   line "wall_millis" (show_unsigned (wm_wall_millis (wr_measurements self)))].

Definition result_encode (self : WorkerResult) : Result bytes ProtocolError :=
  if negb (wr_schema_version self =? WORKER_SCHEMA_VERSION)
  then Err (UnsupportedSchemaVersion (wr_schema_version self))
  else Ok (unlines (result_lines self)).

(** The variables of [WorkerResult::decode]. *)
Record ResultDraft := mkResultDraft {
  rd_run_digest : option Digest32;
  rd_job_id : option JobId;
  rd_attempt_id : option AttemptId;
  rd_status : option bytes;
  rd_code : option bytes;
  rd_peak : option Z;
  rd_wall : option Z
}.

Definition empty_result_draft : ResultDraft := mkResultDraft None None None None None None None.

Definition read_result_line (d : ResultDraft) (l : bytes) : Result ResultDraft ProtocolError :=
  let '(mkResultDraft digest job attempt status code peak wall) := d in
  let? '(key, value) := split_pair l in
  if String.eqb key "run_digest" then
    let? x := parse_digest value in Ok (mkResultDraft (Some x) job attempt status code peak wall)
  else if String.eqb key "job_id" then
    let? x := parse_id value in Ok (mkResultDraft digest (Some x) attempt status code peak wall)
  else if String.eqb key "attempt_id" then
    let? x := parse_id value in Ok (mkResultDraft digest job (Some x) status code peak wall)
  else if String.eqb key "status" then
    Ok (mkResultDraft digest job attempt (Some value) code peak wall)
  else if String.eqb key "code" then
    Ok (mkResultDraft digest job attempt status (Some value) peak wall)
  else if String.eqb key "peak_resident_bytes" then
    let? x := parse_u64 value in Ok (mkResultDraft digest job attempt status code (Some x) wall)
  else if String.eqb key "wall_millis" then
    let? x := parse_u64 value in Ok (mkResultDraft digest job attempt status code peak (Some x))
  else Err (Malformed "unknown result key").

Definition read_outcome (status code : option bytes) : Result WorkerOutcome ProtocolError :=
  if bool_decide (status = Some (as_bytes "succeeded")) then Ok Succeeded
  else if bool_decide (status = Some (as_bytes "failed"))
  then Ok (Failed (sanitize_code (default (as_bytes "unknown") code)))
  else Err (Malformed "unknown worker status").

Definition result_decode (text : bytes) : Result WorkerResult ProtocolError :=
  let? schema_version := read_magic RESULT_MAGIC (head (lines text)) in
  let? d := result_fold read_result_line empty_result_draft (tail (lines text)) in
  let? outcome := read_outcome (rd_status d) (rd_code d) in
  let? digest := ok_or (rd_run_digest d) malformed in
  let? job := ok_or (rd_job_id d) malformed in
  let? attempt := ok_or (rd_attempt_id d) malformed in
  let? peak := ok_or (rd_peak d) malformed in
  let? wall := ok_or (rd_wall d) malformed in
  Ok (mkWorkerResult schema_version digest job attempt outcome (mkMeasurements peak wall)).

Definition verify_against (self : WorkerResult) (spec : WorkerSpec) : Result unit ProtocolError :=
  if negb (bool_decide (wr_run_digest self = ws_run_digest spec)) then Err RunDigestMismatch
  else if negb (String.eqb (wr_job_id self) (ws_job_id spec))
  then Err (JobMismatch (ws_job_id spec) (wr_job_id self))
  else if negb (String.eqb (wr_attempt_id self) (ws_attempt_id spec))
  then Err (AttemptMismatch (ws_attempt_id spec) (wr_attempt_id self))
  else Ok tt.

(** [worker_spec]: threads and devices are the reserved ones. *)
Definition worker_spec (run_digest : Digest32) (job_id : JobId) (attempt_id : AttemptId) (job : WorkerJob)
    (staged_output_dir : Path) (request : ResourceRequest) : Result WorkerSpec ProtocolError :=
  let spec := mkWorkerSpec WORKER_SCHEMA_VERSION run_digest job_id attempt_id job staged_output_dir
                (rq_cpu_cores request) (seqZ 0 (rq_gpu_count request)) in
  let? _ := spec_validate spec in
  Ok spec.

(** ** Launching *)

(** [Path::join]: an absolute second path replaces the first. *)
Definition path_join (dir : Path) (name : string) : Path :=
  if is_absolute name || String.eqb dir "" then name
  else if bool_decide (last (as_bytes dir) = Some (Ascii.ascii_of_nat 47)) then dir +:+ name
  else dir +:+ "/" +:+ name.

(** The file system and the processes a launcher works with. *)
Class WorkerHost (S : Type) := {
  host_write : S → Path → bytes → Result unit ProtocolError * S;
  (** Runs [binary worker --spec .. --result ..] with the two variables set;
      [Some] text when it did not exit with success. *)
  host_run : S → Path → Path → Path → bytes → bytes → Result (option string) ProtocolError * S;
  host_read : S → Path → Result bytes ProtocolError * S
}.

(** [join(",")]. *)
Fixpoint join_comma (ls : list bytes) : bytes :=
  match ls with
  | [] => []
  | [l] => l
  | l :: ls => l ++ Ascii.ascii_of_nat 44 :: join_comma ls
  end.

(** [ProcessWorkerLauncher::launch]. *)
Definition process_launch {S} `{WorkerHost S} (host : S) (binary : Path) (spec : WorkerSpec) (result_path : Path)
    : Result WorkerResult ProtocolError * S :=
  match spec_validate spec with
  | Err e => (Err e, host)
  | Ok _ =>
      let spec_path := path_join (ws_staged_output_dir spec) "worker-spec.txt" in
      match spec_encode spec with
      | Err e => (Err e, host)
      | Ok text =>
          let '(written, host) := host_write host spec_path text in
          match written with
          | Err e => (Err e, host)
          | Ok _ =>
              let '(status, host) := host_run host binary spec_path result_path
                (show_unsigned (ws_rayon_threads spec))
                (join_comma (show_unsigned <$> ws_cuda_devices spec)) in
              match status with
              | Err e => (Err e, host)
              | Ok (Some failure) => (Err (Launch ("worker exited with " +:+ failure)), host)
              | Ok None =>
                  let '(text, host) := host_read host result_path in
                  (let? text := text in
                   let? result := result_decode text in
                   let? _ := verify_against result spec in
                   Ok result, host)
              end
          end
      end
  end.
