(* ===== verification/WorkerProofs.v ===== *)
(** * The worker protocol: round trips and acceptance

    What survives a message in either direction, what a decoded spec guarantees,
    which results a launcher accepts, and two inputs the format does not carry. *)
From S2P Require Import Prelude Ordering Bytes Text State Identity Resource Worker.

Open Scope string_scope.
Open Scope Z_scope.
Open Scope list_scope.


(** ** Printable text *)

Definition printable (c : Ascii.ascii) : Prop := 32 ≤ Z_of_byte c < 127.

#[export] Instance printable_dec c : Decision (printable c) := _.

(** A decidable statement about closed text. *)
Ltac by_compute := refine (bool_decide_unpack _ _); vm_compute; exact I.

Lemma newline_not_printable : ¬ printable newline.
Proof. unfold printable. change (Z_of_byte newline) with 10. lia. Qed.

Lemma Z_of_byte_nat c : Z_of_byte c = Z.of_nat (Ascii.nat_of_ascii c).
Proof. unfold Z_of_byte, Ascii.nat_of_ascii. by rewrite N_nat_Z. Qed.

Lemma string_forallb_iff p s : string_forallb p s = true ↔ Forall (λ c, p c = true) (as_bytes s).
Proof.
  induction s as [|c s IH]; [done|]. rewrite as_bytes_cons, Forall_cons. simpl. rewrite andb_true_iff, IH. done.
Qed.

Lemma ascii_not_control_printable s :
  is_ascii s = true → string_forallb (λ c, negb (is_control c)) s = true → Forall printable (as_bytes s).
Proof.
  unfold is_ascii. rewrite !string_forallb_iff, !Forall_forall. intros Ha Hc c Hin.
  specialize (Ha c Hin). specialize (Hc c Hin). unfold ascii_byte, is_control, printable in *.
  rewrite Z_of_byte_nat.
  rewrite Nat.ltb_lt in Ha. rewrite negb_true_iff, orb_false_iff, Nat.ltb_ge, Nat.eqb_neq in Hc. lia.
Qed.

Lemma valid_id_printable s : valid_id s → Forall printable (as_bytes s).
Proof.
  unfold valid_id, identifier_new. destruct (_ || _) eqn:E; [done|]. intros _.
  rewrite !orb_false_iff, !negb_false_iff in E. destruct E as [[_ Ha] Hc].
  by apply ascii_not_control_printable.
Qed.

Lemma digits_printable z : 0 ≤ z → Forall printable (show_unsigned z).
Proof.
  intros Hz. destruct (show_unsigned_all_digits z Hz) as [Hd _].
  eapply Forall_impl; [exact Hd|]. intros c [d Hc]. unfold digit_value in Hc. unfold printable.
  destruct ((48 <=? Z_of_byte c) && (Z_of_byte c <=? 57)) eqn:E; [lia|done].
Qed.

Definition hex_char (c : Ascii.ascii) : Prop :=
  48 ≤ Z_of_byte c ≤ 57 ∨ 97 ≤ Z_of_byte c ≤ 102.

Lemma hex_digit_char n : 0 ≤ n < 16 → hex_char (hex_digit n).
Proof.
  intros Hn. unfold hex_digit, hex_char. destruct (Z.ltb_spec n 10); rewrite Z_of_byte_of_Z, Z.mod_small; lia.
Qed.

Lemma digest_display_hex d : Forall hex_char (digest_display d).
Proof.
  induction d as [|b d IH]; [constructor|]. rewrite digest_display_cons. apply Forall_app. split; [|done].
  pose proof (Z_of_byte_range b). unfold hex_of_byte.
  constructor; [|constructor; [|constructor]]; apply hex_digit_char.
  - split; [apply Z.div_pos; lia|apply Z.div_lt_upper_bound; lia].
  - apply Z.mod_pos_bound. lia.
Qed.

Lemma digest_printable d : Forall printable (digest_display d).
Proof. eapply Forall_impl; [apply digest_display_hex|]. unfold hex_char, printable. lia. Qed.

(** ** Values on a line *)

(** A value that comes back from its line: one line, nothing trimmed. *)
Definition value_ok (v : bytes) : Prop := newline ∉ v ∧ trim_end v = v.


Lemma trim_reversed_suffix l : trim_reversed l `suffix_of` l.
Proof.
  remember (length l) as n eqn:E. revert l E. induction (lt_wf n) as [n _ IH]. intros l ->.
  destruct l as [|c r1]; [done|]. simpl.
  destruct (white1 _); [by apply suffix_cons_r, (IH (length r1)); [simpl; lia|]|].
  destruct r1 as [|b r2]; [done|].
  destruct (white2 _ _); [by do 2 apply suffix_cons_r; apply (IH (length r2)); [simpl; lia|]|].
  destruct r2 as [|a r3]; [done|].
  destruct (white3 _ _ _); [by do 3 apply suffix_cons_r; apply (IH (length r3)); [simpl; lia|]|done].
Qed.

Lemma trim_end_last l c : trim_end l = l → last l = Some c → white1 (Z_of_byte c) = false.
Proof.
  intros Ht Hl. destruct (white1 (Z_of_byte c)) eqn:E; [exfalso|done].
  apply last_Some in Hl as [k ->]. unfold trim_end in Ht. rewrite reverse_snoc in Ht. simpl in Ht.
  rewrite E in Ht. apply (f_equal length) in Ht. rewrite length_reverse, length_app in Ht. simpl in Ht.
  pose proof (suffix_length _ _ (trim_reversed_suffix (reverse k))) as Hs. rewrite length_reverse in Hs. lia.
Qed.

Lemma line_line_ok key v : Forall printable (as_bytes key) → value_ok v → line_ok (line key v).
Proof.
  intros Hk [Hn Ht]. unfold line. split.
  - rewrite not_elem_of_app, not_elem_of_cons. split_and!; [|done|done].
    rewrite Forall_forall in Hk. intros Hin%Hk. by apply newline_not_printable.
  - rewrite last_app. change (last (space :: v)) with (match v with [] => Some space | _ => last v end).
    destruct v as [|x v]; [done|]. destruct (last (x :: v)) eqn:E; [|by apply last_None in E].
    intros [= ->]. pose proof (trim_end_last _ _ Ht E) as Hw. done.
Qed.

Lemma split_pair_line key v :
  key ≠ "" → space ∉ as_bytes key → value_ok v → split_pair (line key v) = Ok (key, v).
Proof.
  intros Hne Hs [_ Ht]. unfold split_pair, line. rewrite split_once_app by done. simpl.
  destruct (as_bytes key) as [|c k] eqn:E.
  { destruct key; [done|]. by rewrite as_bytes_cons in E. }
  rewrite Ht. rewrite <-E. unfold as_string, as_bytes. by rewrite String.string_of_list_ascii_of_string.
Qed.

Definition wire_key (key : string) : bool :=
  negb (String.eqb key "") && bool_decide (space ∉ as_bytes key).

Lemma split_pair_key key v : wire_key key = true → value_ok v → split_pair (line key v) = Ok (key, v).
Proof.
  intros [Hk Hs%bool_decide_eq_true]%andb_true_iff Hv. apply split_pair_line; [|done|done].
  intros ->. done.
Qed.

Lemma as_string_bytes s : as_string (as_bytes s) = s.
Proof. apply String.string_of_list_ascii_of_string. Qed.

(** Printable text that does not end in a space. *)
Lemma printable_value_ok v :
  Forall printable v → last v ≠ Some space → value_ok v.
Proof.
  intros Hp Hl. split.
  - rewrite Forall_forall in Hp. intros Hin%Hp. by apply newline_not_printable.
  - destruct (last v) as [c|] eqn:E; [|by apply last_None in E as ->].
    apply (trim_end_solid _ c E). apply last_Some in E as [k ->]. apply Forall_app in Hp as [_ Hp].
    apply Forall_cons in Hp as [Hc _]. unfold printable in Hc. unfold solid, white1.
    assert (Z_of_byte c ≠ 32).
    { intros E. apply Hl. f_equal. rewrite <-(byte_of_Z_of_byte c), E. reflexivity. }
    lia.
Qed.

Lemma number_value_ok z : 0 ≤ z → value_ok (show_unsigned z).
Proof.
  intros Hz. apply printable_value_ok; [by apply digits_printable|].
  destruct (show_unsigned_all_digits z Hz) as [Hd _]. intros (k & E)%last_Some. rewrite E in Hd.
  apply Forall_app in Hd as [_ Hd]. apply Forall_cons in Hd as [[d Hd] _]. done.
Qed.

Lemma digest_value_ok d : value_ok (digest_display d).
Proof.
  apply printable_value_ok; [apply digest_printable|]. pose proof (digest_display_hex d) as Hd.
  intros (k & E)%last_Some. rewrite E in Hd. apply Forall_app in Hd as [_ Hd].
  apply Forall_cons in Hd as [Hc _]. unfold hex_char in Hc. change (Z_of_byte space) with 32 in Hc. lia.
Qed.

(** ** Failure codes *)

Lemma code_char_printable c : code_char c = true → printable c ∧ c ≠ space.
Proof.
  unfold code_char, printable. intros H. split; [lia|]. intros ->. by vm_compute in H.
Qed.

Lemma sanitize_code_chars code : Forall (λ c, code_char c = true) (sanitize_code code) ∧
  (0 < length (sanitize_code code) ≤ 64)%nat.
Proof.
  unfold sanitize_code. destruct (take 64 _) as [|c l] eqn:E.
  - split; [by repeat constructor|]. vm_compute. lia.
  - assert (Hf : Forall (λ c, code_char c = true) (c :: l)).
    { rewrite <-E. apply Forall_take, Forall_forall. by intros x [? _]%list_elem_of_filter. }
    split; [done|]. assert (length (c :: l) ≤ 64)%nat by (rewrite <-E, length_take; lia). simpl in *. lia.
Qed.

Lemma sanitize_code_id code :
  Forall (λ c, code_char c = true) code → (0 < length code ≤ 64)%nat → sanitize_code code = code.
Proof.
  intros Hf Hl. unfold sanitize_code. rewrite filter_all by done.
  rewrite take_ge by lia. by destruct code; [simpl in Hl; lia|].
Qed.

(** Sanitising a sanitised code changes nothing. *)
Lemma sanitize_code_idem code : sanitize_code (sanitize_code code) = sanitize_code code.
Proof. destruct (sanitize_code_chars code). by apply sanitize_code_id. Qed.

Lemma code_value_ok code : value_ok (sanitize_code code).
Proof.
  destruct (sanitize_code_chars code) as [Hf _]. apply printable_value_ok.
  - eapply Forall_impl; [exact Hf|]. intros c Hc. by apply code_char_printable.
  - intros (k & E)%last_Some. rewrite E in Hf. apply Forall_app in Hf as [_ Hf].
    apply Forall_cons in Hf as [Hc _]. by apply code_char_printable in Hc as [_ ?].
Qed.

(** ** Identifiers *)

(** An identifier that survives a line: [trim_end] would strip a final space. *)
Definition wire_id (s : string) : Prop := valid_id s ∧ last (as_bytes s) ≠ Some space.

Lemma wire_id_value_ok s : wire_id s → value_ok (as_bytes s).
Proof. intros [Hv Hs]. apply printable_value_ok; [by apply valid_id_printable|done]. Qed.

Lemma parse_wire_id s : wire_id s → parse_id (as_bytes s) = Ok s.
Proof. intros [Hv _]. unfold parse_id. rewrite as_string_bytes. by rewrite Hv. Qed.

Lemma parse_digest_display_ok d : digest_ok d → parse_digest (digest_display d) = Ok d.
Proof.
  intros Hd. unfold parse_digest, digest_from_str. rewrite length_digest_display, Hd. simpl.
  by rewrite parse_digest_display.
Qed.

Lemma parse_u32_show z : in_u32 z → parse_u32 (show_unsigned z) = Ok z.
Proof. intros Hz. unfold parse_u32. by rewrite parse_show_unsigned. Qed.

Lemma parse_u64_show z : in_u64 z → parse_u64 (show_unsigned z) = Ok z.
Proof. intros Hz. unfold parse_u64. by rewrite parse_show_unsigned. Qed.

(** ** Messages *)

Create HintDb wire.
#[local] Hint Resolve number_value_ok digest_value_ok code_value_ok wire_id_value_ok : wire.

(** The message reader sees exactly the lines that were written. *)
Lemma lines_unlines ls : Forall line_ok ls → lines (unlines ls) = ls.
Proof. apply lines_mjoin. Qed.

Lemma read_magic_line word :
  wire_key word = true →
  read_magic word (Some (line word (show_unsigned WORKER_SCHEMA_VERSION))) = Ok WORKER_SCHEMA_VERSION.
Proof.
  intros Hw. unfold read_magic. simpl.
  rewrite split_pair_key by (done || by apply number_value_ok). simpl.
  by rewrite String.eqb_refl.
Qed.

Record result_ok (r : WorkerResult) : Prop := {
  ro_version : wr_schema_version r = WORKER_SCHEMA_VERSION;
  ro_digest : digest_ok (wr_run_digest r);
  ro_job : wire_id (wr_job_id r);
  ro_attempt : wire_id (wr_attempt_id r);
  ro_outcome : match wr_outcome r with Succeeded => True | Failed code => sanitize_code code = code end;
  ro_peak : in_u64 (wm_peak_resident_bytes (wr_measurements r));
  ro_wall : in_u64 (wm_wall_millis (wr_measurements r))
}.

Lemma status_value_ok (b : bool) : value_ok (as_bytes (if b then "succeeded" else "failed")).
Proof. apply printable_value_ok; [|by destruct b]. destruct b; repeat constructor; done. Qed.

Lemma result_lines_ok r : result_ok r → Forall line_ok (result_lines r).
Proof.
  intros [Hv _ Hj Ha _ Hp Hw]. unfold result_lines. rewrite Hv. unfold in_u64 in *.
  assert (value_ok []) by (split; [set_solver|reflexivity]).
  destruct (wr_outcome r) as [|code];
    repeat (apply Forall_cons; split); try (apply Forall_nil; exact I);
    (apply line_line_ok; [repeat constructor; done|]);
    first [by eauto with wire | apply number_value_ok; lia
          | apply number_value_ok; done | exact (status_value_ok true) | exact (status_value_ok false)].
Qed.

Lemma nil_value_ok : value_ok [].
Proof. split; [set_solver|reflexivity]. Qed.

#[local] Opaque split_pair line parse_u32 parse_u64 parse_id parse_digest sanitize_code show_unsigned
  digest_display as_bytes.

(** Reading a written line: [split_pair] gives back the key and the value. *)
Ltac take_line tac :=
  rewrite split_pair_key; [simpl|vm_compute; reflexivity|tac].

(** The fields of a result as the reader collects them. *)
Definition result_draft (r : WorkerResult) : ResultDraft :=
  mkResultDraft (Some (wr_run_digest r)) (Some (wr_job_id r)) (Some (wr_attempt_id r))
    (Some (as_bytes (match wr_outcome r with Succeeded => "succeeded" | Failed _ => "failed" end)))
    (Some (match wr_outcome r with Succeeded => [] | Failed code => sanitize_code code end))
    (Some (wm_peak_resident_bytes (wr_measurements r))) (Some (wm_wall_millis (wr_measurements r))).

Lemma read_result_lines r :
  result_ok r →
  result_fold read_result_line empty_result_draft (tail (result_lines r)) = Ok (result_draft r).
Proof.
  intros [_ Hd Hj Ha _ Hp Hw]. unfold result_lines, result_draft.
  assert (Hp' := Hp). assert (Hw' := Hw). unfold in_u64 in Hp', Hw'.
  pose proof nil_value_ok. pose proof (status_value_ok true). pose proof (status_value_ok false).
  destruct (wr_outcome r) as [|code]; simpl;
    take_line ltac:(apply digest_value_ok); rewrite parse_digest_display_ok by done; simpl;
    take_line ltac:(by apply wire_id_value_ok); rewrite parse_wire_id by done; simpl;
    take_line ltac:(by apply wire_id_value_ok); rewrite parse_wire_id by done; simpl;
    take_line done; take_line ltac:(first [done | apply code_value_ok]);
    take_line ltac:(apply number_value_ok; lia); rewrite parse_u64_show by done; simpl;
    take_line ltac:(apply number_value_ok; lia); rewrite parse_u64_show by done; done.
Qed.

Lemma result_roundtrip r :
  result_ok r → ∃ text, result_encode r = Ok text ∧ result_decode text = Ok r.
Proof.
  intros Hr. exists (unlines (result_lines r)). unfold result_encode, result_decode.
  rewrite (ro_version r Hr). split; [done|].
  rewrite lines_unlines by (by apply result_lines_ok).
  assert (head (result_lines r) = Some (line RESULT_MAGIC (show_unsigned WORKER_SCHEMA_VERSION))) as ->.
  { unfold result_lines. rewrite (ro_version r Hr). by destruct (wr_outcome r). }
  rewrite read_magic_line by (vm_compute; reflexivity). simpl.
  rewrite read_result_lines by done. simpl.
  pose proof (ro_outcome r Hr) as Ho. pose proof (ro_version r Hr) as Hv.
  destruct r as [v d j a o [p w]]. simpl in *. subst v. destruct o as [|code]; simpl; [done|].
  unfold read_outcome. simpl. rewrite sanitize_code_idem, Ho.
  rewrite bool_decide_eq_false_2 by done. by rewrite bool_decide_eq_true_2.
Qed.

(** ** Specs *)

(** A field that survives its line: the name has no [=], the value no final
    space. *)
Definition wire_field (k v : string) : Prop :=
  validate_token k = Ok tt ∧ validate_value v = Ok tt ∧
  equals_sign ∉ as_bytes k ∧ last (as_bytes v) ≠ Some space.

Record spec_ok (s : WorkerSpec) : Prop := {
  so_valid : spec_validate s = Ok tt;
  so_digest : digest_ok (ws_run_digest s);
  so_job : wire_id (ws_job_id s);
  so_attempt : wire_id (ws_attempt_id s);
  so_size : (size (wj_fields (ws_job s)) ≤ MAX_FIELDS)%nat;
  so_fields : map_Forall wire_field (wj_fields (ws_job s));
  so_dir : value_ok (as_bytes (ws_staged_output_dir s));
  so_threads : in_u32 (ws_rayon_threads s);
  so_devices : Forall in_u32 (ws_cuda_devices s)
}.

Lemma validate_token_printable k : validate_token k = Ok tt → Forall printable (as_bytes k).
Proof.
  unfold validate_token. destruct (_ || _) eqn:E; [done|]. intros _.
  rewrite !orb_false_iff, !negb_false_iff in E. destruct E as [[_ Ha] Hc].
  apply ascii_not_control_printable; [done|]. rewrite string_forallb_iff in *.
  eapply Forall_impl; [exact Hc|]. intros c. simpl. rewrite !negb_true_iff, orb_false_iff. by intros [? _].
Qed.

Lemma validate_value_printable v : validate_value v = Ok tt → Forall printable (as_bytes v).
Proof.
  unfold validate_value. destruct (_ || _) eqn:E; [done|]. intros _.
  rewrite !orb_false_iff, !negb_false_iff in E. destruct E as [[[_ Ha] Hc] _].
  by apply ascii_not_control_printable.
Qed.

Lemma field_value_ok k v : wire_field k v → value_ok (as_bytes k ++ equals_sign :: as_bytes v).
Proof.
  intros (Hk & Hv & _ & Hl). apply validate_token_printable in Hk. apply validate_value_printable in Hv.
  apply printable_value_ok.
  - apply Forall_app. split; [done|]. constructor; [|done]. unfold printable. by vm_compute.
  - rewrite last_app, last_cons. by destruct (last (as_bytes v)).
Qed.

Lemma job_fields_wire s k v :
  spec_ok s → (k, v) ∈ job_fields (ws_job s) → wire_field k v.
Proof.
  intros Hs Hin. unfold job_fields in Hin. rewrite sort_by_Permutation in Hin.
  apply elem_of_map_to_list in Hin. exact (so_fields s Hs k v Hin).
Qed.

Lemma worker_kind_printable k : value_ok (as_bytes (worker_kind_as_str k)) ∧
  worker_kind_parse (as_string (as_bytes (worker_kind_as_str k))) = Some k.
Proof.
  rewrite as_string_bytes. split; [|by destruct k]. apply printable_value_ok; [|by destruct k].
  destruct k; by_compute.
Qed.

Lemma spec_lines_ok s : spec_ok s → Forall line_ok (spec_lines s).
Proof.
  intros Hs. pose proof Hs as [Hv _ Hj Ha _ _ Hd Ht Hc].
  assert (ws_schema_version s = WORKER_SCHEMA_VERSION) as Ev.
  { unfold spec_validate in Hv. destruct (Z.eqb_spec (ws_schema_version s) WORKER_SCHEMA_VERSION); done. }
  unfold spec_lines. rewrite Ev. unfold in_u32 in *.
  assert (Hline : ∀ key v, Forall printable (as_bytes key) → value_ok v → line_ok (line key v))
    by (intros; by apply line_line_ok).
  rewrite !Forall_app, !Forall_fmap. split_and!.
  - repeat (apply Forall_cons; split); try apply Forall_nil; try done;
      (apply Hline; [by_compute|]);
      eauto using number_value_ok, digest_value_ok, wire_id_value_ok.
    + by apply number_value_ok.
    + apply worker_kind_printable.
  - apply Forall_forall. intros [k v] Hin. simpl.
    apply Hline; [by_compute|]. by eapply field_value_ok, job_fields_wire.
  - repeat (apply Forall_cons; split); try apply Forall_nil; try done;
      (apply Hline; [by_compute|]); [done|apply number_value_ok; lia].
  - eapply Forall_impl; [exact Hc|]. intros d Hd'. simpl in *.
    apply Hline; [by_compute|]. apply number_value_ok. lia.
Qed.

Lemma read_field_lines kvs digest job attempt kind fields dir threads devices rest :
  (∀ k v, (k, v) ∈ kvs → wire_field k v) →
  result_fold read_spec_line (mkSpecDraft digest job attempt kind fields dir threads devices)
    (((λ kv, line "job_field" (as_bytes kv.1 ++ equals_sign :: as_bytes kv.2)) <$> kvs) ++ rest) =
  result_fold read_spec_line (mkSpecDraft digest job attempt kind (fields ++ kvs) dir threads devices) rest.
Proof.
  revert fields. induction kvs as [|[k v] kvs IH]; intros fields Hw; [by rewrite app_nil_r|].
  assert (Hkv : wire_field k v) by (apply Hw; by left). simpl.
  take_line ltac:(by apply field_value_ok). destruct Hkv as (_ & _ & Heq & _).
  rewrite split_once_app by done. simpl. rewrite !as_string_bytes, IH, <-app_assoc; [done|].
  intros k' v' Hin. apply Hw. by right.
Qed.

Lemma read_device_lines ds digest job attempt kind fields dir threads devices :
  Forall in_u32 ds →
  result_fold read_spec_line (mkSpecDraft digest job attempt kind fields dir threads devices)
    ((λ d, line "cuda_device" (show_unsigned d)) <$> ds) =
  Ok (mkSpecDraft digest job attempt kind fields dir threads (devices ++ ds)).
Proof.
  intros Hall. revert devices. induction Hall as [|d ds Hd _ IH]; intros devices; [by rewrite app_nil_r|].
  simpl. take_line ltac:(apply number_value_ok; zlia). rewrite parse_u32_show by done. simpl.
  by rewrite IH, <-app_assoc.
Qed.

Lemma insert_fields l m :
  NoDup l.*1 → (∀ k v, (k, v) ∈ l → wire_field k v ∧ m !! k = None) →
  result_fold insert_field m l = Ok (list_to_map l ∪ m).
Proof.
  revert m. induction l as [|[k v] l IH]; intros m Hnd Hl; simpl; [by rewrite left_id_L by apply _|].
  apply NoDup_cons in Hnd as [Hk Hnd]. destruct (Hl k v) as [(Ht & Hv & _) Hm]; [by left|].
  unfold insert_field at 1. simpl. rewrite Ht, Hv. simpl. rewrite IH; [|done|].
  - f_equal. rewrite <-insert_union_r by (by apply not_elem_of_list_to_map_1).
    by rewrite insert_union_l.
  - intros k' v' Hin. destruct (Hl k' v') as [Hw Hm']; [by right|]. split; [done|].
    rewrite lookup_insert_ne; [done|]. intros ->. apply Hk. by apply (list_elem_of_fmap_2 fst _ (k', v')).
Qed.

Lemma job_fields_roundtrip s :
  spec_ok s → worker_job_new (wj_kind (ws_job s)) (job_fields (ws_job s)) = Ok (ws_job s).
Proof.
  intros Hs. unfold worker_job_new.
  assert (Hp : job_fields (ws_job s) ≡ₚ map_to_list (wj_fields (ws_job s))) by apply sort_by_Permutation.
  assert (Hnd : NoDup (job_fields (ws_job s)).*1) by (rewrite Hp; apply NoDup_fst_map_to_list).
  rewrite insert_fields; [|done|].
  - simpl. rewrite right_id_L by apply _. rewrite (list_to_map_proper _ _ Hnd Hp), list_to_map_to_list.
    destruct (Nat.ltb_spec MAX_FIELDS (size (wj_fields (ws_job s)))) as [Hlt|]; [|by destruct (ws_job s)].
    pose proof (so_size s Hs). lia.
  - intros k v Hin. split; [by eapply job_fields_wire|apply lookup_empty].
Qed.

Lemma spec_roundtrip s :
  spec_ok s → ∃ text, spec_encode s = Ok text ∧ spec_decode text = Ok s.
Proof.
  intros Hs. exists (unlines (spec_lines s)). pose proof Hs as [Hv Hdg Hj Ha _ _ Hd Ht Hc].
  assert (ws_schema_version s = WORKER_SCHEMA_VERSION) as Ev.
  { unfold spec_validate in Hv. destruct (Z.eqb_spec (ws_schema_version s) WORKER_SCHEMA_VERSION); done. }
  unfold spec_encode, spec_decode. rewrite Hv. split; [done|].
  rewrite lines_unlines by (by apply spec_lines_ok).
  unfold spec_lines. rewrite Ev. cbn [app head tail].
  rewrite read_magic_line by (vm_compute; reflexivity). simpl.
  take_line ltac:(apply digest_value_ok). rewrite parse_digest_display_ok by done. simpl.
  take_line ltac:(by apply wire_id_value_ok). rewrite parse_wire_id by done. simpl.
  take_line ltac:(by apply wire_id_value_ok). rewrite parse_wire_id by done. simpl.
  take_line ltac:(apply worker_kind_printable).
  destruct (worker_kind_printable (wj_kind (ws_job s))) as [_ ->]. simpl.
  rewrite read_field_lines by (intros; by eapply job_fields_wire). simpl.
  take_line done. rewrite as_string_bytes.
  take_line ltac:(apply number_value_ok; zlia). rewrite parse_u32_show by done. simpl.
  rewrite read_device_lines by done. simpl.
  rewrite job_fields_roundtrip by done. simpl. destruct s; simpl in *. subst. by rewrite Hv.
Qed.

(** ** What a decoded message guarantees *)

(** What a worker relies on of a spec, said without the functions that check it. *)
Definition visible (c : Ascii.ascii) : Prop := 33 ≤ Z_of_byte c ≤ 126.

Definition identifier_text (s : string) : Prop :=
  (1 ≤ length (as_bytes s) ≤ 256)%nat ∧ Forall printable (as_bytes s).

Definition field_name_text (k : string) : Prop :=
  (1 ≤ length (as_bytes k) ≤ 64)%nat ∧ Forall visible (as_bytes k).

Definition field_value_text (v : string) : Prop :=
  (length (as_bytes v) ≤ 4096)%nat ∧ Forall printable (as_bytes v) ∧ head (as_bytes v) ≠ Some space.

Record spec_checked (s : WorkerSpec) : Prop := {
  sc_version : ws_schema_version s = 1;
  sc_dir : ∃ rest, ws_staged_output_dir s = "/" +:+ rest;
  sc_threads : 1 ≤ ws_rayon_threads s < 2 ^ 32;
  sc_distinct : NoDup (ws_cuda_devices s);
  sc_devices : Forall (λ d, 0 ≤ d < 2 ^ 32) (ws_cuda_devices s);
  sc_digest : length (ws_run_digest s) = 32%nat;
  sc_job : identifier_text (ws_job_id s);
  sc_attempt : identifier_text (ws_attempt_id s);
  sc_size : (size (wj_fields (ws_job s)) ≤ 64)%nat;
  sc_fields : map_Forall (λ k v, field_name_text k ∧ field_value_text v) (wj_fields (ws_job s))
}.

Lemma nonempty_text s : String.eqb s "" = false → (1 ≤ length (as_bytes s))%nat.
Proof. destruct s; [done|]. rewrite as_bytes_cons. simpl. lia. Qed.

Lemma valid_id_identifier_text s : valid_id s → identifier_text s.
Proof.
  intros H. split; [|by apply valid_id_printable]. revert H. unfold valid_id, identifier_new.
  destruct (_ || _) eqn:E; [done|]. rewrite !orb_false_iff in E.
  destruct E as [[[?%nonempty_text ?%Nat.ltb_ge] _] _]. unfold MAX_ID_BYTES in *.
  rewrite length_as_bytes in *. done.
Qed.

Lemma validate_token_text k : validate_token k = Ok tt → field_name_text k.
Proof.
  intros H. pose proof (validate_token_printable _ H) as Hp. revert H. unfold validate_token.
  destruct (_ || _) eqn:E; [done|]. rewrite !orb_false_iff, !negb_false_iff in E.
  destruct E as [[[?%nonempty_text ?%Nat.ltb_ge] _] Hc]. intros _.
  split; [rewrite length_as_bytes in *; done|]. apply string_forallb_iff in Hc.
  rewrite Forall_forall in *. intros c Hin. specialize (Hp c Hin). specialize (Hc c Hin). simpl in Hc.
  rewrite negb_true_iff, orb_false_iff, bool_decide_eq_false in Hc. destruct Hc as [_ Hc].
  unfold printable, visible in *. assert (Z_of_byte c ≠ 32); [|lia].
  intros E. apply Hc. rewrite <-(byte_of_Z_of_byte c), E. done.
Qed.

Lemma validate_value_text v : validate_value v = Ok tt → field_value_text v.
Proof.
  intros H. pose proof (validate_value_printable _ H) as Hp. revert H. unfold validate_value.
  destruct (_ || _) eqn:E; [done|]. rewrite !orb_false_iff in E.
  destruct E as [[[?%Nat.ltb_ge _] _] Hs]. intros _. unfold MAX_FIELD_BYTES in *.
  split_and!; [by rewrite length_as_bytes|done|]. destruct v as [|c v]; [done|].
  rewrite as_bytes_cons. simpl. apply bool_decide_eq_false in Hs. congruence.
Qed.

Lemma duplicate_device_None seen ds :
  duplicate_device seen ds = None → NoDup ds ∧ ∀ d, d ∈ ds → d ∉ seen.
Proof.
  revert seen. induction ds as [|d ds IH]; intros seen; simpl; [split; [constructor|set_solver]|].
  case_bool_decide as Hd; [done|]. intros [Hnd Hs]%IH.
  split; [constructor; [|done]|]; set_solver.
Qed.

(** What [validate] accepts, check by check. *)
Lemma spec_validate_accepts s :
  spec_validate s = Ok tt →
  ws_schema_version s = 1 ∧ (∃ rest, ws_staged_output_dir s = "/" +:+ rest) ∧
  ws_rayon_threads s ≠ 0 ∧ NoDup (ws_cuda_devices s).
Proof.
  unfold spec_validate, WORKER_SCHEMA_VERSION.
  destruct (Z.eqb_spec (ws_schema_version s) 1); simpl; [|done].
  destruct (is_absolute _) eqn:Ea; simpl; [|done].
  destruct (Z.eqb_spec (ws_rayon_threads s) 0); [done|].
  destruct (duplicate_device _ _) eqn:Ed; [done|]. intros _.
  apply duplicate_device_None in Ed as [? _]. split_and!; [done| |done|done].
  unfold is_absolute in Ea. destruct (ws_staged_output_dir s) as [|c rest]; [done|].
  apply bool_decide_eq_true in Ea as ->. by exists rest.
Qed.

#[local] Transparent parse_u32 parse_u64 parse_id parse_digest.

Lemma parse_id_valid v s : parse_id v = Ok s → valid_id s.
Proof.
  unfold parse_id, valid_id, identifier_new. destruct (_ || _) eqn:E; [done|]. simpl. intros [= <-].
  by rewrite E.
Qed.

Lemma parse_digits_range max acc l z :
  0 ≤ acc ≤ max → parse_digits max acc l = Some z → 0 ≤ z ≤ max.
Proof.
  revert acc. induction l as [|c l IH]; intros acc Hacc; simpl; [by intros [= <-]|].
  unfold digit_value. destruct ((48 <=? Z_of_byte c) && (Z_of_byte c <=? 57)) eqn:E; simpl; [|done].
  destruct (Z.ltb_spec max (acc * 10 + (Z_of_byte c - 48))); [done|]. apply IH. lia.
Qed.

Lemma parse_unsigned_range max l z : 0 ≤ max → parse_unsigned max l = Some z → 0 ≤ z ≤ max.
Proof.
  intros Hm. unfold parse_unsigned. destruct (match l with [] => _ | _ => _ end); [done|].
  apply parse_digits_range. lia.
Qed.

Lemma parse_u32_range l z : parse_u32 l = Ok z → in_u32 z.
Proof. unfold parse_u32. rewrite ok_or_Ok. apply parse_unsigned_range. done. Qed.

Lemma parse_u64_range l z : parse_u64 l = Ok z → in_u64 z.
Proof. unfold parse_u64. rewrite ok_or_Ok. apply parse_unsigned_range. done. Qed.

Lemma parse_digest_length l d : parse_digest l = Ok d → digest_ok d.
Proof.
  unfold parse_digest, digest_from_str. destruct (Nat.eqb_spec (length l) 64) as [Hl|]; simpl; [|done].
  destruct (parse_hex_pairs l) as [bs|] eqn:E; simpl; [|done]. intros [= <-].
  by destruct (parse_hex_pairs_sound 32 l bs Hl E).
Qed.

#[local] Opaque parse_u32 parse_u64 parse_id parse_digest.

(** The variables of the loop hold values that passed their parser. *)
Record draft_ok (d : SpecDraft) : Prop := {
  do_digest : ∀ x, sd_run_digest d = Some x → digest_ok x;
  do_job : ∀ x, sd_job_id d = Some x → valid_id x;
  do_attempt : ∀ x, sd_attempt_id d = Some x → valid_id x;
  do_threads : ∀ x, sd_rayon_threads d = Some x → in_u32 x;
  do_devices : Forall in_u32 (sd_cuda_devices d)
}.

Lemma read_spec_line_ok d l d' : draft_ok d → read_spec_line d l = Ok d' → draft_ok d'.
Proof.
  intros [H1 H2 H3 H4 H5]. destruct d as [dg j a k f dir t ds]. simpl in *.
  intros ([key value] & _ & H)%result_bind_Ok.
  repeat match type of H with (if ?b then _ else _) = _ => destruct b end;
    try done; try (injection H as <-; by split);
    apply result_bind_Ok in H as (x & Hx & H).
  5: destruct x as [name raw].
  all: injection H as <-; split; simpl; try done.
  - intros y [= <-]. by eapply parse_digest_length.
  - intros y [= <-]. by eapply parse_id_valid.
  - intros y [= <-]. by eapply parse_id_valid.
  - intros y [= <-]. by eapply parse_u32_range.
  - apply Forall_app. split; [done|]. constructor; [by eapply parse_u32_range|constructor].
Qed.

Lemma read_spec_lines_ok ls d d' :
  draft_ok d → result_fold read_spec_line d ls = Ok d' → draft_ok d'.
Proof.
  revert d. induction ls as [|l ls IH]; intros d Hd; simpl; [by intros [= <-]|].
  intros (d1 & H1 & H2)%result_bind_Ok. eapply IH; [|exact H2]. by eapply read_spec_line_ok.
Qed.

Lemma worker_job_new_ok kind fields j :
  worker_job_new kind fields = Ok j →
  (size (wj_fields j) ≤ 64)%nat ∧
  map_Forall (λ k v, field_name_text k ∧ field_value_text v) (wj_fields j).
Proof.
  unfold worker_job_new. intros (m & Hm & H)%result_bind_Ok.
  destruct (Nat.ltb_spec MAX_FIELDS (size m)); [done|]. injection H as <-. simpl. split; [done|].
  assert (∀ m0, map_Forall (λ k v, field_name_text k ∧ field_value_text v) m0 →
    result_fold insert_field m0 fields = Ok m →
    map_Forall (λ k v, field_name_text k ∧ field_value_text v) m) as Hgen.
  { clear Hm. induction fields as [|[k v] fields IH]; intros m0 Hm0; simpl; [by intros [= <-]|].
    intros (m1 & H1 & H2)%result_bind_Ok. unfold insert_field in H1. simpl in H1.
    apply result_bind_Ok in H1 as ([] & Ht & ([] & Hv & [= <-])%result_bind_Ok).
    eapply IH; [|exact H2]. apply map_Forall_insert_2; [|done].
    by split; [apply validate_token_text|apply validate_value_text]. }
  eapply Hgen; [|exact Hm]. apply map_Forall_empty.
Qed.

Lemma spec_decode_checked text s : spec_decode text = Ok s → spec_checked s.
Proof.
  unfold spec_decode. intros (v & _ & (d & Hd & H)%result_bind_Ok)%result_bind_Ok.
  apply read_spec_lines_ok in Hd as [H1 H2 H3 H4 H5]; [|by split].
  repeat (apply result_bind_Ok in H as (? & ?Hx & H)). injection H as <-.
  repeat match goal with Hx : ok_or _ _ = Ok _ |- _ => apply ok_or_Ok in Hx end.
  match goal with Hj : worker_job_new _ _ = Ok _ |- _ => apply worker_job_new_ok in Hj as [? ?] end.
  match goal with Hv : spec_validate _ = Ok ?u |- _ =>
    destruct u; apply spec_validate_accepts in Hv as (? & ? & ? & ?) end.
  match goal with Ht : sd_rayon_threads _ = Some _ |- _ => specialize (H4 _ Ht) end.
  split; simpl in *; eauto using valid_id_identifier_text.
  - unfold_ints; lia.
  - eapply Forall_impl; [exact H5|]. intros z. simpl. unfold_ints. lia.
  - by eapply H1.
Qed.

(** ** Properties *)

(** What the scheduler writes is what the worker reads: a spec with valid and
    transmissible fields encodes, and decoding the text gives the same spec. *)
Theorem worker_spec_roundtrip (s : WorkerSpec) (Hs : spec_ok s) :
  ∃ text, spec_encode s = Ok text ∧ spec_decode text = Ok s.
Proof. exact (spec_roundtrip s Hs). Qed.

(** What the worker reports is what the scheduler reads, for both outcomes: a
    result with transmissible identifiers encodes, and decoding gives the same
    result, its failure code included. *)
Theorem worker_result_roundtrip (r : WorkerResult) (Hr : result_ok r) :
  ∃ text, result_encode r = Ok text ∧ result_decode text = Ok r.
Proof. exact (result_roundtrip r Hr). Qed.

(** C39. Whatever text a worker is started with, a spec it decodes can be honoured
    safely: schema version 1, an output directory that starts with a slash, from
    one to 2^32 - 1 threads, devices that are distinct and within u32, a digest of
    32 bytes, identifiers of 1 to 256 printable ASCII characters, and at most 64
    job fields, each name 1 to 64 visible ASCII characters without a space and
    each value at most 4096 printable ASCII characters that start with no space. *)
Theorem spec_decode_sound (text : bytes) (s : WorkerSpec) (H : spec_decode text = Ok s) : spec_checked s.
Proof. by eapply spec_decode_checked. Qed.

(** A launched worker's result is accepted only when it provably belongs to the
    attempt: the spec was valid, the process was run on exactly the encoded
    spec with the reserved number of threads, exited with success, and the text
    it left decodes to a result with the digest, job and attempt of the spec. *)
Theorem launch_accepts_own_result {S} `{WorkerHost S} (host host' : S) (binary result_path : Path)
    (spec : WorkerSpec) (r : WorkerResult)
    (Hrun : process_launch host binary spec result_path = (Ok r, host')) :
  spec_validate spec = Ok tt ∧
  wr_run_digest r = ws_run_digest spec ∧ wr_job_id r = ws_job_id spec ∧ wr_attempt_id r = ws_attempt_id spec ∧
  ∃ text h1 h2 out,
    host_write host (path_join (ws_staged_output_dir spec) "worker-spec.txt") (unlines (spec_lines spec)) = (Ok tt, h1) ∧
    host_run h1 binary (path_join (ws_staged_output_dir spec) "worker-spec.txt") result_path
      (show_unsigned (ws_rayon_threads spec)) (join_comma (show_unsigned <$> ws_cuda_devices spec)) = (Ok None, h2) ∧
    host_read h2 result_path = (Ok out, host') ∧ result_decode out = Ok r ∧ spec_encode spec = Ok text ∧
    text = unlines (spec_lines spec).
Proof.
  unfold process_launch in Hrun. destruct (spec_validate spec) as [[]|] eqn:Ev; [|done]. split; [done|].
  unfold spec_encode in *. rewrite Ev in *. simpl in Hrun.
  destruct (host_write _ _ _) as [[[]|] h1] eqn:Ew; [|done].
  destruct (host_run _ _ _ _ _ _) as [[[f|]|] h2] eqn:Er; [done| |done].
  destruct (host_read _ _) as [out h3] eqn:Ed. injection Hrun as Hrun ->.
  apply result_bind_Ok in Hrun as (txt & -> & (r' & Hr & ([] & Hver & [= ->])%result_bind_Ok)%result_bind_Ok).
  unfold verify_against in Hver.
  destruct (bool_decide_reflect (wr_run_digest r = ws_run_digest spec)); simpl in Hver; [|done].
  destruct (String.eqb_spec (wr_job_id r) (ws_job_id spec)); simpl in Hver; [|done].
  destruct (String.eqb_spec (wr_attempt_id r) (ws_attempt_id spec)); simpl in Hver; [|done].
  split_and!; try done. exists (unlines (spec_lines spec)), h1, h2, txt. done.
Qed.

(** ** The limits of the encoding *)

Definition base_spec (fields : list (string * string)) (job : JobId) : Result WorkerSpec ProtocolError :=
  let? j := worker_job_new WkLeafProof fields in
  worker_spec (replicate 32 (byte_of_Z 7)) job "run:job:attempt:1" j "/staging/1" (mkRequest 2 1024 0 0).

(** Two different jobs, each accepted by every check, are written as the same
    text: a field name may contain the sign that separates it from its value. *)
Theorem field_separator_ambiguous :
  ∃ s t text, base_spec [("a=b", "c")] "run:job" = Ok s ∧ base_spec [("a", "b=c")] "run:job" = Ok t ∧
    s ≠ t ∧ spec_encode s = Ok text ∧ spec_encode t = Ok text.
Proof.
  destruct (base_spec [("a=b", "c")] "run:job") as [s|e] eqn:Es; [|exfalso; by vm_compute in Es].
  destruct (base_spec [("a", "b=c")] "run:job") as [t|e] eqn:Et; [|exfalso; by vm_compute in Et].
  vm_compute in Es, Et. injection Es as <-. injection Et as <-.
  eexists _, _, _. split_and!; [done|done| |vm_compute; reflexivity|vm_compute; reflexivity].
  intros E. apply (f_equal (λ s, wj_fields (ws_job s) !! "a")) in E. by vm_compute in E.
Qed.

(** A job identifier may end in a space, and loses it on the way to the worker:
    the result then names another job and is refused. *)
Theorem trailing_space_lost :
  ∃ s t text, base_spec [] "run:job " = Ok s ∧ spec_encode s = Ok text ∧ spec_decode text = Ok t ∧
    ws_job_id t = "run:job" ∧
    verify_against (result_succeeded t (mkMeasurements 0 0)) s = Err (JobMismatch "run:job " "run:job").
Proof.
  eexists _, _, _. split_and!; [vm_compute; reflexivity|vm_compute; reflexivity|vm_compute; reflexivity
    |vm_compute; reflexivity|vm_compute; reflexivity].
Qed.

(** ** Witnesses *)

Definition demo_job : WorkerJob := mkWorkerJob WkLeafProof {[ "shard" := "3" ]}.
Definition demo_spec : WorkerSpec :=
  mkWorkerSpec 1 (replicate 32 (byte_of_Z 7)) "run:leaf" "run:leaf:attempt:1" demo_job "/staging/1" 2 [0; 1].
Definition demo_result : WorkerResult := result_failed demo_spec (as_bytes "out of memory!") (mkMeasurements 4096 12).

Lemma demo_spec_ok : spec_ok demo_spec.
Proof.
  split; try by_compute; try (vm_compute; reflexivity).
  - by split; [vm_compute; reflexivity|by_compute].
  - by split; [vm_compute; reflexivity|by_compute].
  - intros k v Hkv. change (wj_fields (ws_job demo_spec)) with ({[ "shard" := "3" ]} : gmap string string) in Hkv. apply lookup_singleton_Some in Hkv as [<- <-].
    split_and!; [vm_compute; reflexivity|vm_compute; reflexivity|by_compute|by_compute].
Qed.

Lemma demo_result_ok : result_ok demo_result.
Proof.
  split; try by_compute; try (vm_compute; reflexivity).
  - by split; [vm_compute; reflexivity|by_compute].
  - by split; [vm_compute; reflexivity|by_compute].
Qed.

Lemma worker_spec_roundtrip_witness :
  ∃ text, spec_encode demo_spec = Ok text ∧ spec_decode text = Ok demo_spec.
Proof. exact (worker_spec_roundtrip demo_spec demo_spec_ok). Defined.

Lemma worker_result_roundtrip_witness :
  ∃ text, result_encode demo_result = Ok text ∧ result_decode text = Ok demo_result.
Proof. exact (worker_result_roundtrip demo_result demo_result_ok). Defined.

Lemma spec_decode_sound_witness : ∃ s, spec_checked s ∧ ws_job_id s = "run:leaf".
Proof.
  eexists. split.
  - apply (spec_decode_sound (unlines (spec_lines demo_spec))). vm_compute. reflexivity.
  - reflexivity.
Defined.

(** A host that runs the worker at once: the result file holds what it wrote. *)
#[local] Instance demo_host : WorkerHost unit := {
  host_write _ _ _ := (Ok tt, tt);
  host_run _ _ _ _ _ _ := (Ok None, tt);
  host_read _ _ := (result_encode demo_result, tt)
}.

Lemma launch_accepts_own_result_witness :
  wr_attempt_id demo_result = ws_attempt_id demo_spec.
Proof.
  apply (launch_accepts_own_result tt tt "/bin/zkie" "/staging/1/worker-result.txt" demo_spec demo_result).
  vm_compute. reflexivity.
Defined.
