(* ===== verification/Program.v ===== *)
(** * Compiled programs

    crates/zkie-core/src/isa.rs, crates/zkie-core/src/tensor.rs and the data
    types of crates/zkie-compiler/src/graph_compiler.rs.  A [usize] that indexes
    a vector is a [nat]; the [f32] weights are carried as their bit patterns. *)
From S2P Require Import Prelude.

Open Scope string_scope.
Open Scope list_scope.

(** ** The instruction set *)

Inductive EltwiseOp := Add | Mul | Relu.
Inductive ReduceOp := Sum | Mean.

Inductive Instruction :=
| DotGeneral (m n k : nat) (batch_dims : list nat) (trans_a trans_b : bool)
| Softmax (axis_dim : nat)
| Gelu
| LayerNorm (dim : nat) (epsilon_milli : Z)
| RmsNorm (dim : nat) (epsilon_milli : Z)
| Eltwise (op : EltwiseOp)
| Reduce (op : ReduceOp) (axis : nat)
| EmbedLookup (table_size embed_dim : nat)
| PatchEmbed (patch_len embed_dim : nat).

#[export] Instance EltwiseOp_eq_dec : EqDecision EltwiseOp.
Proof. solve_decision. Defined.
#[export] Instance ReduceOp_eq_dec : EqDecision ReduceOp.
Proof. solve_decision. Defined.
#[export] Instance Instruction_eq_dec : EqDecision Instruction.
Proof. solve_decision. Defined.

(** ** Registers and programs *)

Inductive Register :=
| GraphInput (name : string)
| Weight (name : string)
| Virtual (index : nat).

#[export] Instance Register_eq_dec : EqDecision Register.
Proof. solve_decision. Defined.
#[export] Program Instance Register_countable : Countable Register :=
  inj_countable' (λ r, match r with
                       | GraphInput n => inl (inl n)
                       | Weight n => inl (inr n)
                       | Virtual i => inr i
                       end)
    (λ s, match s with
          | inl (inl n) => GraphInput n
          | inl (inr n) => Weight n
          | inr i => Virtual i
          end) _.
Next Obligation. by intros []. Qed.

Record CompiledInstruction := mkInstruction {
  ci_instruction : Instruction;
  ci_inputs : list Register;
  ci_output_name : string
}.

Record WeightTensor := mkWeight {
  wt_shape : list nat;
  wt_data : list Z
}.

Record CompiledProgram := mkProgram {
  cp_instructions : list CompiledInstruction;
  cp_weights : gmap string WeightTensor;
  cp_graph_inputs : list string;
  cp_graph_outputs : list (string * Register)
}.

(** ** Tensors *)

Record Tensor (T : Type) := mkTensor { tensor_shape : list nat; tensor_data : list T }.
Arguments mkTensor {T} _ _.
Arguments tensor_shape {T} _.
Arguments tensor_data {T} _.

(** [shape.iter().product()]. *)
Definition shape_product (shape : list nat) : nat := foldr Nat.mul 1 shape.

Definition tensor_new {T} (shape : list nat) (data : list T) : Result (Tensor T) string :=
  if Nat.eqb (length data) (shape_product shape) then Ok (mkTensor shape data)
  else Err "data length does not match shape".
