(* ===== verification/Dag.v ===== *)
(** * The shard DAG

    crates/zkie-compiler/src/dag/model.rs: shards, edges and [build_dag], which
    derives the cross-shard edges of a program by def-use analysis. *)
From S2P Require Import Prelude Ordering Program.

Open Scope string_scope.
Open Scope nat_scope.
Open Scope list_scope.

(** ** Data *)

(** A half-open range of instruction indices. *)
Record Range := mkRange { range_start : nat; range_end : nat }.
Definition range_contains (r : Range) (i : nat) : bool := (range_start r <=? i) && (i <? range_end r).
Definition range_len (r : Range) : nat := range_end r - range_start r.

Record Shard := mkShard {
  shard_id : nat;
  shard_name : string;
  shard_range : Range;
  shard_inputs : list Register;
  shard_outputs : list Register
}.

Inductive EdgeKind := Sequential | Broadcast.

Record Edge := mkEdge {
  edge_id : string;
  edge_producer : nat;
  edge_consumer : nat;
  edge_register : Register;
  edge_kind : EdgeKind
}.

Record Dag := mkDag { dag_shards : list Shard; dag_edges : list Edge }.

Record ShardSpec := mkSpec { spec_name : string; spec_range : Range }.

Inductive BuildDagError :=
| NoShards
| NotContiguous (expected_start got_start shard_index : nat)
| UnknownRegister (consumer_instruction : nat) (register : Register)
| ForwardRegister (consumer_instruction : nat) (register : Register).

(** ** Edge identifiers *)

(** [{:020}]: twenty decimal digits, exact for every [usize]. *)
Fixpoint digits (width : nat) (n : Z) : string :=
  match width with
  | O => EmptyString
  | S width => String (Ascii.ascii_of_nat (48 + Z.to_nat (n / 10 ^ Z.of_nat width)))
                 (digits width (n mod 10 ^ Z.of_nat width))
  end.

Definition edge_id_text (producer consumer index : nat) : string :=
  "edge-v1:" +:+ digits 20 (Z.of_nat producer) +:+ ":" +:+ digits 20 (Z.of_nat consumer)
  +:+ ":virtual:" +:+ digits 20 (Z.of_nat index).

(** ** Def-use analysis *)

(** The contiguity loop; returns where the last spec ended. *)
Fixpoint check_contiguous (expected_start shard_index : nat) (specs : list ShardSpec)
    : Result nat BuildDagError :=
  match specs with
  | [] => Ok expected_start
  | spec :: rest =>
      if negb (Nat.eqb (range_start (spec_range spec)) expected_start) then
        Err (NotContiguous expected_start (range_start (spec_range spec)) shard_index)
      else check_contiguous (range_end (spec_range spec)) (S shard_index) rest
  end.

(** [shard_of]: the first spec that contains the index; [None] is the panic of
    its [expect]. *)
Definition shard_of (specs : list ShardSpec) (i : nat) : option nat :=
  fst <$> list_find (λ s, range_contains (spec_range s) i = true) specs.

(** One input of one instruction: reject a bad reference, or record that the
    consumer's shard reads a register of another shard. *)
Definition use_register (specs : list ShardSpec) (count consumer consumer_shard : nat)
    (consumers_of : gmap nat (list nat)) (input : Register)
    : Outcome (gmap nat (list nat)) BuildDagError :=
  match input with
  | Virtual producer =>
      if count <=? producer then Some (Err (UnknownRegister consumer (Virtual producer)))
      else if consumer <=? producer then Some (Err (ForwardRegister consumer (Virtual producer)))
      else
        or_panic (shard_of specs producer) (λ producer_shard,
          if negb (Nat.eqb producer_shard consumer_shard) then
            let entry := default [] (consumers_of !! producer) in
            Some (Ok (<[producer := if bool_decide (consumer_shard ∈ entry) then entry
                                    else entry ++ [consumer_shard]]> consumers_of))
          else Some (Ok consumers_of))
  | _ => Some (Ok consumers_of)
  end.

Fixpoint use_registers (specs : list ShardSpec) (count consumer consumer_shard : nat)
    (consumers_of : gmap nat (list nat)) (inputs : list Register)
    : Outcome (gmap nat (list nat)) BuildDagError :=
  match inputs with
  | [] => Some (Ok consumers_of)
  | input :: rest =>
      outcome_bind (use_register specs count consumer consumer_shard consumers_of input)
        (λ consumers_of, use_registers specs count consumer consumer_shard consumers_of rest)
  end.

Fixpoint use_instructions (specs : list ShardSpec) (count consumer : nat)
    (consumers_of : gmap nat (list nat)) (instructions : list CompiledInstruction)
    : Outcome (gmap nat (list nat)) BuildDagError :=
  match instructions with
  | [] => Some (Ok consumers_of)
  | instr :: rest =>
      or_panic (shard_of specs consumer) (λ consumer_shard,
        outcome_bind (use_registers specs count consumer consumer_shard consumers_of (ci_inputs instr))
          (λ consumers_of, use_instructions specs count (S consumer) consumers_of rest))
  end.

(** ** Edges *)

(** [register_sort_key]. *)
Definition register_sort_key (r : Register) : Z * string * Z :=
  match r with
  | GraphInput name => (0%Z, name, 0%Z)
  | Weight name => (1%Z, name, 0%Z)
  | Virtual index => (2%Z, EmptyString, Z.of_nat index)
  end.

Definition compare_register_key (l r : Z * string * Z) : comparison :=
  then_with (then_with (Z.compare l.1.1 r.1.1) (String.compare l.1.2 r.1.2)) (Z.compare l.2 r.2).

Definition compare_edges (l r : Edge) : comparison :=
  then_with
    (then_with (Z.compare (Z.of_nat (edge_producer l)) (Z.of_nat (edge_producer r)))
               (Z.compare (Z.of_nat (edge_consumer l)) (Z.of_nat (edge_consumer r))))
    (compare_register_key (register_sort_key (edge_register l)) (register_sort_key (edge_register r))).

Definition compare_edge_ids (l r : Edge) : comparison := String.compare (edge_id l) (edge_id r).

(** The tables the edge loop fills, indexed by shard. *)
Record EdgeTables := mkTables {
  et_edges : list Edge;
  et_inputs_by_shard : list (list Register);
  et_outputs_by_shard : list (list Register)
}.

(** [table[shard].push(register)]; an index out of range panics. *)
Definition push_at (table : list (list Register)) (shard : nat) (r : Register)
    : option (list (list Register)) :=
  row ← table !! shard; Some (<[shard := row ++ [r]]> table).

Fixpoint push_edges (producer_shard : nat) (register : Register) (kind : EdgeKind)
    (consumers : list nat) (t : EdgeTables) : option EdgeTables :=
  match consumers with
  | [] => Some t
  | consumer_shard :: rest =>
      inputs ← push_at (et_inputs_by_shard t) consumer_shard register;
      push_edges producer_shard register kind rest
        (mkTables (et_edges t ++ [mkEdge EmptyString producer_shard consumer_shard register kind])
           inputs (et_outputs_by_shard t))
  end.

Definition edge_kind_of (producer_shard : nat) (consumers : list nat) : EdgeKind :=
  match consumers with
  | [consumer] => if Nat.eqb consumer (S producer_shard) then Sequential else Broadcast
  | _ => Broadcast
  end.

Definition producer_edges (specs : list ShardSpec) (consumers_of : gmap nat (list nat)) (t : EdgeTables)
    (producer : nat) : option EdgeTables :=
  producer_shard ← shard_of specs producer;
  consumers ← consumers_of !! producer;
  outputs ← push_at (et_outputs_by_shard t) producer_shard (Virtual producer);
  push_edges producer_shard (Virtual producer) (edge_kind_of producer_shard consumers) consumers
    (mkTables (et_edges t) (et_inputs_by_shard t) outputs).

Fixpoint all_producer_edges (specs : list ShardSpec) (consumers_of : gmap nat (list nat)) (t : EdgeTables)
    (producers : list nat) : option EdgeTables :=
  match producers with
  | [] => Some t
  | p :: rest => t ← producer_edges specs consumers_of t p; all_producer_edges specs consumers_of t rest
  end.

(** [edge.id = ...]; an edge on another kind of register is unreachable. *)
Definition assign_id (e : Edge) : option Edge :=
  match edge_register e with
  | Virtual index =>
      Some (mkEdge (edge_id_text (edge_producer e) (edge_consumer e) index)
              (edge_producer e) (edge_consumer e) (edge_register e) (edge_kind e))
  | _ => None
  end.

Definition build_dag (program : CompiledProgram) (specs : list ShardSpec) : Outcome Dag BuildDagError :=
  let count := length (cp_instructions program) in
  if bool_decide (specs = []) then Some (Err NoShards)
  else
    outcome_bind (Some (check_contiguous 0 0 specs)) (λ expected_start,
    if negb (Nat.eqb expected_start count)
    then Some (Err (NotContiguous count expected_start (length specs - 1)))
    else
      outcome_bind (use_instructions specs count 0 ∅ (cp_instructions program)) (λ consumers_of,
      let producers := merge_sort Nat.le (fst <$> map_to_list consumers_of) in
      or_panic (all_producer_edges specs consumers_of
                  (mkTables [] (replicate (length specs) []) (replicate (length specs) [])) producers)
        (λ t,
      or_panic (mapM assign_id (sort_by compare_edges (et_edges t))) (λ edges,
      let edges := sort_by compare_edge_ids edges in
      let shards := imap (λ id spec,
        mkShard id (spec_name spec) (spec_range spec)
          (default [] (et_inputs_by_shard t !! id)) (default [] (et_outputs_by_shard t !! id))) specs in
      Some (Ok (mkDag shards edges)))))).
