(* ===== verification/DagProofs.v ===== *)
(** * The shard DAG: correctness of the def-use analysis

    [build_dag] never panics, rejects exactly the specs and programs it should,
    and its edges are exactly the cross-shard uses of the program. *)
From S2P Require Import Prelude Ordering Program Dag.

Open Scope string_scope.
Open Scope nat_scope.
Open Scope list_scope.

(** ** Contiguous specs *)

Lemma check_contiguous_cover st k specs en i :
  check_contiguous st k specs = Ok en → st ≤ i < en →
  ∃ s spec, list_find (λ s, range_contains (spec_range s) i = true) specs = Some (s, spec).
Proof.
  revert st k. induction specs as [|spec specs IH]; simpl; intros st k H Hi.
  { injection H as <-. lia. }
  destruct (Nat.eqb_spec (range_start (spec_range spec)) st) as [Est|]; simpl in H; [|done].
  case_decide as Hc; [eauto|].
  destruct (IH _ _ H) as (s & spec' & ->); [|simpl; eauto].
  unfold range_contains in Hc. rewrite andb_true_iff, Nat.leb_le, Nat.ltb_lt in Hc. lia.
Qed.

(** Later instructions are in later shards, even if some range is inverted. *)
Lemma check_contiguous_monotone st k specs en i j s t spec spec' :
  check_contiguous st k specs = Ok en → st ≤ i ≤ j →
  list_find (λ s, range_contains (spec_range s) i = true) specs = Some (s, spec) →
  list_find (λ s, range_contains (spec_range s) j = true) specs = Some (t, spec') → s ≤ t.
Proof.
  revert st k s t. induction specs as [|sp specs IH]; simpl; intros st k s t H Hij Hs Ht; [done|].
  destruct (Nat.eqb_spec (range_start (spec_range sp)) st) as [Est|]; simpl in H; [|done].
  destruct (decide (range_contains (spec_range sp) i = true)) as [Ci|Ci]; [injection Hs as <- _; lia|].
  destruct (decide (range_contains (spec_range sp) j = true)) as [Cj|Cj].
  - unfold range_contains in Ci, Cj. rewrite andb_true_iff, Nat.leb_le, Nat.ltb_lt in Ci, Cj. lia.
  - apply fmap_Some in Hs as ([s' x] & E1 & [= -> ->]), Ht as ([t' y] & E2 & [= -> ->]).
    apply le_n_S. eapply (IH _ _ s' t' H); [|exact E1|exact E2].
    unfold range_contains in Ci. rewrite andb_true_iff, Nat.leb_le, Nat.ltb_lt in Ci. lia.
Qed.

Section Covered.
Context (specs : list ShardSpec) (count : nat) (Hcov : check_contiguous 0 0 specs = Ok count).

Lemma shard_of_total i : i < count → ∃ s, shard_of specs i = Some s ∧ s < length specs.
Proof using Hcov.
  intros Hi. destruct (check_contiguous_cover _ _ _ _ i Hcov) as (s & spec & E); [lia|].
  unfold shard_of. rewrite E. exists s. split; [done|].
  apply list_find_Some in E as (E & _). by apply lookup_lt_Some in E.
Qed.

Lemma shard_of_monotone i j s t :
  i ≤ j → shard_of specs i = Some s → shard_of specs j = Some t → s ≤ t.
Proof using Hcov.
  unfold shard_of. intros Hij ([s' x] & E1 & ->)%fmap_Some ([t' y] & E2 & ->)%fmap_Some.
  eapply check_contiguous_monotone; [exact Hcov| |exact E1|exact E2]. lia.
Qed.

(** ** Cross-shard uses *)

(** Shard [c] reads register [p], which another shard produces. *)
Definition cross_use (instructions : list CompiledInstruction) (p c : nat) : Prop :=
  ∃ j instr sp, instructions !! j = Some instr ∧ Virtual p ∈ ci_inputs instr ∧
    shard_of specs j = Some c ∧ shard_of specs p = Some sp ∧ sp ≠ c.

(** A table of consumers: no repeated or empty rows, and the uses [U]. *)
Record consumers_ok (m : gmap nat (list nat)) (U : nat → nat → Prop) : Prop := {
  co_rows : ∀ p l, m !! p = Some l → NoDup l ∧ l ≠ [];
  co_uses : ∀ p c, c ∈ default [] (m !! p) ↔ U p c
}.

(** The uses one instruction adds. *)
Definition read_use (consumer_shard : nat) (inputs : list Register) (p c : nat) : Prop :=
  c = consumer_shard ∧ Virtual p ∈ inputs ∧ ∃ sp, shard_of specs p = Some sp ∧ sp ≠ consumer_shard.

Lemma consumers_ok_ext m U U' :
  (∀ p c, U p c ↔ U' p c) → consumers_ok m U → consumers_ok m U'.
Proof. intros H [H1 H2]. split; [done|]. intros. by rewrite H2, H. Qed.

(** An error of the analysis names an instruction that reads a register that
    does not exist or is not produced before it. *)
Definition reference_error (instructions : list CompiledInstruction) (e : BuildDagError) : Prop :=
  ∃ j instr p, instructions !! j = Some instr ∧ Virtual p ∈ ci_inputs instr ∧
    ((count ≤ p ∧ e = UnknownRegister j (Virtual p)) ∨ (j ≤ p < count ∧ e = ForwardRegister j (Virtual p))).

Lemma use_register_spec consumer cs m U input :
  consumer < count → shard_of specs consumer = Some cs → consumers_ok m U →
  (∃ p, input = Virtual p ∧ consumer ≤ p ∧
     use_register specs count consumer cs m input =
       Some (Err (if count <=? p then UnknownRegister consumer (Virtual p)
                  else ForwardRegister consumer (Virtual p)))) ∨
  ((∀ p, input = Virtual p → p < consumer) ∧
   ∃ m', use_register specs count consumer cs m input = Some (Ok m') ∧
     consumers_ok m' (λ p c, U p c ∨ read_use cs [input] p c)).
Proof using Hcov.
  intros Hc Hcs Hm. destruct input as [name|name|p]; simpl.
  1,2: right; split; [done|]; exists m; split; [done|]; eapply consumers_ok_ext; [|exact Hm];
    intros p c; unfold read_use; rewrite list_elem_of_singleton; naive_solver.
  destruct (Nat.leb_spec count p) as [Hp|Hp].
  { left. exists p. rewrite (proj2 (Nat.leb_le count p)) by lia. split_and!; [done|lia|done]. }
  destruct (Nat.leb_spec consumer p) as [Hf|Hf].
  { left. exists p. rewrite (proj2 (Nat.leb_gt count p)) by lia. done. }
  right. split; [by intros ? [= <-]|].
  destruct (shard_of_total p Hp) as (sp & Esp & _). rewrite Esp. simpl.
  assert (Huse : ∀ q c, read_use cs [Virtual p] q c ↔ q = p ∧ c = cs ∧ sp ≠ cs).
  { intros q c. unfold read_use. rewrite list_elem_of_singleton. split.
    - intros (-> & [= ->] & sp' & E & Hne). rewrite Esp in E. injection E as <-. done.
    - intros (-> & -> & Hne). eauto 6. }
  destruct (Nat.eqb_spec sp cs) as [->|Hne]; simpl.
  { exists m. split; [done|]. eapply consumers_ok_ext; [|exact Hm]. intros q c. rewrite Huse. naive_solver. }
  eexists. split; [done|]. destruct Hm as [H1 H2].
  assert (Hrow : NoDup (default [] (m !! p))).
  { destruct (m !! p) eqn:E; simpl; [by apply (H1 p)|constructor]. }
  split.
  - intros q l. rewrite lookup_insert. case_decide as Hq; [|apply H1].
    intros [= <-]. case_bool_decide as Hin.
    + split; [done|]. intros E. rewrite E in Hin. by apply not_elem_of_nil in Hin.
    + split; [|by intros [_ [=]]%app_nil]. apply NoDup_app. split_and!; [done| |apply NoDup_singleton].
      intros x Hx ->%list_elem_of_singleton. done.
  - intros q c. rewrite Huse, lookup_insert. case_decide as Hq; [subst q; simpl|rewrite H2; naive_solver].
    rewrite <-H2. case_bool_decide as Hin; [naive_solver|].
    rewrite elem_of_app, list_elem_of_singleton. naive_solver.
Qed.

Lemma use_registers_spec consumer cs m U inputs :
  consumer < count → shard_of specs consumer = Some cs → consumers_ok m U →
  (∃ p, Virtual p ∈ inputs ∧ consumer ≤ p ∧
     use_registers specs count consumer cs m inputs =
       Some (Err (if count <=? p then UnknownRegister consumer (Virtual p)
                  else ForwardRegister consumer (Virtual p)))) ∨
  ((∀ p, Virtual p ∈ inputs → p < consumer) ∧
   ∃ m', use_registers specs count consumer cs m inputs = Some (Ok m') ∧
     consumers_ok m' (λ p c, U p c ∨ read_use cs inputs p c)).
Proof using Hcov.
  intros Hc Hcs. revert m U. induction inputs as [|input inputs IH]; intros m U Hm; simpl.
  { right. split; [by intros p []%not_elem_of_nil|]. exists m. split; [done|].
    eapply consumers_ok_ext; [|exact Hm]. intros p c. unfold read_use. split; [auto|].
    intros [|(_ & []%not_elem_of_nil & _)]; done. }
  destruct (use_register_spec consumer cs m U input Hc Hcs Hm)
    as [(p & -> & Hp & ->)|(Hin & m1 & -> & Hm1)]; simpl.
  { left. exists p. split_and!; [by left|done|done]. }
  destruct (IH _ _ Hm1) as [(p & Hp & Hle & ->)|(Hrest & m2 & -> & Hm2)].
  { left. exists p. split_and!; [by right|done|done]. }
  right. split; [intros p [<-|Hp]%elem_of_cons; [by apply Hin|by apply Hrest]|].
  exists m2. split; [done|]. eapply consumers_ok_ext; [|exact Hm2].
  intros p c. unfold read_use. rewrite list_elem_of_singleton, elem_of_cons. naive_solver.
Qed.

Lemma use_instructions_spec pre instructions m :
  length pre + length instructions = count → consumers_ok m (cross_use pre) →
  (∀ j instr p, pre !! j = Some instr → Virtual p ∈ ci_inputs instr → p < j) →
  (∃ e, use_instructions specs count (length pre) m instructions = Some (Err e) ∧
     reference_error (pre ++ instructions) e) ∨
  ((∀ j instr p, (pre ++ instructions) !! j = Some instr → Virtual p ∈ ci_inputs instr → p < j) ∧
   ∃ m', use_instructions specs count (length pre) m instructions = Some (Ok m') ∧
     consumers_ok m' (cross_use (pre ++ instructions))).
Proof using Hcov.
  revert pre m. induction instructions as [|instr rest IH]; intros pre m Hlen Hm Hpre; simpl.
  { rewrite app_nil_r. right. eauto. }
  simpl in Hlen. destruct (shard_of_total (length pre)) as (cs & Hcs & _); [lia|]. rewrite Hcs. simpl.
  assert (Hat : (pre ++ instr :: rest) !! length pre = Some instr)
    by (rewrite lookup_app_r, Nat.sub_diag; done).
  destruct (use_registers_spec (length pre) cs m (cross_use pre) (ci_inputs instr))
    as [(p & Hp & Hle & ->)|(Hin & m1 & -> & Hm1)]; [lia|done|done| |]; simpl.
  { left. eexists. split; [done|]. exists (length pre), instr, p. split_and!; [done..|].
    destruct (Nat.leb_spec count p); [left|right]; split; done || lia. }
  replace (pre ++ instr :: rest) with ((pre ++ [instr]) ++ rest) by (by rewrite <-app_assoc).
  replace (S (length pre)) with (length (pre ++ [instr])) by (rewrite length_app; simpl; lia).
  apply IH.
  - rewrite length_app. simpl. lia.
  - eapply consumers_ok_ext; [|exact Hm1]. intros p c. unfold cross_use, read_use. split.
    + intros [(j & i & sp & Hj & H)|(-> & Hin' & sp & Hsp & Hne)].
      * exists j, i, sp. rewrite lookup_app_l by (by apply lookup_lt_Some in Hj). done.
      * exists (length pre), instr, sp. rewrite lookup_app_r, Nat.sub_diag by done. done.
    + intros (j & i & sp & Hj & Hr & Hc & Hsp & Hne).
      apply lookup_app_Some in Hj as [Hj|[Hge Hj]]; [left; eauto 10|right].
      apply list_lookup_singleton_Some in Hj as [Hz <-]. assert (j = length pre) as -> by lia.
      rewrite Hcs in Hc. injection Hc as <-. eauto 6.
  - intros j i p Hj Hr. apply lookup_app_Some in Hj as [Hj|[Hge Hj]]; [by eapply Hpre|].
    apply list_lookup_singleton_Some in Hj as [Hz <-]. assert (j = length pre) as -> by lia. by apply Hin.
Qed.

End Covered.

(** ** Edges *)

Definition row (table : list (list Register)) (shard : nat) : list Register := default [] (table !! shard).

Lemma push_at_spec table shard r :
  shard < length table →
  ∃ table', push_at table shard r = Some table' ∧ length table' = length table ∧
    ∀ c x, x ∈ row table' c ↔ x ∈ row table c ∨ (c = shard ∧ x = r).
Proof.
  intros Hlt. apply lookup_lt_is_Some in Hlt as [l Hl]. unfold push_at. rewrite Hl. simpl.
  eexists. split_and!; [done|apply length_insert|]. intros c x. unfold row.
  rewrite list_lookup_insert. case_decide as Hc.
  - destruct Hc as [-> _]. rewrite Hl. simpl. rewrite elem_of_app, list_elem_of_singleton. naive_solver.
  - split; [auto|]. intros [|[-> ->]]; [done|]. destruct Hc. split; [done|]. by eapply lookup_lt_Some.
Qed.

Lemma push_edges_spec sp r kind consumers t :
  Forall (λ c, c < length (et_inputs_by_shard t)) consumers →
  ∃ t', push_edges sp r kind consumers t = Some t' ∧
    et_edges t' = et_edges t ++ ((λ c, mkEdge EmptyString sp c r kind) <$> consumers) ∧
    length (et_inputs_by_shard t') = length (et_inputs_by_shard t) ∧
    et_outputs_by_shard t' = et_outputs_by_shard t ∧
    ∀ c x, x ∈ row (et_inputs_by_shard t') c ↔
      x ∈ row (et_inputs_by_shard t) c ∨ (c ∈ consumers ∧ x = r).
Proof.
  revert t. induction consumers as [|c0 consumers IH]; intros t Hlt; simpl.
  { exists t. rewrite app_nil_r. split_and!; try done. intros c x. split; [auto|].
    intros [|[[]%not_elem_of_nil _]]; done. }
  apply Forall_cons in Hlt as [H0 Hlt].
  destruct (push_at_spec (et_inputs_by_shard t) c0 r H0) as (table & -> & Elen & Hrow). simpl.
  destruct (IH (mkTables (et_edges t ++ [mkEdge EmptyString sp c0 r kind]) table (et_outputs_by_shard t)))
    as (t' & -> & E1 & E2 & E3 & Hrow').
  { simpl. by rewrite Elen. }
  exists t'. simpl in *. split_and!; [done| |congruence|done|].
  - rewrite E1, <-app_assoc. done.
  - intros c x. rewrite Hrow', Hrow, elem_of_cons. naive_solver.
Qed.

Section Edges.
Context (specs : list ShardSpec) (m : gmap nat (list nat)).

(** The edges the loop pushes for one producing instruction. *)
Definition edges_of (p : nat) : list Edge :=
  match shard_of specs p, m !! p with
  | Some sp, Some l => (λ c, mkEdge EmptyString sp c (Virtual p) (edge_kind_of sp l)) <$> l
  | _, _ => []
  end.

Definition producer_ok (p : nat) : Prop :=
  ∃ sp l, shard_of specs p = Some sp ∧ sp < length specs ∧ m !! p = Some l ∧
    Forall (λ c, c < length specs) l.

Definition tables_sized (t : EdgeTables) : Prop :=
  length (et_inputs_by_shard t) = length specs ∧ length (et_outputs_by_shard t) = length specs.

Lemma all_producer_edges_spec producers t :
  Forall producer_ok producers → tables_sized t →
  ∃ t', all_producer_edges specs m t producers = Some t' ∧ tables_sized t' ∧
    et_edges t' = et_edges t ++ mjoin (edges_of <$> producers) ∧
    (∀ c x, x ∈ row (et_inputs_by_shard t') c ↔ x ∈ row (et_inputs_by_shard t) c ∨
       ∃ p, p ∈ producers ∧ x = Virtual p ∧ c ∈ default [] (m !! p)) ∧
    (∀ c x, x ∈ row (et_outputs_by_shard t') c ↔ x ∈ row (et_outputs_by_shard t) c ∨
       ∃ p, p ∈ producers ∧ x = Virtual p ∧ shard_of specs p = Some c).
Proof.
  revert t. induction producers as [|p producers IH]; intros t Hok Hsz; simpl.
  { exists t. rewrite app_nil_r. split_and!; try done; intros c x; (split; [auto|]);
      intros [|(p & []%not_elem_of_nil & _)]; done. }
  apply Forall_cons in Hok as [(sp & l & Hsp & Hlt & Hl & Hcs) Hok]. destruct Hsz as [S1 S2].
  unfold producer_edges, edges_of at 1. rewrite Hsp, Hl. simpl.
  destruct (push_at_spec (et_outputs_by_shard t) sp (Virtual p)) as (outs & -> & Eo & Ho); [by rewrite S2|].
  simpl. destruct (push_edges_spec sp (Virtual p) (edge_kind_of sp l) l
    (mkTables (et_edges t) (et_inputs_by_shard t) outs)) as (t1 & -> & E1 & E2 & E3 & Hi).
  { simpl. by rewrite S1. }
  simpl in *. destruct (IH t1) as (t' & -> & Hsz' & E & Hi' & Ho'); [done|split; congruence|].
  exists t'. split_and!; [done|exact Hsz'| | |].
  - rewrite E, E1, <-app_assoc. done.
  - intros c x. rewrite Hi', Hi. setoid_rewrite elem_of_cons. split.
    + intros [[|[Hc ->]]|(q & ? & ? & ?)]; [auto|right; exists p; rewrite Hl; auto|right; eauto].
    + intros [|(q & [->|] & -> & Hc)]; [auto|rewrite Hl in Hc; auto|right; eauto].
  - intros c x. rewrite Ho', E3, Ho. setoid_rewrite elem_of_cons. split.
    + intros [[|[-> ->]]|(q & ? & ? & ?)]; [auto|right; exists p; auto|right; eauto].
    + intros [|(q & [->|] & -> & Hc)]; [auto|rewrite Hsp in Hc; injection Hc as <-; auto|right; eauto].
Qed.

Lemma elem_of_edges_of producers e :
  e ∈ mjoin (edges_of <$> producers) ↔
  ∃ p sp l, p ∈ producers ∧ shard_of specs p = Some sp ∧ m !! p = Some l ∧ edge_consumer e ∈ l ∧
    e = mkEdge EmptyString sp (edge_consumer e) (Virtual p) (edge_kind_of sp l).
Proof.
  rewrite list_elem_of_join. setoid_rewrite list_elem_of_fmap. split.
  - intros (es & He & p & -> & Hp). unfold edges_of in He.
    destruct (shard_of specs p) as [sp|] eqn:Hsp; [|by apply not_elem_of_nil in He].
    destruct (m !! p) as [l|] eqn:Hl; [|by apply not_elem_of_nil in He].
    apply list_elem_of_fmap in He as (c & -> & Hc). exists p, sp, l. done.
  - intros (p & sp & l & Hp & Hsp & Hl & Hc & He). exists (edges_of p). split; [|eauto].
    unfold edges_of. rewrite Hsp, Hl. apply list_elem_of_fmap. eauto.
Qed.

(** The key an edge is sorted and named by. *)
Definition edge_key (e : Edge) : nat * nat * Register := (edge_producer e, edge_consumer e, edge_register e).

Lemma NoDup_edges_of producers :
  NoDup producers → (∀ p l, m !! p = Some l → NoDup l) →
  NoDup (edge_key <$> mjoin (edges_of <$> producers)).
Proof.
  intros Hnd Hl. induction producers as [|p producers IH]; simpl; [constructor|].
  apply NoDup_cons in Hnd as [Hp Hnd]. rewrite fmap_app. apply NoDup_app. split_and!.
  - unfold edges_of. destruct (shard_of specs p) as [sp|]; [|constructor].
    destruct (m !! p) as [l|] eqn:E; [|constructor]. rewrite <-list_fmap_compose.
    apply NoDup_fmap_2; [|by eapply Hl]. intros c c' [=]. done.
  - intros k (e & -> & He)%list_elem_of_fmap (e' & Ek & He')%list_elem_of_fmap.
    assert (∃ sp c kind, e = mkEdge EmptyString sp c (Virtual p) kind) as (sp & c & kind & ->).
    { unfold edges_of in He. destruct (shard_of specs p); [|by apply not_elem_of_nil in He].
      destruct (m !! p); [|by apply not_elem_of_nil in He].
      apply list_elem_of_fmap in He as (c & -> & _). eauto. }
    apply elem_of_edges_of in He' as (q & sp' & l & Hq & _ & _ & _ & Ee').
    apply (f_equal edge_register) in Ee'. simpl in Ee'.
    unfold edge_key in Ek. simpl in Ek. injection Ek as _ _ Ereg. rewrite Ee' in Ereg.
    injection Ereg as ->. done.
  - by apply IH.
Qed.

End Edges.

Lemma assign_id_edges edges :
  (∀ e, e ∈ edges → ∃ p, edge_register e = Virtual p) →
  ∃ edges', mapM assign_id edges = Some edges' ∧
    Forall2 (λ e e', edge_key e' = edge_key e ∧ edge_kind e' = edge_kind e ∧
      ∀ p, edge_register e = Virtual p → edge_id e' = edge_id_text (edge_producer e) (edge_consumer e) p)
      edges edges'.
Proof.
  induction edges as [|e edges IH]; intros Hv; [by exists []|].
  destruct (Hv e) as [p Hp]; [by left|]. destruct IH as (edges' & E & Hall); [intros; apply Hv; by right|].
  assert (Ea : assign_id e = Some (mkEdge (edge_id_text (edge_producer e) (edge_consumer e) p)
    (edge_producer e) (edge_consumer e) (edge_register e) (edge_kind e)))
    by (unfold assign_id; by rewrite Hp).
  simpl. rewrite Ea. simpl. rewrite E. simpl. eexists. split; [done|].
  constructor; [|done]. unfold edge_key. simpl. rewrite Hp. split_and!; [done|done|by intros ? [= <-]].
Qed.

(** ** The graph *)

(** What a DAG of [program] over [specs] must be. *)
Record dag_ok (program : CompiledProgram) (specs : list ShardSpec) (dag : Dag) : Prop := {
  dk_length : length (dag_shards dag) = length specs;
  dk_shards : ∀ i sh, dag_shards dag !! i = Some sh → ∃ spec, specs !! i = Some spec ∧
    shard_id sh = i ∧ shard_name sh = spec_name spec ∧ shard_range sh = spec_range spec;
  dk_edges : ∀ P C r, (∃ e, e ∈ dag_edges dag ∧ edge_key e = (P, C, r)) ↔
    ∃ p, r = Virtual p ∧ shard_of specs p = Some P ∧ cross_use specs (cp_instructions program) p C;
  dk_unique : NoDup (edge_key <$> dag_edges dag);
  dk_edge : ∀ e, e ∈ dag_edges dag → ∃ p, edge_register e = Virtual p ∧
    edge_id e = edge_id_text (edge_producer e) (edge_consumer e) p ∧
    (edge_kind e = Sequential ↔ edge_consumer e = S (edge_producer e) ∧
       ∀ C, cross_use specs (cp_instructions program) p C → C = edge_consumer e) ∧
    edge_producer e < edge_consumer e < length (dag_shards dag);
  dk_inputs : ∀ i sh x, dag_shards dag !! i = Some sh →
    x ∈ shard_inputs sh ↔ ∃ e, e ∈ dag_edges dag ∧ edge_consumer e = i ∧ edge_register e = x;
  dk_outputs : ∀ i sh x, dag_shards dag !! i = Some sh →
    x ∈ shard_outputs sh ↔ ∃ e, e ∈ dag_edges dag ∧ edge_producer e = i ∧ edge_register e = x;
  dk_sorted : StronglySorted (cmp_le compare_edge_ids) (dag_edges dag)
}.

Lemma edge_kind_of_sequential sp l :
  edge_kind_of sp l = Sequential ↔ l = [S sp].
Proof.
  unfold edge_kind_of. destruct l as [|c [|]]; [done| |done].
  destruct (Nat.eqb_spec c (S sp)); naive_solver.
Qed.

Lemma sequential_iff (U : nat → Prop) sp l c :
  NoDup l → (∀ x, x ∈ l ↔ U x) → c ∈ l →
  edge_kind_of sp l = Sequential ↔ c = S sp ∧ ∀ C, U C → C = c.
Proof.
  intros Hnd HU Hc. rewrite edge_kind_of_sequential. split.
  - intros ->. apply list_elem_of_singleton in Hc as ->. split; [done|].
    intros C HC. apply HU, list_elem_of_singleton in HC. done.
  - intros [-> Hall]. destruct l as [|x [|y l]]; [by apply not_elem_of_nil in Hc| |].
    + apply list_elem_of_singleton in Hc as ->. done.
    + exfalso. assert (x = S sp) as -> by (apply Hall, HU; by left).
      assert (y = S sp) as -> by (apply Hall, HU; right; by left).
      apply NoDup_cons in Hnd as [[] _]. by left.
Qed.

(** The final edge list: the pushed edges, named and ordered. *)
Lemma final_edges raw :
  (∀ e, e ∈ raw → ∃ p, edge_register e = Virtual p) →
  ∃ named, mapM assign_id (sort_by compare_edges raw) = Some named ∧
    let final := sort_by compare_edge_ids named in
    edge_key <$> final ≡ₚ edge_key <$> raw ∧
    ∀ e, e ∈ final → ∃ e0, e0 ∈ raw ∧ edge_key e = edge_key e0 ∧ edge_kind e = edge_kind e0 ∧
      ∀ p, edge_register e = Virtual p → edge_id e = edge_id_text (edge_producer e) (edge_consumer e) p.
Proof.
  intros Hraw. destruct (assign_id_edges (sort_by compare_edges raw)) as (named & E & Hall).
  { intros e. rewrite sort_by_Permutation. apply Hraw. }
  exists named. split; [done|]. split.
  - rewrite sort_by_Permutation. etrans; [|apply fmap_Permutation, (sort_by_Permutation compare_edges)].
    assert (edge_key <$> named = edge_key <$> sort_by compare_edges raw) as ->; [|done].
    clear -Hall. induction Hall as [|e e' l l' (He & _) _ IH]; [done|]. rewrite !fmap_cons. by rewrite He, IH.
  - intros e. rewrite sort_by_Permutation. intros He.
    apply list_elem_of_lookup in He as [i Hi].
    destruct (Forall2_lookup_r _ _ _ _ _ Hall Hi) as (e0 & He0 & Hk & Hkind & Hid).
    apply list_elem_of_lookup_2 in He0. rewrite sort_by_Permutation in He0.
    exists e0. split_and!; [done..|]. unfold edge_key in Hk. injection Hk as E1 E2 E3.
    intros p Hp. rewrite E1, E2. apply Hid. congruence.
Qed.

Lemma cross_use_bounds program specs p c :
  let count := length (cp_instructions program) in
  check_contiguous 0 0 specs = Ok count →
  (∀ j instr q, cp_instructions program !! j = Some instr → Virtual q ∈ ci_inputs instr → q < j) →
  cross_use specs (cp_instructions program) p c →
  ∃ sp, shard_of specs p = Some sp ∧ sp < c < length specs.
Proof.
  intros count Hcov Hrefs (j & instr & sp & Hj & Hr & Hc & Hsp & Hne).
  pose proof (Hrefs _ _ _ Hj Hr) as Hlt. apply lookup_lt_Some in Hj as Hj'.
  exists sp. split; [done|].
  pose proof (shard_of_monotone specs count Hcov p j sp c ltac:(lia) Hsp Hc).
  destruct (shard_of_total specs count Hcov j Hj') as (c' & Hc' & Hlen).
  rewrite Hc in Hc'. injection Hc' as <-. lia.
Qed.

Section Tail.
Context (program : CompiledProgram) (specs : list ShardSpec) (m : gmap nat (list nat)).
Context (Hcov : check_contiguous 0 0 specs = Ok (length (cp_instructions program))).
Context (Hm : consumers_ok m (cross_use specs (cp_instructions program))).
Context (Hrefs : ∀ j instr p, cp_instructions program !! j = Some instr →
  Virtual p ∈ ci_inputs instr → p < j).

Let producers := merge_sort Nat.le (fst <$> map_to_list m).

Lemma elem_of_producers p : p ∈ producers ↔ ∃ l, m !! p = Some l.
Proof.
  unfold producers. rewrite merge_sort_Permutation, list_elem_of_fmap. split.
  - intros ([q l] & -> & Hin%elem_of_map_to_list). eauto.
  - intros [l Hl]. exists (p, l). by rewrite elem_of_map_to_list.
Qed.

(** A row of the table: its producer's shard and its readers. *)
Lemma consumers_row p l :
  m !! p = Some l → NoDup l ∧ (∀ c, c ∈ l ↔ cross_use specs (cp_instructions program) p c) ∧
  ∃ sp, shard_of specs p = Some sp ∧ sp < length specs ∧ Forall (λ c, sp < c < length specs) l.
Proof using Hcov Hm Hrefs.
  intros Hl. destruct (co_rows _ _ Hm p l Hl) as [Hnd Hne].
  assert (HU : ∀ c, c ∈ l ↔ cross_use specs (cp_instructions program) p c)
    by (intros c; rewrite <-(co_uses _ _ Hm p c), Hl; done).
  split_and!; [done|done|]. destruct l as [|c0 l0] eqn:El; [done|].
  destruct (cross_use_bounds program specs p c0 Hcov Hrefs) as (sp & Hsp & Hb); [apply HU; by left|].
  exists sp. split_and!; [done|lia|]. apply Forall_forall. intros c Hc.
  destruct (cross_use_bounds program specs p c Hcov Hrefs) as (sp' & Hsp' & Hb'); [by apply HU|].
  congruence || (rewrite Hsp in Hsp'; injection Hsp' as <-; lia).
Qed.

Lemma producers_ok : Forall (producer_ok specs m) producers.
Proof using Hcov Hm Hrefs.
  apply Forall_forall. intros p [l Hl]%elem_of_producers.
  destruct (consumers_row p l Hl) as (_ & _ & sp & Hsp & Hlt & Hall).
  exists sp, l. split_and!; [done..|]. eapply Forall_impl; [exact Hall|]. simpl. lia.
Qed.

(** Membership of the pushed edges. *)
Lemma raw_edge_iff P C r :
  (∃ e, e ∈ mjoin (edges_of specs m <$> producers) ∧ edge_key e = (P, C, r)) ↔
  ∃ p, r = Virtual p ∧ shard_of specs p = Some P ∧ cross_use specs (cp_instructions program) p C.
Proof using Hcov Hm Hrefs.
  split.
  - intros (e & He & Hk). apply elem_of_edges_of in He as (p & sp & l & Hp & Hsp & Hl & Hc & Ee).
    apply (f_equal edge_key) in Ee. rewrite Hk in Ee. unfold edge_key in Ee. simpl in Ee.
    injection Ee as -> -> ->.
    exists p. split_and!; [done..|]. by apply (consumers_row p l Hl).
  - intros (p & -> & HP & Hu). destruct (m !! p) as [l|] eqn:Hl.
    2: { apply (co_uses _ _ Hm) in Hu. rewrite Hl in Hu. by apply not_elem_of_nil in Hu. }
    exists (mkEdge EmptyString P C (Virtual p) (edge_kind_of P l)). split; [|done].
    apply elem_of_edges_of. exists p, P, l. split_and!; [by apply elem_of_producers; eauto|done|done| |done].
    by apply (consumers_row p l Hl).
Qed.

Lemma raw_edge_virtual e :
  e ∈ mjoin (edges_of specs m <$> producers) → ∃ p, edge_register e = Virtual p.
Proof.
  intros (p & sp & l & _ & _ & _ & _ & Ee)%elem_of_edges_of. exists p. by rewrite Ee.
Qed.

Lemma dag_of_consumers :
  ∃ t named, all_producer_edges specs m
      (mkTables [] (replicate (length specs) []) (replicate (length specs) [])) producers = Some t ∧
    mapM assign_id (sort_by compare_edges (et_edges t)) = Some named ∧
    dag_ok program specs (mkDag
      (imap (λ id spec, mkShard id (spec_name spec) (spec_range spec)
          (default [] (et_inputs_by_shard t !! id)) (default [] (et_outputs_by_shard t !! id))) specs)
      (sort_by compare_edge_ids named)).
Proof using Hcov Hm Hrefs.
  destruct (all_producer_edges_spec specs m producers
    (mkTables [] (replicate (length specs) []) (replicate (length specs) [])))
    as (t & Et & _ & Eedges & Hin & Hout); [apply producers_ok|split; apply length_replicate|].
  simpl in Eedges. destruct (final_edges (et_edges t)) as (named & En & Hperm & Hfinal).
  { intros e. rewrite Eedges. apply raw_edge_virtual. }
  exists t, named. split_and!; [done|done|].
  set (final := sort_by compare_edge_ids named) in *.
  assert (Hkeys : ∀ P C r, (∃ e, e ∈ final ∧ edge_key e = (P, C, r)) ↔
    ∃ p, r = Virtual p ∧ shard_of specs p = Some P ∧ cross_use specs (cp_instructions program) p C).
  { intros P C r. rewrite <-raw_edge_iff, <-Eedges.
    assert (Hmem : ∀ l, (∃ e, e ∈ l ∧ edge_key e = (P, C, r)) ↔ (P, C, r) ∈ edge_key <$> l)
      by (intros l; rewrite list_elem_of_fmap; naive_solver).
    by rewrite !Hmem, Hperm. }
  assert (Hrow0 : ∀ c x, x ∉ row (replicate (length specs) []) c).
  { intros c x. unfold row. destruct (replicate _ _ !! c) eqn:E; [|apply not_elem_of_nil].
    apply lookup_replicate in E as [-> _]. apply not_elem_of_nil. }
  split; simpl.
  - apply length_imap.
  - intros i sh. rewrite list_lookup_imap. destruct (specs !! i) as [spec|] eqn:E; [|done].
    simpl. intros [= <-]. eauto.
  - exact Hkeys.
  - rewrite Hperm, Eedges. apply NoDup_edges_of.
    + unfold producers. rewrite merge_sort_Permutation. apply NoDup_fst_map_to_list.
    + intros p l Hl. apply (consumers_row p l Hl).
  - intros e He. destruct (Hfinal e He) as (e0 & He0 & Hk & Hkind & Hid).
    rewrite Eedges in He0. pose proof He0 as (p & sp & l & Hp & Hsp & Hl & Hc & Ee0)%elem_of_edges_of.
    rewrite Ee0 in Hkind. simpl in Hkind.
    assert (edge_key e = (sp, edge_consumer e0, Virtual p)) as Ek by (rewrite Hk, Ee0; done).
    unfold edge_key in Ek. injection Ek as EP EC ER.
    destruct (consumers_row p l Hl) as (Hnd & HU & sp' & Hsp' & Hlt & Hall).
    rewrite Hsp in Hsp'. injection Hsp' as <-.
    exists p. split_and!; [done|by apply Hid| | |].
    + rewrite Hkind, EP, EC. by apply sequential_iff.
    + rewrite Forall_forall in Hall. specialize (Hall _ Hc). lia.
    + rewrite length_imap. rewrite Forall_forall in Hall. specialize (Hall _ Hc). lia.
  - intros i sh x Hsh. rewrite list_lookup_imap in Hsh. destruct (specs !! i) as [spec|] eqn:E; [|done].
    simpl in Hsh. injection Hsh as <-. simpl. fold (row (et_inputs_by_shard t) i). rewrite Hin. simpl. split.
    + intros [H|(p & [l Hl]%elem_of_producers & -> & Hc)]; [by apply Hrow0 in H|].
      destruct (consumers_row p l Hl) as (_ & HU & sp & Hsp & _). rewrite Hl in Hc. simpl in Hc.
      destruct (proj2 (Hkeys sp i (Virtual p))) as (e & He & Hk); [exists p; by rewrite <-HU|].
      exists e. unfold edge_key in Hk. injection Hk as _ -> ->. done.
    + intros (e & He & <- & <-). right.
      destruct (proj1 (Hkeys (edge_producer e) (edge_consumer e) (edge_register e))) as (p & -> & Hsp & Hu);
        [by exists e|].
      apply (co_uses _ _ Hm) in Hu. exists p. split_and!; [|done|done]. apply elem_of_producers.
      destruct (m !! p); [eauto|by apply not_elem_of_nil in Hu].
  - intros i sh x Hsh. rewrite list_lookup_imap in Hsh. destruct (specs !! i) as [spec|] eqn:E; [|done].
    simpl in Hsh. injection Hsh as <-. simpl. fold (row (et_outputs_by_shard t) i). rewrite Hout. simpl. split.
    + intros [H|(p & [l Hl]%elem_of_producers & -> & Hsp)]; [by apply Hrow0 in H|].
      destruct (consumers_row p l Hl) as (_ & HU & _). destruct (co_rows _ _ Hm p l Hl) as [_ Hne].
      destruct l as [|c l]; [done|].
      destruct (proj2 (Hkeys i c (Virtual p))) as (e & He & Hk); [exists p; rewrite <-HU; split_and!; [done|done|by left]|].
      exists e. unfold edge_key in Hk. injection Hk as -> _ ->. done.
    + intros (e & He & <- & <-). right.
      destruct (proj1 (Hkeys (edge_producer e) (edge_consumer e) (edge_register e))) as (p & -> & Hsp & Hu);
        [by exists e|].
      apply (co_uses _ _ Hm) in Hu. exists p. split_and!; [|done|done]. apply elem_of_producers.
      destruct (m !! p); [eauto|by apply not_elem_of_nil in Hu].
  - apply sort_by_sorted. unfold compare_edge_ids. apply _.
Qed.

End Tail.

(** ** [build_dag] *)

(** The ranges follow one another from [st] to [en]. *)
Inductive contiguous : nat → list ShardSpec → nat → Prop :=
| contiguous_nil st : contiguous st [] st
| contiguous_cons spec specs en :
    contiguous (range_end (spec_range spec)) specs en →
    contiguous (range_start (spec_range spec)) (spec :: specs) en.

Lemma check_contiguous_iff st k specs en :
  check_contiguous st k specs = Ok en ↔ contiguous st specs en.
Proof.
  revert st k. induction specs as [|spec specs IH]; intros st k; simpl.
  - split; [intros [= ->]; constructor|by inversion 1; subst].
  - destruct (Nat.eqb_spec (range_start (spec_range spec)) st) as [<-|Hne]; simpl.
    + rewrite IH. split; [by constructor|by inversion 1; subst].
    + split; [done|by inversion 1; subst].
Qed.

Lemma check_contiguous_Err st k specs e :
  check_contiguous st k specs = Err e → ∃ a b c, e = NotContiguous a b c.
Proof.
  revert st k. induction specs as [|spec specs IH]; intros st k; simpl; [done|].
  destruct (negb _); [intros [= <-]; eauto|apply IH].
Qed.

(** Every register is read after the instruction that produces it. *)
Definition well_ordered (program : CompiledProgram) : Prop :=
  ∀ j instr p, cp_instructions program !! j = Some instr → Virtual p ∈ ci_inputs instr → p < j.

(** The analysis of the whole program, from the empty table. *)
Lemma analysis_spec program specs :
  let count := length (cp_instructions program) in
  check_contiguous 0 0 specs = Ok count →
  (∃ e, use_instructions specs count 0 ∅ (cp_instructions program) = Some (Err e) ∧
     reference_error count (cp_instructions program) e) ∨
  (well_ordered program ∧ ∃ m, use_instructions specs count 0 ∅ (cp_instructions program) = Some (Ok m) ∧
     consumers_ok m (cross_use specs (cp_instructions program))).
Proof.
  intros count Ec.
  assert (Hempty : consumers_ok ∅ (cross_use specs [])).
  { split; [by intros p l Hl; rewrite lookup_empty in Hl|]. intros p c. rewrite lookup_empty. simpl.
    split; [by intros []%not_elem_of_nil|]. by intros (j & i & sp & Hj & _). }
  exact (use_instructions_spec specs count Ec [] (cp_instructions program) ∅ eq_refl Hempty
    ltac:(by intros j i p Hj)).
Qed.

Lemma build_dag_Ok program specs dag :
  build_dag program specs = Some (Ok dag) →
  contiguous 0 specs (length (cp_instructions program)) ∧ well_ordered program ∧ dag_ok program specs dag.
Proof.
  unfold build_dag. case_bool_decide as Hne; [done|].
  destruct (check_contiguous 0 0 specs) as [en|e] eqn:Ec; simpl; [|done].
  destruct (Nat.eqb_spec en (length (cp_instructions program))) as [->|Hen]; simpl; [|done].
  destruct (analysis_spec program specs Ec) as [(e & -> & _)|(Hw & m & -> & Hm)]; [done|]. simpl.
  destruct (dag_of_consumers program specs m Ec Hm Hw) as (t & named & -> & En & Hok).
  simpl. rewrite En. simpl. intros [= <-]. split_and!; [|done|done].
  by apply (check_contiguous_iff 0 0).
Qed.

Lemma build_dag_total program specs :
  specs ≠ [] → contiguous 0 specs (length (cp_instructions program)) → well_ordered program →
  ∃ dag, build_dag program specs = Some (Ok dag) ∧ dag_ok program specs dag.
Proof.
  intros Hne Ec%(check_contiguous_iff 0 0) Hw. unfold build_dag.
  rewrite bool_decide_eq_false_2, Ec by done. simpl. rewrite Nat.eqb_refl. simpl.
  destruct (analysis_spec program specs Ec) as [(e & _ & j & i & p & Hj & Hp & Hcase)|(_ & m & -> & Hm)].
  { exfalso. pose proof (Hw _ _ _ Hj Hp). apply lookup_lt_Some in Hj.
    destruct Hcase as [[? _]|[? _]]; lia. }
  simpl. destruct (dag_of_consumers program specs m Ec Hm Hw) as (t & named & -> & En & Hok).
  simpl. rewrite En. simpl. eauto.
Qed.

Lemma reference_error_bad program e :
  reference_error (length (cp_instructions program)) (cp_instructions program) e → ¬ well_ordered program.
Proof.
  intros (j & i & p & Hj & Hp & Hcase) Hw. pose proof (Hw _ _ _ Hj Hp).
  apply lookup_lt_Some in Hj. destruct Hcase as [[? _]|[? _]]; lia.
Qed.

(** C31. Building the DAG never panics and is exact.  It succeeds only on specs
    that cover the program's instructions contiguously and on programs that
    read registers after their definition, and then the edges are exactly the
    uses of a register in a shard other than its producer's, each once, all
    from a lower to a higher shard, named by their key, labelled sequential
    exactly when the next shard is the only reader, ordered by name, with every
    shard's input and output registers those of its edges; otherwise the error
    says which of the conditions fails, and where. *)
Theorem build_dag_correct (program : CompiledProgram) (specs : list ShardSpec) :
  let count := length (cp_instructions program) in
  ∃ r, build_dag program specs = Some r ∧
    match r with
    | Ok dag => specs ≠ [] ∧ contiguous 0 specs count ∧ well_ordered program ∧ dag_ok program specs dag
    | Err NoShards => specs = []
    | Err (NotContiguous _ _ _) => specs ≠ [] ∧ ¬ contiguous 0 specs count
    | Err e => contiguous 0 specs count ∧ ¬ well_ordered program ∧
        reference_error count (cp_instructions program) e
    end.
Proof.
  intros count.
  assert (Hdag : ∀ dag, build_dag program specs = Some (Ok dag) → specs ≠ [] ∧
    contiguous 0 specs count ∧ well_ordered program ∧ dag_ok program specs dag)
    by (intros dag H; split; [by intros ->|by apply build_dag_Ok]).
  revert Hdag. unfold build_dag. case_bool_decide as Hne; [eauto|].
  destruct (check_contiguous 0 0 specs) as [en|e] eqn:Ec; simpl.
  2: { intros _. eexists. split; [done|]. destruct (check_contiguous_Err _ _ _ _ Ec) as (a & b & c & ->).
    split; [done|]. rewrite <-(check_contiguous_iff 0 0), Ec. done. }
  fold count. destruct (Nat.eqb_spec en count) as [->|Hen]; simpl.
  2: { intros _. eexists. split; [done|]. split; [done|].
    rewrite <-(check_contiguous_iff 0 0), Ec. congruence. }
  destruct (analysis_spec program specs Ec) as [(e & Ea & Herr)|(Hw & m & Ea & Hm)];
    fold count in Ea; rewrite Ea; simpl.
  - intros _. eexists. split; [done|]. apply check_contiguous_iff in Ec.
    pose proof (reference_error_bad _ _ Herr) as Hbad. destruct Herr as (j & i & p & Hj & Hp & Hcase).
    destruct Hcase as [[Hle ->]|[Hle ->]]; (split_and!; [done|done|]); exists j, i, p; auto.
  - destruct (dag_of_consumers program specs m Ec Hm Hw) as (t & named & -> & En & _).
    simpl. rewrite En. simpl. intros Hdag. eexists. split; [done|]. by apply Hdag.
Qed.
