(* ===== verification/Linker.v ===== *)
(** * Shard proofs and the linker

    crates/zkie-compiler/src/dag/prover.rs and linker.rs: commitments to
    register values, the mock prover, and [link], which checks every shard's
    proof and every edge of the DAG.  BLAKE3 is third-party code and a parameter. *)
From S2P Require Import Prelude Ordering Bytes Identity Program Dag DagProofs.

Open Scope string_scope.
Open Scope nat_scope.
Open Scope list_scope.

(** ** Data *)

Notation Commitment := bytes (only parsing).

(** The values of registers: raw [I18] integers. *)
Definition Witness : Type := gmap Register (list Z).

Record ShardProof := mkProof {
  pf_shard_id : nat;
  pf_input_commitments : gmap Register Commitment;
  pf_output_commitments : gmap Register Commitment;
  pf_valid : bool
}.

Inductive LinkError :=
| InvalidShard (shard_id : nat)
| CommitmentMismatch (producer consumer : nat) (register : Register)
| MissingProof (shard_id : nat)
| ShardIdMismatch (expected found : nat)
| MissingCommitment (shard_id : nat) (register : Register) (side : string).

(** ** The prover *)

Section Prover.
Context (blake3 : bytes → Digest32).

(** The bytes hashed by [of_i18_values]. *)
Definition commitment_preimage (values : list Z) : bytes := mjoin (encode_i64 <$> values).

Definition of_i18_values (values : list Z) : Commitment := blake3 (commitment_preimage values).

(** [commit_all]: [None] is the panic on a missing witness value. *)
Fixpoint commit_all (witness : Witness) (registers : list Register) (acc : gmap Register Commitment)
    : option (gmap Register Commitment) :=
  match registers with
  | [] => Some acc
  | r :: rest =>
      values ← witness !! r;
      commit_all witness rest (<[r := of_i18_values values]> acc)
  end.

Definition prove (shard : Shard) (witness : Witness) : option ShardProof :=
  inputs ← commit_all witness (shard_inputs shard) ∅;
  outputs ← commit_all witness (shard_outputs shard) ∅;
  Some (mkProof (shard_id shard) inputs outputs true).

End Prover.

(** ** The linker *)

Definition get_proof (proofs : list ShardProof) (shard_id : nat) : Result ShardProof LinkError :=
  let? proof := ok_or (proofs !! shard_id) (MissingProof shard_id) in
  if negb (Nat.eqb (pf_shard_id proof) shard_id) then Err (ShardIdMismatch shard_id (pf_shard_id proof))
  else Ok proof.

Definition check_shard (proofs : list ShardProof) (_ : unit) (shard : Shard) : Result unit LinkError :=
  let? proof := get_proof proofs (shard_id shard) in
  if negb (pf_valid proof) then Err (InvalidShard (shard_id shard)) else Ok tt.

Definition check_edge (proofs : list ShardProof) (_ : unit) (edge : Edge) : Result unit LinkError :=
  let? producer_proof := get_proof proofs (edge_producer edge) in
  let? consumer_proof := get_proof proofs (edge_consumer edge) in
  let? produced := ok_or (pf_output_commitments producer_proof !! edge_register edge)
                     (MissingCommitment (edge_producer edge) (edge_register edge) "output") in
  let? consumed := ok_or (pf_input_commitments consumer_proof !! edge_register edge)
                     (MissingCommitment (edge_consumer edge) (edge_register edge) "input") in
  if negb (bool_decide (produced = consumed))
  then Err (CommitmentMismatch (edge_producer edge) (edge_consumer edge) (edge_register edge))
  else Ok tt.

Definition link (dag : Dag) (proofs : list ShardProof) : Result unit LinkError :=
  let? _ := result_fold (check_shard proofs) tt (dag_shards dag) in
  result_fold (check_edge proofs) tt (dag_edges dag).

(** ** What the linker accepts *)

Lemma result_fold_unit {A E} (f : unit → A → Result unit E) l :
  result_fold f tt l = Ok tt ↔ ∀ x, x ∈ l → f tt x = Ok tt.
Proof.
  induction l as [|x l IH]; simpl.
  { split; [|done]. intros _ x Hx. by apply not_elem_of_nil in Hx. }
  rewrite result_bind_Ok. split.
  - intros ([] & Hx & Hl) y [->|Hy]%elem_of_cons; [done|]. by apply IH.
  - intros H. exists tt. split; [apply H; by left|]. apply IH. intros y Hy. apply H. by right.
Qed.

Definition has_proof (proofs : list ShardProof) (k : nat) (proof : ShardProof) : Prop :=
  proofs !! k = Some proof ∧ pf_shard_id proof = k.

Lemma get_proof_Ok proofs k proof : get_proof proofs k = Ok proof ↔ has_proof proofs k proof.
Proof.
  unfold get_proof, has_proof. rewrite result_bind_Ok. setoid_rewrite ok_or_Ok. split.
  - intros (p & -> & H). destruct (Nat.eqb_spec (pf_shard_id p) k); simpl in H; naive_solver.
  - intros [-> H]. eexists. split; [done|]. by rewrite H, Nat.eqb_refl.
Qed.

(** An edge whose two ends commit to the same value. *)
Definition edge_agrees (proofs : list ShardProof) (e : Edge) : Prop :=
  ∃ pp cp c, has_proof proofs (edge_producer e) pp ∧ has_proof proofs (edge_consumer e) cp ∧
    pf_output_commitments pp !! edge_register e = Some c ∧
    pf_input_commitments cp !! edge_register e = Some c.

Lemma check_edge_Ok proofs e : check_edge proofs tt e = Ok tt ↔ edge_agrees proofs e.
Proof.
  unfold check_edge, edge_agrees. split.
  - intros (pp & Hp%get_proof_Ok & H)%result_bind_Ok.
    apply result_bind_Ok in H as (cp & Hc%get_proof_Ok & H).
    apply result_bind_Ok in H as (a & Ha%ok_or_Ok & H).
    apply result_bind_Ok in H as (b & Hb%ok_or_Ok & H).
    case_bool_decide; simpl in H; [|done]. subst. eauto 10.
  - intros (pp & cp & c & Hp%get_proof_Ok & Hc%get_proof_Ok & Ha & Hb).
    rewrite Hp. simpl. rewrite Hc. simpl. rewrite Ha. simpl. rewrite Hb. simpl.
    by rewrite bool_decide_eq_true_2.
Qed.

Lemma check_shard_Ok proofs s :
  check_shard proofs tt s = Ok tt ↔ ∃ proof, has_proof proofs (shard_id s) proof ∧ pf_valid proof = true.
Proof.
  unfold check_shard. rewrite result_bind_Ok. setoid_rewrite get_proof_Ok.
  split; intros (p & Hp & H); exists p; (split; [done|]); destruct (pf_valid p); done.
Qed.

Lemma link_Ok dag proofs :
  link dag proofs = Ok tt ↔
  (∀ s, s ∈ dag_shards dag → ∃ proof, has_proof proofs (shard_id s) proof ∧ pf_valid proof = true) ∧
  (∀ e, e ∈ dag_edges dag → edge_agrees proofs e).
Proof.
  unfold link. rewrite result_bind_Ok. setoid_rewrite <-check_shard_Ok. setoid_rewrite <-check_edge_Ok.
  rewrite <-!result_fold_unit. split; [by intros ([] & H1 & H2)|]. intros [H1 H2]. by exists tt.
Qed.

Lemma result_fold_unit_Err {A E} (f : unit → A → Result unit E) l e :
  result_fold f tt l = Err e → ∃ x, x ∈ l ∧ f tt x = Err e.
Proof.
  induction l as [|x l IH]; simpl; [done|]. intros [H|([] & _ & H)]%result_bind_Err.
  - exists x. split; [by left|done].
  - destruct (IH H) as (y & Hy & Hf). exists y. split; [by right|done].
Qed.

(** The defect of a set of proofs that an error reports. *)
Definition defect (dag : Dag) (proofs : list ShardProof) (e : LinkError) : Prop :=
  match e with
  | MissingProof k => proofs !! k = None
  | ShardIdMismatch k found => ∃ p, proofs !! k = Some p ∧ pf_shard_id p = found ∧ found ≠ k
  | InvalidShard k => ∃ s p, s ∈ dag_shards dag ∧ shard_id s = k ∧ has_proof proofs k p ∧ pf_valid p = false
  | MissingCommitment k r side =>
      ∃ edge p, edge ∈ dag_edges dag ∧ edge_register edge = r ∧ has_proof proofs k p ∧
        ((side = "output" ∧ edge_producer edge = k ∧ pf_output_commitments p !! r = None) ∨
         (side = "input" ∧ edge_consumer edge = k ∧ pf_input_commitments p !! r = None))
  | CommitmentMismatch a b r =>
      ∃ edge pa pb ca cb, edge ∈ dag_edges dag ∧ edge_key edge = (a, b, r) ∧
        has_proof proofs a pa ∧ has_proof proofs b pb ∧
        pf_output_commitments pa !! r = Some ca ∧ pf_input_commitments pb !! r = Some cb ∧ ca ≠ cb
  end.

Lemma get_proof_Err dag proofs k e : get_proof proofs k = Err e → defect dag proofs e.
Proof.
  unfold get_proof. destruct (proofs !! k) as [p|] eqn:E; simpl; [|by intros [= <-]].
  destruct (Nat.eqb_spec (pf_shard_id p) k); simpl; [done|]. intros [= <-]. simpl. eauto.
Qed.

Lemma check_edge_Err dag proofs edge e :
  edge ∈ dag_edges dag → check_edge proofs tt edge = Err e → defect dag proofs e.
Proof.
  intros Hin. unfold check_edge.
  intros [H|(pp & Hp%get_proof_Ok & H)]%result_bind_Err; [by eapply get_proof_Err|].
  apply result_bind_Err in H as [H|(cp & Hc%get_proof_Ok & H)]; [by eapply get_proof_Err|].
  destruct (pf_output_commitments pp !! edge_register edge) as [a|] eqn:Ea; simpl in H.
  2: { injection H as <-. exists edge, pp. auto 10. }
  destruct (pf_input_commitments cp !! edge_register edge) as [b|] eqn:Eb; simpl in H.
  2: { injection H as <-. exists edge, cp. auto 10. }
  case_bool_decide; simpl in H; [done|]. injection H as <-. exists edge, pp, cp, a, b. done.
Qed.

(** The linker accepts exactly the proof sets it should, and every error it
    reports is real: it succeeds iff each shard of the DAG has, at its own
    index, a valid proof carrying its id, and for each edge the producer's
    output commitment and the consumer's input commitment to the register both
    exist and are equal; otherwise the error names a missing, misplaced or
    invalid proof, a missing commitment, or an edge whose commitments differ. *)
Theorem link_exact (dag : Dag) (proofs : list ShardProof) :
  match link dag proofs with
  | Ok _ =>
      (∀ s, s ∈ dag_shards dag → ∃ p, has_proof proofs (shard_id s) p ∧ pf_valid p = true) ∧
      (∀ e, e ∈ dag_edges dag → edge_agrees proofs e)
  | Err e =>
      ¬ ((∀ s, s ∈ dag_shards dag → ∃ p, has_proof proofs (shard_id s) p ∧ pf_valid p = true) ∧
         (∀ e, e ∈ dag_edges dag → edge_agrees proofs e)) ∧
      defect dag proofs e
  end.
Proof.
  pose proof (link_Ok dag proofs) as Hok. destruct (link dag proofs) as [[]|e] eqn:El; [by apply Hok|].
  split; [by intros H%Hok|]. unfold link in El. apply result_bind_Err in El as [H|([] & _ & H)].
  - apply result_fold_unit_Err in H as (s & Hs & H). unfold check_shard in H.
    apply result_bind_Err in H as [H|(p & Hp%get_proof_Ok & H)]; [by eapply get_proof_Err|].
    destruct (pf_valid p) eqn:Ev; simpl in H; [done|]. injection H as <-. exists s, p. done.
  - apply result_fold_unit_Err in H as (edge & He & H). by eapply check_edge_Err.
Qed.

(** ** Commitments bind the values *)

Section Binding.
Context (blake3 : bytes → Digest32).

Lemma commit_all_Some witness registers acc cs :
  commit_all blake3 witness registers acc = Some cs →
  ∀ r, r ∈ registers → ∃ values, witness !! r = Some values ∧ cs !! r = Some (of_i18_values blake3 values).
Proof.
  assert (Hkeep : ∀ registers acc cs r values,
    witness !! r = Some values → acc !! r = Some (of_i18_values blake3 values) →
    commit_all blake3 witness registers acc = Some cs → cs !! r = Some (of_i18_values blake3 values)).
  { intros rs. induction rs as [|x rs IH]; simpl; intros acc' cs' r values Hw Hr H; [by simplify_eq|].
    destruct (witness !! x) as [vx|] eqn:Ex; [|done]. simpl in H. eapply IH; [done| |done].
    destruct (decide (x = r)) as [->|Hne]; [rewrite lookup_insert_eq; congruence|by rewrite lookup_insert_ne]. }
  revert acc. induction registers as [|x registers IH]; simpl; intros acc H r Hr;
    [by apply not_elem_of_nil in Hr|].
  destruct (witness !! x) as [vx|] eqn:Ex; [|done]. simpl in H.
  apply elem_of_cons in Hr as [->|Hr]; [|by eapply IH].
  exists vx. split; [done|]. eapply Hkeep; [done| |done]. apply lookup_insert_eq.
Qed.

Lemma commit_all_total witness registers acc :
  (∀ r, r ∈ registers → is_Some (witness !! r)) → is_Some (commit_all blake3 witness registers acc).
Proof.
  revert acc. induction registers as [|x registers IH]; intros acc H; simpl; [by eexists|].
  destruct (H x) as [v Hv]; [by left|]. rewrite Hv. simpl. apply IH. intros r Hr. apply H. by right.
Qed.

Lemma commitment_preimage_inj l k :
  Forall in_i64 l → Forall in_i64 k → commitment_preimage l = commitment_preimage k → l = k.
Proof.
  unfold commitment_preimage. revert k. induction l as [|x l IH]; intros [|y k] Hl Hk H; try done.
  - change (encode_i64 x ++ mjoin (encode_i64 <$> l) = encode_i64 y ++ mjoin (encode_i64 <$> k)) in H.
    apply Forall_cons in Hl as [Hx Hl], Hk as [Hy Hk].
    apply (prefix_free (enc := encode_i64)) in H as [-> H]; [|done..]. f_equal. by apply IH.
Qed.

(** The two shards of an edge declare its register. *)
Lemma edge_boundary program specs dag e :
  dag_ok program specs dag → e ∈ dag_edges dag →
  (∃ s, dag_shards dag !! edge_producer e = Some s ∧ edge_register e ∈ shard_outputs s) ∧
  (∃ s, dag_shards dag !! edge_consumer e = Some s ∧ edge_register e ∈ shard_inputs s).
Proof.
  intros Hok He. destruct (dk_edge _ _ _ Hok e He) as (p & _ & _ & _ & Hlt).
  destruct (lookup_lt_is_Some_2 (dag_shards dag) (edge_producer e)) as [sp Hsp]; [lia|].
  destruct (lookup_lt_is_Some_2 (dag_shards dag) (edge_consumer e)) as [sc Hsc]; [lia|].
  split; [exists sp|exists sc]; (split; [done|]).
  - apply (dk_outputs _ _ _ Hok _ _ _ Hsp). eauto.
  - apply (dk_inputs _ _ _ Hok _ _ _ Hsc). eauto.
Qed.

(** Linked shards agree on what they exchange.  When every shard's
    commitments were computed from that shard's own witness and the linker
    accepts, then on every edge the producing and the consuming shard used the
    same values for the register, or the two value lists are a BLAKE3 collision. *)
Theorem link_binds_values (program : CompiledProgram) (specs : list ShardSpec) (dag : Dag)
    (proofs : list ShardProof) (witness_of : nat → Witness)
    (Hdag : build_dag program specs = Some (Ok dag))
    (Hrange : ∀ k r values, witness_of k !! r = Some values → Forall in_i64 values)
    (Hproofs : ∀ k s, dag_shards dag !! k = Some s → proofs !! k = prove blake3 s (witness_of k))
    (Hlink : link dag proofs = Ok tt) :
  ∀ e, e ∈ dag_edges dag → ∃ produced consumed,
    witness_of (edge_producer e) !! edge_register e = Some produced ∧
    witness_of (edge_consumer e) !! edge_register e = Some consumed ∧
    (produced = consumed ∨
     commitment_preimage produced ≠ commitment_preimage consumed ∧
       blake3 (commitment_preimage produced) = blake3 (commitment_preimage consumed)).
Proof.
  intros e He. apply link_Ok in Hlink as [_ Hedges].
  destruct (Hedges e He) as (pp & cp & c & [Hp _] & [Hc _] & Ho & Hi).
  apply build_dag_Ok in Hdag as (_ & _ & Hok).
  destruct (edge_boundary _ _ _ e Hok He) as [(sp & Hsp & Hout) (sc & Hsc & Hin)].
  rewrite (Hproofs _ _ Hsp) in Hp. rewrite (Hproofs _ _ Hsc) in Hc. unfold prove in Hp, Hc.
  apply bind_Some in Hp as (i1 & _ & (o1 & Ho1 & [= <-])%bind_Some).
  apply bind_Some in Hc as (i2 & Hi2 & (o2 & _ & [= <-])%bind_Some). simpl in *.
  destruct (commit_all_Some _ _ _ _ Ho1 _ Hout) as (produced & Hw1 & E1).
  destruct (commit_all_Some _ _ _ _ Hi2 _ Hin) as (consumed & Hw2 & E2).
  exists produced, consumed. split_and!; [done..|].
  destruct (decide (commitment_preimage produced = commitment_preimage consumed)) as [E|Hne].
  - left. apply commitment_preimage_inj; [by eapply Hrange..|done].
  - right. split; [done|]. unfold of_i18_values in *. congruence.
Qed.

(** The pipeline is complete: for every program and shard specs the DAG
    builder accepts, and every witness that gives a value to each register on
    an edge, the mock prover succeeds on every shard and the linker accepts
    the proofs. *)
Theorem mock_proofs_link (program : CompiledProgram) (specs : list ShardSpec) (dag : Dag) (witness : Witness)
    (Hdag : build_dag program specs = Some (Ok dag))
    (Hwit : ∀ e, e ∈ dag_edges dag → is_Some (witness !! edge_register e)) :
  ∃ proofs, mapM (λ s, prove blake3 s witness) (dag_shards dag) = Some proofs ∧
    link dag proofs = Ok tt.
Proof.
  apply build_dag_Ok in Hdag as (_ & _ & Hok).
  assert (Hprove : ∀ s, s ∈ dag_shards dag → is_Some (prove blake3 s witness)).
  { intros s (i & Hi)%list_elem_of_lookup. unfold prove.
    destruct (commit_all_total witness (shard_inputs s) ∅) as [ins ->].
    { intros r Hr. apply (dk_inputs _ _ _ Hok _ _ _ Hi) in Hr as (e & He & _ & <-). by apply Hwit. }
    simpl. destruct (commit_all_total witness (shard_outputs s) ∅) as [outs ->]; [|by eexists].
    intros r Hr. apply (dk_outputs _ _ _ Hok _ _ _ Hi) in Hr as (e & He & _ & <-). by apply Hwit. }
  destruct (mapM_is_Some_2 (λ s, prove blake3 s witness) (dag_shards dag)) as [proofs Hproofs].
  { apply Forall_forall. exact Hprove. }
  exists proofs. split; [done|]. apply mapM_Some in Hproofs.
  assert (Hat : ∀ k s, dag_shards dag !! k = Some s → ∃ p, has_proof proofs k p ∧
    prove blake3 s witness = Some p).
  { intros k s Hs. destruct (Forall2_lookup_l _ _ _ _ _ Hproofs Hs) as (p & Hp & E).
    exists p. split; [|done]. split; [done|]. destruct (dk_shards _ _ _ Hok _ _ Hs) as (_ & _ & <- & _).
    unfold prove in E. apply bind_Some in E as (i1 & _ & (o1 & _ & [= <-])%bind_Some). done. }
  apply link_Ok. split.
  - intros s (k & Hk)%list_elem_of_lookup. destruct (Hat k s Hk) as (p & Hp & E).
    destruct (dk_shards _ _ _ Hok _ _ Hk) as (_ & _ & -> & _). exists p. split; [done|].
    unfold prove in E. by apply bind_Some in E as (i1 & _ & (o1 & _ & [= <-])%bind_Some).
  - intros e He. destruct (edge_boundary _ _ _ e Hok He) as [(sp & Hsp & Hout) (sc & Hsc & Hin)].
    destruct (Hat _ _ Hsp) as (pp & Hpp & Ep), (Hat _ _ Hsc) as (cp & Hcp & Ec). unfold prove in Ep, Ec.
    apply bind_Some in Ep as (i1 & _ & (o1 & Ho1 & [= <-])%bind_Some).
    apply bind_Some in Ec as (i2 & Hi2 & (o2 & _ & [= <-])%bind_Some).
    destruct (commit_all_Some _ _ _ _ Ho1 _ Hout) as (v1 & Hw1 & E1).
    destruct (commit_all_Some _ _ _ _ Hi2 _ Hin) as (v2 & Hw2 & E2).
    rewrite Hw1 in Hw2. injection Hw2 as <-. eexists _, _, _. split_and!; [exact Hpp|exact Hcp|done|done].
Qed.

End Binding.

(** ** Witnesses *)

(** Two instructions in two shards, the second reading the first. *)
Definition demo_program : CompiledProgram :=
  mkProgram [mkInstruction (Eltwise Add) [GraphInput "x"] "a";
             mkInstruction (Eltwise Add) [Virtual 0] "b"] ∅ ["x"] [("b", Virtual 1)].
Definition demo_specs : list ShardSpec := [mkSpec "s0" (mkRange 0 1); mkSpec "s1" (mkRange 1 2)].
Definition demo_edge : Edge := mkEdge (edge_id_text 0 1 0) 0 1 (Virtual 0) Sequential.
Definition demo_dag : Dag :=
  mkDag [mkShard 0 "s0" (mkRange 0 1) [] [Virtual 0]; mkShard 1 "s1" (mkRange 1 2) [Virtual 0] []]
    [demo_edge].
Definition demo_values : Witness := {[ Virtual 0 := [2%Z; (-3)%Z] ]}.
Definition demo_hash (b : bytes) : Digest32 := b.

Lemma demo_build : build_dag demo_program demo_specs = Some (Ok demo_dag).
Proof. vm_compute. reflexivity. Qed.

Lemma demo_edge_only e : e ∈ dag_edges demo_dag → e = demo_edge.
Proof. apply list_elem_of_singleton. Qed.

Lemma link_binds_values_witness :
  ∃ produced consumed,
    demo_values !! Virtual 0 = Some produced ∧ demo_values !! Virtual 0 = Some consumed ∧
    (produced = consumed ∨ commitment_preimage produced ≠ commitment_preimage consumed ∧
       demo_hash (commitment_preimage produced) = demo_hash (commitment_preimage consumed)).
Proof.
  apply (link_binds_values demo_hash demo_program demo_specs demo_dag
    (omap (λ s, prove demo_hash s demo_values) (dag_shards demo_dag)) (λ _, demo_values) demo_build)
    with (e := demo_edge).
  - intros _ r values H. unfold demo_values in H. apply lookup_singleton_Some in H as [_ <-].
    repeat constructor; zlia.
  - intros [|[|k]] s H; [| |done]; injection H as <-; reflexivity.
  - vm_compute. reflexivity.
  - by left.
Defined.

Lemma mock_proofs_link_witness :
  ∃ proofs, mapM (λ s, prove demo_hash s demo_values) (dag_shards demo_dag) = Some proofs ∧
    link demo_dag proofs = Ok tt.
Proof.
  apply (mock_proofs_link demo_hash demo_program demo_specs demo_dag demo_values demo_build).
  intros e ->%demo_edge_only. exists [2%Z; (-3)%Z]. reflexivity.
Defined.
