(* ===== verification/Partition.v ===== *)
(** * Partition planning

    crates/zkie-compiler/src/dag/partition.rs: the request, the greedy planner
    that cuts a program into shards within a memory and a circuit-size budget,
    the checks on the resulting DAG, and the bytes hashed into the plan digest.
    The cost model is the trait of the code, a record of operations here. *)
From S2P Require Import Prelude Ordering Bytes Identity Program Dag DagProofs.

Open Scope string_scope.
Open Scope Z_scope.
Open Scope nat_scope.
Open Scope list_scope.

(** ** Data *)

Record InstructionEstimate := mkInstructionEstimate { ie_ram_bytes : Z; ie_required_k : Z }.
Record ShardEstimate := mkShardEstimate { se_ram_bytes : Z; se_required_k : Z }.

(** The variant [Dag { message }] keeps the error its message is the text of. *)
Inductive PartitionError :=
| ZeroBudget
| EmptyProgram
| EmptyPartition
| InvalidRequest (message : string)
| InvalidHint (message : string)
| EstimateOverflow
| UnsplittableInstruction (instruction : nat) (estimate : InstructionEstimate)
| InvalidVirtualReference (consumer_instruction : nat) (register : Register)
| DagFailed (error : BuildDagError)
| InconsistentDag (message : string).

Definition instruction_estimate_new (ram_bytes required_k : Z) : Result InstructionEstimate PartitionError :=
  Ok (mkInstructionEstimate ram_bytes required_k).
Definition shard_estimate_new (ram_bytes required_k : Z) : Result ShardEstimate PartitionError :=
  Ok (mkShardEstimate ram_bytes required_k).

(** The trait [InstructionCostModel]. *)
Record CostModel := mkCostModel {
  cm_identity : string;
  cm_version : Z;
  cm_estimate_instruction : CompiledInstruction → Result InstructionEstimate PartitionError;
  cm_estimate_shard : list CompiledInstruction → Result ShardEstimate PartitionError
}.

Record BoundaryHint := mkHint { hint_boundary : nat; hint_priority : Z; hint_label : string }.

Definition hint_new (boundary : nat) (priority : Z) (label : string) : Result BoundaryHint PartitionError :=
  if Nat.eqb boundary 0 || String.eqb label EmptyString
  then Err (InvalidHint "hint boundary must be nonzero and label nonempty")
  else Ok (mkHint boundary priority label).

Record PartitionRequest := mkPartitionRequest {
  pr_target_shard_ram_bytes : Z;
  pr_max_k : Z;
  pr_model_digest : Digest32;
  pr_compiler_version : string;
  pr_cost_model : CostModel;
  pr_boundary_hints : list BoundaryHint;
  pr_boundary_layout_digest : option Digest32
}.

Definition partition_request_new (target max_k : Z) (model_digest : Digest32) (compiler_version : string)
    (cost_model : CostModel) : Result PartitionRequest PartitionError :=
  if (target =? 0)%Z || (max_k =? 0)%Z then Err ZeroBudget
  else if String.eqb compiler_version EmptyString
  then Err (InvalidRequest "compiler version must be nonempty")
  else Ok (mkPartitionRequest target max_k model_digest compiler_version cost_model [] None).

Definition compare_hint_position (l r : BoundaryHint) : comparison :=
  then_with (Z.compare (Z.of_nat (hint_boundary l)) (Z.of_nat (hint_boundary r)))
    (String.compare (hint_label l) (hint_label r)).

Definition with_boundary_hints (self : PartitionRequest) (hints : list BoundaryHint)
    : Result PartitionRequest PartitionError :=
  if negb (bool_decide (NoDup (hint_boundary <$> hints)))
  then Err (InvalidHint "duplicate hint boundary")
  else Ok (mkPartitionRequest (pr_target_shard_ram_bytes self) (pr_max_k self) (pr_model_digest self)
             (pr_compiler_version self) (pr_cost_model self) (sort_by compare_hint_position hints)
             (pr_boundary_layout_digest self)).

Definition with_boundary_layout_digest (self : PartitionRequest) (digest : Digest32) : PartitionRequest :=
  mkPartitionRequest (pr_target_shard_ram_bytes self) (pr_max_k self) (pr_model_digest self)
    (pr_compiler_version self) (pr_cost_model self) (pr_boundary_hints self) (Some digest).

Record PlannedShard := mkPlannedShard {
  ps_id : nat;
  ps_name : string;
  ps_range : Range;
  ps_estimate : ShardEstimate;
  ps_instruction_estimates : list InstructionEstimate
}.

Record PartitionPlan := mkPlan {
  pp_shards : list PlannedShard;
  pp_dag : Dag;
  pp_model_digest : Digest32;
  pp_boundary_layout_digest : option Digest32;
  pp_digest : Digest32;
  pp_program_snapshot : CompiledProgram
}.

(** ** Budgets and hints *)

(** [&items[start..end]]. *)
Definition slice {A} (l : list A) (start end_ : nat) : list A := take (end_ - start) (drop start l).

(** The [try_fold] with [checked_add]. *)
Definition add_ram (sum : Z) (e : InstructionEstimate) : Result Z PartitionError :=
  ok_or (try_u64 (sum + ie_ram_bytes e)%Z) EstimateOverflow.

Definition max_required_k (estimates : list InstructionEstimate) : Z :=
  foldr (λ e acc, Z.max (ie_required_k e) acc) 0%Z estimates.

Definition range_exceeds (instructions : list InstructionEstimate) (shard : ShardEstimate)
    (request : PartitionRequest) : Result bool PartitionError :=
  let? instruction_ram := result_fold add_ram 0%Z instructions in
  let instruction_k := max_required_k instructions in
  Ok ((pr_target_shard_ram_bytes request <? instruction_ram)%Z
      || (pr_max_k request <? instruction_k)%Z
      || (pr_target_shard_ram_bytes request <? se_ram_bytes shard)%Z
      || (pr_max_k request <? se_required_k shard)%Z).

Definition compare_hint (l r : BoundaryHint) : comparison :=
  then_with
    (then_with (Z.compare (hint_priority l) (hint_priority r))
       (Z.compare (Z.of_nat (hint_boundary l)) (Z.of_nat (hint_boundary r))))
    (String.compare (hint_label r) (hint_label l)).

Definition best_hint (hints : list BoundaryHint) (start end_ : nat) : option BoundaryHint :=
  max_by compare_hint
    (filter (λ h, start < hint_boundary h ∧ hint_boundary h ≤ end_) hints).

(** ** The planner *)

(** The first register an instruction reads that is not produced before it. *)
Fixpoint invalid_input (consumer : nat) (inputs : list Register) : option Register :=
  match inputs with
  | [] => None
  | Virtual producer :: rest => if consumer <=? producer then Some (Virtual producer)
                                else invalid_input consumer rest
  | _ :: rest => invalid_input consumer rest
  end.

Fixpoint validate_virtual_references (consumer : nat) (instructions : list CompiledInstruction)
    : Result unit PartitionError :=
  match instructions with
  | [] => Ok tt
  | instr :: rest =>
      match invalid_input consumer (ci_inputs instr) with
      | Some r => Err (InvalidVirtualReference consumer r)
      | None => validate_virtual_references (S consumer) rest
      end
  end.

Definition map_dag_error (e : BuildDagError) : PartitionError :=
  match e with
  | UnknownRegister consumer register | ForwardRegister consumer register =>
      InvalidVirtualReference consumer register
  | other => DagFailed other
  end.

Definition validate_dag (dag : Dag) (instruction_count : nat) : Result unit PartitionError :=
  let covered := foldr (λ s acc, range_len (shard_range s) + acc) 0 (dag_shards dag) in
  if negb (Nat.eqb covered instruction_count)
     || existsb (λ e, (edge_consumer e <=? edge_producer e) || (length (dag_shards dag) <=? edge_consumer e))
          (dag_edges dag)
  then Err (InconsistentDag "derived DAG coverage or direction is invalid")
  else Ok tt.

Section Planner.
Context (instructions : list CompiledInstruction) (estimates : list InstructionEstimate)
        (request : PartitionRequest).

(** The inner [while]: extend the shard until the budget or the program ends.
    Returns the end and the accepted estimates; [None] when the fuel is spent. *)
Fixpoint extend (fuel start end_ : nat) (accepted : list (nat * ShardEstimate))
    : Outcome (nat * list (nat * ShardEstimate)) PartitionError :=
  if negb (end_ <? length instructions) then Some (Ok (end_, accepted))
  else
    match fuel with
    | O => None
    | S fuel =>
        outcome_bind (Some (cm_estimate_shard (pr_cost_model request) (slice instructions start (S end_))))
          (λ candidate,
        outcome_bind (Some (range_exceeds (slice estimates start (S end_)) candidate request)) (λ exceeds : bool,
        if exceeds then Some (Ok (end_, accepted))
        else extend fuel start (S end_) (accepted ++ [(S end_, candidate)])))
    end.

(** One iteration of the outer [while]: the shard that starts at [start]. *)
Definition next_shard (start : nat) : Outcome (Range * ShardEstimate) PartitionError :=
  outcome_bind (Some (cm_estimate_shard (pr_cost_model request) (slice instructions start (S start))))
    (λ single,
  outcome_bind (Some (range_exceeds (slice estimates start (S start)) single request)) (λ exceeds : bool,
  if exceeds then
    or_panic (estimates !! start) (λ e, Some (Err (UnsplittableInstruction start e)))
  else
    outcome_bind (extend (length instructions) start (S start) [(S start, single)]) (λ '(end_, accepted),
    let end_ := if end_ <? length instructions
                then match best_hint (pr_boundary_hints request) start end_ with
                     | Some hint => hint_boundary hint
                     | None => end_
                     end
                else end_ in
    if end_ <=? start then Some (Err EmptyPartition)
    else
      outcome_bind (Some (ok_or (snd <$> (snd <$> list_find (λ be, fst be = end_) accepted))
                            (InconsistentDag "selected boundary lacks an accepted estimate")))
        (λ estimate, Some (Ok (mkRange start end_, estimate)))))).

(** The outer [while]; every shard is nonempty, so the number of instructions
    bounds the iterations. *)
Fixpoint plan_ranges (fuel start : nat) : Outcome (list (Range * ShardEstimate)) PartitionError :=
  if negb (start <? length instructions) then Some (Ok [])
  else
    match fuel with
    | O => None
    | S fuel =>
        outcome_bind (next_shard start) (λ re,
        outcome_bind (plan_ranges fuel (range_end (fst re))) (λ rest, Some (Ok (re :: rest))))
    end.

End Planner.

Definition shard_name_text (id : nat) : string := "shard-" +:+ pretty (Z.of_nat id).

(** ** The plan digest *)

Definition encode_estimate (e : ShardEstimate) : bytes :=
  encode_u64 (se_ram_bytes e) ++ encode_u32 (se_required_k e).
Definition encode_instruction_estimate (e : InstructionEstimate) : bytes :=
  encode_u64 (ie_ram_bytes e) ++ encode_u32 (ie_required_k e).
Definition encode_usize (n : nat) : bytes := encode_u64 (Z.of_nat n).

Definition encode_register (r : Register) : bytes :=
  match r with
  | GraphInput name => byte_of_Z 0 :: encode_text name
  | Weight name => byte_of_Z 1 :: encode_text name
  | Virtual index => byte_of_Z 2 :: encode_usize index
  end.

Definition encode_hint (h : BoundaryHint) : bytes :=
  encode_usize (hint_boundary h) ++ encode_u32 (hint_priority h) ++ encode_text (hint_label h).

Definition encode_shard (s : PlannedShard) : bytes :=
  encode_usize (ps_id s) ++ encode_text (ps_name s) ++
  encode_usize (range_start (ps_range s)) ++ encode_usize (range_end (ps_range s)) ++
  encode_estimate (ps_estimate s) ++
  encode_seq encode_instruction_estimate (ps_instruction_estimates s).

Definition edge_kind_byte (k : EdgeKind) : bytes :=
  [byte_of_Z (match k with Sequential => 0 | Broadcast => 1 end)%Z].

Definition encode_edge (e : Edge) : bytes :=
  encode_text (edge_id e) ++ encode_usize (edge_producer e) ++ encode_usize (edge_consumer e) ++
  encode_register (edge_register e) ++ edge_kind_byte (edge_kind e).

Definition plan_preimage (request : PartitionRequest) (shards : list PlannedShard) (dag : Dag) : bytes :=
  as_bytes "zkie.partition-plan.v1" ++ [byte_of_Z 0] ++
  id (pr_model_digest request) ++ encode_text (pr_compiler_version request) ++
  encode_u64 (pr_target_shard_ram_bytes request) ++ encode_u32 (pr_max_k request) ++
  encode_text (cm_identity (pr_cost_model request)) ++ encode_u32 (cm_version (pr_cost_model request)) ++
  encode_option id (pr_boundary_layout_digest request) ++
  encode_seq encode_hint (pr_boundary_hints request) ++
  encode_seq encode_shard shards ++
  encode_seq encode_edge (sort_by compare_edge_ids (dag_edges dag)).

Definition plan_digest (blake3 : bytes → Digest32) (request : PartitionRequest)
    (shards : list PlannedShard) (dag : Dag) : Digest32 :=
  blake3 (plan_preimage request shards dag).

(** [PartitionPlanner::plan]; [None] is a panic. *)
Definition plan_partition (blake3 : bytes → Digest32) (program : CompiledProgram) (request : PartitionRequest)
    : Outcome PartitionPlan PartitionError :=
  let instructions := cp_instructions program in
  if bool_decide (length instructions = 0) then Some (Err EmptyProgram)
  else
    outcome_bind (Some (validate_virtual_references 0 instructions)) (λ _,
    if String.eqb (cm_identity (pr_cost_model request)) EmptyString
    then Some (Err (InvalidRequest "cost model identity must be nonempty"))
    else if existsb (λ h, length instructions <=? hint_boundary h) (pr_boundary_hints request)
    then Some (Err (InvalidHint "hint boundary is outside the program"))
    else
      outcome_bind (Some (result_mapM (cm_estimate_instruction (pr_cost_model request)) instructions))
        (λ estimates,
      outcome_bind (plan_ranges instructions estimates request (length instructions) 0) (λ ranges,
      let specs := imap (λ id re, mkSpec (shard_name_text id) (fst re)) ranges in
      outcome_bind (match build_dag program specs with
                    | Some r => Some (map_err map_dag_error r)
                    | None => None
                    end) (λ dag,
      outcome_bind (Some (validate_dag dag (length instructions))) (λ _,
      let shards := imap (λ id re, mkPlannedShard id (shard_name_text id) (fst re) (snd re)
        (slice estimates (range_start (fst re)) (range_end (fst re)))) ranges in
      if bool_decide (length shards = 0) then Some (Err EmptyPartition)
      else
        Some (Ok (mkPlan shards dag (pr_model_digest request) (pr_boundary_layout_digest request)
          (plan_digest blake3 request shards dag) program))))))).
