(* ===== verification/PartitionProofs.v ===== *)
(** * Partition planning: correctness of the greedy planner

    The planner's answer on every branch, when it has one, the minimality of
    greedy cuts, and the injectivity of the bytes behind the plan digest. *)
From S2P Require Import Prelude Ordering Bytes Identity Program Dag DagProofs Partition.

Open Scope string_scope.
Open Scope Z_scope.
Open Scope nat_scope.
Open Scope list_scope.

(** ** References *)

Lemma invalid_input_spec consumer inputs :
  match invalid_input consumer inputs with
  | Some r => ∃ p, r = Virtual p ∧ Virtual p ∈ inputs ∧ consumer ≤ p
  | None => ∀ p, Virtual p ∈ inputs → p < consumer
  end.
Proof.
  induction inputs as [|r inputs IH]; simpl; [by intros p []%not_elem_of_nil|].
  destruct r as [name|name|p]; simpl.
  1,2: destruct (invalid_input consumer inputs); [destruct IH as (q & -> & ? & ?); exists q;
    split_and!; [done|by right|done]|intros q [|Hq]%elem_of_cons; [done|by apply IH]].
  destruct (Nat.leb_spec consumer p); [exists p; split_and!; [done|by left|done]|].
  destruct (invalid_input consumer inputs).
  - destruct IH as (q & -> & ? & ?). exists q. split_and!; [done|by right|done].
  - intros q [[= ->]|Hq]%elem_of_cons; [done|by apply IH].
Qed.

Lemma validate_references_spec k instructions :
  match validate_virtual_references k instructions with
  | Ok _ => ∀ j instr p, instructions !! j = Some instr → Virtual p ∈ ci_inputs instr → p < k + j
  | Err e => ∃ j instr p, instructions !! j = Some instr ∧ Virtual p ∈ ci_inputs instr ∧ k + j ≤ p ∧
      e = InvalidVirtualReference (k + j) (Virtual p)
  end.
Proof.
  revert k. induction instructions as [|instr rest IH]; intros k; simpl; [by intros j i p Hj|].
  pose proof (invalid_input_spec k (ci_inputs instr)) as Hi.
  destruct (invalid_input k (ci_inputs instr)) as [r|].
  - destruct Hi as (p & -> & Hin & Hle). exists 0, instr, p. rewrite Nat.add_0_r. done.
  - specialize (IH (S k)). destruct (validate_virtual_references (S k) rest) as [[]|e].
    + intros [|j] i p Hj Hp; simpl in Hj.
      * injection Hj as ->. rewrite Nat.add_0_r. by apply Hi.
      * specialize (IH j i p Hj Hp). lia.
    + destruct IH as (j & i & p & Hj & Hp & Hle & ->). exists (S j), i, p.
      rewrite Nat.add_succ_r. done.
Qed.

(** ** Shards *)

Section Planner.
Context (instructions : list CompiledInstruction) (estimates : list InstructionEstimate)
        (request : PartitionRequest).
Let n := length instructions.

(** The range fits the budget, with this estimate. *)
Definition within_budget (start end_ : nat) (est : ShardEstimate) : Prop :=
  cm_estimate_shard (pr_cost_model request) (slice instructions start end_) = Ok est ∧
  range_exceeds (slice estimates start end_) est request = Ok false.

(** The range has an estimate, and exceeds the budget. *)
Definition over_budget (start end_ : nat) : Prop :=
  ∃ est, cm_estimate_shard (pr_cost_model request) (slice instructions start end_) = Ok est ∧
    range_exceeds (slice estimates start end_) est request = Ok true.

(** The errors estimating a range can end in. *)
Definition estimate_error (e : PartitionError) : Prop :=
  ∃ a b, a < b ≤ n ∧ (cm_estimate_shard (pr_cost_model request) (slice instructions a b) = Err e ∨
    result_fold add_ram 0%Z (slice estimates a b) = Err e).

Definition accepted_ok (start end_ : nat) (accepted : list (nat * ShardEstimate)) : Prop :=
  (∀ b est, (b, est) ∈ accepted → within_budget start b est) ∧
  (∀ b, start < b ≤ end_ → b ∈ fst <$> accepted).

Lemma range_exceeds_Err l est e :
  range_exceeds l est request = Err e → result_fold add_ram 0%Z l = Err e.
Proof. unfold range_exceeds. intros [H|(x & _ & H)]%result_bind_Err; done. Qed.

Lemma extend_spec fuel start end_ accepted :
  start < end_ ≤ n → n - end_ ≤ fuel → accepted_ok start end_ accepted →
  (∃ e, extend instructions estimates request fuel start end_ accepted = Some (Err e) ∧ estimate_error e) ∨
  (∃ stop accepted', extend instructions estimates request fuel start end_ accepted =
       Some (Ok (stop, accepted')) ∧
     start < stop ≤ n ∧ accepted_ok start stop accepted' ∧ (stop = n ∨ over_budget start (S stop))).
Proof.
  revert end_ accepted. induction fuel as [|fuel IH]; intros end_ accepted Hend Hfuel Hacc; simpl; fold n.
  { destruct (Nat.ltb_spec end_ n); [lia|]. simpl. right. exists end_, accepted.
    split_and!; [done|lia|lia|exact Hacc|left; lia]. }
  destruct (Nat.ltb_spec end_ n) as [Hlt|Hge]; simpl.
  2: { right. exists end_, accepted. split_and!; [done|lia|lia|exact Hacc|left; lia]. }
  destruct (cm_estimate_shard _ (slice instructions start (S end_))) as [cand|e] eqn:Ec; simpl.
  2: { left. exists e. split; [done|]. exists start, (S end_). split; [lia|by left]. }
  destruct (range_exceeds (slice estimates start (S end_)) cand request) as [[]|e] eqn:Ex; simpl.
  - right. exists end_, accepted. split_and!; [done|lia|lia|exact Hacc|].
    right. exists cand. done.
  - apply IH; [lia|lia|]. destruct Hacc as [H1 H2]. split.
    + intros b est [Hin|Hin]%elem_of_app; [by apply H1|].
      apply list_elem_of_singleton in Hin. injection Hin as -> ->. done.
    + intros b Hb. rewrite fmap_app. apply elem_of_app.
      destruct (decide (b = S end_)) as [->|]; [right; by left|left; apply H2; lia].
  - left. exists e. split; [done|]. exists start, (S end_). split; [lia|right]. by apply range_exceeds_Err in Ex.
Qed.

(** Why a shard ends where it does. *)
Definition stop_reason (start end_ : nat) : Prop :=
  end_ = n ∨ over_budget start (S end_) ∨
  ∃ h stop, best_hint (pr_boundary_hints request) start stop = Some h ∧ hint_boundary h = end_ ∧
    over_budget start (S stop).

Lemma best_hint_Some hints start end_ h :
  best_hint hints start end_ = Some h → h ∈ hints ∧ start < hint_boundary h ≤ end_.
Proof.
  assert (TotalCompare compare_hint).
  { unfold compare_hint. apply then_with_total; [apply _|].
    split; [intros x y; apply cmp_antisym|]. intros x y z H1 H2.
    exact (cmp_trans (cmp := String.compare) _ _ _ H2 H1). }
  unfold best_hint. intros [Hin _]%(max_by_Some compare_hint).
  apply list_elem_of_filter in Hin as [? ?]. done.
Qed.

Lemma find_accepted start stop accepted end_ :
  accepted_ok start stop accepted → start < end_ ≤ stop →
  ∃ est, snd <$> (snd <$> list_find (λ be, fst be = end_) accepted) = Some est ∧
    within_budget start end_ est.
Proof.
  intros [H1 H2] Hend. destruct (list_find (λ be, fst be = end_) accepted) as [[i [b est]]|] eqn:E.
  - apply list_find_Some in E as (Hi & Hb & _). simpl in Hb. subst b.
    apply list_elem_of_lookup_2 in Hi. exists est. split; [done|]. by apply H1.
  - apply list_find_None in E. rewrite Forall_forall in E.
    specialize (H2 end_ Hend) as ([b est] & -> & Hin)%list_elem_of_fmap. by destruct (E _ Hin).
Qed.

Lemma next_shard_spec start :
  length estimates = n → start < n →
  (∃ e, next_shard instructions estimates request start = Some (Err e) ∧
     (estimate_error e ∨ ∃ est, estimates !! start = Some est ∧ over_budget start (S start) ∧
        e = UnsplittableInstruction start est)) ∨
  (∃ end_ est, next_shard instructions estimates request start = Some (Ok (mkRange start end_, est)) ∧
     start < end_ ≤ n ∧ within_budget start end_ est ∧ stop_reason start end_).
Proof.
  intros Hlen Hs. unfold next_shard. fold n.
  destruct (cm_estimate_shard _ (slice instructions start (S start))) as [single|e] eqn:Ec; simpl.
  2: { left. exists e. split; [done|]. left. exists start, (S start). split; [lia|by left]. }
  destruct (range_exceeds (slice estimates start (S start)) single request) as [[]|e] eqn:Ex; simpl.
  { destruct (lookup_lt_is_Some_2 estimates start) as [est Hest]; [lia|]. rewrite Hest. simpl.
    left. eexists. split; [done|]. right. exists est. split_and!; [done| |done]. by exists single. }
  2: { left. exists e. split; [done|]. left. exists start, (S start). split; [lia|right]. by apply range_exceeds_Err in Ex. }
  destruct (extend_spec n start (S start) [(S start, single)]) as [(e & -> & He)|(stop & acc & -> & Hstop & Hacc & Hwhy)].
  - lia.
  - lia.
  - split.
    + intros b est Hin%list_elem_of_singleton. injection Hin as -> ->. done.
    + intros b Hb. assert (b = S start) as -> by lia. by left.
  - left. exists e. split; [done|]. by left.
  - simpl. right.
    set (end_ := if stop <? n then match best_hint (pr_boundary_hints request) start stop with
                                   | Some hint => hint_boundary hint | None => stop end else stop).
    assert (start < end_ ≤ stop ∧ stop_reason start end_) as [Hend Hreason].
    { unfold end_, stop_reason. destruct (Nat.ltb_spec stop n) as [Hlt|]; [|split; [lia|left; lia]].
      destruct Hwhy as [?|Hover]; [lia|].
      destruct (best_hint (pr_boundary_hints request) start stop) as [h|] eqn:Eh.
      - apply best_hint_Some in Eh as Hh. split; [lia|]. right; right. eauto.
      - split; [lia|]. auto. }
    destruct (Nat.leb_spec end_ start); [lia|].
    destruct (find_accepted _ _ _ _ Hacc Hend) as (est & Ef & Hw). rewrite Ef. simpl.
    exists end_, est. split_and!; [done|lia|lia|exact Hw|done].
Qed.

(** What the planner guarantees of a list of ranges. *)
Definition range_ok (re : Range * ShardEstimate) : Prop :=
  range_start (fst re) < range_end (fst re) ∧
  within_budget (range_start (fst re)) (range_end (fst re)) (snd re) ∧
  stop_reason (range_start (fst re)) (range_end (fst re)).

Definition as_spec (re : Range * ShardEstimate) : ShardSpec := mkSpec EmptyString (fst re).

Definition planning_error (e : PartitionError) : Prop :=
  estimate_error e ∨ ∃ i est, estimates !! i = Some est ∧ over_budget i (S i) ∧ e = UnsplittableInstruction i est.

Lemma plan_ranges_spec fuel start :
  length estimates = n → start ≤ n → n - start ≤ fuel →
  (∃ e, plan_ranges instructions estimates request fuel start = Some (Err e) ∧ planning_error e) ∨
  (∃ ranges, plan_ranges instructions estimates request fuel start = Some (Ok ranges) ∧
     contiguous start (as_spec <$> ranges) n ∧ Forall range_ok ranges).
Proof.
  intros Hlen. revert start. induction fuel as [|fuel IH]; intros start Hs Hf; simpl; fold n.
  { destruct (Nat.ltb_spec start n); [lia|]. simpl. right. exists []. split_and!; [done| |done].
    assert (start = n) as -> by lia. constructor. }
  destruct (Nat.ltb_spec start n) as [Hlt|Hge]; simpl.
  2: { right. exists []. split_and!; [done| |done]. assert (start = n) as -> by lia. constructor. }
  destruct (next_shard_spec start Hlen Hlt) as [(e & -> & He)|(end_ & est & -> & Hend & Hw & Hr)]; simpl.
  { left. exists e. split; [done|]. destruct He as [He|(est & He)]; [by left|right; eauto]. }
  destruct (IH end_) as [(e & -> & He)|(ranges & -> & Hc & Hall)]; [lia|lia| |]; simpl.
  { left. eauto. }
  right. eexists. split; [done|]. split.
  - apply (contiguous_cons (as_spec (mkRange start end_, est))). exact Hc.
  - constructor; [|done]. split_and!; [simpl; lia|exact Hw|done].
Qed.

End Planner.

(** ** The plan *)

Definition planned_spec (s : PlannedShard) : ShardSpec := mkSpec (ps_name s) (ps_range s).

Lemma contiguous_ranges st en l k :
  spec_range <$> l = spec_range <$> k → contiguous st l en → contiguous st k en.
Proof.
  intros E H. revert k E. induction H as [st|s l en H IH]; intros [|t k] E; simpl in E; try done.
  - constructor.
  - injection E as E1 E2. rewrite E1. constructor. rewrite <-E1. by apply IH.
Qed.

Lemma contiguous_covered st specs en :
  contiguous st specs en → Forall (λ s, range_start (spec_range s) < range_end (spec_range s)) specs →
  foldr (λ s acc, range_len (spec_range s) + acc) 0 specs + st = en.
Proof.
  induction 1 as [st|s l en H IH]; intros Hall; simpl; [done|].
  apply Forall_cons in Hall as [Hs Hall]. specialize (IH Hall). unfold range_len in *. lia.
Qed.

Lemma covered_ranges (shards : list Shard) (specs : list ShardSpec) :
  shard_range <$> shards = spec_range <$> specs →
  foldr (λ s acc, range_len (shard_range s) + acc) 0 shards =
  foldr (λ s acc, range_len (spec_range s) + acc) 0 specs.
Proof.
  revert specs. induction shards as [|s shards IH]; intros [|t specs] E; simpl in *; try done.
  injection E as -> E. by rewrite (IH specs E).
Qed.

Lemma dag_ok_ranges program specs dag :
  dag_ok program specs dag → shard_range <$> dag_shards dag = spec_range <$> specs.
Proof.
  intros [Hlen Hsh _ _ _ _ _ _]. apply list_eq. intros i. rewrite !list_lookup_fmap.
  destruct (dag_shards dag !! i) as [sh|] eqn:E; simpl.
  - destruct (Hsh i sh E) as (spec & -> & _ & _ & ->). done.
  - apply lookup_ge_None in E. rewrite lookup_ge_None_2; [done|lia].
Qed.

(** A DAG of a contiguous partition passes [validate_dag]. *)
Lemma validate_dag_ok program specs dag :
  dag_ok program specs dag → contiguous 0 specs (length (cp_instructions program)) →
  Forall (λ s, range_start (spec_range s) < range_end (spec_range s)) specs →
  validate_dag dag (length (cp_instructions program)) = Ok tt.
Proof.
  intros Hok Hc Hne. unfold validate_dag.
  rewrite (covered_ranges _ _ (dag_ok_ranges _ _ _ Hok)).
  pose proof (contiguous_covered _ _ _ Hc Hne) as Hsum. rewrite Nat.add_0_r in Hsum.
  rewrite Hsum, Nat.eqb_refl. simpl.
  destruct (existsb _ (dag_edges dag)) eqn:Ee; [|done]. exfalso.
  apply existsb_exists in Ee as (e & Hin & Hbad). apply list_elem_of_In in Hin.
  destruct (dk_edge _ _ _ Hok e Hin) as (p & _ & _ & _ & Hdir).
  apply orb_true_iff in Hbad as [Hb%Nat.leb_le|Hb%Nat.leb_le]; lia.
Qed.

(** What a plan promises about one of its shards. *)
Record shard_ok (program : CompiledProgram) (request : PartitionRequest)
    (estimates : list InstructionEstimate) (id : nat) (s : PlannedShard) : Prop := {
  sk_id : ps_id s = id;
  sk_name : ps_name s = shard_name_text id;
  sk_nonempty : range_start (ps_range s) < range_end (ps_range s);
  sk_instruction_estimates :
    ps_instruction_estimates s = slice estimates (range_start (ps_range s)) (range_end (ps_range s));
  sk_budget : within_budget (cp_instructions program) estimates request
    (range_start (ps_range s)) (range_end (ps_range s)) (ps_estimate s);
  sk_stop : stop_reason (cp_instructions program) estimates request
    (range_start (ps_range s)) (range_end (ps_range s))
}.

Record plan_ok (blake3 : bytes → Digest32) (program : CompiledProgram) (request : PartitionRequest)
    (plan : PartitionPlan) : Prop := {
  po_shards : ∃ estimates,
    result_mapM (cm_estimate_instruction (pr_cost_model request)) (cp_instructions program) = Ok estimates ∧
    ∀ i s, pp_shards plan !! i = Some s → shard_ok program request estimates i s;
  po_cover : contiguous 0 (planned_spec <$> pp_shards plan) (length (cp_instructions program));
  po_dag : dag_ok program (planned_spec <$> pp_shards plan) (pp_dag plan);
  po_digest : pp_digest plan = blake3 (plan_preimage request (pp_shards plan) (pp_dag plan));
  po_model : pp_model_digest plan = pr_model_digest request ∧
    pp_boundary_layout_digest plan = pr_boundary_layout_digest request ∧ pp_program_snapshot plan = program
}.

(** Why planning can fail. *)
Inductive plan_error (program : CompiledProgram) (request : PartitionRequest) : PartitionError → Prop :=
| pe_empty : cp_instructions program = [] → plan_error program request EmptyProgram
| pe_reference j instr p : cp_instructions program !! j = Some instr → Virtual p ∈ ci_inputs instr →
    j ≤ p → plan_error program request (InvalidVirtualReference j (Virtual p))
| pe_identity m : cm_identity (pr_cost_model request) = EmptyString →
    plan_error program request (InvalidRequest m)
| pe_hint m h : h ∈ pr_boundary_hints request → length (cp_instructions program) ≤ hint_boundary h →
    plan_error program request (InvalidHint m)
| pe_instruction instr e : instr ∈ cp_instructions program →
    cm_estimate_instruction (pr_cost_model request) instr = Err e → plan_error program request e
| pe_planning estimates e :
    result_mapM (cm_estimate_instruction (pr_cost_model request)) (cp_instructions program) = Ok estimates →
    planning_error (cp_instructions program) estimates request e → plan_error program request e.

Lemma result_mapM_Err {A B E} (f : A → Result B E) l e :
  result_mapM f l = Err e → ∃ x, x ∈ l ∧ f x = Err e.
Proof.
  induction l as [|x l IH]; simpl; [done|]. intros [H|(y & _ & H)]%result_bind_Err.
  - exists x. split; [by left|done].
  - apply result_bind_Err in H as [H|(ys & _ & ?)]; [|done].
    destruct (IH H) as (z & ? & ?). exists z. split; [by right|done].
Qed.

Definition planned_shards (estimates : list InstructionEstimate) (ranges : list (Range * ShardEstimate))
    : list PlannedShard :=
  imap (λ id re, mkPlannedShard id (shard_name_text id) (fst re) (snd re)
    (slice estimates (range_start (fst re)) (range_end (fst re)))) ranges.

Lemma planned_specs estimates ranges :
  imap (λ id re, mkSpec (shard_name_text id) (fst re)) ranges =
  planned_spec <$> planned_shards estimates ranges.
Proof. unfold planned_shards. by rewrite fmap_imap. Qed.

Lemma planned_ranges estimates ranges :
  spec_range <$> (planned_spec <$> planned_shards estimates ranges) = spec_range <$> (as_spec <$> ranges).
Proof.
  unfold planned_shards. rewrite !fmap_imap, <-list_fmap_compose.
  apply list_eq. intros i. rewrite list_lookup_imap, list_lookup_fmap. by destruct (ranges !! i).
Qed.

Lemma planned_shards_ok program request estimates ranges i s :
  Forall (range_ok (cp_instructions program) estimates request) ranges →
  planned_shards estimates ranges !! i = Some s → shard_ok program request estimates i s.
Proof.
  intros Hall. unfold planned_shards. rewrite list_lookup_imap. intros (re & Hre & ->)%fmap_Some.
  destruct (Forall_lookup_1 _ _ _ _ Hall Hre) as (H1 & H2 & H3). by split.
Qed.

Lemma planned_nonempty program request estimates ranges :
  Forall (range_ok (cp_instructions program) estimates request) ranges →
  Forall (λ s, range_start (spec_range s) < range_end (spec_range s))
    (planned_spec <$> planned_shards estimates ranges).
Proof.
  intros Hall. apply Forall_lookup. intros i x. rewrite list_lookup_fmap.
  intros (s & Hs & ->)%fmap_Some. exact (sk_nonempty _ _ _ _ _ (planned_shards_ok _ _ _ _ _ _ Hall Hs)).
Qed.

Lemma plan_partition_spec blake3 program request :
  ∃ r, plan_partition blake3 program request = Some r ∧
    match r with Ok plan => plan_ok blake3 program request plan | Err e => plan_error program request e end.
Proof.
  unfold plan_partition. set (instrs := cp_instructions program).
  case_bool_decide as Hne; [eexists; split; [done|]; by constructor; apply nil_length_inv|].
  pose proof (validate_references_spec 0 instrs) as Hrefs.
  destruct (validate_virtual_references 0 instrs) as [[]|e]; simpl.
  2: { eexists. split; [done|]. destruct Hrefs as (j & i & p & Hj & Hp & Hle & ->). by eapply pe_reference. }
  destruct (String.eqb_spec (cm_identity (pr_cost_model request)) EmptyString) as [Hid|Hid];
    [eexists; split; [done|]; by apply pe_identity|].
  destruct (existsb _ (pr_boundary_hints request)) eqn:Eh.
  { eexists. split; [done|]. apply existsb_exists in Eh as (h & Hin%list_elem_of_In & Hh%Nat.leb_le).
    by eapply pe_hint. }
  destruct (result_mapM _ instrs) as [estimates|e] eqn:Ee; simpl.
  2: { eexists. split; [done|]. destruct (result_mapM_Err _ _ _ Ee) as (x & ? & ?). by eapply pe_instruction. }
  assert (Hlen : length estimates = length instrs)
    by (apply result_mapM_Ok, Forall2_length in Ee; done).
  destruct (plan_ranges_spec instrs estimates request (length instrs) 0 Hlen)
    as [(e & -> & He)|(ranges & -> & Hc & Hall)]; [lia|lia| |]; simpl.
  { eexists. split; [done|]. by eapply pe_planning. }
  rewrite (planned_specs estimates). fold (planned_shards estimates ranges).
  set (shards := planned_shards estimates ranges).
  apply (contiguous_ranges _ _ _ (planned_spec <$> shards)) in Hc; [|symmetry; apply planned_ranges].
  assert (Hshards : length shards ≠ 0).
  { intros E%nil_length_inv. rewrite E in Hc. inversion Hc. lia. }
  destruct (build_dag_total program (planned_spec <$> shards)) as (dag & -> & Hok).
  { intros E%(f_equal length). rewrite length_fmap in E. done. }
  { done. }
  { intros j i p Hj Hp. exact (Hrefs j i p Hj Hp). }
  simpl. unfold instrs at 1. rewrite (validate_dag_ok _ _ _ Hok Hc (planned_nonempty _ _ _ _ Hall)). simpl.
  rewrite bool_decide_eq_false_2 by done. eexists. split; [done|]. split; try done.
  exists estimates. split; [done|]. intros i s Hs. by eapply planned_shards_ok.
Qed.

(** ** Budgets *)

Definition total_ram (l : list InstructionEstimate) : Z := foldr (λ e acc, ie_ram_bytes e + acc)%Z 0%Z l.

Lemma total_ram_app l k : total_ram (l ++ k) = (total_ram l + total_ram k)%Z.
Proof. induction l as [|e l IH]; simpl; [done|]. rewrite IH. lia. Qed.

Lemma total_ram_nonneg l : Forall (λ e, 0 ≤ ie_ram_bytes e)%Z l → (0 ≤ total_ram l)%Z.
Proof. induction 1; simpl; lia. Qed.

Lemma total_ram_slice l a b :
  Forall (λ e, 0 ≤ ie_ram_bytes e)%Z l → (total_ram (slice l a b) ≤ total_ram l)%Z.
Proof.
  intros Hl. rewrite <-(take_drop a l) at 2. rewrite <-(take_drop (b - a) (drop a l)).
  rewrite !total_ram_app. fold (slice l a b).
  pose proof (total_ram_nonneg _ (Forall_take _ a _ Hl)).
  pose proof (total_ram_nonneg _ (Forall_drop _ (b - a) _ (Forall_drop _ a _ Hl))). lia.
Qed.

Lemma add_ram_spec l acc :
  (0 ≤ acc)%Z → Forall (λ e, 0 ≤ ie_ram_bytes e)%Z l →
  match result_fold add_ram acc l with
  | Ok s => s = (acc + total_ram l)%Z
  | Err e => e = EstimateOverflow ∧ ¬ in_u64 (acc + total_ram l)
  end.
Proof.
  revert acc. induction l as [|e l IH]; intros acc Hacc; simpl; [intros _; lia|].
  intros [He Hl]%Forall_cons. unfold add_ram at 1.
  destruct (try_u64 (acc + ie_ram_bytes e)) as [s|] eqn:E; simpl.
  - apply try_u64_Some in E as [<- Hs]. specialize (IH (acc + ie_ram_bytes e)%Z ltac:(lia) Hl).
    rewrite Z.add_assoc. done.
  - split; [done|]. unfold try_u64 in E. case_bool_decide as Hbad; [done|].
    pose proof (total_ram_nonneg l Hl). zlia.
Qed.

Lemma max_required_k_le l k :
  (0 ≤ k)%Z → (max_required_k l ≤ k)%Z ↔ Forall (λ e, ie_required_k e ≤ k)%Z l.
Proof. intros Hk. induction l as [|e l IH]; simpl; [done|]. rewrite Forall_cons, <-IH. lia. Qed.

(** The sizes of a range and of its shard are within the request's limits. *)
Definition fits_budget (request : PartitionRequest) (estimates : list InstructionEstimate) (shard : ShardEstimate)
    : Prop :=
  (total_ram estimates ≤ pr_target_shard_ram_bytes request)%Z ∧
  (Forall (λ e, ie_required_k e ≤ pr_max_k request) estimates)%Z ∧
  (se_ram_bytes shard ≤ pr_target_shard_ram_bytes request)%Z ∧ (se_required_k shard ≤ pr_max_k request)%Z.

Lemma range_exceeds_spec request l shard b :
  (0 ≤ pr_max_k request)%Z → Forall (λ e, 0 ≤ ie_ram_bytes e)%Z l →
  range_exceeds l shard request = Ok b → if b then ¬ fits_budget request l shard else fits_budget request l shard.
Proof.
  intros Hk Hl. unfold range_exceeds. pose proof (add_ram_spec l 0 ltac:(lia) Hl) as Hr.
  destruct (result_fold add_ram 0%Z l) as [s|e]; simpl; [|done]. subst s.
  rewrite Z.add_0_l. intros [= <-]. unfold fits_budget.
  destruct (_ || _) eqn:E; rewrite <-max_required_k_le by done;
    rewrite ?orb_true_iff, ?orb_false_iff, ?Z.ltb_lt, ?Z.ltb_ge in E; lia.
Qed.

(** Values at their machine widths. *)
Definition request_typed (request : PartitionRequest) : Prop :=
  in_u64 (pr_target_shard_ram_bytes request) ∧ in_u32 (pr_max_k request) ∧
  (∀ i e, cm_estimate_instruction (pr_cost_model request) i = Ok e →
     in_u64 (ie_ram_bytes e) ∧ in_u32 (ie_required_k e)) ∧
  (∀ l e, cm_estimate_shard (pr_cost_model request) l = Ok e →
     in_u64 (se_ram_bytes e) ∧ in_u32 (se_required_k e)).

Lemma estimates_nonneg request instructions estimates :
  request_typed request →
  result_mapM (cm_estimate_instruction (pr_cost_model request)) instructions = Ok estimates →
  Forall (λ e, 0 ≤ ie_ram_bytes e)%Z estimates.
Proof.
  intros (_ & _ & Ht & _) H%result_mapM_Ok. induction H as [|i e l k Hi _ IH]; constructor; [|done].
  apply Ht in Hi. zlia.
Qed.

Lemma slice_nonneg estimates a b :
  Forall (λ e, 0 ≤ ie_ram_bytes e)%Z estimates → Forall (λ e, 0 ≤ ie_ram_bytes e)%Z (slice estimates a b).
Proof. intros H. apply Forall_take, Forall_drop, H. Qed.

Lemma within_budget_fits program request estimates a b est :
  request_typed request → Forall (λ e, 0 ≤ ie_ram_bytes e)%Z estimates →
  within_budget (cp_instructions program) estimates request a b est → fits_budget request (slice estimates a b) est.
Proof.
  intros Ht Hn [_ Hx]. refine (range_exceeds_spec request _ est false _ _ Hx).
  - destruct Ht as (_ & Hk & _). zlia.
  - by apply slice_nonneg.
Qed.

Lemma over_budget_not_fits program request estimates a b :
  request_typed request → Forall (λ e, 0 ≤ ie_ram_bytes e)%Z estimates →
  over_budget (cp_instructions program) estimates request a b →
  ∃ est, cm_estimate_shard (pr_cost_model request) (slice (cp_instructions program) a b) = Ok est ∧
    ¬ fits_budget request (slice estimates a b) est.
Proof.
  intros Ht Hn (est & He & Hx). exists est. split; [done|].
  refine (range_exceeds_spec request _ est true _ _ Hx).
  - destruct Ht as (_ & Hk & _). zlia.
  - by apply slice_nonneg.
Qed.

(** ** Greedy cuts are fewest *)

Definition spec_nonempty (s : ShardSpec) : Prop := range_start (spec_range s) < range_end (spec_range s).

Lemma contiguous_le st specs en : contiguous st specs en → Forall spec_nonempty specs → st ≤ en.
Proof.
  induction 1 as [|s l en H IH]; intros Hall; [lia|]. apply Forall_cons in Hall as [Hs Hall].
  specialize (IH Hall). unfold spec_nonempty in Hs. lia.
Qed.

Section Fewest.
Context (program : CompiledProgram) (request : PartitionRequest) (estimates : list InstructionEstimate).
Let n := length (cp_instructions program).

(** A range of instructions fits the budget as one shard. *)
Definition fits_range (a b : nat) : Prop :=
  ∃ est, cm_estimate_shard (pr_cost_model request) (slice (cp_instructions program) a b) = Ok est ∧
    fits_budget request (slice estimates a b) est.

(** A part of a range that fits also fits. *)
Definition monotone_costs : Prop :=
  ∀ a b a' b', a ≤ a' < b' → b' ≤ b ≤ n → fits_range a b → fits_range a' b'.

Definition spec_fits (s : ShardSpec) : Prop := fits_range (range_start (spec_range s)) (range_end (spec_range s)).
Definition spec_greedy (s : ShardSpec) : Prop :=
  range_end (spec_range s) = n ∨ ¬ fits_range (range_start (spec_range s)) (S (range_end (spec_range s))).

Lemma greedy_fewest st st' specs other :
  monotone_costs → st' ≤ st →
  contiguous st specs n → Forall spec_nonempty specs → Forall spec_greedy specs →
  contiguous st' other n → Forall spec_nonempty other → Forall spec_fits other →
  length specs ≤ length other.
Proof.
  intros Hmono. revert st st' specs. induction other as [|o other IH]; intros st st' specs Hst Hc Hne Hg Ho One Ofit.
  - inversion Ho; subst. destruct specs as [|s specs]; [done|].
    pose proof (contiguous_le _ _ _ Hc Hne). inversion Hc as [|? ? ? Hc']; subst.
    apply Forall_cons in Hne as [Hs Hne]. pose proof (contiguous_le _ _ _ Hc' Hne).
    unfold spec_nonempty in Hs. lia.
  - destruct specs as [|s specs]; simpl; [lia|]. apply le_n_S.
    inversion Hc as [|? ? ? Hc']; subst. inversion Ho as [|? ? ? Ho']; subst.
    apply Forall_cons in Hne as [Hs Hne], Hg as [Gs Hg], One as [Os One], Ofit as [Of Ofit].
    apply (IH (range_end (spec_range s)) (range_end (spec_range o))); try done.
    pose proof (contiguous_le _ _ _ Ho' One) as Hon.
    destruct (Nat.le_gt_cases (range_end (spec_range o)) (range_end (spec_range s))) as [|Hlt]; [done|exfalso].
    destruct Gs as [Gs|Gs]; [lia|]. apply Gs. unfold spec_nonempty in Hs.
    eapply Hmono; [| |exact Of]; lia.
Qed.

End Fewest.

(** ** The plan digest *)

Definition usize_ok (n : nat) : Prop := in_u64 (Z.of_nat n).
Definition ram_k_ok (ram k : Z) : Prop := in_u64 ram ∧ in_u32 k.
Definition register_ok (r : Register) : Prop :=
  match r with GraphInput name | Weight name => text_ok name | Virtual index => usize_ok index end.
Definition hint_ok (h : BoundaryHint) : Prop :=
  usize_ok (hint_boundary h) ∧ in_u32 (hint_priority h) ∧ text_ok (hint_label h).
Definition planned_ok (s : PlannedShard) : Prop :=
  usize_ok (ps_id s) ∧ text_ok (ps_name s) ∧ usize_ok (range_start (ps_range s)) ∧
  usize_ok (range_end (ps_range s)) ∧ ram_k_ok (se_ram_bytes (ps_estimate s)) (se_required_k (ps_estimate s)) ∧
  seq_ok (λ e, ram_k_ok (ie_ram_bytes e) (ie_required_k e)) (ps_instruction_estimates s).
Definition edge_ok (e : Edge) : Prop :=
  text_ok (edge_id e) ∧ usize_ok (edge_producer e) ∧ usize_ok (edge_consumer e) ∧
  register_ok (edge_register e).

#[local] Arguments encode_usize : simpl never.

#[export] Instance encode_usize_prefix_free : PrefixFree usize_ok encode_usize.
Proof.
  intros a b r s Ha Hb He. unfold encode_usize in He. peel He; [|done..]. split; [lia|done].
Qed.

#[export] Instance encode_estimate_prefix_free :
  PrefixFree (λ e, ram_k_ok (se_ram_bytes e) (se_required_k e)) encode_estimate.
Proof.
  intros [ra ka] [rb kb] r s [? ?] [? ?] He. unfold encode_estimate in He. rewrite <-!app_assoc in He.
  do 2 peel He. simpl in *. by subst.
Qed.

#[export] Instance encode_instruction_estimate_prefix_free :
  PrefixFree (λ e, ram_k_ok (ie_ram_bytes e) (ie_required_k e)) encode_instruction_estimate.
Proof.
  intros [ra ka] [rb kb] r s [? ?] [? ?] He. unfold encode_instruction_estimate in He.
  rewrite <-!app_assoc in He. do 2 peel He. simpl in *. by subst.
Qed.

#[export] Instance encode_register_prefix_free : PrefixFree register_ok encode_register.
Proof.
  intros [a|a|a] [b|b|b] r s Ha Hb He; unfold encode_register in He;
    rewrite <-!app_comm_cons in He; try discriminate He;
    apply (f_equal tail) in He; cbn [tail] in He; peel He; by subst.
Qed.

#[export] Instance edge_kind_byte_prefix_free : PrefixFree (λ _, True) edge_kind_byte.
Proof. apply (prefix_free_fixed _ _ 1); [done|]. by intros [] []. Qed.

#[global] Typeclasses Opaque encode_usize encode_estimate encode_instruction_estimate encode_register
  edge_kind_byte.

#[export] Instance encode_hint_prefix_free : PrefixFree hint_ok encode_hint.
Proof.
  intros [ba pa la] [bb pb lb] r s (? & ? & ?) (? & ? & ?) He. unfold encode_hint in He.
  rewrite <-!app_assoc in He. do 3 peel He. simpl in *. by subst.
Qed.

#[export] Instance encode_edge_prefix_free : PrefixFree edge_ok encode_edge.
Proof.
  intros [] [] r s (? & ? & ? & ?) (? & ? & ? & ?) He. unfold encode_edge in He.
  rewrite <-!app_assoc in He. do 5 peel He. simpl in *. by subst.
Qed.

#[export] Instance encode_shard_prefix_free : PrefixFree planned_ok encode_shard.
Proof.
  intros [? ? [] ? ?] [? ? [] ? ?] r s (? & ? & ? & ? & ? & ?) (? & ? & ? & ? & ? & ?) He.
  unfold encode_shard in He. rewrite <-!app_assoc in He. do 6 peel He. simpl in *. by subst.
Qed.

#[global] Typeclasses Opaque encode_hint encode_edge encode_shard.

(** Everything the preimage is made of, at its machine width. *)
Definition preimage_ok (request : PartitionRequest) (shards : list PlannedShard) (dag : Dag) : Prop :=
  digest_ok (pr_model_digest request) ∧ text_ok (pr_compiler_version request) ∧
  ram_k_ok (pr_target_shard_ram_bytes request) (pr_max_k request) ∧
  text_ok (cm_identity (pr_cost_model request)) ∧ in_u32 (cm_version (pr_cost_model request)) ∧
  option_ok digest_ok (pr_boundary_layout_digest request) ∧ seq_ok hint_ok (pr_boundary_hints request) ∧
  seq_ok planned_ok shards ∧ seq_ok edge_ok (sort_by compare_edge_ids (dag_edges dag)).

(** ** Properties *)

(** C21. The planner never panics, and its answer is right on every branch.  A plan
    covers the program with consecutive nonempty shards, numbered and named in
    order, each within the memory and circuit-size limits (for the sum and the
    maximum of its instructions, and for the shard as a whole); a shard ends only
    at the end of the program, where one more instruction would exceed the
    budget, or at the best hint before such a point; its DAG is the exact DAG of
    those shards; its digest is the hash of the plan's preimage.  An error is an
    empty program, a bad reference, an unnamed cost model, a hint outside the
    program, an error of the cost model, an overflow, or one instruction that
    exceeds the budget by itself: the internal consistency errors cannot occur. *)
Theorem plan_partition_correct (blake3 : bytes → Digest32) (program : CompiledProgram)
    (request : PartitionRequest) (Ht : request_typed request) :
  ∃ r, plan_partition blake3 program request = Some r ∧
    match r with
    | Ok plan => plan_ok blake3 program request plan ∧
        ∀ s, s ∈ pp_shards plan → fits_budget request (ps_instruction_estimates s) (ps_estimate s)
    | Err e => plan_error program request e
    end.
Proof.
  destruct (plan_partition_spec blake3 program request) as (r & -> & Hr). exists r. split; [done|].
  destruct r as [plan|e]; [|done]. split; [done|]. intros s (i & Hi)%list_elem_of_lookup.
  destruct (po_shards _ _ _ _ Hr) as (estimates & Hest & Hs). specialize (Hs i s Hi).
  rewrite (sk_instruction_estimates _ _ _ _ _ Hs).
  eapply within_budget_fits; [done|by eapply estimates_nonneg|apply Hs].
Qed.

(** The planner finds a plan whenever there is one to find: if the program is
    nonempty and reads registers after they are produced, the request is well
    formed, the cost model has an estimate for every instruction and range, the
    memory of all instructions together does not overflow, and every instruction
    fits the budget by itself, then planning succeeds. *)
Theorem plan_partition_complete (blake3 : bytes → Digest32) (program : CompiledProgram)
    (request : PartitionRequest) (estimates : list InstructionEstimate)
    (Ht : request_typed request)
    (Hne : cp_instructions program ≠ []) (Hord : well_ordered program)
    (Hid : cm_identity (pr_cost_model request) ≠ EmptyString)
    (Hhints : Forall (λ h, hint_boundary h < length (cp_instructions program)) (pr_boundary_hints request))
    (Hest : result_mapM (cm_estimate_instruction (pr_cost_model request)) (cp_instructions program)
            = Ok estimates)
    (Hshard : ∀ a b, a < b ≤ length (cp_instructions program) →
       ∃ e, cm_estimate_shard (pr_cost_model request) (slice (cp_instructions program) a b) = Ok e)
    (Hram : in_u64 (total_ram estimates))
    (Hfit : ∀ i est, i < length (cp_instructions program) →
       cm_estimate_shard (pr_cost_model request) (slice (cp_instructions program) i (S i)) = Ok est →
       fits_budget request (slice estimates i (S i)) est) :
  ∃ plan, plan_partition blake3 program request = Some (Ok plan).
Proof.
  destruct (plan_partition_spec blake3 program request) as (r & -> & Hr).
  destruct r as [plan|e]; [by exists plan|exfalso].
  pose proof (estimates_nonneg _ _ _ Ht Hest) as Hnn.
  destruct Hr as [Hnil|j i p Hj Hp Hle|m Hid'|m h Hin Hh|i e Hin He|ests e He Hplan].
  - done.
  - specialize (Hord j i p Hj Hp). lia.
  - done.
  - rewrite Forall_forall in Hhints. specialize (Hhints h Hin). lia.
  - apply result_mapM_Ok in Hest. apply list_elem_of_lookup in Hin as (k & Hk).
    destruct (Forall2_lookup_l _ _ _ _ _ Hest Hk) as (y & _ & Hy). congruence.
  - rewrite Hest in He. injection He as <-.
    destruct Hplan as [(a & b & Hab & [Hs|Hs])|(k & est & Hk & Hover & ->)].
    + destruct (Hshard a b Hab) as (x & Hx). congruence.
    + pose proof (add_ram_spec (slice estimates a b) 0 ltac:(lia) (slice_nonneg _ a b Hnn)) as Hr.
      rewrite Hs in Hr. destruct Hr as [_ Hr]. pose proof (total_ram_slice estimates a b Hnn).
      pose proof (total_ram_nonneg _ (slice_nonneg _ a b Hnn)). zlia.
    + destruct (over_budget_not_fits program request estimates k (S k) Ht Hnn Hover) as (x & Hx & Hno).
      apply Hno, Hfit; [|done]. apply lookup_lt_Some in Hk. apply result_mapM_Ok, Forall2_length in Hest. lia.
Qed.

(** C36. Without hints, and when a part of a range that fits the budget fits it too,
    no contiguous partition of the program into shards within the budget has
    fewer shards than the plan. *)
Theorem plan_partition_fewest_shards (blake3 : bytes → Digest32) (program : CompiledProgram)
    (request : PartitionRequest) (estimates : list InstructionEstimate) (plan : PartitionPlan)
    (other : list ShardSpec)
    (Ht : request_typed request) (Hhints : pr_boundary_hints request = [])
    (Hest : result_mapM (cm_estimate_instruction (pr_cost_model request)) (cp_instructions program)
            = Ok estimates)
    (Hmono : monotone_costs program request estimates)
    (Hplan : plan_partition blake3 program request = Some (Ok plan))
    (Hcover : contiguous 0 other (length (cp_instructions program)))
    (Hne : Forall spec_nonempty other) (Hfit : Forall (spec_fits program request estimates) other) :
  length (pp_shards plan) ≤ length other.
Proof.
  destruct (plan_partition_spec blake3 program request) as (r & Hr & Hok).
  rewrite Hplan in Hr. injection Hr as <-. destruct (po_shards _ _ _ _ Hok) as (ests & He & Hs).
  rewrite Hest in He. injection He as <-. rewrite <-(length_fmap planned_spec).
  pose proof (estimates_nonneg _ _ _ Ht Hest) as Hnn.
  apply (greedy_fewest program request estimates 0 0); try done; [apply (po_cover _ _ _ _ Hok)| |];
    apply Forall_lookup; intros i x; rewrite list_lookup_fmap; intros (s & Hi & ->)%fmap_Some;
    specialize (Hs i s Hi); [exact (sk_nonempty _ _ _ _ _ Hs)|].
  destruct (sk_stop _ _ _ _ _ Hs) as [Hend|[Hover|(h & stop & Hh & _)]]; [by left|right|].
  - destruct (over_budget_not_fits _ _ _ _ _ Ht Hnn Hover) as (est & Ee & Hno).
    intros (est' & Ee' & Hf). cbn [planned_spec spec_range] in Ee', Hf. congruence.
  - rewrite Hhints in Hh. done.
Qed.

(** The bytes hashed into the plan digest determine the plan: two plans with the
    same preimage agree on the model, the compiler version, the budget, the cost
    model's identity and version, the boundary layout, the hints, the shards with
    all their estimates, and the edges. *)
Theorem plan_preimage_injective (ra rb : PartitionRequest) (sa sb : list PlannedShard) (da db : Dag)
    (Ha : preimage_ok ra sa da) (Hb : preimage_ok rb sb db)
    (He : plan_preimage ra sa da = plan_preimage rb sb db) :
  pr_model_digest ra = pr_model_digest rb ∧ pr_compiler_version ra = pr_compiler_version rb ∧
  pr_target_shard_ram_bytes ra = pr_target_shard_ram_bytes rb ∧ pr_max_k ra = pr_max_k rb ∧
  cm_identity (pr_cost_model ra) = cm_identity (pr_cost_model rb) ∧
  cm_version (pr_cost_model ra) = cm_version (pr_cost_model rb) ∧
  pr_boundary_layout_digest ra = pr_boundary_layout_digest rb ∧
  pr_boundary_hints ra = pr_boundary_hints rb ∧ sa = sb ∧ dag_edges da ≡ₚ dag_edges db.
Proof.
  unfold preimage_ok, ram_k_ok, plan_preimage in *. destruct_and!.
  do 2 apply app_inv_head in He. do 9 peel He.
  apply (prefix_free_inj (seq_ok edge_ok)) in He; [|first [done | apply _]..].
  split_and!; try done. rewrite <-(sort_by_Permutation compare_edge_ids (dag_edges da)), He.
  apply sort_by_Permutation.
Qed.

(** ** Witnesses *)

(** Three instructions of ten bytes each, against a budget of twenty. *)
Definition chain_program : CompiledProgram :=
  mkProgram [mkInstruction (Eltwise Add) [GraphInput "x"] "a"; mkInstruction (Eltwise Mul) [Virtual 0] "b";
             mkInstruction (Eltwise Relu) [Virtual 1; Virtual 0] "c"] ∅ ["x"] [("c", Virtual 2)].
Definition chain_estimates : list InstructionEstimate := replicate 3 (mkInstructionEstimate 10 5).

(** A stand-in for the hash: it keeps 32 bytes. *)
Definition toy_hash (b : bytes) : Digest32 := take 32 b.

Definition flat_model : CostModel :=
  mkCostModel "flat" 1 (λ _, Ok (mkInstructionEstimate 10 5))
    (λ l, let? ram := ok_or (try_u64 (10 * Z.of_nat (length l))) EstimateOverflow in
          Ok (mkShardEstimate ram 5)).
Definition chain_request : PartitionRequest :=
  mkPartitionRequest 20 10 (example_digest 1) "1.0" flat_model [] None.

Lemma chain_request_typed : request_typed chain_request.
Proof.
  unfold request_typed, chain_request, flat_model; simpl. split_and!; try zlia.
  - intros _ e [= <-]. simpl. split; zlia.
  - intros l e (ram & Hr & [= <-])%result_bind_Ok. apply ok_or_Ok, try_u64_Some in Hr as [<- Hr].
    simpl. split; [done|zlia].
Qed.

Lemma chain_ordered : well_ordered chain_program.
Proof.
  intros [|[|[|j]]] instr p; simpl; intros [= <-] Hp; simpl in Hp;
    repeat (apply elem_of_cons in Hp as [Hp|Hp]; [simplify_eq; try lia|]); by apply not_elem_of_nil in Hp.
Qed.

Lemma chain_fits a b : a < b ≤ 3 → b - a ≤ 2 → fits_range chain_program chain_request chain_estimates a b.
Proof.
  intros Hb Hd. unfold fits_range, fits_budget.
  destruct a as [|[|[|a]]], b as [|[|[|[|b]]]]; try lia; (eexists; split; [vm_compute; reflexivity|]);
    (split_and!; try (vm_compute; intros; discriminate); repeat constructor; vm_compute; intros; discriminate).
Qed.

Lemma plan_partition_correct_witness :
  ∃ r, plan_partition toy_hash chain_program chain_request = Some r ∧
    match r with
    | Ok plan => plan_ok toy_hash chain_program chain_request plan ∧
        ∀ s, s ∈ pp_shards plan → fits_budget chain_request (ps_instruction_estimates s) (ps_estimate s)
    | Err e => plan_error chain_program chain_request e
    end.
Proof. exact (plan_partition_correct _ _ _ chain_request_typed). Defined.

Lemma plan_partition_complete_witness :
  ∃ plan, plan_partition toy_hash chain_program chain_request = Some (Ok plan).
Proof.
  apply (plan_partition_complete toy_hash chain_program chain_request chain_estimates chain_request_typed).
  - done.
  - exact chain_ordered.
  - done.
  - constructor.
  - reflexivity.
  - intros a b Hab. destruct a as [|[|[|a]]], b as [|[|[|[|b]]]]; simpl in Hab; try lia; eexists; reflexivity.
  - vm_compute. split; intros; discriminate.
  - intros i est Hi He. destruct (chain_fits i (S i)) as (est' & He' & Hf); [simpl in Hi; lia|lia|].
    rewrite He in He'. injection He' as ->. exact Hf.
Defined.

Definition cut_specs : list ShardSpec := [mkSpec "left" (mkRange 0 1); mkSpec "right" (mkRange 1 3)].

Lemma plan_partition_fewest_shards_witness :
  ∃ plan, plan_partition toy_hash chain_program chain_request = Some (Ok plan) ∧
    length (pp_shards plan) ≤ length cut_specs.
Proof.
  assert (∃ plan, plan_partition toy_hash chain_program chain_request = Some (Ok plan)) as [plan E]
    by (eexists; vm_compute; reflexivity).
  exists plan. split; [done|].
  apply (plan_partition_fewest_shards toy_hash chain_program chain_request chain_estimates plan cut_specs
    chain_request_typed eq_refl eq_refl); [|exact E| | |].
  - intros a b a' b' Ha Hb Hf. simpl in Hb.
    destruct (decide (b' - a' ≤ 2)); [apply chain_fits; lia|].
    assert (a = a') as <- by lia. assert (b = b') as <- by lia. exact Hf.
  - apply (contiguous_cons (mkSpec "left" (mkRange 0 1))),
      (contiguous_cons (mkSpec "right" (mkRange 1 3))). constructor.
  - repeat constructor; vm_compute; lia.
  - constructor; [|constructor; [|constructor]]; apply chain_fits; simpl; lia.
Defined.

Definition example_shards : list PlannedShard :=
  [mkPlannedShard 0 "shard-0" (mkRange 0 2) (mkShardEstimate 20 5)
     [mkInstructionEstimate 10 5; mkInstructionEstimate 10 5]].
Definition example_dag : Dag := mkDag [] [mkEdge "e" 0 1 (Virtual 0) Sequential].

Lemma example_preimage_ok : preimage_ok chain_request example_shards example_dag.
Proof.
  unfold preimage_ok, seq_ok, text_ok, digest_ok, ram_k_ok. vm_compute sort_by.
  cbn -[in_u64 in_u32].
  split_and!; try zlia; repeat constructor; unfold_ints; simpl; try lia.
Qed.

Lemma plan_preimage_injective_witness :
  plan_preimage chain_request example_shards example_dag = plan_preimage chain_request example_shards example_dag ∧
  example_shards = example_shards.
Proof.
  split; [reflexivity|].
  destruct (plan_preimage_injective chain_request chain_request example_shards example_shards
    example_dag example_dag example_preimage_ok example_preimage_ok eq_refl)
    as (_ & _ & _ & _ & _ & _ & _ & _ & H & _). exact H.
Defined.
