(* ===== verification/PoseidonBoundary.v ===== *)
(** * Boundary commitments

    zkie-core/src/chips/poseidon_boundary.rs: the descriptor of a tensor that
    crosses a shard boundary, its validation and its encodings, the commitment to
    a tensor on the host, and the chip that computes the same commitment from
    assigned cells.

    BLAKE3 and light-poseidon are third-party code: the hash is the class
    [Blake3], the width-3 parameters are [PoseidonParameters], and the host hash
    of two elements is [PoseidonHasher].  Both crates' field types are one field,
    so the conversions between them are left out. *)
From S2P Require Import Prelude Bytes Field FixedPoint Circuit.

Open Scope nat_scope.

(** [*blake3::hash(bytes).as_bytes()]. *)
Class Blake3 := blake3 : bytes → bytes.
(** [bn254_x5::get_poseidon_parameters(3)]. *)
Class PoseidonParameters := {
  full_rounds : nat;
  partial_rounds : nat;
  ark : nat → Fr;
  mds : nat → nat → Fr
}.
(** [Poseidon::new_circom(2)] and [hash] of two elements. *)
Class PoseidonHasher := poseidon_hash : Fr → Fr → Fr.

(** [[T; 3]]. *)
Record Array3 (A : Type) := array3 { at0 : A; at1 : A; at2 : A }.
Arguments array3 {A} _ _ _.
Arguments at0 {A} _.
Arguments at1 {A} _.
Arguments at2 {A} _.
Definition from_fn {A} (f : nat → A) : Array3 A := array3 (f 0) (f 1) (f 2).
Definition elements {A} (a : Array3 A) : list A := [at0 a; at1 a; at2 a].

Module PoseidonBoundary.

(** ** Descriptors *)

Definition BOUNDARY_COMMITMENT_SCHEMA_VERSION : Z := 2.
Definition MAX_BOUNDARY_ELEMENTS : Z := Z.shiftl 1 13.
Definition MAX_BOUNDARY_IDENTITIES : Z := 64.
Definition MAX_BOUNDARY_ID_BYTES : Z := 256.

Inductive BoundaryRole := Input | Output.
Inductive BoundaryDType := DTypeI18.
Inductive BoundaryShape := FlatElementCountOnly (element_count : nat).

#[export] Instance BoundaryRole_eq_dec : EqDecision BoundaryRole.
Proof. solve_decision. Defined.

Record BoundaryDescriptor := mkBoundaryDescriptor {
  role : BoundaryRole;
  register_id : string;
  edge_ids : list string;
  graph_output_names : list string;
  dtype : BoundaryDType;
  shape : BoundaryShape;
  quantization_scale : Z
}.

Inductive BoundaryCommitmentError :=
| EmptyTensor
| TooManyElements
| TooManyIdentities
| InvalidIdentity
| NonCanonicalIdentities
| LengthMismatch (expected actual : nat)
| PoseidonParametersError.

Definition element_count (d : BoundaryDescriptor) : nat := match shape d with FlatElementCountOnly n => n end.

Definition valid_id (value : string) : bool :=
  negb (String.eqb value "") && (Z.of_nat (String.length value) <=? MAX_BOUNDARY_ID_BYTES)%Z.
(** Over [windows(2)]. *)
Definition strictly_sorted (values : list string) : bool :=
  forallb (λ '(x, y), String.ltb x y) (zip values (tail values)).

Definition validate (d : BoundaryDescriptor) : Result unit BoundaryCommitmentError :=
  if element_count d =? 0 then Err EmptyTensor else
  if (MAX_BOUNDARY_ELEMENTS <? Z.of_nat (element_count d))%Z then Err TooManyElements else
  if (MAX_BOUNDARY_IDENTITIES
      <? saturating_add_u64 (Z.of_nat (length (edge_ids d))) (Z.of_nat (length (graph_output_names d))))%Z
  then Err TooManyIdentities else
  if negb (valid_id (register_id d)) || existsb (λ id, negb (valid_id id)) (edge_ids d ++ graph_output_names d)
  then Err InvalidIdentity else
  if negb (strictly_sorted (edge_ids d)) || negb (strictly_sorted (graph_output_names d))
  then Err NonCanonicalIdentities else
  Ok tt.

Definition flat_i18 (role : BoundaryRole) (register_id : string) (edge_ids graph_output_names : list string)
    (element_count : nat) (quantization_scale : Z) : Result BoundaryDescriptor BoundaryCommitmentError :=
  let descriptor := mkBoundaryDescriptor role register_id edge_ids graph_output_names DTypeI18
    (FlatElementCountOnly element_count) quantization_scale in
  let? _ := validate descriptor in Ok descriptor.

(** *** Encodings *)

Definition encode_identity (value : string) : bytes :=
  encode_u64 (Z.of_nat (String.length value)) ++ as_bytes value.

(** The number of a little-endian limb; 16 bytes always fit the field. *)
Fixpoint from_le_bytes (b : bytes) : Z :=
  match b with [] => 0 | x :: b => Z_of_byte x + 256 * from_le_bytes b end%Z.
Definition limb_to_fr (b : bytes) : Fr := fr (from_le_bytes b).
Definition digest_fields (raw : bytes) : list Fr := [limb_to_fr (take 16 raw); limb_to_fr (drop 16 raw)].

Definition role_byte (role : BoundaryRole) : Z := match role with Input => 1 | Output => 2 end.
Definition dtype_byte (dtype : BoundaryDType) : Z := match dtype with DTypeI18 => 1 end.

(** [b"...\0"]. *)
Definition zero_terminated (s : string) : bytes := as_bytes s ++ [byte_of_Z 0].

Definition identity_preimage (value : string) : bytes :=
  zero_terminated "zkie.boundary-identity.v1" ++ encode_u64 (Z.of_nat (String.length value)) ++ as_bytes value.

Definition binding_preimage (d : BoundaryDescriptor) : bytes :=
  zero_terminated "zkie.boundary-descriptor-binding.v2" ++
  encode_u32 BOUNDARY_COMMITMENT_SCHEMA_VERSION ++
  [byte_of_Z (role_byte (role d))] ++ [byte_of_Z (dtype_byte (dtype d))] ++ [byte_of_Z 1] ++
  encode_u64 (Z.of_nat (element_count d)) ++ encode_u64 (quantization_scale d) ++
  encode_identity (register_id d) ++
  encode_u64 (Z.of_nat (length (edge_ids d))) ++ mjoin (encode_identity <$> edge_ids d) ++
  encode_u64 (Z.of_nat (length (graph_output_names d))) ++ mjoin (encode_identity <$> graph_output_names d).

Section Digests.
Context `{Blake3}.

Definition identity_fields (value : string) : list Fr := digest_fields (blake3 (identity_preimage value)).

Definition canonical_fields (d : BoundaryDescriptor) : list Fr :=
  [fr BOUNDARY_COMMITMENT_SCHEMA_VERSION; fr (dtype_byte (dtype d)); fr 1; fr (Z.of_nat (element_count d));
   fr (quantization_scale d)] ++ identity_fields (register_id d).

Definition public_binding_fields (d : BoundaryDescriptor) : list Fr := digest_fields (blake3 (binding_preimage d)).

(** [identity_fields(..)[0]]. *)
Definition protocol_domain : Fr := limb_to_fr (take 16 (blake3 (identity_preimage "zkie.poseidon-boundary-fold.v1"))).
End Digests.

(** ** On the host *)

Section Native.
Context `{Blake3, PoseidonHasher}.

Definition poseidon_compress_native (left right : Fr) : Fr := poseidon_hash left right.

Definition commit_boundary_native (d : BoundaryDescriptor) (values : list I18) : Result Fr BoundaryCommitmentError :=
  let? _ := validate d in
  if negb (length values =? element_count d) then Err (LengthMismatch (element_count d) (length values)) else
  let state := fold_left (λ state field, poseidon_compress_native state field) (canonical_fields d) protocol_domain in
  let state := poseidon_compress_native state (fr (Z.of_nat (length values))) in
  Ok (fold_left (λ state value, poseidon_compress_native state (i64_to_fr (raw value))) values state).
End Native.

(** ** The chip *)

Record PoseidonBoundaryConfig := mkPoseidonBoundaryConfig {
  state : Array3 Column;
  round_constants : Array3 Column;
  constant : Column;
  full_round : Selector;
  partial_round : Selector
}.

Definition pow5 (value : Fr) : Fr := let square := (value * value)%Zmod in (square * square * value)%Zmod.

Section Chip.
Context `{Blake3, PoseidonParameters}.

(** A row of the matrix, applied. *)
Definition mix (sboxed : list Fr) (row : nat) : Fr :=
  fold_left (λ sum '(column, value), sum + value * mds row column)%Zmod (enumerate sboxed) Zmod.zero.

Definition round_gate (name : string) (sbox : list Fr → list Fr) (state round_constants : Array3 Column) (selector : Selector)
    : Gate :=
  mkGate name selector (λ q query,
    let current := zip_with (λ state rc, query state cur + query rc cur)%Zmod (elements state) (elements round_constants) in
    let sboxed := sbox current in
    (λ '(row, nxt), let expected := mix sboxed row in (q * (query nxt next - expected))%Zmod) <$> enumerate (elements state)).

Definition full_sbox (current : list Fr) : list Fr := pow5 <$> current.
Definition partial_sbox (current : list Fr) : list Fr :=
  match current with
  | x :: rest => pow5 x :: rest
  | [] => []
  end.

Definition full_round_gate : Array3 Column → Array3 Column → Selector → Gate :=
  round_gate "poseidon boundary full round" full_sbox.
Definition partial_round_gate : Array3 Column → Array3 Column → Selector → Gate :=
  round_gate "poseidon boundary partial round" partial_sbox.

Definition configure : Meta PoseidonBoundaryConfig :=
  let& s0 := advice_column in
  let& s1 := advice_column in
  let& s2 := advice_column in
  let state := array3 s0 s1 s2 in
  let& _ := enable_equality s0 in
  let& _ := enable_equality s1 in
  let& _ := enable_equality s2 in
  let& rc0 := fixed_column in
  let& rc1 := fixed_column in
  let& rc2 := fixed_column in
  let round_constants := array3 rc0 rc1 rc2 in
  let& constant := fixed_column in
  let& _ := enable_constant constant in
  let& full_round := selector in
  let& partial_round := selector in
  let& _ := create_gate (full_round_gate state round_constants full_round) in
  let& _ := create_gate (partial_round_gate state round_constants partial_round) in
  meta_ret (mkPoseidonBoundaryConfig state round_constants constant full_round partial_round).

(** [AssignedCell<Fr, Fr>]: a cell and the value assigned to it. *)
Record AssignedCell := mkAssignedCell { cell : Cell; value : Value Fr }.

Definition value_add (x y : Value Fr) : Value Fr := x ← x; y ← y; Some (x + y)%Zmod.
Definition value_mul (x y : Value Fr) : Value Fr := x ← x; y ← y; Some (x * y)%Zmod.
Definition value_pow5 (value : Value Fr) : Value Fr :=
  let square := value_mul value value in value_mul (value_mul square square) value.

Context `{Layouter} (config : PoseidonBoundaryConfig).

(** [assign_advice], keeping the value. *)
Definition assign_value (column : Column) (region offset : nat) (v : Value Fr) : Lay ErrorFront AssignedCell :=
  let$ c := assign_advice column region offset v in lay_ret (mkAssignedCell c v).

Definition is_full (round : nat) : bool :=
  let half_full := full_rounds / 2 in
  let partial_end := half_full + partial_rounds in
  (round <? half_full) || (partial_end <=? round).

Definition assign_round (region round : nat) (cells : Array3 AssignedCell) : Lay ErrorFront (Array3 AssignedCell) :=
  let$ _ := if is_full round then enable (full_round config) region round else enable (partial_round config) region round in
  let$ after_ark := lay_map (λ '(column, (rc_column, cell)),
    let rc := ark (round * 3 + column) in
    let$ _ := assign_fixed rc_column region round rc in
    lay_ret (value_add (value cell) (Some rc)))
    (enumerate (zip (elements (round_constants config)) (elements cells))) in
  let sboxed := if is_full round then value_pow5 <$> after_ark
    else match after_ark with x :: rest => value_pow5 x :: rest | [] => [] end in
  let next_values := from_fn (λ row,
    fold_left (λ sum '(column, v), value_add sum (value_mul v (Some (mds row column)))) (enumerate sboxed) (Some Zmod.zero)) in
  let$ next0 := assign_value (at0 (state config)) region (round + 1) (at0 next_values) in
  let$ next1 := assign_value (at1 (state config)) region (round + 1) (at1 next_values) in
  let$ next2 := assign_value (at2 (state config)) region (round + 1) (at2 next_values) in
  lay_ret (array3 next0 next1 next2).

Fixpoint assign_rounds (region : nat) (rounds : list nat) (cells : Array3 AssignedCell) : Lay ErrorFront (Array3 AssignedCell) :=
  match rounds with
  | [] => lay_ret cells
  | round :: rounds => let$ cells := assign_round region round cells in assign_rounds region rounds cells
  end.

Definition hash_pair (left right : AssignedCell) : Lay ErrorFront AssignedCell :=
  assign_region (λ region,
    let$ zero := assign_value (at0 (state config)) region 0 (Some Zmod.zero) in
    let$ _ := constrain_constant (cell zero) Zmod.zero in
    let$ left_copy := assign_value (at1 (state config)) region 0 (value left) in
    let$ _ := constrain_equal (cell left) (cell left_copy) in
    let$ right_copy := assign_value (at2 (state config)) region 0 (value right) in
    let$ _ := constrain_equal (cell right) (cell right_copy) in
    let$ cells := assign_rounds region (seq 0 (full_rounds + partial_rounds)) (array3 zero left_copy right_copy) in
    lay_ret (at0 cells)).

Definition assign_constant (v : Fr) : Lay ErrorFront AssignedCell :=
  assign_region (λ region,
    let$ c := assign_value (at0 (state config)) region 0 (Some v) in
    let$ _ := constrain_constant (cell c) v in
    lay_ret c).

Definition assign_public_value (v : Fr) : Lay ErrorFront AssignedCell :=
  assign_region (λ region, assign_value (at0 (state config)) region 0 (Some v)).

Definition constrain_equal_to_constant (c : AssignedCell) (v : Fr) : Lay ErrorFront unit :=
  let$ constant := assign_constant v in
  assign_region (λ _, constrain_equal (cell c) (cell constant)).

(** The loop of [state = hash_pair(state, field)] over constants. *)
Fixpoint fold_constants (state : AssignedCell) (fields : list Fr) : Lay ErrorFront AssignedCell :=
  match fields with
  | [] => lay_ret state
  | field :: fields =>
      let$ field := assign_constant field in
      let$ state := hash_pair state field in
      fold_constants state fields
  end.
(** The same over assigned cells. *)
Fixpoint fold_cells (state : AssignedCell) (values : list AssignedCell) : Lay ErrorFront AssignedCell :=
  match values with
  | [] => lay_ret state
  | value :: values => let$ state := hash_pair state value in fold_cells state values
  end.

Definition commit_assigned (synthesis : ErrorFront) (d : BoundaryDescriptor) (values : list AssignedCell)
    : Lay ErrorFront AssignedCell :=
  if negb (is_ok (validate d)) || negb (length values =? element_count d) then lay_err synthesis else
  let$ state := assign_constant protocol_domain in
  let$ state := fold_constants state (canonical_fields d) in
  let$ count := assign_constant (fr (Z.of_nat (length values))) in
  let$ state := hash_pair state count in
  fold_cells state values.
End Chip.

End PoseidonBoundary.
