(* ===== verification/PoseidonProofs.v ===== *)
(** * Boundary commitments: proofs

    The chip's permutation is the specified one: in a satisfied circuit the cell
    of [hash_pair] holds the compression of its operands, so [commit_assigned]
    holds the commitment to the cells it was given; an honest run satisfies its
    calls.  The preimages of the hashes determine the descriptor, and a commitment
    determines what was committed up to a collision of the compression. *)
From S2P Require Import Prelude Bytes Field FixedPoint Circuit CircuitLogic Eltwise EltwiseProofs Honest PoseidonBoundary.
Import PoseidonBoundary.

Open Scope nat_scope.

(** ** The permutation *)

Section Spec.
Context `{PoseidonParameters}.

Definition sbox_of (round : nat) : list Fr → list Fr := if is_full round then full_sbox else partial_sbox.
Definition after_ark (round : nat) (s : Array3 Fr) : list Fr :=
  [at0 s + ark (round * 3 + 0); at1 s + ark (round * 3 + 1); at2 s + ark (round * 3 + 2)]%Zmod.
Definition round_step (s : Array3 Fr) (round : nat) : Array3 Fr := from_fn (mix (sbox_of round (after_ark round s))).
Definition compress (left right : Fr) : Fr :=
  at0 (fold_left round_step (seq 0 (full_rounds + partial_rounds)) (array3 Zmod.zero left right)).

(** The commitment by any two-input compression. *)
Definition commitment `{Blake3} (h : Fr → Fr → Fr) (d : BoundaryDescriptor) (values : list Fr) : Fr :=
  fold_left h values (h (fold_left h (canonical_fields d) protocol_domain) (fr (Z.of_nat (length values)))).
End Spec.

(** The documented relation: the host hash is the permutation with the same parameters. *)
Class PoseidonLaws (P : PoseidonParameters) (PH : PoseidonHasher) : Prop :=
  hash_compress : ∀ left right, poseidon_hash left right = compress left right.

(** The host folds its hash. *)
Lemma commit_native_fold `{Blake3, PH : PoseidonHasher} d values :
  validate d = Ok tt → length values = element_count d →
  commit_boundary_native d values = Ok (commitment poseidon_hash d ((λ v, i64_to_fr (raw v)) <$> values)).
Proof.
  intros Hv Hl. unfold commit_boundary_native, commitment, poseidon_compress_native. rewrite Hv. cbn [result_bind].
  rewrite Hl, Nat.eqb_refl. cbn [negb]. rewrite length_fmap, Hl. f_equal.
  assert (∀ s, fold_left (λ state value, poseidon_hash state (i64_to_fr (raw value))) values s =
    fold_left poseidon_hash ((λ v, i64_to_fr (raw v)) <$> values) s) as ->; [|done].
  clear Hl. induction values as [|v values IH]; intros s; simpl; [done|]. by rewrite IH.
Qed.

Lemma commit_native_Ok `{Blake3, PH : PoseidonHasher} d values c :
  commit_boundary_native d values = Ok c →
  validate d = Ok tt ∧ length values = element_count d ∧ c = commitment poseidon_hash d ((λ v, i64_to_fr (raw v)) <$> values).
Proof.
  intros E. assert (validate d = Ok tt ∧ length values = element_count d) as [Hv Hl].
  { revert E. unfold commit_boundary_native. destruct (validate d) as [[]|]; [|done]. cbn [result_bind].
    by destruct (Nat.eqb_spec (length values) (element_count d)). }
  rewrite (commit_native_fold d values Hv Hl) in E. by injection E.
Qed.

Lemma commitment_compress `{Blake3, P : PoseidonParameters, PH : PoseidonHasher, !PoseidonLaws P PH} d values :
  commitment poseidon_hash d values = commitment compress d values.
Proof.
  unfold commitment. assert (∀ l s, fold_left poseidon_hash l s = fold_left compress l s) as Hf.
  { induction l as [|x l IH]; intros s; simpl; [done|]. by rewrite hash_compress. }
  by rewrite !Hf, hash_compress.
Qed.

(** ** Configuring *)

Record poseidon_installed `{PoseidonParameters} (cs : ConstraintSystem) (config : PoseidonBoundaryConfig) : Prop := {
  pi_full : full_round_gate (state config) (round_constants config) (full_round config) ∈ cs_gates cs;
  pi_partial : partial_round_gate (state config) (round_constants config) (partial_round config) ∈ cs_gates cs
}.

(** Two selectors, then the gates they guard. *)
Lemma mwp_gate2 {B} final (g h : Selector → Gate) (k : Selector → Selector → Meta B) T :
  (∀ s, gate_selector (g s) = s ∧ gate_idle (g s)) → (∀ s, gate_selector (h s) = s ∧ gate_idle (h s)) →
  (∀ s t, mwp final (k s t) (λ b, g s ∈ cs_gates final → h t ∈ cs_gates final → T b)) →
  mwp final (meta_bind selector (λ s, meta_bind selector (λ t,
    meta_bind (create_gate (g s)) (λ _, meta_bind (create_gate (h t)) (λ _, k s t))))) T.
Proof.
  intros Hg Hh Hk.
  assert (mwp final (meta_bind selector (λ s, meta_bind (create_gate (g s)) (λ _,
    meta_bind selector (λ t, meta_bind (create_gate (h t)) (λ _, k s t))))) T) as Hm.
  { apply mwp_gate; [done|]. intros s. apply mwp_gate; [done|]. intros t. eapply mwp_conseq; [apply Hk|]. auto. }
  intros cs b cs' Hrun. by apply (Hm cs b cs').
Qed.

Lemma round_gate_idle `{PoseidonParameters} name sbox st rc s : gate_idle (round_gate name sbox st rc s).
Proof.
  intros row. unfold vanish. simpl. repeat constructor; apply fr_zero_mul.
Qed.

Lemma poseidon_configure_ok `{PoseidonParameters} final : mwp final configure (λ config, poseidon_installed final config).
Proof.
  unfold configure.
  do 3 (eapply mwp_bind; [by apply (mwp_advice_column _ (λ _, True))|let c := fresh "s" in intros c]).
  do 3 (eapply mwp_bind; [by apply (mwp_equality _ _ (λ _, True))|intros []]).
  do 4 (eapply mwp_bind; [by apply (mwp_advice_column _ (λ _, True))|let c := fresh "r" in intros c]).
  eapply mwp_bind; [by apply (mwp_equality _ _ (λ _, True))|intros []].
  cbv zeta. eapply (mwp_gate2 final (full_round_gate (array3 s s0 s1) (array3 r r0 r1))
    (partial_round_gate (array3 s s0 s1) (array3 r r0 r1))).
  - intros sel. split; [reflexivity|exact (round_gate_idle _ _ _ _ _)].
  - intros sel. split; [reflexivity|exact (round_gate_idle _ _ _ _ _)].
  - intros f p. apply mwp_ret. intros. by split.
Qed.

(** ** Soundness *)

Section Sound.
Context `{Blake3, P : PoseidonParameters, L : Layouter} (planner : nat → Z) (grid : Column → Z → Fr).
Context (cs : ConstraintSystem) (log : list Call) (config : PoseidonBoundaryConfig).
Context (Hinst : poseidon_installed cs config).

Notation val c := (cell_value planner grid (cell c)).
Notation sound := (wp log (λ _, True)).

(** The state of a round: the three cells of a row. *)
Definition at_row (region row : nat) (cells : Array3 AssignedCell) : Prop :=
  cell (at0 cells) = mkCell region row (at0 (state config)) ∧
  cell (at1 cells) = mkCell region row (at1 (state config)) ∧
  cell (at2 cells) = mkCell region row (at2 (state config)).
Definition vals (cells : Array3 AssignedCell) : Array3 Fr := array3 (val (at0 cells)) (val (at1 cells)) (val (at2 cells)).

Lemma wp_value {B} Q c region o v (k : AssignedCell → Lay ErrorFront B) T :
  Q (Assign (mkCell region o c) v) →
  (Assign (mkCell region o c) v ∈ log → wp log Q (k (mkAssignedCell (mkCell region o c) v)) T) →
  wp log Q (lay_bind (assign_value c region o v) k) T.
Proof using Type.
  intros HQ Hk. unfold assign_value. apply wp_assoc, wp_advice_then; [done|]. intros Hin. apply wp_ret_then. by apply Hk.
Qed.

Lemma wp_constant {B} (Q : Call → Prop) c v (k : unit → Lay ErrorFront B) T :
  Q (Fixed c v) → (Fixed c v ∈ log → wp log Q (k tt) T) → wp log Q (lay_bind (constrain_constant c v) k) T.
Proof using Type.
  intros HQ Hk. eapply (wp_bind _ _ _ _ (λ _, Fixed c v ∈ log)); [|by intros []].
  unfold constrain_constant. by apply wp_emit.
Qed.

Lemma wp_fixed {B} (Q : Call → Prop) c region o v (k : unit → Lay ErrorFront B) T :
  Q (Fixed (mkCell region o c) v) → (Fixed (mkCell region o c) v ∈ log → wp log Q (k tt) T) →
  wp log Q (lay_bind (assign_fixed c region o v) k) T.
Proof using Type.
  intros HQ Hk. eapply (wp_bind _ _ _ _ (λ _, Fixed (mkCell region o c) v ∈ log)); [|by intros []].
  unfold assign_fixed. by apply wp_emit.
Qed.

(** The gate of a round. *)
Definition round_gate_of (round : nat) : Gate :=
  if is_full round then full_round_gate (state config) (round_constants config) (full_round config)
  else partial_round_gate (state config) (round_constants config) (partial_round config).

Lemma round_gate_of_in round : round_gate_of round ∈ cs_gates cs.
Proof using Hinst. unfold round_gate_of. destruct (is_full round); apply Hinst. Qed.

(** What the gate of a round says of two rows and the constants. *)
Lemma round_gate_iff region round cells cells' :
  at_row region round cells → at_row region (round + 1) cells' →
  (∀ column rc, elements (round_constants config) !! column = Some rc →
    cell_value planner grid (mkCell region round rc) = ark (round * 3 + column)) →
  vanish (gate_polys (round_gate_of round) Zmod.one (advice_at grid (planner region + Z.of_nat round))) ↔
  vals cells' = round_step (vals cells) round.
Proof using Type.
  intros (E0 & E1 & E2) (F0 & F1 & F2) Hrc.
  pose proof (Hrc 0 _ eq_refl) as R0. pose proof (Hrc 1 _ eq_refl) as R1. pose proof (Hrc 2 _ eq_refl) as R2.
  assert (gate_polys (round_gate_of round) Zmod.one (advice_at grid (planner region + Z.of_nat round)) =
    [Zmod.sub (val (at0 cells')) (at0 (round_step (vals cells) round));
     Zmod.sub (val (at1 cells')) (at1 (round_step (vals cells) round));
     Zmod.sub (val (at2 cells')) (at2 (round_step (vals cells) round))]) as ->.
  { unfold round_gate_of, round_step, sbox_of, after_ark, vals, full_round_gate, partial_round_gate, round_gate. rewrite E0, E1, E2, F0, F1, F2.
    rewrite <-R0, <-R1, <-R2. destruct (is_full round); cbn [gate_polys elements zip_with enumerate fmap list_fmap zip length seq from_fn at0 at1 at2];
      rewrite !advice_cur, !Zmod.mul_1_l, !(advice_cell _ _ _ _ _ next (round + 1)) by (unfold next; lia); reflexivity. }
  unfold vanish. rewrite !Forall_cons. destruct (round_step (vals cells) round) as [x y z]. unfold vals. simpl. split.
  - intros (H0 & H1 & H2 & _). by rewrite (fr_sub_0 _ _ H0), (fr_sub_0 _ _ H1), (fr_sub_0 _ _ H2).
  - intros [= -> -> ->]. split_and!; [by rewrite Zmod.sub_same..|constructor].
Qed.

(** The calls of a round: its selector, its constants, and the next row. *)
Lemma assign_round_calls Q region round cells (R : Array3 AssignedCell → Prop) :
  (∀ c v, Q (Assign c v)) → (∀ c v, Q (Fixed c v)) →
  (Enable (gate_selector (round_gate_of round)) region round ∈ log →
   ∀ vs out, at_row region (round + 1) out →
    (∀ column rc, elements (round_constants config) !! column = Some rc →
      Fixed (mkCell region round rc) (ark (round * 3 + column)) ∈ log) →
    vs = ((λ '(column, cell), value_add (value cell) (Some (ark (round * 3 + column)))) <$> enumerate (elements cells)) →
    (let sboxed := if is_full round then value_pow5 <$> vs else match vs with x :: rest => value_pow5 x :: rest | [] => [] end in
     let next_value row := fold_left (λ sum '(column, v), value_add sum (value_mul v (Some (mds row column)))) (enumerate sboxed) (Some Zmod.zero) in
     value (at0 out) = next_value 0 ∧ value (at1 out) = next_value 1 ∧ value (at2 out) = next_value 2) →
    Assign (cell (at0 out)) (value (at0 out)) ∈ log → Assign (cell (at1 out)) (value (at1 out)) ∈ log →
    Assign (cell (at2 out)) (value (at2 out)) ∈ log →
    R out ∧ Q (Enable (gate_selector (round_gate_of round)) region round)) →
  wp log Q (assign_round config region round cells) R.
Proof using Type.
  intros HA HF HR. unfold assign_round.
  assert ((if is_full round then enable (full_round config) region round else enable (partial_round config) region round)
    = enable (gate_selector (round_gate_of round)) region round) as ->
    by (unfold round_gate_of; by destruct (is_full round)).
  apply wp_enable_late. intros Hen. specialize (HR Hen).
  eapply (wp_bind _ _ _ _ (λ vs,
    (∀ column rc, elements (round_constants config) !! column = Some rc →
      Fixed (mkCell region round rc) (ark (round * 3 + column)) ∈ log) ∧
    vs = ((λ '(column, cell), value_add (value cell) (Some (ark (round * 3 + column)))) <$> enumerate (elements cells)))).
  { destruct (round_constants config) as [r0 r1 r2], cells as [c0 c1 c2]. cbn [elements zip_with zip enumerate seq length lay_map at0 at1 at2].
    do 3 (repeat apply wp_assoc; apply wp_fixed; [apply HF|intros ?]; apply wp_ret_then).
    repeat apply wp_assoc. repeat apply wp_ret_then. apply wp_ret. split; [|done].
    intros [|[|[|column]]] rc; simpl; intros [= <-]; assumption. }
  intros vs [Hfix Hvs].
  apply wp_value; [done|]. intros A0. apply wp_value; [done|]. intros A1. apply wp_value; [done|]. intros A2. apply wp_ret.
  by apply (HR vs).
Qed.

(** ** Soundness of the chip *)

Section Satisfied.
Context (Hok : log_ok planner grid cs log).

Lemma fixed_on c v : Fixed c v ∈ log → cell_value planner grid c = v.
Proof using Hok. intros Hin. by apply Hok in Hin. Qed.

Lemma assign_round_sound region round cells :
  at_row region round cells →
  sound (assign_round config region round cells) (λ out,
    at_row region (round + 1) out ∧ vals out = round_step (vals cells) round).
Proof using Hok Hinst.
  intros Hrow. apply assign_round_calls; [done..|]. intros Hen vs out Hout Hfix _ _ _ _ _. split; [|done]. split; [done|].
  apply (round_gate_iff region); [done..| |].
  - intros column rc Hrc. by apply fixed_on, Hfix.
  - apply (gate_on _ _ _ _ _ _ _ Hok (round_gate_of_in round) Hen).
Qed.

Lemma assign_rounds_sound region n round cells :
  at_row region round cells →
  sound (assign_rounds config region (seq round n) cells) (λ out, vals out = fold_left round_step (seq round n) (vals cells)).
Proof using Hok Hinst.
  revert round cells. induction n as [|n IH]; intros round cells Hrow; cbn [seq assign_rounds fold_left]; [by apply wp_ret|].
  eapply wp_bind; [by apply assign_round_sound|]. intros out [Hout Ev]. rewrite <-Ev.
  rewrite Nat.add_1_r in Hout. by apply IH.
Qed.

Lemma hash_pair_sound left right : sound (hash_pair config left right) (λ out, val out = compress (val left) (val right)).
Proof using Hok Hinst.
  unfold hash_pair. apply wp_region. intros region.
  apply wp_value; [done|]. intros _. apply wp_constant; [done|]. intros Hz%fixed_on.
  apply wp_value; [done|]. intros _. apply wp_equal_then; [done|]. intros Hl%(equal_on _ _ _ _ _ _ Hok).
  apply wp_value; [done|]. intros _. apply wp_equal_then; [done|]. intros Hr%(equal_on _ _ _ _ _ _ Hok).
  cbn [cell] in *.
  eapply wp_bind; [apply (assign_rounds_sound region); by split_and!|]. intros out Hout. apply wp_ret.
  unfold compress. rewrite Hl, Hr, <-Hz. unfold vals in Hout. cbn [at0 at1 at2 cell] in Hout. by rewrite <-Hout.
Qed.

Lemma assign_constant_sound v : sound (assign_constant config v) (λ out, val out = v).
Proof using Hok.
  unfold assign_constant. apply wp_region. intros region. apply wp_value; [done|]. intros _.
  apply wp_constant; [done|]. intros Hz%fixed_on. by apply wp_ret.
Qed.

Lemma constrain_equal_to_constant_sound c v : sound (constrain_equal_to_constant config c v) (λ _, val c = v).
Proof using Hok.
  unfold constrain_equal_to_constant. eapply wp_bind; [apply assign_constant_sound|]. intros k <-.
  apply wp_region. intros _. apply wp_equal; [done|]. apply (equal_on _ _ _ _ _ _ Hok).
Qed.

Lemma fold_constants_sound st fields :
  sound (fold_constants config st fields) (λ out, val out = fold_left compress fields (val st)).
Proof using Hok Hinst.
  revert st. induction fields as [|field fields IH]; intros st; cbn [fold_constants fold_left]; [by apply wp_ret|].
  eapply wp_bind; [apply assign_constant_sound|]. intros f Hf. cbn beta in Hf.
  eapply wp_bind; [apply hash_pair_sound|]. intros st' Hst. cbn beta in Hst. rewrite <-Hf, <-Hst. apply IH.
Qed.
Lemma fold_cells_sound st values :
  sound (fold_cells config st values) (λ out, val out = fold_left compress ((λ v, val v) <$> values) (val st)).
Proof using Hok Hinst.
  revert st. induction values as [|v values IH]; intros st; cbn [fold_cells fold_left]; [by apply wp_ret|].
  eapply wp_bind; [apply hash_pair_sound|]. intros st' Hst. cbn beta in Hst. rewrite fmap_cons. simpl. rewrite <-Hst. apply IH.
Qed.

Lemma commit_assigned_sound synthesis d values :
  sound (commit_assigned config synthesis d values) (λ out,
    validate d = Ok tt ∧ length values = element_count d ∧ val out = commitment compress d ((λ v, val v) <$> values)).
Proof using Hok Hinst.
  unfold commit_assigned. apply wp_if; [intros _; apply wp_err|]. intros [Hv Hl]%orb_false_iff.
  apply negb_false_iff in Hv, Hl. apply Nat.eqb_eq in Hl.
  eapply wp_bind; [apply assign_constant_sound|]. intros st0 H0. cbn beta in H0.
  eapply wp_bind; [apply fold_constants_sound|]. intros st1 H1. cbn beta in H1.
  eapply wp_bind; [apply assign_constant_sound|]. intros n Hn. cbn beta in Hn.
  eapply wp_bind; [apply hash_pair_sound|]. intros st2 H2. cbn beta in H2.
  eapply wp_conseq; [apply fold_cells_sound|]. intros out ->. split_and!; [|done|].
  - destruct (validate d) as [[]|]; done.
  - unfold commitment. by rewrite length_fmap, H2, H1, H0, Hn.
Qed.
End Satisfied.

(** ** Honest provers *)

Section Honest.
Context (Hcs : cs_ok cs) (Hag : agrees planner grid log) (Hfix : agrees_fixed planner grid log).

(** Fixed cells hold their values, so only the other calls are to be shown. *)
Definition other_ok (c : Call) : Prop := match c with Fixed _ _ => True | _ => call_ok planner grid cs log c end.
Notation honest := (wp log other_ok).

Lemma honest_ok {E A} (m : Lay E A) R : honest m R → wp log (call_ok planner grid cs log) m R.
Proof using Hfix.
  intros Hm lg a n new Hrun Hin. destruct (Hm _ _ _ _ Hrun Hin) as [HR Hnew]. split; [done|].
  rewrite Forall_forall in Hnew |- *. intros [] Hc; try by apply (Hnew _ Hc). by apply Hfix, Hin.
Qed.

(** The cell holds the value that its prover knows. *)
Definition known_cell (c : AssignedCell) : Prop := value c = Some (val c).

Lemma known_assigned c v : Assign c (Some v) ∈ log → known_cell (mkAssignedCell c (Some v)).
Proof using Hag. intros Hin. unfold known_cell. simpl. f_equal. symmetry. by apply Hag. Qed.

Lemma value_mix (sboxed : list Fr) row :
  fold_left (λ sum '(column, v), value_add sum (value_mul v (Some (mds row column)))) (enumerate (Some <$> sboxed)) (Some Zmod.zero)
    = Some (mix sboxed row).
Proof using Type.
  unfold mix, enumerate. rewrite length_fmap. generalize (Zmod.zero : Fr) as z. generalize 0 as i.
  induction sboxed as [|x sboxed IH]; intros i z; simpl; [done|]. apply IH.
Qed.
Lemma value_sbox round (xs : list Fr) :
  (if is_full round then value_pow5 <$> (Some <$> xs) else match Some <$> xs with x :: rest => value_pow5 x :: rest | [] => [] end)
    = Some <$> sbox_of round xs.
Proof using Type.
  unfold sbox_of, full_sbox, partial_sbox. destruct (is_full round); [|by destruct xs].
  by rewrite <-!list_fmap_compose.
Qed.

Definition known_row (cells : Array3 AssignedCell) : Prop :=
  known_cell (at0 cells) ∧ known_cell (at1 cells) ∧ known_cell (at2 cells).

Lemma assign_round_complete region round cells :
  at_row region round cells → known_row cells →
  honest (assign_round config region round cells) (λ out, at_row region (round + 1) out ∧ known_row out).
Proof using Hinst Hcs Hag Hfix.
  intros Hrow (K0 & K1 & K2). apply assign_round_calls; [done..|]. intros Hen vs out Hout Hf Hvs (V0 & V1 & V2) A0 A1 A2.
  assert (vs = Some <$> after_ark round (vals cells)) as ->.
  { rewrite Hvs. unfold after_ark, vals. cbn [enumerate elements zip zip_with seq length fmap list_fmap at0 at1 at2]. by rewrite K0, K1, K2. }
  rewrite value_sbox, value_mix in V0, V1, V2. rewrite V0 in A0. rewrite V1 in A1. rewrite V2 in A2.
  apply Hag in A0, A1, A2. split; [split; [done|]; unfold known_row, known_cell; rewrite V0, V1, V2, A0, A1, A2; by split_and!|].
  unfold other_ok. apply enable_gate_ok; [done|by apply round_gate_of_in|].
  apply (round_gate_iff region round cells out); [done..| |].
  - intros column rc Hrc. by apply Hfix, Hf.
  - unfold vals at 1. by rewrite A0, A1, A2.
Qed.

Lemma assign_rounds_complete region n round cells :
  at_row region round cells → known_row cells → honest (assign_rounds config region (seq round n) cells) known_row.
Proof using Hinst Hcs Hag Hfix.
  revert round cells. induction n as [|n IH]; intros round cells Hrow Hk; cbn [seq assign_rounds]; [by apply wp_ret|].
  eapply wp_bind; [by apply assign_round_complete|]. intros out [Hout Hk']. rewrite Nat.add_1_r in Hout. by apply IH.
Qed.

Lemma hash_pair_complete left right : known_cell left → known_cell right → honest (hash_pair config left right) known_cell.
Proof using Hinst Hcs Hag Hfix.
  intros Hl Hr. unfold hash_pair. rewrite Hl, Hr. apply wp_region. intros region.
  apply wp_value; [done|]. intros A0. apply wp_constant; [done|]. intros _.
  apply wp_value; [done|]. intros A1. apply wp_equal_then; [symmetry; by apply Hag|]. intros _.
  apply wp_value; [done|]. intros A2. apply wp_equal_then; [symmetry; by apply Hag|]. intros _.
  eapply wp_bind; [apply (assign_rounds_complete region); [by split_and!|split_and!; by apply known_assigned]|].
  intros out (Hk & _). by apply wp_ret.
Qed.

Lemma assign_constant_complete v : honest (assign_constant config v) known_cell.
Proof using Hag.
  unfold assign_constant. apply wp_region. intros region. apply wp_value; [done|]. intros A0.
  apply wp_constant; [done|]. intros _. by apply wp_ret, known_assigned.
Qed.

Lemma constrain_equal_to_constant_complete c v : val c = v → honest (constrain_equal_to_constant config c v) (λ _, True).
Proof using Hag.
  intros Hv. unfold constrain_equal_to_constant, assign_constant.
  apply wp_nest, wp_region. intros region. apply wp_value; [done|]. intros A0%Hag. apply wp_constant; [done|]. intros _.
  apply wp_ret. apply wp_region. intros _. apply wp_equal; [|done]. simpl. by rewrite Hv, A0.
Qed.

Lemma fold_constants_complete st fields : known_cell st → honest (fold_constants config st fields) known_cell.
Proof using Hinst Hcs Hag Hfix.
  revert st. induction fields as [|field fields IH]; intros st Hst; cbn [fold_constants]; [by apply wp_ret|].
  eapply wp_bind; [apply assign_constant_complete|]. intros f Hf. eapply wp_bind; [by apply hash_pair_complete|]. apply IH.
Qed.
Lemma fold_cells_complete st values : known_cell st → Forall known_cell values → honest (fold_cells config st values) known_cell.
Proof using Hinst Hcs Hag Hfix.
  intros Hst Hvs. revert st Hst. induction Hvs as [|v values Hv _ IH]; intros st Hst; cbn [fold_cells]; [by apply wp_ret|].
  eapply wp_bind; [by apply hash_pair_complete|]. apply IH.
Qed.

Lemma commit_assigned_complete synthesis d values :
  Forall known_cell values → wp log (call_ok planner grid cs log) (commit_assigned config synthesis d values) known_cell.
Proof using Hinst Hcs Hag Hfix.
  intros Hvs. apply honest_ok. unfold commit_assigned. apply wp_if; [intros _; apply wp_err|intros _].
  eapply wp_bind; [apply assign_constant_complete|]. intros st0 H0.
  eapply wp_bind; [by apply fold_constants_complete|]. intros st1 H1.
  eapply wp_bind; [apply assign_constant_complete|]. intros n Hn.
  eapply wp_bind; [by apply hash_pair_complete|]. intros st2 H2. by apply fold_cells_complete.
Qed.
End Honest.
End Sound.

(** ** Runs that return *)

Section Returns.
Context `{Blake3, P : PoseidonParameters, L : Layouter, !Roomy L} (config : PoseidonBoundaryConfig).

Lemma returns_value column region o v : returns (assign_value column region o v) (λ _, True).
Proof using Roomy0. unfold assign_value. by repeat returns_step. Qed.

Lemma assign_round_returns region round cells : returns (assign_round config region round cells) (λ _, True).
Proof using Roomy0.
  unfold assign_round. eapply (returns_bind _ _ (λ _, True)); [destruct (is_full round); apply returns_enable|intros _ _].
  eapply returns_bind; [apply (returns_map _ (λ _ _, True))|intros vs _].
  { intros [i [rc c]] _. eapply returns_bind; [apply returns_emit|intros _ _]. by apply returns_ret. }
  do 3 (eapply returns_bind; [apply returns_value|intros ? _]). by apply returns_ret.
Qed.

Lemma hash_pair_returns left right : returns (hash_pair config left right) (λ _, True).
Proof using Roomy0.
  unfold hash_pair. apply returns_region. intros region.
  eapply returns_bind; [apply returns_value|intros ? _]. eapply returns_bind; [apply returns_emit|intros _ _].
  do 2 (eapply returns_bind; [apply returns_value|intros ? _]; eapply returns_bind; [apply returns_equal|intros _ _]).
  eapply (returns_bind _ _ (λ _, True)); [|intros ? _; by apply returns_ret].
  generalize (seq 0 (full_rounds + partial_rounds)) as rounds. intros rounds. generalize (array3 a a0 a1) as cells.
  induction rounds as [|round rounds IH]; intros cells; cbn [assign_rounds]; [by apply returns_ret|].
  eapply returns_bind; [apply assign_round_returns|]. intros cells' _. apply IH.
Qed.

Lemma assign_constant_returns v : returns (assign_constant config v) (λ _, True).
Proof using Roomy0.
  unfold assign_constant. apply returns_region. intros region. eapply returns_bind; [apply returns_value|intros c _].
  eapply returns_bind; [apply returns_emit|intros _ _]. by apply returns_ret.
Qed.

Lemma commit_assigned_returns synthesis d values :
  validate d = Ok tt → length values = element_count d → returns (commit_assigned config synthesis d values) (λ _, True).
Proof using Roomy0.
  intros Hv Hl. unfold commit_assigned. rewrite Hv, Hl, Nat.eqb_refl. cbn [is_ok negb orb].
  eapply returns_bind; [apply assign_constant_returns|intros st _]. eapply (returns_bind _ _ (λ _, True)).
  { generalize (canonical_fields d) as fields. intros fields. revert st.
    induction fields as [|f fields IH]; intros st; cbn [fold_constants]; [by apply returns_ret|].
    eapply returns_bind; [apply assign_constant_returns|intros ? _].
    eapply returns_bind; [apply hash_pair_returns|intros ? _]. apply IH. }
  intros st' _. eapply returns_bind; [apply assign_constant_returns|intros n _].
  eapply returns_bind; [apply hash_pair_returns|intros st2 _]. clear Hl. revert st2.
  induction values as [|v values IH]; intros st2; cbn [fold_cells]; [by apply returns_ret|].
  eapply returns_bind; [apply hash_pair_returns|intros ? _]. apply IH.
Qed.
End Returns.

(** ** Encodings *)

(** What the field types guarantee of a descriptor that validates. *)
Definition descriptor_ok (d : BoundaryDescriptor) : Prop := validate d = Ok tt ∧ in_u64 (quantization_scale d).

#[export] Instance encode_identity_prefix_free : PrefixFree text_ok encode_identity.
Proof. exact encode_text_prefix_free. Qed.

Lemma valid_id_text s : valid_id s = true → text_ok s.
Proof. unfold valid_id, MAX_BOUNDARY_ID_BYTES, text_ok. intros [_ H%Z.leb_le]%andb_true_iff. zlia. Qed.

Lemma descriptor_validate_Ok d :
  validate d = Ok tt →
  (0 < element_count d)%nat ∧ (Z.of_nat (element_count d) ≤ MAX_BOUNDARY_ELEMENTS)%Z ∧
  text_ok (register_id d) ∧ seq_ok text_ok (edge_ids d) ∧ seq_ok text_ok (graph_output_names d).
Proof.
  unfold validate. destruct (Nat.eqb_spec (element_count d) 0); [done|]. destruct (Z.ltb_spec MAX_BOUNDARY_ELEMENTS (Z.of_nat (element_count d))); [done|].
  destruct (Z.ltb_spec MAX_BOUNDARY_IDENTITIES (saturating_add_u64 (Z.of_nat (length (edge_ids d))) (Z.of_nat (length (graph_output_names d)))))
    as [|Hids]; [done|]. destruct (negb (valid_id _) || _) eqn:Hvalid; [done|]. destruct (negb (strictly_sorted _) || _); [done|]. intros _.
  apply orb_false_iff in Hvalid as [Hr%negb_false_iff Hall].
  assert (Forall text_ok (edge_ids d ++ graph_output_names d)) as [He Hg]%Forall_app.
  { apply Forall_forall. intros id Hin. apply valid_id_text. destruct (valid_id id) eqn:E; [done|].
    apply not_true_iff_false in Hall. destruct Hall. apply existsb_exists. exists id. rewrite E. split; [by apply list_elem_of_In|done]. }
  unfold MAX_BOUNDARY_IDENTITIES, saturating_add_u64 in Hids.
  assert (in_u64 (Z.of_nat (length (edge_ids d))) ∧ in_u64 (Z.of_nat (length (graph_output_names d)))) as [] by zlia.
  split_and!; try done; [lia|by apply valid_id_text].
Qed.

Lemma from_le_bytes_bound b : (0 ≤ from_le_bytes b < 256 ^ Z.of_nat (length b))%Z.
Proof.
  induction b as [|x b IH]; [done|]. cbn [from_le_bytes length]. rewrite Nat2Z.inj_succ, Z.pow_succ_r by lia.
  pose proof (Z_of_byte_range x). lia.
Qed.
Lemma from_le_bytes_inj a b : length a = length b → from_le_bytes a = from_le_bytes b → a = b.
Proof.
  revert b. induction a as [|x a IH]; intros [|y b]; try done. cbn [from_le_bytes length]. intros [= Hl] E.
  pose proof (Z_of_byte_range x). pose proof (Z_of_byte_range y).
  assert (Z_of_byte x = Z_of_byte y) as Exy by lia. f_equal; [|apply IH; [done|lia]].
  by rewrite <-(byte_of_Z_of_byte x), Exy, byte_of_Z_of_byte.
Qed.

(** A 16-byte limb fits the field, so the conversion keeps it. *)
Lemma limb_to_fr_inj a b : length a = 16 → length b = 16 → limb_to_fr a = limb_to_fr b → a = b.
Proof.
  intros Ha Hb E. apply fr_inj in E.
  - apply from_le_bytes_inj; [by rewrite Ha|done].
  - pose proof (from_le_bytes_bound a) as Ba. pose proof (from_le_bytes_bound b) as Bb. rewrite Ha in Ba. rewrite Hb in Bb.
    pose proof bn254_order_large. change (256 ^ Z.of_nat 16)%Z with (2 ^ 128)%Z in *. lia.
Qed.
Lemma digest_fields_inj a b : digest_ok a → digest_ok b → digest_fields a = digest_fields b → a = b.
Proof.
  unfold digest_ok, digest_fields. intros Ha Hb E. pose proof (f_equal (λ l, nth 0 l Zmod.zero) E) as E1. pose proof (f_equal (λ l, nth 1 l Zmod.zero) E) as E2. cbn [nth] in E1, E2. apply limb_to_fr_inj in E1, E2; try (rewrite ?length_take, ?length_drop; lia).
  by rewrite <-(take_drop 16 a), E1, E2, take_drop.
Qed.

Lemma identity_preimage_inj s t : text_ok s → text_ok t → identity_preimage s = identity_preimage t → s = t.
Proof.
  intros Hs Ht E. unfold identity_preimage in E. apply app_inv_head in E.
  apply (prefix_free_inj text_ok encode_identity); done.
Qed.

Lemma binding_preimage_inj d d' :
  descriptor_ok d → descriptor_ok d' → binding_preimage d = binding_preimage d' → d = d'.
Proof.
  intros [(Hn & Hm & Hr & [Hel He] & [Hgl Hg])%descriptor_validate_Ok Hq] [(Hn' & Hm' & Hr' & [Hel' He'] & [Hgl' Hg'])%descriptor_validate_Ok Hq'] E.
  unfold binding_preimage in E. do 2 apply app_inv_head in E.
  assert (in_u64 (Z.of_nat (element_count d))) by (change MAX_BOUNDARY_ELEMENTS with 8192%Z in *; zlia).
  assert (in_u64 (Z.of_nat (element_count d'))) by (change MAX_BOUNDARY_ELEMENTS with 8192%Z in *; zlia).
  apply app_inj_1 in E as [Erole E]; [|done]. apply app_inj_1 in E as [_ E]; [|done]. apply app_inj_1 in E as [_ E]; [|done].
  peel E. peel E. apply (prefix_free (enc := encode_identity)) in E as [? E]; [|done..]. peel E.
    apply (mjoin_prefix_free text_ok encode_identity) in E as [? E]; [|lia|done..].
  apply (prefix_free (enc := encode_u64)) in E as [? E]; [|done..].
  apply (f_equal (λ l, l ++ [])) in E. apply (mjoin_prefix_free text_ok encode_identity) in E as [? _]; [|lia|done..].
  destruct d as [ro ri ei gn [] [n] q], d' as [ro' ri' ei' gn' [] [n'] q']. unfold element_count in *. simpl in *.
  assert (ro = ro') as -> by (by destruct ro, ro'; vm_compute in Erole). f_equal; try done. f_equal. lia.
Qed.

(** ** Binding *)

(** The pairs that a fold compresses. *)
Fixpoint folded (h : Fr → Fr → Fr) (s : Fr) (l : list Fr) : list (Fr * Fr) :=
  match l with
  | [] => []
  | x :: l => (s, x) :: folded h (h s x) l
  end.

Lemma folded_snoc h s l x : folded h s (l ++ [x]) = folded h s l ++ [(fold_left h l s, x)].
Proof. revert s. induction l as [|y l IH]; intros s; simpl; [done|]. by rewrite IH. Qed.

(** Two different pairs among these, compressed to one element. *)
Definition colliding (h : Fr → Fr → Fr) (ps qs : list (Fr * Fr)) : Prop :=
  ∃ p q, p ∈ ps ∧ q ∈ qs ∧ p ≠ q ∧ h p.1 p.2 = h q.1 q.2.

Lemma colliding_app h ps ps' qs qs' : colliding h ps qs → colliding h (ps ++ ps') (qs ++ qs').
Proof. intros (p & q & ? & ? & ?). exists p, q. set_solver. Qed.

Lemma fold_binding (h : Fr → Fr → Fr) l l' s s' :
  fold_left h l s = fold_left h l' s' → colliding h (folded h s l) (folded h s' l') ∨
  (∃ k, l = k ++ l' ∧ fold_left h k s = s') ∨ (∃ k, l' = k ++ l ∧ fold_left h k s' = s).
Proof.
  revert l'. induction l as [|x l IH] using rev_ind; intros l' E.
  - right. right. exists l'. by rewrite app_nil_r.
  - destruct l' as [|x' l' _] using rev_ind; [right; left; exists (l ++ [x]); by rewrite app_nil_r|].
    rewrite !fold_left_app in E. simpl in E. rewrite !folded_snoc.
    destruct (decide ((fold_left h l s, x) = (fold_left h l' s', x'))) as [[= Es ->]|Hne].
    2: { left. exists (fold_left h l s, x), (fold_left h l' s', x'). set_solver. }
    destruct (IH _ Es) as [Hc|[(k & -> & ?)|(k & -> & ?)]]; [left; by apply colliding_app|right; left|right; right];
      exists k; by rewrite <-app_assoc.
Qed.

(** Everything that a commitment folds. *)
Definition committed `{Blake3} (d : BoundaryDescriptor) (values : list Fr) : list Fr :=
  canonical_fields d ++ fr (Z.of_nat (length values)) :: values.

Lemma commitment_fold `{Blake3} (h : Fr → Fr → Fr) d values :
  commitment h d values = fold_left h (committed d values) protocol_domain.
Proof. unfold commitment, committed. by rewrite fold_left_app. Qed.

(** A proper part of a fold that ends in the domain constant. *)
Lemma fold_preimage h k s t l : k ≠ [] → fold_left h k s = t → ∃ p, p ∈ folded h s (k ++ l) ∧ h p.1 p.2 = t.
Proof.
  intros Hk <-. destruct k as [|x k _] using rev_ind; [done|]. exists (fold_left h k s, x).
  assert (∀ m m' s', folded h s' m ⊆ folded h s' (m ++ m')) as Hsub.
  { intros m m'. induction m as [|y m IH]; intros s'; simpl; [set_solver|]. specialize (IH (h s' y)). set_solver. }
  split; [|by rewrite fold_left_app]. apply (Hsub (k ++ [x])). rewrite folded_snoc. set_solver.
Qed.

(** Two equal commitments commit to the same fields, or one of the pairs compressed
    on the way collides with another or compresses to the domain constant. *)
Lemma commitment_binding `{Blake3} (h : Fr → Fr → Fr) d d' values values' :
  commitment h d values = commitment h d' values' →
  colliding h (folded h protocol_domain (committed d values)) (folded h protocol_domain (committed d' values')) ∨
  (length values ≠ length values' ∧
   ∃ p, p ∈ folded h protocol_domain (committed d values) ++ folded h protocol_domain (committed d' values') ∧ h p.1 p.2 = protocol_domain) ∨
  (canonical_fields d = canonical_fields d' ∧ values = values').
Proof.
  assert (Hlonger : ∀ k d d' values values', k ≠ [] → committed d values = k ++ committed d' values' → length values ≠ length values').
  { intros k e e' vs vs' Hk El%(f_equal length). rewrite length_app in El. simpl in El. destruct k; [done|]. simpl in El. lia. }
  rewrite !commitment_fold. intros E.
  destruct (fold_binding _ _ _ _ _ E) as [?|[(k & El & Ek)|(k & El & Ek)]]; [by left| |]; right.
  - destruct (decide (k = [])) as [->|Hk].
    + right. rewrite app_nil_l in El. apply app_inj_1 in El as [Ec Ev]; [|done]. apply (f_equal tail) in Ev. by split.
    + left. split; [by eapply Hlonger|]. rewrite El.
      destruct (fold_preimage h k _ _ (committed d' values') Hk Ek) as (p & Hp & Hh). exists p. set_solver.
  - destruct (decide (k = [])) as [->|Hk].
    + right. rewrite app_nil_l in El. apply app_inj_1 in El as [Ec Ev]; [|done]. apply (f_equal tail) in Ev. by split.
    + left. split; [by apply not_eq_sym; eapply Hlonger|]. rewrite El.
      destruct (fold_preimage h k _ _ (committed d values) Hk Ek) as (p & Hp & Hh). exists p. set_solver.
Qed.
