(* ===== verification/Decode.v ===== *)
(** * Readers of byte buffers

    A decoder of the code holds a buffer and an offset; here it holds the bytes from
    the offset on.  A codec is a writer with the reader that gives back exactly what
    was written. *)
From S2P Require Import Prelude Bytes State PoseidonBoundary PoseidonProofs.

Open Scope Z_scope.

(** [str::from_utf8]: the well-formed byte sequences of Unicode. *)
Definition byte_in (lo hi : Z) (b : Ascii.ascii) : bool := (lo <=? Z_of_byte b) && (Z_of_byte b <=? hi).
Definition continuation : Ascii.ascii → bool := byte_in 128 191.
Fixpoint valid_utf8 (b : bytes) : bool :=
  match b with
  | [] => true
  | b0 :: b =>
      if byte_in 0 127 b0 then valid_utf8 b else
      match b with
      | b1 :: b =>
          if byte_in 194 223 b0 then continuation b1 && valid_utf8 b else
          match b with
          | b2 :: b =>
              if byte_in 224 239 b0
              then (if Z_of_byte b0 =? 224 then byte_in 160 191 b1
                    else if Z_of_byte b0 =? 237 then byte_in 128 159 b1 else continuation b1)
                   && continuation b2 && valid_utf8 b
              else
              match b with
              | b3 :: b =>
                  byte_in 240 244 b0
                  && (if Z_of_byte b0 =? 240 then byte_in 144 191 b1
                      else if Z_of_byte b0 =? 244 then byte_in 128 143 b1 else continuation b1)
                  && continuation b2 && continuation b3 && valid_utf8 b
              | [] => false
              end
          | [] => false
          end
      | [] => false
      end
  end.

Lemma ascii_utf8 s : is_ascii s = true → valid_utf8 (as_bytes s) = true.
Proof.
  unfold is_ascii, as_bytes. induction s as [|c s IH]; [done|]. cbn [string_forallb String.list_ascii_of_string valid_utf8].
  intros [Hc Hs]%andb_true_iff. unfold ascii_byte in Hc. apply Nat.ltb_lt in Hc.
  assert (byte_in 0 127 c = true) as ->; [|by apply IH]. unfold byte_in, Z_of_byte. unfold Ascii.nat_of_ascii in Hc.
  apply andb_true_iff. rewrite !Z.leb_le. lia.
Qed.

(** ** Readers *)

Definition Get (E A : Type) : Type := bytes → Result (A * bytes) E.
Definition get_ret {E A} (a : A) : Get E A := λ b, Ok (a, b).
Definition get_err {E A} (e : E) : Get E A := λ _, Err e.
Definition get_bind {E A B} (m : Get E A) (k : A → Get E B) : Get E B := λ b, let? '(a, b) := m b in k a b.
Definition get_lift {E A} (r : Result A E) : Get E A := λ b, let? a := r in Ok (a, b).
Notation "'let%' x := c 'in' k" := (get_bind c (λ x, k)) (at level 10, x name, c at level 100, k at level 200) : zkie_scope.

Section Readers.
Context {E : Type} (short : E).
(** [bytes.get(offset..offset + len).ok_or(short)]; the sum of an offset in memory
    and a length below [2 ^ 32] cannot overflow. *)
Definition take_bytes (len : nat) : Get E bytes :=
  λ b, if (len <=? length b)%nat then Ok (take len b, drop len b) else Err short.
Definition take_u32 : Get E Z := let% b := take_bytes 4 in get_ret (PoseidonBoundary.from_le_bytes b).
Definition take_u64 : Get E Z := let% b := take_bytes 8 in get_ret (PoseidonBoundary.from_le_bytes b).
Definition take_i64 : Get E Z :=
  let% b := take_bytes 8 in
  let z := PoseidonBoundary.from_le_bytes b in get_ret (if z <? 2 ^ 63 then z else z - 2 ^ 64).
End Readers.
(** [(0..count).map(..).collect()]. *)
Fixpoint get_many {E A} (count : nat) (get : Get E A) : Get E (list A) :=
  match count with
  | O => get_ret []
  | S count => let% x := get in let% xs := get_many count get in get_ret (x :: xs)
  end.
(** ** Bytes of integers *)


Lemma from_to_le_bytes n z : PoseidonBoundary.from_le_bytes (to_le_bytes n z) = z mod 256 ^ Z.of_nat n.
Proof.
  revert z. induction n as [|n IH]; intros z; [by rewrite Z.mod_1_r|].
  change (to_le_bytes (S n) z) with (byte_of_Z z :: to_le_bytes n (z / 256)). cbn [PoseidonBoundary.from_le_bytes].
  rewrite IH, Z_of_byte_of_Z, Nat2Z.inj_succ, Z.pow_succ_r by lia.
  pose proof (Z.pow_pos_nonneg 256 (Z.of_nat n) ltac:(lia) ltac:(lia)). by rewrite Z.rem_mul_r by lia.
Qed.

Lemma to_from_le_bytes b : to_le_bytes (length b) (PoseidonBoundary.from_le_bytes b) = b.
Proof.
  apply from_le_bytes_inj; [apply length_to_le_bytes|]. rewrite from_to_le_bytes. apply Z.mod_small, from_le_bytes_bound.
Qed.

(** [injection] that leaves the bytes as they are. *)
Lemma Ok_inj {A E} (a b : A) : Ok (E := E) a = Ok b → a = b.
Proof. by intros [= ->]. Qed.

(** ** Codecs *)

(** [get] reads what [put] writes for a value in [P], and nothing else. *)
Class Codec {A E F} (P : A → Prop) (put : A → Result bytes F) (get : Get E A) : Prop := {
  codec_put a b r : P a → put a = Ok b → get (b ++ r) = Ok (a, r);
  codec_get s a r : get s = Ok (a, r) → P a ∧ ∃ b, put a = Ok b ∧ s = b ++ r
}.

Lemma get_bind_Ok {E A B} (m : Get E A) (k : A → Get E B) s b r :
  get_bind m k s = Ok (b, r) ↔ ∃ a s', m s = Ok (a, s') ∧ k a s' = Ok (b, r).
Proof.
  unfold get_bind. rewrite result_bind_Ok. split; [intros ([a s'] & ? & ?); eauto|intros (a & s' & ? & ?); by exists (a, s')].
Qed.
Lemma get_ret_Ok {E A} (a a' : A) s r : get_ret (E := E) a s = Ok (a', r) ↔ a = a' ∧ s = r.
Proof. unfold get_ret. naive_solver. Qed.
Lemma get_lift_Ok {E A} (c : Result A E) a s r : get_lift c s = Ok (a, r) ↔ c = Ok a ∧ s = r.
Proof. unfold get_lift. rewrite result_bind_Ok. naive_solver. Qed.

Lemma take_bytes_Ok {E} (short : E) n s b r : take_bytes short n s = Ok (b, r) ↔ length b = n ∧ s = b ++ r.
Proof.
  unfold take_bytes. destruct (Nat.leb_spec n (length s)); split.
  - intros [= <- <-]. rewrite length_take, take_drop. split; [lia|done].
  - intros [<- ->]. by rewrite take_app_length, drop_app_length.
  - done.
  - intros [<- ->]. rewrite length_app in *. lia.
Qed.

(** Fixed numbers of bytes. *)
Section Fixed.
Context {E F : Type} (short : E).
Lemma fixed_codec {A} (P : A → Prop) (n : nat) (enc : A → bytes) (dec : bytes → A) :
  (∀ a, P a → length (enc a) = n ∧ dec (enc a) = a) → (∀ b, length b = n → P (dec b) ∧ enc (dec b) = b) →
  Codec P (λ a, Ok (E := F) (enc a)) (get_bind (take_bytes short n) (λ b, get_ret (dec b))).
Proof.
  intros Henc Hdec. split.
  - intros a b r [Hl He]%Henc <-%Ok_inj. apply get_bind_Ok. exists (enc a), r. by rewrite take_bytes_Ok, get_ret_Ok.
  - intros s a r (b & s' & [Hl ->]%take_bytes_Ok & [<- <-]%get_ret_Ok)%get_bind_Ok. destruct (Hdec b Hl) as [HP He].
    split; [done|]. by rewrite He; exists b.
Qed.

Lemma take_u32_codec : Codec in_u32 (λ z, Ok (E := F) (encode_u32 z)) (take_u32 short).
Proof.
  apply fixed_codec; unfold encode_u32.
  - intros z Hz. rewrite length_to_le_bytes, from_to_le_bytes. split; [done|]. apply Z.mod_small. zlia.
  - intros b Hl. pose proof (from_le_bytes_bound b) as Hb. split; [rewrite Hl in Hb; zlia|].
    rewrite <-(to_from_le_bytes b) at 2. by rewrite Hl.
Qed.
Lemma take_u64_codec : Codec in_u64 (λ z, Ok (E := F) (encode_u64 z)) (take_u64 short).
Proof.
  apply fixed_codec; unfold encode_u64.
  - intros z Hz. rewrite length_to_le_bytes, from_to_le_bytes. split; [done|]. apply Z.mod_small. zlia.
  - intros b Hl. pose proof (from_le_bytes_bound b) as Hb. split; [rewrite Hl in Hb; zlia|].
    rewrite <-(to_from_le_bytes b) at 2. by rewrite Hl.
Qed.
Lemma take_i64_codec : Codec in_i64 (λ z, Ok (E := F) (encode_i64 z)) (take_i64 short).
Proof.
  apply (fixed_codec in_i64 8 encode_i64 (λ b, let z := PoseidonBoundary.from_le_bytes b in if z <? 2 ^ 63 then z else z - 2 ^ 64));
    cbv zeta; unfold encode_i64.
  - intros z Hz. rewrite length_to_le_bytes, from_to_le_bytes. split; [done|]. change (256 ^ Z.of_nat 8) with (2 ^ 64).
    destruct (decide (0 ≤ z)); [rewrite Z.mod_small by zlia; destruct (Z.ltb_spec z (2 ^ 63)); zlia|].
    rewrite <-(Z.mod_add z 1), (Z.mod_small (z + 1 * 2 ^ 64)) by zlia. destruct (Z.ltb_spec (z + 1 * 2 ^ 64) (2 ^ 63)); zlia.
  - intros b Hl. pose proof (from_le_bytes_bound b) as Hb. rewrite Hl in Hb. change (256 ^ Z.of_nat 8) with (2 ^ 64) in Hb.
    split; [destruct (Z.ltb_spec (PoseidonBoundary.from_le_bytes b) (2 ^ 63)); zlia|].
    apply from_le_bytes_inj; [by rewrite length_to_le_bytes|].
    rewrite from_to_le_bytes. change (256 ^ Z.of_nat 8) with (2 ^ 64).
    destruct (Z.ltb_spec (PoseidonBoundary.from_le_bytes b) (2 ^ 63)); [by rewrite Z.mod_small by lia|].
    rewrite <-(Z.mod_add _ 1) by done. rewrite Z.mod_small; lia.
Qed.
Lemma take_digest_codec : Codec digest_ok (Ok (E := F)) (take_bytes short 32).
Proof.
  split.
  - intros d b r Hd <-%Ok_inj. by apply take_bytes_Ok.
  - intros s d r [Hd ->]%take_bytes_Ok. split; [done|]. by exists d.
Qed.
End Fixed.

(** Reading one field that was put. *)
Lemma get_step {E F A B} (P : A → Prop) (put : A → Result bytes F) (get : Get E A) `{!Codec P put get} (k : A → Get E B) a b r out :
  P a → put a = Ok b → k a r = Ok out → get_bind get k (b ++ r) = Ok out.
Proof. intros HP Hb Hk. unfold get_bind. by rewrite (codec_put (P := P) (put := put) _ _ _ HP Hb). Qed.
Lemma get_bind_eq {E A B} (m : Get E A) (k : A → Get E B) s a s' out : m s = Ok (a, s') → k a s' = Ok out → get_bind m k s = Ok out.
Proof. intros Hm Hk. unfold get_bind. by rewrite Hm. Qed.

Lemma get_field {E F A B} (P : A → Prop) (put : A → Result bytes F) (get : Get E A) `{!Codec P put get} (k : A → Get E B) s b r :
  get_bind get k s = Ok (b, r) → ∃ a bs s', P a ∧ put a = Ok bs ∧ s = bs ++ s' ∧ k a s' = Ok (b, r).
Proof.
  intros (a & s' & Ha & Hk)%get_bind_Ok. apply (codec_get (P := P)) in Ha as (HP & bs & Hb & ->). by exists a, bs, s'.
Qed.
