(* ===== verification/Store.v ===== *)
(** * Stored objects

    crates/zkie-runtime/src/store.rs, without the file system: metadata of objects and
    their bytes, identities of proofs and keys with their digests, attestations, and
    the names of staged files.  The stores themselves are in [StoreFs]. *)
From S2P Require Import Prelude Bytes State Identity PoseidonBoundary PoseidonProofs Decode.

Open Scope Z_scope.

Inductive ArtifactRole := ArWitness | ArPreparedMaterial | ArLeafProof | ArNativeVerifiedManifest.
Inductive AggregationArity := NotApplicable | Actual (arity : Z).

#[export] Instance ArtifactRole_eq_dec : EqDecision ArtifactRole.
Proof. solve_decision. Defined.
#[export] Instance AggregationArity_eq_dec : EqDecision AggregationArity.
Proof. solve_decision. Defined.

Module Store.

(** [rustix::io::Errno], as far as the code tells errors apart. *)
Inductive Errno := EXIST | NOENT | OtherErrno (code : Z).

Inductive StoreError :=
| Io (message : string)
| Fs (errno : Errno)
| UnsupportedPlatform
| InvalidMetadata
| MetadataMismatch
| ContentMismatch
| PayloadTooLarge
| WrongStoreKind
| UnsafeFileType
| ExistingObjectConflict (digest : Digest32)
| NotFound (digest : Digest32)
| FileIdentityChanged
| ProofIdentityMismatch
| KeyIdentityMismatch
| StoreLocatorChanged.

#[local] Notation zero_terminated := PoseidonBoundary.zero_terminated.
Definition MAGIC : bytes := as_bytes "ZKIEOBJ2".
Definition DIGEST_DOMAIN : bytes := zero_terminated "zkie-content-store-v1".
Definition PROOF_IDENTITY_DOMAIN : bytes := zero_terminated "zkie-proof-identity-v1".
Definition PROOF_ATTESTATION_DOMAIN : bytes := zero_terminated "zkie-proof-attestation-v1".
Definition KEY_IDENTITY_DOMAIN : bytes := zero_terminated "zkie-key-identity-v1".
Definition KEY_ATTESTATION_DOMAIN : bytes := zero_terminated "zkie-key-attestation-v1".
Definition MAX_METADATA_BYTES : Z := 4096.
Definition STAGE_PREFIX : string := "stage-".
Definition STAGE_SUFFIX : string := ".tmp".
Definition STORE_ID_NAME : string := ".zkie-store-id".

(** ** Identifiers and bytes *)

Definition validate_identifier (value : string) : Result unit StoreError :=
  if String.eqb value "" || (256 <? Z.of_nat (String.length value)) || negb (is_ascii value)
     || negb (string_forallb (λ c, negb (is_control c)) value)
  then Err InvalidMetadata else Ok tt.

Definition write_string (value : string) : Result bytes StoreError :=
  let? _ := validate_identifier value in
  let? len := ok_or (try_u32 (Z.of_nat (String.length value))) InvalidMetadata in
  Ok (encode_u32 len ++ as_bytes value).

(** What is written to a [blake3::Hasher] by [hash_string]. *)
Definition hash_string (value : string) : bytes := encode_text value.

(** ** Metadata *)

Record ArtifactMetadata := mkArtifactMetadata {
  am_artifact_id : string;
  am_content_digest : Digest32;
  am_size : Z;
  am_proof_identity_digest : option Digest32
}.

Definition artifact_metadata_new (artifact_id : string) (content_digest : Digest32) (size : Z) : Result ArtifactMetadata StoreError :=
  let? _ := validate_identifier artifact_id in
  Ok (mkArtifactMetadata artifact_id content_digest size None).
Definition artifact_metadata_new_proof (artifact_id : string) (content_digest : Digest32) (size : Z) (proof_identity_digest : Digest32)
    : Result ArtifactMetadata StoreError :=
  let? metadata := artifact_metadata_new artifact_id content_digest size in
  Ok (mkArtifactMetadata (am_artifact_id metadata) (am_content_digest metadata) (am_size metadata) (Some proof_identity_digest)).

Record KeyMetadata := mkKeyMetadata {
  km_content_digest : Digest32;
  km_size : Z;
  km_srs_source_digest : Digest32;
  km_proof_flavor : ProofFlavorId;
  km_circuit_digest : Digest32;
  km_k : Z;
  km_aggregation_arity : Z;
  km_key_identity_digest : option Digest32
}.

Definition key_metadata_new (content_digest : Digest32) (size : Z) (srs_source_digest : Digest32) (proof_flavor : ProofFlavorId)
    (circuit_digest : Digest32) (k aggregation_arity : Z) : Result KeyMetadata StoreError :=
  let? _ := validate_identifier proof_flavor in
  if aggregation_arity =? 0 then Err InvalidMetadata else
  Ok (mkKeyMetadata content_digest size srs_source_digest proof_flavor circuit_digest k aggregation_arity None).

Definition set_key_identity (m : KeyMetadata) (identity : option Digest32) : KeyMetadata :=
  mkKeyMetadata (km_content_digest m) (km_size m) (km_srs_source_digest m) (km_proof_flavor m) (km_circuit_digest m) (km_k m)
    (km_aggregation_arity m) identity.
Definition bind_identity (self : KeyMetadata) (key_identity_digest : Digest32) : KeyMetadata :=
  set_key_identity self (Some key_identity_digest).

Inductive ObjectMetadata := Artifact (metadata : ArtifactMetadata) | Key (metadata : KeyMetadata).

#[export] Instance ArtifactMetadata_eq_dec : EqDecision ArtifactMetadata.
Proof. solve_decision. Defined.
#[export] Instance KeyMetadata_eq_dec : EqDecision KeyMetadata.
Proof. solve_decision. Defined.
#[export] Instance ObjectMetadata_eq_dec : EqDecision ObjectMetadata.
Proof. solve_decision. Defined.

Definition content_digest (self : ObjectMetadata) : Digest32 :=
  match self with Artifact value => am_content_digest value | Key value => km_content_digest value end.
Definition size (self : ObjectMetadata) : Z :=
  match self with Artifact value => am_size value | Key value => km_size value end.

(** *** Bytes of metadata *)

(** An optional identity digest behind its presence byte. *)
Definition put_identity (identity : option Digest32) : bytes :=
  match identity with Some digest => byte_of_Z 1 :: digest | None => [byte_of_Z 0] end.

Definition encode_metadata (metadata : ObjectMetadata) : Result bytes StoreError :=
  let? output :=
    match metadata with
    | Artifact value =>
        let? id := write_string (am_artifact_id value) in
        Ok ([byte_of_Z 1] ++ am_content_digest value ++ encode_u64 (am_size value) ++ id ++ put_identity (am_proof_identity_digest value))
    | Key value =>
        let? flavor := write_string (km_proof_flavor value) in
        Ok ([byte_of_Z 2] ++ km_content_digest value ++ encode_u64 (km_size value) ++ km_srs_source_digest value ++ flavor ++
          km_circuit_digest value ++ encode_u32 (km_k value) ++ encode_u32 (km_aggregation_arity value) ++
          put_identity (km_key_identity_digest value))
    end in
  if MAX_METADATA_BYTES <? Z.of_nat (length output) then Err InvalidMetadata else Ok output.

(** [Cursor] holds the bytes from its offset on. *)
Notation Cursor := (Get StoreError).
Definition cursor_take : nat → Cursor bytes := take_bytes MetadataMismatch.
Definition cursor_byte : Cursor Z := let% b := cursor_take 1 in get_ret (PoseidonBoundary.from_le_bytes b).
Definition cursor_u32 : Cursor Z := take_u32 MetadataMismatch.
Definition cursor_u64 : Cursor Z := take_u64 MetadataMismatch.
Definition cursor_digest : Cursor Digest32 := cursor_take 32.
Definition cursor_string : Cursor string :=
  let% len := cursor_u32 in
  let% b := cursor_take (Z.to_nat len) in
  if negb (valid_utf8 b) then get_err MetadataMismatch else
  let value := String.string_of_list_ascii b in
  let% _ := get_lift (map_err (λ _, MetadataMismatch) (validate_identifier value)) in
  get_ret value.
(** The match on the presence byte. *)
Definition cursor_identity : Cursor (option Digest32) :=
  let% tag := cursor_byte in
  if tag =? 0 then get_ret None
  else if tag =? 1 then let% digest := cursor_digest in get_ret (Some digest)
  else get_err MetadataMismatch.

Definition cursor_metadata : Cursor ObjectMetadata :=
  let% tag := cursor_byte in
  let% content_digest := cursor_digest in
  let% size := cursor_u64 in
  if tag =? 1 then
    let% artifact_id := cursor_string in
    let% identity_digest := cursor_identity in
    let% metadata := get_lift (match identity_digest with
      | Some identity => artifact_metadata_new_proof artifact_id content_digest size identity
      | None => artifact_metadata_new artifact_id content_digest size
      end) in
    get_ret (Artifact metadata)
  else if tag =? 2 then
    let% srs_source_digest := cursor_digest in
    let% text := cursor_string in
    let% proof_flavor := get_lift (map_err (λ _, MetadataMismatch) (ascii_identifier_parse text)) in
    let% circuit_digest := cursor_digest in
    let% k := cursor_u32 in
    let% aggregation_arity := cursor_u32 in
    let% metadata := get_lift (key_metadata_new content_digest size srs_source_digest proof_flavor circuit_digest k aggregation_arity) in
    let% identity := cursor_identity in
    get_ret (Key (set_key_identity metadata identity))
  else get_err MetadataMismatch.
Definition decode_metadata (b : bytes) : Result ObjectMetadata StoreError :=
  let? '(result, remaining) := cursor_metadata b in
  if negb (bool_decide (remaining = [])) then Err MetadataMismatch else Ok result.

(** ** Identities *)

Definition role_as_str (self : ArtifactRole) : string :=
  match self with
  | ArWitness => "witness"
  | ArPreparedMaterial => "prepared-material"
  | ArLeafProof => "leaf-proof"
  | ArNativeVerifiedManifest => "native-verified-manifest"
  end.
Definition role_tag (self : ArtifactRole) : Z :=
  match self with ArWitness => 1 | ArPreparedMaterial => 2 | ArLeafProof => 3 | ArNativeVerifiedManifest => 4 end.

Definition arity_encode (self : AggregationArity) : Result bytes StoreError :=
  match self with
  | NotApplicable => Ok [byte_of_Z 0]
  | Actual arity => if 2 <=? arity then Ok (byte_of_Z 1 :: encode_u32 arity) else Err InvalidMetadata
  end.
Definition audit_value (self : AggregationArity) : Z * option Z :=
  match self with NotApplicable => (0, None) | Actual value => (1, Some value) end.

Inductive KeyRole := ProvingAndVerifyingKey.
Definition key_role_as_str (self : KeyRole) : string := match self with ProvingAndVerifyingKey => "proving-and-verifying-key" end.
Definition key_role_tag (self : KeyRole) : Z := match self with ProvingAndVerifyingKey => 1 end.

Record TrustedKeyIdentity := mkKeyIdentity {
  ti_role : KeyRole;
  ti_job_kind : JobKind;
  ti_run_id : string;
  ti_job : JobId;
  ti_attempt : AttemptId;
  ti_metadata : KeyMetadata
}.

Definition key_canonical_bytes (self : TrustedKeyIdentity) : Result bytes StoreError :=
  let m := ti_metadata self in
  let? kind := write_string (kind_as_str (ti_job_kind self)) in
  let? run_id := write_string (ti_run_id self) in
  let? job := write_string (ti_job self) in
  let? attempt := write_string (ti_attempt self) in
  let? flavor := write_string (km_proof_flavor m) in
  Ok (KEY_IDENTITY_DOMAIN ++ [byte_of_Z (key_role_tag (ti_role self))] ++ kind ++ run_id ++ job ++ attempt ++
    km_content_digest m ++ encode_u64 (km_size m) ++ km_srs_source_digest m ++ flavor ++ km_circuit_digest m ++
    encode_u32 (km_k m) ++ encode_u32 (km_aggregation_arity m)).

Definition key_identity_new (role : KeyRole) (job_kind : JobKind) (run_id : string) (job : JobId) (attempt : AttemptId)
    (metadata : KeyMetadata) : Result TrustedKeyIdentity StoreError :=
  let? _ := validate_identifier run_id in
  if negb (bool_decide (job_kind = Prepare)) then Err InvalidMetadata else
  let identity := mkKeyIdentity role job_kind run_id job attempt metadata in
  let? _ := key_canonical_bytes identity in
  Ok identity.

Record TrustedProofIdentity := mkProofIdentity {
  tp_artifact_role : ArtifactRole;
  tp_job_kind : JobKind;
  tp_k : Z;
  tp_aggregation_arity : AggregationArity;
  tp_run_id : string;
  tp_job : JobId;
  tp_attempt : AttemptId;
  tp_proof_content_digest : Digest32;
  tp_artifact_manifest_digest : Digest32;
  tp_run_identity_digest : Digest32;
  tp_public_statement_digest : Digest32;
  tp_circuit_digest : Digest32;
  tp_verifying_key_digest : Digest32;
  tp_srs_source_digest : Digest32;
  tp_shard_identity_digest : Digest32;
  tp_witness_artifact_digest : Digest32;
  tp_proof_flavor : ProofFlavorId;
  tp_execution_backend : ExecutionBackendId
}.

(** The nine digests, in the order they are written. *)
Definition tp_digests (self : TrustedProofIdentity) : list Digest32 :=
  [tp_proof_content_digest self; tp_artifact_manifest_digest self; tp_run_identity_digest self; tp_public_statement_digest self;
   tp_circuit_digest self; tp_verifying_key_digest self; tp_srs_source_digest self; tp_shard_identity_digest self;
   tp_witness_artifact_digest self].

Definition proof_canonical_bytes (self : TrustedProofIdentity) : Result bytes StoreError :=
  let? kind := write_string (kind_as_str (tp_job_kind self)) in
  let? arity := arity_encode (tp_aggregation_arity self) in
  let? run_id := write_string (tp_run_id self) in
  let? job := write_string (tp_job self) in
  let? attempt := write_string (tp_attempt self) in
  let? flavor := write_string (tp_proof_flavor self) in
  let? backend := write_string (tp_execution_backend self) in
  Ok (PROOF_IDENTITY_DOMAIN ++ [byte_of_Z (role_tag (tp_artifact_role self))] ++ kind ++ encode_u32 (tp_k self) ++ arity ++
    run_id ++ job ++ attempt ++ mjoin (tp_digests self) ++ flavor ++ backend).

(** The combinations of [matches!]. *)
Definition role_fits (role : ArtifactRole) (kind : JobKind) (arity : AggregationArity) : bool :=
  match role, kind, arity with
  | ArWitness, Witness, NotApplicable
  | ArPreparedMaterial, Prepare, NotApplicable
  | ArLeafProof, LeafProof, NotApplicable
  | ArNativeVerifiedManifest, NativeAggregate, Actual _ => true
  | _, _, _ => false
  end.

(** [TrustedProofIdentity::new], from the fields of the identity. *)
Definition proof_identity_new (identity : TrustedProofIdentity) : Result TrustedProofIdentity StoreError :=
  let? _ := validate_identifier (tp_proof_flavor identity) in
  let? _ := validate_identifier (tp_execution_backend identity) in
  let? _ := validate_identifier (tp_run_id identity) in
  if negb (role_fits (tp_artifact_role identity) (tp_job_kind identity) (tp_aggregation_arity identity)) then Err InvalidMetadata else
  let? _ := proof_canonical_bytes identity in
  Ok identity.

(** ** Digests *)

Section Digests.
Context `{Blake3}.

(** [digest]: [None] is the panic of [expect]. *)
Definition key_digest (self : TrustedKeyIdentity) : option Digest32 :=
  match key_canonical_bytes self with Ok b => Some (blake3 b) | Err _ => None end.
Definition proof_digest (self : TrustedProofIdentity) : option Digest32 :=
  match proof_canonical_bytes self with Ok b => Some (blake3 b) | Err _ => None end.

Definition attestation_preimage (domain : bytes) (identity_digest object_digest : Digest32) (run_id : string) (job : JobId)
    (attempt : AttemptId) : bytes :=
  domain ++ identity_digest ++ object_digest ++ hash_string run_id ++ hash_string job ++ hash_string attempt.
Definition attestation_digest (domain : bytes) (identity_digest object_digest : Digest32) (run_id : string) (job : JobId)
    (attempt : AttemptId) : Digest32 := blake3 (attestation_preimage domain identity_digest object_digest run_id job attempt).
Definition proof_attestation_digest := attestation_digest PROOF_ATTESTATION_DOMAIN.
Definition key_attestation_digest := attestation_digest KEY_ATTESTATION_DOMAIN.

(** The methods of the identities. *)
Definition key_attestation (self : TrustedKeyIdentity) (object_digest : Digest32) : option Digest32 :=
  digest ← key_digest self; Some (key_attestation_digest digest object_digest (ti_run_id self) (ti_job self) (ti_attempt self)).
Definition proof_attestation (self : TrustedProofIdentity) (object_digest : Digest32) : option Digest32 :=
  digest ← proof_digest self; Some (proof_attestation_digest digest object_digest (tp_run_id self) (tp_job self) (tp_attempt self)).

(** What the hasher of an object has been given. *)
Definition object_digest (raw_metadata payload : bytes) : Digest32 := blake3 (DIGEST_DOMAIN ++ raw_metadata ++ payload).

(** The match of [VerifiedArtifact::attest] on the metadata of the published object. *)
Definition proof_matches (identity : TrustedProofIdentity) (metadata : ObjectMetadata) : option bool :=
  match metadata with
  | Artifact metadata =>
      if bool_decide (am_content_digest metadata = tp_proof_content_digest identity)
      then digest ← proof_digest identity; Some (bool_decide (am_proof_identity_digest metadata = Some digest))
      else Some false
  | Key _ => Some false
  end.
Definition key_matches (identity : TrustedKeyIdentity) (metadata : ObjectMetadata) : option bool :=
  match metadata with
  | Key metadata =>
      let m := ti_metadata identity in
      if bool_decide (km_content_digest metadata = km_content_digest m) && (km_size metadata =? km_size m)
         && bool_decide (km_srs_source_digest metadata = km_srs_source_digest m)
         && bool_decide (km_proof_flavor metadata = km_proof_flavor m)
         && bool_decide (km_circuit_digest metadata = km_circuit_digest m)
         && (km_k metadata =? km_k m) && (km_aggregation_arity metadata =? km_aggregation_arity m)
      then digest ← key_digest identity; Some (bool_decide (km_key_identity_digest metadata = Some digest))
      else Some false
  | Artifact _ => Some false
  end.
End Digests.

(** ** Names *)

(** [random_name], from the random bytes. *)
Definition name_of (prefix suffix : string) (random : bytes) : string :=
  prefix +:+ String.string_of_list_ascii (mjoin (hex_of_byte <$> random)) +:+ suffix.

Fixpoint strip_prefix (prefix value : string) : option string :=
  match prefix, value with
  | "", _ => Some value
  | String c prefix, String d value => if Ascii.eqb c d then strip_prefix prefix value else None
  | String _ _, "" => None
  end.
Definition reverse (s : string) : string := String.string_of_list_ascii (reverse (String.list_ascii_of_string s)).
Definition strip_suffix (suffix value : string) : option string := reverse <$> strip_prefix (reverse suffix) (reverse value).

Definition is_stage_name (name : string) : bool :=
  match strip_prefix STAGE_PREFIX name ≫= strip_suffix STAGE_SUFFIX with
  | Some value =>
      (String.length value =? 64)%nat &&
      string_forallb (λ byte, let b := Z_of_byte byte in ((48 <=? b) && (b <=? 57)) || ((97 <=? b) && (b <=? 102))) value
  | None => false
  end.

End Store.

(** ** Stored objects: proofs

    Metadata read back what was written, and only that.  Identities and attestations
    are determined by the bytes that are hashed. *)
Import Store.

Open Scope Z_scope.

#[local] Notation Codec := (Codec (E := StoreError) (F := StoreError)).

(** ** Fields *)

Definition identifier (s : string) : Prop := validate_identifier s = Ok tt.

Lemma identifier_spec s : identifier s ↔ s ≠ "" ∧ Z.of_nat (String.length s) ≤ 256 ∧ is_ascii s = true ∧
  string_forallb (λ c, negb (is_control c)) s = true.
Proof.
  unfold identifier, validate_identifier. destruct (_ || _) eqn:E.
  - split; [done|]. intros (H1 & H2 & H3 & H4). exfalso. rewrite H3, H4 in E. cbn [negb] in E. rewrite !orb_false_r, orb_true_iff in E.
    destruct E as [E%String.eqb_eq|E%Z.ltb_lt]; [done|lia].
  - split; [intros _|done]. rewrite !orb_false_iff in E. destruct E as [[[E1%String.eqb_neq E2%Z.ltb_ge] E3%negb_false_iff] E4%negb_false_iff]. done.
Qed.

Lemma validate_identifier_Ok s u : validate_identifier s = Ok u ↔ identifier s.
Proof. destruct u. done. Qed.

Lemma write_string_Ok s b : write_string s = Ok b ↔ identifier s ∧ b = encode_u32 (Z.of_nat (String.length s)) ++ as_bytes s.
Proof.
  unfold write_string. rewrite result_bind_Ok. split.
  - intros ([] & Hs & (n & Hn%ok_or_Ok%try_u32_Some & <-%Ok_inj)%result_bind_Ok). destruct Hn as [<- _]. done.
  - intros [Hs ->]. exists tt. split; [done|]. apply identifier_spec in Hs as (_ & Hl & _). apply result_bind_Ok.
    exists (Z.of_nat (String.length s)). rewrite ok_or_Ok, try_u32_Some. split_and!; [done|zlia|done].
Qed.

#[export] Instance cursor_string_codec : Codec identifier write_string cursor_string.
Proof.
  pose proof (take_u32_codec (F := StoreError) MetadataMismatch : Codec in_u32 (λ z, Ok (encode_u32 z)) cursor_u32) as Hu32. split.
  - intros s b r Hs [_ ->]%write_string_Ok. pose proof (proj1 (identifier_spec s) Hs) as (_ & Hl & Ha & _). rewrite <-app_assoc.
    apply (get_step in_u32 (λ z, Ok (encode_u32 z)) cursor_u32 _ (Z.of_nat (String.length s))); [zlia|done|].
    apply get_bind_Ok. exists (as_bytes s), r. rewrite Nat2Z.id. unfold cursor_take. rewrite take_bytes_Ok, length_as_bytes. split; [done|].
    rewrite (ascii_utf8 _ Ha). cbn [negb]. unfold as_bytes. rewrite String.string_of_list_ascii_of_string. cbv zeta.
    apply get_bind_Ok. exists tt, r. rewrite get_lift_Ok, map_err_Ok, get_ret_Ok. done.
  - intros t s r (len & ? & t' & Hz & <-%Ok_inj & -> & H)%(get_field in_u32 (λ z, Ok (encode_u32 z)) cursor_u32).
    apply get_bind_Ok in H as (b & r' & [Hl ->]%take_bytes_Ok & H). destruct (negb (valid_utf8 b)); [done|]. cbv zeta in H.
    apply get_bind_Ok in H as ([] & r'' & [Hs%map_err_Ok ->]%get_lift_Ok & [<- <-]%get_ret_Ok). split; [done|].
    assert (as_bytes (String.string_of_list_ascii b) = b) as Eb by apply String.list_ascii_of_string_of_list_ascii.
    eexists. split; [by apply write_string_Ok|].
    rewrite <-app_assoc, Eb, <-length_as_bytes, Eb, Hl, Z2Nat.id by zlia. done.
Qed.

#[export] Instance cursor_digest_codec : Codec digest_ok Ok cursor_digest := take_digest_codec MetadataMismatch.
#[export] Instance cursor_u32_codec : Codec in_u32 (λ z, Ok (encode_u32 z)) cursor_u32 := take_u32_codec MetadataMismatch.
#[export] Instance cursor_u64_codec : Codec in_u64 (λ z, Ok (encode_u64 z)) cursor_u64 := take_u64_codec MetadataMismatch.

#[export] Instance cursor_byte_codec : Codec (λ z, 0 ≤ z < 256) (λ z, Ok [byte_of_Z z]) cursor_byte.
Proof.
  split.
  - intros z b r Hz <-%Ok_inj. apply get_bind_Ok. exists [byte_of_Z z], r. unfold cursor_take. rewrite take_bytes_Ok, get_ret_Ok. split_and!; [done..| |done].
    cbn [PoseidonBoundary.from_le_bytes]. rewrite Z_of_byte_of_Z, Z.mod_small; lia.
  - intros s z r (b & s' & [Hl ->]%take_bytes_Ok & [<- <-]%get_ret_Ok)%get_bind_Ok. destruct b as [|c [|]]; [done| |done].
    cbn [PoseidonBoundary.from_le_bytes]. pose proof (Z_of_byte_range c). split; [lia|]. exists [c].
    rewrite Z.mul_0_r, Z.add_0_r, byte_of_Z_of_byte. done.
Qed.

#[export] Instance cursor_identity_codec : Codec (option_ok digest_ok) (λ o, Ok (put_identity o)) cursor_identity.
Proof.
  split.
  - intros o b r Ho <-%Ok_inj. unfold cursor_identity. destruct o as [d|]; cbn [put_identity].
    + apply (get_step (λ z, 0 ≤ z < 256) (λ z, Ok [byte_of_Z z]) cursor_byte _ 1 [byte_of_Z 1] (d ++ r)); [lia|done|]. cbn [Z.eqb Pos.eqb].
      apply (get_step digest_ok Ok cursor_digest _ d d r); [done..|]. by apply get_ret_Ok.
    + apply (get_step (λ z, 0 ≤ z < 256) (λ z, Ok [byte_of_Z z]) cursor_byte _ 0 [byte_of_Z 0] r); [lia|done|]. by apply get_ret_Ok.
  - intros s o r (tag & ? & s' & Ht & <-%Ok_inj & -> & H)%(get_field _ _ _).
    destruct (Z.eqb_spec tag 0) as [->|]; [apply get_ret_Ok in H as [<- <-]; split; [done|by eexists]|].
    destruct (Z.eqb_spec tag 1) as [->|]; [|done]. apply (get_field digest_ok Ok cursor_digest) in H as (d & ? & s'' & Hd & <-%Ok_inj & -> & H).
    apply get_ret_Ok in H as [<- <-]. split; [done|]. by eexists.
Qed.

(** ** Metadata *)

Definition artifact_ok (m : ArtifactMetadata) : Prop :=
  identifier (am_artifact_id m) ∧ digest_ok (am_content_digest m) ∧ in_u64 (am_size m) ∧ option_ok digest_ok (am_proof_identity_digest m).
Definition key_ok (m : KeyMetadata) : Prop :=
  identifier (km_proof_flavor m) ∧ digest_ok (km_content_digest m) ∧ in_u64 (km_size m) ∧ digest_ok (km_srs_source_digest m) ∧
  digest_ok (km_circuit_digest m) ∧ in_u32 (km_k m) ∧ in_u32 (km_aggregation_arity m) ∧ km_aggregation_arity m ≠ 0 ∧
  option_ok digest_ok (km_key_identity_digest m).
(** The metadata that the constructors make. *)
Definition metadata_ok (m : ObjectMetadata) : Prop := match m with Artifact m => artifact_ok m | Key m => key_ok m end.

Definition artifact_bytes (m : ArtifactMetadata) : bytes :=
  [byte_of_Z 1] ++ am_content_digest m ++ encode_u64 (am_size m) ++
  (encode_u32 (Z.of_nat (String.length (am_artifact_id m))) ++ as_bytes (am_artifact_id m)) ++ put_identity (am_proof_identity_digest m).
Definition key_bytes (m : KeyMetadata) : bytes :=
  [byte_of_Z 2] ++ km_content_digest m ++ encode_u64 (km_size m) ++ km_srs_source_digest m ++
  (encode_u32 (Z.of_nat (String.length (km_proof_flavor m))) ++ as_bytes (km_proof_flavor m)) ++ km_circuit_digest m ++
  encode_u32 (km_k m) ++ encode_u32 (km_aggregation_arity m) ++ put_identity (km_key_identity_digest m).
(** The bytes of metadata, for those that are encodable. *)
Definition metadata_bytes (m : ObjectMetadata) : bytes := match m with Artifact m => artifact_bytes m | Key m => key_bytes m end.

Lemma length_put_identity o : option_ok digest_ok o → (length (put_identity o) ≤ 33)%nat.
Proof. destruct o as [d|]; cbn [option_ok put_identity length]; [unfold digest_ok; lia|lia]. Qed.

Lemma metadata_bytes_length m : metadata_ok m → Z.of_nat (length (metadata_bytes m)) ≤ 512.
Proof.
  destruct m as [m|m]; cbn [metadata_ok metadata_bytes].
  - intros (Hi & Hd & _ & Ho). apply identifier_spec in Hi as (_ & Hl & _). apply length_put_identity in Ho.
    unfold artifact_bytes, encode_u64, encode_u32. rewrite !length_app, !length_to_le_bytes, length_as_bytes, Hd. cbn [length]. lia.
  - intros (Hi & H1 & _ & H2 & H3 & _ & _ & _ & Ho). apply identifier_spec in Hi as (_ & Hl & _). apply length_put_identity in Ho.
    unfold key_bytes, encode_u64, encode_u32. rewrite !length_app, !length_to_le_bytes, length_as_bytes, H1, H2, H3. cbn [length]. lia.
Qed.

Lemma encode_metadata_Ok m b : metadata_ok m → encode_metadata m = Ok b ↔ b = metadata_bytes m.
Proof.
  intros Hm. pose proof (metadata_bytes_length m Hm) as Hl. unfold encode_metadata.
  assert (match m with
    | Artifact value => let? id := write_string (am_artifact_id value) in
        Ok ([byte_of_Z 1] ++ am_content_digest value ++ encode_u64 (am_size value) ++ id ++ put_identity (am_proof_identity_digest value))
    | Key value => let? flavor := write_string (km_proof_flavor value) in
        Ok ([byte_of_Z 2] ++ km_content_digest value ++ encode_u64 (km_size value) ++ km_srs_source_digest value ++ flavor ++
          km_circuit_digest value ++ encode_u32 (km_k value) ++ encode_u32 (km_aggregation_arity value) ++
          put_identity (km_key_identity_digest value)) end = Ok (metadata_bytes m)) as ->.
  { destruct m as [m|m]; destruct Hm as [Hi _]; by rewrite (proj2 (write_string_Ok _ _) (conj Hi eq_refl)). }
  cbn [result_bind]. change MAX_METADATA_BYTES with 4096. destruct (Z.ltb_spec 4096 (Z.of_nat (length (metadata_bytes m)))); [lia|].
  split; [by intros <-%Ok_inj|by intros ->].
Qed.

Lemma artifact_new_Ok id d n o m :
  match o with Some identity => artifact_metadata_new_proof id d n identity | None => artifact_metadata_new id d n end = Ok m ↔
  identifier id ∧ m = mkArtifactMetadata id d n o.
Proof.
  unfold artifact_metadata_new_proof, artifact_metadata_new. destruct o as [i|]; rewrite ?result_bind_Ok.
  - split.
    + intros (? & ([] & Hi & <-%Ok_inj)%result_bind_Ok & <-%Ok_inj). done.
    + intros [Hi ->]. eexists. rewrite result_bind_Ok. split; [by exists tt|done].
  - split; [intros ([] & Hi & <-%Ok_inj); done|intros [Hi ->]; by exists tt].
Qed.
Lemma key_metadata_new_Ok c n s f d k a m :
  key_metadata_new c n s f d k a = Ok m ↔ identifier f ∧ a ≠ 0 ∧ m = mkKeyMetadata c n s f d k a None.
Proof.
  unfold key_metadata_new. rewrite result_bind_Ok. destruct (Z.eqb_spec a 0).
  - split; [by intros (_ & _ & ?)|naive_solver].
  - split; [intros ([] & Hi & <-%Ok_inj); done|intros (Hi & _ & ->); by exists tt].
Qed.
Lemma parse_identifier s t : identifier s → ascii_identifier_parse s = Ok t ↔ t = s.
Proof.
  intros (Hne & _ & Ha & _)%identifier_spec. unfold ascii_identifier_parse. destruct (String.eqb_spec s ""); [done|]. rewrite Ha. cbn [negb].
  split; [by intros <-%Ok_inj|by intros ->].
Qed.

Lemma cursor_metadata_put m r : metadata_ok m → cursor_metadata (metadata_bytes m ++ r) = Ok (m, r).
Proof.
  intros Hm. unfold cursor_metadata. destruct m as [m|m]; cbn [metadata_bytes metadata_ok] in *; unfold artifact_bytes, key_bytes; rewrite <-!app_assoc.
  - destruct m as [id d n o], Hm as (Hi & Hd & Hn & Ho). cbn [am_artifact_id am_content_digest am_size am_proof_identity_digest] in *.
    apply (get_step (λ z, 0 ≤ z < 256) (λ z, Ok [byte_of_Z z]) cursor_byte _ 1 [byte_of_Z 1]); [lia|done|].
    apply (get_step _ _ _ _ _ _ _ _ Hd eq_refl), (get_step _ _ _ _ _ _ _ _ Hn eq_refl). cbn [Z.eqb Pos.eqb]. rewrite app_assoc.
    apply (get_step identifier write_string cursor_string _ id); [done|by apply write_string_Ok|].
    apply (get_step (option_ok digest_ok) (λ o, Ok (put_identity o)) cursor_identity _ o); [done..|].
    eapply get_bind_eq; [apply get_lift_Ok; split; [by apply artifact_new_Ok|done]|]. by apply get_ret_Ok.
  - destruct m as [c n s f d k a o], Hm as (Hi & Hc & Hn & Hs & Hd & Hk & Ha & Hne & Ho).
    cbn [km_content_digest km_size km_srs_source_digest km_proof_flavor km_circuit_digest km_k km_aggregation_arity km_key_identity_digest] in *.
    apply (get_step (λ z, 0 ≤ z < 256) (λ z, Ok [byte_of_Z z]) cursor_byte _ 2 [byte_of_Z 2]); [lia|done|].
    apply (get_step _ _ _ _ _ _ _ _ Hc eq_refl), (get_step _ _ _ _ _ _ _ _ Hn eq_refl). cbn [Z.eqb Pos.eqb].
    apply (get_step _ _ _ _ _ _ _ _ Hs eq_refl). rewrite app_assoc.
    apply (get_step identifier write_string cursor_string _ f); [done|by apply write_string_Ok|].
    eapply get_bind_eq; [apply get_lift_Ok; split; [by apply map_err_Ok, parse_identifier|done]|].
    apply (get_step _ _ _ _ _ _ _ _ Hd eq_refl), (get_step _ _ _ _ _ _ _ _ Hk eq_refl), (get_step _ _ _ _ _ _ _ _ Ha eq_refl).
    eapply get_bind_eq; [apply get_lift_Ok; split; [by apply key_metadata_new_Ok|done]|].
    apply (get_step (option_ok digest_ok) (λ o, Ok (put_identity o)) cursor_identity _ o); [done..|]. by apply get_ret_Ok.
Qed.

Lemma cursor_metadata_get b m r : cursor_metadata b = Ok (m, r) → metadata_ok m ∧ b = metadata_bytes m ++ r.
Proof.
  unfold cursor_metadata. intros H.
  apply (get_field (λ z, 0 ≤ z < 256) (λ z, Ok [byte_of_Z z]) cursor_byte) in H as (tag & ? & s1 & _ & <-%Ok_inj & -> & H).
  apply (get_field digest_ok Ok cursor_digest) in H as (d & ? & s2 & Hd & <-%Ok_inj & -> & H).
  apply (get_field _ _ cursor_u64) in H as (n & ? & s3 & Hn & <-%Ok_inj & -> & H).
  destruct (Z.eqb_spec tag 1) as [->|]; [|destruct (Z.eqb_spec tag 2) as [->|]; [|done]].
  - apply (get_field identifier write_string cursor_string) in H as (id & ? & s4 & Hi & [_ ->]%write_string_Ok & -> & H).
    apply (get_field (option_ok digest_ok) (λ o, Ok (put_identity o)) cursor_identity) in H as (o & ? & s5 & Ho & <-%Ok_inj & -> & H).
    apply get_bind_Ok in H as (a & s6 & [Ha <-]%get_lift_Ok & [<- <-]%get_ret_Ok). apply (artifact_new_Ok id d n o) in Ha as [_ ->].
    split; [done|]. unfold metadata_bytes, artifact_bytes. cbn [am_artifact_id am_content_digest am_size am_proof_identity_digest].
    by rewrite <-!app_assoc.
  - apply (get_field digest_ok Ok cursor_digest) in H as (s & ? & s4 & Hs & <-%Ok_inj & -> & H).
    apply (get_field identifier write_string cursor_string) in H as (text & ? & s5 & Hi & [_ ->]%write_string_Ok & -> & H).
    apply get_bind_Ok in H as (f & s6 & [Hf%map_err_Ok <-]%get_lift_Ok & H). apply (parse_identifier text f Hi) in Hf as ->.
    apply (get_field digest_ok Ok cursor_digest) in H as (c & ? & s7 & Hc & <-%Ok_inj & -> & H).
    apply (get_field _ _ cursor_u32) in H as (k & ? & s8 & Hk & <-%Ok_inj & -> & H).
    apply (get_field _ _ cursor_u32) in H as (a & ? & s9 & Ha & <-%Ok_inj & -> & H).
    apply get_bind_Ok in H as (m' & s10 & [Hm <-]%get_lift_Ok & H). apply key_metadata_new_Ok in Hm as (_ & Hne & ->).
    apply (get_field (option_ok digest_ok) (λ o, Ok (put_identity o)) cursor_identity) in H as (o & ? & s11 & Ho & <-%Ok_inj & -> & H).
    apply get_ret_Ok in H as [<- <-]. split; [done|]. unfold metadata_bytes, key_bytes, set_key_identity.
    cbn [km_content_digest km_size km_srs_source_digest km_proof_flavor km_circuit_digest km_k km_aggregation_arity km_key_identity_digest].
    by rewrite <-!app_assoc.
Qed.

#[export] Instance metadata_prefix_free : PrefixFree metadata_ok metadata_bytes.
Proof.
  intros a b r s Ha Hb E. apply (cursor_metadata_put a r) in Ha. apply (cursor_metadata_put b s) in Hb. rewrite E, Hb in Ha.
  by apply Ok_inj in Ha as [= -> ->].
Qed.

(** Metadata are canonical: bytes decode exactly to the metadata that encode to
    them. *)
Lemma metadata_codec b m : decode_metadata b = Ok m ↔ metadata_ok m ∧ encode_metadata m = Ok b.
Proof.
  unfold decode_metadata. rewrite result_bind_Ok. split.
  - intros ([result remaining] & [Hm ->]%cursor_metadata_get & Hr). cbv beta iota in Hr.
    destruct (bool_decide_reflect (remaining = [])) as [->|]; [|done]. apply Ok_inj in Hr as <-. split; [done|].
    rewrite app_nil_r. by apply encode_metadata_Ok.
  - intros [Hm ->%encode_metadata_Ok]; [|done]. exists (m, []). split; [|done].
    rewrite <-(app_nil_r (metadata_bytes m)). by apply cursor_metadata_put.
Qed.

(** ** Identities *)

#[export] Instance written_string_prefix_free :
  PrefixFree identifier (λ s, encode_u32 (Z.of_nat (String.length s)) ++ as_bytes s).
Proof.
  intros a b r s Ha Hb He. apply identifier_spec in Ha as (_ & Ha & _). apply identifier_spec in Hb as (_ & Hb & _).
  rewrite <-!app_assoc in He. apply (prefix_free (enc := encode_u32)) in He as [Hl He]; [|zlia..].
  apply app_inj_1 in He as [He ->]; [|rewrite !length_as_bytes; lia]. split; [by apply as_bytes_inj|done].
Qed.
(** The bytes that [write_string] appends. *)
Definition written (s : string) : bytes := encode_u32 (Z.of_nat (String.length s)) ++ as_bytes s.
#[export] Instance written_prefix_free : PrefixFree identifier written := written_string_prefix_free.
#[export] Instance single_byte_prefix_free : PrefixFree (λ z, 0 ≤ z < 256) (λ z, [byte_of_Z z]).
Proof.
  apply (prefix_free_fixed _ _ 1); [done|]. intros a b Ha Hb E. injection E as E. apply (f_equal Z_of_byte) in E.
  rewrite !Z_of_byte_of_Z, !Z.mod_small in E; lia.
Qed.

Lemma kind_identifier k : identifier (kind_as_str k).
Proof. by destruct k. Qed.
Lemma kind_as_str_inj k k' : kind_as_str k = kind_as_str k' → k = k'.
Proof. by destruct k, k'. Qed.

Definition arity_ok (a : AggregationArity) : Prop := match a with NotApplicable => True | Actual n => 2 ≤ n ∧ in_u32 n end.
Definition arity_bytes (a : AggregationArity) : bytes :=
  match a with NotApplicable => [byte_of_Z 0] | Actual n => byte_of_Z 1 :: encode_u32 n end.
#[export] Instance arity_prefix_free : PrefixFree arity_ok arity_bytes.
Proof.
  intros [|n] [|m] r s Ha Hb He; cbn [arity_bytes app] in He.
  - by injection He as ->.
  - discriminate He.
  - discriminate He.
  - apply (app_inj_1 [_] [_]) in He as [_ He]; [|done]. destruct Ha, Hb. by apply (prefix_free (enc := encode_u32)) in He as [-> ->].
Qed.

(** The identities that the constructor makes from values of the code's types. *)
Definition proof_identity_ok (p : TrustedProofIdentity) : Prop :=
  Forall digest_ok (tp_digests p) ∧ in_u32 (tp_k p) ∧ (∀ n, tp_aggregation_arity p = Actual n → in_u32 n).
Definition key_identity_ok (p : TrustedKeyIdentity) : Prop := key_ok (ti_metadata p).

Definition proof_layout (p : TrustedProofIdentity) : bytes :=
  PROOF_IDENTITY_DOMAIN ++ [byte_of_Z (role_tag (tp_artifact_role p))] ++ written (kind_as_str (tp_job_kind p)) ++ encode_u32 (tp_k p) ++
  arity_bytes (tp_aggregation_arity p) ++ written (tp_run_id p) ++ written (tp_job p) ++ written (tp_attempt p) ++
  mjoin (tp_digests p) ++ written (tp_proof_flavor p) ++ written (tp_execution_backend p).
Definition key_layout (p : TrustedKeyIdentity) : bytes :=
  let m := ti_metadata p in
  KEY_IDENTITY_DOMAIN ++ [byte_of_Z (key_role_tag (ti_role p))] ++ written (kind_as_str (ti_job_kind p)) ++ written (ti_run_id p) ++
  written (ti_job p) ++ written (ti_attempt p) ++ km_content_digest m ++ encode_u64 (km_size m) ++ km_srs_source_digest m ++
  written (km_proof_flavor m) ++ km_circuit_digest m ++ encode_u32 (km_k m) ++ encode_u32 (km_aggregation_arity m).

Lemma arity_encode_Ok a b : arity_encode a = Ok b ↔ b = arity_bytes a ∧ match a with NotApplicable => True | Actual n => 2 ≤ n end.
Proof.
  destruct a as [|n]; simpl; [split; [by intros <-%Ok_inj|by intros [-> _]]|]. destruct (Z.leb_spec 2 n).
  - split; [by intros <-%Ok_inj|by intros [-> _]].
  - split; [done|]. intros [_ ?]. lia.
Qed.

Lemma proof_canonical_Ok p b : proof_canonical_bytes p = Ok b →
  b = proof_layout p ∧ Forall identifier [tp_run_id p; tp_job p; tp_attempt p; tp_proof_flavor p; tp_execution_backend p] ∧
  match tp_aggregation_arity p with NotApplicable => True | Actual n => 2 ≤ n end.
Proof.
  unfold proof_canonical_bytes. intros Hw. apply result_bind_Ok in Hw as (kind & [_ ->]%write_string_Ok & Hw).
  apply result_bind_Ok in Hw as (ar & [-> Har]%arity_encode_Ok & Hw). do 5 (apply result_bind_Ok in Hw as (? & [? ->]%write_string_Ok & Hw)).
  apply Ok_inj in Hw as <-. split; [done|]. split; [by repeat constructor|done].
Qed.
Lemma key_canonical_Ok p b : key_canonical_bytes p = Ok b →
  b = key_layout p ∧ Forall identifier [ti_run_id p; ti_job p; ti_attempt p].
Proof.
  unfold key_canonical_bytes. intros Hw. do 5 (apply result_bind_Ok in Hw as (? & [? ->]%write_string_Ok & Hw)).
  apply Ok_inj in Hw as <-. split; [done|]. by repeat constructor.
Qed.

Lemma role_tag_byte r : 0 ≤ role_tag r < 256.
Proof. destruct r; simpl; lia. Qed.
Lemma key_role_tag_byte r : 0 ≤ key_role_tag r < 256.
Proof. destruct r; simpl; lia. Qed.

Lemma proof_canonical_inj p q b :
  proof_identity_ok p → proof_identity_ok q → proof_canonical_bytes p = Ok b → proof_canonical_bytes q = Ok b → p = q.
Proof.
  intros (Hdp & Hkp & Hap) (Hdq & Hkq & Haq) (-> & Hip & Hap2)%proof_canonical_Ok (E & Hiq & Haq2)%proof_canonical_Ok.
  assert (arity_ok (tp_aggregation_arity p)) as Hp by (destruct (tp_aggregation_arity p); [done|split; [done|by apply Hap]]).
  assert (arity_ok (tp_aggregation_arity q)) as Hq by (destruct (tp_aggregation_arity q); [done|split; [done|by apply Haq]]).
  rewrite !Forall_cons in Hip, Hiq. destruct Hip as (? & ? & ? & ? & ? & _), Hiq as (? & ? & ? & ? & ? & _).
  unfold proof_layout in E. apply app_inv_head in E.
  apply (prefix_free (enc := λ z, [byte_of_Z z])) in E as [Er E]; [|apply role_tag_byte..].
  apply (prefix_free (enc := written)) in E as [Ek%kind_as_str_inj E]; [|apply kind_identifier..].
  apply (prefix_free (enc := encode_u32)) in E as [? E]; [|done..].
  apply (prefix_free (enc := arity_bytes)) in E as [? E]; [|done..].
  do 3 (apply (prefix_free (enc := written)) in E as [? E]; [|done..]).
  assert (tp_digests p = tp_digests q ∧ written (tp_proof_flavor p) ++ written (tp_execution_backend p) =
    written (tp_proof_flavor q) ++ written (tp_execution_backend q)) as [Ed E'].
  { apply (mjoin_prefix_free digest_ok id); [done..|]. by rewrite !list_fmap_id. }
  apply (prefix_free (enc := written)) in E' as [? E']; [|done..].
  apply (prefix_free_inj identifier written) in E'; [|done..].
  assert (tp_artifact_role p = tp_artifact_role q) by (by destruct (tp_artifact_role p), (tp_artifact_role q)).
  unfold tp_digests in Ed. injection Ed as. destruct p, q; simpl in *. by subst.
Qed.

(** The bytes of a key's identity leave out the digest that is made of them. *)
Lemma key_canonical_inj p q b :
  key_identity_ok p → key_identity_ok q → key_canonical_bytes p = Ok b → key_canonical_bytes q = Ok b →
  q = mkKeyIdentity (ti_role p) (ti_job_kind p) (ti_run_id p) (ti_job p) (ti_attempt p)
    (set_key_identity (ti_metadata p) (km_key_identity_digest (ti_metadata q))).
Proof.
  intros (Hfp & Hcp & Hsp & Hrp & Hdp & Hkp & Hap & _) (Hfq & Hcq & Hsq & Hrq & Hdq & Hkq & Haq & _) (-> & Hip)%key_canonical_Ok (E & Hiq)%key_canonical_Ok.
  rewrite !Forall_cons in Hip, Hiq. destruct Hip as (? & ? & ? & _), Hiq as (? & ? & ? & _).
  unfold key_layout in E. cbv zeta in E. apply app_inv_head in E.
  apply (prefix_free (enc := λ z, [byte_of_Z z])) in E as [Er E]; [|apply key_role_tag_byte..].
  apply (prefix_free (enc := written)) in E as [Ek%kind_as_str_inj E]; [|apply kind_identifier..].
  do 3 (apply (prefix_free (enc := written)) in E as [? E]; [|done..]).
  apply (prefix_free (enc := id)) in E as [? E]; [|done..].
  apply (prefix_free (enc := encode_u64)) in E as [? E]; [|done..].
  apply (prefix_free (enc := id)) in E as [? E]; [|done..].
  apply (prefix_free (enc := written)) in E as [? E]; [|done..].
  apply (prefix_free (enc := id)) in E as [? E]; [|done..].
  apply (prefix_free (enc := encode_u32)) in E as [? E]; [|done..].
  apply (prefix_free_inj in_u32 encode_u32) in E; [|done..].
  destruct p as [[] ? ? ? ? []], q as [[] ? ? ? ? []]. unfold set_key_identity. simpl in *. unfold id in *. by subst.
Qed.

(** ** Attestations *)

(** The identities of the two stores. *)
Definition TrustedIdentity : Type := TrustedProofIdentity + TrustedKeyIdentity.
Definition identity_ok (i : TrustedIdentity) : Prop := match i with inl p => proof_identity_ok p | inr k => key_identity_ok k end.
Definition canonical (i : TrustedIdentity) : Result bytes StoreError :=
  match i with inl p => proof_canonical_bytes p | inr k => key_canonical_bytes k end.
(** Equal, up to the digest that a key's metadata holds of the identity itself. *)
Definition same_identity (i j : TrustedIdentity) : Prop :=
  match i, j with
  | inl p, inl q => p = q
  | inr p, inr q => q = mkKeyIdentity (ti_role p) (ti_job_kind p) (ti_run_id p) (ti_job p) (ti_attempt p)
      (set_key_identity (ti_metadata p) (km_key_identity_digest (ti_metadata q)))
  | _, _ => False
  end.

Lemma canonical_inj i j b : identity_ok i → identity_ok j → canonical i = Ok b → canonical j = Ok b → same_identity i j.
Proof.
  destruct i as [p|p], j as [q|q]; cbn [identity_ok canonical same_identity]; intros Hi Hj Hb Hb'.
  - by eapply proof_canonical_inj.
  - apply proof_canonical_Ok in Hb as [-> _]. apply key_canonical_Ok in Hb' as [E _]. discriminate E.
  - apply key_canonical_Ok in Hb as [-> _]. apply proof_canonical_Ok in Hb' as [E _]. discriminate E.
  - by eapply key_canonical_inj.
Qed.

Section Attestations.
Context `{Blake3} (Hblake : ∀ b, digest_ok (blake3 b)).

Definition attestation (i : TrustedIdentity) (object : Digest32) : option Digest32 :=
  match i with inl p => proof_attestation p object | inr k => key_attestation k object end.
(** The bytes that are hashed into an attestation. *)
Definition attested (i : TrustedIdentity) (digest object : Digest32) : bytes :=
  match i with
  | inl p => attestation_preimage PROOF_ATTESTATION_DOMAIN digest object (tp_run_id p) (tp_job p) (tp_attempt p)
  | inr k => attestation_preimage KEY_ATTESTATION_DOMAIN digest object (ti_run_id k) (ti_job k) (ti_attempt k)
  end.

Lemma attestation_Some i object a :
  attestation i object = Some a ↔ ∃ b, canonical i = Ok b ∧ a = blake3 (attested i (blake3 b) object).
Proof.
  destruct i as [p|k]; cbn [attestation canonical attested]; unfold proof_attestation, key_attestation, proof_digest, key_digest.
  - destruct (proof_canonical_bytes p) as [b|]; cbn [mbind option_bind]; [|split; [done|by intros (? & ? & _)]].
    split; [intros [= <-]; by exists b|intros (b' & <-%Ok_inj & ->); done].
  - destruct (key_canonical_bytes k) as [b|]; cbn [mbind option_bind]; [|split; [done|by intros (? & ? & _)]].
    split; [intros [= <-]; by exists b|intros (b' & <-%Ok_inj & ->); done].
Qed.

Lemma attested_inj i j d e o o' :
  digest_ok d → digest_ok e → digest_ok o → digest_ok o' → attested i d o = attested j e o' → d = e ∧ o = o'.
Proof.
  intros Hd He Ho Ho' E. destruct i as [p|p], j as [q|q]; cbn [attested] in E; unfold attestation_preimage in E; try discriminate E;
    apply app_inv_head in E; apply (prefix_free (enc := id)) in E as [-> E]; try done;
    by apply (prefix_free (enc := id)) in E as [-> _].
Qed.

(** An object is its metadata and its payload. *)
Lemma object_preimage_inj m m' payload payload' :
  metadata_ok m → metadata_ok m' →
  DIGEST_DOMAIN ++ metadata_bytes m ++ payload = DIGEST_DOMAIN ++ metadata_bytes m' ++ payload' → m = m' ∧ payload = payload'.
Proof. intros Hm Hm' E%app_inv_head. by apply (prefix_free (enc := metadata_bytes)) in E. Qed.
End Attestations.
