(* ===== verification/StoreFs.v ===== *)
(** * Content stores

    crates/zkie-runtime/src/store.rs: the stores of objects on a file system.  A
    method is a tree of file-system calls: each node is one call, and goes on with
    its answer.  What other processes do happens between the calls.  Each call
    stands for the function of rustix or of the standard library that the code
    calls; [Effects] says what their documentation promises.

    Descriptors are numbers, and closing them is left out.  [None] is a loop that
    has used up the rounds given to it: the code's retry loops have no bound. *)
From S2P Require Import Prelude Bytes State Identity PoseidonBoundary Decode Store.

Open Scope Z_scope.

Notation Fd := nat (only parsing).

(** [FileType], as far as it is compared. *)
Inductive FileType := RegularFile | Directory | OtherFile.
#[export] Instance FileType_eq_dec : EqDecision FileType.
Proof. solve_decision. Defined.

Record FileIdentity := mkFileIdentity { device : Z; inode : Z }.
#[export] Instance FileIdentity_eq_dec : EqDecision FileIdentity.
Proof. solve_decision. Defined.
#[export] Instance FileIdentity_countable : Countable FileIdentity.
Proof.
  refine (inj_countable' (λ i, (device i, inode i)) (λ p, mkFileIdentity p.1 p.2) _). by intros [].
Defined.

(** ** Calls *)

Notation Errno := Store.Errno.
Notation FsResult A := (Result A Errno).
Notation IoResult A := (Result A string).

Inductive Sys : Type → Type :=
(** [openat]: create and write; read; a directory.  None follows a link. *)
| SysCreate (dir : Fd) (name : string) : Sys (FsResult Fd)
| SysOpen (dir : Fd) (name : string) : Sys (FsResult Fd)
| SysOpenDir (dir : Fd) (name : string) : Sys (FsResult Fd)
(** [open] of a directory by its path. *)
| SysOpenRoot (path : string) : Sys (FsResult Fd)
| SysFstat (fd : Fd) : Sys (FsResult (FileType * FileIdentity))
| SysStatat (dir : Fd) (name : string) : Sys (FsResult (FileType * FileIdentity))
| SysFchmod (fd : Fd) : Sys (FsResult unit)
| SysFsync (dir : Fd) : Sys (FsResult unit)
| SysMkdir (dir : Fd) (name : string) : Sys (FsResult unit)
| SysUnlink (dir : Fd) (name : string) : Sys (FsResult unit)
(** [renameat_with(.., NOREPLACE)]. *)
| SysRename (dir : Fd) (name : string) (to : Fd) (to_name : string) : Sys (FsResult unit)
| SysDup (fd : Fd) : Sys (FsResult Fd)
(** [Dir::read_from], and the next entry, [None] at the end. *)
| SysReadFrom (dir : Fd) : Sys (FsResult unit)
| SysReadDir (dir : Fd) : Sys (FsResult (option (FileType * string)))
(** [File]: a clone shares the offset. *)
| SysClone (file : Fd) : Sys (IoResult unit)
| SysSeek (file : Fd) (offset : Z) : Sys (IoResult unit)
| SysRead (file : Fd) (wanted : Z) : Sys (IoResult bytes)
| SysReadExact (file : Fd) (wanted : Z) : Sys (IoResult bytes)
| SysWrite (file : Fd) (b : bytes) : Sys (IoResult Z)
| SysWriteAll (file : Fd) (b : bytes) : Sys (IoResult unit)
| SysFlush (file : Fd) : Sys (IoResult unit)
| SysSyncAll (file : Fd) : Sys (IoResult unit)
| SysLen (file : Fd) : Sys (IoResult Z)
(** 32 bytes of [getrandom]. *)
| SysRandom : Sys (IoResult bytes)
| SysIsSymlink (path : string) : Sys bool
| SysCreateDirAll (path : string) : Sys (IoResult unit)
| SysCanonicalize (path : string) : Sys (IoResult string).

Inductive Prog (A : Type) : Type :=
| Ret (a : A)
| Call {R : Type} (c : Sys R) (k : R → Prog A).
Arguments Ret {A} a.
Arguments Call {A R} c k.

Fixpoint bind {A B} (m : Prog A) (k : A → Prog B) : Prog B :=
  match m with
  | Ret a => k a
  | Call c f => Call c (λ r, bind (f r) k)
  end.

(** A fallible method. *)
Notation Method A := (Prog (Outcome A Store.StoreError)).
Definition sys {R} (c : Sys R) : Prog R := Call c Ret.
Definition ok {A} (a : A) : Method A := Ret (Some (Ok a)).
Definition err {A} (e : Store.StoreError) : Method A := Ret (Some (Err e)).
Definition lift {A} (r : Result A Store.StoreError) : Method A := Ret (Some r).
Definition and_then {A B} (m : Method A) (k : A → Method B) : Method B :=
  bind m (λ r, match r with Some (Ok a) => k a | Some (Err e) => err e | None => Ret None end).
(** [?] on the error types of the calls. *)
Definition fs {A} (c : Sys (FsResult A)) : Method A := bind (sys c) (λ r, lift (map_err Store.Fs r)).
Definition io {A} (c : Sys (IoResult A)) : Method A := bind (sys c) (λ r, lift (map_err Store.Io r)).
(** [map_err(|_| e)?]. *)
Definition io_or {A} (c : Sys (IoResult A)) (e : Store.StoreError) : Method A := bind (sys c) (λ r, lift (map_err (λ _, e) r)).
(** [let _ = ..]. *)
Definition ignore {R A} (c : Sys R) (k : Prog A) : Prog A := bind (sys c) (λ _, k).

Notation "'let^' x := c 'in' k" := (and_then c (λ x, k)) (at level 10, x name, c at level 100, k at level 200) : zkie_scope.
Notation "'let^' ' p := c 'in' k" := (and_then c (λ p, k)) (at level 10, p strict pattern, c at level 100, k at level 200) : zkie_scope.

Module StoreFs.
Import Store.

(** ** Files *)

Definition is_regular_mode (mode : FileType) : bool := bool_decide (mode = RegularFile).
Definition is_directory_mode (mode : FileType) : bool := bool_decide (mode = Directory).

Definition file_identity (file : Fd) : Method FileIdentity := let^ stat := fs (SysFstat file) in ok stat.2.

Definition open_regular_at (dir : Fd) (name : string) : Method Fd :=
  let^ fd := fs (SysOpen dir name) in
  let^ stat := fs (SysFstat fd) in
  if negb (is_regular_mode stat.1) then err UnsafeFileType else ok fd.

Definition ensure_owned_dir (root : Fd) (name : string) : Method Fd :=
  let^ _ := bind (sys (SysMkdir root name)) (λ r,
    match r with Ok _ | Err EXIST => ok tt | Err error => err (Fs error) end) in
  fs (SysOpenDir root name).

Definition random_name (prefix suffix : string) : Method string :=
  let^ random := io SysRandom in ok (name_of prefix suffix random).

(** The size of the buffer of a copying loop. *)
Definition BUFFER : Z := 64 * 1024.

Section Hashing.
Context `{Blake3}.

(** The loop over the payload: what the hashers have been given when it ends. *)
Fixpoint read_payload (fuel : nat) (file : Fd) (remaining : Z) : Method bytes :=
  if remaining =? 0 then ok [] else
  match fuel with
  | O => Ret None
  | S fuel =>
      let^ buffer := io (SysRead file (Z.min remaining BUFFER)) in
      let count := Z.of_nat (length buffer) in
      if count =? 0 then err ContentMismatch else
      let^ rest := read_payload fuel file (remaining - count) in
      ok (buffer ++ rest)
  end.

(** From the length of the file on. *)
Definition verify_contents (file : Fd) (metadata : ObjectMetadata) (raw_metadata : bytes) : Method (ObjectMetadata * Digest32) :=
  let offset := 12 + Z.of_nat (length raw_metadata) in
  let^ len := io (SysLen file) in
  if negb (bool_decide (try_u64 (len - offset) = Some (size metadata))) then err ContentMismatch else
  let^ payload := read_payload (Z.to_nat (size metadata)) file (size metadata) in
  if negb (bool_decide (blake3 payload = content_digest metadata)) then err ContentMismatch else
  ok (metadata, object_digest raw_metadata payload).
(** From the metadata on. *)
Definition verify_metadata (file : Fd) (expected : option ObjectMetadata) (metadata_len : Z) : Method (ObjectMetadata * Digest32) :=
  let^ raw_metadata := io_or (SysReadExact file metadata_len) MetadataMismatch in
  let^ metadata := lift (decode_metadata raw_metadata) in
  if match expected with Some value => negb (bool_decide (value = metadata)) | None => false end then err MetadataMismatch else
  verify_contents file metadata raw_metadata.
Definition verify_envelope (file : Fd) (expected : option ObjectMetadata) : Method (ObjectMetadata * Digest32) :=
  let^ _ := io (SysClone file) in
  let^ _ := io (SysSeek file 0) in
  let^ magic := io_or (SysReadExact file 8) MetadataMismatch in
  if negb (bool_decide (magic = MAGIC)) then err MetadataMismatch else
  let^ raw_len := io_or (SysReadExact file 4) MetadataMismatch in
  let metadata_len := PoseidonBoundary.from_le_bytes raw_len in
  if MAX_METADATA_BYTES <? metadata_len then err MetadataMismatch else
  verify_metadata file expected metadata_len.

Definition seek_payload (file : Fd) : Method unit :=
  let^ _ := io (SysSeek file 8) in
  let^ raw_len := io (SysReadExact file 4) in
  io (SysSeek file (12 + PoseidonBoundary.from_le_bytes raw_len)).

Definition ensure_store_identity (root : Fd) : Method Digest32 :=
  let^ marker := bind (sys (SysCreate root STORE_ID_NAME)) (λ r,
    match r with
    | Ok file =>
        let^ random := io SysRandom in
        let^ _ := io (SysWriteAll file random) in
        let^ _ := io (SysSyncAll file) in
        let^ _ := fs (SysFchmod file) in
        let^ _ := io (SysSyncAll file) in
        let^ _ := fs (SysFsync root) in
        ok file
    | Err EXIST => open_regular_at root STORE_ID_NAME
    | Err error => err (Fs error)
    end) in
  let^ _ := io (SysSeek marker 0) in
  let^ identity := io_or (SysReadExact marker 32) StoreLocatorChanged in
  let^ trailing := io (SysRead marker 1) in
  if negb (bool_decide (trailing = [])) then err StoreLocatorChanged else
  ok (blake3 (PoseidonBoundary.zero_terminated "zkie-store-identity-v1" ++ identity)).

(** ** Objects on their way *)

Record StagedObject := mkStaged { st_name : string; st_expected : ObjectMetadata; st_file : Fd; st_written : Z }.
Record ValidatedObject := mkValidated {
  va_name : string; va_metadata : ObjectMetadata; va_digest : Digest32; va_file : Fd; va_identity : FileIdentity }.
Record PublishedObject := mkPublished {
  pu_name : string; pu_metadata : ObjectMetadata; pu_digest : Digest32; pu_file : Fd;
  pu_root : string; pu_root_fd : Fd; pu_objects_fd : Fd; pu_store_identity_digest : Digest32 }.

(** [StagedObject::write], with the object as it is afterwards.  The code wraps
    [PayloadTooLarge] in an [io::Error]. *)
Definition write (self : StagedObject) (b : bytes) : Method (Z * StagedObject) :=
  let requested := Z.of_nat (length b) in
  match try_u64 (st_written self + requested) with
  | None => err PayloadTooLarge
  | Some next =>
      if size (st_expected self) <? next then err PayloadTooLarge else
      let^ count := io (SysWrite (st_file self) b) in
      match try_u64 (st_written self + count) with
      | None => err PayloadTooLarge
      | Some written => ok (count, mkStaged (st_name self) (st_expected self) (st_file self) written)
      end
  end.

Definition ensure_pinned_file_identity (self : PublishedObject) : Method unit :=
  let^ current := open_regular_at (pu_objects_fd self) (pu_name self) in
  let^ named := file_identity current in
  let^ pinned := file_identity (pu_file self) in
  if negb (bool_decide (named = pinned)) then err FileIdentityChanged else ok tt.

Definition ensure_verified (self : PublishedObject) : Method unit :=
  let^ current := open_regular_at (pu_objects_fd self) (pu_name self) in
  let^ named := file_identity current in
  let^ pinned := file_identity (pu_file self) in
  if negb (bool_decide (named = pinned)) then err FileIdentityChanged else
  let^ '(metadata, digest) := verify_envelope current (Some (pu_metadata self)) in
  if negb (bool_decide (metadata = pu_metadata self)) || negb (bool_decide (digest = pu_digest self)) then err ContentMismatch else
  ok tt.

(** The two [ensure_current_locator]. *)
Definition check_locator (root : string) (root_fd objects_fd : Fd) : Method unit :=
  let^ named_root := fs (SysOpenRoot root) in
  let^ named := file_identity named_root in
  let^ pinned := file_identity root_fd in
  if negb (bool_decide (named = pinned)) then err StoreLocatorChanged else
  let^ named_objects := fs (SysStatat named_root "objects") in
  if negb (is_directory_mode named_objects.1) then err StoreLocatorChanged else
  let^ pinned_objects := file_identity objects_fd in
  if negb (bool_decide (named_objects.2 = pinned_objects)) then err StoreLocatorChanged else ok tt.
Definition published_ensure_current_locator (self : PublishedObject) : Method unit :=
  check_locator (pu_root self) (pu_root_fd self) (pu_objects_fd self).

(** [attest]: the identity with the object, or an error. *)
Definition attest_with (matches : option bool) (mismatch : StoreError) (published : PublishedObject) : Method unit :=
  let^ _ := ensure_verified published in
  match matches with
  | None => Ret None
  | Some true => ok tt
  | Some false => err mismatch
  end.
Definition attest_proof (identity : TrustedProofIdentity) (published : PublishedObject) : Method (TrustedProofIdentity * PublishedObject) :=
  let^ _ := attest_with (proof_matches identity (pu_metadata published)) ProofIdentityMismatch published in
  ok (identity, published).
Definition attest_key (identity : TrustedKeyIdentity) (published : PublishedObject) : Method (TrustedKeyIdentity * PublishedObject) :=
  let^ _ := attest_with (key_matches identity (pu_metadata published)) KeyIdentityMismatch published in
  ok (identity, published).

(** ** Stores *)

Inductive StoreKind := ArtifactKind | KeyKind.
Record StoreCore := mkStoreCore {
  root : string; root_fd : Fd; staging_fd : Fd; objects_fd : Fd; quarantine_fd : Fd;
  store_identity_digest : Digest32; kind : StoreKind }.
Record RecoveryReport := mkReport { removed : nat; quarantined : nat }.

Definition open (path : string) (kind : StoreKind) : Method StoreCore :=
  bind (sys (SysIsSymlink path)) (λ linked,
  if linked then err UnsafeFileType else
  let^ _ := io (SysCreateDirAll path) in
  let^ root := io (SysCanonicalize path) in
  let^ root_fd := fs (SysOpenRoot root) in
  let^ staging_fd := ensure_owned_dir root_fd "staging" in
  let^ objects_fd := ensure_owned_dir root_fd "objects" in
  let^ quarantine_fd := ensure_owned_dir root_fd "quarantine" in
  let^ store_identity_digest := ensure_store_identity root_fd in
  ok (mkStoreCore root root_fd staging_fd objects_fd quarantine_fd store_identity_digest kind)).

Section Core.
Context (self : StoreCore).

Definition require_kind (metadata : ObjectMetadata) : Result unit StoreError :=
  match kind self, metadata with
  | ArtifactKind, Artifact _ | KeyKind, Key _ => Ok tt
  | _, _ => Err WrongStoreKind
  end.

(** The loop of [stage], for a number of names. *)
Fixpoint stage_loop (fuel : nat) (expected : ObjectMetadata) (metadata : bytes) : Method StagedObject :=
  match fuel with
  | O => Ret None
  | S fuel =>
      let^ name := random_name STAGE_PREFIX STAGE_SUFFIX in
      bind (sys (SysCreate (staging_fd self) name)) (λ r,
        match r with
        | Ok file =>
            let^ _ := io (SysWriteAll file MAGIC) in
            let^ _ := io (SysWriteAll file (encode_u32 (Z.of_nat (length metadata)))) in
            let^ _ := io (SysWriteAll file metadata) in
            ok (mkStaged name expected file 0)
        | Err EXIST => stage_loop fuel expected metadata
        | Err error => err (Fs error)
        end)
  end.
Definition stage (fuel : nat) (expected : ObjectMetadata) : Method StagedObject :=
  let^ _ := lift (require_kind expected) in
  let^ metadata := lift (encode_metadata expected) in
  stage_loop fuel expected metadata.

Definition validate_inner (staged : StagedObject) : Method ValidatedObject :=
  if negb (st_written staged =? size (st_expected staged)) then err ContentMismatch else
  let^ _ := io (SysFlush (st_file staged)) in
  let^ _ := io (SysSyncAll (st_file staged)) in
  let^ _ := fs (SysFchmod (st_file staged)) in
  let^ _ := io (SysSyncAll (st_file staged)) in
  let^ identity := file_identity (st_file staged) in
  let^ named := fs (SysStatat (staging_fd self) (st_name staged)) in
  if negb (is_regular_mode named.1) || negb (bool_decide (named.2 = identity)) then err FileIdentityChanged else
  let^ '(metadata, digest) := verify_envelope (st_file staged) (Some (st_expected staged)) in
  let^ _ := lift (require_kind metadata) in
  ok (mkValidated (st_name staged) metadata digest (st_file staged) identity).
Definition validate (staged : StagedObject) : Method ValidatedObject :=
  bind (validate_inner staged) (λ result,
    match result with
    | Some (Err _) => ignore (SysUnlink (staging_fd self) (st_name staged)) (ignore (SysFsync (staging_fd self)) (Ret result))
    | _ => Ret result
    end).

(** The copying loop of [copy_for_publication]. *)
Fixpoint copy_loop (fuel : nat) (source destination : Fd) (remaining : Z) : Method unit :=
  if remaining =? 0 then ok tt else
  match fuel with
  | O => Ret None
  | S fuel =>
      let^ buffer := io (SysRead source (Z.min remaining BUFFER)) in
      let count := Z.of_nat (length buffer) in
      if count =? 0 then err ContentMismatch else
      let^ _ := io (SysWriteAll destination buffer) in
      copy_loop fuel source destination (remaining - count)
  end.
Definition copy_for_publication (validated : ValidatedObject) (publication_name : string) : Method Fd :=
  let^ destination := fs (SysCreate (staging_fd self) publication_name) in
  let^ _ := io (SysClone (va_file validated)) in
  let^ _ := io (SysSeek (va_file validated) 0) in
  let^ encoded := lift (encode_metadata (va_metadata validated)) in
  let^ remaining := lift (ok_or (n ← try_u64 (12 + Z.of_nat (length encoded)); try_u64 (n + size (va_metadata validated))) InvalidMetadata) in
  let^ _ := copy_loop (Z.to_nat remaining) (va_file validated) destination remaining in
  let^ _ := io (SysFlush destination) in
  let^ _ := io (SysSyncAll destination) in
  let^ _ := fs (SysFchmod destination) in
  let^ _ := io (SysSyncAll destination) in
  let^ '(metadata, digest) := verify_envelope destination (Some (va_metadata validated)) in
  if negb (bool_decide (metadata = va_metadata validated)) || negb (bool_decide (digest = va_digest validated))
  then err ContentMismatch else ok destination.

Definition published (name : string) (metadata : ObjectMetadata) (digest : Digest32) (file : Fd) : Method PublishedObject :=
  let^ root_fd := fs (SysDup (root_fd self)) in
  let^ objects_fd := fs (SysDup (objects_fd self)) in
  ok (mkPublished name metadata digest file (root self) root_fd objects_fd (store_identity_digest self)).

Definition remove_failed_publication {A} (name : string) (k : Prog A) : Prog A :=
  ignore (SysUnlink (objects_fd self) name) (ignore (SysFsync (objects_fd self)) k).

(** [Display] of a digest, as a file name. *)
Definition object_name (digest : Digest32) : string := String.string_of_list_ascii (digest_display digest).

(** The branch of [publish] where the object is already there. *)
Definition publish_existing (validated : ValidatedObject) (publication_name final_name : string) (metadata : ObjectMetadata)
    (digest : Digest32) : Method PublishedObject :=
  let^ _ := fs (SysUnlink (staging_fd self) publication_name) in
  let^ existing := open_regular_at (objects_fd self) final_name in
  let^ '(existing_metadata, existing_digest) := verify_envelope existing (Some metadata) in
  if negb (bool_decide (existing_metadata = metadata)) || negb (bool_decide (existing_digest = digest))
  then err (ExistingObjectConflict digest) else
  let^ _ := fs (SysUnlink (staging_fd self) (va_name validated)) in
  let^ _ := fs (SysFsync (staging_fd self)) in
  published final_name metadata digest existing.

(** What [publish] does after the rename. *)
Definition publish_renamed (validated : ValidatedObject) (publication : Fd) (final_name : string) (metadata : ObjectMetadata)
    (digest : Digest32) : Method PublishedObject :=
  bind (open_regular_at (objects_fd self) final_name) (λ opened,
    match opened with
    | None => Ret None
    | Some (Err error) => remove_failed_publication final_name (err error)
    | Some (Ok final_file) =>
        let^ final_identity := file_identity final_file in
        let^ publication_identity := file_identity publication in
        if negb (bool_decide (final_identity = publication_identity))
        then remove_failed_publication final_name (err FileIdentityChanged) else
        bind (verify_envelope final_file (Some metadata)) (λ verified,
          match verified with
          | None => Ret None
          | Some (Err error) => remove_failed_publication final_name (err error)
          | Some (Ok (_, final_digest)) =>
              if negb (bool_decide (final_digest = digest)) then remove_failed_publication final_name (err ContentMismatch) else
              let^ _ := fs (SysFsync (objects_fd self)) in
              let^ _ := fs (SysUnlink (staging_fd self) (va_name validated)) in
              let^ _ := fs (SysFsync (staging_fd self)) in
              published final_name metadata digest final_file
          end)
    end).

Definition publish (validated : ValidatedObject) : Method PublishedObject :=
  let^ '(metadata, digest) := verify_envelope (va_file validated) (Some (va_metadata validated)) in
  if negb (bool_decide (digest = va_digest validated)) then err FileIdentityChanged else
  let^ identity := file_identity (va_file validated) in
  if negb (bool_decide (identity = va_identity validated)) then err FileIdentityChanged else
  let^ named := fs (SysStatat (staging_fd self) (va_name validated)) in
  if negb (is_regular_mode named.1) || negb (bool_decide (named.2 = va_identity validated)) then err FileIdentityChanged else
  let^ publication_name := random_name STAGE_PREFIX STAGE_SUFFIX in
  bind (copy_for_publication validated publication_name) (λ copied,
    match copied with
    | None => Ret None
    | Some (Err error) => ignore (SysUnlink (staging_fd self) publication_name) (err error)
    | Some (Ok publication) =>
        let final_name := object_name digest in
        bind (sys (SysRename (staging_fd self) publication_name (objects_fd self) final_name)) (λ renamed,
          match renamed with
          | Ok _ => publish_renamed validated publication final_name metadata digest
          | Err EXIST => publish_existing validated publication_name final_name metadata digest
          | Err error => ignore (SysUnlink (staging_fd self) publication_name) (err (Fs error))
          end)
    end).

Definition open_verified_with_metadata (digest : Digest32) : Method (Fd * ObjectMetadata) :=
  let name := object_name digest in
  bind (open_regular_at (objects_fd self) name) (λ opened,
    match opened with
    | None => Ret None
    | Some (Err (Fs NOENT)) => err (NotFound digest)
    | Some (Err error) => err error
    | Some (Ok file) =>
        let^ '(metadata, actual) := verify_envelope file None in
        let^ _ := lift (require_kind metadata) in
        if negb (bool_decide (actual = digest)) then err ContentMismatch else
        let^ _ := seek_payload file in
        ok (file, metadata)
    end).
Definition open_verified (digest : Digest32) : Method Fd := let^ opened := open_verified_with_metadata digest in ok opened.1.

Definition ensure_current_locator : Method unit := check_locator (root self) (root_fd self) (objects_fd self).

Definition reopen_persisted (store_identity digest : Digest32) : Method (Fd * ObjectMetadata) :=
  let^ _ := ensure_current_locator in
  if negb (bool_decide (store_identity_digest self = store_identity)) then err StoreLocatorChanged else
  open_verified_with_metadata digest.

(** The inner loop of [recover_stale]. *)
Fixpoint quarantine_loop (fuel : nat) (name : string) : Method unit :=
  match fuel with
  | O => Ret None
  | S fuel =>
      let^ destination := random_name "quarantine-" "" in
      bind (sys (SysRename (staging_fd self) name (quarantine_fd self) destination)) (λ r,
        match r with
        | Ok _ => ok tt
        | Err EXIST => quarantine_loop fuel name
        | Err error => err (Fs error)
        end)
  end.
(** The loop over the directory; [fuel] bounds the entries and the names tried. *)
Fixpoint recover_loop (fuel : nat) (report : RecoveryReport) : Method RecoveryReport :=
  match fuel with
  | O => Ret None
  | S fuel' =>
      let^ entry := fs (SysReadDir (staging_fd self)) in
      match entry with
      | None => ok report
      | Some (file_type, name) =>
          if String.eqb name "." || String.eqb name ".." then recover_loop fuel' report else
          if bool_decide (file_type = RegularFile) && is_stage_name name
          then
            let^ _ := fs (SysUnlink (staging_fd self) name) in
            recover_loop fuel' (mkReport (S (removed report)) (quarantined report))
          else
            let^ _ := quarantine_loop fuel name in
            recover_loop fuel' (mkReport (removed report) (S (quarantined report)))
      end
  end.
Definition recover_stale (fuel : nat) : Method RecoveryReport :=
  let^ _ := fs (SysReadFrom (staging_fd self)) in
  let^ report := recover_loop fuel (mkReport 0 0) in
  let^ _ := fs (SysFsync (staging_fd self)) in
  let^ _ := (if (quarantined report =? 0)%nat then ok tt else fs (SysFsync (quarantine_fd self))) in
  ok report.
End Core.
End Hashing.

End StoreFs.
