(* ===== verification/StoreLogic.v ===== *)
(** * File-system calls

    What the documentation of the calls promises, as a relation between the visible
    state before and after a call; the runs of a method among other processes; and
    weakest preconditions, which bound every state a run goes through: a crash may
    stop it at any of them. *)
From stdpp Require Import gmap infinite.
From S2P Require Import Prelude Bytes State Identity PoseidonBoundary Decode Store StoreFs.

Open Scope Z_scope.

(** ** What a process sees *)

(** Descriptors with their offset; contents of regular files; entries of directories.
    [v_owned] are the files that this process has created and nobody else has open. *)
Record View := mkView {
  v_fds : gmap Fd (FileIdentity * Z);
  v_files : gmap FileIdentity bytes;
  v_dirs : gmap FileIdentity (gmap string FileIdentity);
  v_owned : gset FileIdentity
}.

Definition entry (v : View) (dir : FileIdentity) (name : string) : option FileIdentity := v_dirs v !! dir ≫= lookup name.
Definition identity_of (v : View) (fd : Fd) : option FileIdentity := fst <$> v_fds v !! fd.
Definition file_type (v : View) (i : FileIdentity) : FileType :=
  match v_files v !! i, v_dirs v !! i with
  | Some _, _ => RegularFile
  | None, Some _ => Directory
  | None, None => OtherFile
  end.
(** A file that nothing refers to yet. *)
Definition unused (v : View) (i : FileIdentity) : Prop :=
  v_files v !! i = None ∧ v_dirs v !! i = None ∧ i ∉ v_owned v ∧ (∀ d n, entry v d n ≠ Some i) ∧ ∀ fd, identity_of v fd ≠ Some i.

Definition set_fds (f : gmap Fd (FileIdentity * Z) → gmap Fd (FileIdentity * Z)) (v : View) : View :=
  mkView (f (v_fds v)) (v_files v) (v_dirs v) (v_owned v).
Definition set_content (i : FileIdentity) (c : bytes) (v : View) : View :=
  mkView (v_fds v) (<[i := c]> (v_files v)) (v_dirs v) (v_owned v).
Definition set_entry (dir : FileIdentity) (name : string) (i : option FileIdentity) (v : View) : View :=
  mkView (v_fds v) (v_files v) (alter (partial_alter (λ _, i) name) dir (v_dirs v)) (v_owned v).

(** Bytes written at an offset; a gap reads as zeros. *)
Definition overwrite (offset : nat) (b c : bytes) : bytes :=
  if bool_decide (b = []) then c
  else take offset (c ++ replicate (offset - length c) (byte_of_Z 0)) ++ b ++ drop (offset + length b) c.

(** ** Effects *)

(** A call that fails changes nothing; [faulty] says that calls may fail for reasons
    other than the state of the files. *)
Section Effects.
Context (faulty : Prop).

Definition fails {A E} (r : Result A E) (v v' : View) : Prop := faulty ∧ v' = v ∧ is_ok r = false.

Definition create (v : View) (dir : Fd) (name : string) (fd : Fd) (v' : View) : Prop :=
  ∃ d i, identity_of v dir = Some d ∧ is_Some (v_dirs v !! d) ∧ entry v d name = None ∧ unused v i ∧ v_fds v !! fd = None ∧
    v' = mkView (<[fd := (i, 0)]> (v_fds v)) (<[i := []]> (v_files v)) (alter (<[name := i]>) d (v_dirs v)) ({[i]} ∪ v_owned v).
Definition opened (v : View) (i : FileIdentity) (fd : Fd) (v' : View) : Prop :=
  v_fds v !! fd = None ∧ v' = set_fds (<[fd := (i, 0)]>) v.
Definition written_at (v : View) (file : Fd) (b : bytes) (v' : View) : Prop :=
  ∃ i offset c, v_fds v !! file = Some (i, offset) ∧ v_files v !! i = Some c ∧
    v' = set_fds (<[file := (i, offset + Z.of_nat (length b))]>) (set_content i (overwrite (Z.to_nat offset) b c) v).

Definition effect {R} (c : Sys R) (v : View) : R → View → Prop :=
  match c in Sys R return R → View → Prop with
  | SysCreate dir name => λ r v',
      match r with
      | Ok fd => create v dir name fd v'
      | Err Store.EXIST => v' = v ∧ (faulty ∨ ∃ d, identity_of v dir = Some d ∧ is_Some (entry v d name))
      | Err _ => fails r v v'
      end
  | SysOpen dir name => λ r v',
      match r with
      | Ok fd => ∃ d i, identity_of v dir = Some d ∧ entry v d name = Some i ∧ opened v i fd v'
      | Err Store.NOENT => v' = v ∧ ∃ d, identity_of v dir = Some d ∧ entry v d name = None
      | Err _ => v' = v ∧ (faulty ∨ ∃ d i, identity_of v dir = Some d ∧ entry v d name = Some i ∧ file_type v i = OtherFile)
      end
  | SysOpenDir dir name => λ r v',
      match r with
      | Ok fd => ∃ d i, identity_of v dir = Some d ∧ entry v d name = Some i ∧ is_Some (v_dirs v !! i) ∧ opened v i fd v'
      | Err _ => v' = v
      end
  | SysOpenRoot path => λ r v', match r with Ok fd => ∃ i, is_Some (v_dirs v !! i) ∧ opened v i fd v' | Err _ => v' = v end
  | SysFstat fd => λ r v',
      match r with
      | Ok (t, i) => v' = v ∧ identity_of v fd = Some i ∧ t = file_type v i
      | Err _ => fails r v v'
      end
  | SysStatat dir name => λ r v',
      match r with
      | Ok (t, i) => v' = v ∧ ∃ d, identity_of v dir = Some d ∧ entry v d name = Some i ∧ t = file_type v i
      | Err _ => v' = v ∧ (faulty ∨ ∃ d, identity_of v dir = Some d ∧ entry v d name = None)
      end
  | SysFchmod _ => λ r v', match r with Ok _ => v' = v | Err _ => fails r v v' end
  | SysFsync _ => λ r v', match r with Ok _ => v' = v | Err _ => fails r v v' end
  | SysMkdir dir name => λ r v',
      match r with
      | Ok _ => ∃ d i, identity_of v dir = Some d ∧ is_Some (v_dirs v !! d) ∧ entry v d name = None ∧ unused v i ∧
          v' = mkView (v_fds v) (v_files v) (<[i := ∅]> (alter (<[name := i]>) d (v_dirs v))) (v_owned v)
      | Err _ => v' = v
      end
  | SysUnlink dir name => λ r v',
      match r with
      | Ok _ => ∃ d, identity_of v dir = Some d ∧ is_Some (entry v d name) ∧ v' = set_entry d name None v
      | Err _ => v' = v ∧ (faulty ∨ ∃ d, identity_of v dir = Some d ∧ (entry v d name = None ∨
          ∃ i, entry v d name = Some i ∧ file_type v i = Directory))
      end
  | SysRename dir name to to_name => λ r v',
      match r with
      | Ok _ => ∃ d d' i, identity_of v dir = Some d ∧ identity_of v to = Some d' ∧ entry v d name = Some i ∧
          is_Some (v_dirs v !! d') ∧ entry v d' to_name = None ∧ v' = set_entry d' to_name (Some i) (set_entry d name None v)
      | Err Store.EXIST => v' = v ∧ ∃ d', identity_of v to = Some d' ∧ is_Some (entry v d' to_name)
      | Err _ => v' = v ∧ (faulty ∨ ∃ d, identity_of v dir = Some d ∧ entry v d name = None)
      end
  | SysDup fd => λ r v',
      match r with
      | Ok fd' => ∃ p, v_fds v !! fd = Some p ∧ v_fds v !! fd' = None ∧ v' = set_fds (<[fd' := p]>) v
      | Err _ => fails r v v'
      end
  | SysReadFrom _ => λ r v', match r with Ok _ => v' = v | Err _ => fails r v v' end
  | SysReadDir dir => λ r v',
      v' = v ∧ match r with
      | Ok (Some (t, name)) => ∃ d i, identity_of v dir = Some d ∧ (name = "." ∨ name = ".." ∨ entry v d name = Some i ∧ t = file_type v i)
      | Ok None => True
      | Err _ => faulty
      end
  | SysClone _ => λ r v', match r with Ok _ => v' = v | Err _ => fails r v v' end
  | SysSeek file offset => λ r v',
      match r with
      | Ok _ => ∃ i o, v_fds v !! file = Some (i, o) ∧ v' = set_fds (<[file := (i, offset)]>) v
      | Err _ => fails r v v'
      end
  | SysRead file wanted => λ r v',
      match r with
      | Ok b => ∃ i o c, v_fds v !! file = Some (i, o) ∧ v_files v !! i = Some c ∧ b = take (length b) (drop (Z.to_nat o) c) ∧
          Z.of_nat (length b) ≤ wanted ∧ (b = [] → wanted = 0 ∨ Z.of_nat (length c) ≤ o) ∧
          v' = set_fds (<[file := (i, o + Z.of_nat (length b))]>) v
      | Err _ => fails r v v'
      end
  | SysReadExact file wanted => λ r v',
      ∃ i o c, v_fds v !! file = Some (i, o) ∧ v_files v !! i = Some c ∧
      match r with
      | Ok b => Z.of_nat (length b) = wanted ∧ b = take (length b) (drop (Z.to_nat o) c) ∧
          v' = set_fds (<[file := (i, o + wanted)]>) v
      | Err _ => (faulty ∨ Z.of_nat (length c) < o + wanted) ∧ ∃ o', v' = set_fds (<[file := (i, o')]>) v
      end
  | SysWrite file b => λ r v',
      match r with
      | Ok count => 0 ≤ count ≤ Z.of_nat (length b) ∧ (count = 0 → b = [] ∨ faulty) ∧ written_at v file (take (Z.to_nat count) b) v'
      | Err _ => fails r v v'
      end
  | SysWriteAll file b => λ r v',
      match r with
      | Ok _ => written_at v file b v'
      | Err _ => faulty ∧ ∃ k, written_at v file (take k b) v'
      end
  | SysFlush _ | SysSyncAll _ => λ r v', match r with Ok _ => v' = v | Err _ => fails r v v' end
  | SysLen file => λ r v',
      match r with
      | Ok n => v' = v ∧ ∃ i c, identity_of v file = Some i ∧ v_files v !! i = Some c ∧ n = Z.of_nat (length c)
      | Err _ => fails r v v'
      end
  | SysRandom => λ r v', match r with Ok b => v' = v ∧ length b = 32%nat | Err _ => fails r v v' end
  | SysIsSymlink _ => λ _ v', v' = v
  | SysCreateDirAll _ => λ _ v', v_fds v' = v_fds v ∧ v_files v' = v_files v ∧ v_owned v' = v_owned v ∧
      (∀ d, is_Some (v_dirs v !! d) → is_Some (v_dirs v' !! d)) ∧ ∀ d n i, entry v d n = Some i → entry v' d n = Some i
  | SysCanonicalize _ => λ _ v', v' = v
  end.
End Effects.

(** ** Runs *)

(** The kernel, and what other processes do between two calls. *)
Class Kernel := {
  kernel {R} : Sys R → View → R → View → Prop;
  interferes : View → View → Prop
}.

Inductive step `{Kernel} {A} : Prog A * View → Prog A * View → Prop :=
| step_others p v v' : interferes v v' → step (p, v) (p, v')
| step_call {R} (c : Sys R) k r v v' : kernel c v r v' → step (Call c k, v) (k r, v').

(** *** Weakest preconditions *)

(** In every run among processes that keep to [rely], every state satisfies [J], and
    the answer and the state it comes in satisfy [Q]. *)
Section Wp.
Context (faulty : Prop) (rely : View → View → Prop) (J : View → Prop).

Fixpoint wp {A} (p : Prog A) (Q : A → View → Prop) (v : View) : Prop :=
  match p with
  | Ret a => ∀ v', rely v v' → J v' ∧ Q a v'
  | Call c k => ∀ v1, rely v v1 → J v1 ∧ ∀ r v2, effect faulty c v1 r v2 → wp (k r) Q v2
  end.

Context `{!PreOrder rely}.
#[local] Set Default Proof Using "All".

Lemma wp_rely {A} (p : Prog A) Q v v' : wp p Q v → rely v v' → wp p Q v'.
Proof.
  destruct p as [a|R c k]; cbn [wp]; intros H Hv.
  - intros v2 Hv2. apply H. by etrans.
  - intros v1 Hv1. apply H. by etrans.
Qed.

Lemma wp_always {A} (p : Prog A) Q v : wp p Q v → J v.
Proof. destruct p; cbn [wp]; intros H; by apply (H v). Qed.

Lemma wp_mono {A} (p : Prog A) (Q Q' : A → View → Prop) v : wp p Q v → (∀ a v', Q a v' → Q' a v') → wp p Q' v.
Proof.
  revert v. induction p as [a|R c k IH]; cbn [wp]; intros v H HQ.
  - intros v' Hv. destruct (H v' Hv). auto.
  - intros v1 Hv. destruct (H v1 Hv) as [HJ Hk]. split; [done|]. intros r v2 He. apply IH; auto.
Qed.

Lemma wp_seq {A B} (m : Prog A) (k : A → Prog B) Q v : wp m (λ a v', wp (k a) Q v') v → wp (bind m k) Q v.
Proof.
  revert v. induction m as [a|R c f IH]; cbn [wp bind]; intros v H.
  - by destruct (H v ltac:(reflexivity)).
  - intros v1 Hv. destruct (H v1 Hv) as [HJ Hk]. split; [done|]. intros r v2 He. by apply IH, Hk.
Qed.
(** Going on from a result that stays true. *)
Lemma wp_then {A B} (m : Prog A) (k : A → Prog B) Q Q' v :
  wp m Q v → (∀ a v', wp (Ret a) Q v' → wp (k a) Q' v') → wp (bind m k) Q' v.
Proof.
  intros Hm Hk. revert v Hm. induction m as [|R c f IH]; intros v Hm; [by apply Hk|].
  intros v1 Hv. destruct (Hm v1 Hv) as [HJ Hf]. split; [done|]. intros r v2 He. by apply IH, Hf.
Qed.

(** What is proved with [wp] holds of runs. *)
Lemma wp_runs `{Kernel} {A} (p : Prog A) Q v :
  (∀ R (c : Sys R) v r v', kernel c v r v' → effect faulty c v r v') → (∀ v v', interferes v v' → rely v v') →
  wp p Q v → ∀ p' v', rtc step (p, v) (p', v') → J v' ∧ ∀ a, p' = Ret a → Q a v'.
Proof.
  intros Hk Hi Hp p' v' Hrun. assert (∀ s s' : Prog A * View, rtc step s s' → wp s.1 Q s.2 → wp s'.1 Q s'.2) as Hw.
  { intros s s'. induction 1 as [|s1 s2 s3 Hs _ IH]; [done|]. intros Hw. apply IH. destruct Hs as [q w w' Hw'|R c k r w w' Hw']; cbn [fst snd] in *.
    - eapply wp_rely; [done|]. by apply Hi.
    - destruct (Hw w ltac:(reflexivity)) as [_ Hq]. by apply Hq, Hk. }
  specialize (Hw _ _ Hrun Hp). cbn [fst snd] in Hw.
  split; [by eapply wp_always|]. intros a ->. by destruct (Hw v' ltac:(reflexivity)).
Qed.
End Wp.

(** ** A file system in memory

    A kernel that keeps its files in the visible state and never fails for other
    reasons: it shows that the promises of [effect] can be kept, and runs methods. *)

Open Scope Z_scope.

(** Descriptors and identities that are not in use. *)
Definition new_fd (v : View) : Fd := fresh (map_to_list (v_fds v)).*1.
Definition inodes (v : View) : list Z :=
  inode <$> ((map_to_list (v_files v)).*1 ++ (map_to_list (v_dirs v)).*1 ++ base.elements (v_owned v) ++
    (fst <$> (map_to_list (v_fds v)).*2) ++ ((map_to_list (v_dirs v)).*2 ≫= λ e, (map_to_list e).*2)).
Definition new_identity (v : View) : FileIdentity := mkFileIdentity 0 (fresh (inodes v)).

Lemma new_fd_free v : v_fds v !! new_fd v = None.
Proof.
  apply not_elem_of_dom. intros Hin. apply (infinite_is_fresh (map_to_list (v_fds v)).*1). fold (new_fd v).
  apply elem_of_dom in Hin as [p Hp]. apply list_elem_of_fmap. exists (new_fd v, p). split; [done|]. by apply elem_of_map_to_list.
Qed.

Lemma new_identity_unused v : unused v (new_identity v).
Proof.
  assert (∀ i, i = new_identity v → inode i ∉ inodes v) as Hf by (intros i ->; apply infinite_is_fresh).
  specialize (Hf _ eq_refl). unfold inodes in Hf. set (i := new_identity v) in *.
  assert (∀ l, i ∈ l → inode i ∈ inode <$> l) as Hin by (intros l Hl; apply list_elem_of_fmap; eauto).
  rewrite !fmap_app, !not_elem_of_app in Hf. destruct Hf as (H1 & H2 & H3 & H4 & H5). split_and!.
  - destruct (v_files v !! i) as [c|] eqn:E; [|done]. destruct H1. apply Hin, list_elem_of_fmap. exists (i, c). split; [done|]. by apply elem_of_map_to_list.
  - destruct (v_dirs v !! i) as [c|] eqn:E; [|done]. destruct H2. apply Hin, list_elem_of_fmap. exists (i, c). split; [done|]. by apply elem_of_map_to_list.
  - intros Ho. destruct H3. by apply Hin, elem_of_elements.
  - intros d n He. destruct H5. apply Hin. unfold entry in He. destruct (v_dirs v !! d) as [e|] eqn:E; [|done]. cbn in He.
    apply list_elem_of_bind. exists e. split; [apply list_elem_of_fmap; exists (n, i); split; [done|]; by apply elem_of_map_to_list|].
    apply list_elem_of_fmap. exists (d, e). split; [done|]. by apply elem_of_map_to_list.
  - intros fd Hfd. destruct H4. apply Hin. unfold identity_of in Hfd. destruct (v_fds v !! fd) as [[j o]|] eqn:E; [|done]. injection Hfd as ->.
    apply list_elem_of_fmap. exists (i, o). split; [done|]. apply list_elem_of_fmap. exists (fd, (i, o)). split; [done|]. by apply elem_of_map_to_list.
Qed.

(** The directory of a descriptor. *)
Definition dir_of (v : View) (fd : Fd) : option (FileIdentity * gmap string FileIdentity) :=
  d ← identity_of v fd; e ← v_dirs v !! d; Some (d, e).
(** An open file: its identity, offset and content. *)
Definition file_of (v : View) (fd : Fd) : option (FileIdentity * Z * bytes) :=
  '(i, o) ← v_fds v !! fd; c ← v_files v !! i; Some (i, o, c).

Definition open_as (v : View) (i : FileIdentity) : Fd * View := (new_fd v, set_fds (<[new_fd v := (i, 0)]>) v).
Definition write_at (v : View) (file : Fd) (b : bytes) : option View :=
  '(i, o, c) ← file_of v file;
  Some (set_fds (<[file := (i, o + Z.of_nat (length b))]>) (set_content i (overwrite (Z.to_nat o) b c) v)).

(** One call; [None] where the state gives no answer, as on a descriptor that is not
    open. *)
Definition memory {R} (c : Sys R) (v : View) : option (R * View) :=
  match c in Sys R return option (R * View) with
  | SysCreate dir name =>
      '(d, e) ← dir_of v dir;
      match e !! name with
      | Some _ => Some (Err Store.EXIST, v)
      | None =>
          let i := new_identity v in let fd := new_fd v in
          Some (Ok fd, mkView (<[fd := (i, 0)]> (v_fds v)) (<[i := []]> (v_files v)) (alter (<[name := i]>) d (v_dirs v)) ({[i]} ∪ v_owned v))
      end
  | SysOpen dir name =>
      '(d, e) ← dir_of v dir;
      match e !! name with
      | None => Some (Err Store.NOENT, v)
      | Some i => let '(fd, v') := open_as v i in Some (Ok fd, v')
      end
  | SysFstat fd => i ← identity_of v fd; Some (Ok (file_type v i, i), v)
  | SysStatat dir name =>
      '(d, e) ← dir_of v dir;
      match e !! name with
      | None => Some (Err Store.NOENT, v)
      | Some i => Some (Ok (file_type v i, i), v)
      end
  | SysFchmod _ | SysFsync _ | SysReadFrom _ => Some (Ok tt, v)
  | SysUnlink dir name =>
      '(d, e) ← dir_of v dir;
      match e !! name with
      | None => Some (Err Store.NOENT, v)
      | Some i => Some (Ok tt, set_entry d name None v)
      end
  | SysRename dir name to to_name =>
      '(d, e) ← dir_of v dir; '(d', e') ← dir_of v to;
      match e !! name, e' !! to_name with
      | None, _ => Some (Err Store.NOENT, v)
      | Some _, Some _ => Some (Err Store.EXIST, v)
      | Some i, None => Some (Ok tt, set_entry d' to_name (Some i) (set_entry d name None v))
      end
  | SysDup fd => p ← v_fds v !! fd; Some (Ok (new_fd v), set_fds (<[new_fd v := p]>) v)
  | SysClone _ => Some (Ok tt, v)
  | SysSeek file offset => '(i, _) ← v_fds v !! file; Some (Ok tt, set_fds (<[file := (i, offset)]>) v)
  | SysRead file wanted =>
      '(i, o, c) ← file_of v file;
      let b := take (Z.to_nat wanted) (drop (Z.to_nat o) c) in
      if (0 <=? wanted) && (0 <=? o) then Some (Ok b, set_fds (<[file := (i, o + Z.of_nat (length b))]>) v) else None
  | SysReadExact file wanted =>
      '(i, o, c) ← file_of v file;
      let b := take (Z.to_nat wanted) (drop (Z.to_nat o) c) in
      if bool_decide (Z.of_nat (length b) = wanted) then Some (Ok b, set_fds (<[file := (i, o + wanted)]>) v)
      else if Z.of_nat (length c) <? o + wanted then Some (Err "unexpected end of file"%string, v) else None
  | SysWrite file b => v' ← write_at v file b; Some (Ok (Z.of_nat (length b)), v')
  | SysWriteAll file b => v' ← write_at v file b; Some (Ok tt, v')
  | SysFlush _ | SysSyncAll _ => Some (Ok tt, v)
  | SysLen file => '(i, o, c) ← file_of v file; Some (Ok (Z.of_nat (length c)), v)
  | SysRandom => Some (Ok (replicate 32 (byte_of_Z (Z.of_nat (size (v_fds v))))), v)
  | _ => None
  end.

Lemma dir_of_Some v fd d e : dir_of v fd = Some (d, e) → identity_of v fd = Some d ∧ v_dirs v !! d = Some e ∧ ∀ n, entry v d n = e !! n.
Proof.
  unfold dir_of. intros (d' & Hd & (e' & He & [= <- <-])%bind_Some)%bind_Some. split_and!; [done..|]. intros n. unfold entry. by rewrite He.
Qed.
Lemma file_of_Some v fd i o c : file_of v fd = Some (i, o, c) → v_fds v !! fd = Some (i, o) ∧ v_files v !! i = Some c.
Proof. unfold file_of. intros ([i' o'] & Hf & (c' & Hc & [= <- <- <-])%bind_Some)%bind_Some. done. Qed.

Lemma write_at_Some v file b v' : write_at v file b = Some v' → written_at v file b v'.
Proof.
  unfold write_at. intros ([[i o] c] & [Hf Hc]%file_of_Some & [= <-])%bind_Some. by exists i, o, c.
Qed.

(** Memory keeps the promises, without faults. *)
Lemma memory_effect R (c : Sys R) v r v' : memory c v = Some (r, v') → effect False c v r v'.
Proof.
  destruct c; cbn [memory effect]; intros H; try discriminate H.
  - apply bind_Some in H as ([d e] & (Hd & He & Hn)%dir_of_Some & H). destruct (e !! name) as [i|] eqn:Ei.
    + injection H as <- <-. split; [done|]. right. exists d. by rewrite Hn, Ei.
    + injection H as <- <-. exists d, (new_identity v). rewrite Hn, He. split_and!; [done|by eexists|done|apply new_identity_unused|apply new_fd_free|done].
  - apply bind_Some in H as ([d e] & (Hd & He & Hn)%dir_of_Some & H). destruct (e !! name) as [i|] eqn:Ei.
    + injection H as <- <-. exists d, i. rewrite Hn. split_and!; [done..|split; [apply new_fd_free|done]].
    + injection H as <- <-. split; [done|]. exists d. by rewrite Hn.
  - apply bind_Some in H as (i & Hi & [= <- <-]). done.
  - apply bind_Some in H as ([d e] & (Hd & He & Hn)%dir_of_Some & H). destruct (e !! name) as [i|] eqn:Ei.
    + injection H as <- <-. split; [done|]. exists d. by rewrite Hn.
    + injection H as <- <-. split; [done|]. right. exists d. by rewrite Hn.
  - by injection H as <- <-.
  - by injection H as <- <-.
  - apply bind_Some in H as ([d e] & (Hd & He & Hn)%dir_of_Some & H). destruct (e !! name) as [i|] eqn:Ei.
    + injection H as <- <-. exists d. by rewrite Hn, Ei.
    + injection H as <- <-. split; [done|]. right. exists d. rewrite Hn. auto.
  - apply bind_Some in H as ([d e] & (Hd & He & Hn)%dir_of_Some & H). apply bind_Some in H as ([d' e'] & (Hd' & He' & Hn')%dir_of_Some & H).
    destruct (e !! name) as [i|] eqn:Ei; [destruct (e' !! to_name) as [j|] eqn:Ej|].
    + injection H as <- <-. split; [done|]. exists d'. by rewrite Hn', Ej.
    + injection H as <- <-. exists d, d', i. rewrite Hn, Hn', He'. by split_and!.
    + injection H as <- <-. split; [done|]. right. exists d. by rewrite Hn.
  - apply bind_Some in H as (p & Hp & [= <- <-]). exists p. split_and!; [done|apply new_fd_free|done].
  - by injection H as <- <-.
  - by injection H as <- <-.
  - apply bind_Some in H as ([i o] & Hp & [= <- <-]). by exists i, o.
  - apply bind_Some in H as ([[i o] c'] & [Hf Hc]%file_of_Some & H). destruct (_ && _) eqn:Hb; [|done]. injection H as <- <-.
    apply andb_true_iff in Hb as [Hw%Z.leb_le Ho%Z.leb_le]. exists i, o, c'.
    set (l := drop (Z.to_nat o) c'). assert (length l = length c' - Z.to_nat o)%nat as Hl by apply length_drop. split_and!; [done..| | | |done].
    + rewrite length_take. destruct (Nat.le_ge_cases (Z.to_nat wanted) (length l)); [by rewrite Nat.min_l|].
      rewrite Nat.min_r by done. by rewrite !take_ge.
    + rewrite length_take. lia.
    + intros E%(f_equal length). rewrite length_take in E. simpl in E. lia.
  - apply bind_Some in H as ([[i o] c'] & [Hf Hc]%file_of_Some & H). exists i, o, c'. split; [done|]. split; [done|].
    set (l := drop (Z.to_nat o) c') in *. case_bool_decide as Hb; [|destruct (Z.ltb_spec (Z.of_nat (length c')) (o + wanted)); [|done]];
      injection H as <- <-; cbn.
    + split_and!; [done| |done]. f_equal. lia.
    + split; [by right|]. exists o. destruct v as [fds ? ? ?]. unfold set_fds. cbn in *. by rewrite insert_id.
  - apply bind_Some in H as (v2 & Hw%write_at_Some & [= <- <-]). split; [lia|]. split; [by left; destruct b|]. by rewrite Nat2Z.id, firstn_all.
  - by apply bind_Some in H as (v2 & Hw%write_at_Some & [= <- <-]).
  - by injection H as <- <-.
  - by injection H as <- <-.
  - apply bind_Some in H as ([[i o] c'] & [Hf Hc]%file_of_Some & [= <- <-]). split; [done|]. exists i, c'. unfold identity_of. by rewrite Hf.
  - injection H as <- <-. split; [done|reflexivity].
Qed.

(** ** Running a method *)

Fixpoint run {A} (p : Prog A) (v : View) : option (A * View) :=
  match p with
  | Ret a => Some (a, v)
  | Call c k => match memory c v with Some (r, v') => run (k r) v' | None => None end
  end.

(** The kernel in memory, among any processes that keep to a rely condition. *)
Definition memory_kernel (others : View → View → Prop) : Kernel :=
  {| kernel R c v r v' := memory c v = Some (r, v'); interferes := others |}.

Lemma run_steps others {A} (p : Prog A) v a v' : run p v = Some (a, v') → rtc (@step (memory_kernel others) A) (p, v) (Ret a, v').
Proof.
  revert v. induction p as [b|R c k IH]; intros v; cbn [run].
  - intros [= <- <-]. done.
  - destruct (memory c v) as [[r v1]|] eqn:E; [|done]. intros Hr%IH. eapply rtc_l; [|exact Hr]. by apply (@step_call (memory_kernel others)).
Qed.
