(* ===== verification/StoreReads.v ===== *)
(** * Reading stored objects

    What other processes may do, what a valid object is, and the methods that only
    read: the envelope of a file, and opening an object by its digest. *)
From stdpp Require Import gmap.
From S2P Require Import Prelude Bytes State Identity PoseidonBoundary PoseidonProofs Decode Store StoreFs StoreLogic.
Import Store StoreFs.

Open Scope Z_scope.

(** The bytes of an object. *)
Definition envelope (m : ObjectMetadata) (payload : bytes) : bytes :=
  MAGIC ++ encode_u32 (Z.of_nat (length (metadata_bytes m))) ++ metadata_bytes m ++ payload.

Lemma object_name_inj d d' : object_name d = object_name d' → d = d'.
Proof.
  unfold object_name, digest_display. intros E%(f_equal String.list_ascii_of_string). rewrite !String.list_ascii_of_string_of_list_ascii in E.
  revert d' E. induction d as [|b d IH]; intros [|b' d'] E; [done|done|done|].
  cbn [fmap list_fmap mjoin list_join hex_of_byte app] in E. injection E as E1 E2 E. f_equal; [|by apply IH].
  pose proof (hex_byte_of_byte b) as Hb. rewrite E1, E2, hex_byte_of_byte in Hb. congruence.
Qed.

Lemma metadata_size m : metadata_ok m → in_u64 (size m).
Proof. destruct m; cbn; intros Hm; apply Hm. Qed.

(** Calls that change neither files nor directories. *)
Definition looks (v v' : View) : Prop :=
  v_files v' = v_files v ∧ v_dirs v' = v_dirs v ∧ v_owned v' = v_owned v ∧
  ∀ fd i, identity_of v fd = Some i → identity_of v' fd = Some i.
Definition looking {R} (c : Sys R) : bool :=
  match c with
  | SysOpen _ _ | SysFstat _ | SysStatat _ _ | SysFchmod _ | SysFsync _ | SysDup _ | SysReadFrom _ | SysReadDir _ | SysClone _ | SysSeek _ _
  | SysRead _ _ | SysReadExact _ _ | SysFlush _ | SysSyncAll _ | SysLen _ | SysRandom => true
  | _ => false
  end.

Lemma looks_refl v : looks v v.
Proof. by split_and!. Qed.
Lemma looks_fd v fd p : v_fds v !! fd = None → looks v (set_fds (<[fd := p]>) v).
Proof.
  intros Hn. split_and!; [done..|]. unfold identity_of. intros fd' i Hi. cbn [v_fds set_fds].
  rewrite lookup_insert_ne; [done|]. intros ->. by rewrite Hn in Hi.
Qed.
Lemma looks_offset v fd i o o' : v_fds v !! fd = Some (i, o) → looks v (set_fds (<[fd := (i, o')]>) v).
Proof.
  intros Hn. split_and!; [done..|]. unfold identity_of. intros fd' j Hj. cbn [v_fds set_fds].
  destruct (decide (fd = fd')) as [->|]; [rewrite lookup_insert_eq; by rewrite Hn in Hj|by rewrite lookup_insert_ne].
Qed.

Lemma effect_looks faulty {R} (c : Sys R) v r v' : looking c = true → effect faulty c v r v' → looks v v'.
Proof.
  destruct c; intros Hl; try discriminate Hl; clear Hl; unfold fails, opened; cbn [effect].
  - destruct r as [fd|[]]; [intros (? & ? & _ & _ & Hf & ->); by apply looks_fd|intros [-> _]; apply looks_refl..].
  - destruct r as [[]|]; [intros (-> & _)|intros (_ & -> & _)]; apply looks_refl.
  - destruct r as [[]|]; [intros (-> & _)|intros (-> & _)]; apply looks_refl.
  - destruct r; [intros ->|intros (_ & -> & _)]; apply looks_refl.
  - destruct r; [intros ->|intros (_ & -> & _)]; apply looks_refl.
  - destruct r; [intros (p & _ & Hn & ->); by apply looks_fd|intros (_ & -> & _); apply looks_refl].
  - destruct r; [intros ->|intros (_ & -> & _)]; apply looks_refl.
  - intros [-> _]. apply looks_refl.
  - destruct r; [intros ->|intros (_ & -> & _)]; apply looks_refl.
  - destruct r; [intros (i & o & Hf & ->); by eapply looks_offset|intros (_ & -> & _); apply looks_refl].
  - destruct r; [intros (i & o & co & Hf & _ & _ & _ & _ & ->); by eapply looks_offset|intros (_ & -> & _); apply looks_refl].
  - intros (i & o & co & Hf & _ & Hr). destruct r; [destruct Hr as (_ & _ & ->)|destruct Hr as (_ & o' & ->)]; by eapply looks_offset.
  - destruct r; [intros ->|intros (_ & -> & _)]; apply looks_refl.
  - destruct r; [intros ->|intros (_ & -> & _)]; apply looks_refl.
  - destruct r; [intros (-> & _)|intros (_ & -> & _)]; apply looks_refl.
  - destruct r; [intros (-> & _)|intros (_ & -> & _)]; apply looks_refl.
Qed.

Lemma overwrite_end b c : overwrite (length c) b c = c ++ b.
Proof.
  unfold overwrite. destruct (bool_decide_reflect (b = [])) as [->|]; [by rewrite app_nil_r|].
  rewrite Nat.sub_diag, app_nil_r, firstn_all, drop_ge; [by rewrite app_nil_r|lia].
Qed.

Section Reads.
Context `{Blake3} (faulty private : Prop) (objects : FileIdentity).

Definition payload_ok (m : ObjectMetadata) (payload : bytes) : Prop :=
  metadata_ok m ∧ Z.of_nat (length payload) = size m ∧ blake3 payload = content_digest m.
Definition digest_of (m : ObjectMetadata) (payload : bytes) : Digest32 := object_digest (metadata_bytes m) payload.
(** The file [i] is the object its name says. *)
Definition valid (v : View) (name : string) (i : FileIdentity) : Prop :=
  ∃ m payload, payload_ok m payload ∧ v_files v !! i = Some (envelope m payload) ∧ name = object_name (digest_of m payload).

(** What other processes do: they leave our descriptors and private files alone, never
    remove or replace an object, nor change a valid one, and add only valid ones.  If
    [private], they also leave the names of private files alone. *)
Record rely (v v' : View) : Prop := {
  ry_fds : v_fds v' = v_fds v;
  ry_owned : v_owned v' = v_owned v;
  ry_files i : i ∈ v_owned v → v_files v' !! i = v_files v !! i;
  ry_dirs d : is_Some (v_dirs v !! d) → is_Some (v_dirs v' !! d);
  ry_entries n i : entry v objects n = Some i → entry v' objects n = Some i ∧ (valid v n i → v_files v' !! i = v_files v !! i);
  ry_new n i : entry v objects n = None → entry v' objects n = Some i → valid v' n i ∧ i ∉ v_owned v;
  ry_private : private → ∀ d n i, i ∈ v_owned v → entry v d n = Some i → entry v' d n = Some i
}.

Lemma valid_files v v' n i : v_files v' !! i = v_files v !! i → valid v n i → valid v' n i.
Proof. intros E (m & p & Hp & Hf & Hn). exists m, p. by rewrite E. Qed.

#[export] Instance rely_preorder : PreOrder rely.
Proof.
  split.
  - intros v. split; try done. intros n i E E'. congruence.
  - intros v1 v2 v3 [F1 O1 C1 D1 E1 N1 P1] [F2 O2 C2 D2 E2 N2 P2]. split.
    + congruence.
    + congruence.
    + intros i Hi. rewrite C2, C1; [done|done|by rewrite O1].
    + auto.
    + intros n i Hi. destruct (E1 n i Hi) as [Hi' Hv]. destruct (E2 n i Hi') as [Hi'' Hv']. split; [done|].
      intros Hva. rewrite Hv'; [by apply Hv|]. eapply valid_files; [by apply Hv|done].
    + intros n i Hn Hi. destruct (entry v2 objects n) as [j|] eqn:Ej.
      * destruct (N1 n j Hn Ej) as [Hv Ho]. destruct (E2 n j Ej) as [Hj Hv']. assert (j = i) as -> by congruence.
        split; [|done]. eapply valid_files; [by apply Hv'|done].
      * rewrite <-O1. by apply N2.
    + intros Hp d n i Hi He. apply P2; [done|by rewrite O1|by apply P1].
Qed.

(** Every object with such a name is valid. *)
Definition objects_valid (P : string → Prop) (v : View) : Prop := ∀ n i, entry v objects n = Some i → P n → valid v n i.

Lemma objects_valid_rely P v v' : objects_valid P v → rely v v' → objects_valid P v'.
Proof.
  intros Hv Hr n i Hi Hn. destruct (entry v objects n) as [j|] eqn:Ej.
  - destruct (ry_entries _ _ Hr n j Ej) as [Hj Hf]. assert (j = i) as -> by congruence. specialize (Hv n i Ej Hn).
    eapply valid_files; [by apply Hf|done].
  - by apply (ry_new _ _ Hr n i).
Qed.

(** Assertions that survive other processes and calls that only look. *)
Record calm (I : View → Prop) : Prop := {
  calm_rely v v' : I v → rely v v' → I v';
  calm_looks v v' : I v → looks v v' → I v'
}.

Lemma calm_and I I' : calm I → calm I' → calm (λ v, I v ∧ I' v).
Proof. intros [] []. split; intros v v' []; split; eauto. Qed.
Lemma calm_imp (P : Prop) I : (P → calm I) → calm (λ v, P → I v).
Proof. intros HI. split; intros v v' Hv Hr HP; destruct (HI HP); eauto. Qed.
Lemma calm_objects_valid P : calm (objects_valid P).
Proof.
  split; [apply objects_valid_rely|]. intros v v' Hv (Hf & Hd & _) n i Hi Hn. eapply valid_files; [by rewrite Hf|].
  apply Hv; [|done]. unfold entry in *. by rewrite <-Hd.
Qed.
Lemma calm_identity fd i : calm (λ v, identity_of v fd = Some i).
Proof. split; [|by intros v v' Hv (_ & _ & _ & Hi); auto]. intros v v' Hv Hr. unfold identity_of. by rewrite (ry_fds _ _ Hr). Qed.
Lemma calm_content i c : calm (λ v, i ∈ v_owned v ∧ v_files v !! i = Some c).
Proof.
  split.
  - intros v v' [Hi Hc] Hr. rewrite (ry_owned _ _ Hr), (ry_files _ _ Hr i Hi). done.
  - intros v v' [Hi Hc] (Hf & _ & Ho & _). by rewrite Hf, Ho.
Qed.
Lemma calm_name n i : calm (λ v, entry v objects n = Some i).
Proof.
  split; [intros v v' He Hr; by apply (ry_entries _ _ Hr)|]. intros v v' He (_ & Hd & _). unfold entry. by rewrite Hd.
Qed.
Lemma calm_entry d n i : calm (λ v, private → i ∈ v_owned v ∧ entry v d n = Some i).
Proof.
  split.
  - intros v v' Hv Hr Hp. destruct (Hv Hp) as [Ho He]. rewrite (ry_owned _ _ Hr). split; [done|]. by apply (ry_private _ _ Hr).
  - intros v v' Hv (Hf & Hd & Ho & _) Hp. unfold entry. rewrite Ho, Hd. by apply Hv.
Qed.
Lemma calm_unlinked i : calm (λ v, i ∈ v_owned v ∧ ∀ n, entry v objects n ≠ Some i).
Proof.
  split.
  - intros v v' [Ho Hn] Hr. rewrite (ry_owned _ _ Hr). split; [done|]. intros n Hi. destruct (entry v objects n) as [j|] eqn:Ej.
    + destruct (ry_entries _ _ Hr n j Ej) as [Hj _]. apply (Hn n). congruence.
    + by destruct (ry_new _ _ Hr n i Ej Hi).
  - intros v v' [Ho Hn] (_ & Hd & Hw & _). rewrite Hw. split; [done|]. unfold entry. by rewrite Hd.
Qed.
Lemma calm_pure (P : Prop) : calm (λ _, P).
Proof. by split. Qed.
Lemma calm_object n i : calm (λ v, entry v objects n = Some i ∧ valid v n i).
Proof.
  split.
  - intros v v' [He Hv] Hr. destruct (ry_entries _ _ Hr n i He) as [He' Hf]. split; [done|]. eapply valid_files; [by apply Hf|done].
  - intros v v' [He Hv] (Hf & Hd & _). unfold entry in *. rewrite Hd. split; [done|]. eapply valid_files; [|done]. by rewrite Hf.
Qed.
Lemma calm_valid n i c : calm (λ v, entry v objects n = Some i ∧ valid v n i ∧ v_files v !! i = Some c).
Proof.
  destruct (calm_object n i) as [Hr Hl]. split.
  - intros v v' (He & Hv & Hc) Hrel. destruct (Hr v v' (conj He Hv) Hrel) as [He' Hv']. split_and!; [done..|].
    destruct (ry_entries _ _ Hrel n i He) as [_ Hf]. by rewrite Hf.
  - intros v v' (He & Hv & Hc) Hlk. destruct (Hl v v' (conj He Hv) Hlk) as [He' Hv']. split_and!; [done..|]. by destruct Hlk as [-> _].
Qed.

(** ** Rules *)

Section Rules.
Context (J I : View → Prop) (HI : calm I) (HJ : ∀ v, I v → J v).
#[local] Notation wp := (wp faulty rely J).

Lemma wp_answer {A} (a : A) Q v : (∀ v', I v' → Q a v') → I v → wp (Ret a) Q v.
Proof using HI HJ. intros HQ Hv v' Hr. apply (calm_rely _ HI _ _ Hv) in Hr. auto. Qed.

(** A call among the other processes. *)
Lemma wp_call {A R} (c : Sys R) (k : R → Prog A) Q v :
  I v → (∀ v1 r v2, I v1 → v_fds v1 = v_fds v → effect faulty c v1 r v2 → wp (k r) Q v2) → wp (Call c k) Q v.
Proof using HI HJ.
  intros Hv Hk v1 Hr. pose proof (ry_fds _ _ Hr) as Hf. apply (calm_rely _ HI _ _ Hv) in Hr. split; [by apply HJ|].
  intros r v2 He. by eapply Hk.
Qed.
Lemma wp_look {A R} (c : Sys R) (k : R → Prog A) Q v :
  looking c = true → I v → (∀ v1 r v2, I v1 → I v2 → effect faulty c v1 r v2 → wp (k r) Q v2) → wp (Call c k) Q v.
Proof using HI HJ.
  intros Hl Hv Hk. apply wp_call; [done|]. intros v1 r v2 Hv1 _ He. eapply Hk; [done| |done].
  eapply (calm_looks _ HI); [done|]. by eapply effect_looks.
Qed.

(** [?], whatever the error becomes. *)
Definition raises {A E} (c : Sys (Result A E)) (conv : E → StoreError) : Method A := bind (sys c) (λ r, lift (map_err conv r)).

Lemma wp_raises {A B E} (c : Sys (Result A E)) conv (k : A → Method B) Q v :
  looking c = true → I v →
  (∀ e v1 v2 v', I v1 → effect faulty c v1 (Err e) v2 → I v' → Q (Some (Err (conv e))) v') →
  (∀ a v1 v2, I v1 → I v2 → effect faulty c v1 (Ok a) v2 → wp (k a) Q v2) → wp (and_then (raises c conv) k) Q v.
Proof using HI HJ.
  intros Hl Hv He Ha. apply wp_look; [done..|]. intros v1 [a|e] v2 Hv1 Hv2 Hef; [exact (Ha a v1 v2 Hv1 Hv2 Hef)|].
  apply (wp_answer (Some (Err (conv e)))); [|done]. intros v' Hv'. exact (He e v1 v2 v' Hv1 Hef Hv').
Qed.

(** *** Reading a file *)

Section File.
Context (fd : Fd) (i : FileIdentity) (good : Prop) (c : bytes).
Context (Hfd : ∀ v, I v → identity_of v fd = Some i) (Hc : good → ∀ v, I v → v_files v !! i = Some c).

(** The offset, which nobody else moves. *)
Definition at_offset (o : Z) (v : View) : Prop := I v ∧ v_fds v !! fd = Some (i, o).

Lemma at_offset_call {A R} (cl : Sys R) (k : R → Prog A) Q v o :
  looking cl = true → at_offset o v →
  (∀ v1 r v2, at_offset o v1 → I v2 → effect faulty cl v1 r v2 → wp (k r) Q v2) → wp (Call cl k) Q v.
Proof using HI HJ.
  intros Hl [Hv Ho] Hk. apply wp_call; [done|]. intros v1 r v2 Hv1 Hf He. eapply Hk; [split; [done|by rewrite Hf]| |done].
  eapply (calm_looks _ HI); [done|]. by eapply effect_looks.
Qed.

Lemma wp_seek {B} (k : unit → Method B) Q v o :
  I v → (∀ e v', faulty → I v' → Q (Some (Err e)) v') → (∀ v', at_offset o v' → wp (k tt) Q v') →
  wp (and_then (io (SysSeek fd o)) k) Q v.
Proof using HI HJ Hfd.
  intros Hv He Hk. apply (wp_raises (SysSeek fd o) Io); [done..| |].
  - intros e v1 v2 v' _ (Hf & _) Hv'. by apply He.
  - intros [] v1 v2 Hv1 Hv2 (j & o' & Hj & ->). apply Hk. split; [done|]. specialize (Hfd v1 Hv1). unfold identity_of in Hfd.
    rewrite Hj in Hfd. injection Hfd as ->. cbn. by rewrite lookup_insert_eq.
Qed.

Lemma wp_read_exact {B} conv (k : bytes → Method B) Q v o n :
  at_offset o v →
  (∀ e v', faulty ∨ ¬ good ∨ Z.of_nat (length c) < o + n → I v' → Q (Some (Err (conv e))) v') →
  (∀ b v', at_offset (o + n) v' → Z.of_nat (length b) = n → (good → b = take (length b) (drop (Z.to_nat o) c)) → wp (k b) Q v') →
  wp (and_then (raises (SysReadExact fd n) conv) k) Q v.
Proof using HI HJ Hc.
  intros Hv He Hk. apply (at_offset_call (SysReadExact fd n) _ _ _ o); [done..|]. intros v1 r v2 [Hv1 Ho] Hv2 (j & o' & c' & Hj & Hcj & Hr).
  rewrite Ho in Hj. injection Hj as <- <-. destruct r as [b|e].
  - destruct Hr as (Hn & Hb & ->). apply (Hk b); [split; [done|cbn; by rewrite lookup_insert_eq]|done|].
    intros Hg. rewrite (Hc Hg v1 Hv1) in Hcj. by injection Hcj as ->.
  - destruct Hr as (Hf & _). apply (wp_answer (Some (Err (conv e)))); [|done]. intros v' Hv'. apply He; [|done].
    destruct Hf as [Hf|Hl]; [by left|right]. destruct (decide (Z.of_nat (length c) < o + n)); [by right|left].
    intros Hg. rewrite (Hc Hg v1 Hv1) in Hcj. injection Hcj as ->. done.
Qed.

(** The loop reads the payload, and gives up only at the end of the file. *)
Lemma wp_read_payload Q fuel v o n :
  at_offset o v → 0 ≤ n → 0 ≤ o → n ≤ Z.of_nat fuel →
  (∀ e v', faulty ∨ ¬ good ∨ Z.of_nat (length c) < o + n → I v' → Q (Some (Err e)) v') →
  (∀ b v', I v' → Z.of_nat (length b) = n → (good → b = take (length b) (drop (Z.to_nat o) c)) → Q (Some (Ok b)) v') →
  wp (read_payload fuel fd n) Q v.
Proof using HI HJ Hc.
  revert Q v o n. induction fuel as [|fuel IH]; intros Q v o n Hv Hn Ho Hfuel He Hk; cbn [read_payload];
    (destruct (Z.eqb_spec n 0) as [->|Hne]; [apply wp_answer; [intros v' Hv'; by apply Hk|by destruct Hv]|]); [lia|].
  apply (at_offset_call (SysRead fd _) _ _ _ o); [done..|]. intros v1 r v2 [Hv1 Ho1] Hv2 Hr. destruct r as [b|e].
  2: { apply (wp_answer (Some (Err (Io e)))); [|done]. intros v' Hv'. destruct Hr as (Hf & _). apply He; [by left|done]. }
  destruct Hr as (j & o' & c' & Hj & Hcj & Hb & Hlen & Hend & ->). rewrite Ho1 in Hj. injection Hj as <- <-.
  assert (good → c' = c) as Hcc by (intros Hg; rewrite (Hc Hg v1 Hv1) in Hcj; by injection Hcj).
  cbn [bind sys lift map_err and_then]. destruct (Z.eqb_spec (Z.of_nat (length b)) 0) as [Hz|Hz].
  - apply wp_answer; [|done]. intros v' Hv'. apply He; [|done]. right. destruct b as [|]; [|simpl in Hz; lia].
    destruct (Hend eq_refl) as [Hw|Hw]; [unfold BUFFER in Hw; lia|].
    destruct (decide (Z.of_nat (length c) < o + n)); [by right|left]. intros Hg. rewrite (Hcc Hg) in Hw. lia.
  - apply wp_seq; [apply rely_preorder|]. apply (IH _ _ (o + Z.of_nat (length b))); [split; [done|cbn; by rewrite lookup_insert_eq]|lia|lia|lia| |].
    + intros e v' Hf Hv'. apply (wp_answer (Some (Err e))); [|done]. intros v'' Hv''. apply He; [|done].
      destruct Hf as [?|[?|?]]; [by left|by right; left|right; right; lia].
    + intros b' v' Hv' Hl Hb'. apply (wp_answer (Some (Ok (b ++ b')))); [|done]. intros v'' Hv''. apply Hk; [done|rewrite length_app; lia|].
      intros Hg. rewrite length_app, <-take_take_drop, drop_drop. f_equal; [by rewrite <-(Hcc Hg)|]. rewrite (Hb' Hg) at 1.
      do 2 f_equal. lia.
Qed.

(** The check of [verify_envelope]: what it returns is what the file holds, and it
    fails only on a failing call or on a file that is not an envelope. *)
Definition verified (expected : option ObjectMetadata) (m : ObjectMetadata) (d : Digest32) : Prop :=
  (∀ e, expected = Some e → e = m) ∧ ∃ payload, payload_ok m payload ∧ d = digest_of m payload ∧ (good → c = envelope m payload).
(** The file holds an envelope of the expected metadata. *)
Definition readable (expected : option ObjectMetadata) : Prop :=
  good ∧ ∃ m payload, payload_ok m payload ∧ in_u64 (size m) ∧ c = envelope m payload ∧ ∀ e, expected = Some e → e = m.

(** The parts of such a file, for metadata of [n] bytes. *)
Definition parts (expected : option ObjectMetadata) (n : Z) (m : ObjectMetadata) : Prop :=
  payload_ok m (drop (12 + Z.to_nat n) c) ∧ in_u64 (size m) ∧ (∀ e, expected = Some e → e = m) ∧
  n = Z.of_nat (length (metadata_bytes m)) ∧ n ≤ 512 ∧ Z.of_nat (length c) = 12 + n + size m ∧ take (Z.to_nat n) (drop 12 c) = metadata_bytes m.

Lemma readable_parts expected : readable expected →
  ∃ n m, parts expected n m ∧ take 8 c = MAGIC ∧ take 4 (drop 8 c) = encode_u32 n.
Proof using Type.
  clear Hfd Hc HI HJ.
  intros (_ & m & payload & Hp & Hs & Ec & He). unfold parts. rewrite !Ec. clear Ec. exists (Z.of_nat (length (metadata_bytes m))), m.
  pose proof (metadata_bytes_length m (proj1 Hp)) as Hl. pose proof Hp as (Hm & Hlen & Hb).
  assert (∀ k, length (encode_u32 k) = 4%nat) as H4 by (intros; apply length_to_le_bytes).
  assert (length MAGIC = 8%nat) as H8 by done.
  assert (drop (12 + length (metadata_bytes m)) (envelope m payload) = payload) as Ed.
  { unfold envelope. rewrite !app_assoc, drop_app_length'; [done|]. rewrite !length_app, H4, H8. lia. }
  rewrite Nat2Z.id, Ed. unfold envelope. split_and!; try done.
  - rewrite !length_app, H4, H8. lia.
  - rewrite (app_assoc MAGIC), drop_app_length' by (by rewrite length_app, H4, H8). by rewrite take_app_length'.
Qed.

Lemma unreadable expected x : (readable expected → ¬ x) → faulty ∨ ¬ good ∨ x → faulty ∨ ¬ readable expected.
Proof using Type. clear Hfd Hc HI HJ. intros Hx [?|[Hg|?]]; [by left|right; by intros [? _]|right; naive_solver]. Qed.

(** The parts that were read make up the file. *)
Lemma envelope_read (magic raw_len : bytes) m payload :
  good → metadata_ok m → payload_ok m payload → magic = MAGIC → magic = take 8 c → raw_len = take 4 (drop 8 c) → length raw_len = 4%nat →
  PoseidonBoundary.from_le_bytes raw_len = Z.of_nat (length (metadata_bytes m)) →
  metadata_bytes m = take (length (metadata_bytes m)) (drop 12 c) →
  Z.of_nat (length c) = 12 + Z.of_nat (length (metadata_bytes m)) + size m →
  payload = take (length payload) (drop (12 + length (metadata_bytes m)) c) → c = envelope m payload.
Proof using Type.
  clear Hfd Hc HI HJ.
  intros Hg Hm (_ & Hl & _) Em Emc Er Hr4 Hn Emb Hlen Hp. set (n := length (metadata_bytes m)) in *.
  assert (payload = drop (12 + n) c) as Ep.
  { rewrite Hp. apply take_ge. rewrite length_drop. lia. }
  assert (raw_len = encode_u32 (Z.of_nat n)) as Eu by (rewrite <-Hn; unfold encode_u32; rewrite <-Hr4; by rewrite to_from_le_bytes).
  unfold envelope. fold n. rewrite <-Em, Emc, <-Eu, Er, Ep, Emb. rewrite <-(take_drop 8 c) at 1. f_equal.
  rewrite <-(take_drop 4 (drop 8 c)) at 1. f_equal. rewrite drop_drop. change (8 + 4)%nat with 12%nat.
  rewrite <-(take_drop n (drop 12 c)) at 1. by rewrite drop_drop.
Qed.

(** The three parts of the check, from the last. *)
Lemma wp_verify_contents expected Q v m raw :
  let n := Z.of_nat (length raw) in
  at_offset (12 + n) v → metadata_ok m → (readable expected → parts expected n m) →
  (∀ e v', faulty ∨ ¬ readable expected → I v' → Q (Some (Err e)) v') →
  (∀ payload v', I v' → payload_ok m payload → (good → Z.of_nat (length c) = 12 + n + size m ∧
     payload = take (length payload) (drop (12 + length raw) c)) → Q (Some (Ok (m, object_digest raw payload))) v') →
  wp (verify_contents fd m raw) Q v.
Proof using HI HJ Hfd Hc.
  intros n Hv Hm Hrd He Hk.
  assert (∀ e v, I v → faulty ∨ ¬ readable expected → wp (err (A := ObjectMetadata * Digest32) e) Q v) as Herr.
  { intros e v' Hv' Hb. apply (wp_answer (Some (Err e))); [|done]. intros v2 Hv2. by apply He. }
  unfold verify_contents. fold n.
  apply (at_offset_call (SysLen fd) _ _ _ _ eq_refl Hv). intros v7 r v8 Hv7 _ Hlen. destruct r as [len|e].
  2: { destruct Hlen as (Hf & -> & _). apply (Herr (Io e)); [apply Hv7|by left]. }
  destruct Hlen as (-> & j & c' & Hj & Hcj & ->). cbn [bind sys lift map_err and_then].
  assert (good → c' = c) as Hcc.
  { intros Hg. destruct Hv7 as [Hv7 _]. specialize (Hfd v7 Hv7). assert (j = i) as -> by congruence. rewrite (Hc Hg v7 Hv7) in Hcj. congruence. }
  destruct (bool_decide_reflect (try_u64 (Z.of_nat (length c') - (12 + n)) = Some (size m))) as [Hsz|Hsz]; cbn [negb].
  2: { apply Herr; [apply Hv7|]. right. intros Hr. destruct (Hrd Hr) as (_ & Hs & _ & _ & _ & Hl & _). apply Hsz. rewrite (Hcc (proj1 Hr)).
       apply try_u64_Some. split; [lia|]. replace (Z.of_nat (length c) - (12 + n)) with (size m) by lia. done. }
  apply try_u64_Some in Hsz as [Hsz Hs0]. apply wp_seq; [apply rely_preorder|].
  apply (wp_read_payload _ _ _ (12 + n)); [exact Hv7|zlia|lia|zlia| |].
  { intros e v' Hb Hv'. apply Herr; [done|]. eapply unreadable; [|exact Hb]. intros (_ & _ & _ & _ & _ & Hl & _)%Hrd. lia. }
  intros payload v9 Hv9 Hlp Hpay. replace (Z.to_nat (12 + n)) with (12 + length raw)%nat in Hpay by lia.
  destruct (bool_decide_reflect (blake3 payload = content_digest m)) as [Hb|Hb]; cbn [negb].
  2: { apply Herr; [done|]. right. intros Hr. destruct (Hrd Hr) as ((_ & _ & Hbp) & _ & _ & _ & _ & Hl & _). apply Hb. rewrite <-Hbp.
       f_equal. unfold n. rewrite Nat2Z.id, (Hpay (proj1 Hr)). apply take_ge. rewrite length_drop. lia. }
  apply (wp_answer (Some (Ok (m, object_digest raw payload)))); [|done]. intros v' Hv'. apply Hk; [done|by split_and!|].
  intros Hg. split; [|by apply Hpay]. rewrite <-(Hcc Hg). lia.
Qed.

Lemma wp_verify_metadata expected Q v n :
  at_offset 12 v → 0 ≤ n → (readable expected → ∃ m, parts expected n m) →
  (∀ e v', faulty ∨ ¬ readable expected → I v' → Q (Some (Err e)) v') →
  (∀ m payload v', I v' → (∀ e, expected = Some e → e = m) → payload_ok m payload → n = Z.of_nat (length (metadata_bytes m)) →
     (good → Z.of_nat (length c) = 12 + n + size m ∧ metadata_bytes m = take (length (metadata_bytes m)) (drop 12 c) ∧
       payload = take (length payload) (drop (12 + length (metadata_bytes m)) c)) →
     Q (Some (Ok (m, object_digest (metadata_bytes m) payload))) v') →
  wp (verify_metadata fd expected n) Q v.
Proof using HI HJ Hfd Hc.
  intros Hv Hn0 Hrd He Hk.
  assert (∀ e v, I v → faulty ∨ ¬ readable expected → wp (err (A := ObjectMetadata * Digest32) e) Q v) as Herr.
  { intros e v' Hv' Hb. apply (wp_answer (Some (Err e))); [|done]. intros v2 Hv2. by apply He. }
  unfold verify_metadata. apply (wp_read_exact (λ _, MetadataMismatch) _ _ _ 12); [done| |].
  { intros e v' Hb Hv'. apply He; [|done]. eapply unreadable; [|exact Hb]. intros (m & (_ & Hs & _ & _ & _ & Hl & _))%Hrd. zlia. }
  intros raw v6 Hv6 Hlr Hrm. unfold lift at 1.
  assert (readable expected → ∃ m, parts expected n m ∧ raw = metadata_bytes m) as Hraw.
  { intros Hr. destruct (Hrd Hr) as (m & Hp). exists m. split; [done|]. destruct Hp as (_ & _ & _ & _ & _ & _ & <-).
    rewrite (Hrm (proj1 Hr)). by replace (length raw) with (Z.to_nat n) by lia. }
  destruct (decode_metadata raw) as [m|e] eqn:Hdec; cbn [and_then bind].
  2: { apply Herr; [apply Hv6|]. right. intros (m & ((Hm & _) & _) & ->)%Hraw.
       rewrite (proj2 (metadata_codec _ m)) in Hdec; [done|]. split; [done|]. by apply encode_metadata_Ok. }
  assert (metadata_ok m ∧ raw = metadata_bytes m) as [Hm ->].
  { apply metadata_codec in Hdec as [Hm He']. split; [done|]. by apply encode_metadata_Ok. }
  assert (readable expected → parts expected n m) as Hp.
  { intros Hr. destruct (Hraw Hr) as (m' & Hp & E). replace m with m'; [done|].
    by apply (prefix_free_inj metadata_ok metadata_bytes) in E as ->; [|done|apply Hp]. }
  clear Hrd Hraw. destruct (match expected with Some _ => _ | None => _ end) eqn:Hex.
  { apply Herr; [apply Hv6|]. right. intros (_ & _ & He' & _)%Hp. destruct expected as [e|]; [|done].
    by rewrite (He' e eq_refl), bool_decide_eq_true_2 in Hex. }
  rewrite <-Hlr in Hp, Hv6. apply (wp_verify_contents expected); [done..|]. intros payload v' Hv' Hpay Hgood.
  apply Hk; [done| |done|done|].
  - intros e ->. by destruct (bool_decide_reflect (e = m)).
  - intros Hg. rewrite <-Hlr. destruct (Hgood Hg) as [? ?]. split_and!; [done|by apply Hrm|done].
Qed.

Lemma wp_verify expected Q v :
  I v → (∀ e v', faulty ∨ ¬ readable expected → I v' → Q (Some (Err e)) v') →
  (∀ m d v', I v' → verified expected m d → Q (Some (Ok (m, d))) v') → wp (verify_envelope fd expected) Q v.
Proof using HI HJ Hfd Hc.
  intros Hv He Hk. unfold verify_envelope.
  assert (∀ e v, I v → faulty ∨ ¬ readable expected → wp (err (A := ObjectMetadata * Digest32) e) Q v) as Herr.
  { intros e v' Hv' Hb. apply (wp_answer (Some (Err e))); [|done]. intros v2 Hv2. by apply He. }
  apply (wp_raises (SysClone fd) Io); [done..|intros e v1 v2 v' _ (Hf & _) Hv'; apply He; [by left|done]|].
  intros _ v1 v2 _ Hv2 _. clear v1. apply wp_seek; [done|intros e v' Hf Hv'; apply He; [by left|done]|]. intros v3 Hv3.
  apply (wp_read_exact (λ _, MetadataMismatch) _ _ _ 0); [done| |].
  { intros e v' Hb Hv'. apply He; [|done]. eapply unreadable; [|exact Hb].
    intros (n & m & (_ & Hs & _ & Hn & _ & Hl & _) & _)%readable_parts. zlia. }
  intros magic v4 Hv4 Hl8 Hmagic. replace (length magic) with 8%nat in Hmagic by lia.
  destruct (bool_decide_reflect (magic = MAGIC)) as [Em|Hne]; cbn [negb].
  2: { apply Herr; [apply Hv4|]. right. intros Hrd. apply Hne. rewrite (Hmagic (proj1 Hrd)).
       destruct (readable_parts _ Hrd) as (n & m & _ & Et & _). exact Et. }
  apply (wp_read_exact (λ _, MetadataMismatch) _ _ _ 8); [done| |].
  { intros e v' Hb Hv'. apply He; [|done]. eapply unreadable; [|exact Hb].
    intros (n & m & (_ & Hs & _ & Hn & _ & Hl & _) & _)%readable_parts. zlia. }
  intros raw_len v5 Hv5 Hl4 Hraw. replace (length raw_len) with 4%nat in Hraw by lia. change (Z.to_nat 8) with 8%nat in Hraw.
  set (n := PoseidonBoundary.from_le_bytes raw_len).
  assert (readable expected → ∃ m, parts expected n m) as Hrd.
  { intros Hrd. destruct (readable_parts _ Hrd) as (n' & m & Hp & _ & E4). exists m. replace n with n'; [done|].
    unfold n. rewrite (Hraw (proj1 Hrd)), E4. unfold encode_u32. rewrite from_to_le_bytes. symmetry. apply Z.mod_small.
    destruct Hp as (_ & _ & _ & ? & ? & _). zlia. }
  assert (0 ≤ n) as Hn0 by apply from_le_bytes_bound.
  destruct (Z.ltb_spec MAX_METADATA_BYTES n) as [Hbig|_].
  { apply Herr; [apply Hv5|]. right. intros (m & _ & _ & _ & _ & Hn & _)%Hrd. change MAX_METADATA_BYTES with 4096 in Hbig. lia. }
  apply (wp_verify_metadata expected); [done..|]. intros m payload v' Hv' Hex Hp Hn Hgood. apply Hk; [done|]. split; [done|].
  exists payload. split_and!; [done|done|]. intros Hg. destruct (Hgood Hg) as (Hlen & Hmb & Hpl).
  apply (envelope_read magic raw_len); [done|apply Hp|done..|by apply Hmagic|by apply Hraw|lia|exact Hn|exact Hmb|by rewrite <-Hn|done].
Qed.
End File.

End Rules.

(** *** Opening a file by its name *)

Section Opening.
Context (J I : View → Prop) (HI : calm I) (HJ : ∀ v, I v → J v).
#[local] Notation wp := (wp faulty rely J).

(** [K] is what the entry of the name tells of the file. *)
Lemma wp_open_regular_at dir d name (K : FileIdentity → View → Prop) Q v :
  (∀ v, I v → identity_of v dir = Some d) → (∀ i, calm (K i)) → (∀ v i, I v → entry v d name = Some i → K i v) → I v →
  (∀ e v', I v' → faulty ∨ (e = Fs NOENT ∧ ∃ v1, I v1 ∧ entry v1 d name = None) ∨
     (e ≠ Fs NOENT ∧ ∃ v1 i, I v1 ∧ K i v1 ∧ v_files v1 !! i = None) → Q (Some (Err e)) v') →
  (∀ fd i v', I v' → K i v' → identity_of v' fd = Some i → Q (Some (Ok fd)) v') →
  wp (open_regular_at dir name) Q v.
Proof using HI HJ.
  intros Hdir HK Hentry Hv He Hk. unfold open_regular_at. apply (wp_raises J I HI HJ (SysOpen dir name) Fs); [done..| |].
  - intros e v1 v2 v' Hv1 Hef Hv'. apply He; [done|]. specialize (Hdir v1 Hv1). cbn [effect] in Hef. destruct e as [| |code].
    + destruct Hef as [_ [?|(d' & i & Hd & Hi & Ht)]]; [by left|]. right; right. split; [done|]. exists v1, i.
      assert (d' = d) as -> by congruence. split_and!; [done|by apply Hentry|]. unfold file_type in Ht. by destruct (v_files v1 !! i).
    + destruct Hef as [_ (d' & Hd & Hi)]. right; left. split; [done|]. exists v1. split; [done|]. by assert (d' = d) as <- by congruence.
    + destruct Hef as [_ [?|(d' & i & Hd & Hi & Ht)]]; [by left|]. right; right. split; [done|]. exists v1, i.
      assert (d' = d) as -> by congruence. split_and!; [done|by apply Hentry|]. unfold file_type in Ht. by destruct (v_files v1 !! i).
  - intros fd v1 v2 Hv1 Hv2 (d' & i & Hd & Hi & Hn & ->). assert (d' = d) as -> by (specialize (Hdir v1 Hv1); congruence).
    set (I2 v := I v ∧ K i v ∧ identity_of v fd = Some i).
    assert (calm I2) as HI2 by (apply calm_and; [done|apply calm_and; [done|apply calm_identity]]).
    assert (I2 (set_fds (<[fd := (i, 0)]>) v1)) as Hv2'.
    { split_and!; [done| |].
      + apply (calm_looks _ (HK i) v1); [by apply Hentry|by apply looks_fd].
      + unfold identity_of. cbn [v_fds set_fds]. by rewrite lookup_insert_eq. }
    assert (∀ v, I2 v → J v) as HJ2 by (intros ? [? _]; by apply HJ).
    apply (wp_look J I2 HI2 HJ2 (SysFstat fd)); [done..|]. intros v3 r v4 Hv3 Hv4 Hef. destruct r as [[t j]|e].
    + destruct Hef as (-> & Hj & ->). cbn [bind sys lift map_err and_then fst]. unfold is_regular_mode. case_bool_decide as Ht; cbn [negb].
      * apply (wp_answer J I2 HI2 HJ2 (Some (Ok fd))); [|done]. intros v' (? & ? & ?). by eapply Hk.
      * apply (wp_answer J I2 HI2 HJ2 (Some (Err UnsafeFileType))); [|done]. intros v' (? & _). apply He; [done|]. right; right. split; [done|].
        destruct Hv3 as (? & ? & Hid). exists v3, i. split_and!; [done..|]. assert (j = i) as -> by congruence.
        unfold file_type in Ht. by destruct (v_files v3 !! i).
    + destruct Hef as (Hf & -> & _). apply (wp_answer J I2 HI2 HJ2 (Some (Err (Fs e)))); [|done]. intros v' (? & _). apply He; [done|by left].
Qed.

(** *** Opening an object *)

Section Object.
Context (self : StoreCore) (digest : Digest32).
#[local] Notation name := (object_name digest).
Context (Hobjects : ∀ v, I v → identity_of v (objects_fd self) = Some objects).
Context (Hvalid : ∀ v i, I v → entry v objects name = Some i → valid v name i).

(** What is known when it has been opened. *)
Definition object_at (i : FileIdentity) (m : ObjectMetadata) (payload : bytes) (v : View) : Prop :=
  entry v objects name = Some i ∧ valid v name i ∧ v_files v !! i = Some (envelope m payload).

Lemma envelope_inj m m' payload payload' : metadata_ok m → metadata_ok m' → envelope m payload = envelope m' payload' → m = m' ∧ payload = payload'.
Proof using Type.
  clear. intros Hm Hm' E. unfold envelope in E. apply app_inv_head in E.
  apply app_inj_1 in E as [_ E]; [|unfold encode_u32; by rewrite !length_to_le_bytes].
  by apply (prefix_free (enc := metadata_bytes)) in E.
Qed.

Lemma wp_seek_payload fd i m payload Q v :
  let I3 v := I v ∧ object_at i m payload v ∧ identity_of v fd = Some i in
  metadata_ok m → I3 v → (∀ e v', I v' → faulty → Q (Some (Err e)) v') →
  (∀ v', I3 v' → v_fds v' !! fd = Some (i, 12 + Z.of_nat (length (metadata_bytes m))) → Q (Some (Ok tt)) v') →
  wp (seek_payload fd) Q v.
Proof using HI HJ.
  intros I3 Hm Hv He Hk. assert (calm I3) as HI3 by (apply calm_and; [done|apply calm_and; [apply calm_valid|apply calm_identity]]).
  assert (∀ v, I3 v → J v) as HJ3 by (intros ? [? _]; by apply HJ).
  assert (∀ v, I3 v → identity_of v fd = Some i) as Hfd by (by intros ? (_ & _ & ?)).
  assert (True → ∀ v, I3 v → v_files v !! i = Some (envelope m payload)) as Hc by (by intros _ ? (_ & (_ & _ & ?) & _)).
  pose proof (metadata_bytes_length m Hm) as Hlen. unfold seek_payload.
  apply (wp_seek J I3 HI3 HJ3 fd i Hfd); [done|by intros e v' Hf [Hv' _]; apply He|]. intros v1 Hv1.
  apply (wp_read_exact J I3 HI3 HJ3 fd i True (envelope m payload) Hc Io _ _ _ 8); [done| |].
  - intros e v' [Hf|[Hf|Hf]] [Hv' _]; [by apply He|done|]. exfalso. unfold envelope, encode_u32 in Hf. rewrite !length_app, length_to_le_bytes in Hf.
    change (length MAGIC) with 8%nat in Hf. lia.
  - intros raw_len v2 Hv2 Hl Hraw. specialize (Hraw Logic.I).
    apply (wp_look J I3 HI3 HJ3 (SysSeek fd _)); [done|apply Hv2|]. intros v3 r v4 Hv3 Hv4 Hef. destruct r as [[]|e].
    + destruct Hef as (j & o & Hj & ->). intros v' Hr. split; [apply HJ3; by eapply (calm_rely _ HI3)|].
      apply Hk; [by eapply (calm_rely _ HI3)|]. rewrite (ry_fds _ _ Hr). cbn. rewrite lookup_insert_eq. do 2 f_equal.
      * specialize (Hfd v3 Hv3). unfold identity_of in Hfd. rewrite Hj in Hfd. by injection Hfd.
      * f_equal. rewrite Hraw. replace (length raw_len) with 4%nat by lia. change (take 4 (drop (Z.to_nat 8) (envelope m payload))) with
          (encode_u32 (Z.of_nat (length (metadata_bytes m)))). unfold encode_u32. rewrite from_to_le_bytes. apply Z.mod_small. zlia.
    + destruct Hef as (Hf & -> & _). intros v' Hr. split; [apply HJ3; by eapply (calm_rely _ HI3)|].
      apply He; [|done]. by destruct (calm_rely _ HI3 _ _ Hv3 Hr) as [? _].
Qed.

Lemma wp_open_verified Q v :
  I v →
  (∀ e v', I v' → faulty ∨ (e = NotFound digest ∧ ∃ v1, I v1 ∧ entry v1 objects name = None) ∨ e = WrongStoreKind → Q (Some (Err e)) v') →
  (∀ fd i m payload v', I v' → payload_ok m payload → digest = digest_of m payload → object_at i m payload v' →
     v_fds v' !! fd = Some (i, 12 + Z.of_nat (length (metadata_bytes m))) → require_kind self m = Ok tt → Q (Some (Ok (fd, m))) v') →
  wp (open_verified_with_metadata self digest) Q v.
Proof using HI HJ Hobjects Hvalid.
  intros Hv He Hk. unfold open_verified_with_metadata. apply wp_seq; [apply rely_preorder|].
  apply (wp_open_regular_at _ objects _ (λ i v, entry v objects name = Some i ∧ valid v name i)); [done|intros; apply calm_object| |done| |].
  { intros v' i Hv' Hi. split; [done|by apply Hvalid]. }
  - intros e v1 Hv1 [Hf|[(-> & Hex)|(Hne & v2 & i & Hv2 & [Hi Hva] & Hnone)]].
    + destruct e as [|[]| | | | | | | | | | | | |]; (eapply (wp_answer J I HI HJ (Some (Err _))); [|exact Hv1]); intros v' Hv'; apply He; auto.
    + apply (wp_answer J I HI HJ (Some (Err (NotFound digest)))); [|done]. intros v' Hv'. apply He; auto.
    + exfalso. destruct Hva as (m & p & _ & Hf & _). congruence.
  - intros fd i v1 Hv1 [Hi Hva] Hfd. destruct Hva as (m & payload & Hp & Hf & Hname). apply object_name_inj in Hname.
    set (I3 v := I v ∧ object_at i m payload v ∧ identity_of v fd = Some i).
    assert (calm I3) as HI3 by (apply calm_and; [done|apply calm_and; [apply calm_valid|apply calm_identity]]).
    assert (∀ v, I3 v → J v) as HJ3 by (intros ? [? _]; by apply HJ).
    assert (I3 v1) as Hv3.
    { split; [done|]. split; [|done]. split_and!; [done| |done]. exists m, payload. by rewrite <-Hname. }
    assert (∀ A (e : StoreError) (Q' : Outcome A StoreError → View → Prop) v', I3 v' → (∀ v2, I v2 → Q' (Some (Err e)) v2) → wp (err e) Q' v') as Herr.
    { intros A e Q' v' Hv' HQ. apply (wp_answer J I3 HI3 HJ3 (Some (Err e))); [|done]. intros v2 [? _]. by apply HQ. }
    apply wp_seq; [apply rely_preorder|].
    apply (wp_verify J I3 HI3 HJ3 fd i True (envelope m payload)); [by intros ? (_ & _ & ?)|by intros _ ? (_ & (_ & _ & ?) & _)|done| |].
    { intros e v' [Hflt|Hrd] Hv'; [apply Herr; [done|]; intros v2 Hv2; apply He; auto|]. exfalso. apply Hrd. split; [done|].
      exists m, payload. split_and!; [done|apply metadata_size, Hp|done|done]. }
    intros m' d v2 Hv2 [_ (p' & Hp' & -> & Henv)]. apply (envelope_inj m m') in Henv as [<- <-]; [|apply Hp|apply Hp'|done].
    unfold lift. destruct (require_kind self m) as [[]|e] eqn:Hkind; cbn [and_then bind].
    2: { apply Herr; [done|]. intros v3 Hv3'. apply He; [done|]. right; right. unfold require_kind in Hkind. destruct (kind self), m; congruence. }
    unfold digest_of in Hname. rewrite bool_decide_eq_true_2 by done. cbn [negb]. apply wp_seq; [apply rely_preorder|].
    apply (wp_seek_payload fd i m payload); [apply Hp|done| |].
    + intros e v' Hv' Hflt. apply (wp_answer J I HI HJ (Some (Err e))); [|done]. intros v3 Hv3'. apply He; auto.
    + intros v' Hv' Hoff v3 Hr. pose proof (calm_rely _ HI3 _ _ Hv' Hr) as (Hv4 & Hobj & _). split; [by apply HJ|].
      apply (Hk fd i m payload); try done. by rewrite (ry_fds _ _ Hr).
Qed.
End Object.
End Opening.
End Reads.
