(* ===== verification/StorePublish.v ===== *)
(** * Publishing objects

    The publication of a validated object, call by call, among other processes. *)
From stdpp Require Import gmap.
From S2P Require Import Prelude Bytes State Identity PoseidonBoundary PoseidonProofs Decode Store StoreFs StoreLogic StoreReads.
Import Store StoreFs.

Open Scope Z_scope.

(** ** Entries *)

Lemma entry_set v d n i d' n' : is_Some (v_dirs v !! d) →
  entry (set_entry d n i v) d' n' = if decide (d' = d ∧ n' = n) then i else entry v d' n'.
Proof.
  intros [e He]. unfold entry, set_entry. cbn [v_dirs]. destruct (decide (d' = d)) as [->|Hd].
  - rewrite lookup_alter_eq, He. cbn. destruct (decide (n' = n)) as [->|Hn].
    + rewrite lookup_partial_alter_eq. by rewrite decide_True.
    + rewrite lookup_partial_alter_ne by done. rewrite decide_False by naive_solver. done.
  - rewrite lookup_alter_ne by done. by rewrite decide_False by naive_solver.
Qed.
Lemma entry_dir v d n i : entry v d n = Some i → is_Some (v_dirs v !! d).
Proof. unfold entry. destruct (v_dirs v !! d); [by eexists|done]. Qed.
Lemma set_entry_dirs v d n i d' : is_Some (v_dirs v !! d') → is_Some (v_dirs (set_entry d n i v) !! d').
Proof. intros Hd. unfold set_entry. cbn [v_dirs]. destruct (decide (d' = d)) as [->|]; [|by rewrite lookup_alter_ne].
  rewrite lookup_alter_eq. destruct Hd as [e ->]. by eexists. Qed.

Section Publish.
Context `{Blake3} (faulty private : Prop) (objects staging : FileIdentity) (Hdistinct : staging ≠ objects).
Context (self : StoreCore) (va : ValidatedObject) (iv : FileIdentity) (good : Prop) (payload : bytes).
#[local] Notation m := (va_metadata va).
#[local] Notation name := (object_name (va_digest va)).
#[local] Notation calm := (calm private objects).
#[local] Notation rely := (rely private objects).

(** At every moment: the other objects are valid, and this one too if names are
    private. *)
Definition always (v : View) : Prop := objects_valid objects (λ n, n ≠ name ∨ private) v.
#[local] Notation wp := (wp faulty rely always).

(** When a publication cannot fail: names are private, and the validated file is under
    its name and holds the object. *)
Context (Hgood : good → private ∧ va_identity va = iv ∧ payload_ok m payload ∧ va_digest va = digest_of m payload ∧
  12 + Z.of_nat (length (metadata_bytes m)) + size m ≤ u64_max).
#[local] Set Default Proof Using "All".

Definition in_place (v : View) : Prop :=
  iv ∈ v_owned v ∧ v_files v !! iv = Some (envelope m payload) ∧ entry v staging (va_name va) = Some iv.

(** The descriptors of the store and of the validated file. *)
Definition descriptors (v : View) : Prop :=
  identity_of v (staging_fd self) = Some staging ∧ identity_of v (objects_fd self) = Some objects ∧
  identity_of v (va_file va) = Some iv.
(** Before the object has its name. *)
Definition before (v : View) : Prop := objects_valid objects (λ _, True) v ∧ descriptors v ∧ (good → in_place v).

Lemma calm_in_place : calm (λ v, good → in_place v).
Proof.
  split.
  - intros v v' Hv Hr Hg. destruct (Hv Hg) as (Ho & Hf & He). destruct (Hgood Hg) as [Hp _]. split_and!.
    + by rewrite (ry_owned _ _ _ _ Hr).
    + by rewrite (ry_files _ _ _ _ Hr).
    + by apply (ry_private _ _ _ _ Hr).
  - intros v v' Hv (Hf & Hd & Ho & _) Hg. destruct (Hv Hg) as (? & ? & He). unfold in_place, entry in *. by rewrite Hf, Hd, Ho.
Qed.
Lemma calm_descriptors : calm descriptors.
Proof. repeat apply calm_and; apply calm_identity. Qed.
Lemma calm_before : calm before.
Proof. apply calm_and; [apply calm_objects_valid|apply calm_and; [apply calm_descriptors|apply calm_in_place]]. Qed.
Lemma before_always v : before v → always v.
Proof. intros [Hv _] n i Hi _. by apply Hv. Qed.

(** Why a publication fails. *)
Definition collides : Prop := ∃ m' p' p, m' ≠ m ∧ payload_ok m' p' ∧ digest_of m' p' = digest_of m p.
Definition blame (e : StoreError) : Prop := faulty ∨ ¬ good ∨ e = Fs EXIST ∨ collides.

(** ** The copy *)

Section Copy.
Context (pub : string).

(** The fresh file [i], open as [dest]. *)
Definition fresh (dest : Fd) (i : FileIdentity) (v : View) : Prop :=
  identity_of v dest = Some i ∧ i ∈ v_owned v ∧ (∀ n, entry v objects n ≠ Some i) ∧ i ≠ iv ∧
  (private → i ∈ v_owned v ∧ entry v staging pub = Some i).

Lemma calm_fresh dest i : calm (fresh dest i).
Proof.
  destruct (calm_and _ _ _ _ (calm_identity private objects dest i) (calm_and _ _ _ _ (calm_unlinked private objects i) (calm_and _ _ _ _ (calm_pure private objects (i ≠ iv)) (calm_entry private objects staging pub i)))) as [Hr Hl].
  split; intros v v' (? & ? & ? & ? & ?) Hv; [destruct (Hr v v')|destruct (Hl v v')]; try done; unfold fresh; naive_solver.
Qed.

(** The state of the copy. *)
Definition copying (dest : Fd) (i : FileIdentity) (v : View) : Prop := before v ∧ fresh dest i v ∧ (good → pub ≠ va_name va).
Lemma calm_copying dest i : calm (copying dest i).
Proof. apply calm_and; [apply calm_before|apply calm_and; [apply calm_fresh|apply calm_pure]]. Qed.

(** Files other than [i] and all names are as they were. *)
Lemma copying_content dest i v c f :
  copying dest i v → (∀ fd j, identity_of v fd = Some j → identity_of (set_fds f v) fd = Some j) → copying dest i (set_fds f (set_content i c v)).
Proof.
  intros ((Hv & Hd & Hg) & (Hi & Ho & Hn & Hne & Hp) & Hpub) Hf. assert (∀ n j, entry v objects n = Some j → j ≠ i) as Hji by (intros n j Hj ->; by apply (Hn n)).
  split; [split; [|split; [split_and!; by apply Hf, Hd|]]|split; [|done]].
  - intros n j Hj _. specialize (Hv n j Hj Logic.I). eapply valid_files; [|exact Hv]. cbn. rewrite lookup_insert_ne; [done|].
    intros ->. by apply (Hn n).
  - intros HG. destruct (Hg HG) as (? & Hc & ?). split_and!; [done| |done]. cbn. by rewrite lookup_insert_ne.
  - split_and!; [by apply Hf|done..].
Qed.

Lemma offset_identity v fd i o o' fd' j : v_fds v !! fd = Some (i, o) → identity_of v fd' = Some j →
  identity_of (set_fds (<[fd := (i, o')]>) v) fd' = Some j.
Proof.
  intros Hf Hj. apply (looks_offset v fd i o o') in Hf as (_ & _ & _ & Hl). by apply Hl.
Qed.

(** *** The loop *)

(** [r] bytes have been read and [k] written. *)
Definition copied (dest : Fd) (i : FileIdentity) (r k : Z) (v : View) : Prop :=
  copying dest i v ∧ 0 ≤ k ∧ v_fds v !! va_file va = Some (iv, r) ∧ v_fds v !! dest = Some (i, k) ∧
  (∃ c, v_files v !! i = Some c) ∧
  (good → v_files v !! i = Some (take (Z.to_nat k) (envelope m payload)) ∧ k ≤ Z.of_nat (length (envelope m payload))).

Lemma copied_rely dest i r k v v' : copied dest i r k v → rely v v' → copied dest i r k v'.
Proof.
  intros (Hc & Hk & Hs & Hd & (c & Hf) & Hg) Hr. assert (i ∈ v_owned v) as Ho by (by destruct Hc as (_ & (_ & ? & _) & _)).
  split_and!; [exact (calm_rely _ _ _ (calm_copying dest i) v v' Hc Hr)|done|by rewrite (ry_fds _ _ _ _ Hr)..| |].
  - exists c. by rewrite (ry_files _ _ _ _ Hr i Ho).
  - intros HG. rewrite (ry_files _ _ _ _ Hr i Ho). by apply Hg.
Qed.

Lemma copied_distinct dest i r k v : copied dest i r k v → va_file va ≠ dest.
Proof.
  intros (Hc & _ & Hs & Hd & _) E. rewrite E, Hd in Hs. injection Hs as E2 _. by destruct Hc as (_ & (_ & _ & _ & Hn & _) & _).
Qed.

Lemma copied_read dest i k v b c' :
  copied dest i k k v → v_files v !! iv = Some c' → b = take (length b) (drop (Z.to_nat k) c') →
  copied dest i (k + Z.of_nat (length b)) k (set_fds (<[va_file va := (iv, k + Z.of_nat (length b))]>) v) ∧
  (good → b = take (length b) (drop (Z.to_nat k) (envelope m payload))).
Proof.
  intros Hcp Hsrc Hb. pose proof (copied_distinct _ _ _ _ _ Hcp) as Hne. destruct Hcp as (Hc & Hk & Hs & Hd & Hf & Hg). split.
  - split_and!; [|done| | |done|done].
    + apply (calm_looks _ _ _ (calm_copying dest i) v); [done|]. by eapply looks_offset.
    + cbn. by rewrite lookup_insert_eq.
    + cbn. by rewrite lookup_insert_ne.
  - intros HG. destruct Hc as ((_ & _ & Hpl) & _). destruct (Hpl HG) as (_ & Hcv & _). rewrite Hsrc in Hcv. by injection Hcv as <-.
Qed.

(** A chunk that was read from the source is written to the copy. *)
Lemma copied_write dest i k v v2 b :
  copied dest i (k + Z.of_nat (length b)) k v → (good → b = take (length b) (drop (Z.to_nat k) (envelope m payload))) →
  written_at v dest b v2 → copied dest i (k + Z.of_nat (length b)) (k + Z.of_nat (length b)) v2.
Proof.
  intros Hcp Hb (j & o & c2 & Hj & Hc2 & ->). pose proof (copied_distinct _ _ _ _ _ Hcp) as Hne.
  destruct Hcp as (Hc & Hk & Hs & Hd & (c & Hf) & Hg). rewrite Hd in Hj. injection Hj as <- <-. rewrite Hf in Hc2. injection Hc2 as <-.
  split_and!.
  - apply (copying_content dest i); [done|]. intros fd j Hj. by apply (offset_identity _ _ i k).
  - lia.
  - cbn. by rewrite lookup_insert_ne.
  - cbn. by rewrite lookup_insert_eq.
  - eexists. cbn. by rewrite lookup_insert_eq.
  - intros HG. destruct (Hg HG) as [Hg' Hle]. rewrite Hf in Hg'. injection Hg' as ->. specialize (Hb HG).
    set (E := envelope m payload) in *. assert (length b ≤ length E - Z.to_nat k)%nat as Hlb.
    { rewrite Hb, length_take, length_drop. lia. }
    split; [|lia]. cbn. rewrite lookup_insert_eq. f_equal.
    replace (Z.to_nat k) with (length (take (Z.to_nat k) E)) at 1 by (rewrite length_take; lia).
    rewrite overwrite_end. rewrite Hb at 1. rewrite take_take_drop. f_equal. lia.
Qed.

(** A failed write leaves a state of the copy too. *)
Lemma copying_written dest i v v2 b : copying dest i v → written_at v dest b v2 → copying dest i v2.
Proof.
  intros Hc (j & o & c2 & Hj & Hc2 & ->). assert (j = i) as ->.
  { destruct Hc as (_ & (Hi & _) & _). unfold identity_of in Hi. rewrite Hj in Hi. by injection Hi. }
  apply (copying_content dest i); [done|]. intros fd j Hj'. by apply (offset_identity _ _ i o).
Qed.

Lemma wp_copy_loop dest i fuel Q v k n :
  copied dest i k k v → 0 ≤ n → n ≤ Z.of_nat fuel → (good → k + n = Z.of_nat (length (envelope m payload))) →
  (∀ e v', copying dest i v' → faulty ∨ ¬ good → Q (Some (Err e)) v') →
  (∀ v', copied dest i (k + n) (k + n) v' → Q (Some (Ok tt)) v') →
  wp (copy_loop fuel (va_file va) dest n) Q v.
Proof.
  pose proof (calm_copying dest i) as HC. assert (∀ v, copying dest i v → always v) as HJ by (intros ? [? _]; by apply before_always).
  revert v k n. induction fuel as [|fuel IH]; intros v k n Hv Hn Hfuel Hsum He Hk; cbn [copy_loop];
    (destruct (Z.eqb_spec n 0) as [->|Hne]; [intros v' Hr; apply (copied_rely _ _ _ _ _ _ Hv) in Hr; split; [by apply HJ, Hr|apply Hk; by rewrite Z.add_0_r]|]); [lia|].
  intros v1 Hr1. apply (copied_rely _ _ _ _ _ _ Hv) in Hr1 as Hv1. split; [by apply HJ, Hv1|]. intros r v2 Hef.
  assert (∀ e v', copying dest i v' → faulty ∨ ¬ good → wp (Ret (Some (Err e))) Q v') as Herr.
  { intros e v' Hv' Hb. apply (wp_answer _ _ _ _ _ HC HJ); [|done]. intros; by apply He. }
  destruct r as [b|e].
  2: { destruct Hef as (Hf & -> & _). apply (Herr (Io e)); [apply Hv1|by left]. }
  destruct Hef as (j & o & c' & Hj & Hcj & Hb & Hlen & Hend & ->).
  assert (j = iv ∧ o = k) as [-> ->] by (destruct Hv1 as (_ & _ & Hs & _); rewrite Hs in Hj; by injection Hj).
  destruct (copied_read _ _ _ _ _ _ Hv1 Hcj Hb) as [Hv2 Hbg]. cbn [bind sys lift map_err and_then].
  destruct (Z.eqb_spec (Z.of_nat (length b)) 0) as [Hz|Hz].
  - apply Herr; [apply Hv2|]. right. intros HG. assert (b = []) as Eb by (destruct b; [done|simpl in Hz; lia]).
    destruct (Hend Eb) as [Hw|Hw]; [unfold BUFFER in Hw; lia|].
    destruct Hv1 as (((_ & _ & Hpl) & _) & _). destruct (Hpl HG) as (_ & Hcv & _). rewrite Hcj in Hcv. injection Hcv as ->. specialize (Hsum HG). lia.
  - intros v3 Hr3. apply (copied_rely _ _ _ _ _ _ Hv2) in Hr3. split; [by apply HJ, Hr3|]. intros w v4 Hw. destruct w as [[]|e].
    + assert (copied dest i (k + Z.of_nat (length b)) (k + Z.of_nat (length b)) v4) as Hv4 by (by eapply copied_write).
      apply (IH _ (k + Z.of_nat (length b))); [done|lia|lia|intros HG; specialize (Hsum HG); lia|done|].
      intros v' Hv'. apply Hk. by replace (k + n) with (k + Z.of_nat (length b) + (n - Z.of_nat (length b))) by lia.
    + destruct Hw as (Hf & l & Hw). apply (Herr (Io e)); [|by left]. eapply copying_written; [apply Hr3|done].
Qed.

(** *** The fresh file *)

Lemma create_copying dest v v' : before v → create v (staging_fd self) pub dest v' →
  ∃ i, copying dest i v' ∧ v_fds v' !! dest = Some (i, 0) ∧ v_files v' !! i = Some [].
Proof.
  intros (Hv & (Hsd & Hod & Hvd) & Hg) (d & i & Hd & Hdir & Hnone & (Hnf & Hnd & Hno & Hne & Hnfd) & Hfd & ->).
  assert (d = staging) as -> by congruence. exists i. set (v' := mkView _ _ _ _).
  assert (∀ fd j, identity_of v fd = Some j → identity_of v' fd = Some j) as Hids by apply (looks_fd v dest (i, 0) Hfd).
  assert (∀ n, entry v' objects n = entry v objects n) as Hobj by (intros n; unfold entry; cbn; by rewrite lookup_alter_ne).
  assert (∀ n, entry v' staging n = if decide (n = pub) then Some i else entry v staging n) as Hstg.
  { intros n. unfold entry. cbn. rewrite lookup_alter_eq. destruct Hdir as [e ->]. cbn. case_decide as En; [subst n; by rewrite lookup_insert_eq|by rewrite lookup_insert_ne]. }
  assert (good → pub ≠ va_name va) as Hpub by (intros HG ->; destruct (Hg HG) as (_ & _ & ?); congruence).
  assert (i ≠ iv) as Hiv by (intros ->; by apply (Hnfd (va_file va))).
  split; [|split; [by cbn; rewrite lookup_insert_eq|by cbn; rewrite lookup_insert_eq]].
  split; [split; [|split; [split_and!; by apply Hids|]]|split; [split_and!|done]].
  - intros n j Hj _. rewrite Hobj in Hj. eapply valid_files; [|by apply Hv]. cbn. rewrite lookup_insert_ne; [done|]. intros ->. by apply (Hne objects n).
  - intros HG. destruct (Hg HG) as (? & ? & ?). split_and!; [cbn; set_solver|cbn; by rewrite lookup_insert_ne|].
    rewrite Hstg, decide_False; [done|]. intros E. by apply Hpub.
  - unfold identity_of. cbn. by rewrite lookup_insert_eq.
  - cbn. set_solver.
  - intros n. rewrite Hobj. apply Hne.
  - done.
  - intros _. split; [cbn; set_solver|]. by rewrite Hstg, decide_True.
Qed.

(** The copy, before the first byte. *)
Definition empty_copy (dest : Fd) (i : FileIdentity) (v : View) : Prop :=
  copying dest i v ∧ v_fds v !! dest = Some (i, 0) ∧ v_files v !! i = Some [].
Lemma empty_copy_rely dest i v v' : empty_copy dest i v → rely v v' → empty_copy dest i v'.
Proof.
  intros (Hc & Hd & Hf) Hr. assert (i ∈ v_owned v) as Ho by (by destruct Hc as (_ & (_ & ? & _) & _)).
  split_and!; [exact (calm_rely _ _ _ (calm_copying dest i) v v' Hc Hr)|by rewrite (ry_fds _ _ _ _ Hr)|by rewrite (ry_files _ _ _ _ Hr i Ho)].
Qed.

Lemma wp_rewind dest i (k : unit → Method Fd) Q v :
  empty_copy dest i v → (∀ e v', copying dest i v' → faulty → Q (Some (Err e)) v') →
  (∀ v', copied dest i 0 0 v' → wp (k tt) Q v') →
  wp (let^ _ := io (SysClone (va_file va)) in and_then (io (SysSeek (va_file va) 0)) k) Q v.
Proof.
  pose proof (calm_copying dest i) as HC. assert (∀ v, copying dest i v → always v) as HJ by (intros ? [? _]; by apply before_always).
  intros Hv He Hk v1 Hr1. apply (empty_copy_rely _ _ _ _ Hv) in Hr1 as Hv1. split; [by apply HJ, Hv1|]. intros r v2 Hef.
  assert (∀ e v', copying dest i v' → faulty → wp (Ret (Some (Err e))) Q v') as Herr.
  { intros e v' Hv' Hb. apply (wp_answer _ _ _ _ _ HC HJ); [|done]. intros; by apply He. }
  destruct r as [[]|e]; [|destruct Hef as (Hf & -> & _); apply (Herr (Io e)); [apply Hv1|done]].
  cbn in Hef. subst v2. intros v3 Hr3. apply (empty_copy_rely _ _ _ _ Hv1) in Hr3 as Hv3. split; [by apply HJ, Hv3|]. intros r v4 Hef.
  destruct r as [[]|e]; [|destruct Hef as (Hf & -> & _); apply (Herr (Io e)); [apply Hv3|done]].
  destruct Hef as (j & o & Hj & ->). destruct Hv3 as (Hc & Hd & Hf). apply Hk.
  assert (va_file va ≠ dest ∧ j = iv) as [Hne ->].
  { pose proof Hc as ((_ & (_ & _ & Hva) & _) & (_ & _ & _ & Hn & _) & _). unfold identity_of in Hva. rewrite Hj in Hva. injection Hva as ->.
    split; [|done]. intros E. rewrite E, Hd in Hj. by injection Hj. }
  split_and!; [|done|cbn; by rewrite lookup_insert_eq|cbn; by rewrite lookup_insert_ne|by exists []|].
  - apply (calm_looks _ _ _ HC v3); [done|]. by eapply looks_offset.
  - intros _. split; [done|lia].
Qed.

(** *** The whole copy *)

(** The fresh file holds the object. *)
Definition ready (dest : Fd) (i : FileIdentity) (p : bytes) (v : View) : Prop :=
  copying dest i v ∧ payload_ok m p ∧ va_digest va = digest_of m p ∧ i ∈ v_owned v ∧ v_files v !! i = Some (envelope m p).
Lemma calm_ready dest i p : calm (ready dest i p).
Proof.
  destruct (calm_and _ _ _ _ (calm_copying dest i) (calm_content private objects i (envelope m p))) as [Hr Hl].
  split; intros v v' (Hc & Hp & Hd & Hf) Hv; [destruct (Hr v v')|destruct (Hl v v')]; try done; by split_and!.
Qed.

(** The last part: the copy is flushed, sealed and checked. *)
Lemma wp_seal dest i r Q v :
  copied dest i r r v → (good → r = Z.of_nat (length (envelope m payload))) →
  (∀ e v', copying dest i v' → faulty ∨ ¬ good → Q (Some (Err e)) v') →
  (∀ p v', ready dest i p v' → Q (Some (Ok dest)) v') →
  wp (let^ _ := io (SysFlush dest) in let^ _ := io (SysSyncAll dest) in let^ _ := fs (SysFchmod dest) in let^ _ := io (SysSyncAll dest) in
      let^ '(metadata, digest) := verify_envelope dest (Some m) in
      if negb (bool_decide (metadata = m)) || negb (bool_decide (digest = va_digest va)) then err ContentMismatch else ok dest) Q v.
Proof.
  intros (Hc & _ & _ & _ & (c & Hf) & Hg) Hr He Hk. set (I4 v := copying dest i v ∧ (i ∈ v_owned v ∧ v_files v !! i = Some c)).
  assert (calm I4) as HI4 by (apply calm_and; [apply calm_copying|apply calm_content]).
  assert (∀ v, I4 v → always v) as HJ4 by (intros ? [[? _] _]; by apply before_always).
  assert (I4 v) as Hv by (split; [done|]; split; [by destruct Hc as (_ & (_ & ? & _) & _)|done]).
  assert (∀ e v', faulty → I4 v' → Q (Some (Err e)) v') as Hflt by (intros e v1 Hflt [Hc1 _]; apply He; [done|by left]).
  assert (good → c = envelope m payload) as Hcg.
  { intros HG. destruct (Hg HG) as [Hc' _]. rewrite Hf in Hc'. injection Hc' as ->. apply take_ge. rewrite (Hr HG). lia. }
  apply (wp_raises _ _ _ _ I4 HI4 HJ4 (SysFlush dest) Io); [done..|intros e v1 v2 v' _ (Hx & _) ?; by apply Hflt|intros _ _ v2 _ Hv2 _].
  apply (wp_raises _ _ _ _ I4 HI4 HJ4 (SysSyncAll dest) Io); [done..|intros e v1 v3 v' _ (Hx & _) ?; by apply Hflt|intros _ _ v3 _ Hv3 _].
  apply (wp_raises _ _ _ _ I4 HI4 HJ4 (SysFchmod dest) Fs); [done..|intros e v1 v4 v' _ (Hx & _) ?; by apply Hflt|intros _ _ v4 _ Hv4 _].
  apply (wp_raises _ _ _ _ I4 HI4 HJ4 (SysSyncAll dest) Io); [done..|intros e v1 v5 v' _ (Hx & _) ?; by apply Hflt|intros _ _ v5 _ Hv5 _].
  apply wp_seq; [apply rely_preorder|]. apply (wp_verify _ _ _ _ I4 HI4 HJ4 dest i True c); [by intros ? ((_ & (? & _) & _) & _)|by intros _ ? (_ & _ & ?)|done| |].
  - intros e v' Hb [Hc' Hf']. apply (wp_answer _ _ _ _ I4 HI4 HJ4 (Some (Err e))); [|done]. intros v'' [Hc'' _]. apply He; [done|].
    destruct Hb as [?|Hb]; [by left|right]. intros HG. apply Hb. split; [done|]. destruct (Hgood HG) as (_ & _ & Hp & _). exists m, payload.
    split_and!; [done|apply metadata_size, Hp|by apply Hcg|by intros ? [= <-]].
  - intros m' d v' Hv' [Hm' (p & Hp & -> & Henv)]. rewrite <-(Hm' m eq_refl) in *. specialize (Henv Logic.I).
    rewrite bool_decide_eq_true_2 by done. cbn [negb orb].
    destruct (bool_decide_reflect (digest_of m p = va_digest va)) as [Hd|Hd]; cbn [negb].
    + intros v'' Hr''. apply (calm_rely _ _ _ HI4 _ _ Hv') in Hr'' as Hv''. split; [by apply HJ4|]. apply (Hk p).
      destruct Hv'' as (? & ? & Hfc). rewrite Henv in Hfc. by split_and!.
    + apply (wp_answer _ _ _ _ I4 HI4 HJ4 (Some (Err ContentMismatch))); [|done]. intros v'' [Hc'' _]. apply He; [done|]. right. intros HG.
      destruct (Hgood HG) as (_ & _ & Hp' & Hd' & _). apply Hd. rewrite Hd'. rewrite (Hcg HG) in Henv.
      by apply envelope_inj in Henv as [_ ->]; [|apply Hp'..].
Qed.

Lemma wp_copy Q v :
  before v → (∀ e v', before v' → faulty ∨ ¬ good ∨ e = Fs EXIST → Q (Some (Err e)) v') →
  (∀ dest i p v', ready dest i p v' → Q (Some (Ok dest)) v') → wp (copy_for_publication self va pub) Q v.
Proof.
  intros Hv He Hk. unfold copy_for_publication. pose proof calm_before as HB.
  assert (∀ e v', before v' → faulty ∨ ¬ good ∨ e = Fs EXIST → wp (Ret (Some (Err e))) Q v') as Herr.
  { intros e v' Hv' Hb. apply (wp_answer _ _ _ _ _ HB before_always); [|done]. intros; by apply He. }
  intros v1 Hr1. apply (calm_rely _ _ _ HB _ _ Hv) in Hr1 as Hv1. split; [by apply before_always|]. intros r v2 Hef. destruct r as [dest|e].
  2: { assert (v2 = v1 ∧ (faulty ∨ Fs e = Fs EXIST)) as [-> Hb]; [|by apply (Herr (Fs e)); [|tauto]].
       destruct e; [destruct Hef; auto|destruct Hef as (? & ? & _); auto..]. }
  destruct (create_copying _ _ _ Hv1 Hef) as (i & Hc & Hd & Hf). cbn [bind sys lift map_err and_then].
  apply (wp_rewind dest i); [done|intros e v' [Hv' _] Hflt; apply He; [done|by left]|]. intros v3 Hv3.
  assert (∀ e v', copying dest i v' → faulty ∨ ¬ good → wp (Ret (Some (Err e))) Q v') as Herr2.
  { intros e v' [Hv' _] Hb. apply Herr; [done|tauto]. }
  unfold lift. destruct (encode_metadata m) as [encoded|e] eqn:Henc; cbn [and_then bind].
  2: { apply Herr2; [apply Hv3|]. right. intros HG. destruct (Hgood HG) as (_ & _ & (Hm & _) & _).
       by rewrite (proj2 (encode_metadata_Ok m (metadata_bytes m) Hm) eq_refl) in Henc. }
  destruct (try_u64 (12 + Z.of_nat (length encoded)) ≫= _) as [remaining|] eqn:Hrem; cbn [ok_or].
  2: { apply Herr2; [apply Hv3|]. right. intros HG. destruct (Hgood HG) as (_ & _ & (Hm & Hl & _) & _ & Hmax).
       apply (encode_metadata_Ok m encoded Hm) in Henc as ->. pose proof (metadata_size m Hm). unfold try_u64 in Hrem.
       rewrite bool_decide_eq_true_2 in Hrem by zlia. cbn in Hrem. rewrite bool_decide_eq_true_2 in Hrem by zlia. done. }
  apply bind_Some in Hrem as (n & [<- Hn]%try_u64_Some & [<- Hr]%try_u64_Some). 
  assert (good → 12 + Z.of_nat (length encoded) + size m = Z.of_nat (length (envelope m payload))) as Hlen.
  { intros HG. destruct (Hgood HG) as (_ & _ & (Hm & Hl & _) & _ & _). apply (encode_metadata_Ok m encoded Hm) in Henc as ->.
    unfold envelope, encode_u32. rewrite !length_app, length_to_le_bytes. change (length MAGIC) with 8%nat. lia. }
  apply wp_seq; [apply rely_preorder|]. apply (wp_copy_loop dest i _ _ _ 0); [done|zlia|zlia|intros HG; rewrite Z.add_0_l; exact (Hlen HG)|by intros e v' ? ?; apply Herr2|].
  intros v4 Hv4. rewrite Z.add_0_l in Hv4. eapply (wp_seal dest i); [exact Hv4|done|intros e v' [Hv' _] Hb; apply He; [done|tauto]|].
  intros p v' Hv'. by eapply Hk.
Qed.
End Copy.

(** ** The end of a publication *)

(** The object is under its name, and open as [file]. *)
Definition stored (i : FileIdentity) (p : bytes) (file : Fd) (v : View) : Prop :=
  objects_valid objects (λ _, True) v ∧ descriptors v ∧
  (entry v objects name = Some i ∧ valid v name i ∧ v_files v !! i = Some (envelope m p)) ∧
  identity_of v file = Some i ∧ (payload_ok m p ∧ va_digest va = digest_of m p).
Lemma calm_stored i p file : calm (stored i p file).
Proof.
  apply calm_and; [apply calm_objects_valid|apply calm_and; [apply calm_descriptors|]].
  apply calm_and; [apply calm_valid|apply calm_and; [apply calm_identity|by split]].
Qed.
Lemma stored_always i p file v : stored i p file v → always v.
Proof. intros [Hv _] n j Hj _. by apply Hv. Qed.

(** Taking a name off the staging directory. *)
Lemma unstage_entry v n n' : entry (set_entry staging n None v) objects n' = entry v objects n'.
Proof. unfold entry, set_entry. cbn. by rewrite lookup_alter_ne. Qed.
Lemma unstage_valid P v n : objects_valid objects P v → objects_valid objects P (set_entry staging n None v).
Proof. intros Hv n' j Hj Hn. rewrite unstage_entry in Hj. exact (Hv n' j Hj Hn). Qed.
Lemma stored_unstage i p file v n : stored i p file v → stored i p file (set_entry staging n None v).
Proof.
  intros (Hv & Hd & (He & Hva & Hf) & Hi & Hp). split; [by apply unstage_valid|]. split; [done|]. split; [|done].
  split; [by rewrite unstage_entry|done].
Qed.

(** What [publish] returns. *)
Definition publication (r : Outcome PublishedObject StoreError) (v : View) : Prop :=
  match r with
  | Some (Ok pu) => pu_name pu = name ∧ pu_metadata pu = m ∧ pu_digest pu = va_digest va ∧
      pu_store_identity_digest pu = store_identity_digest self ∧ identity_of v (pu_objects_fd pu) = Some objects ∧
      ∃ i p, stored i p (pu_file pu) v
  | Some (Err e) => blame e
  | None => False
  end.

Lemma wp_published i p file v : stored i p file v → wp (published self name m (va_digest va) file) publication v.
Proof.
  intros Hv. pose proof (calm_stored i p file) as HC. pose proof (stored_always i p file) as HJ. unfold published.
  apply (wp_raises _ _ _ _ _ HC HJ (SysDup (root_fd self)) Fs); [done..|intros e v1 v2 v' _ (Hf & _) _; by left|].
  intros root v1 v2 Hv1 Hv2 _. clear v Hv v1 Hv1.
  apply (wp_look _ _ _ _ _ HC HJ (SysDup (objects_fd self))); [done..|]. intros v3 r v4 Hv3 Hv4 Hef. destruct r as [fd|e].
  - destruct Hef as (q & Hq & Hn & ->).
    assert (calm (λ v, stored i p file v ∧ identity_of v fd = Some objects)) as HC' by (apply calm_and; [done|apply calm_identity]).
    assert (∀ v, stored i p file v ∧ identity_of v fd = Some objects → always v) as HJ' by (intros v' [Hv' _]; by eapply stored_always).
    eapply (wp_answer _ _ _ _ _ HC' HJ' (Some (Ok _))).
    + intros v' [Hv' Hfd]. split_and!; try done. by exists i, p.
    + split; [done|]. unfold identity_of. cbn. rewrite lookup_insert_eq. destruct Hv3 as (_ & (_ & Ho & _) & _). unfold identity_of in Ho. by rewrite Hq in Ho.
  - destruct Hef as (Hf & -> & _). apply (wp_answer _ _ _ _ _ HC HJ (Some (Err (Fs e)))); [|done]. intros v' _. by left.
Qed.

Lemma wp_finish i p file v :
  stored i p file v → (good → in_place v) →
  wp (let^ _ := fs (SysUnlink (staging_fd self) (va_name va)) in let^ _ := fs (SysFsync (staging_fd self)) in
      published self name m (va_digest va) file) publication v.
Proof.
  intros Hv Hpl. pose proof (calm_stored i p file) as HC. pose proof (stored_always i p file) as HJ.
  intros v1 Hr. pose proof (calm_rely _ _ _ HC _ _ Hv Hr) as Hv1. pose proof (calm_rely _ _ _ calm_in_place _ _ Hpl Hr) as Hpl1.
  split; [by apply HJ|]. intros r v2 Hef. destruct r as [[]|e].
  - destruct Hef as (d & Hd & _ & ->). assert (d = staging) as -> by (destruct Hv1 as (_ & (? & _) & _); congruence).
    apply (wp_raises _ _ _ _ _ HC HJ (SysFsync (staging_fd self)) Fs); [done|by apply stored_unstage|intros e v3 v4 v' _ (Hf & _) _; by left|].
    intros _ v3 v4 _ Hv4 _. by eapply wp_published.
  - destruct Hef as (-> & Hb). apply (wp_answer _ _ _ _ _ HC HJ (Some (Err (Fs e)))); [|done]. intros v' _.
    destruct Hb as [Hf|(d & Hd & Hb)]; [by left|]. right; left. intros HG. destruct (Hpl1 HG) as (_ & Hfv & Hen).
    assert (d = staging) as -> by (destruct Hv1 as (_ & (? & _) & _); congruence).
    destruct Hb as [Hb|(j & Hj & Ht)]; [congruence|]. assert (j = iv) as -> by congruence. unfold file_type in Ht. by rewrite Hfv in Ht.
Qed.

(** ** When the object is there already *)

Lemma wp_existing pub dest i p v :
  ready pub dest i p v → is_Some (entry v objects name) →
  wp (publish_existing self va pub name m (va_digest va)) publication v.
Proof.
  intros Hv [j Hj]. assert (valid v name j) as Hva by (destruct Hv as (((Hall & _) & _) & _); by apply Hall).
  destruct Hva as (m' & p' & Hp' & Hfj & Hname).
  pose proof Hv as (Hc & Hp & Hd & _). apply object_name_inj in Hname.
  set (K v := entry v objects name = Some j ∧ valid v name j ∧ v_files v !! j = Some (envelope m' p')).
  assert (calm K) as HK by apply calm_valid.
  assert (K v) as HKv by (split_and!; [done| |done]; exists m', p'; by rewrite <-Hname).
  assert (∀ e v', before v' → blame e → wp (Ret (Some (Err e))) publication v') as Herr.
  { intros e v' Hv' Hb. by apply (wp_answer _ _ _ _ _ calm_before before_always). }
  intros v1 Hr. pose proof (calm_rely _ _ _ (calm_ready pub dest i p) _ _ Hv Hr) as Hv1. pose proof (calm_rely _ _ _ HK _ _ HKv Hr) as HK1.
  pose proof Hv1 as ((HB1 & Hfr & Hpub) & _ & _ & Ho1 & Hf1). split; [by apply before_always|]. intros r v2 Hef.
  destruct r as [[]|e]; cbn [effect] in Hef.
  2: { destruct Hef as (-> & Hb). apply (Herr (Fs e)); [done|]. destruct Hb as [?|(d & Hd' & Hb)]; [by left|]. right; left. intros HG.
       destruct (Hgood HG) as [Hpr _]. destruct Hfr as (_ & _ & _ & _ & Hen). destruct (Hen Hpr) as [_ Hen'].
       assert (d = staging) as -> by (destruct HB1 as (_ & (? & _) & _); congruence).
       destruct Hb as [Hb|(x & Hx & Ht)]; [congruence|]. assert (x = i) as -> by congruence. unfold file_type in Ht. by rewrite Hf1 in Ht. }
  destruct Hef as (d & Hd' & _ & ->). assert (d = staging) as -> by (destruct HB1 as (_ & (? & _) & _); congruence).
  set (I v := before v ∧ K v). assert (calm I) as HI by (apply calm_and; [apply calm_before|done]).
  assert (∀ v, I v → always v) as HJ by (intros ? [? _]; by apply before_always).
  assert (I (set_entry staging pub None v1)) as Hv2.
  { destruct HB1 as (Hall & Hds & Hpl). split; [split; [by apply unstage_valid|split; [done|]]|].
    - intros HG. destruct (Hpl HG) as (? & ? & Hen). split_and!; [done..|]. rewrite entry_set by (by eapply entry_dir).
      rewrite decide_False; [done|]. intros [_ E]. by apply Hpub.
    - destruct HK1 as (He & Hva & Hf). split; [by rewrite unstage_entry|done]. }
  cbn [bind sys lift map_err and_then]. apply wp_seq; [apply rely_preorder|].
  apply (wp_open_regular_at _ _ _ _ I HI HJ _ objects _ (λ x v, x = j ∧ K v)); [by intros ? ((_ & (_ & ? & _) & _) & _)|intros; apply calm_and; [by split|done]| |done| |].
  { intros v3 x [_ HKx] Hx. split; [destruct HKx as [Hen _]; congruence|done]. }
  { intros e v3 [HB3 _] Hb. apply Herr; [done|]. destruct Hb as [?|[(_ & v4 & [_ (He & _)] & Hn)|(_ & v4 & x & _ & (-> & _ & _ & Hf) & Hn)]]; [by left|congruence..]. }
  intros fd x v3 Hv3 [-> HK3] Hid.
  set (I2 v := I v ∧ identity_of v fd = Some j). assert (calm I2) as HI2 by (apply calm_and; [done|apply calm_identity]).
  assert (∀ v, I2 v → always v) as HJ2 by (intros ? [? _]; by apply HJ).
  apply wp_seq; [apply rely_preorder|].
  apply (wp_verify _ _ _ _ I2 HI2 HJ2 fd j True (envelope m' p')); [by intros ? [_ ?]|by intros _ ? [[_ (_ & _ & ?)] _]|done| |].
  - intros e v4 Hb [[HB4 _] _]. apply Herr; [done|]. destruct Hb as [?|Hb]; [by left|]. right; right; right. exists m', p', p.
    split_and!; [|done|congruence]. intros ->. apply Hb. split; [done|]. exists m, p'. split_and!; [done|apply metadata_size, Hp'|done|by intros ? [= <-]].
  - intros m2 d v4 [[HB4 HK4] Hid4] [Hm2 (p2 & Hp2 & -> & Henv)]. rewrite <-(Hm2 m eq_refl) in *. specialize (Henv Logic.I).
    apply envelope_inj in Henv as [-> ->]; [|apply Hp'|apply Hp]. rewrite bool_decide_eq_true_2 by done. rewrite bool_decide_eq_true_2 by done. cbn [negb orb].
    apply (wp_finish j p2 fd); [|by destruct HB4 as (_ & _ & ?)]. destruct HB4 as (? & ? & _). destruct HK4 as (? & ? & ?). by split_and!.
Qed.

(** ** After the rename *)

(** [i'] now has the object's name; with private names it is the copy [i]. *)
Definition renamed (dest : Fd) (i i' : FileIdentity) (p : bytes) (v : View) : Prop :=
  always v ∧ descriptors v ∧ (good → in_place v) ∧ identity_of v dest = Some i ∧ (i ∈ v_owned v ∧ v_files v !! i = Some (envelope m p)) ∧
  entry v objects name = Some i' ∧ ((private → i' = i) ∧ payload_ok m p ∧ va_digest va = digest_of m p).
Lemma calm_renamed dest i i' p : calm (renamed dest i i' p).
Proof.
  apply calm_and; [apply calm_objects_valid|apply calm_and; [apply calm_descriptors|apply calm_and; [apply calm_in_place|]]].
  apply calm_and; [apply calm_identity|apply calm_and; [apply calm_content|apply calm_and; [apply calm_name|by split]]].
Qed.

Lemma rename_renamed pub dest i i' p v v' :
  ready pub dest i p v → entry v staging pub = Some i' → entry v objects name = None → is_Some (v_dirs v !! objects) →
  v' = set_entry objects name (Some i') (set_entry staging pub None v) → renamed dest i i' p v'.
Proof.
  intros (((Hall & Hds & Hpl) & (Hid & Ho & _ & _ & Hen) & Hpub) & Hp & Hd & _ & Hf) Hi' Hnone Hdir ->.
  assert (∀ n, entry (set_entry objects name (Some i') (set_entry staging pub None v)) objects n = if decide (n = name) then Some i' else entry v objects n) as He.
  { intros n. rewrite entry_set by (by apply set_entry_dirs). case_decide as E; [destruct E as [_ ->]; by rewrite decide_True|].
    rewrite decide_False by naive_solver. by rewrite unstage_entry. }
  assert (private → i' = i) as Hsame by (intros Hpr; destruct (Hen Hpr) as [_ He']; congruence).
  split; [|split; [done|split; [|split; [done|split; [done|split; [by rewrite He, decide_True|done]]]]]].
  - intros n j Hj Hn. rewrite He in Hj. case_decide as E; [|by apply (Hall n j)]. injection Hj as <-. subst n.
    destruct Hn as [?|Hpr]; [done|]. exists m, p. rewrite (Hsame Hpr). split_and!; [done..|]. by rewrite Hd.
  - intros HG. destruct (Hpl HG) as (? & ? & Hva). split_and!; [done..|]. rewrite entry_set by (by apply set_entry_dirs).
    rewrite decide_False by naive_solver. rewrite entry_set by (by eapply entry_dir). rewrite decide_False; [done|]. intros [_ E]. by apply Hpub.
Qed.

(** The name is taken off again, if that is possible. *)
Lemma wp_remove e v :
  always v ∧ descriptors v → blame e → wp (remove_failed_publication self name (err e)) publication v.
Proof.
  assert (calm (λ v, always v ∧ descriptors v)) as HC by (apply calm_and; [apply calm_objects_valid|apply calm_descriptors]).
  assert (∀ v, always v ∧ descriptors v → always v) as HJ by tauto. intros Hv Hb.
  intros v1 Hr. apply (calm_rely _ _ _ HC _ _ Hv) in Hr as Hv1. split; [by apply HJ|]. intros r v2 Hef.
  assert (always v2 ∧ descriptors v2) as Hv2.
  { destruct r as [[]|e']; [|by destruct Hef as [-> _]]. destruct Hef as (d & Hd & [j Hj] & ->). destruct Hv1 as [Hal Hds]. split; [|done].
    assert (d = objects) as -> by (destruct Hds as (_ & Ho & _); congruence). intros n x Hx Hn. rewrite entry_set in Hx by (by eapply entry_dir).
    case_decide; [done|]. exact (Hal n x Hx Hn). }
  apply (wp_look _ _ _ _ _ HC HJ (SysFsync (objects_fd self))); [done..|]. intros v3 r' v4 _ Hv4 _.
  by apply (wp_answer _ _ _ _ _ HC HJ (Some (Err e))).
Qed.

Lemma wp_renamed dest i i' p v : renamed dest i i' p v → wp (publish_renamed self va dest name m (va_digest va)) publication v.
Proof.
  pose proof (calm_renamed dest i i' p) as HC. assert (∀ v, renamed dest i i' p v → always v) as HJ by (by intros ? [? _]).
  intros Hv. pose proof Hv as (_ & _ & _ & _ & _ & _ & Hsame & Hp & Hd). unfold publish_renamed. apply wp_seq; [apply rely_preorder|].
  assert (∀ e v', renamed dest i i' p v' → blame e → wp (remove_failed_publication self name (err e)) publication v') as Hrm.
  { intros e v' (? & ? & _) Hb. by apply wp_remove. }
  assert (∀ e v', renamed dest i i' p v' → blame e → wp (Ret (Some (Err e))) publication v') as Herr.
  { intros e v' Hv' Hb. by apply (wp_answer _ _ _ _ _ HC HJ). }
  assert (¬ private → ¬ good) as Hng by (intros Hn HG; apply Hn; by destruct (Hgood HG)).
  apply (wp_open_regular_at _ _ _ _ _ HC HJ _ objects _ (λ x _, x = i')); [by intros ? (_ & (_ & ? & _) & _)|intros; by split| |done| |].
  { intros v3 x (_ & _ & _ & _ & _ & He & _) Hx. congruence. }
  { intros e v3 Hv3 Hb. apply Hrm; [done|]. destruct Hb as [?|[(_ & v4 & (_ & _ & _ & _ & _ & He & _) & Hn)|(_ & v4 & x & Hv4 & -> & Hn)]]; [by left|congruence|].
    right; left. apply Hng. intros Hpr. destruct Hv4 as (_ & _ & _ & _ & [_ Hf] & _). rewrite <-(Hsame Hpr) in Hf. congruence. }
  intros fd x v3 Hv3 -> Hid. set (I2 v := renamed dest i i' p v ∧ identity_of v fd = Some i').
  assert (calm I2) as HI2 by (apply calm_and; [done|apply calm_identity]). assert (∀ v, I2 v → always v) as HJ2 by (intros ? [? _]; by apply HJ).
  apply (wp_look _ _ _ _ I2 HI2 HJ2 (SysFstat fd)); [done..|]. intros v4 r v5 [Hv4 Hid4] Hv5 Hef. destruct r as [[t j]|e].
  2: { destruct Hef as (Hflt & -> & _). apply (Herr (Fs e)); [done|by left]. }
  destruct Hef as (-> & Hj & _). assert (j = i') as -> by congruence. cbn [bind sys lift map_err and_then ok].
  apply (wp_look _ _ _ _ I2 HI2 HJ2 (SysFstat dest)); [done..|]. intros v6 r v7 [Hv6 Hid6] Hv7 Hef. destruct r as [[t' j]|e].
  2: { destruct Hef as (Hflt & -> & _). apply (Herr (Fs e)); [done|by left]. }
  destruct Hef as (-> & Hj' & _). assert (j = i) as -> by (destruct Hv6 as (_ & _ & _ & Hdst & _); congruence). cbn [bind sys lift map_err and_then snd ok].
  destruct (bool_decide_reflect (i' = i)) as [->|Hne]; cbn [negb].
  2: { apply Hrm; [done|]. right; left. apply Hng. intros Hpr. by apply Hne, Hsame. }
  apply wp_seq; [apply rely_preorder|].
  apply (wp_verify _ _ _ _ I2 HI2 HJ2 fd i True (envelope m p)); [by intros ? [_ ?]|by intros _ ? [(_ & _ & _ & _ & [_ ?] & _) _]|done| |].
  - intros e v8 Hb [Hv8 _]. apply Hrm; [done|]. left. destruct Hb as [?|Hb]; [done|]. exfalso. apply Hb. split; [done|]. exists m, p.
    split_and!; [done|apply metadata_size, Hp|done|by intros ? [= <-]].
  - intros m2 d v8 [Hv8 Hid8] [Hm2 (p2 & Hp2 & -> & Henv)]. rewrite <-(Hm2 m eq_refl) in *. specialize (Henv Logic.I).
    apply envelope_inj in Henv as [_ <-]; [|apply Hp..]. rewrite bool_decide_eq_true_2 by done. cbn [negb].
    apply (wp_raises _ _ _ _ I2 HI2 HJ2 (SysFsync (objects_fd self)) Fs); [done..|intros e v9 v10 v' _ (Hf & _) _; by left|].
    intros _ _ v9 _ [Hv9 Hid9] _. apply (wp_finish i p fd); [|by destruct Hv9 as (_ & _ & ? & _)].
    destruct Hv9 as (Hal & Hds & _ & _ & [_ Hf] & He & _).
    assert (valid v9 name i) as Hvl by (exists m, p; split_and!; [done..|by rewrite Hd]).
    split; [|split; [done|split; [done|done]]]. intros n x Hx _. destruct (decide (n = name)) as [->|Hn]; [|apply Hal; auto].
    assert (x = i) as -> by congruence. done.
Qed.

(** ** Publication *)

(** A publication that is given up takes its file's name off. *)
Lemma wp_drop pub e v : before v → blame e → wp (ignore (SysUnlink (staging_fd self) pub) (err e)) publication v.
Proof.
  intros Hv Hb v1 Hr. apply (calm_rely _ _ _ calm_before _ _ Hv) in Hr as Hv1. split; [by apply before_always|]. intros r v2 Hef.
  assert (objects_valid objects (λ _, True) v2 ∧ descriptors v2) as Hv2.
  { destruct Hv1 as (Hall & Hds & _). destruct r as [[]|e']; [|by destruct Hef as [-> _]]. destruct Hef as (d' & Hd' & _ & ->).
    assert (d' = staging) as -> by (destruct Hds as (? & _); congruence). split; [by apply unstage_valid|done]. }
  assert (calm (λ v, objects_valid objects (λ _, True) v ∧ descriptors v)) as HC2 by (apply calm_and; [apply calm_objects_valid|apply calm_descriptors]).
  assert (∀ v, objects_valid objects (λ _, True) v ∧ descriptors v → always v) as HJ2 by (intros ? [Hall _] n x Hx _; by apply Hall).
  by apply (wp_answer _ _ _ _ _ HC2 HJ2 (Some (Err e))).
Qed.

Lemma wp_publish v : before v → wp (publish self va) publication v.
Proof.
  intros Hv. pose proof calm_before as HC. pose proof before_always as HJ.
  assert (∀ e v', before v' → blame e → wp (Ret (Some (Err e))) publication v') as Herr.
  { intros e v' Hv' Hb. by apply (wp_answer _ _ _ _ _ HC HJ). }
  unfold publish. apply wp_seq; [apply rely_preorder|].
  apply (wp_verify _ _ _ _ _ HC HJ (va_file va) iv good (envelope m payload)); [by intros ? (_ & (_ & _ & ?) & _)|by intros HG ? (_ & _ & Hpl); apply (Hpl HG)|done| |].
  { intros e v1 Hb Hv1. apply Herr; [done|]. destruct Hb as [?|Hb]; [by left|right; left]. intros HG. apply Hb. destruct (Hgood HG) as (_ & _ & Hp & _).
    split; [done|]. exists m, payload. split_and!; [done|apply metadata_size, Hp|done|by intros ? [= <-]]. }
  intros m2 d v1 Hv1 [Hm2 (p & Hp & -> & Henv)]. rewrite <-(Hm2 m eq_refl) in *.
  destruct (bool_decide_reflect (digest_of m p = va_digest va)) as [Hd|Hd]; cbn [negb].
  2: { apply Herr; [done|]. right; left. intros HG. apply Hd. destruct (Hgood HG) as (_ & _ & Hp' & -> & _). specialize (Henv HG).
       by apply envelope_inj in Henv as [_ ->]; [|apply Hp'..]. }
  rewrite Hd. clear p Hp Henv Hd.
  apply (wp_look _ _ _ _ _ HC HJ (SysFstat (va_file va))); [done..|]. intros v2 r v3 Hv2 Hv3 Hef. destruct r as [[t j]|e].
  2: { destruct Hef as (Hflt & -> & _). apply (Herr (Fs e)); [done|by left]. }
  destruct Hef as (-> & Hj & _). assert (j = iv) as -> by (destruct Hv2 as (_ & (_ & _ & ?) & _); congruence). cbn [bind sys lift map_err and_then snd ok].
  destruct (bool_decide_reflect (iv = va_identity va)) as [Hiv|Hiv]; cbn [negb].
  2: { apply Herr; [done|]. right; left. intros HG. destruct (Hgood HG) as (_ & ? & _). congruence. }
  apply (wp_look _ _ _ _ _ HC HJ (SysStatat (staging_fd self) (va_name va))); [done..|]. intros v4 r v5 Hv4 Hv5 Hef.
  assert (good → ∀ d, identity_of v4 (staging_fd self) = Some d → entry v4 d (va_name va) = Some iv ∧ file_type v4 iv = RegularFile) as Hplace.
  { intros HG d Hdd. destruct Hv4 as (_ & (Hs & _) & Hpl). destruct (Hpl HG) as (_ & Hf & He). assert (d = staging) as -> by congruence.
    split; [done|]. unfold file_type. by rewrite Hf. }
  destruct r as [[t2 j]|e].
  2: { destruct Hef as (-> & Hb). apply (Herr (Fs e)); [done|]. destruct Hb as [?|(d & Hdd & Hn)]; [by left|right; left]. intros HG. destruct (Hplace HG d Hdd). congruence. }
  destruct Hef as (-> & d & Hdd & He & ->). cbn [bind sys lift map_err and_then fst snd ok].
  destruct (negb (is_regular_mode (file_type v4 j)) || negb (bool_decide (j = va_identity va))) eqn:Ereg.
  { apply Herr; [done|]. right; left. intros HG. destruct (Hplace HG d Hdd) as [He' Ht]. assert (j = iv) as -> by congruence.
    unfold is_regular_mode in Ereg. rewrite Ht, !bool_decide_eq_true_2 in Ereg by done. done. }
  clear Ereg Hplace. unfold random_name. apply (wp_look _ _ _ _ _ HC HJ SysRandom); [done..|]. intros v6 r v7 Hv6 Hv7 Hef. destruct r as [b|e].
  2: { destruct Hef as (Hflt & -> & _). apply (Herr (Io e)); [done|by left]. }
  cbn [bind sys lift map_err and_then ok]. set (pub := name_of STAGE_PREFIX STAGE_SUFFIX b). apply wp_seq; [apply rely_preorder|].
  apply (wp_copy pub); [done| |].
  - intros e v8 Hv8 Hb. apply wp_drop; [done|unfold blame; tauto].
  - intros dest i p v8 Hv8. intros v9 Hr9. apply (calm_rely _ _ _ (calm_ready pub dest i p) _ _ Hv8) in Hr9 as Hv9.
    pose proof Hv9 as ((HB9 & Hfr & Hpub) & Hp & Hd & Ho & Hf). split; [by apply HJ|]. intros r9 v10 Hef9.
    assert (∀ errno, v10 = v9 ∧ (faulty ∨ ∃ d, identity_of v9 (staging_fd self) = Some d ∧ entry v9 d pub = None) →
      wp (ignore (SysUnlink (staging_fd self) pub) (err (Fs errno))) publication v10) as Hfail.
    { intros errno [-> Hb]. apply wp_drop; [done|]. destruct Hb as [?|(d' & Hd' & Hn)]; [by left|right; left]. intros HG.
      destruct (Hgood HG) as [Hpr _]. destruct Hfr as (_ & _ & _ & _ & Hen). destruct (Hen Hpr) as [_ He'].
      assert (d' = staging) as -> by (destruct HB9 as (_ & (? & _) & _); congruence). congruence. }
    destruct r9 as [[]|[]]; [|destruct Hef9 as (-> & d' & Hd' & Hex)|by apply Hfail..].
    + destruct Hef9 as (d1 & d2 & i' & Hd1 & Hd2 & Hi' & Hdir & Hnone & ->).
      destruct HB9 as (_ & (Hs1 & Hs2 & _) & _). assert (d1 = staging ∧ d2 = objects) as [-> ->] by (split; congruence).
      eapply wp_renamed, rename_renamed; [exact Hv9|exact Hi'|exact Hnone|exact Hdir|done].
    + eapply wp_existing; [exact Hv9|]. destruct HB9 as (_ & (_ & Hs2 & _) & _). assert (d' = objects) as -> by congruence. done.
Qed.
End Publish.
