(* ===== verification/Queue.v ===== *)
(** * The run queue

    crates/zkie-runtime/src/queue.rs: the loop that drives a plan through the
    run database.  It recovers interrupted attempts, persists the plan, and in
    rounds refreshes readiness, asks the scheduler, and runs each selected job:
    begin an attempt, launch a worker, verify its output independently, publish
    it, commit.  The launcher, the verifier, the memory monitor, the clock, the
    file system and the content stores are the operations of a host.  [Commit] has
    what the queue does with a content store. *)
From S2P Require Import Prelude Ordering Bytes State Identity Resource Estimate RunDb RunDbSteps Monitor.
From S2P Require Import Scheduler Worker Dag PoseidonBoundary Store StoreFs.

Open Scope string_scope.
Open Scope nat_scope.
Open Scope list_scope.

(** ** Plans *)

Record ProofBinding := mkProofBinding {
  pb_role : ArtifactRole;
  pb_k : Z;
  pb_arity : AggregationArity;
  pb_artifact_manifest_digest : Digest32;
  pb_run_identity_digest : Digest32;
  pb_public_statement_digest : Digest32;
  pb_circuit_digest : Digest32;
  pb_verifying_key_digest : Digest32;
  pb_srs_source_digest : Digest32;
  pb_shard_identity_digest : Digest32;
  pb_witness_artifact_digest : Digest32;
  pb_proof_flavor : ProofFlavorId;
  pb_execution_backend : ExecutionBackendId
}.

Record KeyBinding := mkKeyBinding {
  kb_srs_source_digest : Digest32;
  kb_proof_flavor : ProofFlavorId;
  kb_circuit_digest : Digest32;
  kb_k : Z;
  kb_aggregation_arity : Z
}.

Inductive JobBinding := BindProof (binding : ProofBinding) | BindKey (binding : KeyBinding).

Record PlannedJob := mkPlannedJob {
  pj_logical_id : string;
  pj_kind : JobKind;
  pj_depends_on : list string;
  pj_request : ResourceRequest;
  pj_job : WorkerJob;
  pj_binding : JobBinding
}.

Record QueuePlan := mkQueuePlan { qp_run_digest : Digest32; qp_jobs : list PlannedJob }.

Record QueueOutcome := mkQueueOutcome {
  qo_verified : list JobId;
  qo_terminal : list JobId;
  qo_blocked : list JobId;
  qo_rounds : nat
}.

Definition is_complete (self : QueueOutcome) : bool :=
  bool_decide (qo_terminal self = []) && bool_decide (qo_blocked self = []).

Inductive QueueError :=
| QueueDb (error : DbError)
| QueueProtocol (error : ProtocolError)
| QueueStore (error : string)
| QueueScheduler (error : SchedulerError DbError)
| Stalled (rounds : nat)
| UnknownPredecessor (job predecessor : string)
| MissingStaged (attempt logical_id : string)
| VerificationRejected (attempt message : string)
| QueueIo (message : string).

(** ** The host *)

(** What the queue is given from outside: [monitor], [clock], [launcher] and
    [verifier] of the runtime, directory creation, and the publication of a
    staged file through a content store up to its attestation. *)
Class QueueHost (S : Type) := {
  qh_action : S → MemoryAction * S;
  qh_now_unix_seconds : S → Z * S;
  qh_create_dir_all : S → Path → Result unit string * S;
  qh_launch : S → WorkerSpec → Path → Result WorkerResult ProtocolError * S;
  qh_verify : S → PlannedJob → WorkerSpec → Path → Result unit string * S;
  qh_publish_proof : S → PlannedJob → string → JobId → AttemptId → Path → ProofBinding →
    Result VerifiedObject QueueError * S;
  qh_publish_key : S → PlannedJob → string → JobId → AttemptId → Path → KeyBinding →
    Result VerifiedObject QueueError * S
}.

(** The state the queue runs on.  [qs_accepted] lists the jobs and attempts of
    the worker specifications the verifier has accepted, in order; the code does
    not read it. *)
Record QueueState (S : Type) := mkQueueState {
  qs_db : RunDb;
  qs_host : S;
  qs_accepted : list (JobId * AttemptId)
}.
Arguments mkQueueState {S} _ _ _.
Arguments qs_db {S} _.
Arguments qs_host {S} _.
Arguments qs_accepted {S} _.

Section Queue.
Context {S : Type} `{QueueHost S} (clock : nat → option Z).

(** A step of the queue: its outcome, [None] for a panic, and the new state. *)
Definition Q (A : Type) : Type := QueueState S → Outcome A QueueError * QueueState S.

Definition q_ret {A} (a : A) : Q A := λ st, (Some (Ok a), st).
Definition q_err {A} (e : QueueError) : Q A := λ st, (Some (Err e), st).
Definition q_panic {A} : Q A := λ st, (None, st).
Definition q_bind {A B} (m : Q A) (k : A → Q B) : Q B := λ st,
  match m st with
  | (Some (Ok a), st) => k a st
  | (Some (Err e), st) => (Some (Err e), st)
  | (None, st) => (None, st)
  end.

Notation "'let*' x := c 'in' k" := (q_bind c (λ x, k))
  (at level 10, x name, c at level 100, k at level 200).
Notation "'let*' ' p := c 'in' k" := (q_bind c (λ p, k))
  (at level 10, p strict pattern, c at level 100, k at level 200).

Definition q_lift {A} (r : Result A QueueError) : Q A := λ st, (Some r, st).
Definition q_db {A} (f : RunDb → A) : Q A := λ st, (Some (Ok (f (qs_db st))), st).

(** A database method: an error rolls its transaction back. *)
Definition q_tx {A} (m : Tx A) : Q A := λ st,
  match m (qs_db st) with
  | Ok (a, db) => (Some (Ok a), mkQueueState db (qs_host st) (qs_accepted st))
  | Err e => (Some (Err (QueueDb e)), st)
  end.

(** An operation of the host. *)
Definition q_host {A} (f : S → A * S) : Q A := λ st,
  let '(a, host) := f (qs_host st) in (Some (Ok a), mkQueueState (qs_db st) host (qs_accepted st)).

(** The verifier's call; an accepted specification is logged. *)
Definition q_verify (planned : PlannedJob) (spec : WorkerSpec) (staging : Path) : Q (Result unit string) := λ st,
  let '(accepted, host) := qh_verify (qs_host st) planned spec staging in
  (Some (Ok accepted), mkQueueState (qs_db st) host
    (match accepted with
     | Ok _ => qs_accepted st ++ [(ws_job_id spec, ws_attempt_id spec)]
     | Err _ => qs_accepted st
     end)).

Fixpoint q_iter {A} (f : A → Q unit) (l : list A) : Q unit :=
  match l with
  | [] => q_ret tt
  | x :: l => let* _ := f x in q_iter f l
  end.

(** ** Planning *)

Definition existing (logical_id : string) (db : RunDb) : option JobId :=
  fst <$> (snd <$> list_find (λ ir, jr_logical_job_id (snd ir) = logical_id) (jobs db)).

(** One entry of [ids] and [created]: the id of a planned job, and whether this
    call created it. *)
Definition ensure_job (planned : PlannedJob) : Q ((string * JobId) * bool) :=
  let* found := q_db (existing (pj_logical_id planned)) in
  match found with
  | Some id => q_ret ((pj_logical_id planned, id), false)
  | None =>
      let* id := q_tx (insert_job clock (pj_logical_id planned) (pj_kind planned)) in
      q_ret ((pj_logical_id planned, id), true)
  end.

Fixpoint ensure_jobs (planned : list PlannedJob) : Q (list ((string * JobId) * bool)) :=
  match planned with
  | [] => q_ret []
  | p :: rest =>
      let* entry := ensure_job p in
      let* entries := ensure_jobs rest in
      q_ret (entry :: entries)
  end.

Definition find_id (ids : list (string * JobId)) (name : string) : option JobId :=
  snd <$> (snd <$> list_find (λ ni, fst ni = name) ids).

Definition ensure_edge (ids : list (string * JobId)) (logical_id : string) (successor : JobId)
    (predecessor_name : string) : Q unit :=
  let* predecessor := q_lift (ok_or (find_id ids predecessor_name)
                                (UnknownPredecessor logical_id predecessor_name)) in
  q_tx (add_dependency predecessor successor).

Definition ensure_edges (ids : list (string * JobId))
    (entry : PlannedJob * ((string * JobId) * bool)) : Q unit :=
  let '(planned, ((_, successor), created)) := entry in
  if negb created then q_ret tt
  else q_iter (ensure_edge ids (pj_logical_id planned) successor) (pj_depends_on planned).

Definition ensure_planned (plan : QueuePlan) : Q (list (string * JobId)) :=
  let* entries := ensure_jobs (qp_jobs plan) in
  let ids := fst <$> entries in
  let* _ := q_iter (ensure_edges ids) (zip (qp_jobs plan) entries) in
  q_ret ids.

(** ** Candidates and outcome *)

Definition lookup_id (ids : list (string * JobId)) (logical_id : string) : Result JobId QueueError :=
  ok_or (find_id ids logical_id) (UnknownPredecessor logical_id logical_id).

Fixpoint ready_candidates (planned : list PlannedJob) (ids : list (string * JobId)) : Q (list SchedulableJob) :=
  match planned with
  | [] => q_ret []
  | p :: rest =>
      let* id := q_lift (lookup_id ids (pj_logical_id p)) in
      let* record := q_tx (job id) in
      let* candidates := ready_candidates rest ids in
      q_ret (if bool_decide (jr_state record = Ready)
             then mkCandidate id (pj_request p) 0 :: candidates else candidates)
  end.

Definition summarize_one (outcome : QueueOutcome) (ir : JobId * JobRow) : QueueOutcome :=
  let '(mkQueueOutcome verified terminal blocked rounds) := outcome in
  match jr_state (snd ir) with
  | Verified => mkQueueOutcome (verified ++ [fst ir]) terminal blocked rounds
  | Blocked => mkQueueOutcome verified terminal (blocked ++ [fst ir]) rounds
  | VerificationFailed => mkQueueOutcome verified (terminal ++ [fst ir]) blocked rounds
  | _ => if jr_terminal_failure (snd ir) then mkQueueOutcome verified (terminal ++ [fst ir]) blocked rounds
         else outcome
  end.

Definition summarize (db : RunDb) : QueueOutcome :=
  fold_left summarize_one (jobs db) (mkQueueOutcome [] [] [] 0).

(** ** One attempt *)

Definition start_event (kind : JobKind) : JobEvent :=
  match kind with
  | Witness => StartWitnessing
  | Prepare => StartPreparing
  | LeafProof => StartProving
  | LeafVerification | NativeAggregate => StartVerification
  end.

Definition stage_for (kind : JobKind) : FailureStage :=
  match kind with
  | Witness => FsWitness
  | Prepare => FsPrepare
  | LeafProof => FsProve
  | LeafVerification | NativeAggregate => FsVerify
  end.

Definition io {A} (r : Result A string) : Q A := q_lift (map_err QueueIo r).

Definition commit_proof (planned : PlannedJob) (id : JobId) (attempt : AttemptId) (staging : Path)
    (binding : ProofBinding) : Q unit :=
  let* run_id := q_db db_run_id in
  let* published := q_host (λ h, qh_publish_proof h planned run_id id attempt staging binding) in
  let* verified := q_lift published in
  let* _ := q_tx (commit_verified_artifact clock verified) in
  q_ret tt.

Definition commit_key (planned : PlannedJob) (id : JobId) (attempt : AttemptId) (staging : Path)
    (binding : KeyBinding) : Q unit :=
  let* run_id := q_db db_run_id in
  let* published := q_host (λ h, qh_publish_key h planned run_id id attempt staging binding) in
  let* verified := q_lift published in
  let* _ := q_tx (commit_verified_key clock verified) in
  q_ret tt.

Definition publish (planned : PlannedJob) (id : JobId) (attempt : AttemptId) (staging : Path) : Q unit :=
  match pj_binding planned with
  | BindProof binding => commit_proof planned id attempt staging binding
  | BindKey binding => commit_key planned id attempt staging binding
  end.

Definition finish_success (planned : PlannedJob) (id : JobId) (attempt : AttemptId) (spec : WorkerSpec)
    (staging : Path) : Q unit :=
  let* accepted := q_verify planned spec staging in
  let* _ := q_lift (map_err (VerificationRejected attempt) accepted) in
  let complete event :=
    let* _ := q_tx (apply_attempt_event clock id attempt event) in publish planned id attempt staging in
  match pj_kind planned with
  | LeafVerification =>
      let* _ := q_tx (complete_verification clock id attempt "independent-verifier") in q_ret tt
  | Witness => complete WitnessCompleted
  | Prepare => complete PreparationCompleted
  | LeafProof => complete ProofProduced
  | NativeAggregate => publish planned id attempt staging
  end.

Definition run_one (plan : QueuePlan) (staging_root : Path) (planned : PlannedJob) (id : JobId) : Q unit :=
  let* attempt := q_tx (begin_attempt clock id (start_event (pj_kind planned))) in
  let staging := path_join staging_root attempt in
  let* created := q_host (λ h, qh_create_dir_all h staging) in
  let* _ := io created in
  let* spec := q_lift (map_err QueueProtocol
    (worker_spec (qp_run_digest plan) id attempt (pj_job planned) staging (pj_request planned))) in
  let result_path := path_join staging "worker-result.txt" in
  let* launched := q_host (λ h, qh_launch h spec result_path) in
  let* result := q_lift (map_err QueueProtocol launched) in
  match wr_outcome result with
  | Succeeded => finish_success planned id attempt spec staging
  | Failed _ =>
      let failure := failure_new FkExecution (stage_for (pj_kind planned)) WorkerExit in
      let* _ := q_tx (handle_attempt_failure clock id attempt failure None) in
      q_ret tt
  end.

(** ** The loop *)

(** [scheduler.decide_with_memory]; the clock reading of the round is taken
    first. *)
Definition q_decide (config : SchedulerConfig) (candidates : list SchedulableJob) (available : ResourceCapacity)
    (action : MemoryAction) : Q SchedulerDecision :=
  let* now := q_host qh_now_unix_seconds in
  λ st,
    let '(out, db) := decide_with_memory (H := run_db_readiness clock) config now (qs_db st) candidates available action in
    (match out with
     | Some r => Some (map_err QueueScheduler r)
     | None => None
     end, mkQueueState db (qs_host st) (qs_accepted st)).

(** The job the scheduler selected, at its place in the plan. *)
Definition run_selected (plan : QueuePlan) (staging_root : Path) (ids : list (string * JobId)) (id : JobId) : Q unit :=
  let* index := q_lift (ok_or (fst <$> list_find (λ ni, snd ni = id) ids) (MissingStaged "" id)) in
  match qp_jobs plan !! index with
  | Some planned => run_one plan staging_root planned id
  | None => q_panic
  end.

(** The rounds that remain are the fuel: [max_rounds] bounds the loop. *)
Fixpoint rounds_loop (plan : QueuePlan) (staging_root : Path) (capacity : ResourceCapacity)
    (ids : list (string * JobId)) (max_rounds rounds remaining : nat) : Q nat :=
  match remaining with
  | O => q_err (Stalled max_rounds)
  | Datatypes.S remaining =>
      let rounds := Datatypes.S rounds in
      let* _ := q_tx (refresh_readiness clock) in
      let* candidates := ready_candidates (qp_jobs plan) ids in
      if bool_decide (candidates = []) then q_ret rounds
      else
        let* action := q_host qh_action in
        let* decision := q_decide (config_new capacity) candidates capacity action in
        if bool_decide (sd_selected decision = []) then q_ret rounds
        else
          let* _ := q_iter (run_selected plan staging_root ids) (sd_selected decision) in
          rounds_loop plan staging_root capacity ids max_rounds rounds remaining
  end.

Definition run_queue (plan : QueuePlan) (staging_root : Path) (capacity : ResourceCapacity) (max_rounds : nat)
    : Q QueueOutcome :=
  let* _ := q_tx (recover_interrupted clock) in
  let* ids := ensure_planned plan in
  let* rounds := rounds_loop plan staging_root capacity ids max_rounds 0 max_rounds in
  let* outcome := q_db summarize in
  q_ret (mkQueueOutcome (qo_verified outcome) (qo_terminal outcome) (qo_blocked outcome) (rounds - 1)).

End Queue.

(** ** Publishing through a content store

    What [commit_proof] and [commit_key] do between reading the staged bytes and the
    database: the operations [qh_publish_proof] and [qh_publish_key] of the host, as
    methods of the stores. *)
Module Commit.
Import Store StoreFs.
Open Scope Z_scope.

(** [Write::write_all] on a staged object, for a number of writes; a write that was
    interrupted and is tried again counts as none. *)
Fixpoint write_all (fuel : nat) (staged : StagedObject) (b : bytes) : Method StagedObject :=
  match b, fuel with
  | [], _ => ok staged
  | _, O => Ret None
  | _, S fuel =>
      let^ '(count, staged) := write staged b in
      if count =? 0 then err (Io "failed to write whole buffer") else write_all fuel staged (drop (Z.to_nat count) b)
  end.

Section Methods.
Context `{Blake3}.

(** [names] is the number of names that [stage] tries. *)
Definition store_object (store : StoreCore) (names : nat) (metadata : ObjectMetadata) (b : bytes) : Method PublishedObject :=
  let^ staged := stage store names metadata in
  let^ staged := write_all (length b) staged b in
  let^ validated := validate store staged in
  StoreFs.publish store validated.

Definition proof_identity (planned : PlannedJob) (run_id : string) (id : JobId) (attempt : AttemptId) (binding : ProofBinding) (b : bytes)
    : Result TrustedProofIdentity StoreError :=
  proof_identity_new (mkProofIdentity (pb_role binding) (pj_kind planned) (pb_k binding) (pb_arity binding) run_id id attempt
    (blake3 b) (pb_artifact_manifest_digest binding) (pb_run_identity_digest binding) (pb_public_statement_digest binding)
    (pb_circuit_digest binding) (pb_verifying_key_digest binding) (pb_srs_source_digest binding) (pb_shard_identity_digest binding)
    (pb_witness_artifact_digest binding) (pb_proof_flavor binding) (pb_execution_backend binding)).
(** [identity.digest()] panics where the identity cannot be encoded. *)
Definition or_panic {A} (a : option A) : Method A := match a with Some a => ok a | None => Ret None end.

Definition publish_proof (store : StoreCore) (names : nat) (planned : PlannedJob) (run_id : string) (id : JobId) (attempt : AttemptId)
    (binding : ProofBinding) (b : bytes) : Method (TrustedProofIdentity * PublishedObject) :=
  let^ identity := lift (proof_identity planned run_id id attempt binding b) in
  let^ identity_digest := or_panic (proof_digest identity) in
  let^ metadata := lift (artifact_metadata_new_proof (pj_logical_id planned) (blake3 b) (Z.of_nat (length b)) identity_digest) in
  let^ published := store_object store names (Artifact metadata) b in
  attest_proof identity published.

Definition publish_key (store : StoreCore) (names : nat) (planned : PlannedJob) (run_id : string) (id : JobId) (attempt : AttemptId)
    (binding : KeyBinding) (b : bytes) : Method (TrustedKeyIdentity * PublishedObject) :=
  let^ base := lift (key_metadata_new (blake3 b) (Z.of_nat (length b)) (kb_srs_source_digest binding) (kb_proof_flavor binding)
    (kb_circuit_digest binding) (kb_k binding) (kb_aggregation_arity binding)) in
  let^ identity := lift (key_identity_new ProvingAndVerifyingKey (pj_kind planned) run_id id attempt base) in
  let^ identity_digest := or_panic (key_digest identity) in
  let^ published := store_object store names (Key (bind_identity base identity_digest)) b in
  attest_key identity published.

(** What the database reads off an attested object; the checks it makes on the object
    are in [checks]. *)
Definition proof_object (identity : TrustedProofIdentity) (published : PublishedObject) (checks : ObjectChecks) : option VerifiedObject :=
  identity_digest ← proof_digest identity;
  attestation_digest ← proof_attestation identity (pu_digest published);
  Some (mkVerifiedObject (tp_run_id identity) (tp_job identity) (tp_attempt identity) (tp_execution_backend identity)
    (match pu_metadata published with Artifact value => Some (am_artifact_id value) | Key _ => None end) (tp_job_kind identity)
    (pu_digest published) (content_digest (pu_metadata published)) (size (pu_metadata published)) identity_digest attestation_digest checks).
Definition key_object (identity : TrustedKeyIdentity) (published : PublishedObject) (checks : ObjectChecks) : option VerifiedObject :=
  identity_digest ← key_digest identity;
  attestation_digest ← key_attestation identity (pu_digest published);
  let metadata := ti_metadata identity in
  Some (mkVerifiedObject (ti_run_id identity) (ti_job identity) (ti_attempt identity) (km_proof_flavor metadata) None (ti_job_kind identity)
    (pu_digest published) (km_content_digest metadata) (km_size metadata) identity_digest attestation_digest checks).
End Methods.
End Commit.
