(* ===== verification/QueueProofs.v ===== *)
(** * The run queue: what a run can do to the database

    Every session of the queue is a sequence of database methods in which edges
    are added only to pending jobs and a job is committed only after the
    verifier has accepted that very attempt.  The invariants of the run database
    therefore hold of whatever the queue leaves behind, and a job never leaves
    [Pending] before its predecessors have been accepted. *)
From S2P Require Import Prelude Ordering Bytes State Identity Resource Estimate RunDb RunDbProofs RunDbSteps.
From S2P Require Import RunDbSafety Monitor Scheduler Worker Dag Store Queue.

Open Scope string_scope.
Open Scope nat_scope.
Open Scope list_scope.

(** What the stores promise the queue: a published object is attested for the
    run, job and attempt it was published for. *)
Class QueueHostLaws (S : Type) `{QueueHost S} : Prop := {
  publish_proof_binds h planned run id attempt staging binding v h' :
    qh_publish_proof h planned run id attempt staging binding = (Ok v, h') →
    vo_run_id v = run ∧ vo_job v = id ∧ vo_attempt v = attempt;
  publish_key_binds h planned run id attempt staging binding v h' :
    qh_publish_key h planned run id attempt staging binding = (Ok v, h') →
    vo_run_id v = run ∧ vo_job v = id ∧ vo_attempt v = attempt
}.

(** ** Sequences of methods *)

(** The attempt a committing method commits. *)
Definition committed (op : Op) : option (JobId * AttemptId) :=
  match op with
  | OpCompleteVerification job attempt _ => Some (job, attempt)
  | OpCommitArtifact v | OpCommitKey v => Some (vo_job v, vo_attempt v)
  | _ => None
  end.

Definition op_accepted (accepted : list (JobId * AttemptId)) (op : Op) : Prop :=
  ∀ ja, committed op = Some ja → ja ∈ accepted.

Section Proofs.
Context {S : Type} `{QueueHost S} (clock : nat → option Z).

(** The queue went from one state to another through these methods. *)
Definition evolves (st st' : QueueState S) : Prop :=
  qs_accepted st `prefix_of` qs_accepted st' ∧
  ∃ ops, qs_db st' = fold_left (apply_op clock) ops (qs_db st) ∧
    planned_ops clock (qs_db st) ops = true ∧ Forall (op_accepted (qs_accepted st')) ops.

Lemma planned_ops_app db ops ops' :
  planned_ops clock db (ops ++ ops') =
  planned_ops clock db ops && planned_ops clock (fold_left (apply_op clock) ops db) ops'.
Proof. revert db. induction ops as [|op ops IH]; intros db; simpl; [done|]. by rewrite IH, andb_assoc. Qed.

Lemma op_accepted_mono acc acc' op : acc `prefix_of` acc' → op_accepted acc op → op_accepted acc' op.
Proof. intros [k ->] Ha ja Hja. apply elem_of_app. left. by apply Ha. Qed.

#[export] Instance evolves_preorder : PreOrder evolves.
Proof.
  split.
  - intros st. split; [done|]. exists []. done.
  - intros s1 s2 s3 [P1 (o1 & E1 & B1 & A1)] [P2 (o2 & E2 & B2 & A2)].
    split; [by etrans|]. exists (o1 ++ o2). rewrite fold_left_app, <-E1. split; [done|].
    rewrite planned_ops_app, <-E1, B1. split; [done|]. apply Forall_app. split; [|done].
    eapply Forall_impl; [exact A1|]. intros op. by apply op_accepted_mono.
Qed.

(** One successful method. *)
Lemma evolves_op op (st : QueueState S) db' :
  exec clock op (qs_db st) = Ok (tt, db') → planned_op (qs_db st) op = true →
  op_accepted (qs_accepted st) op → evolves st (mkQueueState db' (qs_host st) (qs_accepted st)).
Proof.
  intros Hex Hp Ha. split; [done|]. exists [op]. simpl. unfold apply_op. rewrite Hex.
  split; [done|]. rewrite Hp. split; [done|]. by constructor.
Qed.

(** ** Triples *)

(** From a state in [P] the step does not panic, goes through methods of the
    database, and on success ends in [Q]. *)
Definition triple {A} (P : QueueState S → Prop) (m : Q (S := S) A) (R : A → QueueState S → Prop) : Prop :=
  ∀ st, P st → ∃ out st', m st = (Some out, st') ∧ evolves st st' ∧ ∀ a, out = Ok a → R a st'.

Lemma triple_ret {A} (P : QueueState S → Prop) (a : A) (R : A → QueueState S → Prop) :
  (∀ st, P st → R a st) → triple P (q_ret a) R.
Proof. intros HR st HP. eexists _, _. split; [done|]. split; [done|]. intros b [= <-]. auto. Qed.

Lemma triple_bind {A B} P (m : Q (S := S) A) R (k : A → Q (S := S) B) T :
  triple P m R → (∀ a, triple (R a) (k a) T) → triple P (q_bind m k) T.
Proof.
  intros Hm Hk st HP. destruct (Hm st HP) as (out & st1 & E & Hev & HR). unfold q_bind. rewrite E.
  destruct out as [a|e].
  - destruct (Hk a st1 (HR a eq_refl)) as (out2 & st2 & E2 & Hev2 & HT). eexists _, _.
    split; [exact E2|]. split; [by etrans|done].
  - eexists _, _. split; [done|]. split; [done|]. by intros a.
Qed.

(** A fact about the result that does not depend on the state. *)
Lemma triple_bind_pure {A B} P (m : Q (S := S) A) R (φ : A → Prop) (k : A → Q (S := S) B) T :
  triple P m R → (∀ a st, R a st → φ a) → (∀ a, φ a → triple (R a) (k a) T) → triple P (q_bind m k) T.
Proof.
  intros Hm Hφ Hk. apply (triple_bind P m R k T Hm). intros a st HR. exact (Hk a (Hφ a st HR) st HR).
Qed.

Lemma triple_conseq {A} (P P' : QueueState S → Prop) (m : Q (S := S) A) (R R' : A → QueueState S → Prop) :
  triple P' m R' → (∀ st, P st → P' st) → (∀ a st, R' a st → R a st) → triple P m R.
Proof.
  intros Hm HP HR st Hst. destruct (Hm st (HP st Hst)) as (out & st' & E & Hev & Hout).
  eexists _, _. split; [exact E|]. split; [done|]. eauto.
Qed.

Lemma triple_lift {A} (P : QueueState S → Prop) (r : Result A QueueError) :
  triple P (q_lift r) (λ a st, P st ∧ r = Ok a).
Proof. intros st HP. eexists _, _. split; [done|]. split; [done|]. intros a ->. done. Qed.

Lemma triple_db {A} (P : QueueState S → Prop) (f : RunDb → A) :
  triple P (q_db f) (λ a st, P st ∧ a = f (qs_db st)).
Proof. intros st HP. eexists _, _. split; [done|]. split; [done|]. by intros a [= <-]. Qed.

(** A predicate of the database and of what has been accepted. *)
Definition stable (P : QueueState S → Prop) : Prop :=
  ∀ db h h' acc, P (mkQueueState db h acc) → P (mkQueueState db h' acc).

Lemma triple_host {A} (P : QueueState S → Prop) (f : S → A * S) :
  stable P → triple P (q_host f) (λ a st, P st ∧ ∃ h h', f h = (a, h')).
Proof.
  intros Hst [db h acc] HP. unfold q_host. simpl. destruct (f h) as [a h'] eqn:E.
  eexists _, _. split; [done|]. split; [split; [done|exists []; done]|].
  intros b [= <-]. split; [by eapply Hst|eauto].
Qed.

(** A method of the database, named by the call it makes. *)
Lemma triple_tx {A} (P : QueueState S → Prop) (m : Tx A) (R : A → QueueState S → Prop) :
  (∀ st a db', P st → m (qs_db st) = Ok (a, db') →
     (∃ op, exec clock op (qs_db st) = Ok (tt, db') ∧ planned_op (qs_db st) op = true ∧
        op_accepted (qs_accepted st) op) ∧
     R a (mkQueueState db' (qs_host st) (qs_accepted st))) →
  triple P (q_tx m) R.
Proof.
  intros Hm st HP. unfold q_tx. destruct (m (qs_db st)) as [[a db']|e] eqn:E.
  - destruct (Hm st a db' HP E) as [(op & Hex & Hp & Ha) HR]. eexists _, _. split; [done|].
    split; [by eapply evolves_op|]. by intros b [= <-].
  - eexists _, _. split; [done|]. split; [done|]. by intros a.
Qed.

(** A reading method changes nothing. *)
Lemma triple_tx_read {A} (P : QueueState S → Prop) (m : Tx A) :
  (∀ db a db', m db = Ok (a, db') → db' = db) → triple P (q_tx m) (λ a st, P st ∧ m (qs_db st) = Ok (a, qs_db st)).
Proof.
  intros Hm st HP. unfold q_tx. destruct (m (qs_db st)) as [[a db']|e] eqn:E.
  - pose proof (Hm _ _ _ E) as ->. eexists _, _. split; [done|]. destruct st. split; [done|].
    by intros b [= <-].
  - eexists _, _. split; [done|]. split; [done|]. by intros a.
Qed.

Lemma triple_verify (P : QueueState S → Prop) planned spec staging :
  triple P (q_verify planned spec staging)
    (λ accepted st, accepted = Ok tt → (ws_job_id spec, ws_attempt_id spec) ∈ qs_accepted st).
Proof.
  intros st HP. unfold q_verify. destruct (qh_verify _ _ _ _) as [[[]|e] h]; eexists _, _; (split; [done|]).
  - split; [split; [by eexists|by exists []]|]. intros _ _ _. simpl. apply elem_of_app. right. by left.
  - split; [split; [done|by exists []]|]. by intros a [= <-].
Qed.

Lemma triple_iter {A} (P : QueueState S → Prop) (f : A → Q (S := S) unit) l :
  (∀ x, x ∈ l → triple P (f x) (λ _, P)) → triple P (q_iter f l) (λ _, P).
Proof.
  induction l as [|x l IH]; intros Hf; simpl; [by apply triple_ret|].
  eapply triple_bind; [apply Hf; by left|]. intros []. apply IH. intros y Hy. apply Hf. by right.
Qed.

(** ** The steps of the queue *)

(** [exec] drops the result of the method it runs. *)
Lemma exec_drop {A} (m : Tx A) db a db' :
  m db = Ok (a, db') → tx_bind m (λ _, tx_ret tt) db = Ok (tt, db').
Proof. intros E. unfold tx_bind. by rewrite E. Qed.

(** The methods that neither commit nor plan. *)
Lemma triple_plain {A} acc_P (m : Tx A) op :
  (∀ db a db', m db = Ok (a, db') → exec clock op db = Ok (tt, db')) →
  (∀ db, planned_op db op = true) → committed op = None →
  triple (λ st, acc_P (qs_accepted st)) (q_tx m) (λ _ st, acc_P (qs_accepted st)).
Proof.
  intros Hex Hp Hc. apply triple_tx. intros st a db' HP E. split; [|done].
  exists op. split_and!; [by eapply Hex|apply Hp|]. intros ja Hja. congruence.
Qed.

Lemma host_accepted {A} acc_P (f : S → A * S) :
  triple (λ st, acc_P (qs_accepted st)) (q_host f) (λ a st, acc_P (qs_accepted st) ∧ ∃ h h', f h = (a, h')).
Proof. apply triple_host. by intros db h h' acc. Qed.

Context `{!QueueHostLaws S}.

Definition accepted_attempt (id : JobId) (attempt : AttemptId) (st : QueueState S) : Prop :=
  (id, attempt) ∈ qs_accepted st.

Lemma commit_proof_triple planned id attempt staging binding :
  triple (accepted_attempt id attempt) (commit_proof clock planned id attempt staging binding) (λ _ _, True).
Proof using All.
  unfold commit_proof. eapply triple_bind; [apply triple_db|]. intros run.
  eapply triple_bind.
  { eapply triple_conseq; [apply (host_accepted (λ acc, (id, attempt) ∈ acc))|intros st [Hacc _]; exact Hacc|].
    intros a st Hp. exact Hp. }
  intros published. eapply triple_bind; [apply triple_lift|]. intros v.
  eapply (triple_bind _ _ (λ _ _, True)); [|intros; by apply triple_ret]. apply triple_tx.
  intros st a db' [[Hacc (h & h' & Hpub)] ->] E. split; [|done].
  apply publish_proof_binds in Hpub as (_ & Hj & Ha).
  exists (OpCommitArtifact v). split_and!; [by eapply exec_drop|done|].
  intros ja [= <-]. by rewrite Hj, Ha.
Qed.

Lemma commit_key_triple planned id attempt staging binding :
  triple (accepted_attempt id attempt) (commit_key clock planned id attempt staging binding) (λ _ _, True).
Proof using All.
  unfold commit_key. eapply triple_bind; [apply triple_db|]. intros run.
  eapply triple_bind.
  { eapply triple_conseq; [apply (host_accepted (λ acc, (id, attempt) ∈ acc))|intros st [Hacc _]; exact Hacc|].
    intros a st Hp. exact Hp. }
  intros published. eapply triple_bind; [apply triple_lift|]. intros v.
  eapply (triple_bind _ _ (λ _ _, True)); [|intros; by apply triple_ret]. apply triple_tx.
  intros st a db' [[Hacc (h & h' & Hpub)] ->] E. split; [|done].
  apply publish_key_binds in Hpub as (_ & Hj & Ha).
  exists (OpCommitKey v). split_and!; [by eapply exec_drop|done|].
  intros ja [= <-]. by rewrite Hj, Ha.
Qed.

Lemma publish_triple planned id attempt staging :
  triple (accepted_attempt id attempt) (publish clock planned id attempt staging) (λ _ _, True).
Proof using All. unfold publish. destruct (pj_binding planned); [apply commit_proof_triple|apply commit_key_triple]. Qed.

Lemma complete_triple planned id attempt staging event :
  triple (accepted_attempt id attempt)
    (q_bind (q_tx (apply_attempt_event clock id attempt event)) (λ _, publish clock planned id attempt staging))
    (λ _ _, True).
Proof using All.
  eapply (triple_bind _ _ (λ _, accepted_attempt id attempt)); [|intros; apply publish_triple].
  apply (triple_plain (λ acc, (id, attempt) ∈ acc) _ (OpApplyAttemptEvent id attempt event)); try done.
  intros db a db' E. by eapply exec_drop.
Qed.

Lemma worker_spec_names run id attempt job dir request spec :
  map_err QueueProtocol (worker_spec run id attempt job dir request) = Ok spec →
  ws_job_id spec = id ∧ ws_attempt_id spec = attempt.
Proof.
  intros E%map_err_Ok. unfold worker_spec in E. apply result_bind_Ok in E as (_ & _ & E). by injection E as <-.
Qed.

Lemma finish_success_triple planned id attempt spec staging :
  ws_job_id spec = id → ws_attempt_id spec = attempt →
  triple (λ _, True) (finish_success clock planned id attempt spec staging) (λ _ _, True).
Proof using All.
  intros <- <-. unfold finish_success. eapply triple_bind; [apply triple_verify|]. intros accepted.
  eapply triple_bind with (R := λ _, accepted_attempt (ws_job_id spec) (ws_attempt_id spec)).
  { eapply triple_conseq; [apply triple_lift|by intros ? Hp; exact Hp|]. intros [] st [Hacc E%map_err_Ok]. by apply Hacc. }
  intros []. destruct (pj_kind planned); [apply complete_triple..| |apply publish_triple].
  eapply (triple_bind _ _ (λ _ _, True)); [|intros; by apply triple_ret]. apply triple_tx.
  intros st a db' Hacc E. split; [|done].
  exists (OpCompleteVerification (ws_job_id spec) (ws_attempt_id spec) "independent-verifier").
  split_and!; [by eapply exec_drop|done|]. by intros ja [= <-].
Qed.

Lemma run_one_triple plan staging_root planned id :
  triple (λ _, True) (run_one clock plan staging_root planned id) (λ _ _, True).
Proof using All.
  unfold run_one. eapply triple_bind.
  { apply (triple_plain (λ _, True) _ (OpBeginAttempt id (start_event (pj_kind planned)))); try done.
    intros db a db' E. by eapply exec_drop. }
  intros attempt. eapply triple_bind; [apply (host_accepted (λ _, True))|]. intros created.
  eapply triple_bind; [apply triple_lift|]. intros u.
  eapply triple_bind_pure; [apply triple_lift|by intros ? ? [_ E]; exact E|]. intros spec Hspec.
  apply worker_spec_names in Hspec as [Hj Ha].
  eapply triple_bind.
  { eapply triple_conseq; [apply (host_accepted (λ _, True))|done|]. intros a st Hp. exact Hp. }
  intros launched. eapply triple_bind; [apply triple_lift|]. intros result.
  destruct (wr_outcome result) as [|code].
  - eapply triple_conseq; [by apply finish_success_triple|done|done].
  - eapply (triple_bind _ _ (λ _ _, True)); [|intros; by apply triple_ret].
    eapply triple_conseq; [|by intros; exact I|by intros; exact I].
    apply (triple_plain (λ _, True) _ (OpHandleAttemptFailure id attempt
      (failure_new FkExecution (stage_for (pj_kind planned)) WorkerExit) None)); try done.
    intros db a db' E. by eapply exec_drop.
Qed.

(** ** Planning *)

Definition pending (id : JobId) (st : QueueState S) : Prop :=
  ∃ r, db_jobs (qs_db st) !! id = Some r ∧ jr_state r = Pending.

Lemma insert_job_jobs logical kind db id db' :
  insert_job clock logical kind db = Ok (id, db') →
  ∃ r, jr_state r = Pending ∧ db_jobs db !! id = None ∧ db_jobs db' = <[id := r]> (db_jobs db).
Proof using Type.
  unfold insert_job, validate_text_id. intros H'. tx_inv. simpl in *.
  eexists. split_and!; [|by eapply bool_decide_eq_true|done]. done.
Qed.

Lemma pending_insert id r i (st : QueueState S) db' :
  pending i st → db_jobs (qs_db st) !! id = None → db_jobs db' = <[id := r]> (db_jobs (qs_db st)) →
  pending i (mkQueueState db' (qs_host st) (qs_accepted st)).
Proof using Type.
  intros (ri & Hi & Hp) Hn E. exists ri. simpl. rewrite E, lookup_insert_ne; [done|]. congruence.
Qed.

Definition created_pending (entries : list ((string * JobId) * bool)) (st : QueueState S) : Prop :=
  ∀ e, e ∈ entries → snd e = true → pending (snd (fst e)) st.

Lemma ensure_job_triple planned entries :
  triple (created_pending entries) (ensure_job clock planned)
    (λ e st, created_pending (entries ++ [e]) st ∧ fst (fst e) = pj_logical_id planned).
Proof using Type.
  unfold ensure_job. eapply triple_bind; [apply triple_db|]. intros [id|].
  - apply triple_ret. intros st [Hc _]. split; [|done]. intros e [He| ->%list_elem_of_singleton]%elem_of_app; [by apply Hc|done].
  - eapply (triple_bind _ _ (λ id st, created_pending (entries ++ [((pj_logical_id planned, id), true)]) st)).
    + apply triple_tx. intros st id db' [Hc _] E. split.
      { exists (OpInsertJob (pj_logical_id planned) (pj_kind planned)).
        split_and!; [by eapply exec_drop|done|done]. }
      destruct (insert_job_jobs _ _ _ _ _ E) as (r & Hr & Hn & Ed).
      intros e [He| ->%list_elem_of_singleton]%elem_of_app Hcr.
      * eapply pending_insert; [by apply Hc|done|done].
      * exists r. simpl. by rewrite Ed, lookup_insert_eq.
    + intros id. apply triple_ret. by intros st Hc.
Qed.

Lemma ensure_jobs_triple planned entries :
  triple (created_pending entries) (ensure_jobs clock planned)
    (λ es st, created_pending (entries ++ es) st ∧ (fst ∘ fst <$> es) = (pj_logical_id <$> planned)).
Proof using Type.
  revert entries. induction planned as [|p planned IH]; intros entries; simpl.
  { apply triple_ret. intros st Hc. by rewrite app_nil_r. }
  eapply triple_bind; [apply ensure_job_triple|]. intros e.
  eapply (triple_bind _ _ (λ es st, (created_pending ((entries ++ [e]) ++ es) st ∧
    (fst ∘ fst <$> es) = (pj_logical_id <$> planned)) ∧ fst (fst e) = pj_logical_id p)).
  - intros st [Hc He]. destruct (IH (entries ++ [e]) st Hc) as (out & st' & E & Hev & Hout).
    eexists _, _. split; [exact E|]. split; [done|]. intros es ->. split; [by apply Hout|done].
  - intros es. apply triple_ret. intros st [[Hc Hes] He]. rewrite <-app_assoc in Hc. split; [done|].
    change (fst (fst e) :: (fst ∘ fst <$> es) = pj_logical_id p :: (pj_logical_id <$> planned)).
    by rewrite He, Hes.
Qed.

Lemma ensure_edges_triple ids entries pe :
  pe.2 ∈ entries →
  triple (created_pending entries) (ensure_edges ids pe) (λ _, created_pending entries).
Proof using Type.
  destruct pe as [p [[name id] created]]. simpl. intros Hin. destruct created; simpl; [|by apply triple_ret].
  apply triple_iter. intros name' _. unfold ensure_edge.
  eapply triple_bind; [apply triple_lift|]. intros pred. apply triple_tx.
  intros st u db' [Hc _] E. destruct u. pose proof E as (_ & _ & _ & _ & ->)%add_dependency_Ok. split.
  - exists (OpAddDependency pred id). split_and!; [exact E| |done].
    destruct (Hc _ Hin eq_refl) as (r & Hr & Hp). simpl in *. rewrite Hr. by apply bool_decide_eq_true.
  - intros e He Hcr. destruct (Hc e He Hcr) as (r & Hr & Hp). by exists r.
Qed.

Lemma ensure_planned_triple plan :
  triple (λ _, True) (ensure_planned clock plan)
    (λ ids _, length ids = length (qp_jobs plan)).
Proof using Type.
  unfold ensure_planned. eapply triple_bind.
  { eapply triple_conseq; [apply (ensure_jobs_triple (qp_jobs plan) [])| |].
    - intros st _ e []%not_elem_of_nil.
    - intros es st Hes. exact Hes. }
  intros es. simpl. eapply (triple_bind _ _ (λ _ st, length es = length (qp_jobs plan))).
  - intros st [Hc Hes].
    assert (Hlen : length es = length (qp_jobs plan)).
    { apply (f_equal length) in Hes. by rewrite !length_fmap in Hes. }
    destruct (triple_iter (created_pending es) (ensure_edges (fst <$> es)) (zip (qp_jobs plan) es)) with st
      as (out & st' & E & Hev & _); [|done|].
    + intros [p e] Hin. apply ensure_edges_triple. simpl. by eapply elem_of_zip_r.
    + eexists _, _. split; [exact E|]. split; [done|]. by intros [].
  - intros _. apply triple_ret. intros st Hlen. by rewrite length_fmap.
Qed.

(** ** Rounds *)

Lemma job_read id db r db' : job id db = Ok (r, db') → db' = db.
Proof using Type. by intros [_ ->]%job_Ok. Qed.

Lemma ready_candidates_triple planned ids :
  triple (λ _, True) (ready_candidates planned ids) (λ _ _, True).
Proof using Type.
  induction planned as [|p planned IH]; simpl; [by apply triple_ret|].
  eapply triple_bind; [apply triple_lift|]. intros id.
  eapply triple_bind; [apply triple_tx_read, job_read|]. intros r.
  eapply (triple_bind _ _ (λ _ _, True)); [eapply triple_conseq; [exact IH|done|done]|].
  intros cs. by apply triple_ret.
Qed.

(** Deciding refreshes readiness at most. *)
Lemma decide_database config now db candidates available action out db' :
  decide_with_memory (H := run_db_readiness clock) config now db candidates available action = (out, db') →
  is_Some out ∧ (db' = db ∨ ∃ n, refresh_readiness clock db = Ok (n, db')).
Proof using Type.
  unfold decide_with_memory. destruct (negb _); [intros [= <- <-]; eauto|]. intros E.
  destruct (decide_outcome _ _ _ _ _ _ _ E) as (r & -> & Hr). split; [done|].
  destruct r as [d|[e|job]].
  - destruct Hr as (_ & n & _ & Hn & _). right. by exists n.
  - destruct Hr as [_ [[_ ->]|(n & Hn & _)]]; [by left|right; by exists n].
  - destruct Hr as [_ ->]. by left.
Qed.

Lemma decide_triple config candidates available action :
  triple (λ _, True) (q_decide clock config candidates available action) (λ _ _, True).
Proof using Type.
  unfold q_decide. eapply (triple_bind _ _ (λ _ _, True)).
  { eapply triple_conseq; [apply (host_accepted (λ _, True))|done|done]. }
  intros now st _. destruct (decide_with_memory _ _ _ _ _ _) as [out db'] eqn:E.
  destruct (decide_database _ _ _ _ _ _ _ _ E) as [[r ->] Hdb].
  eexists _, _. split; [done|]. split; [|done].
  destruct Hdb as [->|(n & Hn)]; [by destruct st|].
  apply (evolves_op OpRefreshReadiness); [by eapply exec_drop|done|done].
Qed.

Lemma run_selected_triple plan staging_root ids id :
  length ids = length (qp_jobs plan) →
  triple (λ _, True) (run_selected clock plan staging_root ids id) (λ _ _, True).
Proof using All.
  intros Hlen. unfold run_selected. eapply triple_bind; [apply triple_lift|]. intros index st [_ Hi].
  apply ok_or_Ok, fmap_Some in Hi as ([i ni] & Hi & ->). simpl.
  apply list_find_Some in Hi as (Hi & _). apply lookup_lt_Some in Hi. rewrite Hlen in Hi.
  apply lookup_lt_is_Some in Hi as [planned ->]. by apply run_one_triple.
Qed.

Lemma rounds_loop_triple plan staging_root capacity ids max_rounds rounds remaining :
  length ids = length (qp_jobs plan) →
  triple (λ _, True) (rounds_loop clock plan staging_root capacity ids max_rounds rounds remaining) (λ _ _, True).
Proof using All.
  intros Hlen. revert rounds. induction remaining as [|remaining IH]; intros rounds; simpl.
  { intros st _. eexists _, _. split; [done|]. split; [done|]. by intros a. }
  eapply (triple_bind _ _ (λ _ _, True)).
  { apply (triple_plain (λ _, True) _ OpRefreshReadiness); try done. intros db a db' E. by eapply exec_drop. }
  intros n. eapply triple_bind; [apply ready_candidates_triple|]. intros candidates.
  case_bool_decide; [by apply triple_ret|].
  eapply (triple_bind _ _ (λ _ _, True)).
  { eapply triple_conseq; [apply (host_accepted (λ _, True))|done|done]. }
  intros action. eapply triple_bind; [apply decide_triple|]. intros d.
  case_bool_decide; [by apply triple_ret|].
  eapply (triple_bind _ _ (λ _ _, True)); [|intros; apply IH].
  eapply (triple_iter (λ _, True)). intros id _. by apply run_selected_triple.
Qed.

Lemma run_queue_triple plan staging_root capacity max_rounds :
  triple (λ _, True) (run_queue clock plan staging_root capacity max_rounds) (λ _ _, True).
Proof using All.
  unfold run_queue. eapply (triple_bind _ _ (λ _ _, True)).
  { apply (triple_plain (λ _, True) _ OpRecoverInterrupted); try done. intros db a db' E. by eapply exec_drop. }
  intros n. eapply triple_bind; [apply ensure_planned_triple|]. intros ids st Hlen.
  eapply (triple_bind (λ _, True) _ (λ _ _, True)); [by apply rounds_loop_triple| |done].
  intros rounds. eapply triple_bind; [apply triple_db|]. intros outcome. by apply triple_ret.
Qed.

End Proofs.

(** ** Verification records *)

(** The methods that leave the verification records as they are. *)
Definition keeps {A} (m : Tx A) : Prop :=
  ∀ db a db', m db = Ok (a, db') → db_verifications db' = db_verifications db.

Lemma keeps_bind {A B} (m : Tx A) (k : A → Tx B) : keeps m → (∀ a, keeps (k a)) → keeps (tx_bind m k).
Proof.
  intros Hm Hk db b db' (a & db1 & E1 & E2)%tx_bind_Ok. rewrite (Hk a _ _ _ E2). by eapply Hm.
Qed.

Lemma keeps_fold {A T} (f : T → A → Tx T) l s : (∀ s x, keeps (f s x)) → keeps (tx_fold f s l).
Proof.
  intros Hf. revert s. induction l as [|x l IH]; intros s; simpl; [by intros db a db' [= _ <-]|].
  by apply keeps_bind.
Qed.

Lemma keeps_update f : (∀ db, db_verifications (f db) = db_verifications db) → keeps (tx_update f).
Proof. intros Hf db a db' H. tx_inv. apply Hf. Qed.

Lemma keeps_apply_event clock id attempt event count : keeps (apply_event_tx clock id attempt event count).
Proof.
  intros db next db' (r & now & _ & _ & _ & _ & ->)%apply_event_tx_Ok.
  unfold db_after_event, set_attempts, set_jobs, set_events, bump_clock. done.
Qed.

Ltac keeps_leaf := intros ? ? ? ?; tx_inv; done.

Lemma keeps_ret {A} (a : A) : keeps (tx_ret a). Proof. keeps_leaf. Qed.
Lemma keeps_get {A} (f : RunDb → A) : keeps (tx_get f). Proof. keeps_leaf. Qed.
Lemma keeps_err {A} e : keeps (A := A) (tx_err e). Proof. keeps_leaf. Qed.
Lemma keeps_lift {A E} (f : E → DbError) (c : Result A E) : keeps (tx_lift f c). Proof. keeps_leaf. Qed.
Lemma keeps_constraint name b : keeps (tx_constraint name b). Proof. keeps_leaf. Qed.
Lemma keeps_unix_ms clock : keeps (unix_ms clock). Proof. keeps_leaf. Qed.
Lemma keeps_identifier raw : keeps (tx_identifier raw). Proof. keeps_leaf. Qed.

Lemma keeps_store r : keeps (tx_store r). Proof. unfold tx_store. apply keeps_lift. Qed.

Create HintDb keeps.
#[export] Hint Resolve keeps_ret keeps_get keeps_err keeps_lift keeps_constraint keeps_unix_ms keeps_identifier
  keeps_apply_event keeps_store : keeps.

Ltac keeps_tac :=
  repeat first
    [ progress intros
    | solve [auto with keeps]
    | apply keeps_bind
    | apply keeps_fold
    | apply keeps_update; intros; reflexivity
    | case_match ].

Lemma keeps_job id : keeps (job id). Proof. unfold job. keeps_tac. Qed.
#[export] Hint Resolve keeps_job : keeps.
Lemma keeps_state id : keeps (current_state id). Proof. unfold current_state. keeps_tac. Qed.
#[export] Hint Resolve keeps_state : keeps.
Lemma keeps_text v : keeps (validate_text_id v). Proof. unfold validate_text_id. keeps_tac. Qed.
#[export] Hint Resolve keeps_text : keeps.
Lemma keeps_require_job id : keeps (require_job_in_run id). Proof. unfold require_job_in_run. keeps_tac. Qed.
#[export] Hint Resolve keeps_require_job : keeps.
Lemma keeps_require_open id a : keeps (require_unique_open_attempt id a).
Proof. unfold require_unique_open_attempt. keeps_tac. Qed.
#[export] Hint Resolve keeps_require_open : keeps.
Lemma keeps_require_source id a : keeps (require_verification_source id a).
Proof. unfold require_verification_source. keeps_tac. Qed.
#[export] Hint Resolve keeps_require_source : keeps.
Lemma keeps_set_terminal id : keeps (set_terminal_failure id).
Proof. unfold set_terminal_failure. keeps_tac. Qed.
#[export] Hint Resolve keeps_set_terminal : keeps.
Lemma keeps_record_peak clock key peak : keeps (record_resource_peak_tx clock key peak).
Proof. unfold record_resource_peak_tx. keeps_tac. Qed.
#[export] Hint Resolve keeps_record_peak : keeps.

Lemma keeps_block_loop clock fuel frontier : keeps (block_loop clock fuel frontier).
Proof.
  revert frontier. induction fuel as [|fuel IH]; intros [|p rest]; simpl; keeps_tac.
Qed.
#[export] Hint Resolve keeps_block_loop : keeps.
Lemma keeps_block clock id : keeps (block_descendants_tx clock id).
Proof. unfold block_descendants_tx. keeps_tac. Qed.
#[export] Hint Resolve keeps_block : keeps.

(** A method that commits nothing keeps the records. *)
Lemma exec_keeps clock op : committed op = None → keeps (exec clock op).
Proof.
  destruct op; simpl; intros Hc; try discriminate Hc.
  - unfold insert_job. keeps_tac.
  - unfold add_dependency. keeps_tac.
  - unfold begin_attempt. keeps_tac.
  - unfold apply_attempt_event. keeps_tac.
  - unfold fail_verification. keeps_tac.
  - unfold handle_attempt_failure, bump_counter. keeps_tac.
  - unfold refresh_readiness, refresh_one, predecessor_states. keeps_tac.
  - unfold recover_interrupted, recover_one. keeps_tac.
  - unfold record_resource_peak. keeps_tac.
Qed.

(** The methods that add records of one attempt only. *)
Definition adds_for {A} (id : JobId) (attempt : AttemptId) (m : Tx A) : Prop :=
  ∀ db a db', m db = Ok (a, db') → ∃ new, db_verifications db' = db_verifications db ++ new ∧
    Forall (λ v, vr_job v = id ∧ vr_attempt v = attempt) new.

Lemma adds_keeps {A} id attempt (m : Tx A) : keeps m → adds_for id attempt m.
Proof. intros Hk db a db' E. exists []. rewrite app_nil_r. split; [by eapply Hk|constructor]. Qed.

Lemma adds_bind {A B} id attempt (m : Tx A) (k : A → Tx B) :
  adds_for id attempt m → (∀ a, adds_for id attempt (k a)) → adds_for id attempt (tx_bind m k).
Proof.
  intros Hm Hk db b db' (a & db1 & E1 & E2)%tx_bind_Ok.
  destruct (Hm _ _ _ E1) as (l1 & H1 & F1), (Hk a _ _ _ E2) as (l2 & H2 & F2).
  exists (l1 ++ l2). rewrite H2, H1, app_assoc. split; [done|]. by apply Forall_app.
Qed.

Lemma adds_insert_verification clock id attempt verifier :
  adds_for id attempt (insert_verification clock id attempt verifier).
Proof.
  unfold insert_verification.
  repeat (apply adds_bind; [first [by apply adds_keeps; auto with keeps | idtac]|intros]).
  - intros db u db' H. tx_inv. eexists. split; [done|]. by repeat constructor.
  - apply adds_keeps. auto with keeps.
Qed.

Ltac adds_tac :=
  repeat first
    [ progress intros
    | apply adds_insert_verification
    | solve [apply adds_keeps; auto with keeps]
    | apply adds_bind
    | case_match ].

Lemma exec_adds clock op id attempt : committed op = Some (id, attempt) → adds_for id attempt (exec clock op).
Proof.
  destruct op; simpl; intros Hc; try discriminate Hc; injection Hc as <- <-.
  - unfold complete_verification. adds_tac.
  - unfold commit_verified_artifact. adds_tac; apply adds_keeps; keeps_tac.
  - unfold commit_verified_key. adds_tac; apply adds_keeps; keeps_tac.
Qed.

(** ** Sessions *)

(** Every record of the database is of an attempt the verifier accepted. *)
Definition records_accepted {S} (st : QueueState S) : Prop :=
  ∀ v, v ∈ db_verifications (qs_db st) → (vr_job v, vr_attempt v) ∈ qs_accepted st.

Lemma apply_op_records clock op db acc :
  op_accepted acc op → (∀ v, v ∈ db_verifications db → (vr_job v, vr_attempt v) ∈ acc) →
  ∀ v, v ∈ db_verifications (apply_op clock db op) → (vr_job v, vr_attempt v) ∈ acc.
Proof.
  intros Ha Hdb v. unfold apply_op. destruct (exec clock op db) as [[u db']|] eqn:E; [|by apply Hdb].
  destruct (committed op) as [[j a]|] eqn:Ec.
  - destruct (exec_adds clock op j a Ec db u db' E) as (new & -> & Hnew).
    intros [Hv|Hv]%elem_of_app; [by apply Hdb|]. rewrite Forall_forall in Hnew.
    destruct (Hnew v Hv) as [-> ->]. by apply Ha.
  - rewrite (exec_keeps clock op Ec db u db' E). apply Hdb.
Qed.

Lemma fold_ops_records clock ops db acc :
  Forall (op_accepted acc) ops → (∀ v, v ∈ db_verifications db → (vr_job v, vr_attempt v) ∈ acc) →
  ∀ v, v ∈ db_verifications (fold_left (apply_op clock) ops db) → (vr_job v, vr_attempt v) ∈ acc.
Proof.
  intros Hops. revert db. induction Hops as [|op ops Hop _ IH]; intros db Hdb; simpl; [done|].
  apply IH. by apply apply_op_records.
Qed.

Section Sessions.
Context {S : Type} `{QueueHost S} `{!QueueHostLaws S} (clock : nat → option Z).

(** What holds before and after every session. *)
Record session_inv (st : QueueState S) : Prop := {
  si_db : db_inv (qs_db st);
  si_log : log_inv (qs_db st);
  si_gate : dep_inv (λ _ _, False) (qs_db st);
  si_records : records_accepted st
}.

Lemma evolves_inv st st' : evolves clock st st' → session_inv st → session_inv st'.
Proof using Type.
  intros [Hacc (ops & Edb & Hplan & Hops)] [H1 H2 H3 H4].
  assert (rtc (micro clock false) (qs_db st) (qs_db st')) as Hm by (rewrite Edb; by apply fold_ops_micro).
  split.
  - by eapply micro_rtc_inv.
  - by eapply micros_log.
  - by eapply micros_dep.
  - unfold records_accepted. rewrite Edb. apply fold_ops_records; [done|].
    destruct Hacc as [k ->]. intros v Hv. apply elem_of_app. left. by apply H4.
Qed.

Lemma empty_session run_id host : session_inv (mkQueueState (empty_db run_id) host []).
Proof using Type.
  split; simpl; [apply empty_db_inv|apply empty_log_inv|apply empty_dep_inv|by intros v []%not_elem_of_nil].
Qed.

(** The states a run reaches through any number of queue sessions, finished or
    aborted, each with any plan, and with whatever happens on the host between
    them. *)
Inductive reachable (run_id : string) : QueueState S → Prop :=
| reach_start host : reachable run_id (mkQueueState (empty_db run_id) host [])
| reach_session st out st' plan staging_root capacity max_rounds :
    reachable run_id st →
    run_queue clock plan staging_root capacity max_rounds st = (out, st') → reachable run_id st'
| reach_host st host : reachable run_id st → reachable run_id (mkQueueState (qs_db st) host (qs_accepted st)).

Lemma reach_run run_id st plan staging_root capacity max_rounds :
  reachable run_id st → reachable run_id (snd (run_queue clock plan staging_root capacity max_rounds st)).
Proof using Type. intros Hst. eapply reach_session; [exact Hst|]. apply surjective_pairing. Qed.

Lemma reachable_inv run_id st : reachable run_id st → session_inv st.
Proof using All.
  induction 1 as [host|st out st' plan root capacity max _ IH Hrun|st host _ [H1 H2 H3 H4]].
  - apply empty_session.
  - destruct (run_queue_triple clock plan root capacity max st I) as (o & s & E & Hev & _).
    rewrite Hrun in E. injection E as _ <-. by eapply evolves_inv.
  - by split.
Qed.

(** ** Properties *)

(** C3. Only independently verified work counts, and nothing starts before it.  In
    every state a run reaches, through any number of queue sessions, completed
    or aborted by an error, with any plans and any behaviour of the launcher, the
    verifier, the monitor and the stores: a verified job has an attempt that the
    verifier accepted, and a job that has left pending without being blocked has
    only predecessors that are verified, each with an accepted attempt. *)
Theorem queue_commits_only_accepted (run_id : string) (st : QueueState S) (id : JobId) (r : JobRow)
    (Hreach : reachable run_id st) (Hjob : db_jobs (qs_db st) !! id = Some r) :
  (jr_state r = Verified → ∃ attempt, (id, attempt) ∈ qs_accepted st) ∧
  (jr_state r ≠ Pending → jr_state r ≠ Blocked → ∀ p, (p, id) ∈ db_dependencies (qs_db st) →
     ∃ rp attempt, db_jobs (qs_db st) !! p = Some rp ∧ jr_state rp = Verified ∧
       (p, attempt) ∈ qs_accepted st).
Proof using All.
  destruct (reachable_inv _ _ Hreach) as [H1 _ H3 H4].
  assert (Hver : ∀ i ri, db_jobs (qs_db st) !! i = Some ri → jr_state ri = Verified →
    ∃ attempt, (i, attempt) ∈ qs_accepted st).
  { intros i ri Hi Hv. apply inv_rows in Hi; [|done]. apply (inv_verified _ _ _ _ _ Hi) in Hv.
    apply Exists_exists in Hv as (v & Hin & <-). exists (vr_attempt v). by apply H4. }
  split; [by eapply Hver|]. intros Hp Hb p Hdep.
  assert (Hg : past_gate id (qs_db st)) by (by exists r).
  destruct (H3 _ _ Hg Hdep) as [[]|(rp & Hrp & Hv)].
  destruct (Hver _ _ Hrp Hv) as (a & Ha). by exists rp, a.
Qed.

(** A session never panics and never breaks the run database: from any
    consistent state it ends, with a result or an error, in a consistent state
    that extends the old one by calls of the database's methods. *)
Theorem run_queue_safe (plan : QueuePlan) (staging_root : Path) (capacity : ResourceCapacity)
    (max_rounds : nat) (st : QueueState S) (Hst : session_inv st) :
  ∃ out st', run_queue clock plan staging_root capacity max_rounds st = (Some out, st') ∧
    session_inv st' ∧ evolves clock st st'.
Proof using All.
  destruct (run_queue_triple clock plan staging_root capacity max_rounds st I) as (out & st' & E & Hev & _).
  exists out, st'. split_and!; [done| |done]. by eapply evolves_inv.
Qed.

End Sessions.

(** ** Witnesses *)

Definition demo_checks : ObjectChecks := mkObjectChecks (Ok tt) (Ok tt) (Ok tt) (Ok tt).

Definition demo_object (run : string) (id : JobId) (attempt : AttemptId) (kind : JobKind) : VerifiedObject :=
  mkVerifiedObject run id attempt "verifier" (Some id) kind (as_bytes id) (as_bytes id) 1
    (as_bytes id) (as_bytes id) demo_checks.

(** A host on which every worker succeeds and every output is accepted. *)
#[local] Instance demo_host : QueueHost unit := {
  qh_action _ := (Admit, tt);
  qh_now_unix_seconds _ := (1000%Z, tt);
  qh_create_dir_all _ _ := (Ok tt, tt);
  qh_launch _ spec _ := (Ok (result_succeeded spec (mkMeasurements 1 1)), tt);
  qh_verify _ _ _ _ := (Ok tt, tt);
  qh_publish_proof _ planned run id attempt _ _ := (Ok (demo_object run id attempt (pj_kind planned)), tt);
  qh_publish_key _ planned run id attempt _ _ := (Ok (demo_object run id attempt (pj_kind planned)), tt)
}.

#[local] Instance demo_host_laws : QueueHostLaws unit.
Proof. split; simpl; intros; by simplify_eq. Qed.

Definition demo_binding : JobBinding :=
  BindProof (mkProofBinding ArLeafProof 10 NotApplicable [] [] [] [] [] [] [] [] "plonk" "cpu").

(** A proof, and its verification. *)
Definition demo_plan : QueuePlan :=
  mkQueuePlan (replicate 32 (byte_of_Z 1))
    [mkPlannedJob "verify" LeafVerification ["prove"] (mkRequest 1 1 0 0)
       (mkWorkerJob WkLeafVerification ∅) demo_binding;
     mkPlannedJob "prove" LeafProof [] (mkRequest 1 1 0 0) (mkWorkerJob WkLeafProof ∅) demo_binding].

Definition demo_run : Outcome QueueOutcome QueueError * QueueState unit :=
  run_queue demo_clock demo_plan "/staging" (mkCapacity 4 1024 0 0) 10
    (mkQueueState (empty_db "r") tt []).

(** The run completes: both jobs are verified, the proof first. *)
Example demo_run_outcome :
  fst demo_run = Some (Ok (mkQueueOutcome ["r:prove"; "r:verify"] [] [] 2)) ∧
  qs_accepted (snd demo_run) = [("r:prove", "r:prove:attempt:1"); ("r:verify", "r:verify:attempt:1")].
Proof. vm_compute. done. Qed.

Lemma demo_reachable : reachable demo_clock "r" (snd demo_run).
Proof. unfold demo_run. apply reach_run, reach_start. Qed.

Lemma queue_commits_only_accepted_witness :
  ∃ r, db_jobs (qs_db (snd demo_run)) !! "r:verify" = Some r ∧ jr_state r = Verified ∧
    ∃ attempt, ("r:verify", attempt) ∈ qs_accepted (snd demo_run).
Proof.
  destruct (db_jobs (qs_db (snd demo_run)) !! "r:verify") as [r|] eqn:E; [|exfalso; by vm_compute in E].
  assert (jr_state r = Verified) as Hv by (vm_compute in E; by injection E as <-).
  exists r. split_and!; [done|done|].
  exact (proj1 (queue_commits_only_accepted demo_clock "r" (snd demo_run) "r:verify" r demo_reachable E) Hv).
Defined.

Lemma run_queue_safe_witness :
  ∃ out st', run_queue demo_clock demo_plan "/staging" (mkCapacity 4 1024 0 0) 10
      (mkQueueState (empty_db "r") tt []) = (Some out, st') ∧
    session_inv st' ∧ evolves demo_clock (mkQueueState (empty_db "r") tt []) st'.
Proof.
  exact (run_queue_safe demo_clock demo_plan "/staging" (mkCapacity 4 1024 0 0) 10
    (mkQueueState (empty_db "r") tt []) (empty_session "r" tt)).
Defined.

(** ** A limit of resumption *)

(** A dependent job that names an unknown predecessor before a known one. *)
Definition broken_plan : QueuePlan :=
  mkQueuePlan (replicate 32 (byte_of_Z 1))
    [mkPlannedJob "a-verify" LeafVerification ["missing"; "b-prove"] (mkRequest 1 1 0 0)
       (mkWorkerJob WkLeafVerification ∅) demo_binding;
     mkPlannedJob "b-prove" LeafProof [] (mkRequest 1 1 0 0) (mkWorkerJob WkLeafProof ∅) demo_binding].

Definition broken_session (st : QueueState unit) : Outcome QueueOutcome QueueError * QueueState unit :=
  run_queue demo_clock broken_plan "/staging" (mkCapacity 4 1024 0 0) 10 st.

(** Persisting a plan is not atomic: a first session that fails between the jobs
    and the edges leaves the jobs behind, and a second session with the same plan
    takes them as planned, succeeds, and verifies the dependent job first, since
    its dependency on a known job was never recorded. *)
Theorem aborted_plan_loses_dependencies :
  let first := broken_session (mkQueueState (empty_db "r") tt []) in
  let second := broken_session (snd first) in
  fst first = Some (Err (UnknownPredecessor "a-verify" "missing")) ∧
  fst second = Some (Ok (mkQueueOutcome ["r:a-verify"; "r:b-prove"] [] [] 1)) ∧
  qs_accepted (snd second) =
    [("r:a-verify", "r:a-verify:attempt:1"); ("r:b-prove", "r:b-prove:attempt:1")] ∧
  db_dependencies (qs_db (snd second)) = [].
Proof. vm_compute. done. Qed.

(** ** Rejected output *)

(** A host whose verifier accepts or rejects everything. *)
#[local] Instance judging_host : QueueHost bool := {
  qh_action accepts := (Admit, accepts);
  qh_now_unix_seconds accepts := (1000%Z, accepts);
  qh_create_dir_all accepts _ := (Ok tt, accepts);
  qh_launch accepts spec _ := (Ok (result_succeeded spec (mkMeasurements 1 1)), accepts);
  qh_verify accepts _ _ _ := (if accepts : bool then Ok tt else Err "rejected", accepts);
  qh_publish_proof accepts planned run id attempt _ _ :=
    (Ok (demo_object run id attempt (pj_kind planned)), accepts);
  qh_publish_key accepts planned run id attempt _ _ :=
    (Ok (demo_object run id attempt (pj_kind planned)), accepts)
}.

Definition lone_plan : QueuePlan :=
  mkQueuePlan (replicate 32 (byte_of_Z 1))
    [mkPlannedJob "prove" LeafProof [] (mkRequest 1 1 0 0) (mkWorkerJob WkLeafProof ∅) demo_binding].

Definition judged_session (accepts : bool) (db : RunDb) : Outcome QueueOutcome QueueError * QueueState bool :=
  run_queue demo_clock lone_plan "/staging" (mkCapacity 4 1024 0 0) 10 (mkQueueState db accepts []).

(** A verification failure is not recorded as one: the session ends with an error
    and leaves the attempt open; the next session closes it as an interruption,
    counts no retry, and runs the job again, here to success. *)
Theorem rejected_output_is_retried :
  let first := judged_session false (empty_db "r") in
  let second := judged_session true (qs_db (snd first)) in
  fst first = Some (Err (VerificationRejected "r:prove:attempt:1" "rejected")) ∧
  jr_state <$> db_jobs (qs_db (snd first)) !! "r:prove" = Some Proving ∧
  fst second = Some (Ok (mkQueueOutcome ["r:prove"] [] [] 1)) ∧
  qs_accepted (snd second) = [("r:prove", "r:prove:attempt:2")] ∧
  (jr_execution_retries <$> db_jobs (qs_db (snd second)) !! "r:prove") = Some 0%Z.
Proof. vm_compute. done. Qed.
