(* ===== verification/StoreStage.v ===== *)
(** * Staging and validating objects

    An object on its way, from the creation of its file to the publication of
    [StorePublish], and its attestation. *)
From stdpp Require Import gmap.
From S2P Require Import Queue Prelude Bytes State Identity PoseidonBoundary PoseidonProofs Decode Store.
From S2P Require Import StoreFs StoreLogic StoreReads StorePublish.
Import Store StoreFs Commit.

Open Scope Z_scope.

Lemma set_entry_other v d n i d' : d' ≠ d → ∀ n', entry (set_entry d n i v) d' n' = entry v d' n'.
Proof. intros Hd n'. unfold entry, set_entry. cbn [v_dirs]. by rewrite lookup_alter_ne. Qed.

Section Stage.
Context `{Blake3} (faulty private : Prop) (objects staging : FileIdentity) (Hdistinct : staging ≠ objects) (self : StoreCore).
Context (J : View → Prop).
#[local] Notation calm := (calm private objects).
#[local] Notation rely := (rely private objects).
#[local] Notation wp := (wp faulty rely J).
#[local] Set Default Proof Using "All".

(** Between operations: objects are valid and the store is open. *)
Definition rest (v : View) : Prop :=
  objects_valid objects (λ _, True) v ∧ identity_of v (staging_fd self) = Some staging ∧ identity_of v (objects_fd self) = Some objects.
Context (HJ : ∀ v, rest v → J v).

Lemma calm_rest : calm rest.
Proof. apply calm_and; [apply calm_objects_valid|apply calm_and; apply calm_identity]. Qed.

Lemma wp_step {A R} (P : View → Prop) (c : Sys R) (k : R → Prog A) Q v :
  (∀ v v', P v → rely v v' → P v') → (∀ v, P v → rest v) → P v → (∀ v1 r v2, P v1 → effect faulty c v1 r v2 → wp (k r) Q v2) →
  wp (Call c k) Q v.
Proof. intros HP HPJ Hv Hk v1 Hr. specialize (HP _ _ Hv Hr). split; [by apply HJ, HPJ|]. intros r v2 He. by apply (Hk v1). Qed.
Lemma wp_end {A} (a : Outcome A StoreError) Q v : rest v → (∀ v', rest v' → Q a v') → wp (Ret a) Q v.
Proof. intros Hv HQ. apply (wp_answer _ _ _ _ _ calm_rest HJ); auto. Qed.

(** ** The file of a staged object *)

(** The private file [i], under [name] unless others rename it. *)
Definition staged_file (name : string) (i : FileIdentity) (v : View) : Prop :=
  (i ∈ v_owned v ∧ ∀ n, entry v objects n ≠ Some i) ∧ (private → i ∈ v_owned v ∧ entry v staging name = Some i).
(** It holds [c], open as [fd] at its end. *)
Definition held (name : string) (fd : Fd) (i : FileIdentity) (c : bytes) (v : View) : Prop :=
  rest v ∧ staged_file name i v ∧ v_fds v !! fd = Some (i, Z.of_nat (length c)) ∧ v_files v !! i = Some c.

Lemma calm_staged_file name i : calm (staged_file name i).
Proof.
  apply calm_and; [apply calm_unlinked|exact (calm_entry private objects staging name i)].
Qed.
Lemma held_rely name fd i c v v' : held name fd i c v → rely v v' → held name fd i c v'.
Proof.
  intros (Hv & Hs & Hfd & Hc) Hr. pose proof (proj1 (proj1 Hs)) as Ho.
  split_and!; [exact (calm_rely _ _ _ calm_rest _ _ Hv Hr)|exact (calm_rely _ _ _ (calm_staged_file name i) _ _ Hs Hr)|..].
  - by rewrite (ry_fds _ _ _ _ Hr).
  - by rewrite (ry_files _ _ _ _ Hr).
Qed.

(** Writing to the file. *)
Lemma written_rest name i v fd b v' : rest v → staged_file name i v → identity_of v fd = Some i → written_at v fd b v' →
  rest v' ∧ staged_file name i v'.
Proof.
  intros (Hall & Hs & Ho) Hi Hid (j & o & c & Hj & Hc & ->). assert (j = i) as -> by (unfold identity_of in Hid; rewrite Hj in Hid; by injection Hid).
  assert (∀ fd' k, identity_of v fd' = Some k → identity_of (set_fds <[fd:=(i, o + Z.of_nat (length b))]> v) fd' = Some k) as Hids.
  { intros fd' k Hk. by apply (looks_offset v fd i o (o + Z.of_nat (length b)) Hj). }
  split; [|exact Hi]. split_and!; [|by apply Hids..]. intros n k Hk _. specialize (Hall n k Hk Logic.I).
  eapply valid_files; [|exact Hall]. cbn. rewrite lookup_insert_ne; [done|]. intros ->. by apply (proj2 (proj1 Hi) n).
Qed.
Lemma held_written name fd i c v b v' : held name fd i c v → written_at v fd b v' → held name fd i (c ++ b) v'.
Proof.
  intros (Hv & Hs & Hfd & Hc) Hw. assert (identity_of v fd = Some i) as Hid by (unfold identity_of; by rewrite Hfd).
  destruct (written_rest name i v fd b v' Hv Hs Hid Hw) as [Hv' Hs']. split_and!; [done..| |];
    destruct Hw as (j & o & c' & Hj & Hc' & ->); rewrite Hfd in Hj; injection Hj as <- <-; rewrite Hc in Hc'; injection Hc' as <-; cbn;
    rewrite lookup_insert_eq; f_equal; [f_equal; rewrite length_app; lia|by rewrite Nat2Z.id, overwrite_end].
Qed.

Lemma wp_write_all {B} name fd i c b (k : unit → Method B) Q v :
  held name fd i c v → (∀ e v', faulty → rest v' → Q (Some (Err e)) v') → (∀ v', held name fd i (c ++ b) v' → wp (k tt) Q v') →
  wp (and_then (io (SysWriteAll fd b)) k) Q v.
Proof.
  intros Hv He Hk. apply (wp_step (held name fd i c)); [apply held_rely|by intros ? []|done|]. intros v1 r v2 Hv1 Hef. destruct r as [[]|e].
  - apply Hk. by eapply held_written.
  - destruct Hef as (Hf & n & Hw). apply wp_end; [|by auto]. destruct Hv1 as (Hr & Hs & Hfd & _).
    eapply (written_rest name i); [exact Hr|exact Hs| |exact Hw]. unfold identity_of. by rewrite Hfd.
Qed.

(** ** [stage] *)

Lemma create_held v name fd v' : rest v → create v (staging_fd self) name fd v' → ∃ i, held name fd i [] v'.
Proof.
  intros (Hall & Hs & Ho) (d & i & Hd & [e Hdir] & Hnone & (Hnf & Hnd & Hno & Hne & Hnfd) & Hfd & ->).
  assert (d = staging) as -> by congruence. exists i.
  assert (∀ n, entry (mkView (<[fd:=(i, 0)]> (v_fds v)) (<[i:=[]]> (v_files v)) (alter <[name:=i]> staging (v_dirs v)) ({[i]} ∪ v_owned v)) objects n
    = entry v objects n) as Hobj by (intros n; unfold entry; cbn; by rewrite lookup_alter_ne).
  assert (∀ fd' j, identity_of v fd' = Some j → identity_of (set_fds <[fd:=(i, 0)]> v) fd' = Some j) as Hids.
  { intros fd' j Hj. by apply (looks_fd v fd (i, 0) Hfd). }
  split; [split_and!; [|by apply Hids..]|split; [split; [split|]|split]].
  - intros n j Hj _. rewrite Hobj in Hj. eapply valid_files; [|by apply Hall]. cbn. rewrite lookup_insert_ne; [done|]. intros ->. by apply (Hne objects n).
  - cbn. set_solver.
  - intros n. rewrite Hobj. apply Hne.
  - intros _. split; [cbn; set_solver|]. unfold entry. cbn. rewrite lookup_alter_eq, Hdir. cbn. by rewrite lookup_insert_eq.
  - cbn. by rewrite lookup_insert_eq.
  - cbn. by rewrite lookup_insert_eq.
Qed.

(** The file holds the header, the metadata and a part of the payload. *)
Definition holding (m : ObjectMetadata) (st : StagedObject) (done : bytes) (v : View) : Prop :=
  st_expected st = m ∧ st_written st = Z.of_nat (length done) ∧ ∃ i, held (st_name st) (st_file st) i (envelope m done) v.

(** A random name that is taken. *)
Definition clash : Prop :=
  ∃ v random, length random = 32%nat ∧ is_Some (entry v staging (name_of STAGE_PREFIX STAGE_SUFFIX random)).

Lemma wp_stage_loop names m Q v :
  metadata_ok m → rest v → (∀ e v', faulty → rest v' → Q (Some (Err e)) v') →
  (names = O ∨ faulty ∨ clash → ∀ v', rest v' → Q None v') →
  (∀ st v', holding m st [] v' → Q (Some (Ok st)) v') → wp (stage_loop self names m (metadata_bytes m)) Q v.
Proof.
  intros Hm Hv He Hn Hk. revert v Hv Hn. induction names as [|names IH]; intros v Hv Hn; cbn [stage_loop].
  { apply wp_end; [done|]. apply Hn. by left. }
  apply (wp_step rest); [apply calm_rest|done..|]. intros v1 r v2 Hv1 Hef.
  destruct r as [random|e]; [|destruct Hef as (Hf & -> & _); apply wp_end; auto]. destruct Hef as [-> Hrandom]. cbn [bind sys lift map_err and_then ok].
  set (name := name_of _ _ _). apply (wp_step rest); [apply calm_rest|done..|]. intros v3 r v4 Hv3 Hef. destruct r as [fd|[]].
  - destruct (create_held _ _ _ _ Hv3 Hef) as [i Hh]. apply (wp_write_all name fd i []); [done..|]. intros v5 Hv5.
    apply (wp_write_all name fd i _ _ _ _ _ Hv5); [done|]. intros v6 Hv6.
    apply (wp_write_all name fd i _ _ _ _ _ Hv6); [done|]. intros v7 Hv7.
    intros v8 Hr. apply (held_rely _ _ _ _ _ _ Hv7) in Hr as Hv8. split; [by apply HJ, Hv8|]. apply Hk. split_and!; [done..|].
    exists i. unfold envelope. rewrite app_nil_r. by rewrite <-app_assoc in Hv8.
  - destruct Hef as [-> Hb]. apply IH; [done|]. intros _. apply Hn. right. destruct Hb as [?|(d & Hd & Hb)]; [by left|right].
    exists v3, random. split; [done|]. by assert (d = staging) as <- by (destruct Hv3 as (_ & ? & _); congruence).
  - destruct Hef as (Hf & -> & _). apply wp_end; auto.
  - destruct Hef as (Hf & -> & _). apply wp_end; auto.
Qed.

Lemma wp_stage names m Q v :
  metadata_ok m → rest v → (∀ e v', faulty ∨ e = WrongStoreKind → rest v' → Q (Some (Err e)) v') →
  (names = O ∨ faulty ∨ clash → ∀ v', rest v' → Q None v') →
  (∀ st v', require_kind self m = Ok tt → holding m st [] v' → Q (Some (Ok st)) v') → wp (stage self names m) Q v.
Proof.
  intros Hm Hv He Hn Hk. unfold stage. assert (encode_metadata m = Ok (metadata_bytes m)) as -> by by apply encode_metadata_Ok.
  destruct (require_kind self m) as [[]|e] eqn:Hkind; cbn [lift and_then bind].
  - apply wp_stage_loop; auto.
  - apply wp_end; [done|]. intros v' Hv'. apply He; [|done]. right. unfold require_kind in Hkind. destruct (kind self), m; congruence.
Qed.

(** ** Writing the payload *)

Lemma wp_write m st part b Q v :
  holding m st part v → in_u64 (size m) → Z.of_nat (length part + length b) ≤ size m → b ≠ [] →
  (∀ e v', faulty → rest v' → Q (Some (Err e)) v') →
  (∀ n st' v', (n ≤ length b)%nat → (n = 0%nat → faulty) → holding m st' (part ++ take n b) v' → Q (Some (Ok (Z.of_nat n, st'))) v') →
  wp (write st b) Q v.
Proof.
  intros (Hm & Hw & i & Hh) Hu Hle Hb He Hk. unfold write. rewrite Hm, Hw.
  assert (try_u64 (Z.of_nat (length part) + Z.of_nat (length b)) = Some (Z.of_nat (length part + length b))) as ->.
  { apply try_u64_Some. split; [lia|]. zlia. }
  destruct (Z.ltb_spec (size m) (Z.of_nat (length part + length b))); [lia|].
  apply (wp_step (held (st_name st) (st_file st) i (envelope m part))); [apply held_rely|by intros ? []|done|].
  intros v1 r v2 Hv1 Hef. destruct r as [count|e]; [|destruct Hef as (Hf & -> & _); apply wp_end; [apply Hv1|auto]].
  destruct Hef as (Hc & Hz & Hwr). cbn [bind sys lift map_err and_then].
  assert (try_u64 (Z.of_nat (length part) + count) = Some (Z.of_nat (length (part ++ take (Z.to_nat count) b)))) as ->.
  { apply try_u64_Some. rewrite length_app, length_take. split; [lia|]. zlia. }
  apply (held_written _ _ _ _ _ _ _ Hv1) in Hwr. intros v3 Hr. apply (held_rely _ _ _ _ _ _ Hwr) in Hr. split; [by apply HJ, Hr|].
  replace count with (Z.of_nat (Z.to_nat count)) at 1 by lia. apply Hk; [lia|intros E; destruct (Hz ltac:(lia)); done|].
  split_and!; [done..|]. exists i. cbn [st_name st_file]. unfold envelope in *. by rewrite !app_assoc in *.
Qed.

Lemma wp_write_all_payload m fuel st part b Q v :
  holding m st part v → in_u64 (size m) → Z.of_nat (length part + length b) ≤ size m → (length b ≤ fuel)%nat →
  (∀ e v', faulty → rest v' → Q (Some (Err e)) v') → (∀ st' v', holding m st' (part ++ b) v' → Q (Some (Ok st')) v') →
  wp (write_all fuel st b) Q v.
Proof.
  intros Hv Hu Hle Hfuel He Hk. revert st part b v Hv Hle Hfuel Hk. induction fuel as [|fuel IH]; intros st part b v Hv Hle Hfuel Hk;
    (destruct (decide (b = [])) as [->|Hb]; [|destruct b as [|x b']; [done|]; set (b := x :: b') in *]); try (simpl in Hfuel; lia).
  1, 2: destruct Hv as (Hm & Hw & i & Hh); intros v' Hr; apply (held_rely _ _ _ _ _ _ Hh) in Hr; (split; [by apply HJ, Hr|]);
    apply Hk; split_and!; [done|by rewrite app_nil_r|]; exists i; by rewrite app_nil_r.
  change (write_all (S fuel) st b) with (and_then (write st b) (λ '(count, staged),
    if count =? 0 then err (Io "failed to write whole buffer") else write_all fuel staged (drop (Z.to_nat count) b))).
  apply wp_seq; [apply rely_preorder|]. apply (wp_write m st part); [done..| |].
  - intros e v' Hf Hv'. apply wp_end; auto.
  - intros n st' v' Hn Hz Hv'. cbn [bind]. destruct (Z.eqb_spec (Z.of_nat n) 0) as [E|E].
    + destruct Hv' as (_ & _ & i & Hr & _). apply wp_end; [done|]. intros v2 Hv2. apply He; [apply Hz; lia|done].
    + rewrite Nat2Z.id. apply (IH st' (part ++ take n b)); [done|rewrite length_app, length_take, length_drop; lia|rewrite length_drop; lia|].
      intros st2 v2 Hv2. apply Hk. by rewrite <-app_assoc, firstn_skipn in Hv2.
Qed.

(** ** [validate] *)

Section Validate.
Context (m : ObjectMetadata) (payload : bytes) (Hpayload : payload_ok m payload) (Hkind : require_kind self m = Ok tt).
Context (st : StagedObject) (i : FileIdentity).
#[local] Notation c := (envelope m payload).

(** The file is complete. *)
Definition complete (v : View) : Prop :=
  rest v ∧ staged_file (st_name st) i v ∧ (i ∈ v_owned v ∧ v_files v !! i = Some c) ∧ identity_of v (st_file st) = Some i.
Lemma calm_complete : calm complete.
Proof.
  apply calm_and; [apply calm_rest|apply calm_and; [apply calm_staged_file|apply calm_and; [apply calm_content|apply calm_identity]]].
Qed.
Lemma complete_rest v : complete v → J v.
Proof. intros [? _]. by apply HJ. Qed.

(** What validation makes of it. *)
Definition validation (va : ValidatedObject) (v : View) : Prop :=
  va_name va = st_name st ∧ va_metadata va = m ∧ va_digest va = digest_of m payload ∧ va_file va = st_file st ∧ va_identity va = i ∧ complete v.

Lemma validation_before va v : validation va v → before objects staging self va i private payload v.
Proof using Type.
  intros (En & Em & _ & Ef & _ & (Hall & Hs & Ho) & (_ & Hen) & (Hown & Hc) & Hid). split; [done|]. split; [split_and!; [done..|by rewrite Ef]|].
  intros Hp. destruct (Hen Hp) as [_ He]. unfold in_place. rewrite En, Em. by split_and!.
Qed.

Lemma wp_verified Q v :
  complete v → (∀ e v', faulty → complete v' → Q (Some (Err e)) v') → (∀ v', complete v' → Q (Some (Ok (m, digest_of m payload))) v') →
  wp (verify_envelope (st_file st) (Some m)) Q v.
Proof.
  intros Hv He Hk. apply (wp_verify _ _ _ _ complete calm_complete complete_rest (st_file st) i True c);
    [by intros ? (_ & _ & _ & ?)|by intros _ ? (_ & _ & (_ & ?) & _)|done| |].
  - intros e v' [Hf|Hf] Hv'; [by apply He|]. destruct Hf. split; [done|]. exists m, payload.
    split_and!; [done|apply metadata_size, Hpayload|done|by intros ? [= <-]].
  - intros m' d v' Hv' (Hm & p & Hp & -> & Henv). assert (m' = m) as -> by (symmetry; by apply Hm).
    specialize (Henv Logic.I). apply envelope_inj in Henv as [_ <-]; [by apply Hk|apply Hpayload|apply Hp].
Qed.

Lemma wp_validate_inner Q v :
  st_expected st = m → st_written st = size m → complete v →
  (∀ e v', faulty ∨ ¬ private → rest v' → Q (Some (Err e)) v') → (∀ va v', validation va v' → Q (Some (Ok va)) v') →
  wp (validate_inner self st) Q v.
Proof.
  intros Hex Hw Hv He Hk. pose proof calm_complete as HC. pose proof complete_rest as HCJ. unfold validate_inner. rewrite Hex, Hw, Z.eqb_refl.
  assert (∀ e v', faulty ∨ ¬ private → complete v' → wp (Ret (Some (Err e))) Q v') as Herr.
  { intros e v' Hb [Hr _]. apply wp_end; auto. }
  assert (∀ e v', faulty → complete v' → Q (Some (Err e)) v') as Hflt by (intros e v' Hf [Hr _]; apply He; [by left|done]).
  cbn [negb].
  apply (wp_raises _ _ _ _ complete HC HCJ (SysFlush _) Io); [done..|intros e v1 v2 v' _ (Hx & _) ?; by apply Hflt|intros _ _ v2 _ Hv2 _].
  apply (wp_raises _ _ _ _ complete HC HCJ (SysSyncAll _) Io); [done..|intros e v1 v3 v' _ (Hx & _) ?; by apply Hflt|intros _ _ v3 _ Hv3 _].
  apply (wp_raises _ _ _ _ complete HC HCJ (SysFchmod _) Fs); [done..|intros e v1 v4 v' _ (Hx & _) ?; by apply Hflt|intros _ _ v4 _ Hv4 _].
  apply (wp_raises _ _ _ _ complete HC HCJ (SysSyncAll _) Io); [done..|intros e v1 v5 v' _ (Hx & _) ?; by apply Hflt|intros _ _ v5 _ Hv5 _].
  apply (wp_look _ _ _ _ complete HC HCJ (SysFstat (st_file st))); [done..|]. intros v6 r v7 Hv6 Hv7 Hef. destruct r as [[t j]|e].
  2: { destruct Hef as (Hf & -> & _). apply (Herr (Fs e)); [by left|done]. }
  destruct Hef as (-> & Hj & _). assert (j = i) as -> by (destruct Hv6 as (_ & _ & _ & ?); congruence). cbn [bind sys lift map_err and_then snd ok].
  apply (wp_look _ _ _ _ complete HC HCJ (SysStatat (staging_fd self) (st_name st))); [done..|]. intros v8 r v9 Hv8 Hv9 Hef.
  assert (private → ∀ d, identity_of v8 (staging_fd self) = Some d → entry v8 d (st_name st) = Some i ∧ file_type v8 i = RegularFile) as Hplace.
  { intros Hp d Hd. destruct Hv8 as ((_ & Hs & _) & (_ & Hen) & (_ & Hc) & _). assert (d = staging) as -> by congruence.
    destruct (Hen Hp). split; [done|]. unfold file_type. by rewrite Hc. }
  destruct r as [[t2 j]|e].
  2: { destruct Hef as (-> & Hb). apply (Herr (Fs e)); [|done]. destruct Hb as [?|(d & Hd & Hn)]; [by left|right]. intros Hp. destruct (Hplace Hp d Hd). congruence. }
  destruct Hef as (-> & d & Hd & Hen & ->). cbn [bind sys lift map_err and_then fst snd ok].
  destruct (negb (is_regular_mode (file_type v8 j)) || negb (bool_decide (j = i))) eqn:Ereg.
  { apply Herr; [|done]. right. intros Hp. destruct (Hplace Hp d Hd) as [He' Ht]. assert (j = i) as -> by congruence.
    unfold is_regular_mode in Ereg. rewrite Ht, !bool_decide_eq_true_2 in Ereg by done. done. }
  apply wp_seq; [apply rely_preorder|]. apply wp_verified; [done|by intros e v' ? ?; apply Herr; [left|]|]. intros v10 Hv10.
  rewrite Hkind. cbn [bind and_then lift]. apply (wp_answer _ _ _ _ complete HC HCJ (Some (Ok _))); [|done]. intros v11 Hv11. apply Hk.
  by split_and!.
Qed.

(** A failed validation takes the file's name off. *)
Lemma wp_unstage (r : Outcome ValidatedObject StoreError) name Q v :
  rest v → (∀ v', rest v' → Q r v') →
  wp (ignore (SysUnlink (staging_fd self) name) (ignore (SysFsync (staging_fd self)) (Ret r))) Q v.
Proof.
  intros Hv HQ. apply (wp_step rest); [apply calm_rest|done..|]. intros v1 a v2 (Hall & Hs & Ho) Hef.
  assert (rest v2) as Hv2.
  { destruct a as [[]|e]; [|by destruct Hef as [-> _]]. destruct Hef as (d & Hd & _ & ->). assert (d = staging) as -> by congruence.
    split_and!; [|done..]. intros n j Hj Hn. rewrite set_entry_other in Hj by done. exact (Hall n j Hj Hn). }
  apply (wp_step rest); [apply calm_rest|done..|]. intros v3 a' v4 Hv3 Hef'. apply wp_end; [|done].
  destruct a' as [[]|e]; [by rewrite Hef'|by destruct Hef' as (_ & -> & _)].
Qed.

Lemma wp_validate Q v :
  holding m st payload v → identity_of v (st_file st) = Some i →
  (∀ e v', faulty ∨ ¬ private → rest v' → Q (Some (Err e)) v') → (∀ va v', validation va v' → Q (Some (Ok va)) v') →
  wp (validate self st) Q v.
Proof.
  intros (Hex & Hw & j & Hr & Hs & Hfd & Hc) Hid He Hk. assert (j = i) as -> by (unfold identity_of in Hid; rewrite Hfd in Hid; by injection Hid).
  unfold validate. apply wp_seq; [apply rely_preorder|]. apply wp_validate_inner; [done|by rewrite Hw; apply Hpayload| | |].
  - split; [done|]. split; [done|]. split; [|done]. split; [exact (proj1 (proj1 Hs))|done].
  - intros e v' Hb Hv'. apply wp_unstage; auto.
  - intros va v' (? & ? & ? & ? & ? & Hv'). apply (wp_answer _ _ _ _ complete calm_complete complete_rest (Some (Ok va))); [|done].
    intros v2 Hv2. apply Hk. by split_and!.
Qed.
End Validate.
End Stage.

(** ** From bytes to an attested object *)

Section Object.
Context `{Blake3} (faulty private : Prop) (objects staging : FileIdentity) (Hdistinct : staging ≠ objects) (self : StoreCore).
Context (m : ObjectMetadata) (payload : bytes) (Hpayload : payload_ok m payload).
Context (Hmax : 12 + Z.of_nat (length (metadata_bytes m)) + size m ≤ u64_max).
#[local] Notation calm := (calm private objects).
#[local] Notation rely := (rely private objects).
#[local] Notation digest := (digest_of m payload).
#[local] Notation rest := (rest objects staging self).
#[local] Set Default Proof Using "All".

(** At every moment: the objects are valid, but the one being published if others
    rename private files. *)
Definition others_valid : View → Prop := objects_valid objects (λ n, n ≠ object_name digest ∨ private).
#[local] Notation wp := (wp faulty rely others_valid).
Lemma rest_others_valid v : rest v → others_valid v.
Proof. intros [Hall _] n i Hi _. by apply Hall. Qed.

(** The object is under its name, and open as the published file; the payload is the
    given one unless two payloads collide. *)
Definition published_as (pu : PublishedObject) (v : View) : Prop :=
  pu_name pu = object_name digest ∧ pu_metadata pu = m ∧ pu_digest pu = digest ∧ pu_store_identity_digest pu = store_identity_digest self ∧
  require_kind self m = Ok tt ∧
  ∃ i p, payload_ok m p ∧ digest = digest_of m p ∧ rest v ∧ identity_of v (pu_objects_fd pu) = Some objects ∧
    (entry v objects (object_name digest) = Some i ∧ valid v (object_name digest) i ∧ v_files v !! i = Some (envelope m p)) ∧
    identity_of v (pu_file pu) = Some i.

(** Why an object is not stored. *)
Definition obstacle (e : StoreError) : Prop :=
  faulty ∨ ¬ private ∨ e = WrongStoreKind ∨ e = Fs EXIST ∨ ∃ m' p' p, m' ≠ m ∧ payload_ok m' p' ∧ digest_of m' p' = digest_of m p.
Definition storing (names : nat) (r : Outcome PublishedObject StoreError) (v : View) : Prop :=
  match r with
  | Some (Ok pu) => published_as pu v
  | Some (Err e) => obstacle e
  | None => names = O ∨ faulty ∨ clash staging
  end.

Lemma wp_store_object names v : rest v → wp (store_object self names m payload) (storing names) v.
Proof.
  intros Hv. unfold store_object. pose proof rest_others_valid as HJ. apply wp_seq; [apply rely_preorder|].
  assert (∀ e v, rest v → obstacle e → wp (Ret (Some (Err e))) (storing names) v) as Herr.
  { intros e v' Hv' He. by apply (wp_end faulty private objects staging Hdistinct self others_valid HJ). }
  apply (wp_stage faulty private objects staging Hdistinct self others_valid HJ); [apply Hpayload|done| | |].
  - intros e v' Hb Hv'. apply Herr; [done|]. unfold obstacle. tauto.
  - intros Hn v' Hv'. by apply (wp_end faulty private objects staging Hdistinct self others_valid HJ).
  - intros st v' Hkind Hst. cbn [and_then bind]. apply wp_seq; [apply rely_preorder|].
    apply (wp_write_all_payload faulty private objects staging Hdistinct self others_valid HJ m (length payload) st []); [done|..].
    + apply metadata_size, Hpayload.
    + destruct Hpayload as (_ & <- & _). simpl. lia.
    + done.
    + intros e v2 Hf Hv2. apply Herr; [done|by left].
    + intros st' v2 Hst'. simpl in Hst'. apply wp_seq; [apply rely_preorder|]. pose proof Hst' as (_ & _ & i & _ & _ & Hfd & _).
      eapply (wp_validate faulty private objects staging Hdistinct self others_valid HJ m payload Hpayload Hkind st' i);
        [done|unfold identity_of; by rewrite Hfd| |].
      * intros e v3 Hb Hv3. apply Herr; [done|]. unfold obstacle. tauto.
      * intros va v3 Hva. pose proof Hva as (_ & Em & Ed & _ & Ei & _). apply validation_before in Hva as Hbefore.
        assert (private → private ∧ va_identity va = i ∧ payload_ok (va_metadata va) payload ∧ va_digest va = digest_of (va_metadata va) payload ∧
          12 + Z.of_nat (length (metadata_bytes (va_metadata va))) + size (va_metadata va) ≤ u64_max) as Hgood by (intros; rewrite Em; by split_and!).
        pose proof (wp_publish faulty private objects staging Hdistinct self va i private payload Hgood v3 Hbefore) as Hp.
        unfold always in Hp. rewrite Ed in Hp. eapply wp_mono; [apply rely_preorder|exact Hp|]. clear Hp.
        intros r v4 Hr. destruct r as [[pu|e]|]; [|unfold publication, blame, collides in Hr; rewrite Em in Hr; unfold storing, obstacle; tauto|done].
        unfold publication, stored, descriptors in Hr. rewrite Em, Ed in Hr.
        destruct Hr as (? & ? & ? & ? & ? & j & p & ? & (? & ? & _) & (? & ? & ?) & ? & ? & ?). split_and!; [done..|].
        exists j, p. by split_and!.
Qed.

(** ** Attestation *)

Section Attest.
Context (pu : PublishedObject) (i : FileIdentity) (p : bytes) (Hp : payload_ok m p) (Hd : digest = digest_of m p).
Context (Hname : pu_name pu = object_name digest) (Hm : pu_metadata pu = m) (Hdigest : pu_digest pu = digest).

Definition pinned (v : View) : Prop :=
  rest v ∧ identity_of v (pu_objects_fd pu) = Some objects ∧
  (entry v objects (object_name digest) = Some i ∧ valid v (object_name digest) i ∧ v_files v !! i = Some (envelope m p)) ∧
  identity_of v (pu_file pu) = Some i.
Lemma calm_pinned : calm pinned.
Proof.
  apply calm_and; [exact (calm_rest faulty private objects staging Hdistinct self others_valid rest_others_valid)|].
  apply calm_and; [apply calm_identity|apply calm_and; [apply calm_valid|apply calm_identity]].
Qed.
Lemma pinned_others_valid v : pinned v → others_valid v.
Proof. intros [? _]. by apply rest_others_valid. Qed.

Lemma wp_ensure_verified Q v :
  pinned v → (∀ e v', faulty → pinned v' → Q (Some (Err e)) v') → (∀ v', pinned v' → Q (Some (Ok tt)) v') → wp (ensure_verified pu) Q v.
Proof.
  intros Hv He Hk. pose proof calm_pinned as HC. pose proof pinned_others_valid as HJ. unfold ensure_verified. rewrite Hname, Hm, Hdigest.
  apply wp_seq; [apply rely_preorder|].
  apply (wp_open_regular_at faulty private objects others_valid pinned HC HJ _ objects (object_name digest) (λ j _, j = i));
    [by intros ? (_ & ? & _)|intros; apply calm_pure|intros v1 j (_ & _ & (Hen & _) & _) Hj; congruence|done| |].
  { intros e v' Hv' [Hf|[(_ & v1 & (_ & _ & (Hen & _) & _) & Hn)|(_ & v1 & j & (_ & _ & (_ & _ & Hf) & _) & -> & Hn)]]; [|congruence..].
    apply (wp_answer _ _ _ _ pinned HC HJ (Some (Err e))); auto. }
  intros fd j v1 Hv1 -> Hfd. set (I v := pinned v ∧ identity_of v fd = Some i).
  assert (calm I) as HI by (apply calm_and; [apply calm_pinned|apply calm_identity]).
  assert (∀ v, I v → others_valid v) as HIJ by (intros ? [? _]; by apply HJ).
  assert (I v1) as Hv1' by done. clear Hv1 Hfd. cbn [and_then bind].
  assert (∀ e v', faulty → I v' → Q (Some (Err e)) v') as Hflt by (intros e v' Hf [? _]; by apply He).
  apply (wp_look _ _ _ _ I HI HIJ (SysFstat fd)); [done..|]. intros v2 r v3 Hv2 Hv3 Hef. destruct r as [[t j]|e].
  2: { destruct Hef as (Hf & -> & _). apply (wp_answer _ _ _ _ I HI HIJ (Some (Err (Fs e)))); auto. }
  destruct Hef as (-> & Hj & _). assert (j = i) as -> by (destruct Hv2; congruence). cbn [bind sys lift map_err and_then snd ok].
  apply (wp_look _ _ _ _ I HI HIJ (SysFstat (pu_file pu))); [done..|]. intros v4 r v5 Hv4 Hv5 Hef. destruct r as [[t' j]|e].
  2: { destruct Hef as (Hf & -> & _). apply (wp_answer _ _ _ _ I HI HIJ (Some (Err (Fs e)))); auto. }
  destruct Hef as (-> & Hj' & _). assert (j = i) as -> by (destruct Hv4 as [(_ & _ & _ & ?) _]; congruence). cbn [bind sys lift map_err and_then snd ok].
  rewrite bool_decide_eq_true_2 by done. cbn [negb]. apply wp_seq; [apply rely_preorder|].
  apply (wp_verify _ _ _ _ I HI HIJ fd i True (envelope m p)); [by intros ? [_ ?]|by intros _ ? [(_ & _ & (_ & _ & ?) & _) _]|done| |].
  - intros e v' [Hf|Hf] Hv'; [apply (wp_answer _ _ _ _ I HI HIJ (Some (Err e))); auto|]. destruct Hf. split; [done|]. exists m, p.
    split_and!; [done|apply metadata_size, Hp|done|by intros ? [= <-]].
  - intros m' d v' Hv' (Hm' & p' & Hp' & -> & Henv). assert (m' = m) as -> by (symmetry; by apply Hm').
    specialize (Henv Logic.I). apply envelope_inj in Henv as [_ <-]; [|apply Hp|apply Hp'].
    rewrite <-Hd, !bool_decide_eq_true_2 by done. cbn [negb orb].
    apply (wp_answer _ _ _ _ I HI HIJ (Some (Ok tt))); [|done]. intros v'' [? _]. by apply Hk.
Qed.

Lemma wp_attest_with mismatch Q v :
  pinned v → (∀ e v', faulty → pinned v' → Q (Some (Err e)) v') → (∀ v', pinned v' → Q (Some (Ok tt)) v') →
  wp (attest_with (Some true) mismatch pu) Q v.
Proof.
  intros Hv He Hk. unfold attest_with. apply wp_seq; [apply rely_preorder|].
  apply wp_ensure_verified; [done|intros e v' ? ?; apply (wp_answer _ _ _ _ pinned calm_pinned pinned_others_valid (Some (Err e))); auto|].
  intros v' ?. apply (wp_answer _ _ _ _ pinned calm_pinned pinned_others_valid (Some (Ok tt))); auto.
Qed.
End Attest.

(** Storing an object and attesting it. *)
Definition attesting {I} (identity : I) (names : nat) (r : Outcome (I * PublishedObject) StoreError) (v : View) : Prop :=
  match r with
  | Some (Ok (identity', pu)) => identity' = identity ∧ published_as pu v
  | Some (Err e) => obstacle e
  | None => names = O ∨ faulty ∨ clash staging
  end.
Lemma wp_attesting {I} (identity : I) (matches : ObjectMetadata → option bool) mismatch names v :
  matches m = Some true → rest v →
  wp (let^ pu := store_object self names m payload in
      let^ _ := attest_with (matches (pu_metadata pu)) mismatch pu in ok (identity, pu)) (attesting identity names) v.
Proof.
  intros Hmatch Hv. eapply wp_then; [apply rely_preorder|by apply wp_store_object|]. intros [[pu|e]|] v1 Hv1.
  - destruct (Hv1 v1 ltac:(reflexivity)) as (_ & En & Em & Ed & Es & Hk & i & p & Hp & Hd & Hr & Ho & He & Hf). cbn [and_then bind].
    assert (∀ v', pinned pu i p v' → attesting identity names (Some (Ok (identity, pu))) v') as Hok.
    { intros v' Hpin. split; [done|]. split_and!; [done..|]. exists i, p. exact (conj Hp (conj Hd Hpin)). }
    rewrite Em, Hmatch. apply wp_seq; [apply rely_preorder|]. apply (wp_attest_with pu i p Hp Hd En Em Ed); [exact (conj Hr (conj Ho (conj He Hf)))| |].
    + intros e v' Hf' Hv'. apply (wp_answer _ _ _ _ (pinned pu i p) (calm_pinned pu i p Hp Hd En Em Ed) (pinned_others_valid pu i p Hp Hd En Em Ed) (Some (Err e)));
        [intros ? _; by left|done].
    + intros v' Hv'. by apply (wp_answer _ _ _ _ (pinned pu i p) (calm_pinned pu i p Hp Hd En Em Ed) (pinned_others_valid pu i p Hp Hd En Em Ed) (Some (Ok (identity, pu)))); [apply Hok|].
  - exact Hv1.
  - exact Hv1.
Qed.
End Object.
