(* ===== verification/Backend.v ===== *)
(** * Back-end contracts

    crates/zkie-prover/src/backend.rs: the identities and jobs that cross a process
    boundary, each validated when it is made and when it is deserialized, and the
    check that turns an unverified proof into a verified one.  The text of errors is
    left out; a path is its UTF-8 text. *)
From S2P Require Import Prelude Bytes State Identity Program PoseidonBoundary.

Open Scope Z_scope.

#[export] Instance RunIdentity_eq_dec : EqDecision RunIdentity.
Proof. solve_decision. Defined.

Module Backend.

Definition MAX_TEXT : Z := 4096.
Definition MAX_BYTES : Z := Z.shiftl 1 20.

Record KeyIdentity := mkKeyIdentity {
  ki_proof_flavor : ProofFlavorId;
  ki_circuit_digest : Digest32;
  ki_key_digest : Digest32
}.

Inductive BackendError :=
| InvalidJob
| Io
| Serialization
| KeyDigestMismatch
| KeyConflict
| ProvingFailed
| ResourceError
| MissingKey (identity : KeyIdentity)
| UnsupportedInstruction
| MissingRegister (register : Register)
| ForwardRegister (instruction : nat) (register : Register)
| ShapeMismatch (instruction : nat)
| ArithmeticOverflow (instruction : nat)
| UnsupportedModelVisibility
| MissingSrs
| SrsDigestMismatch
| NonProductionSrs
| KeyMetadataMismatch.

Inductive VerificationError :=
| ProofFlavorMismatch
| ExecutionBackendMismatch
| CircuitDigestMismatch
| VerificationKeyDigestMismatch
| PublicStatementDigestMismatch
| ProofDigestMismatch
| ArtifactDigestMismatch
| RunIdentityDigestMismatch
| ShardIdentityMismatch
| UnsupportedProofFlavor
| InvalidCapability
| CryptographicVerificationFailed
| ReceiptBindingMismatch
| MissingProofArtifact
| MissingArtifactManifest
| MalformedProofArtifact.

Definition valid_text (s : string) : Result unit BackendError :=
  if String.eqb s "" || (MAX_TEXT <? Z.of_nat (String.length s)) then Err InvalidJob else Ok tt.
Definition valid_bytes (b : bytes) : Result unit BackendError :=
  if MAX_BYTES <? Z.of_nat (length b) then Err InvalidJob else Ok tt.

(** [CapabilityId::parse]; also how it is deserialized. *)
Definition capability_parse (value : string) : Result string BackendError :=
  let? _ := valid_text value in
  if negb (is_ascii value) then Err InvalidJob else Ok value.

(** ** Identities and jobs

    [Deserialize] goes through each [new]. *)

Record ShardIdentity := mkShardIdentity {
  si_id : Z;
  si_name : string;
  si_circuit_digest : Digest32
}.
#[export] Instance ShardIdentity_eq_dec : EqDecision ShardIdentity.
Proof. solve_decision. Defined.

Definition shard_identity_new (id : Z) (name : string) (circuit_digest : Digest32) : Result ShardIdentity BackendError :=
  let? _ := valid_text name in
  Ok (mkShardIdentity id name circuit_digest).

Definition key_identity_new (proof_flavor : ProofFlavorId) (circuit_digest key_digest : Digest32)
    : Result KeyIdentity BackendError :=
  Ok (mkKeyIdentity proof_flavor circuit_digest key_digest).

Record WitnessJob := mkWitnessJob {
  wj_run_identity : RunIdentity;
  wj_shard : ShardIdentity;
  wj_witness_input_path : string;
  wj_expected_circuit_digest : Digest32
}.

Definition witness_job_new (run_identity : RunIdentity) (shard : ShardIdentity) (witness_input_path : string)
    (expected_circuit_digest : Digest32) : Result WitnessJob BackendError :=
  let? _ := valid_text witness_input_path in
  if negb (bool_decide (si_circuit_digest shard = expected_circuit_digest)) then Err InvalidJob else
  Ok (mkWitnessJob run_identity shard witness_input_path expected_circuit_digest).

Record WitnessArtifact := mkWitnessArtifact {
  wa_path : string;
  wa_digest : Digest32;
  wa_shard : ShardIdentity;
  wa_circuit_digest : Digest32
}.

Definition witness_artifact_new (path : string) (digest : Digest32) (shard : ShardIdentity) (circuit_digest : Digest32)
    : Result WitnessArtifact BackendError :=
  let? _ := valid_text path in
  if negb (bool_decide (si_circuit_digest shard = circuit_digest)) then Err InvalidJob else
  Ok (mkWitnessArtifact path digest shard circuit_digest).

Record PrepareJob := mkPrepareJob {
  pj_run_identity : RunIdentity;
  pj_shard : ShardIdentity;
  pj_circuit_k : Z;
  pj_key_identity : option KeyIdentity;
  pj_require_production : bool
}.

Definition prepare_new_with_provenance (run_identity : RunIdentity) (shard : ShardIdentity) (circuit_k : Z)
    (key_identity : option KeyIdentity) (require_production : bool) : Result PrepareJob BackendError :=
  if (circuit_k =? 0)
     || match key_identity with
        | Some identity =>
            negb (bool_decide (ri_proof_flavor run_identity = ki_proof_flavor identity))
            || negb (bool_decide (si_circuit_digest shard = ki_circuit_digest identity))
        | None => false
        end
  then Err InvalidJob else
  Ok (mkPrepareJob run_identity shard circuit_k key_identity require_production).

Definition prepare_new run_identity shard circuit_k key_identity : Result PrepareJob BackendError :=
  prepare_new_with_provenance run_identity shard circuit_k (Some key_identity) true.
Definition prepare_new_development run_identity shard circuit_k key_identity : Result PrepareJob BackendError :=
  prepare_new_with_provenance run_identity shard circuit_k (Some key_identity) false.
Definition prepare_new_development_generate run_identity shard circuit_k : Result PrepareJob BackendError :=
  prepare_new_with_provenance run_identity shard circuit_k None false.

Record PreparedKeys := mkPreparedKeys { pk_proving_key : KeyIdentity; pk_verification_key : KeyIdentity }.

Definition prepared_keys_new (proving_key verification_key : KeyIdentity) : Result PreparedKeys BackendError :=
  if negb (bool_decide (ki_proof_flavor proving_key = ki_proof_flavor verification_key))
     || negb (bool_decide (ki_circuit_digest proving_key = ki_circuit_digest verification_key))
  then Err InvalidJob else
  Ok (mkPreparedKeys proving_key verification_key).

Record ProofJob := mkProofJob {
  fj_run_identity : RunIdentity;
  fj_shard : ShardIdentity;
  fj_witness : WitnessArtifact;
  fj_prepared_keys : PreparedKeys
}.

Definition proof_job_new (run_identity : RunIdentity) (shard : ShardIdentity) (witness : WitnessArtifact)
    (prepared_keys : PreparedKeys) : Result ProofJob BackendError :=
  let c := si_circuit_digest shard in
  if negb (bool_decide (wa_shard witness = shard))
     || negb (bool_decide (wa_circuit_digest witness = c))
     || negb (bool_decide (ki_circuit_digest (pk_proving_key prepared_keys) = c))
     || negb (bool_decide (ri_proof_flavor run_identity = ki_proof_flavor (pk_proving_key prepared_keys)))
  then Err InvalidJob else
  Ok (mkProofJob run_identity shard witness prepared_keys).

(** ** Proofs *)

Record UnverifiedProof := mkUnverifiedProof {
  up_proof_path : string;
  up_proof_digest : Digest32;
  up_public_statement : bytes;
  up_public_statement_digest : Digest32;
  up_circuit_digest : Digest32;
  up_verification_key_digest : Digest32;
  up_proof_flavor : ProofFlavorId;
  up_execution_backend : ExecutionBackendId;
  up_shard : ShardIdentity;
  up_artifact_manifest : bytes;
  up_artifact_digest : Digest32;
  up_run_identity_digest : Digest32
}.

Section Digests.
Context `{Blake3}.

(** [digest(bytes)]. *)
Definition digest (b : bytes) : Digest32 := blake3 b.

Definition unverified_proof_new (proof_path : string) (proof_digest : Digest32) (public_statement : bytes)
    (circuit_digest verification_key_digest : Digest32) (proof_flavor : ProofFlavorId)
    (execution_backend : ExecutionBackendId) (shard : ShardIdentity) (artifact_manifest : bytes)
    (run_identity_digest : Digest32) : Result UnverifiedProof BackendError :=
  let? _ := valid_text proof_path in
  let? _ := valid_bytes public_statement in
  let? _ := valid_bytes artifact_manifest in
  if bool_decide (artifact_manifest = []) then Err InvalidJob else
  if negb (bool_decide (si_circuit_digest shard = circuit_digest)) then Err InvalidJob else
  let public_statement_digest := digest public_statement in
  let artifact_digest := digest artifact_manifest in
  Ok (mkUnverifiedProof proof_path proof_digest public_statement public_statement_digest circuit_digest
    verification_key_digest proof_flavor execution_backend shard artifact_manifest artifact_digest run_identity_digest).

(** [TryFrom<UnverifiedProofWire>]: the wire has the fields of the proof. *)
Definition unverified_proof_try_from (w : UnverifiedProof) : Result UnverifiedProof BackendError :=
  let? p := unverified_proof_new (up_proof_path w) (up_proof_digest w) (up_public_statement w) (up_circuit_digest w)
    (up_verification_key_digest w) (up_proof_flavor w) (up_execution_backend w) (up_shard w) (up_artifact_manifest w)
    (up_run_identity_digest w) in
  if negb (bool_decide (up_public_statement_digest p = up_public_statement_digest w))
     || negb (bool_decide (up_artifact_digest p = up_artifact_digest w))
  then Err InvalidJob else Ok p.

Record VerificationExpectation := mkVerificationExpectation {
  ex_proof_digest : Digest32;
  ex_artifact_digest : Digest32;
  ex_run_identity_digest : Digest32;
  ex_public_statement_digest : Digest32;
  ex_circuit_digest : Digest32;
  ex_verification_key_digest : Digest32;
  ex_proof_flavor : ProofFlavorId;
  ex_execution_backend : ExecutionBackendId;
  ex_shard : ShardIdentity;
  ex_witness_artifact_digest : Digest32
}.

Definition from_proof_job (job : ProofJob) (execution_backend : ExecutionBackendId) (statement : bytes)
    (proof_digest : Digest32) (manifest : bytes) : Result VerificationExpectation BackendError :=
  let? _ := valid_bytes statement in
  let? _ := valid_bytes manifest in
  if bool_decide (manifest = []) then Err InvalidJob else
  Ok (mkVerificationExpectation proof_digest (digest manifest) (canonical_digest blake3 (fj_run_identity job))
    (digest statement) (si_circuit_digest (fj_shard job))
    (ki_key_digest (pk_verification_key (fj_prepared_keys job))) (ri_proof_flavor (fj_run_identity job))
    execution_backend (fj_shard job) (wa_digest (fj_witness job))).

Record VerificationJob := mkVerificationJob {
  vj_expectation : VerificationExpectation;
  vj_proof : UnverifiedProof;
  vj_proof_bytes : bytes
}.

Definition verification_job_new (expectation : VerificationExpectation) (proof : UnverifiedProof) (proof_bytes : bytes)
    : Result VerificationJob BackendError :=
  let? _ := valid_bytes proof_bytes in
  if bool_decide (proof_bytes = []) then Err InvalidJob else
  Ok (mkVerificationJob expectation proof proof_bytes).

Record CryptoVerificationRequest := mkCryptoVerificationRequest {
  cr_proof : UnverifiedProof;
  cr_proof_bytes : bytes;
  cr_verification_key : KeyIdentity;
  cr_expected_witness_artifact_digest : Digest32
}.

(** The bytes fed to the hasher by [request_binding_digest]. *)
Definition encode_bytes (b : bytes) : bytes := encode_u64 (Z.of_nat (length b)) ++ b.
Definition request_preimage (r : CryptoVerificationRequest) : bytes :=
  let p := cr_proof r in
  let k := cr_verification_key r in
  as_bytes "zkie.crypto-request.v1" ++
  encode_text (up_proof_flavor p) ++
  encode_text (up_execution_backend p) ++
  encode_u64 (si_id (up_shard p)) ++
  encode_text (si_name (up_shard p)) ++
  id (si_circuit_digest (up_shard p)) ++
  encode_text (ki_proof_flavor k) ++
  id (ki_circuit_digest k) ++
  id (up_proof_digest p) ++ id (up_artifact_digest p) ++ id (up_public_statement_digest p) ++
  id (up_circuit_digest p) ++ id (up_verification_key_digest p) ++ id (up_run_identity_digest p) ++
  id (ki_key_digest k) ++ id (cr_expected_witness_artifact_digest r) ++
  encode_bytes (up_public_statement p) ++
  encode_bytes (up_artifact_manifest p) ++
  encode_bytes (cr_proof_bytes r).
Definition request_binding_digest (r : CryptoVerificationRequest) : Digest32 := blake3 (request_preimage r).

Definition request_new (proof : UnverifiedProof) (proof_bytes : bytes) (verification_key : KeyIdentity)
    (expected_witness_artifact_digest : Digest32) : Result CryptoVerificationRequest BackendError :=
  let? _ := valid_bytes proof_bytes in
  if bool_decide (proof_bytes = [])
     || negb (bool_decide (digest proof_bytes = up_proof_digest proof))
     || negb (bool_decide (up_proof_flavor proof = ki_proof_flavor verification_key))
     || negb (bool_decide (up_circuit_digest proof = ki_circuit_digest verification_key))
     || negb (bool_decide (up_verification_key_digest proof = ki_key_digest verification_key))
  then Err InvalidJob else
  Ok (mkCryptoVerificationRequest proof proof_bytes verification_key expected_witness_artifact_digest).

Record CryptoVerificationReceipt := mkReceipt { rc_request_binding_digest : Digest32 }.

Record VerifiedProof := mkVerifiedProof { vp_proof : UnverifiedProof }.

(** ** Capabilities *)

Record BackendCapabilities := mkBackendCapabilities {
  bc_execution_backend : ExecutionBackendId;
  bc_proof_flavors : list ProofFlavorId;
  bc_capabilities : list string
}.

Definition capabilities_validate (self : BackendCapabilities) : Result unit BackendError :=
  if bool_decide (bc_proof_flavors self = []) || negb (bool_decide (NoDup (bc_proof_flavors self)))
  then Err InvalidJob else
  if existsb (λ c, negb (is_ok (capability_parse c))) (bc_capabilities self)
  then Err InvalidJob else
  Ok tt.

Definition capabilities_new (execution_backend : ExecutionBackendId) (proof_flavors : list ProofFlavorId)
    (capabilities : list string) : Result BackendCapabilities BackendError :=
  let s := mkBackendCapabilities execution_backend proof_flavors capabilities in
  let? _ := capabilities_validate s in
  Ok s.

(** ** The traits *)

Inductive KeyWriteOutcome := Inserted | AlreadyPresentIdentical.

(** What [verify_proof] asks of a [ProofBackend]. *)
Record ProofBackend := mkProofBackend {
  pb_capabilities : BackendCapabilities;
  pb_verify_cryptographically : CryptoVerificationRequest → Result CryptoVerificationReceipt VerificationError
}.

(** [ck!(a, v, err)]. *)
Definition ck {A} `{EqDecision A} (expected found : A) (err : VerificationError) : Result unit VerificationError :=
  if negb (bool_decide (expected = found)) then Err err else Ok tt.

Definition verify_proof (backend : ProofBackend) (job : VerificationJob) : Result VerifiedProof VerificationError :=
  let caps := pb_capabilities backend in
  let e := vj_expectation job in
  let p := vj_proof job in
  let proof_bytes := vj_proof_bytes job in
  let? _ := map_err (λ _, InvalidCapability) (capabilities_validate caps) in
  if negb (bool_decide (ex_proof_flavor e ∈ bc_proof_flavors caps)) then Err UnsupportedProofFlavor else
  let? _ := ck (ex_proof_flavor e) (up_proof_flavor p) ProofFlavorMismatch in
  let? _ := ck (ex_execution_backend e) (up_execution_backend p) ExecutionBackendMismatch in
  let? _ := ck (ex_circuit_digest e) (up_circuit_digest p) CircuitDigestMismatch in
  let? _ := ck (ex_verification_key_digest e) (up_verification_key_digest p) VerificationKeyDigestMismatch in
  let? _ := ck (ex_run_identity_digest e) (up_run_identity_digest p) RunIdentityDigestMismatch in
  let? _ := ck (ex_shard e) (up_shard p) ShardIdentityMismatch in
  let? _ := ck (ex_public_statement_digest e) (up_public_statement_digest p) PublicStatementDigestMismatch in
  let? _ := ck (ex_artifact_digest e) (up_artifact_digest p) ArtifactDigestMismatch in
  if bool_decide (proof_bytes = []) then Err MissingProofArtifact else
  if bool_decide (up_artifact_manifest p = []) then Err MissingArtifactManifest else
  if negb (bool_decide (digest proof_bytes = up_proof_digest p))
     || negb (bool_decide (ex_proof_digest e = up_proof_digest p))
  then Err ProofDigestMismatch else
  let? key := map_err (λ _, MalformedProofArtifact)
    (key_identity_new (ex_proof_flavor e) (ex_circuit_digest e) (ex_verification_key_digest e)) in
  let? pre := map_err (λ _, MalformedProofArtifact)
    (request_new p proof_bytes key (ex_witness_artifact_digest e)) in
  let binding := request_binding_digest pre in
  let? receipt := pb_verify_cryptographically backend pre in
  if negb (bool_decide (rc_request_binding_digest receipt = binding)) then Err ReceiptBindingMismatch else
  Ok (mkVerifiedProof p).
End Digests.

End Backend.
