(* ===== verification/Onnx.v ===== *)
(** * Models

    crates/zkie-compiler/src/onnx_parser.rs: the messages of an ONNX model, as far as
    the compiler reads them (protos/onnx.proto3); the [f32] weights of initializers,
    converted to fixed point when a caller asks for them; the static shapes of values.
    Reading the file and decoding the protobuf message is not modelled, nor are the
    texts of errors.  An [f32] is carried as its bits. *)
From Stdlib Require Import SpecFloat.
From stdpp Require Import gmap.
From S2P Require Import Prelude Bytes FixedPoint Program PoseidonBoundary.

Open Scope Z_scope.

Module Onnx.

(** ** Messages *)

Record AttributeProto := mkAttribute { at_name : string; at_f : Z; at_i : Z; at_ints : list Z }.
Record NodeProto := mkNode {
  nd_input : list string; nd_output : list string; nd_name : string; nd_op_type : string; nd_attribute : list AttributeProto }.
Record TensorProto := mkTensorProto {
  tp_dims : list Z; tp_data_type : Z; tp_float_data : list Z; tp_name : string; tp_raw_data : bytes }.
Inductive DimensionValue := DimValue (v : Z) | DimParam (name : string).
Record TensorShapeProto := mkTensorShape { ts_dim : list (option DimensionValue) }.
Inductive TypeValue := TensorType (shape : option TensorShapeProto) | OtherType.
Record TypeProto := mkType { ty_value : option TypeValue }.
Record ValueInfoProto := mkValueInfo { vi_name : string; vi_type : option TypeProto }.
Record GraphProto := mkGraph {
  gr_node : list NodeProto; gr_initializer : list TensorProto; gr_input : list ValueInfoProto; gr_output : list ValueInfoProto;
  gr_value_info : list ValueInfoProto }.
Record ModelProto := mkModel { mo_graph : option GraphProto }.

Definition ONNX_DATA_TYPE_FLOAT : Z := 1.

Inductive OnnxParseError :=
| Io
| Decode
| NegativeDimension (tensor_name : string) (dim : Z)
| UnsupportedDataType (tensor_name : string) (data_type : Z)
| RawDataLengthMismatch (tensor_name : string) (len : nat)
| WeightOutOfRange (index : nat) (value : Z) (source : FixedPointError)
| WeightNotFound (name : string).

(** [value as f64] of an [f32] carried as its bits; exact, since every [f32] is an [f64]. *)
Definition f32_to_f64 (bits : Z) : f64 :=
  let sign := Z.testbit bits 31 in
  let exponent := Z.land (Z.shiftr bits 23) 255 in
  let fraction := Z.land bits (2 ^ 23 - 1) in
  let signed z := if sign then - z else z in
  if exponent =? 255 then (if fraction =? 0 then S754_infinity sign else S754_nan)
  else if exponent =? 0 then binary_normalize 53 1024 (signed fraction) (-149) sign
  else binary_normalize 53 1024 (signed (fraction + 2 ^ 23)) (exponent - 150) sign.

Definition weight_to_i18 (tensor : WeightTensor) : Result (list I18) OnnxParseError :=
  result_mapM (λ '(index, value), map_err (WeightOutOfRange index value) (from_f64 (f32_to_f64 value)))
    (enumerate (wt_data tensor)).

(** [CompiledProgram::weight_as_i18]. *)
Definition weight_as_i18 (self : CompiledProgram) (name : string) : Result (list I18) OnnxParseError :=
  let? tensor := ok_or (cp_weights self !! name) (WeightNotFound name) in
  weight_to_i18 tensor.

(** ** Initializers *)

(** [chunks_exact(4)] with [f32::from_le_bytes]. *)
Fixpoint f32_chunks (b : bytes) : list Z :=
  match b with
  | b0 :: b1 :: b2 :: b3 :: b => PoseidonBoundary.from_le_bytes [b0; b1; b2; b3] :: f32_chunks b
  | _ => []
  end.

Definition extract_tensor (tensor : TensorProto) : Result WeightTensor OnnxParseError :=
  let? shape := result_mapM (λ dim, if dim <? 0 then Err (NegativeDimension (tp_name tensor) dim) else Ok (Z.to_nat dim)) (tp_dims tensor) in
  if negb (tp_data_type tensor =? ONNX_DATA_TYPE_FLOAT) then Err (UnsupportedDataType (tp_name tensor) (tp_data_type tensor)) else
  let? data :=
    if negb (bool_decide (tp_float_data tensor = [])) then Ok (tp_float_data tensor)
    else if negb (bool_decide (tp_raw_data tensor = [])) then
      if negb (Nat.eqb (length (tp_raw_data tensor) mod 4) 0) then Err (RawDataLengthMismatch (tp_name tensor) (length (tp_raw_data tensor)))
      else Ok (f32_chunks (tp_raw_data tensor))
    else Ok [] in
  Ok (mkWeight shape data).

(** Collecting pairs into a map: of equal names the last stays. *)
Definition collect_map {A} (l : list (string * A)) : gmap string A := foldl (λ m '(name, a), <[name := a]> m) ∅ l.

Definition extract_initializers (graph : GraphProto) : Result (gmap string WeightTensor) OnnxParseError :=
  let? pairs := result_mapM (λ tensor, let? w := extract_tensor tensor in Ok (tp_name tensor, w)) (gr_initializer graph) in
  Ok (collect_map pairs).

(** ** Shapes *)

Definition static_shape_of (value_info : ValueInfoProto) : option (list nat) :=
  type_proto ← vi_type value_info;
  value ← ty_value type_proto;
  shape_proto ← match value with TensorType shape => shape | OtherType => None end;
  mapM (λ dim, match dim with Some (DimValue v) => if 0 <=? v then Some (Z.to_nat v) else None | _ => None end) (ts_dim shape_proto).

Definition extract_value_shapes (graph : GraphProto) : gmap string (list nat) :=
  collect_map (omap (λ value_info, shape ← static_shape_of value_info; Some (vi_name value_info, shape))
    (gr_input graph ++ gr_output graph ++ gr_value_info graph)).

End Onnx.

(** [1.0], [-0.5], the least subnormal and an infinity. *)
Example f32_values :
  (λ b, Onnx.f32_to_f64 b) <$> [1065353216; 3204448256; 1; 2139095040]
  = [f64_of_Z 1; f64_div (f64_of_Z (-1)) (f64_of_Z 2); S754_finite false (2 ^ 52) (-201); S754_infinity false].
Proof. reflexivity. Qed.
