(* ===== verification/GraphCompiler.v ===== *)
(** * The graph compiler

    zkie-compiler: op_mapper.rs maps a node of an ONNX graph to an instruction,
    rms_norm_fusion.rs recognizes the seven nodes of an RMS norm, and
    graph_compiler.rs orders the nodes and wires the instructions up.  [None] is a
    panic.  The texts of errors are not modelled. *)
From Stdlib Require Import SpecFloat.
From stdpp Require Import gmap.
From S2P Require Import Prelude FixedPoint Program Onnx.
Import Onnx.

Open Scope nat_scope.

(** [(epsilon as f64 * 1000.0).round() as u64]; the cast saturates. *)
Definition to_milli (epsilon : Z) : Z :=
  let x := f64_mul (f32_to_f64 epsilon) (f64_of_Z 1000) in
  match x with
  | S754_infinity false => u64_max
  | S754_infinity true | S754_nan => 0
  | _ => Z.max 0 (Z.min u64_max (f64_round x))
  end.

(** ** Mapping one node *)

Module OpMapper.

Inductive MappedOp :=
| InstructionOp (instruction : Instruction) (input output : list string)
| MetadataOp (op_type : string) (input output : list string).

Inductive OpMapperError :=
| UnsupportedOp (op_type : string)
| MissingShape (op_type tensor_name : string)
| MissingInput (op_type : string) (index : nat)
| NegativeAxisNeedsShape (op_type : string) (axis : Z)
| AxisOutOfRange (op_type : string) (axis : Z) (rank : nat)
| UnsupportedRank (op_type tensor_name : string) (rank : nat)
| KDimMismatch (op_type : string) (k_from_a k_from_b : nat)
| MultipleReduceAxesUnsupported (axes : list Z).

Notation Shapes := (gmap string (list nat)).

Definition get_attr (node : NodeProto) (name : string) : option AttributeProto :=
  find (λ a, String.eqb (at_name a) name) (nd_attribute node).
Definition attr_i64 (node : NodeProto) (name : string) (default : Z) : Z := from_option at_i default (get_attr node name).
Definition attr_f32 (node : NodeProto) (name : string) (default : Z) : Z := from_option at_f default (get_attr node name).
Definition attr_ints (node : NodeProto) (name : string) : option (list Z) := at_ints <$> get_attr node name.

Definition instruction_op (node : NodeProto) (instruction : Instruction) : MappedOp :=
  InstructionOp instruction (nd_input node) (nd_output node).
Definition metadata_op (node : NodeProto) : MappedOp := MetadataOp (nd_op_type node) (nd_input node) (nd_output node).

Definition required_input_name (node : NodeProto) (index : nat) : Result string OpMapperError :=
  ok_or (nd_input node !! index) (MissingInput (nd_op_type node) index).
Definition required_shape (shapes : Shapes) (op_type tensor_name : string) : Result (list nat) OpMapperError :=
  ok_or (shapes !! tensor_name) (MissingShape op_type tensor_name).

Definition resolve_axis (op_type : string) (axis : Z) (shape : option (list nat)) : Result nat OpMapperError :=
  if (0 <=? axis)%Z then Ok (Z.to_nat axis) else
  let? rank := ok_or (length <$> shape) (NegativeAxisNeedsShape op_type axis) in
  let resolved := (Z.of_nat rank + axis)%Z in
  if (resolved <? 0)%Z then Err (AxisOutOfRange op_type axis rank) else Ok (Z.to_nat resolved).

(** [None] is the panic of an index below two dimensions. *)
Definition last_two_dims (shape : list nat) (transposed : bool) : option (nat * nat) :=
  let len := length shape in
  if len <? 2 then None else
  d0 ← shape !! (len - 2); d1 ← shape !! (len - 1);
  Some (if transposed then (d1, d0) else (d0, d1)).

Definition map_matmul_or_gemm (node : NodeProto) (shapes : Shapes) (trans_a trans_b allow_batch_dims : bool)
    : Outcome MappedOp OpMapperError :=
  let op_type := nd_op_type node in
  match
    let? a_name := required_input_name node 0 in
    let? b_name := required_input_name node 1 in
    let? a_shape := required_shape shapes op_type a_name in
    let? b_shape := required_shape shapes op_type b_name in
    if length a_shape <? 2 then Err (UnsupportedRank op_type a_name (length a_shape)) else
    if length b_shape <? 2 then Err (UnsupportedRank op_type b_name (length b_shape)) else
    if negb allow_batch_dims && negb (length a_shape =? 2) then Err (UnsupportedRank op_type a_name (length a_shape)) else
    if negb allow_batch_dims && negb (length b_shape =? 2) then Err (UnsupportedRank op_type b_name (length b_shape)) else
    Ok (a_shape, b_shape)
  with
  | Err e => Some (Err e)
  | Ok (a_shape, b_shape) =>
      '(m, k_from_a) ← last_two_dims a_shape trans_a;
      '(k_from_b, n) ← last_two_dims b_shape trans_b;
      Some (if negb (k_from_a =? k_from_b) then Err (KDimMismatch op_type k_from_a k_from_b) else
        let batch_dims := take (length a_shape - 2) a_shape in
        Ok (instruction_op node (DotGeneral m n k_from_a batch_dims trans_a trans_b)))
  end.

Definition map_softmax (node : NodeProto) (shapes : Shapes) : Result MappedOp OpMapperError :=
  let op_type := nd_op_type node in
  let axis_attr := attr_i64 node "axis" (-1) in
  let? input_name := required_input_name node 0 in
  let? shape := required_shape shapes op_type input_name in
  let? axis := resolve_axis op_type axis_attr (Some shape) in
  let? axis_dim := ok_or (shape !! axis) (AxisOutOfRange op_type axis_attr (length shape)) in
  Ok (instruction_op node (Softmax axis_dim)).

(** The bits of [1e-5_f32]. *)
Definition DEFAULT_EPSILON : Z := 925353388.

Definition map_layer_norm (node : NodeProto) (shapes : Shapes) : Result MappedOp OpMapperError :=
  let op_type := nd_op_type node in
  let axis_attr := attr_i64 node "axis" (-1) in
  let epsilon := attr_f32 node "epsilon" DEFAULT_EPSILON in
  let? input_name := required_input_name node 0 in
  let? shape := required_shape shapes op_type input_name in
  let? axis := resolve_axis op_type axis_attr (Some shape) in
  let? dim := ok_or (shape !! axis) (AxisOutOfRange op_type axis_attr (length shape)) in
  Ok (instruction_op node (LayerNorm dim (to_milli epsilon))).

Definition map_reduce_mean (node : NodeProto) (shapes : Shapes) : Result MappedOp OpMapperError :=
  let op_type := nd_op_type node in
  match default [] (attr_ints node "axes") with
  | [axis_attr] =>
      let? input_name := required_input_name node 0 in
      let? axis := resolve_axis op_type axis_attr (shapes !! input_name) in
      Ok (instruction_op node (Reduce Mean axis))
  | axes => Err (MultipleReduceAxesUnsupported axes)
  end.

(** [iter().product()] of a [usize]; [None] is the panic of an overflow. *)
Fixpoint usize_product (acc : nat) (dims : list nat) : option nat :=
  match dims with
  | [] => Some acc
  | d :: dims => if (Z.of_nat acc * Z.of_nat d <=? u64_max)%Z then usize_product (acc * d) dims else None
  end.

Definition map_gather (node : NodeProto) (shapes : Shapes) : Outcome MappedOp OpMapperError :=
  let op_type := nd_op_type node in
  match
    let? data_name := required_input_name node 0 in
    let? shape := required_shape shapes op_type data_name in
    Ok (data_name, shape)
  with
  | Err e => Some (Err e)
  | Ok (_, table_size :: d1 :: embed_dims) =>
      embed_dim ← usize_product 1 (d1 :: embed_dims);
      Some (Ok (instruction_op node (EmbedLookup table_size embed_dim)))
  | Ok (data_name, shape) => Some (Err (UnsupportedRank op_type data_name (length shape)))
  end.

Definition is_metadata (op_type : string) : bool :=
  existsb (String.eqb op_type) ["Reshape"; "Transpose"; "Squeeze"; "Unsqueeze"; "Concat"]%string.

Definition map_node (node : NodeProto) (shapes : Shapes) : Outcome MappedOp OpMapperError :=
  let op_type := nd_op_type node in
  if String.eqb op_type "MatMul" then map_matmul_or_gemm node shapes false false true
  else if String.eqb op_type "Gemm" then
    let trans_a := negb (attr_i64 node "transA" 0 =? 0)%Z in
    let trans_b := negb (attr_i64 node "transB" 0 =? 0)%Z in
    map_matmul_or_gemm node shapes trans_a trans_b false
  else if String.eqb op_type "Gather" then map_gather node shapes
  else Some (
    if String.eqb op_type "Add" then Ok (instruction_op node (Eltwise Add))
    else if String.eqb op_type "Mul" then Ok (instruction_op node (Eltwise Mul))
    else if String.eqb op_type "Relu" then Ok (instruction_op node (Eltwise Relu))
    else if String.eqb op_type "Softmax" then map_softmax node shapes
    else if String.eqb op_type "Gelu" then Ok (instruction_op node Gelu)
    else if String.eqb op_type "LayerNormalization" then map_layer_norm node shapes
    else if String.eqb op_type "ReduceMean" then map_reduce_mean node shapes
    else if is_metadata op_type then Ok (metadata_op node)
    else Err (UnsupportedOp op_type)).
End OpMapper.

(** ** RMS norms *)

Module Fusion.

Record RmsNormFusion := mkFusion {
  pow_node_idx : nat;
  consumed_node_indices : list nat;
  input_name : string;
  weight_name : string;
  output_name : string;
  dim : nat;
  epsilon_milli : Z
}.

(** Each tensor's consumers, in order, a node as often as it reads the tensor. *)
Definition consumers (nodes : list NodeProto) (tensor_name : string) : list nat :=
  '(idx, node) ← imap pair nodes; input_name ← nd_input node; if String.eqb input_name tensor_name then [idx] else [].
Definition sole_consumer (nodes : list NodeProto) (tensor_name : string) : option nat :=
  match consumers nodes tensor_name with [idx] => Some idx | _ => None end.

(** [(exponent - 2.0).abs() > 1e-6] in [f32]; false of a NaN. *)
Definition f32 : Type := spec_float.
Definition f32_of_bits (bits : Z) : f32 :=
  match f32_to_f64 bits with S754_finite sign m e => binary_normalize 24 128 (if sign then Z.neg m else Z.pos m) e sign | x => x end.
Definition not_two (bits : Z) : bool :=
  SFltb (f32_of_bits 897988541) (SFabs (SFsub 24 128 (f32_of_bits bits) (f32_of_bits 1073741824))).

(** A node of this type whose only output is [out]. *)
Definition single_output (node : NodeProto) (op_type : string) : option string :=
  if negb (String.eqb (nd_op_type node) op_type) then None
  else match nd_output node with [out] => Some out | _ => None end.
(** The next node of the chain, for the operations with the tensor as first input. *)
Definition next_unary (nodes : list NodeProto) (op_type tensor_name : string) : option (nat * string) :=
  idx ← sole_consumer nodes tensor_name;
  node ← nodes !! idx;
  if bool_decide (head (nd_input node) = Some tensor_name) then out ← single_output node op_type; Some (idx, out) else None.
(** For those with two inputs. *)
Definition next_binary (nodes : list NodeProto) (op_type tensor_name : string) : option (nat * string * string * string) :=
  idx ← sole_consumer nodes tensor_name;
  node ← nodes !! idx;
  match nd_input node with
  | [a; b] => out ← single_output node op_type; Some (idx, a, b, out)
  | _ => None
  end.
(** The operand that is not the tensor. *)
Definition other_operand (a b tensor_name : string) : option string :=
  if String.eqb a tensor_name then Some b else if String.eqb b tensor_name then Some a else None.

Definition try_match_from_pow (pow_idx : nat) (pow_node : NodeProto) (nodes : list NodeProto) (weights : gmap string WeightTensor)
    : option RmsNormFusion :=
  match nd_input pow_node, nd_output pow_node with
  | [x_name; exponent_name], [pow_out] =>
      exponent ← weights !! exponent_name;
      match wt_data exponent with
      | [e] =>
          if not_two e then None else
          '(reduce_idx, mean_out) ← next_unary nodes "ReduceMean" pow_out;
          '(add_idx, a, b, add_out) ← next_binary nodes "Add" mean_out;
          eps_name ← other_operand a b mean_out;
          epsilon ← weights !! eps_name;
          match wt_data epsilon with
          | [eps] =>
              '(sqrt_idx, sqrt_out) ← next_unary nodes "Sqrt" add_out;
              '(recip_idx, recip_out) ← next_unary nodes "Reciprocal" sqrt_out;
              '(mul1_idx, a1, b1, mul1_out) ← next_binary nodes "Mul" recip_out;
              if negb (bool_decide (x_name ∈ [a1; b1])) || negb (bool_decide (recip_out ∈ [a1; b1])) then None else
              '(mul2_idx, a2, b2, output_name) ← next_binary nodes "Mul" mul1_out;
              if negb (bool_decide (mul1_out ∈ [a2; b2])) then None else
              weight_name ← find (λ name, negb (String.eqb name mul1_out)) [a2; b2];
              weight ← weights !! weight_name;
              match wt_shape weight with
              | [dim] => Some (mkFusion pow_idx [reduce_idx; add_idx; sqrt_idx; recip_idx; mul1_idx; mul2_idx] x_name weight_name
                  output_name dim (to_milli eps))
              | _ => None
              end
          | _ => None
          end
      | _ => None
      end
  | _, _ => None
  end.

Definition detect_rms_norm_fusions (nodes : list NodeProto) (weights : gmap string WeightTensor) : list RmsNormFusion :=
  omap (λ '(pow_idx, pow_node), if String.eqb (nd_op_type pow_node) "Pow" then try_match_from_pow pow_idx pow_node nodes weights else None)
    (imap pair nodes).
End Fusion.

(** ** Compiling a graph *)

Module GraphCompiler.
Import OpMapper Fusion.

Inductive GraphCompilerError :=
| MissingGraph
| OpMapperFailed (error : OpMapperError)
| OnnxParse (error : OnnxParseError)
| UnresolvedInput (node_name op_type tensor_name : string)
| UnexpectedOutputCount (node_name op_type : string) (count : nat)
| UnresolvedGraphOutput (tensor_name : string)
| CyclicGraph.

(** *** Ordering the nodes *)

(** The node that produces each tensor; of several the last. *)
Definition producer_of (nodes : list NodeProto) : gmap string nat :=
  foldl (λ m '(idx, node), foldl (λ m output_name, <[output_name := idx]> m) m (nd_output node)) ∅ (imap pair nodes).

(** The loop over the inputs of one node: its producers, each once. *)
Definition count_producer (producers : gmap string nat) (idx : nat) (counted_producers : list nat) (input_name : string) : list nat :=
  match producers !! input_name with
  | Some producer_idx =>
      if negb (producer_idx =? idx) && negb (bool_decide (producer_idx ∈ counted_producers)) then counted_producers ++ [producer_idx]
      else counted_producers
  | None => counted_producers
  end.
Definition counted_producers (producers : gmap string nat) (idx : nat) (node : NodeProto) : list nat :=
  foldl (count_producer producers idx) [] (nd_input node).

(** [adjacency[producer_idx].push(idx); in_degree[idx] += 1]. *)
Definition Edges : Type := list (list nat) * list nat.
Definition add_edge (idx : nat) (edges : Edges) (producer_idx : nat) : option Edges :=
  successors ← edges.1 !! producer_idx;
  degree ← edges.2 !! idx;
  Some (<[producer_idx := successors ++ [idx]]> edges.1, <[idx := S degree]> edges.2).
Fixpoint option_fold {A S} (f : S → A → option S) (s : S) (l : list A) : option S :=
  match l with [] => Some s | a :: l => s' ← f s a; option_fold f s' l end.
Definition add_node (producers : gmap string nat) (edges : Edges) (node : nat * NodeProto) : option Edges :=
  option_fold (add_edge node.1) edges (counted_producers producers node.1 node.2).
Definition build_edges (nodes : list NodeProto) : option Edges :=
  let n := length nodes in
  option_fold (add_node (producer_of nodes)) (replicate n [], replicate n 0) (imap pair nodes).

(** [in_degree[next] -= 1], which queues the node when it reaches zero. *)
Definition release (state : list nat * list nat) (next : nat) : option (list nat * list nat) :=
  let '(in_degree, worklist) := state in
  match in_degree !! next with
  | Some (S degree) => Some (<[next := degree]> in_degree, if degree =? 0 then worklist ++ [next] else worklist)
  | _ => None
  end.
Fixpoint drain (fuel : nat) (adjacency : list (list nat)) (in_degree worklist order : list nat) : option (list nat) :=
  match worklist with
  | [] => Some order
  | idx :: worklist =>
      match fuel with
      | O => None
      | S fuel =>
          successors ← adjacency !! idx;
          '(in_degree, worklist) ← option_fold release (in_degree, worklist) successors;
          drain fuel adjacency in_degree worklist (order ++ [idx])
      end
  end.

Definition topological_order (nodes : list NodeProto) : Outcome (list nat) GraphCompilerError :=
  let n := length nodes in
  '(adjacency, in_degree) ← build_edges nodes;
  let worklist := filter (λ idx, in_degree !! idx = Some 0) (seq 0 n) in
  order ← drain n adjacency in_degree worklist [];
  Some (if negb (length order =? n) then Err CyclicGraph else Ok order).

(** *** Wiring the registers *)

Notation Registers := (gmap string Register).

Definition resolve (registers : Registers) (node_name op_type tensor_name : string) : Result Register GraphCompilerError :=
  ok_or (registers !! tensor_name) (UnresolvedInput node_name op_type tensor_name).

(** The instructions so far, and what each tensor is. *)
Record Wiring := mkWiring { wi_instructions : list CompiledInstruction; wi_registers : Registers }.

Definition emit (wiring : Wiring) (instruction : Instruction) (inputs : list Register) (output_name : string) : Wiring :=
  mkWiring (wi_instructions wiring ++ [mkInstruction instruction inputs output_name])
    (<[output_name := Virtual (length (wi_instructions wiring))]> (wi_registers wiring)).

Definition wire_fusion (fusion : RmsNormFusion) (wiring : Wiring) : Result Wiring GraphCompilerError :=
  let? x_register := resolve (wi_registers wiring) "rms_norm_fusion" "RmsNorm" (input_name fusion) in
  let? weight_register := resolve (wi_registers wiring) "rms_norm_fusion" "RmsNorm" (weight_name fusion) in
  Ok (emit wiring (RmsNorm (dim fusion) (epsilon_milli fusion)) [x_register; weight_register] (output_name fusion)).

Definition wire_op (node : NodeProto) (op : MappedOp) (wiring : Wiring) : Result Wiring GraphCompilerError :=
  match op with
  | InstructionOp instruction input output =>
      let? resolved_inputs := result_mapM (resolve (wi_registers wiring) (nd_name node) (nd_op_type node)) input in
      match output with
      | [output_name] => Ok (emit wiring instruction resolved_inputs output_name)
      | _ => Err (UnexpectedOutputCount (nd_name node) (nd_op_type node) (length output))
      end
  | MetadataOp op_type input output =>
      let? source_name := ok_or (head input) (UnresolvedInput (nd_name node) op_type "") in
      let? source_register := resolve (wi_registers wiring) (nd_name node) op_type source_name in
      Ok (mkWiring (wi_instructions wiring) (foldl (λ m output_name, <[output_name := source_register]> m) (wi_registers wiring) output))
  end.

(** One round of the loop.  Of several fusions at one node the last is kept. *)
Definition wire_node (nodes : list NodeProto) (shapes : Shapes) (fusions : list RmsNormFusion) (wiring : Wiring) (node_idx : nat)
    : Outcome Wiring GraphCompilerError :=
  match last (filter (λ fusion, pow_node_idx fusion = node_idx) fusions) with
  | Some fusion => Some (wire_fusion fusion wiring)
  | None =>
      if bool_decide (node_idx ∈ (fusions ≫= consumed_node_indices)) then Some (Ok wiring) else
      node ← nodes !! node_idx;
      mapped ← map_node node shapes;
      Some (let? op := map_err OpMapperFailed mapped in wire_op node op wiring)
  end.
Fixpoint wire_nodes (nodes : list NodeProto) (shapes : Shapes) (fusions : list RmsNormFusion) (wiring : Wiring) (order : list nat)
    : Outcome Wiring GraphCompilerError :=
  match order with
  | [] => Some (Ok wiring)
  | node_idx :: order =>
      outcome_bind (wire_node nodes shapes fusions wiring node_idx) (λ wiring, wire_nodes nodes shapes fusions wiring order)
  end.

(** The registers of the graph's inputs and initializers. *)
Definition initial_registers (graph : GraphProto) : Registers :=
  let inputs := foldl (λ m input, <[vi_name input := GraphInput (vi_name input)]> m) ∅ (gr_input graph) in
  foldl (λ m initializer, <[tp_name initializer := Weight (tp_name initializer)]> m) inputs (gr_initializer graph).
Definition all_shapes (graph : GraphProto) (weights : gmap string WeightTensor) : Shapes :=
  (wt_shape <$> weights) ∪ extract_value_shapes graph.
Definition resolve_outputs (graph : GraphProto) (registers : Registers) : Result (list (string * Register)) GraphCompilerError :=
  result_mapM (λ value_info, let? register := ok_or (registers !! vi_name value_info) (UnresolvedGraphOutput (vi_name value_info)) in
    Ok (vi_name value_info, register)) (gr_output graph).

Definition compile_graph (graph : GraphProto) : Outcome CompiledProgram GraphCompilerError :=
  let nodes := gr_node graph in
  outcome_bind (Some (map_err OnnxParse (extract_initializers graph))) (λ weights,
  let fusions := detect_rms_norm_fusions nodes weights in
  outcome_bind (topological_order nodes) (λ order,
  outcome_bind (wire_nodes nodes (all_shapes graph weights) fusions (mkWiring [] (initial_registers graph)) order) (λ wiring, Some (
    let? graph_outputs := resolve_outputs graph (wi_registers wiring) in
    Ok (mkProgram (wi_instructions wiring) weights (vi_name <$> gr_input graph) graph_outputs))))).

Definition compile_model (model : ModelProto) : Outcome CompiledProgram GraphCompilerError :=
  match mo_graph model with Some graph => compile_graph graph | None => Some (Err MissingGraph) end.
End GraphCompiler.
