(* ===== verification/GraphCompilerProofs.v ===== *)
(** * The graph compiler: proofs

    Kahn's algorithm finds an order exactly when there is one; the registers of a
    compiled graph hold what the graph's equations say. *)
From stdpp Require Import gmap.
From S2P Require Import Prelude FixedPoint Program Onnx GraphCompiler.
Import Onnx OpMapper Fusion GraphCompiler.

Open Scope nat_scope.

(** ** Folds *)

Lemma option_fold_app {A S} (f : S → A → option S) s l1 l2 : option_fold f s (l1 ++ l2) = option_fold f s l1 ≫= λ s', option_fold f s' l2.
Proof. revert s. induction l1 as [|a l1 IH]; intros s; [done|]. cbn. destruct (f s a); [apply IH|done]. Qed.
Lemma imap_pair_snoc {A} (l : list A) x : imap pair (l ++ [x]) = imap pair l ++ [(length l, x)].
Proof. rewrite imap_app. cbn. by rewrite Nat.add_0_r. Qed.

(** Lists that agree up to a function of each element are as long. *)
Lemma length_pointwise {A} (f : nat → A → A) (l l' : list A) : (∀ i, l' !! i = f i <$> l !! i) → length l' = length l.
Proof.
  intros H. apply Nat.le_antisymm; apply lookup_ge_None.
  - rewrite H. apply fmap_None. by apply lookup_ge_None.
  - apply (fmap_None (f (length l'))). rewrite <- H. by apply lookup_ge_None.
Qed.

Lemma NoDup_length_le {A} (l k : list A) : NoDup l → (∀ x, x ∈ l → x ∈ k) → length l ≤ length k.
Proof. intros. by apply submseteq_length, NoDup_submseteq. Qed.

Lemma insert_outputs {A} (l : list string) (idx : A) (m : gmap string A) name :
  foldl (λ m output_name, <[output_name := idx]> m) m l !! name = if bool_decide (name ∈ l) then Some idx else m !! name.
Proof.
  induction l as [|o l IH] using rev_ind; [done|]. rewrite foldl_app. cbn [foldl]. destruct (decide (name = o)) as [->|Hne].
  - rewrite lookup_insert_eq, bool_decide_eq_true_2; [done|]. apply elem_of_app. right. by left.
  - rewrite lookup_insert_ne, IH by done. apply (f_equal (λ b : bool, if b then _ else _)), bool_decide_ext.
    rewrite elem_of_app, list_elem_of_singleton. naive_solver.
Qed.

(** ** Producers *)

Section Order.
Context (nodes : list NodeProto).
#[local] Notation n := (length nodes).

(** The last node that outputs a tensor. *)
Definition outputs (p : nat) (name : string) : Prop := ∃ node, nodes !! p = Some node ∧ name ∈ nd_output node.
Definition produces (p : nat) (name : string) : Prop := outputs p name ∧ ∀ q, outputs q name → q ≤ p.

Lemma producer_of_Some name p : producer_of nodes !! name = Some p ↔ produces p name.
Proof.
  unfold producer_of, produces, outputs. induction nodes as [|node l IH] using rev_ind.
  - cbn. split; [done|]. by intros [(? & ? & _) _].
  - rewrite imap_pair_snoc, foldl_app. cbn [foldl]. rewrite insert_outputs. case_bool_decide as Hin.
    + split.
      * intros [= <-]. split; [exists node; by rewrite lookup_app_r, Nat.sub_diag by lia|].
        intros q (node' & Hq%lookup_lt_Some & _). rewrite length_app in Hq. simpl in Hq. lia.
      * intros [(node' & Hp & _) Hmax]. apply lookup_lt_Some in Hp. rewrite length_app in Hp. simpl in Hp.
        assert (length l ≤ p) as Hle by (apply Hmax; exists node; by rewrite lookup_app_r, Nat.sub_diag by lia). f_equal. lia.
    + rewrite IH. assert (∀ q, (∃ node', (l ++ [node]) !! q = Some node' ∧ name ∈ nd_output node') ↔ ∃ node', l !! q = Some node' ∧ name ∈ nd_output node') as E.
      { intros q. split; intros (node' & Hq & Hn); exists node'; (split; [|done]).
        - apply lookup_app_Some in Hq as [Hq|[_ Hq]]; [done|]. apply list_elem_of_lookup_2, list_elem_of_singleton in Hq as ->. done.
        - by apply lookup_app_l_Some. }
      by setoid_rewrite E.
Qed.

(** ** Dependencies *)

Definition depends (i p : nat) : Prop :=
  ∃ node name, nodes !! i = Some node ∧ name ∈ nd_input node ∧ produces p name ∧ p ≠ i.
(** What is counted for a node. *)
Definition dependencies (i : nat) : list nat := from_option (counted_producers (producer_of nodes) i) [] (nodes !! i).

Lemma counted_producers_spec producers idx node :
  NoDup (counted_producers producers idx node) ∧
  ∀ p, p ∈ counted_producers producers idx node ↔ ∃ name, name ∈ nd_input node ∧ producers !! name = Some p ∧ p ≠ idx.
Proof.
  unfold counted_producers. induction (nd_input node) as [|x l [IHd IH]] using rev_ind.
  - split; [constructor|]. intros p. split; [by intros ?%elem_of_nil|by intros (? & ?%elem_of_nil & _)].
  - rewrite foldl_app. cbn [foldl]. set (c := foldl _ _ _) in *. unfold count_producer.
    assert (∀ p, (∃ name, name ∈ l ++ [x] ∧ producers !! name = Some p ∧ p ≠ idx) ↔ p ∈ c ∨ producers !! x = Some p ∧ p ≠ idx) as E.
    { intros p. rewrite IH. setoid_rewrite elem_of_app. setoid_rewrite list_elem_of_singleton. naive_solver. }
    setoid_rewrite E. destruct (producers !! x) as [q|]; [|split; [done|naive_solver]].
    destruct (Nat.eqb_spec q idx) as [->|Hq]; cbn [negb andb]; [split; [done|naive_solver]|].
    case_bool_decide as Hin; cbn [negb]; [split; [done|naive_solver]|]. split.
    + apply NoDup_app. split; [done|]. split; [|apply NoDup_singleton]. intros p Hp ->%list_elem_of_singleton. done.
    + intros p. rewrite elem_of_app, list_elem_of_singleton. naive_solver.
Qed.
Lemma dependencies_NoDup i : NoDup (dependencies i).
Proof. unfold dependencies. destruct (nodes !! i); [apply counted_producers_spec|constructor]. Qed.
Lemma elem_of_dependencies i p : p ∈ dependencies i ↔ depends i p.
Proof.
  unfold dependencies, depends. destruct (nodes !! i) as [node|] eqn:E; cbn [from_option].
  - rewrite (proj2 (counted_producers_spec _ _ _)). setoid_rewrite producer_of_Some. naive_solver.
  - split; [by intros ?%elem_of_nil|by intros (? & ? & ? & _)].
Qed.
Lemma depends_bound i p : depends i p → i < n ∧ p < n.
Proof. intros (node & name & Hi & _ & ((node' & Hp & _) & _) & _). split; by eapply lookup_lt_Some. Qed.

(** ** Building the edges *)

Lemma add_edges_spec idx l : ∀ adj deg, NoDup l → (∀ p, p ∈ l → p < length adj) → idx < length deg →
  ∃ adj' deg', option_fold (add_edge idx) (adj, deg) l = Some (adj', deg') ∧
    (∀ p, adj' !! p = (λ s, if bool_decide (p ∈ l) then s ++ [idx] else s) <$> adj !! p) ∧
    (∀ i, deg' !! i = (λ d, if i =? idx then length l + d else d) <$> deg !! i).
Proof.
  induction l as [|p0 l IH]; intros adj deg Hnd Hl Hi; cbn [option_fold].
  { exists adj, deg. split; [done|]. split; intros j; [by destruct (adj !! j)|destruct (deg !! j); cbn; [by destruct (j =? idx)|done]]. }
  apply NoDup_cons in Hnd as [Hp0 Hnd]. destruct (lookup_lt_is_Some_2 adj p0) as [s Hs]; [apply Hl; by left|].
  destruct (lookup_lt_is_Some_2 deg idx Hi) as [d Hd]. 
  assert (add_edge idx (adj, deg) p0 = Some (<[p0 := s ++ [idx]]> adj, <[idx := S d]> deg)) as -> by (unfold add_edge; cbn [fst snd]; by rewrite Hs, Hd).
  cbn [mbind option_bind].
  destruct (IH (<[p0 := s ++ [idx]]> adj) (<[idx := S d]> deg)) as (adj' & deg' & -> & Ha & Hdg);
    [done|intros p Hp; rewrite length_insert; apply Hl; by right|by rewrite length_insert|].
  exists adj', deg'. split; [done|]. split.
  - intros p. rewrite Ha. destruct (decide (p = p0)) as [->|Hne].
    + rewrite list_lookup_insert_eq by (eapply lookup_lt_Some; done). rewrite Hs. cbn.
      rewrite (bool_decide_eq_false_2 _ Hp0), bool_decide_eq_true_2 by (by left). done.
    + rewrite list_lookup_insert_ne by done. destruct (adj !! p); [|done]. cbn. do 2 f_equal.
      apply (f_equal (λ b : bool, if b then _ else _)), bool_decide_ext. rewrite elem_of_cons. naive_solver.
  - intros i. rewrite Hdg. destruct (Nat.eqb_spec i idx) as [->|Hne].
    + rewrite list_lookup_insert_eq, Hd by done. cbn. f_equal. lia.
    + by rewrite list_lookup_insert_ne by done.
Qed.

(** The state of the loop after the first [k] nodes. *)
Definition edges_upto (k : nat) (edges : Edges) : Prop :=
  (∀ p, p < n → edges.1 !! p = Some (filter (λ i, p ∈ dependencies i) (seq 0 k))) ∧
  (∀ i, i < n → edges.2 !! i = Some (if i <? k then length (dependencies i) else 0)) ∧
  length edges.1 = n ∧ length edges.2 = n.
Lemma build_edges_upto k : k ≤ n →
  ∃ edges, option_fold (add_node (producer_of nodes)) (replicate n [], replicate n 0) (imap pair (take k nodes)) = Some edges ∧ edges_upto k edges.
Proof.
  induction k as [|k IH]; intros Hk.
  - rewrite take_0. eexists. split; [done|]. unfold edges_upto. cbn [fst snd]. rewrite !length_replicate.
    split; [|split; [|done]]; intros j Hj; by apply lookup_replicate_2.
  - destruct IH as ([adj deg] & E & Ha & Hd & Hla & Hld); [lia|]. destruct (lookup_lt_is_Some_2 nodes k) as [node Hn]; [lia|].
    rewrite (take_S_r _ _ _ Hn), imap_pair_snoc, option_fold_app, E, length_take_le by lia. cbn [mbind option_bind option_fold].
    unfold add_node at 1. cbn [fst snd]. assert (counted_producers (producer_of nodes) k node = dependencies k) as -> by (unfold dependencies; by rewrite Hn).
    cbn [fst snd] in *. destruct (add_edges_spec k (dependencies k) adj deg) as (adj' & deg' & -> & Ha' & Hd');
      [apply dependencies_NoDup|intros p Hp%elem_of_dependencies%depends_bound; lia|lia|].
    exists (adj', deg'). split; [done|]. unfold edges_upto. cbn [fst snd].
    split; [|split].
    + intros p Hp. rewrite Ha', Ha, seq_S, filter_app, filter_cons by done. cbn. f_equal.
      destruct (decide (p ∈ dependencies k)); [by rewrite bool_decide_eq_true_2|by rewrite bool_decide_eq_false_2, app_nil_r].
    + intros i Hi. rewrite Hd', Hd by done. cbn [fmap option_fmap option_map]. f_equal. destruct (Nat.eqb_spec i k) as [->|]; [rewrite Nat.ltb_irrefl, (proj2 (Nat.ltb_lt _ _)); lia|].
      destruct (Nat.ltb_spec i k), (Nat.ltb_spec i (S k)); lia || done.
    + split; [by rewrite (length_pointwise _ _ _ Ha')|by rewrite (length_pointwise _ _ _ Hd')].
Qed.
(** ** Releasing the successors *)

Lemma release_all l : ∀ deg wl, NoDup l → (∀ i, i ∈ l → ∃ d, deg !! i = Some (S d)) →
  ∃ deg', option_fold release (deg, wl) l = Some (deg', wl ++ filter (λ i, deg !! i = Some 1) l) ∧
    ∀ i, deg' !! i = (λ d, if bool_decide (i ∈ l) then pred d else d) <$> deg !! i.
Proof.
  induction l as [|i0 l IH]; intros deg wl Hnd Hl; cbn [option_fold].
  { exists deg. rewrite app_nil_r. split; [done|]. intros j. by destruct (deg !! j). }
  apply NoDup_cons in Hnd as [Hi0 Hnd]. destruct (Hl i0) as [d Hd]; [by left|].
  assert (release (deg, wl) i0 = Some (<[i0 := d]> deg, if d =? 0 then wl ++ [i0] else wl)) as -> by (unfold release; by rewrite Hd).
  cbn [mbind option_bind].
  destruct (IH (<[i0 := d]> deg) (if d =? 0 then wl ++ [i0] else wl) Hnd) as (deg' & Hr & Hdg).
  { intros i Hi. rewrite list_lookup_insert_ne by congruence. apply Hl. by right. }
  exists deg'. split.
  - etransitivity; [exact Hr|]. do 2 f_equal. rewrite filter_cons.
    replace (filter (λ i, <[i0 := d]> deg !! i = Some 1) l) with (filter (λ i, deg !! i = Some 1) l).
    2:{ clear Hr IH Hl Hdg. induction l as [|i l IH]; [done|]. apply not_elem_of_cons in Hi0 as [Hne Hi0]. apply NoDup_cons in Hnd as [_ Hnd].
        rewrite !filter_cons, IH by done. pose proof (list_lookup_insert_ne deg i0 i d ltac:(congruence)) as E.
        by destruct (decide (deg !! i = Some 1)), (decide (<[i0 := d]> deg !! i = Some 1)); try congruence. }
    destruct d as [|d]; cbn [Nat.eqb]; rewrite Hd.
    + rewrite decide_True by done. by rewrite <- app_assoc.
    + by rewrite decide_False by congruence.
  - intros i. rewrite Hdg. destruct (decide (i = i0)) as [->|Hne].
    + rewrite list_lookup_insert_eq by (eapply lookup_lt_Some; done). rewrite Hd. cbn.
      rewrite (bool_decide_eq_false_2 _ Hi0), bool_decide_eq_true_2 by (by left). done.
    + rewrite list_lookup_insert_ne by done. destruct (deg !! i); [|done]. cbn. f_equal.
      apply (f_equal (λ b : bool, if b then _ else _)), bool_decide_ext. rewrite elem_of_cons. naive_solver.
Qed.

(** ** Draining the worklist *)

(** An order of all the nodes with every dependency before its dependents. *)
Definition respects (order : list nat) : Prop := ∀ k i p, order !! k = Some i → depends i p → p ∈ take k order.
Definition topological (order : list nat) : Prop := order ≡ₚ seq 0 n ∧ respects order.

Record Draining (deg wl order : list nat) : Prop := {
  dr_NoDup : NoDup (order ++ wl);
  dr_bound i : i ∈ order ++ wl → i < n;
  dr_degree i : i < n → deg !! i = Some (length (filter (λ p, p ∉ order) (dependencies i)));
  dr_zero i : i < n → i ∈ order ++ wl ↔ deg !! i = Some 0;
  dr_respects : respects order
}.

Lemma respects_snoc order i : respects order → (∀ p, depends i p → p ∈ order) → respects (order ++ [i]).
Proof.
  intros H Hi k j p [Hk|[Hk Hj]]%lookup_app_Some Hp.
  - pose proof (lookup_lt_Some _ _ _ Hk). rewrite take_app_le by lia. by eapply H.
  - apply list_lookup_singleton_Some in Hj as [Hk' <-]. rewrite take_app_ge by lia. apply elem_of_app. left. by apply Hi.
Qed.
Lemma length_filter_not (l order : list nat) i : NoDup l → i ∉ order →
  length (filter (λ p, p ∉ order ++ [i]) l) = (if bool_decide (i ∈ l) then pred else id) (length (filter (λ p, p ∉ order) l)).
Proof.
  intros Hnd Hi. induction l as [|p l IH]; [done|]. apply NoDup_cons in Hnd as [Hp Hnd]. specialize (IH Hnd). rewrite !filter_cons.
  destruct (decide (p = i)) as [->|Hne].
  - rewrite decide_False, decide_True by set_solver. rewrite bool_decide_eq_false_2 in IH by done. rewrite bool_decide_eq_true_2 by (by left). done.
  - assert (bool_decide (i ∈ p :: l) = bool_decide (i ∈ l)) as -> by (apply bool_decide_ext; set_solver).
    destruct (decide (p ∈ order)); [rewrite !decide_False by set_solver; done|]. rewrite !decide_True by set_solver. cbn [length]. rewrite IH.
    case_bool_decide as Hil; [|done]. cbn. apply Nat.succ_pred. intros H0%length_zero_iff_nil.
    apply (filter_nil_not_elem_of _ _ i H0); done.
Qed.
Lemma filter_length_0 (P : nat → Prop) `{!∀ x, Decision (P x)} (l : list nat) : length (filter P l) = 0 ↔ ∀ x, x ∈ l → ¬ P x.
Proof.
  split.
  - intros Hnil%length_zero_iff_nil x Hx HP. by apply (filter_nil_not_elem_of _ _ x Hnil).
  - intros Hall. induction l as [|x l IH]; [done|]. rewrite filter_cons, decide_False by (apply Hall; by left).
    apply IH. intros y Hy. apply Hall. by right.
Qed.

(** Taking one node off the worklist keeps the invariant. *)
Lemma drain_step deg idx wl order : Draining deg (idx :: wl) order →
  ∃ deg', option_fold release (deg, wl) (filter (λ i, idx ∈ dependencies i) (seq 0 n)) =
      Some (deg', wl ++ filter (λ i, deg !! i = Some 1) (filter (λ i, idx ∈ dependencies i) (seq 0 n))) ∧
    Draining deg' (wl ++ filter (λ i, deg !! i = Some 1) (filter (λ i, idx ∈ dependencies i) (seq 0 n))) (order ++ [idx]).
Proof.
  intros [Hnd Hb Hd Hz Hr]. set (succ := filter _ (seq 0 n)).
  assert (∀ i, i ∈ succ ↔ i < n ∧ idx ∈ dependencies i) as Hsucc by (intros i; unfold succ; rewrite list_elem_of_filter, elem_of_seq; split; intros []; split; done || lia).
  pose proof Hnd as (Ho & Hdisj & Hw)%NoDup_app. apply NoDup_cons in Hw as [Hiw Hw].
  assert (idx ∉ order) as Hio by (intros Hi; apply (Hdisj _ Hi); by left).
  destruct (release_all succ deg wl) as (deg' & Hrel & Hdeg).
  - apply NoDup_filter, NoDup_seq.
  - intros i [Hi Hdep]%Hsucc. rewrite Hd by done. destruct (length (filter _ _)) as [|d] eqn:E; [|by exists d].
    exfalso. by apply (proj1 (filter_length_0 _ _) E idx).
  - exists deg'. split; [done|]. set (fresh := filter _ succ).
    assert (∀ i, i ∈ fresh ↔ deg !! i = Some 1 ∧ i < n ∧ idx ∈ dependencies i) as Hfresh by (intros i; unfold fresh; by rewrite list_elem_of_filter, Hsucc).
    assert (∀ i, i < n → deg' !! i = Some (length (filter (λ p, p ∉ order ++ [idx]) (dependencies i)))) as Hd'.
    { intros i Hi. rewrite Hdeg, Hd by done. cbn [fmap option_fmap option_map]. f_equal. rewrite length_filter_not by (done || apply dependencies_NoDup).
      assert (bool_decide (i ∈ succ) = bool_decide (idx ∈ dependencies i)) as -> by (apply bool_decide_ext; rewrite Hsucc; naive_solver).
      by case_bool_decide. }
    assert (∀ i, i < n → i ∈ order ++ idx :: wl → i ∉ fresh) as Hold by (intros i Hi Hin [H1 _]%Hfresh; apply Hz in Hin; congruence).
    assert (∀ i, i ∈ (order ++ [idx]) ++ wl ++ fresh ↔ i ∈ order ++ idx :: wl ∨ i ∈ fresh) as Hall
      by (intros i; rewrite (app_assoc _ wl), elem_of_app, <- (app_assoc order); done).
    split; [| |done| |].
    + rewrite (app_assoc _ wl). apply NoDup_app. split; [by rewrite <- app_assoc|]. split.
      * intros i Hi. rewrite <- app_assoc in Hi. by apply Hold; [apply Hb|].
      * by apply NoDup_filter, NoDup_filter, NoDup_seq.
    + intros i [Hi|(_ & Hi & _)%Hfresh]%Hall; [by apply Hb|done].
    + intros i Hi. rewrite Hdeg, Hall. destruct (decide (i ∈ order ++ idx :: wl)) as [Hin|Hin].
      * rewrite (proj1 (Hz i Hi) Hin). cbn. split; [intros _; by case_bool_decide|by left].
      * rewrite (or_r _ _ Hin), Hfresh, Hd by done. rewrite Hz, Hd in Hin by done. cbn [fmap option_fmap option_map].
        case_bool_decide as Hs; [|split; [intros (_ & ? & ?); exfalso; apply Hs, Hsucc; done|done]].
        apply Hsucc in Hs as [_ Hs]. destruct (length (filter _ _)) as [|[|d]]; naive_solver.
    + apply respects_snoc; [done|]. intros p Hp%elem_of_dependencies. destruct (decide (p ∈ order)) as [|Hno]; [done|]. exfalso.
      assert (idx < n) as Hlt by (apply Hb, elem_of_app; right; by left).
      assert (deg !! idx = Some 0) as H0 by (apply Hz, elem_of_app; [done|]; right; by left). rewrite Hd in H0 by done. injection H0 as H0.
      by apply (proj1 (filter_length_0 _ _) H0 p).
Qed.
(** Enough fuel for every node drains the worklist. *)
Lemma drain_spec edges : edges_upto n edges → ∀ fuel deg wl order, Draining deg wl order → n ≤ fuel + length order →
  ∃ deg' order', drain fuel edges.1 deg wl order = Some order' ∧ Draining deg' [] order'.
Proof.
  intros (Ha & _ & _ & _). induction fuel as [|fuel IH]; intros deg [|idx wl] order Hdr Hf; try (by exists deg, order).
  - exfalso. pose proof (dr_NoDup _ _ _ Hdr) as Hnd. apply NoDup_length_le with (k := seq 0 n) in Hnd.
    + rewrite length_app, length_seq in Hnd. cbn in *. lia.
    + intros i Hi%(dr_bound _ _ _ Hdr). apply elem_of_seq. lia.
  - cbn [drain]. rewrite Ha by (apply (dr_bound _ _ _ Hdr), elem_of_app; right; by left).
    destruct (drain_step _ _ _ _ Hdr) as (deg' & E & Hdr'). cbn [mbind option_bind]. rewrite E. cbn [mbind option_bind].
    apply (IH _ _ _ Hdr'). rewrite length_app. cbn. lia.
Qed.

Lemma draining_initial edges : edges_upto n edges → Draining edges.2 (filter (λ idx, edges.2 !! idx = Some 0) (seq 0 n)) [].
Proof.
  intros (_ & Hd & _ & _). assert (∀ i, i < n → edges.2 !! i = Some (length (dependencies i))) as Hd'.
  { intros i Hi. rewrite Hd by done. by rewrite (proj2 (Nat.ltb_lt i n) Hi). }
  split; cbn [app].
  - by apply NoDup_filter, NoDup_seq.
  - intros i [_ Hi%elem_of_seq]%list_elem_of_filter. lia.
  - intros i Hi. rewrite Hd' by done. do 2 f_equal. induction (dependencies i) as [|p l IH]; [done|].
    rewrite filter_cons, decide_True by (by intros ?%elem_of_nil). by rewrite <- IH.
  - intros i Hi. rewrite list_elem_of_filter, elem_of_seq. split; [by intros []|]. intros H0. split; [done|lia].
  - intros k i p Hk. by rewrite lookup_nil in Hk.
Qed.

(** When nothing is left on the worklist, either every node is ordered or nothing is an order. *)
Lemma drained_all deg order order' : Draining deg [] order → topological order' → ∀ i, i ∈ order' → i ∈ order.
Proof.
  intros Hdr [Hp Hr] i [k Hk]%list_elem_of_lookup. revert i Hk. induction (lt_wf k) as [k _ IH]. intros i Hk.
  assert (i < n) as Hi by (apply list_elem_of_lookup_2 in Hk; rewrite Hp in Hk; apply elem_of_seq in Hk; lia).
  rewrite <- (app_nil_r order). apply (dr_zero _ _ _ Hdr i Hi). rewrite (dr_degree _ _ _ Hdr i Hi). f_equal.
  apply filter_length_0. intros p Hd%elem_of_dependencies Hno. apply Hno.
  destruct (proj1 (list_elem_of_lookup _ _) (Hr _ _ _ Hk Hd)) as [j Hj]. apply lookup_take_Some in Hj as [Hj Hlt]. by apply (IH j Hlt p).
Qed.

Lemma topological_order_drained :
  ∃ deg order, Draining deg [] order ∧ topological_order nodes = Some (if negb (length order =? n) then Err CyclicGraph else Ok order).
Proof.
  destruct (build_edges_upto n) as ([adj deg] & E & Hup); [done|]. rewrite firstn_all in E.
  destruct (drain_spec _ Hup n _ _ _ (draining_initial _ Hup)) as (deg' & order & Ed & Hdr); [lia|]. cbn [fst snd] in *.
  unfold topological_order, build_edges. rewrite E. cbn [mbind option_bind]. rewrite Ed. cbn [mbind option_bind]. by exists deg', order.
Qed.
Lemma draining_within deg order : Draining deg [] order → NoDup order ∧ ∀ i, i ∈ order → i ∈ seq 0 n.
Proof.
  intros Hdr. pose proof (dr_NoDup _ _ _ Hdr) as Hnd. rewrite app_nil_r in Hnd. split; [done|].
  intros i Hi. apply elem_of_seq. split; [lia|]. apply (dr_bound _ _ _ Hdr), elem_of_app. by left.
Qed.
Lemma drained_topological deg order : Draining deg [] order → length order = n → topological order.
Proof.
  intros Hdr Hl. destruct (draining_within _ _ Hdr) as [Hnd Hsub]. split; [|exact (dr_respects _ _ _ Hdr)].
  apply submseteq_length_Permutation; [by apply NoDup_submseteq|rewrite length_seq; lia].
Qed.
Lemma drained_cyclic deg order order' : Draining deg [] order → topological order' → length order = n.
Proof.
  intros Hdr Ht. destruct (draining_within _ _ Hdr) as [Hnd Hsub]. pose proof (drained_all _ _ _ Hdr Ht) as Hall. destruct Ht as [Hp _].
  apply Nat.le_antisymm; rewrite <- (length_seq n 0).
  - by apply NoDup_length_le.
  - rewrite <- Hp. apply NoDup_length_le; [rewrite Hp; apply NoDup_seq|done].
Qed.
End Order.
