(* ===== verification/GraphTheorems.v ===== *)
(** * The graph compiler: theorems

    What a graph means by ONNX's definition of its operators, what a program means,
    and where the two agree: a compiled graph computes what the graph says.  Which
    graphs compile, and where the compiler departs from ONNX. *)
From stdpp Require Import gmap.
From S2P Require Import Prelude FixedPoint Program Onnx GraphCompiler GraphCompilerProofs.
Import Onnx OpMapper Fusion GraphCompiler.

Open Scope nat_scope.

(** ** The chain of an RMS norm *)

Section Chains.
Context (nodes : list NodeProto) (weights : gmap string WeightTensor).

Lemma elem_of_consumers i t : i ∈ consumers nodes t ↔ ∃ node, nodes !! i = Some node ∧ t ∈ nd_input node.
Proof.
  unfold consumers. rewrite list_elem_of_bind. split.
  - intros ([j node] & Hi & (j' & node' & [= <- <-] & Hj)%elem_of_lookup_imap). apply list_elem_of_bind in Hi as (name & Hi & Hin).
    destruct (String.eqb_spec name t) as [E|]; [|by apply elem_of_nil in Hi]. apply list_elem_of_singleton in Hi. subst. by exists node.
  - intros (node & Hi & Hin). exists (i, node). split; [|apply elem_of_lookup_imap; by exists i, node].
    apply list_elem_of_bind. exists t. split; [|done]. rewrite String.eqb_refl. by left.
Qed.
Lemma sole_consumer_only t i j node : sole_consumer nodes t = Some i → nodes !! j = Some node → t ∈ nd_input node → j = i.
Proof.
  intros Hs Hj Hin. assert (j ∈ consumers nodes t) as Hc by (apply elem_of_consumers; by exists node). revert Hs Hc. unfold sole_consumer.
  destruct (consumers nodes t) as [|i' [|]]; try done. intros [= ->] ?%list_elem_of_singleton. done.
Qed.

Lemma read_twice t i j node : sole_consumer nodes t = Some j → nodes !! i = Some node → nd_input node = [t; t] → False.
Proof.
  intros Hs Hi Hin. revert Hs. unfold sole_consumer, consumers. rewrite <-(take_drop_middle nodes i node Hi), imap_app, bind_app.
  cbn. rewrite Hin. cbn. rewrite String.eqb_refl. cbn. match goal with |- context [?l ++ _ :: _ :: _] => by destruct l as [|? [|]] end.
Qed.

(** The only node that reads [from] is node [i], of this type, with these inputs and this one output. *)
Definition node_is (i : nat) (op_type : string) (inputs : list string) (output : string) : Prop :=
  ∃ node, nodes !! i = Some node ∧ nd_op_type node = op_type ∧ nd_input node = inputs ∧ nd_output node = [output].
Definition link (op_type from : string) (i : nat) (inputs : list string) (output : string) : Prop :=
  sole_consumer nodes from = Some i ∧ node_is i op_type inputs output.

Lemma single_output_Some node op_type out : single_output node op_type = Some out → nd_op_type node = op_type ∧ nd_output node = [out].
Proof.
  unfold single_output. destruct (String.eqb_spec (nd_op_type node) op_type); [|done]. cbn. destruct (nd_output node) as [|o [|]]; try done.
  by intros [= ->].
Qed.
Lemma next_unary_link op_type from i out : next_unary nodes op_type from = Some (i, out) → ∃ rest, link op_type from i (from :: rest) out.
Proof.
  unfold next_unary. intros (j & Hs & (node & Hn & H)%bind_Some)%bind_Some. case_bool_decide as Hh; [|done].
  apply bind_Some in H as (o & [Ht Ho]%single_output_Some & [= -> ->]).
  destruct (nd_input node) as [|x rest] eqn:E; [done|]. injection Hh as ->. exists rest. split; [done|]. by exists node.
Qed.
Lemma next_binary_link op_type from i a b out : next_binary nodes op_type from = Some (i, a, b, out) → link op_type from i [a; b] out.
Proof.
  unfold next_binary. intros (j & Hs & (node & Hn & H)%bind_Some)%bind_Some. destruct (nd_input node) as [|a' [|b' [|]]] eqn:E; try done.
  apply bind_Some in H as (o & [Ht Ho]%single_output_Some & [= -> -> -> ->]). split; [done|]. by exists node.
Qed.

(** The seven nodes that [try_match_from_pow] accepts. *)
Inductive rms_norm_chain (pow_idx : nat) : RmsNormFusion → Prop :=
| rms_norm_chain_intro x two_name two e p i1 r1 m i2 a b eps_name eps bits q i3 r3 s i4 r4 c i5 a1 b1 y i6 a2 b2 w weight d out :
    node_is pow_idx "Pow" [x; two_name] p → weights !! two_name = Some two → wt_data two = [e] → not_two e = false →
    link "ReduceMean" p i1 (p :: r1) m →
    link "Add" m i2 [a; b] q → other_operand a b m = Some eps_name → weights !! eps_name = Some eps → wt_data eps = [bits] →
    link "Sqrt" q i3 (q :: r3) s → link "Reciprocal" s i4 (s :: r4) c →
    link "Mul" c i5 [a1; b1] y → x ∈ [a1; b1] → c ∈ [a1; b1] →
    link "Mul" y i6 [a2; b2] out → y ∈ [a2; b2] → find (λ name, negb (String.eqb name y)) [a2; b2] = Some w →
    weights !! w = Some weight → wt_shape weight = [d] →
    rms_norm_chain pow_idx (mkFusion pow_idx [i1; i2; i3; i4; i5; i6] x w out d (to_milli bits)).

Lemma try_match_chain pow_idx pow_node fusion : nodes !! pow_idx = Some pow_node → nd_op_type pow_node = "Pow"%string →
  try_match_from_pow pow_idx pow_node nodes weights = Some fusion → rms_norm_chain pow_idx fusion.
Proof.
  intros Hp Ht. unfold try_match_from_pow. destruct (nd_input pow_node) as [|x [|two_name [|]]] eqn:Ei; try done.
  destruct (nd_output pow_node) as [|p [|]] eqn:Eo; try done. intros (two & Htwo & H)%bind_Some. destruct (wt_data two) as [|e [|]] eqn:Ee; try done.
  destruct (not_two e) eqn:En; [done|]. apply bind_Some in H as ([i1 m] & [r1 H1]%next_unary_link & H).
  apply bind_Some in H as ([[[i2 a] b] q] & H2%next_binary_link & H). apply bind_Some in H as (eps_name & Ho & H).
  apply bind_Some in H as (eps & Heps & H). destruct (wt_data eps) as [|bits [|]] eqn:Eb; try done.
  apply bind_Some in H as ([i3 s] & [r3 H3]%next_unary_link & H). apply bind_Some in H as ([i4 c] & [r4 H4]%next_unary_link & H).
  apply bind_Some in H as ([[[i5 a1] b1] y] & H5%next_binary_link & H).
  destruct (bool_decide (x ∈ _)) eqn:Hx; [|done]. destruct (bool_decide (c ∈ _)) eqn:Hc; [|done]. cbn [negb orb] in H.
  apply bind_Some in H as ([[[i6 a2] b2] out] & H6%next_binary_link & H). destruct (bool_decide (y ∈ _)) eqn:Hy; [|done]. cbn [negb] in H.
  apply bind_Some in H as (w & Hw & H). apply bind_Some in H as (weight & Hwt & H). destruct (wt_shape weight) as [|d [|]] eqn:Ed; try done.
  injection H as <-. apply bool_decide_eq_true in Hx, Hc, Hy.
  apply (rms_norm_chain_intro _ x two_name two e p i1 r1 m i2 a b eps_name eps bits q i3 r3 s i4 r4 c i5 a1 b1 y i6 a2 b2 w weight d out); try done.
  by exists pow_node.
Qed.
Lemma detect_chain fusion : fusion ∈ detect_rms_norm_fusions nodes weights → rms_norm_chain (pow_node_idx fusion) fusion.
Proof.
  unfold detect_rms_norm_fusions. intros ([j node] & (i & node' & [= -> ->] & Hi)%elem_of_lookup_imap & H)%list_elem_of_omap.
  destruct (String.eqb_spec (nd_op_type node') "Pow") as [Ht|]; [|done]. pose proof (try_match_chain _ _ _ Hi Ht H) as Hc.
  assert (pow_node_idx fusion = i) as -> by (by inversion Hc). done.
Qed.

(** Which operand is which. *)
Lemma operands_mul1 i5 x c a1 b1 y pow_idx two_name p : node_is pow_idx "Pow" [x; two_name] p → link "Mul" c i5 [a1; b1] y →
  x ∈ [a1; b1] → c ∈ [a1; b1] → (a1 = x ∧ b1 = c) ∨ (a1 = c ∧ b1 = x).
Proof.
  intros (pn & Hp & Hpt & Hpi & _) (Hs & n5 & H5 & H5t & _) Hx Hc. assert (x ≠ c) as Hne.
  { intros ->. assert (pow_idx = i5) as -> by (eapply sole_consumer_only; [done|done|]; rewrite Hpi; by left). congruence. }
  rewrite elem_of_cons, list_elem_of_singleton in Hx, Hc. naive_solver.
Qed.
Lemma operands_mul2 a2 b2 y w : y ∈ [a2; b2] → find (λ name, negb (String.eqb name y)) [a2; b2] = Some w →
  w ≠ y ∧ ((a2 = y ∧ b2 = w) ∨ (a2 = w ∧ b2 = y)).
Proof.
  rewrite elem_of_cons, list_elem_of_singleton. cbn. destruct (String.eqb_spec a2 y) as [->|]; cbn; [destruct (String.eqb_spec b2 y); cbn; naive_solver|].
  naive_solver.
Qed.
Lemma operands_add a b m eps_name : other_operand a b m = Some eps_name → (a = m ∧ b = eps_name) ∨ (a = eps_name ∧ b = m).
Proof. unfold other_operand. destruct (String.eqb_spec a m), (String.eqb_spec b m); naive_solver. Qed.
End Chains.

(** ** What one node maps to *)

Section Mapping.
Context (node : NodeProto) (shapes : Shapes).

Definition instruction_of (op : MappedOp) : Prop := ∃ instruction, op = instruction_op node instruction.

Lemma map_softmax_op op : map_softmax node shapes = Ok op → instruction_of op.
Proof. intros H. repeat apply result_bind_Ok in H as (? & _ & H). injection H as <-. by eexists. Qed.
Lemma map_layer_norm_op op : map_layer_norm node shapes = Ok op → instruction_of op.
Proof. intros H. repeat apply result_bind_Ok in H as (? & _ & H). injection H as <-. by eexists. Qed.
Lemma map_reduce_mean_op op : map_reduce_mean node shapes = Ok op → instruction_of op.
Proof.
  unfold map_reduce_mean. destruct (default [] _) as [|axis [|]]; try done. intros H. repeat apply result_bind_Ok in H as (? & _ & H).
  injection H as <-. by eexists.
Qed.
Lemma map_gather_op op : map_gather node shapes = Some (Ok op) → instruction_of op.
Proof.
  unfold map_gather. destruct (result_bind _ _) as [[name shape]|e]; [|done]. destruct shape as [|t [|d l]]; try done.
  intros (e & _ & [= <-])%bind_Some. by eexists.
Qed.
Lemma map_matmul_op trans_a trans_b batch op : map_matmul_or_gemm node shapes trans_a trans_b batch = Some (Ok op) → instruction_of op.
Proof.
  unfold map_matmul_or_gemm. destruct (result_bind _ _) as [[a b]|e]; [|done]. intros ([m k] & _ & ([k' n] & _ & H)%bind_Some)%bind_Some.
  destruct (k =? k'); [|done]. injection H as <-. by eexists.
Qed.

Lemma map_node_op op : map_node node shapes = Some (Ok op) →
  instruction_of op ∨ (op = metadata_op node ∧ is_metadata (nd_op_type node) = true).
Proof.
  unfold map_node. destruct (String.eqb _ "MatMul"); [intros ?%map_matmul_op; by left|].
  destruct (String.eqb _ "Gemm"); [intros ?%map_matmul_op; by left|]. destruct (String.eqb _ "Gather"); [intros ?%map_gather_op; by left|].
  intros [= H]. repeat (match type of H with (if ?b then _ else _) = _ => destruct b eqn:? end; [|try done]).
  all: try (injection H as <-); eauto using map_softmax_op, map_layer_norm_op, map_reduce_mean_op.
  all: left; by eexists.
Qed.

(** The only panic is the product of the dimensions of a table to look up in. *)
Definition gather_overflows : Prop :=
  nd_op_type node = "Gather"%string ∧ ∃ name shape, nd_input node !! 0 = Some name ∧ shapes !! name = Some shape ∧ usize_product 1 (tail shape) = None.

Lemma last_two_dims_Some shape transposed : 2 ≤ length shape → ∃ dims, last_two_dims shape transposed = Some dims.
Proof.
  intros Hl. unfold last_two_dims. rewrite (proj2 (Nat.ltb_ge _ _)) by done.
  destruct (lookup_lt_is_Some_2 shape (length shape - 2)) as [d0 ->]; [lia|]. destruct (lookup_lt_is_Some_2 shape (length shape - 1)) as [d1 ->]; [lia|].
  by eexists.
Qed.
Lemma map_matmul_Some trans_a trans_b batch : ∃ r, map_matmul_or_gemm node shapes trans_a trans_b batch = Some r.
Proof.
  unfold map_matmul_or_gemm. destruct (result_bind _ _) as [[a b]|e] eqn:E; [|by eexists].
  do 4 (apply result_bind_Ok in E as (? & _ & E)). destruct (Nat.ltb_spec (length x1) 2); [done|]. destruct (Nat.ltb_spec (length x2) 2); [done|].
  do 2 (destruct (_ && _); [done|]). injection E as -> ->.
  destruct (last_two_dims_Some a trans_a) as [[m k] ->]; [done|]. destruct (last_two_dims_Some b trans_b) as [[k' n] ->]; [done|]. by eexists.
Qed.
Lemma map_node_None : map_node node shapes = None → gather_overflows.
Proof.
  unfold map_node. destruct (String.eqb _ "MatMul"); [by destruct (map_matmul_Some false false true) as [? ->]|].
  destruct (String.eqb _ "Gemm"); [by match goal with |- map_matmul_or_gemm _ _ ?a ?b ?c = _ → _ => destruct (map_matmul_Some a b c) as [? ->] end|].
  destruct (String.eqb_spec (nd_op_type node) "Gather") as [Ht|]; [|done]. unfold map_gather. intros H. split; [done|].
  destruct (result_bind _ _) as [[name shape]|e] eqn:E; [|done]. apply result_bind_Ok in E as (n & Hn%ok_or_Ok & E).
  apply result_bind_Ok in E as (s & Hs%ok_or_Ok & [= -> ->]). exists name, shape. split; [done|]. split; [done|].
  destruct shape as [|t [|d l]]; try done. cbn [tail]. by destruct (usize_product 1 (d :: l)).
Qed.
End Mapping.

(** ** The first registers *)

Lemma self_registers {A} (key : A → string) (register : string → Register) (l : list A) (m : Registers) name :
  foldl (λ m a, <[key a := register (key a)]> m) m l !! name = if bool_decide (name ∈ key <$> l) then Some (register name) else m !! name.
Proof.
  induction l as [|a l IH] using rev_ind; [done|]. rewrite foldl_app. cbn [foldl]. rewrite fmap_app. cbn [fmap list_fmap]. destruct (decide (name = key a)) as [->|Hne].
  - rewrite lookup_insert_eq, bool_decide_eq_true_2; [done|]. apply elem_of_app. right. by left.
  - rewrite lookup_insert_ne, IH by done. apply (f_equal (λ b : bool, if b then _ else _)), bool_decide_ext.
    rewrite elem_of_app, list_elem_of_singleton. naive_solver.
Qed.
Lemma collect_map_dom {A} (l : list (string * A)) name : is_Some (collect_map l !! name) ↔ name ∈ l.*1.
Proof.
  unfold collect_map. induction l as [|[k a] l IH] using rev_ind.
  - cbn [foldl fmap list_fmap]. rewrite lookup_empty. split; [by intros []|by intros ?%elem_of_nil].
  - rewrite foldl_app, fmap_app. cbn [foldl fmap list_fmap fst]. rewrite elem_of_app, list_elem_of_singleton, lookup_insert_is_Some'. cbn. rewrite <- IH. naive_solver.
Qed.
Lemma extract_initializers_dom graph weights name : extract_initializers graph = Ok weights →
  is_Some (weights !! name) ↔ name ∈ tp_name <$> gr_initializer graph.
Proof.
  intros (pairs & Hp%result_mapM_Ok & [= <-])%result_bind_Ok. rewrite collect_map_dom.
  assert (pairs.*1 = tp_name <$> gr_initializer graph) as ->; [|done].
  induction Hp as [|t p ts ps (w & _ & [= <-])%result_bind_Ok _ IH]; [done|]. cbn. by rewrite IH.
Qed.
Lemma initial_registers_lookup graph name : initial_registers graph !! name =
  if bool_decide (name ∈ tp_name <$> gr_initializer graph) then Some (Weight name)
  else if bool_decide (name ∈ vi_name <$> gr_input graph) then Some (GraphInput name) else None.
Proof. unfold initial_registers. by rewrite (self_registers tp_name Weight), (self_registers vi_name GraphInput). Qed.
Lemma initial_lookup graph weights name register : extract_initializers graph = Ok weights → initial_registers graph !! name = Some register →
  (is_Some (weights !! name) ∧ register = Weight name) ∨ (weights !! name = None ∧ name ∈ vi_name <$> gr_input graph ∧ register = GraphInput name).
Proof.
  intros Hw. rewrite initial_registers_lookup. pose proof (extract_initializers_dom _ _ name Hw) as Hdom.
  case_bool_decide; [intros [= <-]; left; split; [by apply Hdom|done]|]. case_bool_decide; [|done]. intros [= <-]. right.
  split; [|done]. apply eq_None_not_Some. by rewrite Hdom.
Qed.

Ltac by_member := repeat (first [by left | right]).

(** ** Numbers and tensors *)

(** What ONNX's operators and the instructions make of numbers is not under
    [src/]: [s_lit] is an [f32] by its bits, [s_milli] a number of thousandths,
    [s_softmax] and [s_layer_norm] what they make of one row, the latter with its
    epsilon, scale and bias. *)
Class Scalars (R : Type) := {
  s_zero : R;
  s_add : R → R → R;
  s_mul : R → R → R;
  s_pow : R → R → R;
  s_sqrt : R → R;
  s_recip : R → R;
  s_relu : R → R;
  s_gelu : R → R;
  s_mean : list R → R;
  s_softmax : list R → list R;
  s_layer_norm : R → list (list R) → list R → list R;
  s_index : R → nat;
  s_axis : R → Z;
  s_lit : Z → R;
  s_milli : Z → R
}.
(** All that is asked of the numbers; [1073741824] is 2.0. *)
Class ScalarLaws (R : Type) `{Scalars R} := {
  s_add_comm v w : s_add v w = s_add w v;
  s_mul_comm v w : s_mul v w = s_mul w v;
  s_square v : s_pow v (s_lit 1073741824) = s_mul v v
}.

Definition size_of (dims : list nat) : nat := foldr Nat.mul 1 dims.

Lemma size_of_cons d l : size_of (d :: l) = d * size_of l.
Proof. done. Qed.
Lemma size_of_nil : size_of [] = 1.
Proof. done. Qed.
#[local] Arguments size_of : simpl never.
Lemma size_of_app l l' : size_of (l ++ l') = size_of l * size_of l'.
Proof. induction l as [|d l IH]; cbn [app]; rewrite ?size_of_cons, ?size_of_nil; [lia|]. rewrite IH. lia. Qed.
Lemma size_of_snoc l d : size_of (l ++ [d]) = d * size_of l.
Proof. rewrite size_of_app, size_of_cons, size_of_nil. lia. Qed.
Lemma size_of_rev l : size_of (rev l) = size_of l.
Proof. induction l as [|d l IH]; [done|]. cbn [rev]. by rewrite size_of_snoc, IH. Qed.
Lemma size_of_pos l : 0 ∉ l → 0 < size_of l.
Proof.
  induction l as [|d l IH]; [by rewrite size_of_nil; lia|]. intros [Hd Hl]%not_elem_of_cons. specialize (IH Hl). rewrite size_of_cons. nia.
Qed.

Lemma size_of_matrices batch m n : size_of (batch ++ [m; n]) = size_of batch * (m * n).
Proof. rewrite size_of_app, !size_of_cons, size_of_nil. lia. Qed.

(** *** Broadcasting, on dimensions innermost first *)

Fixpoint stretch (da db : list nat) : option (list nat) :=
  match da, db with
  | [], d => Some d
  | d, [] => Some d
  | a :: da, b :: db =>
      d ← (if a =? b then Some a else if a =? 1 then Some b else if b =? 1 then Some a else None);
      rest ← stretch da db; Some (d :: rest)
  end.
(** Where the element of a stretched tensor comes from, both in row-major order. *)
Fixpoint place (from to : list nat) (i : nat) : nat :=
  match from, to with
  | d :: from, o :: to => (if d =? 1 then 0 else i mod o) + d * place from to (i / o)
  | _, _ => 0
  end.

Lemma stretch_nil_r d : stretch d [] = Some d.
Proof. by destruct d. Qed.
Lemma stretch_prefix_l d rest : stretch d (d ++ rest) = Some (d ++ rest).
Proof. induction d as [|x d IH]; [done|]. simpl. rewrite Nat.eqb_refl. simpl. by rewrite IH. Qed.
Lemma stretch_prefix_r d rest : stretch (d ++ rest) d = Some (d ++ rest).
Proof. induction d as [|x d IH]; [by rewrite stretch_nil_r|]. simpl. rewrite Nat.eqb_refl. simpl. by rewrite IH. Qed.
Lemma place_prefix d rest i : place d (d ++ rest) i = i mod size_of d.
Proof.
  revert i. induction d as [|x d IH]; intros i; [by rewrite size_of_nil, Nat.mod_1_r|]. cbn [place app]. rewrite IH.
  rewrite size_of_cons. destruct (Nat.eqb_spec x 1) as [->|].
  - by rewrite Nat.div_1_r, Nat.add_0_l, !Nat.mul_1_l.
  - by rewrite Nat.Div0.mod_mul_r.
Qed.
Lemma place_id d i : i < size_of d → place d d i = i.
Proof. intros Hi. rewrite <-(app_nil_r d) at 2. rewrite place_prefix. by apply Nat.mod_small. Qed.
Lemma place_row x d i : i < x * size_of d → place (1 :: d) (x :: d) i = i / x.
Proof.
  intros Hi. cbn [place]. rewrite Nat.eqb_refl, Nat.mul_1_l, Nat.add_0_l. apply place_id.
  apply Nat.Div0.div_lt_upper_bound. lia.
Qed.
Lemma place_scalar d to i : d = [] ∨ d = [1] → place d to i = 0.
Proof. intros [->| ->]; [done|]. destruct to; [done|]. simpl. done. Qed.
Lemma stretch_scalar d from : d = [] ∨ d = [1] → from ≠ [] → stretch from d = Some from ∧ stretch d from = Some from.
Proof.
  intros [->| ->] Hf; [by rewrite stretch_nil_r|]. destruct from as [|x from]; [done|]. simpl. rewrite stretch_nil_r.
  destruct (Nat.eqb_spec x 1) as [->|]; [done|]. simpl. destruct x as [|[|]]; done.
Qed.
Lemma stretch_row x d : stretch (x :: d) (1 :: d) = Some (x :: d) ∧ stretch (1 :: d) (x :: d) = Some (x :: d).
Proof.
  pose proof (stretch_prefix_l d []) as H. rewrite app_nil_r in H. simpl. rewrite H.
  destruct (Nat.eqb_spec x 1) as [->|]; [done|]. destruct x as [|[|]]; done.
Qed.

(** *** Tensors *)

(** A tensor's dimensions, and its elements in row-major order. *)
Record NdArray (R : Type) := mkNdArray { td : list nat; tv : list R }.
Arguments mkNdArray {R} _ _.
Arguments td {R} _.
Arguments tv {R} _.
Definition sized {R} (t : NdArray R) : Prop := length (tv t) = size_of (td t).

Section Tensors.
Context {R : Type} `{Scalars R}.

Definition element (l : list R) (i : nat) : R := default s_zero (l !! i).
Definition row (width : nat) (l : list R) (r : nat) : list R := take width (drop (r * width) l).
(** Every row of a tensor replaced by what the function makes of it. *)
Definition rowwise (width : nat) (f : list R → list R) (l : list R) : list R :=
  (λ i, element (f (row width l (i / width))) (i mod width)) <$> seq 0 (length l).
(** A number for every row. *)
Definition row_means (width : nat) (l : list R) : list R := (λ r, s_mean (row width l r)) <$> seq 0 (length l / width).

Definition broadcast (f : R → R → R) (a b : NdArray R) : option (NdArray R) :=
  out ← stretch (rev (td a)) (rev (td b));
  Some (mkNdArray (rev out)
    ((λ i, f (element (tv a) (place (rev (td a)) out i)) (element (tv b) (place (rev (td b)) out i))) <$> seq 0 (size_of out))).

(** Products of matrices, one for each index of the batch. *)
Definition matmul (batch m n k : nat) (a b : nat → nat → nat → R) : list R :=
  β ← seq 0 batch; i ← seq 0 m; j ← seq 0 n; [foldr s_add s_zero ((λ l, s_mul (a β i l) (b β l j)) <$> seq 0 k)].

(** *** Instructions *)

(** The shorter operand is repeated. *)
Definition cyclic (f : R → R → R) (a b : list R) : option (list R) :=
  let n := length a `max` length b in
  if (0 <? length a) && (0 <? length b) && (n mod length a =? 0) && (n mod length b =? 0)
  then Some ((λ i, f (element a (i mod length a)) (element b (i mod length b))) <$> seq 0 n) else None.

Definition rms_row (epsilon : R) (weight row : list R) : list R :=
  let scale := s_recip (s_sqrt (s_add (s_mean ((λ v, s_mul v v) <$> row)) epsilon)) in
  zip_with s_mul ((λ v, s_mul v scale) <$> row) weight.

(** What an instruction makes of its registers, which hold no dimensions; a batch
    is one matrix after the other, and a transposed operand is stored as it was. *)
Definition sem (instruction : Instruction) (vs : list (list R)) : option (list R) :=
  match instruction, vs with
  | DotGeneral m n k batch_dims trans_a trans_b, [a; b] =>
      let batch := size_of batch_dims in
      if (length a =? batch * (m * k)) && (length b =? batch * (k * n))
      then Some (matmul batch m n k
        (λ β i l, element a (β * (m * k) + if trans_a then l * m + i else i * k + l))
        (λ β l j, element b (β * (k * n) + if trans_b then j * k + l else l * n + j))) else None
  | Softmax width, [a] => Some (rowwise width s_softmax a)
  | Gelu, [a] => Some (s_gelu <$> a)
  | LayerNorm width milli, a :: params => Some (rowwise width (s_layer_norm (s_milli milli) params) a)
  | RmsNorm width milli, [a; weight] => Some (rowwise width (rms_row (s_milli milli) weight) a)
  | Eltwise Add, [a; b] => cyclic s_add a b
  | Eltwise Mul, [a; b] => cyclic s_mul a b
  | Eltwise Relu, [a] => Some (s_relu <$> a)
  | EmbedLookup _ width, [table; indices] => Some (indices ≫= λ index, row width table (s_index index))
  | _, _ => None
  end.

(** *** Nodes *)

Section Nodes.
Context (epsilon : Z → R).

(** The axis of an attribute is the last. *)
Definition last_axis (axis : Z) (rank : nat) : Prop := (axis = -1 ∨ axis = Z.of_nat rank - 1)%Z.

(** What ONNX says of a node with one output, by its type: its inputs, and the
    output.  Only the cases given are; a norm's epsilon, an attribute, is read by
    [epsilon]. *)
Inductive onnx (node : NodeProto) : list (NdArray R) → NdArray R → Prop :=
| onnx_matmul batch m n k a b out :
    nd_op_type node = "MatMul"%string → td a = batch ++ [m; k] → td b = batch ++ [k; n] → td out = batch ++ [m; n] →
    tv out = matmul (size_of batch) m n k (λ β i l, element (tv a) ((β * m + i) * k + l)) (λ β l j, element (tv b) ((β * k + l) * n + j)) →
    onnx node [a; b] out
| onnx_gemm (trans_a trans_b : bool) m n k a b out :
    nd_op_type node = "Gemm"%string → attr_f32 node "alpha" 1065353216 = 1065353216%Z →
    (attr_i64 node "transA" 0 =? 0)%Z = negb trans_a → (attr_i64 node "transB" 0 =? 0)%Z = negb trans_b →
    td a = (if trans_a then [k; m] else [m; k]) → td b = (if trans_b then [n; k] else [k; n]) → td out = [m; n] →
    tv out = matmul 1 m n k (λ _ i l, element (tv a) (if trans_a then l * m + i else i * k + l))
      (λ _ l j, element (tv b) (if trans_b then j * k + l else l * n + j)) →
    onnx node [a; b] out
| onnx_add a b out : nd_op_type node = "Add"%string → broadcast s_add a b = Some out → onnx node [a; b] out
| onnx_mul a b out : nd_op_type node = "Mul"%string → broadcast s_mul a b = Some out → onnx node [a; b] out
| onnx_pow a b out : nd_op_type node = "Pow"%string → broadcast s_pow a b = Some out → onnx node [a; b] out
| onnx_sqrt a out : nd_op_type node = "Sqrt"%string → td out = td a → tv out = s_sqrt <$> tv a → onnx node [a] out
| onnx_reciprocal a out : nd_op_type node = "Reciprocal"%string → td out = td a → tv out = s_recip <$> tv a → onnx node [a] out
| onnx_relu a out : nd_op_type node = "Relu"%string → td out = td a → tv out = s_relu <$> tv a → onnx node [a] out
| onnx_gelu a out : nd_op_type node = "Gelu"%string → td out = td a → tv out = s_gelu <$> tv a → onnx node [a] out
| onnx_softmax lead width a out :
    nd_op_type node = "Softmax"%string → td a = lead ++ [width] → last_axis (attr_i64 node "axis" (-1)) (length (td a)) →
    td out = td a → tv out = rowwise width s_softmax (tv a) → onnx node [a] out
| onnx_layer_norm lead width a params out :
    nd_op_type node = "LayerNormalization"%string → td a = lead ++ [width] →
    last_axis (attr_i64 node "axis" (-1)) (length (td a)) → td out = td a →
    tv out = rowwise width (s_layer_norm (epsilon (attr_f32 node "epsilon" DEFAULT_EPSILON)) (tv <$> params)) (tv a) →
    onnx node (a :: params) out
| onnx_reduce_mean lead width a axes out :
    nd_op_type node = "ReduceMean"%string → td a = lead ++ [width] → attr_i64 node "keepdims" 1 ≠ 0%Z →
    (∃ axis, last_axis axis (length (td a)) ∧
      (attr_ints node "axes" = Some [axis] ∧ axes = [] ∨ ∃ t v, axes = [t] ∧ tv t = [v] ∧ s_axis v = axis)) →
    td out = lead ++ [1] → tv out = row_means width (tv a) → onnx node (a :: axes) out
| onnx_gather rows dims a indices out :
    nd_op_type node = "Gather"%string → attr_i64 node "axis" 0 = 0%Z → td a = rows :: dims → td out = td indices ++ dims →
    tv out = (tv indices ≫= λ index, row (size_of dims) (tv a) (s_index index)) → onnx node [a; indices] out
| onnx_reshape a rest out :
    nd_op_type node ∈ ["Reshape"; "Squeeze"; "Unsqueeze"]%string → size_of (td out) = size_of (td a) → tv out = tv a →
    onnx node (a :: rest) out.
End Nodes.

(** *** Where the two agree *)

(** The elements of one repeat along the other. *)
Definition compatible (da db : list nat) : Prop :=
  0 ∉ da ∧ 0 ∉ db ∧ ((∃ lead, da = lead ++ db) ∨ (∃ lead, db = lead ++ da)).

Lemma cyclic_intro f a b n :
  0 < length a → 0 < length b → length a `max` length b = n → n mod length a = 0 → n mod length b = 0 →
  cyclic f a b = Some ((λ i, f (element a (i mod length a)) (element b (i mod length b))) <$> seq 0 n).
Proof.
  intros Ha Hb <- Hna Hnb. unfold cyclic. apply Nat.ltb_lt in Ha, Hb. by rewrite Ha, Hb, Hna, Hnb.
Qed.
Lemma broadcast_cyclic f a b out :
  sized a → sized b → compatible (td a) (td b) → broadcast f a b = Some out → cyclic f (tv a) (tv b) = Some (tv out).
Proof.
  unfold sized, broadcast. intros Ha Hb (Za & Zb & Hc) (o & Ho & [= <-])%bind_Some. cbn [tv].
  apply size_of_pos in Za, Zb.
  assert (∃ n, o = n ∧ (∃ ra rb, n = rev (td a) ++ ra ∧ n = rev (td b) ++ rb ∧ (ra = [] ∨ rb = []))) as (n & <- & ra & rb & Ea & Eb & Hr).
  { exists o. split; [done|]. destruct Hc as [[lead E]|[lead E]]; rewrite E, rev_app_distr in Ho.
    - rewrite stretch_prefix_r in Ho. injection Ho as <-. exists [], (rev lead). rewrite E, rev_app_distr, app_nil_r. auto.
    - rewrite stretch_prefix_l in Ho. injection Ho as <-. exists (rev lead), []. rewrite E, rev_app_distr, app_nil_r. auto. }
  assert (size_of o = size_of (td a) * size_of ra) as Sa by (by rewrite Ea, size_of_app, size_of_rev).
  assert (size_of o = size_of (td b) * size_of rb) as Sb by (by rewrite Eb, size_of_app, size_of_rev).
  rewrite (cyclic_intro _ _ _ (size_of o)); rewrite ?Ha, ?Hb; try done.
  - f_equal. apply list_fmap_ext. intros i x _. rewrite Ea at 1. rewrite Eb at 1. by rewrite !place_prefix, !size_of_rev.
  - destruct Hr as [->| ->]; rewrite size_of_nil in *; [destruct (size_of rb)|destruct (size_of ra)]; nia.
  - rewrite Sa, Nat.mul_comm. apply Nat.Div0.mod_mul.
  - rewrite Sb, Nat.mul_comm. apply Nat.Div0.mod_mul.
Qed.

(** The chain of nodes computes the norm of every row. *)
Lemma element_lookup l i v : l !! i = Some v → element l i = v.
Proof. unfold element. by intros ->. Qed.
Lemma element_tabulate (f : nat → R) n i : i < n → element (f <$> seq 0 n) i = f i.
Proof. intros Hi. apply element_lookup. rewrite list_lookup_fmap, lookup_seq_lt by done. done. Qed.
Lemma element_map (f : R → R) l i : i < length l → element (f <$> l) i = f (element l i).
Proof.
  intros Hi. destruct (lookup_lt_is_Some_2 l i Hi) as [v Hv]. rewrite (element_lookup l i v Hv). apply element_lookup.
  by rewrite list_lookup_fmap, Hv.
Qed.
Lemma row_map (f : R → R) width l r : row width (f <$> l) r = f <$> row width l r.
Proof. unfold row. by rewrite fmap_take, fmap_drop. Qed.
Lemma row_lookup width l r j : j < width → row width l r !! j = l !! (r * width + j).
Proof. intros Hj. unfold row. by rewrite lookup_take_lt, lookup_drop by done. Qed.

Lemma rms_rows width epsilon x weight n : length weight = width → length x = width * n →
  (λ i, s_mul (s_mul (element x i) (element (s_recip <$> (s_sqrt <$> ((λ v, s_add v epsilon) <$> row_means width ((λ v, s_mul v v) <$> x)))) (i / width)))
      (element weight (i mod width))) <$> seq 0 (length x)
  = rowwise width (rms_row epsilon weight) x.
Proof.
  intros Hl Hx. apply list_fmap_ext. intros j i Hj. apply lookup_seq in Hj as [-> Hj]. simpl.
  assert (0 < width) as Hw by nia. assert (length x / width = n) as En by (rewrite Hx, Nat.mul_comm; apply Nat.div_mul; lia).
  assert (j / width < length x / width) as Hr by (rewrite En; apply Nat.Div0.div_lt_upper_bound; lia).
  unfold row_means. rewrite !length_fmap. rewrite <-!list_fmap_compose. rewrite element_tabulate by done. simpl.
  assert (j mod width < width) as Hm by (apply Nat.mod_upper_bound; lia).
  destruct (lookup_lt_is_Some_2 x j Hj) as [v Hv]. destruct (lookup_lt_is_Some_2 weight (j mod width)) as [u Hu]; [lia|].
  rewrite (element_lookup _ _ _ Hv), (element_lookup _ _ _ Hu). symmetry. apply element_lookup.
  unfold rms_row. rewrite lookup_zip_with, list_lookup_fmap, row_lookup by done.
  rewrite Nat.mul_comm, <-Nat.div_mod_eq, Hv. simpl. rewrite Hu. simpl. by rewrite row_map.
Qed.

Lemma stretch_comm da db : stretch da db = stretch db da.
Proof using Type.
  revert db. induction da as [|a da IH]; intros [|b db]; try done. simpl. rewrite (IH db), (Nat.eqb_sym b a).
  destruct (Nat.eqb_spec a b) as [->|]; [done|]. destruct (Nat.eqb_spec a 1), (Nat.eqb_spec b 1); try done. congruence.
Qed.
Lemma broadcast_comm f a b : (∀ v w, f v w = f w v) → broadcast f a b = broadcast f b a.
Proof using Type.
  intros Hf. unfold broadcast. rewrite stretch_comm. destruct (stretch _ _) as [out|]; [|done]. simpl. do 2 f_equal.
  apply list_fmap_ext. intros i x _. apply Hf.
Qed.

(** Along a tensor with rows: a number, a number for every row, and a row. *)
Section Along.
Context (f : R → R → R) (lead : list nat) (width : nat) (a b out : NdArray R).
Context (Ha : td a = lead ++ [width]) (Hsize : sized a) (Hout : broadcast f a b = Some out).

Lemma along_out : stretch (rev (td a)) (rev (td b)) = Some (rev (td a)) →
  td out = td a ∧ tv out = (λ i, f (element (tv a) i) (element (tv b) (place (rev (td b)) (rev (td a)) i))) <$> seq 0 (length (tv a)).
Proof using Hsize Hout.
  intros E. unfold broadcast in Hout. rewrite E in Hout. simpl in Hout. injection Hout as <-. simpl.
  rewrite rev_involutive. split; [done|]. rewrite size_of_rev, <-Hsize. apply list_fmap_ext. intros j i Hj.
  apply lookup_seq in Hj as [-> Hj]. simpl. rewrite place_id; [done|]. by rewrite size_of_rev, <-Hsize.
Qed.
Lemma along_number v : td b = [] ∨ td b = [1] → tv b = [v] → td out = td a ∧ tv out = (λ u, f u v) <$> tv a.
Proof using Ha Hsize Hout.
  intros Hb Hv. assert (rev (td b) = [] ∨ rev (td b) = [1]) as Hb' by (by destruct Hb as [->| ->]; [left|right]).
  destruct along_out as [Ht E].
  { apply (stretch_scalar _ (rev (td a)) Hb'). rewrite Ha, rev_app_distr. done. }
  split; [done|]. rewrite E, Hv. apply list_eq. intros i. rewrite !list_lookup_fmap. destruct (decide (i < length (tv a))) as [Hi|Hi].
  - rewrite lookup_seq_lt by done. destruct (lookup_lt_is_Some_2 _ _ Hi) as [u Hu]. rewrite Hu. simpl.
    by rewrite (element_lookup _ _ _ Hu), place_scalar.
  - rewrite lookup_seq_ge, lookup_ge_None_2 by lia. done.
Qed.
Lemma along_rows : td b = lead ++ [1] →
  td out = td a ∧ tv out = (λ i, f (element (tv a) i) (element (tv b) (i / width))) <$> seq 0 (length (tv a)).
Proof using Ha Hsize Hout.
  intros Hb. destruct along_out as [Ht E].
  { rewrite Ha, Hb, !rev_app_distr. apply stretch_row. }
  split; [done|]. rewrite E. apply list_fmap_ext. intros j i Hj. apply lookup_seq in Hj as [-> Hj]. simpl.
  rewrite Ha, Hb, !rev_app_distr. cbn [rev app]. rewrite place_row; [done|].
  by rewrite size_of_rev, <-size_of_snoc, <-Ha, <-Hsize.
Qed.
Lemma along_row : td b = [width] →
  td out = td a ∧ tv out = (λ i, f (element (tv a) i) (element (tv b) (i mod width))) <$> seq 0 (length (tv a)).
Proof using Ha Hsize Hout.
  intros Hb. destruct along_out as [Ht E].
  { rewrite Ha, Hb, rev_app_distr. apply (stretch_prefix_r [width]). }
  split; [done|]. rewrite E. apply list_fmap_ext. intros j i Hj. rewrite Ha, Hb, rev_app_distr. cbn [rev app].
  pose proof (place_prefix [width] (rev lead) i) as Hp. cbn [app] in Hp. rewrite Hp, size_of_cons, size_of_nil, Nat.mul_1_r. done.
Qed.
End Along.

(** One node that is mapped to an instruction. *)
Section Mapped.
Context (nodes : list NodeProto) (shapes : Shapes) (tensors : string → NdArray R) (epsilon : Z → R).
Context (Hshapes : ∀ name s, shapes !! name = Some s → td (tensors name) = s) (Hsized : ∀ name, sized (tensors name)).

Definition milli_epsilon (bits : Z) : R := s_milli (to_milli bits).

Lemma required_input node i name : required_input_name node i = Ok name → nd_input node !! i = Some name.
Proof using Type. apply ok_or_Ok. Qed.

Lemma map_matmul_Ok node trans_a trans_b batch instruction :
  map_matmul_or_gemm node shapes trans_a trans_b batch = Some (Ok (instruction_op node instruction)) →
  ∃ a b m n k, nd_input node !! 0 = Some a ∧ nd_input node !! 1 = Some b ∧
    last_two_dims (td (tensors a)) trans_a = Some (m, k) ∧ last_two_dims (td (tensors b)) trans_b = Some (k, n) ∧
    instruction = DotGeneral m n k (take (length (td (tensors a)) - 2) (td (tensors a))) trans_a trans_b.
Proof using Hshapes.
  unfold map_matmul_or_gemm. destruct (result_bind _ _) as [[sa sb]|e] eqn:E; [|done].
  apply result_bind_Ok in E as (a & Ha%required_input & E). apply result_bind_Ok in E as (b & Hb%required_input & E).
  apply result_bind_Ok in E as (sa' & Hsa%ok_or_Ok%Hshapes & E). apply result_bind_Ok in E as (sb' & Hsb%ok_or_Ok%Hshapes & E).
  repeat (match type of E with (if ?c then _ else _) = _ => destruct c; [done|] end). injection E as -> ->.
  intros ([m k] & Hma & ([k' n] & Hkb & Hop)%bind_Some)%bind_Some. destruct (Nat.eqb_spec k k') as [<-|]; [|done].
  injection Hop as <-. exists a, b, m, n, k. by rewrite Hsa, Hsb.
Qed.

Lemma axis_row node a lead width shape axis :
  last_axis axis (length shape) → shape = lead ++ [width] → resolve_axis (nd_op_type node) axis (Some shape) = Ok a →
  shape !! a = Some width.
Proof using Type.
  intros Hl ->. rewrite length_app in Hl. cbn [length] in Hl. unfold resolve_axis. cbn [fmap option_fmap option_map ok_or result_bind].
  rewrite length_app. cbn [length].
  assert (length lead = a → (lead ++ [width]) !! a = Some width) as Hw by (intros <-; by apply list_lookup_middle).
  destruct Hl as [->| ->].
  - cbn [Z.leb Z.compare]. destruct (Z.ltb_spec (Z.of_nat (length lead + 1) + -1) 0); [done|]. intros [= <-]. apply Hw. lia.
  - destruct (Z.leb_spec 0 (Z.of_nat (length lead + 1) - 1)); [|lia]. intros [= <-]. apply Hw. lia.
Qed.

Lemma usize_product_size acc dims p : usize_product acc dims = Some p → p = acc * size_of dims.
Proof using Type.
  revert acc. induction dims as [|d dims IH]; intros acc; cbn [usize_product]; [intros [= <-]; rewrite size_of_nil; lia|].
  destruct (_ <=? _)%Z; [|done]. intros ->%IH. rewrite size_of_cons. lia.
Qed.

Lemma bind_seq_ext {A} (f g : nat → list A) n : (∀ i, i < n → f i = g i) → seq 0 n ≫= f = seq 0 n ≫= g.
Proof using Type.
  induction n as [|n IH]; intros Hf; [done|]. rewrite seq_S, !bind_app, IH by (intros; apply Hf; lia). f_equal.
  cbn. rewrite Hf by lia. done.
Qed.
Lemma matmul_ext batch m n k a b a' b' :
  (∀ β i l, β < batch → a β i l = a' β i l) → (∀ β l j, β < batch → b β l j = b' β l j) →
  matmul batch m n k a b = matmul batch m n k a' b'.
Proof using Type.
  intros Ha Hb. unfold matmul. apply bind_seq_ext. intros β Hβ. do 2 (apply list_bind_ext; [intros ?|done]). do 2 f_equal.
  apply list_fmap_ext. intros. by rewrite Ha, Hb.
Qed.

(** What the types of the nodes select. *)
Ltac by_type Ht Hm :=
  unfold map_node in Hm; rewrite Ht in Hm; cbn [String.eqb Ascii.eqb Bool.eqb is_metadata existsb orb] in Hm.

(** The operands of a node with two inputs. *)
Lemma two_inputs node a b x y : tensors <$> nd_input node = [a; b] →
  nd_input node !! 0 = Some x → nd_input node !! 1 = Some y → tensors x = a ∧ tensors y = b.
Proof using Type. destruct (nd_input node) as [|x' [|y' [|]]]; intros E E0 E1; by simplify_eq/=. Qed.
Lemma first_input node a rest x : tensors <$> nd_input node = a :: rest → nd_input node !! 0 = Some x → tensors x = a.
Proof using Type. destruct (nd_input node); intros E E0; by simplify_eq/=. Qed.

Lemma last_two_snoc lead d0 d1 trans : last_two_dims (lead ++ [d0; d1]) trans = Some (if trans then (d1, d0) else (d0, d1)).
Proof using Type.
  unfold last_two_dims. rewrite length_app. cbn [length]. destruct (Nat.ltb_spec (length lead + 2) 2); [lia|].
  replace (length lead + 2 - 2) with (length lead) by lia. replace (length lead + 2 - 1) with (S (length lead)) by lia.
  rewrite (list_lookup_middle lead [d1] d0 (length lead)) by done. cbn [mbind option_bind].
  change [d0; d1] with ([d0] ++ [d1]). rewrite app_assoc, (list_lookup_middle (lead ++ [d0]) [] d1); [done|].
  rewrite length_app. simpl. lia.
Qed.

Lemma sem_dot m n k batch (trans_a trans_b : bool) (a b : list R) fa fb :
  length a = size_of batch * (m * k) → length b = size_of batch * (k * n) →
  (∀ β i l, β < size_of batch → element a (β * (m * k) + (if trans_a then l * m + i else i * k + l)) = fa β i l) →
  (∀ β l j, β < size_of batch → element b (β * (k * n) + (if trans_b then j * k + l else l * n + j)) = fb β l j) →
  sem (DotGeneral m n k batch trans_a trans_b) [a; b] = Some (matmul (size_of batch) m n k fa fb).
Proof using Type.
  intros Ha Hb Hfa Hfb. cbn [sem]. rewrite Ha, Hb, !Nat.eqb_refl. cbn [andb]. f_equal. by apply matmul_ext.
Qed.

Lemma mapped_matmul node batch m n k a b instruction :
  nd_op_type node = "MatMul"%string → tensors <$> nd_input node = [a; b] → td a = batch ++ [m; k] → td b = batch ++ [k; n] →
  map_node node shapes = Some (Ok (instruction_op node instruction)) →
  sem instruction [tv a; tv b] = Some (matmul (size_of batch) m n k
    (λ β i l, element (tv a) ((β * m + i) * k + l)) (λ β l j, element (tv b) ((β * k + l) * n + j))).
Proof using Hshapes Hsized.
  intros Ht Hins Ea Eb Hm. by_type Ht Hm.
  apply map_matmul_Ok in Hm as (x & y & m' & n' & k' & Hx & Hy & Dx & Dy & ->).
  destruct (two_inputs _ _ _ _ _ Hins Hx Hy) as [<- <-]. rewrite Ea, last_two_snoc in Dx. rewrite Eb, last_two_snoc in Dy.
  injection Dx as <- <-. injection Dy as <-. rewrite Ea, length_app. cbn [length].
  replace (length batch + 2 - 2) with (length batch) by lia. rewrite take_app_length.
  apply sem_dot; [by rewrite (Hsized x), Ea, size_of_matrices|by rewrite (Hsized y), Eb, size_of_matrices|intros; f_equal; lia..].
Qed.
Lemma mapped_gemm node (trans_a trans_b : bool) m n k a b instruction :
  nd_op_type node = "Gemm"%string → tensors <$> nd_input node = [a; b] →
  (attr_i64 node "transA" 0 =? 0)%Z = negb trans_a → (attr_i64 node "transB" 0 =? 0)%Z = negb trans_b →
  td a = (if trans_a then [k; m] else [m; k]) → td b = (if trans_b then [n; k] else [k; n]) →
  map_node node shapes = Some (Ok (instruction_op node instruction)) →
  sem instruction [tv a; tv b] = Some (matmul 1 m n k
    (λ _ i l, element (tv a) (if trans_a then l * m + i else i * k + l)) (λ _ l j, element (tv b) (if trans_b then j * k + l else l * n + j))).
Proof using Hshapes Hsized.
  intros Ht Hins Hta Htb Ea Eb Hm. by_type Ht Hm. rewrite Hta, Htb, !negb_involutive in Hm.
  apply map_matmul_Ok in Hm as (x & y & m' & n' & k' & Hx & Hy & Dx & Dy & ->).
  destruct (two_inputs _ _ _ _ _ Hins Hx Hy) as [<- <-]. rewrite Ea in Dx. rewrite Eb in Dy.
  assert (m' = m ∧ k' = k ∧ n' = n) as (-> & -> & ->) by (destruct trans_a, trans_b; vm_compute in Dx, Dy; naive_solver).
  assert (take (length (td (tensors x)) - 2) (td (tensors x)) = []) as -> by (rewrite Ea; by destruct trans_a).
  refine (sem_dot m n k [] trans_a trans_b (tv (tensors x)) (tv (tensors y)) _ _ _ _ _ _).
  - rewrite (Hsized x), Ea. destruct trans_a; rewrite !size_of_cons, !size_of_nil; lia.
  - rewrite (Hsized y), Eb. destruct trans_b; rewrite !size_of_cons, !size_of_nil; lia.
  - intros β i l Hβ. rewrite size_of_nil in Hβ. by replace β with 0 by lia.
  - intros β l j Hβ. rewrite size_of_nil in Hβ. by replace β with 0 by lia.
Qed.

Lemma mapped_softmax node lead width a instruction :
  nd_op_type node = "Softmax"%string → tensors <$> nd_input node = [a] → td a = lead ++ [width] →
  last_axis (attr_i64 node "axis" (-1)) (length (td a)) →
  map_node node shapes = Some (Ok (instruction_op node instruction)) → instruction = Softmax width.
Proof using Hshapes.
  intros Ht Hins Ea Hax Hm. by_type Ht Hm. injection Hm as Hm. unfold map_softmax in Hm.
  apply result_bind_Ok in Hm as (x & Hx%required_input & Hm). apply result_bind_Ok in Hm as (s & Hs%ok_or_Ok%Hshapes & Hm).
  apply result_bind_Ok in Hm as (i & Hi & Hm). apply result_bind_Ok in Hm as (d & Hd%ok_or_Ok & [= <-]).
  rewrite (first_input _ _ _ _ Hins Hx) in Hs. subst s. rewrite (axis_row _ _ _ _ _ _ Hax Ea Hi) in Hd. by injection Hd as <-.
Qed.
Lemma mapped_layer_norm node lead width a params instruction :
  nd_op_type node = "LayerNormalization"%string → tensors <$> nd_input node = a :: params → td a = lead ++ [width] →
  last_axis (attr_i64 node "axis" (-1)) (length (td a)) →
  map_node node shapes = Some (Ok (instruction_op node instruction)) →
  instruction = LayerNorm width (to_milli (attr_f32 node "epsilon" DEFAULT_EPSILON)).
Proof using Hshapes.
  intros Ht Hins Ea Hax Hm. by_type Ht Hm. injection Hm as Hm. unfold map_layer_norm in Hm.
  apply result_bind_Ok in Hm as (x & Hx%required_input & Hm). apply result_bind_Ok in Hm as (s & Hs%ok_or_Ok%Hshapes & Hm).
  apply result_bind_Ok in Hm as (i & Hi & Hm). apply result_bind_Ok in Hm as (d & Hd%ok_or_Ok & [= <-]).
  rewrite (first_input _ _ _ _ Hins Hx) in Hs. subst s. rewrite (axis_row _ _ _ _ _ _ Hax Ea Hi) in Hd. by injection Hd as <-.
Qed.
Lemma mapped_gather node rows dims a indices instruction :
  nd_op_type node = "Gather"%string → tensors <$> nd_input node = [a; indices] → td a = rows :: dims →
  map_node node shapes = Some (Ok (instruction_op node instruction)) → instruction = EmbedLookup rows (size_of dims).
Proof using Hshapes.
  intros Ht Hins Ea Hm. by_type Ht Hm. unfold map_gather in Hm. destruct (result_bind _ _) as [[x s]|e] eqn:E; [|done].
  apply result_bind_Ok in E as (x' & Hx%required_input & E). apply result_bind_Ok in E as (s' & Hs%ok_or_Ok%Hshapes & [= -> ->]).
  rewrite (first_input _ _ _ _ Hins Hx), Ea in Hs. subst s. destruct dims as [|d dims]; [done|].
  apply bind_Some in Hm as (e & He%usize_product_size & [= <-]). by rewrite He, Nat.mul_1_l.
Qed.

(** A node's instruction computes what the node does. *)
Lemma mapped_meaning node o instruction :
  onnx milli_epsilon node (tensors <$> nd_input node) (tensors o) →
  map_node node shapes = Some (Ok (instruction_op node instruction)) →
  (nd_op_type node ∈ ["Add"; "Mul"]%string → ∀ a b, nd_input node = [a; b] → compatible (td (tensors a)) (td (tensors b))) →
  nd_op_type node ≠ "ReduceMean"%string →
  sem instruction (tv <$> (tensors <$> nd_input node)) = Some (tv (tensors o)).
Proof using Hshapes Hsized.
  intros Hon Hm Hc Hr. remember (tensors <$> nd_input node) as ins eqn:Eins. remember (tensors o) as out eqn:Eo. symmetry in Eins.
  destruct Hon as [batch m n k a b out Ht Ea Eb _ ->|ta tb m n k a b out Ht _ Hta Htb Ea Eb _ ->|a b out Ht Hb|a b out Ht Hb|a b out Ht Hb
    |a out Ht _ _|a out Ht _ _|a out Ht _ ->|a out Ht _ ->|lead width a out Ht Ea Hax _ ->|lead width a params out Ht Ea Hax _ ->
    |lead width a axes out Ht|rows dims a indices out Ht _ Ea _ ->|a rest out Ht _ _].
  - by eapply mapped_matmul.
  - by eapply mapped_gemm.
  - by_type Ht Hm. injection Hm as <-. destruct (nd_input node) as [|x [|y [|]]] eqn:Ei; try done. injection Eins as <- <-.
    cbn [sem fmap list_fmap]. apply broadcast_cyclic; [done..| |done]. apply Hc; [rewrite Ht; by_member|done].
  - by_type Ht Hm. injection Hm as <-. destruct (nd_input node) as [|x [|y [|]]] eqn:Ei; try done. injection Eins as <- <-.
    cbn [sem fmap list_fmap]. apply broadcast_cyclic; [done..| |done]. apply Hc; [rewrite Ht; by_member|done].
  - by_type Ht Hm. done.
  - by_type Ht Hm. done.
  - by_type Ht Hm. done.
  - by_type Ht Hm. by injection Hm as <-.
  - by_type Ht Hm. by injection Hm as <-.
  - by rewrite (mapped_softmax _ _ _ _ _ Ht Eins Ea Hax Hm).
  - by rewrite (mapped_layer_norm _ _ _ _ _ _ Ht Eins Ea Hax Hm).
  - done.
  - by rewrite (mapped_gather _ _ _ _ _ _ Ht Eins Ea Hm).
  - exfalso. revert Hm. unfold map_node. rewrite !elem_of_cons, elem_of_nil in Ht. destruct Ht as [Ht|[Ht|[Ht|[]]]]; by rewrite Ht.
Qed.
End Mapped.
End Tensors.
(** ** What graphs and programs mean *)

Section Meaning.
Context {R : Type} `{Scalars R, !ScalarLaws R}.

(** The values of the tensors of a graph. *)
Section Values.
Context (graph : GraphProto) (weights : gmap string WeightTensor) (input : string → list R) (ρ : string → NdArray R).
#[local] Notation nodes := (gr_node graph).
#[local] Notation fusions := (detect_rms_norm_fusions nodes weights).

(** The [Add] of a recognized RMS norm, where its epsilon comes in. *)
Definition norm_add (i : nat) : Prop := ∃ fusion, fusion ∈ fusions ∧ consumed_node_indices fusion !! 1 = Some i.
(** The values with an epsilon in its place rounded to thousandths. *)
Definition rounded (name : string) (bits : Z) (other : string) : NdArray R :=
  if String.eqb other name then mkNdArray (td (ρ name)) [milli_epsilon bits] else ρ other.

(** An assignment that satisfies every node: of ONNX's meaning all but that
    epsilons are rounded to thousandths. *)
Record Solution : Prop := {
  so_sized name : sized (ρ name);
  so_shape name s : all_shapes graph weights !! name = Some s → td (ρ name) = s;
  so_input name : name ∈ vi_name <$> gr_input graph → weights !! name = None → tv (ρ name) = input name;
  so_weight name weight : weights !! name = Some weight → tv (ρ name) = s_lit <$> wt_data weight;
  so_node i node : nodes !! i = Some node →
    ∃ o, nd_output node = [o] ∧ (¬ norm_add i → onnx milli_epsilon node (ρ <$> nd_input node) (ρ o));
  so_norm fusion i j node mean mean_out name weight bits o :
    fusion ∈ fusions → consumed_node_indices fusion !! 0 = Some j → nodes !! j = Some mean → nd_output mean = [mean_out] →
    consumed_node_indices fusion !! 1 = Some i → nodes !! i = Some node → nd_output node = [o] →
    name ∈ nd_input node → name ≠ mean_out → weights !! name = Some weight → wt_data weight = [bits] →
    onnx milli_epsilon node (rounded name bits <$> nd_input node) (ρ o)
}.

(** Where the compiler is faithful to ONNX.  It does not check these things: that
    a recognized norm squares exactly, is over as many numbers as its weight has,
    and has single numbers for exponent and epsilon; that the operands of an
    [Add] or [Mul] repeat along each other; and that means occur in norms only. *)
Record Faithful : Prop := {
  fa_exponent fusion node x e weight : fusion ∈ fusions → nodes !! pow_node_idx fusion = Some node → nd_input node = [x; e] →
    weights !! e = Some weight → wt_data weight = [1073741824%Z] ∧ (wt_shape weight = [] ∨ wt_shape weight = [1]);
  fa_width fusion : fusion ∈ fusions → ∃ lead, td (ρ (input_name fusion)) = lead ++ [dim fusion];
  fa_epsilon fusion i node name weight : fusion ∈ fusions → consumed_node_indices fusion !! 1 = Some i → nodes !! i = Some node →
    name ∈ nd_input node → weights !! name = Some weight → wt_shape weight = [] ∨ wt_shape weight = [1];
  fa_eltwise i node a b : nodes !! i = Some node → nd_op_type node ∈ ["Add"; "Mul"]%string → (∀ fusion, fusion ∈ fusions → i ∉ consumed_node_indices fusion) →
    nd_input node = [a; b] → compatible (td (ρ a)) (td (ρ b));
  fa_mean i node : nodes !! i = Some node → nd_op_type node = "ReduceMean"%string → ∃ fusion, fusion ∈ fusions ∧ i ∈ consumed_node_indices fusion
}.
End Values.

(** Running a program: a register may name only what is there, and an instruction
    must have a meaning for what it is given. *)
Definition read (input : string → list R) (weights : gmap string WeightTensor) (values : list (list R)) (register : Register) : option (list R) :=
  match register with
  | GraphInput name => Some (input name)
  | Weight name => (λ weight, s_lit <$> wt_data weight) <$> weights !! name
  | Virtual index => values !! index
  end.
Definition execute (input : string → list R) (weights : gmap string WeightTensor) (values : list (list R)) (instruction : CompiledInstruction)
    : option (list (list R)) :=
  vs ← mapM (read input weights values) (ci_inputs instruction);
  v ← sem (ci_instruction instruction) vs;
  Some (values ++ [v]).
Definition run_program (program : CompiledProgram) (input : string → list R) : option (list (list R)) :=
  option_fold (execute input (cp_weights program)) [] (cp_instructions program).

(** *** One node, by its type *)

Ltac of_type Ht Hon :=
  inversion Hon; subst;
  try (exfalso; match goal with
    | Ho : nd_op_type _ = _ |- _ => rewrite Ht in Ho; discriminate Ho
    | Ho : nd_op_type _ ∈ _ |- _ => rewrite Ht, !elem_of_cons, elem_of_nil in Ho; naive_solver
    end).

Section Types.
Context (epsilon : Z → R) (node : NodeProto).
Lemma pow_inv a b out : nd_op_type node = "Pow"%string → onnx epsilon node [a; b] out → broadcast s_pow a b = Some out.
Proof using Type. intros Ht Hon. of_type Ht Hon. done. Qed.
Lemma add_inv a b out : nd_op_type node = "Add"%string → onnx epsilon node [a; b] out → broadcast s_add a b = Some out.
Proof using Type. intros Ht Hon. of_type Ht Hon. done. Qed.
Lemma mul_inv a b out : nd_op_type node = "Mul"%string → onnx epsilon node [a; b] out → broadcast s_mul a b = Some out.
Proof using Type. intros Ht Hon. of_type Ht Hon. done. Qed.
Lemma sqrt_inv a rest out : nd_op_type node = "Sqrt"%string → onnx epsilon node (a :: rest) out → td out = td a ∧ tv out = s_sqrt <$> tv a.
Proof using Type. intros Ht Hon. of_type Ht Hon. done. Qed.
Lemma reciprocal_inv a rest out : nd_op_type node = "Reciprocal"%string → onnx epsilon node (a :: rest) out →
  td out = td a ∧ tv out = s_recip <$> tv a.
Proof using Type. intros Ht Hon. of_type Ht Hon. done. Qed.
Lemma reduce_mean_inv lead width a rest out : nd_op_type node = "ReduceMean"%string → td a = lead ++ [width] → onnx epsilon node (a :: rest) out →
  td out = lead ++ [1] ∧ tv out = row_means width (tv a).
Proof using Type.
  intros Ht Ha Hon. of_type Ht Hon. match goal with E : td a = _ ++ [_] |- _ => rewrite Ha in E; apply app_inj_tail in E as [<- <-] end. done.
Qed.
Lemma metadata_inv ins out : is_metadata (nd_op_type node) = true → onnx epsilon node ins out → ∃ a rest, ins = a :: rest ∧ tv out = tv a.
Proof using Type.
  intros Hmeta Hon. destruct Hon; try (match goal with Ht : nd_op_type _ = _ |- _ => rewrite Ht in Hmeta; discriminate Hmeta end). by eexists _, _.
Qed.
End Types.

Section Sound.
Context (graph : GraphProto) (weights : gmap string WeightTensor) (input : string → list R) (ρ : string → NdArray R).
Context (Hsol : Solution graph weights input ρ) (Hfaith : Faithful graph weights ρ).
#[local] Notation nodes := (gr_node graph).
#[local] Notation fusions := (detect_rms_norm_fusions nodes weights).

Lemma chain_add pow_idx fusion i node : rms_norm_chain nodes weights pow_idx fusion → consumed_node_indices fusion !! 1 = Some i →
  nodes !! i = Some node → nd_op_type node = "Add"%string.
Proof using Type.
  intros [x two_name two e p i1 r1 m i2 a b eps_name eps bits q i3 r3 s i4 r4 c i5 a1 b1 y i6 a2 b2 w weight d out
    _ _ _ _ _ [_ (node' & Hn' & Ht & _)]]. cbn [consumed_node_indices]. intros Hi Hn. injection Hi as <-. congruence.
Qed.
Lemma norm_add_type i node : norm_add graph weights i → nodes !! i = Some node → nd_op_type node = "Add"%string.
Proof using Type. intros (f & Hf%detect_chain & Hi) Hn. by eapply chain_add. Qed.
Lemma node_value i op_type inputs output : node_is nodes i op_type inputs output → op_type ≠ "Add"%string →
  ∃ node, nd_op_type node = op_type ∧ onnx milli_epsilon node (ρ <$> inputs) (ρ output).
Proof using Hsol.
  intros (node & Hi & Ht & Hin & Hout) Hne. destruct (so_node _ _ _ _ Hsol i node Hi) as (o & Ho & Hon). exists node. split; [done|].
  rewrite Hout in Ho. injection Ho as <-. rewrite <-Hin. apply Hon. intros Ha. apply Hne. by rewrite <-Ht, (norm_add_type _ _ Ha Hi).
Qed.
Lemma weight_shape name weight : weights !! name = Some weight → td (ρ name) = wt_shape weight.
Proof using Hsol.
  intros Hw. apply (so_shape _ _ _ _ Hsol). unfold all_shapes. apply lookup_union_Some_l. by rewrite lookup_fmap, Hw.
Qed.

(** The sum of the mean and the epsilon, in either order. *)
Lemma norm_sum pow_idx fusion q m i1 r1 p i2 a b eps_name eps bits :
  fusion ∈ fusions → pow_node_idx fusion = pow_idx → consumed_node_indices fusion !! 0 = Some i1 → consumed_node_indices fusion !! 1 = Some i2 →
  link nodes "ReduceMean" p i1 (p :: r1) m → link nodes "Add" m i2 [a; b] q → other_operand a b m = Some eps_name →
  weights !! eps_name = Some eps → wt_data eps = [bits] →
  (∃ lead, td (ρ m) = lead ++ [1]) → td (ρ q) = td (ρ m) ∧ tv (ρ q) = (λ v, s_add v (milli_epsilon bits)) <$> tv (ρ m).
Proof using All.
  intros Hf Hp Hc0 Hc1 [_ (n1 & Hn1 & _ & _ & Ho1)] [Hs (n2 & Hn2 & Ht2 & Hi2 & Ho2)] Ho Heps Hbits [lead Hm].
  assert (eps_name ≠ m) as Hne.
  { intros ->. assert (a = m ∧ b = m) as [-> ->] by (destruct (operands_add _ _ _ _ Ho) as [[-> ->]|[-> ->]]; done).
    exact (read_twice _ _ _ _ _ Hs Hn2 Hi2). }
  assert (eps_name ∈ [a; b]) as Hin by (destruct (operands_add _ _ _ _ Ho) as [[-> ->]|[-> ->]]; by_member).
  assert (onnx milli_epsilon n2 (rounded ρ eps_name bits <$> [a; b]) (ρ q)) as Hon.
  { rewrite <-Hi2. eapply (so_norm _ _ _ _ Hsol); try done. by rewrite Hi2. }
  pose proof (so_sized _ _ _ _ Hsol m) as Hsize.
  assert (td (ρ eps_name) = [] ∨ td (ρ eps_name) = [1]) as Hscalar.
  { rewrite (weight_shape _ _ Heps). eapply (fa_epsilon _ _ _ Hfaith fusion i2 n2); [done..| |done]. by rewrite Hi2. }
  assert (rounded ρ eps_name bits m = ρ m) as Em by (unfold rounded; by destruct (String.eqb_spec m eps_name)).
  assert (rounded ρ eps_name bits eps_name = mkNdArray (td (ρ eps_name)) [milli_epsilon bits]) as Ee by (unfold rounded; by rewrite String.eqb_refl).
  assert (broadcast s_add (ρ m) (mkNdArray (td (ρ eps_name)) [milli_epsilon bits]) = Some (ρ q)) as Hb.
  { destruct (operands_add _ _ _ _ Ho) as [[-> ->]|[-> ->]]; cbn [fmap list_fmap] in Hon; rewrite Em, Ee in Hon; apply (add_inv _ _ _ _ _ Ht2) in Hon; [done|].
    rewrite broadcast_comm; [done|apply s_add_comm]. }
  by apply (along_number _ _ _ _ _ _ Hm Hsize Hb (milli_epsilon bits)).
Qed.

Lemma fusion_value pow_idx fusion : rms_norm_chain nodes weights pow_idx fusion → fusion ∈ fusions →
  sem (RmsNorm (dim fusion) (epsilon_milli fusion)) [tv (ρ (input_name fusion)); tv (ρ (weight_name fusion))] = Some (tv (ρ (output_name fusion))).
Proof using All.
  intros Hchain Hf. destruct (fa_width _ _ _ Hfaith fusion Hf) as [lead Hwidth].
  pose proof (λ node x e weight, fa_exponent _ _ _ Hfaith fusion node x e weight Hf) as Hexp.
  pose proof (λ q m i1 r1 p i2 a b eps_name eps bits, norm_sum pow_idx fusion q m i1 r1 p i2 a b eps_name eps bits Hf) as Hsum.
  destruct Hchain as [x two_name two e p i1 r1 m i2 a b eps_name eps bits q i3 r3 s i4 r4 c i5 a1 b1 y i6 a2 b2 w weight d out
    Hpow Htwo He Hn H1 H2 Ho Heps Hb H3 H4 H5 Hx Hc H6 Hy Hw Hwt Hd]. cbn [output_name input_name weight_name dim epsilon_milli pow_node_idx consumed_node_indices] in *.
  pose proof (operands_mul1 _ _ _ _ _ _ _ _ _ _ Hpow H5 Hx Hc) as O1. pose proof (operands_mul2 _ _ _ _ Hy Hw) as [_ O2].
  pose proof (so_sized _ _ _ _ Hsol) as Hsize.
  (* the square *)
  destruct (node_value _ _ _ _ Hpow) as (n0 & T0 & E0); [done|]. cbn in E0. apply (pow_inv _ _ _ _ _ T0) in E0.
  destruct Hpow as (pn & Hpn & _ & Hpi & _). destruct (Hexp _ _ _ _ Hpn Hpi Htwo) as [Etwo Stwo]. rewrite <-(weight_shape _ _ Htwo) in Stwo.
  pose proof (so_weight _ _ _ _ Hsol _ _ Htwo) as Vtwo. rewrite Etwo in Vtwo. cbn in Vtwo.
  destruct (along_number _ _ _ _ _ _ Hwidth (Hsize x) E0 _ Stwo Vtwo) as [Dp Vp].
  (* the mean *)
  pose proof H1 as [_ N1]. destruct (node_value _ _ _ _ N1) as (n1 & T1 & E1); [done|]. cbn in E1.
  rewrite Hwidth in Dp. apply (reduce_mean_inv _ _ _ _ _ _ _ T1 Dp) in E1 as [Dm Vm].
  (* the epsilon *)
  destruct (Hsum q m i1 r1 p i2 a b eps_name eps bits) as [Dq Vq]; [done..|by exists lead|].
  (* the scale *)
  destruct H3 as [_ N3]. destruct (node_value _ _ _ _ N3) as (n3 & T3 & E3); [done|]. apply (sqrt_inv _ _ _ _ _ T3) in E3 as [Ds Vs].
  destruct H4 as [_ N4]. destruct (node_value _ _ _ _ N4) as (n4 & T4 & E4); [done|]. apply (reciprocal_inv _ _ _ _ _ T4) in E4 as [Dc Vc].
  rewrite Ds, Dq, Dm in Dc.
  (* the products *)
  destruct H5 as [_ N5]. destruct (node_value _ _ _ _ N5) as (n5 & T5 & E5); [done|]. cbn in E5. apply (mul_inv _ _ _ _ _ T5) in E5.
  destruct H6 as [_ N6]. destruct (node_value _ _ _ _ N6) as (n6 & T6 & E6); [done|]. cbn in E6. apply (mul_inv _ _ _ _ _ T6) in E6.
  assert (broadcast s_mul (ρ x) (ρ c) = Some (ρ y)) as B5 by (destruct O1 as [[-> ->]|[-> ->]]; [done|rewrite broadcast_comm; [done|apply s_mul_comm]]).
  assert (broadcast s_mul (ρ y) (ρ w) = Some (ρ out)) as B6 by (destruct O2 as [[-> ->]|[-> ->]]; [done|rewrite broadcast_comm; [done|apply s_mul_comm]]).
  destruct (along_rows _ _ _ _ _ _ Hwidth (Hsize x) B5 Dc) as [Dy Vy]. rewrite Hwidth in Dy.
  assert (td (ρ w) = [d]) as Dw by (by rewrite (weight_shape _ _ Hwt)).
  destruct (along_row _ _ _ _ _ _ Dy (Hsize y) B6 Dw) as [_ ->].
  assert (length (tv (ρ x)) = d * size_of lead) as Lx by (by rewrite (Hsize x), Hwidth, size_of_snoc).
  assert (length (tv (ρ w)) = d) as Lw by (by rewrite (Hsize w), Dw, size_of_cons, size_of_nil, Nat.mul_1_r).
  cbn [sem]. f_equal. rewrite <-(rms_rows _ _ _ _ _ Lw Lx), Vy, length_fmap, length_seq.
  assert (tv (ρ p) = (λ v, s_mul v v) <$> tv (ρ x)) as Vp' by (rewrite Vp; apply list_fmap_ext; intros; apply s_square).
  apply list_fmap_ext. intros k j Hj. apply lookup_seq in Hj as [-> Hj]. simpl.
  by rewrite element_tabulate, Vc, Vs, Vq, Vm, Vp' by done.
Qed.

(** *** Wiring *)

Lemma read_app values v register u : read input weights values register = Some u → read input weights (values ++ [v]) register = Some u.
Proof using Type. destruct register; [done|done|]. cbn. apply lookup_app_l_Some. Qed.

(** The registers hold the values of the tensors they are bound to. *)
Definition wired (wiring : Wiring) : Prop :=
  ∃ values, option_fold (execute input weights) [] (wi_instructions wiring) = Some values ∧
    length values = length (wi_instructions wiring) ∧
    ∀ name register, wi_registers wiring !! name = Some register → read input weights values register = Some (tv (ρ name)).

Lemma resolve_all_read values registers node_name op_type names rs :
  (∀ name register, registers !! name = Some register → read input weights values register = Some (tv (ρ name))) →
  result_mapM (resolve registers node_name op_type) names = Ok rs → mapM (read input weights values) rs = Some (tv <$> (ρ <$> names)).
Proof using Type.
  intros Hregs Hr%result_mapM_Ok. induction Hr as [|name register names rs Hr _ IH]; [done|]. cbn [mapM fmap list_fmap].
  apply ok_or_Ok, Hregs in Hr. by rewrite Hr, IH.
Qed.
Lemma emit_wired wiring instruction rs output_name vs values :
  option_fold (execute input weights) [] (wi_instructions wiring) = Some values → length values = length (wi_instructions wiring) →
  (∀ name register, wi_registers wiring !! name = Some register → read input weights values register = Some (tv (ρ name))) →
  mapM (read input weights values) rs = Some vs → sem instruction vs = Some (tv (ρ output_name)) → wired (emit wiring instruction rs output_name).
Proof using Type.
  intros E Hl Hregs Hrs Ho. exists (values ++ [tv (ρ output_name)]). unfold emit. cbn [wi_instructions wi_registers].
  rewrite option_fold_app, E, !length_app, Hl. cbn [mbind option_bind option_fold]. unfold execute at 1. cbn [ci_inputs ci_instruction].
  rewrite Hrs. cbn [mbind option_bind]. rewrite Ho. split; [done|]. split; [done|]. intros name register. rewrite lookup_insert_Some. intros [[<- <-]|[_ Hr]].
  - cbn. rewrite <- Hl. by rewrite lookup_app_r, Nat.sub_diag by done.
  - by apply read_app, Hregs.
Qed.

Lemma wire_fusion_wired fusion wiring wiring' : fusion ∈ fusions → wired wiring → wire_fusion fusion wiring = Ok wiring' → wired wiring'.
Proof using All.
  intros Hf (values & E & Hl & Hregs). unfold wire_fusion. intros (x & Hx%ok_or_Ok & Hwire)%result_bind_Ok.
  apply result_bind_Ok in Hwire as (w & Hw%ok_or_Ok & [= <-]).
  eapply emit_wired; [done|done|done| |by apply (fusion_value _ _ (detect_chain _ _ _ Hf))].
  cbn. by rewrite (Hregs _ _ Hx), (Hregs _ _ Hw).
Qed.
Lemma wire_op_wired i node op wiring wiring' : nodes !! i = Some node → (∀ fusion, fusion ∈ fusions → i ∉ consumed_node_indices fusion) →
  map_node node (all_shapes graph weights) = Some (Ok op) → wired wiring → wire_op node op wiring = Ok wiring' → wired wiring'.
Proof using All.
  intros Hn Hout Hm (values & E & Hl & Hregs). destruct (so_node _ _ _ _ Hsol i node Hn) as (o & Ho & Hon).
  assert (onnx milli_epsilon node (ρ <$> nd_input node) (ρ o)) as Hnode.
  { apply Hon. intros (f & Hf & Hi). apply (Hout f Hf). by eapply list_elem_of_lookup_2. }
  destruct (map_node_op _ _ _ Hm) as [[instruction ->]|[-> Hmeta]]; cbn [wire_op].
  - unfold instruction_op. cbn [wire_op]. rewrite Ho. intros (rs & Hrs & [= <-])%result_bind_Ok.
    eapply emit_wired; [done|done|done|by eapply resolve_all_read|].
    apply (mapped_meaning (all_shapes graph weights)); [apply (so_shape _ _ _ _ Hsol)|apply (so_sized _ _ _ _ Hsol)|done|done| |].
    + intros Hty a b Hin. by eapply (fa_eltwise _ _ _ Hfaith).
    + intros Hty. destruct (fa_mean _ _ _ Hfaith _ _ Hn Hty) as (f & Hf & Hc). by apply (Hout f).
  - intros (source & Hs%ok_or_Ok & Hw)%result_bind_Ok. apply result_bind_Ok in Hw as (r & Hr%ok_or_Ok%Hregs & [= <-]).
    exists values. split; [done|]. split; [done|]. cbn [wi_registers]. intros name register. rewrite insert_outputs.
    case_bool_decide as Hin; [|apply Hregs]. intros [= <-]. rewrite Hr. f_equal. rewrite Ho in Hin. apply list_elem_of_singleton in Hin as ->.
    destruct (metadata_inv _ _ _ _ Hmeta Hnode) as (a & rest & Ei & ->). destruct (nd_input node); [done|]. by simplify_eq/=.
Qed.
Lemma wire_nodes_wired order : ∀ wiring wiring', wired wiring →
  wire_nodes nodes (all_shapes graph weights) fusions wiring order = Some (Ok wiring') → wired wiring'.
Proof using All.
  induction order as [|i order IH]; intros wiring wiring' Hw; cbn [wire_nodes]; [by intros [= <-]|].
  destruct (wire_node _ _ _ _ _) as [[next|e]|] eqn:E; cbn [outcome_bind]; try done. apply IH. revert E. unfold wire_node.
  destruct (last _) as [fusion|] eqn:Hf.
  - intros [= E]. eapply wire_fusion_wired; [|done|done]. apply last_Some_elem_of, list_elem_of_filter in Hf as [_ Hf]. done.
  - case_bool_decide as Hc; [by intros [= <-]|]. intros (node & Hn & (mapped & Hm & [= E])%bind_Some)%bind_Some.
    apply result_bind_Ok in E as (op & E & Hop). destruct mapped; [|done]. injection E as ->. eapply wire_op_wired; [done| |done..].
    intros f Hff Hin. apply Hc, list_elem_of_bind. by exists f.
Qed.

Lemma initial_wired : extract_initializers graph = Ok weights → wired (mkWiring [] (initial_registers graph)).
Proof using Hsol.
  intros Hw. exists []. split; [done|]. split; [done|]. intros name register Hr.
  destruct (initial_lookup _ _ _ _ Hw Hr) as [[[weight Hn] ->]|(Hn & Hin & ->)]; cbn.
  - by rewrite Hn, (so_weight _ _ _ _ Hsol _ _ Hn).
  - by rewrite (so_input _ _ _ _ Hsol).
Qed.
End Sound.

End Meaning.

(** ** Which graphs compile *)

Section Groups.
Context (nodes : list NodeProto) (weights : gmap string WeightTensor).
Context (Hssa : ∀ p q name, outputs nodes p name → outputs nodes q name → p = q).
Context (Hself : ∀ node name, node ∈ nodes → name ∈ nd_input node → name ∉ nd_output node).

Lemma reads_depends i p node name : nodes !! i = Some node → name ∈ nd_input node → outputs nodes p name → depends nodes i p.
Proof using Hssa Hself.
  intros Hi Hin Hp. exists node, name. split; [done|]. split; [done|]. split; [split; [done|]; intros q Hq; by rewrite (Hssa _ _ _ Hq Hp)|].
  intros ->. destruct Hp as (node' & Hi' & Hout). simplify_eq. eapply Hself; [by eapply list_elem_of_lookup_2|done|done].
Qed.
Lemma node_is_outputs i op_type inputs output name : node_is nodes i op_type inputs output → outputs nodes i name ↔ name = output.
Proof using Type.
  intros (node & Hi & _ & _ & Ho). split.
  - intros (node' & Hi' & Hin). simplify_eq. rewrite Ho in Hin. by apply list_elem_of_singleton in Hin.
  - intros ->. exists node. rewrite Ho. split; [done|by left].
Qed.
Lemma link_depends op_type from i inputs output p prev_type prev_inputs : link nodes op_type from i inputs output → from ∈ inputs →
  node_is nodes p prev_type prev_inputs from → depends nodes i p.
Proof using Hssa Hself.
  intros [_ (node & Hi & _ & Hin & _)] Hf Hp. eapply reads_depends; [done|by rewrite Hin|]. by apply (node_is_outputs _ _ _ _ _ Hp).
Qed.

(** What is in a recognized group of nodes. *)
Record Group (pow_idx : nat) (fusion : RmsNormFusion) : Prop := {
  gp_input : ∃ node, nodes !! pow_idx = Some node ∧ nd_op_type node = "Pow"%string ∧ input_name fusion ∈ nd_input node;
  gp_weight : is_Some (weights !! weight_name fusion);
  gp_consumed j : j ∈ consumed_node_indices fusion → ∃ node, nodes !! j = Some node ∧ nd_op_type node ≠ "Pow"%string;
  gp_pow_output name : outputs nodes pow_idx name → ∃ i, i ∈ consumed_node_indices fusion ∧ sole_consumer nodes name = Some i;
  gp_outputs j name : j ∈ consumed_node_indices fusion → outputs nodes j name →
    name = output_name fusion ∨ ∃ i, i ∈ consumed_node_indices fusion ∧ sole_consumer nodes name = Some i;
  gp_after j : j ∈ consumed_node_indices fusion → tc (depends nodes) j pow_idx
}.
Lemma chain_group pow_idx fusion : rms_norm_chain nodes weights pow_idx fusion → Group pow_idx fusion.
Proof using Hssa Hself.
  intros [x two_name two e p i1 r1 m i2 a b eps_name eps bits q i3 r3 s i4 r4 c i5 a1 b1 y i6 a2 b2 w weight d out
    Hpow Htwo He Hn H1 H2 Ho Heps Hb H3 H4 H5 Hx Hc H6 Hy Hw Hwt Hd].
  assert (m ∈ [a; b]) as Hm by (destruct (operands_add _ _ _ _ Ho) as [[-> ->]|[-> ->]]; [by left|right; by left]).
  pose proof H1 as [S1 N1]. pose proof H2 as [S2 N2]. pose proof H3 as [S3 N3]. pose proof H4 as [S4 N4]. pose proof H5 as [S5 N5]. pose proof H6 as [S6 N6].
  assert (depends nodes i1 pow_idx) as D1 by (eapply link_depends; [exact H1|by left|exact Hpow]).
  assert (depends nodes i2 i1) as D2 by (eapply link_depends; [exact H2|done|exact N1]).
  assert (depends nodes i3 i2) as D3 by (eapply link_depends; [exact H3|by left|exact N2]).
  assert (depends nodes i4 i3) as D4 by (eapply link_depends; [exact H4|by left|exact N3]).
  assert (depends nodes i5 i4) as D5 by (eapply link_depends; [exact H5|done|exact N4]).
  assert (depends nodes i6 i5) as D6 by (eapply link_depends; [exact H6|done|exact N5]).
  split; cbn [input_name weight_name consumed_node_indices output_name].
  - destruct Hpow as (node & Hp & Ht & Hin & _). exists node. rewrite Hin. split; [done|]. split; [done|by left].
  - by eexists.
  - intros j Hj. rewrite !elem_of_cons, elem_of_nil in Hj.
    destruct Hj as [->|[->|[->|[->|[->|[->|[]]]]]]]; [destruct N1 as (n & ? & Ht & _)|destruct N2 as (n & ? & Ht & _)|destruct N3 as (n & ? & Ht & _)
      |destruct N4 as (n & ? & Ht & _)|destruct N5 as (n & ? & Ht & _)|destruct N6 as (n & ? & Ht & _)]; exists n; by rewrite Ht.
  - intros name ->%(node_is_outputs _ _ _ _ _ Hpow). exists i1. split; [by left|done].
  - intros j name Hj Hout. rewrite !elem_of_cons, elem_of_nil in Hj. destruct Hj as [->|[->|[->|[->|[->|[->|[]]]]]]].
    + apply (node_is_outputs _ _ _ _ _ N1) in Hout as ->. right. exists i2. split; [by_member|done].
    + apply (node_is_outputs _ _ _ _ _ N2) in Hout as ->. right. exists i3. split; [by_member|done].
    + apply (node_is_outputs _ _ _ _ _ N3) in Hout as ->. right. exists i4. split; [by_member|done].
    + apply (node_is_outputs _ _ _ _ _ N4) in Hout as ->. right. exists i5. split; [by_member|done].
    + apply (node_is_outputs _ _ _ _ _ N5) in Hout as ->. right. exists i6. split; [by_member|done].
    + apply (node_is_outputs _ _ _ _ _ N6) in Hout as ->. by left.
  - assert (tc (depends nodes) i1 pow_idx) as T1 by (by apply tc_once). assert (tc (depends nodes) i2 pow_idx) as T2 by (by eapply tc_l).
    assert (tc (depends nodes) i3 pow_idx) as T3 by (by eapply tc_l). assert (tc (depends nodes) i4 pow_idx) as T4 by (by eapply tc_l).
    assert (tc (depends nodes) i5 pow_idx) as T5 by (by eapply tc_l). assert (tc (depends nodes) i6 pow_idx) as T6 by (by eapply tc_l).
    intros j Hj. rewrite !elem_of_cons, elem_of_nil in Hj. by destruct Hj as [->|[->|[->|[->|[->|[->|[]]]]]]].
Qed.
End Groups.

Lemma respects_tc nodes order i p : respects nodes order → tc (depends nodes) i p → ∀ k, order !! k = Some i → p ∈ take k order.
Proof.
  intros Hr. induction 1 as [i p Hd|i j p Hd _ IH]; intros k Hk; [by eapply Hr|].
  destruct (proj1 (list_elem_of_lookup _ _) (Hr _ _ _ Hk Hd)) as [k' Hk']. apply lookup_take_Some in Hk' as [Hk' Hlt].
  apply IH in Hk'. apply list_elem_of_lookup in Hk' as [k'' Hk'']. apply lookup_take_Some in Hk'' as [Hk'' ?].
  apply (list_elem_of_lookup_2 _ k''). apply lookup_take_Some. split; [done|lia].
Qed.

Section Complete.
Context (graph : GraphProto) (weights : gmap string WeightTensor).
#[local] Notation nodes := (gr_node graph).
#[local] Notation fusions := (detect_rms_norm_fusions nodes weights).
#[local] Notation shapes := (all_shapes graph weights).

Definition initial (name : string) : Prop := name ∈ tp_name <$> gr_initializer graph ∨ name ∈ vi_name <$> gr_input graph.
Definition available (name : string) : Prop := initial name ∨ ∃ p, outputs nodes p name.
(** A tensor inside a recognized RMS norm, which no register holds. *)
Definition hidden (name : string) : Prop :=
  ∃ fusion i, fusion ∈ fusions ∧ i ∈ pow_node_idx fusion :: consumed_node_indices fusion ∧ outputs nodes i name ∧ name ≠ output_name fusion.
(** A node that the mapping takes care of: part of an RMS norm, or an instruction with one output, or metadata about an input. *)
Definition supported (i : nat) (node : NodeProto) : Prop :=
  (∃ fusion, fusion ∈ fusions ∧ i ∈ pow_node_idx fusion :: consumed_node_indices fusion) ∨
  (∃ instruction output, map_node node shapes = Some (Ok (instruction_op node instruction)) ∧ nd_output node = [output]) ∨
  (map_node node shapes = Some (Ok (metadata_op node)) ∧ nd_input node ≠ []).

(** The initializers are well-formed; no two nodes write one tensor, and none its own input; there is an order; every node is supported; what a node
    reads, unless it is inside an RMS norm, is an input, an initializer or some node's output, and so are the graph's outputs; and no output is hidden
    inside a recognized RMS norm, which the recognition does not check, unless an input or initializer has its name. *)
Record Compilable : Prop := {
  cb_weights : extract_initializers graph = Ok weights;
  cb_single p q name : outputs nodes p name → outputs nodes q name → p = q;
  cb_self node name : node ∈ nodes → name ∈ nd_input node → name ∉ nd_output node;
  cb_acyclic : ∃ order, topological nodes order;
  cb_supported i node : nodes !! i = Some node → supported i node;
  cb_inputs i node name : nodes !! i = Some node → (∀ fusion, fusion ∈ fusions → i ∉ consumed_node_indices fusion) → name ∈ nd_input node → available name;
  cb_outputs info : info ∈ gr_output graph → available (vi_name info) ∧ (initial (vi_name info) ∨ ¬ hidden (vi_name info))
}.

Context (Hcb : Compilable).
#[local] Notation chain_group' := (chain_group nodes weights (cb_single Hcb) (cb_self Hcb)).

Lemma detect_group fusion : fusion ∈ fusions → Group nodes weights (pow_node_idx fusion) fusion.
Proof using Hcb. intros Hf. by apply chain_group', detect_chain. Qed.
Lemma detect_unique f g : f ∈ fusions → g ∈ fusions → pow_node_idx f = pow_node_idx g → f = g.
Proof using Type.
  assert (∀ h, h ∈ fusions → ∃ node, nodes !! pow_node_idx h = Some node ∧ try_match_from_pow (pow_node_idx h) node nodes weights = Some h) as H.
  { intros h Hh. pose proof (detect_chain _ _ _ Hh) as Hc. unfold detect_rms_norm_fusions in Hh.
    apply list_elem_of_omap in Hh as ([j node] & (i & node' & [= -> ->] & Hi)%elem_of_lookup_imap & Hm).
    destruct (String.eqb_spec (nd_op_type node') "Pow") as [Ht|]; [|done]. pose proof (try_match_chain _ _ _ _ _ Hi Ht Hm) as Hc'.
    assert (pow_node_idx h = i) as -> by (by inversion Hc'). by exists node'. }
  intros (n1 & Hn1 & H1)%H (n2 & Hn2 & H2)%H Heq. rewrite Heq in *. congruence.
Qed.
(** Only nodes of the same group read a hidden tensor. *)
Lemma hidden_reader name i node : hidden name → nodes !! i = Some node → name ∈ nd_input node →
  ∃ fusion, fusion ∈ fusions ∧ i ∈ consumed_node_indices fusion.
Proof using Hcb.
  intros (f & j & Hf & Hj & Hout & Hne) Hi Hin. pose proof (detect_group _ Hf) as G. exists f. split; [done|].
  assert (∃ i', i' ∈ consumed_node_indices f ∧ sole_consumer nodes name = Some i') as (i' & Hi' & Hs).
  { apply elem_of_cons in Hj as [->|Hj]; [by apply (gp_pow_output _ _ _ _ G)|]. destruct (gp_outputs _ _ _ _ G j name Hj Hout); naive_solver. }
  by rewrite (sole_consumer_only _ _ _ _ _ Hs Hi Hin).
Qed.

(** What has a register after some nodes. *)
Record Bound (done : list nat) (registers : Registers) : Prop := {
  bd_initial name : initial name → is_Some (registers !! name);
  bd_output i name : i ∈ done → outputs nodes i name → ¬ hidden name → is_Some (registers !! name);
  bd_fusion fusion : fusion ∈ fusions → pow_node_idx fusion ∈ done → is_Some (registers !! output_name fusion)
}.

Lemma bound_input done registers i node name : Bound done registers → nodes !! i = Some node → name ∈ nd_input node →
  (∀ p, depends nodes i p → p ∈ done) → (∀ fusion, fusion ∈ fusions → i ∉ consumed_node_indices fusion) → is_Some (registers !! name).
Proof using Hcb.
  intros B Hi Hin Hdone Hf. destruct (cb_inputs Hcb _ _ _ Hi Hf Hin) as [Hinit|[p Hp]]; [by apply (bd_initial _ _ B)|].
  apply (bd_output _ _ B p name); [|done|].
  - apply Hdone. by eapply (reads_depends _ (cb_single Hcb) (cb_self Hcb)).
  - intros Hh. destruct (hidden_reader _ _ _ Hh Hi Hin) as (f & Hff & Hc). by apply (Hf f).
Qed.
Lemma resolve_all_Ok (registers : Registers) node_name op_type names : (∀ name, name ∈ names → is_Some (registers !! name)) →
  ∃ rs, result_mapM (resolve registers node_name op_type) names = Ok rs.
Proof using Type.
  induction names as [|name names IH]; intros H; [by exists []|]. destruct (H name) as [r Hr]; [by left|].
  destruct IH as [rs Hrs]; [intros x Hx; apply H; by right|]. exists (r :: rs). cbn [result_mapM]. unfold resolve at 1. by rewrite Hr, Hrs.
Qed.
Lemma bound_grow done registers registers' i : Bound done registers → (∀ name, is_Some (registers !! name) → is_Some (registers' !! name)) →
  (∀ name, outputs nodes i name → ¬ hidden name → is_Some (registers' !! name)) →
  (∀ fusion, fusion ∈ fusions → pow_node_idx fusion = i → is_Some (registers' !! output_name fusion)) → Bound (done ++ [i]) registers'.
Proof using Type.
  intros B Hgrow Ho Hf. split.
  - intros name Hn. by apply Hgrow, (bd_initial _ _ B).
  - intros j name Hj Hout Hh. apply elem_of_app in Hj as [Hj| ->%list_elem_of_singleton]; [by eapply Hgrow, (bd_output _ _ B)|by apply Ho].
  - intros f Hff Hj. apply elem_of_app in Hj as [Hj|Hj%list_elem_of_singleton]; [by apply Hgrow, (bd_fusion _ _ B)|by apply Hf].
Qed.

Lemma insert_grows (registers : Registers) o register name : is_Some (registers !! name) → is_Some (<[o := register]> registers !! name).
Proof using Type. intros H. apply lookup_insert_is_Some'. by right. Qed.

Lemma wire_fused done wiring fusion : Bound done (wi_registers wiring) → fusion ∈ fusions →
  (∀ p, depends nodes (pow_node_idx fusion) p → p ∈ done) →
  ∃ wiring', wire_fusion fusion wiring = Ok wiring' ∧ Bound (done ++ [pow_node_idx fusion]) (wi_registers wiring').
Proof using Hcb.
  intros B Hf Hdone. pose proof (detect_group _ Hf) as G. destruct (gp_input _ _ _ _ G) as (node & Hi & Ht & Hin).
  assert (is_Some (wi_registers wiring !! input_name fusion)) as [x Hx].
  { apply (bound_input _ _ _ _ _ B Hi Hin Hdone). intros g Hg Hc. destruct (gp_consumed _ _ _ _ (detect_group _ Hg) _ Hc) as (node' & ? & ?). congruence. }
  assert (is_Some (wi_registers wiring !! weight_name fusion)) as [w Hw].
  { apply (bd_initial _ _ B). left. apply (extract_initializers_dom _ _ _ (cb_weights Hcb)), (gp_weight _ _ _ _ G). }
  unfold wire_fusion, resolve. rewrite Hx, Hw. eexists. split; [done|]. cbn [emit wi_registers].
  assert (∀ register, is_Some (<[output_name fusion := register]> (wi_registers wiring) !! output_name fusion)) as Hout by (intros; rewrite lookup_insert_eq; by eexists).
  apply (bound_grow _ _ _ _ B); [intros; by apply insert_grows| |].
  - intros name Ho Hh. destruct (decide (name = output_name fusion)) as [->|Hne]; [done|]. exfalso. apply Hh.
    exists fusion, (pow_node_idx fusion). split; [done|]. split; [by left|done].
  - intros g Hg Heq. by rewrite (detect_unique g fusion).
Qed.
Lemma wire_mapped done wiring i node : Bound done (wi_registers wiring) → nodes !! i = Some node → supported i node →
  (∀ fusion, fusion ∈ fusions → i ∉ pow_node_idx fusion :: consumed_node_indices fusion) → (∀ p, depends nodes i p → p ∈ done) →
  ∃ op wiring', map_node node shapes = Some (Ok op) ∧ wire_op node op wiring = Ok wiring' ∧ Bound (done ++ [i]) (wi_registers wiring').
Proof using Hcb.
  intros B Hi Hs Hno Hdone. assert (∀ name, name ∈ nd_input node → is_Some (wi_registers wiring !! name)) as Hins.
  { intros name Hin. apply (bound_input _ _ _ _ _ B Hi Hin Hdone). intros f Hf Hc. apply (Hno f Hf). by right. }
  assert (∀ f, f ∈ fusions → pow_node_idx f = i → False) as Hpow by (intros f Hf <-; apply (Hno f Hf); by left).
  assert (∀ name, outputs nodes i name → name ∈ nd_output node) as Hout by (intros name (node' & ? & ?); congruence).
  destruct Hs as [(f & Hf & Hg)|[(instruction & o & Hm & Ho)|[Hm Hne]]]; [by destruct (Hno f Hf)| |].
  - exists (instruction_op node instruction). unfold instruction_op at 2. cbn [wire_op]. destruct (resolve_all_Ok (wi_registers wiring) (nd_name node) (nd_op_type node) _ Hins) as [rs ->].
    cbn [result_bind]. rewrite Ho. eexists. split; [exact Hm|]. split; [done|]. cbn [emit wi_registers]. apply (bound_grow _ _ _ _ B); [intros; by apply insert_grows| |intros f Hf E; by destruct (Hpow f)].
    intros name Hn%Hout _. rewrite Ho in Hn. apply list_elem_of_singleton in Hn as ->. rewrite lookup_insert_eq. by eexists.
  - exists (metadata_op node). unfold metadata_op at 2. cbn [wire_op]. destruct (nd_input node) as [|source l] eqn:E; [done|]. destruct (Hins source) as [r Hr]; [by left|].
    cbn [head ok_or result_bind]. unfold resolve. rewrite Hr. cbn [ok_or result_bind]. eexists. split; [exact Hm|]. split; [done|]. cbn [wi_registers].
    apply (bound_grow _ _ _ _ B); [| |intros f Hf E'; by destruct (Hpow f)]; intros name Hn; rewrite insert_outputs.
    + case_bool_decide; [by eexists|done].
    + intros _. rewrite bool_decide_eq_true_2 by (by apply Hout). by eexists.
Qed.
Lemma wire_step done wiring i node : Bound done (wi_registers wiring) → nodes !! i = Some node → (∀ p, tc (depends nodes) i p → p ∈ done) →
  ∃ wiring', wire_node nodes shapes fusions wiring i = Some (Ok wiring') ∧ Bound (done ++ [i]) (wi_registers wiring').
Proof using Hcb.
  intros B Hi Hdone. assert (∀ p, depends nodes i p → p ∈ done) as Hdone' by (intros p Hp; by apply Hdone, tc_once).
  unfold wire_node. destruct (last _) as [fusion|] eqn:Hl.
  - apply last_Some_elem_of, list_elem_of_filter in Hl as [<- Hf]. destruct (wire_fused _ _ _ B Hf Hdone') as (w & -> & Hw). by exists w.
  - assert (∀ f, f ∈ fusions → pow_node_idx f ≠ i) as Hpow.
    { intros f Hf E. apply last_None in Hl. by apply (filter_nil_not_elem_of (λ f, pow_node_idx f = i) fusions f Hl). }
    case_bool_decide as Hc.
    + exists wiring. split; [done|]. apply list_elem_of_bind in Hc as (f & Hc & Hf). pose proof (detect_group _ Hf) as G.
      apply (bound_grow _ _ _ _ B); [done| |intros g Hg E; by destruct (Hpow g)]. intros name Ho Hh.
      destruct (decide (name = output_name f)) as [->|Hne].
      * by apply (bd_fusion _ _ B), Hdone, (gp_after _ _ _ _ G).
      * destruct Hh. exists f, i. split; [done|]. split; [by right|done].
    + rewrite Hi. cbn [mbind option_bind].
      destruct (wire_mapped _ _ _ _ B Hi (cb_supported Hcb _ _ Hi)) as (op & wiring' & Hm & Hw & Hb); [|done|].
      { intros f Hf [->|Hin]%elem_of_cons; [by apply (Hpow f)|]. apply Hc, list_elem_of_bind. by exists f. }
      exists wiring'. rewrite Hm. cbn [mbind option_bind map_err result_bind]. by rewrite Hw.
Qed.
Lemma wire_nodes_complete order : topological nodes order → ∀ k wiring, Bound (take k order) (wi_registers wiring) →
  ∃ wiring', wire_nodes nodes shapes fusions wiring (drop k order) = Some (Ok wiring') ∧ Bound order (wi_registers wiring').
Proof using Hcb.
  intros [Hp Hr] k. remember (length order - k) as todo eqn:Ht. revert k Ht. induction todo as [|todo IH]; intros k Ht wiring B.
  - rewrite drop_ge by lia. rewrite take_ge in B by lia. by exists wiring.
  - destruct (lookup_lt_is_Some_2 order k) as [i Hk]; [lia|]. rewrite (drop_S _ _ _ Hk). cbn [wire_nodes].
    assert (i < length nodes) as Hlt by (apply list_elem_of_lookup_2 in Hk; rewrite Hp in Hk; apply elem_of_seq in Hk; lia).
    destruct (lookup_lt_is_Some_2 nodes i Hlt) as [node Hi].
    destruct (wire_step _ _ _ _ B Hi) as (wiring' & -> & B'); [intros p Hd; by eapply respects_tc|]. cbn [outcome_bind].
    apply (IH (S k)); [lia|]. by rewrite (take_S_r _ _ _ Hk).
Qed.
Lemma bound_initially : Bound [] (wi_registers (mkWiring [] (initial_registers graph))).
Proof using Type.
  split; [|by intros ? ? ?%elem_of_nil|by intros ? _ ?%elem_of_nil]. intros name Hn. cbn [wi_registers]. rewrite initial_registers_lookup.
  case_bool_decide; [by eexists|]. case_bool_decide; [by eexists|]. by destruct Hn.
Qed.
Lemma resolve_outputs_Ok order registers : topological nodes order → Bound order registers → ∃ outs, resolve_outputs graph registers = Ok outs.
Proof using Hcb.
  intros [Hp _] B. assert (∀ info, info ∈ gr_output graph → is_Some (registers !! vi_name info)) as H.
  { intros info Hi. destruct (cb_outputs Hcb _ Hi) as [Ha Hh]. destruct Ha as [|[p Ho]]; [by apply (bd_initial _ _ B)|].
    destruct Hh as [|Hh]; [by apply (bd_initial _ _ B)|]. apply (bd_output _ _ B p); [|done|done].
    destruct Ho as (node & Hn%lookup_lt_Some & _). rewrite Hp. apply elem_of_seq. lia. }
  unfold resolve_outputs. induction (gr_output graph) as [|info infos IH]; [by exists []|]. destruct (H info) as [r Hr]; [by left|].
  destruct IH as [outs Ho]; [intros x Hx; apply H; by right|]. cbn [result_mapM]. rewrite Hr. cbn [ok_or result_bind]. rewrite Ho. by eexists.
Qed.
End Complete.

(** C28. Every graph compiles whose initializers are well-formed, that is in single-assignment form and without cycles, whose nodes are supported, whose
    tensors all come from somewhere, and none of whose outputs is hidden inside a recognized RMS norm: the recognition never takes a tensor away that
    another node reads, and the order never puts a node before one that it needs.  A graph that outputs a hidden tensor is refused, as the example
    [hidden_output] shows. *)
Theorem compilable_graph_compiles graph weights : Compilable graph weights → ∃ program, compile_graph graph = Some (Ok program).
Proof.
  intros Hcb. unfold compile_graph. rewrite (cb_weights _ _ Hcb). cbn [map_err outcome_bind].
  destruct (topological_order_drained (gr_node graph)) as (deg & order & Hdr & ->). destruct (cb_acyclic _ _ Hcb) as [order' Ht'].
  pose proof (drained_cyclic _ _ _ _ Hdr Ht') as Hl. pose proof (drained_topological _ _ _ Hdr Hl) as Ht.
  rewrite Hl, Nat.eqb_refl. cbn [negb outcome_bind].
  destruct (wire_nodes_complete _ _ Hcb order Ht 0 _ (bound_initially _ _)) as (wiring & E & B). rewrite drop_0 in E. rewrite E. cbn [outcome_bind].
  destruct (resolve_outputs_Ok _ _ Hcb order _ Ht B) as [outs ->]. by eexists.
Qed.

(** C29. The order is an order whenever there is one, and otherwise the graph is cyclic: no panic, no endless loop. *)
Theorem topological_order_exact nodes :
  ∃ outcome, topological_order nodes = Some outcome ∧
    match outcome with Ok order => topological nodes order | Err e => e = CyclicGraph ∧ ∀ order, ¬ topological nodes order end.
Proof.
  destruct (topological_order_drained nodes) as (deg & order & Hdr & ->). eexists. split; [done|].
  destruct (Nat.eqb_spec (length order) (length nodes)) as [Hl|Hl]; cbn [negb].
  - by eapply drained_topological.
  - split; [done|]. intros order' Ht. apply Hl. by eapply drained_cyclic.
Qed.

Lemma wire_nodes_None nodes shapes fusions order : ∀ wiring, (∀ i, i ∈ order → i < length nodes) →
  wire_nodes nodes shapes fusions wiring order = None → ∃ i node, nodes !! i = Some node ∧ map_node node shapes = None.
Proof.
  induction order as [|i order IH]; intros wiring Hb; cbn [wire_nodes]; [done|].
  destruct (wire_node _ _ _ _ _) as [[next|e]|] eqn:E; cbn [outcome_bind]; [apply IH; intros j Hj; apply Hb; by right|done|]. intros _. revert E.
  unfold wire_node. destruct (last _); [done|]. case_bool_decide; [done|]. destruct (lookup_lt_is_Some_2 nodes i) as [node Hi]; [apply Hb; by left|].
  rewrite Hi. cbn [mbind option_bind]. intros E. exists i, node. split; [done|]. by destruct (map_node node shapes).
Qed.

(** C30. Malformed graphs give errors; the one panic is the product of the dimensions of a table that overflows. *)
Theorem compile_graph_panics graph :
  (∃ outcome, compile_graph graph = Some outcome) ∨
  ∃ weights node, extract_initializers graph = Ok weights ∧ node ∈ gr_node graph ∧ gather_overflows node (all_shapes graph weights).
Proof.
  unfold compile_graph. destruct (extract_initializers graph) as [weights|e] eqn:Ew; [|left; by eexists]. cbn [map_err outcome_bind].
  destruct (topological_order_drained (gr_node graph)) as (deg & order & Hdr & ->).
  destruct (draining_within _ _ _ Hdr) as [_ Hin]. destruct (negb _); [left; by eexists|]. cbn [outcome_bind].
  destruct (wire_nodes _ _ _ _ _) as [[wiring|e]|] eqn:E; [left; by eexists|left; by eexists|]. right. exists weights.
  assert (∀ i, i ∈ order → i < length (gr_node graph)) as Hlt by (intros i Hi%Hin%elem_of_seq; lia).
  destruct (wire_nodes_None _ _ _ _ _ Hlt E) as (i & node & Hi & Hm). exists node. split; [done|].
  split; [by eapply list_elem_of_lookup_2|by apply map_node_None].
Qed.

(** ** A concrete graph *)

(** An RMS norm of [x] by [w], its nodes in no order, a product with [w2] and a reshape. *)
Module Norm.
#[local] Open Scope string_scope.
#[local] Open Scope list_scope.
Definition value (name : string) (dims : list Z) : ValueInfoProto :=
  mkValueInfo name (Some (mkType (Some (TensorType (Some (mkTensorShape ((λ d, Some (DimValue d)) <$> dims))))))).
Definition scalar (name : string) (bits : Z) : TensorProto := mkTensorProto [] 1 [bits] name [].
Definition node (op_type : string) (input output : list string) : NodeProto := mkNode input output "" op_type [].
(** A mean over one axis, kept as a dimension of one. *)
Definition mean_node (axis : Z) : NodeProto := mkNode ["p"] ["m"] "" "ReduceMean" [mkAttribute "axes" 0 0 [axis]].
Definition nodes_with (mean : NodeProto) : list NodeProto :=
  [node "MatMul" ["n"; "w2"] ["y"]; node "Mul" ["m1"; "w"] ["n"]; node "Mul" ["x"; "r"] ["m1"]; node "Pow" ["x"; "two"] ["p"];
   mean; node "Add" ["m"; "eps"] ["a"]; node "Sqrt" ["a"] ["s"]; node "Reciprocal" ["s"] ["r"];
   node "Reshape" ["y"] ["z"]].
Definition nodes : list NodeProto := Eval cbv [nodes_with mean_node] in nodes_with (mean_node (-1)).
(** 3.0, 1.0 and 0.5. *)
Definition w_data : list Z := [1077936128; 1065353216]%Z.
Definition w2_data : list Z := [1065353216; 1077936128; 1056964608; 1077936128; 1065353216; 1056964608]%Z.
Definition initializers : list TensorProto :=
  [scalar "two" 1073741824; scalar "eps" 981668463; mkTensorProto [2%Z] 1 w_data "w" []; mkTensorProto [2%Z; 3%Z] 1 w2_data "w2" []].
Definition graph_with (nodes : list NodeProto) (outputs : list ValueInfoProto) : GraphProto :=
  mkGraph nodes initializers [value "x" [4%Z; 2%Z]] outputs [value "n" [4%Z; 2%Z]].
Definition graph : GraphProto := Eval cbv [graph_with] in graph_with nodes [value "z" [12%Z]].
Definition weights : gmap string WeightTensor :=
  collect_map [("two", mkWeight [] [1073741824%Z]); ("eps", mkWeight [] [981668463%Z]); ("w", mkWeight [2] w_data); ("w2", mkWeight [2; 3] w2_data)].
Definition fusion : RmsNormFusion := mkFusion 3 [4; 5; 6; 7; 2; 1] "x" "w" "n" 2 1.

Lemma weights_extracted : extract_initializers graph = Ok weights.
Proof. reflexivity. Qed.
Lemma fusions_detected : detect_rms_norm_fusions nodes weights = [fusion].
Proof. vm_compute. reflexivity. Qed.

(** Integers for numbers, which count thousandths. *)
#[export] Instance scalars : Scalars Z := {
  s_zero := 0%Z; s_add := Z.add; s_mul := Z.mul; s_pow v e := (if (e =? 2000)%Z then v * v else 0)%Z; s_sqrt := Z.sqrt; s_recip := Z.div 1000000;
  s_relu := Z.max 0; s_gelu v := v; s_mean l := (foldr Z.add 0 l / Z.of_nat (length l))%Z; s_softmax l := l; s_layer_norm _ _ l := l;
  s_index := Z.to_nat; s_axis v := v; s_lit := to_milli; s_milli v := v
}.
#[export] Instance scalar_laws : ScalarLaws Z.
Proof. split; [exact Z.add_comm|exact Z.mul_comm|]. intros v. reflexivity. Qed.

(** The value of each tensor. *)
Definition x_data : list Z := [40; 30; 20; 10; 50; 60; 70; 80]%Z.
Definition input (_ : string) : list Z := x_data.
Definition or_empty (t : option (NdArray Z)) : NdArray Z := default (mkNdArray [0] []) t.
Definition tensors : list (string * NdArray Z) :=
  let x := mkNdArray [4; 2] x_data in
  let w := mkNdArray [2] (to_milli <$> w_data) in
  let w2 := mkNdArray [2; 3] (to_milli <$> w2_data) in
  let p := mkNdArray [4; 2] ((λ v, v * v)%Z <$> x_data) in
  let m := mkNdArray [4; 1] (row_means 2 (tv p)) in
  let a := mkNdArray [4; 1] ((λ v, v + 1)%Z <$> tv m) in
  let s := mkNdArray [4; 1] (Z.sqrt <$> tv a) in
  let r := mkNdArray [4; 1] ((λ v, 1000000 / v)%Z <$> tv s) in
  let m1 := or_empty (broadcast Z.mul x r) in
  let n := or_empty (broadcast Z.mul m1 w) in
  let y := mkNdArray [4; 3] (matmul 1 4 3 2 (λ _ i l, element (tv n) (i * 2 + l)) (λ _ l j, element (tv w2) (l * 3 + j))) in
  [("x", x); ("two", mkNdArray [] [2000%Z]); ("eps", mkNdArray [] [1%Z]); ("w", w); ("w2", w2); ("p", p); ("m", m); ("a", a); ("s", s); ("r", r);
   ("m1", m1); ("n", n); ("y", y); ("z", mkNdArray [12] (tv y))].
Definition rho (name : string) : NdArray Z := or_empty ((λ found, found.2.2) <$> list_find (λ entry, entry.1 = name) tensors).

Lemma rho_sized name : sized (rho name).
Proof.
  unfold rho. destruct (list_find _ _) as [[i [other t]]|] eqn:E; [|reflexivity]. apply list_find_Some in E as (Hi & _).
  assert (Forall (λ entry : string * NdArray Z, sized entry.2) tensors) as Hall by (repeat constructor).
  rewrite Forall_lookup in Hall. exact (Hall _ _ Hi).
Qed.

(** A statement about every entry of a closed map. *)
Ltac by_entries := refine (bool_decide_unpack _ _); vm_compute; exact I.

Lemma rho_shapes : map_Forall (λ name s, td (rho name) = s) (all_shapes graph weights).
Proof. by_entries. Qed.
Lemma rho_weights : map_Forall (λ name weight, tv (rho name) = s_lit <$> wt_data weight) weights.
Proof. by_entries. Qed.

(** What each node does here. *)
Definition holds (ins : list string) (node : NodeProto) (out : string) : Prop := onnx milli_epsilon node (rho <$> ins) (rho out).
Lemma rho_nodes i n : nodes !! i = Some n → ∃ o, nd_output n = [o] ∧ (i ≠ 5 → onnx milli_epsilon n (rho <$> nd_input n) (rho o)).
Proof.
  intros Hi. destruct i as [|[|[|[|[|[|[|[|[|i]]]]]]]]]; [injection Hi as <-..|discriminate Hi]; eexists; (split; [reflexivity|intros Hne]).
  - by apply (onnx_matmul _ _ [] 4 3 2).
  - by apply onnx_mul.
  - by apply onnx_mul.
  - by apply onnx_pow.
  - apply (onnx_reduce_mean _ _ [4] 2); try reflexivity; [discriminate|]. exists (-1)%Z. split; [by left|by left].
  - done.
  - by apply onnx_sqrt.
  - by apply onnx_reciprocal.
  - apply onnx_reshape; [by_member|reflexivity..].
Qed.

Lemma solution : Solution graph weights input rho.
Proof.
  split.
  - apply rho_sized.
  - apply rho_shapes.
  - intros name Hn _. by apply list_elem_of_singleton in Hn as ->.
  - apply rho_weights.
  - intros i n Hi. destruct (rho_nodes i n Hi) as (o & Ho & Hon). exists o. split; [done|]. intros Hne. apply Hon. intros ->. apply Hne.
    exists fusion. split; [|reflexivity]. change (gr_node graph) with nodes. rewrite fusions_detected. by left.
  - intros f i j n mean mean_out name weight bits o Hf. change (gr_node graph) with nodes in *. rewrite fusions_detected in Hf.
    apply list_elem_of_singleton in Hf as ->. intros [= <-] [= <-] [= <-] [= <-] [= <-] [= <-] Hin Hne Hw Hb.
    cbn [nd_input node] in Hin. rewrite !elem_of_cons, elem_of_nil in Hin. destruct Hin as [->|[->|[]]]; [done|].
    vm_compute in Hw. injection Hw as <-. injection Hb as <-. by apply onnx_add.
Qed.
Lemma faithful : Faithful graph weights rho.
Proof.
  split; change (gr_node graph) with nodes; rewrite fusions_detected.
  - intros f n x e weight ->%list_elem_of_singleton [= <-] [= <- <-] Hw. vm_compute in Hw. injection Hw as <-. split; [reflexivity|by left].
  - intros f ->%list_elem_of_singleton. by exists [4].
  - intros f i n name weight ->%list_elem_of_singleton [= <-] [= <-] Hin Hw. cbn [nd_input node] in Hin.
    rewrite !elem_of_cons, elem_of_nil in Hin. destruct Hin as [->|[->|[]]]; vm_compute in Hw; simplify_eq. by left.
  - intros i n a b Hi Hty Hout. exfalso. specialize (Hout fusion ltac:(by left)).
    destruct i as [|[|[|[|[|[|[|[|[|i]]]]]]]]]; try (injection Hi as <-); cbn [nd_op_type node] in Hty;
      try (apply Hout; cbn; by_member); rewrite !elem_of_cons, elem_of_nil in Hty; naive_solver.
  - intros i n Hi Ht. exists fusion. split; [by left|].
    destruct i as [|[|[|[|[|[|[|[|[|i]]]]]]]]]; try (injection Hi as <-); try done. cbn. by_member.
Qed.

Lemma outputs_cases i name : outputs nodes i name ↔ nth_error ["y"; "n"; "m1"; "p"; "m"; "a"; "s"; "r"; "z"] i = Some name.
Proof.
  split.
  - intros (n & Hi & Hn). do 9 (destruct i as [|i]; [injection Hi as <-; by apply list_elem_of_singleton in Hn as ->|]). by destruct i.
  - intros H. do 9 (destruct i as [|i]; [injection H as <-; eexists; split; [reflexivity|by left]|]). by destruct i.
Qed.
Lemma node_cases n : n ∈ nodes → Exists (λ n', n = n') nodes.
Proof. intros Hn. apply Exists_exists. by exists n. Qed.
Lemma available_listed name : name ∈ ["n"; "w2"; "x"; "two"; "y"] → available graph name.
Proof.
  intros Hn. repeat (apply elem_of_cons in Hn as [->|Hn]); try (by apply elem_of_nil in Hn).
  1, 5: right; eexists; apply outputs_cases.
  - exact (eq_refl : nth_error _ 1 = _).
  - exact (eq_refl : nth_error _ 0 = _).
  - left. left. by_member.
  - left. right. by_member.
  - left. left. by_member.
Qed.
Lemma compilable : Compilable graph weights.
Proof.
  split.
  - exact weights_extracted.
  - intros p q name Hp%outputs_cases Hq%outputs_cases. apply (proj1 (NoDup_nth_error ["y"; "n"; "m1"; "p"; "m"; "a"; "s"; "r"; "z"])).
    + repeat constructor; intros H; repeat destruct H as [H|H]; done.
    + apply nth_error_Some. by rewrite Hp.
    + by rewrite Hp, Hq.
  - intros n name Hn Hin Hout. cbn [gr_node graph] in Hn. unfold nodes in Hn.
    repeat (apply elem_of_cons in Hn as [->|Hn]; [apply list_elem_of_singleton in Hout as ->; cbn [nd_input node] in Hin; rewrite !elem_of_cons, elem_of_nil in Hin; naive_solver|]).
    by apply elem_of_nil in Hn.
  - destruct (topological_order_drained nodes) as (deg & order & Hdr & E). exists order. apply (drained_topological _ _ _ Hdr).
    assert (topological_order nodes = Some (Ok [3; 4; 5; 6; 7; 2; 1; 0; 8])) as E' by reflexivity. rewrite E' in E. by destruct (Nat.eqb_spec (length order) (length nodes)).
  - intros i n Hi. unfold supported. cbn [gr_node graph]. rewrite fusions_detected. cbn [gr_node graph] in Hi.
    destruct i as [|[|[|[|[|[|[|[|[|i]]]]]]]]]; try (injection Hi as <-); try (left; exists fusion; split; [by left|by_member]; done).
    + right. left. do 2 eexists. by split; [vm_compute; reflexivity|].
    + right. right. by split; [vm_compute; reflexivity|].
  - intros i n name Hi Hf Hin. cbn [gr_node graph] in Hi, Hf. rewrite fusions_detected in Hf. specialize (Hf fusion ltac:(by left)).
    apply available_listed.
    destruct i as [|[|[|[|[|[|[|[|[|i]]]]]]]]]; try (injection Hi as <-); try (destruct Hf; by_member; done).
    all: cbn [nd_input node] in Hin; set_solver.
  - intros info Hi. cbn [gr_output graph] in Hi. apply list_elem_of_singleton in Hi as ->. split; [right; exists 8; by apply outputs_cases|]. right.
    intros (f & i & Hf & Hi & Ho & _). cbn [gr_node graph] in Hf. rewrite fusions_detected in Hf. apply list_elem_of_singleton in Hf as ->.
    apply outputs_cases in Ho. cbn [pow_node_idx consumed_node_indices fusion] in Hi. rewrite !elem_of_cons, elem_of_nil in Hi. naive_solver.
Qed.
End Norm.

#[local] Existing Instances Norm.scalars Norm.scalar_laws.

Lemma compilable_graph_compiles_witness : Compilable Norm.graph Norm.weights ∧ ∃ program, compile_graph Norm.graph = Some (Ok program).
Proof. split; [exact Norm.compilable|]. exact (compilable_graph_compiles Norm.graph Norm.weights Norm.compilable). Defined.

(** ** What the passes accept *)

(** 2.0, the next number above it and a NaN pass for an exponent of two; 2.5 does not. *)
Example exponents_accepted : not_two <$> [1073741824; 1073741825; 2143289344; 1075838976]%Z = [false; false; false; true].
Proof. vm_compute. reflexivity. Qed.

(** The default epsilon of 1e-5 rounds to no thousandths; 0.001 is one. *)
Example default_epsilon_vanishes : to_milli <$> [DEFAULT_EPSILON; 981668463%Z] = [0; 1]%Z.
Proof. vm_compute. reflexivity. Qed.

(** The mean of a norm may be over any axis: the one over the columns is taken
    for the same norm of rows. *)
Example mean_axis_ignored : (λ axis, detect_rms_norm_fusions (Norm.nodes_with (Norm.mean_node axis)) Norm.weights) <$> [-1; 0]%Z
  = [[Norm.fusion]; [Norm.fusion]].
Proof. vm_compute. reflexivity. Qed.

(** The instructions of a compiled graph and its outputs. *)
Definition compiled (graph : GraphProto) : option (Result (list CompiledInstruction * list (string * Register)) GraphCompilerError) :=
  (λ outcome, let? program := outcome in Ok (cp_instructions program, cp_graph_outputs program)) <$> compile_graph graph.
Definition one_node (node : NodeProto) (inputs : list (string * list Z)) (outputs : list (string * list Z)) : GraphProto :=
  mkGraph [node] [] ((λ v, Norm.value v.1 v.2) <$> inputs) ((λ v, Norm.value v.1 v.2) <$> outputs) [].

(** A graph that outputs a tensor inside a norm does not compile. *)
Example hidden_output : compiled (Norm.graph_with Norm.nodes [Norm.value "m" [4; 1]%Z]) = Some (Err (UnresolvedGraphOutput "m")).
Proof. vm_compute. reflexivity. Qed.

(** The concatenation of two tensors is the first of them, and so is a transposition. *)
Example concat_drops_inputs :
  compiled (one_node (Norm.node "Concat" ["a"; "b"] ["c"]) [("a", []); ("b", [])]%string [("c"%string, [])]) = Some (Ok ([], [("c"%string, GraphInput "a")])).
Proof. vm_compute. reflexivity. Qed.
Example transpose_is_identity :
  compiled (one_node (Norm.node "Transpose" ["a"] ["c"]) [("a", [2; 3])]%string%Z [("c", [3; 2])]%string%Z) = Some (Ok ([], [("c"%string, GraphInput "a")])).
Proof. vm_compute. reflexivity. Qed.

(** A softmax over the columns of a square is the one over its rows. *)
Example softmax_axis_lost :
  (λ axis, map_node (mkNode ["a"] ["c"] "" "Softmax" [mkAttribute "axis" 0 axis []]) {["a" := [3; 3]]}) <$> [0; 1]%Z
  = [Some (Ok (InstructionOp (Softmax 3) ["a"] ["c"])); Some (Ok (InstructionOp (Softmax 3) ["a"] ["c"]))].
Proof. vm_compute. reflexivity. Qed.

(** A number added to every row: ONNX pairs each element with its row's, the
    instruction with the elements in turn. *)
Example column_added_in_turn :
  let a := mkNdArray [2; 2] [10; 20; 30; 40]%Z in let b := mkNdArray [2; 1] [1; 2]%Z in
  (compiled (one_node (Norm.node "Add" ["a"; "b"] ["c"]) [("a", [2; 2]); ("b", [2; 1])]%string%Z [("c", [2; 2])]%string%Z),
   tv <$> broadcast s_add a b, sem (Eltwise Add) [tv a; tv b]) =
  (Some (Ok ([mkInstruction (Eltwise Add) [GraphInput "a"; GraphInput "b"] "c"], [("c"%string, Virtual 0)])),
   Some [11; 21; 32; 42]%Z, Some [11; 22; 31; 42]%Z).
Proof. vm_compute. reflexivity. Qed.
