(* ===== verification/Assembler.v ===== *)
(** * The assembler

    zkie-core/src/assembler.rs: one circuit for a whole compiled program.  Each
    tensor of the program is a register with a canonical cell per element, in
    plain representation; an instruction's operand cells are tied to the cells
    of the registers it reads, and its shifted results cross a bridge to become
    a new register.

    A [usize] product of dimensions is exact here.  [i128] additions that the
    code does not check are those of the class [Arithmetic], and the order in
    which a [HashMap] is walked is that of the class [HashOrder]. *)
From Stdlib Require Import SpecFloat.
From S2P Require Import Prelude Ordering Field FixedPoint Program Circuit RangeCheck Eltwise DotProduct Norm.

Open Scope nat_scope.

(** [x + y] on [i128], unchecked: a panic in a debug build, wrapped in a release build. *)
Class Arithmetic := i128_add : Z → Z → option Z.
Definition debug_arithmetic : Arithmetic := λ x y,
  if bool_decide (in_i128 (x + y)) then Some (x + y)%Z else None.
Definition release_arithmetic : Arithmetic := λ x y,
  Some ((x + y + 2 ^ 127) mod 2 ^ 128 - 2 ^ 127)%Z.

(** The order in which a [HashMap] yields its entries. *)
Class HashOrder := hash_order : ∀ {A : Type}, list A → list A.
Class HashOrderLaws (H : HashOrder) : Prop := hash_order_Permutation : ∀ A (l : list A), hash_order l ≡ₚ l.

Module Assembler.

(** ** Programs *)

Inductive RegisterRef :=
| Input (i : nat)
| Weight (i : nat)
| Virtual (i : nat).

#[export] Instance RegisterRef_eq_dec : EqDecision RegisterRef.
Proof. solve_decision. Defined.

Record AssemblerInstruction := mkAssemblerInstruction { instruction : Instruction; inputs : list RegisterRef }.

Record AssemblerProgram := mkAssemblerProgram {
  instructions : list AssemblerInstruction;
  input_values : list (list I18);
  weight_values : list (list I18)
}.

(** The texts of [Overflow] and [UnsupportedInstruction] are not modelled. *)
Inductive AssemblerError {E : Type} :=
| UnconfiguredDotK (k : nat)
| RegisterIndexOutOfRange (kind : string) (index : nat)
| DotGeneralInputCount (expected got : nat)
| DotGeneralShapeMismatch (expected_a got_a expected_b got_b : nat)
| DotGeneralBatchDimsUnsupported
| EltwiseInputCount (expected got : nat)
| EltwiseLengthMismatch (a_len b_len : nat)
| UnsupportedInstruction (instruction : Instruction)
| Overflow (cause : option FixedPointError)
| Circuit (e : E)
| RmsNormInputCount (expected got : nat)
| RmsNormShapeMismatch (dim got_x got_weight : nat)
| UnconfiguredRmsNorm (dim : nat) (epsilon_milli : Z)
| RmsNorm (e : RmsNorm.RmsNormError E).
Arguments AssemblerError : clear implicits.

#[export] Instance From_AssemblerError {E} : From E (AssemblerError E) := Circuit.

Record RegisterCells := mkRegisterCells { values : list I18; cells : list Cell }.
Record AssignedTensor := mkAssignedTensor { tensor_values : list I18; tensor_cells : list Cell }.
Record AssignedProgram := mkAssignedProgram {
  assigned_inputs : list AssignedTensor;
  assigned_weights : list AssignedTensor;
  virtuals : list AssignedTensor
}.

Definition into_tensor (register : RegisterCells) : AssignedTensor :=
  mkAssignedTensor (values register) (cells register).

Record AssemblerConfig := mkAssemblerConfig {
  dot : gmap nat DotProduct.DotProductConfig;
  add : EltwiseAddConfig;
  mul : EltwiseMulConfig;
  rms_norm : gmap (nat * Z) RmsNorm.RmsNormConfig;
  boundary : Column;
  bridge_unshifted : Column;
  bridge_shifted : Column;
  s_bridge : Selector;
  public_instance : option Column
}.

(** ** Configuring *)

(** [0.1], [10.0]. *)
Definition rms_norm_default_rsqrt_domain : Rsqrt.RsqrtDomain :=
  Rsqrt.Range (f64_div (f64_of_Z 1) (f64_of_Z 10)) (f64_of_Z 10) 21.

(** [Vec::dedup]. *)
Fixpoint dedup {A} `{EqDecision A} (l : list A) : list A :=
  match l with
  | x :: (y :: _) as l' => if decide (x = y) then dedup l' else x :: dedup l'
  | _ => l
  end.

Definition dot_ks (instructions : list AssemblerInstruction) : list nat :=
  dedup (sort_by Nat.compare (omap (λ instr,
    match instruction instr with DotGeneral _ _ k _ _ _ => Some k | _ => None end) instructions)).

Definition key_compare (x y : nat * Z) : comparison := then_with (Nat.compare x.1 y.1) (Z.compare x.2 y.2).
Definition rms_norm_keys (instructions : list AssemblerInstruction) : list (nat * Z) :=
  dedup (sort_by key_compare (omap (λ instr,
    match instruction instr with Program.RmsNorm dim epsilon_milli => Some (dim, epsilon_milli) | _ => None end) instructions)).

Definition bridge_gate (bridge_unshifted bridge_shifted : Column) (s_bridge : Selector) : Gate :=
  mkGate "assembler shift bridge" s_bridge (λ s_bridge query,
    let unshifted := query bridge_unshifted cur in
    let shifted := query bridge_shifted cur in
    let shift := i128_to_fr SIGNED_SHIFT in
    [s_bridge * (shifted - unshifted - shift)]%Zmod).

(** One dot product per [k], on six shared columns. *)
Definition configure_dots (bits : Column) (ks : list nat) : Meta (list (nat * DotProduct.DotProductConfig)) :=
  match ks with
  | [] => meta_ret []
  | _ =>
      let& a := advice_column in
      let& b := advice_column in
      let& accumulator := advice_column in
      let& q := advice_column in
      let& r := advice_column in
      let& slack := advice_column in
      meta_map (λ k,
        let& cfg := DotProduct.configure a b accumulator q r slack bits k in meta_ret (k, cfg)) ks
  end.

Definition configure_rms_norm (rms_norm_domains : gmap (nat * Z) Rsqrt.RsqrtDomain) (bits : Column) (key : nat * Z)
    : Meta ((nat * Z) * RmsNorm.RmsNormConfig) :=
  let '(dim, epsilon_milli) := key in
  let rsqrt_domain := default rms_norm_default_rsqrt_domain (rms_norm_domains !! key) in
  let& rms_values := advice_column in
  let& rms_sum := advice_column in
  let& rms_sum_shift := advice_column in
  let& rms_mean_q := advice_column in
  let& rms_mean_r := advice_column in
  let& rms_mean_slack := advice_column in
  let& rms_add_a := advice_column in
  let& rms_add_b := advice_column in
  let& rms_add_c := advice_column in
  let& rms_mul_a := advice_column in
  let& rms_mul_b := advice_column in
  let& rms_mul_q := advice_column in
  let& rms_mul_r := advice_column in
  let& rms_mul_slack := advice_column in
  let& rms_rsqrt_input := advice_column in
  let& rms_rsqrt_output := advice_column in
  let& rms_x_anchor := advice_column in
  let& rms_weight_anchor := advice_column in
  let& rms_unshift_in := advice_column in
  let& rms_unshift_out := advice_column in
  let& rms_cfg := RmsNorm.configure rms_values rms_sum rms_sum_shift rms_mean_q rms_mean_r rms_mean_slack
    rms_add_a rms_add_b rms_add_c rms_mul_a rms_mul_b rms_mul_q rms_mul_r rms_mul_slack bits
    rms_rsqrt_input rms_rsqrt_output rms_x_anchor rms_weight_anchor rms_unshift_in rms_unshift_out
    dim epsilon_milli rsqrt_domain in
  meta_ret (key, rms_cfg).

Definition configure_internal (instructions : list AssemblerInstruction)
    (rms_norm_domains : gmap (nat * Z) Rsqrt.RsqrtDomain) (expose_public_instances : bool) : Meta AssemblerConfig :=
  let& bits := advice_column in
  let& dot := configure_dots bits (dot_ks instructions) in
  let& add_a := advice_column in
  let& add_b := advice_column in
  let& add_c := advice_column in
  let& add := add_configure add_a add_b add_c bits in
  let& mul_a := advice_column in
  let& mul_b := advice_column in
  let& mul_q := advice_column in
  let& mul_r := advice_column in
  let& mul_slack := advice_column in
  let& mul := mul_configure mul_a mul_b mul_q mul_r mul_slack bits in
  let& rms_norm := meta_map (configure_rms_norm rms_norm_domains bits) (rms_norm_keys instructions) in
  let& boundary := advice_column in
  let& _ := enable_equality boundary in
  let& bridge_unshifted := advice_column in
  let& bridge_shifted := advice_column in
  let& _ := enable_equality bridge_unshifted in
  let& _ := enable_equality bridge_shifted in
  let& public_instance :=
    if expose_public_instances
    then (let& instance := instance_column in
          let& _ := enable_equality instance in
          meta_ret (Some instance))
    else meta_ret None in
  let& s_bridge := selector in
  let& _ := create_gate (bridge_gate bridge_unshifted bridge_shifted s_bridge) in
  meta_ret (mkAssemblerConfig (list_to_map dot) add mul (list_to_map rms_norm) boundary bridge_unshifted bridge_shifted
    s_bridge public_instance).

Definition configure_with_rms_norm_domains (instructions : list AssemblerInstruction)
    (rms_norm_domains : gmap (nat * Z) Rsqrt.RsqrtDomain) : Meta AssemblerConfig :=
  configure_internal instructions rms_norm_domains false.
Definition configure_with_rms_norm_domains_and_public_instances (instructions : list AssemblerInstruction)
    (rms_norm_domains : gmap (nat * Z) Rsqrt.RsqrtDomain) : Meta AssemblerConfig :=
  configure_internal instructions rms_norm_domains true.
Definition configure (instructions : list AssemblerInstruction) : Meta AssemblerConfig :=
  configure_with_rms_norm_domains instructions ∅.

(** ** Assigning *)

Definition known_or_unknown {A} (known : bool) (value : A) : Value A := if known then Some value else None.

Section DotRow.
Context `{Arithmetic}.

(** [raw_sum += term], and the sums on the way. *)
Fixpoint accumulate (raw_sum : Z) (terms : list Z) : option (list Z) :=
  match terms with
  | [] => Some []
  | term :: terms =>
      raw_sum ← i128_add raw_sum term;
      partial_sums ← accumulate raw_sum terms;
      Some (raw_sum :: partial_sums)
  end.

(** [Iterator::sum]. *)
Fixpoint i128_sum (raw_sum : Z) (terms : list Z) : option Z :=
  match terms with
  | [] => Some raw_sum
  | term :: terms => raw_sum ← i128_add raw_sum term; i128_sum raw_sum terms
  end.

Definition assign_dot_row `{Layouter} (dot : DotProduct.DotProductConfig) (a b : list I18) (witnesses_known : bool)
    : Lay ErrorFront (list Cell * list Cell * Cell) :=
  let k := DotProduct.k dot in
  if negb (length a =? k) then lay_panic else
  if negb (length b =? k) then lay_panic else
  let$ partial_sums := lay_unwrap (accumulate 0 (zip_with (λ x y, raw x * raw y)%Z a b)) in
  let raw_sum := default 0%Z (last partial_sums) in
  let$ '(q, r) := lay_expect (requantize_raw raw_sum) in
  let slack := (SCALE_18 - 1 - r)%Z in
  let '(q_shift_fr, q_shift_raw) := shifted_i64_witness (raw q) in
  let$ '(rows, q_cell, r_cell, slack_cell) := assign_region (λ region,
    let$ rows := lay_map (λ '(i, (x, y, partial_sum)),
      let$ a_cell := assign_advice (DotProduct.a dot) region i (known_or_unknown witnesses_known (i64_to_fr (raw x))) in
      let$ b_cell := assign_advice (DotProduct.b dot) region i (known_or_unknown witnesses_known (i64_to_fr (raw y))) in
      let$ _ := enable (DotProduct.s_shift dot) region i in
      let '(a_shift_fr, _) := shifted_i64_witness (raw x) in
      let '(b_shift_fr, _) := shifted_i64_witness (raw y) in
      let$ a_shift_cell := assign_advice (DotProduct.a_shift dot) region i (witness_value witnesses_known a_shift_fr) in
      let$ b_shift_cell := assign_advice (DotProduct.b_shift dot) region i (witness_value witnesses_known b_shift_fr) in
      let$ _ := assign_advice (DotProduct.accumulator dot) region i
        (known_or_unknown witnesses_known (i128_to_fr partial_sum)) in
      let$ _ := if i =? 0 then enable (DotProduct.s_acc_start dot) region i else enable (DotProduct.s_acc_step dot) region i in
      lay_ret ((a_cell, b_cell), (a_shift_cell, b_shift_cell))) (enumerate (zip (zip a b) partial_sums)) in
    if k =? 0 then lay_panic else
    let last := k - 1 in
    let$ _ := enable (DotProduct.s_final dot) region last in
    let$ _ := enable (DotProduct.s_slack dot) region last in
    let$ q_cell := assign_advice (DotProduct.q dot) region last (witness_value witnesses_known q_shift_fr) in
    let$ r_cell := assign_advice (DotProduct.r dot) region last (known_or_unknown witnesses_known (i128_to_fr r)) in
    let$ slack_cell := assign_advice (DotProduct.slack dot) region last (known_or_unknown witnesses_known (i128_to_fr slack)) in
    lay_ret (rows, q_cell, r_cell, slack_cell)) in
  let$ operand_links := lay_map (λ '(x, y, (a_shift_cell, b_shift_cell)),
    let '(a_shift_fr, a_shift_raw) := shifted_i64_witness (raw x) in
    let$ cell_a := LookupRangeCheck.assign (DotProduct.range_a dot)
      (witness_value witnesses_known a_shift_fr) (witness_value witnesses_known a_shift_raw) in
    let '(b_shift_fr, b_shift_raw) := shifted_i64_witness (raw y) in
    let$ cell_b := LookupRangeCheck.assign (DotProduct.range_b dot)
      (witness_value witnesses_known b_shift_fr) (witness_value witnesses_known b_shift_raw) in
    lay_ret [(a_shift_cell, cell_a); (b_shift_cell, cell_b)]) (zip (zip a b) rows.*2) in
  let$ q_range_cell := RangeCheck.assign (DotProduct.range_q dot)
    (witness_value witnesses_known q_shift_fr) (witness_value witnesses_known q_shift_raw) in
  let$ r_range_cell := RangeCheck.assign (DotProduct.range_r dot)
    (known_or_unknown witnesses_known (i128_to_fr r)) (known_or_unknown witnesses_known r) in
  let$ slack_range_cell := RangeCheck.assign (DotProduct.range_r_slack dot)
    (known_or_unknown witnesses_known (i128_to_fr slack)) (known_or_unknown witnesses_known slack) in
  let$ _ := assign_region (λ _,
    let$ _ := constrain_equal q_cell q_range_cell in
    let$ _ := constrain_equal r_cell r_range_cell in
    let$ _ := constrain_equal slack_cell slack_range_cell in
    lay_iter (λ '(lhs, rhs), constrain_equal lhs rhs) (concat operand_links)) in
  lay_ret (rows.*1.*1, rows.*1.*2, q_cell).
End DotRow.

(** [vec[i]]. *)
Definition index {E A} (l : list A) (i : nat) : Lay E A := lay_unwrap (l !! i).

Definition resolve {E} (reg : RegisterRef) (input_regs weight_regs virtual_regs : list RegisterCells)
    : Result RegisterCells (AssemblerError E) :=
  match reg with
  | Input i => ok_or (input_regs !! i) (RegisterIndexOutOfRange "input" i)
  | Weight i => ok_or (weight_regs !! i) (RegisterIndexOutOfRange "weight" i)
  | Virtual i => ok_or (virtual_regs !! i) (RegisterIndexOutOfRange "virtual" i)
  end.

(** The flat index of [A[i][l]] and of [B[l][j]]. *)
Definition phys_a (m k : nat) (trans_a : bool) (i l : nat) : nat := if trans_a then l * m + i else i * k + l.
Definition phys_b (n k : nat) (trans_b : bool) (l j : nat) : nat := if trans_b then j * k + l else l * n + j.

(** The indices of two nested loops. *)
Definition pairs (m n : nat) : list (nat * nat) := seq 0 m ≫= λ i, pair i <$> seq 0 n.

Section Assign.
Context `{Arithmetic, HashOrder, Layouter} (config : AssemblerConfig).

Definition load_range_tables : Lay ErrorFront unit :=
  let$ _ := lay_iter (λ '(_, cfg), DotProduct.load_range_table cfg) (hash_order (map_to_list (dot config))) in
  load_mul_operand_range_table (mul config).

Definition load_rms_norm_tables : Lay ErrorFront unit :=
  lay_iter (λ '(_, cfg),
    let$ chip := lay_unwrap (RmsNorm.construct cfg) in RmsNorm.load_table chip)
    (hash_order (map_to_list (rms_norm config))).

Section Witnesses.
Context (witnesses_known : bool).

Definition assign_boundary (tensor : list I18) : Lay ErrorFront (list Cell) :=
  assign_region (λ region, lay_map (λ '(row, v),
    assign_advice (boundary config) region row (known_or_unknown witnesses_known (i64_to_fr (raw v)))) (enumerate tensor)).

Definition assign_bridge (raw : Z) : Lay ErrorFront (Cell * Cell) :=
  let unshifted_fr := known_or_unknown witnesses_known (i64_to_fr raw) in
  let '(shifted_fr, _) := shifted_i64_witness raw in
  let shifted_fr := witness_value witnesses_known shifted_fr in
  assign_region (λ region,
    let$ _ := enable (s_bridge config) region 0 in
    let$ unshifted_cell := assign_advice (bridge_unshifted config) region 0 unshifted_fr in
    let$ shifted_cell := assign_advice (bridge_shifted config) region 0 shifted_fr in
    lay_ret (unshifted_cell, shifted_cell)).

(** The bridge from a chip's shifted result to a new register's cell. *)
Definition output_bridge (raw : Z) (result_cell : Cell) : Lay ErrorFront Cell :=
  let$ '(out_unshift_cell, out_shift_cell) := assign_bridge raw in
  let$ _ := assign_region (λ _, constrain_equal out_shift_cell result_cell) in
  lay_ret out_unshift_cell.

(** The bridge from a register's cell to a shifted operand. *)
Definition operand_bridge (raw : Z) (register_cell : Cell) : Lay ErrorFront Cell :=
  let$ '(unshift_cell, shift_cell) := assign_bridge raw in
  let$ _ := assign_region (λ _, constrain_equal unshift_cell register_cell) in
  lay_ret shift_cell.

Definition assign_dot_element (m n k : nat) (trans_a trans_b : bool) (dot_config : DotProduct.DotProductConfig)
    (a_reg b_reg : RegisterCells) (i j : nat) : Lay (AssemblerError ErrorFront) (I18 * Cell) :=
  let$ a_vec := lay_map (λ l, index (values a_reg) (phys_a m k trans_a i l)) (seq 0 k) in
  let$ b_vec := lay_map (λ l, index (values b_reg) (phys_b n k trans_b l j)) (seq 0 k) in
  let$ raw_sum := lay_unwrap (i128_sum 0 (zip_with (λ x y, raw x * raw y)%Z a_vec b_vec)) in
  let$ '(q, _) := lay_lift (map_err (Overflow ∘ Some) (requantize_raw raw_sum)) in
  let$ '(a_cells, b_cells, q_cell) := lay_try (assign_dot_row dot_config a_vec b_vec witnesses_known) in
  let$ _ := lay_try (assign_region (λ _, lay_iter (λ l,
    let$ a_cell := index a_cells l in
    let$ a_reg_cell := index (cells a_reg) (phys_a m k trans_a i l) in
    let$ _ := constrain_equal a_cell a_reg_cell in
    let$ b_cell := index b_cells l in
    let$ b_reg_cell := index (cells b_reg) (phys_b n k trans_b l j) in
    constrain_equal b_cell b_reg_cell) (seq 0 k))) in
  let$ out_unshifted_cell := lay_try (output_bridge (raw q) q_cell) in
  lay_ret (q, out_unshifted_cell).

Definition assign_dot_general (inputs : list RegisterRef) (input_regs weight_regs virtual_regs : list RegisterCells)
    (m n k : nat) (batch_dims : list nat) (trans_a trans_b : bool) : Lay (AssemblerError ErrorFront) RegisterCells :=
  if negb (bool_decide (batch_dims = [])) then lay_err DotGeneralBatchDimsUnsupported else
  match inputs with
  | [a_ref; b_ref] =>
      let$ a_reg := lay_lift (resolve a_ref input_regs weight_regs virtual_regs) in
      let$ b_reg := lay_lift (resolve b_ref input_regs weight_regs virtual_regs) in
      let expected_a_len := m * k in
      let expected_b_len := k * n in
      if negb (length (values a_reg) =? expected_a_len) || negb (length (values b_reg) =? expected_b_len)
      then lay_err (DotGeneralShapeMismatch expected_a_len (length (values a_reg)) expected_b_len (length (values b_reg))) else
      let$ dot_config := lay_lift (ok_or (dot config !! k) (UnconfiguredDotK k)) in
      let$ out := lay_map (λ '(i, j), assign_dot_element m n k trans_a trans_b dot_config a_reg b_reg i j) (pairs m n) in
      lay_ret (mkRegisterCells out.*1 out.*2)
  | _ => lay_err (DotGeneralInputCount 2 (length inputs))
  end.

(** One element of [Add] and of [Mul]. *)
Definition assign_add_element (a_val b_val : I18) (a_reg_cell b_reg_cell : Cell)
    : Lay (AssemblerError ErrorFront) (I18 * Cell) :=
  let$ c_raw := lay_lift (ok_or (try_i64 (raw a_val + raw b_val)) (Overflow None)) in
  let$ a_shift_cell := lay_try (operand_bridge (raw a_val) a_reg_cell) in
  let$ b_shift_cell := lay_try (operand_bridge (raw b_val) b_reg_cell) in
  let$ '(a_cell, b_cell, c_cell) :=
    lay_try (assign_add_row_with_witnesses (add config) (raw a_val) (raw b_val) witnesses_known) in
  let$ _ := lay_try (assign_region (λ _,
    let$ _ := constrain_equal a_cell a_shift_cell in
    let$ _ := constrain_equal b_cell b_shift_cell in
    lay_ret tt)) in
  let$ out_unshift_cell := lay_try (output_bridge c_raw c_cell) in
  lay_ret (from_raw c_raw, out_unshift_cell).

Definition assign_mul_element (a_val b_val : I18) (a_reg_cell b_reg_cell : Cell)
    : Lay (AssemblerError ErrorFront) (I18 * Cell) :=
  let$ '(q, _) := lay_lift (map_err (Overflow ∘ Some) (requantize_mul a_val b_val)) in
  let$ '(a_cell, b_cell, q_cell) := lay_try (assign_mul_row_with_witnesses (mul config) a_val b_val witnesses_known) in
  let$ _ := lay_try (assign_region (λ _,
    let$ _ := constrain_equal a_cell a_reg_cell in
    let$ _ := constrain_equal b_cell b_reg_cell in
    lay_ret tt)) in
  let$ out_unshift_cell := lay_try (output_bridge (raw q) q_cell) in
  lay_ret (q, out_unshift_cell).

(** [x % 0] panics. *)
Definition usize_mod (x y : nat) : option nat := if y =? 0 then None else Some (x mod y).

Definition assign_eltwise (inputs : list RegisterRef) (input_regs weight_regs virtual_regs : list RegisterCells)
    (op : EltwiseOp) : Lay (AssemblerError ErrorFront) RegisterCells :=
  match inputs with
  | [a_ref; b_ref] =>
      let$ a_reg := lay_lift (resolve a_ref input_regs weight_regs virtual_regs) in
      let$ b_reg := lay_lift (resolve b_ref input_regs weight_regs virtual_regs) in
      let len_a := length (values a_reg) in
      let len_b := length (values b_reg) in
      let out_len := len_a `max` len_b in
      let mismatch := lay_err (EltwiseLengthMismatch len_a len_b) in
      if out_len =? 0 then mismatch else
      let$ rem_a := lay_unwrap (usize_mod out_len len_a) in
      if negb (rem_a =? 0) then mismatch else
      let$ rem_b := lay_unwrap (usize_mod out_len len_b) in
      if negb (rem_b =? 0) then mismatch else
      let$ out := lay_map (λ idx,
        let a_idx := idx mod len_a in
        let b_idx := idx mod len_b in
        let$ a_val := index (values a_reg) a_idx in
        let$ b_val := index (values b_reg) b_idx in
        let$ a_reg_cell := index (cells a_reg) a_idx in
        let$ b_reg_cell := index (cells b_reg) b_idx in
        match op with
        | Add => assign_add_element a_val b_val a_reg_cell b_reg_cell
        | Mul => assign_mul_element a_val b_val a_reg_cell b_reg_cell
        | Relu => lay_err (UnsupportedInstruction (Eltwise Relu))
        end) (seq 0 out_len) in
      lay_ret (mkRegisterCells out.*1 out.*2)
  | _ => lay_err (EltwiseInputCount 2 (length inputs))
  end.

Definition assign_rms_norm (inputs : list RegisterRef) (input_regs weight_regs virtual_regs : list RegisterCells)
    (dim : nat) (epsilon_milli : Z) : Lay (AssemblerError ErrorFront) RegisterCells :=
  match inputs with
  | [x_ref; weight_ref] =>
      let$ x_reg := lay_lift (resolve x_ref input_regs weight_regs virtual_regs) in
      let$ weight_reg := lay_lift (resolve weight_ref input_regs weight_regs virtual_regs) in
      if negb (length (values x_reg) =? dim) || negb (length (values weight_reg) =? dim)
      then lay_err (RmsNormShapeMismatch dim (length (values x_reg)) (length (values weight_reg))) else
      let$ rms_config := lay_lift (ok_or (rms_norm config !! (dim, epsilon_milli)) (UnconfiguredRmsNorm dim epsilon_milli)) in
      let$ chip := lay_unwrap (RmsNorm.construct rms_config) in
      let$ result := lay_map_err RmsNorm
        (RmsNorm.assign_with_witnesses chip witnesses_known (values x_reg) (values weight_reg)) in
      let$ _ := lay_try (assign_region (λ _, lay_iter (λ i,
        let$ input_cell := index (RmsNorm.input_cells result) i in
        let$ x_cell := index (cells x_reg) i in
        let$ _ := constrain_equal input_cell x_cell in
        let$ weight_cell := index (RmsNorm.weight_cells result) i in
        let$ weight_reg_cell := index (cells weight_reg) i in
        constrain_equal weight_cell weight_reg_cell) (seq 0 dim))) in
      let$ out_cells := lay_try (lay_map (λ '(i, out),
        let$ output_cell := index (RmsNorm.output_cells result) i in
        output_bridge (raw out) output_cell) (enumerate (RmsNorm.outputs result))) in
      lay_ret (mkRegisterCells (RmsNorm.outputs result) out_cells)
  | _ => lay_err (RmsNormInputCount 2 (length inputs))
  end.

Definition assign_instruction (instr : AssemblerInstruction) (input_regs weight_regs virtual_regs : list RegisterCells)
    : Lay (AssemblerError ErrorFront) RegisterCells :=
  match instruction instr with
  | DotGeneral m n k batch_dims trans_a trans_b =>
      assign_dot_general (inputs instr) input_regs weight_regs virtual_regs m n k batch_dims trans_a trans_b
  | Eltwise (Add as op) | Eltwise (Mul as op) => assign_eltwise (inputs instr) input_regs weight_regs virtual_regs op
  | Program.RmsNorm dim epsilon_milli =>
      assign_rms_norm (inputs instr) input_regs weight_regs virtual_regs dim epsilon_milli
  | other => lay_err (UnsupportedInstruction other)
  end.

Fixpoint assign_instructions (instructions : list AssemblerInstruction)
    (input_regs weight_regs virtual_regs : list RegisterCells) : Lay (AssemblerError ErrorFront) (list RegisterCells) :=
  match instructions with
  | [] => lay_ret virtual_regs
  | instr :: instructions =>
      let$ out := assign_instruction instr input_regs weight_regs virtual_regs in
      assign_instructions instructions input_regs weight_regs (virtual_regs ++ [out])
  end.

Definition assign_registers (tensors : list (list I18)) : Lay (AssemblerError ErrorFront) (list RegisterCells) :=
  lay_map (λ tensor,
    let$ cells := lay_try (assign_boundary tensor) in
    lay_ret (mkRegisterCells tensor cells)) tensors.

Definition assign_with_cells_with_witnesses (program : AssemblerProgram) : Lay (AssemblerError ErrorFront) AssignedProgram :=
  let$ _ := lay_try load_range_tables in
  let$ input_regs := assign_registers (input_values program) in
  let$ weight_regs := assign_registers (weight_values program) in
  let$ virtual_regs := assign_instructions (instructions program) input_regs weight_regs [] in
  lay_ret (mkAssignedProgram (into_tensor <$> input_regs) (into_tensor <$> weight_regs) (into_tensor <$> virtual_regs)).
End Witnesses.

Definition assign_with_cells (program : AssemblerProgram) : Lay (AssemblerError ErrorFront) AssignedProgram :=
  assign_with_cells_with_witnesses true program.

Definition assign (program : AssemblerProgram) : Lay (AssemblerError ErrorFront) (list (list I18)) :=
  let$ assigned := assign_with_cells program in
  lay_ret (tensor_values <$> virtuals assigned).
End Assign.

End Assembler.
