(* ===== verification/Evaluate.v ===== *)
(** * What a program computes

    The reference semantics of assembled programs, on tensors of fixed-point
    numbers: exact sums and products, each rounded down once.  A number outside
    [i64] has no place in a tensor, and reading it fails.  Not code: the
    specification that the circuit and the host computations are proved against. *)
From S2P Require Import Prelude FixedPoint Program DotProduct Assembler.
Import Assembler.

Open Scope nat_scope.

Definition tensor_at (v : list I18) (i : nat) : option I18 :=
  x ← v !! i; if bool_decide (in_I18 x) then Some x else None.

(** Sums: exact, or failing when a partial sum leaves [i128]. *)
Definition exact_total (terms : list Z) : option Z := Some (zsum terms).
Fixpoint checked_sum (sum : Z) (terms : list Z) : option Z :=
  match terms with
  | [] => Some sum
  | term :: terms => if bool_decide (in_i128 (sum + term)) then checked_sum (sum + term) terms else None
  end.
Definition checked_total : list Z → option Z := checked_sum 0.

Section Total.
Context (total : list Z → option Z).

(** The element [i, j] of a product of matrices. *)
Definition dot_at (m n k : nat) (trans_a trans_b : bool) (a b : list I18) (ij : nat * nat) : option I18 :=
  xs ← mapM (λ l, tensor_at a (phys_a m k trans_a ij.1 l)) (seq 0 k);
  ys ← mapM (λ l, tensor_at b (phys_b n k trans_b l ij.2)) (seq 0 k);
  sum ← total (DotProduct.products (raw <$> xs) (raw <$> ys));
  match requantize_raw sum with
  | Ok (q, _) => Some q
  | Err _ => None
  end.

Definition dot_general (m n k : nat) (trans_a trans_b : bool) (a b : list I18) : option (list I18) :=
  if (length a =? m * k) && (length b =? k * n)
  then mapM (dot_at m n k trans_a trans_b a b) (pairs m n) else None.

Definition add_numbers (x y : I18) : option I18 := I18_ <$> try_i64 (raw x + raw y).
Definition mul_numbers (x y : I18) : option I18 :=
  match requantize_mul x y with Ok (q, _) => Some q | Err _ => None end.

Definition eltwise_at (f : I18 → I18 → option I18) (a b : list I18) (idx : nat) : option I18 :=
  x ← tensor_at a (idx mod length a);
  y ← tensor_at b (idx mod length b);
  f x y.

(** The shorter operand is repeated. *)
Definition eltwise (f : I18 → I18 → option I18) (a b : list I18) : option (list I18) :=
  let out_len := length a `max` length b in
  if (0 <? length a) && (0 <? length b) && (out_len mod length a =? 0) && (out_len mod length b =? 0)
  then mapM (eltwise_at f a b) (seq 0 out_len) else None.

Definition eval_instruction (instr : Instruction) (a b : list I18) : option (list I18) :=
  match instr with
  | DotGeneral m n k [] trans_a trans_b => dot_general m n k trans_a trans_b a b
  | Eltwise Add => eltwise add_numbers a b
  | Eltwise Mul => eltwise mul_numbers a b
  | _ => None
  end.

(** ** Programs *)

Definition register (input_tensors weight_tensors virts : list (list I18)) (reg : RegisterRef) : option (list I18) :=
  match reg with
  | Input i => input_tensors !! i
  | Weight i => weight_tensors !! i
  | Virtual i => virts !! i
  end.

Definition operands (input_tensors weight_tensors virts : list (list I18)) (instr : AssemblerInstruction)
    : option (list I18 * list I18) :=
  match inputs instr with
  | [r; r'] =>
      a ← register input_tensors weight_tensors virts r;
      b ← register input_tensors weight_tensors virts r';
      Some (a, b)
  | _ => None
  end.

Fixpoint eval_program (input_tensors weight_tensors : list (list I18)) (instrs : list AssemblerInstruction)
    (virts : list (list I18)) : option (list (list I18)) :=
  match instrs with
  | [] => Some virts
  | instr :: instrs =>
      '(a, b) ← operands input_tensors weight_tensors virts instr;
      out ← eval_instruction (instruction instr) a b;
      eval_program input_tensors weight_tensors instrs (virts ++ [out])
  end.
End Total.

(** A run of a program whose instructions are known by the relation [step]. *)
Section Runs.
Context (step : Instruction → list I18 → list I18 → list I18 → Prop) (input_tensors weight_tensors : list (list I18)).

Inductive runs : list AssemblerInstruction → list (list I18) → list (list I18) → Prop :=
| runs_done virts : runs [] virts virts
| runs_step instr instrs virts a b out final :
    operands input_tensors weight_tensors virts instr = Some (a, b) →
    step (instruction instr) a b out →
    runs instrs (virts ++ [out]) final →
    runs (instr :: instrs) virts final.

(** Registers are never rewritten, and each instruction makes one. *)
Lemma runs_extend instrs virts final : runs instrs virts final → ∃ outs, final = virts ++ outs ∧ length outs = length instrs.
Proof.
  induction 1 as [virts|instr instrs virts a b out final _ _ _ (outs & -> & Hl)].
  - exists []. by rewrite app_nil_r.
  - exists (out :: outs). rewrite <-app_assoc. simpl. by rewrite Hl.
Qed.
End Runs.

(** Runs of a functional step are evaluations. *)
Lemma runs_eval total (step : Instruction → list I18 → list I18 → list I18 → Prop) input_tensors weight_tensors instrs virts final :
  Forall (λ instr, ∀ a b out, step (instruction instr) a b out → eval_instruction total (instruction instr) a b = Some out) instrs →
  runs step input_tensors weight_tensors instrs virts final →
  eval_program total input_tensors weight_tensors instrs virts = Some final.
Proof.
  intros Hf Hr. induction Hr as [|instr instrs virts a b out final Ho Hs Hr IH]; [done|].
  apply Forall_cons_1 in Hf as [Hi Hf]. cbn [eval_program]. rewrite Ho. cbn [mbind option_bind].
  rewrite (Hi _ _ _ Hs). by apply IH.
Qed.

(** ** Reading a tensor *)

Lemma tensor_at_lookup v i : Forall in_I18 v → tensor_at v i = v !! i.
Proof.
  intros Hv. unfold tensor_at. destruct (v !! i) as [x|] eqn:E; [|done]. simpl.
  rewrite bool_decide_eq_true_2; [done|]. rewrite Forall_lookup in Hv. eauto.
Qed.
Lemma tensor_at_Some v i x : tensor_at v i = Some x ↔ v !! i = Some x ∧ in_I18 x.
Proof.
  unfold tensor_at. destruct (v !! i) as [y|]; simpl; [|naive_solver]. case_bool_decide; naive_solver.
Qed.

Lemma mapM_in_I18 {A} (f : A → option I18) l out :
  (∀ x y, f x = Some y → in_I18 y) → mapM f l = Some out → Forall in_I18 out.
Proof. intros Hf Hm%mapM_Some. induction Hm; constructor; eauto. Qed.

(** What is computed is in range. *)
Lemma eval_instruction_typed total instr a b out : eval_instruction total instr a b = Some out → Forall in_I18 out.
Proof.
  destruct instr as [m n k [|] ta tb| | | | |[]| | |]; simpl; try done; unfold dot_general, eltwise.
  - destruct (_ && _); [|done]. apply mapM_in_I18. intros ij q. unfold dot_at.
    intros (xs & _ & (ys & _ & (s & _ & H)%bind_Some)%bind_Some)%bind_Some. destruct (requantize_raw _) as [[q' r]|] eqn:E; simplify_eq.
    by apply requantize_raw_Ok in E as [? _].
  - destruct (_ && _); [|done]. apply mapM_in_I18. intros idx q (x & _ & (y & _ & H)%bind_Some)%bind_Some.
    unfold add_numbers in H. apply fmap_Some in H as (z & [-> Hz]%try_i64_Some & ->). done.
  - destruct (_ && _); [|done]. apply mapM_in_I18. intros idx q (x & _ & (y & _ & H)%bind_Some)%bind_Some.
    unfold mul_numbers in H. destruct (requantize_mul x y) as [[q' r]|] eqn:E; simplify_eq.
    by apply requantize_mul_Ok in E as [? _].
Qed.

(** ** Checked evaluation is exact *)

Lemma checked_sum_Some sum terms s : checked_sum sum terms = Some s → s = (sum + zsum terms)%Z.
Proof.
  revert sum. induction terms as [|t terms IH]; intros sum; cbn [checked_sum]; [intros [= <-]; unfold zsum; simpl; lia|].
  case_bool_decide; [|done]. intros ->%IH. rewrite zsum_cons. lia.
Qed.
Lemma checked_total_exact terms s : checked_total terms = Some s → exact_total terms = Some s.
Proof. intros ->%checked_sum_Some. done. Qed.

Lemma eval_instruction_exact instr a b out :
  eval_instruction checked_total instr a b = Some out → eval_instruction exact_total instr a b = Some out.
Proof.
  destruct instr as [m n k [|] ta tb| | | | |[]| | |]; try done. simpl. unfold dot_general. destruct (_ && _); [|done].
  rewrite !mapM_Some. intros Hf. eapply Forall2_impl; [exact Hf|]. intros ij q. unfold dot_at.
  intros (xs & -> & (ys & Hys & (s & Hs%checked_total_exact & Hq)%bind_Some)%bind_Some)%bind_Some.
  cbn [mbind option_bind]. rewrite Hys. cbn [mbind option_bind]. by rewrite Hs.
Qed.
