(* ===== verification/Binding.v ===== *)
(** * Binding programs

    zkie-compiler: circuit_binding.rs turns a compiled program and concrete inputs
    into a program of the assembler; shard_binding.rs does the same for one shard of
    a partition plan, given what earlier shards hand over.  [None] is a panic.  The
    texts of errors are not modelled. *)
From Stdlib Require Import SpecFloat.
From stdpp Require Import gmap.
From S2P Require Import Prelude Ordering Bytes Identity FixedPoint Program Onnx Dag Partition Assembler.
Import Assembler Onnx.

Open Scope nat_scope.

(** ** Weights *)

(** The weights converted so far, each at the index of its first use. *)
Record Weights := mkWeights { weight_index : gmap string nat; weight_tensors : list (list I18) }.

Definition load_weight (program : CompiledProgram) (name : string) (weights : Weights) : Result (nat * Weights) OnnxParseError :=
  match weight_index weights !! name with
  | Some idx => Ok (idx, weights)
  | None =>
      let? values := weight_as_i18 program name in
      let idx := length (weight_tensors weights) in
      Ok (idx, mkWeights (<[name := idx]> (weight_index weights)) (weight_tensors weights ++ [values]))
  end.

(** [iter().map(..).collect()] of a closure that updates a state. *)
Fixpoint map_state {A B S E} (f : A → S → Result (B * S) E) (l : list A) (s : S) : Result (list B * S) E :=
  match l with
  | [] => Ok ([], s)
  | a :: l => let? '(b, s) := f a s in let? '(bs, s) := map_state f l s in Ok (b :: bs, s)
  end.

(** ** Whole programs *)

Module CircuitBinding.

Inductive CircuitBindingError :=
| MissingGraphInput (name : string)
| WeightError (error : OnnxParseError).

Definition resolve_register (program : CompiledProgram) (input_index : gmap string nat) (reg : Program.Register) (weights : Weights)
    : Result (RegisterRef * Weights) CircuitBindingError :=
  match reg with
  | GraphInput name =>
      let? idx := ok_or (input_index !! name) (MissingGraphInput name) in
      Ok (Input idx, weights)
  | Program.Weight name =>
      let? '(idx, weights) := map_err WeightError (load_weight program name weights) in
      Ok (Weight idx, weights)
  | Program.Virtual i => Ok (Virtual i, weights)
  end.

Definition bind_instruction (program : CompiledProgram) (input_index : gmap string nat) (compiled_instr : CompiledInstruction) (weights : Weights)
    : Result (AssemblerInstruction * Weights) CircuitBindingError :=
  let? '(inputs, weights) := map_state (resolve_register program input_index) (ci_inputs compiled_instr) weights in
  Ok (mkAssemblerInstruction (ci_instruction compiled_instr) inputs, weights).

Definition to_assembler_program (program : CompiledProgram) (graph_input_values : gmap string (list I18))
    : Result AssemblerProgram CircuitBindingError :=
  let? input_values := result_mapM (λ name, ok_or (graph_input_values !! name) (MissingGraphInput name)) (cp_graph_inputs program) in
  let input_index := collect_map (imap (λ idx name, (name, idx)) (cp_graph_inputs program)) in
  let? '(instructions, weights) := map_state (bind_instruction program input_index) (cp_instructions program) (mkWeights ∅ []) in
  Ok (mkAssemblerProgram instructions input_values (weight_tensors weights)).

End CircuitBinding.

(** ** Shards *)

Module ShardBinding.

Record BoundaryTensorSpec := mkTensorSpec { bt_register : Program.Register; bt_element_count : nat }.
Record BoundaryLayout := mkLayout { specs : list BoundaryTensorSpec }.
Record BoundaryDescriptor := mkDescriptor {
  bd_register : Program.Register; bd_element_count : nat; bd_edge_ids : list string; bd_graph_output_names : list string }.
Record BoundShardProgram := mkBoundShard {
  assembler_program : AssemblerProgram;
  input_boundaries : list BoundaryDescriptor;
  output_boundaries : list BoundaryDescriptor;
  global_to_local : gmap nat nat;
  weight_names : list string;
  partition_plan_digest : Digest32;
  bs_shard_id : nat;
  bs_shard_name : string;
  bs_shard_range : Range
}.

Inductive ShardBindingError :=
| UnknownShard (shard_id : nat)
| PlanProgramMismatch
| BoundaryLayoutMismatch
| InvalidBoundaryLayout
| DuplicateBoundary
| MissingBoundaryShape (register : Program.Register)
| MissingBoundary (register : Program.Register)
| ExtraBoundary (register : Program.Register)
| MissingGraphInput (name : string)
| BoundaryLengthMismatch (register : Program.Register) (expected actual : nat)
| LaterOrOutsideReference (instruction : nat) (register : Program.Register)
| OutputOutsideProgram (register : Program.Register)
| WeightError (error : OnnxParseError).

(** *** Layouts *)

Definition register_key (register : Program.Register) : Z * string * Z :=
  match register with
  | GraphInput name => (0%Z, name, 0%Z)
  | Program.Virtual index => (1%Z, EmptyString, Z.of_nat index)
  | Program.Weight name => (2%Z, name, 0%Z)
  end.
Definition compare_registers (left right : Program.Register) : comparison := compare_register_key (register_key left) (register_key right).

Definition is_weight (register : Program.Register) : bool := match register with Program.Weight _ => true | _ => false end.
Definition flat (register : Program.Register) (element_count : nat) : Result BoundaryTensorSpec ShardBindingError :=
  if (element_count =? 0) || is_weight register then Err InvalidBoundaryLayout else Ok (mkTensorSpec register element_count).

(** [windows(2)]. *)
Fixpoint adjacent_equal (l : list Program.Register) : bool :=
  match l with r :: ((r' :: _) as rest) => bool_decide (r = r') || adjacent_equal rest | _ => false end.
Definition layout_new (specs : list BoundaryTensorSpec) : Result BoundaryLayout ShardBindingError :=
  let specs := sort_by (λ left right, compare_registers (bt_register left) (bt_register right)) specs in
  if adjacent_equal (bt_register <$> specs) then Err DuplicateBoundary else Ok (mkLayout specs).

Definition encode_spec (spec : BoundaryTensorSpec) : option bytes :=
  match bt_register spec with
  | GraphInput name => Some (byte_of_Z 0 :: encode_text name ++ encode_usize (bt_element_count spec))
  | Program.Virtual index => Some (byte_of_Z 1 :: encode_usize index ++ encode_usize (bt_element_count spec))
  | Program.Weight _ => None
  end.
Definition layout_preimage (self : BoundaryLayout) : option bytes :=
  encoded ← mapM encode_spec (specs self);
  Some (as_bytes "zkie.boundary-layout.v1" ++ [byte_of_Z 0] ++ encode_usize (length (specs self)) ++ mjoin encoded).
Definition layout_digest (blake3 : bytes → Digest32) (self : BoundaryLayout) : option Digest32 := blake3 <$> layout_preimage self.

Definition layout_get (self : BoundaryLayout) (register : Program.Register) : Result BoundaryTensorSpec ShardBindingError :=
  ok_or (find (λ spec, bool_decide (bt_register spec = register)) (specs self)) (MissingBoundaryShape register).

(** *** Equality of programs, whose weights are [f32] *)

Definition f32_eqb (a b : Z) : bool := SFeqb (f32_to_f64 a) (f32_to_f64 b).
Definition weight_eqb (a b : WeightTensor) : bool :=
  bool_decide (wt_shape a = wt_shape b) && (length (wt_data a) =? length (wt_data b)) && forallb (λ '(x, y), f32_eqb x y) (zip (wt_data a) (wt_data b)).
Definition weights_eqb (a b : gmap string WeightTensor) : bool :=
  (size a =? size b) && forallb (λ '(name, x), match b !! name with Some y => weight_eqb x y | None => false end) (map_to_list a).
#[export] Instance CompiledInstruction_eq_dec : EqDecision CompiledInstruction.
Proof. solve_decision. Defined.
Definition matches_program (plan : PartitionPlan) (program : CompiledProgram) : bool :=
  let snapshot := pp_program_snapshot plan in
  bool_decide (cp_instructions snapshot = cp_instructions program) && weights_eqb (cp_weights snapshot) (cp_weights program) &&
  bool_decide (cp_graph_inputs snapshot = cp_graph_inputs program) && bool_decide (cp_graph_outputs snapshot = cp_graph_outputs program).

#[export] Instance Range_eq_dec : EqDecision Range.
Proof. solve_decision. Defined.
#[export] Instance Shard_eq_dec : EqDecision Shard.
Proof. solve_decision. Defined.
#[export] Instance EdgeKind_eq_dec : EqDecision EdgeKind.
Proof. solve_decision. Defined.
#[export] Instance Edge_eq_dec : EqDecision Edge.
Proof. solve_decision. Defined.
#[export] Instance Dag_eq_dec : EqDecision Dag.
Proof. solve_decision. Defined.

(** *** Checks *)

(** The first check: no instruction reads itself or a later one. *)
Definition forward_reference (instruction : nat) (register : Program.Register) : bool :=
  match register with Program.Virtual producer => instruction <=? producer | _ => false end.
Fixpoint check_references (instruction : nat) (instructions : list CompiledInstruction) : Result unit ShardBindingError :=
  match instructions with
  | [] => Ok ()
  | compiled :: instructions =>
      match find (forward_reference instruction) (ci_inputs compiled) with
      | Some register => Err (LaterOrOutsideReference instruction register)
      | None => check_references (S instruction) instructions
      end
  end.

Definition shard_specs (plan : PartitionPlan) : list ShardSpec := (λ shard, mkSpec (ps_name shard) (ps_range shard)) <$> pp_shards plan.

Section Bind.
Context (blake3 : bytes → Digest32) `{HashOrder}.

(** The plan is of this program and this layout, and its shards are those of its DAG, which is the DAG of the program. *)
Definition check_plan (program : CompiledProgram) (plan : PartitionPlan) (shard_id : nat) (program_model_digest : Digest32)
    (boundary_layout : BoundaryLayout) : Outcome (PlannedShard * Shard) ShardBindingError :=
  if negb (bool_decide (program_model_digest = pp_model_digest plan)) || negb (matches_program plan program) then Some (Err PlanProgramMismatch) else
  or_panic (layout_digest blake3 boundary_layout) (λ digest,
  if negb (bool_decide (pp_boundary_layout_digest plan = Some digest)) then Some (Err BoundaryLayoutMismatch) else
  outcome_bind (Some (ok_or (pp_shards plan !! shard_id) (UnknownShard shard_id))) (λ planned,
  outcome_bind (Some (ok_or (dag_shards (pp_dag plan) !! shard_id) PlanProgramMismatch)) (λ dag_shard,
  if negb (bool_decide (ps_id planned = shard_id)) || negb (bool_decide (Dag.shard_id dag_shard = shard_id)) ||
     negb (bool_decide (ps_range planned = shard_range dag_shard)) || negb (bool_decide (ps_name planned = shard_name dag_shard))
  then Some (Err PlanProgramMismatch) else
  or_panic (build_dag program (shard_specs plan)) (λ rebuilt,
  Some (let? rebuilt := map_err (λ _, PlanProgramMismatch) rebuilt in
    if bool_decide (rebuilt = pp_dag plan) then Ok (planned, dag_shard) else Err PlanProgramMismatch))))).

(** [incoming] has exactly the registers that the shard reads from earlier ones; which one an error names is up to the order of the hash map. *)
Definition check_incoming (expected_incoming : gset Program.Register) (incoming : gmap Program.Register (list I18)) : Result unit ShardBindingError :=
  match find (λ register, bool_decide (incoming !! register = None)) (hash_order (elements expected_incoming)) with
  | Some register => Err (MissingBoundary register)
  | None =>
      match find (λ register, bool_decide (register ∉ expected_incoming)) (hash_order (map_to_list incoming).*1) with
      | Some register => Err (ExtraBoundary register)
      | None => Ok ()
      end
  end.

(** [&items[range]]. *)
Definition slice_range {A} (l : list A) (range : Range) : option (list A) :=
  if (range_start range <=? range_end range) && (range_end range <=? length l) then Some (slice l (range_start range) (range_end range)) else None.

(** The registers a shard reads from outside. *)
Definition external_register (range : Range) (expected_incoming : gset Program.Register) (global : nat) (external : gset Program.Register)
    (register : Program.Register) : Result (gset Program.Register) ShardBindingError :=
  match register with
  | GraphInput _ => Ok ({[register]} ∪ external)
  | Program.Weight _ => Ok external
  | Program.Virtual source =>
      if source <? range_start range then
        if bool_decide (register ∈ expected_incoming) then Ok ({[register]} ∪ external) else Err PlanProgramMismatch
      else if (source <? global) && range_contains range source then Ok external
      else Err (LaterOrOutsideReference global register)
  end.
Definition external_instruction (range : Range) (expected_incoming : gset Program.Register) (external : gset Program.Register)
    (numbered : nat * CompiledInstruction) : Result (gset Program.Register) ShardBindingError :=
  result_fold (external_register range expected_incoming (range_start range + numbered.1)) external (ci_inputs numbered.2).
Definition external_registers (range : Range) (expected_incoming : gset Program.Register) (instructions : list CompiledInstruction)
    : Result (gset Program.Register) ShardBindingError :=
  result_fold (external_instruction range expected_incoming) ∅ (imap pair instructions).

Definition descriptor (plan : PartitionPlan) (shard_id : nat) (register : Program.Register) (element_count : nat) (producer_side : bool)
    : BoundaryDescriptor :=
  let edges := filter (λ edge, edge_register edge = register ∧ (if producer_side then edge_producer edge else edge_consumer edge) = shard_id)
    (dag_edges (pp_dag plan)) in
  mkDescriptor register element_count (sort_by String.compare (edge_id <$> edges)) [].

(** The values of one external register. *)
Definition input_boundary (plan : PartitionPlan) (shard_id : nat) (boundary_layout : BoundaryLayout) (graph_inputs : gmap string (list I18))
    (incoming : gmap Program.Register (list I18)) (register : Program.Register) : Outcome (list I18 * BoundaryDescriptor) ShardBindingError :=
  outcome_bind (Some (layout_get boundary_layout register)) (λ spec,
  outcome_bind
    match register with
    | GraphInput name => Some (ok_or (graph_inputs !! name) (MissingGraphInput name))
    | Program.Virtual _ => Some (ok_or (incoming !! register) (MissingBoundary register))
    | Program.Weight _ => None
    end (λ values,
  Some (if negb (length values =? bt_element_count spec) then Err (BoundaryLengthMismatch register (bt_element_count spec) (length values))
    else Ok (values, descriptor plan shard_id register (bt_element_count spec) false)))).
Fixpoint outcome_mapM {A B E} (f : A → Outcome B E) (l : list A) : Outcome (list B) E :=
  match l with
  | [] => Some (Ok [])
  | a :: l => outcome_bind (f a) (λ b, outcome_bind (outcome_mapM f l) (λ bs, Some (Ok (b :: bs))))
  end.

(** The weights of a shard, with their names. *)
Record NamedWeights := mkNamed { named_weights : Weights; names : list string }.

(** One operand; [None] is the panic of a map without the key. *)
Definition local_register (program : CompiledProgram) (range : Range) (global : nat) (input_index : gmap Program.Register nat)
    (global_to_local : gmap nat nat) (register : Program.Register) (weights : NamedWeights) : Outcome (RegisterRef * NamedWeights) ShardBindingError :=
  match register with
  | GraphInput _ => or_panic (input_index !! register) (λ idx, Some (Ok (Input idx, weights)))
  | Program.Weight name => Some (
      let? '(idx, loaded) := map_err WeightError (load_weight program name (named_weights weights)) in
      let new := bool_decide (weight_index (named_weights weights) !! name = None) in
      Ok (Weight idx, mkNamed loaded (if new then names weights ++ [name] else names weights)))
  | Program.Virtual source =>
      if range_contains range source && (source <? global) then or_panic (global_to_local !! source) (λ idx, Some (Ok (Virtual idx, weights)))
      else if source <? range_start range then or_panic (input_index !! register) (λ idx, Some (Ok (Input idx, weights)))
      else Some (Err (LaterOrOutsideReference global register))
  end.
Fixpoint map_outcome {A B S E} (f : A → S → Outcome (B * S) E) (l : list A) (s : S) : Outcome (list B * S) E :=
  match l with
  | [] => Some (Ok ([], s))
  | a :: l => outcome_bind (f a s) (λ '(b, s), outcome_bind (map_outcome f l s) (λ '(bs, s), Some (Ok (b :: bs, s))))
  end.
Definition local_instruction (program : CompiledProgram) (range : Range) (input_index : gmap Program.Register nat) (global_to_local : gmap nat nat)
    (numbered : nat * CompiledInstruction) (weights : NamedWeights) : Outcome (AssemblerInstruction * NamedWeights) ShardBindingError :=
  let '(offset, compiled) := numbered in
  outcome_bind (map_outcome (local_register program range (range_start range + offset) input_index global_to_local) (ci_inputs compiled) weights)
    (λ '(inputs, weights), Some (Ok (mkAssemblerInstruction (ci_instruction compiled) inputs, weights))).

(** The outputs of the graph: each is of an instruction; those in the range are outputs of the shard. *)
Definition graph_output (program : CompiledProgram) (range : Range) (state : gset Program.Register * gmap Program.Register (list string))
    (output : string * Program.Register) : Result (gset Program.Register * gmap Program.Register (list string)) ShardBindingError :=
  let '(name, register) := output in
  match register with
  | Program.Virtual index =>
      if length (cp_instructions program) <=? index then Err (OutputOutsideProgram register)
      else if range_contains range index then
        Ok ({[register]} ∪ state.1, <[register := default [] (state.2 !! register) ++ [name]]> state.2)
      else Ok state
  | _ => Err (OutputOutsideProgram register)
  end.
Definition output_boundary (plan : PartitionPlan) (shard_id : nat) (boundary_layout : BoundaryLayout)
    (graph_output_names : gmap Program.Register (list string)) (register : Program.Register) : Result BoundaryDescriptor ShardBindingError :=
  let? spec := layout_get boundary_layout register in
  let described := descriptor plan shard_id register (bt_element_count spec) true in
  Ok (mkDescriptor (bd_register described) (bd_element_count described) (bd_edge_ids described)
    (sort_by String.compare (default [] (graph_output_names !! register)))).

Definition bind_shard_program (program : CompiledProgram) (plan : PartitionPlan) (shard_id : nat) (program_model_digest : Digest32)
    (boundary_layout : BoundaryLayout) (graph_inputs : gmap string (list I18)) (incoming : gmap Program.Register (list I18))
    : Outcome BoundShardProgram ShardBindingError :=
  outcome_bind (Some (check_references 0 (cp_instructions program))) (λ _,
  outcome_bind (check_plan program plan shard_id program_model_digest boundary_layout) (λ '(planned, dag_shard),
  let range := ps_range planned in
  let expected_incoming := list_to_set (shard_inputs dag_shard) in
  outcome_bind (Some (check_incoming expected_incoming incoming)) (λ _,
  or_panic (slice_range (cp_instructions program) range) (λ instructions,
  outcome_bind (Some (external_registers range expected_incoming instructions)) (λ external,
  let external := sort_by compare_registers (hash_order (elements external)) in
  outcome_bind (outcome_mapM (input_boundary plan shard_id boundary_layout graph_inputs incoming) external) (λ inputs,
  let input_index := list_to_map (imap (λ index register, (register, index)) external) in
  let global_to_local := list_to_map (imap (λ local global, (global, local)) (seq (range_start range) (range_len range))) in
  outcome_bind (map_outcome (local_instruction program range input_index global_to_local) (imap pair instructions) (mkNamed (mkWeights ∅ []) []))
    (λ '(local_instructions, weights),
  outcome_bind (Some (result_fold (graph_output program range) (list_to_set (shard_outputs dag_shard), ∅) (cp_graph_outputs program)))
    (λ '(outputs, graph_output_names),
  outcome_bind (Some (result_mapM (output_boundary plan shard_id boundary_layout graph_output_names)
      (sort_by compare_registers (hash_order (elements outputs))))) (λ output_boundaries,
  Some (Ok (mkBoundShard (mkAssemblerProgram local_instructions inputs.*1 (weight_tensors (named_weights weights)))
    inputs.*2 output_boundaries global_to_local (names weights) (pp_digest plan) (ps_id planned) (ps_name planned) (ps_range planned)))))))))))).
End Bind.
End ShardBinding.
