(* ===== verification/BindingProofs.v ===== *)
(** * Binding programs: proofs

    A bound program evaluates to what the compiled program means; bound shards, run
    one after the other, evaluate to the run of the whole program. *)
From stdpp Require Import gmap.
From S2P Require Import Prelude Ordering Bytes Identity FixedPoint Program Onnx Dag DagProofs Partition Assembler Evaluate Binding.
Import Assembler Onnx.

Open Scope nat_scope.

(** ** Maps that update a state *)

Lemma map_state_outcome {A B S E} (f : A → S → Result (B * S) E) l : ∀ s,
  Some (map_state f l s) = ShardBinding.map_outcome (λ a s, Some (f a s)) l s.
Proof.
  induction l as [|a l IH]; intros s; [done|]. cbn [map_state ShardBinding.map_outcome outcome_bind].
  destruct (f a s) as [[b s']|e]; [|done]. cbn [result_bind outcome_bind]. rewrite <- IH. by destruct (map_state f l s') as [[bs s'']|e].
Qed.

(** An invariant [I] and an order [le] on the states; what holds of a result holds in every later state. *)
Section MapOutcome.
Context {A B S E : Type} (f : A → S → Outcome (B * S) E) (I : S → Prop) (le : S → S → Prop) `{!PreOrder le} (R : A → B → S → Prop).

Lemma map_outcome_Ok l : (∀ a s b s', a ∈ l → I s → f a s = Some (Ok (b, s')) → I s' ∧ le s s' ∧ ∀ s'', I s'' → le s' s'' → R a b s'') →
  ∀ s bs s', I s → ShardBinding.map_outcome f l s = Some (Ok (bs, s')) → I s' ∧ le s s' ∧ ∀ s'', I s'' → le s' s'' → Forall2 (λ a b, R a b s'') l bs.
Proof using PreOrder0.
  induction l as [|a l IH]; intros Hf s bs s' Hs; cbn [ShardBinding.map_outcome].
  - intros [= <- <-]. split; [done|]. split; [reflexivity|]. intros; constructor.
  - destruct (f a s) as [[[b s1]|e]|] eqn:E1; cbn [outcome_bind]; [|done..].
    destruct (ShardBinding.map_outcome f l s1) as [[[bs' s2]|e]|] eqn:E2; cbn [outcome_bind]; [|done..]. intros [= <- <-].
    destruct (Hf a s b s1) as (H1 & Hle1 & HR); [by left|done|done|].
    destruct (IH (λ a s b s' Ha, Hf a s b s' (list_elem_of_further _ _ _ Ha)) s1 bs' s2 H1 E2) as (H2 & Hle2 & HF).
    split; [done|]. split; [by etransitivity|]. intros s'' Hs'' Hle. constructor; [apply HR; [done|by etransitivity]|by apply HF].
Qed.
(** No panic when no element panics. *)
Lemma map_outcome_Some l : (∀ a s, a ∈ l → ∃ r, f a s = Some r) → ∀ s, ∃ r, ShardBinding.map_outcome f l s = Some r.
Proof using Type.
  induction l as [|a l IH]; intros Hf s; [by eexists|]. cbn [ShardBinding.map_outcome]. destruct (Hf a s) as [[[b s1]|e] ->]; [by left| |by eexists].
  cbn [outcome_bind]. destruct (IH (λ a s Ha, Hf a s (list_elem_of_further _ _ _ Ha)) s1) as [[[bs s2]|e] ->]; by eexists.
Qed.
End MapOutcome.

Lemma map_state_Ok {A B S E} (f : A → S → Result (B * S) E) (I : S → Prop) (le : S → S → Prop) `{!PreOrder le} (R : A → B → S → Prop) l :
  (∀ a s b s', a ∈ l → I s → f a s = Ok (b, s') → I s' ∧ le s s' ∧ ∀ s'', I s'' → le s' s'' → R a b s'') →
  ∀ s bs s', I s → map_state f l s = Ok (bs, s') → I s' ∧ le s s' ∧ ∀ s'', I s'' → le s' s'' → Forall2 (λ a b, R a b s'') l bs.
Proof.
  intros Hf s bs s' Hs E1. refine (map_outcome_Ok (λ a s, Some (f a s)) I le R l _ s bs s' Hs _); [|by rewrite <- map_state_outcome, E1].
  intros a s1 b s2 Ha H1 [= E2]. by eapply Hf.
Qed.

Lemma Forall2_numbered {A B} (P : nat * A → B → Prop) l l' : Forall2 (λ a b, ∀ i, P (i, a) b) l l' → ∀ k, Forall2 P (imap (λ i a, (k + i, a)) l) l'.
Proof.
  induction 1 as [|a b l l' H _ IH]; intros k; cbn [imap]; constructor; [apply H|].
  erewrite imap_ext; [exact (IH (S k))|]. intros i x _. cbn. by rewrite Nat.add_succ_r.
Qed.

(** ** Weights *)

Section Weights.
Context (program : CompiledProgram).

Definition weights_ok (weights : Weights) : Prop :=
  ∀ name idx, weight_index weights !! name = Some idx → ∃ values, weight_tensors weights !! idx = Some values ∧ weight_as_i18 program name = Ok values.
Definition weights_le (weights weights' : Weights) : Prop := weight_tensors weights `prefix_of` weight_tensors weights'.
#[export] Instance weights_le_preorder : PreOrder weights_le.
Proof. split; [intros ?; unfold weights_le; reflexivity|]. intros ???. unfold weights_le. apply transitivity. Qed.

Lemma weights_ok_empty : weights_ok (mkWeights ∅ []).
Proof. intros name idx H. cbn in H. by rewrite lookup_empty in H. Qed.
Lemma load_weight_Ok name weights idx weights' : weights_ok weights → load_weight program name weights = Ok (idx, weights') →
  weights_ok weights' ∧ weights_le weights weights' ∧
  ∃ values, weight_tensors weights' !! idx = Some values ∧ weight_as_i18 program name = Ok values.
Proof.
  intros Hok. unfold load_weight. destruct (weight_index weights !! name) as [i|] eqn:E.
  - intros [= <- <-]. split; [done|]. split; [reflexivity|]. by apply Hok.
  - intros (values & Hv & [= <- <-])%result_bind_Ok. split; [|split].
    + intros name' idx'. cbn [weight_index weight_tensors]. rewrite lookup_insert_Some. intros [[<- <-]|[_ (v & Hl & Hw)%Hok]].
      * exists values. split; [|done]. by rewrite lookup_app_r, Nat.sub_diag by done.
      * exists v. split; [|done]. by apply lookup_app_l_Some.
    + by exists [values].
    + exists values. split; [|done]. cbn. by rewrite lookup_app_r, Nat.sub_diag by done.
Qed.
Lemma weights_later weights weights' (idx : nat) values : weights_le weights weights' → weight_tensors weights !! idx = Some values →
  weight_tensors weights' !! idx = Some values.
Proof. intros Hle Hl. by eapply prefix_lookup_Some. Qed.
End Weights.

(** ** The meaning of a compiled program *)

Section Meaning.
Context (total : list Z → option Z) (program : CompiledProgram) (graph_inputs : gmap string (list I18)).

(** The value of a register after some instructions. *)
Definition register_value (values : list (list I18)) (r : Program.Register) : option (list I18) :=
  match r with
  | GraphInput name => graph_inputs !! name
  | Program.Weight name => match weight_as_i18 program name with Ok v => Some v | Err _ => None end
  | Program.Virtual i => values !! i
  end.
(** The instructions in order, each on the values of its two registers. *)
Fixpoint eval_compiled (instructions : list CompiledInstruction) (values : list (list I18)) : option (list (list I18)) :=
  match instructions with
  | [] => Some values
  | compiled :: instructions =>
      match ci_inputs compiled with
      | [r; r'] =>
          a ← register_value values r;
          b ← register_value values r';
          out ← eval_instruction total (ci_instruction compiled) a b;
          eval_compiled instructions (values ++ [out])
      | _ => None
      end
  end.

(** A reference of the assembler that stands for a register, while a shard that starts with the values [before] has made [k] of its own. *)
Section Simulation.
Context (before input_tensors : list (list I18)).

Definition stands_for (weight_tensors : list (list I18)) (k : nat) (r : Program.Register) (ref : RegisterRef) : Prop :=
  ∀ locals, length locals = k → register_value (before ++ locals) r = register input_tensors weight_tensors locals ref.
Definition translates (weight_tensors : list (list I18)) (numbered : nat * CompiledInstruction) (instr : AssemblerInstruction) : Prop :=
  ci_instruction numbered.2 = instruction instr ∧ Forall2 (stands_for weight_tensors numbered.1) (ci_inputs numbered.2) (inputs instr).

Lemma translated_evaluates weight_tensors compiled : ∀ instrs k locals, length locals = k →
  Forall2 (translates weight_tensors) (imap (λ i c, (k + i, c)) compiled) instrs →
  app before <$> eval_program total input_tensors weight_tensors instrs locals = eval_compiled compiled (before ++ locals).
Proof.
  induction compiled as [|c compiled IH]; intros instrs k locals Hk Hall; cbn [imap] in Hall.
  - by apply Forall2_nil_inv_l in Hall as ->.
  - apply Forall2_cons_inv_l in Hall as (instr & instrs' & [Hi Hregs] & Hall & ->). cbn [fst snd] in Hi, Hregs. rewrite Nat.add_0_r in Hregs.
    cbn [eval_program eval_compiled]. unfold operands.
    destruct (ci_inputs c) as [|r [|r' [|r'' rs]]], (inputs instr) as [|ref [|ref' [|ref'' refs]]]; try done; try (by apply Forall2_length in Hregs).
    apply Forall2_cons in Hregs as [Hr Hregs]. apply Forall2_cons in Hregs as [Hr' _]. rewrite (Hr locals Hk), (Hr' locals Hk).
    destruct (register _ _ locals ref) as [a|]; [|done]. destruct (register _ _ locals ref') as [b|]; [|done]. cbn [mbind option_bind].
    rewrite Hi. destruct (eval_instruction total (instruction instr) a b) as [out|]; [|done]. cbn [mbind option_bind].
    rewrite <- app_assoc. apply (IH _ (S k)); [rewrite length_app; cbn; lia|].
    erewrite imap_ext; [exact Hall|]. intros i x _. cbn. by rewrite Nat.add_succ_r.
Qed.
End Simulation.

(** *** Whole programs *)

Lemma input_index_lookup (graph_input_names : list string) name idx :
  collect_map (imap (λ idx name, (name, idx)) graph_input_names) !! name = Some idx → graph_input_names !! idx = Some name.
Proof using Type.
  unfold collect_map. induction graph_input_names as [|x l IH] using rev_ind; [cbn [imap foldl]; by rewrite lookup_empty|].
  rewrite imap_app, foldl_app. cbn [imap foldl]. rewrite lookup_insert_Some. intros [[-> <-]|[_ H]].
  - by rewrite Nat.add_0_r, lookup_app_r, Nat.sub_diag by done.
  - apply lookup_app_l_Some, IH, H.
Qed.

Lemma resolve_register_Ok (input_index : gmap string nat) input_tensors reg weights ref weights' :
  (∀ name idx, input_index !! name = Some idx → ∃ v, graph_inputs !! name = Some v ∧ input_tensors !! idx = Some v) →
  weights_ok program weights → CircuitBinding.resolve_register program input_index reg weights = Ok (ref, weights') →
  weights_ok program weights' ∧ weights_le weights weights' ∧
  ∀ later, weights_le weights' later → ∀ k, stands_for [] input_tensors (weight_tensors later) k reg ref.
Proof using Type.
  intros Hin Hok. destruct reg as [name|name|i]; cbn [CircuitBinding.resolve_register].
  - intros (idx & (v & Hg & Ht)%ok_or_Ok%Hin & [= <- <-])%result_bind_Ok. split; [done|]. split; [reflexivity|]. intros later _ k locals _.
    cbn. by rewrite Hg, Ht.
  - intros ([idx loaded] & H & [= <- <-])%result_bind_Ok. destruct (load_weight program name weights) as [[i w]|e] eqn:E; [|done].
    injection H as -> ->. destruct (load_weight_Ok _ _ _ _ _ Hok E) as (Hok' & Hle & v & Hv & Hw). split; [done|]. split; [done|].
    intros later Hl k locals _. cbn. by rewrite Hw, (weights_later _ _ _ _ Hl Hv).
  - intros [= <- <-]. split; [done|]. split; [reflexivity|]. by intros later _ k locals _.
Qed.
Lemma bind_instruction_Ok (input_index : gmap string nat) input_tensors compiled weights instr weights' :
  (∀ name idx, input_index !! name = Some idx → ∃ v, graph_inputs !! name = Some v ∧ input_tensors !! idx = Some v) →
  weights_ok program weights → CircuitBinding.bind_instruction program input_index compiled weights = Ok (instr, weights') →
  weights_ok program weights' ∧ weights_le weights weights' ∧
  ∀ later, weights_ok program later → weights_le weights' later → ∀ k, translates [] input_tensors (weight_tensors later) (k, compiled) instr.
Proof using Type.
  intros Hin Hok. unfold CircuitBinding.bind_instruction. intros ([refs w] & E & [= <- <-])%result_bind_Ok.
  destruct (map_state_Ok (CircuitBinding.resolve_register program input_index) (weights_ok program) weights_le
    (λ reg ref later, ∀ k, stands_for [] input_tensors (weight_tensors later) k reg ref) (ci_inputs compiled)) with (2 := Hok) (3 := E) as (Hok' & Hle & HF).
  { intros a s b s' _ Hs Hr. destruct (resolve_register_Ok _ _ _ _ _ _ Hin Hs Hr) as (H1 & H2 & H3). split; [done|]. split; [done|]. auto. }
  split; [done|]. split; [done|]. intros later Hlater Hl k. split; [done|]. cbn [fst snd inputs]. by eapply Forall2_impl; [by apply HF|].
Qed.
End Meaning.

(** C26. A bound program evaluates exactly as the compiled one: where the one has a value the other has the same, and where it has none neither has the other. *)
Theorem bound_program_evaluates total program graph_inputs bound :
  CircuitBinding.to_assembler_program program graph_inputs = Ok bound →
  eval_program total (input_values bound) (weight_values bound) (instructions bound) [] =
  eval_compiled total program graph_inputs (cp_instructions program) [].
Proof.
  unfold CircuitBinding.to_assembler_program. intros (ins & Hins%result_mapM_Ok & H)%result_bind_Ok.
  apply result_bind_Ok in H as ([instrs weights] & E & [= <-]). cbn [input_values weight_values instructions].
  assert (∀ name idx, collect_map (imap (λ idx name, (name, idx)) (cp_graph_inputs program)) !! name = Some idx →
    ∃ v, graph_inputs !! name = Some v ∧ ins !! idx = Some v) as Hin.
  { intros name idx Hn%input_index_lookup. destruct (Forall2_lookup_l _ _ _ _ _ Hins Hn) as (v & Hv & Hg%ok_or_Ok). by exists v. }
  destruct (map_state_Ok (CircuitBinding.bind_instruction program (collect_map (imap (λ idx name, (name, idx)) (cp_graph_inputs program))))
    (weights_ok program) weights_le
    (λ c instr later, ∀ k, translates program graph_inputs [] ins (weight_tensors later) (k, c) instr) (cp_instructions program))
    with (2 := weights_ok_empty program) (3 := E) as (Hok & _ & HF).
  { intros a s b s' _ Hs Hr. by apply (bind_instruction_Ok program graph_inputs _ _ _ _ _ _ Hin Hs Hr). }
  specialize (HF weights Hok ltac:(reflexivity)).
  rewrite <- (app_nil_l (A := list I18) []) at 2. rewrite <- (translated_evaluates total program graph_inputs [] ins (weight_tensors weights) (cp_instructions program) instrs 0); [|done|].
  - by destruct (eval_program _ _ _ _ _).
  - by apply Forall2_numbered.
Qed.

(** ** Shards *)

Import ShardBinding.

Lemma or_panic_Some {A B F} (m : option A) (k : A → Outcome B F) r : or_panic m k = Some r → ∃ a, m = Some a ∧ k a = Some r.
Proof. destruct m as [a|]; cbn; [|done]. by exists a. Qed.

Section Shards.

(** What the references of a shard may be. *)
Definition reference_ok (range : Range) (external : gset Program.Register) (global : nat) (r : Program.Register) : Prop :=
  match r with
  | GraphInput _ => r ∈ external
  | Program.Weight _ => True
  | Program.Virtual source => (source < range_start range ∧ r ∈ external) ∨ (source < global ∧ range_contains range source = true)
  end.
Definition external_ok (range : Range) (external : gset Program.Register) : Prop :=
  ∀ r, r ∈ external → match r with GraphInput _ => True | Program.Weight _ => False | Program.Virtual source => source < range_start range end.
Lemma reference_ok_grow range external external' global r : external ⊆ external' → reference_ok range external global r → reference_ok range external' global r.
Proof using Type. intros H. destruct r; cbn; set_solver. Qed.

Lemma external_register_Ok range expected global external r external' : external_ok range external →
  external_register range expected global external r = Ok external' → external ⊆ external' ∧ external_ok range external' ∧ reference_ok range external' global r.
Proof using Type.
  intros Hok. destruct r as [name|name|source]; cbn [external_register].
  - intros [= <-]. split; [set_solver|]. split; [|cbn; set_solver]. intros r [->%elem_of_singleton|Hr]%elem_of_union; [done|by apply Hok].
  - intros [= <-]. done.
  - destruct (Nat.ltb_spec source (range_start range)) as [Hlt|Hge].
    + case_bool_decide; [|done]. intros [= <-]. split; [set_solver|]. split; [|cbn; left; set_solver].
      intros r [->%elem_of_singleton|Hr]%elem_of_union; [done|by apply Hok].
    + destruct (Nat.ltb_spec source global) as [Hg|]; [|done]. destruct (range_contains range source) eqn:E; [|done]. intros [= <-].
      split; [done|]. split; [done|]. cbn. by right.
Qed.
Lemma external_inputs_Ok range expected global regs : ∀ external external', external_ok range external →
  result_fold (external_register range expected global) external regs = Ok external' →
  external ⊆ external' ∧ external_ok range external' ∧ ∀ r, r ∈ regs → reference_ok range external' global r.
Proof using Type.
  induction regs as [|r regs IH]; intros external external' Hok; cbn [result_fold].
  - intros [= <-]. split; [done|]. split; [done|]. by intros r ?%elem_of_nil.
  - intros (e1 & E & H)%result_bind_Ok. destruct (external_register_Ok _ _ _ _ _ _ Hok E) as (Hs1 & Hok1 & Hr).
    destruct (IH _ _ Hok1 H) as (Hs2 & Hok2 & Hall). split; [set_solver|]. split; [done|].
    intros r' [->|Hr']%elem_of_cons; [by eapply reference_ok_grow|by apply Hall].
Qed.
Lemma external_registers_Ok range expected instructions external : external_registers range expected instructions = Ok external →
  external_ok range external ∧ ∀ j compiled r, instructions !! j = Some compiled → r ∈ ci_inputs compiled → reference_ok range external (range_start range + j) r.
Proof using Type.
  unfold external_registers. revert external. induction instructions as [|compiled instructions IH] using rev_ind; intros external; cbn [imap].
  - cbn. intros [= <-]. split; [intros r Hr; set_solver|]. intros j c r Hj. by rewrite lookup_nil in Hj.
  - rewrite imap_app, result_fold_app. cbn [imap]. intros (e1 & E & H)%result_bind_Ok. destruct (IH _ E) as [Hok Hall]. cbn [result_fold] in H.
    apply result_bind_Ok in H as (e2 & H & [= <-]). unfold external_instruction in H. cbn [fst snd] in H.
    destruct (external_inputs_Ok _ _ _ _ _ _ Hok H) as (Hs & Hok2 & Hlast). split; [done|]. intros j c r [Hj|[Hj Hc]]%lookup_app_Some Hr.
    + eapply reference_ok_grow; [done|by eapply Hall].
    + apply list_lookup_singleton_Some in Hc as [Hj0 ->]. replace (range_start range + j) with (range_start range + (length instructions + 0)) by lia. by apply Hlast.
Qed.

Lemma outcome_mapM_Ok {A B F} (f : A → Outcome B F) l bs : outcome_mapM f l = Some (Ok bs) → Forall2 (λ a b, f a = Some (Ok b)) l bs.
Proof using Type.
  revert bs. induction l as [|a l IH]; intros bs; cbn [outcome_mapM]; [intros [= <-]; constructor|].
  intros (b & Hb & (bs' & Hbs & [= <-])%outcome_bind_Ok)%outcome_bind_Ok. constructor; [done|by apply IH].
Qed.
Lemma position_lookup (external : list Program.Register) r idx :
  (list_to_map (imap (λ index register, (register, index)) external) : gmap Program.Register nat) !! r = Some idx → external !! idx = Some r.
Proof using Type. intros (i & x & [= <- <-] & Hi)%elem_of_list_to_map_2%elem_of_lookup_imap. done. Qed.
Lemma local_lookup start len source idx :
  (list_to_map (imap (λ local global, (global, local)) (seq start len)) : gmap nat nat) !! source = Some idx → source = start + idx.
Proof using Type. by intros (i & x & [= <- <-] & [-> _]%lookup_seq)%elem_of_list_to_map_2%elem_of_lookup_imap. Qed.

(** *** The references of one shard *)

Context (program : CompiledProgram) (graph_inputs : gmap string (list I18)).
Context (range : Range) (before : list (list I18)) (Hbefore : length before = range_start range).
Context (external : list Program.Register) (input_tensors : list (list I18)).
(** Each external register is an input tensor with its value. *)
Context (Hexternal : ∀ idx r, external !! idx = Some r → ∃ v, input_tensors !! idx = Some v ∧
  match r with GraphInput name => graph_inputs !! name = Some v | Program.Virtual i => before !! i = Some v | Program.Weight _ => False end).

#[local] Notation input_index := (list_to_map (imap (λ index register, (register, index)) external) : gmap Program.Register nat).
#[local] Notation local_index := (list_to_map (imap (λ local global, (global, local)) (seq (range_start range) (range_len range))) : gmap nat nat).

Definition named_ok (weights : NamedWeights) : Prop := weights_ok program (named_weights weights).
Definition named_le (weights weights' : NamedWeights) : Prop := weights_le (named_weights weights) (named_weights weights').
#[export] Instance named_le_preorder : PreOrder named_le.
Proof using Type. split; [intros ?; unfold named_le; reflexivity|]. intros ???. unfold named_le. apply transitivity. Qed.

Lemma local_register_Ok offset r weights ref weights' : named_ok weights →
  local_register program range (range_start range + offset) input_index local_index r weights = Some (Ok (ref, weights')) →
  named_ok weights' ∧ named_le weights weights' ∧
  ∀ later, named_le weights' later → stands_for program graph_inputs before input_tensors (weight_tensors (named_weights later)) offset r ref.
Proof using Hbefore Hexternal.
  intros Hok. destruct r as [name|name|source]; cbn [local_register].
  - intros (idx & Hi%position_lookup & [= <- <-])%or_panic_Some. split; [done|]. split; [reflexivity|]. intros later _ locals _.
    destruct (Hexternal _ _ Hi) as (v & Hv & Hg). cbn. by rewrite Hv, Hg.
  - intros [= H]. apply result_bind_Ok in H as ([idx loaded] & H & [= <- <-]).
    destruct (load_weight program name (named_weights weights)) as [[i w]|e] eqn:E; [|done]. injection H as -> ->.
    destruct (load_weight_Ok _ _ _ _ _ Hok E) as (Hok' & Hle & v & Hv & Hw). split; [done|]. split; [done|].
    intros later Hl locals _. cbn. by rewrite Hw, (weights_later _ _ _ _ Hl Hv).
  - destruct (range_contains range source && (source <? range_start range + offset)) eqn:Ein.
    + intros (idx & ->%local_lookup & [= <- <-])%or_panic_Some. split; [done|]. split; [reflexivity|]. intros later _ locals _. cbn.
      rewrite lookup_app_r by lia. f_equal. lia.
    + destruct (Nat.ltb_spec source (range_start range)) as [Hlt|]; [|done].
      intros (idx & Hi%position_lookup & [= <- <-])%or_panic_Some. split; [done|]. split; [reflexivity|]. intros later _ locals _.
      destruct (Hexternal _ _ Hi) as (v & Hv & Hg). cbn. rewrite Hv. by apply lookup_app_l_Some.
Qed.
Lemma local_instruction_Ok offset compiled weights instr weights' : named_ok weights →
  local_instruction program range input_index local_index (offset, compiled) weights = Some (Ok (instr, weights')) →
  named_ok weights' ∧ named_le weights weights' ∧
  ∀ later, named_ok later → named_le weights' later →
    translates program graph_inputs before input_tensors (weight_tensors (named_weights later)) (offset, compiled) instr.
Proof using Hbefore Hexternal.
  intros Hok. cbn [local_instruction]. intros ([refs w] & E & [= <- <-])%outcome_bind_Ok.
  destruct (map_outcome_Ok (local_register program range (range_start range + offset) input_index local_index) named_ok named_le
    (λ r ref later, stands_for program graph_inputs before input_tensors (weight_tensors (named_weights later)) offset r ref) (ci_inputs compiled))
    with (2 := Hok) (3 := E) as (Hok' & Hle & HF).
  { intros a s b s' _ Hs Hr. destruct (local_register_Ok _ _ _ _ _ Hs Hr) as (H1 & H2 & H3). split; [done|]. split; [done|]. auto. }
  split; [done|]. split; [done|]. intros later Hlater Hl. split; [done|]. cbn [fst snd inputs]. by apply HF.
Qed.
(** The instructions of the shard evaluate as the compiled ones do after [before]. *)
Lemma local_instructions_evaluate total compiled weights instrs weights' : named_ok weights →
  map_outcome (local_instruction program range input_index local_index) (imap pair compiled) weights = Some (Ok (instrs, weights')) →
  app before <$> eval_program total input_tensors (weight_tensors (named_weights weights')) instrs [] =
  eval_compiled total program graph_inputs compiled before.
Proof using Hbefore Hexternal.
  intros Hok E. destruct (map_outcome_Ok (local_instruction program range input_index local_index) named_ok named_le
    (λ numbered instr later, translates program graph_inputs before input_tensors (weight_tensors (named_weights later)) numbered instr) (imap pair compiled))
    with (2 := Hok) (3 := E) as (Hok' & _ & HF).
  { intros [offset c] s b s' _ Hs Hr. by apply (local_instruction_Ok _ _ _ _ _ Hs Hr). }
  rewrite <- (app_nil_r before) at 2. apply (translated_evaluates total program graph_inputs before input_tensors _ compiled instrs 0); [done|].
  apply HF; [done|reflexivity].
Qed.
End Shards.

(** ** Binding a shard *)

Section Bound.
Context (blake3 : bytes → Digest32) `{HO : HashOrder, HL : !HashOrderLaws HO}.

Lemma check_plan_Ok program plan shard_id digest layout planned dag_shard :
  check_plan blake3 program plan shard_id digest layout = Some (Ok (planned, dag_shard)) →
  pp_shards plan !! shard_id = Some planned ∧ dag_shards (pp_dag plan) !! shard_id = Some dag_shard ∧
  build_dag program (shard_specs plan) = Some (Ok (pp_dag plan)).
Proof using Type.
  unfold check_plan. destruct (_ || _); [done|]. intros (d & _ & H)%or_panic_Some. destruct (negb _); [done|].
  apply outcome_bind_Ok in H as (p & [= Hp%ok_or_Ok] & H). apply outcome_bind_Ok in H as (s & [= Hs%ok_or_Ok] & H).
  destruct (_ || _); [done|]. apply or_panic_Some in H as (rebuilt & Hb & [= H]). destruct rebuilt as [dag|e]; [|done]. cbn [map_err result_bind] in H.
  case_bool_decide as E; [|done]. injection H as -> ->. by subst.
Qed.
Lemma slice_range_Some {A} (l l' : list A) range : slice_range l range = Some l' →
  range_start range ≤ range_end range ≤ length l ∧ l' = slice l (range_start range) (range_end range).
Proof using Type.
  unfold slice_range. destruct (Nat.leb_spec (range_start range) (range_end range)), (Nat.leb_spec (range_end range) (length l)); try done.
  by intros [= <-].
Qed.

(** What a bound shard was made of. *)
Record Parts (program : CompiledProgram) (plan : PartitionPlan) (shard_id : nat) (layout : BoundaryLayout) (graph_inputs : gmap string (list I18))
    (incoming : gmap Program.Register (list I18)) (bound : BoundShardProgram) (dag_shard : Shard) (external : gset Program.Register)
    (ins : list (list I18 * BoundaryDescriptor)) (outputs : gset Program.Register) (names : gmap Program.Register (list string)) : Prop := {
  pt_planned : ∃ planned, pp_shards plan !! shard_id = Some planned ∧ ps_range planned = bs_shard_range bound;
  pt_dag_shard : dag_shards (pp_dag plan) !! shard_id = Some dag_shard;
  pt_dag : build_dag program (shard_specs plan) = Some (Ok (pp_dag plan));
  pt_range : range_start (bs_shard_range bound) ≤ range_end (bs_shard_range bound) ≤ length (cp_instructions program);
  pt_external : external_registers (bs_shard_range bound) (list_to_set (shard_inputs dag_shard))
    (slice (cp_instructions program) (range_start (bs_shard_range bound)) (range_end (bs_shard_range bound))) = Ok external;
  pt_inputs : Forall2 (λ r vd, input_boundary plan shard_id layout graph_inputs incoming r = Some (Ok vd))
    (sort_by compare_registers (hash_order (elements external))) ins;
  pt_input_boundaries : input_boundaries bound = ins.*2;
  pt_input_values : input_values (assembler_program bound) = ins.*1;
  pt_instructions : ∃ weights, weight_values (assembler_program bound) = weight_tensors (named_weights weights) ∧
    map_outcome (local_instruction program (bs_shard_range bound)
        (list_to_map (imap (λ index register, (register, index)) (sort_by compare_registers (hash_order (elements external)))))
        (list_to_map (imap (λ local global, (global, local)) (seq (range_start (bs_shard_range bound)) (range_len (bs_shard_range bound))))))
      (imap pair (slice (cp_instructions program) (range_start (bs_shard_range bound)) (range_end (bs_shard_range bound)))) (mkNamed (mkWeights ∅ []) [])
    = Some (Ok (instructions (assembler_program bound), weights));
  pt_outputs : result_fold (graph_output program (bs_shard_range bound)) (list_to_set (shard_outputs dag_shard), ∅) (cp_graph_outputs program)
    = Ok (outputs, names);
  pt_output_boundaries : Forall2 (λ r d, output_boundary plan shard_id layout names r = Ok d)
    (sort_by compare_registers (hash_order (elements outputs))) (output_boundaries bound)
}.
Lemma bound_shard_parts program plan shard_id digest layout graph_inputs incoming bound :
  bind_shard_program blake3 program plan shard_id digest layout graph_inputs incoming = Some (Ok bound) →
  ∃ dag_shard external ins outputs names, Parts program plan shard_id layout graph_inputs incoming bound dag_shard external ins outputs names.
Proof using Type.
  unfold bind_shard_program. intros ([] & _ & H)%outcome_bind_Ok. apply outcome_bind_Ok in H as ([planned dag_shard] & Hplan & H).
  apply outcome_bind_Ok in H as ([] & _ & H). apply or_panic_Some in H as (instrs & Hslice & H).
  apply outcome_bind_Ok in H as (external & [= Hext] & H). apply outcome_bind_Ok in H as (ins & Hins%outcome_mapM_Ok & H).
  apply outcome_bind_Ok in H as ([locals weights] & Hlocal & H). apply outcome_bind_Ok in H as ([outputs names] & [= Hout] & H).
  apply outcome_bind_Ok in H as (bs & [= Hbs%result_mapM_Ok] & [= <-]).
  destruct (check_plan_Ok _ _ _ _ _ _ _ Hplan) as (Hp & Hs & Hdag). apply slice_range_Some in Hslice as [Hrange ->].
  exists dag_shard, external, ins, outputs, names. split; try done; [by exists planned|by exists weights].
Qed.

#[local] Arguments pt_planned {_ _ _ _ _ _ _ _ _ _ _ _} _.
#[local] Arguments pt_dag_shard {_ _ _ _ _ _ _ _ _ _ _ _} _.
#[local] Arguments pt_dag {_ _ _ _ _ _ _ _ _ _ _ _} _.
#[local] Arguments pt_range {_ _ _ _ _ _ _ _ _ _ _ _} _.
#[local] Arguments pt_external {_ _ _ _ _ _ _ _ _ _ _ _} _.
#[local] Arguments pt_inputs {_ _ _ _ _ _ _ _ _ _ _ _} _.
#[local] Arguments pt_input_boundaries {_ _ _ _ _ _ _ _ _ _ _ _} _.
#[local] Arguments pt_input_values {_ _ _ _ _ _ _ _ _ _ _ _} _.
#[local] Arguments pt_instructions {_ _ _ _ _ _ _ _ _ _ _ _} _.
#[local] Arguments pt_outputs {_ _ _ _ _ _ _ _ _ _ _ _} _.
#[local] Arguments pt_output_boundaries {_ _ _ _ _ _ _ _ _ _ _ _} _.
Lemma bound_shard_inv program plan shard_id digest layout graph_inputs incoming bound :
  bind_shard_program blake3 program plan shard_id digest layout graph_inputs incoming = Some (Ok bound) →
  build_dag program (shard_specs plan) = Some (Ok (pp_dag plan)) ∧
  (∃ planned, pp_shards plan !! shard_id = Some planned ∧ ps_range planned = bs_shard_range bound) ∧
  range_start (bs_shard_range bound) ≤ range_end (bs_shard_range bound) ≤ length (cp_instructions program) ∧
  ∀ total before, length before = range_start (bs_shard_range bound) →
    (∀ r v, incoming !! r = Some v → ∃ i, r = Program.Virtual i ∧ before !! i = Some v) →
    app before <$> eval_program total (input_values (assembler_program bound)) (weight_values (assembler_program bound)) (instructions (assembler_program bound)) [] =
    eval_compiled total program graph_inputs (slice (cp_instructions program) (range_start (bs_shard_range bound)) (range_end (bs_shard_range bound))) before.
Proof using Type.
  intros (dag_shard & external & ins & outputs & names & P)%bound_shard_parts.
  split; [apply P|]. split; [apply P|]. split; [apply P|]. intros total before Hb Hvalues.
  destruct (pt_instructions P) as (weights & -> & Hlocal). rewrite (pt_input_values P).
  refine (local_instructions_evaluate program graph_inputs (bs_shard_range bound) before Hb _ ins.*1 _ total _ (mkNamed (mkWeights ∅ []) []) _ _ (weights_ok_empty program) Hlocal).
  intros idx r Hr. destruct (Forall2_lookup_l _ _ _ _ _ (pt_inputs P) Hr) as ([v d] & Hv & Hin). exists v.
  split; [by rewrite list_lookup_fmap, Hv|]. unfold input_boundary in Hin. apply outcome_bind_Ok in Hin as (spec & _ & Hin).
  apply outcome_bind_Ok in Hin as (v' & Hv' & [= Hin]). destruct (negb _); [done|]. injection Hin as -> _.
  destruct r as [name|name|i]; [by injection Hv' as ?%ok_or_Ok|done|]. injection Hv' as Hv'%ok_or_Ok. by destruct (Hvalues _ _ Hv') as (i' & [= <-] & ?).
Qed.

(** *** No panics *)

Lemma check_references_Ok instrs : ∀ k, check_references k instrs = Ok () →
  ∀ j instr p, instrs !! j = Some instr → Program.Virtual p ∈ ci_inputs instr → p < k + j.
Proof using Type.
  induction instrs as [|c instrs IH]; intros k; cbn [check_references]; [intros _ j instr p Hj; by rewrite lookup_nil in Hj|].
  destruct (find _ (ci_inputs c)) as [r|] eqn:E; [done|]. intros H j instr p Hj Hp. destruct j as [|j].
  - injection Hj as ->. eapply find_none in E; [|by apply list_elem_of_In]. cbn in E. apply Nat.leb_gt in E. lia.
  - pose proof (IH _ H _ _ _ Hj Hp). lia.
Qed.
Lemma build_dag_answers program specs : well_ordered program → ∃ r, build_dag program specs = Some r.
Proof using Type.
  intros Hw. destruct (decide (specs = [])) as [->|Hne]; [by eexists|].
  destruct (check_contiguous 0 0 specs) as [en|e] eqn:Ec.
  - destruct (decide (en = length (cp_instructions program))) as [->|Hen].
    + destruct (build_dag_total program specs Hne) as (dag & E & _); [by apply (check_contiguous_iff 0 0)|done|by eexists].
    + unfold build_dag. rewrite bool_decide_eq_false_2, Ec by done. cbn [outcome_bind]. rewrite (proj2 (Nat.eqb_neq _ _) Hen). by eexists.
  - unfold build_dag. rewrite bool_decide_eq_false_2, Ec by done. by eexists.
Qed.
Lemma layout_digest_Some layout : Forall (λ spec, is_weight (bt_register spec) = false) (specs layout) → ∃ digest, layout_digest blake3 layout = Some digest.
Proof using Type.
  intros Hall. unfold layout_digest, layout_preimage. assert (∃ encoded, mapM encode_spec (specs layout) = Some encoded) as [encoded ->]; [|by eexists].
  induction Hall as [|spec l Hs _ [encoded IH]]; [by exists []|]. unfold encode_spec at 1. cbn [mapM].
  assert (∃ b, encode_spec spec = Some b) as [b Hb] by (unfold encode_spec; destruct (bt_register spec); done || by eexists).
  exists (b :: encoded). unfold encode_spec in Hb, IH |- *. by rewrite Hb, IH.
Qed.
Lemma check_plan_Some program plan shard_id digest layout : well_ordered program →
  Forall (λ spec, is_weight (bt_register spec) = false) (specs layout) → ∃ r, check_plan blake3 program plan shard_id digest layout = Some r.
Proof using Type.
  intros Hw Hl. unfold check_plan. destruct (_ || _); [by eexists|]. destruct (layout_digest_Some _ Hl) as [d ->]. cbn [or_panic].
  destruct (negb _); [by eexists|]. destruct (pp_shards plan !! shard_id); [|by eexists]. cbn [ok_or outcome_bind].
  destruct (dag_shards (pp_dag plan) !! shard_id); [|by eexists]. cbn [ok_or outcome_bind]. destruct (_ || _); [by eexists|].
  destruct (build_dag_answers program (shard_specs plan) Hw) as [r ->]. by eexists.
Qed.
Lemma contiguous_within st specs en : contiguous st specs en → Forall (λ spec, range_start (spec_range spec) ≤ range_end (spec_range spec)) specs →
  st ≤ en ∧ ∀ spec, spec ∈ specs → range_end (spec_range spec) ≤ en.
Proof using Type.
  induction 1 as [st|spec specs en _ IH]; intros Hf; [split; [done|by intros s ?%elem_of_nil]|]. apply Forall_cons in Hf as [Hs Hf].
  destruct (IH Hf) as [Hle Hall]. split; [lia|]. intros s [->|Hin]%elem_of_cons; [done|by apply Hall].
Qed.
Lemma position_Some (external : list Program.Register) r : NoDup external → r ∈ external →
  ∃ idx, (list_to_map (imap (λ index register, (register, index)) external) : gmap Program.Register nat) !! r = Some idx.
Proof using Type.
  intros Hnd [i Hi]%list_elem_of_lookup. exists i. apply elem_of_list_to_map_1; [|apply elem_of_lookup_imap; by exists i, r].
  assert ((imap (λ index register, (register, index)) external).*1 = external) as ->; [|done].
  apply list_eq. intros j. rewrite list_lookup_fmap, list_lookup_imap. by destruct (external !! j).
Qed.
Lemma local_Some (start len source : nat) : start ≤ source < start + len →
  ∃ idx, (list_to_map (imap (λ local global, (global, local)) (seq start len)) : gmap nat nat) !! source = Some idx.
Proof using Type.
  intros Hs. exists (source - start). apply elem_of_list_to_map_1.
  - assert ((imap (λ local global, (global, local)) (seq start len)).*1 = seq start len) as ->; [|apply NoDup_seq].
    apply list_eq. intros j. rewrite list_lookup_fmap, list_lookup_imap. by destruct (seq start len !! j).
  - apply elem_of_lookup_imap. exists (source - start), source. split; [done|]. apply lookup_seq. lia.
Qed.
Lemma outcome_mapM_Some {A B F} (f : A → Outcome B F) l : (∀ a, a ∈ l → ∃ r, f a = Some r) → ∃ r, outcome_mapM f l = Some r.
Proof using Type.
  induction l as [|a l IH]; intros Hf; [by eexists|]. cbn [outcome_mapM]. destruct (Hf a) as [[b|e] ->]; [by left| |by eexists]. cbn [outcome_bind].
  destruct IH as [[bs|e] ->]; [intros x Hx; apply Hf; by right|by eexists..].
Qed.
Lemma sorted_external (external : gset Program.Register) : sort_by compare_registers (hash_order (elements external)) ≡ₚ elements external.
Proof using HL. rewrite sort_by_Permutation. apply hash_order_Permutation. Qed.

(** Every reference that passed the checks is found in the maps. *)
Lemma local_register_Some program range external global r weights : reference_ok range external global r →
  ∃ outcome, local_register program range global
    (list_to_map (imap (λ index register, (register, index)) (sort_by compare_registers (hash_order (elements external)))))
    (list_to_map (imap (λ local global, (global, local)) (seq (range_start range) (range_len range)))) r weights = Some outcome.
Proof using HL.
  intros Hr. assert (∀ r, r ∈ external → ∃ idx, (list_to_map (imap (λ index register, (register, index))
    (sort_by compare_registers (hash_order (elements external)))) : gmap Program.Register nat) !! r = Some idx) as Hpos.
  { intros r' Hr'. apply position_Some; rewrite sorted_external; [apply NoDup_elements|by apply elem_of_elements]. }
  destruct r as [name|name|source]; cbn [local_register].
  - destruct (Hpos _ Hr) as [idx ->]. by eexists.
  - by eexists.
  - destruct (range_contains range source) eqn:E.
    + apply andb_prop in E as [E1%Nat.leb_le E2%Nat.ltb_lt]. destruct Hr as [[Hlt _]|[Hlt _]]; [lia|]. rewrite (proj2 (Nat.ltb_lt _ _) Hlt). cbn [andb].
      destruct (local_Some (range_start range) (range_len range) source) as [idx ->]; [unfold range_len; lia|]. by eexists.
    + cbn [andb]. destruct Hr as [[Hlt Hin]|[_ ?]]; [|congruence]. rewrite (proj2 (Nat.ltb_lt _ _) Hlt). destruct (Hpos _ Hin) as [idx ->]. by eexists.
Qed.
End Bound.
#[local] Arguments pt_planned {_ _ _ _ _ _ _ _ _ _ _ _ _} _.
#[local] Arguments pt_dag_shard {_ _ _ _ _ _ _ _ _ _ _ _ _} _.
#[local] Arguments pt_dag {_ _ _ _ _ _ _ _ _ _ _ _ _} _.
#[local] Arguments pt_range {_ _ _ _ _ _ _ _ _ _ _ _ _} _.
#[local] Arguments pt_external {_ _ _ _ _ _ _ _ _ _ _ _ _} _.
#[local] Arguments pt_inputs {_ _ _ _ _ _ _ _ _ _ _ _ _} _.
#[local] Arguments pt_input_boundaries {_ _ _ _ _ _ _ _ _ _ _ _ _} _.
#[local] Arguments pt_input_values {_ _ _ _ _ _ _ _ _ _ _ _ _} _.
#[local] Arguments pt_instructions {_ _ _ _ _ _ _ _ _ _ _ _ _} _.
#[local] Arguments pt_outputs {_ _ _ _ _ _ _ _ _ _ _ _ _} _.
#[local] Arguments pt_output_boundaries {_ _ _ _ _ _ _ _ _ _ _ _ _} _.

(** C27. Binding never panics: for a layout made by its constructors and a plan whose ranges do not run backwards, every index is in bounds and every key in
    its map. *)
Theorem bind_shard_answers (blake3 : bytes → Digest32) {HO : HashOrder} (HL : HashOrderLaws HO) program plan shard_id digest layout graph_inputs incoming :
  Forall (λ spec, is_weight (bt_register spec) = false) (specs layout) →
  Forall (λ shard, range_start (ps_range shard) ≤ range_end (ps_range shard)) (pp_shards plan) →
  ∃ outcome, bind_shard_program blake3 program plan shard_id digest layout graph_inputs incoming = Some outcome.
Proof.
  intros Hl Hranges. unfold bind_shard_program. destruct (check_references 0 (cp_instructions program)) as [[]|e] eqn:Er; [|by eexists]. cbn [outcome_bind].
  assert (well_ordered program) as Hw by (intros j instr p Hj Hp; by apply (check_references_Ok _ _ Er _ _ _ Hj Hp)).
  destruct (check_plan_Some blake3 program plan shard_id digest layout Hw Hl) as [[[planned dag_shard]|e] Hp]; rewrite Hp; [|by eexists]. cbn [outcome_bind].
  destruct (check_incoming _ incoming) as [[]|e]; [|by eexists]. cbn [outcome_bind].
  destruct (check_plan_Ok _ _ _ _ _ _ _ _ Hp) as (Hplanned & _ & Hdag). destruct (build_dag_Ok _ _ _ Hdag) as (Hc & _ & _).
  destruct (contiguous_within _ _ _ Hc) as [_ Hend]; [unfold shard_specs; apply Forall_fmap; exact Hranges|].
  assert (range_start (ps_range planned) ≤ range_end (ps_range planned)) as Hse by (eapply (Forall_lookup_1 _ _ _ _ Hranges Hplanned)).
  assert (range_end (ps_range planned) ≤ length (cp_instructions program)) as Hel.
  { apply (Hend (mkSpec (ps_name planned) (ps_range planned))), list_elem_of_fmap. exists planned. split; [done|by eapply list_elem_of_lookup_2]. }
  unfold slice_range. rewrite (proj2 (Nat.leb_le _ _) Hse), (proj2 (Nat.leb_le _ _) Hel). cbn [andb or_panic].
  destruct (external_registers _ _ _) as [external|e] eqn:Ex; [|by eexists]. cbn [outcome_bind]. destruct (external_registers_Ok _ _ _ _ Ex) as [Hext Hrefs].
  edestruct (outcome_mapM_Some (input_boundary plan shard_id layout graph_inputs incoming)) as [[ins|e] ->]; [| |by eexists]; cbn [outcome_bind].
  { intros r Hr. rewrite (sorted_external external), elem_of_elements in Hr. unfold input_boundary. destruct (layout_get layout r); [|by eexists]. cbn [outcome_bind].
    pose proof (Hext _ Hr). destruct r as [name|name|source]; [destruct (graph_inputs !! name)|done|destruct (incoming !! _)]; by eexists. }
  edestruct (map_outcome_Some (local_instruction program (ps_range planned) (list_to_map (imap (λ index register, (register, index))
    (sort_by compare_registers (hash_order (elements external))))) (list_to_map (imap (λ local global, (global, local))
    (seq (range_start (ps_range planned)) (range_len (ps_range planned))))))) as [[[locals weights]|e] ->]; [| |by eexists]; cbn [outcome_bind].
  { intros [offset compiled] s (i & c & [= -> ->] & Hi)%elem_of_lookup_imap. cbn [local_instruction].
    edestruct (map_outcome_Some (local_register program (ps_range planned) (range_start (ps_range planned) + i)
      (list_to_map (imap (λ index register, (register, index)) (sort_by compare_registers (hash_order (elements external)))))
      (list_to_map (imap (λ local global, (global, local)) (seq (range_start (ps_range planned)) (range_len (ps_range planned))))))
      (ci_inputs c)) as [[[refs w]|e] ->]; [|by eexists..]. intros r w Hr. apply local_register_Some. by eapply Hrefs. }
  destruct (result_fold _ _ _) as [[outs names]|e]; [|by eexists]. cbn [outcome_bind]. destruct (result_mapM _ _); by eexists.
Qed.

(** ** Sharded runs *)

Lemma contiguous_split st specs en k spec : contiguous st specs en → specs !! k = Some spec →
  contiguous st (take k specs) (range_start (spec_range spec)) ∧ contiguous st (take (S k) specs) (range_end (spec_range spec)).
Proof.
  intros Hc. revert k. induction Hc as [|spec0 specs en Hc IH]; intros k; [by rewrite lookup_nil|]. destruct k as [|k]; cbn.
  - intros [= ->]. rewrite take_0. split; constructor. constructor.
  - intros Hk. destruct (IH _ Hk) as [H1 H2]. split; constructor; done.
Qed.
Lemma contiguous_end st specs en en' : contiguous st specs en → contiguous st specs en' → en = en'.
Proof. induction 1; inversion 1; subst; eauto. Qed.

Section Sharded.
Context (blake3 : bytes → Digest32) `{HO : HashOrder}.
Context (total : list Z → option Z) (program : CompiledProgram) (plan : PartitionPlan) (digest : Digest32) (layout : BoundaryLayout)
  (graph_inputs : gmap string (list I18)).

(** The shards up to [k], each bound with values that earlier ones have made, and run. *)
Inductive shards_run : nat → list (list I18) → Prop :=
| shards_run_none : shards_run 0 []
| shards_run_next k values incoming bound locals :
    shards_run k values →
    (∀ r v, incoming !! r = Some v → ∃ i, r = Program.Virtual i ∧ values !! i = Some v) →
    bind_shard_program blake3 program plan k digest layout graph_inputs incoming = Some (Ok bound) →
    eval_program total (input_values (assembler_program bound)) (weight_values (assembler_program bound)) (instructions (assembler_program bound)) [] = Some locals →
    shards_run (S k) (values ++ locals).

Lemma eval_compiled_app l1 l2 values : eval_compiled total program graph_inputs (l1 ++ l2) values =
  eval_compiled total program graph_inputs l1 values ≫= eval_compiled total program graph_inputs l2.
Proof using Type.
  revert values. induction l1 as [|c l1 IH]; intros values; [done|]. cbn [app eval_compiled]. destruct (ci_inputs c) as [|r [|r' [|]]]; try done.
  destruct (register_value _ _ _ r); [|done]. destruct (register_value _ _ _ r'); [|done]. cbn [mbind option_bind].
  destruct (eval_instruction _ _ _ _); [|done]. apply IH.
Qed.
Lemma eval_compiled_length l : ∀ values final, eval_compiled total program graph_inputs l values = Some final → length final = length values + length l.
Proof using Type.
  induction l as [|c l IH]; intros values final; cbn [eval_compiled]; [intros [= ->]; cbn; lia|]. destruct (ci_inputs c) as [|r [|r' [|]]]; try done.
  intros (a & _ & (b & _ & (out & _ & H%IH)%bind_Some)%bind_Some)%bind_Some. rewrite H, length_app. cbn. lia.
Qed.
Lemma take_slice {A} (l : list A) i j : i ≤ j → take j l = take i l ++ slice l i j.
Proof using Type. intros H. unfold slice. rewrite take_take_drop. f_equal. lia. Qed.

(** Where the shards have run to, the whole program has. *)
Lemma shards_run_prefix k values : shards_run k values → 0 < k →
  ∃ en, build_dag program (shard_specs plan) = Some (Ok (pp_dag plan)) ∧ contiguous 0 (take k (shard_specs plan)) en ∧ k ≤ length (pp_shards plan) ∧
    eval_compiled total program graph_inputs (take en (cp_instructions program)) [] = Some values ∧ en ≤ length (cp_instructions program).
Proof using Type.
  induction 1 as [|k values incoming bound locals Hrun IH Hinc Hbind Heval]; [lia|]. intros _.
  destruct (bound_shard_inv _ _ _ _ _ _ _ _ _ Hbind) as (Hdag & (planned & Hp & Hrange) & Hle & Hsem).
  destruct (build_dag_Ok _ _ _ Hdag) as (Hc & _ & _).
  assert (shard_specs plan !! k = Some (mkSpec (ps_name planned) (bs_shard_range bound))) as Hk by (unfold shard_specs; by rewrite list_lookup_fmap, Hp, <- Hrange).
  destruct (contiguous_split _ _ _ _ _ Hc Hk) as [Hpre Hpost]. cbn [spec_range] in Hpre, Hpost.
  assert (eval_compiled total program graph_inputs (take (range_start (bs_shard_range bound)) (cp_instructions program)) [] = Some values) as Hv.
  { destruct k as [|k].
    - inversion Hrun. rewrite take_0 in Hpre. inversion Hpre as [st E1 E2 E3|]. by rewrite take_0.
    - destruct IH as (en & _ & Hc' & _ & Hv & _); [lia|]. by rewrite (contiguous_end _ _ _ _ Hpre Hc'). }
  exists (range_end (bs_shard_range bound)). split; [done|]. split; [done|]. split; [by apply lookup_lt_Some in Hp|]. split; [|lia].
  rewrite (take_slice _ (range_start (bs_shard_range bound)) _) by lia. rewrite eval_compiled_app, Hv. cbn [mbind option_bind].
  rewrite <- Hsem; [by rewrite Heval| |done]. apply eval_compiled_length in Hv. rewrite Hv, length_take. cbn. lia.
Qed.
End Sharded.

(** C24. Shards bound one after the other, each with values that earlier ones have made, make together the values of the whole program. *)
Theorem sharded_run_is_whole_run (blake3 : bytes → Digest32) `{HO : HashOrder} total program plan digest layout graph_inputs values :
  shards_run blake3 total program plan digest layout graph_inputs (length (pp_shards plan)) values → pp_shards plan ≠ [] →
  eval_compiled total program graph_inputs (cp_instructions program) [] = Some values.
Proof.
  intros Hrun Hne. destruct (shards_run_prefix _ _ _ _ _ _ _ _ _ Hrun) as (en & Hdag & Hc & _ & Hv & _).
  { destruct (pp_shards plan); [done|cbn; lia]. }
  destruct (build_dag_Ok _ _ _ Hdag) as (Hc' & _ & _). rewrite take_ge in Hc by (unfold shard_specs; by rewrite length_fmap).
  rewrite (contiguous_end _ _ _ _ Hc Hc') in Hv. by rewrite firstn_all in Hv.
Qed.

(** ** The two sides of an edge *)

Section Sides.
Context (plan : PartitionPlan) (layout : BoundaryLayout).

Lemma graph_output_grows program range state output state' : graph_output program range state output = Ok state' → state.1 ⊆ state'.1.
Proof using Type.
  destruct output as [name r]. destruct r as [| |index]; cbn [graph_output]; [done|done|]. destruct (_ <=? _); [done|].
  destruct (range_contains range index); intros [= <-]; cbn [fst]; set_solver.
Qed.
Lemma graph_outputs_grow program range outputs : ∀ state state', result_fold (graph_output program range) state outputs = Ok state' → state.1 ⊆ state'.1.
Proof using Type.
  induction outputs as [|o outputs IH]; intros state state'; cbn [result_fold]; [by intros [= <-]|].
  intros (s1 & H1%graph_output_grows & H2%IH)%result_bind_Ok. set_solver.
Qed.
Lemma elem_of_descriptor_edges shard_id r count side e : e ∈ dag_edges (pp_dag plan) → edge_register e = r →
  (if side : bool then edge_producer e else edge_consumer e) = shard_id → edge_id e ∈ bd_edge_ids (descriptor plan shard_id r count side).
Proof using Type.
  intros He Hr Hs. cbn [descriptor bd_edge_ids]. rewrite sort_by_Permutation. apply list_elem_of_fmap_2, list_elem_of_filter. done.
Qed.
(** Ranges that do not run backwards and follow one another do not overlap. *)
Lemma earlier_range specs count i j spec spec' : contiguous 0 specs count →
  Forall (λ spec, range_start (spec_range spec) ≤ range_end (spec_range spec)) specs →
  specs !! i = Some spec → specs !! j = Some spec' → i < j → range_end (spec_range spec) ≤ range_start (spec_range spec').
Proof using Type.
  intros Hc Hf Hi Hj Hlt. destruct (contiguous_split _ _ _ _ _ Hc Hj) as [Hpre _].
  apply (contiguous_within _ _ _ Hpre); [by apply Forall_take|]. apply (list_elem_of_lookup_2 _ i). apply lookup_take_Some. done.
Qed.
Lemma shard_of_spec specs i k : shard_of specs i = Some k → ∃ spec, specs !! k = Some spec ∧ range_start (spec_range spec) ≤ i < range_end (spec_range spec).
Proof using Type.
  unfold shard_of. intros ([k' spec] & H & ->)%fmap_Some. apply list_find_Some in H as (Hk & Hc & _). exists spec. split; [done|].
  unfold range_contains in Hc. apply andb_prop in Hc as [H1%Nat.leb_le H2%Nat.ltb_lt]. done.
Qed.
End Sides.

Lemma consumed_external `{HO : HashOrder} program plan layout graph_inputs incoming bound dag_shard external ins outputs names e :
  Forall (λ shard, range_start (ps_range shard) ≤ range_end (ps_range shard)) (pp_shards plan) → e ∈ dag_edges (pp_dag plan) →
  Parts program plan (edge_consumer e) layout graph_inputs incoming bound dag_shard external ins outputs names → edge_register e ∈ external.
Proof.
  intros Hf He C. destruct (build_dag_Ok _ _ _ (pt_dag C)) as (Hc & _ & Hok).
  destruct (proj1 (dk_edges _ _ _ Hok (edge_producer e) (edge_consumer e) (edge_register e))) as (p & Hr & Hp & (j & instr & sp & Hj & Hin & Hsj & _)); [by exists e|].
  destruct (dk_edge _ _ _ Hok e He) as (_ & _ & _ & _ & Hlt & _). rewrite Hr.
  destruct (shard_of_spec _ _ _ Hp) as (specp & Hsp & Hpr). destruct (shard_of_spec _ _ _ Hsj) as (specc & Hsc & Hjr).
  pose proof (earlier_range _ _ _ _ _ _ Hc ltac:(unfold shard_specs; by apply Forall_fmap) Hsp Hsc Hlt) as Hdisj.
  destruct (pt_planned C) as (planned & Hpl & Hrange).
  assert (spec_range specc = bs_shard_range bound) as Hrc.
  { unfold shard_specs in Hsc. rewrite list_lookup_fmap, Hpl in Hsc. injection Hsc as <-. done. }
  rewrite Hrc in *. destruct (external_registers_Ok _ _ _ _ (pt_external C)) as [_ Hall].
  assert (slice (cp_instructions program) (range_start (bs_shard_range bound)) (range_end (bs_shard_range bound)) !! (j - range_start (bs_shard_range bound)) = Some instr) as Hs.
  { unfold slice. apply lookup_take_Some. split; [|lia]. rewrite lookup_drop. by replace (_ + _) with j by lia. }
  pose proof (Hall _ _ _ Hs Hin) as Href. cbn in Href. destruct Href as [[_ ?]|[_ Hcon]]; [done|].
  unfold range_contains in Hcon. apply andb_prop in Hcon as [H1%Nat.leb_le _]. lia.
Qed.

(** C25. For every edge of the plan both shards describe one boundary: the same register with the same number of elements, and each names the edge. *)
Theorem boundaries_agree (blake3 : bytes → Digest32) {HO : HashOrder} (HL : HashOrderLaws HO) program plan digest layout e
    inputs inputs' incoming incoming' producer consumer :
  Forall (λ shard, range_start (ps_range shard) ≤ range_end (ps_range shard)) (pp_shards plan) → e ∈ dag_edges (pp_dag plan) →
  bind_shard_program blake3 program plan (edge_producer e) digest layout inputs incoming = Some (Ok producer) →
  bind_shard_program blake3 program plan (edge_consumer e) digest layout inputs' incoming' = Some (Ok consumer) →
  ∃ d d', d ∈ output_boundaries producer ∧ d' ∈ input_boundaries consumer ∧
    bd_register d = edge_register e ∧ bd_register d' = edge_register e ∧ bd_element_count d = bd_element_count d' ∧
    edge_id e ∈ bd_edge_ids d ∧ edge_id e ∈ bd_edge_ids d'.
Proof.
  intros Hf He (sp & exp & insp & outs & names & P)%bound_shard_parts (sc & exc & insc & outsc & namesc & C)%bound_shard_parts.
  destruct (build_dag_Ok _ _ _ (pt_dag P)) as (Hc & _ & Hok).
  (* the producer's side *)
  assert (edge_register e ∈ outs) as Hout.
  { apply (graph_outputs_grow _ _ _ _ _ (pt_outputs P)). cbn [fst]. apply elem_of_list_to_set.
    apply (dk_outputs _ _ _ Hok _ _ _ (pt_dag_shard P)). by exists e. }
  assert (edge_register e ∈ sort_by compare_registers (hash_order (elements outs))) as Hout' by (rewrite (sorted_external outs); by apply elem_of_elements).
  apply list_elem_of_lookup in Hout' as [i Hi]. destruct (Forall2_lookup_l _ _ _ _ _ (pt_output_boundaries P) Hi) as (d & Hd & Hdb).
  apply result_bind_Ok in Hdb as (spec & Hspec & [= <-]).
  (* the consumer's side *)
  assert (edge_register e ∈ exc) as Hin by (by eapply consumed_external).
  assert (edge_register e ∈ sort_by compare_registers (hash_order (elements exc))) as Hin' by (rewrite (sorted_external exc); by apply elem_of_elements).
  apply list_elem_of_lookup in Hin' as [j Hj]. destruct (Forall2_lookup_l _ _ _ _ _ (pt_inputs C) Hj) as ([v d'] & Hd' & Hib).
  unfold input_boundary in Hib. rewrite Hspec in Hib. cbn [outcome_bind] in Hib. apply outcome_bind_Ok in Hib as (v' & _ & [= Hib]).
  destruct (negb _); [done|]. injection Hib as -> <-.
  eexists _, _. split; [by eapply list_elem_of_lookup_2|]. split.
  { rewrite (pt_input_boundaries C). eapply (list_elem_of_lookup_2 _ j). by rewrite list_lookup_fmap, Hd'. }
  split; [done|]. split; [done|]. split; [done|]. split.
  - exact (elem_of_descriptor_edges plan _ _ (bt_element_count spec) true e He eq_refl eq_refl).
  - exact (elem_of_descriptor_edges plan _ _ (bt_element_count spec) false e He eq_refl eq_refl).
Qed.

(** ** A concrete program in two shards *)

Module Sharded.
#[local] Open Scope string_scope.
#[local] Open Scope list_scope.
#[local] Instance in_order : HashOrder := λ A l, l.
Lemma in_order_laws : HashOrderLaws in_order.
Proof. by intros A l. Qed.

(** [y = x + w], [z = y * w]. *)
Definition program : CompiledProgram := mkProgram
  [mkInstruction (Eltwise Add) [GraphInput "x"; Program.Weight "w"] "y"; mkInstruction (Eltwise Mul) [Program.Virtual 0; Program.Weight "w"] "z"]
  {["w" := mkWeight [1] [1065353216%Z]]} ["x"] [("z", Program.Virtual 1)].
Definition hash (b : bytes) : Digest32 := b.
Definition layout : BoundaryLayout := mkLayout [mkTensorSpec (GraphInput "x") 1; mkTensorSpec (Program.Virtual 0) 1; mkTensorSpec (Program.Virtual 1) 1].
Definition ranges : list ShardSpec := [mkSpec "first" (mkRange 0 1); mkSpec "second" (mkRange 1 2)].
Definition plan : PartitionPlan := mkPlan
  (imap (λ id spec, mkPlannedShard id (spec_name spec) (spec_range spec) (mkShardEstimate 0 0) []) ranges)
  (match build_dag program ranges with Some (Ok dag) => dag | _ => mkDag [] [] end) [] (layout_digest hash layout) [] program.
Definition inputs : gmap string (list I18) := {["x" := [I18_ 500000000000000000]]}.
Definition half : list I18 := [I18_ 1500000000000000000].
Definition bind (shard_id : nat) (incoming : gmap Program.Register (list I18)) : Outcome BoundShardProgram ShardBindingError :=
  bind_shard_program hash program plan shard_id [] layout inputs incoming.
Definition bound (shard_id : nat) (incoming : gmap Program.Register (list I18)) : BoundShardProgram :=
  match bind shard_id incoming with Some (Ok b) => b | _ => mkBoundShard (mkAssemblerProgram [] [] []) [] [] ∅ [] [] 0 "" (mkRange 0 0) end.
Definition handed : gmap Program.Register (list I18) := {[Program.Virtual 0 := half]}.

Lemma first_bound : bind 0 ∅ = Some (Ok (bound 0 ∅)).
Proof. vm_compute. reflexivity. Qed.
Lemma second_bound : bind 1 handed = Some (Ok (bound 1 handed)).
Proof. vm_compute. reflexivity. Qed.
Lemma runs : shards_run hash checked_total program plan [] layout inputs 2 [half; half].
Proof.
  apply (shards_run_next _ _ _ _ _ _ _ 1 [half] handed (bound 1 handed) [half]).
  - apply (shards_run_next _ _ _ _ _ _ _ 0 [] ∅ (bound 0 ∅) [half]); [constructor|by intros r v ?%lookup_empty_Some|exact first_bound|].
    vm_compute. reflexivity.
  - intros r v Hr. unfold handed in Hr. apply lookup_singleton_Some in Hr as [<- <-]. by exists 0.
  - exact second_bound.
  - vm_compute. reflexivity.
Qed.
Lemma ranges_forward : Forall (λ shard, (range_start (ps_range shard) ≤ range_end (ps_range shard))%nat) (pp_shards plan).
Proof. repeat constructor. Qed.
End Sharded.

Lemma bound_program_evaluates_witness : ∃ bound,
  CircuitBinding.to_assembler_program Sharded.program Sharded.inputs = Ok bound ∧
  eval_program checked_total (input_values bound) (weight_values bound) (instructions bound) [] = Some [Sharded.half; Sharded.half] ∧
  eval_compiled checked_total Sharded.program Sharded.inputs (cp_instructions Sharded.program) [] = Some [Sharded.half; Sharded.half].
Proof.
  destruct (CircuitBinding.to_assembler_program Sharded.program Sharded.inputs) as [b|e] eqn:E; [|vm_compute in E; discriminate E].
  exists b. split; [reflexivity|]. rewrite <- (bound_program_evaluates checked_total _ _ _ E). vm_compute in E. injection E as <-.
  split; vm_compute; reflexivity.
Defined.
Lemma sharded_run_is_whole_run_witness :
  eval_compiled checked_total Sharded.program Sharded.inputs (cp_instructions Sharded.program) [] = Some [Sharded.half; Sharded.half].
Proof. exact (sharded_run_is_whole_run Sharded.hash checked_total Sharded.program Sharded.plan [] Sharded.layout Sharded.inputs _ Sharded.runs ltac:(discriminate)). Defined.
Lemma bind_shard_answers_witness : ∃ outcome, Sharded.bind 0 ∅ = Some outcome.
Proof.
  apply (bind_shard_answers Sharded.hash Sharded.in_order_laws); [repeat constructor|exact Sharded.ranges_forward].
Defined.
Lemma boundaries_agree_witness : ∃ e, e ∈ dag_edges (pp_dag Sharded.plan) ∧
  ∃ d d', d ∈ output_boundaries (Sharded.bound 0 ∅) ∧ d' ∈ input_boundaries (Sharded.bound 1 Sharded.handed) ∧
    bd_register d = edge_register e ∧ bd_register d' = edge_register e ∧ bd_element_count d = bd_element_count d' ∧
    edge_id e ∈ bd_edge_ids d ∧ edge_id e ∈ bd_edge_ids d'.
Proof.
  destruct (dag_edges (pp_dag Sharded.plan)) as [|e edges] eqn:E; [vm_compute in E; discriminate E|]. exists e. split; [by left|].
  assert (edge_producer e = 0 ∧ edge_consumer e = 1) as [Hp Hc] by (vm_compute in E; injection E as <- _; split; reflexivity).
  apply (boundaries_agree Sharded.hash Sharded.in_order_laws Sharded.program Sharded.plan [] Sharded.layout e Sharded.inputs Sharded.inputs ∅ Sharded.handed);
    [exact Sharded.ranges_forward|rewrite E; by left|rewrite Hp; exact Sharded.first_bound|rewrite Hc; exact Sharded.second_bound].
Defined.

(** A program with a NaN weight does not match its own plan. *)
Example nan_weight_never_matches :
  let program := mkProgram [] {["w"%string := mkWeight [1] [2143289344%Z]]} [] [] in
  matches_program (mkPlan [] (mkDag [] []) [] None [] program) program = false.
Proof. vm_compute. reflexivity. Qed.
