(* ===== verification/AssemblerProofs.v ===== *)
(** * The assembler: soundness

    In a satisfied circuit the cells of every register hold numbers, and the
    registers hold a run of the program: each instruction's output is what the
    reference semantics makes of its operands.  Nothing is assumed of the
    witnesses. *)
From S2P Require Import Prelude Ordering Primality Field FixedPoint Program Circuit CircuitLogic RangeCheck Eltwise EltwiseProofs Reduce DotProduct Lookup Norm NormProofs Assembler Evaluate.
Import Assembler.

Open Scope nat_scope.

(** ** Configuring *)

Record assembler_installed (cs : ConstraintSystem) (config : AssemblerConfig) : Prop := {
  as_dot k d : dot config !! k = Some d → DotProduct.installed cs d ∧ DotProduct.k d = k ∧ 0 < k;
  as_add : add_installed cs (add config);
  as_mul : mul_installed cs (mul config);
  as_rms dim eps c : rms_norm config !! (dim, eps) = Some c →
    rms_installed cs c ∧ RmsNorm.k c = dim ∧ Some (RmsNorm.epsilon c) = epsilon_of eps ∧ domain_typed (RmsNorm.rsqrt_domain c);
  as_bridge : bridge_gate (bridge_unshifted config) (bridge_shifted config) (s_bridge config) ∈ cs_gates cs
}.

Lemma elem_of_dedup {A} `{EqDecision A} (l : list A) x : x ∈ dedup l ↔ x ∈ l.
Proof.
  induction l as [|y [|z l] IH]; [done..|]. cbn [dedup]. destruct (decide (y = z)) as [->|].
  - rewrite IH. set_solver.
  - rewrite elem_of_cons, IH. set_solver.
Qed.

Lemma elem_of_sort_by {A} (cmp : A → A → comparison) l x : x ∈ sort_by cmp l ↔ x ∈ l.
Proof. by rewrite sort_by_Permutation. Qed.

Lemma elem_of_dot_ks instrs k :
  k ∈ dot_ks instrs ↔ ∃ instr m n bd ta tb, instr ∈ instrs ∧ instruction instr = DotGeneral m n k bd ta tb.
Proof.
  unfold dot_ks. rewrite elem_of_dedup, elem_of_sort_by, list_elem_of_omap. split.
  - intros (instr & Hin & E). destruct (instruction instr) eqn:Ei; simplify_eq. eauto 10.
  - intros (instr & m & n & bd & ta & tb & Hin & E). exists instr. by rewrite E.
Qed.
Lemma elem_of_rms_norm_keys instrs dim eps :
  (dim, eps) ∈ rms_norm_keys instrs ↔ ∃ instr, instr ∈ instrs ∧ instruction instr = Program.RmsNorm dim eps.
Proof.
  unfold rms_norm_keys. rewrite elem_of_dedup, elem_of_sort_by, list_elem_of_omap. split.
  - intros (instr & Hin & E). destruct (instruction instr) eqn:Ei; simplify_eq. eauto.
  - intros (instr & Hin & E). exists instr. by rewrite E.
Qed.

Section Configure.
Context (final : ConstraintSystem) (bits : Column).

Definition dot_entry (k : nat) (kc : nat * DotProduct.DotProductConfig) : Prop :=
  kc.1 = k ∧ DotProduct.installed final kc.2 ∧ DotProduct.k kc.2 = k ∧ 0 < k.
Definition rms_entry (key : nat * Z) (kc : (nat * Z) * RmsNorm.RmsNormConfig) : Prop :=
  kc.1 = key ∧ rms_installed final kc.2 ∧ RmsNorm.k kc.2 = key.1 ∧
  Some (RmsNorm.epsilon kc.2) = epsilon_of key.2 ∧ domain_typed (RmsNorm.rsqrt_domain kc.2).

Lemma configure_dots_ok ks : mwp final (configure_dots bits ks) (Forall2 dot_entry ks).
Proof.
  unfold configure_dots. destruct ks as [|k ks]; [by apply mwp_ret; constructor|].
  do 6 (eapply mwp_bind; [by apply (mwp_advice_column _ (λ _, True))|intros ?]).
  eapply mwp_conseq; [apply (mwp_map _ _ dot_entry)|by intros].
  intros k'. eapply mwp_bind; [apply DotProduct.dot_configure_ok|]. intros cfg. apply mwp_ret. by intros (? & ? & ?).
Qed.

Lemma configure_rms_norm_ok domains key :
  map_Forall (λ _ d, domain_typed d) domains → mwp final (configure_rms_norm domains bits key) (rms_entry key).
Proof.
  intros Hd. unfold configure_rms_norm. destruct key as [dim eps].
  do 20 (eapply mwp_bind; [by apply (mwp_advice_column _ (λ _, True))|intros ?]).
  eapply mwp_bind; [apply rms_configure_ok|]. intros cfg. apply mwp_ret. intros (? & ? & ? & Ed). intros.
  split_and!; [done..|]. simpl. rewrite Ed. destruct (domains !! (dim, eps)) as [d|] eqn:E; [|done]. by apply (Hd _ _ E).
Qed.
End Configure.

(** A table built from entries. *)
Lemma list_to_map_entry {K V} `{Countable K} (Q : K → K * V → Prop) (keys : list K) (entries : list (K * V)) k v :
  (∀ k kv, Q k kv → kv.1 = k) → Forall2 Q keys entries → (list_to_map entries : gmap K V) !! k = Some v → Q k (k, v).
Proof.
  intros HQ Hf E. apply elem_of_list_to_map_2, list_elem_of_lookup in E as [i Hi].
  destruct (Forall2_lookup_r _ _ _ _ _ Hf Hi) as (k' & _ & Hq). by rewrite <-(HQ _ _ Hq) in Hq at 1.
Qed.
Lemma list_to_map_entry_is_Some {K V} `{Countable K} (Q : K → K * V → Prop) (keys : list K) (entries : list (K * V)) k :
  (∀ k kv, Q k kv → kv.1 = k) → Forall2 Q keys entries → k ∈ keys → is_Some ((list_to_map entries : gmap K V) !! k).
Proof.
  intros HQ Hf [i Hi]%list_elem_of_lookup. destruct (Forall2_lookup_l _ _ _ _ _ Hf Hi) as ([k' v] & Hi' & Hq).
  pose proof (HQ _ _ Hq) as E. simpl in E. subst k'.
  destruct (list_to_map entries !! k) eqn:E; [done|]. apply not_elem_of_list_to_map_2 in E. destruct E.
  apply list_elem_of_fmap. exists (k, v). split; [done|]. by eapply list_elem_of_lookup_2.
Qed.

(** The configuration covers the program it was made for. *)
Definition covers (config : AssemblerConfig) (instrs : list AssemblerInstruction) : Prop :=
  Forall (λ instr, match instruction instr with
    | DotGeneral _ _ k _ _ _ => is_Some (dot config !! k)
    | Program.RmsNorm dim eps => is_Some (rms_norm config !! (dim, eps))
    | _ => True
    end) instrs.

Lemma configure_internal_ok final instrs domains expose :
  map_Forall (λ _ d, domain_typed d) domains →
  mwp final (configure_internal instrs domains expose) (λ config,
    assembler_installed final config ∧ covers config instrs ∧ (expose = true → is_Some (public_instance config)) ∧
    ∀ key, is_Some (rms_norm config !! key) → key ∈ rms_norm_keys instrs).
Proof.
  intros Hd. unfold configure_internal. eapply mwp_bind; [by apply (mwp_advice_column _ (λ _, True))|intros bits].
  eapply mwp_bind; [apply configure_dots_ok|intros dots].
  do 3 (eapply mwp_bind; [by apply (mwp_advice_column _ (λ _, True))|intros ?]).
  eapply mwp_bind; [apply add_configure_ok|intros addc].
  do 5 (eapply mwp_bind; [by apply (mwp_advice_column _ (λ _, True))|intros ?]).
  eapply mwp_bind; [apply mul_configure_ok|intros mulc].
  eapply mwp_bind; [by apply (mwp_map _ _ (rms_entry final)); intros key; apply configure_rms_norm_ok|intros norms].
  eapply mwp_bind; [by apply (mwp_advice_column _ (λ _, True))|intros bnd].
  eapply mwp_bind; [by apply (mwp_equality _ _ (λ _, True))|intros []].
  do 2 (eapply mwp_bind; [by apply (mwp_advice_column _ (λ _, True))|intros ?]).
  do 2 (eapply mwp_bind; [by apply (mwp_equality _ _ (λ _, True))|intros []]).
  eapply (mwp_bind _ _ _ (λ o, expose = true → is_Some o)).
  { destruct expose; [|by apply mwp_ret].
    eapply mwp_bind; [by apply (mwp_advice_column _ (λ _, True))|intros i].
    eapply mwp_bind; [by apply (mwp_equality _ _ (λ _, True))|intros []]. by apply mwp_ret. }
  intros instance. apply (mwp_gate _ (bridge_gate _ _)); [gate_off|]. intros s. apply mwp_ret.
  intros Hg Hi _ _ _ _ _ _ Hnorms Hmul _ _ _ _ _ Hadd _ _ _ Hdots _. split_and!; [split; try done| |done|]; simpl.
  - intros k d E. by eapply (list_to_map_entry (dot_entry final)) in E as (_ & ? & ? & ?); [|by intros ? ? []|done].
  - intros dim eps c E. by eapply (list_to_map_entry (rms_entry final)) in E as (_ & ? & ? & ? & ?); [|by intros ? ? []|done].
  - apply Forall_forall. intros instr Hin. destruct (instruction instr) eqn:E; try done; simpl.
    + eapply (list_to_map_entry_is_Some (dot_entry final)); [by intros ? ? []|done|]. apply elem_of_dot_ks. eauto 10.
    + eapply (list_to_map_entry_is_Some (rms_entry final)); [by intros ? ? []|done|]. apply elem_of_rms_norm_keys. eauto.
  - intros key [c Hc]. apply elem_of_list_to_map_2, list_elem_of_lookup in Hc as [i Hc].
    destruct (Forall2_lookup_r _ _ _ _ _ Hnorms Hc) as (key' & Hkey & E & _). simpl in E. subst. by eapply list_elem_of_lookup_2.
Qed.

(** ** Numbers in cells *)

(** The number a cell stands for: the representative nearest to zero. *)
Definition cell_number (planner : nat → Z) (grid : Column → Z → Fr) (c : Cell) : I18 :=
  I18_ (Zmod.signed (cell_value planner grid c)).
Definition tensor_in (planner : nat → Z) (grid : Column → Z → Fr) (cells : list Cell) : list I18 :=
  cell_number planner grid <$> cells.

Lemma signed_fr z : in_i64 z → Zmod.signed (fr z) = z.
Proof.
  intros Hz. pose proof bn254_order_large. apply Zmod.signed_of_Z_small.
  pose proof (Z.rem_bound_pos bn254_order 2). zlia.
Qed.

Lemma plain_number planner grid c z : plain planner grid c z → cell_number planner grid c = I18_ z.
Proof. intros [Hz E]. unfold cell_number. by rewrite E, signed_fr. Qed.

Lemma tensor_at_plain planner grid cells i c z :
  cells !! i = Some c → plain planner grid c z → tensor_at (tensor_in planner grid cells) i = Some (I18_ z).
Proof.
  intros Hc Hp. apply tensor_at_Some. unfold tensor_in. rewrite list_lookup_fmap, Hc. simpl.
  rewrite (plain_number _ _ _ _ Hp). split; [done|]. by destruct Hp.
Qed.

Lemma length_tensor planner grid cells : length (tensor_in planner grid cells) = length cells.
Proof. apply length_fmap. Qed.

Lemma tensor_in_plain planner grid cells zs :
  Forall2 (plain planner grid) cells zs → tensor_in planner grid cells = I18_ <$> zs.
Proof.
  unfold tensor_in. induction 1 as [|c z cells zs Hp _ IH]; [done|]. by rewrite !fmap_cons, IH, (plain_number _ _ _ _ Hp).
Qed.

(** ** One instruction *)

(** Every table holds only what it should. *)
Record tables_sound (log : list Call) (config : AssemblerConfig) : Prop := {
  ts_dot k d : dot config !! k = Some d → DotProduct.table_bytes log d;
  ts_mul : mul_table_bytes log (mul config);
  ts_rms key c chip : rms_norm config !! key = Some c → RmsNorm.construct c = Some chip →
    table_sound log (RmsNorm.rsqrt_chip chip) ∧ mul_table_bytes log (RmsNorm.mul c)
}.

(** RMS norm as the circuit holds it, for some epsilon. *)
Definition rms_step (config : AssemblerConfig) (dim : nat) (eps_milli : Z) (a b out : list I18) : Prop :=
  ∃ c chip eps, rms_norm config !! (dim, eps_milli) = Some c ∧ RmsNorm.construct c = Some chip ∧ in_i64 eps ∧
    length a = dim ∧ Forall in_I18 a ∧ Forall in_I18 b ∧ Forall in_I18 out ∧
    rms_spec (ReduceMean.reciprocal (RmsNorm.reduce_mean c)) (table_rows (RmsNorm.rsqrt_chip chip)) eps
      (raw <$> a) (raw <$> b) (raw <$> out).

Definition instruction_step (config : AssemblerConfig) (instr : Instruction) (a b out : list I18) : Prop :=
  match instr with
  | Program.RmsNorm dim eps => rms_step config dim eps a b out
  | _ => eval_instruction exact_total instr a b = Some out
  end.

(** Dimensions are [usize]. *)
Definition usize_instruction (instr : AssemblerInstruction) : Prop :=
  match instruction instr with
  | DotGeneral _ _ k _ _ _ => (Z.of_nat k ≤ 2 ^ 64)%Z
  | Program.RmsNorm dim _ => (Z.of_nat dim ≤ 2 ^ 64)%Z
  | _ => True
  end.

Section Sound.
Context `{Arithmetic, L : Layouter} (planner : nat → Z) (grid : Column → Z → Fr) (cs : ConstraintSystem) (log : list Call).
Context (config : AssemblerConfig) (Hinst : assembler_installed cs config) (Htables : tables_sound log config).
Context (Hok : log_ok planner grid cs log) (known : bool).

Notation val := (cell_value planner grid).
Notation shifted := (shifted planner grid).
Notation plain := (plain planner grid).
Notation tensor := (tensor_in planner grid).
Notation sound := (wp log (λ _, True)).

Lemma assign_bridge_sound r :
  sound (assign_bridge config known r) (λ '(u, s), ∀ z, shifted s z → plain u z).
Proof using Hok Hinst.
  unfold assign_bridge, shifted_i64_witness. wp_sound. intros z [Hz E].
  pose proof (gate_on _ _ _ _ _ _ _ Hok (as_bridge _ _ Hinst) H0) as Hv. simpl gate_polys in Hv. cbv zeta in Hv.
  rewrite vanish_1, !advice_cur, Zmod.mul_1_l in Hv. by eapply plain_of_shifted.
Qed.

Lemma output_bridge_sound r c z : shifted c z → sound (output_bridge config known r c) (λ u, plain u z).
Proof using Hok Hinst.
  intros Hc. unfold output_bridge. eapply wp_bind; [apply assign_bridge_sound|]. intros [u s] Hus. wp_sound.
  read_copies Hok. apply Hus. by eapply shifted_copy.
Qed.

Lemma operand_bridge_sound r c : sound (operand_bridge config known r c) (λ s, ∀ z, shifted s z → plain c z).
Proof using Hok Hinst.
  unfold operand_bridge. eapply wp_bind; [apply assign_bridge_sound|]. intros [u s] Hus. wp_sound.
  read_copies Hok. intros z Hz. eapply plain_copied; [done|]. by apply Hus.
Qed.

Lemma index_sound {E A} (l : list A) i : wp log (λ _, True) (index (E := E) l i) (λ x, l !! i = Some x).
Proof. by apply wp_unwrap. Qed.

Lemma assign_add_element_sound a b ca cb :
  sound (assign_add_element config known a b ca cb) (λ '(_, out), ∃ x y, plain ca x ∧ plain cb y ∧ plain out (x + y)).
Proof using Hok Hinst.
  unfold assign_add_element. apply wp_nest, wp_lift. intros c _.
  eapply wp_bind; [apply wp_try, operand_bridge_sound|]. intros sa Ha.
  eapply wp_bind; [apply wp_try, operand_bridge_sound|]. intros sb Hb.
  eapply wp_bind; [apply wp_try, (add_row_sound planner grid cs); [apply Hinst|done]|]. intros [[ra rb] rc] (x & y & Hx & Hy & Hz).
  cbn beta iota. apply wp_nest, wp_try. wp_sound. read_copies Hok.
  eapply wp_bind; [by apply wp_try, output_bridge_sound|]. intros out Hout. wp_sound.
  exists x, y. split_and!; [| |done]; [apply Ha|apply Hb]; by eapply shifted_copy.
Qed.

Lemma assign_mul_element_sound a b ca cb :
  sound (assign_mul_element config known a b ca cb) (λ '(_, out), ∃ x y z,
    plain ca x ∧ plain cb y ∧ plain out z ∧ mul_numbers (I18_ x) (I18_ y) = Some (I18_ z)).
Proof using Hok Hinst Htables.
  unfold assign_mul_element. apply wp_nest, wp_lift. intros [q _] _. cbn beta iota.
  eapply wp_bind; [apply wp_try, (mul_row_sound planner grid cs); [apply Hinst|apply Htables|done]|].
  intros [[ra rb] rq] (x & y & z & r & Hx & Hy & Hz & E). cbn beta iota.
  apply wp_nest, wp_try. wp_sound. read_copies Hok.
  eapply wp_bind; [by apply wp_try, output_bridge_sound|]. intros out Hout. wp_sound.
  exists x, y, z. split_and!; [by eapply plain_copied..|done|]. unfold mul_numbers. by rewrite E.
Qed.

(** A loop over elements makes the tensor that the specification makes. *)
Lemma elements_sound {E A} (f : A → Lay E (I18 * Cell)) (g : A → option I18) idxs (R : list (I18 * Cell) → Prop) :
  (∀ x, x ∈ idxs → wp log (λ _, True) (f x) (λ '(_, out), ∃ z, plain out z ∧ g x = Some (I18_ z))) →
  (∀ outs, mapM g idxs = Some (tensor outs.*2) → R outs) → wp log (λ _, True) (lay_map f idxs) R.
Proof using Type.
  intros Hf HR. eapply wp_map; [exact Hf|]. intros outs Houts. apply HR, mapM_Some. unfold tensor_in.
  rewrite <-list_fmap_compose. clear Hf HR.
  induction Houts as [|idx [v out] idxs outs (z & Hz & E0) _ IH]; simpl; [constructor|]. constructor; [|done].
  by rewrite E0, (plain_number _ _ _ _ Hz).
Qed.

(** *** Dot products *)

Lemma length_accumulate z terms sums : accumulate z terms = Some sums → length sums = length terms.
Proof using Type.
  revert z sums. induction terms as [|t terms IH]; intros z sums; cbn [accumulate]; [by intros [= <-]|].
  intros (s & _ & (rest & Hrest & [= <-])%bind_Some)%bind_Some. simpl. f_equal. by apply (IH s).
Qed.

Lemma fmap_zip {A B C} (f : A → B) (g : A → C) l : (λ i, (f i, g i)) <$> l = zip (f <$> l) (g <$> l).
Proof using Type. induction l as [|x l IH]; [done|]. by rewrite !fmap_cons, IH. Qed.

(** A column of cells. *)
Lemma column_plain region c n xs :
  length xs = n → (∀ i x, xs !! i = Some x → plain (mkCell region i c) x) →
  Forall2 plain ((λ i, mkCell region i c) <$> seq 0 n) xs.
Proof using Type.
  intros <- Hxs. apply Forall2_same_length_lookup_2; [by rewrite length_fmap, length_seq|].
  intros i cell x (j & -> & [-> _]%lookup_seq)%list_lookup_fmap_Some Hx. by apply Hxs.
Qed.

Lemma assembler_ranges_sound d rows :
  DotProduct.installed cs d → DotProduct.table_bytes log d →
  sound (lay_map (λ '(x, y, (a_shift_cell, b_shift_cell)),
    let '(a_shift_fr, a_shift_raw) := shifted_i64_witness (raw x) in
    let$ cell_a := LookupRangeCheck.assign (DotProduct.range_a d) (witness_value known a_shift_fr) (witness_value known a_shift_raw) in
    let '(b_shift_fr, b_shift_raw) := shifted_i64_witness (raw y) in
    let$ cell_b := LookupRangeCheck.assign (DotProduct.range_b d) (witness_value known b_shift_fr) (witness_value known b_shift_raw) in
    lay_ret [(a_shift_cell, cell_a); (b_shift_cell, cell_b)]) rows) (Forall2 (DotProduct.links planner grid) rows).
Proof using Hok.
  intros Hd [Ht1 Ht2]. apply (wp_map _ _ _ (DotProduct.links planner grid)); [|done].
  intros [[x y] [ac bc]] _. unfold shifted_i64_witness.
  eapply wp_bind; [apply (lookup64_sound planner grid cs); [apply Hd..|done|done]|]. intros ca (xv & Hx).
  eapply wp_bind; [apply (lookup64_sound planner grid cs); [apply Hd..|done|done]|]. intros cb (yv & Hy).
  apply wp_ret. by exists ca, cb, xv, yv.
Qed.

Lemma assign_dot_row_sound d a b :
  DotProduct.installed cs d → DotProduct.table_bytes log d → (Z.of_nat (DotProduct.k d) ≤ 2 ^ 64)%Z →
  sound (assign_dot_row d a b known) (λ '(ac, bc, q), ∃ xs ys q0 r0,
    Forall2 plain ac xs ∧ Forall2 plain bc ys ∧ length xs = DotProduct.k d ∧ length ys = DotProduct.k d ∧
    requantize_raw (zsum (DotProduct.products xs ys)) = Ok (I18_ q0, r0) ∧ shifted q q0).
Proof using Hok.
  intros Hd Ht Hk. unfold assign_dot_row, shifted_i64_witness.
  apply wp_if; [intros _; apply wp_panic|]. intros Hla%negb_false_iff%Nat.eqb_eq.
  apply wp_if; [intros _; apply wp_panic|]. intros Hlb%negb_false_iff%Nat.eqb_eq.
  apply wp_nest, wp_unwrap. intros sums Hsums. apply wp_nest, wp_expect. intros [q0' r0'] _. cbn beta iota.
  apply length_accumulate in Hsums as Hls. rewrite length_zip_with in Hls.
  apply wp_nest, wp_region. intros region. apply wp_nest.
  apply (wp_rows _ _ _ (λ i, ((mkCell region i (DotProduct.a d), mkCell region i (DotProduct.b d)),
      (mkCell region i (DotProduct.a_shift d), mkCell region i (DotProduct.b_shift d))))
    (λ i _, Enable (DotProduct.s_shift d) region i ∈ log ∧ DotProduct.acc_row planner grid d region i)).
  { intros i [[x y] acc] _. wp_sound. apply wp_nest.
    apply (wp_conseq _ _ _ _ (λ _, DotProduct.acc_row planner grid d region i)).
    { by destruct i as [|i]; cbn [Nat.eqb]; wp_sound; apply (DotProduct.acc_row_sound _ _ cs log). }
    intros [] Hrow. wp_sound. by split. }
  intros Hrows. rewrite !length_zip_with in *.
  assert (min (min (length a) (length b)) (length sums) = DotProduct.k d) as -> by lia.
  apply wp_if; [intros _; apply wp_panic|]. intros Hpos%Nat.eqb_neq. wp_sound.
  rewrite <-!list_fmap_compose. unfold compose. cbn [fst snd].
  eapply wp_bind; [by apply assembler_ranges_sound|]. intros ls Hlinks.
  eapply wp_bind; [apply (range64_sound planner grid cs); [apply Hd..|done]|]. intros rq (q0 & Hq).
  eapply wp_bind; [apply (range60_sound planner grid cs); [apply Hd..|done]|]. intros rr (r0 & Hr & Er).
  eapply wp_bind; [apply (range60_sound planner grid cs); [apply Hd..|done]|]. intros rs (slack0 & Hs & Es).
  apply wp_nest. wp_sound.
  apply (wp_iter _ _ _ (λ p, Equal p.1 p.2 ∈ log)); [intros [lhs rhs] _; by apply wp_equal|]. intros Heq. wp_sound.
  read_copies Hok.
  edestruct (DotProduct.rows_sound planner grid cs log d Hd region (zip a b) ls q0 r0 slack0)
    as (xs & ys & Hlx & Hly & Hxs & Hys & q1 & r1 & E & Hq1); try done; try lia.
  - rewrite length_zip_with. lia.
  - intros i Hi. destruct (lookup_lt_is_Some_2 (zip (zip a b) sums) i) as [p Hp]; [rewrite !length_zip_with; lia|].
    by apply (Hrows i p).
  - by rewrite <-fmap_zip.
  - by eapply shifted_copy.
  - by etrans.
  - by etrans.
  - exists xs, ys, q1, r1. split_and!; try done; by apply column_plain.
Qed.

Lemma raw_numbers (xs : list Z) : raw <$> (I18_ <$> xs) = xs.
Proof using Type. rewrite <-list_fmap_compose. apply list_fmap_id. Qed.

(** Operand cells tied to register cells read the register. *)
Lemma linked_reads idx k operand_cells register_cells xs :
  Forall2 plain operand_cells xs → length xs = k →
  Forall (λ l, ∃ c r, operand_cells !! l = Some c ∧ register_cells !! idx l = Some r ∧ Equal c r ∈ log) (seq 0 k) →
  mapM (λ l, tensor_at (tensor register_cells) (idx l)) (seq 0 k) = Some (I18_ <$> xs).
Proof using Hok.
  intros Hp Hlen Hl. apply mapM_Some, Forall2_same_length_lookup_2; [by rewrite length_fmap, length_seq|].
  intros i l x Hi Hx. rewrite list_lookup_fmap in Hx. apply fmap_Some in Hx as (z & Hz & ->).
  rewrite Forall_lookup in Hl. destruct (Hl _ _ Hi) as (c & r & Hc & Hr & Heq). apply lookup_seq in Hi as [-> _].
  destruct (Forall2_lookup_lr _ _ _ _ _ _ Hp Hc Hz) as [Hz' Ez]. apply (equal_on _ _ _ _ _ _ Hok) in Heq.
  eapply tensor_at_plain; [exact Hr|]. by eapply plain_copied.
Qed.

Lemma assign_dot_element_sound m n k ta tb d a_reg b_reg i j :
  dot config !! k = Some d → (Z.of_nat k ≤ 2 ^ 64)%Z →
  sound (assign_dot_element config known m n k ta tb d a_reg b_reg i j) (λ '(_, out), ∃ z,
    plain out z ∧ dot_at exact_total m n k ta tb (tensor (cells a_reg)) (tensor (cells b_reg)) (i, j) = Some (I18_ z)).
Proof using Hok Hinst Htables.
  intros Hd Hk. destruct (as_dot _ _ Hinst _ _ Hd) as (Hdi & Ek & _). unfold assign_dot_element.
  eapply wp_bind; [apply wp_true|]. intros av _. eapply wp_bind; [apply wp_true|]. intros bv _.
  apply wp_nest, wp_unwrap. intros s _. apply wp_nest, wp_lift. intros [q0 _] _. cbn beta iota.
  eapply wp_bind; [apply wp_try, assign_dot_row_sound; [done|by apply (ts_dot _ _ Htables k)|by rewrite Ek]|].
  intros [[ac bc] q] (xs & ys & z & r & Hxs & Hys & Hlx & Hly & E & Hq). cbn beta iota. rewrite Ek in Hlx, Hly.
  eapply wp_bind; [apply wp_try, wp_region; intros _; apply (wp_iter _ _ _ (λ l,
    (∃ c r, ac !! l = Some c ∧ cells a_reg !! phys_a m k ta i l = Some r ∧ Equal c r ∈ log) ∧
    (∃ c r, bc !! l = Some c ∧ cells b_reg !! phys_b n k tb l j = Some r ∧ Equal c r ∈ log)) _
    (λ _, Forall (λ l, (∃ c r, ac !! l = Some c ∧ cells a_reg !! phys_a m k ta i l = Some r ∧ Equal c r ∈ log) ∧
      (∃ c r, bc !! l = Some c ∧ cells b_reg !! phys_b n k tb l j = Some r ∧ Equal c r ∈ log)) (seq 0 k))); [|done]|].
  { intros l _. do 2 (eapply wp_bind; [apply index_sound|intros ? ?]). apply wp_equal_then; [done|intros ?].
    do 2 (eapply wp_bind; [apply index_sound|intros ? ?]). apply wp_equal; [done|]. cbn beta in *. intros ?. by split; eexists _, _; split_and!. }
  intros [] [Hla Hlb]%Forall_and.
  eapply wp_bind; [by apply wp_try, output_bridge_sound|]. intros out Hout. apply wp_ret. exists z. split; [done|].
  unfold dot_at. cbn [fst snd]. rewrite (linked_reads _ k _ _ _ Hxs Hlx Hla). cbn [mbind option_bind].
  rewrite (linked_reads (λ l, phys_b n k tb l j) k _ _ _ Hys Hly Hlb). cbn [mbind option_bind].
  cbn [mbind option_bind exact_total]. by rewrite !raw_numbers, E.
Qed.

(** ** Registers *)

(** A register has a cell for each of its values. *)
Definition well_formed (reg : RegisterCells) : Prop := length (cells reg) = length (values reg).

Section Registers.
Context (input_regs weight_regs virtual_regs : list RegisterCells).
Context (Hregs : Forall well_formed (input_regs ++ weight_regs ++ virtual_regs)).

Notation register_tensors regs := ((λ reg, tensor (cells reg)) <$> regs).
Notation register_of := (register (register_tensors input_regs) (register_tensors weight_regs) (register_tensors virtual_regs)).

Lemma resolve_sound E ref (R : RegisterCells → Prop) :
  (∀ reg, well_formed reg → register_of ref = Some (tensor (cells reg)) → R reg) →
  wp log (λ _, True) (lay_lift (resolve (E := E) ref input_regs weight_regs virtual_regs)) R.
Proof using Hregs.
  intros HR. apply wp_lift. intros reg. apply Forall_app in Hregs as [Hi [Hw Hv]%Forall_app].
  rewrite !Forall_lookup in Hi, Hw, Hv.
  destruct ref; simpl; intros E1%ok_or_Ok; apply HR; simpl; rewrite ?list_lookup_fmap, ?E1; eauto.
Qed.

(** The result of an instruction: a new register, with the reference's output. *)
Definition out_of (refs : list RegisterRef) (step : list I18 → list I18 → list I18 → Prop) (out : RegisterCells) : Prop :=
  well_formed out ∧ ∃ r r' a b, refs = [r; r'] ∧ register_of r = Some a ∧ register_of r' = Some b ∧ step a b (tensor (cells out)).

Lemma length_pairs m n : length (pairs m n) = m * n.
Proof using Type.
  assert (∀ s, length (seq s m ≫= λ i, pair i <$> seq 0 n) = m * n) as Hs; [|apply Hs].
  induction m as [|m IH]; intros s; [done|]. cbn [seq mbind list_bind].
  rewrite length_app, length_fmap, length_seq. by rewrite (IH (S s)).
Qed.

Lemma assign_dot_general_sound refs m n k bd ta tb :
  (Z.of_nat k ≤ 2 ^ 64)%Z →
  sound (assign_dot_general config known refs input_regs weight_regs virtual_regs m n k bd ta tb)
    (out_of refs (λ a b out, eval_instruction exact_total (DotGeneral m n k bd ta tb) a b = Some out)).
Proof using Hok Hinst Htables Hregs.
  intros Hk. unfold assign_dot_general. apply wp_if; [intros _; apply wp_err|].
  intros ->%negb_false_iff%bool_decide_eq_true. destruct refs as [|r [|r' [|]]]; try apply wp_err.
  apply wp_nest, resolve_sound. intros a Ha Ea. apply wp_nest, resolve_sound. intros b Hb Eb.
  apply wp_if; [intros _; apply wp_err|]. intros [Hla Hlb]%orb_false_iff.
  apply negb_false_iff, Nat.eqb_eq in Hla, Hlb. apply wp_nest, wp_lift. intros d Hd%ok_or_Ok.
  apply wp_nest, (elements_sound _ (dot_at exact_total m n k ta tb (tensor (cells a)) (tensor (cells b)))).
  { intros [i j] _. by apply assign_dot_element_sound. }
  intros outs Houts. apply wp_ret. split; [unfold well_formed; simpl; by rewrite !length_fmap|].
  exists r, r', (tensor (cells a)), (tensor (cells b)). split_and!; [done..|]. cbn [eval_instruction]. unfold dot_general.
  rewrite !length_tensor, Ha, Hb, Hla, Hlb, !Nat.eqb_refl. exact Houts.
Qed.

Definition number_op (op : EltwiseOp) (x y : I18) : option I18 :=
  match op with Add => add_numbers x y | Mul => mul_numbers x y | Relu => None end.

Lemma assign_eltwise_sound refs op :
  sound (assign_eltwise config known refs input_regs weight_regs virtual_regs op)
    (out_of refs (λ a b out, eltwise (number_op op) a b = Some out)).
Proof using Hok Hinst Htables Hregs.
  unfold assign_eltwise. destruct refs as [|r [|r' [|]]]; try apply wp_err.
  apply wp_nest, resolve_sound. intros a Ha Ea. apply wp_nest, resolve_sound. intros b Hb Eb. cbv zeta.
  set (out_len := length (values a) `max` length (values b)).
  apply wp_if; [intros _; apply wp_err|]. intros Hout%Nat.eqb_neq.
  apply wp_nest, wp_unwrap. unfold usize_mod at 1. destruct (_ =? 0) eqn:Hla; [done|]. intros ra [= <-].
  apply wp_if; [intros _; apply wp_err|]. intros Hra%negb_false_iff.
  apply wp_nest, wp_unwrap. unfold usize_mod at 1. destruct (length (values b) =? 0) eqn:Hlb; [done|]. intros rb [= <-].
  apply wp_if; [intros _; apply wp_err|]. intros Hrb%negb_false_iff.
  apply wp_nest, (elements_sound _ (eltwise_at (number_op op) (tensor (cells a)) (tensor (cells b)))).
  { intros idx _. do 4 (eapply wp_bind; [apply index_sound|intros ? ?]). cbn beta in *.
    unfold eltwise_at. rewrite !length_tensor, Ha, Hb.
    destruct op; [..|apply wp_err].
    - eapply wp_conseq; [apply assign_add_element_sound|]. intros [v out] (x & y & Hx & Hy & Hz). exists (x + y)%Z. split; [done|].
      erewrite !tensor_at_plain by done. cbn [mbind option_bind number_op]. unfold add_numbers. simpl.
      by rewrite (proj2 (try_i64_Some (x + y) _) (conj eq_refl (proj1 Hz))).
    - eapply wp_conseq; [apply assign_mul_element_sound|]. intros [v out] (x & y & z & Hx & Hy & Hz & E). exists z. split; [done|].
      by erewrite !tensor_at_plain by done. }
  intros outs Houts. apply wp_ret. split; [unfold well_formed; simpl; by rewrite !length_fmap|].
  exists r, r', (tensor (cells a)), (tensor (cells b)). split_and!; [done..|]. unfold eltwise.
  rewrite !length_tensor, Ha, Hb. fold out_len.
  apply Nat.eqb_neq, Nat.neq_0_lt_0, Nat.ltb_lt in Hla, Hlb. rewrite Hla, Hlb, Hra, Hrb. exact Houts.
Qed.

(** *** RMS norm *)

Lemma rms_outputs_length chip ins weight :
  sound (RmsNorm.assign_with_witnesses chip known ins weight)
    (λ out, length (RmsNorm.output_cells out) = length (RmsNorm.outputs out)).
Proof using Type.
  unfold RmsNorm.assign_with_witnesses. do 2 (apply wp_if; [intros _; apply wp_err|intros _]).
  repeat (eapply wp_bind; [apply wp_true|intros ? _]; repeat match goal with p : _ * _ |- _ => destruct p end).
  apply wp_ret. simpl. by rewrite !length_fmap.
Qed.

Lemma wp_map_length {E A B} (f : A → Lay E B) l : wp log (λ _, True) (lay_map f l) (λ ys, length ys = length l).
Proof using L. apply (wp_map _ _ _ (λ _ _, True)); [intros; apply wp_true|]. intros ys Hys. symmetry. by eapply Forall2_length. Qed.

(** Register cells tied one by one to operand cells. *)
Lemma linked_plain operand_cells register_cells xs :
  Forall2 plain operand_cells xs → length register_cells = length xs →
  (∀ i, i < length xs → ∃ c r, operand_cells !! i = Some c ∧ register_cells !! i = Some r ∧ Equal c r ∈ log) →
  Forall2 plain register_cells xs.
Proof using Hok.
  intros Hp Hlen Hl. apply Forall2_same_length_lookup_2; [done|]. intros i c z Hc Hz.
  destruct (Hl i) as (c' & r & Hc' & Hr & Heq); [by eapply lookup_lt_Some|]. simplify_eq.
  apply (equal_on _ _ _ _ _ _ Hok) in Heq. eapply plain_copied; [done|]. by apply (Forall2_lookup_lr _ _ _ _ _ _ Hp Hc' Hz).
Qed.

Lemma plain_in_I18 cells zs : Forall2 plain cells zs → Forall in_I18 (I18_ <$> zs).
Proof using Type. intros Hp. apply Forall_fmap. induction Hp as [|c z cells zs [Hz _]]; by constructor. Qed.

Lemma outputs_bridged out zs :
  Forall2 shifted (RmsNorm.output_cells out) zs → length (RmsNorm.output_cells out) = length (RmsNorm.outputs out) →
  sound (lay_map (λ '(i, o),
    let$ output_cell := index (RmsNorm.output_cells out) i in
    output_bridge config known (raw o) output_cell) (enumerate (RmsNorm.outputs out)))
    (λ cells, Forall2 plain cells zs).
Proof using Hok Hinst.
  intros Hs Hlen. apply (wp_map _ _ _ (λ p c, ∀ z, zs !! p.1 = Some z → plain c z)).
  { intros [i o] _. eapply wp_bind; [apply index_sound|]. intros oc Hoc. cbn beta in Hoc. cbn [fst].
    destruct (Forall2_lookup_l _ _ _ _ _ Hs Hoc) as (z & Hz & Hsz).
    eapply wp_conseq; [by apply (output_bridge_sound _ _ z)|]. intros u Hu z' Hz'. by simplify_eq. }
  intros cells Hcells. pose proof (Forall2_length _ _ _ Hcells) as Hlc. rewrite length_enumerate in Hlc.
  pose proof (Forall2_length _ _ _ Hs). apply Forall2_same_length_lookup_2; [lia|]. intros i c z Hc Hz.
  destruct (Forall2_lookup_r _ _ _ _ _ Hcells Hc) as ([j o] & Hj & Hpl). rewrite lookup_enumerate in Hj.
  apply fmap_Some in Hj as (? & _ & [= -> ->]). by apply Hpl.
Qed.

Lemma assign_rms_norm_sound refs dim eps :
  (Z.of_nat dim ≤ 2 ^ 64)%Z →
  sound (assign_rms_norm config known refs input_regs weight_regs virtual_regs dim eps) (out_of refs (rms_step config dim eps)).
Proof using Hok Hinst Htables Hregs.
  intros Hdim. unfold assign_rms_norm. destruct refs as [|r [|r' [|]]]; try apply wp_err.
  apply wp_nest, resolve_sound. intros a Ha Ea. apply wp_nest, resolve_sound. intros b Hb Eb.
  apply wp_if; [intros _; apply wp_err|]. intros [Hla Hlb]%orb_false_iff.
  apply negb_false_iff, Nat.eqb_eq in Hla, Hlb. apply wp_nest, wp_lift. intros c Hc%ok_or_Ok.
  apply wp_nest, wp_unwrap. intros chip Hch. destruct (as_rms _ _ Hinst _ _ _ Hc) as (Hri & Ek & _ & Hdt).
  destruct (ts_rms _ _ Htables _ _ _ Hc Hch) as [Ht Hm]. destruct (rms_construct _ _ Hch Hdt) as (Ec & Hlk & Hdom). subst c.
  eapply wp_bind; [apply wp_map_err, wp_also; [apply (rms_sound planner grid cs log chip Hri Hdom Hlk known Hok Hm);
    [by rewrite Ek|done]|apply rms_outputs_length]|].
  intros out ((xs & ws & outs & e & Hxs & Hws & Hout & Hlx & He & Hspec) & Hlen). rewrite Ek in Hlx.
  assert (length ws = dim) as Hlw.
  { destruct Hspec as (sqs & m & rv & ns & _ & _ & _ & Hns & H3). apply Forall2_length in Hns.
    apply Forall3_length_lm in H3 as H4. lia. }
  eapply (wp_bind _ _ _ _ (λ _, Forall (λ i,
    (∃ c r, RmsNorm.input_cells out !! i = Some c ∧ cells a !! i = Some r ∧ Equal c r ∈ log) ∧
    (∃ c r, RmsNorm.weight_cells out !! i = Some c ∧ cells b !! i = Some r ∧ Equal c r ∈ log)) (seq 0 dim))).
  { apply wp_try, wp_region. intros _. eapply wp_iter; [|done]. intros i _. cbn beta.
    do 2 (eapply wp_bind; [apply index_sound|intros ? ?]). apply wp_equal_then; [done|intros ?].
    do 2 (eapply wp_bind; [apply index_sound|intros ? ?]). apply wp_equal; [done|]. cbn beta in *. intros ?.
    by split; eexists _, _; split_and!. }
  intros [] Hl. rewrite Forall_forall in Hl.
  eapply wp_bind; [apply wp_try, wp_also; [by apply outputs_bridged|apply wp_map_length]|]. intros ocells [Ho Hlo].
  rewrite length_enumerate in Hlo. apply wp_ret. split; [done|].
  assert (Forall2 plain (cells a) xs) as Hpa.
  { eapply linked_plain; [done|by rewrite Ha, Hla|]. intros i Hi. apply Hl, elem_of_seq. lia. }
  assert (Forall2 plain (cells b) ws) as Hpb.
  { eapply linked_plain; [done|by rewrite Hb, Hlb|]. intros i Hi. apply Hl, elem_of_seq. lia. }
  exists r, r', (tensor (cells a)), (tensor (cells b)). split_and!; [done..|]. cbn [cells].
  rewrite (tensor_in_plain _ _ _ _ Hpa), (tensor_in_plain _ _ _ _ Hpb), (tensor_in_plain _ _ _ _ Ho).
  exists (RmsNorm.config chip), chip, e. rewrite !raw_numbers, length_fmap. split_and!; try done; by eapply plain_in_I18.
Qed.

Lemma assign_instruction_sound instr :
  usize_instruction instr →
  sound (assign_instruction config known instr input_regs weight_regs virtual_regs)
    (out_of (inputs instr) (instruction_step config (instruction instr))).
Proof using Hok Hinst Htables Hregs.
  unfold usize_instruction, assign_instruction.
  destruct (instruction instr) as [m n k bd ta tb| | | |dim eps|op| | |]; intros Hus; try apply wp_err.
  - by apply assign_dot_general_sound.
  - by apply assign_rms_norm_sound.
  - destruct op; [..|apply wp_err]; apply assign_eltwise_sound.
Qed.
End Registers.

Notation register_tensors regs := ((λ reg, tensor (cells reg)) <$> regs).

Lemma assign_registers_sound tensors :
  sound (assign_registers config known tensors) (λ regs, Forall well_formed regs ∧ values <$> regs = tensors).
Proof using Type.
  unfold assign_registers. apply (wp_map _ _ _ (λ t reg, well_formed reg ∧ values reg = t)).
  - intros t _. eapply wp_bind; [apply wp_try, wp_region; intros region; apply wp_map_length|]. intros cs' Hl.
    rewrite length_enumerate in Hl. by apply wp_ret.
  - intros regs Hregs. induction Hregs as [|t reg tensors regs [Hw <-] _ [IH1 IH2]]; [done|]. split; [by constructor|].
    by rewrite fmap_cons, IH2.
Qed.

Lemma assign_instructions_sound instrs input_regs weight_regs virtual_regs :
  Forall usize_instruction instrs → Forall well_formed (input_regs ++ weight_regs ++ virtual_regs) →
  sound (assign_instructions config known instrs input_regs weight_regs virtual_regs) (λ final,
    runs (instruction_step config) (register_tensors input_regs) (register_tensors weight_regs) instrs
      (register_tensors virtual_regs) (register_tensors final)).
Proof using Hok Hinst Htables.
  intros Hus. revert virtual_regs. induction Hus as [|instr instrs Hi Hus IH]; intros virtual_regs Hregs.
  - apply wp_ret. constructor.
  - cbn [assign_instructions]. eapply wp_bind; [by apply assign_instruction_sound|].
    intros out (Hout & r & r' & a & b & Er & Ea & Eb & Hstep).
    eapply wp_conseq; [apply IH|].
    + rewrite !app_assoc. apply Forall_app. split; [by rewrite <-app_assoc|]. by constructor.
    + intros final Hruns. rewrite fmap_app in Hruns.
      eapply runs_step; [|exact Hstep|exact Hruns]. unfold operands. rewrite Er, Ea, Eb. done.
Qed.

(** The tensors of an assigned program. *)
Definition tensors_of (ts : list AssignedTensor) : list (list I18) := (λ t, tensor (tensor_cells t)) <$> ts.

Context `{HashOrder}.

Lemma assign_program_sound program :
  Forall usize_instruction (instructions program) →
  sound (assign_with_cells_with_witnesses config known program) (λ p,
    runs (instruction_step config) (tensors_of (assigned_inputs p)) (tensors_of (assigned_weights p))
      (instructions program) [] (tensors_of (virtuals p))).
Proof using Hok Hinst Htables.
  intros Hus. unfold assign_with_cells_with_witnesses.
  eapply wp_bind; [apply wp_true|]. intros _ _.
  eapply wp_bind; [apply assign_registers_sound|]. intros inputs' [Hin _].
  eapply wp_bind; [apply assign_registers_sound|]. intros weights' [Hw _].
  eapply wp_bind; [apply assign_instructions_sound; [done|]|].
  { rewrite app_nil_r. by apply Forall_app. }
  intros virts Hruns. apply wp_ret. unfold tensors_of. simpl. rewrite <-!list_fmap_compose. exact Hruns.
Qed.
End Sound.
