(* ===== verification/AssemblerShape.v ===== *)
(** * The assembler: one circuit per shape

    The circuit of a program depends on its instructions and on the lengths of
    its tensors, not on the numbers in them, on whether the witnesses are known,
    or on the order in which hash maps are walked. *)
From S2P Require Import Prelude Ordering Field FixedPoint Program Circuit CircuitLogic RangeCheck Eltwise EltwiseProofs Shape DotProduct Norm NormProofs Assembler Evaluate AssemblerProofs.
Import Assembler.

Open Scope nat_scope.

(** Two runs of one shape, with what is known of each. *)
Lemma alike_posts `{Layouter} {E A B} (R : A → B → Prop) (Q : A → Prop) (Q' : B → Prop) (m : Lay E A) (m' : Lay E B) :
  alike R m m' → (∀ log, wp log (λ _, True) m Q) → (∀ log, wp log (λ _, True) m' Q') →
  alike (λ a b, R a b ∧ Q a ∧ Q' b) m m'.
Proof.
  intros Ha Hm Hm' lg lg' [a n c] [b n' c'] Hlg E1 E2. destruct (Ha _ _ _ _ Hlg E1 E2) as (HR & Hn & Hc).
  destruct (Hm c _ _ _ _ E1) as [HQ _]; [done|]. by destruct (Hm' c' _ _ _ _ E2) as [HQ' _].
Qed.

Section Alike.
Context `{Arithmetic, L : Layouter} (config : AssemblerConfig) (known known' : bool).

(** Registers with the same cells. *)
Definition same_register (reg reg' : RegisterCells) : Prop :=
  cells reg = cells reg' ∧ length (values reg) = length (values reg').

Lemma bridge_alike r r' : alike eq (assign_bridge config known r) (assign_bridge config known' r').
Proof. unfold assign_bridge, shifted_i64_witness. by repeat alike_step. Qed.

Lemma output_bridge_alike r r' c : alike eq (output_bridge config known r c) (output_bridge config known' r' c).
Proof.
  unfold output_bridge. eapply alike_bind; [apply bridge_alike|]. intros [u s] _ <-. cbn beta iota.
  eapply alike_bind; [alike_step; apply alike_equal|]. intros _ _ _. by alike_step.
Qed.
Lemma operand_bridge_alike r r' c : alike eq (operand_bridge config known r c) (operand_bridge config known' r' c).
Proof.
  unfold operand_bridge. eapply alike_bind; [apply bridge_alike|]. intros [u s] _ <-. cbn beta iota.
  eapply alike_bind; [alike_step; apply alike_equal|]. intros _ _ _. by alike_step.
Qed.

Lemma index_alike {E A} (l : list A) i : alike (E := E) eq (index l i) (index l i).
Proof. apply alike_unwrap. congruence. Qed.
Lemma index_alike_any {E A} (l l' : list A) i i' : alike (E := E) (λ _ _, True) (index l i) (index l' i').
Proof. by apply alike_unwrap. Qed.

Lemma indices_alike {E A} (l l' : list A) (f : nat → nat) n :
  alike (E := E) (λ v v', length v = length v') (lay_map (λ i, index l (f i)) (seq 0 n)) (lay_map (λ i, index l' (f i)) (seq 0 n)).
Proof.
  eapply alike_conseq; [apply (alike_map eq (λ _ _, True)); [by apply list_eq_Forall2|]|].
  - intros i _ <-. apply index_alike_any.
  - intros v v' Hv. by eapply Forall2_length.
Qed.

Lemma dot_row_alike d a b a' b' :
  alike eq (assign_dot_row d a b known) (assign_dot_row d a' b' known').
Proof.
  unfold assign_dot_row, shifted_i64_witness.
  apply alike_if; [|intros _; apply alike_panic_l|intros _; apply alike_panic_r].
  intros Hla%negb_false_iff%Nat.eqb_eq Hla'%negb_false_iff%Nat.eqb_eq.
  apply alike_if; [|intros _; apply alike_panic_l|intros _; apply alike_panic_r].
  intros Hlb%negb_false_iff%Nat.eqb_eq Hlb'%negb_false_iff%Nat.eqb_eq.
  eapply alike_bind.
  { apply (alike_unwrap (λ p p', length p = DotProduct.k d ∧ length p' = DotProduct.k d)).
    intros p p' Hp%length_accumulate Hp'%length_accumulate. rewrite length_zip_with in *. lia. }
  intros p p' [Hp Hp']. alike_step. repeat alike_step. eapply (alike_bind eq).
  - alike_step. eapply alike_bind.
    { apply alike_rows; [rewrite !length_zip_with; lia|]. intros j [[x y] s] [[x' y'] s']. repeat alike_step.
      eapply alike_bind; [destruct (j =? 0); apply alike_enable|]. intros _ _ _. by repeat alike_step. }
    intros rows rows' <-. destruct (_ =? 0); [apply alike_panic|]. by repeat alike_step.
  - intros [[[rows c1] c2] c3] _ <-. cbn beta iota. eapply (alike_bind eq).
    { eapply alike_conseq; [apply (alike_map (λ p p', p.2 = p'.2) eq)|].
      - apply Forall2_same_length_lookup_2; [rewrite !length_zip_with; lia|].
        intros j [t c] [t' c'] (? & ? & [= <- <-] & _ & Hc)%lookup_zip_with_Some (? & ? & [= <- <-] & _ & Hc')%lookup_zip_with_Some.
        simpl. congruence.
      - intros [[x y] [c c']] [[x' y'] [e e']] E0. cbn [fst snd] in E0. injection E0 as <- <-.
        do 2 (eapply alike_bind; [apply lookup_assign_alike|intros ? ? <-]). by alike_step.
      - intros ys ys' Hys. by apply list_eq_Forall2. }
    intros ls _ <-. do 3 (eapply alike_bind; [apply range_assign_alike|intros ? ? <-]).
    eapply alike_bind; [repeat alike_step|intros _ _ _; by alike_step].
    apply alike_iter_refl. intros [? ?]. apply alike_equal.
Qed.

(** ** Instructions *)

Definition same_out (p p' : I18 * Cell) : Prop := p.2 = p'.2.

Lemma outputs_alike {A} (f f' : A → Lay (AssemblerError ErrorFront) (I18 * Cell)) l :
  (∀ x, alike same_out (f x) (f' x)) →
  alike same_register
    (let$ out := lay_map f l in lay_ret (mkRegisterCells out.*1 out.*2))
    (let$ out := lay_map f' l in lay_ret (mkRegisterCells out.*1 out.*2)).
Proof using Type.
  intros Hf. eapply alike_bind; [apply (alike_map eq same_out); [by apply list_eq_Forall2|by intros x _ <-]|].
  intros out out' Hout. apply alike_ret. unfold same_register. simpl. rewrite !length_fmap.
  pose proof (Forall2_length _ _ _ Hout). split; [|done].
  induction Hout as [|p p' out out' Hp _ IH]; [done|]. rewrite !fmap_cons. f_equal; [done|]. apply IH. simpl in *. lia.
Qed.

Lemma dot_element_alike m n k ta tb d a b a' b' i j :
  same_register a a' → same_register b b' →
  alike same_out (assign_dot_element config known m n k ta tb d a b i j) (assign_dot_element config known' m n k ta tb d a' b' i j).
Proof using Type.
  intros [Ea _] [Eb _]. unfold assign_dot_element. eapply alike_bind; [apply indices_alike|]. intros v v' _.
  eapply alike_bind; [apply (indices_alike _ _ (λ l, phys_b n k tb l j))|]. intros w w' _.
  repeat alike_step. eapply alike_bind; [apply alike_try, dot_row_alike|]. intros [[ac bc] q] _ <-. cbn beta iota.
  rewrite Ea, Eb. eapply alike_bind.
  { apply alike_try. alike_step. apply alike_iter_refl. intros l.
    do 2 (eapply alike_bind; [apply index_alike|intros ? ? <-]). alike_step.
    do 2 (eapply alike_bind; [apply index_alike|intros ? ? <-]). apply alike_equal. }
  intros _ _ _. eapply alike_bind; [apply alike_try, output_bridge_alike|]. intros c _ <-. by alike_step.
Qed.

Lemma add_element_alike a b a' b' ca cb :
  alike same_out (assign_add_element config known a b ca cb) (assign_add_element config known' a' b' ca cb).
Proof using Type.
  unfold assign_add_element. alike_step. do 2 (eapply alike_bind; [apply alike_try, operand_bridge_alike|intros ? ? <-]).
  eapply alike_bind; [apply alike_try, add_row_alike|]. intros [[ra rb] rc] _ <-. cbn beta iota.
  eapply (alike_bind eq); [apply alike_try; by repeat alike_step|]. intros _ _ _.
  eapply alike_bind; [apply alike_try, output_bridge_alike|]. intros c _ <-. by alike_step.
Qed.

Lemma mul_element_alike a b a' b' ca cb :
  alike same_out (assign_mul_element config known a b ca cb) (assign_mul_element config known' a' b' ca cb).
Proof using Type.
  unfold assign_mul_element. repeat alike_step.
  eapply alike_bind; [apply alike_try, mul_row_alike|]. intros [[ra rb] rq] _ <-. cbn beta iota.
  eapply (alike_bind eq); [apply alike_try; by repeat alike_step|]. intros _ _ _.
  eapply alike_bind; [apply alike_try, output_bridge_alike|]. intros c _ <-. by alike_step.
Qed.

Section Registers.
Context (ins ws vs ins' ws' vs' : list RegisterCells).
Context (Hins : Forall2 same_register ins ins') (Hws : Forall2 same_register ws ws') (Hvs : Forall2 same_register vs vs').

Lemma resolve_alike E ref :
  alike same_register (lay_lift (resolve (E := E) ref ins ws vs)) (lay_lift (resolve ref ins' ws' vs')).
Proof using Hins Hws Hvs.
  apply alike_lift. intros reg reg'.
  destruct ref as [i|i|i]; simpl; intros E1%ok_or_Ok E2%ok_or_Ok; [destruct (Forall2_lookup_lr _ _ _ _ _ _ Hins E1 E2)|
    destruct (Forall2_lookup_lr _ _ _ _ _ _ Hws E1 E2)|destruct (Forall2_lookup_lr _ _ _ _ _ _ Hvs E1 E2)]; by split.
Qed.

Lemma dot_general_alike refs m n k bd ta tb :
  alike same_register (assign_dot_general config known refs ins ws vs m n k bd ta tb)
    (assign_dot_general config known' refs ins' ws' vs' m n k bd ta tb).
Proof using Hins Hws Hvs.
  unfold assign_dot_general. destruct (negb _); [apply alike_err_l|]. destruct refs as [|r [|r' [|]]]; try apply alike_err_l.
  eapply alike_bind; [apply resolve_alike|]. intros a a' Ha. eapply alike_bind; [apply resolve_alike|]. intros b b' Hb.
  pose proof Ha as [_ Ela]. pose proof Hb as [_ Elb]. rewrite Ela, Elb. destruct (_ || _); [apply alike_err_l|].
  eapply alike_bind; [by apply (alike_lift eq); congruence|]. intros d _ <-. apply outputs_alike.
  intros [i j]. by apply dot_element_alike.
Qed.

Lemma eltwise_alike refs op :
  alike same_register (assign_eltwise config known refs ins ws vs op) (assign_eltwise config known' refs ins' ws' vs' op).
Proof using Hins Hws Hvs.
  unfold assign_eltwise. destruct refs as [|r [|r' [|]]]; try apply alike_err_l.
  eapply alike_bind; [apply resolve_alike|]. intros a a' [Eca Ela]. eapply alike_bind; [apply resolve_alike|]. intros b b' [Ecb Elb].
  rewrite Ela, Elb, Eca, Ecb. cbv zeta. destruct (_ =? 0); [apply alike_err_l|].
  eapply alike_bind; [by apply (alike_unwrap eq); congruence|]. intros ra _ <-. destruct (negb _); [apply alike_err_l|].
  eapply alike_bind; [by apply (alike_unwrap eq); congruence|]. intros rb _ <-. destruct (negb _); [apply alike_err_l|].
  apply outputs_alike. intros idx. do 2 (eapply alike_bind; [apply index_alike_any|intros ? ? _]).
  do 2 (eapply alike_bind; [apply index_alike|intros ? ? <-]).
  destruct op; [apply add_element_alike|apply mul_element_alike|apply alike_err_l].
Qed.

(** The epsilon is the same in both, so this is the configuration's own. *)
Lemma rms_norm_chip_alike chip inputs weight inputs' weight' :
  alike (λ p p', RmsNorm.output_cells p = RmsNorm.output_cells p' ∧ RmsNorm.input_cells p = RmsNorm.input_cells p' ∧
      RmsNorm.weight_cells p = RmsNorm.weight_cells p')
    (RmsNorm.assign_with_witnesses chip known inputs weight) (RmsNorm.assign_with_witnesses chip known' inputs' weight').
Proof using Type.
  pose proof (rms_alike chip (RmsNorm.epsilon (RmsNorm.config chip)) known known' inputs weight inputs' weight') as Ha.
  by destruct chip as [[]].
Qed.

Lemma rms_norm_alike refs dim eps :
  alike same_register (assign_rms_norm config known refs ins ws vs dim eps)
    (assign_rms_norm config known' refs ins' ws' vs' dim eps).
Proof using Hins Hws Hvs.
  unfold assign_rms_norm. destruct refs as [|r [|r' [|]]]; try apply alike_err_l.
  eapply alike_bind; [apply resolve_alike|]. intros a a' [Eca Ela]. eapply alike_bind; [apply resolve_alike|]. intros b b' [Ecb Elb].
  rewrite Ela, Elb, Eca, Ecb. destruct (_ || _); [apply alike_err_l|].
  eapply alike_bind; [by apply (alike_lift eq); congruence|]. intros c _ <-.
  eapply alike_bind; [by apply (alike_unwrap eq); congruence|]. intros chip _ <-.
  eapply alike_bind; [apply alike_map_err, alike_posts;
    [apply rms_norm_chip_alike|intros log; apply (rms_outputs_length log known)|intros log; apply (rms_outputs_length log known')]|].
  intros out out' ((Eo & Ei & Ew) & Hl & Hl'). rewrite Eo, Ei, Ew in *.
  eapply alike_bind.
  { apply alike_try. alike_step. apply alike_iter_refl. intros l.
    do 2 (eapply alike_bind; [apply index_alike|intros ? ? <-]). alike_step.
    do 2 (eapply alike_bind; [apply index_alike|intros ? ? <-]). apply alike_equal. }
  intros _ _ _. eapply (alike_bind eq).
  { apply alike_try, alike_rows; [congruence|]. intros i x x'. eapply alike_bind; [apply index_alike|].
    intros oc _ <-. apply output_bridge_alike. }
  intros ocs _ <-. apply alike_ret. split; simpl; congruence.
Qed.

Lemma instruction_alike instr :
  alike same_register (assign_instruction config known instr ins ws vs) (assign_instruction config known' instr ins' ws' vs').
Proof using Hins Hws Hvs.
  unfold assign_instruction. destruct (instruction instr) as [m n k bd ta tb| | | |dim eps|op| | |]; try apply alike_err_l.
  - apply dot_general_alike.
  - apply rms_norm_alike.
  - destruct op; [apply eltwise_alike..|apply alike_err_l].
Qed.
End Registers.

Lemma instructions_alike instrs ins ws vs ins' ws' vs' :
  Forall2 same_register ins ins' → Forall2 same_register ws ws' → Forall2 same_register vs vs' →
  alike (Forall2 same_register) (assign_instructions config known instrs ins ws vs) (assign_instructions config known' instrs ins' ws' vs').
Proof using Type.
  intros Hi Hw. revert vs vs'. induction instrs as [|instr instrs IH]; intros vs vs' Hv; [by apply alike_ret|].
  cbn [assign_instructions]. eapply alike_bind; [by apply instruction_alike|]. intros out out' Hout. apply IH.
  apply Forall2_app; [done|]. by constructor.
Qed.

Lemma registers_alike tensors tensors' :
  Forall2 (λ t t', length t = length t') tensors tensors' →
  alike (Forall2 same_register) (assign_registers config known tensors) (assign_registers config known' tensors').
Proof using Type.
  intros Ht. apply (alike_map (λ t t', length t = length t')); [done|]. intros t t' Hl.
  eapply (alike_bind eq).
  { apply alike_try. unfold assign_boundary. alike_step. apply alike_rows; [done|]. intros i v v'. by repeat alike_step. }
  intros cs _ <-. by alike_step.
Qed.
End Alike.

(** ** Tables, in any order *)

(** The runs of [m] that succeed make these calls, and open no region. *)
Definition loads `{Layouter} {E} (m : Lay E unit) (calls : list Call) : Prop :=
  ∀ lg d, m lg = Some (Ok d) → dn_regions d = lg_regions lg ∧ dn_calls d = calls.

Section Loads.
Context `{L : Layouter}.

Lemma loads_bind {E} (m k : Lay E unit) c c' : loads m c → loads k c' → loads (lay_bind m (λ _, k)) (c ++ c').
Proof.
  intros Hm Hk lg d Hrun. unfold lay_bind in Hrun. destruct (m lg) as [[[[] n1 c1]|]|] eqn:E1; [|done..].
  destruct (k _) as [[[[] n2 c2]|]|] eqn:E2; [|done..]. injection Hrun as <-.
  destruct (Hm _ _ E1) as [Hn1 Hc1], (Hk _ _ E2) as [Hn2 Hc2]. simpl in *. by subst.
Qed.

Lemma loads_iter {E A} (f : A → Lay E unit) (g : A → list Call) l :
  (∀ x, loads (f x) (g x)) → loads (lay_iter f l) (l ≫= g).
Proof.
  intros Hf. induction l as [|x l IH]; cbn [lay_iter mbind list_bind]; [by intros lg d [= <-]|]. by apply loads_bind.
Qed.

Lemma loads_cell t o v : loads (assign_cell t o v) [Table t o v].
Proof. intros lg d. unfold assign_cell, emit. destruct (refuse _ _); [done|]. by intros [= <-]. Qed.

Definition byte_calls (config : LookupRangeCheck.LookupRangeCheckConfig) : list Call :=
  seq 0 256 ≫= λ i, [Table (LookupRangeCheck.table config) i (fr (Z.of_nat i))].

Lemma loads_bytes config : loads (LookupRangeCheck.load_table config) (byte_calls config).
Proof. apply loads_iter. intros i. apply loads_cell. Qed.

Definition dot_calls (kd : nat * DotProduct.DotProductConfig) : list Call :=
  byte_calls (DotProduct.range_a kd.2) ++ byte_calls (DotProduct.range_b kd.2).
Definition mul_calls (mul : EltwiseMulConfig) : list Call :=
  byte_calls (mul_range_a mul) ++ byte_calls (mul_range_b mul).

Lemma loads_range_tables (o : HashOrder) config :
  loads (load_range_tables config) ((hash_order (map_to_list (dot config)) ≫= dot_calls) ++ mul_calls (mul config)).
Proof.
  apply loads_bind; [|apply loads_bind; apply loads_bytes].
  apply loads_iter. intros [k d]. apply loads_bind; apply loads_bytes.
Qed.
End Loads.

(** Calls of one circuit: the tables in any order, then calls of one shape. *)
Definition same_circuit (calls calls' : list Call) : Prop := ∃ mid, calls ≡ₚ mid ∧ same_calls mid calls'.

Lemma same_circuit_satisfied planner grid cs calls calls' :
  same_circuit calls calls' → satisfied planner grid cs calls ↔ satisfied planner grid cs calls'.
Proof. by intros (mid & -> & ->). Qed.

Section Loads.
Context `{L : Layouter}.

Lemma loads_map_err {E F} (f : E → F) (m : Lay E unit) c : loads m c → loads (lay_map_err f m) c.
Proof. intros Hm lg d Hrun. unfold lay_map_err in Hrun. destruct (m lg) as [[d'|]|] eqn:E1; simplify_eq. by apply Hm. Qed.

Lemma loads_then_alike {E A B} (m m' : Lay E unit) c c' (k : Lay E A) (k' : Lay E B) R lg lg' d d' :
  loads m c → loads m' c' → c ≡ₚ c' → alike R k k' → lg_regions lg = lg_regions lg' →
  lay_bind m (λ _, k) lg = Some (Ok d) → lay_bind m' (λ _, k') lg' = Some (Ok d') →
  R (dn_value d) (dn_value d') ∧ dn_regions d = dn_regions d' ∧ same_circuit (dn_calls d) (dn_calls d').
Proof.
  intros Hm Hm' Hc Hk Hlg E1 E2. unfold lay_bind in E1, E2.
  destruct (m lg) as [[[[] n1 c1]|]|] eqn:Em; [|done..]. destruct (m' lg') as [[[[] n1' c1']|]|] eqn:Em'; [|done..].
  destruct (Hm _ _ Em) as [Hn Hc1], (Hm' _ _ Em') as [Hn' Hc1']. simpl in *. subst.
  destruct (k _) as [[[a n2 c2]|]|] eqn:Ek; [|done..]. destruct (k' _) as [[[b n2' c2']|]|] eqn:Ek'; [|done..].
  injection E1 as <-. injection E2 as <-.
  destruct (Hk (mkLog _ _) (mkLog _ _) _ _ Hlg Ek Ek') as (HR & Hr & Hs). simpl in *. split_and!; [done..|].
  exists (c' ++ c2). split; [by rewrite Hc|]. by apply same_calls_app.
Qed.
End Loads.

Section Program.
Context `{Arithmetic, L : Layouter} (o o' : HashOrder) `{!HashOrderLaws o, !HashOrderLaws o'}.
Context (config : AssemblerConfig) (known known' : bool).

Definition same_tensor (t t' : AssignedTensor) : Prop :=
  tensor_cells t = tensor_cells t' ∧ length (tensor_values t) = length (tensor_values t').
Definition same_assigned (p p' : AssignedProgram) : Prop :=
  Forall2 same_tensor (assigned_inputs p) (assigned_inputs p') ∧
  Forall2 same_tensor (assigned_weights p) (assigned_weights p') ∧ Forall2 same_tensor (virtuals p) (virtuals p').

(** Programs of one shape. *)
Record same_shape (p p' : AssemblerProgram) : Prop := {
  sh_instructions : instructions p = instructions p';
  sh_inputs : Forall2 (λ t t', length t = length t') (input_values p) (input_values p');
  sh_weights : Forall2 (λ t t', length t = length t') (weight_values p) (weight_values p')
}.

Lemma same_tensors regs regs' :
  Forall2 same_register regs regs' → Forall2 same_tensor (into_tensor <$> regs) (into_tensor <$> regs').
Proof using Type. intros Hr. apply Forall2_fmap. eapply Forall2_impl; [exact Hr|]. by intros ? ? []. Qed.

(** What follows the tables. *)
Lemma registers_then_instructions_alike p p' :
  same_shape p p' →
  alike same_assigned
    (let$ input_regs := assign_registers config known (input_values p) in
     let$ weight_regs := assign_registers config known (weight_values p) in
     let$ virtual_regs := assign_instructions config known (instructions p) input_regs weight_regs [] in
     lay_ret (mkAssignedProgram (into_tensor <$> input_regs) (into_tensor <$> weight_regs) (into_tensor <$> virtual_regs)))
    (let$ input_regs := assign_registers config known' (input_values p') in
     let$ weight_regs := assign_registers config known' (weight_values p') in
     let$ virtual_regs := assign_instructions config known' (instructions p') input_regs weight_regs [] in
     lay_ret (mkAssignedProgram (into_tensor <$> input_regs) (into_tensor <$> weight_regs) (into_tensor <$> virtual_regs))).
Proof using Type.
  intros [Ei Hin Hw]. rewrite Ei. eapply alike_bind; [by apply registers_alike|]. intros ins ins' Hins.
  eapply alike_bind; [by apply registers_alike|]. intros ws ws' Hws.
  eapply alike_bind; [by apply instructions_alike|]. intros vs vs' Hvs.
  apply alike_ret. split_and!; by apply same_tensors.
Qed.

Lemma assign_program_same p p' lg lg' d d' :
  same_shape p p' → lg_regions lg = lg_regions lg' →
  assign_with_cells_with_witnesses (H0 := o) config known p lg = Some (Ok d) →
  assign_with_cells_with_witnesses (H0 := o') config known' p' lg' = Some (Ok d') →
  same_assigned (dn_value d) (dn_value d') ∧ dn_regions d = dn_regions d' ∧ same_circuit (dn_calls d) (dn_calls d').
Proof using All.
  intros Hp Hlg.
  apply (loads_then_alike _ _ ((@hash_order o _ (map_to_list (dot config)) ≫= dot_calls) ++ mul_calls (mul config))
    ((@hash_order o' _ (map_to_list (dot config)) ≫= dot_calls) ++ mul_calls (mul config))).
  - apply loads_map_err, loads_range_tables.
  - apply loads_map_err, loads_range_tables.
  - apply Permutation_app_tail. by rewrite !hash_order_Permutation.
  - by apply registers_then_instructions_alike.
  - done.
Qed.
End Program.
