(* ===== verification/AssemblerHonest.v ===== *)
(** * The assembler: honest provers

    The honest run of a program satisfies every call it makes, its register
    cells hold the values it returns, and those are the values the reference
    semantics gives. *)
From S2P Require Import Prelude Field FixedPoint Circuit CircuitLogic RangeCheck Eltwise EltwiseProofs Reduce.
From S2P Require Import DotProduct Lookup Norm NormProofs Ordering Program Assembler Evaluate AssemblerProofs.
Import Assembler.

Open Scope nat_scope.

(** Additions that do not wrap. *)
Class ExactArithmetic (A : Arithmetic) : Prop :=
  exact_add : ∀ x y z, i128_add x y = Some z → z = (x + y)%Z ∧ in_i128 z.
#[export] Instance debug_arithmetic_exact : ExactArithmetic debug_arithmetic.
Proof. intros x y z. unfold i128_add, debug_arithmetic. case_bool_decide; naive_solver. Qed.

Lemma i128_sum_exact `{A : Arithmetic, !ExactArithmetic A} z terms s :
  i128_sum z terms = Some s → s = (z + zsum terms)%Z.
Proof.
  revert z. induction terms as [|t terms IH]; intros z; cbn [i128_sum]; [intros [= <-]; unfold zsum; simpl; lia|].
  intros (s' & [-> _]%exact_add & ->%IH)%bind_Some. rewrite zsum_cons. lia.
Qed.

Lemma accumulate_exact `{A : Arithmetic, !ExactArithmetic A, L : Layouter} z a b sums :
  accumulate z (zip_with (λ x y, raw x * raw y)%Z a b) = Some sums →
  DotProduct.partial_sums (H := L) z (zip a b) = Ok sums.
Proof.
  revert z b sums. induction a as [|x a IH]; intros z [|y b] sums; cbn [zip_with accumulate DotProduct.partial_sums];
    [by intros [= <-]..|].
  intros (s & [-> Hs]%exact_add & (rest & Hrest & [= <-])%bind_Some)%bind_Some. rewrite bool_decide_eq_true_2 by done.
  by rewrite (IH _ _ _ Hrest).
Qed.

(** What the load of the tables guarantees. *)
Record tables_loaded (log : list Call) (config : AssemblerConfig) : Prop := {
  tl_dot k d : dot config !! k = Some d → DotProduct.table_loaded log d;
  tl_mul : mul_table_loaded log (mul config)
}.
Definition norms_loaded (log : list Call) (config : AssemblerConfig) : Prop :=
  ∀ key c chip, rms_norm config !! key = Some c → RmsNorm.construct c = Some chip →
    table_complete log (RmsNorm.rsqrt_chip chip) ∧ mul_table_loaded log (RmsNorm.mul c).

(** One instruction of an honest run, with the configured epsilon. *)
Definition honest_step (config : AssemblerConfig) (instr : Instruction) (a b out : list I18) : Prop :=
  match instr with
  | Program.RmsNorm dim eps_milli => ∃ c chip eps,
      rms_norm config !! (dim, eps_milli) = Some c ∧ RmsNorm.construct c = Some chip ∧ epsilon_of eps_milli = Some eps ∧
      length a = dim ∧ rms_spec (ReduceMean.reciprocal (RmsNorm.reduce_mean c)) (table_rows (RmsNorm.rsqrt_chip chip)) (raw eps)
        (raw <$> a) (raw <$> b) (raw <$> out)
  | _ => eval_instruction exact_total instr a b = Some out
  end.

Section Complete.
Context `{A : Arithmetic, !ExactArithmetic A, O : HashOrder, !HashOrderLaws O, L : Layouter}.
Context (planner : nat → Z) (grid : Column → Z → Fr) (cs : ConstraintSystem) (log : list Call).
Context (config : AssemblerConfig) (Hinst : assembler_installed cs config).
Context (Hcs : cs_ok cs) (Hag : agrees planner grid log).

Notation val := (cell_value planner grid).
Notation shifted := (shifted planner grid).
Notation plain := (plain planner grid).
Notation honest := (wp log (call_ok planner grid cs log)).

Lemma load_range_tables_complete (P : Call → Prop) :
  (∀ t i v, P (Table t i v)) → wp log P (load_range_tables config) (λ _, tables_loaded log config).
Proof using HashOrderLaws0.
  intros HP. unfold load_range_tables. eapply (wp_bind _ _ _ _ (λ _, Forall (λ kd, DotProduct.table_loaded log kd.2) _)).
  { apply (wp_iter _ _ _ (λ kd, DotProduct.table_loaded log kd.2)); [|intros Hf; exact Hf].
    intros [k d] _. by apply DotProduct.load_tables. }
  intros [] Hdots. eapply wp_conseq; [by apply load_mul_tables|]. intros [] Hm. split; [|done].
  intros k d Hd. rewrite Forall_forall in Hdots. apply (Hdots (k, d)).
  rewrite hash_order_Permutation. by apply elem_of_map_to_list.
Qed.

(** ** Bridges *)

Lemma assign_bridge_complete r : in_i64 r → honest (assign_bridge config true r) (λ '(u, s), plain u r ∧ shifted s r).
Proof using All.
  intros Hr. unfold assign_bridge, shifted_i64_witness. cbn [known_or_unknown witness_value]. wp_honest.
  match goal with |- (plain ?u _ ∧ shifted ?s _) ∧ _ =>
    assert (plain u r) as Hu by (by eapply plain_assigned); assert (shifted s r) as Hs by (by eapply shifted_assigned) end.
  split; [done|]. apply (enable_gate_ok _ _ _ _ _ _ _ Hcs (as_bridge _ _ Hinst)). simpl gate_polys. cbv zeta.
  destruct Hu as [_ Eu], Hs as [_ Es]. rewrite vanish_1, !advice_cur, Zmod.mul_1_l, Eu, Es. autorewrite with fr. f_equal. lia.
Qed.

Lemma output_bridge_complete r c : shifted c r → honest (output_bridge config true r c) (λ u, plain u r).
Proof using All.
  intros Hc. unfold output_bridge. eapply wp_bind; [apply assign_bridge_complete; by destruct Hc|]. intros [u s] [Hu Hs].
  wp_step. wp_step; [by eapply shifted_eq|]. by wp_step.
Qed.
Lemma operand_bridge_complete r c : plain c r → honest (operand_bridge config true r c) (λ s, shifted s r).
Proof using All.
  intros Hc. unfold operand_bridge. eapply wp_bind; [apply assign_bridge_complete; by destruct Hc|]. intros [u s] [Hu Hs].
  wp_step. wp_step; [by eapply plain_eq|]. by wp_step.
Qed.

(** ** Registers whose cells hold their values *)

Definition held (reg : RegisterCells) : Prop := Forall2 plain (cells reg) (raw <$> values reg).

Lemma held_typed reg : held reg → Forall in_I18 (values reg).
Proof using Type.
  intros Hh. apply Forall_lookup. intros i x Hx.
  destruct (Forall2_lookup_r _ _ _ i (raw x) Hh) as (c & _ & [Hr _]); [by rewrite list_lookup_fmap, Hx|done].
Qed.
Lemma held_length reg : held reg → length (cells reg) = length (values reg).
Proof using Type. intros Hh%Forall2_length. by rewrite length_fmap in Hh. Qed.
Lemma held_at reg i x c : held reg → values reg !! i = Some x → cells reg !! i = Some c → plain c (raw x) ∧ in_I18 x.
Proof using Type.
  intros Hh Hx Hc. assert (plain c (raw x)) as Hp; [|split; [done|by destruct Hp]].
  eapply (Forall2_lookup_lr _ _ _ _ _ _ Hh Hc). by rewrite list_lookup_fmap, Hx.
Qed.

(** A loop over elements makes a register that holds what the specification makes. *)
Lemma elements_complete {E B} (f : B → Lay E (I18 * Cell)) (g : B → option I18) idxs (R : list (I18 * Cell) → Prop) :
  (∀ x, x ∈ idxs → wp log (call_ok planner grid cs log) (f x) (λ '(v, out), plain out (raw v) ∧ g x = Some v)) →
  (∀ outs, mapM g idxs = Some outs.*1 → held (mkRegisterCells outs.*1 outs.*2) → R outs) →
  wp log (call_ok planner grid cs log) (lay_map f idxs) R.
Proof using Type.
  intros Hf HR. eapply wp_map; [exact Hf|]. intros outs Houts. apply HR.
  - apply mapM_Some. clear Hf HR. induction Houts as [|idx [v out] idxs outs [Hz Hg] _ IH]; simpl; by constructor.
  - unfold held. simpl. clear Hf HR. induction Houts as [|idx [v out] idxs outs [Hz Hg] _ IH]; simpl; by constructor.
Qed.

Lemma index_spec {E B} (l : list B) i (P : Call → Prop) : wp log P (index (E := E) l i) (λ x, l !! i = Some x).
Proof using Type. by apply wp_unwrap. Qed.

Lemma assign_add_element_complete a b ca cb :
  plain ca (raw a) → plain cb (raw b) →
  honest (assign_add_element config true a b ca cb) (λ '(v, out), plain out (raw v) ∧ add_numbers a b = Some v).
Proof using All.
  intros Ha Hb. unfold assign_add_element. apply wp_nest, wp_lift. intros c Hc%ok_or_Ok.
  pose proof Hc as [<- Hci]%try_i64_Some.
  eapply wp_bind; [by apply wp_try, operand_bridge_complete|]. intros sa Hsa.
  eapply wp_bind; [by apply wp_try, operand_bridge_complete|]. intros sb Hsb.
  eapply wp_bind; [apply wp_try, (add_row_complete planner grid cs); [apply Hinst|done|done|by destruct Ha|by destruct Hb]|].
  intros [[ra rb] rc] (Hra & Hrb & Hrc). cbn beta iota in *.
  eapply (wp_bind _ _ _ _ (λ _, True)).
  { apply wp_try. wp_step. do 2 (wp_step; [by eapply shifted_eq|]). by wp_step. }
  intros _ _. eapply wp_bind; [by apply wp_try, output_bridge_complete|]. intros out Hout. apply wp_ret.
  split; [done|]. unfold add_numbers. by rewrite Hc.
Qed.

Lemma assign_mul_element_complete a b ca cb :
  mul_table_loaded log (mul config) → plain ca (raw a) → plain cb (raw b) →
  honest (assign_mul_element config true a b ca cb) (λ '(v, out), plain out (raw v) ∧ mul_numbers a b = Some v).
Proof using All.
  intros Ht Ha Hb. unfold assign_mul_element. apply wp_nest, wp_lift. intros [q r] Hq%map_err_Ok. cbn beta iota.
  eapply wp_bind; [apply wp_try, (mul_row_complete planner grid cs); [apply Hinst|done|done|done|by destruct Ha|by destruct Hb]|].
  intros [[ra rb] rq] (Hra & Hrb & q' & r' & Eq & Hrq). cbn beta iota. rewrite Hq in Eq. simplify_eq.
  eapply (wp_bind _ _ _ _ (λ _, True)).
  { apply wp_try. wp_step. do 2 (wp_step; [by eapply plain_eq|]). by wp_step. }
  intros _ _. eapply wp_bind; [by apply wp_try, output_bridge_complete|]. intros out Hout. apply wp_ret.
  split; [done|]. unfold mul_numbers. by rewrite Hq.
Qed.

(** ** Dot products *)

Lemma assembler_ranges_complete d rows :
  DotProduct.installed cs d → DotProduct.table_loaded log d → Forall (λ p, in_I18 p.1.1 ∧ in_I18 p.1.2) rows →
  honest (lay_map (λ '(x, y, (a_shift_cell, b_shift_cell)),
    let '(a_shift_fr, a_shift_raw) := shifted_i64_witness (raw x) in
    let$ cell_a := LookupRangeCheck.assign (DotProduct.range_a d) (witness_value true a_shift_fr) (witness_value true a_shift_raw) in
    let '(b_shift_fr, b_shift_raw) := shifted_i64_witness (raw y) in
    let$ cell_b := LookupRangeCheck.assign (DotProduct.range_b d) (witness_value true b_shift_fr) (witness_value true b_shift_raw) in
    lay_ret [(a_shift_cell, cell_a); (b_shift_cell, cell_b)]) rows) (Forall2 (DotProduct.honest_links planner grid) rows).
Proof using Hcs Hag.
  intros Hd [Ht1 Ht2] Hin. apply (wp_map _ _ _ (DotProduct.honest_links planner grid)); [|done].
  intros [[x y] [ac bc]] Hrow. rewrite Forall_forall in Hin. destruct (Hin _ Hrow) as [Hx Hy].
  unfold shifted_i64_witness. cbn [fst snd witness_value] in *.
  eapply wp_bind; [apply lookup64_complete; [apply Hd..|done|done|done|done]|]. intros ca Hca.
  eapply wp_bind; [apply lookup64_complete; [apply Hd..|done|done|done|done]|]. intros cb Hcb.
  apply wp_ret. by exists ca, cb.
Qed.

Lemma column_held region c n (xs : list I18) :
  length xs = n → (∀ i x, xs !! i = Some x → plain (mkCell region i c) (raw x)) →
  Forall2 plain ((λ i, mkCell region i c) <$> seq 0 n) (raw <$> xs).
Proof using Type.
  intros Hlen Hxs. apply column_plain; [by rewrite length_fmap|].
  intros i x Hx. rewrite list_lookup_fmap in Hx. apply fmap_Some in Hx as (y & Hy & ->). by apply Hxs.
Qed.

Lemma columns_held d region (a b : list I18) (sums : list Z) :
  length a = length b → length sums = length a →
  (∀ i x y acc, zip a b !! i = Some (x, y) → sums !! i = Some acc → DotProduct.dot_row planner grid d region i x y acc) →
  Forall2 plain ((λ i, mkCell region i (DotProduct.a d)) <$> seq 0 (length a)) (raw <$> a) ∧
  Forall2 plain ((λ i, mkCell region i (DotProduct.b d)) <$> seq 0 (length a)) (raw <$> b).
Proof using Type.
  intros Hl Hls Hcells.
  assert (∀ i x y, a !! i = Some x → b !! i = Some y →
    plain (mkCell region i (DotProduct.a d)) (raw x) ∧ plain (mkCell region i (DotProduct.b d)) (raw y)) as Hrow.
  { intros i x y Hx Hy. destruct (lookup_lt_is_Some_2 sums i) as [acc Hacc]; [apply lookup_lt_Some in Hx; lia|].
    destruct (Hcells i x y acc) as (? & ? & _); [by rewrite lookup_zip_with, Hx; simpl; rewrite Hy|done|done]. }
  split; (apply column_held; [lia|]); intros i z Hz; pose proof (lookup_lt_Some _ _ _ Hz).
  - destruct (lookup_lt_is_Some_2 b i) as [y Hy]; [lia|]. by apply (Hrow i z y).
  - destruct (lookup_lt_is_Some_2 a i) as [x Hx]; [lia|]. by apply (Hrow i x z).
Qed.

Lemma assign_dot_row_complete d a b :
  DotProduct.installed cs d → DotProduct.table_loaded log d → Forall in_I18 a → Forall in_I18 b →
  honest (assign_dot_row d a b true) (λ '(ac, bc, qc), Forall2 plain ac (raw <$> a) ∧ Forall2 plain bc (raw <$> b) ∧
    ∃ q r, requantize_raw (zsum (DotProduct.products (raw <$> a) (raw <$> b))) = Ok (q, r) ∧ shifted qc (raw q)).
Proof using All.
  intros Hd Ht Ha Hb. unfold assign_dot_row, shifted_i64_witness.
  apply wp_if; [intros _; apply wp_panic|]. intros Hla%negb_false_iff%Nat.eqb_eq.
  apply wp_if; [intros _; apply wp_panic|]. intros Hlb%negb_false_iff%Nat.eqb_eq.
  apply wp_nest, wp_unwrap. intros sums Hsums%(accumulate_exact (L := L)).
  set (terms := zip a b) in *. assert (length terms = DotProduct.k d) as Hlen by (unfold terms; rewrite length_zip_with; lia).
  assert (Forall (λ p, in_I18 p.1 ∧ in_I18 p.2) terms) as Hin by (by apply DotProduct.typed_terms).
  pose proof Hsums as [Hls _]%DotProduct.partial_sums_Ok.
  apply wp_nest, wp_expect. intros [quot rem] Hq. cbn beta iota.
  pose proof Hq as (Hqi & _ & Hr)%requantize_raw_Ok.
  apply wp_nest, wp_region. intros region. cbn [known_or_unknown witness_value].
  eapply wp_bind; [by apply (DotProduct.rows_complete planner grid cs log d Hd (λ c1 c2 c3 c4, ((c1, c2), (c3, c4))))|].
  intros rows [-> Hcells]. apply wp_if; [intros _; apply wp_panic|]. intros Hpos%Nat.eqb_neq. wp_honest.
  edestruct (DotProduct.last_row_complete planner grid cs log d Hd region terms sums quot rem)
    as (Hqc & Hrc & Hsc & Hfin & Hslack); try done; [lia|].
  split_and?; [|done..]. rewrite <-!list_fmap_compose. unfold compose. cbn [fst snd]. eapply wp_bind.
  { apply assembler_ranges_complete; [done..|]. apply Forall_lookup. intros i [p c] (? & ? & [= <- <-] & Hx & _)%lookup_zip_with_Some.
    rewrite Forall_lookup in Hin. by apply (Hin i). }
  intros ls Hlinks. rewrite fmap_zip in Hlinks. apply (DotProduct.links_complete planner grid d region terms sums) in Hlinks; [|lia|done].
  eapply wp_bind; [apply range64_complete; [apply Hd..|done|done|done]|]. intros ? ?.
  do 2 (eapply wp_bind; [apply range60_complete; [apply Hd..|done|done|unfold SCALE_18 in *; lia]|]; intros ? ?).
  cbn beta in *. apply wp_nest. wp_honest; [by eapply shifted_eq|by etrans..|].
  apply (wp_iter _ _ _ (λ _, True)).
  { intros [c1 c2] Hc. rewrite Forall_forall in Hlinks. apply wp_equal; [|done]. by apply (Hlinks (c1, c2)). }
  intros _. apply wp_ret. rewrite Hlen. destruct (columns_held d region a b sums) as [Hac Hbc]; [lia..|done|].
  split_and!; [by rewrite <-Hla|by rewrite <-Hla|]. exists quot, rem. by rewrite <-(DotProduct.total_sum _ _ _ Hsums).
Qed.

(** The values read by a loop, as the specification reads them. *)
Lemma gather_spec {E} (v : list I18) idx k (P : Call → Prop) :
  Forall in_I18 v →
  wp log P (lay_map (λ l, index (E := E) v (idx l)) (seq 0 k))
    (λ xs, mapM (λ l, tensor_at v (idx l)) (seq 0 k) = Some xs ∧ Forall in_I18 xs).
Proof using Type.
  intros Hv. apply (wp_map _ _ _ (λ l x, v !! idx l = Some x)); [intros l _; apply index_spec|].
  intros xs Hxs. split.
  - apply mapM_Some. eapply Forall2_impl; [exact Hxs|]. intros l x Hx. simpl. by rewrite tensor_at_lookup.
  - apply Forall_lookup. intros i x Hi. destruct (Forall2_lookup_r _ _ _ _ _ Hxs Hi) as (l & _ & Hl).
    rewrite Forall_lookup in Hv. eauto.
Qed.

(** Linking operand cells to the register they were read from. *)
Lemma gathered_held reg idx k xs operand_cells l c r :
  held reg → mapM (λ l, tensor_at (values reg) (idx l)) (seq 0 k) = Some xs → Forall2 plain operand_cells (raw <$> xs) →
  l ∈ seq 0 k → operand_cells !! l = Some c → cells reg !! idx l = Some r → val c = val r.
Proof using Type.
  intros Hh Hxs%mapM_Some Hop Hl Hc Hr. apply list_elem_of_lookup in Hl as [i Hi]. pose proof Hi as [-> _]%lookup_seq.
  cbn [Nat.add] in *.
  destruct (Forall2_lookup_l _ _ _ _ _ Hxs Hi) as (x & Hx & [Hv _]%tensor_at_Some).
  destruct (held_at _ _ _ _ Hh Hv Hr) as [Hpr _].
  assert (plain c (raw x)) as Hpc by (eapply (Forall2_lookup_lr _ _ _ _ _ _ Hop Hc); by rewrite list_lookup_fmap, Hx).
  by eapply plain_eq.
Qed.

Lemma assign_dot_element_complete m n k ta tb d a_reg b_reg i j :
  dot config !! k = Some d → DotProduct.table_loaded log d → held a_reg → held b_reg →
  honest (assign_dot_element config true m n k ta tb d a_reg b_reg i j)
    (λ '(v, out), plain out (raw v) ∧ dot_at exact_total m n k ta tb (values a_reg) (values b_reg) (i, j) = Some v).
Proof using All.
  intros Hd Ht Ha Hb. destruct (as_dot _ _ Hinst _ _ Hd) as (Hdi & Ek & _). unfold assign_dot_element.
  eapply wp_bind; [by apply gather_spec, held_typed|]. intros av [Hav Tav].
  eapply wp_bind; [by apply (gather_spec _ (λ l, phys_b n k tb l j)), held_typed|]. intros bv [Hbv Tbv].
  apply wp_nest, wp_unwrap. intros s Hs%i128_sum_exact. rewrite Z.add_0_l in Hs.
  apply wp_nest, wp_lift. intros [q r] Hq%map_err_Ok. cbn beta iota.
  assert (s = zsum (DotProduct.products (raw <$> av) (raw <$> bv))) as ->.
  { rewrite Hs. f_equal. unfold DotProduct.products. by rewrite zip_with_fmap_l, zip_with_fmap_r. }
  eapply wp_bind; [by apply wp_try, assign_dot_row_complete|]. intros [[ac bc] qc] (Hac & Hbc & q' & r' & Eq & Hqc).
  cbn beta iota. rewrite Hq in Eq. injection Eq as <- <-.
  eapply (wp_bind _ _ _ _ (λ _, True)).
  { apply wp_try, wp_region. intros _. apply (wp_iter _ _ _ (λ _, True)); [|done]. intros l Hl.
    do 2 (eapply wp_bind; [apply index_spec|intros ? ?]). cbn beta in *.
    apply wp_equal_then; [by eapply (gathered_held a_reg)|intros _].
    do 2 (eapply wp_bind; [apply index_spec|intros ? ?]). cbn beta in *.
    apply wp_equal; [by eapply (gathered_held b_reg (λ l, phys_b n k tb l j))|done]. }
  intros _ _. eapply wp_bind; [by apply wp_try, output_bridge_complete|]. intros out Hout. apply wp_ret. split; [done|].
  unfold dot_at. cbn [fst snd]. rewrite Hav. cbn [mbind option_bind]. rewrite Hbv. cbn [mbind option_bind exact_total]. by rewrite Hq.
Qed.

(** ** Instructions *)

Section Registers.
Context (input_regs weight_regs virtual_regs : list RegisterCells).
Context (Hheld : Forall held (input_regs ++ weight_regs ++ virtual_regs)).
Context (Htables : tables_loaded log config) (Hnorms : norms_loaded log config).

Notation register_of := (register (values <$> input_regs) (values <$> weight_regs) (values <$> virtual_regs)).

Lemma resolve_held E ref (R : RegisterCells → Prop) :
  (∀ reg, held reg → register_of ref = Some (values reg) → R reg) →
  wp log (call_ok planner grid cs log) (lay_lift (resolve (E := E) ref input_regs weight_regs virtual_regs)) R.
Proof using Hheld.
  intros HR. apply wp_lift. intros reg. apply Forall_app in Hheld as [Hi [Hw Hv]%Forall_app].
  rewrite !Forall_lookup in Hi, Hw, Hv.
  destruct ref; simpl; intros E1%ok_or_Ok; apply HR; simpl; rewrite ?list_lookup_fmap, ?E1; eauto.
Qed.

Definition held_out (refs : list RegisterRef) (step : list I18 → list I18 → list I18 → Prop) (out : RegisterCells) : Prop :=
  held out ∧ ∃ r r' a b, refs = [r; r'] ∧ register_of r = Some a ∧ register_of r' = Some b ∧ step a b (values out).

Lemma assign_dot_general_complete refs m n k bd ta tb :
  honest (assign_dot_general config true refs input_regs weight_regs virtual_regs m n k bd ta tb)
    (held_out refs (λ a b out, eval_instruction exact_total (DotGeneral m n k bd ta tb) a b = Some out)).
Proof using All.
  unfold assign_dot_general. apply wp_if; [intros _; apply wp_err|].
  intros ->%negb_false_iff%bool_decide_eq_true. destruct refs as [|r [|r' [|]]]; try apply wp_err.
  apply wp_nest, resolve_held. intros a Ha Ea. apply wp_nest, resolve_held. intros b Hb Eb.
  apply wp_if; [intros _; apply wp_err|]. intros [Hla Hlb]%orb_false_iff.
  apply negb_false_iff in Hla, Hlb. apply wp_nest, wp_lift. intros d Hd%ok_or_Ok.
  apply wp_nest, (elements_complete _ (dot_at exact_total m n k ta tb (values a) (values b))).
  { intros [i j] _. apply assign_dot_element_complete; [done|by apply (tl_dot _ _ Htables k)|done|done]. }
  intros outs Houts Hh. apply wp_ret. split; [done|]. exists r, r', (values a), (values b). split_and!; [done..|].
  cbn [eval_instruction]. unfold dot_general. by rewrite Hla, Hlb.
Qed.

Lemma assign_eltwise_complete refs op :
  honest (assign_eltwise config true refs input_regs weight_regs virtual_regs op)
    (held_out refs (λ a b out, eltwise (number_op op) a b = Some out)).
Proof using All.
  unfold assign_eltwise. destruct refs as [|r [|r' [|]]]; try apply wp_err.
  apply wp_nest, resolve_held. intros a Ha Ea. apply wp_nest, resolve_held. intros b Hb Eb. cbv zeta.
  set (out_len := length (values a) `max` length (values b)).
  apply wp_if; [intros _; apply wp_err|]. intros Hout%Nat.eqb_neq.
  apply wp_nest, wp_unwrap. unfold usize_mod at 1. destruct (_ =? 0) eqn:Hla; [done|]. intros ra [= <-].
  apply wp_if; [intros _; apply wp_err|]. intros Hra%negb_false_iff.
  apply wp_nest, wp_unwrap. unfold usize_mod at 1. destruct (length (values b) =? 0) eqn:Hlb; [done|]. intros rb [= <-].
  apply wp_if; [intros _; apply wp_err|]. intros Hrb%negb_false_iff.
  apply wp_nest, (elements_complete _ (eltwise_at (number_op op) (values a) (values b))).
  { intros idx _. do 4 (eapply wp_bind; [apply index_spec|intros ? ?]). cbn beta in *.
    unfold eltwise_at. rewrite !tensor_at_lookup by by apply held_typed. simplify_option_eq.
    destruct (held_at a _ _ _ Ha ltac:(eassumption) ltac:(eassumption)), (held_at b _ _ _ Hb ltac:(eassumption) ltac:(eassumption)).
    destruct op; [by apply assign_add_element_complete|by apply assign_mul_element_complete; [apply Htables|..]|apply wp_err]. }
  intros outs Houts Hh. apply wp_ret. split; [done|].
  exists r, r', (values a), (values b). split_and!; [done..|]. unfold eltwise. fold out_len.
  apply Nat.eqb_neq, Nat.neq_0_lt_0, Nat.ltb_lt in Hla, Hlb. by rewrite Hla, Hlb, Hra, Hrb.
Qed.

Lemma zipped_held reg operand_cells i c r :
  held reg → Forall2 plain operand_cells (raw <$> values reg) → operand_cells !! i = Some c → cells reg !! i = Some r → val c = val r.
Proof using Type.
  intros Hh Hop Hc Hr. destruct (Forall2_lookup_l _ _ _ _ _ Hop Hc) as (z & Hz & Hpc).
  rewrite list_lookup_fmap in Hz. apply fmap_Some in Hz as (x & Hx & ->).
  destruct (held_at _ _ _ _ Hh Hx Hr) as [Hpr _]. by eapply plain_eq.
Qed.

Lemma assign_rms_norm_complete refs dim eps_milli :
  honest (assign_rms_norm config true refs input_regs weight_regs virtual_regs dim eps_milli)
    (held_out refs (honest_step config (Program.RmsNorm dim eps_milli))).
Proof using All.
  unfold assign_rms_norm. destruct refs as [|r [|r' [|]]]; try apply wp_err.
  apply wp_nest, resolve_held. intros a Ha Ea. apply wp_nest, resolve_held. intros b Hb Eb.
  apply wp_if; [intros _; apply wp_err|]. intros [Hla Hlb]%orb_false_iff.
  apply negb_false_iff, Nat.eqb_eq in Hla, Hlb. apply wp_nest, wp_lift. intros c Hc%ok_or_Ok.
  apply wp_nest, wp_unwrap. intros chip Hch. destruct (as_rms _ _ Hinst _ _ _ Hc) as (Hri & Ek & Heps & Hdt).
  destruct (Hnorms _ _ _ Hc Hch) as [Ht Hm]. destruct (rms_construct _ _ Hch Hdt) as (Ec & Hlk & Hdom). subst c.
  eapply wp_bind; [apply wp_map_err, (rms_complete planner grid cs log chip Hri Hdom Hlk Hcs Hag Hm); [done|by apply held_typed..]|].
  intros out (Hxs & Hws & Hos & Hspec).
  eapply (wp_bind _ _ _ _ (λ _, True)).
  { apply wp_try, wp_region. intros _. apply (wp_iter _ _ _ (λ _, True)); [|done]. intros i _.
    do 2 (eapply wp_bind; [apply index_spec|intros ? ?]). cbn beta in *. apply wp_equal_then; [by eapply (zipped_held a)|intros _].
    do 2 (eapply wp_bind; [apply index_spec|intros ? ?]). cbn beta in *. apply wp_equal; [by eapply (zipped_held b)|done]. }
  intros _ _. eapply (wp_bind _ _ _ _ (λ ocs, Forall2 plain ocs (raw <$> RmsNorm.outputs out))).
  { apply wp_try, (wp_map _ _ _ (λ p c, plain c (raw p.2))).
    - intros [i o] Hio%elem_of_enumerate. eapply wp_bind; [apply index_spec|]. intros oc Hoc. cbn beta in Hoc. cbn [snd].
      apply output_bridge_complete. eapply (Forall2_lookup_lr _ _ _ _ _ _ Hos Hoc). by rewrite list_lookup_fmap, Hio.
    - intros ocs Hocs. apply Forall2_fmap_r, Forall2_flip, Forall2_zip_r with (seq 0 (length (RmsNorm.outputs out)));
        [by rewrite length_seq|exact Hocs]. }
  intros ocs Hocs. apply wp_ret. split; [done|]. exists r, r', (values a), (values b). split_and!; [done..|].
  exists (RmsNorm.config chip), chip, (RmsNorm.epsilon (RmsNorm.config chip)). by rewrite Heps.
Qed.

Lemma assign_instruction_complete instr :
  honest (assign_instruction config true instr input_regs weight_regs virtual_regs)
    (held_out (inputs instr) (honest_step config (instruction instr))).
Proof using All.
  unfold assign_instruction. destruct (instruction instr) as [m n k bd ta tb| | | |dim eps|op| | |]; try apply wp_err.
  - apply assign_dot_general_complete.
  - apply assign_rms_norm_complete.
  - destruct op; [..|apply wp_err]; apply assign_eltwise_complete.
Qed.
End Registers.

(** ** Programs *)

Lemma load_rms_norm_tables_complete (P : Call → Prop) :
  (∀ t i v, P (Table t i v)) → wp log P (load_rms_norm_tables config) (λ _, norms_loaded log config).
Proof using HashOrderLaws0.
  intros HP. unfold load_rms_norm_tables.
  apply (wp_iter _ _ _ (λ kc, ∀ chip, RmsNorm.construct kc.2 = Some chip →
    table_complete log (RmsNorm.rsqrt_chip chip) ∧ mul_table_loaded log (RmsNorm.mul kc.2))).
  - intros [key c] _. apply wp_nest, wp_unwrap. intros chip Hch. unfold RmsNorm.load_table.
    eapply wp_bind; [by apply fn_load_table_complete|]. intros [] Ht.
    eapply wp_conseq; [by apply load_mul_tables|]. intros [] Hm chip' Hch'. simpl in Hch'. simplify_eq. split; [done|].
    by apply bind_Some in Hch as (r & _ & [= <-]).
  - intros Hf key c chip Hc Hch. rewrite Forall_forall in Hf. apply (Hf (key, c)); [|done].
    rewrite hash_order_Permutation. by apply elem_of_map_to_list.
Qed.

Lemma assign_registers_complete tensors :
  Forall (Forall in_I18) tensors →
  honest (assign_registers config true tensors) (λ regs, Forall held regs ∧ values <$> regs = tensors).
Proof using Hag.
  intros Ht. unfold assign_registers. apply (wp_map _ _ _ (λ t reg, held reg ∧ values reg = t)).
  - intros t Hin. rewrite Forall_forall in Ht. apply Ht in Hin as Htyped. rewrite Forall_forall in Htyped.
    eapply (wp_bind _ _ _ _ (λ cs, Forall2 plain cs (raw <$> t))).
    { apply wp_try, wp_region. intros region. apply (wp_map _ _ _ (λ p c, plain c (raw p.2))).
      - intros [i v] Hv%elem_of_enumerate. cbn [known_or_unknown snd]. apply wp_advice; [done|]. intros Ha.
        eapply plain_assigned; [done|exact Ha|]. apply Htyped. by eapply list_elem_of_lookup_2.
      - intros cs' Hcs'. apply Forall2_fmap_r, Forall2_flip, Forall2_zip_r with (seq 0 (length t)); [by rewrite length_seq|exact Hcs']. }
    intros cs' Hcs'. by apply wp_ret.
  - intros regs Hregs. induction Hregs as [|t reg tensors' regs [Hw <-] _ IH]; [done|].
    apply Forall_cons_1 in Ht as [_ Ht]. destruct (IH Ht) as [IH1 IH2]. split; [by constructor|]. by rewrite fmap_cons, IH2.
Qed.

Lemma assign_instructions_complete instrs input_regs weight_regs virtual_regs :
  tables_loaded log config → norms_loaded log config → Forall held (input_regs ++ weight_regs ++ virtual_regs) →
  honest (assign_instructions config true instrs input_regs weight_regs virtual_regs) (λ final,
    Forall held final ∧
    runs (honest_step config) (values <$> input_regs) (values <$> weight_regs) instrs (values <$> virtual_regs) (values <$> final)).
Proof using All.
  intros Ht Hn. revert virtual_regs. induction instrs as [|instr instrs IH]; intros virtual_regs Hregs.
  - apply wp_ret. split; [|constructor]. by apply Forall_app in Hregs as [_ [_ Hv]%Forall_app].
  - cbn [assign_instructions]. eapply wp_bind; [by apply assign_instruction_complete|].
    intros out (Hout & r & r' & a & b & Er & Ea & Eb & Hstep).
    eapply wp_conseq; [apply IH|].
    + rewrite !app_assoc. apply Forall_app. split; [by rewrite <-app_assoc|]. by constructor.
    + intros final [Hf Hruns]. split; [done|]. rewrite fmap_app in Hruns.
      eapply runs_step; [|exact Hstep|exact Hruns]. unfold operands. by rewrite Er, Ea, Eb.
Qed.

Definition held_tensor (t : AssignedTensor) : Prop := Forall2 plain (tensor_cells t) (raw <$> tensor_values t).

Definition typed_program (program : AssemblerProgram) : Prop :=
  Forall (Forall in_I18) (input_values program) ∧ Forall (Forall in_I18) (weight_values program).

Lemma assign_program_complete program :
  norms_loaded log config → typed_program program →
  honest (assign_with_cells config program) (λ p,
    Forall held_tensor (assigned_inputs p ++ assigned_weights p ++ virtuals p) ∧
    tensor_values <$> assigned_inputs p = input_values program ∧ tensor_values <$> assigned_weights p = weight_values program ∧
    runs (honest_step config) (input_values program) (weight_values program) (instructions program) []
      (tensor_values <$> virtuals p)).
Proof using All.
  intros Hn [Hti Htw]. unfold assign_with_cells, assign_with_cells_with_witnesses.
  eapply wp_bind; [by apply wp_try, load_range_tables_complete|]. intros [] Ht.
  eapply wp_bind; [by apply assign_registers_complete|]. intros is' [Hi Ei].
  eapply wp_bind; [by apply assign_registers_complete|]. intros ws [Hw Ew].
  eapply wp_bind; [apply assign_instructions_complete; [done|done|]|].
  { rewrite app_nil_r. by apply Forall_app. }
  intros vs [Hv Hruns]. apply wp_ret. simpl. rewrite <-!list_fmap_compose.
  rewrite Ei, Ew in Hruns. split_and!; [|done..]. rewrite !Forall_app, !Forall_fmap. by split_and!.
Qed.
End Complete.

(** ** The assembler: programs that are assigned

    Whenever the reference semantics evaluates a program, with every partial sum
    of its dot products in [i128], the assembler assigns it and returns the same
    tensors: no step errs or panics. *)
Import Assembler.

Open Scope nat_scope.

(** Additions that succeed where they do not overflow. *)
Class TotalArithmetic (A : Arithmetic) : Prop :=
  total_add : ∀ x y, in_i128 (x + y) → i128_add x y = Some (x + y)%Z.
#[export] Instance debug_arithmetic_total : TotalArithmetic debug_arithmetic.
Proof. intros x y Hz. unfold i128_add, debug_arithmetic. by rewrite bool_decide_eq_true_2. Qed.
#[export] Instance release_arithmetic_total : TotalArithmetic release_arithmetic.
Proof.
  intros x y Hz. unfold i128_add, release_arithmetic. f_equal. unfold in_i128, i128_min, i128_max in Hz.
  rewrite Z.mod_small by lia. lia.
Qed.

Section Sums.
Context `{A : Arithmetic, !TotalArithmetic A}.

Lemma checked_sum_sum z terms s : checked_sum z terms = Some s → i128_sum z terms = Some s.
Proof using All.
  revert z. induction terms as [|t terms IH]; intros z; cbn [checked_sum i128_sum]; [done|].
  case_bool_decide as Hz; [|done]. intros E. rewrite total_add by done. by apply IH.
Qed.
Lemma checked_sum_accumulate z terms s :
  checked_sum z terms = Some s → ∃ sums, accumulate z terms = Some sums ∧ default z (last sums) = s.
Proof using All.
  revert z. induction terms as [|t terms IH]; intros z; cbn [checked_sum accumulate]; [intros [= ->]; by exists []|].
  case_bool_decide as Hz; [|done]. intros (sums & E & Hl)%IH. rewrite total_add by done. cbn [mbind option_bind].
  rewrite E. cbn [mbind option_bind]. eexists. split; [done|]. rewrite last_cons. by destruct (last sums).
Qed.
End Sums.

Section Rows.
Context `{L : Layouter, !Roomy L} (known : bool).

Lemma lookup_64_returns config v raw_value :
  LookupRangeCheck.n_bits config = 64 → returns (LookupRangeCheck.assign config v raw_value) (λ _, True).
Proof using Roomy0. intros E. apply lookup_assign_returns; [exact _|]. rewrite E. vm_compute. lia. Qed.
Lemma range_returns config v raw_value bits :
  RangeCheck.n_bits config = bits → 0 < bits → returns (RangeCheck.assign config v raw_value) (λ _, True).
Proof using Roomy0. intros E Hb. apply range_assign_returns; [exact _|]. by rewrite E. Qed.

Lemma link_ranges_returns cs mul a b ca cb :
  mul_installed cs mul → returns (link_mul_operand_ranges_with_witness_mode mul a b ca cb known) (λ _, True).
Proof using All.
  intros Hi. unfold link_mul_operand_ranges_with_witness_mode, shifted_i64_witness.
  eapply returns_bind; [apply lookup_64_returns, Hi|]. intros ? _.
  eapply returns_bind; [apply lookup_64_returns, Hi|]. intros ? _.
  by repeat returns_step.
Qed.

Lemma mul_row_returns cs mul a b q r :
  mul_installed cs mul → requantize_mul a b = Ok (q, r) →
  returns (assign_mul_row_with_witnesses mul a b known) (λ _, True).
Proof using All.
  intros Hi Hq. unfold assign_mul_row_with_witnesses, assign_mul_operand_shifts_with_witness_mode, shifted_i64_witness.
  eapply returns_bind; [by apply (returns_expect _ (q, r) (λ p, p = (q, r)))|]. intros _ ->. repeat returns_step.
  eapply returns_bind; [by eapply link_ranges_returns|]. intros ? _.
  do 3 (eapply returns_bind; [eapply range_returns; [apply Hi|unfold REMAINDER_BITS; lia]|intros ? _]).
  by repeat returns_step.
Qed.
End Rows.

(** A loop that succeeds where the specification does. *)
Lemma returns_mapM `{L : Layouter} {E B V W} (f : B → Lay E W) (g : B → option V) (Q : V → W → Prop) l vs :
  (∀ x v, x ∈ l → g x = Some v → returns (f x) (Q v)) → mapM g l = Some vs → returns (lay_map f l) (Forall2 Q vs).
Proof.
  revert vs. induction l as [|x l IH]; intros vs Hf; [intros [= <-]; by apply returns_ret|].
  cbn [mapM lay_map]. intros (v & Hv & (vs' & Hvs & [= <-])%bind_Some)%bind_Some.
  eapply returns_bind; [apply (Hf x v); [by left|done]|]. intros w Hw.
  eapply returns_bind; [apply (IH vs'); [|done]; intros x' v' Hx'; apply Hf; by right|]. intros ws Hws.
  apply returns_ret. by constructor.
Qed.

Section Program.
Context `{A : Arithmetic, !TotalArithmetic A, O : HashOrder, L : Layouter, !Roomy L}.
Context (cs : ConstraintSystem) (config : AssemblerConfig) (Hinst : assembler_installed cs config) (known : bool).

Lemma dot_row_returns d a b s q r :
  DotProduct.installed cs d → 0 < DotProduct.k d → length a = DotProduct.k d → length b = DotProduct.k d →
  checked_total (DotProduct.products (raw <$> a) (raw <$> b)) = Some s → requantize_raw s = Ok (q, r) →
  returns (assign_dot_row d a b known)
    (λ '(ac, bc, _), length ac = DotProduct.k d ∧ length bc = DotProduct.k d).
Proof using TotalArithmetic0 Roomy0.
  intros Hi Hk Ea Eb Hs Hq. unfold assign_dot_row, shifted_i64_witness.
  rewrite <-Ea at 1. rewrite Ea, Eb, Nat.eqb_refl. cbn [negb].
  unfold DotProduct.products in Hs. rewrite zip_with_fmap_l, zip_with_fmap_r in Hs.
  apply checked_sum_accumulate in Hs as (sums & Hsums & Hlast).
  pose proof (length_accumulate _ _ _ Hsums) as Hl. rewrite length_zip_with, Ea, Eb, Nat.min_id in Hl.
  eapply returns_bind; [by apply (returns_unwrap _ sums (λ l, l = sums))|]. intros _ ->.
  rewrite Hlast. eapply returns_bind; [by apply (returns_expect _ (q, r) (λ p, p = (q, r)))|]. intros _ ->.
  eapply (returns_bind _ _ (λ '(rows, _, _, _), length rows = DotProduct.k d)).
  { apply returns_region. intros region. eapply returns_bind; [apply (returns_map _ (λ _ _, True))|].
    { intros [i [[x y] p]] _. repeat returns_step. destruct (i =? 0); by repeat returns_step. }
    intros rows Hrows%Forall2_length. rewrite length_enumerate, !length_zip, Ea, Eb, Hl, !Nat.min_id in Hrows.
    destruct (Nat.eqb_spec (DotProduct.k d) 0); [lia|]. by repeat returns_step. }
  intros [[[rows qc] rc] sc] Hrows.
  eapply returns_bind; [apply (returns_map _ (λ _ _, True))|].
  { intros [[x y] [ca cb]] _. cbn beta iota. do 2 (eapply returns_bind; [apply lookup_64_returns, Hi|intros ? _]). by apply returns_ret. }
  intros links _.
  do 3 (eapply returns_bind; [eapply range_returns; [apply Hi|unfold REMAINDER_BITS; lia]|intros ? _]).
  eapply (returns_bind _ _ (λ _, True)).
  { do 4 returns_step. apply returns_iter. intros [l r'] _. apply returns_equal. }
  intros _ _. apply returns_ret. by rewrite !length_fmap.
Qed.

(** ** Elements *)

Lemma bridge_returns r : returns (assign_bridge config known r) (λ _, True).
Proof using Roomy0. unfold assign_bridge, shifted_i64_witness. by repeat returns_step. Qed.
Lemma output_bridge_returns r c : returns (output_bridge config known r c) (λ _, True).
Proof using Roomy0.
  unfold output_bridge. eapply returns_bind; [apply bridge_returns|]. intros [u s] _. by repeat returns_step.
Qed.
Lemma operand_bridge_returns r c : returns (operand_bridge config known r c) (λ _, True).
Proof using Roomy0.
  unfold operand_bridge. eapply returns_bind; [apply bridge_returns|]. intros [u s] _. by repeat returns_step.
Qed.

Lemma index_returns {E B} (l : list B) i x : l !! i = Some x → returns (index (E := E) l i) (λ y, y = x).
Proof using Type. intros E1. by apply (returns_unwrap _ x (λ y, y = x)). Qed.

Lemma gather_returns {E} (v : list I18) idx k xs :
  mapM (λ l, tensor_at v (idx l)) (seq 0 k) = Some xs →
  returns (lay_map (λ l, index (E := E) v (idx l)) (seq 0 k)) (λ ys, ys = xs).
Proof using Type.
  intros Hm. eapply returns_conseq; [eapply (returns_mapM _ _ (λ x y, y = x)); [|exact Hm]|].
  - intros l x _ [Hx _]%tensor_at_Some. by apply index_returns.
  - intros ys Hys. clear Hm. by induction Hys as [|x y xs' ys -> _ ->].
Qed.

Lemma cells_in reg i x : well_formed reg → tensor_at (values reg) i = Some x → is_Some (cells reg !! i).
Proof using Type. intros Hw [Hx%lookup_lt_Some _]%tensor_at_Some. apply lookup_lt_is_Some. by rewrite Hw. Qed.
Lemma gathered_in reg idx k xs l :
  well_formed reg → mapM (λ l, tensor_at (values reg) (idx l)) (seq 0 k) = Some xs → l ∈ seq 0 k → is_Some (cells reg !! idx l).
Proof using Type.
  intros Hw Hm%mapM_Some [i Hi]%list_elem_of_lookup. destruct (Forall2_lookup_l _ _ _ _ _ Hm Hi) as (x & _ & Hx).
  by eapply cells_in.
Qed.

Lemma dot_element_returns m n k ta tb d a_reg b_reg i j v :
  dot config !! k = Some d → well_formed a_reg → well_formed b_reg →
  dot_at checked_total m n k ta tb (values a_reg) (values b_reg) (i, j) = Some v →
  returns (assign_dot_element config known m n k ta tb d a_reg b_reg i j) (λ '(v', _), v' = v).
Proof using All.
  intros Hd Ha Hb Hv. destruct (as_dot _ _ Hinst _ _ Hd) as (Hdi & Ek & Hk). unfold assign_dot_element.
  apply bind_Some in Hv as (av & Hav & (bv & Hbv & (s & Hs & Hv)%bind_Some)%bind_Some). cbn [fst snd] in *.
  destruct (requantize_raw s) as [[q r]|] eqn:Hq; [|done]. injection Hv as <-.
  eapply returns_bind; [by apply gather_returns|]. intros _ ->.
  eapply returns_bind; [by apply (gather_returns _ (λ l, phys_b n k tb l j))|]. intros _ ->.
  pose proof Hs as Hs'. unfold DotProduct.products in Hs'. rewrite zip_with_fmap_l, zip_with_fmap_r in Hs'.
  apply checked_sum_sum in Hs'. eapply returns_bind; [by apply (returns_unwrap _ s (λ s', s' = s))|]. intros _ ->.
  eapply returns_bind; [apply (returns_lift _ (q, r) (λ p, p = (q, r))); [by rewrite Hq|done]|]. intros _ ->.
  pose proof (length_mapM _ _ _ Hav) as Hla. pose proof (length_mapM _ _ _ Hbv) as Hlb. rewrite length_seq in Hla, Hlb.
  eapply returns_bind; [eapply returns_try, dot_row_returns; [done|by rewrite Ek|by rewrite Ek|by rewrite Ek|done..]|].
  intros [[ac bc] qc] [Hac Hbc]. rewrite Ek in Hac, Hbc.
  eapply (returns_bind _ _ (λ _, True)).
  { apply returns_try, returns_region. intros _. apply returns_iter. intros l Hl.
    destruct (gathered_in a_reg _ _ _ l Ha Hav Hl) as [ra Hra], (gathered_in b_reg (λ l, phys_b n k tb l j) _ _ l Hb Hbv Hl) as [rb Hrb].
    apply elem_of_seq in Hl.
    destruct (lookup_lt_is_Some_2 ac l) as [ca Hca]; [lia|]. destruct (lookup_lt_is_Some_2 bc l) as [cb Hcb]; [lia|].
    do 2 (eapply returns_bind; [by apply index_returns|intros _ ->]). returns_step.
    do 2 (eapply returns_bind; [by apply index_returns|intros _ ->]). apply returns_equal. }
  intros _ _. eapply returns_bind; [apply returns_try, output_bridge_returns|]. intros out _. by apply returns_ret.
Qed.

Lemma add_element_returns a b ca cb v :
  add_numbers a b = Some v → returns (assign_add_element config known a b ca cb) (λ '(v', _), v' = v).
Proof using All.
  unfold add_numbers. intros (c & Hc & ->)%fmap_Some. unfold assign_add_element.
  eapply returns_bind; [apply (returns_lift _ c (λ c', c' = c)); [by rewrite Hc|done]|]. intros _ ->.
  eapply returns_bind; [apply returns_try, operand_bridge_returns|]. intros sa _.
  eapply returns_bind; [apply returns_try, operand_bridge_returns|]. intros sb _.
  eapply returns_bind; [apply returns_try; eapply add_row_returns; [apply Hinst|exact _|by apply try_i64_Some in Hc as [-> ?]]|].
  intros [[ra rb] rc] _. eapply (returns_bind _ _ (λ _, True)); [apply returns_try; by repeat returns_step|].
  intros _ _. eapply returns_bind; [apply returns_try, output_bridge_returns|]. intros out _. by apply returns_ret.
Qed.

Lemma mul_element_returns a b ca cb v :
  mul_numbers a b = Some v → returns (assign_mul_element config known a b ca cb) (λ '(v', _), v' = v).
Proof using All.
  unfold mul_numbers. destruct (requantize_mul a b) as [[q r]|] eqn:Hq; [|done]. intros [= <-]. unfold assign_mul_element.
  eapply returns_bind; [apply (returns_lift _ (q, r) (λ p, p = (q, r))); [by rewrite Hq|done]|]. intros _ ->.
  eapply returns_bind; [apply returns_try; by eapply mul_row_returns; [apply Hinst|]|].
  intros [[ra rb] rc] _. eapply (returns_bind _ _ (λ _, True)); [apply returns_try; by repeat returns_step|].
  intros _ _. eapply returns_bind; [apply returns_try, output_bridge_returns|]. intros out _. by apply returns_ret.
Qed.

(** ** Instructions *)

(** A loop over elements makes the register that the specification makes. *)
Lemma elements_return {E B} (f : B → Lay E (I18 * Cell)) (g : B → option I18) idxs vs :
  (∀ x v, x ∈ idxs → g x = Some v → returns (f x) (λ '(v', _), v' = v)) → mapM g idxs = Some vs →
  returns (let$ out := lay_map f idxs in lay_ret (mkRegisterCells out.*1 out.*2)) (λ reg, well_formed reg ∧ values reg = vs).
Proof using Type.
  intros Hf Hm. eapply returns_bind; [by eapply (returns_mapM _ _ (λ v p, p.1 = v)); [|exact Hm]; intros x v Hx Hv;
    eapply returns_conseq; [by apply (Hf x v)|by intros []]|].
  intros outs Houts. apply returns_ret. unfold well_formed. simpl. rewrite !length_fmap. split; [done|].
  clear Hm Hf. by induction Houts as [|v [v' c] vs outs E0 _ IH]; [|rewrite fmap_cons, IH; simpl in *; rewrite E0].
Qed.

Section Registers.
Context (input_regs weight_regs virtual_regs : list RegisterCells).
Context (Hregs : Forall well_formed (input_regs ++ weight_regs ++ virtual_regs)).

Notation register_of := (register (values <$> input_regs) (values <$> weight_regs) (values <$> virtual_regs)).

Lemma resolve_returns E ref a :
  register_of ref = Some a →
  returns (lay_lift (resolve (E := E) ref input_regs weight_regs virtual_regs)) (λ reg, well_formed reg ∧ values reg = a).
Proof using Hregs.
  intros Ha. apply Forall_app in Hregs as [Hi [Hw Hv]%Forall_app]. rewrite !Forall_lookup in Hi, Hw, Hv.
  destruct ref as [i|i|i]; simpl in Ha; rewrite list_lookup_fmap in Ha; apply fmap_Some in Ha as (reg & Hreg & ->);
    (eapply (returns_lift _ reg); [cbn [resolve]; by rewrite Hreg|split; [|done]]; eauto).
Qed.

Definition holds_tensor (out : list I18) (reg : RegisterCells) : Prop := well_formed reg ∧ values reg = out.

Lemma dot_general_returns r r' a b m n k ta tb out :
  is_Some (dot config !! k) → register_of r = Some a → register_of r' = Some b →
  dot_general checked_total m n k ta tb a b = Some out →
  returns (assign_dot_general config known [r; r'] input_regs weight_regs virtual_regs m n k [] ta tb) (holds_tensor out).
Proof using All.
  intros [d Hd] Ha Hb Hout. unfold dot_general in Hout. destruct (_ =? m * k) eqn:Ela; [|done].
  destruct (_ =? k * n) eqn:Elb; [|done]. simpl in Hout.
  unfold assign_dot_general. rewrite bool_decide_eq_true_2 by done. cbn [negb].
  eapply returns_bind; [by apply resolve_returns|]. intros a_reg [Hwa <-].
  eapply returns_bind; [by apply resolve_returns|]. intros b_reg [Hwb <-]. rewrite Ela, Elb. cbn [negb orb].
  eapply returns_bind; [by apply (returns_lift _ d (λ d', d' = d)); [rewrite Hd|]|]. intros _ ->.
  eapply elements_return; [|exact Hout]. intros [i j] v _ Hv. by apply dot_element_returns.
Qed.

Lemma eltwise_returns r r' a b op out :
  register_of r = Some a → register_of r' = Some b → eltwise (number_op op) a b = Some out →
  returns (assign_eltwise config known [r; r'] input_regs weight_regs virtual_regs op) (holds_tensor out).
Proof using All.
  intros Ha Hb. unfold eltwise. set (n := length a `max` length b).
  destruct (Nat.ltb_spec 0 (length a)) as [Hla|]; [|done]. destruct (Nat.ltb_spec 0 (length b)) as [Hlb|]; [|done]. cbn [andb].
  destruct (n mod length a =? 0) eqn:Era; [|done]. destruct (n mod length b =? 0) eqn:Erb; [|done]. cbn [andb]. intros Hout.
  unfold assign_eltwise.
  eapply returns_bind; [by apply resolve_returns|]. intros a_reg [Hwa Eva].
  eapply returns_bind; [by apply resolve_returns|]. intros b_reg [Hwb Evb]. rewrite Eva, Evb. fold n. cbv zeta.
  destruct (Nat.eqb_spec n 0); [lia|]. unfold usize_mod.
  destruct (Nat.eqb_spec (length a) 0); [lia|]. destruct (Nat.eqb_spec (length b) 0); [lia|].
  eapply returns_bind; [by apply (returns_unwrap _ (n mod length a) (λ x, x = n mod length a))|]. intros _ ->. rewrite Era. cbn [negb].
  eapply returns_bind; [by apply (returns_unwrap _ (n mod length b) (λ x, x = n mod length b))|]. intros _ ->. rewrite Erb. cbn [negb].
  eapply elements_return; [|exact Hout]. intros idx v _ (x & Hx & (y & Hy & Hv)%bind_Some)%bind_Some.
  rewrite <-Eva in Hx. rewrite <-Evb in Hy.
  destruct (cells_in _ _ _ Hwa Hx) as [ca Hca], (cells_in _ _ _ Hwb Hy) as [cb Hcb].
  apply tensor_at_Some in Hx as [Hx _], Hy as [Hy _]. rewrite Eva in Hx, Hca. rewrite Evb in Hy, Hcb.
  do 4 (eapply returns_bind; [by apply index_returns|intros _ ->]).
  destruct op; [by apply add_element_returns|by apply mul_element_returns|done].
Qed.

Lemma instruction_returns instr a b out :
  covers config [instr] → operands (values <$> input_regs) (values <$> weight_regs) (values <$> virtual_regs) instr = Some (a, b) →
  eval_instruction checked_total (instruction instr) a b = Some out →
  returns (assign_instruction config known instr input_regs weight_regs virtual_regs) (holds_tensor out).
Proof using All.
  intros [Hc _]%Forall_cons_1. unfold operands. destruct (inputs instr) as [|r [|r' [|]]] eqn:Er; try done.
  intros (a0 & Ha & (b0 & Hb & [= -> ->])%bind_Some)%bind_Some. unfold assign_instruction. rewrite Er.
  revert Hc. destruct (instruction instr) as [m n k [|] ta tb| | | | |[]| | |]; try done; cbn [eval_instruction]; intros Hc Hout.
  - by eapply dot_general_returns.
  - by eapply eltwise_returns.
  - by eapply eltwise_returns.
Qed.
End Registers.

(** ** Programs *)

Lemma lookup_tables_return cfg : returns (LookupRangeCheck.load_table cfg) (λ _, True).
Proof using Roomy0. apply returns_iter. intros i _. apply returns_cell. Qed.

Lemma load_range_tables_return : returns (load_range_tables config) (λ _, True).
Proof using Roomy0.
  unfold load_range_tables. eapply returns_bind; [apply returns_iter|].
  - intros [k d] _. unfold DotProduct.load_range_table. eapply returns_bind; [apply lookup_tables_return|]. intros _ _.
    apply lookup_tables_return.
  - intros _ _. unfold load_mul_operand_range_table. eapply returns_bind; [apply lookup_tables_return|]. intros _ _.
    apply lookup_tables_return.
Qed.

Lemma registers_return tensors :
  returns (assign_registers config known tensors) (λ regs, Forall well_formed regs ∧ values <$> regs = tensors).
Proof using Roomy0.
  unfold assign_registers. eapply returns_conseq; [apply (returns_map _ (λ t reg, well_formed reg ∧ values reg = t))|].
  - intros t _. eapply (returns_bind _ _ (λ cs', length cs' = length t)).
    { apply returns_try, returns_region. intros region.
      eapply returns_conseq; [apply (returns_map _ (λ _ _, True)); intros [i v] _; by repeat returns_step|].
      intros cs' Hl%Forall2_length. by rewrite length_enumerate in Hl. }
    intros cs' Hl. by apply returns_ret.
  - intros regs Hregs. induction Hregs as [|t reg ts regs [Hw <-] _ [IH1 IH2]]; [done|]. split; [by constructor|].
    by rewrite fmap_cons, IH2.
Qed.

Lemma instructions_return instrs input_regs weight_regs virtual_regs final :
  covers config instrs → Forall well_formed (input_regs ++ weight_regs ++ virtual_regs) →
  eval_program checked_total (values <$> input_regs) (values <$> weight_regs) instrs (values <$> virtual_regs) = Some final →
  returns (assign_instructions config known instrs input_regs weight_regs virtual_regs) (λ regs, values <$> regs = final).
Proof using All.
  intros Hc. revert virtual_regs. induction Hc as [|instr instrs Hi Hc IH]; intros virtual_regs Hregs; cbn [eval_program assign_instructions].
  - intros [= <-]. by apply returns_ret.
  - intros ([a b] & Hab & (out & Hout & Hf)%bind_Some)%bind_Some. eapply returns_bind.
    { eapply instruction_returns; [done|by constructor|exact Hab|exact Hout]. }
    intros reg [Hw Hv]. apply IH.
    + rewrite !app_assoc. apply Forall_app. split; [by rewrite <-app_assoc|]. by constructor.
    + by rewrite fmap_app, list_fmap_singleton, Hv.
Qed.

Lemma assign_program_returns program final :
  covers config (instructions program) →
  eval_program checked_total (input_values program) (weight_values program) (instructions program) [] = Some final →
  returns (assign_with_cells_with_witnesses config known program) (λ p,
    tensor_values <$> assigned_inputs p = input_values program ∧
    tensor_values <$> assigned_weights p = weight_values program ∧ tensor_values <$> virtuals p = final).
Proof using All.
  intros Hc He. unfold assign_with_cells_with_witnesses.
  eapply returns_bind; [apply returns_try, load_range_tables_return|]. intros _ _.
  eapply returns_bind; [apply registers_return|]. intros is' [Hi Ei].
  eapply returns_bind; [apply registers_return|]. intros ws [Hw Ew].
  eapply returns_bind; [apply instructions_return; [done| |by rewrite Ei, Ew]|].
  { rewrite app_nil_r. by apply Forall_app. }
  intros vs Hv. apply returns_ret. simpl. rewrite <-!list_fmap_compose. by rewrite <-Ei, <-Ew, <-Hv.
Qed.
End Program.
