(* ===== verification/ProgramCircuit.v ===== *)
(** * Program circuits

    zkie-core/src/program_circuit.rs: the circuit of a compiled program, its
    public layout, and the canonical bytes of its shape.  Either every input,
    weight and selected output is public, or the boundary tensors are public
    through their commitments and the weights are constants.

    [HashMap] is [gmap]; a [usize] sum of lengths is exact. *)
From Stdlib Require Import SpecFloat.
From S2P Require Import Prelude Ordering Bytes Field FixedPoint Program Circuit Norm Assembler PoseidonBoundary.

Open Scope nat_scope.

(** [f64::to_bits]; the payload of a NaN is the canonical one. *)
Definition f64_to_bits (x : f64) : Z :=
  let sign (s : bool) : Z := (if s then 2 ^ 63 else 0)%Z in
  match x with
  | S754_zero s => sign s
  | S754_infinity s => sign s + 2047 * 2 ^ 52
  | S754_nan => 4095 * 2 ^ 51
  | S754_finite s m e =>
      if Z.pos m <? 2 ^ 52 then sign s + Z.pos m else sign s + (e + 1075) * 2 ^ 52 + (Z.pos m - 2 ^ 52)
  end%Z.

(** [ErrorFront::Synthesis]. *)
Class Synthesis (L : Layouter) := synthesis : ErrorFront.

#[local] Existing Instance PoseidonBoundary.BoundaryRole_eq_dec.

Module ProgramCircuit.
Import Assembler.

(** ** Parameters *)

Record AssemblerCircuitParams := mkAssemblerCircuitParams {
  params_instructions : list AssemblerInstruction;
  rms_norm_domains : gmap (nat * Z) Rsqrt.RsqrtDomain;
  input_shapes : list nat;
  weight_shapes : list nat;
  public_output_indices : list nat;
  boundary_inputs : list PoseidonBoundary.BoundaryDescriptor;
  boundary_outputs : list (nat * PoseidonBoundary.BoundaryDescriptor);
  leaf_prefix_len : nat;
  fixed_public_weights : list (list Z)
}.

(** [AssemblerCircuitParams::default]. *)
Definition default_params : AssemblerCircuitParams := mkAssemblerCircuitParams [] ∅ [] [] [] [] [] 0 [].

Definition from_program (program : AssemblerProgram) (domains : gmap (nat * Z) Rsqrt.RsqrtDomain) (outputs : list nat)
    : AssemblerCircuitParams :=
  mkAssemblerCircuitParams (instructions program) domains (length <$> input_values program) (length <$> weight_values program)
    outputs [] [] 0 [].

(** ** The bytes of a shape *)

Definition encode_usize (value : nat) : bytes := encode_u64 (Z.of_nat value).
Definition encode_usizes (values : list nat) : bytes := encode_usize (length values) ++ mjoin (encode_usize <$> values).
Definition encode_string (value : string) : bytes := encode_usize (String.length value) ++ as_bytes value.

Definition encode_boundary_descriptor (d : PoseidonBoundary.BoundaryDescriptor) : bytes :=
  encode_u32 PoseidonBoundary.BOUNDARY_COMMITMENT_SCHEMA_VERSION ++
  [byte_of_Z (match PoseidonBoundary.role d with PoseidonBoundary.Input => 1 | PoseidonBoundary.Output => 2 end)] ++
  encode_string (PoseidonBoundary.register_id d) ++
  encode_usize (length (PoseidonBoundary.edge_ids d)) ++ mjoin (encode_string <$> PoseidonBoundary.edge_ids d) ++
  encode_usize (length (PoseidonBoundary.graph_output_names d)) ++
  mjoin (encode_string <$> PoseidonBoundary.graph_output_names d) ++
  encode_usize (PoseidonBoundary.element_count d) ++
  encode_u64 (PoseidonBoundary.quantization_scale d).

Definition encode_register (r : RegisterRef) : bytes :=
  match r with
  | Input index => [byte_of_Z 0] ++ encode_usize index
  | Weight index => [byte_of_Z 1] ++ encode_usize index
  | Virtual index => [byte_of_Z 2] ++ encode_usize index
  end.

Definition encode_bool (b : bool) : bytes := [byte_of_Z (if b then 1 else 0)].

Definition encode_operation (instr : Instruction) : bytes :=
  match instr with
  | DotGeneral m n k batch_dims trans_a trans_b =>
      [byte_of_Z 0] ++ encode_usizes [m; n; k] ++ encode_usizes batch_dims ++ encode_bool trans_a ++ encode_bool trans_b
  | Softmax axis_dim => [byte_of_Z 1] ++ encode_usize axis_dim
  | Gelu => [byte_of_Z 2]
  | LayerNorm dim epsilon_milli => [byte_of_Z 3] ++ encode_usize dim ++ encode_u64 epsilon_milli
  | Program.RmsNorm dim epsilon_milli => [byte_of_Z 4] ++ encode_usize dim ++ encode_u64 epsilon_milli
  | Eltwise op => [byte_of_Z 5; byte_of_Z (match op with Add => 0 | Mul => 1 | Relu => 2 end)]
  | Reduce op axis => [byte_of_Z 6; byte_of_Z (match op with Sum => 0 | Mean => 1 end)] ++ encode_usize axis
  | EmbedLookup table_size embed_dim => [byte_of_Z 7] ++ encode_usizes [table_size; embed_dim]
  | PatchEmbed patch_len embed_dim => [byte_of_Z 8] ++ encode_usizes [patch_len; embed_dim]
  end.

Definition encode_instruction (instr : AssemblerInstruction) : bytes :=
  encode_usize (length (inputs instr)) ++ mjoin (encode_register <$> inputs instr) ++ encode_operation (instruction instr).

Definition encode_domain (entry : (nat * Z) * Rsqrt.RsqrtDomain) : bytes :=
  let '((dim, epsilon), domain) := entry in
  encode_usize dim ++ encode_u64 epsilon ++
  match domain with
  | Rsqrt.Range min max n => [byte_of_Z 0] ++ encode_u64 (f64_to_bits min) ++ encode_u64 (f64_to_bits max) ++ encode_usize n
  | Rsqrt.RawAnchors anchors => [byte_of_Z 1] ++ encode_usize (length anchors) ++ mjoin (encode_i64 <$> anchors)
  end.

Definition encode_tensor (tensor : list Z) : bytes := encode_usize (length tensor) ++ mjoin (encode_i64 <$> tensor).

Definition is_nil {A} (l : list A) : bool := match l with [] => true | _ => false end.

Definition sorted_domains (params : AssemblerCircuitParams) : list ((nat * Z) * Rsqrt.RsqrtDomain) :=
  sort_by (λ x y, key_compare x.1 y.1) (map_to_list (rms_norm_domains params)).

Definition canonical_shape_bytes (params : AssemblerCircuitParams) : bytes :=
  PoseidonBoundary.zero_terminated "zkie.assembler-circuit-shape.v3" ++
  PoseidonBoundary.zero_terminated
    (if is_nil (boundary_inputs params) && is_nil (boundary_outputs params)
     then "public-instances-v1:inputs,weights,selected-outputs"
     else "public-instances-v2:leaf,input-commitments,output-commitments,weights") ++
  encode_usizes (input_shapes params) ++
  encode_usizes (weight_shapes params) ++
  encode_usizes (public_output_indices params) ++
  encode_usize (leaf_prefix_len params) ++
  encode_usize (length (boundary_inputs params)) ++
  mjoin (encode_boundary_descriptor <$> boundary_inputs params) ++
  encode_usize (length (boundary_outputs params)) ++
  mjoin ((λ '(index, descriptor), encode_usize index ++ encode_boundary_descriptor descriptor) <$> boundary_outputs params) ++
  encode_usize (length (fixed_public_weights params)) ++
  mjoin (encode_tensor <$> fixed_public_weights params) ++
  encode_usize (length (params_instructions params)) ++
  mjoin (encode_instruction <$> params_instructions params) ++
  encode_usize (length (sorted_domains params)) ++
  mjoin (encode_domain <$> sorted_domains params).

Definition shape_digest `{Blake3} (params : AssemblerCircuitParams) : bytes := blake3 (canonical_shape_bytes params).

(** ** Circuits *)

Record AssemblerCircuit := mkAssemblerCircuit {
  params : AssemblerCircuitParams;
  program : AssemblerProgram;
  has_known_witnesses : bool;
  leaf_prefix : list Fr
}.

(** [windows(2).any(|pair| pair[0] >= pair[1])]. *)
Definition unsorted (l : list nat) : bool := existsb (λ '(x, y), y <=? x) (zip l (tail l)).

Definition new_with_public_outputs (program : AssemblerProgram) (domains : gmap (nat * Z) Rsqrt.RsqrtDomain)
    (outputs : list nat) : Result AssemblerCircuit string :=
  if unsorted outputs || existsb (λ index, length (instructions program) <=? index) outputs
  then Err "public output indices must be strictly sorted, unique, and in range" else
  let params := from_program program domains outputs in
  Ok (mkAssemblerCircuit params program true []).

(** [None] is the failed [expect]. *)
Definition new (program : AssemblerProgram) (domains : gmap (nat * Z) Rsqrt.RsqrtDomain) : option AssemblerCircuit :=
  let outputs := match length (instructions program) with 0 => [] | S last => [last] end in
  match new_with_public_outputs program domains outputs with Ok circuit => Some circuit | Err _ => None end.

Definition empty : option AssemblerCircuit := new (mkAssemblerProgram [] [] []) ∅.

(** [usize::checked_add]. *)
Definition checked_add_usize (x y : Z) : option Z := try_u64 (x + y).

Definition poseidon_work `{Blake3} (descriptors : list PoseidonBoundary.BoundaryDescriptor) : option Z :=
  foldl (λ sum descriptor,
    sum ← sum;
    sum ← checked_add_usize sum (Z.of_nat (length (PoseidonBoundary.canonical_fields descriptor)));
    sum ← checked_add_usize sum (Z.of_nat (PoseidonBoundary.element_count descriptor));
    checked_add_usize sum 2) (Some 0%Z) descriptors.

Definition new_with_boundary_commitments `{Blake3} (program : AssemblerProgram)
    (domains : gmap (nat * Z) Rsqrt.RsqrtDomain) (boundary_inputs : list PoseidonBoundary.BoundaryDescriptor)
    (boundary_outputs : list (nat * PoseidonBoundary.BoundaryDescriptor)) (leaf_prefix : list Fr)
    : Result AssemblerCircuit string :=
  let work := poseidon_work (boundary_inputs ++ boundary_outputs.*2) in
  if negb (length boundary_inputs =? length (input_values program))
     || existsb (λ '(descriptor, values),
          negb (bool_decide (PoseidonBoundary.role descriptor = PoseidonBoundary.Input))
          || negb (PoseidonBoundary.element_count descriptor =? length values)
          || negb (is_ok (PoseidonBoundary.validate descriptor))) (zip boundary_inputs (input_values program))
     || unsorted boundary_outputs.*1
     || existsb (λ '(index, descriptor),
          (length (instructions program) <=? index)
          || negb (bool_decide (PoseidonBoundary.role descriptor = PoseidonBoundary.Output))
          || negb (is_ok (PoseidonBoundary.validate descriptor))) boundary_outputs
     || negb (length leaf_prefix =? 17)
     || match work with Some work => (12000 <? work)%Z | None => true end
  then Err "invalid boundary commitment public layout" else
  let params := from_program program domains [] in
  let params := mkAssemblerCircuitParams (params_instructions params) (rms_norm_domains params) (input_shapes params)
    (weight_shapes params) (public_output_indices params) boundary_inputs boundary_outputs (length leaf_prefix)
    ((λ tensor : list I18, raw <$> tensor) <$> weight_values program) in
  Ok (mkAssemblerCircuit params program true leaf_prefix).

Definition without_witnesses (self : AssemblerCircuit) : AssemblerCircuit :=
  mkAssemblerCircuit (params self) (program self) false (leaf_prefix self).

(** ** The circuit *)

Record AssemblerCircuitConfig := mkAssemblerCircuitConfig {
  assembler : AssemblerConfig;
  poseidon : PoseidonBoundary.PoseidonBoundaryConfig
}.

Definition configure_with_params `{PoseidonParameters} (params : AssemblerCircuitParams) : Meta AssemblerCircuitConfig :=
  let& assembler :=
    configure_with_rms_norm_domains_and_public_instances (params_instructions params) (rms_norm_domains params) in
  let& poseidon := PoseidonBoundary.configure in
  meta_ret (mkAssemblerCircuitConfig assembler poseidon).

Definition configure `{PoseidonParameters} : Meta AssemblerCircuitConfig := configure_with_params default_params.

(** A loop that carries a state. *)
Fixpoint lay_fold {E A S} (f : S → A → Lay E S) (s : S) (l : list A) : Lay E S :=
  match l with
  | [] => lay_ret s
  | x :: l => let$ s := f s x in lay_fold f s l
  end.

(** The cells of a register with the values they were assigned. *)
Definition assigned_cells (witnesses_known : bool) (t : AssignedTensor) : list PoseidonBoundary.AssignedCell :=
  zip_with (λ cell v, PoseidonBoundary.mkAssignedCell cell (known_or_unknown witnesses_known (i64_to_fr (raw v))))
    (tensor_cells t) (tensor_values t).

Section Synthesize.
Context `{Arithmetic, HashOrder, Blake3, PoseidonParameters, L : Layouter, !Synthesis L}.

Section Public.
Context (public_instance : Column).

(** [constrain_instance(cell, public_instance, offset)?; offset += 1]. *)
Definition expose (offset : nat) (cell : Cell) : Lay ErrorFront nat :=
  let$ _ := constrain_instance cell public_instance offset in lay_ret (offset + 1).

Definition expose_constants (config : PoseidonBoundary.PoseidonBoundaryConfig) : nat → list Fr → Lay ErrorFront nat :=
  lay_fold (λ offset field,
    let$ cell := PoseidonBoundary.assign_constant config field in expose offset (PoseidonBoundary.cell cell)).

Definition synthesize_boundary (self : AssemblerCircuit) (poseidon : PoseidonBoundary.PoseidonBoundaryConfig)
    (assigned : AssignedProgram) : Lay ErrorFront unit :=
  let commit := PoseidonBoundary.commit_assigned poseidon synthesis in
  let$ offset := lay_fold (λ offset value,
    let$ cell := PoseidonBoundary.assign_public_value poseidon value in
    expose offset (PoseidonBoundary.cell cell)) 0 (leaf_prefix self) in
  let$ offset := lay_fold (λ offset '(index, descriptor),
    let$ offset := expose_constants poseidon offset (PoseidonBoundary.public_binding_fields descriptor) in
    let$ tensor := lay_lift (ok_or (assigned_inputs assigned !! index) synthesis) in
    let$ commitment := commit descriptor (assigned_cells (has_known_witnesses self) tensor) in
    expose offset (PoseidonBoundary.cell commitment)) offset (enumerate (boundary_inputs (params self))) in
  let$ output_count := PoseidonBoundary.assign_constant poseidon (fr (Z.of_nat (length (boundary_outputs (params self))))) in
  let$ offset := expose offset (PoseidonBoundary.cell output_count) in
  let$ offset := lay_fold (λ offset '(index, descriptor),
    let$ offset := expose_constants poseidon offset (PoseidonBoundary.public_binding_fields descriptor) in
    let$ tensor := lay_lift (ok_or (virtuals assigned !! index) synthesis) in
    if negb (length (tensor_cells tensor) =? PoseidonBoundary.element_count descriptor) then lay_err synthesis else
    let$ commitment := commit descriptor (assigned_cells (has_known_witnesses self) tensor) in
    expose offset (PoseidonBoundary.cell commitment)) offset (boundary_outputs (params self)) in
  let weight_count := sum_list (length <$> weight_values (program self)) in
  let$ count_cell := PoseidonBoundary.assign_constant poseidon (fr (Z.of_nat weight_count)) in
  let$ offset := expose offset (PoseidonBoundary.cell count_cell) in
  let$ _ := lay_fold (λ offset '(tensor, expected),
    lay_fold (λ offset '(cell, expected),
      let$ _ := PoseidonBoundary.constrain_equal_to_constant poseidon cell (i64_to_fr expected) in
      expose offset (PoseidonBoundary.cell cell)) offset (zip (assigned_cells (has_known_witnesses self) tensor) expected))
    offset (zip (assigned_weights assigned) (fixed_public_weights (params self))) in
  lay_ret tt.

Definition synthesize_public (self : AssemblerCircuit) (assigned : AssignedProgram) : Lay ErrorFront unit :=
  let$ offset := lay_fold (λ offset tensor, lay_fold expose offset (tensor_cells tensor)) 0
    (assigned_inputs assigned ++ assigned_weights assigned) in
  let$ _ := lay_fold (λ offset index,
    let$ tensor := lay_lift (ok_or (virtuals assigned !! index) synthesis) in
    lay_fold expose offset (tensor_cells tensor)) offset (public_output_indices (params self)) in
  lay_ret tt.
End Public.

Definition synthesize (self : AssemblerCircuit) (config : AssemblerCircuitConfig) : Lay ErrorFront unit :=
  let$ public_instance := lay_unwrap (public_instance (assembler config)) in
  let$ _ := load_rms_norm_tables (assembler config) in
  let$ assigned := lay_map_err (λ _, synthesis)
    (assign_with_cells_with_witnesses (assembler config) (has_known_witnesses self) (program self)) in
  if negb (is_nil (boundary_inputs (params self))) || negb (is_nil (boundary_outputs (params self)))
  then synthesize_boundary public_instance self (poseidon config) assigned
  else synthesize_public public_instance self assigned.
End Synthesize.

End ProgramCircuit.
