(* ===== verification/ProgramCircuitProofs.v ===== *)
(** * Program circuits: proofs

    In a satisfied program circuit the public cells spell out a run of the
    program: the verifier's values are the inputs, the weights and the selected
    outputs of one run, or, behind boundary commitments, the binding fields and
    the commitments of the tensors of one run on the fixed weights. *)
From S2P Require Import Prelude Primality Field FixedPoint Circuit CircuitLogic RangeCheck Eltwise EltwiseProofs Reduce.
From S2P Require Import DotProduct Lookup Norm NormProofs Honest Ordering Bytes Program PoseidonBoundary PoseidonProofs.
From S2P Require Import Assembler Evaluate AssemblerProofs ProgramCircuit.
Import Assembler ProgramCircuit.

Open Scope nat_scope.

(** ** Configuring *)

Record circuit_installed `{PoseidonParameters} (cs : ConstraintSystem) (params : AssemblerCircuitParams)
    (config : AssemblerCircuitConfig) : Prop := {
  ci_assembler : assembler_installed cs (assembler config);
  ci_covers : covers (assembler config) (params_instructions params);
  ci_public : is_Some (public_instance (assembler config));
  ci_poseidon : poseidon_installed cs (poseidon config);
  ci_rms key : is_Some (rms_norm (assembler config) !! key) → key ∈ rms_norm_keys (params_instructions params)
}.

Lemma configure_with_params_ok `{PoseidonParameters} final params :
  map_Forall (λ _ d, domain_typed d) (rms_norm_domains params) →
  mwp final (configure_with_params params) (circuit_installed final params).
Proof.
  intros Hd. unfold configure_with_params, configure_with_rms_norm_domains_and_public_instances.
  eapply mwp_bind; [by apply configure_internal_ok|]. intros a. eapply mwp_bind; [apply poseidon_configure_ok|]. intros p.
  apply mwp_ret. intros Hp (Ha & Hc & Hi & Hr). by split; [..|apply Hi| |].
Qed.

(** ** What is public *)

Section Fold.
Context `{L : Layouter} (log : list Call).

Lemma wp_fold {E A S} Q (f : S → A → Lay E S) (I : list A → S → Prop) l s (R : S → Prop) :
  I [] s → (∀ done x s, x ∈ l → I done s → wp log Q (f s x) (I (done ++ [x]))) → (∀ s, I l s → R s) →
  wp log Q (lay_fold f s l) R.
Proof.
  intros H0 Hf HR. cut (∀ rest done s, l = done ++ rest → I done s → wp log Q (lay_fold f s rest) R); [intros Hc; by apply (Hc l [])|].
  intros rest. induction rest as [|x rest IH]; intros done s' El Hs; cbn [lay_fold].
  - rewrite app_nil_r in El. subst. by apply wp_ret, HR.
  - eapply wp_bind; [apply Hf; [rewrite El; set_solver|exact Hs]|]. intros s'' Hs''.
    apply (IH (done ++ [x])); [by rewrite <-app_assoc|done].
Qed.
End Fold.

Section Public.
Context `{L : Layouter} (planner : nat → Z) (grid : Column → Z → Fr) (cs : ConstraintSystem) (log : list Call).
Context (Hok : log_ok planner grid cs log) (instance : Column).

Notation sound := (wp log (λ _, True)).
Notation val := (cell_value planner grid).

(** The verifier's values from a row on. *)
Definition published (offset : nat) (vs : list Fr) : Prop :=
  ∀ i v, vs !! i = Some v → grid instance (Z.of_nat (offset + i)) = v.

Lemma published_app offset vs ws : published offset vs → published (offset + length vs) ws → published offset (vs ++ ws).
Proof using Type.
  intros Hv Hw i x [Hi|[Hl Hi]]%lookup_app_Some; [by apply Hv|].
  rewrite <-(Hw _ _ Hi). f_equal. lia.
Qed.

(** A step that publishes values of which [Q] holds. *)
Definition publishes {A} (Q : A → list Fr → Prop) (f : nat → A → Lay ErrorFront nat) : Prop :=
  ∀ offset x, sound (f offset x) (λ out, ∃ vs, Q x vs ∧ out = offset + length vs ∧ published offset vs).

Lemma expose_sound : publishes (λ c vs, vs = [val c]) (expose instance).
Proof using Hok.
  intros offset c. unfold expose. eapply (wp_bind _ _ _ _ (λ _, Public c instance offset ∈ log)); [by apply wp_emit|].
  intros [] Hc%Hok. apply wp_ret. exists [val c]. split_and!; [done|done|].
  intros [|i] v; [|done]. intros [= <-]. rewrite Nat.add_0_r. symmetry. exact Hc.
Qed.

Lemma fold_publishes {A} (Q : A → list Fr → Prop) f :
  publishes Q f → publishes (λ l vs, ∃ vss, Forall2 Q l vss ∧ vs = concat vss) (lay_fold f).
Proof using Type.
  intros Hf offset l. eapply (wp_fold _ _ _ (λ done out, ∃ vss, Forall2 Q done vss ∧ out = offset + length (concat vss) ∧ published offset (concat vss))).
  - exists []. split_and!; [constructor|simpl; lia|by intros i v].
  - intros done x s _ (vss & HQ & -> & Hp). eapply wp_conseq; [apply Hf|]. intros out (vs & Hx & -> & Hp').
    exists (vss ++ [vs]). rewrite concat_app, length_app. simpl. rewrite app_nil_r.
    split_and!; [by apply Forall2_app; [|constructor]|lia|by apply published_app].
  - intros s (vss & HQ & -> & Hp). exists (concat vss). eauto.
Qed.

Lemma expose_cells_sound : publishes (λ cells vs, vs = val <$> cells) (lay_fold (expose instance)).
Proof using Hok.
  intros offset cells. eapply wp_conseq; [apply (fold_publishes _ _ expose_sound)|].
  intros out (vs & (vss & Hvss & ->) & Hout & Hp). exists (concat vss). split_and!; [|done..].
  clear Hout Hp. induction Hvss as [|c vs cells vss -> _ IH]; [done|]. simpl. by rewrite IH.
Qed.

Lemma publishes_conseq {A} (Q Q' : A → list Fr → Prop) f : publishes Q f → (∀ x vs, Q x vs → Q' x vs) → publishes Q' f.
Proof using Type. intros Hf HQ offset x. eapply wp_conseq; [apply Hf|]. intros out (vs & ? & ?). eauto. Qed.
End Public.

(** ** Register shapes *)

Section Shapes.
Context `{A : Arithmetic, O : HashOrder, L : Layouter} (log : list Call) (config : AssemblerConfig) (known : bool).

Definition shaped (t : AssignedTensor) (v : list I18) : Prop := tensor_values t = v ∧ length (tensor_cells t) = length v.

Lemma registers_shaped regs tensors :
  Forall well_formed regs → values <$> regs = tensors → Forall2 shaped (into_tensor <$> regs) tensors.
Proof using Type.
  intros Hw <-. induction Hw as [|reg regs Hr _ IH]; [constructor|]. rewrite !fmap_cons. constructor; [by split|done].
Qed.

Lemma assign_program_shaped program :
  wp log (λ _, True) (assign_with_cells_with_witnesses config known program) (λ p,
    Forall2 shaped (assigned_inputs p) (input_values program) ∧ Forall2 shaped (assigned_weights p) (weight_values program)).
Proof using Type.
  unfold assign_with_cells_with_witnesses.
  eapply wp_bind; [apply wp_true|]. intros _ _.
  eapply wp_bind; [apply assign_registers_sound|]. intros is' [Hi Ei].
  eapply wp_bind; [apply assign_registers_sound|]. intros ws [Hw Ew].
  eapply wp_bind; [apply wp_true|]. intros vs _. apply wp_ret. split; by apply registers_shaped.
Qed.
End Shapes.

(** ** Everything public *)

Section Synthesize.
Context `{A : Arithmetic, O : HashOrder, B : Blake3, P : PoseidonParameters, L : Layouter, !Synthesis L}.
Context (planner : nat → Z) (grid : Column → Z → Fr) (cs : ConstraintSystem) (log : list Call).
Context (Hok : log_ok planner grid cs log).

Notation sound := (wp log (λ _, True)).
Notation val := (cell_value planner grid).
Notation tensor := (tensor_in planner grid).

Lemma synthesize_public_sound instance self assigned :
  sound (synthesize_public instance self assigned) (λ _, ∃ outs,
    Forall2 (λ index t, virtuals assigned !! index = Some t) (public_output_indices (params self)) outs ∧
    published grid instance 0 (val <$> concat (tensor_cells <$> (assigned_inputs assigned ++ assigned_weights assigned ++ outs)))).
Proof using Hok.
  unfold synthesize_public.
  eapply wp_bind; [apply (fold_publishes grid log instance (λ t vs, vs = val <$> tensor_cells t))|].
  { intros offset t. by apply (expose_cells_sound planner grid cs). }
  intros offset (vs & (vss & Hvss & ->) & -> & Hp).
  eapply wp_bind; [apply (fold_publishes grid log instance (λ i vs, ∃ t, virtuals assigned !! i = Some t ∧ vs = val <$> tensor_cells t))|].
  { intros offset i. apply wp_nest, wp_lift. intros t Ht%ok_or_Ok.
    eapply wp_conseq; [by apply (expose_cells_sound planner grid cs)|]. intros out (vs & -> & ? & ?). by eexists; split_and!; [exists t|..]. }
  intros offset (ws & (wss & Hwss & ->) & _ & Hp'). apply wp_ret.
  assert (∃ outs, Forall2 (λ index t, virtuals assigned !! index = Some t) (public_output_indices (params self)) outs ∧
    wss = (λ t, val <$> tensor_cells t) <$> outs) as (outs & Houts & ->).
  { clear Hp'. induction Hwss as [|i ws is' wss (t & Ht & ->) _ (outs & IH & ->)]; [by exists []|]. exists (t :: outs). split; [by constructor|done]. }
  assert (vss = (λ t, val <$> tensor_cells t) <$> (assigned_inputs assigned ++ assigned_weights assigned)) as ->.
  { clear Hp Hp'. induction Hvss as [|t vs ts vss -> _ IH]; [done|]. by rewrite fmap_cons, IH. }
  exists outs. split; [done|]. rewrite app_assoc, fmap_app, concat_app, fmap_app.
  assert (∀ ts, concat ((λ t, val <$> tensor_cells t) <$> ts) = val <$> concat (tensor_cells <$> ts)) as Hc.
  { intros ts. induction ts as [|t ts IH]; [done|]. rewrite !fmap_cons. simpl. by rewrite fmap_app, IH. }
  rewrite <-!Hc. by apply published_app.
Qed.

(** The number of a cell stands for its value. *)
Lemma cell_number_fr c : val c = fr (raw (cell_number planner grid c)).
Proof using Type. unfold cell_number, fr. simpl. symmetry. apply Zmod.of_Z_signed. Qed.

Lemma tensors_fr ts :
  val <$> concat (tensor_cells <$> ts) = (λ x, fr (raw x)) <$> concat (tensors_of planner grid ts).
Proof using Type.
  induction ts as [|t ts IH]; [done|]. unfold tensors_of in *. rewrite !fmap_cons. simpl. rewrite !fmap_app, IH. f_equal.
  unfold tensor_in. rewrite <-list_fmap_compose. apply list_fmap_ext. intros i c _. apply cell_number_fr.
Qed.

(** ** Behind commitments *)

Section Boundary.
Context (instance : Column) (poseidon : PoseidonBoundary.PoseidonBoundaryConfig) (Hp : poseidon_installed cs poseidon).

Notation publishes := (publishes grid log instance).
Notation cells_of known t := (assigned_cells known t).

Lemma publishes_one {X} (f : X → Lay ErrorFront PoseidonBoundary.AssignedCell) (Q : X → Fr → Prop) :
  (∀ x, sound (f x) (λ c, Q x (val (PoseidonBoundary.cell c)))) →
  publishes (λ x vs, ∃ v, Q x v ∧ vs = [v]) (λ offset x, let$ c := f x in expose instance offset (PoseidonBoundary.cell c)).
Proof using Hok.
  intros Hf offset x. eapply wp_bind; [apply Hf|]. intros c Hc. eapply wp_conseq; [by apply (expose_sound planner grid cs)|].
  intros out (vs & -> & ? & ?). eexists; split_and!; [by exists (val (PoseidonBoundary.cell c))|done..].
Qed.

Lemma expose_constants_sound : publishes (λ fields vs, vs = fields) (expose_constants instance poseidon).
Proof using Hok.
  intros offset fields. unfold expose_constants.
  eapply wp_conseq; [apply (fold_publishes grid log instance (λ field vs, ∃ v, v = field ∧ vs = [v]))|].
  { apply publishes_one. intros field. by apply (assign_constant_sound planner grid cs). }
  intros out (vs & (vss & Hvss & ->) & Hout & Hpub). exists (concat vss). split_and!; [|done..].
  clear Hout Hpub. induction Hvss as [|field vs fields vss (v & -> & ->) _ IH]; [done|]. simpl. by rewrite IH.
Qed.

(** The binding fields and the commitment of a tensor. *)
Definition tensor_public (d : PoseidonBoundary.BoundaryDescriptor) (vs : list Fr) : list Fr :=
  PoseidonBoundary.public_binding_fields d ++ [commitment compress d vs].

Lemma publish_tensor known (d : PoseidonBoundary.BoundaryDescriptor) (get : Lay ErrorFront AssignedTensor) (Q : AssignedTensor → Prop) offset :
  sound get Q →
  sound (let$ offset := expose_constants instance poseidon offset (PoseidonBoundary.public_binding_fields d) in
    let$ tensor := get in
    let$ commitment := PoseidonBoundary.commit_assigned poseidon synthesis d (cells_of known tensor) in
    expose instance offset (PoseidonBoundary.cell commitment))
   (λ out, ∃ vs, (∃ t, Q t ∧ length (cells_of known t) = PoseidonBoundary.element_count d ∧
      vs = tensor_public d ((λ c, val (PoseidonBoundary.cell c)) <$> cells_of known t)) ∧
      out = offset + length vs ∧ published grid instance offset vs).
Proof using Hok Hp.
  intros Hget. eapply wp_bind; [apply expose_constants_sound|]. intros o (fs & -> & -> & Hf).
  eapply wp_bind; [exact Hget|]. intros t Ht.
  eapply wp_bind; [by apply (commit_assigned_sound planner grid cs)|]. intros c (_ & Hl & Hc).
  eapply wp_conseq; [by apply (expose_sound planner grid cs)|]. intros out (vs & -> & -> & Hv).
  exists (PoseidonBoundary.public_binding_fields d ++ [val (PoseidonBoundary.cell c)]). split_and!.
  - exists t. split_and!; [done..|]. unfold tensor_public. by rewrite Hc.
  - rewrite length_app. simpl. lia.
  - by apply published_app.
Qed.

(** A fixed weight: the cell holds it, and so does the verifier. *)
Lemma publish_weights known (t : AssignedTensor) expected offset :
  length (cells_of known t) = length expected →
  sound (lay_fold (λ offset '(cell, expected),
      let$ _ := PoseidonBoundary.constrain_equal_to_constant poseidon cell (i64_to_fr expected) in
      expose instance offset (PoseidonBoundary.cell cell)) offset (zip (cells_of known t) expected))
   (λ out, (λ c, val (PoseidonBoundary.cell c)) <$> cells_of known t = i64_to_fr <$> expected ∧
     out = offset + length expected ∧ published grid instance offset (i64_to_fr <$> expected)).
Proof using Hok.
  intros Hl. eapply wp_conseq; [apply (fold_publishes grid log instance (λ ce vs,
    val (PoseidonBoundary.cell ce.1) = i64_to_fr ce.2 ∧ vs = [i64_to_fr ce.2]))|].
  { intros o [c e]. eapply wp_bind; [by apply (constrain_equal_to_constant_sound planner grid cs)|]. intros [] Hc.
    eapply wp_conseq; [by apply (expose_sound planner grid cs)|]. intros out (vs & -> & ? & ?). cbn [fst snd].
    eexists. split_and!; [done|by rewrite <-Hc|done..]. }
  intros out (vs & (vss & Hvss & ->) & -> & Hpub).
  assert ((λ c, val (PoseidonBoundary.cell c)) <$> cells_of known t = i64_to_fr <$> expected ∧ concat vss = i64_to_fr <$> expected) as [E1 E2].
  { clear Hpub. revert expected Hl vss Hvss. generalize (cells_of known t) as cells. intros cells.
    induction cells as [|c cells IH]; intros [|e expected] Hl vss Hvss; try done; inversion Hvss as [|? ? ? ? [Hc Ev] Hrest]; subst; [done|].
    destruct (IH expected ltac:(by injection Hl) _ Hrest) as [IH1 IH2]. rewrite !fmap_cons, IH1. simpl. rewrite IH2.
    cbn [fst snd] in Hc. by rewrite Hc. }
  rewrite E2 in Hpub |- *. rewrite length_fmap. by split_and!.
Qed.

Lemma cells_of_all known t :
  length (cells_of known t) = length (tensor_cells t) → (λ c, val (PoseidonBoundary.cell c)) <$> cells_of known t = val <$> tensor_cells t.
Proof using Type.
  unfold assigned_cells. generalize (tensor_values t) as vs. induction (tensor_cells t) as [|c cells IH]; intros [|v vs]; try done.
  cbn [zip_with length]. intros [= Hl]. rewrite !fmap_cons, IH by done. done.
Qed.
Lemma shaped_cells known t v : shaped t v → length (cells_of known t) = length (tensor_cells t).
Proof using Type. intros [<- Hl]. unfold assigned_cells. rewrite length_zip_with, Hl. lia. Qed.

(** The tensors behind descriptors, and what they make public. *)
Definition behind (tensors : list AssignedTensor) (entry : nat * PoseidonBoundary.BoundaryDescriptor) (t : AssignedTensor) : Prop :=
  tensors !! entry.1 = Some t ∧ length (tensor_cells t) = PoseidonBoundary.element_count entry.2.
Definition tensors_public (entries : list (nat * PoseidonBoundary.BoundaryDescriptor)) (ts : list AssignedTensor) : list Fr :=
  concat (zip_with (λ entry t, tensor_public entry.2 (val <$> tensor_cells t)) entries ts).

Lemma publish_tensors tensors f :
  publishes (λ entry vs, ∃ t, behind tensors entry t ∧ vs = tensor_public entry.2 (val <$> tensor_cells t)) f →
  publishes (λ entries vs, ∃ ts, Forall2 (behind tensors) entries ts ∧ vs = tensors_public entries ts) (lay_fold f).
Proof using Type.
  intros Hf. eapply publishes_conseq; [apply (fold_publishes _ _ _ _ _ Hf)|]. intros entries vs (vss & Hvss & ->).
  induction Hvss as [|entry vs entries vss (t & Ht & ->) _ (ts & IH & E)]; [by exists []|].
  exists (t :: ts). split; [by constructor|]. unfold tensors_public in *. simpl. by rewrite E.
Qed.

Definition boundary_public (self : AssemblerCircuit) (leaf : list Fr) (ins outs : list AssignedTensor) : list Fr :=
  leaf ++ tensors_public (enumerate (boundary_inputs (params self))) ins ++
  [fr (Z.of_nat (length (boundary_outputs (params self))))] ++ tensors_public (boundary_outputs (params self)) outs ++
  [fr (Z.of_nat (sum_list (length <$> weight_values (program self))))] ++
  (i64_to_fr <$> concat (fixed_public_weights (params self))).

Lemma publish_input known tensors values :
  Forall2 shaped tensors values →
  publishes (λ entry vs, ∃ t, behind tensors entry t ∧ vs = tensor_public entry.2 (val <$> tensor_cells t))
    (λ offset '(index, descriptor),
      let$ offset := expose_constants instance poseidon offset (PoseidonBoundary.public_binding_fields descriptor) in
      let$ tensor := lay_lift (ok_or (tensors !! index) synthesis) in
      let$ commitment := PoseidonBoundary.commit_assigned poseidon synthesis descriptor (cells_of known tensor) in
      expose instance offset (PoseidonBoundary.cell commitment)).
Proof using Hok Hp.
  intros Hs offset [index d]. eapply wp_conseq; [apply (publish_tensor known d _ (λ t, tensors !! index = Some t))|].
  { apply wp_lift. by intros t Ht%ok_or_Ok. }
  intros out (vs & (t & Ht & Hl & ->) & -> & Hpub). destruct (Forall2_lookup_l _ _ _ _ _ Hs Ht) as (v & _ & Hv).
  pose proof (shaped_cells known _ _ Hv) as Hc. rewrite (cells_of_all known t Hc) in *. rewrite Hc in Hl.
  eexists. split_and!; [by exists t|done..].
Qed.

Lemma publish_output known tensors :
  publishes (λ entry vs, ∃ t, behind tensors entry t ∧ vs = tensor_public entry.2 (val <$> tensor_cells t))
    (λ offset '(index, descriptor),
      let$ offset := expose_constants instance poseidon offset (PoseidonBoundary.public_binding_fields descriptor) in
      let$ tensor := lay_lift (ok_or (tensors !! index) synthesis) in
      if negb (length (tensor_cells tensor) =? PoseidonBoundary.element_count descriptor) then lay_err synthesis else
      let$ commitment := PoseidonBoundary.commit_assigned poseidon synthesis descriptor (cells_of known tensor) in
      expose instance offset (PoseidonBoundary.cell commitment)).
Proof using Hok Hp.
  intros offset [index d]. eapply wp_bind; [apply expose_constants_sound|]. intros o (fs & -> & -> & Hf).
  apply wp_nest, wp_lift. intros t Ht%ok_or_Ok. apply wp_if; [intros _; apply wp_err|]. intros Hl%negb_false_iff%Nat.eqb_eq.
  eapply wp_bind; [by apply (commit_assigned_sound planner grid cs)|]. intros c (_ & Hlc & Hc).
  eapply wp_conseq; [by apply (expose_sound planner grid cs)|]. intros out (vs & -> & -> & Hv).
  rewrite cells_of_all in Hc by (by rewrite Hlc, Hl).
  exists (PoseidonBoundary.public_binding_fields d ++ [val (PoseidonBoundary.cell c)]). split_and!.
  - exists t. split; [done|]. cbn [snd]. unfold tensor_public. by rewrite Hc.
  - rewrite length_app. simpl. lia.
  - by apply published_app.
Qed.

Lemma publish_all_weights known tensors values fixed offset :
  Forall2 shaped tensors values → fixed = ((λ v : list I18, raw <$> v) <$> values) →
  sound (lay_fold (λ offset '(tensor, expected),
    lay_fold (λ offset '(cell, expected),
      let$ _ := PoseidonBoundary.constrain_equal_to_constant poseidon cell (i64_to_fr expected) in
      expose instance offset (PoseidonBoundary.cell cell)) offset (zip (cells_of known tensor) expected)) offset (zip tensors fixed))
   (λ _, Forall2 (λ t v, val <$> tensor_cells t = i64_to_fr <$> v) tensors fixed ∧ published grid instance offset (i64_to_fr <$> concat fixed)).
Proof using Hok.
  intros Hs ->. revert offset. induction Hs as [|t v tensors values Hv Hs IH]; intros offset.
  - apply wp_ret. split; [constructor|by intros i x].
  - rewrite fmap_cons. cbn [zip zip_with lay_fold]. pose proof (shaped_cells known _ _ Hv) as Hc. pose proof Hv as [_ Hl].
    eapply wp_bind; [apply publish_weights; by rewrite length_fmap, Hc|]. intros out (Hw & -> & Hpub).
    eapply wp_conseq; [apply IH|]. intros _ [Hws Hpubs]. rewrite (cells_of_all known t Hc) in Hw. split; [by constructor|].
    simpl. rewrite fmap_app. apply published_app; [done|]. by rewrite length_fmap.
Qed.

Lemma synthesize_boundary_sound self assigned :
  Forall2 shaped (assigned_inputs assigned) (input_values (program self)) →
  Forall2 shaped (assigned_weights assigned) (weight_values (program self)) →
  fixed_public_weights (params self) = ((λ v : list I18, raw <$> v) <$> weight_values (program self)) →
  sound (synthesize_boundary instance self poseidon assigned) (λ _, ∃ leaf ins outs,
    length leaf = length (leaf_prefix self) ∧
    Forall2 (behind (assigned_inputs assigned)) (enumerate (boundary_inputs (params self))) ins ∧
    Forall2 (behind (virtuals assigned)) (boundary_outputs (params self)) outs ∧
    Forall2 (λ t v, val <$> tensor_cells t = i64_to_fr <$> v) (assigned_weights assigned) (fixed_public_weights (params self)) ∧
    published grid instance 0 (boundary_public self leaf ins outs)).
Proof using Hok Hp.
  intros Hi Hw Hfixed. unfold synthesize_boundary. cbv zeta.
  eapply wp_bind; [apply (fold_publishes grid log instance (λ _ vs, ∃ v, True ∧ vs = [v]))|].
  { apply (publishes_one _ (λ _ _, True)). intros v. apply wp_true. }
  intros o (leaf & (vss & Hleaf & ->) & -> & P1).
  eapply wp_bind; [by apply (publish_tensors _ _ (publish_input _ _ _ Hi))|]. intros o (is' & (ins & Hins & ->) & -> & P2).
  eapply wp_bind; [by apply (assign_constant_sound planner grid cs)|]. intros oc Hoc. cbn beta in Hoc.
  eapply wp_bind; [by apply (expose_sound planner grid cs)|]. intros o (vs & -> & -> & P3). rewrite Hoc in P3.
  eapply wp_bind; [by apply (publish_tensors _ _ (publish_output _ _))|]. intros o (os & (outs & Houts & ->) & -> & P4).
  eapply wp_bind; [by apply (assign_constant_sound planner grid cs)|]. intros wc Hwc. cbn beta in Hwc.
  eapply wp_bind; [by apply (expose_sound planner grid cs)|]. intros o (vs & -> & -> & P5). rewrite Hwc in P5.
  eapply wp_bind; [by apply (publish_all_weights _ _ _ _ _ Hw Hfixed)|]. intros o [Hws P6]. apply wp_ret.
  exists (concat vss), ins, outs. split_and!; [|done..|].
  - clear P1 P2 P3 P4 P5 P6. induction Hleaf as [|x vs l vss (v & _ & ->) _ IH]; [done|]. simpl. by rewrite IH.
  - unfold boundary_public. by repeat (apply published_app; [done|]).
Qed.
End Boundary.
End Synthesize.

(** ** The whole circuit *)

Section Circuit.
Context `{A : Arithmetic, O : HashOrder, B : Blake3, P : PoseidonParameters, L : Layouter, !Synthesis L}.
Context (planner : nat → Z) (grid : Column → Z → Fr) (cs : ConstraintSystem) (log : list Call).
Context (self : AssemblerCircuit) (config : AssemblerCircuitConfig).
Context (Hinst : circuit_installed cs (params self) config) (Htables : tables_sound log (assembler config)).
Context (Hok : log_ok planner grid cs log) (Husize : Forall usize_instruction (instructions (program self))).

Notation sound := (wp log (λ _, True)).
Notation val := (cell_value planner grid).
Notation tensor := (tensor_in planner grid).
Notation tensors := (tensors_of planner grid).

(** The assigned program holds a run, in registers of the program's shape. *)
Definition holds_run (assigned : AssignedProgram) : Prop :=
  Forall2 shaped (assigned_inputs assigned) (input_values (program self)) ∧
  Forall2 shaped (assigned_weights assigned) (weight_values (program self)) ∧
  runs (instruction_step (assembler config)) (tensors (assigned_inputs assigned)) (tensors (assigned_weights assigned))
    (instructions (program self)) [] (tensors (virtuals assigned)).

Definition everything_public (instance : Column) (assigned : AssignedProgram) : Prop :=
  ∃ outs, Forall2 (λ index t, virtuals assigned !! index = Some t) (public_output_indices (params self)) outs ∧
    published grid instance 0 ((λ x, fr (raw x)) <$>
      concat (tensors (assigned_inputs assigned ++ assigned_weights assigned ++ outs))).

Definition behind_commitments (instance : Column) (assigned : AssignedProgram) : Prop :=
  ∃ leaf ins outs, length leaf = length (leaf_prefix self) ∧
    Forall2 (behind (assigned_inputs assigned)) (enumerate (boundary_inputs (params self))) ins ∧
    Forall2 (behind (virtuals assigned)) (boundary_outputs (params self)) outs ∧
    Forall2 (λ t v, val <$> tensor_cells t = i64_to_fr <$> v) (assigned_weights assigned) (fixed_public_weights (params self)) ∧
    published grid instance 0 (boundary_public planner grid self leaf ins outs).

Definition public_mode : bool := is_nil (boundary_inputs (params self)) && is_nil (boundary_outputs (params self)).

Lemma synthesize_sound :
  (public_mode = false → fixed_public_weights (params self) = ((λ v : list I18, raw <$> v) <$> weight_values (program self))) →
  sound (synthesize self config) (λ _, ∃ instance assigned,
    public_instance (assembler config) = Some instance ∧ holds_run assigned ∧
    if public_mode then everything_public instance assigned else behind_commitments instance assigned).
Proof using Hinst Htables Hok Husize.
  intros Hfixed. unfold synthesize, public_mode in *. rewrite <-negb_andb. apply wp_nest, wp_unwrap. intros instance Hinstance.
  eapply wp_bind; [apply wp_true|]. intros _ _.
  eapply wp_bind; [apply wp_map_err, wp_also; [by apply (assign_program_sound planner grid cs); [apply Hinst|..]|apply assign_program_shaped]|].
  intros assigned (Hruns & Hi & Hw). destruct (_ && _) eqn:Hmode; cbn [negb].
  - eapply wp_conseq; [by apply (synthesize_public_sound planner grid cs)|]. intros [] (outs & Houts & Hp).
    exists instance, assigned. split_and!; [done|by split_and!|]. exists outs. split; [done|].
    by rewrite <-tensors_fr.
  - eapply wp_conseq; [apply (synthesize_boundary_sound planner grid cs); [done|apply Hinst|done|done|by apply Hfixed]|].
    intros [] (leaf & ins & outs & ? & ? & ? & ? & ?). exists instance, assigned. split_and!; [done|by split_and!|].
    by exists leaf, ins, outs.
Qed.
End Circuit.

(** ** Reading public values *)

(** A tensor as the verifier writes it. *)
Definition encoded (tensors : list (list I18)) : list Fr := (λ x, fr (raw x)) <$> concat tensors.

Lemma concat_shape_inj {X} (xss yss : list (list X)) :
  Forall2 (λ xs ys, length xs = length ys) xss yss → concat xss = concat yss → xss = yss.
Proof. induction 1 as [|xs ys xss yss Hl _ IH]; simpl; [done|]. intros [-> E%IH]%app_inj_1; [by subst|done]. Qed.

Lemma shapes_join {X} (xss yss zss : list (list X)) :
  Forall2 (λ x z, length x = length z) xss zss → Forall2 (λ y z, length y = length z) yss zss →
  Forall2 (λ x y, length x = length y) xss yss.
Proof.
  intros Hx. revert yss. induction Hx as [|x z xss zss E _ IH]; intros yss Hy; inversion Hy as [|y ? yss' ? Ey Hys]; subst;
    constructor; [congruence|by apply IH].
Qed.

Section Read.
Context (planner : nat → Z) (grid : Column → Z → Fr) (instance : Column).

(** Numbers that cells hold, published twice, are the numbers the verifier wrote. *)
Lemma published_numbers offset (xs ys : list I18) :
  Forall in_I18 xs → Forall (λ y, ∃ v : Fr, y = I18_ (Zmod.signed v)) ys → length xs = length ys →
  published grid instance offset ((λ x, fr (raw x)) <$> xs) → published grid instance offset ((λ x, fr (raw x)) <$> ys) → xs = ys.
Proof.
  intros Hx Hy Hl Px Py. apply list_eq. intros i. destruct (xs !! i) as [x|] eqn:Ex.
  - destruct (lookup_lt_is_Some_2 ys i) as [y Ey]; [rewrite <-Hl; by eapply lookup_lt_Some|]. rewrite Ey.
    pose proof (Px i (fr (raw x))) as Hpx. pose proof (Py i (fr (raw y))) as Hpy. rewrite list_lookup_fmap in Hpx, Hpy.
    rewrite Ex in Hpx. rewrite Ey in Hpy. specialize (Hpx eq_refl). specialize (Hpy eq_refl). rewrite Hpx in Hpy.
    rewrite Forall_lookup in Hx, Hy. destruct (Hy _ _ Ey) as [v ->]. unfold raw, I18_raw at 2 in Hpy. unfold fr in Hpy at 2.
    rewrite Zmod.of_Z_signed in Hpy. subst v. rewrite signed_fr by (by apply (Hx i)). by destruct x.
  - apply lookup_ge_None_1 in Ex. rewrite Hl in Ex. by rewrite lookup_ge_None_2.
Qed.

Lemma tensors_numbers ts : Forall (λ y, ∃ v : Fr, y = I18_ (Zmod.signed v)) (concat (tensors_of planner grid ts)).
Proof.
  induction ts as [|t ts IH]; [constructor|]. unfold tensors_of in *. rewrite fmap_cons. apply Forall_app. split; [|done].
  apply Forall_fmap, Forall_forall. intros c _. unfold cell_number. by eexists.
Qed.

Lemma shaped_tensors ts vs : Forall2 shaped ts vs → Forall2 (λ t v, length t = length v) (tensors_of planner grid ts) vs.
Proof.
  unfold tensors_of. induction 1 as [|t v ts vs [_ Hl] _ IH]; [constructor|]. rewrite fmap_cons. constructor; [|done].
  by rewrite length_tensor.
Qed.

(** Tensors of known shapes, published as the verifier wrote them. *)
Lemma published_tensors offset ts vs rest :
  Forall (Forall in_I18) vs → Forall2 (λ t v, length t = length v) (tensors_of planner grid ts) vs →
  published grid instance offset (encoded vs) →
  published grid instance offset ((λ x, fr (raw x)) <$> concat (tensors_of planner grid ts) ++ rest) →
  tensors_of planner grid ts = vs ∧ published grid instance (offset + length (concat vs)) ((λ x, fr (raw x)) <$> rest).
Proof.
  intros Ht Hs Pv Pt. assert (length (concat (tensors_of planner grid ts)) = length (concat vs)) as Hl.
  { clear Pv Pt Ht. induction Hs as [|x y xs ys E _ IH]; [done|]. simpl. by rewrite !length_app, E, IH. }
  rewrite fmap_app in Pt. assert (concat vs = concat (tensors_of planner grid ts)) as E.
  { apply (published_numbers offset); [|apply tensors_numbers|done|done|].
    - by apply List.Forall_concat.
    - intros i v Hi. apply Pt. rewrite lookup_app_l; [exact Hi|by eapply lookup_lt_Some]. }
  split; [symmetry; apply concat_shape_inj; [apply Forall2_flip; eapply Forall2_impl; [exact Hs|done]|done]|].
  intros i v Hi. rewrite <-Nat.add_assoc. apply Pt. rewrite lookup_app_r; [|rewrite length_fmap, <-E; lia].
  rewrite length_fmap, <-E, <-Hi. f_equal. lia.
Qed.
End Read.

(** ** Tables of a complete circuit

    The soundness theorems of the chips assume that every table holds what its
    chip loads.  In a circuit that is one run of a program without RMS norms this
    is a fact: the run makes no other call on a table than loading bytes. *)
Import Assembler ProgramCircuit.

Open Scope nat_scope.

Definition byte_call (c : Call) : Prop :=
  match c with Table t i v => v = fr (Z.of_nat i) ∧ i < 256 | _ => True end.

(** What [m] loads is bytes. *)
Definition byte_run `{Layouter} {E A} (m : Lay E A) : Prop :=
  ∀ lg a n calls, m lg = Some (Ok (mkDone a n calls)) → Forall byte_call calls.

Section Runs.
Context `{L : Layouter}.

Lemma br_ret {E A} (a : A) : byte_run (lay_ret (E := E) a).
Proof. intros lg b n calls [= _ _ <-]. constructor. Qed.
Lemma br_err {E A} (e : E) : byte_run (lay_err (A := A) e).
Proof. by intros lg b n calls. Qed.
Lemma br_panic {E A} : byte_run (lay_panic (E := E) (A := A)).
Proof. by intros lg b n calls. Qed.
Lemma br_bind {E A B} (m : Lay E A) (k : A → Lay E B) : byte_run m → (∀ a, byte_run (k a)) → byte_run (lay_bind m k).
Proof.
  intros Hm Hk lg b n calls Hrun. unfold lay_bind in Hrun. destruct (m lg) as [[[a n1 c1]|]|] eqn:E1; [|done..].
  destruct (k a _) as [[[b2 n2 c2]|]|] eqn:E2; [|done..]. injection Hrun as <- <- <-. apply Forall_app. split; [by eapply Hm|by eapply Hk].
Qed.
Lemma br_lift {E A} (r : Result A E) : byte_run (lay_lift r).
Proof. destruct r; [apply br_ret|apply br_err]. Qed.
Lemma br_expect {E F A} (r : Result A F) : byte_run (lay_expect (E := E) r).
Proof. destruct r; [apply br_ret|apply br_panic]. Qed.
Lemma br_unwrap {E A} (o : option A) : byte_run (lay_unwrap (E := E) o).
Proof. destruct o; [apply br_ret|apply br_panic]. Qed.
Lemma br_map_err {E F A} (f : E → F) (m : Lay E A) : byte_run m → byte_run (lay_map_err f m).
Proof.
  intros Hm lg b n calls Hrun. unfold lay_map_err in Hrun. destruct (m lg) as [[d|]|] eqn:E1; [|done..].
  injection Hrun as ->. by eapply Hm.
Qed.
Lemma br_try {E F A} `{From E F} (m : Lay E A) : byte_run m → byte_run (lay_try (F := F) m).
Proof. apply br_map_err. Qed.
Lemma br_region {E A} (body : nat → Lay E A) : (∀ region, byte_run (body region)) → byte_run (assign_region body).
Proof. intros Hb lg b n calls Hrun. by eapply Hb. Qed.
Lemma br_map {E A B} (f : A → Lay E B) l : (∀ x, byte_run (f x)) → byte_run (lay_map f l).
Proof.
  intros Hf. induction l as [|x l IH]; cbn [lay_map]; [apply br_ret|].
  apply br_bind; [apply Hf|intros y]. apply br_bind; [exact IH|intros ys]. apply br_ret.
Qed.
Lemma br_iter {E A} (f : A → Lay E unit) l : (∀ x, x ∈ l → byte_run (f x)) → byte_run (lay_iter f l).
Proof.
  intros Hf. induction l as [|x l IH]; cbn [lay_iter]; [apply br_ret|].
  apply br_bind; [apply Hf; by left|intros _]. apply IH. intros y Hy. apply Hf. by right.
Qed.
Lemma br_fold {E A S} (f : S → A → Lay E S) s l : (∀ s x, byte_run (f s x)) → byte_run (lay_fold f s l).
Proof.
  intros Hf. revert s. induction l as [|x l IH]; intros s; cbn [lay_fold]; [apply br_ret|].
  apply br_bind; [apply Hf|intros s'; apply IH].
Qed.
Lemma br_emit c : byte_call c → byte_run (emit c).
Proof.
  intros Hc lg [] n calls Hrun. unfold emit in Hrun. destruct (refuse _ _); [done|].
  injection Hrun as <- <-. by constructor.
Qed.
End Runs.

(** One step into the structure of a run. *)
Ltac br_step :=
  lazymatch goal with
  | |- byte_run (lay_bind _ _) => apply br_bind; [|intros ?]
  | |- byte_run (lay_ret _) => apply br_ret
  | |- byte_run (lay_err _) => apply br_err
  | |- byte_run lay_panic => apply br_panic
  | |- byte_run (lay_lift _) => apply br_lift
  | |- byte_run (lay_expect _) => apply br_expect
  | |- byte_run (lay_unwrap _) => apply br_unwrap
  | |- byte_run (index _ _) => apply br_unwrap
  | |- byte_run (lay_map_err _ _) => apply br_map_err
  | |- byte_run (lay_try _) => apply br_try
  | |- byte_run (assign_region _) => apply br_region; intros ?
  | |- byte_run (lay_map _ _) => apply br_map; intros ?
  | |- byte_run (lay_iter _ _) => apply br_iter; intros ? _
  | |- byte_run (lay_fold _ _ _) => apply br_fold; intros ? ?
  | |- byte_run (enable _ _ _) => by apply br_emit
  | |- byte_run (constrain_equal _ _) => by apply br_emit
  | |- byte_run (constrain_instance _ _ _) => by apply br_emit
  | |- byte_run (constrain_constant _ _) => by apply br_emit
  | |- byte_run (assign_fixed _ _ _ _) => by apply br_emit
  | |- byte_run (emit (Assign _ _)) => by apply br_emit
  | |- byte_run (assign_advice _ _ _ _) => unfold assign_advice
  | |- byte_run (PoseidonBoundary.assign_value _ _ _ _) => unfold PoseidonBoundary.assign_value
  | |- byte_run (match ?p with _ => _ end) => destruct p
  | |- byte_run _ => solve [eauto with byte_run]
  end; cbn beta iota zeta.

Create HintDb byte_run.

Section Chips.
Context `{L : Layouter}.

Lemma br_range config v r : byte_run (RangeCheck.assign config v r).
Proof. unfold RangeCheck.assign. repeat br_step. Qed.
Lemma br_lookup_range config v r : byte_run (LookupRangeCheck.assign config v r).
Proof. unfold LookupRangeCheck.assign. cbv zeta. repeat br_step. Qed.
Lemma br_load_bytes config : byte_run (LookupRangeCheck.load_table config).
Proof.
  unfold LookupRangeCheck.load_table. apply br_iter. intros i [_ Hi]%elem_of_seq. apply br_emit. split; [done|].
  change (Z.to_nat LookupRangeCheck.LIMB_VALUES) with 256 in Hi. lia.
Qed.
End Chips.
#[export] Hint Resolve br_range br_lookup_range br_load_bytes : byte_run.

Section Program.
Context `{A : Arithmetic, O : HashOrder, L : Layouter} (config : AssemblerConfig) (known : bool).

Lemma br_add_row cfg a b : byte_run (assign_add_row_with_witnesses cfg a b known).
Proof. unfold assign_add_row_with_witnesses. repeat br_step. Qed.
Lemma br_mul_row cfg a b : byte_run (assign_mul_row_with_witnesses cfg a b known).
Proof.
  unfold assign_mul_row_with_witnesses, assign_mul_operand_shifts_with_witness_mode, link_mul_operand_ranges_with_witness_mode.
  repeat br_step.
Qed.
Lemma br_dot_row cfg a b : byte_run (assign_dot_row cfg a b known).
Proof. unfold assign_dot_row. repeat br_step. Qed.
Lemma br_output_bridge r c : byte_run (output_bridge config known r c).
Proof. unfold output_bridge, assign_bridge. repeat br_step. Qed.
Lemma br_operand_bridge r c : byte_run (operand_bridge config known r c).
Proof. unfold operand_bridge, assign_bridge. repeat br_step. Qed.
#[local] Hint Resolve br_add_row br_mul_row br_dot_row br_output_bridge br_operand_bridge : byte_run.

Lemma br_instruction instr input_regs weight_regs virtual_regs :
  (∀ dim eps, instruction instr ≠ Program.RmsNorm dim eps) →
  byte_run (assign_instruction config known instr input_regs weight_regs virtual_regs).
Proof.
  intros Hr. unfold assign_instruction. destruct (instruction instr) as [| | | | |[]| | |]; try apply br_err; [|by edestruct Hr| |].
  - unfold assign_dot_general, assign_dot_element. repeat br_step.
  - unfold assign_eltwise, assign_add_element, assign_mul_element. repeat br_step.
  - unfold assign_eltwise, assign_add_element, assign_mul_element. repeat br_step.
Qed.
End Program.

(** ** Circuits *)

Definition rms_free (instrs : list AssemblerInstruction) : Prop :=
  Forall (λ instr, ∀ dim eps, instruction instr ≠ Program.RmsNorm dim eps) instrs.

Lemma rms_free_keys instrs : rms_free instrs → rms_norm_keys instrs = [].
Proof.
  unfold rms_free. rewrite Forall_forall. intros Hr. destruct (rms_norm_keys instrs) as [|[dim eps] keys] eqn:E; [done|].
  assert ((dim, eps) ∈ rms_norm_keys instrs) as (instr & Hin & Ei)%elem_of_rms_norm_keys by (rewrite E; by left).
  by apply Hr in Ei.
Qed.

Section Circuit.
Context `{A : Arithmetic, O : HashOrder, B : Blake3, P : PoseidonParameters, L : Layouter, !Synthesis L}.

Lemma br_instructions config known instrs input_regs weight_regs virtual_regs :
  rms_free instrs → byte_run (assign_instructions config known instrs input_regs weight_regs virtual_regs).
Proof.
  intros Hr. revert virtual_regs. induction Hr as [|instr instrs Hi _ IH]; intros virtual_regs; cbn [assign_instructions]; [apply br_ret|].
  apply br_bind; [by apply br_instruction|intros out; apply IH].
Qed.

Lemma br_program config known program :
  rms_free (instructions program) → byte_run (assign_with_cells_with_witnesses config known program).
Proof.
  intros Hr. unfold assign_with_cells_with_witnesses, load_range_tables, DotProduct.load_range_table, load_mul_operand_range_table,
    assign_registers, assign_boundary.
  do 3 (apply br_bind; [repeat br_step|intros ?]). apply br_bind; [by apply br_instructions|intros ?]. apply br_ret.
Qed.

Lemma br_constant config v : byte_run (PoseidonBoundary.assign_constant config v).
Proof. unfold PoseidonBoundary.assign_constant. repeat br_step. Qed.
Lemma br_hash_pair config l r : byte_run (PoseidonBoundary.hash_pair config l r).
Proof.
  assert (∀ region rounds cells, byte_run (PoseidonBoundary.assign_rounds config region rounds cells)) as Hrounds.
  { intros region rounds. induction rounds as [|round rounds IH]; intros cells; cbn [PoseidonBoundary.assign_rounds]; [apply br_ret|].
    apply br_bind; [|intros; apply IH]. unfold PoseidonBoundary.assign_round. repeat br_step. }
  unfold PoseidonBoundary.hash_pair. repeat br_step.
Qed.
Lemma br_commit config d cells : byte_run (PoseidonBoundary.commit_assigned config synthesis d cells).
Proof.
  assert (∀ fields st, byte_run (PoseidonBoundary.fold_constants config st fields)) as Hf.
  { intros fields. induction fields as [|f fields IH]; intros st; cbn [PoseidonBoundary.fold_constants]; [apply br_ret|].
    apply br_bind; [apply br_constant|intros ?]. apply br_bind; [apply br_hash_pair|intros; apply IH]. }
  assert (∀ cells st, byte_run (PoseidonBoundary.fold_cells config st cells)) as Hc.
  { intros cs. induction cs as [|c cs IH]; intros st; cbn [PoseidonBoundary.fold_cells]; [apply br_ret|].
    apply br_bind; [apply br_hash_pair|intros; apply IH]. }
  unfold PoseidonBoundary.commit_assigned. destruct (_ || _); [apply br_err|].
  apply br_bind; [apply br_constant|intros ?]. apply br_bind; [apply Hf|intros ?].
  apply br_bind; [apply br_constant|intros ?]. apply br_bind; [apply br_hash_pair|intros ?]. apply Hc.
Qed.

#[local] Hint Resolve br_constant br_commit : byte_run.

Lemma br_synthesize self config :
  rms_free (instructions (program self)) → rms_norm (assembler config) = ∅ → HashOrderLaws O →
  byte_run (synthesize self config).
Proof.
  intros Hr He HO. unfold synthesize. apply br_bind; [apply br_unwrap|intros instance].
  apply br_bind.
  { unfold load_rms_norm_tables. rewrite He, map_to_list_empty.
    assert (hash_order (@nil ((nat * Z) * RmsNorm.RmsNormConfig)) = []) as ->; [|apply br_ret].
    apply Permutation_nil_r, hash_order_Permutation. }
  intros _. apply br_bind; [by apply br_map_err, br_program|intros assigned].
  destruct (_ || _).
  - unfold synthesize_boundary, expose_constants, expose, PoseidonBoundary.assign_public_value,
      PoseidonBoundary.constrain_equal_to_constant. cbv zeta. repeat br_step.
  - unfold synthesize_public, expose. repeat br_step.
Qed.

Lemma byte_tables_sound config (log : list Call) :
  rms_norm config = ∅ → Forall byte_call log → tables_sound log config.
Proof.
  intros He Hb. rewrite Forall_forall in Hb.
  assert (∀ cfg, LookupRangeCheck.table_bytes log cfg) as Ht by (intros cfg i v Hin; apply (Hb _ Hin)).
  split; [by intros; split|by split|]. intros key c chip. by rewrite He.
Qed.
End Circuit.
