(* ===== verification/ProgramHonest.v ===== *)
(** * Program circuits: honest provers, and keys

    Whenever the reference semantics evaluates a program, its circuit is built
    and an honest grid with the right public values satisfies it.  Circuits of one
    shape have one key: neither witnesses nor the order of a hash map matters. *)
From S2P Require Import Prelude Ordering Bytes Field FixedPoint Program Circuit CircuitLogic RangeCheck Eltwise EltwiseProofs Shape DotProduct Lookup Norm NormProofs Honest Assembler Evaluate AssemblerProofs AssemblerShape AssemblerHonest PoseidonBoundary PoseidonProofs ProgramCircuit ProgramCircuitProofs.
Import Lookup Assembler ProgramCircuit.

Open Scope nat_scope.

(** Checked evaluation of a program is exact. *)
Lemma eval_program_exact input_tensors weight_tensors instrs virts final :
  eval_program checked_total input_tensors weight_tensors instrs virts = Some final →
  eval_program exact_total input_tensors weight_tensors instrs virts = Some final.
Proof.
  revert virts. induction instrs as [|instr instrs IH]; intros virts; cbn [eval_program]; [done|].
  intros ([a b] & -> & (out & Hout%eval_instruction_exact & Hf)%bind_Some)%bind_Some.
  cbn [mbind option_bind]. rewrite Hout. by apply IH.
Qed.

(** ** Public cells *)

Section Public.
Context `{L : Layouter} (planner : nat → Z) (grid : Column → Z → Fr) (cs : ConstraintSystem) (log : list Call).
Context (instance : Column).

Notation honest := (wp log (call_ok planner grid cs log)).

Lemma published_split offset vs ws :
  published grid instance offset (vs ++ ws) → published grid instance offset vs ∧ published grid instance (offset + length vs) ws.
Proof.
  intros Hp. split.
  - intros i v Hi. apply Hp. rewrite lookup_app_l; [done|by eapply lookup_lt_Some].
  - intros i v Hi. rewrite <-Nat.add_assoc. apply Hp. rewrite lookup_app_r by lia. rewrite <-Hi. f_equal. lia.
Qed.

Lemma expose_cells_complete offset cells :
  published grid instance offset (cell_value planner grid <$> cells) →
  honest (lay_fold (expose instance) offset cells) (λ out, out = offset + length cells).
Proof.
  revert offset. induction cells as [|c cells IH]; intros offset; cbn [lay_fold]; [intros _; apply wp_ret; simpl; lia|].
  intros Hp. rewrite fmap_cons in Hp. apply (published_split offset [_] _) in Hp as [Hc Hp].
  eapply (wp_bind _ _ _ _ (λ out, out = offset + 1)).
  { unfold expose. eapply (wp_bind _ _ _ _ (λ _, True)).
    - apply wp_emit; [|done]. simpl. rewrite <-(Hc 0 (cell_value planner grid c)) by done. f_equal. lia.
    - intros [] _. by apply wp_ret. }
  intros _ ->. eapply wp_conseq; [by apply IH|]. intros out ->. simpl. lia.
Qed.

Lemma expose_tensors_complete offset (ts : list AssignedTensor) :
  published grid instance offset (cell_value planner grid <$> concat (tensor_cells <$> ts)) →
  honest (lay_fold (λ offset tensor, lay_fold (expose instance) offset (tensor_cells tensor)) offset ts)
    (λ out, out = offset + length (concat (tensor_cells <$> ts))).
Proof.
  revert offset. induction ts as [|t ts IH]; intros offset; cbn [lay_fold]; [intros _; apply wp_ret; simpl; lia|].
  rewrite fmap_cons. simpl. rewrite fmap_app. intros [Ht Hp]%published_split. rewrite length_fmap in Hp.
  eapply wp_bind; [by apply expose_cells_complete|]. intros _ ->. eapply wp_conseq; [by apply IH|].
  intros out ->. rewrite length_app. lia.
Qed.

Lemma expose_outputs_complete (synthesis : ErrorFront) offset indices (virtuals outs : list AssignedTensor) :
  Forall2 (λ index t, virtuals !! index = Some t) indices outs →
  published grid instance offset (cell_value planner grid <$> concat (tensor_cells <$> outs)) →
  honest (lay_fold (λ offset index,
    let$ tensor := lay_lift (ok_or (virtuals !! index) synthesis) in
    lay_fold (expose instance) offset (tensor_cells tensor)) offset indices) (λ _, True).
Proof.
  intros Ho. revert offset. induction Ho as [|index t indices outs Ht _ IH]; intros offset; cbn [lay_fold]; [intros _; by apply wp_ret|].
  rewrite fmap_cons. simpl. rewrite fmap_app. intros [Hc Hp]%published_split. rewrite length_fmap in Hp.
  eapply (wp_bind _ _ _ _ (λ out, out = offset + length (tensor_cells t))); [|intros _ ->; by apply IH].
  rewrite Ht. apply wp_ret_then. by apply expose_cells_complete.
Qed.
End Public.

(** ** Runs that return *)

Section Returns.
Context `{L : Layouter, !Roomy L}.

Lemma returns_fold {E A S} (f : S → A → Lay E S) s l :
  (∀ s x, x ∈ l → returns (f s x) (λ _, True)) → returns (lay_fold f s l) (λ _, True).
Proof using Type.
  revert s. induction l as [|x l IH]; intros s Hf; cbn [lay_fold]; [by apply returns_ret|].
  eapply returns_bind; [apply Hf; by left|]. intros s' _. apply IH. intros. apply Hf. by right.
Qed.

Lemma expose_returns instance offset cells : returns (lay_fold (expose instance) offset cells) (λ _, True).
Proof using Roomy0.
  apply returns_fold. intros o c _. unfold expose. eapply returns_bind; [apply returns_emit|]. intros _ _. by apply returns_ret.
Qed.

Lemma synthesize_public_returns `{!Synthesis L} instance self assigned :
  Forall (λ index, index < length (virtuals assigned)) (public_output_indices (params self)) →
  returns (synthesize_public instance self assigned) (λ _, True).
Proof using Roomy0.
  intros Hi. unfold synthesize_public. eapply returns_bind; [apply returns_fold; intros; apply expose_returns|]. intros o _.
  eapply returns_bind; [|intros _ _; by apply returns_ret]. apply returns_fold. intros o' index Hin.
  rewrite Forall_forall in Hi. destruct (lookup_lt_is_Some_2 _ _ (Hi _ Hin)) as [t Ht].
  eapply (returns_bind _ _ (λ _, True)); [by apply (returns_lift _ t); [rewrite Ht|]|]. intros t' _. apply expose_returns.
Qed.
End Returns.

(** ** Honest circuits *)

Section Circuit.
Context `{A : Arithmetic, !TotalArithmetic A, !ExactArithmetic A, O : HashOrder, !HashOrderLaws O}.
Context `{B : Blake3, P : PoseidonParameters, L : Layouter, !Synthesis L}.
Context (self : AssemblerCircuit) (config : AssemblerCircuitConfig) (virts outs : list (list I18)).
Context (cs : ConstraintSystem) (Hinst : circuit_installed cs (params self) config).
Context (Hsame : params_instructions (params self) = instructions (program self)) (Hmode : public_mode self = true).
Context (Hfree : rms_norm (assembler config) = ∅) (Hinstrs : rms_free (instructions (program self))).
Context (Heval : eval_program checked_total (input_values (program self)) (weight_values (program self)) (instructions (program self)) [] = Some virts).
Context (Houts : Forall2 (λ index out, virts !! index = Some out) (public_output_indices (params self)) outs).

Lemma no_rms_tables : load_rms_norm_tables (assembler config) = lay_ret tt.
Proof using Hfree HashOrderLaws0.
  unfold load_rms_norm_tables. rewrite Hfree, map_to_list_empty.
  assert (hash_order (@nil ((nat * Z) * RmsNorm.RmsNormConfig)) = []) as ->; [|done].
  apply Permutation_nil_r, hash_order_Permutation.
Qed.

Lemma in_public_mode : negb (is_nil (boundary_inputs (params self))) || negb (is_nil (boundary_outputs (params self))) = false.
Proof using Hmode. unfold public_mode in Hmode. by rewrite <-negb_andb, Hmode. Qed.

Lemma synthesize_returns `{!Roomy L} : returns (synthesize self config) (λ _, True).
Proof using All.
  unfold synthesize. rewrite no_rms_tables, in_public_mode. destruct (ci_public _ _ _ Hinst) as [instance Hi].
  eapply (returns_bind _ _ (λ i, i = instance)); [by apply (returns_unwrap _ instance)|]. intros _ ->.
  eapply (returns_bind _ _ (λ _, True)); [by apply returns_ret|]. intros _ _.
  eapply returns_bind.
  { apply returns_map_err. eapply assign_program_returns; [apply Hinst|rewrite <-Hsame; apply Hinst|exact Heval]. }
  intros assigned (_ & _ & Ev). apply synthesize_public_returns.
  apply Forall_forall. intros index Hin. apply list_elem_of_lookup in Hin as [j Hj].
  destruct (Forall2_lookup_l _ _ _ _ _ Houts Hj) as (out & _ & Ho). apply lookup_lt_Some in Ho.
  by rewrite <-Ev, length_fmap in Ho.
Qed.

Context (planner : nat → Z) (grid : Column → Z → Fr) (log : list Call).
Context (Hcs : cs_ok cs) (Hag : agrees planner grid log) (Htyped : typed_program (program self)).

Notation honest := (wp log (call_ok planner grid cs log)).

Lemma held_values (ts : list AssignedTensor) :
  Forall (held_tensor planner grid) ts →
  cell_value planner grid <$> concat (tensor_cells <$> ts) = encoded (tensor_values <$> ts).
Proof using Type.
  unfold encoded. induction 1 as [|t ts Ht _ IH]; [done|]. rewrite !fmap_cons. simpl. rewrite !fmap_app, IH. f_equal.
  clear IH. unfold held_tensor in Ht. revert Ht. generalize (tensor_cells t), (tensor_values t). intros cells vs.
  revert vs. induction cells as [|c cells IH]; intros [|v vs] Hf; inversion Hf as [|? ? ? ? [_ Hc] Hrest]; subst; [done|].
  rewrite !fmap_cons, Hc. f_equal. by apply IH.
Qed.

Lemma outputs_held (ts : list AssignedTensor) indices (os : list (list I18)) :
  Forall (held_tensor planner grid) ts → Forall2 (λ index out, (tensor_values <$> ts) !! index = Some out) indices os →
  ∃ ots, Forall2 (λ index t, ts !! index = Some t) indices ots ∧ tensor_values <$> ots = os ∧ Forall (held_tensor planner grid) ots.
Proof using Type.
  intros Hh Ho. induction Ho as [|index out indices os Ho _ (ots & IH1 & IH2 & IH3)]; [by exists []|].
  rewrite list_lookup_fmap in Ho. apply fmap_Some in Ho as (t & Ht & ->).
  exists (t :: ots). split_and!; [by constructor|by rewrite fmap_cons, IH2|]. constructor; [|done].
  rewrite Forall_lookup in Hh. eauto.
Qed.

Lemma synthesize_complete :
  (∀ instance, public_instance (assembler config) = Some instance →
    published grid instance 0 (encoded (input_values (program self) ++ weight_values (program self) ++ outs))) →
  has_known_witnesses self = true →
  honest (synthesize self config) (λ _, True).
Proof using All.
  intros Hpub Hknown. unfold synthesize. rewrite no_rms_tables, in_public_mode, Hknown.
  apply wp_nest, wp_unwrap. intros instance Hi. specialize (Hpub _ Hi). apply wp_ret_then.
  eapply wp_bind.
  { apply wp_map_err. apply (assign_program_complete planner grid cs); [apply Hinst|done|done| |done].
    intros key c chip. by rewrite Hfree. }
  intros assigned (Hheld & Ei & Ew & Hruns).
  assert (tensor_values <$> virtuals assigned = virts) as Ev.
  { assert (eval_program exact_total (input_values (program self)) (weight_values (program self)) (instructions (program self)) []
      = Some (tensor_values <$> virtuals assigned)) as E.
    { eapply runs_eval; [|exact Hruns]. eapply Forall_impl; [exact Hinstrs|]. intros instr Hr a b out.
      destruct (instruction instr) eqn:En; try done. by edestruct Hr. }
    rewrite (eval_program_exact _ _ _ _ _ Heval) in E. by injection E. }
  rewrite !Forall_app in Hheld. destruct Hheld as (Hhi & Hhw & Hhv).
  rewrite <-Ev in Houts. destruct (outputs_held _ _ _ Hhv Houts) as (ots & Hots & Eo & Hho). rewrite <-Eo in Hpub.
  rewrite <-Ei, <-Ew, <-!fmap_app, <-held_values in Hpub by (rewrite !Forall_app; by split_and!).
  rewrite app_assoc, fmap_app, concat_app, fmap_app in Hpub. apply published_split in Hpub as [Hp1 Hp2].
  rewrite length_fmap in Hp2. unfold synthesize_public.
  eapply wp_bind; [by apply expose_tensors_complete|]. intros _ ->.
  eapply wp_bind; [by eapply expose_outputs_complete|]. intros _ _. by apply wp_ret.
Qed.
End Circuit.

(** ** Keys *)

(** Runs that succeed with one result make calls of one circuit. *)
Definition similar `{Layouter} {E A A'} (R : A → A' → Prop) (m : Lay E A) (m' : Lay E A') : Prop :=
  ∀ lg lg' d d', lg_regions lg = lg_regions lg' → m lg = Some (Ok d) → m' lg' = Some (Ok d') →
    R (dn_value d) (dn_value d') ∧ dn_regions d = dn_regions d' ∧ same_circuit (dn_calls d) (dn_calls d').

Section Similar.
Context `{L : Layouter}.

Lemma same_circuit_app a a' b b' : same_circuit a a' → same_circuit b b' → same_circuit (a ++ b) (a' ++ b').
Proof. intros (m & Hm & Hs) (k & Hk & Ht). exists (m ++ k). split; [by rewrite Hm, Hk|by apply Forall2_app]. Qed.

Lemma similar_bind {E A A' X X'} (R : A → A' → Prop) (T : X → X' → Prop) (m : Lay E A) m' k k' :
  similar R m m' → (∀ a a', R a a' → similar T (k a) (k' a')) → similar T (lay_bind m k) (lay_bind m' k').
Proof.
  intros Hm Hk lg lg' d d' Hlg E1 E2. unfold lay_bind in E1, E2.
  destruct (m lg) as [[[a n c]|]|] eqn:Em; [|done..]. destruct (m' lg') as [[[a' n' c']|]|] eqn:Em'; [|done..].
  destruct (Hm _ _ _ _ Hlg Em Em') as (HR & Hn & Hc). simpl in *. subst n'.
  destruct (k a _) as [[[b n1 c1]|]|] eqn:Ek; [|done..]. destruct (k' a' _) as [[[b' n1' c1']|]|] eqn:Ek'; [|done..].
  destruct (Hk a a' HR (mkLog n (lg_calls lg ++ c)) (mkLog n (lg_calls lg' ++ c')) _ _ eq_refl Ek Ek') as (HT & Hn1 & Hc1).
  injection E1 as <-. injection E2 as <-. simpl in *. split_and!; [done..|]. by apply same_circuit_app.
Qed.

Lemma similar_alike {E A A'} (R : A → A' → Prop) (m : Lay E A) (m' : Lay E A') : alike R m m' → similar R m m'.
Proof.
  intros Hm lg lg' d d' Hlg E1 E2. destruct (Hm _ _ _ _ Hlg E1 E2) as (? & ? & Hc). split_and!; [done..|].
  by exists (dn_calls d).
Qed.

Lemma similar_loads {E} (m m' : Lay E unit) c c' : loads m c → loads m' c' → c ≡ₚ c' → similar (λ _ _, True) m m'.
Proof.
  intros Hm Hm' Hc lg lg' d d' Hlg E1 E2. destruct (Hm _ _ E1) as [Hn Hc1], (Hm' _ _ E2) as [Hn' Hc1'].
  split_and!; [done|congruence|]. exists (dn_calls d'). split; [by rewrite Hc1, Hc1'|done].
Qed.

Lemma similar_map_err {E F A A'} (f : E → F) (R : A → A' → Prop) (m : Lay E A) (m' : Lay E A') :
  similar R m m' → similar R (lay_map_err f m) (lay_map_err f m').
Proof.
  intros Hm lg lg' d d' Hlg E1 E2. unfold lay_map_err in E1, E2.
  destruct (m lg) as [[]|] eqn:Em; simplify_eq. destruct (m' lg') as [[]|] eqn:Em'; simplify_eq. by apply (Hm lg lg').
Qed.

(** The calls that load the tables of the norms. *)
Definition lookup_calls (chip : LookupChip) : list Call :=
  (enumerate (domain chip) ≫= λ p,
    [Table (table_input (lookup_config chip)) p.1 (i64_to_fr (raw p.2.1))] ++
    [Table (table_output (lookup_config chip)) p.1 (i64_to_fr (raw p.2.2))]) ++
  [Table (table_input (lookup_config chip)) (length (domain chip)) (i64_to_fr PAD_INPUT_RAW)] ++
  [Table (table_output (lookup_config chip)) (length (domain chip)) (i64_to_fr PAD_OUTPUT_RAW)].
Definition rms_calls (kc : (nat * Z) * RmsNorm.RmsNormConfig) : list Call :=
  match RmsNorm.construct kc.2 with
  | Some chip => lookup_calls (RmsNorm.rsqrt_chip chip) ++ mul_calls (RmsNorm.mul (RmsNorm.config chip))
  | None => []
  end.

Lemma loads_rms_tables (o : HashOrder) config :
  loads (load_rms_norm_tables config) (hash_order (map_to_list (rms_norm config)) ≫= rms_calls).
Proof.
  apply loads_iter. intros [key c] lg d. unfold rms_calls. cbn [snd]. destruct (RmsNorm.construct c) as [chip|]; [|done].
  revert lg d. change (loads (lay_bind (lay_ret (E := ErrorFront) chip) (λ chip, RmsNorm.load_table chip))
    (lookup_calls (RmsNorm.rsqrt_chip chip) ++ mul_calls (RmsNorm.mul (RmsNorm.config chip)))).
  change (loads (lay_bind (lay_ret (E := ErrorFront) tt) (λ _, RmsNorm.load_table chip))
    ([] ++ (lookup_calls (RmsNorm.rsqrt_chip chip) ++ mul_calls (RmsNorm.mul (RmsNorm.config chip))))).
  apply loads_bind; [by intros lg d [= <-]|]. apply loads_bind; [|apply loads_bind; apply loads_bytes].
  apply loads_bind; [|apply loads_bind; apply loads_cell]. apply loads_iter. intros [i [x y]]. apply loads_bind; apply loads_cell.
Qed.

Lemma alike_fold {E S X X'} (R : S → S → Prop) (Q : X → X' → Prop) (f : S → X → Lay E S) (f' : S → X' → Lay E S) l l' s s' :
  (∀ s s' x x', R s s' → Q x x' → alike R (f s x) (f' s' x')) → Forall2 Q l l' → R s s' → alike R (lay_fold f s l) (lay_fold f' s' l').
Proof.
  intros Hf Hl. revert s s'. induction Hl as [|x x' l l' Hx _ IH]; intros s s' Hs; cbn [lay_fold]; [by apply alike_ret|].
  eapply alike_bind; [by apply Hf|]. intros. by apply IH.
Qed.
End Similar.

(** *** The commitment chip *)

(** Cells that differ only in the value assigned. *)
Definition same_cell (c c' : PoseidonBoundary.AssignedCell) : Prop :=
  PoseidonBoundary.cell c = PoseidonBoundary.cell c'.

Section Commitments.
Context `{B : Blake3, P : PoseidonParameters, L : Layouter} (config : PoseidonBoundary.PoseidonBoundaryConfig).

Lemma alike_fixed c region o v : alike (λ _ _, True) (assign_fixed c region o v) (assign_fixed c region o v).
Proof using Type. by apply alike_emit. Qed.
Lemma alike_constant c v : alike (λ _ _, True) (constrain_constant c v) (constrain_constant c v).
Proof using Type. by apply alike_emit. Qed.

Lemma assign_value_alike column region o v v' :
  alike same_cell (PoseidonBoundary.assign_value column region o v) (PoseidonBoundary.assign_value column region o v').
Proof using Type.
  unfold PoseidonBoundary.assign_value. eapply alike_bind; [apply alike_advice|]. intros c _ <-. by apply alike_ret.
Qed.

Lemma assign_constant_alike v :
  alike same_cell (PoseidonBoundary.assign_constant config v) (PoseidonBoundary.assign_constant config v).
Proof using Type.
  apply alike_region. intros region. eapply alike_bind; [apply assign_value_alike|]. intros c c' Hc.
  rewrite Hc. eapply alike_bind; [apply alike_constant|]. intros _ _ _. by apply alike_ret.
Qed.

Lemma assign_public_value_alike v v' :
  alike same_cell (PoseidonBoundary.assign_public_value config v) (PoseidonBoundary.assign_public_value config v').
Proof using Type. apply alike_region. intros region. apply assign_value_alike. Qed.

Definition same_state (cells cells' : PoseidonBoundary.Array3 PoseidonBoundary.AssignedCell) : Prop :=
  same_cell (PoseidonBoundary.at0 cells) (PoseidonBoundary.at0 cells').

Lemma assign_round_alike region round cells cells' :
  alike same_state (PoseidonBoundary.assign_round config region round cells)
    (PoseidonBoundary.assign_round config region round cells').
Proof using Type.
  unfold PoseidonBoundary.assign_round. eapply alike_bind.
  { destruct (PoseidonBoundary.is_full round); apply alike_enable. }
  intros _ _ _. eapply alike_bind.
  { apply (alike_map (λ p p', p.1 = p'.1 ∧ p.2.1 = p'.2.1) (λ _ _, True)).
    - apply Forall2_same_length_lookup_2; [done|]. intros i [j [rc c]] [j' [rc' c']].
      rewrite !lookup_enumerate. intros ([x y] & Hx & [= -> -> ->])%fmap_Some ([x' y'] & Hx' & [= -> -> ->])%fmap_Some.
      simpl. split; [done|]. apply lookup_zip_with_Some in Hx as (? & ? & [= <- <-] & Hx & _).
      apply lookup_zip_with_Some in Hx' as (? & ? & [= <- <-] & Hx' & _). congruence.
    - intros [j [rc c]] [j' [rc' c']] [E1 E2]. simpl in E1, E2. subst. cbv zeta.
      eapply alike_bind; [apply alike_fixed|]. intros _ _ _. by apply alike_ret. }
  intros sboxed sboxed' _. cbv zeta.
  eapply alike_bind; [apply assign_value_alike|]. intros n0 n0' H0.
  eapply alike_bind; [apply assign_value_alike|]. intros n1 n1' _.
  eapply alike_bind; [apply assign_value_alike|]. intros n2 n2' _. by apply alike_ret.
Qed.

Lemma assign_rounds_alike region rounds cells cells' :
  same_state cells cells' →
  alike same_state (PoseidonBoundary.assign_rounds config region rounds cells)
    (PoseidonBoundary.assign_rounds config region rounds cells').
Proof using Type.
  revert cells cells'. induction rounds as [|round rounds IH]; intros cells cells' Hc; [by apply alike_ret|].
  cbn [PoseidonBoundary.assign_rounds]. eapply alike_bind; [apply assign_round_alike|]. intros. by apply IH.
Qed.

(** Copies of two cells, and of two that are the same cells. *)
Lemma copy_alike {A A'} (R : A → A' → Prop) column region o l l' k k' :
  same_cell l l' → (∀ c c', same_cell c c' → alike R (k c) (k' c')) →
  alike R
    (let$ c := PoseidonBoundary.assign_value column region o (PoseidonBoundary.value l) in
     let$ _ := constrain_equal (PoseidonBoundary.cell l) (PoseidonBoundary.cell c) in k c)
    (let$ c := PoseidonBoundary.assign_value column region o (PoseidonBoundary.value l') in
     let$ _ := constrain_equal (PoseidonBoundary.cell l') (PoseidonBoundary.cell c) in k' c).
Proof using Type.
  intros Hl Hk. eapply alike_bind; [apply assign_value_alike|]. intros c c' Hc. rewrite Hl, Hc.
  eapply alike_bind; [apply alike_equal|]. intros _ _ _. by apply Hk.
Qed.

Lemma hash_pair_alike l r l' r' :
  same_cell l l' → same_cell r r' →
  alike same_cell (PoseidonBoundary.hash_pair config l r) (PoseidonBoundary.hash_pair config l' r').
Proof using Type.
  intros Hl Hr. apply alike_region. intros region. eapply alike_bind; [apply assign_value_alike|].
  intros z z' Hz. rewrite Hz. eapply alike_bind; [apply alike_constant|]. intros _ _ _.
  apply copy_alike; [done|]. intros lc lc' _. apply copy_alike; [done|]. intros rc rc' _.
  eapply alike_bind; [by apply assign_rounds_alike|]. intros cells cells' Hc. by apply alike_ret.
Qed.

Lemma fold_constants_alike state state' fields :
  same_cell state state' →
  alike same_cell (PoseidonBoundary.fold_constants config state fields) (PoseidonBoundary.fold_constants config state' fields).
Proof using Type.
  revert state state'. induction fields as [|field fields IH]; intros state state' Hs; [by apply alike_ret|].
  cbn [PoseidonBoundary.fold_constants]. eapply alike_bind; [apply assign_constant_alike|]. intros c c' Hc.
  eapply alike_bind; [by apply hash_pair_alike|]. intros. by apply IH.
Qed.

Lemma fold_cells_alike state state' values values' :
  same_cell state state' → Forall2 same_cell values values' →
  alike same_cell (PoseidonBoundary.fold_cells config state values) (PoseidonBoundary.fold_cells config state' values').
Proof using Type.
  intros Hs Hv. revert state state' Hs. induction Hv as [|v v' values values' Hv _ IH]; intros state state' Hs; [by apply alike_ret|].
  cbn [PoseidonBoundary.fold_cells]. eapply alike_bind; [by apply hash_pair_alike|]. intros. by apply IH.
Qed.

Lemma commit_alike error d values values' :
  Forall2 same_cell values values' →
  alike same_cell (PoseidonBoundary.commit_assigned config error d values) (PoseidonBoundary.commit_assigned config error d values').
Proof using Type.
  intros Hv. unfold PoseidonBoundary.commit_assigned. rewrite (Forall2_length _ _ _ Hv).
  destruct (_ || _); [apply alike_err_l|]. eapply alike_bind; [apply assign_constant_alike|]. intros s s' Hs.
  eapply alike_bind; [by apply fold_constants_alike|]. intros t t' Ht.
  eapply alike_bind; [apply assign_constant_alike|]. intros c c' Hc.
  eapply alike_bind; [by apply hash_pair_alike|]. intros. by apply fold_cells_alike.
Qed.

Lemma equal_to_constant_alike c c' v :
  same_cell c c' →
  alike (λ _ _, True) (PoseidonBoundary.constrain_equal_to_constant config c v) (PoseidonBoundary.constrain_equal_to_constant config c' v).
Proof using Type.
  intros Hc. eapply alike_bind; [apply assign_constant_alike|]. intros k k' Hk. apply alike_region. intros _.
  rewrite Hc, Hk. apply alike_equal.
Qed.

Lemma assigned_cells_same known known' t t' :
  same_tensor t t' → Forall2 same_cell (assigned_cells known t) (assigned_cells known' t').
Proof using Type.
  intros [Hc Hl]. unfold assigned_cells. rewrite Hc.
  apply Forall2_same_length_lookup_2; [rewrite !length_zip_with; lia|].
  intros i c c' (x & y & -> & Hx & _)%lookup_zip_with_Some (x' & y' & -> & Hx' & _)%lookup_zip_with_Some.
  unfold same_cell. simpl. congruence.
Qed.
End Commitments.

(** Two lists zipped with one. *)
Lemma zip_same {A B} (R : A → A → Prop) (l l' : list A) (k : list B) :
  Forall2 R l l' → Forall2 (λ p p', R p.1 p'.1 ∧ p.2 = p'.2) (zip l k) (zip l' k).
Proof.
  intros Hl. revert k. induction Hl as [|x x' l l' Hx _ IH]; intros [|y k]; simpl; [constructor..|].
  by constructor.
Qed.

Section Keys.
Context `{A : Arithmetic, B : Blake3, L : Layouter, !Synthesis L} (o o' : HashOrder) `{!HashOrderLaws o, !HashOrderLaws o'}.

Lemma expose_cell_alike instance offset c : alike eq (expose instance offset c) (expose instance offset c).
Proof using Type.
  unfold expose. eapply (alike_bind (λ _ _, True)); [by apply alike_emit|]. intros. by apply alike_ret.
Qed.

Lemma expose_alike instance offset cells : alike eq (lay_fold (expose instance) offset cells) (lay_fold (expose instance) offset cells).
Proof using Type.
  apply (alike_fold eq eq); [|by apply Forall2_same_length_lookup_2; [done|]; intros; congruence|done].
  intros s _ x _ <- <-. apply expose_cell_alike.
Qed.

(** What follows makes a cell and publishes it. *)
Lemma then_expose_alike {S} instance offset (m m' : Lay ErrorFront PoseidonBoundary.AssignedCell) (k k' : nat → Lay ErrorFront S) R :
  alike same_cell m m' → (∀ next, alike R (k next) (k' next)) →
  alike R (let$ c := m in let$ next := expose instance offset (PoseidonBoundary.cell c) in k next)
    (let$ c := m' in let$ next := expose instance offset (PoseidonBoundary.cell c) in k' next).
Proof using Type.
  intros Hm Hk. eapply alike_bind; [exact Hm|]. intros c c' Hc. rewrite Hc.
  eapply alike_bind; [apply expose_cell_alike|]. intros n _ <-. apply Hk.
Qed.

Lemma lookup_tensor_alike (ts ts' : list AssignedTensor) index :
  Forall2 same_tensor ts ts' →
  alike same_tensor (lay_lift (ok_or (ts !! index) synthesis)) (lay_lift (ok_or (ts' !! index) synthesis)).
Proof using Type.
  intros Ht. apply alike_lift. intros t t' E%ok_or_Ok E'%ok_or_Ok. by eapply Forall2_lookup_lr.
Qed.

Lemma expose_constants_alike `{P : PoseidonParameters} instance config offset fields :
  alike eq (expose_constants instance config offset fields) (expose_constants instance config offset fields).
Proof using Type.
  apply (alike_fold eq eq); [|by apply Forall2_same_length_lookup_2; [done|]; intros; congruence|done].
  intros s _ x _ <- <-. eapply alike_bind; [apply assign_constant_alike|]. intros c c' Hc. rewrite Hc.
  apply expose_cell_alike.
Qed.

(** A boundary tensor, bound and committed. *)
Lemma commit_boundary_alike `{P : PoseidonParameters} instance config known known' offset d (l l' : Lay ErrorFront AssignedTensor)
    (check : AssignedTensor → bool) :
  alike same_tensor l l' → (∀ t t', same_tensor t t' → check t = check t') →
  alike eq
    (let$ offset := expose_constants instance config offset (PoseidonBoundary.public_binding_fields d) in
     let$ tensor := l in
     if check tensor then lay_err synthesis else
     let$ c := PoseidonBoundary.commit_assigned config synthesis d (assigned_cells known tensor) in
     expose instance offset (PoseidonBoundary.cell c))
    (let$ offset := expose_constants instance config offset (PoseidonBoundary.public_binding_fields d) in
     let$ tensor := l' in
     if check tensor then lay_err synthesis else
     let$ c := PoseidonBoundary.commit_assigned config synthesis d (assigned_cells known' tensor) in
     expose instance offset (PoseidonBoundary.cell c)).
Proof using Type.
  intros Hl Hcheck. eapply alike_bind; [apply expose_constants_alike|]. intros o1 _ <-.
  eapply alike_bind; [exact Hl|]. intros t t' Ht. rewrite (Hcheck _ _ Ht). destruct (check t'); [apply alike_err_l|].
  eapply alike_bind; [by apply commit_alike, assigned_cells_same|]. intros c c' Hc. rewrite Hc. apply expose_cell_alike.
Qed.

Lemma synthesize_boundary_alike `{P : PoseidonParameters} instance config self self' assigned assigned' :
  params self = params self' → length (leaf_prefix self) = length (leaf_prefix self') →
  Forall2 (λ t t' : list I18, length t = length t') (weight_values (program self)) (weight_values (program self')) →
  same_assigned assigned assigned' →
  alike (λ _ _, True) (synthesize_boundary instance self config assigned) (synthesize_boundary instance self' config assigned').
Proof using Type.
  intros Hp Hleaf Hw (Hi & Hws & Hv). unfold synthesize_boundary. rewrite <-Hp. cbv zeta.
  eapply (alike_bind eq).
  { apply (alike_fold eq (λ _ _, True)); [|by apply Forall2_same_length_lookup_2|done].
    intros s _ x x' <- _. eapply alike_bind; [apply assign_public_value_alike|]. intros c c' Hc. rewrite Hc.
    apply expose_cell_alike. }
  intros offset _ <-. eapply (alike_bind eq).
  { apply (alike_fold eq eq); [|by apply Forall2_same_length_lookup_2; [done|]; intros; congruence|done].
    intros s _ [index d] _ <- <-.
    by apply (commit_boundary_alike _ _ _ _ _ _ _ _ (λ _, false)); [apply lookup_tensor_alike|]. }
  intros offset1 _ <-. apply then_expose_alike; [apply assign_constant_alike|]. intros offset2.
  eapply (alike_bind eq).
  { apply (alike_fold eq eq); [|by apply Forall2_same_length_lookup_2; [done|]; intros; congruence|done].
    intros s _ [index d] _ <- <-.
    apply (commit_boundary_alike _ _ _ _ _ _ _ _
      (λ tensor, negb (length (tensor_cells tensor) =? PoseidonBoundary.element_count d))); [by apply lookup_tensor_alike|].
    by intros t t' [-> _]. }
  intros offset3 _ <-.
  assert (length <$> weight_values (program self) = length <$> weight_values (program self')) as ->
    by (induction Hw; rewrite ?fmap_cons; congruence).
  apply then_expose_alike; [apply assign_constant_alike|]. intros offset4.
  eapply alike_bind; [|intros; by apply alike_ret].
  apply (alike_fold eq (λ p p', same_tensor p.1 p'.1 ∧ p.2 = p'.2)); [|  |done].
  - intros s _ [t e] [t' e'] <- [Ht E]. simpl in Ht, E. subst e'.
    apply (alike_fold eq (λ p p', same_cell p.1 p'.1 ∧ p.2 = p'.2)); [| |done].
    + intros o1 _ [c v] [c' v'] <- [Hc E]. simpl in Hc, E. subst v'. eapply alike_bind; [by apply equal_to_constant_alike|].
      intros _ _ _. rewrite Hc. apply expose_cell_alike.
    + apply zip_same. by apply assigned_cells_same.
  - by apply zip_same.
Qed.

Lemma synthesize_public_alike instance self self' assigned assigned' :
  public_output_indices (params self) = public_output_indices (params self') → same_assigned assigned assigned' →
  alike (λ _ _, True) (synthesize_public instance self assigned) (synthesize_public instance self' assigned').
Proof using Type.
  intros Ho (Hi & Hw & Hv). unfold synthesize_public. rewrite <-Ho. eapply (alike_bind eq).
  { apply (alike_fold eq same_tensor); [|by apply Forall2_app|done]. intros s _ t t' <- [-> _]. apply expose_alike. }
  intros offset _ <-. eapply (alike_bind eq); [|intros; by apply alike_ret].
  apply (alike_fold eq eq); [|by apply Forall2_same_length_lookup_2; [done|]; intros; congruence|done].
  intros s _ index _ <- <-. eapply (alike_bind same_tensor).
  - intros lg lg' d d' Hlg. destruct (virtuals assigned !! index) as [t|] eqn:E; [|done].
    destruct (Forall2_lookup_l _ _ _ _ _ Hv E) as (t' & E' & Ht). rewrite E'. intros [= <-] [= <-]. simpl. split_and!; [done..|constructor].
  - intros t t' [-> _]. apply expose_alike.
Qed.

Lemma synthesize_same `{P : PoseidonParameters} self self' config lg lg' d d' :
  params self = params self' → same_shape (program self) (program self') →
  length (leaf_prefix self) = length (leaf_prefix self') → lg_regions lg = lg_regions lg' →
  synthesize (H0 := o) self config lg = Some (Ok d) → synthesize (H0 := o') self' config lg' = Some (Ok d') →
  same_circuit (dn_calls d) (dn_calls d').
Proof using All.
  intros Hp Hs Hleaf Hlg E1 E2.
  assert (similar (λ _ _, True) (synthesize (H0 := o) self config) (synthesize (H0 := o') self' config)) as Hsim;
    [|by destruct (Hsim _ _ _ _ Hlg E1 E2) as (_ & _ & ?)].
  unfold synthesize. rewrite <-Hp. eapply (similar_bind eq).
  { apply similar_alike. intros r r' e e' Hr. destruct (public_instance _); [|done]. intros [= <-] [= <-]. simpl.
    split_and!; [done..|constructor]. }
  intros instance _ <-. eapply similar_bind; [eapply similar_loads; [apply loads_rms_tables..|]|].
  { by rewrite !hash_order_Permutation. }
  intros [] [] _. eapply (similar_bind same_assigned).
  { apply similar_map_err. intros r r' e e' Hr F1 F2. by eapply (assign_program_same o o'). }
  intros assigned assigned' Ha. apply similar_alike. destruct (_ || _).
  - apply synthesize_boundary_alike; [done..|by destruct Hs|done].
  - apply synthesize_public_alike; [by rewrite Hp|done].
Qed.
End Keys.
