(* ===== verification/ShapeBytes.v ===== *)
(** * Shape bytes

    The canonical bytes of a circuit's parameters determine them: every field is
    written by a prefix-free encoder, and a map by its entries in the order of
    their keys. *)
From Stdlib Require Import SpecFloat.
From S2P Require Import Prelude Ordering Bytes Field FixedPoint Program Circuit Norm Assembler PoseidonBoundary PoseidonProofs ProgramCircuit.
Import Assembler ProgramCircuit.

Open Scope nat_scope.

(** ** Binary64 bits *)

Definition f64_valid (x : f64) : Prop := valid_binary 53 1024 x = true.

Lemma digits2_pos_bounds p : (2 ^ (Z.pos (digits2_pos p) - 1) ≤ Z.pos p < 2 ^ Z.pos (digits2_pos p))%Z.
Proof.
  induction p as [p IH|p IH|]; [..|done]; cbn [digits2_pos]; rewrite Pos2Z.inj_succ.
  - rewrite Z.pow_succ_r by lia. replace (Z.succ (Z.pos (digits2_pos p)) - 1)%Z with (Z.succ (Z.pos (digits2_pos p) - 1)) by lia.
    rewrite Z.pow_succ_r by lia. lia.
  - rewrite Z.pow_succ_r by lia. replace (Z.succ (Z.pos (digits2_pos p)) - 1)%Z with (Z.succ (Z.pos (digits2_pos p) - 1)) by lia.
    rewrite Z.pow_succ_r by lia. lia.
Qed.

(** A finite number is subnormal or normal. *)
Lemma valid_finite s m e :
  f64_valid (S754_finite s m e) →
  (e = -1074 ∧ Z.pos m < 2 ^ 52)%Z ∨ (-1074 ≤ e ≤ 971 ∧ 2 ^ 52 ≤ Z.pos m < 2 ^ 53)%Z.
Proof.
  unfold f64_valid, valid_binary, bounded, canonical_mantissa. intros [Hc He]%andb_true_iff.
  apply Z.leb_le in He. apply Zeq_bool_eq in Hc. unfold fexp, emin in Hc.
  pose proof (digits2_pos_bounds m) as [Hl Hu]. set (k := Z.pos (digits2_pos m)) in *.
  destruct (Z.max_spec (k + e - 53) (3 - 1024 - 53)) as [[Hlt E]|[Hge E]]; rewrite E in Hc.
  - left. split; [lia|]. eapply Z.lt_le_trans; [exact Hu|]. apply Z.pow_le_mono_r; lia.
  - right. assert (k = 53)%Z as Ek by lia. rewrite Ek in Hl, Hu. split; [lia|]. done.
Qed.

(** Sign and magnitude. *)
Definition f64_sign (x : f64) : bool :=
  match x with S754_zero s | S754_infinity s | S754_finite s _ _ => s | S754_nan => false end.
Definition f64_magnitude (x : f64) : Z :=
  match x with
  | S754_zero _ => 0
  | S754_infinity _ => 9218868437227405312
  | S754_nan => 9221120237041090560
  | S754_finite _ m e => if Z.pos m <? 4503599627370496 then Z.pos m else (e + 1075) * 4503599627370496 + (Z.pos m - 4503599627370496)
  end%Z.

Lemma f64_bits_split x : f64_to_bits x = (Z.b2z (f64_sign x) * 9223372036854775808 + f64_magnitude x)%Z.
Proof.
  destruct x as [[]|[]| |s m e]; [reflexivity..|]. unfold f64_to_bits, f64_magnitude, f64_sign.
  change (2 ^ 52)%Z with 4503599627370496%Z. change (2 ^ 63)%Z with 9223372036854775808%Z.
  destruct (Z.pos m <? 4503599627370496)%Z, s; unfold Z.b2z; ring.
Qed.

Lemma valid_finite' s m e :
  f64_valid (S754_finite s m e) →
  (e = -1074 ∧ Z.pos m < 4503599627370496)%Z ∨ (-1074 ≤ e ≤ 971 ∧ 4503599627370496 ≤ Z.pos m < 9007199254740992)%Z.
Proof. exact (valid_finite s m e). Qed.

Lemma f64_magnitude_range x : f64_valid x → (0 ≤ f64_magnitude x < 9223372036854775808)%Z.
Proof.
  destruct x as [s|s| |s m e]; intros Hx; unfold f64_magnitude; try lia. apply valid_finite' in Hx.
  destruct (Z.ltb_spec (Z.pos m) 4503599627370496); lia.
Qed.

Lemma f64_magnitude_inj x y :
  f64_valid x → f64_valid y → f64_sign x = f64_sign y → f64_magnitude x = f64_magnitude y → x = y.
Proof.
  destruct x as [s|s| |s m e], y as [s'|s'| |s' m' e']; intros Hx Hy; unfold f64_magnitude, f64_sign; intros Es Em; subst;
    try done; try (apply valid_finite' in Hx); try (apply valid_finite' in Hy).
  all: try destruct (Z.ltb_spec (Z.pos m) 4503599627370496); try destruct (Z.ltb_spec (Z.pos m') 4503599627370496); try lia.
  - f_equal; lia.
  - f_equal; lia.
Qed.

Lemma f64_to_bits_inj x y : f64_valid x → f64_valid y → f64_to_bits x = f64_to_bits y → x = y.
Proof.
  intros Hx Hy. rewrite !f64_bits_split. pose proof (f64_magnitude_range x Hx). pose proof (f64_magnitude_range y Hy). intros E.
  apply f64_magnitude_inj; [done..| |]; destruct (f64_sign x), (f64_sign y); unfold Z.b2z in E; try done; lia.
Qed.

Lemma f64_to_bits_u64 x : f64_valid x → in_u64 (f64_to_bits x).
Proof.
  intros Hx. rewrite f64_bits_split. pose proof (f64_magnitude_range x Hx). unfold in_u64.
  change u64_max with 18446744073709551615%Z. destruct (f64_sign x); unfold Z.b2z; lia.
Qed.

(** ** Prefix-free encoders *)

Definition usize_ok (n : nat) : Prop := in_u64 (Z.of_nat n).

#[export] Instance encode_usize_prefix_free : PrefixFree usize_ok encode_usize.
Proof.
  intros a b r s Ha Hb E. apply (prefix_free (enc := encode_u64)) in E as [E Er]; [|done..]. split; [lia|done].
Qed.
#[export] Instance encode_usizes_prefix_free : PrefixFree (seq_ok usize_ok) encode_usizes.
Proof. exact (encode_seq_prefix_free usize_ok encode_usize). Qed.
#[export] Instance encode_string_prefix_free : PrefixFree text_ok encode_string.
Proof. exact encode_text_prefix_free. Qed.
#[export] Instance encode_tensor_prefix_free : PrefixFree (seq_ok in_i64) encode_tensor.
Proof. exact (encode_seq_prefix_free in_i64 encode_i64). Qed.
#[export] Instance encode_bool_prefix_free : PrefixFree (λ _, True) encode_bool.
Proof. apply (prefix_free_fixed _ _ 1); [done|]. by intros [] []. Qed.

#[global] Typeclasses Opaque encode_usize encode_usizes encode_string encode_tensor encode_bool.
#[global] Arguments encode_usize : simpl never.
#[global] Arguments encode_usizes : simpl never.
#[global] Arguments encode_string : simpl never.
#[global] Arguments encode_tensor : simpl never.
#[global] Arguments encode_bool : simpl never.
#[global] Arguments byte_of_Z : simpl never.

(** A one-byte tag: the tags agree, and so does what follows. *)
Ltac peel_byte E := apply app_inj_1 in E as [? E]; [|done].
(** A counted list written in two parts. *)
Lemma peel_seq {X} (Q : X → Prop) (enc : X → bytes) `{!PrefixFree Q enc} l k r s :
  seq_ok Q l → seq_ok Q k →
  encode_usize (length l) ++ mjoin (enc <$> l) ++ r = encode_usize (length k) ++ mjoin (enc <$> k) ++ s → l = k ∧ r = s.
Proof.
  intros Hl Hk E. apply (prefix_free (enc := encode_seq enc)); [done..|].
  unfold encode_seq. rewrite <-!app_assoc. exact E.
Qed.
Ltac peel_list Q enc E := apply (peel_seq Q enc) in E as [? E]; [|done..].

#[export] Instance encode_boundary_descriptor_prefix_free : PrefixFree descriptor_ok encode_boundary_descriptor.
Proof.
  intros d d' r s [(Hn & Hm & Hr & He & Hg)%descriptor_validate_Ok Hq] [(Hn' & Hm' & Hr' & He' & Hg')%descriptor_validate_Ok Hq'] E.
  assert (usize_ok (PoseidonBoundary.element_count d)) by (unfold usize_ok; change PoseidonBoundary.MAX_BOUNDARY_ELEMENTS with 8192%Z in *; zlia).
  assert (usize_ok (PoseidonBoundary.element_count d')) by (unfold usize_ok; change PoseidonBoundary.MAX_BOUNDARY_ELEMENTS with 8192%Z in *; zlia).
  unfold encode_boundary_descriptor in E. rewrite <-!app_assoc in E. apply app_inv_head in E.
  apply app_inj_1 in E as [Erole E]; [|done]. peel E. peel_list text_ok encode_string E. peel_list text_ok encode_string E.
  apply (prefix_free (enc := encode_usize)) in E as [? E]; [|done..].
  apply (prefix_free (enc := encode_u64)) in E as [? E]; [|done..]. split; [|done].
  destruct d as [ro ri ei gn [] [n] q], d' as [ro' ri' ei' gn' [] [n'] q']. unfold PoseidonBoundary.element_count in *. simpl in *.
  assert (ro = ro') as -> by (by destruct ro, ro'; vm_compute in Erole). by subst.
Qed.

#[export] Instance encode_register_prefix_free :
  PrefixFree (λ r, usize_ok (match r with Input i | Weight i | Virtual i => i end)) encode_register.
Proof.
  intros a b r s Ha Hb E. destruct a, b; cbn [encode_register] in E; rewrite <-!app_assoc in E; try discriminate E;
    peel_byte E; apply (prefix_free (enc := encode_usize)) in E as [-> ->]; done.
Qed.

Definition operation_ok (instr : Instruction) : Prop :=
  match instr with
  | DotGeneral m n k batch_dims _ _ => usize_ok m ∧ usize_ok n ∧ usize_ok k ∧ seq_ok usize_ok batch_dims
  | Softmax n | Reduce _ n => usize_ok n
  | LayerNorm dim eps | Program.RmsNorm dim eps => usize_ok dim ∧ in_u64 eps
  | EmbedLookup n m | PatchEmbed n m => usize_ok n ∧ usize_ok m
  | Gelu | Eltwise _ => True
  end.

Lemma usizes_ok l : length l < 4 → Forall usize_ok l → seq_ok usize_ok l.
Proof. intros Hl Hf. split; [zlia|done]. Qed.

#[export] Instance encode_operation_prefix_free : PrefixFree operation_ok encode_operation.
Proof.
  intros a b r s Ha Hb E. destruct a, b; cbn [encode_operation operation_ok] in *; rewrite <-?app_assoc in E;
    try (exfalso; clear Ha Hb; discriminate E).
  - peel_byte E. destruct Ha as (? & ? & ? & ?), Hb as (? & ? & ? & ?).
    apply (prefix_free (enc := encode_usizes)) in E as [[= -> -> ->] E]; [|apply usizes_ok; [simpl; lia|by repeat (constructor; [done|])]..].
    do 3 (apply prefix_free in E as [-> E]; [|done..]). done.
  - peel_byte E. by apply (prefix_free (enc := encode_usize)) in E as [-> ->].
  - by peel_byte E.
  - peel_byte E. destruct Ha, Hb. peel E. peel E. by subst.
  - peel_byte E. destruct Ha, Hb. peel E. peel E. by subst.
  - destruct op, op0; try discriminate E; apply app_inj_1 in E as [_ ->]; done.
  - destruct op, op0; try discriminate E; apply app_inj_1 in E as [_ E]; try done; by apply (prefix_free (enc := encode_usize)) in E as [-> ->].
  - peel_byte E. destruct Ha, Hb.
    by apply (prefix_free (enc := encode_usizes)) in E as [[= -> ->] E]; [|apply usizes_ok; [simpl; lia|by repeat (constructor; [done|])]..].
  - peel_byte E. destruct Ha, Hb.
    by apply (prefix_free (enc := encode_usizes)) in E as [[= -> ->] E]; [|apply usizes_ok; [simpl; lia|by repeat (constructor; [done|])]..].
Qed.

Definition instruction_ok (instr : AssemblerInstruction) : Prop :=
  seq_ok (λ r, usize_ok (match r with Input i | Weight i | Virtual i => i end)) (inputs instr) ∧ operation_ok (instruction instr).

#[export] Instance encode_instruction_prefix_free : PrefixFree instruction_ok encode_instruction.
Proof.
  intros [ia ra] [ib rb] r s [Har Hai] [Hbr Hbi] E. unfold encode_instruction in E. cbn [inputs instruction] in *.
  rewrite <-!app_assoc in E. apply (peel_seq _ encode_register) in E as [-> E]; [|done..].
  by apply (prefix_free (enc := encode_operation)) in E as [-> ->].
Qed.

Definition domain_ok (entry : (nat * Z) * Rsqrt.RsqrtDomain) : Prop :=
  usize_ok entry.1.1 ∧ in_u64 entry.1.2 ∧
  match entry.2 with
  | Rsqrt.Range min max n => f64_valid min ∧ f64_valid max ∧ usize_ok n
  | Rsqrt.RawAnchors anchors => seq_ok in_i64 anchors
  end.

#[export] Instance encode_domain_prefix_free : PrefixFree domain_ok encode_domain.
Proof.
  intros [[dim eps] a] [[dim' eps'] b] r s (Hd & He & Ha) (Hd' & He' & Hb) E. unfold encode_domain in E. cbn [fst snd] in *.
  rewrite <-!app_assoc in E. do 2 (apply prefix_free in E as [-> E]; [|done..]).
  destruct a as [min max n|anchors], b as [min' max' n'|anchors']; rewrite <-!app_assoc in E; try discriminate E; peel_byte E.
  - destruct Ha as (Hmin & Hmax & Hn), Hb as (Hmin' & Hmax' & Hn').
    apply (prefix_free (enc := encode_u64)) in E as [->%f64_to_bits_inj E]; [|by auto using f64_to_bits_u64..].
    apply (prefix_free (enc := encode_u64)) in E as [->%f64_to_bits_inj E]; [|by auto using f64_to_bits_u64..].
    by apply (prefix_free (enc := encode_usize)) in E as [-> ->].
  - by apply (peel_seq in_i64 encode_i64) in E as [-> ->].
Qed.

Definition encode_mode (mode : bool) : bytes :=
  PoseidonBoundary.zero_terminated
    (if mode then "public-instances-v1:inputs,weights,selected-outputs"
     else "public-instances-v2:leaf,input-commitments,output-commitments,weights").

#[export] Instance encode_mode_prefix_free : PrefixFree (λ _, True) encode_mode.
Proof.
  assert (∀ r s, encode_mode true ++ r ≠ encode_mode false ++ s) as Hne.
  { intros r s E. apply (f_equal (.!! 18)) in E. rewrite !lookup_app_l in E by (apply Nat.ltb_lt; vm_compute; done).
    vm_compute in E. discriminate E. }
  intros [] [] r s _ _ E; [by apply app_inv_head in E|by apply Hne in E|symmetry in E; by apply Hne in E|by apply app_inv_head in E].
Qed.

#[export] Instance encode_output_prefix_free :
  PrefixFree (λ e : nat * PoseidonBoundary.BoundaryDescriptor, usize_ok e.1 ∧ descriptor_ok e.2)
    (λ '(index, descriptor), encode_usize index ++ encode_boundary_descriptor descriptor).
Proof.
  intros [i d] [j e] r s [Hi Hd] [Hj He] E. rewrite <-!app_assoc in E. cbn [fst snd] in *.
  apply (prefix_free (enc := encode_usize)) in E as [-> E]; [|done..].
  by apply (prefix_free (enc := encode_boundary_descriptor)) in E as [-> ->].
Qed.

(** ** Parameters *)

(** What the field types guarantee, and construction validates. *)
Record params_ok (params : AssemblerCircuitParams) : Prop := {
  po_inputs : seq_ok usize_ok (input_shapes params);
  po_weights : seq_ok usize_ok (weight_shapes params);
  po_outputs : seq_ok usize_ok (public_output_indices params);
  po_leaf : usize_ok (leaf_prefix_len params);
  po_boundary_inputs : seq_ok descriptor_ok (boundary_inputs params);
  po_boundary_outputs : seq_ok (λ e, usize_ok e.1 ∧ descriptor_ok e.2) (boundary_outputs params);
  po_fixed : seq_ok (seq_ok in_i64) (fixed_public_weights params);
  po_instructions : seq_ok instruction_ok (params_instructions params);
  po_domains : seq_ok domain_ok (sorted_domains params)
}.

Lemma sorted_domains_inj params params' :
  sorted_domains params = sorted_domains params' → rms_norm_domains params = rms_norm_domains params'.
Proof.
  intros E. apply map_to_list_inj. unfold sorted_domains in E.
  rewrite <-(sort_by_Permutation (λ x y, key_compare x.1 y.1) (map_to_list (rms_norm_domains params))), E.
  apply sort_by_Permutation.
Qed.

Lemma canonical_shape_bytes_inj params params' :
  params_ok params → params_ok params' → canonical_shape_bytes params = canonical_shape_bytes params' → params = params'.
Proof.
  intros [] [] E. unfold canonical_shape_bytes in E. apply app_inv_head in E.
  apply (prefix_free (enc := encode_mode)) in E as [_ E]; [|done..].
  do 3 (apply (prefix_free (enc := encode_usizes)) in E as [? E]; [|done..]).
  apply (prefix_free (enc := encode_usize)) in E as [? E]; [|done..].
  peel_list descriptor_ok encode_boundary_descriptor E.
  apply (peel_seq _ (λ '(index, descriptor), encode_usize index ++ encode_boundary_descriptor descriptor)) in E as [? E]; [|done..].
  peel_list (seq_ok in_i64) encode_tensor E. peel_list instruction_ok encode_instruction E.
  rewrite <-(app_nil_r (mjoin (encode_domain <$> sorted_domains params))),
    <-(app_nil_r (mjoin (encode_domain <$> sorted_domains params'))) in E.
  apply (peel_seq domain_ok encode_domain) in E as [Ed%sorted_domains_inj _]; [|done..].
  destruct params, params'; simpl in *. by subst.
Qed.
