(* ===== verification/Concrete.v ===== *)
(** * Concrete circuits

    Third parties to compute with, a small program, and its circuits, whose runs and
    grids are checked by evaluation. *)
From S2P Require Import Prelude Field FixedPoint Circuit CircuitLogic RangeCheck Eltwise DotProduct Honest Ordering.
From S2P Require Import Bytes Program PoseidonBoundary PoseidonProofs Assembler Evaluate AssemblerHonest ProgramCircuit ProgramCircuitProofs.

(** ** Checking a concrete circuit

    Whether a grid satisfies the calls of a run, decided by evaluation: each call
    is checked on its own.  Used on concrete circuits, whose grid is the one that
    an honest prover fills in and whose public values are those it exposes. *)

Open Scope nat_scope.

(** Public positions, and the cells exposed there. *)
Definition public_cells (calls : list Call) : list ((Column * Z) * Cell) :=
  omap (λ c, match c with Public cell instance row => Some ((instance, Z.of_nat row), cell) | _ => None end) calls.

Definition find_at {X} (l : list ((Column * Z) * X)) (column : Column) (row : Z) : option X :=
  match find (λ kv, same_position kv.1 (column, row)) l with Some kv => Some kv.2 | None => None end.

(** The grid of the known cells, and of what is exposed. *)
Definition exposed_grid (planner : nat → Z) (calls : list Call) : Column → Z → Fr :=
  let known := known_cells planner calls in
  let public := public_cells calls in
  λ column row,
    let p := match find_at public column row with Some c => position planner c | None => (column, row) end in
    default Zmod.zero (find_at known p.1 p.2).

Section Check.
Context (planner : nat → Z) (grid : Column → Z → Fr) (cs : ConstraintSystem) (log : list Call).

(** Only rows that start with the right value are looked at. *)
Definition in_table_check (tuple : list (Fr * TableColumn)) : bool :=
  existsb (λ c, match c with
    | Table t i v =>
        if match tuple with (v', t') :: _ => if t =? t' then Zmod.eqb v v' else false | [] => true end
        then holds_row log tuple i else false
    | _ => false end) log.

Definition call_check (c : Call) : bool :=
  match c with
  | Enable s region o =>
      let row := advice_at grid (planner region + Z.of_nat o) in
      forallb (λ g, if gate_selector g =? s then forallb (λ p, Zmod.eqb p Zmod.zero) (gate_polys g Zmod.one row) else true) (cs_gates cs) &&
      forallb (λ l, if lookup_selector l =? s then in_table_check (lookup_inputs l Zmod.one row) else true) (cs_lookups cs)
  | Equal a b => Zmod.eqb (cell_value planner grid a) (cell_value planner grid b)
  | Public c instance row => Zmod.eqb (cell_value planner grid c) (grid instance (Z.of_nat row))
  | Fixed c v => Zmod.eqb (cell_value planner grid c) v
  | _ => true
  end.

Lemma in_table_check_sound tuple : in_table_check tuple = true → in_table log tuple.
Proof.
  unfold in_table_check. intros (c & _ & Hc)%existsb_exists. destruct c as [| | |t i v| |]; try done. exists i.
  destruct (match tuple with [] => _ | _ => _ end); [|done].
  unfold holds_row in Hc. rewrite forallb_forall in Hc. apply Forall_forall. intros [v' t'] Hin%list_elem_of_In%Hc.
  by apply holds_entry_sound.
Qed.

Lemma call_check_sound c : call_check c = true → call_ok planner grid cs log c.
Proof.
  destruct c as [s region o| |a b| |c instance row|c v]; simpl; try done; [|by intros ?%Zmod.eqb_eq..].
  rewrite andb_true_iff, !forallb_forall. intros [Hg Hl]. split.
  - intros g Hin%list_elem_of_In%Hg <-. rewrite Nat.eqb_refl, forallb_forall in Hin. apply Forall_forall.
    intros p Hp%list_elem_of_In%Hin. by apply Zmod.eqb_eq.
  - intros l Hin%list_elem_of_In%Hl <-. rewrite Nat.eqb_refl in Hin. by apply in_table_check_sound.
Qed.

Definition satisfied_check : bool := forallb (λ l, in_table_check (off_tuple l)) (cs_lookups cs) && forallb call_check log.

Lemma satisfied_check_sound : cs_ok cs → satisfied_check = true → satisfied planner grid cs log.
Proof.
  intros Hcs [Hp Hc]%andb_true_iff. rewrite forallb_forall in Hp, Hc. apply satisfied_intro; [done| |].
  { intros l Hl%list_elem_of_In%Hp. by apply in_table_check_sound. }
  apply Forall_forall. intros c Hin%list_elem_of_In%Hc. by apply call_check_sound.
Qed.
End Check.

(** A configuration that succeeds, a run that does, and a grid that satisfies it. *)
Definition checked `{Layouter} {A E B} (m : Meta A) (main : A → Lay E B) (also : A → ConstraintSystem → Done B → (Column → Z → Fr) → bool) : bool :=
  match m empty_cs with
  | Some (config, cs) =>
      match main config empty_log with
      | Some (Ok d) =>
          let grid := exposed_grid spread (dn_calls d) in
          satisfied_check spread grid cs (dn_calls d) && also config cs d grid
      | _ => false
      end
  | None => false
  end.

Lemma checked_circuit `{Layouter} {A E B} (m : Meta A) (main : A → Lay E B) also (I : ConstraintSystem → A → Prop) :
  checked m main also = true → (∀ final, mwp final m (I final)) →
  ∃ config cs d, configured m cs config ∧ cs_ok cs ∧ main config empty_log = Some (Ok d) ∧
    satisfied spread (exposed_grid spread (dn_calls d)) cs (dn_calls d) ∧
    also config cs d (exposed_grid spread (dn_calls d)) = true.
Proof.
  unfold checked. intros Hc Hm. destruct (m empty_cs) as [[config cs]|] eqn:Em; [|done].
  destruct (main config empty_log) as [[d|]|] eqn:Er; [|done..]. apply andb_true_iff in Hc as [Hs Ha].
  destruct (Hm cs _ _ _ Em) as (Hok & _ & _). assert (cs_ok cs) as Hcs by apply Hok, empty_cs_ok.
  exists config, cs, d. split_and!; [by eexists empty_cs, cs|done|done|by apply satisfied_check_sound|done].
Qed.

Open Scope nat_scope.

Section Boundary.
Import PoseidonBoundary.

(** Toy third parties: a digest that keeps the first 32 bytes, three rounds of
    permutation, and the host hash that the permutation defines. *)
Definition toy_blake3 : Blake3 := λ b, take 32 (b ++ repeat (byte_of_Z 0) 32).
Definition toy_parameters : PoseidonParameters :=
  {| full_rounds := 2; partial_rounds := 1; ark i := fr (Z.of_nat i + 1); mds i j := fr (Z.of_nat (i * 2 + j) + 1) |}.
Definition toy_hasher : PoseidonHasher := compress (H := toy_parameters).

Lemma toy_blake3_digest b : digest_ok (blake3 (Blake3 := toy_blake3) b).
Proof. unfold digest_ok, blake3, toy_blake3. rewrite length_take, length_app, repeat_length. lia. Qed.
Lemma toy_laws : PoseidonLaws toy_parameters toy_hasher.
Proof. done. Qed.

Definition toy_descriptor : BoundaryDescriptor :=
  mkBoundaryDescriptor Output "r7" ["edge-1"; "edge-2"] ["logits"] DTypeI18 (FlatElementCountOnly 2) 1000000000000000000.

(** Two cells, and what is made of them. *)
Definition of_two `{Layouter} {E A} (m1 m2 : Lay E A) (k : list A → Lay E A) : Lay E (A * A * A) :=
  let$ x := m1 in
  let$ y := m2 in
  let$ out := k [x; y] in
  lay_ret (x, y, out).
Lemma of_two_returned `{Layouter} {E A} (m1 m2 : Lay E A) k d : run (of_two m1 m2 k) = Some d →
  ∃ lg, returned (k [(dn_value d).1.1; (dn_value d).1.2]) lg (dn_calls d) (dn_value d).2.
Proof.
  intros Hr%run_returned. unfold of_two in Hr.
  apply returned_bind in Hr as (x & l1 & _ & Hr). apply returned_bind in Hr as (y & l2 & _ & Hr).
  apply returned_bind in Hr as (out & l3 & Hret & n & c & Er & _).
  exists l2. unfold lay_ret in Er. by injection Er as <- _ _.
Qed.

Lemma run_Some `{Layouter} {E A} (m : Lay E A) d : m empty_log = Some (Ok d) → run m = Some d.
Proof. unfold run. by intros ->. Qed.

End Boundary.

(** Maps that yield their entries in order, and in the opposite one. *)
Definition ordered : HashOrder := λ _ l, l.
Definition reversed : HashOrder := λ _ l, rev l.
Lemma ordered_laws : HashOrderLaws ordered.
Proof. by intros A l. Qed.
Lemma reversed_laws : HashOrderLaws reversed.
Proof. intros A l. symmetry. apply Permutation_rev. Qed.

Definition toy_synthesis : Synthesis free_layouter := tt.
Lemma toy_roomy : Roomy free_layouter.
Proof. by intros calls c. Qed.

(** ** Checks *)

Section Checks.
Context (grid : Column → Z → Fr).

Definition published_check (instance : Column) (offset : nat) (vs : list Fr) : bool :=
  forallb (λ iv, Zmod.eqb (grid instance (Z.of_nat (offset + iv.1))) iv.2) (enumerate vs).
Lemma published_check_sound instance offset vs : published_check instance offset vs = true → published grid instance offset vs.
Proof.
  unfold published_check. rewrite forallb_forall. intros Hall i v Hi. apply Zmod.eqb_eq.
  apply (Hall (i, v)), list_elem_of_In, (list_elem_of_lookup_2 _ i). by rewrite lookup_enumerate, Hi.
Qed.

Definition agrees_check (planner : nat → Z) (calls : list Call) : bool :=
  forallb (λ c, match c with Assign c (Some v) => Zmod.eqb (cell_value planner grid c) v | _ => true end) calls.
Lemma agrees_check_sound planner calls : agrees_check planner calls = true → agrees planner grid calls.
Proof. unfold agrees_check. rewrite forallb_forall. intros Hall c v Hin%list_elem_of_In%Hall. by apply Zmod.eqb_eq. Qed.
End Checks.

(** ** A program *)

Section Program.
Import Assembler.

(** [Add(DotGeneral(Input 0, Weight 0), Weight 1)]. *)
Definition small_program : AssemblerProgram := mkAssemblerProgram
  [mkAssemblerInstruction (DotGeneral 1 1 2 [] false false) [Input 0; Weight 0];
   mkAssemblerInstruction (Program.Eltwise Add) [Virtual 0; Weight 1]]
  [[I18_ 100000000000000000; I18_ 200000000000000000]]
  [[I18_ 200000000000000000; I18_ 500000000000000000]; [I18_ 500000000000000000]].
(** The same shapes, other numbers. *)
Definition small_program' : AssemblerProgram := mkAssemblerProgram (instructions small_program)
  [[I18_ 300000000000000000; I18_ (-1)]] [[I18_ 700000000000000000; I18_ 0]; [I18_ 1]].

Definition small_virts : list (list I18) := [[I18_ 120000000000000000]; [I18_ 620000000000000000]].

Lemma small_rms_free : rms_free (instructions small_program).
Proof. repeat constructor; discriminate. Qed.
Lemma small_typed : typed_program small_program.
Proof. split; repeat constructor; vm_compute; discriminate. Qed.
Lemma small_evaluates :
  eval_program checked_total (input_values small_program) (weight_values small_program) (instructions small_program) [] = Some small_virts.
Proof. vm_cast_no_check (eq_refl (Some small_virts)). Qed.
End Program.
