(* ===== verification/BoundaryTheorems.v ===== *)
(** * What a boundary commitment says

    The chip's commitment is the host's; a commitment binds the values it was made
    from, and the binding fields the whole descriptor. *)
From S2P Require Import Prelude Bytes Field FixedPoint Circuit CircuitLogic Eltwise EltwiseProofs Honest PoseidonBoundary PoseidonProofs ProgramCircuit ShapeBytes Concrete.
Import PoseidonBoundary.

Open Scope nat_scope.

Section Theorems.
Context `{B : Blake3, PH : PoseidonHasher}.

(** C15. The commitment made in a circuit is the one made on the host.  In a
    satisfied circuit, if the cells given to [commit_assigned] hold the fixed-point
    numbers of a tensor, then [commit_boundary_native] accepts the tensor and its
    result is what the returned cell holds; whatever was assigned. *)
Theorem circuit_commitment_native `{P : PoseidonParameters, L : Layouter} planner grid cs log config lg synthesis d cells out values :
  PoseidonLaws P PH →
  configured configure cs config → satisfied planner grid cs log →
  returned (commit_assigned config synthesis d cells) lg log out →
  Forall2 (plain planner grid) (cell <$> cells) (raw <$> values) →
  commit_boundary_native d values = Ok (cell_value planner grid (cell out)).
Proof.
  intros Hlaws Hcfg Hsat%satisfied_log_ok Hret Hcells.
  pose proof (configured_mwp _ _ _ _ Hcfg (poseidon_configure_ok _)) as Hinst.
  destruct (returned_wp _ _ _ _ _ _ Hret (commit_assigned_sound planner grid cs log config Hinst Hsat synthesis d cells)) as (Hv & Hl & E).
  pose proof (Forall2_length _ _ _ Hcells) as Hlen. rewrite !length_fmap in Hlen.
  rewrite commit_native_fold by (done || by rewrite <-Hlen). rewrite commitment_compress, E. do 2 f_equal. clear - Hcells.
  revert cells Hcells. induction values as [|v values IH]; intros [|c cells] Hf; inversion Hf as [|? ? ? ? [_ Hc] Hrest]; subst; [done|].
  rewrite !fmap_cons, (IH _ Hrest). by rewrite Hc, i64_to_fr_eq.
Qed.

Lemma encoded_values_inj (values values' : list I18) :
  Forall in_I18 values → Forall in_I18 values' →
  (λ v, i64_to_fr (raw v)) <$> values = (λ v, i64_to_fr (raw v)) <$> values' → values = values'.
Proof using Type.
  intros Ht. revert values'. induction Ht as [|[x] values Hx _ IH]; intros [|[y] values'] Ht' E; try done.
  apply Forall_cons_1 in Ht' as [Hy Ht']. rewrite !fmap_cons in E.
  pose proof (f_equal (λ l, hd Zmod.zero l) E) as E1. pose proof (f_equal tail E) as E2. cbn [hd tail] in E1, E2.
  rewrite (IH _ Ht' E2). rewrite !i64_to_fr_eq in E1. unfold in_I18, raw in *. simpl in *. do 2 f_equal.
  apply fr_inj; [done|]. pose proof bn254_order_large. zlia.
Qed.

(** C16. A commitment binds.  Two tensors with one commitment, under descriptors
    that validate, are one tensor with one length, scale and register; or two
    different pairs among those compressed for them have one image; or the two
    register names have one BLAKE3 digest; or the tensors have different lengths
    and one of the compressed pairs is a preimage of the protocol's domain
    constant.  The last is no collision: the chain of the longer tensor could come
    back to the constant and go on as the chain of the shorter one.  Tensors of one
    length are bound up to collisions alone. *)
Theorem boundary_commitment_binds d d' values values' c :
  (∀ b, digest_ok (blake3 b)) → descriptor_ok d → descriptor_ok d' → Forall in_I18 values → Forall in_I18 values' →
  commit_boundary_native d values = Ok c → commit_boundary_native d' values' = Ok c →
  let fields d (values : list I18) := folded poseidon_hash protocol_domain (committed d ((λ v, i64_to_fr (raw v)) <$> values)) in
  colliding poseidon_hash (fields d values) (fields d' values') ∨
  (element_count d ≠ element_count d' ∧
   ∃ p, p ∈ fields d values ++ fields d' values' ∧ poseidon_hash p.1 p.2 = protocol_domain) ∨
  (register_id d ≠ register_id d' ∧ blake3 (identity_preimage (register_id d)) = blake3 (identity_preimage (register_id d'))) ∨
  (register_id d = register_id d' ∧ element_count d = element_count d' ∧ quantization_scale d = quantization_scale d' ∧ values = values').
Proof.
  intros Hdig [Hv Hq] [Hv' Hq'] Ht Ht' (_ & Hl & E)%commit_native_Ok (_ & Hl' & E')%commit_native_Ok fields. subst c.
  destruct (commitment_binding _ _ _ _ _ E') as [Hcol|[[Hne Hpre]|[Ec Ev]]]; [by left| |].
  { right. left. split; [|exact Hpre]. intros En. apply Hne. rewrite !length_fmap. congruence. }
  right. right.
  apply descriptor_validate_Ok in Hv as (_ & _ & Hr & _), Hv' as (_ & _ & Hr' & _). unfold canonical_fields in Ec.
  pose proof (f_equal (λ l, nth 4 l Zmod.zero) Ec) as Es. apply app_inj_1 in Ec as [_ Ei]; [|done]. cbn [nth app] in Es.
  apply digest_fields_inj in Ei; [|apply Hdig..].
  destruct (decide (identity_preimage (register_id d) = identity_preimage (register_id d'))) as [Hid|Hne].
  2: { left. split; [|done]. intros Er. by rewrite Er in Hne. }
  right. apply identity_preimage_inj in Hid; [|done..]. apply encoded_values_inj in Ev; [|done..].
  split_and!; [done|congruence| |done]. apply fr_inj; [done|]. pose proof bn254_order_large. zlia.
Qed.

(** The two binding fields of a descriptor determine its role, register,
    routing identities, length and scale, unless the two preimages collide. *)
Theorem binding_fields_determine_descriptor d d' :
  (∀ b, digest_ok (blake3 b)) → descriptor_ok d → descriptor_ok d' →
  public_binding_fields d = public_binding_fields d' →
  d = d' ∨ (binding_preimage d ≠ binding_preimage d' ∧ blake3 (binding_preimage d) = blake3 (binding_preimage d')).
Proof.
  intros Hdig Hd Hd' E%digest_fields_inj; [|apply Hdig..].
  destruct (decide (binding_preimage d = binding_preimage d')) as [Hp|Hne]; [left; by apply binding_preimage_inj|by right].
Qed.

(** A shape digest determines the parameters of the circuit, instructions,
    domains, shapes, boundaries and fixed weights, unless the two preimages collide. *)
Theorem shape_digest_determines_params params params' :
  params_ok params → params_ok params' →
  ProgramCircuit.shape_digest params = ProgramCircuit.shape_digest params' →
  params = params' ∨ (ProgramCircuit.canonical_shape_bytes params ≠ ProgramCircuit.canonical_shape_bytes params' ∧
    blake3 (ProgramCircuit.canonical_shape_bytes params) = blake3 (ProgramCircuit.canonical_shape_bytes params')).
Proof.
  intros Hp Hp' E. unfold ProgramCircuit.shape_digest in E.
  destruct (decide (ProgramCircuit.canonical_shape_bytes params = ProgramCircuit.canonical_shape_bytes params')) as [Hb|Hne];
    [left; by apply canonical_shape_bytes_inj|by right].
Qed.
End Theorems.

(** ** Concrete instances *)

Section Instance.
#[local] Existing Instance toy_blake3.
#[local] Existing Instance toy_parameters.
#[local] Existing Instance toy_hasher.

Lemma toy_descriptor_ok : descriptor_ok toy_descriptor.
Proof. split; [reflexivity|]. simpl. zlia. Qed.

Definition toy_values : list I18 := [I18_ 1500000000000000000; I18_ (-2)].

Definition commit_run (config : PoseidonBoundaryConfig) : Lay (ErrorFront (Layouter := free_layouter)) (AssignedCell * AssignedCell * AssignedCell) :=
  of_two (assign_public_value config (i64_to_fr 1500000000000000000)) (assign_public_value config (i64_to_fr (-2)))
    (commit_assigned config tt toy_descriptor).
Definition commit_cells (config : PoseidonBoundaryConfig) (cs : ConstraintSystem) (d : Done (AssignedCell * AssignedCell * AssignedCell)) (grid : Column → Z → Fr) : bool :=
  let '(x, y, _) := dn_value d in
  Zmod.eqb (cell_value spread grid (cell x)) (fr 1500000000000000000) && Zmod.eqb (cell_value spread grid (cell y)) (fr (-2)).

Lemma commit_checked : checked configure commit_run commit_cells = true.
Proof. vm_cast_no_check (eq_refl true). Qed.

Lemma is_ok_Ok {A E} (r : Result A E) : is_ok r = true → ∃ a, r = Ok a.
Proof. destruct r; [by eexists|done]. Qed.

Lemma toy_committed : is_ok (commit_boundary_native toy_descriptor toy_values) = true.
Proof. vm_cast_no_check (eq_refl true). Qed.
Lemma toy_in_I18 : Forall in_I18 toy_values.
Proof. repeat constructor; vm_compute; discriminate. Qed.

Lemma commit_run_known config cs d grid : run (commit_run config) = Some d → commit_cells config cs d grid = true →
  Forall2 (plain spread grid) (cell <$> [(dn_value d).1.1; (dn_value d).1.2]) (raw <$> toy_values).
Proof.
  intros _ Hcells. unfold commit_cells in Hcells. destruct (dn_value d) as [[x y] out].
  apply andb_true_iff in Hcells as [Hx%Zmod.eqb_eq Hy%Zmod.eqb_eq].
  constructor; [|constructor; [|constructor]]; (split; [vm_compute; split; discriminate|]); [exact Hx|exact Hy].
Qed.

Lemma commit_accepted : ∃ config cs d, configured configure cs config ∧ cs_ok cs ∧ commit_run config empty_log = Some (Ok d) ∧
  satisfied spread (exposed_grid spread (dn_calls d)) cs (dn_calls d) ∧ commit_cells config cs d (exposed_grid spread (dn_calls d)) = true.
Proof. exact (checked_circuit configure commit_run commit_cells _ commit_checked poseidon_configure_ok). Qed.

Lemma commit_run_returned config d : run (commit_run config) = Some d →
  ∃ lg, returned (commit_assigned config tt toy_descriptor [(dn_value d).1.1; (dn_value d).1.2]) lg (dn_calls d) (dn_value d).2.
Proof. exact (of_two_returned _ _ (commit_assigned config tt toy_descriptor) d). Qed.

Lemma commit_case : ∃ config cs grid calls lg x y out,
  configured configure cs config ∧ satisfied spread grid cs calls ∧
  returned (commit_assigned config tt toy_descriptor [x; y]) lg calls out ∧
  Forall2 (plain spread grid) (cell <$> [x; y]) (raw <$> toy_values).
Proof.
  destruct commit_accepted as (config & cs & d & Hcfg & _ & Hr & Hsat & Hcells).
  pose proof (run_Some (commit_run config) d Hr) as Hrun. destruct (commit_run_returned config d Hrun) as [lg Hret].
  exists config, cs, (exposed_grid spread (dn_calls d)), (dn_calls d), lg, (dn_value d).1.1, (dn_value d).1.2, (dn_value d).2.
  exact (conj Hcfg (conj Hsat (conj Hret (commit_run_known config cs d _ Hrun Hcells)))).
Qed.

Example circuit_commitment_native_witness :
  ∃ grid out, commit_boundary_native toy_descriptor toy_values = Ok (cell_value spread grid (cell out)).
Proof.
  destruct commit_case as (config & cs & grid & calls & lg & x & y & out & Hcfg & Hsat & Hret & Hcells). exists grid, out.
  exact (circuit_commitment_native (L := free_layouter) spread grid cs calls config lg tt toy_descriptor [x; y] out toy_values
    toy_laws Hcfg Hsat Hret Hcells).
Defined.

Example boundary_commitment_binds_witness :
  ∃ c, commit_boundary_native toy_descriptor toy_values = Ok c ∧
  let fields d (values : list I18) := folded poseidon_hash protocol_domain (committed d ((λ v, i64_to_fr (raw v)) <$> values)) in
  colliding poseidon_hash (fields toy_descriptor toy_values) (fields toy_descriptor toy_values) ∨
  (2 ≠ 2 ∧ ∃ p, p ∈ fields toy_descriptor toy_values ++ fields toy_descriptor toy_values ∧ poseidon_hash p.1 p.2 = protocol_domain) ∨
  ("r7" ≠ "r7" ∧ blake3 (identity_preimage "r7") = blake3 (identity_preimage "r7")) ∨
  ("r7" = "r7" ∧ 2 = 2 ∧ (1000000000000000000 = 1000000000000000000)%Z ∧ toy_values = toy_values).
Proof.
  destruct (is_ok_Ok _ toy_committed) as [c E]. exists c. split; [exact E|].
  exact (boundary_commitment_binds toy_descriptor toy_descriptor toy_values toy_values c toy_blake3_digest toy_descriptor_ok toy_descriptor_ok
    toy_in_I18 toy_in_I18 E E).
Defined.

Example binding_fields_determine_descriptor_witness :
  toy_descriptor = toy_descriptor ∨
  (binding_preimage toy_descriptor ≠ binding_preimage toy_descriptor ∧
   blake3 (binding_preimage toy_descriptor) = blake3 (binding_preimage toy_descriptor)).
Proof.
  exact (binding_fields_determine_descriptor toy_descriptor toy_descriptor toy_blake3_digest toy_descriptor_ok toy_descriptor_ok eq_refl).
Defined.
(** Two circuits of the small program, with one output each. *)
Lemma small_params_ok o : (o < 2)%nat → params_ok (ProgramCircuit.from_program small_program ∅ [o]).
Proof.
  intros Ho. split; split; try done; repeat constructor; simpl; try zlia.
Qed.

Example shape_digest_determines_params_witness :
  let params := ProgramCircuit.from_program small_program ∅ [0] in let params' := ProgramCircuit.from_program small_program ∅ [1] in
  params = params' ∨ (ProgramCircuit.canonical_shape_bytes params ≠ ProgramCircuit.canonical_shape_bytes params' ∧
    blake3 (ProgramCircuit.canonical_shape_bytes params) = blake3 (ProgramCircuit.canonical_shape_bytes params')).
Proof.
  exact (shape_digest_determines_params _ _ (small_params_ok 0 ltac:(lia)) (small_params_ok 1 ltac:(lia)) eq_refl).
Defined.
End Instance.
