(* ===== verification/ProgramTheorems.v ===== *)
(** * What a program circuit proves

    The public values of an accepted proof are a run of the program; honest
    provers are accepted; keys do not depend on witnesses or on hash maps; the
    shape bytes and the commitments say what they stand for. *)
From S2P Require Import Prelude Ordering Bytes Field FixedPoint Program Circuit CircuitLogic RangeCheck Eltwise Shape DotProduct Norm NormProofs Honest Assembler Evaluate AssemblerProofs AssemblerShape AssemblerHonest PoseidonBoundary PoseidonProofs ProgramCircuit ProgramCircuitProofs ProgramHonest Concrete.
Import Assembler ProgramCircuit.

Open Scope nat_scope.

Section Theorems.
Context `{A : Arithmetic, O : HashOrder, !HashOrderLaws O, B : Blake3, P : PoseidonParameters, L : Layouter, !Synthesis L}.

Lemma rms_free_empty cs params config :
  rms_free (params_instructions params) → circuit_installed cs params config → rms_norm (assembler config) = ∅.
Proof.
  intros Hr Hi. apply map_empty. intros key. destruct (rms_norm (assembler config) !! key) eqn:E; [|done].
  assert (key ∈ rms_norm_keys (params_instructions params)) as Hk by (apply (ci_rms _ _ _ Hi); by rewrite E).
  rewrite (rms_free_keys _ Hr) in Hk. by apply not_elem_of_nil in Hk.
Qed.

(** A run of a circuit without RMS norms is sound by itself. *)
Lemma complete_circuit_sound planner grid cs self config d :
  map_Forall (λ _ d, domain_typed d) (rms_norm_domains (params self)) →
  params_instructions (params self) = instructions (program self) →
  (public_mode self = false → fixed_public_weights (params self) = ((λ v : list I18, raw <$> v) <$> weight_values (program self))) →
  rms_free (instructions (program self)) → Forall usize_instruction (instructions (program self)) →
  configured (configure_with_params (params self)) cs config →
  synthesize self config empty_log = Some (Ok d) → satisfied planner grid cs (dn_calls d) →
  ∃ instance assigned, public_instance (assembler config) = Some instance ∧ holds_run planner grid self config assigned ∧
    if public_mode self then everything_public planner grid self instance assigned
    else behind_commitments planner grid self instance assigned.
Proof using All.
  intros Hd Hi Hfixed Hr Hu Hcfg Hrun Hsat%satisfied_log_ok.
  pose proof (configured_mwp _ _ _ _ Hcfg (configure_with_params_ok _ _ Hd)) as Hinst.
  assert (rms_norm (assembler config) = ∅) as He by (eapply rms_free_empty; [|exact Hinst]; by rewrite Hi).
  assert (Forall byte_call (dn_calls d)) as Hb.
  { destruct d as [[] n calls]. eapply (br_synthesize self config); done. }
  destruct d as [u n calls]. apply (returned_wp (synthesize self config) empty_log calls (λ _, True) u
    (λ _, ∃ instance assigned, public_instance (assembler config) = Some instance ∧ holds_run planner grid self config assigned ∧
      if public_mode self then everything_public planner grid self instance assigned
      else behind_commitments planner grid self instance assigned)).
  - by exists n, calls.
  - by apply (synthesize_sound planner grid cs); [|apply byte_tables_sound|..].
Qed.

Lemma rms_free_eval config input_tensors weight_tensors instrs final :
  rms_free instrs → runs (instruction_step config) input_tensors weight_tensors instrs [] final →
  eval_program exact_total input_tensors weight_tensors instrs [] = Some final.
Proof.
  intros Hr. apply runs_eval. eapply Forall_impl; [exact Hr|]. intros instr Hi a b out.
  destruct (instruction instr) eqn:E; try done. by edestruct Hi.
Qed.

(** What a boundary circuit makes public, for tensors of numbers. *)
Definition boundary_values (leaf : list Fr) (boundary_inputs : list PoseidonBoundary.BoundaryDescriptor) (ins : list (list I18))
    (boundary_outputs : list (nat * PoseidonBoundary.BoundaryDescriptor)) (outs weights : list (list I18)) : list Fr :=
  let public d t := PoseidonBoundary.public_binding_fields d ++ [commitment compress d ((λ x, fr (raw x)) <$> t)] in
  leaf ++ concat (zip_with public boundary_inputs ins) ++ [fr (Z.of_nat (length boundary_outputs))] ++
  concat (zip_with public boundary_outputs.*2 outs) ++ [fr (Z.of_nat (length (concat weights)))] ++ encoded weights.

Lemma snd_enumerate {X} (l : list X) : (enumerate l).*2 = l.
Proof. unfold enumerate. apply snd_zip. by rewrite length_seq. Qed.

Lemma tensors_public_values planner grid entries ts :
  tensors_public planner grid entries ts =
    concat (zip_with (λ d t, PoseidonBoundary.public_binding_fields d ++ [commitment compress d ((λ x, fr (raw x)) <$> t)])
      entries.*2 (tensors_of planner grid ts)).
Proof.
  unfold tensors_public, tensors_of. rewrite zip_with_fmap_l, zip_with_fmap_r. f_equal. apply zip_with_ext; [|done..].
  intros e t. unfold tensor_public, tensor_in. rewrite <-list_fmap_compose. do 3 f_equal.
  apply list_fmap_ext. intros i c _. apply cell_number_fr.
Qed.
Lemma sum_lengths {X} (l : list (list X)) : sum_list (length <$> l) = length (concat l).
Proof. induction l as [|x l IH]; [done|]. simpl. by rewrite length_app, <-IH. Qed.

(** All tensors, by their indices. *)
Lemma behind_all (tensors ins : list AssignedTensor) entries :
  length entries = length tensors → Forall2 (behind tensors) (enumerate entries) ins →
  ins = tensors ∧ Forall2 (λ d t, length (tensor_cells t) = PoseidonBoundary.element_count d) entries ins.
Proof.
  intros Hl Hf. pose proof (Forall2_length _ _ _ Hf) as Hli. rewrite length_enumerate in Hli.
  assert (∀ i d t, entries !! i = Some d → ins !! i = Some t → tensors !! i = Some t ∧ length (tensor_cells t) = PoseidonBoundary.element_count d) as Hat.
  { intros i d t Hd Ht. pose proof (Forall2_lookup_lr _ _ _ i (i, d) t Hf) as Hb. rewrite lookup_enumerate, Hd in Hb. by apply Hb. }
  split.
  - apply list_eq. intros i. destruct (ins !! i) as [t|] eqn:Et.
    + destruct (lookup_lt_is_Some_2 entries i) as [d Hd]; [rewrite Hli; by eapply lookup_lt_Some|]. symmetry. by eapply Hat.
    + apply lookup_ge_None_1 in Et. symmetry. apply lookup_ge_None_2. lia.
  - apply Forall2_same_length_lookup_2; [done|]. intros i d t Hd Ht. by eapply Hat.
Qed.

(** The numbers of cells that hold known tensors. *)
Lemma tensors_known planner grid ts vs :
  Forall (Forall in_I18) vs →
  Forall2 (λ t v, cell_value planner grid <$> tensor_cells t = i64_to_fr <$> v) ts ((λ v : list I18, raw <$> v) <$> vs) →
  tensors_of planner grid ts = vs.
Proof.
  intros Ht. revert ts. induction Ht as [|v vs Hv _ IH]; intros ts Hf; inversion Hf as [|t ? ts' ? E Hfs]; subst; [done|].
  unfold tensors_of in *. rewrite fmap_cons, (IH _ Hfs). f_equal. clear IH Hf Hfs. revert E. unfold tensor_in.
  generalize (tensor_cells t) as cells. induction Hv as [|x v Hx _ IHv]; intros [|c cells] E; try done.
  rewrite !fmap_cons in E. pose proof (f_equal (λ l, hd Zmod.zero l) E) as E1. pose proof (f_equal tail E) as E2. simpl in E1, E2.
  rewrite fmap_cons, (IHv _ E2). f_equal. destruct x as [x]. apply plain_number. split; [exact Hx|]. by rewrite E1, i64_to_fr_eq.
Qed.

(** C4. An accepted proof of a program is its computation.  In a satisfied circuit
    of a program without RMS norms, if the verifier's instance starts with the
    encodings of tensors of the program's shapes, then the program evaluates on
    them, with exact arithmetic and no overflow, and the rest of the instance is
    the encoding of the selected outputs.  Nothing is assumed of the witnesses. *)
Theorem accepted_program_computes planner grid cs program domains outputs circuit config d instance ins ws :
  map_Forall (λ _ d, domain_typed d) domains →
  new_with_public_outputs program domains outputs = Ok circuit →
  rms_free (instructions program) → Forall usize_instruction (instructions program) →
  configured (configure_with_params (params circuit)) cs config →
  synthesize circuit config empty_log = Some (Ok d) → satisfied planner grid cs (dn_calls d) →
  public_instance (assembler config) = Some instance →
  Forall2 (λ t v, length t = length v) ins (input_values program) →
  Forall2 (λ t v, length t = length v) ws (weight_values program) →
  Forall (Forall in_I18) ins → Forall (Forall in_I18) ws →
  published grid instance 0 (encoded (ins ++ ws)) →
  ∃ virts outs, eval_program exact_total ins ws (instructions program) [] = Some virts ∧
    Forall2 (λ index out, virts !! index = Some out) outputs outs ∧
    published grid instance (length (concat (ins ++ ws))) (encoded outs).
Proof using All.
  intros Hd Hnew Hr Hu Hcfg Hrun Hsat Hinstance Hsi Hsw Hti Htw Hpub.
  unfold new_with_public_outputs in Hnew. destruct (_ || _); [done|]. injection Hnew as <-.
  destruct (complete_circuit_sound planner grid cs (mkAssemblerCircuit (from_program program domains outputs) program true []) config d Hd eq_refl ltac:(done) Hr Hu Hcfg Hrun Hsat)
    as (instance' & assigned & E & (Hi & Hw & Hruns) & outs & Houts & Hall). rewrite Hinstance in E. injection E as <-.
  simpl in Hi, Hw, Houts, Hruns. rewrite app_assoc in Hall. unfold tensors_of in Hall. rewrite fmap_app, concat_app in Hall.
  destruct (published_tensors planner grid instance 0 (assigned_inputs assigned ++ assigned_weights assigned) (ins ++ ws)
    (concat (tensors_of planner grid outs))) as [Et Hrest].
  - by apply Forall_app.
  - unfold tensors_of. rewrite fmap_app. apply Forall2_app; (eapply shapes_join; [by apply shaped_tensors|done]).
  - done.
  - exact Hall.
  - unfold tensors_of in Et. rewrite fmap_app in Et. apply app_inj_1 in Et as [Ei Ew].
    2: { rewrite length_fmap, (Forall2_length _ _ _ Hi). symmetry. by eapply Forall2_length. }
    unfold tensors_of in Hruns. rewrite Ei, Ew in Hruns.
    exists (tensors_of planner grid (virtuals assigned)), (tensors_of planner grid outs). split_and!.
    + by eapply rms_free_eval.
    + unfold tensors_of. apply Forall2_fmap_r. eapply Forall2_impl; [exact Houts|]. intros index t Ht. by rewrite list_lookup_fmap, Ht.
    + exact Hrest.
Qed.

(** C5. A boundary circuit commits to a run.  In a satisfied circuit with boundary
    commitments the instance is, after 17 identity fields the prover chose, the
    binding fields and the Poseidon commitment of each input tensor, then of each
    selected output of the evaluation of the program on those inputs and on the
    weights the circuit was built with, and those weights. *)
Theorem boundary_circuit_commits planner grid cs program domains boundary_inputs boundary_outputs leaf circuit config d :
  map_Forall (λ _ d, domain_typed d) domains →
  new_with_boundary_commitments program domains boundary_inputs boundary_outputs leaf = Ok circuit →
  (boundary_inputs, boundary_outputs) ≠ ([], []) →
  rms_free (instructions program) → Forall usize_instruction (instructions program) → Forall (Forall in_I18) (weight_values program) →
  configured (configure_with_params (params circuit)) cs config →
  synthesize circuit config empty_log = Some (Ok d) → satisfied planner grid cs (dn_calls d) →
  ∃ instance leaf' ins virts outs, public_instance (assembler config) = Some instance ∧ length leaf' = 17 ∧
    Forall2 (λ d t, length t = PoseidonBoundary.element_count d) boundary_inputs ins ∧
    eval_program exact_total ins (weight_values program) (instructions program) [] = Some virts ∧
    Forall2 (λ e t, virts !! e.1 = Some t ∧ length t = PoseidonBoundary.element_count e.2) boundary_outputs outs ∧
    published grid instance 0 (boundary_values leaf' boundary_inputs ins boundary_outputs outs (weight_values program)).
Proof using All.
  intros Hd Hnew Hne Hr Hu Htw Hcfg Hrun Hsat. unfold new_with_boundary_commitments in Hnew.
  destruct (_ || match _ with Some _ => _ | None => _ end) eqn:Hcheck; [done|].
  apply orb_false_iff in Hcheck as [[[[[Hlen%negb_false_iff%Nat.eqb_eq _]%orb_false_iff _]%orb_false_iff _]%orb_false_iff
    Hleaf%negb_false_iff%Nat.eqb_eq]%orb_false_iff _]. injection Hnew as <-.
  match type of Hrun with synthesize ?c _ _ = _ => set (self := c) in * end.
  assert (public_mode self = false) as Hmode.
  { unfold public_mode. simpl. by destruct boundary_inputs, boundary_outputs. }
  destruct (complete_circuit_sound planner grid cs self config d Hd eq_refl (λ _, eq_refl) Hr Hu Hcfg Hrun Hsat)
    as (instance & assigned & Hinstance & (Hi & Hw & Hruns) & Hmain). rewrite Hmode in Hmain.
  destruct Hmain as (leaf' & ins & outs & Hl & Hins & Houts & Hws & Hp). simpl in Hl, Hins, Houts, Hws, Hi, Hw, Hruns.
  apply behind_all in Hins as [-> Hcounts]; [|rewrite Hlen; symmetry; by eapply Forall2_length].
  pose proof (tensors_known _ _ _ _ Htw Hws) as Ew. rewrite Ew in Hruns.
  exists instance, leaf', (tensors_of planner grid (assigned_inputs assigned)), (tensors_of planner grid (virtuals assigned)),
    (tensors_of planner grid outs). split_and!; [done|congruence| |by eapply rms_free_eval| |].
  - unfold tensors_of. apply Forall2_fmap_r. eapply Forall2_impl; [exact Hcounts|]. intros e t <-. apply length_tensor.
  - unfold tensors_of. apply Forall2_fmap_r. eapply Forall2_impl; [exact Houts|]. intros e t [Ht <-].
    rewrite list_lookup_fmap, Ht. split; [done|]. apply length_tensor.
  - unfold boundary_public in Hp. rewrite !tensors_public_values, snd_enumerate, sum_lengths in Hp. simpl in Hp.
    unfold boundary_values, encoded. assert (i64_to_fr <$> concat ((λ v : list I18, raw <$> v) <$> weight_values program) =
      (λ x, fr (raw x)) <$> concat (weight_values program)) as <-; [|exact Hp].
    clear. induction (weight_values program) as [|v vs IH]; [done|]. rewrite fmap_cons. simpl. rewrite !fmap_app, IH. f_equal.
    rewrite <-list_fmap_compose. apply list_fmap_ext. intros i x _. apply i64_to_fr_eq.
Qed.

(** The honest run of a program that evaluates: used by the theorem, and for shards. *)
Lemma honest_accepted program domains outputs circuit cs config virts outs :
  ExactArithmetic A → TotalArithmetic A → Roomy L →
  map_Forall (λ _ d, domain_typed d) domains →
  new_with_public_outputs program domains outputs = Ok circuit →
  rms_free (instructions program) → typed_program program →
  configured (configure_with_params (params circuit)) cs config → cs_ok cs →
  eval_program checked_total (input_values program) (weight_values program) (instructions program) [] = Some virts →
  Forall2 (λ index out, virts !! index = Some out) outputs outs →
  ∃ d, synthesize circuit config empty_log = Some (Ok d) ∧
    ∀ planner grid, agrees planner grid (dn_calls d) → padded cs (dn_calls d) →
      (∀ instance, public_instance (assembler config) = Some instance →
        published grid instance 0 (encoded (input_values program ++ weight_values program ++ outs))) →
      satisfied planner grid cs (dn_calls d).
Proof using HashOrderLaws0.
  intros Hexact Htotal Hroomy Hd Hnew Hr Ht Hcfg Hcs Heval Houts.
  unfold new_with_public_outputs in Hnew. destruct (_ || _); [done|]. injection Hnew as <-.
  set (self := mkAssemblerCircuit (from_program program domains outputs) program true []) in *.
  pose proof (configured_mwp _ _ _ _ Hcfg (configure_with_params_ok _ (params self) Hd)) as Hinst.
  assert (rms_norm (assembler config) = ∅) as He by (eapply rms_free_empty; [|exact Hinst]; exact Hr).
  destruct (synthesize_returns self config virts outs cs Hinst eq_refl eq_refl He Hr Heval Houts empty_log) as (u & n & calls & Hrun & _).
  eexists. split; [exact Hrun|]. intros planner grid Hag Hpad Hpub. cbn [dn_calls] in *.
  apply satisfied_intro; [done..|].
  apply (synthesize_complete self config virts outs cs Hinst eq_refl eq_refl He Hr Heval Houts planner grid calls Hcs Hag Ht Hpub eq_refl
    empty_log u n calls Hrun). done.
Qed.

(** C6. Honest provers are accepted.  When the reference semantics evaluates a
    typed program, every partial sum in [i128], its circuit is synthesized without
    error or panic on a layouter with room, and every grid that holds the honest
    witnesses and has the inputs, weights and selected outputs as its public
    values satisfies the circuit. *)
Theorem honest_program_accepted program domains outputs circuit cs config virts outs :
  ExactArithmetic A → TotalArithmetic A → Roomy L →
  map_Forall (λ _ d, domain_typed d) domains →
  new_with_public_outputs program domains outputs = Ok circuit →
  rms_free (instructions program) → typed_program program →
  configured (configure_with_params (params circuit)) cs config → cs_ok cs →
  eval_program checked_total (input_values program) (weight_values program) (instructions program) [] = Some virts →
  Forall2 (λ index out, virts !! index = Some out) outputs outs →
  ∃ d, synthesize circuit config empty_log = Some (Ok d) ∧
    ∀ planner grid, agrees planner grid (dn_calls d) → padded cs (dn_calls d) →
      (∀ instance, public_instance (assembler config) = Some instance →
        published grid instance 0 (encoded (input_values program ++ weight_values program ++ outs))) →
      satisfied planner grid cs (dn_calls d).
Proof using HashOrderLaws0. apply honest_accepted. Qed.
End Theorems.

(** The circuits the code makes: by one of its two constructors, with the
    witnesses dropped or not. *)
Inductive made `{Blake3} : AssemblerCircuit → Prop :=
| made_public program domains outputs circuit :
    new_with_public_outputs program domains outputs = Ok circuit → made circuit
| made_boundary program domains inputs outputs prefix circuit :
    new_with_boundary_commitments program domains inputs outputs prefix = Ok circuit → made circuit
| made_without_witnesses circuit : made circuit → made (without_witnesses circuit).

(** The parameters of such a circuit hold its shape. *)
Lemma made_shape `{Blake3} circuit :
  made circuit →
  params_instructions (params circuit) = instructions (program circuit) ∧
  input_shapes (params circuit) = length <$> input_values (program circuit) ∧
  weight_shapes (params circuit) = length <$> weight_values (program circuit) ∧
  leaf_prefix_len (params circuit) = length (leaf_prefix circuit).
Proof.
  induction 1 as [p domains outputs c E|p domains ins outs prefix c E|c _ IH]; [| |exact IH].
  - unfold new_with_public_outputs in E. destruct (_ || _); [done|]. by injection E as <-.
  - unfold new_with_boundary_commitments in E. cbv zeta in E. destruct (_ || _); [done|]. by injection E as <-.
Qed.

Lemma same_lengths {T} (l l' : list (list T)) :
  length <$> l = length <$> l' → Forall2 (λ t t', length t = length t') l l'.
Proof.
  revert l'. induction l as [|t l IH]; intros [|t' l']; rewrite ?fmap_cons; try done.
  intros [= Ht Hl]. constructor; [done|]. by apply IH.
Qed.

Lemma made_same_shape `{Blake3} circuit circuit' :
  made circuit → made circuit' → params circuit = params circuit' →
  same_shape (program circuit) (program circuit') ∧ length (leaf_prefix circuit) = length (leaf_prefix circuit').
Proof.
  intros (Ei & Es & Ew & El)%made_shape (Ei' & Es' & Ew' & El')%made_shape Hp. rewrite <-Hp in *.
  split; [|congruence]. split; [congruence|apply same_lengths; congruence..].
Qed.

(** C12. One key per shape.  Two runs of circuits that the constructors made with
    the same parameters, public or behind boundary commitments, make calls that
    the same grids satisfy, whatever the inputs, the witnesses and the leaf
    prefixes are, whether the witnesses are known, and however each process's hash
    maps are ordered: a key made from a template without witnesses is the key of
    the proofs. *)
Theorem program_key_shared `{A : Arithmetic, B : Blake3, P : PoseidonParameters, L : Layouter, !Synthesis L}
    (o o' : HashOrder) circuit circuit' config planner grid cs d d' :
  HashOrderLaws o → HashOrderLaws o' →
  made circuit → made circuit' → params circuit = params circuit' →
  synthesize (H0 := o) circuit config empty_log = Some (Ok d) → synthesize (H0 := o') circuit' config empty_log = Some (Ok d') →
  satisfied planner grid cs (dn_calls d) ↔ satisfied planner grid cs (dn_calls d').
Proof.
  intros Ho Ho' Hm Hm' Hp E1 E2. destruct (made_same_shape _ _ Hm Hm' Hp) as [Hs Hl].
  apply same_circuit_satisfied. by eapply (synthesize_same o o').
Qed.

(** ** Concrete circuits *)

Section Instance.
#[local] Existing Instances debug_arithmetic ordered ordered_laws toy_blake3 toy_parameters toy_synthesis.

Definition get {A E} (a : A) (r : Result A E) : A := match r with Ok a => a | Err _ => a end.

Definition plain_circuit : AssemblerCircuit :=
  mkAssemblerCircuit (from_program small_program ∅ [1]) small_program true [].
Definition plain_circuit' : AssemblerCircuit :=
  mkAssemblerCircuit (from_program small_program ∅ [1]) small_program' false [].

(** All that the witnesses below need, of one run. *)
Definition plain_also (config : AssemblerCircuitConfig) (cs : ConstraintSystem) (d : Done unit) (grid : Column → Z → Fr) : bool :=
  match public_instance (assembler config) with
  | Some instance =>
      published_check grid instance 0 (encoded (input_values small_program ++ weight_values small_program ++ [[I18_ 620000000000000000]]))
  | None => false
  end && padded_check cs (dn_calls d) && agrees_check grid spread (dn_calls d) &&
  match synthesize (H0 := reversed) plain_circuit' config empty_log with Some (Ok _) => true | _ => false end.

Lemma plain_checked : checked (configure_with_params (params plain_circuit)) (synthesize plain_circuit) plain_also = true.
Proof. vm_cast_no_check (eq_refl true). Qed.

Lemma plain_accepted : ∃ config cs d, configured (configure_with_params (params plain_circuit)) cs config ∧ cs_ok cs ∧
  synthesize plain_circuit config empty_log = Some (Ok d) ∧
  satisfied spread (exposed_grid spread (dn_calls d)) cs (dn_calls d) ∧
  plain_also config cs d (exposed_grid spread (dn_calls d)) = true.
Proof.
  exact (checked_circuit _ _ _ (λ final, circuit_installed final (params plain_circuit)) plain_checked
    (λ final, configure_with_params_ok final (params plain_circuit) (map_Forall_empty _))).
Qed.

Lemma plain_case : ∃ config cs d d' instance,
  (configured (configure_with_params (params plain_circuit)) cs config ∧ cs_ok cs ∧ synthesize plain_circuit config empty_log = Some (Ok d)) ∧
  public_instance (assembler config) = Some instance ∧ satisfied spread (exposed_grid spread (dn_calls d)) cs (dn_calls d) ∧
  published (exposed_grid spread (dn_calls d)) instance 0
    (encoded (input_values small_program ++ weight_values small_program ++ [[I18_ 620000000000000000]])) ∧
  (padded cs (dn_calls d) ∧ agrees spread (exposed_grid spread (dn_calls d)) (dn_calls d)) ∧
  synthesize (H0 := reversed) plain_circuit' config empty_log = Some (Ok d').
Proof.
  destruct plain_accepted as (config & cs & d & Hcfg & Hcs & Hrun & Hsat & Halso).
  unfold plain_also in Halso. apply andb_true_iff in Halso as [[[Hpub Hpad]%andb_true_iff Hag]%andb_true_iff Hrev].
  destruct (public_instance (assembler config)) as [instance|] eqn:Ei; [|done].
  destruct (synthesize (H0 := reversed) plain_circuit' config empty_log) as [[d'|]|] eqn:Er; [|done..].
  exists config, cs, d, d', instance. split_and!; [done..| |by apply padded_check_sound|by apply agrees_check_sound|done].
  by apply published_check_sound.
Qed.
Lemma small_usize : Forall usize_instruction (instructions small_program).
Proof. unfold small_program. cbn [instructions]. constructor; [|constructor; [|constructor]]; unfold usize_instruction; cbn [instruction]; [zlia|done]. Qed.
Lemma small_same_shapes (f : AssemblerProgram → list (list I18)) :
  Forall2 (λ t v : list I18, length t = length v) (f small_program) (f small_program).
Proof. apply Forall_Forall2_diag, Forall_forall; by intros. Qed.

Example accepted_program_computes_witness : ∃ grid instance virts outs,
  eval_program exact_total (input_values small_program) (weight_values small_program) (instructions small_program) [] = Some virts ∧
  Forall2 (λ index out, virts !! index = Some out) [1] outs ∧ published grid instance 5 (encoded outs).
Proof.
  destruct plain_case as (config & cs & d & d' & instance & (Hcfg & Hcs & Hrun) & Hi & Hsat & Hpub & _).
  exists (exposed_grid spread (dn_calls d)), instance.
  destruct small_typed as [Hti Htw]. rewrite app_assoc in Hpub. unfold encoded in Hpub. rewrite concat_app, fmap_app in Hpub.
  apply (accepted_program_computes spread _ cs small_program ∅ [1] plain_circuit config d instance
    (input_values small_program) (weight_values small_program) (map_Forall_empty _) eq_refl small_rms_free small_usize Hcfg Hrun Hsat Hi
    (small_same_shapes input_values) (small_same_shapes weight_values) Hti Htw).
  intros i v Hv. apply Hpub. by apply lookup_app_l_Some.
Defined.

Example honest_program_accepted_witness : ∃ config cs d,
  synthesize plain_circuit config empty_log = Some (Ok d) ∧ satisfied spread (exposed_grid spread (dn_calls d)) cs (dn_calls d).
Proof.
  destruct plain_case as (config & cs & d & d' & instance & (Hcfg & Hcs & Hrun) & Hi & _ & Hpub & [Hpad Hag] & _).
  exists config, cs, d. split; [exact Hrun|].
  destruct (honest_program_accepted small_program ∅ [1] plain_circuit cs config small_virts [[I18_ 620000000000000000]]
    debug_arithmetic_exact debug_arithmetic_total toy_roomy (map_Forall_empty _) eq_refl small_rms_free small_typed Hcfg Hcs small_evaluates)
    as (d0 & E & Hall).
  { constructor; [exact eq_refl|constructor]. }
  assert (d = d0) as -> by congruence.
  apply (Hall spread (exposed_grid spread (dn_calls d0)) Hag Hpad).
  intros instance' E'. assert (instance = instance') as -> by congruence. exact Hpub.
Defined.

(** The same program, behind commitments. *)
Definition input_descriptor : PoseidonBoundary.BoundaryDescriptor :=
  PoseidonBoundary.mkBoundaryDescriptor PoseidonBoundary.Input "r0" ["edge-0"] [] PoseidonBoundary.DTypeI18
    (PoseidonBoundary.FlatElementCountOnly 2) 1000000000000000000.
Definition output_descriptor : PoseidonBoundary.BoundaryDescriptor :=
  PoseidonBoundary.mkBoundaryDescriptor PoseidonBoundary.Output "r2" [] ["y"] PoseidonBoundary.DTypeI18
    (PoseidonBoundary.FlatElementCountOnly 1) 1000000000000000000.
Definition toy_leaf : list Fr := (λ i, fr (Z.of_nat i)) <$> seq 1 17.
Definition boundary_circuit : AssemblerCircuit :=
  mkAssemblerCircuit (mkAssemblerCircuitParams (instructions small_program) ∅ [2] [2; 1] [] [input_descriptor] [(1, output_descriptor)] 17
    ((λ t : list I18, raw <$> t) <$> weight_values small_program)) small_program true toy_leaf.

(** The template of its keys: other inputs, no prefix, no witnesses. *)
Definition blank_program : AssemblerProgram :=
  mkAssemblerProgram (instructions small_program) ((λ t : list I18, (λ _, I18_ 0) <$> t) <$> input_values small_program)
    (weight_values small_program).
Definition boundary_template : AssemblerCircuit :=
  mkAssemblerCircuit (params boundary_circuit) blank_program false (repeat (fr 0) 17).

Definition boundary_also (config : AssemblerCircuitConfig) (cs : ConstraintSystem) (d : Done unit) (grid : Column → Z → Fr) : bool :=
  match synthesize (H0 := reversed) boundary_template config empty_log with Some (Ok _) => true | _ => false end.

Lemma boundary_checked :
  checked (configure_with_params (params boundary_circuit)) (synthesize boundary_circuit) boundary_also = true.
Proof. vm_cast_no_check (eq_refl true). Qed.
Lemma template_new :
  new_with_boundary_commitments blank_program ∅ [input_descriptor] [(1, output_descriptor)] (repeat (fr 0) 17) =
  Ok (mkAssemblerCircuit (params boundary_circuit) blank_program true (repeat (fr 0) 17)).
Proof. vm_cast_no_check (eq_refl (Ok (T := AssemblerCircuit) (E := string)
  (mkAssemblerCircuit (params boundary_circuit) blank_program true (repeat (fr 0) 17)))). Qed.
Lemma boundary_new :
  new_with_boundary_commitments small_program ∅ [input_descriptor] [(1, output_descriptor)] toy_leaf = Ok boundary_circuit.
Proof. vm_cast_no_check (eq_refl (Ok (T := AssemblerCircuit) (E := string) boundary_circuit)). Qed.
Lemma some_boundary : ([input_descriptor], [(1, output_descriptor)]) ≠ ([], []).
Proof. discriminate. Qed.

Lemma boundary_accepted : ∃ config cs d, configured (configure_with_params (params boundary_circuit)) cs config ∧ cs_ok cs ∧
  synthesize boundary_circuit config empty_log = Some (Ok d) ∧
  satisfied spread (exposed_grid spread (dn_calls d)) cs (dn_calls d) ∧
  boundary_also config cs d (exposed_grid spread (dn_calls d)) = true.
Proof.
  exact (checked_circuit _ _ _ (λ final, circuit_installed final (params boundary_circuit)) boundary_checked
    (λ final, configure_with_params_ok final (params boundary_circuit) (map_Forall_empty _))).
Qed.

Example boundary_circuit_commits_witness : ∃ (config : AssemblerCircuitConfig) grid instance leaf' ins virts outs,
  public_instance (assembler config) = Some instance ∧ length leaf' = 17 ∧
  Forall2 (λ d t, length t = PoseidonBoundary.element_count d) [input_descriptor] ins ∧
  eval_program exact_total ins (weight_values small_program) (instructions small_program) [] = Some virts ∧
  Forall2 (λ e t, virts !! e.1 = Some t ∧ length t = PoseidonBoundary.element_count e.2) [(1, output_descriptor)] outs ∧
  published grid instance 0 (boundary_values leaf' [input_descriptor] ins [(1, output_descriptor)] outs (weight_values small_program)).
Proof.
  destruct boundary_accepted as (config & cs & d & Hcfg & _ & Hrun & Hsat & _).
  exists config, (exposed_grid spread (dn_calls d)). destruct small_typed as [_ Htw].
  exact (boundary_circuit_commits spread _ cs small_program ∅ [input_descriptor] [(1, output_descriptor)] toy_leaf boundary_circuit config d
    (map_Forall_empty _) boundary_new some_boundary
    small_rms_free small_usize Htw Hcfg Hrun Hsat).
Defined.

(** In both modes: the public circuits above, and a circuit behind commitments
    with the template of its keys. *)
Example program_key_shared_witness :
  (∃ config cs d d',
    synthesize plain_circuit config empty_log = Some (Ok d) ∧ synthesize (H0 := reversed) plain_circuit' config empty_log = Some (Ok d') ∧
    (satisfied spread (exposed_grid spread (dn_calls d)) cs (dn_calls d) ↔ satisfied spread (exposed_grid spread (dn_calls d)) cs (dn_calls d'))) ∧
  (∃ config cs d d',
    synthesize boundary_circuit config empty_log = Some (Ok d) ∧ synthesize (H0 := reversed) boundary_template config empty_log = Some (Ok d') ∧
    (satisfied spread (exposed_grid spread (dn_calls d)) cs (dn_calls d) ↔ satisfied spread (exposed_grid spread (dn_calls d)) cs (dn_calls d'))).
Proof.
  split.
  - destruct plain_case as (config & cs & d & d' & instance & (Hcfg & Hcs & Hrun) & _ & _ & _ & _ & Hrun').
    exists config, cs, d, d'. split_and!; [exact Hrun|exact Hrun'|].
    apply (program_key_shared ordered reversed plain_circuit plain_circuit' config _ _ cs d d' ordered_laws reversed_laws);
      [| |exact eq_refl|exact Hrun|exact Hrun'].
    + by apply (made_public small_program ∅ [1]).
    + apply (made_without_witnesses (mkAssemblerCircuit (from_program small_program' ∅ [1]) small_program' true [])).
      by apply (made_public small_program' ∅ [1]).
  - destruct boundary_accepted as (config & cs & d & _ & _ & Hrun & _ & Halso). unfold boundary_also in Halso.
    destruct (synthesize (H0 := reversed) boundary_template config empty_log) as [[d'|]|] eqn:Hrun'; [|discriminate Halso..].
    exists config, cs, d, d'. split; [exact Hrun|]. split; [exact Hrun'|].
    apply (program_key_shared ordered reversed boundary_circuit boundary_template config _ _ cs d d' ordered_laws reversed_laws);
      [| |exact eq_refl|exact Hrun|exact Hrun'].
    + exact (made_boundary _ _ _ _ _ _ boundary_new).
    + exact (made_without_witnesses _ (made_boundary _ _ _ _ _ _ template_new)).
Defined.
End Instance.
