(* ===== verification/WitnessCpu.v ===== *)
(** * The CPU witness back end

    crates/zkie-prover/src/witness_cpu.rs: execution of a shard on the host, the
    artifact it leaves, and the assembler program lowered from an artifact.

    [None] is a panic.  A [BTreeMap] is walked in the order of its keys, a [HashMap]
    in that of the class [HashOrder].  JSON and files are parameters; running out of
    memory is not modelled. *)
From Stdlib Require Import SpecFloat.
From stdpp Require Import gmap.
From S2P Require Import Prelude Ordering Bytes FixedPoint State Identity Resource Program Dag Lookup Norm Backend Onnx PoseidonBoundary Assembler ProgramCircuit.

Open Scope Z_scope.

Notation "'let~' x := c 'in' k" := (outcome_bind c (λ x, k))
  (at level 10, x name, c at level 100, k at level 200) : zkie_scope.
Notation "'let~' ' p := c 'in' k" := (outcome_bind c (λ p, k))
  (at level 10, p strict pattern, c at level 100, k at level 200) : zkie_scope.

(** A loop that may panic, and [collect] of a fallible [map] with captured state. *)
Fixpoint outcome_fold {A S E} (f : S → A → Outcome S E) (s : S) (l : list A) : Outcome S E :=
  match l with
  | [] => Some (Ok s)
  | x :: l => let~ s := f s x in outcome_fold f s l
  end.
Fixpoint outcome_mapM {A B S E} (f : S → A → Outcome (S * B) E) (s : S) (l : list A) : Outcome (S * list B) E :=
  match l with
  | [] => Some (Ok (s, []))
  | x :: l =>
      let~ '(s, y) := f s x in
      let~ '(s, ys) := outcome_mapM f s l in
      Some (Ok (s, y :: ys))
  end.
(** [expect], [unwrap], and indexing. *)
Definition or_panics {A E} (o : option A) : Outcome A E := option_map Ok o.

#[local] Existing Instance Assembler.RegisterRef_eq_dec.
#[export] Instance AssemblerInstruction_eq_dec : EqDecision Assembler.AssemblerInstruction.
Proof. solve_decision. Defined.
#[export] Instance AssemblerProgram_eq_dec : EqDecision Assembler.AssemblerProgram.
Proof. solve_decision. Defined.

Module WitnessCpu.
Import Backend.
Import Onnx (WeightOutOfRange, WeightNotFound, weight_as_i18).

Definition INPUT_SCHEMA_VERSION : Z := 1.
Definition ARTIFACT_SCHEMA_VERSION : Z := 1.
Definition SUPPORTED_PROOF_FLAVOR : string := "halo2-kzg-bn256-shplonk-v1".

(** ** Limits *)

(** [usize::checked_add] and [usize::checked_mul]. *)
Definition checked_add (x y : Z) : option Z := try_u64 (x + y).
Definition checked_mul (x y : Z) : option Z := try_u64 (x * y).
Definition len {A} (l : list A) : Z := Z.of_nat (length l).

Record CpuWitnessLimits := mkLimits {
  input_bytes : Z;
  artifact_bytes : Z;
  values_per_tensor : Z;
  total_input_values : Z;
  total_artifact_values : Z;
  tensor_count : Z;
  domain_points : Z;
  instruction_count : Z;
  operand_references : Z
}.

Definition estimated_ram_bytes (self : CpuWitnessLimits) : Result Z BackendError :=
  let plus acc count factor := v ← acc; w ← checked_mul count factor; checked_add v w in
  let bytes := checked_add (input_bytes self) (artifact_bytes self) in
  let bytes := plus bytes (total_input_values self) 16 in
  let bytes := plus bytes (total_artifact_values self) 16 in
  let bytes := plus bytes (domain_points self) 32 in
  let bytes := plus bytes (input_bytes self) 1 in
  let bytes := plus bytes (artifact_bytes self) 2 in
  let bytes := plus bytes (total_input_values self) 16 in
  let bytes := plus bytes (total_artifact_values self) 32 in
  let bytes := plus bytes (domain_points self) 64 in
  let bytes := plus bytes (tensor_count self) 512 in
  let bytes := plus bytes (instruction_count self) 512 in
  let bytes := plus bytes (operand_references self) 128 in
  let bytes := v ← bytes; checked_add v (Z.shiftl 32 20) in
  let? bytes := ok_or bytes ResourceError in
  ok_or (try_u64 bytes) ResourceError.

Definition fields (self : CpuWitnessLimits) : list Z :=
  [input_bytes self; artifact_bytes self; values_per_tensor self; total_input_values self; total_artifact_values self;
   tensor_count self; domain_points self; instruction_count self; operand_references self].

(** [CpuWitnessLimits::new]. *)
Definition limits_new (limits : CpuWitnessLimits) : Result CpuWitnessLimits BackendError :=
  if bool_decide (0 ∈ fields limits)
     || (total_input_values limits <? values_per_tensor limits)
     || (total_artifact_values limits <? values_per_tensor limits)
  then Err ResourceError else
  let? _ := estimated_ram_bytes limits in
  Ok limits.

(** [CpuWitnessLimits::default]. *)
Definition default_limits : CpuWitnessLimits :=
  mkLimits (Z.shiftl 1 20) (Z.shiftl 8 20) (Z.shiftl 1 16) (Z.shiftl 1 18) (Z.shiftl 1 20) (Z.shiftl 1 10)
    (Z.shiftl 1 16) (Z.shiftl 1 10) (Z.shiftl 1 14).

(** ** Inputs and artifacts *)

Record CpuWitnessInputs := mkInputs {
  graph_inputs : gmap string (list I18);
  virtual_inputs : gmap nat (list I18)
}.

Record CpuWitnessArtifact := mkArtifact {
  art_shard : Shard;
  art_shard_identity : ShardIdentity;
  art_run_identity : RunIdentity;
  art_run_identity_digest : Digest32;
  art_inputs : gmap Register (list I18);
  art_virtuals : gmap nat (list I18);
  art_outputs : gmap nat (list I18);
  art_record_limit : Z
}.

Record BoundaryShapeManifest := mkManifest {
  shape_graph_inputs : gmap string Z;
  shape_virtual_inputs : gmap nat Z
}.

(** The entries of a [BTreeMap]. *)
Definition btree {K A} `{Countable K} (cmp : K → K → comparison) (m : gmap K A) : list (K * A) :=
  sort_by (λ x y, cmp x.1 y.1) (map_to_list m).

Definition manifest_new (graph_inputs : gmap string Z) (virtual_inputs : gmap nat Z) : Result BoundaryShapeManifest BackendError :=
  if existsb (λ len, len =? 0) ((btree String.compare graph_inputs).*2 ++ (btree Nat.compare virtual_inputs).*2)
  then Err InvalidJob else Ok (mkManifest graph_inputs virtual_inputs).

(** One turn of either loop over the manifest: the total and the shapes. *)
Definition add_shape {K} (register : K → Register) (st : Z * gmap Register Z) (entry : K * Z) : Result (Z * gmap Register Z) BackendError :=
  let '(total, shapes) := st in
  let '(key, len) := entry in
  let? total := ok_or (checked_add total len) ResourceError in
  Ok (total, <[register key := len]> shapes).

Definition validate_for (self : BoundaryShapeManifest) (required_graph_inputs : gset string) (required_virtual_inputs : gset nat)
    (limits : CpuWitnessLimits) : Result (gmap Register Z) BackendError :=
  if negb (bool_decide (dom (shape_graph_inputs self) = required_graph_inputs))
     || negb (bool_decide (dom (shape_virtual_inputs self) = required_virtual_inputs))
  then Err InvalidJob else
  let? st := result_fold (add_shape GraphInput) (0, ∅) (btree String.compare (shape_graph_inputs self)) in
  let? '(total, shapes) := result_fold (add_shape Virtual) st (btree Nat.compare (shape_virtual_inputs self)) in
  if (tensor_count limits <? Z.of_nat (size shapes))
     || existsb (λ len, values_per_tensor limits <? len) (map_to_list shapes).*2
     || (total_input_values limits <? total)
  then Err ResourceError else
  Ok shapes.

(** ** Counts *)

Definition validate_artifact_record_count (input_records virtual_records output_records limit : Z) : Result Z BackendError :=
  let? count := ok_or (v ← checked_add input_records virtual_records; checked_add v output_records) ResourceError in
  if limit <? count then Err ResourceError else Ok count.

Definition validate_tensor_collection (tensors : list (list I18)) (max_tensors max_per_tensor max_total : Z)
    : Result unit BackendError :=
  let? _ := result_fold (λ '(count, total) tensor,
    let? count := ok_or (checked_add count 1) ResourceError in
    if (max_tensors <? count) || (max_per_tensor <? len tensor) then Err ResourceError else
    let? total := ok_or (checked_add total (len tensor)) ResourceError in
    if max_total <? total then Err ResourceError else
    Ok (count, total)) (0, 0) tensors in
  Ok tt.

Definition checked_len (instruction : nat) (left right : nat) : Result nat BackendError :=
  ok_or (Z.to_nat <$> checked_mul (Z.of_nat left) (Z.of_nat right)) (ArithmeticOverflow instruction).

Definition expect_operands (instruction : nat) (operands : list (list I18)) (expected : nat) : Result unit BackendError :=
  if (length operands =? expected)%nat then Ok tt else Err (ShapeMismatch instruction).

(** [Iterator::sum::<usize>]: an overflow panics. *)
Definition usize_sum (l : list Z) : option Z := try_u64 (zsum l).

(** ** Domains *)

Definition domain_points_of (domain : Rsqrt.RsqrtDomain) : Z :=
  match domain with
  | Rsqrt.Range _ _ n => Z.of_nat n
  | Rsqrt.RawAnchors points => len points
  end.

Definition invalid_domain (domain : Rsqrt.RsqrtDomain) : bool :=
  match domain with
  | Rsqrt.Range min max _ =>
      negb (f64_is_finite min) || negb (f64_is_finite max) || SFleb min (f64_of_Z 0) || SFltb max min
      || negb (is_ok (from_f64 min)) || negb (is_ok (from_f64 max)) || negb (is_ok (from_f64 (Rsqrt.rsqrt_f64 min)))
  | Rsqrt.RawAnchors points =>
      existsb (λ raw, (raw <=? 0) || negb (is_ok (from_f64 (Rsqrt.rsqrt_f64 (to_f64 (from_raw raw)))))) points
  end.

Definition materialize_domain (domain : Rsqrt.RsqrtDomain) (max_points : Z) : Outcome (gmap Z I18) BackendError :=
  let point_count := domain_points_of domain in
  if point_count =? 0 then Some (Err InvalidJob) else
  if max_points <? point_count then Some (Err ResourceError) else
  if invalid_domain domain then Some (Err InvalidJob) else
  let~ '(points, values) := or_panics match domain with
    | Rsqrt.Range min max n => Lookup.build_domain Rsqrt.rsqrt_f64 min max n
    | Rsqrt.RawAnchors points => Lookup.build_domain_from_raw Rsqrt.rsqrt_f64 points
    end in
  Some (result_fold (λ (table : gmap Z I18) '(point, value),
    match table !! raw point with
    | Some previous => if bool_decide (previous = value) then Ok (<[raw point := value]> table) else Err InvalidJob
    | None => Ok (<[raw point := value]> table)
    end) ∅ (zip points values)).

Definition validate_run_identity (run : RunIdentity) : Result unit BackendError :=
  if negb (bool_decide (ri_proof_flavor run = SUPPORTED_PROOF_FLAVOR)) then Err InvalidJob else
  if negb (bool_decide (ri_model_visibility run = PublicModel)) then Err InvalidJob else
  Ok tt.

(** ** Analysis of a program *)

Record ProgramAnalysis := mkAnalysis {
  pa_weights : gmap string (list I18);
  pa_required_graph_inputs : gset string;
  pa_required_virtual_inputs : gset nat;
  pa_rms_norm_tables : gmap (nat * Z) (gmap Z I18);
  pa_artifact_record_count : Z
}.

(** What the loop over the instructions collects. *)
Record Scan := mkScan {
  sc_weights : gmap string (list I18);
  sc_graph_inputs : gset string;
  sc_virtual_inputs : gset nat;
  sc_domain_keys : gset (nat * Z);
  sc_operand_references : Z
}.

Section Analysis.
Context `{HashOrder} (program : CompiledProgram) (shard : Shard) (limits : CpuWitnessLimits).

Let start := range_start (shard_range shard).
Let stop := range_end (shard_range shard).

(** [program.instructions[shard.range.clone()]]. *)
Definition shard_instructions : list CompiledInstruction := take (stop - start) (drop start (cp_instructions program)).

Definition weight_error (absolute_index : nat) (name : string) (error : Onnx.OnnxParseError) : BackendError :=
  match error with
  | WeightNotFound _ => MissingRegister (Weight name)
  | WeightOutOfRange _ _ _ => ArithmeticOverflow absolute_index
  | _ => InvalidJob
  end.

Definition scan_register (absolute_index : nat) (s : Scan) (register : Register) : Result Scan BackendError :=
  match register with
  | GraphInput name =>
      if negb (bool_decide (name ∈ cp_graph_inputs program)) then Err (MissingRegister (GraphInput name)) else
      Ok (mkScan (sc_weights s) ({[name]} ∪ sc_graph_inputs s) (sc_virtual_inputs s) (sc_domain_keys s) (sc_operand_references s))
  | Weight name =>
      match sc_weights s !! name with
      | Some _ => Ok s
      | None =>
          let? values := map_err (weight_error absolute_index name) (weight_as_i18 program name) in
          if values_per_tensor limits <? len values then Err ResourceError else
          Ok (mkScan (<[name := values]> (sc_weights s)) (sc_graph_inputs s) (sc_virtual_inputs s) (sc_domain_keys s) (sc_operand_references s))
      end
  | Virtual producer =>
      if (producer <? start)%nat then
        Ok (mkScan (sc_weights s) (sc_graph_inputs s) ({[producer]} ∪ sc_virtual_inputs s) (sc_domain_keys s) (sc_operand_references s))
      else if (absolute_index <=? producer)%nat then Err (ForwardRegister absolute_index (Virtual producer))
      else Ok s
  end.

Definition check_dimensions (absolute_index : nat) (instr : Instruction) : Result unit BackendError :=
  match instr with
  | DotGeneral m n k _ _ _ =>
      if (m =? 0)%nat || (n =? 0)%nat || (k =? 0)%nat then Err (ShapeMismatch absolute_index) else
      let? _ := checked_len absolute_index m k in
      let? _ := checked_len absolute_index k n in
      let? output_len := checked_len absolute_index m n in
      if values_per_tensor limits <? Z.of_nat output_len then Err ResourceError else Ok tt
  | Program.RmsNorm dim _ =>
      if (dim =? 0)%nat then Err (ShapeMismatch absolute_index) else
      if values_per_tensor limits <? Z.of_nat dim then Err ResourceError else Ok tt
  | _ => Ok tt
  end.

Definition scan_instruction (s : Scan) (entry : nat * CompiledInstruction) : Result Scan BackendError :=
  let '(index, compiled) := entry in
  let absolute_index := (start + index)%nat in
  let? references := ok_or (checked_add (sc_operand_references s) (len (ci_inputs compiled))) ResourceError in
  let? references := match ci_instruction compiled with
    | DotGeneral _ _ _ batch_dims _ _ => ok_or (checked_add references (len batch_dims)) ResourceError
    | _ => Ok references
    end in
  if operand_references limits <? references then Err ResourceError else
  let? _ := check_dimensions absolute_index (ci_instruction compiled) in
  let keys := match ci_instruction compiled with
    | Program.RmsNorm dim epsilon_milli => {[(dim, epsilon_milli)]} ∪ sc_domain_keys s
    | _ => sc_domain_keys s
    end in
  result_fold (scan_register absolute_index)
    (mkScan (sc_weights s) (sc_graph_inputs s) (sc_virtual_inputs s) keys references) (ci_inputs compiled).

Definition virtual_indices (registers : list Register) : gset nat :=
  list_to_set (omap (λ register, match register with Virtual index => Some index | _ => None end) registers).

Definition analyze_program (domains : gmap (nat * Z) Rsqrt.RsqrtDomain) : Outcome ProgramAnalysis BackendError :=
  let count := Z.of_nat (range_len (shard_range shard)) in
  if instruction_count limits <? count then Some (Err ResourceError) else
  let~ s := Some (result_fold scan_instruction (mkScan ∅ ∅ ∅ ∅ 0) (enumerate shard_instructions)) in
  if negb (bool_decide (sc_virtual_inputs s = virtual_indices (shard_inputs shard))) then Some (Err InvalidJob) else
  let~ input_record_count := Some (ok_or (
    v ← checked_add (Z.of_nat (size (sc_weights s))) (Z.of_nat (size (sc_graph_inputs s)));
    checked_add v (Z.of_nat (size (sc_virtual_inputs s)))) ResourceError) in
  let~ artifact_record_count := Some (validate_artifact_record_count input_record_count count
    (len (shard_outputs shard)) (tensor_count limits)) in
  let~ weight_values := Some (result_fold (λ sum values, ok_or (checked_add sum (len values)) ResourceError) 0
    (hash_order (map_to_list (sc_weights s))).*2) in
  if total_artifact_values limits <? weight_values then Some (Err ResourceError) else
  if negb (bool_decide (dom domains = sc_domain_keys s)) then Some (Err InvalidJob) else
  let~ total_domain_points := Some (result_fold (λ sum domain, ok_or (checked_add sum (domain_points_of domain)) ResourceError) 0
    (hash_order (map_to_list domains)).*2) in
  if domain_points limits <? total_domain_points then Some (Err ResourceError) else
  let~ '(_, tables) := outcome_mapM (λ (_ : unit) '(key, domain),
    let~ table := materialize_domain domain (domain_points limits) in Some (Ok (tt, (key, table)))) tt
    (hash_order (map_to_list domains)) in
  Some (Ok (mkAnalysis (sc_weights s) (sc_graph_inputs s) (sc_virtual_inputs s) (list_to_map tables) artifact_record_count)).

(** [boundary_register_order]: the filter remembers what it has yielded. *)
Fixpoint unseen (seen : gset Register) (registers : list Register) : list Register :=
  match registers with
  | [] => []
  | register :: registers =>
      if match register with
         | Weight _ => false
         | Virtual index => negb (range_contains (shard_range shard) index)
         | GraphInput _ => true
         end && negb (bool_decide (register ∈ seen))
      then register :: unseen ({[register]} ∪ seen) registers
      else unseen seen registers
  end.
Definition boundary_register_order : list Register := unseen ∅ (shard_instructions ≫= ci_inputs).

End Analysis.

(** ** The circuit digest *)

Definition CIRCUIT_BINDING_VERSION : bytes := PoseidonBoundary.zero_terminated "zkie.cpu-witness-circuit-binding.v3-boundary-shapes".

Definition encode_usize (value : nat) : bytes := encode_u64 (Z.of_nat value).
Definition encode_text (value : string) : bytes := encode_usize (String.length value) ++ as_bytes value.

Definition encode_register (register : Register) : bytes :=
  match register with
  | GraphInput name => [byte_of_Z 0] ++ encode_text name
  | Weight name => [byte_of_Z 1] ++ encode_text name
  | Virtual index => [byte_of_Z 2] ++ encode_usize index
  end.
Definition encode_registers (registers : list Register) : bytes :=
  encode_usize (length registers) ++ mjoin (encode_register <$> registers).

Definition encode_instruction (instr : Instruction) : bytes :=
  match instr with
  | DotGeneral m n k batch_dims trans_a trans_b =>
      [byte_of_Z 0] ++ mjoin (encode_usize <$> [m; n; k]) ++ encode_usize (length batch_dims) ++
      mjoin (encode_usize <$> batch_dims) ++ [byte_of_Z (Z.b2z trans_a)] ++ [byte_of_Z (Z.b2z trans_b)]
  | Softmax axis_dim => [byte_of_Z 1] ++ encode_usize axis_dim
  | Gelu => [byte_of_Z 2]
  | LayerNorm dim epsilon_milli => [byte_of_Z 3] ++ encode_usize dim ++ encode_u64 epsilon_milli
  | Program.RmsNorm dim epsilon_milli => [byte_of_Z 4] ++ encode_usize dim ++ encode_u64 epsilon_milli
  | Eltwise op => [byte_of_Z 5; byte_of_Z (match op with Add => 0 | Mul => 1 | Relu => 2 end)]
  | Reduce op axis => [byte_of_Z 6; byte_of_Z (match op with Sum => 0 | Mean => 1 end)] ++ encode_usize axis
  | EmbedLookup table_size embed_dim => [byte_of_Z 7] ++ encode_usize table_size ++ encode_usize embed_dim
  | PatchEmbed patch_len embed_dim => [byte_of_Z 8] ++ encode_usize patch_len ++ encode_usize embed_dim
  end.

(** [None] where the register is a weight, or has no shape. *)
Definition encode_boundary (boundary_shapes : gmap Register Z) (register : Register) : option bytes :=
  head ← match register with
    | GraphInput name => Some ([byte_of_Z 0] ++ encode_text name)
    | Virtual index => Some ([byte_of_Z 1] ++ encode_usize index)
    | Weight _ => None
    end;
  shape ← boundary_shapes !! register;
  Some (head ++ encode_u64 shape).

Definition encode_step (entry : nat * CompiledInstruction) : bytes :=
  encode_usize entry.1 ++ encode_instruction (ci_instruction entry.2) ++ encode_registers (ci_inputs entry.2).

Definition encode_weight (entry : string * list I18) : bytes :=
  encode_text entry.1 ++ encode_usize (length entry.2) ++ mjoin ((λ value, encode_i64 (raw value)) <$> entry.2).

Definition encode_domain (domain : Rsqrt.RsqrtDomain) : bytes :=
  match domain with
  | Rsqrt.Range min max n => [byte_of_Z 0] ++ encode_u64 (f64_to_bits min) ++ encode_u64 (f64_to_bits max) ++ encode_usize n
  | Rsqrt.RawAnchors points => [byte_of_Z 1] ++ encode_usize (length points) ++ mjoin (encode_i64 <$> points)
  end.

Definition encode_table (table : gmap Z I18) : bytes :=
  encode_usize (size table) ++
  mjoin ((λ entry : Z * I18, encode_i64 entry.1 ++ encode_i64 (raw entry.2)) <$> btree Z.compare table).

(** [None] where the domain has no table. *)
Definition encode_norm (tables : gmap (nat * Z) (gmap Z I18)) (entry : (nat * Z) * Rsqrt.RsqrtDomain) : option bytes :=
  table ← tables !! entry.1;
  Some (encode_usize entry.1.1 ++ encode_u64 entry.1.2 ++ encode_domain entry.2 ++ encode_table table).

Definition circuit_preimage (program : CompiledProgram) (shard : Shard) (domains : gmap (nat * Z) Rsqrt.RsqrtDomain)
    (weights : gmap string (list I18)) (tables : gmap (nat * Z) (gmap Z I18)) (boundary_shapes : gmap Register Z) : option bytes :=
  let range := shard_range shard in
  let order := boundary_register_order program shard in
  let steps := (λ '(index, compiled), ((range_start range + index)%nat, compiled)) <$> enumerate (shard_instructions program shard) in
  let sorted_weights := btree String.compare weights in
  let sorted_domains := btree Assembler.key_compare domains in
  boundaries ← mapM (encode_boundary boundary_shapes) order;
  norms ← mapM (encode_norm tables) sorted_domains;
  Some (CIRCUIT_BINDING_VERSION ++
    encode_usize (shard_id shard) ++
    encode_text (shard_name shard) ++
    encode_usize (range_start range) ++
    encode_usize (range_end range) ++
    encode_registers (shard_inputs shard) ++
    encode_registers (shard_outputs shard) ++
    PoseidonBoundary.zero_terminated "boundary-shapes-v1" ++
    encode_usize (length order) ++
    mjoin boundaries ++
    mjoin (encode_step <$> steps) ++
    encode_usize (length sorted_weights) ++
    mjoin (encode_weight <$> sorted_weights) ++
    encode_usize (length sorted_domains) ++
    mjoin norms).

Definition derive_circuit_digest `{Blake3} (program : CompiledProgram) (shard : Shard)
    (domains : gmap (nat * Z) Rsqrt.RsqrtDomain) (weights : gmap string (list I18))
    (tables : gmap (nat * Z) (gmap Z I18)) (boundary_shapes : gmap Register Z) : option Digest32 :=
  blake3 <$> circuit_preimage program shard domains weights tables boundary_shapes.

(** ** The back end *)

Record ZkieIsaCpuWitnessBackend := mkWitnessBackend {
  program : CompiledProgram;
  shard : Shard;
  shard_identity : ShardIdentity;
  run_identity : RunIdentity;
  rms_norm_tables : gmap (nat * Z) (gmap Z I18);
  rms_norm_domains : gmap (nat * Z) Rsqrt.RsqrtDomain;
  weights : gmap string (list I18);
  required_graph_inputs : gset string;
  required_virtual_inputs : gset nat;
  boundary_shapes : gmap Register Z;
  artifact_record_count : Z;
  limits : CpuWitnessLimits
}.

Definition shard_boundary_ok (shard : Shard) : bool :=
  forallb (λ register, match register with
    | Virtual index => (index <? range_start (shard_range shard))%nat
    | _ => false
    end) (shard_inputs shard)
  && forallb (λ register, match register with
    | Virtual index => range_contains (shard_range shard) index
    | _ => false
    end) (shard_outputs shard).

Definition with_limits `{Blake3, HashOrder} (program : CompiledProgram) (shard : Shard)
    (rms_norm_domains : gmap (nat * Z) Rsqrt.RsqrtDomain) (run_identity : RunIdentity) (limits : CpuWitnessLimits)
    (boundary_shapes : BoundaryShapeManifest) : Outcome ZkieIsaCpuWitnessBackend BackendError :=
  let range := shard_range shard in
  let~ _ := Some (limits_new limits) in
  let~ _ := Some (validate_run_identity run_identity) in
  if (range_end range <? range_start range)%nat || (length (cp_instructions program) <? range_end range)%nat
  then Some (Err InvalidJob) else
  if negb (bool_decide (NoDup (shard_inputs shard))) || negb (bool_decide (NoDup (shard_outputs shard)))
  then Some (Err InvalidJob) else
  if negb (shard_boundary_ok shard) then Some (Err InvalidJob) else
  let~ analysis := analyze_program program shard limits rms_norm_domains in
  let~ boundary_shapes := Some (validate_for boundary_shapes (pa_required_graph_inputs analysis)
    (pa_required_virtual_inputs analysis) limits) in
  let~ circuit_digest := or_panics (derive_circuit_digest program shard rms_norm_domains (pa_weights analysis)
    (pa_rms_norm_tables analysis) boundary_shapes) in
  let~ shard_identity := Some (
    let? id := ok_or (try_u64 (Z.of_nat (shard_id shard))) InvalidJob in
    shard_identity_new id (shard_name shard) circuit_digest) in
  Some (Ok (mkWitnessBackend program shard shard_identity run_identity (pa_rms_norm_tables analysis) rms_norm_domains
    (pa_weights analysis) (pa_required_graph_inputs analysis) (pa_required_virtual_inputs analysis) boundary_shapes
    (pa_artifact_record_count analysis) limits)).

Definition new `{Blake3, HashOrder} program shard rms_norm_domains run_identity boundary_shapes
    : Outcome ZkieIsaCpuWitnessBackend BackendError :=
  with_limits program shard rms_norm_domains run_identity default_limits boundary_shapes.

Definition circuit_digest (self : ZkieIsaCpuWitnessBackend) : Digest32 := si_circuit_digest (shard_identity self).

Definition required_outputs (self : ZkieIsaCpuWitnessBackend) : gset nat := virtual_indices (shard_outputs (shard self)).

Definition public_output_globals (self : ZkieIsaCpuWitnessBackend) : gset nat :=
  required_outputs self ∪ list_to_set (omap (λ '(_, register),
    match register with
    | Virtual index => if range_contains (shard_range (shard self)) index then Some index else None
    | _ => None
    end) (cp_graph_outputs (program self))).

(** The elements of a [BTreeSet<usize>]. *)
Definition ascending (s : gset nat) : list nat := sort_by Nat.compare (base.elements s).

Definition public_output_indices (self : ZkieIsaCpuWitnessBackend) : list nat :=
  (λ index, index - range_start (shard_range (shard self)))%nat <$> ascending (public_output_globals self).

Definition assembler_input_shapes (self : ZkieIsaCpuWitnessBackend) : option (list Z) :=
  mapM (λ register, boundary_shapes self !! register) (boundary_register_order (program self) (shard self)).

(** ** Executing an instruction *)

Definition overflows {A} (index : nat) (r : Result A FixedPointError) : Result A BackendError :=
  map_err (λ _, ArithmeticOverflow index) r.

Definition dot_index_a (m k : nat) (trans_a : bool) (row inner : nat) : nat :=
  if trans_a then inner * m + row else row * k + inner.
Definition dot_index_b (n k : nat) (trans_b : bool) (inner column : nat) : nat :=
  if trans_b then column * k + inner else inner * n + column.

(** One element of the product of two matrices. *)
Definition dot_element (index : nat) (m n k : nat) (trans_a trans_b : bool) (a b : list I18) (row column : nat)
    : Outcome I18 BackendError :=
  let~ sum := outcome_fold (λ sum inner,
    let~ x := or_panics (a !! dot_index_a m k trans_a row inner) in
    let~ y := or_panics (b !! dot_index_b n k trans_b inner column) in
    let sum := sum + raw x * raw y in
    Some (if bool_decide (in_i128 sum) then Ok sum else Err (ArithmeticOverflow index))) 0 (seq 0 k) in
  Some (let? '(q, _) := overflows index (requantize_raw sum) in Ok q).

(** A [for] loop that pushes to a vector. *)
Definition push_each {A B E} (f : A → Outcome B E) (l : list A) : Outcome (list B) E :=
  let~ '(_, out) := outcome_mapM (λ (_ : unit) x, let~ y := f x in Some (Ok (tt, y))) tt l in Some (Ok out).

Definition dot_general (index : nat) (operands : list (list I18)) (m n k : nat) (batch_dims : list nat) (trans_a trans_b : bool)
    : Outcome (list I18) BackendError :=
  match batch_dims with _ :: _ => Some (Err UnsupportedInstruction) | [] =>
  let~ _ := Some (expect_operands index operands 2) in
  let~ expected_a := Some (checked_len index m k) in
  let~ expected_b := Some (checked_len index k n) in
  let~ a := or_panics (operands !! 0%nat) in
  let~ b := or_panics (operands !! 1%nat) in
  if negb (length a =? expected_a)%nat || negb (length b =? expected_b)%nat then Some (Err (ShapeMismatch index)) else
  let~ _ := Some (checked_len index m n) in
  push_each (λ '(row, column), dot_element index m n k trans_a trans_b a b row column)
    (seq 0 m ≫= λ row, pair row <$> seq 0 n)
  end.

(** [None] at the [unreachable!]; a remainder by zero panics too. *)
Definition eltwise_element (index : nat) (op : EltwiseOp) (a b : list I18) (position : nat) : Outcome I18 BackendError :=
  if (length a =? 0)%nat || (length b =? 0)%nat then None else
  let~ x := or_panics (a !! (position mod length a)%nat) in
  let~ y := or_panics (b !! (position mod length b)%nat) in
  match op with
  | Add => Some (ok_or (from_raw <$> try_i64 (raw x + raw y)) (ArithmeticOverflow index))
  | Mul => Some (let? '(value, _) := overflows index (requantize_mul x y) in Ok value)
  | Relu => None
  end.

Definition eltwise (index : nat) (operands : list (list I18)) (op : EltwiseOp) : Outcome (list I18) BackendError :=
  let~ _ := Some (expect_operands index operands 2) in
  let~ a := or_panics (operands !! 0%nat) in
  let~ b := or_panics (operands !! 1%nat) in
  let out_len := (length a `max` length b)%nat in
  if (length a =? 0)%nat || (length b =? 0)%nat || negb (out_len mod length a =? 0)%nat || negb (out_len mod length b =? 0)%nat
  then Some (Err (ShapeMismatch index)) else
  push_each (eltwise_element index op a b) (seq 0 out_len).

Definition rms_norm (tables : gmap (nat * Z) (gmap Z I18)) (index : nat) (operands : list (list I18)) (dim : nat) (epsilon_milli : Z)
    : Outcome (list I18) BackendError :=
  let~ _ := Some (expect_operands index operands 2) in
  let~ a := or_panics (operands !! 0%nat) in
  let~ b := or_panics (operands !! 1%nat) in
  if (dim =? 0)%nat || negb (length a =? dim)%nat || negb (length b =? dim)%nat then Some (Err (ShapeMismatch index)) else
  Some (
    let? squares := result_mapM (λ value, let? '(square, _) := overflows index (requantize_mul value value) in Ok square) a in
    let? sum_raw := result_fold (λ sum value, ok_or (try_i64 (sum + raw value)) (ArithmeticOverflow index)) 0 squares in
    let? reciprocal := overflows index (from_f64 (f64_reciprocal dim)) in
    let? '(mean, _) := overflows index (requantize_mul (from_raw sum_raw) reciprocal) in
    let? epsilon := overflows index (from_f64 (f64_milli epsilon_milli)) in
    let? variance_plus_epsilon := ok_or (from_raw <$> try_i64 (raw mean + raw epsilon)) (ArithmeticOverflow index) in
    let? domain := ok_or (tables !! (dim, epsilon_milli)) InvalidJob in
    let? rsqrt := ok_or (domain !! raw variance_plus_epsilon) InvalidJob in
    result_mapM (λ '(x, weight),
      let? '(normalized, _) := overflows index (requantize_mul x rsqrt) in
      let? '(value, _) := overflows index (requantize_mul normalized weight) in
      Ok value) (zip a b)).

Definition execute_instruction (self : ZkieIsaCpuWitnessBackend) (index : nat) (instr : Instruction) (operands : list (list I18))
    : Outcome (list I18) BackendError :=
  match instr with
  | DotGeneral m n k batch_dims trans_a trans_b => dot_general index operands m n k batch_dims trans_a trans_b
  | Eltwise Add => eltwise index operands Add
  | Eltwise Mul => eltwise index operands Mul
  | Program.RmsNorm dim epsilon_milli => rms_norm (rms_norm_tables self) index operands dim epsilon_milli
  | _ => Some (Err UnsupportedInstruction)
  end.

(** ** Executing the shard *)

Definition first_missing_graph_input (self : ZkieIsaCpuWitnessBackend) (supplied : CpuWitnessInputs) : option string :=
  head (sort_by String.compare (base.elements (required_graph_inputs self ∖ dom (graph_inputs supplied)))).
Definition first_missing_virtual_input (self : ZkieIsaCpuWitnessBackend) (supplied : CpuWitnessInputs) : option nat :=
  head (ascending (required_virtual_inputs self ∖ dom (virtual_inputs supplied))).

Definition validate_supplied_inputs `{HashOrder} (self : ZkieIsaCpuWitnessBackend) (supplied : CpuWitnessInputs)
    : Outcome unit BackendError :=
  match first_missing_graph_input self supplied with Some name => Some (Err (MissingRegister (GraphInput name))) | None =>
  match first_missing_virtual_input self supplied with Some index => Some (Err (MissingRegister (Virtual index))) | None =>
  if negb (bool_decide (dom (graph_inputs supplied) = required_graph_inputs self))
     || negb (bool_decide (dom (virtual_inputs supplied) = required_virtual_inputs self))
  then Some (Err InvalidJob) else
  let~ _ := outcome_fold (λ (_ : unit) '(register, expected_len),
    let~ values := or_panics match register with
      | GraphInput name => graph_inputs supplied !! name
      | Virtual index => virtual_inputs supplied !! index
      | Weight _ => None
      end in
    Some (if negb (len values =? expected_len) then Err InvalidJob else Ok tt)) tt (hash_order (map_to_list (boundary_shapes self))) in
  Some (validate_tensor_collection
    ((hash_order (map_to_list (graph_inputs supplied))).*2 ++ (btree Nat.compare (virtual_inputs supplied)).*2)
    (tensor_count (limits self)) (values_per_tensor (limits self)) (total_input_values (limits self)))
  end end.

Definition resolve_external (self : ZkieIsaCpuWitnessBackend) (register : Register) (instruction : nat)
    (supplied : CpuWitnessInputs) : Result (list I18) BackendError :=
  match register with
  | GraphInput name => ok_or (graph_inputs supplied !! name) (MissingRegister register)
  | Weight name => ok_or (weights self !! name) (MissingRegister register)
  | Virtual index =>
      if (instruction <=? index)%nat then Err (ForwardRegister instruction register) else
      if (index <? range_start (shard_range (shard self)))%nat then
        if negb (bool_decide (register ∈ shard_inputs (shard self))) then Err (MissingRegister register) else
        ok_or (virtual_inputs supplied !! index) (MissingRegister register)
      else Err (MissingRegister register)
  end.

Record Execution := mkExecution {
  registers : gmap Register (list I18);
  boundary_inputs : gmap Register (list I18);
  virtuals : gmap nat (list I18);
  generated_values : Z
}.

Definition fetch_register (self : ZkieIsaCpuWitnessBackend) (supplied : CpuWitnessInputs) (index : nat) (st : Execution)
    (register : Register) : Result Execution BackendError :=
  match registers st !! register with
  | Some _ => Ok st
  | None =>
      let? values := resolve_external self register index supplied in
      Ok (mkExecution (<[register := values]> (registers st)) (<[register := values]> (boundary_inputs st)) (virtuals st)
        (generated_values st))
  end.

Definition execute_step (self : ZkieIsaCpuWitnessBackend) (supplied : CpuWitnessInputs) (st : Execution) (index : nat)
    : Outcome Execution BackendError :=
  let~ compiled := or_panics (cp_instructions (program self) !! index) in
  let~ st := Some (result_fold (fetch_register self supplied index) st (ci_inputs compiled)) in
  let~ operands := Some (result_mapM (λ register, ok_or (registers st !! register) (MissingRegister register)) (ci_inputs compiled)) in
  let~ output := execute_instruction self index (ci_instruction compiled) operands in
  if values_per_tensor (limits self) <? len output then Some (Err ResourceError) else
  let~ generated := Some (ok_or (checked_add (generated_values st) (len output)) ResourceError) in
  if total_artifact_values (limits self) <? generated then Some (Err ResourceError) else
  Some (Ok (mkExecution (<[Virtual index := output]> (registers st)) (boundary_inputs st) (<[index := output]> (virtuals st)) generated)).

(** The copy of the declared outputs; [None] at the [unreachable!]. *)
Definition copy_output (st : Execution) (outputs : gmap nat (list I18)) (register : Register)
    : Outcome (gmap nat (list I18)) BackendError :=
  match register with
  | Virtual index =>
      let~ values := Some (ok_or (registers st !! register) (MissingRegister register)) in
      Some (Ok (<[index := values]> outputs))
  | _ => None
  end.

Definition range_indices (r : Range) : list nat := seq (range_start r) (range_len r).

Definition execute `{Blake3, HashOrder} (self : ZkieIsaCpuWitnessBackend) (supplied : CpuWitnessInputs)
    : Outcome CpuWitnessArtifact BackendError :=
  let~ _ := validate_supplied_inputs self supplied in
  let~ st := outcome_fold (execute_step self supplied) (mkExecution ∅ ∅ ∅ 0) (range_indices (shard_range (shard self))) in
  let~ boundary_value_count := or_panics (usize_sum (len <$> (hash_order (map_to_list (boundary_inputs st))).*2)) in
  let~ output_value_count := or_panics (usize_sum (len <$> omap (λ index, virtuals st !! index) (ascending (required_outputs self)))) in
  let~ artifact_value_count := Some (ok_or (
    count ← checked_add boundary_value_count (generated_values st);
    checked_add count output_value_count) ResourceError) in
  if total_artifact_values (limits self) <? artifact_value_count then Some (Err ResourceError) else
  let~ outputs := outcome_fold (copy_output st) ∅ (shard_outputs (shard self)) in
  let~ count := Some (validate_artifact_record_count (Z.of_nat (size (boundary_inputs st))) (Z.of_nat (size (virtuals st)))
    (Z.of_nat (size outputs)) (tensor_count (limits self))) in
  if negb (count =? artifact_record_count self) then Some (Err InvalidJob) else
  Some (Ok (mkArtifact (shard self) (shard_identity self) (run_identity self) (canonical_digest blake3 (run_identity self))
    (boundary_inputs st) (virtuals st) outputs (tensor_count (limits self)))).

(** ** Lowering to the assembler *)

(** What the closure over the operands of an instruction has collected. *)
Record Lowered := mkLowered {
  external : gmap Register Assembler.RegisterRef;
  input_values : list (list I18);
  weight_values : list (list I18)
}.

(** One operand; [fetch] gives the values of a register at its position. *)
Definition lower_register (start : nat) (fetch : nat → Register → Outcome (list I18) BackendError) (st : Lowered) (register : Register)
    : Outcome (Lowered * Assembler.RegisterRef) BackendError :=
  let fresh :=
    match external st !! register with
    | Some reference => Some (Ok (st, reference))
    | None =>
        let position := match register with Weight _ => length (weight_values st) | _ => length (input_values st) end in
        let~ values := fetch position register in
        let reference := match register with Weight _ => Assembler.Weight position | _ => Assembler.Input position end in
        Some (Ok (match register with
          | Weight _ => mkLowered (<[register := reference]> (external st)) (input_values st) (weight_values st ++ [values])
          | _ => mkLowered (<[register := reference]> (external st)) (input_values st ++ [values]) (weight_values st)
          end, reference))
    end in
  match register with
  | Virtual source => if (start <=? source)%nat then Some (Ok (st, Assembler.Virtual (source - start))) else fresh
  | _ => fresh
  end.

Definition lower_instruction (self : ZkieIsaCpuWitnessBackend) (fetch : nat → Register → Outcome (list I18) BackendError)
    (st : Lowered) (index : nat) : Outcome (Lowered * Assembler.AssemblerInstruction) BackendError :=
  let~ compiled := or_panics (cp_instructions (program self) !! index) in
  let~ '(st, inputs) := outcome_mapM (lower_register (range_start (shard_range (shard self))) fetch) st (ci_inputs compiled) in
  Some (Ok (st, Assembler.mkAssemblerInstruction (ci_instruction compiled) inputs)).

Definition lower (self : ZkieIsaCpuWitnessBackend) (fetch : nat → Register → Outcome (list I18) BackendError)
    : Outcome Assembler.AssemblerProgram BackendError :=
  let~ '(st, instructions) := outcome_mapM (lower_instruction self fetch) (mkLowered ∅ [] []) (range_indices (shard_range (shard self))) in
  Some (Ok (Assembler.mkAssemblerProgram instructions (input_values st) (weight_values st))).

(** The values of a loaded artifact, or those the back end expects in a template. *)
Definition artifact_values (artifact : CpuWitnessArtifact) (_ : nat) (register : Register) : Outcome (list I18) BackendError :=
  Some (ok_or (art_inputs artifact !! register) (MissingRegister register)).
Definition template_values (self : ZkieIsaCpuWitnessBackend) (template : Assembler.AssemblerProgram) (position : nat) (register : Register)
    : Outcome (list I18) BackendError :=
  match register with
  | Weight name => or_panics (weights self !! name)
  | _ =>
      let~ supplied := Some (ok_or (Assembler.input_values template !! position) InvalidJob) in
      let~ shape := or_panics (boundary_shapes self !! register) in
      if negb (len supplied =? shape) then Some (Err InvalidJob) else Some (Ok supplied)
  end.

(** [load_assembler_program_and_public_values], from a loaded artifact. *)
Definition program_and_public_values (self : ZkieIsaCpuWitnessBackend) (artifact : CpuWitnessArtifact)
    : Outcome (Assembler.AssemblerProgram * list I18) BackendError :=
  let~ program := lower self (artifact_values artifact) in
  let~ outputs := or_panics (mapM (λ index, art_virtuals artifact !! index) (ascending (public_output_globals self))) in
  Some (Ok (program, concat (Assembler.input_values program ++ Assembler.weight_values program) ++ concat outputs)).

Definition validate_assembler_template `{Blake3, HashOrder} (self : ZkieIsaCpuWitnessBackend) (template : Assembler.AssemblerProgram)
    (domains : gmap (nat * Z) Rsqrt.RsqrtDomain) : Outcome ProgramCircuit.AssemblerCircuit BackendError :=
  let~ expected := lower self (template_values self template) in
  if negb (bool_decide (template = expected)) then Some (Err InvalidJob) else
  let output_indices := public_output_indices self in
  let invalid {A} (r : Result A string) : Outcome A BackendError := Some (map_err (λ _, InvalidJob) r) in
  let~ configured := invalid (ProgramCircuit.new_with_public_outputs expected (rms_norm_domains self) output_indices) in
  let~ supplied := invalid (ProgramCircuit.new_with_public_outputs template domains output_indices) in
  if negb (bool_decide (ProgramCircuit.shape_digest (ProgramCircuit.params configured)
                        = ProgramCircuit.shape_digest (ProgramCircuit.params supplied)))
  then Some (Err InvalidJob) else
  Some (Ok supplied).

(** ** The wire form of an artifact *)

Record IndexedValueWire := mkIndexed { iv_index : nat; iv_raw_values : list Z }.

Inductive RegisterWire :=
| GraphInputWire (name : string)
| WeightWire (name : string)
| VirtualWire (index : nat).

Record RegisterValueWire := mkRegisterValue { rv_register : RegisterWire; rv_raw_values : list Z }.

Record CpuWitnessArtifactWire := mkArtifactWire {
  aw_schema_version : Z;
  aw_run_identity : RunIdentity;
  aw_run_identity_digest : Digest32;
  aw_shard_identity : ShardIdentity;
  aw_circuit_digest : Digest32;
  aw_inputs : list RegisterValueWire;
  aw_virtuals : list IndexedValueWire;
  aw_outputs : list IndexedValueWire
}.

Record CpuWitnessInputWire := mkInputWire {
  iw_schema_version : Z;
  iw_graph_inputs : gmap string (list Z);
  iw_virtual_inputs : gmap nat (list Z)
}.

Definition from_register (register : Register) : RegisterWire :=
  match register with
  | GraphInput name => GraphInputWire name
  | Weight name => WeightWire name
  | Virtual index => VirtualWire index
  end.
Definition into_register (self : RegisterWire) : Register :=
  match self with
  | GraphInputWire name => GraphInput name
  | WeightWire name => Weight name
  | VirtualWire index => Virtual index
  end.
Definition sort_key (self : RegisterWire) : nat * string * nat :=
  match self with
  | GraphInputWire name => (0%nat, name, 0%nat)
  | WeightWire name => (1%nat, name, 0%nat)
  | VirtualWire index => (2%nat, ""%string, index)
  end.
Definition compare_wires (left right : RegisterValueWire) : comparison :=
  let l := sort_key (rv_register left) in
  let r := sort_key (rv_register right) in
  then_with (then_with (Nat.compare l.1.1 r.1.1) (String.compare l.1.2 r.1.2)) (Nat.compare l.2 r.2).

Definition raw_indexed (values : gmap nat (list I18)) : list IndexedValueWire :=
  (λ '(index, tensor), mkIndexed index (raw <$> tensor)) <$> btree Nat.compare values.

(** [CpuWitnessArtifact::to_json], up to [serde_json::to_vec]. *)
Definition to_wire `{HashOrder} (self : CpuWitnessArtifact) : Result CpuWitnessArtifactWire BackendError :=
  let? _ := validate_artifact_record_count (Z.of_nat (size (art_inputs self))) (Z.of_nat (size (art_virtuals self)))
    (Z.of_nat (size (art_outputs self))) (art_record_limit self) in
  let inputs := sort_by compare_wires
    ((λ '(register, values), mkRegisterValue (from_register register) (raw <$> values)) <$> hash_order (map_to_list (art_inputs self))) in
  Ok (mkArtifactWire ARTIFACT_SCHEMA_VERSION (art_run_identity self) (art_run_identity_digest self) (art_shard_identity self)
    (si_circuit_digest (art_shard_identity self)) inputs (raw_indexed (art_virtuals self)) (raw_indexed (art_outputs self))).

(** Insertion that refuses a key twice. *)
Definition insert_new {K} `{Countable K} (values : gmap K (list I18)) (key : K) (raw_values : list Z)
    : Result (gmap K (list I18)) BackendError :=
  match values !! key with
  | Some _ => Err InvalidJob
  | None => Ok (<[key := from_raw <$> raw_values]> values)
  end.

Definition into_i18_indexed (entries : list IndexedValueWire) : Result (gmap nat (list I18)) BackendError :=
  result_fold (λ values entry, insert_new values (iv_index entry) (iv_raw_values entry)) ∅ entries.
Definition into_i18_registers (entries : list RegisterValueWire) : Result (gmap Register (list I18)) BackendError :=
  result_fold (λ values entry, insert_new values (into_register (rv_register entry)) (rv_raw_values entry)) ∅ entries.

Definition expected_artifact_inputs (self : ZkieIsaCpuWitnessBackend) : gset Register :=
  set_map GraphInput (required_graph_inputs self) ∪ set_map Weight (dom (weights self)) ∪
  set_map Virtual (required_virtual_inputs self).

(** The inputs that an artifact records. *)
Definition supplied_of `{HashOrder} (inputs : gmap Register (list I18)) : CpuWitnessInputs :=
  let entries := hash_order (map_to_list inputs) in
  mkInputs
    (list_to_map (omap (λ '(register, values), match register with GraphInput name => Some (name, values) | _ => None end) entries))
    (list_to_map (omap (λ '(register, values), match register with Virtual index => Some (index, values) | _ => None end) entries)).

Definition decode_artifact_wire `{Blake3, HashOrder} (self : ZkieIsaCpuWitnessBackend) (wire : CpuWitnessArtifactWire)
    : Outcome CpuWitnessArtifact BackendError :=
  if negb (aw_schema_version wire =? ARTIFACT_SCHEMA_VERSION)
     || negb (bool_decide (aw_run_identity wire = run_identity self))
     || negb (bool_decide (aw_run_identity_digest wire = canonical_digest blake3 (aw_run_identity wire)))
     || negb (bool_decide (aw_run_identity_digest wire = canonical_digest blake3 (run_identity self)))
     || negb (bool_decide (aw_shard_identity wire = shard_identity self))
     || negb (bool_decide (aw_circuit_digest wire = circuit_digest self))
  then Some (Err InvalidJob) else
  let~ inputs := Some (into_i18_registers (aw_inputs wire)) in
  let~ virtuals := Some (into_i18_indexed (aw_virtuals wire)) in
  let~ outputs := Some (into_i18_indexed (aw_outputs wire)) in
  let~ count := Some (validate_artifact_record_count (Z.of_nat (size inputs)) (Z.of_nat (size virtuals)) (Z.of_nat (size outputs))
    (tensor_count (limits self))) in
  if negb (count =? artifact_record_count self) then Some (Err InvalidJob) else
  let~ _ := Some (validate_tensor_collection
    ((hash_order (map_to_list inputs)).*2 ++ (btree Nat.compare virtuals).*2 ++ (btree Nat.compare outputs).*2)
    (tensor_count (limits self)) (values_per_tensor (limits self)) (total_artifact_values (limits self))) in
  if negb (bool_decide (dom inputs = expected_artifact_inputs self))
     || negb (bool_decide (dom virtuals = list_to_set (range_indices (shard_range (shard self)))))
     || negb (bool_decide (dom outputs = required_outputs self))
  then Some (Err InvalidJob) else
  if existsb (λ '(index, output), negb (bool_decide (virtuals !! index = Some output))) (btree Nat.compare outputs)
  then Some (Err InvalidJob) else
  let~ recomputed := execute self (supplied_of inputs) in
  if negb (bool_decide (art_inputs recomputed = inputs)) || negb (bool_decide (art_virtuals recomputed = virtuals))
     || negb (bool_decide (art_outputs recomputed = outputs))
  then Some (Err InvalidJob) else
  Some (Ok (mkArtifact (shard self) (aw_shard_identity wire) (aw_run_identity wire) (aw_run_identity_digest wire)
    inputs virtuals outputs (tensor_count (limits self)))).

(** ** The trait *)

Definition validate_job (self : ZkieIsaCpuWitnessBackend) (job : WitnessJob) : Result unit BackendError :=
  if negb (bool_decide (wj_run_identity job = run_identity self))
     || negb (bool_decide (wj_shard job = shard_identity self))
     || negb (bool_decide (wj_expected_circuit_digest job = circuit_digest self))
  then Err InvalidJob else Ok tt.

Definition capabilities : Result BackendCapabilities BackendError :=
  let? capability := capability_parse "deterministic-fixed-point-witness-v1" in
  capabilities_new "zkie-isa-cpu-v1" ["halo2-kzg-bn256-shplonk-v1"] [capability].

Definition estimate_resources (self : ZkieIsaCpuWitnessBackend) (job : WitnessJob) : Result ResourceRequest BackendError :=
  let? _ := validate_job self job in
  let? ram := estimated_ram_bytes (limits self) in
  map_err (λ _, ResourceError) (Resource.request_new 1 ram 0 0).

(** [serde_json] on the two wire types, and the file operations of this file. *)
Class Host := {
  from_slice_inputs : bytes → option CpuWitnessInputWire;
  from_slice_artifact : bytes → option CpuWitnessArtifactWire;
  to_vec : CpuWitnessArtifactWire → option bytes;
  read_bounded : string → Z → Result bytes BackendError;
  write_exclusive_and_hash : string → bytes → Z → Result Digest32 BackendError
}.

Section Files.
Context `{Blake3, HashOrder, Host} (self : ZkieIsaCpuWitnessBackend).

Definition to_json (artifact : CpuWitnessArtifact) : Result bytes BackendError :=
  let? wire := to_wire artifact in ok_or (to_vec wire) Serialization.

Definition generate (job : WitnessJob) (output : string) : Outcome WitnessArtifact BackendError :=
  let~ _ := Some (validate_job self job) in
  let~ b := Some (read_bounded (wj_witness_input_path job) (input_bytes (limits self))) in
  let~ wire := Some (ok_or (from_slice_inputs b) Serialization) in
  if negb (iw_schema_version wire =? INPUT_SCHEMA_VERSION) then Some (Err Serialization) else
  let supplied := mkInputs (map from_raw <$> iw_graph_inputs wire) (map from_raw <$> iw_virtual_inputs wire) in
  let~ artifact := execute self supplied in
  let~ encoded := Some (to_json artifact) in
  if artifact_bytes (limits self) <? len encoded then Some (Err ResourceError) else
  let~ digest := Some (write_exclusive_and_hash output encoded (artifact_bytes (limits self))) in
  Some (witness_artifact_new output digest (wj_shard job) (circuit_digest self)).

Definition load_artifact (artifact : WitnessArtifact) : Outcome CpuWitnessArtifact BackendError :=
  if negb (bool_decide (wa_shard artifact = shard_identity self))
     || negb (bool_decide (wa_circuit_digest artifact = circuit_digest self))
  then Some (Err InvalidJob) else
  let~ b := Some (read_bounded (wa_path artifact) (artifact_bytes (limits self))) in
  if negb (bool_decide (blake3 b = wa_digest artifact)) then Some (Err InvalidJob) else
  let~ wire := Some (ok_or (from_slice_artifact b) Serialization) in
  decode_artifact_wire self wire.

Definition load_assembler_program_and_public_values (artifact : WitnessArtifact)
    : Outcome (Assembler.AssemblerProgram * list I18) BackendError :=
  let~ artifact := load_artifact artifact in
  program_and_public_values self artifact.

Definition load_assembler_program (artifact : WitnessArtifact) : Outcome Assembler.AssemblerProgram BackendError :=
  let~ '(program, _) := load_assembler_program_and_public_values artifact in Some (Ok program).
End Files.

End WitnessCpu.
