(* ===== verification/WitnessRun.v ===== *)
(** * Executing one instruction

    Rules for routines that may panic, and the instructions of the CPU witness back
    end: they never panic, and what they compute is what [Evaluate] says. *)
From stdpp Require Import gmap.
From S2P Require Import Prelude FixedPoint DotProduct Norm Ordering Bytes State Identity Program Dag.
From S2P Require Import PoseidonBoundary Backend Onnx Assembler Evaluate WitnessCpu.

Open Scope Z_scope.

(** ** Outcomes *)

Lemma or_panics_Ok {A E} (o : option A) a : or_panics (E := E) o = Some (Ok a) ↔ o = Some a.
Proof. destruct o; simpl; naive_solver. Qed.
Lemma Some_Ok {A E} (r : Result A E) a : Some r = Some (Ok a) → r = Ok a.
Proof. by intros [= ->]. Qed.

(** A routine that does not panic, with what it returns and how it fails. *)
Definition out {A E} (m : Outcome A E) (Q : A → Prop) (R : E → Prop) : Prop :=
  match m with Some (Ok a) => Q a | Some (Err e) => R e | None => False end.

Lemma out_bind {A B E} (m : Outcome A E) (k : A → Outcome B E) Q R Q' :
  out m Q' R → (∀ a, m = Some (Ok a) → Q' a → out (k a) Q R) → out (outcome_bind m k) Q R.
Proof. destruct m as [[]|]; simpl; auto. Qed.
Lemma out_result {A E} (r : Result A E) Q (R : E → Prop) : (∀ a, r = Ok a → Q a) → (∀ e, r = Err e → R e) → out (Some r) Q R.
Proof. destruct r; simpl; auto. Qed.
Lemma out_panics {A E} (o : option A) a (Q : A → Prop) (R : E → Prop) : o = Some a → Q a → out (or_panics o) Q R.
Proof. by intros ->. Qed.
Lemma out_weaken {A E} (m : Outcome A E) (Q Q' : A → Prop) (R R' : E → Prop) :
  out m Q R → (∀ a, Q a → Q' a) → (∀ e, R e → R' e) → out m Q' R'.
Proof. destruct m as [[]|]; simpl; auto. Qed.
Lemma out_Ok {A E} (m : Outcome A E) (Q : A → Prop) (R : E → Prop) a : out m Q R → m = Some (Ok a) → Q a.
Proof. by intros H ->. Qed.
Lemma out_Err {A E} (m : Outcome A E) (Q : A → Prop) (R : E → Prop) e : out m Q R → m = Some (Err e) → R e.
Proof. by intros H ->. Qed.
Lemma out_self {A E} (m : Outcome A E) (Q : A → Prop) (R : E → Prop) : out m Q R → out m (λ a, m = Some (Ok a) ∧ Q a) (λ e, m = Some (Err e) ∧ R e).
Proof. destruct m as [[]|]; simpl; auto. Qed.

Lemma out_fold {A S E} (P : nat → S → Prop) (R : E → Prop) (f : S → A → Outcome S E) s l :
  P O s → (∀ i x s, l !! i = Some x → P i s → out (f s x) (P (Datatypes.S i)) R) → out (outcome_fold f s l) (P (length l)) R.
Proof.
  revert P s. induction l as [|x l IH]; intros P s H0 Hf; [done|]. cbn [outcome_fold length].
  apply (out_bind _ _ _ _ (P 1%nat)); [by apply (Hf O)|]. intros s' _ Hs'.
  apply (IH (λ i, P (Datatypes.S i))); [done|]. intros i y t Hy. by apply (Hf (Datatypes.S i)).
Qed.

Lemma outcome_fold_app {A S E} (f : S → A → Outcome S E) s l l' :
  outcome_fold f s (l ++ l') = (let~ t := outcome_fold f s l in outcome_fold f t l').
Proof. revert s. induction l as [|x l IH]; intros s; [done|]. simpl. by destruct (f s x) as [[]|]; simpl. Qed.

Lemma out_mapM {A B S E} (P : nat → S → list B → Prop) (R : E → Prop) (f : S → A → Outcome (S * B) E) s l :
  P O s [] →
  (∀ i x s ys, l !! i = Some x → P i s ys → out (f s x) (λ p, P (Datatypes.S i) p.1 (ys ++ [p.2])) R) →
  out (outcome_mapM f s l) (λ p, P (length l) p.1 p.2) R.
Proof.
  revert P s. induction l as [|x l IH]; intros P s H0 Hf; [done|]. cbn [outcome_mapM length].
  eapply out_bind; [by apply (Hf O)|]. intros [s' y] _ Hs'.
  eapply out_bind; [apply (IH (λ i s ys, P (Datatypes.S i) s (y :: ys))); [done|]|by intros [t ys] _ H].
  intros i z t ys Hz HP. by apply (Hf (Datatypes.S i) z t (y :: ys)).
Qed.

Lemma push_each_Ok {A B E} (f : A → Outcome B E) l ys :
  WitnessCpu.push_each f l = Some (Ok ys) ↔ Forall2 (λ x y, f x = Some (Ok y)) l ys.
Proof.
  unfold WitnessCpu.push_each. rewrite outcome_bind_Ok. transitivity (outcome_mapM (λ (_ : unit) x, let~ y := f x in Some (Ok (tt, y))) tt l = Some (Ok (tt, ys))).
  { split; [|by eauto]. by intros ([[] zs] & H & [= ->]). }
  revert ys. induction l as [|x l IH]; intros ys; cbn [outcome_mapM].
  { split; [by intros [= <-]|by inversion 1]. }
  split.
  - intros ([[] y] & (y' & Hy & [= ->])%outcome_bind_Ok & ([[] zs] & Hz & [= <-])%outcome_bind_Ok)%outcome_bind_Ok.
    constructor; [done|by apply IH].
  - inversion_clear 1 as [|? y ? zs Hy Hz]. rewrite Hy. cbn [outcome_bind]. by rewrite (proj2 (IH zs) Hz).
Qed.
Lemma out_push {A B E} (R : E → Prop) (f : A → Outcome B E) l :
  (∀ x, x ∈ l → out (f x) (λ _, True) R) → out (WitnessCpu.push_each f l) (λ _, True) R.
Proof.
  intros Hf. unfold WitnessCpu.push_each. eapply out_bind; [|by intros [[] ys] _ _].
  apply (out_mapM (λ _ _ _, True)); [done|]. intros i x [] ys Hx _.
  eapply out_bind; [by apply Hf, (list_elem_of_lookup_2 _ i)|]. by intros.
Qed.

(** ** Instructions *)

Module Exec.
Import Backend WitnessCpu.

Lemma panics_Ok {A} (o : option A) a : or_panics (E := BackendError) o = Some (Ok a) → o = Some a.
Proof. apply or_panics_Ok. Qed.
Lemma checked_len_Ok index l r n : checked_len index l r = Ok n ↔ n = (l * r)%nat ∧ in_u64 (Z.of_nat (l * r)).
Proof.
  unfold checked_len, checked_mul. rewrite ok_or_Ok, fmap_Some. setoid_rewrite try_u64_Some. rewrite <-Nat2Z.inj_mul.
  split; [intros (z & [<- Hz] & ->); by rewrite Nat2Z.id|intros [-> Hz]; eexists; split; [by split|]; by rewrite Nat2Z.id].
Qed.
Lemma checked_len_Err index l r e : checked_len index l r = Err e → e = ArithmeticOverflow index.
Proof. unfold checked_len, ok_or. destruct (_ <$> _); by intros [= <-]. Qed.

(** How an instruction may fail. *)
Definition instruction_error (index : nat) (e : BackendError) : Prop :=
  e = ShapeMismatch index ∨ e = ArithmeticOverflow index ∨ e = UnsupportedInstruction ∨ e = InvalidJob.

Lemma overflows_Err {A} index (r : Result A FixedPointError) e : overflows index r = Err e → e = ArithmeticOverflow index.
Proof. unfold overflows. destruct r; by intros [= <-]. Qed.

#[local] Hint Unfold instruction_error : core.
#[local] Hint Resolve checked_len_Err overflows_Err : core.

Lemma expect_operands_out index ops n : out (Some (expect_operands index ops n)) (λ _, length ops = n) (instruction_error index).
Proof. unfold expect_operands. destruct (Nat.eqb_spec (length ops) n); simpl; auto. Qed.
Lemma checked_len_out index l r : out (Some (checked_len index l r)) (λ n, n = (l * r)%nat) (instruction_error index).
Proof. apply out_result; [by intros n [? _]%checked_len_Ok|]. intros e ->%checked_len_Err. auto. Qed.

Lemma index_bound_a m k ta row inner : (row < m → inner < k → dot_index_a m k ta row inner < m * k)%nat.
Proof. unfold dot_index_a. destruct ta; nia. Qed.
Lemma index_bound_b n k tb inner column : (column < n → inner < k → dot_index_b n k tb inner column < k * n)%nat.
Proof. unfold dot_index_b. destruct tb; nia. Qed.

Lemma dot_element_out index m n k ta tb a b row column :
  length a = (m * k)%nat → length b = (k * n)%nat → (row < m)%nat → (column < n)%nat →
  out (dot_element index m n k ta tb a b row column) (λ _, True) (instruction_error index).
Proof.
  intros Ha Hb Hr Hc. unfold dot_element. apply (out_bind _ _ _ _ (λ _, True)).
  - apply (out_fold (λ _ _, True)); [done|]. intros i inner sum [-> Hi]%lookup_seq _.
    destruct (lookup_lt_is_Some_2 a (dot_index_a m k ta row (0 + i))) as [x Hx]; [rewrite Ha; by apply index_bound_a|].
    destruct (lookup_lt_is_Some_2 b (dot_index_b n k tb (0 + i) column)) as [y Hy]; [rewrite Hb; by apply index_bound_b|].
    rewrite Hx, Hy. simpl. case_bool_decide; simpl; auto.
  - intros sum _ _. apply out_result; [done|]. intros e [H|([] & _ & [=])]%result_bind_Err. apply overflows_Err in H. auto.
Qed.

Lemma two_operands (ops : list (list I18)) : length ops = 2%nat → ∃ a b, ops = [a; b].
Proof. destruct ops as [|a [|b [|]]]; try done. eauto. Qed.

(** The two operands every instruction starts by taking. *)
Lemma out_operands {B} index ops (k : unit → list I18 → list I18 → Outcome B BackendError) Q :
  (∀ a b, ops = [a; b] → out (k tt a b) Q (instruction_error index)) →
  out (let~ u := Some (expect_operands index ops 2) in
       let~ a := or_panics (ops !! 0%nat) in let~ b := or_panics (ops !! 1%nat) in k u a b) Q (instruction_error index).
Proof.
  intros Hk. eapply out_bind; [apply expect_operands_out|]. intros [] _ (a & b & ->)%two_operands. simpl. by apply Hk.
Qed.

Lemma dot_general_out index ops m n k bd ta tb :
  out (dot_general index ops m n k bd ta tb) (λ _, True) (instruction_error index).
Proof.
  unfold dot_general. destruct bd; [|simpl; auto]. eapply out_bind; [apply expect_operands_out|]. intros [] _ (a & b & ->)%two_operands.
  eapply out_bind; [apply checked_len_out|]. intros ea _ ->. eapply out_bind; [apply checked_len_out|]. intros eb _ ->.
  cbn [or_panics lookup list_lookup option_map outcome_bind].
  destruct (Nat.eqb_spec (length a) (m * k)) as [Ha|], (Nat.eqb_spec (length b) (k * n)) as [Hb|]; cbn [negb orb]; [|by left..].
  destruct (checked_len index m n) eqn:E; [|apply checked_len_Err in E as ->; simpl; auto]. apply out_push.
  intros [row column] (r & Hin & Hr%elem_of_seq)%list_elem_of_bind. apply list_elem_of_fmap in Hin as (c & [= -> ->] & Hc%elem_of_seq).
  apply dot_element_out; lia || done.
Qed.

Lemma eltwise_out index ops op : op ≠ Relu → out (eltwise index ops op) (λ _, True) (instruction_error index).
Proof.
  intros Hop. unfold eltwise. apply out_operands. intros a b ->.
  destruct (Nat.eqb_spec (length a) 0) as [|Ha], (Nat.eqb_spec (length b) 0) as [|Hb]; cbn [orb]; [by left..|].
  destruct (_ || _); [by left|]. apply out_push. intros position _. unfold eltwise_element.
  rewrite (proj2 (Nat.eqb_neq _ _) Ha), (proj2 (Nat.eqb_neq _ _) Hb). cbn [orb].
  destruct (lookup_lt_is_Some_2 a (position mod length a)) as [x ->]; [by apply Nat.mod_upper_bound|].
  destruct (lookup_lt_is_Some_2 b (position mod length b)) as [y ->]; [by apply Nat.mod_upper_bound|].
  cbn [or_panics option_map outcome_bind]. destruct op; [| |done]; apply out_result; try done; intros e.
  - unfold ok_or. destruct (_ <$> _); intros [= <-]; auto.
  - intros [H|([] & _ & [=])]%result_bind_Err. apply overflows_Err in H. auto.
Qed.

(** Each failure of a composed computation is a failure of one of its parts. *)
Lemma bind_Err {A B} index (r : Result A BackendError) (k : A → Result B BackendError) e :
  (∀ e', r = Err e' → instruction_error index e') → (∀ a e', k a = Err e' → instruction_error index e') →
  result_bind r k = Err e → instruction_error index e.
Proof. intros Hr Hk [H|(a & _ & H)]%result_bind_Err; eauto. Qed.
Lemma mapM_Err {A B} index (f : A → Result B BackendError) l e :
  (∀ x e', f x = Err e' → instruction_error index e') → result_mapM f l = Err e → instruction_error index e.
Proof.
  intros Hf. revert e. induction l as [|x l IH]; intros e; [done|]. cbn [result_mapM]. apply bind_Err; [by apply Hf|].
  intros y e'. by apply bind_Err.
Qed.
Lemma fold_Err {A S} index (f : S → A → Result S BackendError) s l e :
  (∀ s x e', f s x = Err e' → instruction_error index e') → result_fold f s l = Err e → instruction_error index e.
Proof.
  intros Hf. revert s e. induction l as [|x l IH]; intros s e; [done|]. cbn [result_fold].
  apply bind_Err; [by apply Hf|]. intros t e'. apply IH.
Qed.
Lemma arithmetic_Err {A} index (r : Result A FixedPointError) e : overflows index r = Err e → instruction_error index e.
Proof. intros ->%overflows_Err. auto. Qed.
Lemma checked_Err {A} index (o : option A) e' e : instruction_error index e' → ok_or o e' = Err e → instruction_error index e.
Proof. unfold ok_or. destruct o; intros H [= <-]; done. Qed.

Ltac fails :=
  repeat first [ done | by apply arithmetic_Err | by (apply checked_Err; auto)
               | apply fold_Err; intros | apply mapM_Err; intros | apply bind_Err; intros
               | match goal with H : result_bind _ _ = Err _ |- _ => revert H end
               | match goal with H : _ = Err _ |- _ => revert H end
               | match goal with x : (_ * _)%type |- _ => destruct x end ].

Lemma rms_norm_out tables index ops dim epsilon_milli :
  out (rms_norm tables index ops dim epsilon_milli) (λ _, True) (instruction_error index).
Proof.
  unfold rms_norm. apply out_operands. intros a b ->. destruct (_ || _); [by left|].
  apply out_result; [done|]. intros e. fails.
Qed.

(** ** The instructions compute what [Evaluate] says *)

Lemma dot_fold_eval index (fa fb : nat → nat) a b ls sum s :
  Forall in_I18 a → Forall in_I18 b →
  outcome_fold (λ sum inner,
    let~ x := or_panics (a !! fa inner) in
    let~ y := or_panics (b !! fb inner) in
    let sum := sum + raw x * raw y in
    Some (if bool_decide (in_i128 sum) then Ok sum else Err (ArithmeticOverflow index))) sum ls = Some (Ok s) →
  ∃ xs ys, mapM (λ l, tensor_at a (fa l)) ls = Some xs ∧ mapM (λ l, tensor_at b (fb l)) ls = Some ys ∧
    checked_sum sum (DotProduct.products (raw <$> xs) (raw <$> ys)) = Some s.
Proof.
  intros Ha Hb. revert sum. induction ls as [|l ls IH]; intros sum; cbn [outcome_fold].
  { intros [= <-]. by exists [], []. }
  intros (t & (x & Hx%panics_Ok & (y & Hy%panics_Ok & Ht)%outcome_bind_Ok)%outcome_bind_Ok & H)%outcome_bind_Ok.
  cbv zeta in Ht. case_bool_decide as Hr; [|done]. injection Ht as <-.
  destruct (IH _ H) as (xs & ys & Hxs & Hys & Hs). exists (x :: xs), (y :: ys).
  split_and!; simpl; rewrite ?tensor_at_lookup by done; [by rewrite Hx; simpl; rewrite Hxs|by rewrite Hy; simpl; rewrite Hys|].
  rewrite bool_decide_eq_true_2 by done. exact Hs.
Qed.

Lemma dot_element_eval index m n k ta tb a b row column q :
  Forall in_I18 a → Forall in_I18 b → dot_element index m n k ta tb a b row column = Some (Ok q) →
  dot_at checked_total m n k ta tb a b (row, column) = Some q.
Proof.
  intros Ha Hb. unfold dot_element. intros (s & Hs & Hq)%outcome_bind_Ok.
  destruct (dot_fold_eval index (dot_index_a m k ta row) (λ l, dot_index_b n k tb l column) a b _ _ _ Ha Hb Hs) as (xs & ys & Hxs & Hys & Hsum).
  unfold dot_at. change (λ l, tensor_at a (Assembler.phys_a m k ta (row, column).1 l)) with (λ l, tensor_at a (dot_index_a m k ta row l)).
  change (λ l, tensor_at b (Assembler.phys_b n k tb l (row, column).2)) with (λ l, tensor_at b (dot_index_b n k tb l column)).
  rewrite Hxs. cbn [mbind option_bind]. rewrite Hys. cbn [mbind option_bind]. unfold checked_total. rewrite Hsum. cbn [mbind option_bind].
  unfold overflows in Hq. destruct (requantize_raw s) as [[q' r]|]; simpl in Hq; [|done]. by injection Hq as ->.
Qed.

Lemma eltwise_element_eval index op a b position v :
  Forall in_I18 a → Forall in_I18 b → eltwise_element index op a b position = Some (Ok v) →
  eltwise_at (match op with Add => add_numbers | _ => mul_numbers end) a b position = Some v.
Proof.
  intros Ha Hb. unfold eltwise_element, eltwise_at. destruct (_ || _); [done|].
  intros (x & Hx%panics_Ok & (y & Hy%panics_Ok & H)%outcome_bind_Ok)%outcome_bind_Ok.
  rewrite !tensor_at_lookup, Hx, Hy by done. cbn [mbind option_bind]. unfold add_numbers, mul_numbers. destruct op; [| |done].
  - by apply Some_Ok, ok_or_Ok in H.
  - unfold overflows in H. destruct (requantize_mul x y) as [[q r]|]; simpl in H; [|done]. by injection H as ->.
Qed.

Lemma push_mapM {A B} (f : A → Outcome B BackendError) (g : A → option B) l ys :
  (∀ x y, f x = Some (Ok y) → g x = Some y) → push_each f l = Some (Ok ys) → mapM g l = Some ys.
Proof. intros Hfg H%push_each_Ok. apply mapM_Some. by eapply Forall2_impl. Qed.

Lemma execute_instruction_eval self index instr a b v :
  Forall in_I18 a → Forall in_I18 b → (∀ dim epsilon, instr ≠ Program.RmsNorm dim epsilon) →
  execute_instruction self index instr [a; b] = Some (Ok v) → eval_instruction checked_total instr a b = Some v.
Proof.
  intros Ha Hb Hr. unfold execute_instruction, eval_instruction. destruct instr as [m n k bd ta tb| | | |dim eps|op| | |]; try done.
  - unfold dot_general, Evaluate.dot_general. destruct bd; [|done]. cbn [lookup list_lookup].
    intros (_ & _ & (ea & [-> _]%Some_Ok%checked_len_Ok & (eb & [-> _]%Some_Ok%checked_len_Ok & H)%outcome_bind_Ok)%outcome_bind_Ok)%outcome_bind_Ok.
    cbn [or_panics option_map outcome_bind] in H.
    destruct (length a =? m * k)%nat, (length b =? k * n)%nat; simpl in H; try done.
    destruct (checked_len index m n); [|done]. revert H. apply push_mapM. intros [i j] q. by apply dot_element_eval.
  - by destruct (Hr dim eps).
  - unfold eltwise, Evaluate.eltwise. destruct op; [| |done]; intros (_ & _ & H)%outcome_bind_Ok;
      cbn [lookup list_lookup or_panics option_map outcome_bind] in H;
      destruct (Nat.eqb_spec (length a) 0), (Nat.eqb_spec (length b) 0); try done;
      rewrite !(proj2 (Nat.ltb_lt 0 _)) by lia; cbn [orb andb] in *;
      destruct (_ mod length a =? 0)%nat; try done; destruct (_ mod length b =? 0)%nat; try done; cbn [orb negb] in H;
      revert H; apply push_mapM; intros position x; by apply eltwise_element_eval.
Qed.

Lemma execute_instruction_out self index instr ops :
  out (execute_instruction self index instr ops) (λ _, True) (instruction_error index).
Proof.
  destruct instr as [m n k bd ta tb| | | |dim eps|[]| | |]; simpl; auto using dot_general_out, rms_norm_out; by apply eltwise_out.
Qed.

Lemma expect_operands_Ok index (ops : list (list I18)) n u : expect_operands index ops n = Ok u → length ops = n.
Proof. unfold expect_operands. by destruct (Nat.eqb_spec (length ops) n). Qed.

Lemma execute_instruction_operands self index instr ops v :
  execute_instruction self index instr ops = Some (Ok v) → ∃ a b, ops = [a; b].
Proof.
  intros H. apply two_operands. destruct instr as [m n k bd ta tb| | | |dim eps|[]| | |]; try done; simpl in H;
    [unfold dot_general in H; destruct bd; [|done]|unfold rms_norm in H|unfold eltwise in H..];
    apply outcome_bind_Ok in H as (u & Hu%Some_Ok%expect_operands_Ok & _); done.
Qed.
End Exec.

(** ** Executing a shard

    What the constructor of the CPU witness back end has checked, the state of an
    execution after any number of instructions, and what a finished execution leaves. *)
Import Backend WitnessCpu Exec Onnx.

Open Scope Z_scope.

Lemma result_fold_enumerate {A S E} (P : nat → S → Prop) (f : S → nat * A → Result S E) s s' l :
  P O s → (∀ i x t t', l !! i = Some x → P i t → f t (i, x) = Ok t' → P (Datatypes.S i) t') →
  result_fold f s (enumerate l) = Ok s' → P (length l) s'.
Proof.
  intros H0 Hf. unfold enumerate.
  assert (∀ l' n t, (∀ i x, l' !! i = Some x → l !! (n + i)%nat = Some x) → P n t →
    result_fold f t (zip (seq n (length l')) l') = Ok s' → P (n + length l')%nat s') as H.
  { induction l' as [|x l' IH]; intros n t Hl Ht; cbn [length seq zip zip_with result_fold].
    - intros [= <-]. by rewrite Nat.add_0_r.
    - intros (t' & Hx & Hr)%result_bind_Ok. replace (n + Datatypes.S (length l'))%nat with (Datatypes.S n + length l')%nat by lia.
      apply (IH _ t'); [|apply (Hf n x t); [rewrite <-(Nat.add_0_r n); by apply Hl|done..]|done].
      intros i y Hy. replace (Datatypes.S n + i)%nat with (n + Datatypes.S i)%nat by lia. by apply Hl. }
  intros Hr. apply (H l 0%nat s); [by intros|done|exact Hr].
Qed.
Lemma result_fold_inv {A S E} (P : list A → S → Prop) (f : S → A → Result S E) s s' l k :
  P k s → (∀ k x t t', x ∈ l → P k t → f t x = Ok t' → P (k ++ [x]) t') → result_fold f s l = Ok s' → P (k ++ l) s'.
Proof.
  revert k s. induction l as [|x l IH]; intros k s H0 Hf; cbn [result_fold].
  - intros [= <-]. by rewrite app_nil_r.
  - intros (t & Hx & Hr)%result_bind_Ok. rewrite cons_middle, app_assoc. apply (IH _ t); [|intros; eapply Hf; [by right|done..]|done].
    eapply Hf; [by left|done..].
Qed.

(** ** What the constructor checks *)

Section Analysis.
Context (program : CompiledProgram) (shard : Shard) (limits : CpuWitnessLimits).
Notation start := (range_start (shard_range shard)).

(** What the scan has collected, after the registers [rs]. *)
Record scanned (rs : list Register) (s : Scan) : Prop := {
  sd_graph name : name ∈ sc_graph_inputs s ↔ GraphInput name ∈ rs;
  sd_virtual p : p ∈ sc_virtual_inputs s ↔ Virtual p ∈ rs ∧ (p < start)%nat;
  sd_weight name : is_Some (sc_weights s !! name) ↔ Weight name ∈ rs;
  sd_values name v : sc_weights s !! name = Some v → weight_as_i18 program name = Ok v ∧ len v ≤ values_per_tensor limits
}.

Lemma scanned_nil : scanned [] (mkScan ∅ ∅ ∅ ∅ 0).
Proof.
  split; cbn -[dom]; [set_solver..| |]; intros name; [rewrite lookup_empty|intros v; by rewrite lookup_empty].
  split; [by intros []|by intros ?%elem_of_nil].
Qed.

Lemma scan_register_ok index rs s r s' :
  scanned rs s → scan_register program shard limits index s r = Ok s' →
  scanned (rs ++ [r]) s' ∧ sc_domain_keys s' = sc_domain_keys s ∧ sc_operand_references s' = sc_operand_references s ∧
  ∀ p, r = Virtual p → (start ≤ p)%nat → (p < index)%nat.
Proof.
  intros [Hg Hv Hw Hn]. unfold scan_register. destruct r as [name|name|p].
  - destruct (bool_decide _); [|done]. cbn [negb]. intros [= <-]. split; [|done].
    split; cbn -[union]; intros; rewrite ?elem_of_union, ?elem_of_app, ?list_elem_of_singleton, ?elem_of_singleton, ?Hg, ?Hv, ?Hw; [naive_solver..|eauto].
  - destruct (sc_weights s !! name) as [v|] eqn:E.
    + intros [= <-]. split; [|done]. assert (Weight name ∈ rs) as Hin by (apply Hw; eauto).
      split; intros; rewrite ?elem_of_app, ?list_elem_of_singleton, ?Hg, ?Hv, ?Hw; naive_solver.
    + intros (v & Hval%map_err_Ok & H)%result_bind_Ok. destruct (Z.ltb_spec (values_per_tensor limits) (len v)); [done|].
      injection H as <-. split; [|done]. split; cbn; intros; rewrite ?elem_of_app, ?list_elem_of_singleton, ?Hg, ?Hv; [naive_solver..| |].
      * destruct (decide (name0 = name)) as [->|Hne]; [rewrite lookup_insert_eq; naive_solver|]. rewrite lookup_insert_ne, Hw by done. naive_solver.
      * destruct (decide (name0 = name)) as [->|Hne]; [rewrite lookup_insert_eq in *|rewrite lookup_insert_ne in * by done; eauto]. naive_solver.
  - destruct (Nat.ltb_spec p start).
    + intros [= <-]. split; [|split_and!; [done..|]; intros ? [= <-]; lia].
      split; cbn -[union]; intros; rewrite ?elem_of_union, ?elem_of_app, ?list_elem_of_singleton, ?elem_of_singleton, ?Hg, ?Hv, ?Hw; [naive_solver..|eauto].
    + destruct (Nat.leb_spec index p); [done|]. intros [= <-]. split; [|split_and!; [done..|]; intros ? [= <-]; lia].
      split; intros; rewrite ?elem_of_app, ?list_elem_of_singleton, ?Hg, ?Hv, ?Hw; [naive_solver..|split; [tauto|]; intros [[|[= ->]] ?]; [done|lia]|naive_solver|eauto].
Qed.

(** The operands of an instruction come before it. *)
Definition backward (index : nat) (r : Register) : Prop := ∀ p, r = Virtual p → (start ≤ p)%nat → (p < index)%nat.

Lemma scan_instruction_ok i compiled rs s s' :
  scanned rs s → scan_instruction program shard limits s (i, compiled) = Ok s' →
  scanned (rs ++ ci_inputs compiled) s' ∧ Forall (backward (start + i)) (ci_inputs compiled) ∧
  check_dimensions limits (start + i) (ci_instruction compiled) = Ok tt.
Proof.
  intros Hs. unfold scan_instruction. intros (r1 & _ & (r2 & _ & H)%result_bind_Ok)%result_bind_Ok.
  destruct (_ <? _); [done|]. apply result_bind_Ok in H as ([] & Hc & H).
  apply (result_fold_inv (λ k t, scanned (rs ++ k) t ∧ Forall (backward (start + i)) k) _ _ _ _ []) in H as [Hd Hb].
  - by split_and!.
  - rewrite app_nil_r. split; [|constructor]. destruct Hs. by split.
  - intros k x t t' _ [Ht Hk] Hx. apply (scan_register_ok _ _ _ _ _ Ht) in Hx as (Hs' & _ & _ & Hbk).
    rewrite app_assoc. split; [done|]. apply Forall_app. split; [done|]. by repeat constructor.
Qed.

Lemma scan_ok s s' : scanned [] s →
  result_fold (scan_instruction program shard limits) s (enumerate (shard_instructions program shard)) = Ok s' →
  scanned (shard_instructions program shard ≫= ci_inputs) s' ∧
  ∀ i compiled, shard_instructions program shard !! i = Some compiled →
    Forall (backward (start + i)) (ci_inputs compiled) ∧ check_dimensions limits (start + i) (ci_instruction compiled) = Ok tt.
Proof.
  intros Hs H. set (l := shard_instructions program shard) in *.
  apply (result_fold_enumerate (λ n t, scanned (take n l ≫= ci_inputs) t ∧ ∀ i compiled, (i < n)%nat → l !! i = Some compiled →
    Forall (backward (start + i)) (ci_inputs compiled) ∧ check_dimensions limits (start + i) (ci_instruction compiled) = Ok tt)) in H as [Hd Hi].
  - rewrite take_ge in Hd by done. split; [done|]. intros i c Hc. eapply Hi; [by eapply lookup_lt_Some|done].
  - split; [done|]. intros; lia.
  - intros i x t t' Hx [Ht Hi] Hstep. apply (scan_instruction_ok _ _ _ _ _ Ht) in Hstep as (H1 & H2 & H3).
    split; [by rewrite (take_S_r _ _ _ Hx), bind_app, bind_singleton|]. intros j c Hj Hc.
    destruct (decide (j = i)) as [->|Hne]; [by simplify_eq|]. apply Hi; [lia|done].
Qed.
End Analysis.

Lemma add_shape_keys {K} (register : K → Register) entries st st' :
  (∀ k k', register k = register k' → k = k') →
  result_fold (add_shape register) st entries = Ok st' →
  ∀ r, is_Some (st'.2 !! r) ↔ is_Some (st.2 !! r) ∨ ∃ k, r = register k ∧ k ∈ entries.*1.
Proof.
  intros Hinj. revert st. induction entries as [|[k n] entries IH]; intros [total shapes]; cbn [result_fold].
  - intros [= <-] r. cbn. set_solver.
  - intros ([total' shapes'] & (t & _ & [= <- <-])%result_bind_Ok & H)%result_bind_Ok r. rewrite (IH _ H r). cbn.
    setoid_rewrite elem_of_cons. destruct (decide (r = register k)) as [->|Hne].
    + rewrite lookup_insert_eq. naive_solver.
    + rewrite lookup_insert_ne by done. naive_solver.
Qed.
Lemma btree_keys {K A} `{Countable K} cmp (m : gmap K A) k : k ∈ (btree cmp m).*1 ↔ k ∈ dom m.
Proof.
  unfold btree. rewrite (fmap_Permutation fst _ _ (sort_by_Permutation _ _)), elem_of_dom, list_elem_of_fmap. split.
  - intros ([k' v] & -> & Hin%elem_of_map_to_list). simpl. eauto.
  - intros [v Hv]. exists (k, v). split; [done|]. by apply elem_of_map_to_list.
Qed.

Lemma validate_for_Ok manifest graph virt limits shapes :
  validate_for manifest graph virt limits = Ok shapes →
  ∀ r, is_Some (shapes !! r) ↔ match r with GraphInput name => name ∈ graph | Virtual p => p ∈ virt | Weight _ => False end.
Proof.
  unfold validate_for. case_bool_decide as Hg; [|done]. case_bool_decide as Hv; [|done]. cbn [orb negb].
  intros ([t1 s1] & H1 & ([t2 s2] & H2 & H)%result_bind_Ok)%result_bind_Ok r. destruct (_ || _); [done|]. injection H as <-.
  pose proof (add_shape_keys GraphInput _ _ _ ltac:(by intros ? ? [=]) H1 r) as K1.
  pose proof (add_shape_keys Virtual _ _ _ ltac:(by intros ? ? [=]) H2 r) as K2. cbn [fst snd] in K1, K2. rewrite K2, K1, lookup_empty.
  setoid_rewrite btree_keys. rewrite Hg, Hv. split.
  - intros [[[? [=]]|(k & -> & Hk)]|(k & -> & Hk)]; done.
  - destruct r as [n|n|p]; [|done|]; intros Hin; [left; right|right]; eauto.
Qed.

Section Backend.
Context `{B : Blake3, O : HashOrder, !HashOrderLaws O}.

(** Registers that come from outside the shard. *)
Definition uses (self : ZkieIsaCpuWitnessBackend) : list Register := shard_instructions (program self) (shard self) ≫= ci_inputs.
Definition foreign (self : ZkieIsaCpuWitnessBackend) (r : Register) : Prop :=
  match r with Virtual p => (p < range_start (shard_range (shard self)))%nat | _ => True end.

Definition values_count (m : list (list I18)) : Z := zsum (len <$> m).

Record backend_ok (self : ZkieIsaCpuWitnessBackend) : Prop := {
  bo_range : (range_start (shard_range (shard self)) ≤ range_end (shard_range (shard self)) ≤ length (cp_instructions (program self)))%nat;
  bo_outputs : NoDup (shard_outputs (shard self));
  bo_boundary : shard_boundary_ok (shard self) = true;
  bo_graph name : name ∈ required_graph_inputs self ↔ GraphInput name ∈ uses self;
  bo_virtual p : p ∈ required_virtual_inputs self ↔ Virtual p ∈ uses self ∧ foreign self (Virtual p);
  bo_weight name : is_Some (weights self !! name) ↔ Weight name ∈ uses self;
  bo_values name v : weights self !! name = Some v → weight_as_i18 (program self) name = Ok v ∧ len v ≤ values_per_tensor (limits self);
  bo_declared : required_virtual_inputs self = virtual_indices (shard_inputs (shard self));
  bo_step i compiled : shard_instructions (program self) (shard self) !! i = Some compiled →
    Forall (backward (shard self) (range_start (shard_range (shard self)) + i)) (ci_inputs compiled) ∧
    check_dimensions (limits self) (range_start (shard_range (shard self)) + i) (ci_instruction compiled) = Ok tt;
  bo_shapes r : is_Some (boundary_shapes self !! r) ↔
    match r with GraphInput name => name ∈ required_graph_inputs self | Virtual p => p ∈ required_virtual_inputs self | Weight _ => False end;
  bo_count : artifact_record_count self = Z.of_nat (size (weights self)) + Z.of_nat (size (required_graph_inputs self)) +
    Z.of_nat (size (required_virtual_inputs self)) + Z.of_nat (range_len (shard_range (shard self))) + len (shard_outputs (shard self)) ∧
    artifact_record_count self ≤ tensor_count (limits self) ∧ in_u64 (artifact_record_count self);
  bo_weight_values : values_count (map_to_list (weights self)).*2 ≤ total_artifact_values (limits self);
  bo_limits : limits_new (limits self) = Ok (limits self);
  bo_digest : derive_circuit_digest (program self) (shard self) (rms_norm_domains self) (weights self) (rms_norm_tables self)
    (boundary_shapes self) = Some (circuit_digest self)
}.

Lemma count_fold (vs : list (list I18)) sum total :
  result_fold (λ sum values, ok_or (checked_add sum (len values)) ResourceError) sum vs = Ok total → total = sum + values_count vs.
Proof.
  revert sum. induction vs as [|v vs IH]; intros sum; cbn [result_fold].
  - intros [= <-]. cbn. lia.
  - intros (s & [<- _]%ok_or_Ok%try_u64_Some & H)%result_bind_Ok. rewrite (IH _ H). unfold values_count. rewrite fmap_cons, zsum_cons. lia.
Qed.
Lemma values_count_Permutation vs vs' : vs ≡ₚ vs' → values_count vs = values_count vs'.
Proof. unfold values_count. induction 1; rewrite ?fmap_cons, ?zsum_cons; lia. Qed.
Lemma hash_values {K} `{Countable K} (m : gmap K (list I18)) : values_count (hash_order (map_to_list m)).*2 = values_count (map_to_list m).*2.
Proof using HashOrderLaws0. apply values_count_Permutation, fmap_Permutation, hash_order_Permutation. Qed.

Lemma record_count_Ok a b c limit n :
  validate_artifact_record_count a b c limit = Ok n ↔ n = a + b + c ∧ n ≤ limit ∧ in_u64 n ∧ in_u64 (a + b).
Proof.
  unfold validate_artifact_record_count, checked_add. split.
  - intros (count & (v & [<- Hv]%try_u64_Some & [<- Hc]%try_u64_Some)%ok_or_Ok%bind_Some & H)%result_bind_Ok.
    destruct (Z.ltb_spec limit (a + b + c)); [done|]. injection H as <-. done.
  - intros (-> & Hl & Hu & Hab). unfold try_u64. rewrite (bool_decide_eq_true_2 (in_u64 (a + b))) by done. cbn [mbind option_bind].
    rewrite bool_decide_eq_true_2 by done. cbn [ok_or result_bind]. by destruct (Z.ltb_spec limit (a + b + c)); [lia|].
Qed.

Lemma analyze_program_Ok program shard limits domains a :
  analyze_program program shard limits domains = Some (Ok a) →
  ∃ s, result_fold (scan_instruction program shard limits) (mkScan ∅ ∅ ∅ ∅ 0) (enumerate (shard_instructions program shard)) = Ok s ∧
    pa_weights a = sc_weights s ∧ pa_required_graph_inputs a = sc_graph_inputs s ∧ pa_required_virtual_inputs a = sc_virtual_inputs s ∧
    sc_virtual_inputs s = virtual_indices (shard_inputs shard) ∧
    pa_artifact_record_count a = Z.of_nat (size (sc_weights s)) + Z.of_nat (size (sc_graph_inputs s)) + Z.of_nat (size (sc_virtual_inputs s)) +
      Z.of_nat (range_len (shard_range shard)) + len (shard_outputs shard) ∧
    pa_artifact_record_count a ≤ tensor_count limits ∧ in_u64 (pa_artifact_record_count a) ∧
    values_count (map_to_list (sc_weights s)).*2 ≤ total_artifact_values limits.
Proof using HashOrderLaws0.
  unfold analyze_program. destruct (_ <? _); [done|]. intros (s & Hs%Some_Ok & H)%outcome_bind_Ok.
  case_bool_decide as Hv; [|done]. cbn [negb] in H.
  apply outcome_bind_Ok in H as (ic & Hic%Some_Ok & (rc & Hrc%Some_Ok & (wv & Hwv%Some_Ok & H)%outcome_bind_Ok)%outcome_bind_Ok).
  destruct (Z.ltb_spec (total_artifact_values limits) wv) as [|Htot]; [done|]. destruct (negb _); [done|].
  apply outcome_bind_Ok in H as (tp & _ & H). destruct (_ <? _); [done|].
  apply outcome_bind_Ok in H as ([[] tables] & _ & [= <-]). exists s. cbn. apply count_fold in Hwv as ->.
  rewrite hash_values in Htot. apply record_count_Ok in Hrc as (-> & Hle & Hu & _).
  apply ok_or_Ok, bind_Some in Hic as (v & [<- _]%try_u64_Some & [<- _]%try_u64_Some). done.
Qed.

Lemma with_limits_ok program shard domains run limits manifest self :
  with_limits program shard domains run limits manifest = Some (Ok self) →
  backend_ok self ∧ WitnessCpu.program self = program ∧ WitnessCpu.shard self = shard ∧ rms_norm_domains self = domains ∧
  run_identity self = run ∧ WitnessCpu.limits self = limits.
Proof using HashOrderLaws0.
  unfold with_limits. intros (l & Hl%Some_Ok & (u & _ & H)%outcome_bind_Ok)%outcome_bind_Ok.
  destruct (Nat.ltb_spec (range_end (shard_range shard)) (range_start (shard_range shard))); [done|].
  destruct (Nat.ltb_spec (length (cp_instructions program)) (range_end (shard_range shard))); [done|]. cbn [orb] in H.
  destruct (negb _ || _) eqn:Hd; [done|]. apply orb_false_iff in Hd as [_ Hno%negb_false_iff%bool_decide_eq_true].
  destruct (shard_boundary_ok shard) eqn:Hb; [|done]. cbn [negb] in H.
  apply outcome_bind_Ok in H as (a & Ha & (shapes & Hshapes%Some_Ok & (digest & Hdigest%panics_Ok & (id & Hid%Some_Ok & [= <-])%outcome_bind_Ok)%outcome_bind_Ok)%outcome_bind_Ok).
  split; [|done]. apply result_bind_Ok in Hid as (z & _ & (? & _ & [= <-])%result_bind_Ok).
  apply analyze_program_Ok in Ha as (s & Hs & Ew & Eg & Ev & Hdecl & Hcount & Hle & Hu & Hwv).
  apply scan_ok in Hs as [[Hg Hv Hw Hval] Hi]; [|apply scanned_nil].
  rewrite Ew, Eg, Ev in *. split; cbn; try done.
  - exact (validate_for_Ok _ _ _ _ _ Hshapes).
  - assert (limits = l) as <-; [|done]. unfold limits_new in Hl. destruct (_ || _); [done|]. by apply result_bind_Ok in Hl as (? & _ & [= ->]).
Qed.

End Backend.

(** ** The steps of an execution

    The state of an execution after any number of instructions: which registers it
    has read, and that every virtual register is what its instruction computes. *)
Import Backend WitnessCpu Exec Onnx.

Open Scope Z_scope.

(** ** Counting values *)

Lemma values_count_app ts ts' : values_count (ts ++ ts') = values_count ts + values_count ts'.
Proof. unfold values_count. by rewrite fmap_app, zsum_app. Qed.
Lemma values_count_nonneg ts : 0 ≤ values_count ts.
Proof. unfold values_count, len. induction ts as [|t ts IH]; rewrite ?fmap_cons, ?zsum_cons; [done|lia]. Qed.
Lemma values_count_insert {K} `{Countable K} (m : gmap K (list I18)) k v :
  m !! k = None → values_count (map_to_list (<[k := v]> m)).*2 = values_count (map_to_list m).*2 + len v.
Proof.
  intros Hk. rewrite (values_count_Permutation _ (((k, v) :: map_to_list m).*2)) by by rewrite map_to_list_insert.
  unfold values_count. rewrite fmap_cons, fmap_cons, zsum_cons. simpl. lia.
Qed.

(** The tensors of a collection: not too many, none too long, not too much in all. *)
Lemma tensor_collection_Ok ts max_tensors max_per_tensor max_total :
  in_u64 max_tensors → in_u64 max_total →
  validate_tensor_collection ts max_tensors max_per_tensor max_total = Ok tt ↔
  len ts ≤ max_tensors ∧ Forall (λ t, len t ≤ max_per_tensor) ts ∧ values_count ts ≤ max_total.
Proof.
  intros Hmt Hmv. unfold validate_tensor_collection. match goal with |- context [result_fold ?g _ _] => set (f := g) end.
  assert (∀ ts count total, 0 ≤ count ≤ max_tensors → 0 ≤ total ≤ max_total →
    is_ok (result_fold f (count, total) ts) = true ↔
    count + len ts ≤ max_tensors ∧ Forall (λ t, len t ≤ max_per_tensor) ts ∧ total + values_count ts ≤ max_total) as H.
  { clear ts. induction ts as [|t ts IH]; intros count total Hc Ht; cbn [result_fold].
    - cbn. unfold len. simpl. split; [|done]. intros _. split_and!; [lia|constructor|lia].
    - pose proof (values_count_nonneg ts) as Hn. rewrite Forall_cons. unfold values_count in *.
      rewrite fmap_cons, zsum_cons. set (T := zsum (len <$> ts)) in *. unfold f at 1, checked_add, try_u64. unfold len in *. cbn [length] in *.
      case_bool_decide; cbn [ok_or result_bind]; [|cbn [is_ok]; split; [done|intros (? & ? & ?); unfold in_u64 in *; lia]].
      destruct (Z.ltb_spec max_tensors (count + 1)); [cbn [is_ok]; split; [done|intros (? & [? ?] & ?); lia]|].
      destruct (Z.ltb_spec max_per_tensor (Z.of_nat (length t))); [cbn [is_ok]; split; [done|intros (? & [? ?] & ?); lia]|]. cbn [orb].
      case_bool_decide as Hu; cbn [ok_or result_bind]; [|cbn [is_ok]; split; [done|intros (? & ? & ?); unfold in_u64 in *; lia]].
      destruct (Z.ltb_spec max_total (total + Z.of_nat (length t))); [cbn [is_ok]; split; [done|intros (? & [? ?] & ?); lia]|].
      cbn [result_bind]. rewrite IH by lia. split; intros; split_and!; try lia; tauto. }
  specialize (H ts 0 0). unfold in_u64 in *. rewrite <-(H ltac:(lia) ltac:(lia)). by destruct (result_fold f (0, 0) ts).
Qed.

(** ** One execution *)

Section Execution.
Context `{B : Blake3, O : HashOrder, !HashOrderLaws O} (self : ZkieIsaCpuWitnessBackend) (supplied : CpuWitnessInputs).
Notation start := (range_start (shard_range (shard self))).
Notation instrs := (shard_instructions (program self) (shard self)).

#[export] Instance foreign_dec r : Decision (foreign self r).
Proof. destruct r; simpl; apply _. Defined.

(** Where the values of a foreign register come from, and of any register. *)
Definition origin (r : Register) : option (list I18) :=
  match r with
  | GraphInput name => graph_inputs supplied !! name
  | Weight name => weights self !! name
  | Virtual p => virtual_inputs supplied !! p
  end.
Definition read (virtuals : gmap nat (list I18)) (r : Register) : option (list I18) :=
  if decide (foreign self r) then origin r else match r with Virtual p => virtuals !! p | _ => None end.

(** The supplied inputs are the required ones. *)
Definition complete : Prop :=
  dom (graph_inputs supplied) = required_graph_inputs self ∧ dom (virtual_inputs supplied) = required_virtual_inputs self.

Record exec_ok (n : nat) (rs : list Register) (st : Execution) : Prop := {
  ex_foreign r : foreign self r → registers st !! r = boundary_inputs st !! r;
  ex_local p : (start ≤ p)%nat → registers st !! Virtual p = virtuals st !! p;
  ex_boundary r : boundary_inputs st !! r = if decide (r ∈ rs ∧ foreign self r) then origin r else None;
  ex_virtuals p : is_Some (virtuals st !! p) ↔ (start ≤ p < start + n)%nat;
  ex_steps i compiled : (i < n)%nat → instrs !! i = Some compiled →
    ∃ ops v, mapM (read (virtuals st)) (ci_inputs compiled) = Some ops ∧
      execute_instruction self (start + i) (ci_instruction compiled) ops = Some (Ok v) ∧ virtuals st !! (start + i)%nat = Some v;
  ex_generated : generated_values st = values_count (map_to_list (virtuals st)).*2;
  ex_sizes : map_Forall (λ _ v, len v ≤ values_per_tensor (limits self)) (virtuals st);
  ex_total : generated_values st ≤ total_artifact_values (limits self)
}.

Definition taken (n : nat) : list Register := take n instrs ≫= ci_inputs.

Context (Hok : backend_ok self) (Hin : complete).

Lemma virtual_indices_spec rs p : p ∈ virtual_indices rs ↔ Virtual p ∈ rs.
Proof.
  unfold virtual_indices. rewrite elem_of_list_to_set, list_elem_of_omap. split; [|by exists (Virtual p)].
  by intros ([] & Hr & [= ->]).
Qed.

Lemma origin_Some r : r ∈ uses self → foreign self r → is_Some (origin r).
Proof using Hok Hin.
  destruct Hin as [Hg Hv]. intros Hu Hf. destruct r as [name|name|p]; simpl.
  - apply elem_of_dom. rewrite Hg. by apply (bo_graph _ Hok).
  - by apply (bo_weight _ Hok).
  - apply elem_of_dom. rewrite Hv. by apply (bo_virtual _ Hok).
Qed.

Lemma resolve_foreign r index : r ∈ uses self → foreign self r → (start ≤ index)%nat →
  ∃ v, origin r = Some v ∧ resolve_external self r index supplied = Ok v.
Proof using Hok Hin.
  intros Hu Hf Hi. destruct (origin_Some r Hu Hf) as [v Hv]. exists v. split; [done|].
  destruct r as [name|name|p]; simpl in *; [by rewrite Hv..|].
  destruct (Nat.leb_spec index p); [lia|]. destruct (Nat.ltb_spec p start); [|lia].
  rewrite bool_decide_eq_true_2, Hv; [done|]. apply virtual_indices_spec. rewrite <-(bo_declared _ Hok). by apply (bo_virtual _ Hok).
Qed.

Lemma fetch_ok n rs st r :
  exec_ok n rs st → r ∈ uses self → backward (shard self) (start + n) r →
  ∃ st', fetch_register self supplied (start + n) st r = Ok st' ∧ exec_ok n (rs ++ [r]) st' ∧ virtuals st' = virtuals st ∧
    generated_values st' = generated_values st.
Proof using Hok Hin.
  intros He Hu Hb. unfold fetch_register. destruct (registers st !! r) as [v|] eqn:Er.
  - exists st. split_and!; try done. destruct He as [Hf Hl Hbd Hv Hs Hg]. split; try done. intros r'. rewrite Hbd.
    destruct (decide (r' ∈ rs ∧ foreign self r')) as [[H1 H2]|Hn]; [rewrite decide_True; [done|split; [|done]; apply elem_of_app; auto]|].
    rewrite decide_False; [done|]. intros [[H1| ->%list_elem_of_singleton]%elem_of_app H2]; [tauto|].
    rewrite Hf, Hbd, decide_False in Er; done.
  - assert (foreign self r) as Hf.
    { destruct r as [| |p]; simpl; try done. destruct (decide (p < start)%nat) as [|Hp]; [done|]. exfalso.
      rewrite (ex_local _ _ _ He) in Er by lia. destruct (proj2 (ex_virtuals _ _ _ He p)) as [x Hx]; [|congruence].
      split; [lia|]. apply Hb; [done|lia]. }
    destruct (resolve_foreign r (start + n) Hu Hf) as (v & Hv & ->); [lia|]. eexists. split; [reflexivity|].
    split; [|done]. destruct He as [H1 H2 H3 H4 H5 H6]. split; cbn; try done.
    + intros r' Hr'. destruct (decide (r' = r)) as [->|]; [by rewrite !lookup_insert_eq|]. rewrite !lookup_insert_ne by done. by apply H1.
    + intros p Hp. rewrite lookup_insert_ne; [by apply H2|]. intros ->. simpl in Hf. lia.
    + intros r'. destruct (decide (r' = r)) as [->|Hne].
      * rewrite lookup_insert_eq, decide_True; [done|]. split; [apply elem_of_app; right; by left|done].
      * rewrite lookup_insert_ne, H3 by done.
        destruct (decide (r' ∈ rs ∧ foreign self r')) as [[]|Hn]; [rewrite decide_True; [done|split; [apply elem_of_app; auto|done]]|].
        rewrite decide_False; [done|]. intros [[|?%list_elem_of_singleton]%elem_of_app ?]; tauto.
Qed.

Lemma fetch_all n rs st regs :
  exec_ok n rs st → Forall (λ r, r ∈ uses self) regs → Forall (backward (shard self) (start + n)) regs →
  ∃ st', result_fold (fetch_register self supplied (start + n)) st regs = Ok st' ∧ exec_ok n (rs ++ regs) st' ∧ virtuals st' = virtuals st ∧
    generated_values st' = generated_values st.
Proof using Hok Hin.
  revert rs st. induction regs as [|r regs IH]; intros rs st He Hu Hb.
  - exists st. by rewrite app_nil_r.
  - apply Forall_cons in Hu as [Hu Hus]. apply Forall_cons in Hb as [Hb Hbs]. cbn [result_fold].
    destruct (fetch_ok _ _ _ _ He Hu Hb) as (s1 & -> & He1 & Hv1 & Hg1). cbn [result_bind].
    destruct (IH _ _ He1 Hus Hbs) as (s2 & -> & He2 & Hv2 & Hg2). exists s2. rewrite <-app_assoc in He2.
    split_and!; [done|exact He2|congruence..].
Qed.

Lemma registers_read n rs st r : exec_ok n rs st → r ∈ rs → r ∈ uses self → backward (shard self) (start + n) r →
  registers st !! r = read (virtuals st) r ∧ is_Some (read (virtuals st) r).
Proof using Hok Hin.
  intros He Hr Hu Hb. unfold read. destruct (decide (foreign self r)) as [Hf|Hf].
  - rewrite (ex_foreign _ _ _ He) by done. rewrite (ex_boundary _ _ _ He), decide_True by done. split; [done|by apply origin_Some].
  - destruct r as [| |p]; [by destruct Hf..|]. simpl in Hf. rewrite (ex_local _ _ _ He) by lia. split; [done|].
    apply (ex_virtuals _ _ _ He). split; [lia|]. apply Hb; [done|lia].
Qed.

Lemma read_insert virtuals n v r : backward (shard self) (start + n) r → read (<[(start + n)%nat := v]> virtuals) r = read virtuals r.
Proof.
  intros Hb. unfold read. destruct (decide (foreign self r)) as [|Hf]; [done|]. destruct r as [| |p]; [done..|].
  apply lookup_insert_ne. intros <-. specialize (Hb _ eq_refl). simpl in Hf. lia.
Qed.

(** How an execution may fail once its inputs are accepted: a limit, or an instruction. *)
Definition execution_error (e : BackendError) : Prop :=
  e = ResourceError ∨ ∃ i compiled ops, instrs !! i = Some compiled ∧
    execute_instruction self (start + i) (ci_instruction compiled) ops = Some (Err e).

Lemma instrs_lookup i compiled : instrs !! i = Some compiled → cp_instructions (program self) !! (start + i)%nat = Some compiled.
Proof. unfold shard_instructions. by intros [H _]%lookup_take_Some; rewrite lookup_drop in H. Qed.

Lemma uses_of i compiled : instrs !! i = Some compiled → Forall (λ r, r ∈ uses self) (ci_inputs compiled).
Proof. intros Hi. apply Forall_forall. intros r Hr. apply list_elem_of_bind. exists compiled. split; [done|by eapply list_elem_of_lookup_2]. Qed.

Lemma taken_S n compiled : instrs !! n = Some compiled → taken (S n) = taken n ++ ci_inputs compiled.
Proof. intros Hn. unfold taken. by rewrite (take_S_r _ _ _ Hn), bind_app, bind_singleton. Qed.

Lemma operands_read n rs st compiled :
  exec_ok n rs st → instrs !! n = Some compiled → (∀ r, r ∈ ci_inputs compiled → r ∈ rs) →
  ∃ ops, result_mapM (λ register, ok_or (registers st !! register) (MissingRegister register)) (ci_inputs compiled) = Ok ops ∧
    mapM (read (virtuals st)) (ci_inputs compiled) = Some ops.
Proof using Hok Hin.
  intros He Hn Hr. destruct (bo_step _ Hok _ _ Hn) as [Hb _]. pose proof (uses_of _ _ Hn) as Hu. revert Hb Hu Hr.
  induction (ci_inputs compiled) as [|r regs IH]; intros Hb Hu Hr; [by exists []|].
  apply Forall_cons in Hb as [Hb1 Hb], Hu as [Hu1 Hu]. destruct (registers_read _ _ _ r He) as [E [v Hv]]; [apply Hr; by left|done..|].
  destruct IH as (ops & H1 & H2); [done..|intros; apply Hr; by right|]. exists (v :: ops). simpl.
  rewrite E, Hv, H1. simpl. by rewrite H2.
Qed.

Lemma exec_step n st compiled v :
  exec_ok n (taken (S n)) st → instrs !! n = Some compiled →
  (∃ ops, mapM (read (virtuals st)) (ci_inputs compiled) = Some ops ∧
    execute_instruction self (start + n) (ci_instruction compiled) ops = Some (Ok v)) →
  len v ≤ values_per_tensor (limits self) → generated_values st + len v ≤ total_artifact_values (limits self) →
  exec_ok (S n) (taken (S n)) (mkExecution (<[Virtual (start + n) := v]> (registers st)) (boundary_inputs st)
    (<[(start + n)%nat := v]> (virtuals st)) (generated_values st + len v)).
Proof using Hok.
  intros [H1 H2 H3 H4 H5 H6 H7 H8] Hn (ops & Hops & Hrun) Hl Ht.
  assert (virtuals st !! (start + n)%nat = None) as Hfresh.
  { apply eq_None_not_Some. intros [_ ?]%H4. lia. }
  assert (∀ i c, (i ≤ n)%nat → instrs !! i = Some c →
    mapM (read (<[(start + n)%nat := v]> (virtuals st))) (ci_inputs c) = mapM (read (virtuals st)) (ci_inputs c)) as Hsame.
  { intros i c Hi Hc. destruct (bo_step _ Hok _ _ Hc) as [Hb _].
    induction Hb as [|r regs Hb _ IH]; [done|]. simpl. rewrite read_insert, IH; [done|]. intros p Hp Hs. specialize (Hb p Hp Hs). lia. }
  split; cbn.
  - intros r Hr. rewrite lookup_insert_ne; [by apply H1|]. intros <-. simpl in Hr. lia.
  - intros p Hp. destruct (decide (p = start + n)%nat) as [->|Hne]; [by rewrite !lookup_insert_eq|].
    rewrite !lookup_insert_ne by congruence. by apply H2.
  - exact H3.
  - intros p. destruct (decide (p = start + n)%nat) as [->|Hne]; [rewrite lookup_insert_eq; split; [lia|eauto]|].
    rewrite lookup_insert_ne, H4 by done. lia.
  - intros i c Hi Hc. rewrite (Hsame i c) by (done || lia). destruct (decide (i = n)) as [->|Hne].
    + simplify_eq. exists ops, v. by rewrite lookup_insert_eq.
    + rewrite lookup_insert_ne by lia. apply H5; [lia|done].
  - rewrite values_count_insert by done. lia.
  - by apply map_Forall_insert_2.
  - exact Ht.
Qed.

Lemma execute_step_ok n st compiled :
  exec_ok n (taken n) st → instrs !! n = Some compiled →
  out (execute_step self supplied st (start + n)) (exec_ok (S n) (taken (S n))) execution_error.
Proof using Hok Hin.
  intros He Hn. unfold execute_step. rewrite (instrs_lookup _ _ Hn). cbn [or_panics option_map outcome_bind].
  destruct (bo_step _ Hok _ _ Hn) as [Hb _].
  destruct (fetch_all n (taken n) st _ He (uses_of _ _ Hn) Hb) as (st1 & -> & He1 & _ & _). cbn [outcome_bind].
  rewrite <-(taken_S _ _ Hn) in He1.
  destruct (operands_read _ _ _ _ He1 Hn) as (ops & -> & Hops).
  { intros r Hr. rewrite (taken_S _ _ Hn). apply elem_of_app. by right. }
  cbn [outcome_bind]. eapply out_bind.
  { eapply out_weaken; [apply out_self, execute_instruction_out|intros v Hv; exact Hv|]. intros e [He' _]. right. by exists n, compiled, ops. }
  intros v Hv _. destruct (Z.ltb_spec (values_per_tensor (limits self)) (len v)); [by left|].
  destruct (checked_add _ _) as [g|] eqn:Eg; cbn [ok_or outcome_bind]; [|by left]. apply try_u64_Some in Eg as [<- _].
  destruct (Z.ltb_spec (total_artifact_values (limits self)) (generated_values st1 + len v)); [by left|].
  apply exec_step with compiled; eauto.
Qed.

Lemma exec_start : 0 ≤ total_artifact_values (limits self) → exec_ok 0 (taken 0) (mkExecution ∅ ∅ ∅ 0).
Proof.
  intros Ht. split; cbn [registers boundary_inputs virtuals generated_values]; try done; try (by intros; lia).
  intros p. rewrite lookup_empty. split; [by intros []|lia].
Qed.
End Execution.
