(* ===== verification/WitnessArtifact.v ===== *)
(** * The artifact of an execution

    A constructed back end on any inputs: no panic, failures only from the inputs, a
    limit or an instruction, and an artifact whose registers, counts and sizes are
    exactly those the constructor announced. *)
From stdpp Require Import gmap.
From S2P Require Import Prelude FixedPoint Norm Ordering Bytes State Identity Program Dag PoseidonBoundary.
From S2P Require Import Backend Onnx Assembler Evaluate ProgramCircuit WitnessCpu WitnessRun.
Import Backend WitnessCpu Exec Onnx.

Open Scope Z_scope.

(** ** Limits *)

Definition limits_typed (l : CpuWitnessLimits) : Prop := Forall in_u64 (fields l).

(** The memory estimate: an exact sum, refused when it leaves [usize]. *)
Definition ram_total (l : CpuWitnessLimits) : Z :=
  2 * input_bytes l + 3 * artifact_bytes l + 32 * total_input_values l + 48 * total_artifact_values l + 96 * domain_points l +
  512 * tensor_count l + 512 * instruction_count l + 128 * operand_references l + 33554432.

Lemma checked_plus total count factor :
  0 ≤ count → 0 ≤ factor → 0 ≤ total →
  (v ← try_u64 total; w ← checked_mul count factor; checked_add v w) = try_u64 (total + count * factor).
Proof.
  intros Hc Hf Ht. unfold checked_mul, checked_add, try_u64.
  assert (0 ≤ count * factor) as Hp by nia.
  destruct (bool_decide_reflect (in_u64 total)) as [H1|H1]; cbn [mbind option_bind].
  - destruct (bool_decide_reflect (in_u64 (count * factor))) as [H2|H2]; cbn [mbind option_bind]; [done|].
    rewrite bool_decide_eq_false_2; [done|]. unfold in_u64 in *. lia.
  - rewrite bool_decide_eq_false_2; [done|]. unfold in_u64 in *. lia.
Qed.

Lemma estimated_ram_exact l : limits_typed l → estimated_ram_bytes l = ok_or (try_u64 (ram_total l)) ResourceError.
Proof.
  intros Hl. unfold limits_typed, fields in Hl. rewrite !Forall_cons in Hl. unfold in_u64 in Hl.
  destruct Hl as (?&?&?&?&?&?&?&?&?&_). unfold estimated_ram_bytes.
  change (checked_add (input_bytes l) (artifact_bytes l)) with (try_u64 (input_bytes l + artifact_bytes l)). cbv zeta.
  do 11 (rewrite checked_plus by lia).
  assert (∀ t, 0 ≤ t → (v ← try_u64 t; checked_add v (Z.shiftl 32 20)) = try_u64 (t + 33554432)) as Hlast.
  { intros t Ht. unfold checked_add. change (Z.shiftl 32 20) with 33554432. unfold try_u64.
    destruct (bool_decide_reflect (in_u64 t)); cbn [mbind option_bind]; [done|]. rewrite bool_decide_eq_false_2; [done|]. unfold in_u64 in *. lia. }
  rewrite Hlast by lia.
  match goal with |- context [try_u64 ?t] => replace t with (ram_total l) by (unfold ram_total; lia) end.
  destruct (try_u64 (ram_total l)) as [z|] eqn:E; cbn [ok_or result_bind]; [|done]. apply try_u64_Some in E as E'. destruct E' as [<- Hu].
  unfold try_u64. by rewrite bool_decide_eq_true_2.
Qed.

Lemma limits_new_Ok l : limits_typed l → limits_new l = Ok l →
  in_u64 (ram_total l) ∧ Forall (λ z, 0 < z) (fields l) ∧ values_per_tensor l ≤ total_artifact_values l.
Proof.
  intros Ht. unfold limits_new. case_bool_decide as H0; [done|]. cbn [orb].
  destruct (Z.ltb_spec (total_input_values l) (values_per_tensor l)); [done|].
  destruct (Z.ltb_spec (total_artifact_values l) (values_per_tensor l)); [done|]. cbn [orb].
  rewrite estimated_ram_exact by done. intros (b & [<- Hu]%ok_or_Ok%try_u64_Some & _)%result_bind_Ok.
  split_and!; [done| |lia]. apply Forall_forall. intros z Hz. unfold limits_typed in Ht. rewrite Forall_forall in Ht.
  destruct (Ht _ Hz) as [? _]. assert (z ≠ 0) by (by intros ->). lia.
Qed.

(** ** Counting *)

Lemma values_count_lookups (m : gmap nat (list I18)) l :
  NoDup l → values_count (omap (λ i, m !! i) l) ≤ values_count (map_to_list m).*2.
Proof.
  intros Hl. revert m. induction Hl as [|i l Hi Hl IH]; intros m; [apply values_count_nonneg|]. cbn [omap list_omap].
  destruct (m !! i) as [v|] eqn:E; [|apply IH].
  assert (values_count (map_to_list m).*2 = len v + values_count (map_to_list (delete i m)).*2) as ->.
  { transitivity (values_count ((i, v) :: map_to_list (delete i m)).*2); [|done].
    apply values_count_Permutation, fmap_Permutation. symmetry. by apply map_to_list_delete. }
  change (values_count (v :: omap (λ j, m !! j) l)) with (len v + values_count (omap (λ j, m !! j) l)).
  assert (omap (λ j, m !! j) l = omap (λ j, delete i m !! j) l) as ->.
  { clear -Hi. induction l as [|j l IH]; [done|]. apply not_elem_of_cons in Hi as [Hij Hi]. cbn [omap list_omap].
    rewrite IH by done. by rewrite (lookup_delete_ne m i j). }
  specialize (IH (delete i m)). lia.
Qed.

Lemma omap_values (m : gmap nat (list I18)) l : (omap (λ i, pair i <$> m !! i) l).*2 = omap (λ i, m !! i) l.
Proof. induction l as [|p l IH]; [done|]. simpl. destruct (m !! p); simpl; [f_equal|]; exact IH. Qed.

Lemma length_instrs_of `{B : Blake3} self : backend_ok self →
  length (shard_instructions (program self) (shard self)) = range_len (shard_range (shard self)).
Proof.
  intros Hok. destruct (bo_range _ Hok). unfold shard_instructions, range_len. rewrite length_take, length_drop. lia.
Qed.

(** ** Inputs that are accepted *)

Lemma hash_entry `{O : HashOrder, !HashOrderLaws O} {K A} `{Countable K} (m : gmap K A) k v :
  (k, v) ∈ hash_order (map_to_list m) ↔ m !! k = Some v.
Proof. by rewrite hash_order_Permutation, elem_of_map_to_list. Qed.

Lemma head_nil_iff {A} (cmp : A → A → comparison) (l : list A) : head (sort_by cmp l) = None ↔ l = [].
Proof.
  split; [|by intros ->]. intros H. apply Permutation_nil. rewrite <-(sort_by_Permutation cmp l). by destruct (sort_by cmp l).
Qed.
Lemma missing_none {A} `{Countable A} (cmp : A → A → comparison) (s d : gset A) :
  head (sort_by cmp (base.elements (s ∖ d))) = None ↔ s ⊆ d.
Proof.
  rewrite head_nil_iff. rewrite elements_empty_iff. split; [|set_solver]. intros E x Hx. destruct (decide (x ∈ d)); [done|]. set_solver.
Qed.

Section Artifact.
#[local] Set Default Proof Using "All".
Context `{B : Blake3, O : HashOrder, !HashOrderLaws O} (self : ZkieIsaCpuWitnessBackend) (supplied : CpuWitnessInputs).
Context (Hok : backend_ok self) (Htyped : limits_typed (limits self)).
Notation start := (range_start (shard_range (shard self))).
Notation count := (range_len (shard_range (shard self))).
Notation instrs := (shard_instructions (program self) (shard self)).

Definition supplied_values : list (list I18) :=
  (map_to_list (graph_inputs supplied)).*2 ++ (map_to_list (virtual_inputs supplied)).*2.

(** The required tensors with the declared lengths, and the limits on inputs. *)
Record accepted : Prop := {
  ac_complete : complete self supplied;
  ac_shapes r n : boundary_shapes self !! r = Some n → ∃ v, origin self supplied r = Some v ∧ len v = n;
  ac_tensors : len supplied_values ≤ tensor_count (limits self);
  ac_sizes : Forall (λ t, len t ≤ values_per_tensor (limits self)) supplied_values;
  ac_total : values_count supplied_values ≤ total_input_values (limits self)
}.

Lemma collected_Permutation : (hash_order (map_to_list (graph_inputs supplied))).*2 ++ (btree Nat.compare (virtual_inputs supplied)).*2 ≡ₚ supplied_values.
Proof.
  unfold supplied_values, btree. apply Permutation_app; apply fmap_Permutation; [apply hash_order_Permutation|apply sort_by_Permutation].
Qed.

Lemma limit_u64 z : z ∈ fields (limits self) → in_u64 z.
Proof. unfold limits_typed in Htyped. rewrite Forall_forall in Htyped. apply Htyped. Qed.

Lemma collection_of ts ts' max_total : in_u64 max_total → ts ≡ₚ ts' →
  validate_tensor_collection ts (tensor_count (limits self)) (values_per_tensor (limits self)) max_total = Ok tt ↔
  len ts' ≤ tensor_count (limits self) ∧ Forall (λ t, len t ≤ values_per_tensor (limits self)) ts' ∧ values_count ts' ≤ max_total.
Proof.
  intros Hm Hp. rewrite tensor_collection_Ok by (done || apply limit_u64; unfold fields; set_solver).
  unfold len at 1 3. by rewrite (Permutation_length Hp), (values_count_Permutation _ _ Hp), Hp.
Qed.

Lemma shapes_loop entries :
  (∀ r n, (r, n) ∈ entries → match r with Weight _ => False | _ => is_Some (origin self supplied r) end) →
  ∀ m, m = outcome_fold (λ (_ : unit) '(register, expected_len),
    let~ values := or_panics match register with
      | GraphInput name => graph_inputs supplied !! name
      | Virtual index => virtual_inputs supplied !! index
      | Weight _ => None
      end in
    Some (if negb (len values =? expected_len) then Err InvalidJob else Ok tt)) tt entries →
  m ≠ None ∧ (m = Some (Ok tt) ↔ ∀ r n, (r, n) ∈ entries → ∃ v, origin self supplied r = Some v ∧ len v = n).
Proof.
  induction entries as [|[r n] entries IH]; intros Hall m ->.
  - split; [done|]. split; [|done]. by intros _ r n ?%elem_of_nil.
  - cbn [outcome_fold]. pose proof (Hall r n ltac:(left)) as Hr.
    assert (∃ v, origin self supplied r = Some v ∧ match r with
      | GraphInput name => graph_inputs supplied !! name | Virtual index => virtual_inputs supplied !! index | Weight _ => None end = Some v)
      as (v & Hv & ->) by (destruct r; [destruct Hr as [v Hv]; by exists v|done|destruct Hr as [v Hv]; by exists v]).
    cbn [or_panics option_map outcome_bind]. destruct (Z.eqb_spec (len v) n) as [E|E]; cbn [negb outcome_bind].
    + destruct (IH ltac:(intros; eapply Hall; by right) _ eq_refl) as [H1 H2]. split; [exact H1|]. rewrite H2.
      split; [intros H r' n' [[= -> ->]|]%elem_of_cons; eauto|intros H r' n' ?; apply H; by right].
    + split; [done|]. split; [done|]. intros H. destruct (H r n ltac:(left)) as (v' & ? & ?). congruence.
Qed.

Lemma validate_supplied_spec :
  validate_supplied_inputs self supplied ≠ None ∧ (validate_supplied_inputs self supplied = Some (Ok tt) ↔ accepted).
Proof.
  unfold validate_supplied_inputs, first_missing_graph_input, first_missing_virtual_input, ascending.
  destruct (head (sort_by String.compare _)) as [name|] eqn:Eg.
  { split; [done|]. split; [done|]. intros [[Hg _] _ _ _ _]. exfalso.
    assert (head (sort_by String.compare (base.elements (required_graph_inputs self ∖ dom (graph_inputs supplied)))) = None) by (apply missing_none; set_solver). congruence. }
  destruct (head (sort_by Nat.compare _)) as [p|] eqn:Ev.
  { split; [done|]. split; [done|]. intros [[_ Hv] _ _ _ _]. exfalso.
    assert (head (sort_by Nat.compare (base.elements (required_virtual_inputs self ∖ dom (virtual_inputs supplied)))) = None) by (apply missing_none; set_solver). congruence. }
  clear Eg Ev. destruct (bool_decide_reflect (dom (graph_inputs supplied) = required_graph_inputs self)) as [Hg|Hg];
    [|split; [done|]; split; [done|]; by intros [[? _] _ _ _ _]]. cbn [negb orb].
  destruct (bool_decide_reflect (dom (virtual_inputs supplied) = required_virtual_inputs self)) as [Hv|Hv];
    [|split; [done|]; split; [done|]; by intros [[_ ?] _ _ _ _]]. cbn [negb].
  match goal with |- context [outcome_fold ?f tt ?l] => destruct (shapes_loop l) with (m := outcome_fold f tt l) as [Hn Hs]; [|reflexivity|] end.
  - intros r n Hin. rewrite hash_entry in Hin. assert (is_Some (boundary_shapes self !! r)) as Hsh by eauto.
    apply (bo_shapes _ Hok) in Hsh. destruct r; simpl; [apply elem_of_dom; congruence|done|apply elem_of_dom; congruence].
  - setoid_rewrite hash_entry in Hs.
    pose proof (collection_of _ _ (total_input_values (limits self)) ltac:(apply limit_u64; unfold fields; set_solver) collected_Permutation) as Hc.
    match goal with |- context [outcome_fold ?f tt ?l] => destruct (outcome_fold f tt l) as [[[]|e]|] end; [| |done]; cbn [outcome_bind].
    + split; [done|]. split.
      * intros H%Some_Ok. apply Hc in H as (? & ? & ?). split; try done. by apply Hs.
      * intros [_ _ ? ? ?]. f_equal. by apply Hc.
    + split; [done|]. split; [done|]. intros [_ Hshapes _ _ _]. by apply Hs in Hshapes.
Qed.

(** ** The finished execution *)

(** The artifact's inputs are all the foreign registers, its virtual registers the values
    of the instructions, its outputs the declared ones. *)
Record artifact_ok (art : CpuWitnessArtifact) : Prop := {
  ao_meta : art_shard art = shard self ∧ art_shard_identity art = shard_identity self ∧ art_run_identity art = run_identity self ∧
    art_run_identity_digest art = canonical_digest blake3 (run_identity self) ∧ art_record_limit art = tensor_count (limits self);
  ao_inputs r : art_inputs art !! r = origin self supplied r;
  ao_virtuals p : is_Some (art_virtuals art !! p) ↔ (start ≤ p < start + count)%nat;
  ao_steps i compiled : instrs !! i = Some compiled →
    ∃ ops v, mapM (read self supplied (art_virtuals art)) (ci_inputs compiled) = Some ops ∧
      execute_instruction self (start + i) (ci_instruction compiled) ops = Some (Ok v) ∧ art_virtuals art !! (start + i)%nat = Some v;
  ao_outputs p : art_outputs art !! p = if decide (Virtual p ∈ shard_outputs (shard self)) then art_virtuals art !! p else None;
  ao_sizes : map_Forall (λ _ v, len v ≤ values_per_tensor (limits self)) (art_virtuals art);
  ao_total : values_count (map_to_list (art_inputs art)).*2 + values_count (map_to_list (art_virtuals art)).*2 +
    values_count (map_to_list (art_outputs art)).*2 ≤ total_artifact_values (limits self)
}.

Lemma length_instrs : length instrs = count.
Proof. by apply length_instrs_of. Qed.

Lemma loop_out : complete self supplied →
  out (outcome_fold (execute_step self supplied) (mkExecution ∅ ∅ ∅ 0) (range_indices (shard_range (shard self))))
    (exec_ok self supplied count (uses self)) (execution_error self).
Proof.
  intros Hin. pose proof length_instrs as Hlen. unfold range_indices.
  assert (0 ≤ total_artifact_values (limits self)) as Ht by (apply limit_u64; unfold fields; set_solver).
  pose proof (out_fold (λ i, exec_ok self supplied i (taken self i)) (execution_error self) (execute_step self supplied)
    (mkExecution ∅ ∅ ∅ 0) (seq start count)) as H. rewrite length_seq in H.
  assert (taken self count = uses self) as Hu by (unfold taken, uses; by rewrite take_ge by lia).
  rewrite Hu in H. apply H; [by apply exec_start|]. intros i p st [-> Hi]%lookup_seq He.
  destruct (lookup_lt_is_Some_2 instrs i) as [compiled Hc]; [lia|]. by eapply execute_step_ok.
Qed.

(** The entries of the inputs of an artifact. *)
Definition boundary_list : list (Register * list I18) :=
  (prod_map GraphInput id <$> map_to_list (graph_inputs supplied)) ++ (prod_map Weight id <$> map_to_list (weights self)) ++
  (prod_map Virtual id <$> map_to_list (virtual_inputs supplied)).

Lemma elem_of_entries {K} `{Countable K} (f : K → Register) (m : gmap K (list I18)) r v :
  (r, v) ∈ (prod_map f id <$> map_to_list m) ↔ ∃ k, r = f k ∧ m !! k = Some v.
Proof.
  rewrite list_elem_of_fmap. split.
  - intros ([k w] & [= -> ->] & Hin%elem_of_map_to_list). eauto.
  - intros (k & -> & Hk). exists (k, v). split; [done|]. by apply elem_of_map_to_list.
Qed.
Lemma elem_of_boundary r v : (r, v) ∈ boundary_list ↔ origin self supplied r = Some v.
Proof.
  unfold boundary_list. rewrite !elem_of_app, !elem_of_entries. destruct r; simpl; naive_solver.
Qed.
Lemma NoDup_boundary : NoDup boundary_list.*1.
Proof.
  unfold boundary_list. rewrite !fmap_app, <-!list_fmap_compose.
  assert (∀ {K} `{Countable K} (f : K → Register) (m : gmap K (list I18)), Inj (=) (=) f → NoDup ((fst ∘ prod_map f id) <$> map_to_list m)) as Hnd.
  { intros K ? ? f m Hf.
    assert ((fst ∘ prod_map f id) <$> map_to_list m = f <$> (map_to_list m).*1) as -> by (rewrite <-list_fmap_compose; apply list_fmap_ext; by intros ? [] ?).
    apply NoDup_fmap; [done|]. apply NoDup_fst_map_to_list. }
  apply NoDup_app. split_and!; [apply Hnd; by intros ? ? [=]| |apply NoDup_app; split_and!; [apply Hnd; by intros ? ? [=]| |apply Hnd; by intros ? ? [=]]];
    intros r; rewrite ?elem_of_app, !list_elem_of_fmap; [intros ([k v] & -> & _) [([] & [=] & _)|([] & [=] & _)]|intros ([k v] & -> & _) ([] & [=] & _)].
Qed.
Lemma boundary_entries (m : gmap Register (list I18)) :
  (∀ r, m !! r = origin self supplied r) → map_to_list m ≡ₚ boundary_list.
Proof.
  intros Hm. apply NoDup_Permutation; [apply NoDup_map_to_list|eapply NoDup_fmap_1, NoDup_boundary|].
  intros [r v]. by rewrite elem_of_map_to_list, elem_of_boundary, Hm.
Qed.
Lemma boundary_values (m : gmap Register (list I18)) : (∀ r, m !! r = origin self supplied r) →
  values_count (map_to_list m).*2 = values_count supplied_values + values_count (map_to_list (weights self)).*2.
Proof.
  intros Hm%boundary_entries. rewrite (values_count_Permutation _ _ (fmap_Permutation snd _ _ Hm)). unfold boundary_list, supplied_values.
  rewrite !fmap_app, <-!list_fmap_compose, !values_count_app.
  assert (∀ {K} `{Countable K} (f : K → Register) (m : gmap K (list I18)), (snd ∘ prod_map f id) <$> map_to_list m = (map_to_list m).*2) as E.
  { intros. by apply list_fmap_ext; intros ? [] ?. }
  rewrite !E. lia.
Qed.
Lemma boundary_size (m : gmap Register (list I18)) : accepted → (∀ r, m !! r = origin self supplied r) →
  Z.of_nat (size m) = Z.of_nat (size (weights self)) + Z.of_nat (size (required_graph_inputs self)) + Z.of_nat (size (required_virtual_inputs self)).
Proof.
  intros [[<- <-] _ _ _ _] Hm%boundary_entries%Permutation_length. rewrite !size_dom, <-!length_map_to_list, Hm.
  unfold boundary_list. rewrite !length_app, !length_fmap. lia.
Qed.

(** The declared outputs are virtual registers of the shard. *)
Lemma output_in r : r ∈ shard_outputs (shard self) → ∃ p, r = Virtual p ∧ (start ≤ p < start + count)%nat.
Proof.
  pose proof (bo_boundary _ Hok) as Hb. apply andb_true_iff in Hb as [_ Hb]. rewrite forallb_forall in Hb.
  intros Hr%list_elem_of_In%Hb. destruct r as [| |p]; try done. exists p. split; [done|].
  unfold range_contains, range_len in *. apply andb_true_iff in Hr as [?%Nat.leb_le ?%Nat.ltb_lt]. lia.
Qed.

Lemma copy_outputs_out st : exec_ok self supplied count (uses self) st →
  out (outcome_fold (copy_output st) ∅ (shard_outputs (shard self)))
    (λ o, ∀ p, o !! p = if decide (Virtual p ∈ shard_outputs (shard self)) then virtuals st !! p else None) (λ _, False).
Proof.
  intros He. set (outs := shard_outputs (shard self)).
  eapply out_weaken; [apply (out_fold (λ n (o : gmap nat (list I18)), ∀ p, o !! p = if decide (Virtual p ∈ take n outs) then virtuals st !! p else None)
    (λ _, False)); [done|]|intros o Ho p; by rewrite Ho, take_ge|done].
  intros i r o Hr Ho. destruct (output_in r) as (p & -> & Hp); [by eapply list_elem_of_lookup_2|].
  destruct (proj2 (ex_virtuals _ _ _ _ _ He p) Hp) as [v Hv]. simpl. rewrite (ex_local _ _ _ _ _ He), Hv by lia. simpl. intros q.
  rewrite (take_S_r _ _ _ Hr). destruct (decide (q = p)) as [->|Hne].
  - rewrite lookup_insert_eq, decide_True; [done|]. apply elem_of_app. right. by left.
  - rewrite lookup_insert_ne, Ho by done. apply decide_ext. rewrite elem_of_app, list_elem_of_singleton. naive_solver.
Qed.

Lemma virtuals_size (m : gmap nat (list I18)) : (∀ p, is_Some (m !! p) ↔ (start ≤ p < start + count)%nat) → size m = count.
Proof.
  intros Hm. rewrite <-size_dom, <-(length_seq count start), <-(size_list_to_set (C := gset nat) (seq start count)) by apply NoDup_seq.
  f_equal. apply set_eq. intros p. rewrite elem_of_dom, Hm, elem_of_list_to_set, elem_of_seq. done.
Qed.

Lemma NoDup_omap_inj {A C} (f : A → option C) l :
  (∀ x y z, f x = Some z → f y = Some z → x = y) → NoDup l → NoDup (omap f l).
Proof.
  intros Hf. induction 1 as [|x l Hx Hl IH]; [constructor|]. cbn [omap list_omap]. destruct (f x) as [z|] eqn:E; [|done].
  constructor; [|done]. intros (y & Hy & Ey)%list_elem_of_omap. by rewrite (Hf x y z E Ey) in Hx.
Qed.

Lemma output_indices : NoDup (omap (λ r, match r with Virtual p => Some p | _ => None end) (shard_outputs (shard self))) ∧
  length (omap (λ r, match r with Virtual p => Some p | _ => None end) (shard_outputs (shard self))) = length (shard_outputs (shard self)).
Proof.
  split; [apply NoDup_omap_inj; [|apply (bo_outputs _ Hok)]; by intros [] [] ? [= ->] [= ->]|].
  pose proof output_in as Hall. induction (shard_outputs (shard self)) as [|r outs IH]; [done|]. cbn [omap list_omap].
  destruct (Hall r ltac:(left)) as (p & -> & _). cbn [length]. rewrite IH; [done|]. intros; apply Hall; by right.
Qed.

Lemma outputs_size (v m : gmap nat (list I18)) : (∀ p, is_Some (v !! p) ↔ (start ≤ p < start + count)%nat) →
  (∀ p, m !! p = if decide (Virtual p ∈ shard_outputs (shard self)) then v !! p else None) →
  dom m = virtual_indices (shard_outputs (shard self)) ∧ Z.of_nat (size m) = len (shard_outputs (shard self)).
Proof.
  intros Hv Hm. assert (dom m = virtual_indices (shard_outputs (shard self))) as E.
  { apply set_eq. intros p. rewrite elem_of_dom, Hm, virtual_indices_spec. destruct (decide _) as [Hp|Hp].
    - rewrite Hv. split; [done|]. intros _. by destruct (output_in _ Hp) as (? & [= <-] & ?).
    - split; [by intros []|done]. }
  split; [done|]. rewrite <-size_dom, E. unfold virtual_indices, len. destruct output_indices as [Hn <-]. by rewrite size_list_to_set.
Qed.

Lemma outputs_values (v m : gmap nat (list I18)) :
  (∀ p, m !! p = if decide (Virtual p ∈ shard_outputs (shard self)) then v !! p else None) →
  map_to_list m ≡ₚ omap (λ i, pair i <$> v !! i) (ascending (required_outputs self)).
Proof.
  intros Hm. apply NoDup_Permutation; [apply NoDup_map_to_list| |].
  - apply NoDup_omap_inj.
    + intros x y z (a & _ & ->)%fmap_Some (b & _ & [=])%fmap_Some. done.
    + unfold ascending. rewrite sort_by_Permutation. apply NoDup_elements.
  - intros [p w]. rewrite elem_of_map_to_list, Hm, list_elem_of_omap. unfold ascending. setoid_rewrite fmap_Some.
    transitivity (p ∈ required_outputs self ∧ v !! p = Some w).
    { unfold required_outputs. rewrite virtual_indices_spec. destruct (decide _); naive_solver. }
    split.
    + intros [Hp Hw]. exists p. rewrite sort_by_Permutation, elem_of_elements. eauto.
    + intros (q & Hq & u & Hu & [= <- <-]). rewrite sort_by_Permutation, elem_of_elements in Hq. done.
Qed.

(** The sums of the tail of [execute] stay within [usize]. *)
Lemma values_bound : values_count supplied_values ≤ total_input_values (limits self) →
  0 ≤ values_count supplied_values + values_count (map_to_list (weights self)).*2 ≤ u64_max.
Proof.
  intros Ht. destruct (limits_new_Ok _ Htyped (bo_limits _ Hok)) as ([_ Hu] & Hf & _).
  pose proof (bo_weight_values _ Hok) as Hw. pose proof (values_count_nonneg supplied_values).
  pose proof (values_count_nonneg (map_to_list (weights self)).*2). unfold fields in Hf. rewrite !Forall_cons in Hf.
  destruct Hf as (?&?&?&?&?&?&?&?&?&_). unfold ram_total in Hu. lia.
Qed.

Lemma usize_sum_values vs : values_count vs ≤ u64_max → usize_sum (len <$> vs) = Some (values_count vs).
Proof. intros Hv. pose proof (values_count_nonneg vs). unfold usize_sum, try_u64. by rewrite bool_decide_eq_true_2. Qed.

Definition finish (st : Execution) : Outcome CpuWitnessArtifact BackendError :=
  let~ boundary_value_count := or_panics (usize_sum (len <$> (hash_order (map_to_list (boundary_inputs st))).*2)) in
  let~ output_value_count := or_panics (usize_sum (len <$> omap (λ index, virtuals st !! index) (ascending (required_outputs self)))) in
  let~ artifact_value_count := Some (ok_or (
    count ← checked_add boundary_value_count (generated_values st);
    checked_add count output_value_count) ResourceError) in
  if total_artifact_values (limits self) <? artifact_value_count then Some (Err ResourceError) else
  let~ outputs := outcome_fold (copy_output st) ∅ (shard_outputs (shard self)) in
  let~ count := Some (validate_artifact_record_count (Z.of_nat (size (boundary_inputs st))) (Z.of_nat (size (virtuals st)))
    (Z.of_nat (size outputs)) (tensor_count (limits self))) in
  if negb (count =? artifact_record_count self) then Some (Err InvalidJob) else
  Some (Ok (mkArtifact (shard self) (shard_identity self) (run_identity self) (canonical_digest blake3 (run_identity self))
    (boundary_inputs st) (virtuals st) outputs (tensor_count (limits self)))).

Lemma finish_out st : accepted → exec_ok self supplied count (uses self) st → out (finish st) artifact_ok (execution_error self).
Proof.
  intros Ha He. unfold finish.
  assert (∀ r, boundary_inputs st !! r = origin self supplied r) as Hb.
  { intros r. rewrite (ex_boundary _ _ _ _ _ He). destruct (decide _) as [|Hn]; [done|]. symmetry. apply eq_None_not_Some. intros [v Hv].
    destruct (ac_complete Ha) as [Hg Hvi]. apply Hn. destruct r as [n|n|p]; simpl in *.
    - split; [|done]. apply (bo_graph _ Hok). rewrite <-Hg. by apply elem_of_dom.
    - split; [|done]. apply (bo_weight _ Hok). by eexists.
    - apply (bo_virtual _ Hok). rewrite <-Hvi. by apply elem_of_dom. }
  pose proof (values_bound (ac_total Ha)) as Hbound. rewrite <-(boundary_values _ Hb), <-hash_values in Hbound.
  rewrite usize_sum_values by lia. cbn [or_panics option_map outcome_bind].
  set (os := omap _ _). assert (values_count os ≤ generated_values st) as Hos.
  { rewrite (ex_generated _ _ _ _ _ He). apply values_count_lookups. unfold ascending. rewrite sort_by_Permutation. apply NoDup_elements. }
  pose proof (ex_total _ _ _ _ _ He) as Htot. pose proof (limit_u64 (total_artifact_values (limits self)) ltac:(unfold fields; set_solver)) as [_ Hu].
  rewrite usize_sum_values by lia. cbn [or_panics option_map outcome_bind].
  destruct (_ ≫= _) as [c|] eqn:Ec; cbn [ok_or outcome_bind]; [|by left]. apply bind_Some in Ec as (c' & [<- _]%try_u64_Some & [<- _]%try_u64_Some).
  destruct (Z.ltb_spec (total_artifact_values (limits self)) (values_count (hash_order (map_to_list (boundary_inputs st))).*2 + generated_values st + values_count os))
    as [|Hle]; [by left|].
  eapply out_bind; [eapply out_weaken; [by apply copy_outputs_out|intros o Ho; exact Ho|done]|]. intros o _ Ho.
  destruct (outputs_size _ _ (ex_virtuals _ _ _ _ _ He) Ho) as [Hdom Hsize].
  destruct (bo_count _ Hok) as (Hcount & Hmax & [_ Hcu]).
  assert (validate_artifact_record_count (Z.of_nat (size (boundary_inputs st))) (Z.of_nat (size (virtuals st))) (Z.of_nat (size o))
    (tensor_count (limits self)) = Ok (artifact_record_count self)) as ->.
  { apply record_count_Ok. rewrite Hsize, (virtuals_size _ (ex_virtuals _ _ _ _ _ He)), (boundary_size _ Ha Hb).
    rewrite Hcount in *. unfold in_u64, len in *. split_and!; lia. }
  cbn [outcome_bind]. rewrite Z.eqb_refl. cbn [negb out]. destruct He as [_ _ _ Hv Hs Hg Hsz _]. split; cbn; try done.
  - intros i compiled Hi. apply Hs; [|done]. rewrite <-length_instrs. by eapply lookup_lt_Some.
  - rewrite <-hash_values, <-Hg. assert (values_count (map_to_list o).*2 = values_count os) as ->; [|exact Hle].
    rewrite (values_count_Permutation _ _ (fmap_Permutation snd _ _ (outputs_values _ _ Ho))).
    by rewrite omap_values.
Qed.

Lemma execute_out :
  out (execute self supplied) (λ art, accepted ∧ artifact_ok art)
    (λ e, validate_supplied_inputs self supplied = Some (Err e) ∨ accepted ∧ execution_error self e).
Proof.
  destruct validate_supplied_spec as [Hn Hv]. unfold execute.
  destruct (validate_supplied_inputs self supplied) as [[[]|e]|]; [|by left|done]. cbn [outcome_bind].
  assert accepted as Ha by by apply Hv. eapply out_bind.
  - eapply out_weaken; [apply loop_out, (ac_complete Ha)|intros st Hst; exact Hst|]. intros e He. by right.
  - intros st _ Hst. eapply out_weaken; [by apply (finish_out st)|by intros art Hart|]. intros e He. by right.
Qed.
End Artifact.

(** ** The wire form of an artifact

    Decoding recomputes: what it accepts is exactly what an execution returns, up to
    the order of the entries. *)
Import Backend WitnessCpu Exec Onnx.

Open Scope Z_scope.

(** ** Entries *)

Definition register_entry (e : RegisterValueWire) : Register * list I18 := (into_register (rv_register e), from_raw <$> rv_raw_values e).
Definition indexed_entry (e : IndexedValueWire) : nat * list I18 := (iv_index e, from_raw <$> iv_raw_values e).

Lemma from_raw_raw (v : list I18) : from_raw <$> (raw <$> v) = v.
Proof. rewrite <-list_fmap_compose. rewrite <-(list_fmap_id v) at 2. apply list_fmap_ext. by intros ? [] ?. Qed.
Lemma into_from_register r : into_register (from_register r) = r.
Proof. by destruct r. Qed.

Lemma insert_entries {E K} `{Countable K} (key : E → K) (raws : E → list Z) (entries : list E) (m m' : gmap K (list I18)) :
  result_fold (λ values entry, insert_new values (key entry) (raws entry)) m entries = Ok m' ↔
  ((λ e, (key e, from_raw <$> raws e)) <$> entries) ++ map_to_list m ≡ₚ map_to_list m'.
Proof.
  revert m. induction entries as [|e entries IH]; intros m; cbn [result_fold fmap list_fmap app].
  - split; [by intros [= ->]|]. intros E'%map_to_list_inj. by subst.
  - unfold insert_new at 1. destruct (m !! key e) as [v|] eqn:Ek; cbn [result_bind].
    + split; [done|]. intros Hp. exfalso. pose proof (NoDup_fst_map_to_list m') as Hn. rewrite <-Hp in Hn. simpl in Hn.
      apply NoDup_cons_1_1 in Hn. apply Hn. rewrite fmap_app. apply elem_of_app. right.
      apply list_elem_of_fmap. exists (key e, v). split; [done|]. by apply elem_of_map_to_list.
    + rewrite IH, map_to_list_insert by done. by rewrite (Permutation_middle (_ <$> entries)).
Qed.

Lemma registers_Ok entries m : into_i18_registers entries = Ok m ↔ register_entry <$> entries ≡ₚ map_to_list m.
Proof. unfold into_i18_registers. rewrite insert_entries, map_to_list_empty, app_nil_r. done. Qed.
Lemma indexed_Ok entries m : into_i18_indexed entries = Ok m ↔ indexed_entry <$> entries ≡ₚ map_to_list m.
Proof. unfold into_i18_indexed. rewrite insert_entries, map_to_list_empty, app_nil_r. done. Qed.

Lemma raw_indexed_entries (m : gmap nat (list I18)) : indexed_entry <$> raw_indexed m ≡ₚ map_to_list m.
Proof.
  unfold raw_indexed. rewrite <-list_fmap_compose. unfold btree. rewrite sort_by_Permutation.
  rewrite <-(list_fmap_id (map_to_list m)) at 2. erewrite list_fmap_ext; [done|]. intros ? [k v] ?.
  unfold indexed_entry. simpl. by rewrite from_raw_raw.
Qed.

Lemma elem_of_values {K} `{Countable K} (m : gmap K (list I18)) t : t ∈ (map_to_list m).*2 ↔ ∃ k, m !! k = Some t.
Proof.
  rewrite list_elem_of_fmap. split; [intros ([k v] & -> & Hk%elem_of_map_to_list); by exists k|].
  intros [k Hk]. exists (k, t). split; [done|]. by apply elem_of_map_to_list.
Qed.

(** ** Decoding *)

Section Wire.
#[local] Set Default Proof Using "All".
Context `{B : Blake3, O : HashOrder, !HashOrderLaws O} (self : ZkieIsaCpuWitnessBackend).
Context (Hok : backend_ok self) (Htyped : limits_typed (limits self)).
Notation start := (range_start (shard_range (shard self))).
Notation count := (range_len (shard_range (shard self))).

(** The wire carries the artifact. *)
Record carries (wire : CpuWitnessArtifactWire) (art : CpuWitnessArtifact) : Prop := {
  ca_version : aw_schema_version wire = ARTIFACT_SCHEMA_VERSION;
  ca_run : aw_run_identity wire = art_run_identity art;
  ca_run_digest : aw_run_identity_digest wire = art_run_identity_digest art;
  ca_shard : aw_shard_identity wire = art_shard_identity art;
  ca_circuit : aw_circuit_digest wire = si_circuit_digest (art_shard_identity art);
  ca_inputs : register_entry <$> aw_inputs wire ≡ₚ map_to_list (art_inputs art);
  ca_virtuals : indexed_entry <$> aw_virtuals wire ≡ₚ map_to_list (art_virtuals art);
  ca_outputs : indexed_entry <$> aw_outputs wire ≡ₚ map_to_list (art_outputs art)
}.

Lemma lookup_omap_entries {K} `{Countable K} (f : K → Register) (g : Register * list I18 → option (K * list I18)) (m : gmap Register (list I18)) k :
  (∀ r v k w, g (r, v) = Some (k, w) ↔ r = f k ∧ v = w) → Inj (=) (=) f →
  (list_to_map (omap g (hash_order (map_to_list m))) : gmap K (list I18)) !! k = m !! f k.
Proof.
  intros Hg Hf. apply option_eq. intros v. rewrite <-elem_of_list_to_map.
  - rewrite list_elem_of_omap. split.
    + intros ([r w] & Hin & [-> ->]%Hg). by apply hash_entry in Hin.
    + intros Hm. exists (f k, v). split; [by apply hash_entry|by apply Hg].
  - assert (NoDup (hash_order (map_to_list m)).*1) as Hn.
    { rewrite (fmap_Permutation fst _ _ (hash_order_Permutation _ _)). apply NoDup_fst_map_to_list. }
    revert Hn. generalize (hash_order (map_to_list m)). intros l. induction l as [|[r w] l IH]; [by intros; constructor|].
    intros [Hr Hn]%NoDup_cons. cbn [omap list_omap]. destruct (g (r, w)) as [[k' w']|] eqn:E; [|by apply IH].
    apply Hg in E as [-> ->]. cbn. constructor; [|by apply IH]. intros ([k'' u] & -> & ([r x] & Hin & [-> ->]%Hg)%list_elem_of_omap)%list_elem_of_fmap.
    apply Hr. apply list_elem_of_fmap. by exists (f k'', u).
Qed.

Lemma supplied_of_origin supplied (m : gmap Register (list I18)) : (∀ r, m !! r = origin self supplied r) → supplied_of m = supplied.
Proof.
  intros Hm. unfold supplied_of. destruct supplied as [g v]. f_equal; apply map_eq; intros k.
  - rewrite (lookup_omap_entries GraphInput); [by rewrite Hm| |by intros ? ? [=]]. intros [] ? ? ?; naive_solver.
  - rewrite (lookup_omap_entries Virtual); [by rewrite Hm| |by intros ? ? [=]]. intros [] ? ? ?; naive_solver.
Qed.

Lemma artifact_sizes supplied art : accepted self supplied → artifact_ok self supplied art →
  Forall (λ t, len t ≤ values_per_tensor (limits self))
    ((map_to_list (art_inputs art)).*2 ++ (map_to_list (art_virtuals art)).*2 ++ (map_to_list (art_outputs art)).*2).
Proof.
  intros [_ _ _ Hsz _] [_ Hi _ _ Ho Hvs _]. rewrite Forall_forall in Hsz. apply Forall_forall. intros t.
  assert (∀ p, art_virtuals art !! p = Some t → len t ≤ values_per_tensor (limits self)) as Hv by (intros p Hp; by apply (Hvs p)).
  rewrite !elem_of_app, !elem_of_values. intros [[r Hr]|[[p Hp]|[p Hp]]]; [|by eapply Hv|rewrite Ho in Hp; destruct (decide _); [by eapply Hv|done]].
  rewrite Hi in Hr. destruct r as [n|n|p]; simpl in Hr; [|by apply (bo_values _ Hok _ _ Hr)|];
    apply Hsz; unfold supplied_values; apply elem_of_app; [left|right]; apply elem_of_values; eauto.
Qed.

(** What the checks of [decode_artifact_wire] ask of the three maps. *)
Lemma artifact_checks supplied art : accepted self supplied → artifact_ok self supplied art →
  validate_artifact_record_count (Z.of_nat (size (art_inputs art))) (Z.of_nat (size (art_virtuals art))) (Z.of_nat (size (art_outputs art)))
    (tensor_count (limits self)) = Ok (artifact_record_count self) ∧
  validate_tensor_collection
    ((hash_order (map_to_list (art_inputs art))).*2 ++ (btree Nat.compare (art_virtuals art)).*2 ++ (btree Nat.compare (art_outputs art)).*2)
    (tensor_count (limits self)) (values_per_tensor (limits self)) (total_artifact_values (limits self)) = Ok tt ∧
  dom (art_inputs art) = expected_artifact_inputs self ∧ dom (art_virtuals art) = list_to_set (range_indices (shard_range (shard self))) ∧
  dom (art_outputs art) = required_outputs self ∧
  existsb (λ '(index, output), negb (bool_decide (art_virtuals art !! index = Some output))) (btree Nat.compare (art_outputs art)) = false.
Proof.
  intros Ha Hart. pose proof (artifact_sizes _ _ Ha Hart) as Hsizes. destruct Hart as [_ Hi Hv Hs Ho Hsz Ht]. destruct (outputs_size self supplied Hok Htyped _ _ Hv Ho) as [Hdom Hsize].
  destruct (bo_count _ Hok) as (Hcount & Hmax & [_ Hcu]).
  pose proof (boundary_size self supplied Hok Htyped _ Ha Hi) as Hbs. pose proof (virtuals_size self supplied Hok Htyped _ Hv) as Hvs.
  split_and!.
  - apply record_count_Ok. rewrite Hsize, Hvs, Hbs. rewrite Hcount in *. unfold in_u64, len in *. split_and!; lia.
  - apply (collection_of self supplied Hok Htyped _ ((map_to_list (art_inputs art)).*2 ++ (map_to_list (art_virtuals art)).*2 ++ (map_to_list (art_outputs art)).*2)).
    { apply (limit_u64 self supplied Hok Htyped). unfold fields. set_solver. }
    { unfold btree. repeat apply Permutation_app; apply fmap_Permutation; [apply hash_order_Permutation|apply sort_by_Permutation..]. }
    rewrite !values_count_app. split_and!; [|exact Hsizes|lia].
    unfold len. rewrite !length_app, !length_fmap, !length_map_to_list, !Nat2Z.inj_add, Hbs, Hvs, Hsize. lia.
  - apply set_eq. intros r. rewrite elem_of_dom, Hi. unfold expected_artifact_inputs. rewrite !elem_of_union, !elem_of_map.
    destruct (ac_complete _ _ Ha) as [<- <-]. setoid_rewrite elem_of_dom. destruct r; simpl; naive_solver.
  - apply set_eq. intros p. rewrite elem_of_dom, Hv, elem_of_list_to_set. unfold range_indices. by rewrite elem_of_seq.
  - exact Hdom.
  - apply not_true_is_false. intros ([p v] & Hin%list_elem_of_In & Hb)%existsb_exists. unfold btree in Hin.
    rewrite sort_by_Permutation, elem_of_map_to_list, Ho in Hin. apply negb_true_iff, bool_decide_eq_false in Hb. by destruct (decide _).
Qed.

Lemma artifact_ext (art art' : CpuWitnessArtifact) supplied : artifact_ok self supplied art →
  art_shard art' = shard self → art_shard_identity art' = shard_identity self → art_run_identity art' = run_identity self →
  art_run_identity_digest art' = canonical_digest blake3 (run_identity self) → art_record_limit art' = tensor_count (limits self) →
  art_inputs art' = art_inputs art → art_virtuals art' = art_virtuals art → art_outputs art' = art_outputs art → art' = art.
Proof. intros [(? & ? & ? & ? & ?) _ _ _ _ _ _]. destruct art, art'. simpl in *. congruence. Qed.

(** The last part of [decode_artifact_wire], on the three maps. *)
Definition recompute (wire : CpuWitnessArtifactWire) (inputs : gmap Register (list I18)) (virtuals outputs : gmap nat (list I18))
    : Outcome CpuWitnessArtifact BackendError :=
  let~ recomputed := execute self (supplied_of inputs) in
  if negb (bool_decide (art_inputs recomputed = inputs)) || negb (bool_decide (art_virtuals recomputed = virtuals))
     || negb (bool_decide (art_outputs recomputed = outputs))
  then Some (Err InvalidJob) else
  Some (Ok (mkArtifact (shard self) (aw_shard_identity wire) (aw_run_identity wire) (aw_run_identity_digest wire)
    inputs virtuals outputs (tensor_count (limits self)))).

Lemma recompute_out wire inputs virtuals outputs :
  aw_run_identity wire = run_identity self → aw_run_identity_digest wire = canonical_digest blake3 (run_identity self) →
  aw_shard_identity wire = shard_identity self →
  out (recompute wire inputs virtuals outputs)
    (λ art, execute self (supplied_of inputs) = Some (Ok art) ∧ art_inputs art = inputs ∧ art_virtuals art = virtuals ∧ art_outputs art = outputs)
    (λ _, True).
Proof.
  intros Hr Hd Hs. unfold recompute. pose proof (execute_out self (supplied_of inputs) Hok Htyped) as Hx.
  eapply out_bind; [eapply out_weaken; [apply Hx|intros a Ha; exact Ha|done]|]. intros art Hart [_ Hk]. clear Hx.
  case_bool_decide as H1; [|done]. case_bool_decide as H2; [|done]. case_bool_decide as H3; [|done]. cbn [negb orb out].
  match goal with |- context [mkArtifact ?a ?b ?c ?d ?e ?f ?g ?h] => assert (mkArtifact a b c d e f g h = art) as -> end.
  { eapply artifact_ext; [exact Hk|done..]. }
  by split_and!.
Qed.

Lemma decode_split wire (Q : CpuWitnessArtifact → Prop) :
  (aw_schema_version wire = ARTIFACT_SCHEMA_VERSION → aw_run_identity wire = run_identity self →
   aw_run_identity_digest wire = canonical_digest blake3 (run_identity self) → aw_shard_identity wire = shard_identity self →
   aw_circuit_digest wire = circuit_digest self → ∀ inputs virtuals outputs,
   register_entry <$> aw_inputs wire ≡ₚ map_to_list inputs → indexed_entry <$> aw_virtuals wire ≡ₚ map_to_list virtuals →
   indexed_entry <$> aw_outputs wire ≡ₚ map_to_list outputs → out (recompute wire inputs virtuals outputs) Q (λ _, True)) →
  out (decode_artifact_wire self wire) Q (λ _, True).
Proof.
  intros Hk. unfold decode_artifact_wire. destruct (_ || _) eqn:Eh; [done|].
  apply orb_false_iff in Eh as [[[[[Ev%negb_false_iff%Z.eqb_eq Er%negb_false_iff%bool_decide_eq_true]%orb_false_iff _]%orb_false_iff
    Ed%negb_false_iff%bool_decide_eq_true]%orb_false_iff Es%negb_false_iff%bool_decide_eq_true]%orb_false_iff Ec%negb_false_iff%bool_decide_eq_true].
  specialize (Hk Ev Er Ed Es Ec).
  destruct (into_i18_registers _) as [inputs|] eqn:E1; [|done]. destruct (into_i18_indexed (aw_virtuals wire)) as [virtuals|] eqn:E2; [|done].
  destruct (into_i18_indexed (aw_outputs wire)) as [outputs|] eqn:E3; [|done]. cbn [outcome_bind].
  destruct (validate_artifact_record_count _ _ _ _); [|done]. cbn [outcome_bind]. destruct (negb _); [done|].
  destruct (validate_tensor_collection _ _ _ _); [|done]. cbn [outcome_bind]. destruct (_ || _); [done|]. destruct (existsb _ _); [done|].
  apply (Hk inputs virtuals outputs); [by apply registers_Ok|by apply indexed_Ok..].
Qed.

Lemma decode_out wire :
  out (decode_artifact_wire self wire) (λ art, carries wire art ∧ ∃ supplied, execute self supplied = Some (Ok art)) (λ _, True).
Proof.
  apply decode_split. intros Ev Er Ed Es Ec inputs virtuals outputs H1 H2 H3.
  eapply out_weaken; [by apply recompute_out| |done]. intros art (Hx & <- & <- & <-). split; [|by eexists].
  pose proof (out_Ok _ _ _ _ (execute_out self _ Hok Htyped) Hx) as [_ [(_ & Ei & Eu & Eg & _) _ _ _ _ _ _]].
  unfold circuit_digest in Ec. split; try done; congruence.
Qed.

Lemma decode_carried supplied art wire :
  execute self supplied = Some (Ok art) → carries wire art → decode_artifact_wire self wire = Some (Ok art).
Proof.
  intros Hx [Hv Hr Hd Hs Hc H1 H2 H3]. destruct (out_Ok _ _ _ _ (execute_out self supplied Hok Htyped) Hx) as [Ha Hart].
  destruct (artifact_checks _ _ Ha Hart) as (C1 & C2 & C3 & C4 & C5 & C6). pose proof Hart as Hart'. destruct Hart' as [(E1 & E2 & E3 & E4 & E5) Hi _ _ _ _ _].
  unfold decode_artifact_wire. rewrite Hv, Hr, Hd, Hs, Hc, E2, E3, E4. unfold circuit_digest.
  rewrite !bool_decide_eq_true_2 by done. cbn [Z.eqb negb orb]. change (ARTIFACT_SCHEMA_VERSION =? ARTIFACT_SCHEMA_VERSION) with true. cbn [negb orb].
  rewrite (proj2 (registers_Ok _ _) H1), (proj2 (indexed_Ok _ _) H2), (proj2 (indexed_Ok _ _) H3). cbn [outcome_bind].
  rewrite C1. cbn [outcome_bind]. rewrite Z.eqb_refl. cbn [negb]. rewrite C2. cbn [outcome_bind].
  rewrite C3, C4, C5, C6, !bool_decide_eq_true_2 by done. cbn [negb orb]. rewrite (supplied_of_origin supplied) by done. rewrite Hx. cbn [outcome_bind].
  rewrite !bool_decide_eq_true_2 by done. cbn [negb orb]. do 2 f_equal. by eapply artifact_ext.
Qed.

Lemma to_wire_carries supplied art :
  execute self supplied = Some (Ok art) → ∃ wire, to_wire art = Ok wire ∧ carries wire art.
Proof.
  intros Hx. destruct (out_Ok _ _ _ _ (execute_out self supplied Hok Htyped) Hx) as [Ha Hart].
  destruct (artifact_checks _ _ Ha Hart) as (C1 & _). unfold to_wire. destruct Hart as [(_ & _ & _ & _ & ->) _ _ _ _ _ _].
  rewrite C1. cbn [result_bind]. eexists. split; [done|]. split; try done; cbn; try apply raw_indexed_entries.
  rewrite sort_by_Permutation, hash_order_Permutation, <-list_fmap_compose. rewrite <-(list_fmap_id (map_to_list _)) at 2.
  erewrite list_fmap_ext; [done|]. intros ? [r v] _. unfold register_entry. simpl. by rewrite into_from_register, from_raw_raw.
Qed.
End Wire.

(** ** Lowering a shard

    The assembler program of a shard reads each register where the shard does, and on
    the values of an artifact it evaluates to the artifact's virtual registers. *)
Import Backend WitnessCpu Exec Onnx.

Open Scope Z_scope.

Section Lower.
#[local] Set Default Proof Using "All".
Context (self : ZkieIsaCpuWitnessBackend) (V : Register → list I18 → Prop) (R : BackendError → Prop).
Context (fetch : nat → Register → Outcome (list I18) BackendError).
Context (Hfetch : ∀ pos r, r ∈ uses self → foreign self r → out (fetch pos r) (V r) R).
Notation start := (range_start (shard_range (shard self))).
Notation count := (range_len (shard_range (shard self))).
Notation instrs := (shard_instructions (program self) (shard self)).

(** The tensor behind an external reference. *)
Definition tensor (ins ws : list (list I18)) (ref : Assembler.RegisterRef) : option (list I18) :=
  match ref with Assembler.Input i => ins !! i | Assembler.Weight i => ws !! i | Assembler.Virtual _ => None end.

Record lowered_ok (st : Lowered) : Prop := {
  lo_external r ref : external st !! r = Some ref → foreign self r ∧ ∃ v, V r v ∧ tensor (input_values st) (weight_values st) ref = Some v;
  lo_values : Forall (λ v, ∃ r, V r v) (input_values st ++ weight_values st)
}.
Definition extends (st st' : Lowered) : Prop :=
  (external st ⊆ external st') ∧ (∃ k, input_values st' = input_values st ++ k) ∧ (∃ k, weight_values st' = weight_values st ++ k).
#[local] Instance extends_preorder : PreOrder extends.
Proof.
  split.
  - intros st. split_and!; [done|exists []; by rewrite app_nil_r..].
  - intros a b c (H1 & [k1 E1] & [k2 E2]) (H2 & [k3 E3] & [k4 E4]). split_and!; [by etrans|exists (k1 ++ k3)|exists (k2 ++ k4)];
      rewrite ?E3, ?E4, ?E1, ?E2; by rewrite app_assoc.
Qed.

(** How a register is referred to. *)
Definition refers (external : gmap Register Assembler.RegisterRef) (r : Register) (ref : Assembler.RegisterRef) : Prop :=
  if decide (foreign self r) then external !! r = Some ref
  else ∃ p, r = Virtual p ∧ (start ≤ p)%nat ∧ ref = Assembler.Virtual (p - start).
Definition refers_instruction (external : gmap Register Assembler.RegisterRef) (compiled : CompiledInstruction)
    (instr : Assembler.AssemblerInstruction) : Prop :=
  Assembler.instruction instr = ci_instruction compiled ∧ Forall2 (refers external) (ci_inputs compiled) (Assembler.inputs instr).

Lemma refers_weaken ext ext' r ref : ext ⊆ ext' → refers ext r ref → refers ext' r ref.
Proof. intros Hs. unfold refers. destruct (decide _); [|done]. intros H. by eapply lookup_weaken. Qed.
Lemma refers_instruction_weaken ext ext' c i : ext ⊆ ext' → refers_instruction ext c i → refers_instruction ext' c i.
Proof. intros Hs [E H]. split; [done|]. eapply Forall2_impl; [exact H|]. intros. by eapply refers_weaken. Qed.

Lemma tensor_app ins ws k k' ref v : tensor ins ws ref = Some v → tensor (ins ++ k) (ws ++ k') ref = Some v.
Proof. destruct ref; simpl; [apply lookup_app_l_Some..|done]. Qed.

Lemma lower_fresh st r : lowered_ok st → r ∈ uses self → foreign self r → external st !! r = None →
  out (let position := match r with Weight _ => length (weight_values st) | _ => length (input_values st) end in
       let~ values := fetch position r in
       let reference := match r with Weight _ => Assembler.Weight position | _ => Assembler.Input position end in
       Some (Ok (match r with
         | Weight _ => mkLowered (<[r := reference]> (external st)) (input_values st) (weight_values st ++ [values])
         | _ => mkLowered (<[r := reference]> (external st)) (input_values st ++ [values]) (weight_values st)
         end, reference)))
    (λ p, lowered_ok p.1 ∧ extends st p.1 ∧ refers (external p.1) r p.2) R.
Proof.
  intros [Hx Hv] Hu Hf Hn. cbv zeta. eapply out_bind; [by apply Hfetch|]. intros v _ HV. cbn [out fst snd].
  rewrite Forall_app in Hv. destruct Hv as [Hvi Hvw].
  assert (∀ ref ins ws, tensor ins ws ref = Some v → (∃ k, ins = input_values st ++ k) → (∃ k, ws = weight_values st ++ k) →
    Forall (λ v, ∃ r, V r v) (ins ++ ws) →
    let st' := mkLowered (<[r := ref]> (external st)) ins ws in lowered_ok st' ∧ extends st st' ∧ refers (external st') r ref) as H.
  { intros ref ins ws Href [k Hk] [k' Hk'] Hall. split_and!; [split|split_and!|]; cbn; eauto.
    - intros r' ref'. destruct (decide (r' = r)) as [->|Hne]; [rewrite lookup_insert_eq; intros [= <-]; eauto|].
      rewrite lookup_insert_ne by done. intros (H1 & w & H2 & H3)%Hx. split; [done|]. exists w. split; [done|].
      subst ins ws. by apply tensor_app.
    - by apply insert_subseteq.
    - unfold refers. rewrite decide_True by done. apply lookup_insert_eq. }
  assert (∃ k : list (list I18), input_values st = input_values st ++ k) as K1 by (exists []; by rewrite app_nil_r).
  assert (∃ k : list (list I18), weight_values st = weight_values st ++ k) as K2 by (exists []; by rewrite app_nil_r).
  destruct r; apply H; simpl; rewrite ?lookup_app_r, ?Nat.sub_diag by done; try done; eauto;
    rewrite !Forall_app, ?Forall_singleton; eauto.
Qed.

Lemma lower_register_out st r : lowered_ok st → r ∈ uses self →
  out (lower_register start fetch st r) (λ p, lowered_ok p.1 ∧ extends st p.1 ∧ refers (external p.1) r p.2) R.
Proof.
  intros Hst Hu. unfold lower_register.
  assert (foreign self r → out (match external st !! r with
    | Some reference => Some (Ok (st, reference))
    | None =>
        let position := match r with Weight _ => length (weight_values st) | _ => length (input_values st) end in
        let~ values := fetch position r in
        let reference := match r with Weight _ => Assembler.Weight position | _ => Assembler.Input position end in
        Some (Ok (match r with
          | Weight _ => mkLowered (<[r := reference]> (external st)) (input_values st) (weight_values st ++ [values])
          | _ => mkLowered (<[r := reference]> (external st)) (input_values st ++ [values]) (weight_values st)
          end, reference)) end) (λ p, lowered_ok p.1 ∧ extends st p.1 ∧ refers (external p.1) r p.2) R) as Hfresh.
  { intros Hf. destruct (external st !! r) as [ref|] eqn:E; [|by apply lower_fresh]. split_and!; [done|done|].
    unfold refers. by rewrite decide_True. }
  destruct r as [n|n|p]; [by apply Hfresh..|]. destruct (Nat.leb_spec start p); [|by apply Hfresh].
  split_and!; [done|done|]. unfold refers. rewrite decide_False by (simpl; lia). eauto.
Qed.

Lemma lower_instruction_out st i compiled : lowered_ok st → instrs !! i = Some compiled →
  out (lower_instruction self fetch st (start + i)) (λ p, lowered_ok p.1 ∧ extends st p.1 ∧ refers_instruction (external p.1) compiled p.2) R.
Proof.
  intros Hst Hi. unfold lower_instruction. rewrite (instrs_lookup self _ _ Hi). cbn [or_panics option_map outcome_bind].
  pose proof (uses_of self _ _ Hi) as Hu. rewrite Forall_lookup in Hu.
  eapply out_bind.
  { apply (out_mapM (λ n t refs, lowered_ok t ∧ extends st t ∧ Forall2 (refers (external t)) (take n (ci_inputs compiled)) refs)).
    - split_and!; [done|done|constructor].
    - intros n r t refs Hr (Ht & He & Hrefs). eapply out_weaken; [apply (lower_register_out t r Ht); by eapply Hu| |done].
      intros [t' ref] (H1 & H2 & H3). split_and!; [done|by etrans|]. rewrite (take_S_r _ _ _ Hr). apply Forall2_app; [|by repeat constructor].
      eapply Forall2_impl; [exact Hrefs|]. intros r' ref'. apply refers_weaken, H2. }
  intros [t refs] _ (H1 & H2 & H3). rewrite take_ge in H3 by done. by split_and!.
Qed.

Lemma lower_out : length instrs = count →
  out (lower self fetch) (λ prog, ∃ ext,
    (∀ r ref, ext !! r = Some ref → foreign self r ∧ ∃ v, V r v ∧ tensor (Assembler.input_values prog) (Assembler.weight_values prog) ref = Some v) ∧
    Forall (λ v, ∃ r, V r v) (Assembler.input_values prog ++ Assembler.weight_values prog) ∧
    Forall2 (refers_instruction ext) instrs (Assembler.instructions prog)) R.
Proof.
  intros Hlen. unfold lower, range_indices. eapply out_bind.
  { apply (out_mapM (λ n t l, lowered_ok t ∧ Forall2 (refers_instruction (external t)) (take n instrs) l)).
    - split; [split; cbn; [by intros ? ?|constructor]|constructor].
    - intros i x t l [-> Hi]%lookup_seq [Ht Hl]. destruct (lookup_lt_is_Some_2 instrs i) as [compiled Hc]; [lia|].
      eapply out_weaken; [by apply (lower_instruction_out t i compiled)| |done].
      intros [t' instr] (H1 & H2 & H3). split; [done|]. rewrite (take_S_r _ _ _ Hc). apply Forall2_app; [|constructor; [exact H3|constructor]].
      eapply Forall2_impl; [exact Hl|]. intros c j. apply refers_instruction_weaken, H2. }
  intros [t l] _ [[Hx Hv] Hl]. rewrite length_seq, take_ge in Hl by (rewrite ?length_seq; lia). exists (external t). by split_and!.
Qed.
End Lower.

(** ** Evaluating the lowered program *)

Lemma eval_program_steps total ins ws instrs vs :
  length vs = length instrs →
  (∀ i instr, instrs !! i = Some instr → ∃ a b v, operands ins ws (take i vs) instr = Some (a, b) ∧
    eval_instruction total (Assembler.instruction instr) a b = Some v ∧ vs !! i = Some v) →
  eval_program total ins ws instrs [] = Some vs.
Proof.
  intros Hlen Hall.
  assert (∀ k, (k ≤ length instrs)%nat → eval_program total ins ws (drop k instrs) (take k vs) = Some vs) as H.
  { intros k Hk. remember (length instrs - k)%nat as n eqn:En. revert k Hk En. induction n as [|n IH]; intros k Hk En.
    - rewrite drop_ge, take_ge by lia. done.
    - destruct (lookup_lt_is_Some_2 instrs k) as [instr Hi]; [lia|]. rewrite (drop_S _ _ _ Hi). cbn [eval_program].
      destruct (Hall _ _ Hi) as (a & b & v & -> & Hv & Hvs). cbn [mbind option_bind]. rewrite Hv. cbn [mbind option_bind].
      rewrite <-(take_S_r _ _ _ Hvs). apply IH; lia. }
  exact (H 0%nat ltac:(lia)).
Qed.

Section Evaluates.
Context `{B : Blake3, O : HashOrder, !HashOrderLaws O} (self : ZkieIsaCpuWitnessBackend) (supplied : CpuWitnessInputs).
Context (Hok : backend_ok self) (art : CpuWitnessArtifact) (Hart : artifact_ok self supplied art) (Hin : complete self supplied).
Notation start := (range_start (shard_range (shard self))).
Notation count := (range_len (shard_range (shard self))).
Notation instrs := (shard_instructions (program self) (shard self)).

Definition typed_inputs : Prop :=
  map_Forall (λ _ v, Forall in_I18 v) (graph_inputs supplied) ∧ map_Forall (λ _ v, Forall in_I18 v) (virtual_inputs supplied).
Definition shard_rms_free : Prop := Forall (λ c, ∀ dim eps, ci_instruction c ≠ Program.RmsNorm dim eps) instrs.
Context (Htyped : typed_inputs) (Hrms : shard_rms_free).

Lemma weight_to_i18_typed t vs : weight_to_i18 t = Ok vs → Forall in_I18 vs.
Proof.
  intros H%result_mapM_Ok. apply Forall_forall. intros v [i Hi]%list_elem_of_lookup.
  destruct (Forall2_lookup_r _ _ _ _ _ H Hi) as ([j w] & _ & Hv%map_err_Ok). by eapply from_f64_in_I18.
Qed.

Lemma origin_typed r v : origin self supplied r = Some v → Forall in_I18 v.
Proof using Hok Htyped.
  destruct Htyped as [Hg Hv]. destruct r as [n|n|p]; simpl; intros H; [by eapply Hg| |by eapply Hv].
  destruct (bo_values _ Hok _ _ H) as [Hw _]. apply result_bind_Ok in Hw as (t & _ & Hw). by eapply weight_to_i18_typed.
Qed.

Definition virtual_list : list (list I18) := (λ i, default [] (art_virtuals art !! (start + i)%nat)) <$> seq 0 count.

Lemma virtual_list_lookup i : virtual_list !! i = art_virtuals art !! (start + i)%nat.
Proof using Hart.
  unfold virtual_list. rewrite list_lookup_fmap. destruct (decide (i < count)%nat) as [Hi|Hi].
  - rewrite (proj2 (lookup_seq 0 count i i)) by lia. simpl.
    destruct (proj2 (ao_virtuals _ _ _ Hart (start + i)%nat)) as [v ->]; [lia|done].
  - rewrite (lookup_ge_None_2 (seq 0 count)) by (rewrite length_seq; lia). simpl. symmetry. apply eq_None_not_Some.
    rewrite (ao_virtuals _ _ _ Hart). lia.
Qed.

Context (prog : Assembler.AssemblerProgram) (ext : gmap Register Assembler.RegisterRef).
Context (Hext : ∀ r ref, ext !! r = Some ref → foreign self r ∧ ∃ v, origin self supplied r = Some v ∧
  tensor (Assembler.input_values prog) (Assembler.weight_values prog) ref = Some v).
Context (Hrefs : Forall2 (refers_instruction self ext) instrs (Assembler.instructions prog)).
Notation ins := (Assembler.input_values prog).
Notation ws := (Assembler.weight_values prog).

Lemma register_read i r ref v : backward (shard self) (start + i) r → refers self ext r ref →
  read self supplied (art_virtuals art) r = Some v → register ins ws (take i virtual_list) ref = Some v.
Proof using Hart Hext.
  unfold refers, read. intros Hb. destruct (decide (foreign self r)) as [Hf|Hf].
  - intros (_ & w & Hw & Ht)%Hext Hv. rewrite Hv in Hw. injection Hw as <-. by destruct ref.
  - intros (p & -> & Hp & ->) Hv. simpl. rewrite lookup_take_lt by (specialize (Hb p eq_refl Hp); lia).
    rewrite virtual_list_lookup. by replace (start + (p - start))%nat with p by lia.
Qed.

(** One instruction, once the registers before it are known to be in range. *)
Lemma lowered_step i instr : Assembler.instructions prog !! i = Some instr →
  (∀ p v, (p < start + i)%nat → art_virtuals art !! p = Some v → Forall in_I18 v) →
  ∃ a b v, operands ins ws (take i virtual_list) instr = Some (a, b) ∧
    eval_instruction checked_total (Assembler.instruction instr) a b = Some v ∧ virtual_list !! i = Some v.
Proof using All.
  intros Hi Hprev. destruct (Forall2_lookup_r _ _ _ _ _ Hrefs Hi) as (compiled & Hc & Einstr & Hregs).
  destruct (ao_steps _ _ _ Hart _ _ Hc) as (ops & v & Hops & Hrun & Hv).
  destruct (execute_instruction_operands _ _ _ _ _ Hrun) as (a & b & ->). destruct (bo_step _ Hok _ _ Hc) as [Hb _].
  apply mapM_Some in Hops. destruct (ci_inputs compiled) as [|r1 [|r2 [|]]]; inversion Hops as [|? ? ? ? E1 Hops']; subst;
    try (by inversion Hops'; subst; match goal with H : Forall2 _ [] (_ :: _) |- _ => inversion H | H : Forall2 _ (_ :: _) [] |- _ => inversion H end).
  apply Forall2_cons_1 in Hops' as [E2 _]. apply Forall_cons in Hb as [Hb1 [Hb2 _]%Forall_cons].
  apply Forall2_cons_inv_l in Hregs as (ref1 & refs & R1 & Hregs & Erefs). apply Forall2_cons_inv_l in Hregs as (ref2 & refs' & R2 & Hnil & ->).
  apply Forall2_nil_inv_l in Hnil as ->. exists a, b, v. rewrite virtual_list_lookup. split_and!; [|rewrite Einstr|done].
  - unfold operands. rewrite Erefs. rewrite (register_read i r1 ref1 a) by done. cbn [mbind option_bind].
    by rewrite (register_read i r2 ref2 b).
  - assert (∀ r w, backward (shard self) (start + i) r → read self supplied (art_virtuals art) r = Some w → Forall in_I18 w) as Hty.
    { intros r w Hbr. unfold read. destruct (decide _) as [|Hf]; [apply origin_typed|]. destruct r as [| |p]; [done..|].
      apply Hprev, Hbr; [done|]. simpl in Hf. lia. }
    eapply execute_instruction_eval; [by eapply Hty, E1|by eapply Hty, E2| |done].
    unfold shard_rms_free in Hrms. rewrite Forall_lookup in Hrms. by eapply Hrms.
Qed.

Lemma virtuals_typed n p v : (p < start + n)%nat → art_virtuals art !! p = Some v → Forall in_I18 v.
Proof using All.
  revert p v. induction n as [|n IH]; intros p v Hp Hv.
  - assert (is_Some (art_virtuals art !! p)) as Hs by eauto. apply (ao_virtuals _ _ _ Hart) in Hs. lia.
  - destruct (decide (p < start + n)%nat); [by apply (IH p)|]. assert (p = start + n)%nat as -> by lia.
    assert (is_Some (virtual_list !! n)) as Hs by (rewrite virtual_list_lookup; eauto). apply lookup_lt_is_Some in Hs.
    unfold virtual_list in Hs. rewrite length_fmap, length_seq, <-(length_instrs_of self Hok), (Forall2_length _ _ _ Hrefs) in Hs.
    apply lookup_lt_is_Some_2 in Hs as [instr Hi]. destruct (lowered_step n instr Hi IH) as (a & b & w & _ & He & Hw).
    rewrite virtual_list_lookup, Hv in Hw. injection Hw as <-. by eapply eval_instruction_typed.
Qed.

Lemma lowered_evaluates : eval_program checked_total ins ws (Assembler.instructions prog) [] = Some virtual_list.
Proof using All.
  apply eval_program_steps.
  - unfold virtual_list. by rewrite length_fmap, length_seq, <-(length_instrs_of self Hok), (Forall2_length _ _ _ Hrefs).
  - intros i instr Hi. apply lowered_step; [done|]. intros p v. apply virtuals_typed.
Qed.
End Evaluates.

(** ** The public values *)

Section Public.
Context `{B : Blake3, O : HashOrder, !HashOrderLaws O} (self : ZkieIsaCpuWitnessBackend) (Hok : backend_ok self).
Notation start := (range_start (shard_range (shard self))).
Notation count := (range_len (shard_range (shard self))).

Lemma public_output_in p : p ∈ public_output_globals self → (start ≤ p < start + count)%nat.
Proof using Hok.
  unfold public_output_globals, required_outputs. rewrite elem_of_union, virtual_indices_spec, elem_of_list_to_set, list_elem_of_omap.
  intros [Hp|([name r] & _ & Hr)].
  - pose proof (bo_boundary _ Hok) as Hb. apply andb_true_iff in Hb as [_ Hb]. rewrite forallb_forall in Hb.
    apply list_elem_of_In, Hb in Hp. unfold range_contains, range_len in *. apply andb_true_iff in Hp as [?%Nat.leb_le ?%Nat.ltb_lt]. lia.
  - destruct r as [| |q]; try done. destruct (range_contains _ q) eqn:E; [|done]. injection Hr as <-.
    unfold range_contains, range_len in *. apply andb_true_iff in E as [?%Nat.leb_le ?%Nat.ltb_lt]. lia.
Qed.

Lemma ascending_sorted s : StronglySorted lt (ascending s).
Proof.
  unfold ascending. set (l := sort_by Nat.compare (base.elements s)).
  assert (TotalCompare Nat.compare) as Hc.
  { split; [intros x y; by rewrite Nat.compare_antisym|]. intros x y z. rewrite !Nat.compare_le_iff. lia. }
  assert (NoDup l) as Hn by (unfold l; rewrite sort_by_Permutation; apply NoDup_elements).
  pose proof (sort_by_sorted Nat.compare (base.elements s)) as Hs. fold l in Hs.
  induction Hs as [|x k Hs IH Hx]; [constructor|]. apply NoDup_cons in Hn as [Hxk Hn]. constructor; [by apply IH|].
  rewrite Forall_forall in Hx. apply Forall_forall. intros y Hy. specialize (Hx y Hy). unfold cmp_le in Hx. apply Nat.compare_le_iff in Hx.
  assert (x ≠ y) by congruence. lia.
Qed.

Lemma unsorted_false l : StronglySorted lt l → ProgramCircuit.unsorted l = false.
Proof.
  unfold ProgramCircuit.unsorted. induction 1 as [|x l Hs IH Hx]; [done|]. destruct l as [|y l]; [done|]. cbn [zip zip_with tail existsb].
  apply Forall_cons in Hx as [Hxy _]. rewrite (proj2 (Nat.leb_gt y x)) by done. exact IH.
Qed.

Lemma public_indices_valid n : n = count →
  ProgramCircuit.unsorted (public_output_indices self) || existsb (λ index, n <=? index)%nat (public_output_indices self) = false.
Proof using Hok.
  intros ->. unfold public_output_indices.
  assert (∀ p, p ∈ ascending (public_output_globals self) → (start ≤ p < start + count)%nat) as Hin.
  { intros p. unfold ascending. rewrite sort_by_Permutation, elem_of_elements. apply public_output_in. }
  apply orb_false_iff. split.
  - apply unsorted_false. pose proof (ascending_sorted (public_output_globals self)) as Hs. revert Hin Hs.
    generalize (ascending (public_output_globals self)). intros l Hin Hs.
    induction Hs as [|x l Hs IH Hx]; [constructor|]. constructor; [apply IH; intros; apply Hin; by right|].
    apply Forall_fmap, Forall_forall. intros y Hy. rewrite Forall_forall in Hx. specialize (Hx y Hy). simpl.
    pose proof (Hin x ltac:(left)). lia.
  - apply not_true_is_false. intros (i & Hi%list_elem_of_In & Hle%Nat.leb_le)%existsb_exists.
    apply list_elem_of_fmap in Hi as (p & -> & Hp%Hin). lia.
Qed.

Context (supplied : CpuWitnessInputs) (art : CpuWitnessArtifact) (Hart : artifact_ok self supplied art).

Lemma public_outputs_found : ∃ outs, mapM (λ index, art_virtuals art !! index) (ascending (public_output_globals self)) = Some outs ∧
  Forall2 (λ index out, virtual_list self art !! index = Some out) (public_output_indices self) outs.
Proof using Hok Hart.
  unfold public_output_indices.
  assert (∀ p, p ∈ ascending (public_output_globals self) → (start ≤ p < start + count)%nat) as Hin.
  { intros p. unfold ascending. rewrite sort_by_Permutation, elem_of_elements. apply public_output_in. }
  induction (ascending (public_output_globals self)) as [|p l IH]; [by exists []; split; [|constructor]|].
  destruct IH as (outs & Hm & Hf); [intros; apply Hin; by right|]. pose proof (Hin p ltac:(left)) as Hp.
  destruct (proj2 (ao_virtuals _ _ _ Hart p) Hp) as [v Hv]. exists (v :: outs). split; [simpl; by rewrite Hv; simpl; rewrite Hm|].
  cbn. constructor; [|exact Hf]. rewrite (virtual_list_lookup self supplied) by done. by replace (start + (p - start))%nat with p by lia.
Qed.
End Public.
