(* ===== verification/BackendProofs.v ===== *)
(** * What a verified proof is

    The checks of [verify_proof], what a verified proof says of the job it was
    verified for, and what the binding digest of a request covers. *)
From S2P Require Import Prelude Bytes State Identity Program PoseidonBoundary Backend Concrete.
Import Backend.

Open Scope Z_scope.

Section Proofs.
Context `{Blake3}.

Lemma negb_decide_false (P : Prop) `{Decision P} : negb (bool_decide P) = false ↔ P.
Proof. rewrite negb_false_iff. apply bool_decide_eq_true. Qed.

Lemma ck_Ok {A} `{EqDecision A} (x y : A) err u : ck x y err = Ok u ↔ x = y.
Proof. unfold ck. destruct (decide (x = y)) as [->|Hne]; [rewrite bool_decide_eq_true_2|rewrite bool_decide_eq_false_2]; destruct u; naive_solver. Qed.

Lemma valid_bytes_Ok b u : valid_bytes b = Ok u ↔ Z.of_nat (length b) ≤ MAX_BYTES.
Proof. unfold valid_bytes. destruct u, (Z.ltb_spec MAX_BYTES (Z.of_nat (length b))); split; try done; lia. Qed.

(** What the fields of a request have by their types and constructors. *)
Record request_ok (r : CryptoVerificationRequest) : Prop := {
  ro_flavor : text_ok (up_proof_flavor (cr_proof r));
  ro_backend : text_ok (up_execution_backend (cr_proof r));
  ro_shard_id : in_u64 (si_id (up_shard (cr_proof r)));
  ro_shard_name : text_ok (si_name (up_shard (cr_proof r)));
  ro_key_flavor : text_ok (ki_proof_flavor (cr_verification_key r));
  ro_digests : Forall digest_ok [si_circuit_digest (up_shard (cr_proof r)); ki_circuit_digest (cr_verification_key r);
    up_proof_digest (cr_proof r); up_artifact_digest (cr_proof r); up_public_statement_digest (cr_proof r);
    up_circuit_digest (cr_proof r); up_verification_key_digest (cr_proof r); up_run_identity_digest (cr_proof r);
    ki_key_digest (cr_verification_key r); cr_expected_witness_artifact_digest r];
  ro_statement : in_u64 (Z.of_nat (length (up_public_statement (cr_proof r))));
  ro_manifest : in_u64 (Z.of_nat (length (up_artifact_manifest (cr_proof r))));
  ro_bytes : in_u64 (Z.of_nat (length (cr_proof_bytes r)))
}.

#[export] Instance encode_bytes_prefix_free : PrefixFree (λ b, in_u64 (Z.of_nat (length b))) encode_bytes.
Proof.
  intros a b r s Ha Hb E. unfold encode_bytes in E. rewrite <-!app_assoc in E.
  apply (prefix_free (enc := encode_u64)) in E as [El E]; [|done..]. apply app_inj_1 in E as [-> ->]; [done|lia].
Qed.

(** Requests of one proof file. *)
Definition with_path (path : string) (p : UnverifiedProof) : UnverifiedProof :=
  mkUnverifiedProof path (up_proof_digest p) (up_public_statement p) (up_public_statement_digest p) (up_circuit_digest p)
    (up_verification_key_digest p) (up_proof_flavor p) (up_execution_backend p) (up_shard p) (up_artifact_manifest p)
    (up_artifact_digest p) (up_run_identity_digest p).
Definition request_with_path (path : string) (r : CryptoVerificationRequest) : CryptoVerificationRequest :=
  mkCryptoVerificationRequest (with_path path (cr_proof r)) (cr_proof_bytes r) (cr_verification_key r)
    (cr_expected_witness_artifact_digest r).

Lemma request_preimage_inj r r' :
  request_ok r → request_ok r' → request_preimage r = request_preimage r' →
  ∃ path, r' = request_with_path path r.
Proof.
  intros [] [] E. unfold request_preimage in E. repeat match goal with Hf : Forall digest_ok _ |- _ => rewrite !Forall_cons in Hf; destruct_and! end.
  apply app_inv_head in E.
  do 2 (apply (prefix_free (enc := encode_text)) in E as [? E]; [|done..]).
  apply (prefix_free (enc := encode_u64)) in E as [? E]; [|done..].
  apply (prefix_free (enc := encode_text)) in E as [? E]; [|done..].
  apply (prefix_free (enc := id)) in E as [? E]; [|done..].
  apply (prefix_free (enc := encode_text)) in E as [? E]; [|done..].
  do 9 (apply (prefix_free (enc := id)) in E as [? E]; [|done..]).
  do 2 (apply (prefix_free (enc := encode_bytes)) in E as [? E]; [|done..]).
  rewrite <-(app_nil_r (encode_bytes (cr_proof_bytes r))), <-(app_nil_r (encode_bytes (cr_proof_bytes r'))) in E.
  apply (prefix_free (enc := encode_bytes)) in E as [? _]; [|done..].
  exists (up_proof_path (cr_proof r')). destruct r as [[? ? ? ? ? ? ? ? [] ? ? ?] ? [] ?], r' as [[? ? ? ? ? ? ? ? [] ? ? ?] ? [] ?].
  unfold request_with_path, with_path. simpl in *. by subst.
Qed.

(** The proofs that [new] and deserialization make. *)
Definition proof_made (p : UnverifiedProof) : Prop :=
  up_public_statement_digest p = digest (up_public_statement p) ∧ up_artifact_digest p = digest (up_artifact_manifest p) ∧
  up_artifact_manifest p ≠ [] ∧ si_circuit_digest (up_shard p) = up_circuit_digest p.

Lemma unverified_proof_new_made path d st c v f b s m r p :
  unverified_proof_new path d st c v f b s m r = Ok p → proof_made p.
Proof.
  unfold unverified_proof_new. rewrite result_bind_Ok. intros (_ & _ & (_ & _ & (_ & _ & E)%result_bind_Ok)%result_bind_Ok).
  destruct (bool_decide (m = [])) eqn:Em; [done|]. apply bool_decide_eq_false in Em.
  destruct (negb _) eqn:Ec; [done|]. apply negb_decide_false in Ec. by injection E as <-.
Qed.
Lemma unverified_proof_try_from_made w p : unverified_proof_try_from w = Ok p → proof_made p ∧ p = w.
Proof.
  unfold unverified_proof_try_from. rewrite result_bind_Ok. intros (p' & E & Hp).
  destruct (_ || _) eqn:Ed; [done|]. apply orb_false_iff in Ed as [E1%negb_decide_false E2%negb_decide_false]. injection Hp as ->.
  split; [by eapply unverified_proof_new_made|]. unfold unverified_proof_new in E. rewrite !result_bind_Ok in E.
  destruct E as (_ & _ & (_ & _ & (_ & _ & E)%result_bind_Ok)%result_bind_Ok).
  destruct (bool_decide _); [done|]. destruct (negb _); [done|]. injection E as <-. simpl in *. destruct w; simpl in *. by subst.
Qed.

(** The request that [verify_proof] sends. *)
Definition request_of (job : VerificationJob) : CryptoVerificationRequest :=
  mkCryptoVerificationRequest (vj_proof job) (vj_proof_bytes job)
    (mkKeyIdentity (ex_proof_flavor (vj_expectation job)) (ex_circuit_digest (vj_expectation job))
      (ex_verification_key_digest (vj_expectation job)))
    (ex_witness_artifact_digest (vj_expectation job)).

(** What a proof must share with the expectation. *)
Definition as_expected (e : VerificationExpectation) (p : UnverifiedProof) : Prop :=
  ex_proof_flavor e = up_proof_flavor p ∧ ex_execution_backend e = up_execution_backend p ∧
  ex_circuit_digest e = up_circuit_digest p ∧ ex_verification_key_digest e = up_verification_key_digest p ∧
  ex_run_identity_digest e = up_run_identity_digest p ∧ ex_shard e = up_shard p ∧
  ex_public_statement_digest e = up_public_statement_digest p ∧ ex_artifact_digest e = up_artifact_digest p ∧
  ex_proof_digest e = up_proof_digest p.

(** The back end's answer, for a request it accepts. *)
Definition receipt_binds (backend : ProofBackend) (r : CryptoVerificationRequest) : Prop :=
  pb_verify_cryptographically backend r = Ok (mkReceipt (request_binding_digest r)).

Lemma crypto_request_Ok p b k w r :
  request_new p b k w = Ok r ↔ r = mkCryptoVerificationRequest p b k w ∧ Z.of_nat (length b) ≤ MAX_BYTES ∧ b ≠ [] ∧
    digest b = up_proof_digest p ∧ up_proof_flavor p = ki_proof_flavor k ∧ up_circuit_digest p = ki_circuit_digest k ∧
    up_verification_key_digest p = ki_key_digest k.
Proof.
  unfold request_new. rewrite result_bind_Ok. setoid_rewrite valid_bytes_Ok.
  destruct (_ || _) eqn:E.
  - split; [by intros (_ & _ & ?)|]. intros (_ & _ & Hb & H1 & H2 & H3 & H4). exfalso.
    rewrite !orb_true_iff, !negb_true_iff, !bool_decide_eq_true, !bool_decide_eq_false in E. naive_solver.
  - rewrite !orb_false_iff, !negb_decide_false, bool_decide_eq_false in E. destruct_and!.
    split; [intros (_ & ? & [= <-]); by split_and!|]. intros (-> & ? & _). by exists tt.
Qed.

Lemma verify_proof_Ok backend job vp :
  verify_proof backend job = Ok vp ↔
    vp = mkVerifiedProof (vj_proof job) ∧ is_ok (capabilities_validate (pb_capabilities backend)) = true ∧
    ex_proof_flavor (vj_expectation job) ∈ bc_proof_flavors (pb_capabilities backend) ∧
    as_expected (vj_expectation job) (vj_proof job) ∧ up_artifact_manifest (vj_proof job) ≠ [] ∧ vj_proof_bytes job ≠ [] ∧
    Z.of_nat (length (vj_proof_bytes job)) ≤ MAX_BYTES ∧ digest (vj_proof_bytes job) = up_proof_digest (vj_proof job) ∧
    receipt_binds backend (request_of job).
Proof.
  unfold verify_proof, receipt_binds, request_of, as_expected. destruct job as [e p b]. cbn [vj_expectation vj_proof vj_proof_bytes].
  split.
  - intros ([] & E0%map_err_Ok & E)%result_bind_Ok. destruct (negb _) eqn:Ef; [done|]. apply negb_decide_false in Ef.
    do 8 (apply result_bind_Ok in E as (? & ?%ck_Ok & E)).
    destruct (bool_decide (b = [])) eqn:Eb; [done|]. apply bool_decide_eq_false in Eb.
    destruct (bool_decide _) eqn:Em; [done|]. apply bool_decide_eq_false in Em.
    destruct (_ || _) eqn:Ed; [done|]. apply orb_false_iff in Ed as [Ed1%negb_decide_false Ed2%negb_decide_false].
    apply result_bind_Ok in E as (k & [= <-] & E). apply result_bind_Ok in E as (pre & Ep%map_err_Ok & E).
    apply crypto_request_Ok in Ep as (-> & ? & _). apply result_bind_Ok in E as ([rc] & Er & E).
    destruct (negb _) eqn:Erc; [done|]. apply negb_decide_false in Erc. simpl in Erc. subst rc. injection E as <-.
    split_and!; try done. by rewrite E0.
  - intros (-> & Hv & Hf & (E1 & E2 & E3 & E4 & E5 & E6 & E7 & E8 & E9) & Hm & Hb & Hl & Hd & Hr).
    destruct (capabilities_validate _) as [[]|]; [|done]. cbn [map_err result_bind].
    rewrite (proj2 (negb_decide_false _) Hf). rewrite !(proj2 (ck_Ok _ _ _ tt)) by done. cbn [result_bind].
    rewrite bool_decide_eq_false_2 by done. rewrite bool_decide_eq_false_2 by done.
    rewrite (proj2 (negb_decide_false _) Hd), (proj2 (negb_decide_false _) E9). cbn [orb key_identity_new map_err result_bind].
    assert (∀ k w, k = mkKeyIdentity (ex_proof_flavor e) (ex_circuit_digest e) (ex_verification_key_digest e) →
      request_new p b k w = Ok (mkCryptoVerificationRequest p b k w)) as Hreq.
    { intros k w ->. apply crypto_request_Ok. by split_and!. }
    rewrite Hreq by done.
    cbn [map_err result_bind]. rewrite Hr. cbn [result_bind rc_request_binding_digest].
    by rewrite (proj2 (negb_decide_false _) eq_refl).
Qed.

(** C10. What a verified proof is.  [verify_proof] returns exactly the submitted
    proof, and only if the back end supports its flavor, all nine identities agree
    with the expectation, the proof bytes have the recorded digest, and the back
    end accepted the request for exactly these values with a receipt that binds it. *)
Theorem verify_proof_exact backend job vp :
  (∃ e p b, verification_job_new e p b = Ok job) →
  verify_proof backend job = Ok vp ↔
    vp = mkVerifiedProof (vj_proof job) ∧ is_ok (capabilities_validate (pb_capabilities backend)) = true ∧
    ex_proof_flavor (vj_expectation job) ∈ bc_proof_flavors (pb_capabilities backend) ∧
    as_expected (vj_expectation job) (vj_proof job) ∧ up_artifact_manifest (vj_proof job) ≠ [] ∧
    digest (vj_proof_bytes job) = up_proof_digest (vj_proof job) ∧ receipt_binds backend (request_of job).
Proof.
  intros (e & p & b & Hj). rewrite verify_proof_Ok. unfold verification_job_new in Hj.
  apply result_bind_Ok in Hj as (_ & Hb%valid_bytes_Ok & Hj). destruct (bool_decide (b = [])) eqn:Eb; [done|].
  apply bool_decide_eq_false in Eb. injection Hj as <-. simpl. naive_solver.
Qed.

(** C11. A verified proof is of the job.  If the expectation was made from a proof
    job, a statement and a manifest, and the proof by its constructor or by
    deserialization, the verified proof carries this statement and this manifest,
    or a BLAKE3 collision is exhibited; and it has the shard, circuit, key, flavor
    and run of the job. *)
Theorem verified_proof_of_job backend pjob eb statement proof_digest manifest e p b job vp :
  from_proof_job pjob eb statement proof_digest manifest = Ok e → proof_made p →
  verification_job_new e p b = Ok job → verify_proof backend job = Ok vp →
  let v := vp_proof vp in
  (up_public_statement v = statement ∨ (up_public_statement v ≠ statement ∧ blake3 (up_public_statement v) = blake3 statement)) ∧
  (up_artifact_manifest v = manifest ∨ (up_artifact_manifest v ≠ manifest ∧ blake3 (up_artifact_manifest v) = blake3 manifest)) ∧
  up_shard v = fj_shard pjob ∧ up_circuit_digest v = si_circuit_digest (fj_shard pjob) ∧
  up_verification_key_digest v = ki_key_digest (pk_verification_key (fj_prepared_keys pjob)) ∧
  up_proof_flavor v = ri_proof_flavor (fj_run_identity pjob) ∧ up_execution_backend v = eb ∧
  up_run_identity_digest v = canonical_digest blake3 (fj_run_identity pjob) ∧
  up_proof_digest v = proof_digest ∧ blake3 b = proof_digest.
Proof.
  intros He (Hs & Hm & _) Hj Hv. unfold from_proof_job in He.
  apply result_bind_Ok in He as (_ & _ & (_ & _ & He)%result_bind_Ok). destruct (bool_decide (manifest = [])); [done|]. injection He as <-.
  unfold verification_job_new in Hj. apply result_bind_Ok in Hj as (_ & _ & Hj). destruct (bool_decide (b = [])); [done|]. injection Hj as <-.
  apply verify_proof_Ok in Hv as (-> & _ & _ & (E1 & E2 & E3 & E4 & E5 & E6 & E7 & E8 & E9) & _ & _ & _ & Hd & _).
  simpl in *. unfold digest in *. split_and!; try congruence.
  - destruct (decide (up_public_statement p = statement)); [by left|right]. split; [done|congruence].
  - destruct (decide (up_artifact_manifest p = manifest)); [by left|right]. split; [done|congruence].
Qed.

(** A receipt binds its request.  Two requests with one binding digest have the
    same proof (up to the path of its file), statement, manifest, key and witness
    digest, unless their preimages collide: a receipt cannot be replayed. *)
Theorem receipt_binds_request r r' :
  request_ok r → request_ok r' → request_binding_digest r = request_binding_digest r' →
  (∃ path, r' = request_with_path path r) ∨
  (request_preimage r ≠ request_preimage r' ∧ blake3 (request_preimage r) = blake3 (request_preimage r')).
Proof.
  intros Hr Hr' E. destruct (decide (request_preimage r = request_preimage r')) as [Hp|Hne]; [left; by apply request_preimage_inj|by right].
Qed.
End Proofs.

(** ** A concrete job *)

Section Instance.
#[local] Existing Instance toy_blake3.

Definition toy_digest (n : Z) : Digest32 := replicate 32 (byte_of_Z n).
Definition toy_run : RunIdentity :=
  mkRunIdentity (toy_digest 1) (toy_digest 2) (toy_digest 3) (toy_digest 4) (toy_digest 5) (toy_digest 6) (toy_digest 7)
    "halo2-kzg-bn256-shplonk-v1" PublicModel 2 1.
Definition toy_shard : ShardIdentity := mkShardIdentity 3 "shard-3" (toy_digest 8).
Definition toy_pjob : ProofJob := mkProofJob toy_run toy_shard (mkWitnessArtifact "w.json" (toy_digest 9) toy_shard (toy_digest 8))
  (mkPreparedKeys (mkKeyIdentity "halo2-kzg-bn256-shplonk-v1" (toy_digest 8) (toy_digest 10))
    (mkKeyIdentity "halo2-kzg-bn256-shplonk-v1" (toy_digest 8) (toy_digest 11))).
Definition toy_statement : bytes := as_bytes "statement".
Definition toy_manifest : bytes := as_bytes "manifest".
Definition toy_proof_bytes : bytes := as_bytes "proof".
Definition toy_expectation : VerificationExpectation :=
  mkVerificationExpectation (blake3 toy_proof_bytes) (blake3 toy_manifest) (canonical_digest blake3 toy_run) (blake3 toy_statement)
    (toy_digest 8) (toy_digest 11) "halo2-kzg-bn256-shplonk-v1" "halo2-cpu-v1" toy_shard (toy_digest 9).
Definition toy_proof : UnverifiedProof :=
  mkUnverifiedProof "p.bin" (blake3 toy_proof_bytes) toy_statement (blake3 toy_statement) (toy_digest 8) (toy_digest 11)
    "halo2-kzg-bn256-shplonk-v1" "halo2-cpu-v1" toy_shard toy_manifest (blake3 toy_manifest) (canonical_digest blake3 toy_run).
Definition toy_vjob : VerificationJob := mkVerificationJob toy_expectation toy_proof toy_proof_bytes.
Definition toy_backend : ProofBackend :=
  mkProofBackend (mkBackendCapabilities "halo2-cpu-v1" ["halo2-kzg-bn256-shplonk-v1"] ["prove-v1"])
    (λ r, Ok (mkReceipt (request_binding_digest r))).

Lemma toy_proof_made : proof_made toy_proof.
Proof. by split_and!. Qed.

Example verify_proof_exact_witness : verify_proof toy_backend toy_vjob = Ok (mkVerifiedProof toy_proof).
Proof.
  apply (verify_proof_exact toy_backend toy_vjob (mkVerifiedProof toy_proof)).
  - exists toy_expectation, toy_proof, toy_proof_bytes. vm_compute. exact eq_refl.
  - unfold as_expected. split_and!; try exact eq_refl; [apply list_elem_of_here|discriminate].
Defined.

Example verified_proof_of_job_witness :
  (toy_statement = toy_statement ∨ (toy_statement ≠ toy_statement ∧ blake3 toy_statement = blake3 toy_statement)) ∧
  up_shard toy_proof = toy_shard ∧ up_run_identity_digest toy_proof = canonical_digest blake3 toy_run.
Proof.
  destruct (verified_proof_of_job toy_backend toy_pjob "halo2-cpu-v1" toy_statement (blake3 toy_proof_bytes) toy_manifest
    toy_expectation toy_proof toy_proof_bytes toy_vjob (mkVerifiedProof toy_proof)) as (H1 & _ & H2 & _ & _ & _ & _ & H3 & _).
  - vm_compute. exact eq_refl.
  - exact toy_proof_made.
  - vm_compute. exact eq_refl.
  - vm_compute. exact eq_refl.
  - exact (conj H1 (conj H2 H3)).
Defined.

Lemma toy_request_ok : request_ok (request_of toy_vjob).
Proof. split; try (vm_compute; by split); repeat constructor. Qed.

Example receipt_binds_request_witness :
  (∃ path, request_of toy_vjob = request_with_path path (request_of toy_vjob)) ∨
  (request_preimage (request_of toy_vjob) ≠ request_preimage (request_of toy_vjob) ∧
   blake3 (request_preimage (request_of toy_vjob)) = blake3 (request_preimage (request_of toy_vjob))).
Proof. exact (receipt_binds_request (request_of toy_vjob) (request_of toy_vjob) toy_request_ok toy_request_ok eq_refl). Defined.
End Instance.
