(* ===== verification/Statement.v ===== *)
(** * Leaf statements

    crates/zkie-prover/src/statement.rs: what a leaf proof claims, its byte encoding
    with the strict decoder, and the public instance a verifier derives from it.  A
    [usize] is 64 bits; a decoder holds the bytes from its offset on. *)
From S2P Require Import Prelude Primality Field FixedPoint Bytes State Identity PoseidonBoundary PoseidonProofs Decode.

Open Scope Z_scope.

#[local] Existing Instance PoseidonBoundary.BoundaryRole_eq_dec.

Module Statement.
Notation BoundaryDescriptor := PoseidonBoundary.BoundaryDescriptor.
Notation BoundaryRole := PoseidonBoundary.BoundaryRole.

Definition MAGIC : bytes := PoseidonBoundary.zero_terminated "zkie.leaf-statement.v1".
Definition LEAF_STATEMENT_SCHEMA_VERSION : Z := 2.
Definition MAX_STATEMENT_BYTES : Z := Z.shiftl 1 20.
Definition MAX_CLAIMS : Z := Z.shiftl 1 12.
Definition MAX_TEXT_BYTES : Z := Z.shiftl 1 12.

Record BoundaryClaim := mkBoundaryClaim { descriptor : BoundaryDescriptor; commitment : Fr }.

Record LeafStatement := mkLeafStatement {
  shard_id : Z;
  shard_name : string;
  circuit_digest : Digest32;
  partition_digest : Digest32;
  model_digest : Digest32;
  weights_digest : Digest32;
  proof_flavor : ProofFlavorId;
  verification_key_digest : Digest32;
  input_claims : list BoundaryClaim;
  output_claims : list BoundaryClaim;
  public_weights : list I18
}.

Inductive LeafStatementError :=
| EmptyOrOversizedText
| TooManyClaims
| WrongBoundaryRole
| Oversized
| Malformed
| UnsupportedVersion
| InvalidField
| InvalidDescriptor (error : PoseidonBoundary.BoundaryCommitmentError).

Definition claim_new (descriptor : BoundaryDescriptor) (commitment : Fr) : Result BoundaryClaim LeafStatementError :=
  let? _ := map_err InvalidDescriptor (PoseidonBoundary.validate descriptor) in
  Ok (mkBoundaryClaim descriptor commitment).

Definition has_role (role : BoundaryRole) (claim : BoundaryClaim) : bool :=
  bool_decide (PoseidonBoundary.role (descriptor claim) = role).

Definition new (shard_id : Z) (shard_name : string) (circuit_digest partition_digest model_digest weights_digest : Digest32)
    (proof_flavor : ProofFlavorId) (verification_key_digest : Digest32) (input_claims output_claims : list BoundaryClaim)
    (public_weights : list I18) : Result LeafStatement LeafStatementError :=
  if String.eqb shard_name "" || (MAX_TEXT_BYTES <? Z.of_nat (String.length shard_name)) then Err EmptyOrOversizedText else
  let? claims := ok_or (try_u64 (Z.of_nat (length input_claims) + Z.of_nat (length output_claims))) TooManyClaims in
  if MAX_CLAIMS <? claims then Err TooManyClaims else
  if existsb (λ claim, negb (has_role PoseidonBoundary.Input claim)) input_claims
     || existsb (λ claim, negb (has_role PoseidonBoundary.Output claim)) output_claims
  then Err WrongBoundaryRole else
  if MAX_CLAIMS * 256 <? Z.of_nat (length public_weights) then Err Oversized else
  Ok (mkLeafStatement shard_id shard_name circuit_digest partition_digest model_digest weights_digest proof_flavor
    verification_key_digest input_claims output_claims public_weights).

(** ** Setters *)

Section Setters.
Context (self : LeafStatement).

Definition with_partition_digest (digest : Digest32) : LeafStatement :=
  mkLeafStatement (shard_id self) (shard_name self) (circuit_digest self) digest (model_digest self) (weights_digest self)
    (proof_flavor self) (verification_key_digest self) (input_claims self) (output_claims self) (public_weights self).
Definition with_model_digest (digest : Digest32) : LeafStatement :=
  mkLeafStatement (shard_id self) (shard_name self) (circuit_digest self) (partition_digest self) digest (weights_digest self)
    (proof_flavor self) (verification_key_digest self) (input_claims self) (output_claims self) (public_weights self).
Definition with_weights_digest (digest : Digest32) : LeafStatement :=
  mkLeafStatement (shard_id self) (shard_name self) (circuit_digest self) (partition_digest self) (model_digest self) digest
    (proof_flavor self) (verification_key_digest self) (input_claims self) (output_claims self) (public_weights self).
Definition with_proof_flavor (flavor : ProofFlavorId) : LeafStatement :=
  mkLeafStatement (shard_id self) (shard_name self) (circuit_digest self) (partition_digest self) (model_digest self)
    (weights_digest self) flavor (verification_key_digest self) (input_claims self) (output_claims self) (public_weights self).
Definition with_verification_key_digest (digest : Digest32) : LeafStatement :=
  mkLeafStatement (shard_id self) (shard_name self) (circuit_digest self) (partition_digest self) (model_digest self)
    (weights_digest self) (proof_flavor self) digest (input_claims self) (output_claims self) (public_weights self).

(** [*v.get_mut(index).ok_or(Malformed)? = value]. *)
Definition set_at {A} (l : list A) (index : nat) (value : A) : Result (list A) LeafStatementError :=
  match l !! index with Some _ => Ok (<[index := value]> l) | None => Err Malformed end.

Definition with_public_weight (index : nat) (value : I18) : Result LeafStatement LeafStatementError :=
  let? weights := set_at (public_weights self) index value in
  Ok (mkLeafStatement (shard_id self) (shard_name self) (circuit_digest self) (partition_digest self) (model_digest self)
    (weights_digest self) (proof_flavor self) (verification_key_digest self) (input_claims self) (output_claims self) weights).
Definition with_input_claim (index : nat) (claim : BoundaryClaim) : Result LeafStatement LeafStatementError :=
  if negb (has_role PoseidonBoundary.Input claim) then Err WrongBoundaryRole else
  let? claims := set_at (input_claims self) index claim in
  Ok (mkLeafStatement (shard_id self) (shard_name self) (circuit_digest self) (partition_digest self) (model_digest self)
    (weights_digest self) (proof_flavor self) (verification_key_digest self) claims (output_claims self) (public_weights self)).
Definition with_output_claim (index : nat) (claim : BoundaryClaim) : Result LeafStatement LeafStatementError :=
  if negb (has_role PoseidonBoundary.Output claim) then Err WrongBoundaryRole else
  let? claims := set_at (output_claims self) index claim in
  Ok (mkLeafStatement (shard_id self) (shard_name self) (circuit_digest self) (partition_digest self) (model_digest self)
    (weights_digest self) (proof_flavor self) (verification_key_digest self) (input_claims self) claims (public_weights self)).
End Setters.

(** ** The public instance *)

Section Instances.
Context `{Blake3}.

Definition limb : bytes → Fr := PoseidonBoundary.limb_to_fr.
Definition digest_limbs (digest : Digest32) : list Fr := [limb (take 16 digest); limb (drop 16 digest)].
Definition string_limbs (domain value : string) : list Fr :=
  digest_limbs (blake3 (PoseidonBoundary.zero_terminated "zkie.leaf-string.v1" ++ encode_text domain ++ encode_text value)).

Definition instance_prefix (self : LeafStatement) : list Fr :=
  [fr LEAF_STATEMENT_SCHEMA_VERSION; fr (shard_id self)] ++
  string_limbs "shard" (shard_name self) ++
  mjoin (digest_limbs <$> [circuit_digest self; partition_digest self; model_digest self; weights_digest self]) ++
  string_limbs "proof-flavor" (proof_flavor self) ++
  digest_limbs (verification_key_digest self) ++
  [fr (Z.of_nat (length (input_claims self)))].

Definition claim_fields (claim : BoundaryClaim) : list Fr :=
  PoseidonBoundary.public_binding_fields (descriptor claim) ++ [commitment claim].

Definition instances (self : LeafStatement) : list Fr :=
  instance_prefix self ++
  mjoin (claim_fields <$> input_claims self) ++
  [fr (Z.of_nat (length (output_claims self)))] ++
  mjoin (claim_fields <$> output_claims self) ++
  [fr (Z.of_nat (length (public_weights self)))] ++
  ((λ value, i64_to_fr (raw value)) <$> public_weights self).
End Instances.

(** ** Encoding *)

Notation Put := (Result bytes LeafStatementError).

Definition put_string (value : string) : Put :=
  if String.eqb value "" || (MAX_TEXT_BYTES <? Z.of_nat (String.length value)) then Err EmptyOrOversizedText else
  Ok (encode_u32 (Z.of_nat (String.length value)) ++ as_bytes value).
(** A loop that appends. *)
Definition put_each {A} (put : A → Put) (l : list A) : Put := let? bs := result_mapM put l in Ok (mjoin bs).
Definition put_strings (values : list string) : Put :=
  let? out := put_each put_string values in
  Ok (encode_u32 (Z.of_nat (length values)) ++ out).
(** [Fr::to_repr]: 32 little-endian bytes. *)
Definition to_repr (x : Fr) : bytes := to_le_bytes 32 (Zmod.to_Z x).
Definition put_claim (claim : BoundaryClaim) : Put :=
  let d := descriptor claim in
  let? register := put_string (PoseidonBoundary.register_id d) in
  let? edges := put_strings (PoseidonBoundary.edge_ids d) in
  let? outputs := put_strings (PoseidonBoundary.graph_output_names d) in
  Ok ([byte_of_Z (PoseidonBoundary.role_byte (PoseidonBoundary.role d))] ++ register ++ edges ++ outputs ++
      encode_u64 (Z.of_nat (PoseidonBoundary.element_count d)) ++ encode_u64 (PoseidonBoundary.quantization_scale d) ++
      to_repr (commitment claim)).
Definition put_claims (claims : list BoundaryClaim) : Put :=
  let? out := put_each put_claim claims in
  Ok (encode_u32 (Z.of_nat (length claims)) ++ out).

(** [len.checked_add(..)], term after term. *)
Definition checked_len (len : Z) (terms : list Z) : Result Z LeafStatementError :=
  result_fold (λ len term, ok_or (try_u64 (len + term)) Oversized) len terms.
Definition claim_terms (claim : BoundaryClaim) : list Z :=
  let d := descriptor claim in
  (1 + 4 + Z.of_nat (String.length (PoseidonBoundary.register_id d)) + 4 + 4 + 8 + 8 + 32) ::
  ((λ value, 4 + Z.of_nat (String.length value)) <$> PoseidonBoundary.edge_ids d ++ PoseidonBoundary.graph_output_names d).
Definition encoded_len (self : LeafStatement) : Result Z LeafStatementError :=
  let len := Z.of_nat (length MAGIC) + 4 + 8 + 4 + Z.of_nat (String.length (shard_name self)) + 4 * 32 + 4
    + Z.of_nat (String.length (proof_flavor self)) + 32 + 4 + 4 + 4 in
  let? len := checked_len len (mjoin (claim_terms <$> input_claims self ++ output_claims self)) in
  let? weights := ok_or (try_u64 (Z.of_nat (length (public_weights self)) * 8)) Oversized in
  ok_or (try_u64 (len + weights)) Oversized.

Definition encode (self : LeafStatement) : Put :=
  let? len := encoded_len self in
  if MAX_STATEMENT_BYTES <? len then Err Oversized else
  let? name := put_string (shard_name self) in
  let? flavor := put_string (proof_flavor self) in
  let? inputs := put_claims (input_claims self) in
  let? outputs := put_claims (output_claims self) in
  let out := MAGIC ++ encode_u32 LEAF_STATEMENT_SCHEMA_VERSION ++ encode_u64 (shard_id self) ++ name ++
    mjoin [circuit_digest self; partition_digest self; model_digest self; weights_digest self] ++
    flavor ++ verification_key_digest self ++ inputs ++ outputs ++
    encode_u32 (Z.of_nat (length (public_weights self))) ++
    mjoin ((λ value, encode_i64 (raw value)) <$> public_weights self) in
  if MAX_STATEMENT_BYTES <? Z.of_nat (length out) then Err Oversized else Ok out.

(** ** Decoding *)

Notation Get := (Decode.Get LeafStatementError).
Definition get_take : nat → Get bytes := take_bytes Malformed.
Definition get_u32 : Get Z := take_u32 Malformed.
Definition get_u64 : Get Z := take_u64 Malformed.
(** [i64::from_le_bytes]. *)
Definition get_i64 : Get Z := take_i64 Malformed.
Definition get_string : Get string :=
  let% len := get_u32 in
  if (len =? 0) || (MAX_TEXT_BYTES <? len) then get_err EmptyOrOversizedText else
  let% b := get_take (Z.to_nat len) in
  if valid_utf8 b then get_ret (String.string_of_list_ascii b) else get_err Malformed.
Definition get_digest : Get Digest32 := get_take 32.
Definition get_strings : Get (list string) :=
  let% count := get_u32 in
  if MAX_CLAIMS <? count then get_err TooManyClaims else get_many (Z.to_nat count) get_string.
(** [Fr::from_repr]. *)
Definition from_repr (b : bytes) : option Fr :=
  let v := PoseidonBoundary.from_le_bytes b in if v <? bn254_order then Some (fr v) else None.
Definition get_commitment : Get Fr := let% repr := get_take 32 in get_lift (ok_or (from_repr repr) InvalidField).
Definition get_role : Get BoundaryRole :=
  let% tag := get_take 1 in
  match Z_of_byte <$> tag with
  | [1] => get_ret PoseidonBoundary.Input
  | [2] => get_ret PoseidonBoundary.Output
  | _ => get_err Malformed
  end.
Definition get_claim (expected_role : BoundaryRole) : Get BoundaryClaim :=
  let% role := get_role in
  if negb (bool_decide (role = expected_role)) then get_err WrongBoundaryRole else
  let% register := get_string in
  let% edges := get_strings in
  let% outputs := get_strings in
  let% count := get_u64 in
  let% scale := get_u64 in
  let% descriptor := get_lift (map_err InvalidDescriptor
    (PoseidonBoundary.flat_i18 role register edges outputs (Z.to_nat count) scale)) in
  let% commitment := get_commitment in
  get_lift (claim_new descriptor commitment).
Definition get_claims (expected_role : BoundaryRole) : Get (list BoundaryClaim) :=
  let% count := get_u32 in
  if MAX_CLAIMS <? count then get_err TooManyClaims else get_many (Z.to_nat count) (get_claim expected_role).

Definition decode (b : bytes) : Result LeafStatement LeafStatementError :=
  if (MAX_STATEMENT_BYTES <? Z.of_nat (length b)) || negb (bool_decide (MAGIC `prefix_of` b)) then Err Malformed else
  let read :=
    let% version := get_u32 in
    if negb (version =? LEAF_STATEMENT_SCHEMA_VERSION) then get_err UnsupportedVersion else
    let% shard_id := get_u64 in
    let% shard_name := get_string in
    let% circuit_digest := get_digest in
    let% partition_digest := get_digest in
    let% model_digest := get_digest in
    let% weights_digest := get_digest in
    let% flavor := get_string in
    let% proof_flavor := get_lift (map_err (λ _, Malformed) (ascii_identifier_parse flavor)) in
    let% verification_key_digest := get_digest in
    let% input_claims := get_claims PoseidonBoundary.Input in
    let% output_claims := get_claims PoseidonBoundary.Output in
    let% weight_count := get_u32 in
    if MAX_CLAIMS * 256 <? weight_count then get_err Oversized else
    let% public_weights := get_many (Z.to_nat weight_count) (let% raw := get_i64 in get_ret (from_raw raw)) in
    λ rest,
      if negb (bool_decide (rest = [])) then Err Malformed else
      let? self := new shard_id shard_name circuit_digest partition_digest model_digest weights_digest proof_flavor
        verification_key_digest input_claims output_claims public_weights in
      Ok (self, rest) in
  let? '(self, _) := read (drop (length MAGIC) b) in
  Ok self.

End Statement.

(** ** Leaf statements read back what was written

    A field of the encoding is a codec: what is put is got back, and what is got
    could only have been put.  The encoding of a statement is then canonical. *)
Import Statement.

Open Scope Z_scope.

(** ** Fields *)

Lemma get_take_Ok n s b r : get_take n s = Ok (b, r) ↔ length b = n ∧ s = b ++ r.
Proof. apply take_bytes_Ok. Qed.

#[local] Notation Codec := (Codec (E := LeafStatementError) (F := LeafStatementError)).

#[export] Instance u32_codec : Codec in_u32 (λ z, Ok (encode_u32 z)) get_u32 := take_u32_codec Malformed.
#[export] Instance u64_codec : Codec in_u64 (λ z, Ok (encode_u64 z)) get_u64 := take_u64_codec Malformed.
#[export] Instance i64_codec : Codec in_i64 (λ z, Ok (encode_i64 z)) get_i64 := take_i64_codec Malformed.
#[export] Instance digest_codec : Codec digest_ok Ok get_digest := take_digest_codec Malformed.

(** The element itself, of a field element. *)
#[export] Instance repr_codec :
  Codec (λ _, True) (λ x, Ok (to_repr x)) get_commitment.
Proof.
  pose proof (eq_refl : (bn254_order <? 256 ^ 32) = true) as Hp%Z.ltb_lt. split.
  - intros x b r _ [= <-]. apply get_bind_Ok. exists (to_repr x), r. rewrite get_take_Ok, get_lift_Ok, ok_or_Ok.
    unfold to_repr, from_repr. rewrite length_to_le_bytes, from_to_le_bytes.
    pose proof (Zmod.to_Z_pos_bound x ltac:(pose proof bn254_order_large; lia)) as Hx.
    rewrite Z.mod_small by (change (Z.of_nat 32) with 32; lia). destruct (Z.ltb_spec (Zmod.to_Z x) bn254_order); [|lia].
    split_and!; try done. f_equal. unfold fr. apply Zmod.of_Z_to_Z.
  - intros s x r (b & s' & [Hl ->]%get_take_Ok & [Hx%ok_or_Ok <-]%get_lift_Ok)%get_bind_Ok. split; [done|]. eexists. split; [done|]. f_equal.
    unfold from_repr in Hx. destruct (Z.ltb_spec (PoseidonBoundary.from_le_bytes b) bn254_order) as [Hb|]; [|done]. injection Hx as <-.
    unfold to_repr, fr. rewrite Zmod.to_Z_of_Z_small by (pose proof (from_le_bytes_bound b); lia). by rewrite <-Hl, to_from_le_bytes.
Qed.

(** ** Strings and lists *)

Definition utf8 (s : string) : Prop := valid_utf8 (as_bytes s) = true.

#[export] Instance string_codec : Codec utf8 put_string get_string.
Proof.
  split.
  - intros s b r Hu Hp. unfold put_string in Hp. destruct (_ || _) eqn:E; [done|]. apply Ok_inj in Hp as <-.
    apply orb_false_iff in E as [E0%String.eqb_neq E1%Z.ltb_ge]. change MAX_TEXT_BYTES with 4096 in *.
    apply get_bind_Ok. exists (Z.of_nat (String.length s)), (as_bytes s ++ r). split; [rewrite <-app_assoc; apply (codec_put (put := λ z, Ok (encode_u32 z))); [zlia|done]|].
    destruct (Z.eqb_spec (Z.of_nat (String.length s)) 0) as [El|]; [destruct s; [done|simpl in El; lia]|].
    change MAX_TEXT_BYTES with 4096. destruct (Z.ltb_spec 4096 (Z.of_nat (String.length s))); [lia|]. cbn [orb].
    apply get_bind_Ok. exists (as_bytes s), r. rewrite get_take_Ok, Nat2Z.id, length_as_bytes. split; [done|]. rewrite Hu.
    apply get_ret_Ok. split; [|done]. unfold as_bytes. apply String.string_of_list_ascii_of_string.
  - intros t s r (len & t' & Hlen%(codec_get (put := λ z, Ok (encode_u32 z))) & Hs)%get_bind_Ok. destruct Hlen as [Hz (b & <-%Ok_inj & ->)].
    destruct (_ || _) eqn:E; [done|]. apply orb_false_iff in E as [E0%Z.eqb_neq E1%Z.ltb_ge].
    apply get_bind_Ok in Hs as (b & r' & [Hl ->]%get_take_Ok & Hs). destruct (valid_utf8 b) eqn:Hu; [|done].
    apply get_ret_Ok in Hs as [<- <-]. assert (as_bytes (String.string_of_list_ascii b) = b) as Eb by apply String.list_ascii_of_string_of_list_ascii.
    assert (String.length (String.string_of_list_ascii b) = length b) as El by by rewrite <-length_as_bytes, Eb.
    split; [by unfold utf8; rewrite Eb|]. unfold put_string. rewrite El, Eb, Hl, Z2Nat.id by zlia.
    destruct (String.eqb_spec (String.string_of_list_ascii b) "") as [E|]; [rewrite E in El; simpl in El; zlia|].
    destruct (Z.ltb_spec MAX_TEXT_BYTES len); [lia|]. eexists. split; [done|]. by rewrite <-app_assoc.
Qed.

(** As many values as were written. *)
Lemma get_many_put {A} (P : A → Prop) put get `{!Codec P put get} l b r :
  Forall P l → put_each put l = Ok b → get_many (length l) get (b ++ r) = Ok (l, r).
Proof.
  unfold put_each. intros Hl (bs & Hm%result_mapM_Ok & [= <-])%result_bind_Ok. revert Hl.
  induction Hm as [|x b l bs Hx Hm IH]; intros Hl; [by apply get_ret_Ok|]. apply Forall_cons_1 in Hl as [HPx Hl].
  cbn [length get_many mjoin list_join]. rewrite <-app_assoc. apply get_bind_Ok. exists x, (mjoin bs ++ r). split; [by apply (codec_put (P := P))|].
  apply get_bind_Ok. exists l, r. split; [by apply IH|]. by apply get_ret_Ok.
Qed.
Lemma get_many_get {A} (P : A → Prop) put get `{!Codec P put get} n s l r :
  get_many n get s = Ok (l, r) → length l = n ∧ Forall P l ∧ ∃ b, put_each put l = Ok b ∧ s = b ++ r.
Proof.
  unfold put_each. revert s l r. induction n as [|n IH]; intros s l r; cbn [get_many].
  - intros [<- <-]%get_ret_Ok. split_and!; [done..|]. by exists [].
  - intros (x & s1 & Hx & (xs & s2 & Hxs & [<- <-]%get_ret_Ok)%get_bind_Ok)%get_bind_Ok.
    apply (codec_get (P := P)) in Hx as [HPx (b & Hb & ->)]. apply IH in Hxs as (<- & HPl & b' & Hb' & ->).
    apply result_bind_Ok in Hb' as (bs & Hbs & [= <-]). split_and!; [done|by constructor|]. exists (b ++ mjoin bs).
    split; [|by rewrite app_assoc]. cbn [result_mapM]. rewrite Hb. cbn [result_bind]. rewrite Hbs. done.
Qed.
(** A list behind its length. *)
Lemma counted_codec {A} (P : A → Prop) put get `{!Codec P put get} limit e :
  limit ≤ u32_max →
  Codec (λ l : list A, Z.of_nat (length l) ≤ limit ∧ Forall P l)
    (λ l, let? out := put_each put l in Ok (encode_u32 (Z.of_nat (length l)) ++ out))
    (get_bind get_u32 (λ count, if limit <? count then get_err e else get_many (Z.to_nat count) get)).
Proof.
  intros Hlim. split.
  - intros l b r [Hl HP] (out & Hout & <-%Ok_inj)%result_bind_Ok. rewrite <-app_assoc. apply get_bind_Ok.
    exists (Z.of_nat (length l)), (out ++ r). split; [apply (codec_put (put := λ z, Ok (encode_u32 z))); [zlia|done]|].
    destruct (Z.ltb_spec limit (Z.of_nat (length l))); [lia|]. rewrite Nat2Z.id. by apply (get_many_put P put).
  - intros s l r (count & s' & Hc%(codec_get (put := λ z, Ok (encode_u32 z))) & Hs)%get_bind_Ok. destruct Hc as [Hz (b & <-%Ok_inj & ->)].
    destruct (Z.ltb_spec limit count); [done|]. destruct (get_many_get P put get _ _ _ _ Hs) as (Hl & HP & b & Hb & ->).
    split; [split; [rewrite Hl|done]; zlia|]. eexists. rewrite Hb. cbn [result_bind]. split; [done|]. rewrite <-app_assoc, Hl, Z2Nat.id by zlia. done.
Qed.
#[export] Instance strings_codec : Codec (λ l, Z.of_nat (length l) ≤ MAX_CLAIMS ∧ Forall utf8 l) put_strings get_strings.
Proof. exact (counted_codec utf8 put_string get_string MAX_CLAIMS TooManyClaims ltac:(done)). Qed.

(** ** Claims *)

Definition claim_ok (role : PoseidonBoundary.BoundaryRole) (c : BoundaryClaim) : Prop :=
  let d := descriptor c in
  descriptor_ok d ∧ PoseidonBoundary.role d = role ∧ utf8 (PoseidonBoundary.register_id d) ∧
  Forall utf8 (PoseidonBoundary.edge_ids d) ∧ Forall utf8 (PoseidonBoundary.graph_output_names d).

#[export] Instance role_codec : Codec (λ _, True) (λ role, Ok [byte_of_Z (PoseidonBoundary.role_byte role)]) get_role.
Proof.
  split.
  - intros role b r _ <-%Ok_inj. apply get_bind_Ok. exists [byte_of_Z (PoseidonBoundary.role_byte role)], r.
    rewrite get_take_Ok. by destruct role.
  - intros s role r (tag & s' & [Hl ->]%get_take_Ok & Hr)%get_bind_Ok. split; [done|]. eexists. split; [done|].
    destruct tag as [|x [|]]; [done| |done]. cbn [fmap list_fmap] in Hr. rewrite <-(byte_of_Z_of_byte x).
    destruct (Z_of_byte x) as [|[[]|[]|]|]; try done; apply get_ret_Ok in Hr as [<- ->]; done.
Qed.

Lemma flat_i18_Ok role id edges outs n scale d :
  PoseidonBoundary.flat_i18 role id edges outs n scale = Ok d ↔
  d = PoseidonBoundary.mkBoundaryDescriptor role id edges outs PoseidonBoundary.DTypeI18 (PoseidonBoundary.FlatElementCountOnly n) scale ∧
  PoseidonBoundary.validate d = Ok tt.
Proof.
  unfold PoseidonBoundary.flat_i18. rewrite result_bind_Ok. split.
  - intros ([] & Hv & <-%Ok_inj). done.
  - intros [-> Hv]. by exists tt.
Qed.
Lemma descriptor_eta (d : BoundaryDescriptor) : d = PoseidonBoundary.mkBoundaryDescriptor (PoseidonBoundary.role d)
  (PoseidonBoundary.register_id d) (PoseidonBoundary.edge_ids d) (PoseidonBoundary.graph_output_names d) PoseidonBoundary.DTypeI18
  (PoseidonBoundary.FlatElementCountOnly (PoseidonBoundary.element_count d)) (PoseidonBoundary.quantization_scale d).
Proof. by destruct d as [? ? ? ? [] [] ?]. Qed.
Lemma claim_new_Ok d c claim : claim_new d c = Ok claim ↔ claim = mkBoundaryClaim d c ∧ PoseidonBoundary.validate d = Ok tt.
Proof.
  unfold claim_new. rewrite result_bind_Ok. setoid_rewrite map_err_Ok. split; [intros ([] & ? & <-%Ok_inj); done|intros [-> ?]; by exists tt].
Qed.

Lemma valid_counts d : PoseidonBoundary.validate d = Ok tt →
  in_u64 (Z.of_nat (PoseidonBoundary.element_count d)) ∧
  Z.of_nat (length (PoseidonBoundary.edge_ids d)) ≤ MAX_CLAIMS ∧ Z.of_nat (length (PoseidonBoundary.graph_output_names d)) ≤ MAX_CLAIMS.
Proof.
  intros Hv. destruct (descriptor_validate_Ok _ Hv) as (_ & Hn & _). unfold PoseidonBoundary.MAX_BOUNDARY_ELEMENTS in Hn.
  change (Z.shiftl 1 13) with 8192 in Hn. split; [zlia|]. unfold PoseidonBoundary.validate in Hv. destruct (_ =? 0)%nat; [done|].
  destruct (_ <? _); [done|]. destruct (Z.ltb_spec PoseidonBoundary.MAX_BOUNDARY_IDENTITIES (saturating_add_u64
    (Z.of_nat (length (PoseidonBoundary.edge_ids d))) (Z.of_nat (length (PoseidonBoundary.graph_output_names d))))) as [|Hids]; [done|].
  unfold PoseidonBoundary.MAX_BOUNDARY_IDENTITIES, saturating_add_u64, MAX_CLAIMS in *. change (Z.shiftl 1 12) with 4096. zlia.
Qed.

Lemma claim_put role c b r : claim_ok role c → put_claim c = Ok b → get_claim role (b ++ r) = Ok (c, r).
Proof.
  intros ([Hv Hq] & Hr & Hid & He & Ho) Hp. destruct (valid_counts _ Hv) as (Hn & Hel & Hol).
  unfold put_claim in Hp. apply result_bind_Ok in Hp as (reg & Hreg & (edges & Hedges & (outs & Houts & <-%Ok_inj)%result_bind_Ok)%result_bind_Ok).
  unfold get_claim. rewrite <-!app_assoc. apply (get_step _ _ _ _ _ _ _ _ I eq_refl). rewrite Hr, bool_decide_eq_true_2 by done. cbn [negb].
  apply (get_step _ _ _ _ _ _ _ _ Hid Hreg), (get_step _ _ _ _ _ _ _ _ (conj Hel He) Hedges), (get_step _ _ _ _ _ _ _ _ (conj Hol Ho) Houts),
    (get_step _ _ _ _ _ _ _ _ Hn eq_refl), (get_step _ _ _ _ _ _ _ _ Hq eq_refl).
  rewrite Nat2Z.id. eapply get_bind_eq.
  { apply get_lift_Ok. split; [|done]. apply map_err_Ok, flat_i18_Ok. by rewrite <-Hr, <-descriptor_eta. }
  cbv beta. apply (get_step _ _ _ _ _ _ _ _ I eq_refl), get_lift_Ok. split; [|done]. apply claim_new_Ok. by destruct c.
Qed.

Lemma claim_get role s c r : get_claim role s = Ok (c, r) → claim_ok role c ∧ ∃ b, put_claim c = Ok b ∧ s = b ++ r.
Proof.
  unfold get_claim. intros H. apply (get_field _ _ _) in H as (role' & ? & s1 & _ & <-%Ok_inj & -> & H).
  destruct (negb _) eqn:Er; [done|]. apply negb_false_iff, bool_decide_eq_true in Er as ->.
  apply (get_field _ _ _) in H as (id & reg & s2 & Hid & Hreg & -> & H).
  apply (get_field _ _ _) in H as (edges & be & s3 & [Hel He] & Hbe & -> & H).
  apply (get_field _ _ _) in H as (outs & bo & s4 & [Hol Ho] & Hbo & -> & H).
  apply (get_field _ _ _) in H as (n & ? & s5 & Hn & <-%Ok_inj & -> & H).
  apply (get_field _ _ _) in H as (q & ? & s6 & Hq & <-%Ok_inj & -> & H).
  apply get_bind_Ok in H as (d & s7 & [[-> Hv]%map_err_Ok%flat_i18_Ok <-]%get_lift_Ok & H).
  apply (get_field _ _ _) in H as (x & ? & s8 & _ & <-%Ok_inj & -> & H).
  apply get_lift_Ok in H as [[-> _]%claim_new_Ok <-]. split; [by split_and!|].
  unfold put_claim. cbn [descriptor commitment PoseidonBoundary.role PoseidonBoundary.register_id PoseidonBoundary.edge_ids
    PoseidonBoundary.graph_output_names PoseidonBoundary.element_count PoseidonBoundary.shape PoseidonBoundary.quantization_scale].
  rewrite Hreg. cbn [result_bind]. rewrite Hbe. cbn [result_bind]. rewrite Hbo. cbn [result_bind].
  eexists. split; [reflexivity|]. rewrite <-!app_assoc, Z2Nat.id by zlia. done.
Qed.
#[export] Instance claim_codec role : Codec (claim_ok role) put_claim (get_claim role).
Proof. split; [apply claim_put|apply claim_get]. Qed.
#[export] Instance claims_codec role :
  Codec (λ l, Z.of_nat (length l) ≤ MAX_CLAIMS ∧ Forall (claim_ok role) l) put_claims (get_claims role).
Proof. exact (counted_codec (claim_ok role) put_claim (get_claim role) MAX_CLAIMS TooManyClaims ltac:(done)). Qed.

(** Weights, behind their count. *)
#[export] Instance weight_codec : Codec in_I18 (λ w, Ok (encode_i64 (raw w))) (get_bind get_i64 (λ raw, get_ret (from_raw raw))).
Proof.
  split.
  - intros w b r Hw Hb. apply (get_step in_i64 (λ z, Ok (encode_i64 z)) get_i64 _ (raw w) _ _ _ Hw Hb), get_ret_Ok. by destruct w.
  - intros s w r (z & b & s' & Hz & Hb & -> & [<- <-]%get_ret_Ok)%(get_field _ _ _). eauto.
Qed.

Lemma put_weights ws : put_each (λ w, Ok (encode_i64 (raw w))) ws = Ok (mjoin ((λ w, encode_i64 (raw w)) <$> ws)).
Proof.
  unfold put_each. assert (result_mapM (λ w, Ok (encode_i64 (raw w))) ws = Ok (E := LeafStatementError) ((λ w, encode_i64 (raw w)) <$> ws)) as ->; [|done].
  apply result_mapM_Ok, Forall2_fmap_r, Forall_Forall2_diag, Forall_forall. by intros.
Qed.

(** ** Lengths *)

Lemma encoded_terms_Ok len terms n :
  0 ≤ len → Forall (λ t, 0 ≤ t) terms →
  checked_len len terms = Ok n ↔ n = len + zsum terms ∧ (terms ≠ [] → len + zsum terms ≤ u64_max).
Proof.
  intros Hlen Hts. revert len Hlen. induction Hts as [|t terms Ht Hts IH]; intros len Hlen.
  - unfold checked_len. cbn [result_fold zsum foldr]. split; [intros <-%Ok_inj; split; [lia|done]|intros [-> _]; f_equal; lia].
  - unfold checked_len in *. cbn [result_fold]. rewrite zsum_cons.
    assert (0 ≤ zsum terms) as Hz by (clear -Hts; induction Hts; [done|rewrite zsum_cons; lia]).
    unfold try_u64. case_bool_decide as Hu; cbn [ok_or result_bind].
    + rewrite IH by lia. split; [intros [-> H]|intros [-> H]]; (split; [lia|]).
      * intros _. destruct terms; [unfold zsum; simpl; zlia|]. rewrite Z.add_assoc. by apply H.
      * intros _. rewrite <-Z.add_assoc. by apply H.
    + split; [done|]. intros [_ H]. specialize (H ltac:(done)). zlia.
Qed.

Lemma length_put_string s b : put_string s = Ok b → Z.of_nat (length b) = 4 + Z.of_nat (String.length s).
Proof.
  unfold put_string. destruct (_ || _); [done|]. intros <-%Ok_inj. rewrite length_app, length_as_bytes. unfold encode_u32. rewrite length_to_le_bytes. lia.
Qed.
Lemma length_put_each {A} (put : A → Result bytes LeafStatementError) (size : A → Z) l b :
  (∀ x b, put x = Ok b → Z.of_nat (length b) = size x) → put_each put l = Ok b → Z.of_nat (length b) = zsum (size <$> l).
Proof.
  unfold put_each. intros Hs (bs & Hm%result_mapM_Ok & <-%Ok_inj)%result_bind_Ok. induction Hm as [|x b l bs Hx Hm IH]; [done|].
  change (mjoin (b :: bs)) with (b ++ mjoin bs). rewrite fmap_cons, length_app, zsum_cons, Nat2Z.inj_add, IH. by rewrite (Hs x b Hx).
Qed.
Lemma length_put_strings l b : put_strings l = Ok b → Z.of_nat (length b) = 4 + zsum ((λ s, 4 + Z.of_nat (String.length s)) <$> l).
Proof.
  unfold put_strings. intros (out & Ho & <-%Ok_inj)%result_bind_Ok. rewrite length_app. unfold encode_u32. rewrite length_to_le_bytes.
  pose proof (length_put_each _ _ _ _ length_put_string Ho). lia.
Qed.
Lemma length_put_claim c b : put_claim c = Ok b → Z.of_nat (length b) = zsum (claim_terms c).
Proof.
  unfold put_claim, claim_terms. intros (reg & Hr%length_put_string & (es & He%length_put_strings & (os & Ho%length_put_strings & <-%Ok_inj)%result_bind_Ok)%result_bind_Ok)%result_bind_Ok.
  rewrite zsum_cons, fmap_app, zsum_app, !length_app. unfold encode_u64, to_repr. rewrite !length_to_le_bytes. cbn [length]. lia.
Qed.
Lemma length_put_claims l b : put_claims l = Ok b → Z.of_nat (length b) = 4 + zsum (mjoin (claim_terms <$> l)).
Proof.
  unfold put_claims. intros (out & Ho & <-%Ok_inj)%result_bind_Ok. rewrite length_app. unfold encode_u32. rewrite length_to_le_bytes.
  rewrite Nat2Z.inj_add, (length_put_each _ _ _ _ length_put_claim Ho). f_equal. clear. induction l as [|c l IH]; [done|].
  rewrite !fmap_cons. change (mjoin (claim_terms c :: (claim_terms <$> l))) with (claim_terms c ++ mjoin (claim_terms <$> l)).
  by rewrite zsum_cons, zsum_app, <-IH.
Qed.

(** ** Statements *)

(** A statement as [new] makes it, with fields of their types. *)
Record statement_ok (st : LeafStatement) : Prop := {
  so_new : new (shard_id st) (shard_name st) (circuit_digest st) (partition_digest st) (model_digest st) (weights_digest st)
    (proof_flavor st) (verification_key_digest st) (input_claims st) (output_claims st) (public_weights st) = Ok st;
  so_id : in_u64 (shard_id st);
  so_name : utf8 (shard_name st);
  so_flavor : ascii_identifier_parse (proof_flavor st) = Ok (proof_flavor st);
  so_digests : Forall digest_ok [circuit_digest st; partition_digest st; model_digest st; weights_digest st; verification_key_digest st];
  so_inputs : Forall (claim_ok PoseidonBoundary.Input) (input_claims st);
  so_outputs : Forall (claim_ok PoseidonBoundary.Output) (output_claims st);
  so_weights : Forall in_I18 (public_weights st)
}.

(** The bytes between the schema version and the end. *)
Definition layout (st : LeafStatement) (name flavor ins outs : bytes) : bytes :=
  encode_u64 (shard_id st) ++ name ++ circuit_digest st ++ partition_digest st ++ model_digest st ++ weights_digest st ++
  flavor ++ verification_key_digest st ++ ins ++ outs ++
  encode_u32 (Z.of_nat (length (public_weights st))) ++ mjoin ((λ value, encode_i64 (raw value)) <$> public_weights st).
Definition header : bytes := MAGIC ++ encode_u32 LEAF_STATEMENT_SCHEMA_VERSION.

Record puts (st : LeafStatement) (name flavor ins outs : bytes) : Prop := {
  pt_name : put_string (shard_name st) = Ok name;
  pt_flavor : put_string (proof_flavor st) = Ok flavor;
  pt_inputs : put_claims (input_claims st) = Ok ins;
  pt_outputs : put_claims (output_claims st) = Ok outs
}.

Lemma zsum_nonneg l : Forall (λ t, 0 ≤ t) l → 0 ≤ zsum l.
Proof. induction 1; [done|]. rewrite zsum_cons. lia. Qed.
Lemma claim_terms_nonneg cs : Forall (λ t, 0 ≤ t) (mjoin (claim_terms <$> cs)).
Proof.
  induction cs as [|c cs IH]; [by constructor|]. rewrite fmap_cons. change (mjoin (claim_terms c :: (claim_terms <$> cs))) with (claim_terms c ++ mjoin (claim_terms <$> cs)).
  apply Forall_app. split; [|done]. unfold claim_terms. constructor; [lia|]. apply Forall_fmap, Forall_forall. intros s _. simpl. lia.
Qed.
Lemma length_weights ws : Z.of_nat (length (mjoin ((λ w : I18, encode_i64 (raw w)) <$> ws))) = Z.of_nat (length ws) * 8.
Proof.
  induction ws as [|w ws IH]; [done|]. rewrite fmap_cons. change (mjoin (?x :: ?l)) with (x ++ mjoin l). rewrite length_app, Nat2Z.inj_add, IH.
  unfold encode_i64. rewrite length_to_le_bytes. cbn [length]. lia.
Qed.

Lemma encoded_len_layout st name flavor ins outs :
  statement_ok st → puts st name flavor ins outs →
  Z.of_nat (length (header ++ layout st name flavor ins outs)) ≤ MAX_STATEMENT_BYTES →
  encoded_len st = Ok (Z.of_nat (length (header ++ layout st name flavor ins outs))).
Proof.
  intros Hok [Hn Hf Hi Ho] Hmax. pose proof (so_digests _ Hok) as Hd. rewrite !Forall_cons in Hd. destruct Hd as (H1 & H2 & H3 & H4 & H5 & _).
  unfold digest_ok in *. apply length_put_string in Hn, Hf. apply length_put_claims in Hi, Ho.
  assert (Z.of_nat (length (header ++ layout st name flavor ins outs)) =
    Z.of_nat (length MAGIC) + 4 + 8 + 4 + Z.of_nat (String.length (shard_name st)) + 4 * 32 + 4
    + Z.of_nat (String.length (proof_flavor st)) + 32 + 4 + 4 + 4 +
    zsum (mjoin (claim_terms <$> input_claims st ++ output_claims st)) + Z.of_nat (length (public_weights st)) * 8) as Hl.
  { unfold header, layout. rewrite !length_app, !Nat2Z.inj_add, Hn, Hf, Hi, Ho, H1, H2, H3, H4, H5, length_weights.
    unfold encode_u32, encode_u64. rewrite !length_to_le_bytes, fmap_app.
    assert (∀ a b : list (list Z), mjoin (a ++ b) = mjoin a ++ mjoin b) as ->; [|rewrite zsum_app; lia].
    intros a b. induction a as [|x a IH]; [done|]. change (mjoin ((x :: a) ++ b)) with (x ++ mjoin (a ++ b)). rewrite IH. by rewrite (app_assoc x). }
  rewrite Hl in *. pose proof (zsum_nonneg _ (claim_terms_nonneg (input_claims st ++ output_claims st))) as Hz.
  change MAX_STATEMENT_BYTES with 1048576 in Hmax.
  unfold encoded_len. apply result_bind_Ok. eexists. split; [apply encoded_terms_Ok; [lia|apply claim_terms_nonneg|split; [done|intros _; zlia]]|].
  unfold try_u64. rewrite bool_decide_eq_true_2 by zlia. cbn [ok_or result_bind]. rewrite bool_decide_eq_true_2 by zlia. done.
Qed.

Lemma encode_Ok st b :
  statement_ok st →
  encode st = Ok b ↔ ∃ name flavor ins outs, puts st name flavor ins outs ∧ b = header ++ layout st name flavor ins outs ∧
    Z.of_nat (length b) ≤ MAX_STATEMENT_BYTES.
Proof.
  intros Hok. assert (∀ name flavor ins outs, MAGIC ++ encode_u32 LEAF_STATEMENT_SCHEMA_VERSION ++ encode_u64 (shard_id st) ++ name ++
    mjoin [circuit_digest st; partition_digest st; model_digest st; weights_digest st] ++ flavor ++ verification_key_digest st ++ ins ++ outs ++
    encode_u32 (Z.of_nat (length (public_weights st))) ++ mjoin ((λ value, encode_i64 (raw value)) <$> public_weights st) =
    header ++ layout st name flavor ins outs) as Hlay.
  { intros. unfold header, layout. cbn [mjoin list_join]. by rewrite <-!app_assoc. }
  unfold encode. split.
  - intros (len & _ & H)%result_bind_Ok. destruct (_ <? len); [done|].
    apply result_bind_Ok in H as (name & Hn & (flavor & Hf & (ins & Hi & (outs & Ho & H)%result_bind_Ok)%result_bind_Ok)%result_bind_Ok).
    rewrite Hlay in H. destruct (Z.ltb_spec MAX_STATEMENT_BYTES (Z.of_nat (length (header ++ layout st name flavor ins outs)))); [done|].
    apply Ok_inj in H as <-. by exists name, flavor, ins, outs.
  - intros (name & flavor & ins & outs & Hp & -> & Hmax). rewrite (encoded_len_layout _ _ _ _ _ Hok Hp Hmax). destruct Hp as [Hn Hf Hi Ho].
    cbn [result_bind]. destruct (Z.ltb_spec MAX_STATEMENT_BYTES (Z.of_nat (length (header ++ layout st name flavor ins outs)))); [lia|].
    rewrite Hn. cbn [result_bind]. rewrite Hf. cbn [result_bind]. rewrite Hi. cbn [result_bind]. rewrite Ho. cbn [result_bind]. rewrite Hlay.
    by destruct (Z.ltb_spec MAX_STATEMENT_BYTES (Z.of_nat (length (header ++ layout st name flavor ins outs)))); [lia|].
Qed.

Lemma identifier_Ok s t : ascii_identifier_parse s = Ok t ↔ t = s ∧ s ≠ "" ∧ is_ascii s = true.
Proof.
  unfold ascii_identifier_parse. destruct (String.eqb_spec s ""); [naive_solver|]. destruct (is_ascii s); simpl; naive_solver.
Qed.

(** The limits that [new] enforces. *)
Lemma new_Ok i n c p m w f v ins outs ws st :
  new i n c p m w f v ins outs ws = Ok st →
  st = mkLeafStatement i n c p m w f v ins outs ws ∧ Z.of_nat (length ins) ≤ MAX_CLAIMS ∧ Z.of_nat (length outs) ≤ MAX_CLAIMS ∧
  Z.of_nat (length ws) ≤ MAX_CLAIMS * 256.
Proof.
  unfold new. destruct (_ || _); [done|]. intros (k & [<- Hk]%ok_or_Ok%try_u64_Some & H)%result_bind_Ok.
  destruct (Z.ltb_spec MAX_CLAIMS (Z.of_nat (length ins) + Z.of_nat (length outs))); [done|].
  destruct (_ || _); [done|]. destruct (Z.ltb_spec (MAX_CLAIMS * 256) (Z.of_nat (length ws))); [done|]. apply Ok_inj in H as <-. split_and!; [done|lia..].
Qed.

Lemma decode_encoded st b : statement_ok st → encode st = Ok b → decode b = Ok st.
Proof.
  intros Hok (name & flavor & ins & outs & Hp & -> & Hmax)%encode_Ok; [|done]. destruct Hp as [Hn Hf Hi Ho].
  destruct (new_Ok _ _ _ _ _ _ _ _ _ _ _ _ (so_new _ Hok)) as (_ & Hil & Hol & Hwl).
  pose proof (so_digests _ Hok) as Hd. rewrite !Forall_cons in Hd. destruct Hd as (H1 & H2 & H3 & H4 & H5 & _).
  unfold decode. destruct (Z.ltb_spec MAX_STATEMENT_BYTES (Z.of_nat (length (header ++ layout st name flavor ins outs)))); [lia|].
  unfold header. rewrite <-app_assoc, bool_decide_eq_true_2 by apply prefix_app_r, reflexivity. cbn [orb negb]. rewrite drop_app_length. unfold layout.
  apply result_bind_Ok. exists (st, []). split; [|done].
  apply (get_step in_u32 (λ z, Ok (encode_u32 z)) _ _ LEAF_STATEMENT_SCHEMA_VERSION); [unfold LEAF_STATEMENT_SCHEMA_VERSION; zlia|done|]. cbn [Z.eqb negb].
  apply (get_step _ _ _ _ _ _ _ _ (so_id _ Hok) eq_refl), (get_step _ _ _ _ _ _ _ _ (so_name _ Hok) Hn),
    (get_step _ _ _ _ _ _ _ _ H1 eq_refl), (get_step _ _ _ _ _ _ _ _ H2 eq_refl), (get_step _ _ _ _ _ _ _ _ H3 eq_refl),
    (get_step _ _ _ _ _ _ _ _ H4 eq_refl).
  pose proof (so_flavor _ Hok) as Hfl. destruct (proj1 (identifier_Ok _ _) Hfl) as (_ & _ & Ha).
  apply (get_step _ _ _ _ _ _ _ _ (ascii_utf8 _ Ha) Hf). eapply get_bind_eq; [apply get_lift_Ok; by rewrite Hfl|].
  apply (get_step _ _ _ _ _ _ _ _ H5 eq_refl), (get_step _ _ _ _ _ _ _ _ (conj Hil (so_inputs _ Hok)) Hi),
    (get_step _ _ _ _ _ _ _ _ (conj Hol (so_outputs _ Hok)) Ho).
  apply (get_step in_u32 (λ z, Ok (encode_u32 z)) _ _ (Z.of_nat (length (public_weights st)))); [change (MAX_CLAIMS * 256) with 1048576 in Hwl; zlia|done|].
  destruct (Z.ltb_spec (MAX_CLAIMS * 256) (Z.of_nat (length (public_weights st)))); [lia|]. rewrite Nat2Z.id.
  rewrite <-(app_nil_r (mjoin _)). eapply get_bind_eq; [apply (get_many_put in_I18 (λ w, Ok (encode_i64 (raw w)))); [exact _|apply so_weights, Hok|apply put_weights]|].
  rewrite bool_decide_eq_true_2 by done. cbn [negb]. by rewrite (so_new _ Hok).
Qed.

Lemma decoded_encode b st : decode b = Ok st → statement_ok st ∧ encode st = Ok b.
Proof.
  unfold decode. destruct (_ || _) eqn:Eh; [done|]. apply orb_false_iff in Eh as [Hmax%Z.ltb_ge Hpre%negb_false_iff%bool_decide_eq_true].
  destruct Hpre as [k ->]. rewrite drop_app_length. intros ([self rest] & H & E%Ok_inj)%result_bind_Ok. subst self.
  apply (get_field _ _ _) in H as (version & ? & s1 & _ & <-%Ok_inj & -> & H).
  destruct (Z.eqb_spec version LEAF_STATEMENT_SCHEMA_VERSION) as [->|]; [|done]. cbn [negb] in H.
  apply (get_field _ _ _) in H as (i & ? & s2 & Hid & <-%Ok_inj & -> & H).
  apply (get_field _ _ _) in H as (n & name & s3 & Hn & Hname & -> & H).
  apply (get_field _ _ _) in H as (c & ? & s4 & Hc & <-%Ok_inj & -> & H).
  apply (get_field _ _ _) in H as (p & ? & s5 & Hp & <-%Ok_inj & -> & H).
  apply (get_field _ _ _) in H as (m & ? & s6 & Hm & <-%Ok_inj & -> & H).
  apply (get_field _ _ _) in H as (w & ? & s7 & Hw & <-%Ok_inj & -> & H).
  apply (get_field _ _ _) in H as (f & flavor & s8 & Hf & Hflavor & -> & H).
  apply get_bind_Ok in H as (f' & s9 & [Hfl%map_err_Ok <-]%get_lift_Ok & H).
  destruct (proj1 (identifier_Ok _ _) Hfl) as (-> & _).
  apply (get_field _ _ _) in H as (v & ? & s10 & Hv & <-%Ok_inj & -> & H).
  apply (get_field _ _ _) in H as (ins & bi & s11 & [_ Hins] & Hbi & -> & H).
  apply (get_field _ _ _) in H as (outs & bo & s12 & [_ Houts] & Hbo & -> & H).
  apply (get_field _ _ _) in H as (count & ? & s13 & Hcount & <-%Ok_inj & -> & H).
  destruct (_ <? count); [done|]. apply get_bind_Ok in H as (ws & s14 & Hws & H).
  destruct (get_many_get in_I18 _ _ _ _ _ _ Hws) as (Hwl & Htw & bw & Hbw & ->).
  rewrite put_weights in Hbw. apply Ok_inj in Hbw as <-.
  destruct (bool_decide (s14 = [])) eqn:Er; [|done]. apply bool_decide_eq_true in Er as ->. cbn [negb] in H.
  apply result_bind_Ok in H as (st' & Hnew & [= <- <-]%Ok_inj).
  destruct (new_Ok _ _ _ _ _ _ _ _ _ _ _ _ Hnew) as (Hst & _). rewrite Hst in Hnew. subst st'.
  assert (statement_ok (mkLeafStatement i n c p m w f v ins outs ws)) as Hok by (split; try done; repeat constructor; done).
  split; [done|]. apply encode_Ok; [done|]. exists name, flavor, bi, bo. split_and!; [done| |done].
  unfold header, layout. cbn [shard_id circuit_digest partition_digest model_digest weights_digest verification_key_digest public_weights].
  rewrite <-!app_assoc, app_nil_r, Hwl, Z2Nat.id by zlia. done.
Qed.

(** C37. The encoding of statements is canonical: bytes decode to a statement exactly
    when the statement is well formed and encodes to these bytes. *)
Theorem statement_encoding_canonical b st : decode b = Ok st ↔ statement_ok st ∧ encode st = Ok b.
Proof. split; [apply decoded_encode|]. intros [Hok He]. by apply decode_encoded. Qed.
