(* ===== verification/WitnessTheorems.v ===== *)
(** * The CPU witness back end: properties

    Execution of a constructed back end, its artifacts, and the circuit of the program
    that is lowered from one; each at a concrete shard too. *)
From stdpp Require Import gmap.
From S2P Require Import Prelude Ordering Bytes Field FixedPoint State Identity Program Circuit CircuitLogic RangeCheck Eltwise Shape DotProduct Honest Dag Norm NormProofs Backend Onnx PoseidonBoundary Assembler AssemblerProofs AssemblerHonest Evaluate ProgramCircuit ProgramCircuitProofs Concrete ProgramTheorems WitnessCpu WitnessRun WitnessArtifact.
Import Backend WitnessCpu Exec.

Open Scope Z_scope.

Section Theorems.
Context `{A : Arithmetic, O : HashOrder, !HashOrderLaws O, B : Blake3}.

(** C8. Executing a shard.  A back end that its constructor returned never panics on
    any inputs.  It accepts exactly the required tensors, with the declared lengths
    and within the limits; from then on it fails only at a limit or in an
    instruction, so no register is ever missing and the record count is always the
    announced one.  What it returns is determined: the inputs it read, every virtual
    register as its instruction computes it, and the declared outputs. *)
Theorem execution_exact program shard domains run limits manifest self supplied :
  limits_typed limits → with_limits program shard domains run limits manifest = Some (Ok self) →
  match execute self supplied with
  | Some (Ok art) => accepted self supplied ∧ artifact_ok self supplied art
  | Some (Err e) => ¬ accepted self supplied ∧ validate_supplied_inputs self supplied = Some (Err e) ∨
                    accepted self supplied ∧ execution_error self e
  | None => False
  end.
Proof using HashOrderLaws0.
  intros Ht (Hok & _ & _ & _ & _ & El)%with_limits_ok. rewrite <-El in Ht.
  pose proof (execute_out self supplied Hok Ht) as H. destruct (execute self supplied) as [[art|e]|]; simpl in H; [done| |done].
  destruct H as [H|H]; [left|by right]. split; [|done]. intros Ha. apply (validate_supplied_spec self supplied Hok Ht) in Ha. congruence.
Qed.

(** C9. Loading recomputes.  Decoding an artifact never panics, and it accepts
    exactly the wires that carry, in any order of their entries, what some execution
    of this back end returned: identity, inputs, virtual registers and outputs. *)
Theorem decoded_artifact_was_executed program shard domains run limits manifest self wire :
  limits_typed limits → with_limits program shard domains run limits manifest = Some (Ok self) →
  decode_artifact_wire self wire ≠ None ∧
  ∀ art, decode_artifact_wire self wire = Some (Ok art) ↔
    carries wire art ∧ ∃ supplied, execute self supplied = Some (Ok art).
Proof using HashOrderLaws0.
  intros Ht (Hok & _ & _ & _ & _ & El)%with_limits_ok. rewrite <-El in Ht.
  pose proof (decode_out self Hok Ht wire) as Hd. split; [by intros E; rewrite E in Hd|]. intros art. split.
  - intros E. by apply (out_Ok _ _ _ _ Hd).
  - intros [Hc [supplied Hx]]. by apply (decode_carried self Hok Ht supplied).
Qed.

(** C38. Artifacts read back.  What an execution returns can be written, and reading
    it gives the artifact again. *)
Theorem artifact_roundtrip program shard domains run limits manifest self supplied art :
  limits_typed limits → with_limits program shard domains run limits manifest = Some (Ok self) →
  execute self supplied = Some (Ok art) →
  ∃ wire, to_wire art = Ok wire ∧ decode_artifact_wire self wire = Some (Ok art).
Proof using HashOrderLaws0.
  intros Ht (Hok & _ & _ & _ & _ & El)%with_limits_ok Hx. rewrite <-El in Ht.
  destruct (to_wire_carries self Hok Ht supplied art Hx) as (wire & Hw & Hc). exists wire. split; [done|].
  by apply (decode_carried self Hok Ht supplied).
Qed.

Context `{P : PoseidonParameters, L : Layouter, !Synthesis L}.

(** C7. What is executed can be proved.  The artifact of a shard without RMS norms
    lowers to an assembler program that the reference semantics evaluates to the
    artifact's virtual registers.  Its circuit is built and synthesized, and satisfied
    by every grid that holds the honest witnesses and has, as its public values, the
    ones the back end returns. *)
Theorem executed_shard_accepted program shard domains run limits manifest self supplied art :
  ExactArithmetic A → TotalArithmetic A → Roomy L → map_Forall (λ _ d, domain_typed d) domains →
  limits_typed limits → with_limits program shard domains run limits manifest = Some (Ok self) →
  typed_inputs supplied → shard_rms_free self → execute self supplied = Some (Ok art) →
  ∃ prog publics virts circuit,
    program_and_public_values self art = Some (Ok (prog, publics)) ∧
    eval_program checked_total (Assembler.input_values prog) (Assembler.weight_values prog) (Assembler.instructions prog) [] = Some virts ∧
    (∀ i, virts !! i = art_virtuals art !! (range_start (shard_range shard) + i)%nat) ∧
    ProgramCircuit.new_with_public_outputs prog domains (public_output_indices self) = Ok circuit ∧
    ∀ cs config, configured (ProgramCircuit.configure_with_params (ProgramCircuit.params circuit)) cs config → cs_ok cs →
      ∃ d, ProgramCircuit.synthesize circuit config empty_log = Some (Ok d) ∧
        ∀ planner grid, agrees planner grid (dn_calls d) → padded cs (dn_calls d) →
          (∀ instance, Assembler.public_instance (ProgramCircuit.assembler config) = Some instance →
            published grid instance 0 ((λ x, fr (raw x)) <$> publics)) →
          satisfied planner grid cs (dn_calls d).
Proof using HashOrderLaws0.
  intros Hex Htot Hroom Hdom Ht Hnew Hin Hrms Hx. destruct (with_limits_ok _ _ _ _ _ _ _ Hnew) as (Hok & Ep & Es & Ed & Er & El).
  rewrite <-El in Ht. destruct (out_Ok _ _ _ _ (execute_out self supplied Hok Ht) Hx) as [Ha Hart].
  assert (∀ pos r, r ∈ uses self → foreign self r → out (artifact_values art pos r) (λ v, origin self supplied r = Some v) (λ _, False)) as Hfetch.
  { intros pos r Hu Hf. unfold artifact_values. rewrite (ao_inputs _ _ _ Hart).
    by destruct (origin_Some self supplied Hok (ac_complete _ _ Ha) r Hu Hf) as [v ->]. }
  pose proof (lower_out self _ _ _ Hfetch (length_instrs_of self Hok)) as Hl.
  destruct (lower self (artifact_values art)) as [[prog|]|] eqn:El'; [|done..]. destruct Hl as (ext & Hext & Hval & Hrefs).
  pose proof (lowered_evaluates self supplied Hok art Hart (ac_complete _ _ Ha) Hin Hrms prog ext Hext Hrefs) as Heval.
  destruct (public_outputs_found self Hok supplied art Hart) as (outs & Houts & Hsel).
  assert (Forall (Forall in_I18) (Assembler.input_values prog ++ Assembler.weight_values prog)) as Htyped.
  { eapply Forall_impl; [exact Hval|]. intros v [r Hr]. by eapply origin_typed. }
  apply Forall_app in Htyped.
  assert (rms_free (Assembler.instructions prog)) as Hfree.
  { apply Forall_forall. intros instr [i Hi]%list_elem_of_lookup. destruct (Forall2_lookup_r _ _ _ _ _ Hrefs Hi) as (c & Hc & -> & _).
    unfold shard_rms_free in Hrms. rewrite Forall_lookup in Hrms. by eapply Hrms. }
  assert (∃ circuit, ProgramCircuit.new_with_public_outputs prog domains (public_output_indices self) = Ok circuit) as [circuit Hcircuit].
  { unfold ProgramCircuit.new_with_public_outputs. rewrite public_indices_valid; [by eexists|done|].
    by rewrite <-(Forall2_length _ _ _ Hrefs), length_instrs_of. }
  eexists prog, _, (virtual_list self art), circuit. unfold program_and_public_values. rewrite El'. cbn [outcome_bind].
  rewrite Houts. cbn [or_panics option_map outcome_bind]. split_and!; [done|exact Heval| |done|].
  { intros i. rewrite (virtual_list_lookup self supplied art Hart). by rewrite Es. }
  intros cs config Hcfg Hcs.
  destruct (honest_accepted prog domains (public_output_indices self) circuit cs config _ outs Hex Htot Hroom Hdom Hcircuit Hfree Htyped Hcfg Hcs Heval Hsel)
    as (d & Hd & Hsat). exists d. split; [done|]. intros planner grid Hag Hpad Hpub. apply Hsat; [done..|].
  intros instance Hi. specialize (Hpub instance Hi). unfold encoded. by rewrite app_assoc, concat_app.
Qed.
End Theorems.

(** ** A concrete shard *)

Section Instance.
#[local] Existing Instances debug_arithmetic ordered ordered_laws toy_blake3 toy_parameters toy_synthesis.

(** The last two of three instructions: [(v0 + x) * b] with [b = 0.5]. *)
Definition concrete_program : CompiledProgram := mkProgram
  [mkInstruction (DotGeneral 1 1 1 [] false false) [GraphInput "x"; Weight "w"] "v0";
   mkInstruction (Eltwise Add) [Virtual 0; GraphInput "x"] "v1";
   mkInstruction (Eltwise Mul) [Virtual 1; Weight "b"] "v2"]
  {["w" := mkWeight [1%nat] [1065353216]; "b" := mkWeight [1%nat] [1056964608]]} ["x"] [("y", Virtual 2)].
Definition concrete_shard : Shard := mkShard 1 "tail" (mkRange 1 3) [Virtual 0] [Virtual 2].
Definition concrete_run : RunIdentity :=
  let d := repeat (byte_of_Z 7) 32 in mkRunIdentity d d d d d d d SUPPORTED_PROOF_FLAVOR PublicModel 2 1.
Definition concrete_manifest : BoundaryShapeManifest := mkManifest {["x" := 2]} {[0%nat := 1]}.
Definition concrete_inputs : CpuWitnessInputs :=
  mkInputs {["x" := [I18_ 500000000000000000; I18_ (-300000000000000001)]]} {[0%nat := [I18_ 120000000000000000]]}.
Definition concrete_backend : Outcome ZkieIsaCpuWitnessBackend BackendError :=
  with_limits concrete_program concrete_shard ∅ concrete_run default_limits concrete_manifest.

(** The virtual registers of its execution, as raw numbers. *)
Definition concrete_virtuals : option (list (nat * list Z)) :=
  match (let~ self := concrete_backend in execute self concrete_inputs) with
  | Some (Ok art) => Some (map (λ '(p, v), (p, map raw v)) (btree Nat.compare (art_virtuals art)))
  | _ => None
  end.
Example concrete_run_values : concrete_virtuals =
  Some [(1%nat, [620000000000000000; -180000000000000001]); (2%nat, [310000000000000000; -90000000000000001])].
Proof. vm_cast_no_check (eq_refl concrete_virtuals). Qed.

Lemma concrete_case : ∃ self art, with_limits concrete_program concrete_shard ∅ concrete_run default_limits concrete_manifest = Some (Ok self) ∧
  execute self concrete_inputs = Some (Ok art) ∧ shard_rms_free self.
Proof.
  pose proof concrete_run_values as H. unfold concrete_virtuals in H. unfold concrete_backend in H.
  destruct (with_limits _ _ _ _ _ _) as [[self|]|] eqn:Es; [|done..]. cbn [outcome_bind] in H.
  destruct (execute self concrete_inputs) as [[art|]|] eqn:Ea; [|done..]. exists self, art. split_and!; [done..|].
  apply with_limits_ok in Es as (_ & Ep & Ec & _). unfold shard_rms_free. rewrite Ep, Ec. repeat constructor; discriminate.
Qed.

Lemma default_typed : limits_typed default_limits.
Proof. unfold limits_typed. apply (bool_decide_unpack _). by vm_compute. Qed.
Lemma concrete_typed : typed_inputs concrete_inputs.
Proof. split; apply (bool_decide_unpack _); by vm_compute. Qed.

Example execution_exact_witness : ∃ self art, execute self concrete_inputs = Some (Ok art) ∧ artifact_ok self concrete_inputs art.
Proof.
  destruct concrete_case as (self & art & Hs & Ha & _). exists self, art. split; [exact Ha|].
  pose proof (execution_exact concrete_program concrete_shard ∅ concrete_run default_limits concrete_manifest self concrete_inputs default_typed Hs) as H.
  rewrite Ha in H. exact (proj2 H).
Defined.

Example decoded_artifact_was_executed_witness : ∃ self, ∀ wire art,
  decode_artifact_wire self wire = Some (Ok art) → carries wire art ∧ ∃ supplied, execute self supplied = Some (Ok art).
Proof.
  destruct concrete_case as (self & art & Hs & Ha & _). exists self. intros wire art' Hd.
  exact (proj1 (proj2 (decoded_artifact_was_executed concrete_program concrete_shard ∅ concrete_run default_limits concrete_manifest self wire
    default_typed Hs) art') Hd).
Defined.

Example artifact_roundtrip_witness : ∃ self art wire, execute self concrete_inputs = Some (Ok art) ∧ to_wire art = Ok wire ∧
  decode_artifact_wire self wire = Some (Ok art).
Proof.
  destruct concrete_case as (self & art & Hs & Ha & _). exists self, art.
  destruct (artifact_roundtrip concrete_program concrete_shard ∅ concrete_run default_limits concrete_manifest self concrete_inputs art
    default_typed Hs Ha) as (wire & H). exists wire. split; [exact Ha|exact H].
Defined.

Example executed_shard_accepted_witness : ∃ self art prog publics virts, execute self concrete_inputs = Some (Ok art) ∧
  program_and_public_values self art = Some (Ok (prog, publics)) ∧
  eval_program checked_total (Assembler.input_values prog) (Assembler.weight_values prog) (Assembler.instructions prog) [] = Some virts.
Proof.
  destruct concrete_case as (self & art & Hs & Ha & Hr).
  destruct (executed_shard_accepted concrete_program concrete_shard ∅ concrete_run default_limits concrete_manifest self concrete_inputs art
    debug_arithmetic_exact debug_arithmetic_total toy_roomy (map_Forall_empty _) default_typed Hs concrete_typed Hr Ha)
    as (prog & publics & virts & circuit & Hp & Hv & _).
  exists self, art, prog, publics, virts. split; [exact Ha|]. split; [exact Hp|exact Hv].
Defined.
End Instance.
