(* ===== verification/StoreTheorems.v ===== *)
(** * What the content stores guarantee

    Objects are published whole or not at all, whatever other processes do meanwhile;
    they are found again by their digest; their metadata and the attestations made of
    them mean what was written. *)
From stdpp Require Import gmap.
From S2P Require Import Queue RunDb Prelude Bytes State Identity PoseidonBoundary PoseidonProofs Decode Store.
From S2P Require Import StoreFs StoreLogic StoreReads StorePublish StoreStage.
From S2P Require Import Concrete.
Import Store StoreFs Commit.

Open Scope Z_scope.

(** The promises of the calls and of the other processes. *)
Definition keeps_promises `{Blake3} (K : Kernel) (faulty private : Prop) (objects : FileIdentity) : Prop :=
  (∀ R (c : Sys R) v r v', kernel c v r v' → effect faulty c v r v') ∧ (∀ v v', interferes v v' → rely private objects v v').

(** C14. Publishing is atomic.  Other processes run between any two calls of a
    publication: they may rename and replace staged files and change every file that is
    not private, and the run may stop anywhere.  At every moment every object of the
    store, but for the one being published, is valid, and this one too if the names of
    private files are left alone.  A publication always answers; when it succeeds every
    object is valid, and its name holds exactly the validated metadata and a payload of
    the digest.  It fails only when a call fails, the validated file is not in place,
    a random name is taken, or two objects collide. *)
Theorem publish_among_others `{Blake3} (K : Kernel) faulty private objects staging self va iv good payload v p' v' :
  keeps_promises K faulty private objects → staging ≠ objects →
  (good → private ∧ va_identity va = iv ∧ payload_ok (va_metadata va) payload ∧ va_digest va = digest_of (va_metadata va) payload ∧
     12 + Z.of_nat (length (metadata_bytes (va_metadata va))) + size (va_metadata va) ≤ u64_max) →
  before objects staging self va iv good payload v → rtc step (publish self va, v) (p', v') →
  always private objects va v' ∧ ∀ r, p' = Ret r → publication faulty objects staging self va iv good r v'.
Proof.
  intros [Hk Hi] Hne Hgood Hv Hrun.
  exact (wp_runs _ _ _ _ _ v Hk Hi (wp_publish faulty private objects staging Hne self va iv good payload Hgood v Hv) p' v' Hrun).
Qed.

(** What opening an object by its digest returns, from the state [v0]. *)
Definition opens `{Blake3} (faulty : Prop) (objects : FileIdentity) (self : StoreCore) (digest : Digest32) (v0 : View)
    (r : Outcome (Fd * ObjectMetadata) StoreError) (v : View) : Prop :=
  match r with
  | Some (Ok (fd, m)) => ∃ i payload, payload_ok m payload ∧ digest = digest_of m payload ∧
      entry v objects (object_name digest) = Some i ∧ v_files v !! i = Some (envelope m payload) ∧
      v_fds v !! fd = Some (i, 12 + Z.of_nat (length (metadata_bytes m))) ∧ require_kind self m = Ok tt
  | Some (Err e) => faulty ∨ e = WrongStoreKind ∨ (e = NotFound digest ∧ entry v0 objects (object_name digest) = None)
  | None => False
  end.

Lemma wp_opens `{Blake3} faulty private objects self digest v0 :
  objects_valid objects (λ _, True) v0 → identity_of v0 (objects_fd self) = Some objects →
  wp faulty (rely private objects) (objects_valid objects (λ _, True)) (open_verified_with_metadata self digest)
    (opens faulty objects self digest v0) v0.
Proof.
  intros Hv Hid. set (name := object_name digest).
  set (I v := objects_valid objects (λ _, True) v ∧ identity_of v (objects_fd self) = Some objects ∧
    ∀ i, entry v0 objects name = Some i → entry v objects name = Some i).
  assert (calm private objects I) as HI.
  { apply calm_and; [apply calm_objects_valid|apply calm_and; [apply calm_identity|]]. split; intros v v' Hn Hr i Hi; specialize (Hn i Hi);
      [by apply (calm_rely _ _ _ (calm_name private objects name i) v v')|by apply (calm_looks _ _ _ (calm_name private objects name i) v v')]. }
  apply (wp_open_verified faulty private objects _ I HI).
  - by intros v [? _].
  - by intros v (_ & ? & _).
  - intros v i (Hall & _) Hi. by apply Hall.
  - by split_and!.
  - intros e v' _ [Hf|[(-> & v1 & (_ & _ & Hn) & He)|Hw]]; [by left| |by right; left]. right; right. split; [done|].
    fold name. destruct (entry v0 objects name) as [i|]; [|done]. specialize (Hn i eq_refl). fold name in He. congruence.
  - intros fd i m payload v' _ Hp Hd (He & _ & Hf) Hfd Hk. exists i, payload. by split_and!.
Qed.

(** C20. Objects are found again.  Opening by digest always answers; what it opens is,
    at the payload, the file of that name, whose metadata and payload hash to the
    digest; and in a store of valid objects it fails only when a call fails, on the
    wrong kind of object, or when there was no such object. *)
Theorem opened_object_is_stored `{Blake3} (K : Kernel) faulty private objects self digest v p' v' :
  keeps_promises K faulty private objects → objects_valid objects (λ _, True) v → identity_of v (objects_fd self) = Some objects →
  rtc step (open_verified_with_metadata self digest, v) (p', v') →
  objects_valid objects (λ _, True) v' ∧ ∀ r, p' = Ret r → opens faulty objects self digest v r v'.
Proof.
  intros [Hk Hi] Hv Hid Hrun. exact (wp_runs _ _ _ _ _ v Hk Hi (wp_opens faulty private objects self digest v Hv Hid) p' v' Hrun).
Qed.

(** The metadata of a job's proof. *)
Definition proof_metadata `{Blake3} (planned : PlannedJob) (identity : TrustedProofIdentity) (b : bytes) : ObjectMetadata :=
  Artifact (mkArtifactMetadata (pj_logical_id planned) (blake3 b) (Z.of_nat (length b)) (proof_digest identity)).

Lemma proof_identity_Ok `{Blake3} planned run_id id attempt binding b identity :
  proof_identity planned run_id id attempt binding b = Ok identity →
  tp_run_id identity = run_id ∧ tp_job identity = id ∧ tp_attempt identity = attempt ∧ tp_job_kind identity = pj_kind planned ∧
  tp_proof_content_digest identity = blake3 b ∧ is_Some (proof_digest identity).
Proof.
  unfold proof_identity, proof_identity_new. set (i := mkProofIdentity _ _ _ _ _ _ _ _ _ _ _ _ _ _ _ _ _ _). intros E.
  destruct (validate_identifier (tp_proof_flavor i)); [|discriminate E]. destruct (validate_identifier (tp_execution_backend i)); [|discriminate E].
  destruct (validate_identifier (tp_run_id i)); [|discriminate E]. cbn [result_bind] in E. destruct (negb _); [discriminate E|].
  destruct (proof_canonical_bytes i) as [c|] eqn:Ec; [|discriminate E]. apply Ok_inj in E as <-. split_and!; [done..|].
  unfold proof_digest. rewrite Ec. by eexists.
Qed.

(** C13. [commit_proof] stores and attests what the job has staged.  Among other processes
    and at every moment the objects of the store are valid, but for the one being
    published if others rename private files.  An attested proof has the identity of
    the planned job and its attempt, its object is in the store, and holds the bytes
    that were read, unless two payloads collide; the database is told the run, job,
    attempt, kind and digests of exactly this object. *)
Theorem staged_proof_attested `{Blake3} (K : Kernel) faulty private objects staging store names planned run_id id attempt binding b identity v p' v' :
  keeps_promises K faulty private objects → staging ≠ objects → (∀ x, digest_ok (blake3 x)) → rest objects staging store v →
  proof_identity planned run_id id attempt binding b = Ok identity → validate_identifier (pj_logical_id planned) = Ok tt →
  4096 + Z.of_nat (length b) ≤ u64_max →
  rtc step (publish_proof store names planned run_id id attempt binding b, v) (p', v') →
  let m := proof_metadata planned identity b in
  others_valid private objects m b v' ∧
  ∀ r, p' = Ret r → attesting faulty private objects staging store m b identity names r v' ∧
    ∀ pu checks, r = Some (Ok (identity, pu)) → ∃ o, proof_object identity pu checks = Some o ∧
      vo_run_id o = run_id ∧ vo_job o = id ∧ vo_attempt o = attempt ∧ vo_artifact_id o = Some (pj_logical_id planned) ∧
      vo_job_kind o = pj_kind planned ∧ vo_object_digest o = digest_of m b ∧ vo_content_digest o = blake3 b ∧
      vo_content_size o = Z.of_nat (length b).
Proof.
  intros [Hk Hi] Hne Hblake Hv Hid Hlogical Hmax Hrun m. apply proof_identity_Ok in Hid as Hparts.
  destruct Hparts as (Hr & Hj & Ha & Hkind & Hc & [d Hd]).
  assert (payload_ok m b) as Hp.
  { split; [|done]. split; [exact Hlogical|]. split; [apply Hblake|]. split; [cbn; zlia|]. cbn. rewrite Hd. unfold proof_digest in Hd.
    destruct (proof_canonical_bytes identity); [|done]. injection Hd as <-. apply Hblake. }
  assert (12 + Z.of_nat (length (metadata_bytes m)) + size m ≤ u64_max) as Hbound.
  { pose proof (metadata_bytes_length m (proj1 Hp)). cbn [size m proof_metadata am_size]. lia. }
  assert (proof_matches identity m = Some true) as Hmatch.
  { cbn. rewrite bool_decide_eq_true_2 by done. rewrite Hd. cbn. by rewrite bool_decide_eq_true_2. }
  pose proof (wp_attesting faulty private objects staging Hne store m b Hp Hbound identity (proof_matches identity) ProofIdentityMismatch names v Hmatch Hv) as Hwp.
  unfold publish_proof in Hrun. rewrite Hid in Hrun. cbn [lift and_then bind] in Hrun. rewrite Hd in Hrun. cbn [or_panic ok and_then bind] in Hrun.
  unfold artifact_metadata_new_proof, artifact_metadata_new in Hrun. rewrite Hlogical in Hrun. cbn [result_bind lift and_then bind] in Hrun.
  subst m. unfold proof_metadata in *. rewrite Hd in *.
  destruct (wp_runs _ _ _ _ _ v Hk Hi Hwp p' v' Hrun) as [HJ Hres]. split; [exact HJ|]. intros r Hr'. specialize (Hres r Hr'). split; [exact Hres|].
  intros pu checks ->. destruct Hres as (_ & _ & Em & Ed & _). unfold proof_object, proof_attestation. rewrite Hd. cbn [mbind option_bind].
  eexists. split; [done|]. rewrite Em, Ed. by split_and!.
Qed.

(** Metadata are canonical.  Bytes decode exactly to the metadata that are well
    formed and encode to these bytes; and every metadata the constructors make is
    encodable. *)
Theorem metadata_canonical b m :
  (decode_metadata b = Ok m ↔ metadata_ok m ∧ encode_metadata m = Ok b) ∧ (metadata_ok m → is_ok (encode_metadata m) = true).
Proof. split; [apply metadata_codec|]. intros Hm. by rewrite (proj2 (encode_metadata_Ok m _ Hm) eq_refl). Qed.

(** An attestation binds.  If two attestations are equal, they are of the same kind
    of identity with the same contents, and of objects with the same metadata and
    payload; or two attested, identity or object preimages collide. *)
Theorem attestation_binds `{Blake3} i j m m' payload payload' a :
  (∀ b, digest_ok (blake3 b)) → identity_ok i → identity_ok j → metadata_ok m → metadata_ok m' →
  attestation i (digest_of m payload) = Some a → attestation j (digest_of m' payload') = Some a →
  (same_identity i j ∧ m = m' ∧ payload = payload') ∨
  ∃ x y, x ≠ y ∧ blake3 x = blake3 y ∧
    ((∃ b c, canonical i = Ok b ∧ canonical j = Ok c ∧
       (x = b ∧ y = c ∨ x = attested i (blake3 b) (digest_of m payload) ∧ y = attested j (blake3 c) (digest_of m' payload'))) ∨
     x = DIGEST_DOMAIN ++ metadata_bytes m ++ payload ∧ y = DIGEST_DOMAIN ++ metadata_bytes m' ++ payload').
Proof.
  intros Hb Hi Hj Hm Hm' (b & Hcb & Ha)%attestation_Some (c & Hcc & Ha')%attestation_Some.
  set (x := attested i _ _) in *. set (y := attested j _ _) in *. rewrite Ha in Ha'.
  destruct (decide (x = y)) as [Exy|Hne]; [|right; exists x, y; eauto 10].
  apply attested_inj in Exy as [Ebc Eo]; [|apply Hb..].
  destruct (decide (b = c)) as [->|Hne]; [|right; exists b, c; eauto 10].
  destruct (decide (DIGEST_DOMAIN ++ metadata_bytes m ++ payload = DIGEST_DOMAIN ++ metadata_bytes m' ++ payload')) as [Ep|Hne].
  - left. split; [by eapply canonical_inj|by apply object_preimage_inj].
  - right. eexists _, _. split; [exact Hne|]. split; [exact Eo|by right].
Qed.

(** ** A run

    A store in memory: an object is staged, written, validated, published, and opened
    again. *)
Section Run.
#[local] Existing Instance toy_blake3.

Definition directory_id (n : Z) : FileIdentity := mkFileIdentity 0 n.
Definition empty_store : View :=
  mkView {[ 0%nat := (directory_id 0, 0); 1%nat := (directory_id 1, 0); 2%nat := (directory_id 2, 0); 3%nat := (directory_id 3, 0) ]} ∅
    {[ directory_id 0 := {[ "staging"%string := directory_id 1; "objects"%string := directory_id 2; "quarantine"%string := directory_id 3 ]};
       directory_id 1 := ∅; directory_id 2 := ∅; directory_id 3 := ∅ ]} ∅.
Definition core : StoreCore := mkStoreCore "/store" 0%nat 1%nat 2%nat 3%nat (replicate 32 (byte_of_Z 5)) ArtifactKind.
Definition payload : bytes := as_bytes "witness".
Definition metadata : ArtifactMetadata := mkArtifactMetadata "w0" (blake3 payload) 7 None.
Definition validated_object : Method ValidatedObject :=
  let^ staged := stage core 1%nat (Artifact metadata) in
  let^ '(_, staged) := write staged payload in
  validate core staged.

(** The state and the answer of a run. *)
Definition state_of {A} (r : option (Outcome A StoreError * View)) : View := match r with Some (_, v) => v | None => empty_store end.
Definition answer_of {A} (r : option (Outcome A StoreError * View)) (default : A) : A :=
  match r with Some (Some (Ok a), _) => a | _ => default end.
Definition validated_state : View := state_of (run validated_object empty_store).
Definition validated : ValidatedObject := answer_of (run validated_object empty_store) (mkValidated "" (Artifact metadata) [] 0%nat (directory_id 0)).
Definition published_state : View := state_of (run (publish core validated) validated_state).
Definition published_object : PublishedObject :=
  answer_of (run (publish core validated) validated_state) (mkPublished "" (Artifact metadata) [] 0%nat "" 0%nat 0%nat []).

Lemma validated_run : run validated_object empty_store = Some (Some (Ok validated), validated_state).
Proof. vm_compute. reflexivity. Qed.
Lemma published_run : run (publish core validated) validated_state = Some (Some (Ok published_object), published_state).
Proof. vm_compute. reflexivity. Qed.

Definition others : View → View → Prop := rely True (directory_id 2).
Lemma memory_keeps_promises : @keeps_promises _ (memory_kernel others) False True (directory_id 2).
Proof. split; [intros R c v r v'; apply memory_effect|done]. Qed.

Lemma metadata_well_formed : payload_ok (Artifact metadata) payload.
Proof. split; [|by split; vm_compute]. repeat split; try (by vm_compute). Qed.
Lemma validated_good : True → True ∧ va_identity validated = va_identity validated ∧ payload_ok (va_metadata validated) payload ∧
  va_digest validated = digest_of (va_metadata validated) payload ∧
  12 + Z.of_nat (length (metadata_bytes (va_metadata validated))) + size (va_metadata validated) ≤ u64_max.
Proof. intros _. split_and!; [done..|exact metadata_well_formed|by vm_compute|by vm_compute]. Qed.
Lemma validated_before :
  before (directory_id 2) (directory_id 1) core validated (va_identity validated) True payload validated_state.
Proof.
  assert (v_dirs validated_state !! directory_id 2 = Some ∅) as E by (vm_compute; reflexivity).
  assert (bool_decide (va_identity validated ∈ v_owned validated_state) = true) as Ho by (vm_compute; reflexivity).
  split; [|split; [split; [|split]|intros _; split; [|split]]].
  2-4: vm_compute; reflexivity. 3-4: vm_compute; reflexivity.
  - intros n i Hi. unfold entry in Hi. rewrite E in Hi. discriminate Hi.
  - exact (bool_decide_eq_true_1 _ Ho).
Qed.

(** The theorems at this run. *)

Lemma publish_among_others_witness :
  always True (directory_id 2) validated published_state ∧
  publication False (directory_id 2) (directory_id 1) core validated (va_identity validated) True (Some (Ok published_object)) published_state.
Proof.
  assert (directory_id 1 ≠ directory_id 2) as Hne by discriminate.
  destruct (publish_among_others (memory_kernel others) False True (directory_id 2) (directory_id 1) core validated (va_identity validated)
    True payload validated_state (Ret (Some (Ok published_object))) published_state memory_keeps_promises Hne validated_good validated_before
    (run_steps others _ _ _ _ published_run)) as [Ha Hp].
  split; [exact Ha|]. exact (Hp _ eq_refl).
Defined.

(** The published object is the only one, and valid. *)
Lemma published_valid : objects_valid (directory_id 2) (λ _, True) published_state.
Proof.
  intros n i Hi _.
  assert (v_dirs published_state !! directory_id 2 = Some {[ object_name (va_digest validated) := directory_id 5 ]}) as E by (vm_compute; reflexivity).
  unfold entry in Hi. rewrite E in Hi. cbn [mbind option_bind] in Hi. apply lookup_singleton_Some in Hi as [<- <-].
  exists (Artifact metadata), payload. split; [exact metadata_well_formed|]. split; vm_compute; reflexivity.
Qed.
Definition opened_run := run (open_verified_with_metadata core (pu_digest published_object)) published_state.
Definition opened_object : Fd * ObjectMetadata := answer_of opened_run (0%nat, Artifact metadata).
Lemma opened_run_Some : opened_run = Some (Some (Ok opened_object), state_of opened_run).
Proof. vm_compute. reflexivity. Qed.

Lemma opened_object_is_stored_witness :
  opens False (directory_id 2) core (pu_digest published_object) published_state (Some (Ok opened_object)) (state_of opened_run).
Proof.
  assert (identity_of published_state (objects_fd core) = Some (directory_id 2)) as Hid by (vm_compute; reflexivity).
  destruct (opened_object_is_stored (memory_kernel others) False True (directory_id 2) core (pu_digest published_object) published_state
    (Ret (Some (Ok opened_object))) (state_of opened_run) memory_keeps_promises published_valid Hid
    (run_steps others _ _ _ _ opened_run_Some)) as [_ Ho].
  exact (Ho _ eq_refl).
Defined.

(** The proof of a leaf, attested. *)
Definition leaf_identity : TrustedProofIdentity :=
  let d := replicate 32 (byte_of_Z 7) in
  mkProofIdentity ArLeafProof LeafProof 12 NotApplicable "run" "job" "attempt" (blake3 payload) d d d d d d d d "halo2" "cpu".
Definition proof_attestation_of : Digest32 :=
  match attestation (inl leaf_identity) (digest_of (Artifact metadata) payload) with Some a => a | None => [] end.
Lemma leaf_identity_well_formed : identity_ok (inl leaf_identity).
Proof.
  split; [|split; [split; vm_compute; congruence|discriminate]]. cbn [leaf_identity tp_digests].
  repeat (apply Forall_cons; split; [vm_compute; reflexivity|]). apply Forall_nil_2.
Qed.

Lemma attestation_binds_witness :
  let i := inl leaf_identity in
  attestation i (digest_of (Artifact metadata) payload) = Some proof_attestation_of ∧
  ((same_identity i i ∧ Artifact metadata = Artifact metadata ∧ payload = payload) ∨
   ∃ x y, x ≠ y ∧ blake3 x = blake3 y ∧
     ((∃ b c, canonical i = Ok b ∧ canonical i = Ok c ∧
        (x = b ∧ y = c ∨ x = attested i (blake3 b) (digest_of (Artifact metadata) payload) ∧ y = attested i (blake3 c) (digest_of (Artifact metadata) payload))) ∨
      x = DIGEST_DOMAIN ++ metadata_bytes (Artifact metadata) ++ payload ∧ y = DIGEST_DOMAIN ++ metadata_bytes (Artifact metadata) ++ payload)).
Proof.
  assert (attestation (inl leaf_identity) (digest_of (Artifact metadata) payload) = Some proof_attestation_of) as E by (vm_compute; reflexivity).
  split; [exact E|].
  exact (attestation_binds _ _ _ _ _ _ _ toy_blake3_digest leaf_identity_well_formed leaf_identity_well_formed
    (proj1 metadata_well_formed) (proj1 metadata_well_formed) E E).
Defined.

(** A leaf job whose staged bytes are published. *)
Definition leaf_binding : ProofBinding :=
  let d := replicate 32 (byte_of_Z 7) in mkProofBinding ArLeafProof 12 NotApplicable d d d d d d d d "halo2" "cpu".
Definition leaf_job : PlannedJob :=
  mkPlannedJob "leaf" LeafProof [] (Resource.mkRequest 1 1 0 0) (Worker.mkWorkerJob Worker.WkLeafProof ∅) (BindProof leaf_binding).
Definition leaf_run := run (publish_proof core 1 leaf_job "run" "job" "attempt" leaf_binding payload) empty_store.
Definition leaf_published : TrustedProofIdentity * PublishedObject := answer_of leaf_run (leaf_identity, published_object).
Lemma leaf_run_Some : leaf_run = Some (Some (Ok leaf_published), state_of leaf_run).
Proof. vm_compute. reflexivity. Qed.
Lemma empty_store_rest : rest (directory_id 2) (directory_id 1) core empty_store.
Proof.
  split; [|split; vm_compute; reflexivity]. assert (v_dirs empty_store !! directory_id 2 = Some ∅) as E by (vm_compute; reflexivity).
  intros n i Hi. unfold entry in Hi. rewrite E in Hi. discriminate Hi.
Qed.

Lemma staged_proof_attested_witness :
  attesting False True (directory_id 2) (directory_id 1) core (proof_metadata leaf_job leaf_identity payload) payload leaf_identity 1
    (Some (Ok leaf_published)) (state_of leaf_run).
Proof.
  assert (directory_id 1 ≠ directory_id 2) as Hne by discriminate.
  assert (proof_identity leaf_job "run" "job" "attempt" leaf_binding payload = Ok leaf_identity) as Hid by (vm_compute; reflexivity).
  assert (4096 + Z.of_nat (length payload) ≤ u64_max) as Hmax by (vm_compute; congruence).
  destruct (staged_proof_attested (memory_kernel others) False True (directory_id 2) (directory_id 1) core 1 leaf_job "run" "job" "attempt"
    leaf_binding payload leaf_identity empty_store (Ret (Some (Ok leaf_published))) (state_of leaf_run) memory_keeps_promises Hne
    toy_blake3_digest empty_store_rest Hid eq_refl Hmax (run_steps others _ _ _ _ leaf_run_Some)) as [_ Ho].
  exact (proj1 (Ho _ eq_refl)).
Defined.
End Run.
